(* ===== verification/_CoqProject ===== *)
-Q . S2P
Prelude.v
Model.v
Dag.v
DagTheory.v
DagProps.v
Bytes.v
Framing.v
JsString.v
Lineage.v
LineageProps.v
Json.v
JsonProps.v
Protocol.v
Inbox.v
ProtocolProps.v
Effects.v
Store.v
StoreTheory.v
StoreProps.v
BlobStore.v
BlobProps.v
Engine.v
EngineTheory.v
EngineSteps.v
EngineProps.v
Codec.v
Identity.v
IdentityProps.v
Session.v
SessionTheory.v
SessionProps.v
ShortCode.v
ShortCodeProps.v
Settings.v
Explain.v
JsMap.v
Rooms.v
Signaling.v
SignalingTheory.v
SignalingProps.v
SignalingEdges.v
Hub.v
HubProps.v
VaultFile.v
VaultFileProps.v
Kdbx.v
Services.v
ServicesTheory.v
Desk.v
Link.v
LinkTheory.v
LinkProps.v
KdbxProps.v
ServicesProps.v
ServicesFile.v
Offer.v
Calls.v
CallsProps.v
Snapshot.v
SnapshotProps.v
Bridge.v
BridgeProps.v
Meeting.v
MeetingTheory.v
MeetingWorld.v
MeetingProps.v
Window.v
WindowProps.v
Shell.v
Processes.v
ShellProps.v
Screen.v
ScreenProps.v
Mesh.v
AppStorage.v
WebSqlite.v
WebSqliteProps.v
Android.v
KeyFile.v
RateLimit.v
