(* ===== verification/Prelude.v ===== *)
(** * PassVault: a verification development

    PassVault keeps one password vault, a KDBX file that KeePassXC opens, on
    several devices without a server that could read it.  Each device stores
    every version of the file by its SHA-256 hash, with the graph of their
    parents; two devices that meet through a signaling server prove who they are
    over a WebRTC channel and give each other the versions they lack.  Only a
    person, or a plain fast-forward, changes which version is the current one.

    This is a model of the TypeScript under src/packages and src/apps, definition
    by definition, with theorems about it.  Everything is executable: the
    witnesses of the theorems run the operations with [vm_compute].

    ** The parts, and where they are

    A component is one file with its data and operations and one or more files
    with its theorems ([...Theory] for its invariant, [...Props] for what it
    guarantees).  The names of operations and fields are those of the source.

    - The revision graph: Dag.v, DagTheory.v, DagProps.v, of
      core/dag.ts (createRevisionGraph, ancestorsOf, findMergeBases,
      classifyDivergence, topologicalOrder, missingRevisions,
      validateRemoteGraph).
    - The domain model: Model.v and Lineage.v, LineageProps.v, of core/model.ts,
      lineage.ts, revisions.ts, conflicts.ts, transfers.ts and assert.ts.
    - The wire: Bytes.v, Framing.v of core/framing.ts and of
      planChunks; JsString.v, Json.v, JsonProps.v, which model strings of
      16-bit units, JSON.parse and JSON.stringify; Protocol.v, ProtocolProps.v
      of core/protocol.ts.
    - Storage: Store.v, StoreTheory.v, StoreProps.v of
      storage-sql/sqliteMetadataStore.ts and schema.ts (tables with their keys
      and references, transactions with rollback); BlobStore.v, BlobProps.v of
      storage-node/blobStore.ts over a disk that can fail and crash; Settings.v
      of storage-sql/settingsStore.ts and core/connection.ts;
      VaultFile.v, VaultFileProps.v of storage-node/vaultFile.ts.
    - Storage on a phone: AppStorage.v of
      apps/mobile/src/platform/appStorage.ts (files of the plugin whose calls
      work, fail or are cut short by the death of the process); WebSqlite.v,
      WebSqliteProps.v of platform/sqlite.ts, the driver over sql.js that writes
      the database out as a whole, the values that both drivers bind, and the
      desktop's driver (storage-node/sqliteDriver.ts); Android.v of the files of
      platform/androidPlatform.ts; KeyFile.v, how a device
      keeps its key (apps/desktop/src/main/identityStore.ts and loadIdentity of
      the phone).
    - The engine: Engine.v, EngineTheory.v, EngineSteps.v, EngineProps.v of
      sync/engine.ts and core/interpreter.ts.
    - Devices: Codec.v (hexadecimal and base64), Identity.v, IdentityProps.v of
      the identity package and of storage-sql/sqliteTrustStore.ts; Offer.v,
      the links of identity/pairing.ts; ShortCode.v,
      ShortCodeProps.v of core/shortCode.ts.
    - A session: Inbox.v of sync/controlInbox.ts; Session.v,
      SessionTheory.v, SessionProps.v of sync/session.ts; Link.v, LinkTheory.v,
      LinkProps.v, two devices with a session each over the link of
      transport/memoryLink.ts, in every interleaving.
    - The signaling server: JsMap.v, Rooms.v (rooms.ts, shortCodes.ts),
      Signaling.v (index.ts, signalingTypes.ts), SignalingTheory.v,
      SignalingProps.v, SignalingEdges.v of apps/signaling; RateLimit.v
      of its rateLimit.ts, in rationals that are rounded.
    - The transport: Hub.v, HubProps.v of transport/peerLinkHub.ts; Bridge.v,
      BridgeProps.v of transport/peerBridge.ts; Meeting.v, MeetingTheory.v,
      MeetingWorld.v, MeetingProps.v, the bridges of several
      devices and the signaling server together, with any other clients; Mesh.v,
      an earlier transport that the applications no longer use
      (transport/signalingClient.ts, webrtcLink.ts, webrtcMesh.ts).
    - Opening a vault: Kdbx.v, KdbxProps.v of the kdbx package.
    - The services of the application: Services.v, ServicesTheory.v,
      ServicesProps.v, ServicesFile.v, Explain.v, Calls.v,
      CallsProps.v, Snapshot.v, SnapshotProps.v of services/vaultServices.ts,
      snapshot.ts and platform.ts.  Desk.v is a concrete device to evaluate
      them on.
    - The window: Window.v, WindowProps.v of packages/ui/src/App.tsx, what it
      keeps, its handlers and effects as events, the texts it makes and which
      cards it shows of a snapshot.
    - The applications: Shell.v, what the window can ask (services/api.ts) and
      how the desktop answers through the preload script and its channels
      (apps/desktop/src/preload/index.ts, main/index.ts) and a phone by calls
      (apps/mobile/src/api.ts); Processes.v, the main process of the desktop, with
      the page of its window, and the process of a phone (apps/mobile/src/main.tsx) as event machines, and
      that of the signaling server (apps/signaling/src/main.ts);
      ShellProps.v.  Screen.v, ScreenProps.v: the cards of App.tsx, what they
      offer and what a press asks of the application.

    Effects.v has the monad of stateful code that may throw: what was done
    before a throw stays done.  [Part] says that one state is part of another,
    and [zoom] runs an operation of the part.  This file has the exceptions of
    pure code ([result]), [assert], and the sets of JavaScript.

    ** How they interact

    A component sees another through a class, which the implementation
    instantiates: [BlobStore] (what core/ports.ts promises the engine; the disk
    of BlobStore.v and the storage of AppStorage.v are instances),
    [VaultFileAccess] (the files of a platform; those of VaultFile.v and, while
    no write is cut short, those of Android.v), [TrustStore] (both trust stores of Identity.v),
    [PeerAuthenticator] (Session.v needs it; the authenticator of Identity.v is
    an instance), [Network] (Calls.v; the signaling server of Signaling.v is an
    instance), [SessionInvariant] (an invariant that every step of a session
    keeps).  The theorems of the engine and of a session are about any instance,
    those of the services about any files and blobs.

    Concurrency is interleaving.  A promise that is awaited splits a function
    into steps: the puts of a blob store, the two callers of a transaction, the
    tasks of a session, the watcher of a file, the events of the bridge and of
    the server are steps that may come in any order the program allows, and the
    invariants are proved by induction on what is reachable.

    ** What the theorems show

    - History is never lost or made up: [EngineProps.engine_history_sound],
      [EngineProps.ingest_verified], [EngineProps.catch_up_completes],
      [StoreProps.transaction_atomic], [BlobProps.blobs_survive_crashes],
      [SessionProps.session_only_adds]; and two devices that both end their
      session agree on what they found and hold each other's versions
      ([LinkProps.sessions_converge], [LinkProps.session_result_so]).  On a phone, what a flush wrote is there
      ([WebSqliteProps.changes_saved]), and what the two writes of a flush and
      the write of a vault lose when the process dies between their parts
      ([WebSqliteProps.killed_flush_forgets],
      [Android.torn_write_becomes_current]).
    - The current version changes only as it should, and where it does not:
      [ServicesFile.session_end_head], [ServicesFile.combined_version_used],
      [ServicesFile.current_version_written],
      [ServicesFile.held_back_save_buries], [ServicesFile.late_end_drops_save],
      [KdbxProps.merged_version_opens], [EngineProps.merge_recorded].
    - A peer is who it says: [SessionProps.peer_is_pinned],
      [SessionProps.hidden_until_verified], [IdentityProps.verifyPeer_sound],
      [ServicesProps.only_the_person_confirms]; and a device stays who it was
      ([KeyFile.identity_kept]).
    - The graph means what it says: [DagProps.classifyDivergence_correct], its
      mirror, the parents-first order.
    - What arrives is what was sent: the round trips of frames, messages, codes,
      offers, and the bounds on what is accepted from a peer
      ([ProtocolProps.parseMessage_within_limits]) and on how often a client is
      served ([RateLimit.burst_bounded]).
    - Devices find each other: [MeetingProps.devices_meet] (the bridges and the
      server, under every interleaving), [SignalingProps.signals_reach],
      [CallsProps.typed_code_pairs], [BridgeProps.always_coming_back],
      [BridgeProps.presence_known], [Inbox.inbox_fifo].
    - A person is told what is so: [SnapshotProps.windows_tell_truth],
      [WindowProps.pairing_ends], [WindowProps.window_knows_peers]; and where a
      device is not asked: [WindowProps.sync_asked_while_syncing_is_dropped].
    - A person is asked: what cannot be taken back takes two presses, and every
      call of the cards was meant ([ScreenProps.weighty_calls_meant]); a check
      and the next thing to do are at hand, but in a conflict without a version
      to combine ([ScreenProps.always_at_hand]).  Every screen holds a
      window that Window.v reaches ([ScreenProps.screen_is_window]).
    - The applications serve the window: [ShellProps.platforms_answer_alike]
      (the same question has the same answer on a phone and on the desktop),
      [ShellProps.failed_start_shown], and the chain from a save to a session
      through watcher, services, main process and window
      ([ShellProps.save_starts_session]).

    Some theorems describe what the code does wrong, as a run that shows it;
    they say so.

    ** Bounds and fuel

    The walks of the graph run on fuel computed from it ([walk_fuel], one more
    than its edges; [topo_fuel], twice that), which [ancestors_loop_spec],
    [isAncestor_loop_complete] and [topo_loop_spec] prove sufficient: each round
    removes an edge from what is left.  The recursive query of the store has the
    number of its rows, the parser of JSON the length of its text, the printer
    of a number its value, the unescaping of a URL its length: each call
    shortens its argument, and the round trips would fail on too little.  The
    search for a free pairing code draws until one is free, as the code does, and
    has no bound of its own: [SignalingEdges.issue_terminates] says which code
    any fuel that reaches a free one gives, how many different codes are enough,
    and that otherwise the search is still going on.  Sizes, counts and times are
    integers of any size: the code keeps them far under 2^53, and the caps of
    Protocol.v bound those that a peer sends.  The 32-bit fields of a frame are
    kept at their width, and the doubles of the rate limiter and of the wait
    before a retry are rounded at each operation ([nearest] of Json.v).

    ** Parameters

    What is not in the repository is a parameter: SHA-256
    ([Sha256], [Digest]: total, and of 32 bytes; where a theorem needs that
    two texts do not collide it says so or the collision is its conclusion),
    Ed25519 ([Ed25519]), the order in which SQLite returns rows without ORDER BY
    ([RowOrder]: a permutation), the SQLite of a phone and the files that its
    database is written to ([SqlJs], [HostFiles]), the SQLite of the desktop
    ([NodeSqlite]), the calls of the plugin (the
    [fate] of each), the keychain ([Keychain]), the library that reads KDBX
    files ([KdbxWeb]), the reader of URLs ([WebUrl]), the network ([Network]), the text
    that Electron makes of an error (an argument, [tells_error]), what a dialogue
    returns, clocks, random generators and the choice of the next event.  Each theorem over a
    parameter has a witness with a concrete one.

    ** Not modelled

    The layout, the looks and the fixed texts of the user interface
    (packages/ui/src/ui.tsx), the options of windows and the insets of a screen,
    the demonstration and the scripts, and time as such: a timer is an event that
    may happen.  [RtcPeerConnection] and
    sockets are what the bridge calls and what it hears from them.  Backpressure of channels delays a session and
    changes nothing else in it. *)

From Stdlib Require Export ZArith Lia.
From stdpp Require Export base tactics numbers option gmap strings pretty.
From stdpp Require Export list.

#[export] Set Default Goal Selector "!".

Declare Scope pv_scope.
Delimit Scope pv_scope with pv.
Open Scope pv_scope.

(** ** Exceptions

    A function of the source that may throw returns a [result].  The error is
    the message of the thrown [Error]. *)
Inductive result (A : Type) : Type :=
  | Ok (a : A)
  | Err (message : string).
Arguments Ok {_} _.
Arguments Err {_} _.

#[global] Instance result_ret : MRet result := @Ok.
#[global] Instance result_bind : MBind result := λ A B k m,
  match m with Ok a => k a | Err e => Err e end.
#[global] Instance result_fmap : FMap result := λ A B f m,
  match m with Ok a => Ok (f a) | Err e => Err e end.

#[global] Instance result_eq_dec {A} `{EqDecision A} : EqDecision (result A).
Proof. solve_decision. Defined.

Definition is_ok {A} (m : result A) : bool :=
  match m with Ok _ => true | Err _ => false end.

(** [assert] of packages/core/src/assert.ts. *)
Definition assert (condition : bool) (message : string) : result unit :=
  if condition then Ok tt else Err ("Contract violation: " +:+ message)%string.

Lemma assert_ok (b : bool) (msg : string) (u : unit) : assert b msg = Ok u ↔ b = true.
Proof. destruct b, u; simpl; naive_solver. Qed.

Lemma assert_bind {A} (b : bool) (msg : string) (k : unit → result A) (a : A) :
  (assert b msg ≫= k) = Ok a ↔ b = true ∧ k tt = Ok a.
Proof. destruct b; simpl; naive_solver. Qed.

Lemma result_bind_ok {A B} (m : result A) (k : A → result B) (b : B) :
  (m ≫= k) = Ok b ↔ ∃ a, m = Ok a ∧ k a = Ok b.
Proof. destruct m; simpl; naive_solver. Qed.

(** ** Insertion-ordered sets

    A JavaScript [Set] iterates in insertion order and ignores a second
    insertion.  It is a list without duplicates, extended at its end. *)
Section jsset.
Context {A : Type} `{EqDecision A}.
Implicit Types (s l : list A) (x y : A).

Definition set_add (s : list A) (x : A) : list A :=
  if decide (x ∈ s) then s else s ++ [x].

Definition set_delete (s : list A) (x : A) : list A := filter (λ y, y ≠ x) s.

Definition set_from (l : list A) : list A := foldl set_add [] l.

Lemma elem_of_set_add s x y : y ∈ set_add s x ↔ y ∈ s ∨ y = x.
Proof. unfold set_add. case_decide; set_solver. Qed.

Lemma set_add_NoDup s x : NoDup s → NoDup (set_add s x).
Proof.
  unfold set_add. case_decide; [done|]. intros.
  apply NoDup_app. set_solver by eauto using NoDup_singleton.
Qed.

Lemma set_add_absent s x : x ∉ s → set_add s x = s ++ [x].
Proof. intros. unfold set_add. by rewrite decide_False. Qed.

Lemma elem_of_set_delete s x y : y ∈ set_delete s x ↔ y ∈ s ∧ y ≠ x.
Proof. unfold set_delete. rewrite list_elem_of_filter. naive_solver. Qed.

Lemma elem_of_set_adds l s x : x ∈ foldl set_add s l ↔ x ∈ s ∨ x ∈ l.
Proof.
  revert s. induction l as [|y l IH]; intros s; simpl; [set_solver|].
  rewrite IH, elem_of_set_add. set_solver.
Qed.

Lemma set_adds_NoDup l s : NoDup s → NoDup (foldl set_add s l).
Proof. revert s. induction l; intros s ?; simpl; auto using set_add_NoDup. Qed.

Lemma elem_of_set_from l x : x ∈ set_from l ↔ x ∈ l.
Proof. unfold set_from. rewrite elem_of_set_adds. set_solver. Qed.

Lemma set_from_NoDup l : NoDup (set_from l).
Proof. apply set_adds_NoDup, NoDup_nil_2. Qed.
End jsset.

(** ** Sums over finite maps

    The weight of the entries of a map whose key satisfies a test: the
    decreasing measure of every graph walk. *)
Section weight.
Context {K V : Type} `{Countable K} (w : V → nat).
Implicit Types (P Q : K → bool) (m : gmap K V).

Definition weight_list P (l : list (K * V)) : nat :=
  sum_list_with (λ kv, if P kv.1 then w kv.2 else 0) l.

Definition weight P m : nat := weight_list P (map_to_list m).

Lemma weight_list_ext P Q l :
  (∀ k, k ∈ l.*1 → P k = Q k) → weight_list P l = weight_list Q l.
Proof.
  unfold weight_list. induction l as [|[k v] l IH]; simpl; intros Hext; [done|].
  rewrite Hext by set_solver. rewrite IH; [done|set_solver].
Qed.

Lemma weight_ext P Q m : (∀ k, P k = Q k) → weight P m = weight Q m.
Proof. intros. apply weight_list_ext. auto. Qed.

Lemma weight_list_perm P l1 l2 : l1 ≡ₚ l2 → weight_list P l1 = weight_list P l2.
Proof.
  unfold weight_list. induction 1 as [|? ? ? _ IH| |]; simpl; [done|by rewrite IH|lia|congruence].
Qed.

Lemma weight_empty P : weight P ∅ = 0.
Proof. unfold weight. by rewrite map_to_list_empty. Qed.

Lemma weight_insert P m k v :
  m !! k = None → weight P (<[k:=v]> m) = (if P k then w v else 0) + weight P m.
Proof.
  intros Hk. unfold weight. by rewrite (weight_list_perm _ _ _ (map_to_list_insert m k v Hk)).
Qed.

Lemma weight_delete P m k v :
  m !! k = Some v → weight P m = (if P k then w v else 0) + weight P (delete k m).
Proof.
  intros Hk. rewrite <-(insert_delete_id m k v) at 1 by done.
  by rewrite weight_insert by apply lookup_delete_eq.
Qed.

Lemma weight_delete_ext P Q m k :
  (∀ k', k' ≠ k → P k' = Q k') → weight P (delete k m) = weight Q (delete k m).
Proof.
  intros Hne. apply weight_list_ext.
  intros k' ([k2 v2]&->&Hin%elem_of_map_to_list)%list_elem_of_fmap. simpl.
  apply lookup_delete_Some in Hin as [? _]. by apply Hne.
Qed.

Lemma weight_remove P Q m k v :
  m !! k = Some v → P k = true → Q k = false →
  (∀ k', k' ≠ k → Q k' = P k') →
  weight P m = w v + weight Q m.
Proof.
  intros Hk HP HQ Hne. rewrite (weight_delete P _ _ _ Hk), (weight_delete Q _ _ _ Hk), HP, HQ.
  by rewrite (weight_delete_ext P Q) by (intros; symmetry; auto).
Qed.

Lemma weight_subseteq P m1 m2 : m1 ⊆ m2 → weight P m1 ≤ weight P m2.
Proof.
  revert m2. induction m1 as [|k v m1 Hk IH] using map_ind; intros m2 Hsub.
  { rewrite weight_empty. lia. }
  assert (m2 !! k = Some v) as Hk2.
  { eapply lookup_weaken; [|done]. apply lookup_insert_eq. }
  rewrite weight_insert, (weight_delete _ m2 k v) by done.
  apply Nat.add_le_mono_l, IH. apply map_subseteq_spec. intros k' v' Hk'.
  destruct (decide (k = k')) as [->|]; [congruence|].
  rewrite lookup_delete_ne by done. eapply lookup_weaken; [|done].
  by rewrite lookup_insert_ne.
Qed.
End weight.

(** ** Automation *)
Create HintDb passvault discriminated.
Create Rewrite HintDb passvault.
#[export] Hint Rewrite @assert_ok @assert_bind @result_bind_ok : passvault.
#[export] Hint Resolve set_add_NoDup set_from_NoDup : passvault.

(** Close a goal on closed terms: a conjunction of equations and bounds. *)
Ltac by_compute := vm_compute; repeat split; congruence.

Ltac inv_result :=
  repeat match goal with
  | H : Ok _ = Ok _ |- _ => injection H as H; try subst
  | H : Err _ = Ok _ |- _ => discriminate H
  | H : Ok _ = Err _ |- _ => discriminate H
  | H : (assert _ _ ≫= _) = Ok _ |- _ => apply assert_bind in H as [? ?]
  end.
