(* ===== verification/Model.v ===== *)
(** * The domain model

    The branded identifiers and the records of packages/core/src/types.ts and
    packages/core/src/model.ts.  A branded type is the string it brands.  A
    [Date] is its number of milliseconds since the epoch.  An optional field is
    an [option]: [None] is the absent field. *)

From S2P Require Import Prelude.

Abbreviation VaultId := string (only parsing).
Abbreviation RevisionId := string (only parsing).
Abbreviation PeerId := string (only parsing).
Abbreviation DeviceId := string (only parsing).
Abbreviation RoomId := string (only parsing).
Abbreviation TransferId := string (only parsing).
Abbreviation ConflictId := string (only parsing).
Abbreviation BookmarkId := string (only parsing).
Abbreviation Sha256Hex := string (only parsing).
Abbreviation FilePath := string (only parsing).
Abbreviation Date := Z (only parsing).
Abbreviation Uint8Array := (list Byte.byte) (only parsing).

Module RevisionOperation.
Inductive t : Type :=
  | imported
  | received
  | merged
  | restored
  | local_change.

#[global] Instance eq_dec : EqDecision t.
Proof. solve_decision. Defined.

(** The string each operation is stored and sent as. *)
Definition to_string (o : t) : string :=
  match o with
  | imported => "imported"
  | received => "received"
  | merged => "merged"
  | restored => "restored"
  | local_change => "local-change"
  end.

Definition of_string (s : string) : option t :=
  if decide (s = "imported") then Some imported
  else if decide (s = "received") then Some received
  else if decide (s = "merged") then Some merged
  else if decide (s = "restored") then Some restored
  else if decide (s = "local-change") then Some local_change
  else None.

Lemma of_to_string o :
  of_string (to_string o) = Some o.
Proof. by destruct o. Qed.
End RevisionOperation.

Module Revision.
Record t : Type := mk {
  id : RevisionId;
  vaultId : VaultId;
  hash : Sha256Hex;
  sizeBytes : Z;
  createdAt : Date;
  originDeviceId : option DeviceId;
  parentIds : list RevisionId;
  operation : RevisionOperation.t;
  message : option string;
}.

#[global] Instance eq_dec : EqDecision t.
Proof. solve_decision. Defined.
End Revision.

Module Vault.
Record t : Type := mk {
  id : VaultId;
  name : string;
  headRevisionId : option RevisionId;
  kdbxPath : option string;
  createdAt : Date;
}.

#[global] Instance eq_dec : EqDecision t.
Proof. solve_decision. Defined.

Definition set_head (v : t) (h : RevisionId) : t :=
  {| id := id v; name := name v; headRevisionId := Some h;
     kdbxPath := kdbxPath v; createdAt := createdAt v |}.

Definition set_path (v : t) (p : string) : t :=
  {| id := id v; name := name v; headRevisionId := headRevisionId v;
     kdbxPath := Some p; createdAt := createdAt v |}.
End Vault.

Module Bookmark.
Record t : Type := mk {
  id : BookmarkId;
  vaultId : VaultId;
  revisionId : RevisionId;
  message : string;
  createdAt : Date;
}.
End Bookmark.

Module HeadReason.
Inductive t : Type := promote | undo | restore | fast_forward.

#[global] Instance eq_dec : EqDecision t.
Proof. solve_decision. Defined.
End HeadReason.

Module HeadRevisionEvent.
Record t : Type := mk {
  vaultId : VaultId;
  previousRevisionId : option RevisionId;
  nextRevisionId : RevisionId;
  createdAt : Date;
  reason : HeadReason.t;
}.

#[global] Instance eq_dec : EqDecision t.
Proof. solve_decision. Defined.
End HeadRevisionEvent.

Module ConflictStatus.
Inductive t : Type := open | resolved | deferred.

#[global] Instance eq_dec : EqDecision t.
Proof. solve_decision. Defined.
End ConflictStatus.

Module ConflictDecision.
Inductive t : Type :=
  | keep_current
  | switch_incoming
  | try_merge
  | save_both
  | restore_revision (revisionId : RevisionId).

#[global] Instance eq_dec : EqDecision t.
Proof. solve_decision. Defined.
End ConflictDecision.

Module Conflict.
Record t : Type := mk {
  id : ConflictId;
  vaultId : VaultId;
  currentRevisionId : RevisionId;
  incomingRevisionId : RevisionId;
  status : ConflictStatus.t;
  createdAt : Date;
  resolvedAt : option Date;
  decision : option ConflictDecision.t;
}.

#[global] Instance eq_dec : EqDecision t.
Proof. solve_decision. Defined.
End Conflict.

Module TransferStatus.
Inductive t : Type :=
  | requested
  | transferring
  | complete
  | failed
  | cancelled.

#[global] Instance eq_dec : EqDecision t.
Proof. solve_decision. Defined.
End TransferStatus.

Module TransferDirection.
Inductive t : Type := inbound | outbound.

#[global] Instance eq_dec : EqDecision t.
Proof. solve_decision. Defined.
End TransferDirection.

Module PendingTransfer.
Record t : Type := mk {
  id : TransferId;
  vaultId : VaultId;
  revisionId : RevisionId;
  direction : TransferDirection.t;
  expectedHash : Sha256Hex;
  expectedSizeBytes : Z;
  receivedBytes : Z;
  status : TransferStatus.t;
  peerDeviceId : DeviceId;
}.

#[global] Instance eq_dec : EqDecision t.
Proof. solve_decision. Defined.
End PendingTransfer.
