(* ===== verification/Dag.v ===== *)
(** * The revision graph

    packages/core/src/dag.ts: the projection of a history to ids and parents,
    ancestry, merge bases, divergence, and the parents-first order in which
    revisions are requested and stored.

    A graph is a finite map; a [Set] of the source is an insertion-ordered list
    without duplicates; the array used as a stack is a list whose head is its
    last element.  Each [while] loop is a recursion on fuel that computes the
    loop's bound from the graph; the theorems show that the bound is enough. *)

From S2P Require Import Prelude Model.

Module RevisionNode.
Record t : Type := mk {
  id : RevisionId;
  parentIds : list RevisionId;
}.

#[global] Instance eq_dec : EqDecision t.
Proof. solve_decision. Defined.
End RevisionNode.

Abbreviation RevisionGraph := (gmap RevisionId RevisionNode.t) (only parsing).

(** ** Construction *)

Definition buildGraph (nodes : list RevisionNode.t) : RevisionGraph :=
  foldl (λ byId node, <[RevisionNode.id node := node]> byId) ∅ nodes.

Definition unionGraphs (base overlay : RevisionGraph) : RevisionGraph :=
  buildGraph ((map_to_list base).*2 ++ (map_to_list overlay).*2).

(** ** Ancestry *)

(** The inner [for] of the walk: push the parents that were not seen. *)
Definition push_unseen (seen queue parents : list RevisionId) : list RevisionId :=
  foldl (λ q p, if decide (p ∈ seen) then q else p :: q) queue parents.

Fixpoint ancestors_loop (fuel : nat) (graph : RevisionGraph)
    (queue seen : list RevisionId) : list RevisionId :=
  match fuel with
  | O => seen
  | S fuel =>
      match queue with
      | [] => seen
      | current :: queue =>
          if decide (current ∈ seen) then ancestors_loop fuel graph queue seen
          else
            let seen := set_add seen current in
            match graph !! current with
            | None => ancestors_loop fuel graph queue seen
            | Some node =>
                ancestors_loop fuel graph
                  (push_unseen seen queue (RevisionNode.parentIds node)) seen
            end
      end
  end.

(** The number of edges of a graph leaving the nodes selected by a test. *)
Definition edges (P : RevisionId → bool) (graph : RevisionGraph) : nat :=
  weight (λ node, length (RevisionNode.parentIds node)) P graph.

Definition walk_fuel (graph : RevisionGraph) : nat := S (edges (λ _, true) graph).

Definition ancestorsOf (graph : RevisionGraph) (id : RevisionId) : list RevisionId :=
  ancestors_loop (walk_fuel graph) graph [id] [].

(** The inner [for] of [isAncestor]: [None] when the ancestor was met. *)
Fixpoint scan_parents (ancestor : RevisionId) (seen queue parents : list RevisionId)
    : option (list RevisionId) :=
  match parents with
  | [] => Some queue
  | parentId :: parents =>
      if decide (parentId = ancestor) then None
      else scan_parents ancestor seen
             (if decide (parentId ∈ seen) then queue else parentId :: queue) parents
  end.

Fixpoint isAncestor_loop (fuel : nat) (graph : RevisionGraph) (ancestor : RevisionId)
    (queue seen : list RevisionId) : bool :=
  match fuel with
  | O => false
  | S fuel =>
      match queue with
      | [] => false
      | current :: queue =>
          if decide (current ∈ seen) then isAncestor_loop fuel graph ancestor queue seen
          else
            let seen := set_add seen current in
            match graph !! current with
            | None => isAncestor_loop fuel graph ancestor queue seen
            | Some node =>
                match scan_parents ancestor seen queue (RevisionNode.parentIds node) with
                | None => true
                | Some queue => isAncestor_loop fuel graph ancestor queue seen
                end
            end
      end
  end.

Definition isAncestor (graph : RevisionGraph) (ancestor descendant : RevisionId) : bool :=
  if decide (ancestor = descendant) then true
  else isAncestor_loop (walk_fuel graph) graph ancestor [descendant] [].

(** ** Merge bases and divergence *)

Definition findMergeBase (graph : RevisionGraph) (a b : RevisionId) : list RevisionId :=
  let ancestorsA := ancestorsOf graph a in
  let ancestorsB := ancestorsOf graph b in
  let common := filter (λ id, id ∈ ancestorsB) ancestorsA in
  if decide (length common = 0) then []
  else
    let dominated :=
      foldl (λ dominated candidate,
        match graph !! candidate with
        | None => dominated
        | Some node =>
            foldl (λ dominated parentId,
              foldl set_add dominated (ancestorsOf graph parentId))
              dominated (RevisionNode.parentIds node)
        end) [] common in
    filter (λ candidate, candidate ∉ dominated) common.

Inductive Divergence : Type :=
  | equal
  | local_ahead
  | remote_ahead
  | diverged (mergeBases : list RevisionId)
  | unrelated.

#[global] Instance Divergence_eq_dec : EqDecision Divergence.
Proof. solve_decision. Defined.

Definition classifyDivergence (graph : RevisionGraph) (localHead remoteHead : RevisionId)
    : Divergence :=
  if decide (localHead = remoteHead) then equal
  else if isAncestor graph remoteHead localHead then local_ahead
  else if isAncestor graph localHead remoteHead then remote_ahead
  else
    let mergeBases := findMergeBase graph localHead remoteHead in
    if decide (length mergeBases = 0) then unrelated else diverged mergeBases.

(** ** The parents-first order *)

Module Frame.
Record t : Type := mk {
  id : RevisionId;
  expanded : bool;
}.
End Frame.

Module Topo.
Record t : Type := mk {
  ordered : list RevisionId;
  done : list RevisionId;
  onStack : list RevisionId;
}.
End Topo.

(** The inner [for] of [topologicalOrder]: the parents still to be visited are
    pushed; a parent being visited is a cycle. *)
Fixpoint push_parents (target done onStack : list RevisionId) (stack : list Frame.t)
    (parents : list RevisionId) : result (list Frame.t) :=
  match parents with
  | [] => Ok stack
  | parentId :: parents =>
      if bool_decide (parentId ∉ target) || bool_decide (parentId ∈ done) then
        push_parents target done onStack stack parents
      else
        assert (bool_decide (parentId ∉ onStack))
          ("revision graph contains a cycle at " +:+ parentId)%string ≫= λ _,
        push_parents target done onStack (Frame.mk parentId false :: stack) parents
  end.

Fixpoint topo_loop (fuel : nat) (graph : RevisionGraph) (target : list RevisionId)
    (stack : list Frame.t) (st : Topo.t) : result Topo.t :=
  match fuel with
  | O => Ok st
  | S fuel =>
      match stack with
      | [] => Ok st
      | Frame.mk id expanded :: rest =>
          let 'Topo.mk ordered done onStack := st in
          if decide (id ∈ done) then
            topo_loop fuel graph target rest (Topo.mk ordered done (set_delete onStack id))
          else if expanded then
            topo_loop fuel graph target rest
              (Topo.mk (ordered ++ [id]) (set_add done id) (set_delete onStack id))
          else
            let onStack := set_add onStack id in
            let stack := Frame.mk id true :: rest in
            match graph !! id with
            | None => topo_loop fuel graph target stack (Topo.mk ordered done onStack)
            | Some node =>
                push_parents target done onStack stack (RevisionNode.parentIds node)
                  ≫= λ stack,
                topo_loop fuel graph target stack (Topo.mk ordered done onStack)
            end
      end
  end.

Definition topo_fuel (graph : RevisionGraph) : nat := 2 + 2 * edges (λ _, true) graph.

(** The outer [for] over the starting revisions. *)
Fixpoint topo_starts (graph : RevisionGraph) (target starts : list RevisionId)
    (st : Topo.t) : result Topo.t :=
  match starts with
  | [] => Ok st
  | start :: starts =>
      if decide (start ∈ Topo.done st) then topo_starts graph target starts st
      else
        topo_loop (topo_fuel graph) graph target [Frame.mk start false] st ≫= λ st,
        topo_starts graph target starts st
  end.

Definition topologicalOrder (graph : RevisionGraph) (ids : list RevisionId)
    : result (list RevisionId) :=
  let target := set_from ids in
  Topo.ordered <$> topo_starts graph target target (Topo.mk [] [] []).

Definition missingRevisions (remoteGraph : RevisionGraph) (remoteHead : RevisionId)
    (hasLocally : RevisionId → bool) : result (list RevisionId) :=
  let wanted :=
    filter (λ id, hasLocally id = false ∧ is_Some (remoteGraph !! id))
      (ancestorsOf remoteGraph remoteHead) in
  topologicalOrder remoteGraph wanted.

(** The duplicate check of [validateRemoteGraph], returning the ids seen. *)
Fixpoint check_distinct (seen : list RevisionId) (nodes : list RevisionNode.t)
    : result (list RevisionId) :=
  match nodes with
  | [] => Ok seen
  | node :: nodes =>
      let id := RevisionNode.id node in
      assert (bool_decide (id ∉ seen))
        ("history summary repeats revision " +:+ id)%string ≫= λ _,
      check_distinct (set_add seen id) nodes
  end.

Definition validateRemoteGraph (nodes : list RevisionNode.t) : result unit :=
  check_distinct [] nodes ≫= λ seen,
  (λ _, tt) <$> topologicalOrder (buildGraph nodes) seen.

Module Examples.
Definition n (i : RevisionId) (ps : list RevisionId) : RevisionNode.t := RevisionNode.mk i ps.
Definition fork : RevisionGraph :=
  buildGraph [n "root" []; n "a" ["root"]; n "b" ["root"]; n "m" ["a"; "b"]].

Example fork_diverged : classifyDivergence fork "a" "b" = diverged ["root"].
Proof. vm_compute. reflexivity. Qed.

Example fork_order : topologicalOrder fork ["m"; "a"; "b"; "root"] = Ok ["root"; "b"; "a"; "m"].
Proof. vm_compute. reflexivity. Qed.

Example cycle_refused :
  validateRemoteGraph [n "x" ["y"]; n "y" ["x"]]
  = Err "Contract violation: revision graph contains a cycle at x".
Proof. vm_compute. reflexivity. Qed.
End Examples.
