(* ===== verification/DagTheory.v ===== *)
(** * Ancestry, merge bases and divergence: theorems

    The graph walks of Dag.v against reachability in the parent relation. *)

From S2P Require Import Prelude Model Dag.
From stdpp Require Import relations.

(** [parent_of g c p]: the graph records [p] as a parent of [c]. *)
Definition parent_of (g : RevisionGraph) (child parent : RevisionId) : Prop :=
  ∃ node, g !! child = Some node ∧ parent ∈ RevisionNode.parentIds node.

(** No revision is its own proper ancestor. *)
Definition acyclic (g : RevisionGraph) : Prop := ∀ x, ¬ tc (parent_of g) x x.

Lemma parent_of_lookup g x node p :
  g !! x = Some node → parent_of g x p ↔ p ∈ RevisionNode.parentIds node.
Proof. unfold parent_of. naive_solver. Qed.

Lemma parent_of_None g x p : g !! x = None → ¬ parent_of g x p.
Proof. unfold parent_of. naive_solver. Qed.

Lemma tc_inv_l {A} (R : relation A) x y : tc R x y → ∃ z, R x z ∧ rtc R z y.
Proof. destruct 1 as [x y|x y z ? ?%tc_rtc]; eauto using rtc_refl. Qed.

Lemma tc_inv_r {A} (R : relation A) x y : tc R x y → ∃ z, rtc R x z ∧ R z y.
Proof.
  induction 1 as [x y|x y z ? ? (w&?&?)]; [by eauto using rtc_refl|].
  exists w. split; [by eapply rtc_l|done].
Qed.

(** ** The measure of a walk *)

Definition unseen (seen : list RevisionId) (k : RevisionId) : bool := bool_decide (k ∉ seen).

Lemma edges_add g seen x node :
  x ∉ seen → g !! x = Some node →
  edges (unseen seen) g
  = length (RevisionNode.parentIds node) + edges (unseen (set_add seen x)) g.
Proof.
  intros Hx Hg. unfold edges. apply (weight_remove (λ n, length (RevisionNode.parentIds n)) _ _ g x node); [done|..]; unfold unseen.
  - by apply bool_decide_eq_true.
  - apply bool_decide_eq_false. rewrite elem_of_set_add. naive_solver.
  - intros k Hk. apply bool_decide_ext. rewrite elem_of_set_add. naive_solver.
Qed.

Lemma edges_add_le g seen x :
  edges (unseen (set_add seen x)) g ≤ edges (unseen seen) g.
Proof.
  destruct (decide (x ∈ seen)) as [Hx|Hx].
  - unfold set_add. by rewrite decide_True.
  - destruct (g !! x) as [node|] eqn:Hg; [rewrite (edges_add _ _ _ _ Hx Hg); lia|].
    unfold edges, weight. rewrite (weight_list_ext _ (unseen (set_add seen x)) (unseen seen)); [done|].
    intros k ([k' v] & -> & Hk%elem_of_map_to_list)%list_elem_of_fmap. unfold unseen.
    apply bool_decide_ext. rewrite elem_of_set_add. simpl in *. naive_solver.
Qed.

Lemma push_unseen_elem seen parents queue x :
  x ∈ push_unseen seen queue parents ↔ x ∈ queue ∨ (x ∈ parents ∧ x ∉ seen).
Proof.
  revert queue. induction parents as [|p ps IH]; intros queue; simpl; [set_solver|].
  rewrite IH. case_decide; set_solver.
Qed.

Lemma push_unseen_length seen parents queue :
  length (push_unseen seen queue parents) ≤ length queue + length parents.
Proof.
  revert queue. induction parents as [|p ps IH]; intros queue; simpl; [lia|].
  case_decide; etrans; try apply IH; simpl; lia.
Qed.

(** ** The ancestor walk *)
Section ancestors.
Context (g : RevisionGraph).

(** Every parent of a seen revision is seen or waiting. *)
Definition walk_inv (queue seen : list RevisionId) : Prop :=
  ∀ x p, x ∈ seen → parent_of g x p → p ∈ seen ∨ p ∈ queue.

Lemma walk_inv_skip q queue seen :
  q ∈ seen → walk_inv (q :: queue) seen → walk_inv queue seen.
Proof. unfold walk_inv. set_solver. Qed.

Lemma walk_inv_missing q queue seen :
  g !! q = None → walk_inv (q :: queue) seen → walk_inv queue (set_add seen q).
Proof.
  intros Hg Hinv x p [Hx| ->]%elem_of_set_add Hp; [|by apply parent_of_None in Hp].
  rewrite elem_of_set_add. specialize (Hinv x p Hx Hp). set_solver.
Qed.

Lemma walk_inv_expand q queue seen node :
  g !! q = Some node → walk_inv (q :: queue) seen →
  walk_inv (push_unseen (set_add seen q) queue (RevisionNode.parentIds node)) (set_add seen q).
Proof.
  intros Hg Hinv x p Hx Hp. rewrite push_unseen_elem.
  destruct (decide (p ∈ set_add seen q)) as [|Hn]; [by left|].
  apply elem_of_set_add in Hx as [Hx| ->].
  - specialize (Hinv x p Hx Hp). rewrite elem_of_set_add in *. set_solver.
  - rewrite (parent_of_lookup _ _ _ _ Hg) in Hp. auto.
Qed.

Lemma ancestors_loop_spec fuel queue seen :
  length queue + edges (unseen seen) g ≤ fuel → NoDup seen → walk_inv queue seen →
  let R := ancestors_loop fuel g queue seen in
  NoDup R ∧ seen ⊆ R ∧ queue ⊆ R ∧ walk_inv [] R ∧
  (∀ x, x ∈ R → x ∈ seen ∨ ∃ q, q ∈ queue ∧ rtc (parent_of g) q x).
Proof.
  revert queue seen. induction fuel as [|fuel IH]; intros [|q queue] seen Hm Hnd Hinv; simpl in *;
    try lia;
    try (split_and!; [done|done|apply list_subseteq_nil|done|by left]).
  case_decide as Hq.
  - destruct (IH queue seen) as (?&?&?&?&Hsound);
      [lia|done|eauto using walk_inv_skip|].
    split_and!; [done|done|set_solver|done|]. intros x [|(q'&?&?)]%Hsound; set_solver.
  - pose proof (edges_add_le g seen q) as Hle.
    destruct (g !! q) as [node|] eqn:Hg.
    + pose proof (push_unseen_length (set_add seen q) (RevisionNode.parentIds node) queue).
      rewrite (edges_add _ _ _ _ Hq Hg) in Hm.
      destruct (IH (push_unseen (set_add seen q) queue (RevisionNode.parentIds node))
                  (set_add seen q)) as (?&Hseen&Hqueue&?&Hsound);
        [lia|by apply set_add_NoDup|by apply walk_inv_expand|].
      split_and!; [done|..|done|].
      * intros x ?. apply Hseen, elem_of_set_add. auto.
      * intros x [-> | ?]%elem_of_cons; [apply Hseen, elem_of_set_add; auto|].
        apply Hqueue, push_unseen_elem. auto.
      * intros x [[?| ->]%elem_of_set_add|(q'&Hq'&?)]%Hsound; [by left|set_solver|].
        right. apply push_unseen_elem in Hq' as [?|[? _]]; [set_solver|].
        exists q. split; [set_solver|]. eapply rtc_l; [|done]. by apply (parent_of_lookup _ _ _ _ Hg).
    + destruct (IH queue (set_add seen q)) as (?&Hseen&?&?&Hsound);
        [lia|by apply set_add_NoDup|by apply walk_inv_missing|].
      split_and!; [done|..|done|].
      * intros x ?. apply Hseen, elem_of_set_add. auto.
      * intros x [-> | ?]%elem_of_cons; [apply Hseen, elem_of_set_add|]; auto.
      * intros x [[?| ->]%elem_of_set_add|(q'&?&?)]%Hsound; set_solver.
Qed.

Lemma ancestorsOf_walk id :
  let R := ancestorsOf g id in
  NoDup R ∧ id ∈ R ∧ walk_inv [] R ∧ (∀ x, x ∈ R → rtc (parent_of g) id x).
Proof.
  destruct (ancestors_loop_spec (walk_fuel g) [id] []) as (?&_&Hq&?&Hs);
    [unfold walk_fuel, edges, weight; simpl; apply le_n_S;
     by rewrite (weight_list_ext _ (unseen []) (λ _, true))
    |constructor|intros x p; set_solver|].
  split_and!; [done|set_solver|done|]. intros x Hx. set_solver.
Qed.

Lemma elem_of_ancestorsOf id x : x ∈ ancestorsOf g id ↔ rtc (parent_of g) id x.
Proof.
  destruct (ancestorsOf_walk id) as (_&Hid&Hcl&Hs). split; [apply Hs|].
  intros Hrtc. clear Hs. revert Hid Hcl. generalize (ancestorsOf g id) as R. intros R Hid Hcl.
  induction Hrtc as [|a b c Hab _ IH]; [done|]. apply IH.
  by destruct (Hcl a b Hid Hab) as [|?%elem_of_nil].
Qed.

Lemma ancestorsOf_NoDup id : NoDup (ancestorsOf g id).
Proof. apply ancestorsOf_walk. Qed.
End ancestors.

(** ** The early-exit walk of [isAncestor] *)
Section isAncestor.
Context (g : RevisionGraph) (anc : RevisionId).

Lemma scan_parents_None seen queue parents :
  scan_parents anc seen queue parents = None ↔ anc ∈ parents.
Proof.
  revert queue. induction parents as [|p ps IH]; intros queue; simpl.
  - split; [done|by intros ?%elem_of_nil].
  - case_decide; subst; [split; [by left|done]|].
    rewrite IH, elem_of_cons. split; [by right|by intros [|]].
Qed.

Lemma scan_parents_Some seen queue parents queue' :
  scan_parents anc seen queue parents = Some queue' → queue' = push_unseen seen queue parents.
Proof.
  revert queue. induction parents as [|p ps IH]; intros queue; simpl; [by intros [= <-]|].
  case_decide; [done|]. apply IH.
Qed.

Lemma isAncestor_loop_sound fuel queue seen :
  isAncestor_loop fuel g anc queue seen = true →
  ∃ q, q ∈ queue ∧ tc (parent_of g) q anc.
Proof.
  revert queue seen. induction fuel as [|fuel IH]; intros [|q queue] seen; simpl; try done.
  case_decide as Hq; [intros (q'&?&?)%IH; exists q'; split; [by right|done]|].
  destruct (g !! q) as [node|] eqn:Hg;
    [|intros (q'&?&?)%IH; exists q'; split; [by right|done]].
  destruct (scan_parents _ _ _ _) as [queue'|] eqn:Hscan; intros Hloop.
  - apply scan_parents_Some in Hscan as ->. apply IH in Hloop as (q'&[Hq'|[Hq' _]]%push_unseen_elem&Htc).
    + exists q'. split; [by right|done].
    + exists q. split; [by left|]. eapply tc_l; [|done]. by apply (parent_of_lookup _ _ _ _ Hg).
  - apply scan_parents_None in Hscan. exists q. split; [by left|].
    apply tc_once. by apply (parent_of_lookup _ _ _ _ Hg).
Qed.

Lemma isAncestor_loop_complete fuel queue seen :
  length queue + edges (unseen seen) g ≤ fuel → walk_inv g queue seen →
  (∀ x, x ∈ seen → ¬ parent_of g x anc) →
  isAncestor_loop fuel g anc queue seen = false →
  ∀ q, q ∈ queue ∨ q ∈ seen → ¬ tc (parent_of g) q anc.
Proof.
  revert queue seen. induction fuel as [|fuel IH]; intros [|q queue] seen Hm Hinv Hno; simpl in *;
    try lia.
  1,2: intros _ q [?%elem_of_nil|Hq] Htc; [done|]; induction Htc as [x y Hxy|x y z Hxy Hyz IHt];
    [by eapply Hno|]; apply IHt; [done..|]; by destruct (Hinv x y Hq Hxy) as [|?%elem_of_nil].
  case_decide as Hq.
  - intros Hf q' Hq'. apply (IH queue seen); [lia|eauto using walk_inv_skip|done|done|].
    rewrite elem_of_cons in Hq'. destruct Hq' as [[->|]|]; auto.
  - pose proof (edges_add_le g seen q) as Hle.
    destruct (g !! q) as [node|] eqn:Hg.
    + destruct (scan_parents _ _ _ _) as [queue'|] eqn:Hscan; [|done].
      assert (¬ parent_of g q anc) as Hqa.
      { rewrite (parent_of_lookup _ _ _ _ Hg), <-(scan_parents_None (set_add seen q) queue).
        by rewrite Hscan. }
      apply scan_parents_Some in Hscan as ->.
      pose proof (push_unseen_length (set_add seen q) (RevisionNode.parentIds node) queue).
      rewrite (edges_add _ _ _ _ Hq Hg) in Hm.
      intros Hf q' Hq'. eapply IH; [|by apply walk_inv_expand| |done|]; [lia|..].
      * intros x [?| ->]%elem_of_set_add; auto.
      * rewrite push_unseen_elem, elem_of_set_add. rewrite elem_of_cons in Hq'.
        destruct Hq' as [[->|]|]; auto.
    + intros Hf q' Hq'. eapply (IH queue); [|by apply walk_inv_missing| |done|]; [lia|..].
      * intros x [?| ->]%elem_of_set_add; [auto|by apply parent_of_None].
      * rewrite elem_of_set_add. rewrite elem_of_cons in Hq'. destruct Hq' as [[->|]|]; auto.
Qed.
End isAncestor.

Lemma isAncestor_rtc g a d : isAncestor g a d = true ↔ rtc (parent_of g) d a.
Proof.
  unfold isAncestor. case_decide as Heq; [subst; split; [intros _; apply rtc_refl|done]|].
  split.
  - intros (q&[->|?%elem_of_nil]%elem_of_cons&?)%isAncestor_loop_sound; [|done].
    by apply tc_rtc.
  - intros Hrtc. destruct (isAncestor_loop _ _ _ _ _) eqn:Hloop; [done|exfalso].
    eapply (isAncestor_loop_complete g a) with (q := d) in Hloop; [|..|by left; left].
    + apply Hloop. apply rtc_tc in Hrtc as [|]; naive_solver.
    + unfold walk_fuel, edges, weight; simpl. apply le_n_S.
      by rewrite (weight_list_ext _ (unseen []) (λ _, true)).
    + intros x p ?%elem_of_nil. done.
    + by intros x ?%elem_of_nil.
Qed.

(** ** Merge bases *)

Lemma dominated_elem g common acc x :
  x ∈ foldl (λ dominated candidate,
        match g !! candidate with
        | None => dominated
        | Some node =>
            foldl (λ dominated parentId, foldl set_add dominated (ancestorsOf g parentId))
              dominated (RevisionNode.parentIds node)
        end) acc common
  ↔ x ∈ acc ∨ ∃ c, c ∈ common ∧ tc (parent_of g) c x.
Proof.
  assert (∀ ps acc0, x ∈ foldl (λ d p, foldl set_add d (ancestorsOf g p)) acc0 ps
            ↔ x ∈ acc0 ∨ ∃ p, p ∈ ps ∧ rtc (parent_of g) p x) as Hinner.
  { induction ps as [|p ps IH]; intros acc0; simpl; [set_solver|].
    rewrite IH, elem_of_set_adds, elem_of_ancestorsOf. set_solver. }
  revert acc. induction common as [|c cs IH]; intros acc; simpl; [set_solver|].
  rewrite IH. destruct (g !! c) as [node|] eqn:Hg.
  - rewrite Hinner. setoid_rewrite elem_of_cons. split.
    + intros [[|(p&Hp&Hr)]|(c'&?&?)]; [by left| |by eauto].
      right. exists c. split; [by left|]. eapply tc_rtc_r; [|done].
      apply tc_once. by apply (parent_of_lookup _ _ _ _ Hg).
    + intros [|(c'&[->|]&Htc)]; [by auto| |by eauto].
      left. right. apply tc_inv_l in Htc as (p&Hp&?). exists p.
      by rewrite <-(parent_of_lookup _ _ _ _ Hg).
  - setoid_rewrite elem_of_cons. split; [naive_solver|].
    intros [|(c'&[->|]&Htc)]; [by left| |by eauto].
    apply tc_inv_l in Htc as (p&[]%parent_of_None&?); done.
Qed.

#[global] Instance rtc_parent_of_dec g x y : Decision (rtc (parent_of g) x y).
Proof.
  refine (match isAncestor g y x as b return isAncestor g y x = b → _ with
          | true => λ H, left _ | false => λ H, right _ end eq_refl).
  - by apply isAncestor_rtc.
  - abstract (rewrite <-isAncestor_rtc; by rewrite H).
Defined.

Definition common_ancestor (g : RevisionGraph) (a b x : RevisionId) : Prop :=
  rtc (parent_of g) a x ∧ rtc (parent_of g) b x.

(** A best common ancestor: no common ancestor has it as a proper ancestor. *)
Definition best_common_ancestor (g : RevisionGraph) (a b x : RevisionId) : Prop :=
  common_ancestor g a b x ∧ ∀ c, common_ancestor g a b c → ¬ tc (parent_of g) c x.

Lemma elem_of_common g a b x :
  x ∈ filter (λ id, id ∈ ancestorsOf g b) (ancestorsOf g a) ↔ common_ancestor g a b x.
Proof. rewrite list_elem_of_filter, !elem_of_ancestorsOf. unfold common_ancestor. naive_solver. Qed.

Lemma elem_of_findMergeBase g a b x :
  x ∈ findMergeBase g a b ↔ best_common_ancestor g a b x.
Proof.
  unfold findMergeBase, best_common_ancestor.
  setoid_rewrite <-elem_of_common. set (common := filter _ _).
  case_decide as Hlen.
  - apply nil_length_inv in Hlen as ->. set_solver.
  - rewrite list_elem_of_filter, dominated_elem. split.
    + intros [Hdom Hx]. split; [done|]. intros c Hc Htc. apply Hdom. right. by exists c.
    + intros [Hx Hbest]. split; [|done]. intros [?%elem_of_nil|(c&Hc&Htc)]; [done|].
      by apply (Hbest c).
Qed.

Lemma best_common_ancestor_sym g a b x :
  best_common_ancestor g a b x ↔ best_common_ancestor g b a x.
Proof. unfold best_common_ancestor, common_ancestor. naive_solver. Qed.

Lemma findMergeBase_NoDup g a b : NoDup (findMergeBase g a b).
Proof.
  unfold findMergeBase. case_decide; [constructor|].
  by do 2 apply NoDup_filter; apply ancestorsOf_NoDup.
Qed.

Lemma best_common_ancestor_exists g a b x :
  acyclic g → common_ancestor g a b x → ∃ y, best_common_ancestor g a b y.
Proof.
  intros Hacyc Hx.
  set (X := list_to_set (C := gset RevisionId) (filter (λ id, id ∈ ancestorsOf g b) (ancestorsOf g a))).
  assert (∀ y, y ∈ X ↔ common_ancestor g a b y) as HX.
  { intros y. unfold X. by rewrite elem_of_list_to_set, elem_of_common. }
  destruct (minimal_exists_elem_of_L (rtc (parent_of g)) X) as (y&Hy&Hmin).
  { apply HX in Hx. set_solver. }
  exists y. split; [by apply HX|]. intros c Hc%HX Htc. apply (Hacyc y).
  eapply tc_rtc_l; [apply (Hmin c Hc); by apply tc_rtc|done].
Qed.

Lemma classifyDivergence_cases g l r :
  match classifyDivergence g l r with
  | equal => l = r
  | local_ahead => l ≠ r ∧ rtc (parent_of g) l r
  | remote_ahead => ¬ rtc (parent_of g) l r ∧ rtc (parent_of g) r l
  | diverged bases =>
      ¬ rtc (parent_of g) l r ∧ ¬ rtc (parent_of g) r l ∧
      bases = findMergeBase g l r ∧ bases ≠ []
  | unrelated =>
      ¬ rtc (parent_of g) l r ∧ ¬ rtc (parent_of g) r l ∧ findMergeBase g l r = []
  end.
Proof.
  unfold classifyDivergence. case_decide as Heq; [done|].
  destruct (isAncestor g r l) eqn:Hlr; [by apply isAncestor_rtc in Hlr|].
  assert (¬ rtc (parent_of g) l r) by (rewrite <-isAncestor_rtc; by rewrite Hlr).
  destruct (isAncestor g l r) eqn:Hrl; [by apply isAncestor_rtc in Hrl|].
  assert (¬ rtc (parent_of g) r l) by (rewrite <-isAncestor_rtc; by rewrite Hrl).
  case_decide as Hlen; [by apply nil_length_inv in Hlen|].
  split_and!; [done..|]. intros Hnil. by rewrite Hnil in Hlen.
Qed.

(** ** The verdict *)

(** The verdict two heads deserve. *)
Definition divergence_spec (g : RevisionGraph) (l r : RevisionId) (d : Divergence) : Prop :=
  match d with
  | equal => l = r
  | local_ahead => tc (parent_of g) l r
  | remote_ahead => tc (parent_of g) r l
  | diverged bases =>
      l ≠ r ∧ ¬ tc (parent_of g) l r ∧ ¬ tc (parent_of g) r l ∧
      bases ≠ [] ∧ NoDup bases ∧ ∀ x, x ∈ bases ↔ best_common_ancestor g l r x
  | unrelated => ¬ ∃ x, common_ancestor g l r x
  end.

(** The same verdict, the merge bases in any order. *)
Definition same_verdict (d d' : Divergence) : Prop :=
  match d, d' with
  | diverged bs, diverged bs' => bs ≡ₚ bs'
  | _, _ => d = d'
  end.

Lemma divergence_spec_common g l r d :
  divergence_spec g l r d → d ≠ unrelated → ∃ x, common_ancestor g l r x.
Proof.
  destruct d as [| | |bs|]; simpl; [|intros ?%tc_rtc|intros ?%tc_rtc| |by intros].
  - intros -> _. exists r. split; apply rtc_refl.
  - intros _. exists r. split; [done|apply rtc_refl].
  - intros _. exists l. split; [apply rtc_refl|done].
  - intros (_&_&_&Hne&_&Hb) _. destruct bs as [|x bs]; [done|]. exists x.
    apply (proj1 (Hb x)). by left.
Qed.

Lemma divergence_spec_unique g l r d d' :
  acyclic g → divergence_spec g l r d → divergence_spec g l r d' →
  same_verdict d d'.
Proof.
  intros Hacyc Hd Hd'.
  assert (tc (parent_of g) l r → tc (parent_of g) r l → False) as Hanti.
  { intros ??. apply (Hacyc l). by eapply tc_trans. }
  assert (l = r → ¬ tc (parent_of g) l r) as Heq1 by (intros ->; apply Hacyc).
  assert (l = r → ¬ tc (parent_of g) r l) as Heq2 by (intros ->; apply Hacyc).
  pose proof (divergence_spec_common _ _ _ _ Hd) as Hc.
  pose proof (divergence_spec_common _ _ _ _ Hd') as Hc'.
  destruct d, d'; simpl in *; try done; try tauto;
    try (by destruct Hd; apply Hc'); try (by destruct Hd'; apply Hc);
    try (destruct Hd as (?&?&?&_&?&Hb)); try (destruct Hd' as (?&?&?&_&?&Hb')); try tauto.
  apply NoDup_Permutation; [done..|]. intros x. by rewrite Hb, Hb'.
Qed.

Lemma classifyDivergence_spec g l r :
  acyclic g → divergence_spec g l r (classifyDivergence g l r).
Proof.
  intros Hacyc. pose proof (classifyDivergence_cases g l r) as Hc.
  pose proof (elem_of_findMergeBase g l r) as Hbest.
  destruct (classifyDivergence g l r) as [| | |bs|]; simpl; rewrite ?rtc_tc in Hc.
  - done.
  - by destruct Hc as [? [|]].
  - destruct Hc as [? [->|]]; tauto.
  - destruct Hc as (?&?&->&?). split_and!; try tauto. apply findMergeBase_NoDup.
  - destruct Hc as (?&?&Hnil). intros (x&Hx).
    destruct (best_common_ancestor_exists g l r x Hacyc Hx) as (y&Hy%Hbest).
    rewrite Hnil in Hy. by apply elem_of_nil in Hy.
Qed.

(** ** Properties *)

Section topo.
Context (g : RevisionGraph) (target : list RevisionId).

(** Parent edges that stay inside the target. *)
Definition tparent (x p : RevisionId) : Prop := parent_of g x p ∧ p ∈ target.

(** The revisions being visited: the expanded frames. *)
Definition gray (stack : list Frame.t) : list RevisionId :=
  Frame.id <$> filter (λ f, Frame.expanded f = true) stack.

#[local] Arguments gray : simpl never.

Lemma gray_cons id e stack :
  gray (Frame.mk id e :: stack) = if e then id :: gray stack else gray stack.
Proof. unfold gray. by destruct e. Qed.

(** Every frame above an expanded frame is one of its parents. *)
Fixpoint linked (stack : list Frame.t) : Prop :=
  match stack with
  | [] => True
  | f :: rest =>
      linked rest ∧ match gray rest with [] => True | x :: _ => tparent x (Frame.id f) end
  end.

(** Every target parent of an expanded frame satisfies [P] or is above it. *)
Fixpoint covered (P : RevisionId → Prop) (stack : list Frame.t) : Prop :=
  match stack with
  | [] => True
  | f :: rest =>
      (Frame.expanded f = true → ∀ p, tparent (Frame.id f) p → P p) ∧
      covered (λ p, P p ∨ p = Frame.id f) rest
  end.

(** A frame not yet expanded is not being visited below. *)
Fixpoint fresh (stack : list Frame.t) : Prop :=
  match stack with
  | [] => True
  | f :: rest => (Frame.expanded f = false → Frame.id f ∉ gray rest) ∧ fresh rest
  end.

Definition parents_first (l : list RevisionId) : Prop :=
  ∀ l1 x l2, l = l1 ++ x :: l2 → ∀ p, tparent x p → p ∈ l1.

Record topo_inv (stack : list Frame.t) (st : Topo.t) : Prop := TopoInv {
  inv_ordered : Topo.ordered st = Topo.done st;
  inv_onStack : ∀ x, x ∈ Topo.onStack st ↔ x ∈ gray stack;
  inv_nodup : NoDup (gray stack ++ Topo.done st);
  inv_done_target : Topo.done st ⊆ target;
  inv_stack_target : ∀ f, f ∈ stack → Frame.id f ∈ target;
  inv_first : parents_first (Topo.done st);
  inv_covered : covered (λ p, p ∈ Topo.done st) stack;
  inv_linked : linked stack;
  inv_fresh : fresh stack;
}.

Lemma covered_mono (P Q : RevisionId → Prop) stack :
  (∀ p, P p → Q p) → covered P stack → covered Q stack.
Proof.
  revert P Q. induction stack as [|f rest IH]; intros P Q HPQ; simpl; [done|].
  intros [Hf Hc]. split; [auto|]. eapply IH; [|done]. naive_solver.
Qed.

Lemma linked_path f rest p :
  linked (f :: rest) → p ∈ gray rest → tc tparent p (Frame.id f).
Proof.
  revert f. induction rest as [|[id e] rest IH]; intros f; [set_solver|].
  rewrite gray_cons. destruct e; simpl.
  - intros [[Hl Hid] Hf]. intros [-> | Hp]%elem_of_cons.
    + by apply tc_once.
    + eapply tc_r; [|done]. by apply (IH (Frame.mk id true)).
  - intros [[Hl _] Hf]. by apply IH.
Qed.

Lemma parents_first_snoc l x :
  parents_first l → (∀ p, tparent x p → p ∈ l) → parents_first (l ++ [x]).
Proof.
  intros Hl Hx l1 y l2 Heq p Hp.
  destruct l2 as [|z l2 _] using rev_ind.
  - apply app_inj_tail in Heq as [-> ->]. auto.
  - rewrite app_comm_cons, app_assoc in Heq. apply app_inj_tail in Heq as [-> ->].
    by eapply Hl.
Qed.

(** ** Pushing the parents *)

Definition pending (done : list RevisionId) (stack : list Frame.t) (x : RevisionId) : Prop :=
  x ∈ done ∨ x ∈ Frame.id <$> stack.

(** What pushing the parents of [id] keeps and adds. *)
Lemma push_parents_Ok done onStack stack parents stack' :
  push_parents target done onStack stack parents = Ok stack' →
  ∃ new, stack' = new ++ stack ∧ length new ≤ length parents ∧
    (∀ f, f ∈ new → Frame.expanded f = false ∧ Frame.id f ∈ parents ∧ Frame.id f ∈ target ∧
       Frame.id f ∉ onStack) ∧
    (∀ p, p ∈ parents → p ∈ target → p ∈ done ∨ p ∈ Frame.id <$> new).
Proof.
  revert stack. induction parents as [|p ps IH]; intros stack; simpl.
  - intros [= <-]. exists []. split_and!; [done|done|set_solver|set_solver].
  - destruct (bool_decide (p ∉ target) || bool_decide (p ∈ done)) eqn:Hskip.
    + intros (new&->&?&Hnew&Hall)%IH. exists new. split_and!; [done|lia|set_solver|].
      apply orb_true_iff in Hskip as [Hs%bool_decide_eq_true|Hs%bool_decide_eq_true];
        intros q [-> | ?]%elem_of_cons; auto; done.
    + rewrite assert_bind. intros [Hos%bool_decide_eq_true (new&->&?&Hnew&Hall)%IH].
      apply orb_false_iff in Hskip as [Hs%bool_decide_eq_false _].
      exists (new ++ [Frame.mk p false]). split_and!.
      * by rewrite <-app_assoc.
      * rewrite length_app. simpl. lia.
      * intros f [(?&?&?&?)%Hnew| ->%list_elem_of_singleton]%elem_of_app; [set_solver|].
        simpl. split_and!; [done|by left|by apply dec_stable|done].
      * intros q Hq Hqt. rewrite fmap_app. apply elem_of_cons in Hq as [-> |Hq]; [set_solver|].
        destruct (Hall q Hq Hqt); set_solver.
Qed.

Lemma push_parents_Err done onStack stack parents e :
  push_parents target done onStack stack parents = Err e →
  ∃ p, p ∈ parents ∧ p ∈ target ∧ p ∈ onStack.
Proof.
  revert stack. induction parents as [|p ps IH]; intros stack; simpl; [done|].
  destruct (_ || _) eqn:Hskip; [intros (q&?&?&?)%IH; exists q; set_solver|].
  apply orb_false_iff in Hskip as [Hs%bool_decide_eq_false _].
  destruct (decide (p ∈ onStack)) as [Hp|Hp].
  - intros _. exists p. split_and!; [by left|by apply dec_stable|done].
  - rewrite bool_decide_eq_true_2 by done. simpl. intros (q&?&?&?)%IH; exists q; set_solver.
Qed.

Lemma new_frames_gray new stack :
  (∀ f, f ∈ new → Frame.expanded f = false) → gray (new ++ stack) = gray stack.
Proof.
  intros Hnew. induction new as [|[id e] new IH]; [done|].
  simpl. rewrite gray_cons. assert (e = false) as -> by (apply (Hnew (Frame.mk id e)); by left).
  apply IH. intros f ?. apply Hnew. by right.
Qed.

Lemma new_frames_linked new id rest :
  (∀ f, f ∈ new → Frame.expanded f = false ∧ tparent id (Frame.id f)) →
  linked (Frame.mk id true :: rest) → linked (new ++ Frame.mk id true :: rest).
Proof.
  intros Hnew Hl. induction new as [|f new IH]; [done|]. simpl.
  split; [apply IH; intros ??; apply Hnew; by right|].
  rewrite new_frames_gray by (intros ??; apply Hnew; by right).
  rewrite gray_cons. apply Hnew. by left.
Qed.

Lemma new_frames_fresh new stack :
  (∀ f, f ∈ new → Frame.expanded f = false ∧ Frame.id f ∉ gray stack) →
  fresh stack → fresh (new ++ stack).
Proof.
  intros Hnew Hl. induction new as [|f new IH]; [done|]. simpl.
  rewrite new_frames_gray by (intros ??; apply Hnew; by right).
  split; [intros _; apply Hnew; by left|apply IH; intros ??; apply Hnew; by right].
Qed.

Lemma new_frames_covered (P : RevisionId → Prop) new stack :
  (∀ f, f ∈ new → Frame.expanded f = false) →
  covered (λ p, P p ∨ p ∈ Frame.id <$> new) stack → covered P (new ++ stack).
Proof.
  revert P. induction new as [|f new IH]; intros P Hnew Hc; simpl.
  - eapply covered_mono; [|done]. set_solver.
  - split; [rewrite Hnew by (by left); done|]. apply IH; [intros ??; apply Hnew; by right|].
    eapply covered_mono; [|done]. simpl. set_solver.
Qed.

(** ** One iteration *)

Lemma topo_inv_skip id e rest od dn os :
  id ∈ dn → topo_inv (Frame.mk id e :: rest) (Topo.mk od dn os) →
  topo_inv rest (Topo.mk od dn (set_delete os id)).
Proof.
  intros Hid [Ho Hs Hnd Hdt Hst Hf [Hc1 Hc2] [Hl _] [_ Hfr]]; simpl in *.
  rewrite gray_cons in *. destruct e.
  { apply NoDup_app in Hnd as (_&Hnd&_). destruct (Hnd id); [by left|done]. }
  apply NoDup_app in Hnd as Hnd'. destruct Hnd' as (_&Hdisj&_).
  split; simpl; try done.
  - intros x. rewrite elem_of_set_delete, Hs. split; [naive_solver|].
    intros Hx. split; [done|]. intros ->. by apply (Hdisj id).
  - intros f ?. apply Hst. by right.
  - eapply covered_mono; [|done]. naive_solver.
Qed.

Lemma topo_inv_finish id rest od dn os :
  id ∉ dn → topo_inv (Frame.mk id true :: rest) (Topo.mk od dn os) →
  topo_inv rest (Topo.mk (od ++ [id]) (set_add dn id) (set_delete os id)).
Proof.
  intros Hid [Ho Hs Hnd Hdt Hst Hf [Hc1 Hc2] [Hl _] [_ Hfr]]; simpl in *. rewrite gray_cons in *.
  rewrite set_add_absent by done. simpl in Hnd. apply NoDup_cons in Hnd as [Hin Hnd].
  rewrite elem_of_app in Hin. apply NoDup_app in Hnd as (Hg&Hdisj&Hd).
  split; simpl.
  - by rewrite Ho.
  - intros x. rewrite elem_of_set_delete, Hs, elem_of_cons. naive_solver.
  - apply NoDup_app. split_and!; [done| |apply NoDup_app; split_and!; set_solver by
      eauto using NoDup_singleton].
    intros x Hx [?| ->%list_elem_of_singleton]%elem_of_app; [by apply (Hdisj x)|tauto].
  - intros x [?| ->%list_elem_of_singleton]%elem_of_app; [auto|].
    apply (Hst (Frame.mk id true)). by left.
  - intros f ?. apply Hst. by right.
  - apply parents_first_snoc; [done|]. by apply Hc1.
  - eapply covered_mono; [|done]. set_solver.
  - done.
  - done.
Qed.

Lemma topo_inv_expand id rest od dn os new :
  id ∉ dn → topo_inv (Frame.mk id false :: rest) (Topo.mk od dn os) →
  (∀ f, f ∈ new → Frame.expanded f = false ∧ tparent id (Frame.id f) ∧
     Frame.id f ∉ id :: gray rest) →
  (∀ p, tparent id p → p ∈ dn ∨ p ∈ Frame.id <$> new) →
  topo_inv (new ++ Frame.mk id true :: rest) (Topo.mk od dn (set_add os id)).
Proof.
  intros Hid [Ho Hs Hnd Hdt Hst Hf [Hc1 Hc2] [Hl Hlf] [Hgray Hfr]] Hnew Hall; simpl in *.
  specialize (Hgray eq_refl). rewrite gray_cons in *.
  assert (∀ f, f ∈ new → Frame.expanded f = false) as Hexp by (intros; by apply Hnew).
  assert (gray (new ++ Frame.mk id true :: rest) = id :: gray rest) as Hgr
    by (by rewrite new_frames_gray, gray_cons).
  split; simpl; try done; rewrite ?Hgr.
  - intros x. rewrite elem_of_set_add, elem_of_cons, Hs. tauto.
  - simpl. apply NoDup_cons. split; [|done]. rewrite elem_of_app. tauto.
  - intros f [Hnf|[-> |?]%elem_of_cons]%elem_of_app; [by apply (Hnew f)|..].
    + apply (Hst (Frame.mk id false)). by left.
    + apply Hst. by right.
  - apply new_frames_covered; [done|]. simpl. split; [auto|].
    eapply covered_mono; [|done]. simpl. tauto.
  - apply new_frames_linked; [|by split]. intros f Hnf. split; by apply (Hnew f).
  - apply new_frames_fresh; [|by split]. intros f Hnf. rewrite gray_cons. split; by apply (Hnew f).
Qed.

(** ** The loop *)

Definition topo_measure (stack : list Frame.t) (done : list RevisionId) : nat :=
  sum_list_with (λ f, if Frame.expanded f then 1 else 2) stack
  + 2 * edges (unseen (gray stack ++ done)) g.

Lemma frames_weight_app l1 l2 :
  sum_list_with (λ f, if Frame.expanded f then 1 else 2) (l1 ++ l2)
  = sum_list_with (λ f, if Frame.expanded f then 1 else 2) l1
    + sum_list_with (λ f, if Frame.expanded f then 1 else 2) l2.
Proof. induction l1; simpl; lia. Qed.

Lemma new_frames_weight new :
  sum_list_with (λ f, if Frame.expanded f then 1 else 2) new ≤ 2 * length new.
Proof. induction new as [|[? []] new IH]; simpl; lia. Qed.

Lemma edges_ext s1 s2 :
  (∀ x, x ∈ s1 ↔ x ∈ s2) → edges (unseen s1) g = edges (unseen s2) g.
Proof.
  intros Hs. apply weight_ext. intros k. apply bool_decide_ext. by rewrite Hs.
Qed.

Lemma topo_measure_expand id rest dn new :
  id ∉ dn → id ∉ gray rest → (∀ f, f ∈ new → Frame.expanded f = false) →
  (∀ node, g !! id = Some node → length new ≤ length (RevisionNode.parentIds node)) →
  (g !! id = None → new = []) →
  topo_measure (new ++ Frame.mk id true :: rest) dn < topo_measure (Frame.mk id false :: rest) dn.
Proof.
  intros Hid Hg Hnew Hlen Hnone. unfold topo_measure.
  rewrite new_frames_gray, !gray_cons, frames_weight_app by done. simpl.
  assert (edges (unseen (id :: gray rest ++ dn)) g
          = edges (unseen (set_add (gray rest ++ dn) id)) g) as ->.
  { apply edges_ext. intros x. rewrite elem_of_set_add. set_solver. }
  pose proof (new_frames_weight new).
  destruct (g !! id) as [node|] eqn:Hn.
  - rewrite (edges_add g (gray rest ++ dn) id node) by (done || set_solver).
    specialize (Hlen node eq_refl). lia.
  - rewrite Hnone by done. pose proof (edges_add_le g (gray rest ++ dn) id). simpl. lia.
Qed.

(** What a run of the loop from [stack] and [st] returns. *)
Definition topo_result (stack : list Frame.t) (st : Topo.t) (r : result Topo.t) : Prop :=
  match r with
  | Ok st' =>
      topo_inv [] st' ∧ Topo.done st ⊆ Topo.done st' ∧
      ∀ f, f ∈ stack → Frame.id f ∈ Topo.done st'
  | Err _ => ∃ x, tc tparent x x
  end.

Lemma topo_result_weaken stack st stack' st' r :
  topo_result stack' st' r → Topo.done st ⊆ Topo.done st' →
  (∀ f, f ∈ stack → Frame.id f ∈ Topo.done st' ∨ ∃ f', f' ∈ stack' ∧ Frame.id f' = Frame.id f) →
  topo_result stack st r.
Proof.
  destruct r as [st''|]; simpl; [|done]. intros (?&Hsub&Hall) Hdn Hst. split_and!; [done|..].
  - by etrans.
  - intros f [|(f'&?&<-)]%Hst; [by apply Hsub|by apply Hall].
Qed.

Lemma topo_loop_spec fuel stack st :
  topo_measure stack (Topo.done st) ≤ fuel → topo_inv stack st →
  topo_result stack st (topo_loop fuel g target stack st).
Proof.
  revert stack st. induction fuel as [|fuel IH]; intros [|[id e] rest] [od dn os] Hm Hinv;
    try (simpl; split_and!; [done|done|by intros f ?%elem_of_nil]).
  { exfalso. unfold topo_measure in Hm. simpl in Hm. destruct e; lia. }
  simpl topo_loop. simpl Topo.done in Hm. case_decide as Hid; [|destruct e].
  - eapply topo_result_weaken; [apply IH; [|by eapply topo_inv_skip]|done|]; simpl.
    + unfold topo_measure in *. rewrite gray_cons in Hm. destruct e; simpl in Hm; [|lia].
      rewrite (edges_ext (gray rest ++ dn) ((id :: gray rest) ++ dn)) by set_solver. simpl. lia.
    + intros f [-> |?]%elem_of_cons; eauto.
  - eapply topo_result_weaken; [apply IH; [|by eapply topo_inv_finish]|..]; simpl.
    + unfold topo_measure in *. rewrite gray_cons in Hm. simpl in Hm.
      rewrite (edges_ext (gray rest ++ set_add dn id) (id :: gray rest ++ dn)); [lia|].
      intros x. rewrite elem_of_app, elem_of_set_add. set_solver.
    + intros x ?. apply elem_of_set_add. by left.
    + intros f [-> |?]%elem_of_cons; [left; apply elem_of_set_add; by right|eauto].
  - pose proof Hinv as [_ Hos _ _ _ _ _ Hlink [Hgray _]]. specialize (Hgray eq_refl).
    simpl in Hgray, Hos. rewrite gray_cons in Hos.
    assert (∀ f, f ∈ Frame.mk id false :: rest →
      ∃ f', f' ∈ Frame.mk id true :: rest ∧ Frame.id f' = Frame.id f) as Hsame.
    { intros f [-> |?]%elem_of_cons; [by exists (Frame.mk id true); split; [left|]|].
      exists f. split; [by right|done]. }
    destruct (g !! id) as [node|] eqn:Hg.
    + destruct (push_parents _ _ _ _ _) as [stack'|e] eqn:Hpush; simpl.
      * apply push_parents_Ok in Hpush as (new&->&Hlen&Hnew&Hall).
        assert (∀ f, f ∈ new → Frame.expanded f = false) by (intros; by apply Hnew).
        eapply topo_result_weaken; [apply IH|..]; simpl.
        -- cut (topo_measure (new ++ Frame.mk id true :: rest) dn
                < topo_measure (Frame.mk id false :: rest) dn); [lia|].
           apply topo_measure_expand; [done..| |by rewrite Hg].
           intros node'. rewrite Hg. by intros [= <-].
        -- eapply topo_inv_expand; [done..| |].
           ++ intros f Hf. destruct (Hnew f Hf) as (?&?&?&Hn). rewrite elem_of_set_add, Hos in Hn.
              rewrite elem_of_cons. unfold tparent. rewrite (parent_of_lookup _ _ _ _ Hg).
              tauto.
           ++ intros p [Hp ?]. rewrite (parent_of_lookup _ _ _ _ Hg) in Hp. auto.
        -- done.
        -- intros f (f'&?&?)%Hsame. right. exists f'. set_solver.
      * apply push_parents_Err in Hpush as (p&Hp&Hpt&Hpos).
        assert (tparent id p) as Hid' by (split; [by apply (parent_of_lookup _ _ _ _ Hg)|done]).
        apply elem_of_set_add in Hpos as [Hpos| ->]; [|exists id; by apply tc_once].
        rewrite Hos in Hpos. exists p. eapply tc_r; [|done].
        by apply (linked_path (Frame.mk id false) rest).
    + eapply topo_result_weaken; [apply IH|..]; simpl.
      * cut (topo_measure ([] ++ Frame.mk id true :: rest) dn
             < topo_measure (Frame.mk id false :: rest) dn); [simpl; lia|].
        apply topo_measure_expand; try done; [set_solver|by rewrite Hg].
      * apply (topo_inv_expand id rest od dn os []); [done..|set_solver|].
        intros p [Hp _]. by apply parent_of_None in Hp.
      * done.
      * intros f (f'&?&?)%Hsame. right. by exists f'.
Qed.
End topo.

(** ** The starts *)
Lemma edges_le_all g P : edges P g ≤ edges (λ _, true) g.
Proof.
  unfold edges, weight. generalize (map_to_list g) as l.
  induction l as [|[k v] l IH]; simpl; [done|]. unfold weight_list in *; simpl.
  destruct (P k); lia.
Qed.

Lemma topo_fuel_enough g P : 2 + 2 * edges P g ≤ topo_fuel g.
Proof. unfold topo_fuel. pose proof (edges_le_all g P). lia. Qed.

Section starts.
#[local] Opaque topo_fuel.
Context (g : RevisionGraph) (target : list RevisionId).

Lemma topo_inv_nil_start start st :
  topo_inv g target [] st → start ∈ target → topo_inv g target [Frame.mk start false] st.
Proof.
  intros [Ho Hs Hnd Hdt _ Hf _ _ _] Hstart. split; simpl; try done.
  - by intros f ->%list_elem_of_singleton.
  - split; [intros _ ?%elem_of_nil|]; done.
Qed.

Lemma topo_starts_spec starts st :
  topo_inv g target [] st → starts ⊆ target →
  match topo_starts g target starts st with
  | Ok st' => topo_inv g target [] st' ∧ Topo.done st ⊆ Topo.done st' ∧ starts ⊆ Topo.done st'
  | Err _ => ∃ x, tc (tparent g target) x x
  end.
Proof.
  revert st. induction starts as [|s starts IH]; intros st Hinv Hsub; simpl.
  { split_and!; [done|done|apply list_subseteq_nil]. }
  assert (s ∈ target) as Hs by (apply Hsub; by left).
  assert (starts ⊆ target) as Hsub' by (intros ??; apply Hsub; by right).
  case_decide as Hdone.
  - specialize (IH st Hinv Hsub'). destruct (topo_starts g target starts st); [|done].
    destruct IH as (?&Hd&?). split_and!; [done..|].
    intros x [-> |?]%elem_of_cons; [by apply Hd|auto].
  - assert (topo_measure g [Frame.mk s false] (Topo.done st) ≤ topo_fuel g) as Hm.
    { etrans; [|apply (topo_fuel_enough g (unseen (Topo.done st)))]. unfold topo_measure.
      change (gray [Frame.mk s false] ++ Topo.done st) with (Topo.done st). simpl. lia. }
    pose proof (topo_loop_spec g target _ _ _ Hm (topo_inv_nil_start _ _ Hinv Hs)) as Hloop.
    destruct (topo_loop _ _ _ _ _) as [st1|]; simpl in *; [|done].
    destruct Hloop as (Hinv1&Hd1&Hf1). specialize (IH st1 Hinv1 Hsub').
    destruct (topo_starts g target starts st1); [|done].
    destruct IH as (?&Hd&?). split_and!; [done|by etrans|].
    intros x [-> |?]%elem_of_cons; [|auto]. apply Hd, (Hf1 (Frame.mk s false)). by left.
Qed.
End starts.

Lemma tparent_target_ext g t1 t2 x y :
  (∀ z, z ∈ t1 ↔ z ∈ t2) → tc (tparent g t1) x y → tc (tparent g t2) x y.
Proof.
  intros Ht. apply (tc_congruence id). unfold tparent. intros a b. by rewrite Ht.
Qed.

Lemma topologicalOrder_spec g ids :
  match topologicalOrder g ids with
  | Ok order =>
      NoDup order ∧ (∀ x, x ∈ order ↔ x ∈ ids) ∧ parents_first g ids order
  | Err _ => ∃ x, tc (tparent g ids) x x
  end.
Proof.
  unfold topologicalOrder.
  assert (topo_inv g (set_from ids) [] (Topo.mk [] [] [])) as Hinv.
  { split; simpl; first [done | by constructor | by apply list_subseteq_nil
      | by intros ? ?%elem_of_nil | by intros [|? l1] x l2 Heq]. }
  pose proof (topo_starts_spec g (set_from ids) (set_from ids) _ Hinv (λ _ H, H)) as H.
  destruct (topo_starts _ _ _ _) as [st|e]; simpl.
  - destruct H as ([Ho _ Hnd Hdt _ Hf _ _ _]&_&Hall). rewrite Ho. split_and!; [done|..].
    + intros x. split; [intros ?%Hdt; by apply elem_of_set_from|].
      intros ?. by apply Hall, elem_of_set_from.
    + intros l1 x l2 Heq p [? ?]. eapply Hf; [done|]. split; [done|by apply elem_of_set_from].
  - destruct H as (x&Hx). exists x. eapply tparent_target_ext; [|done].
    intros z. apply elem_of_set_from.
Qed.

(** A parents-first list has no cycle. *)
Lemma parents_first_acyclic g ids order x :
  NoDup order → (∀ y, y ∈ order ↔ y ∈ ids) → parents_first g ids order →
  ¬ tc (tparent g ids) x x.
Proof.
  intros Hnd Hids Hpf.
  assert (∀ a b, tc (tparent g ids) a b →
    ∀ l1 l2, order = l1 ++ a :: l2 → b ∈ l1) as Hback.
  { intros a b Hab. induction Hab as [a b Hab|a b c Hab _ IH]; intros l1 l2 Heq.
    - by eapply Hpf.
    - assert (b ∈ l1) as (k1&k2&->)%list_elem_of_split by (by eapply Hpf).
      rewrite <-app_assoc in Heq. specialize (IH k1 _ Heq). set_solver. }
  intros Hx. assert (x ∈ order) as Hin.
  { apply Hids. by apply tc_inv_r in Hx as (?&_&_&?). }
  apply list_elem_of_split in Hin as (l1&l2&Heq).
  specialize (Hback x x Hx l1 l2 Heq). subst order.
  apply NoDup_app in Hnd as (_&Hdisj&_). apply (Hdisj x Hback). by left.
Qed.

Lemma topologicalOrder_ok_acyclic g ids :
  is_ok (topologicalOrder g ids) = true ↔ ∀ x, ¬ tc (tparent g ids) x x.
Proof.
  pose proof (topologicalOrder_spec g ids) as H.
  destruct (topologicalOrder g ids) as [order|e]; simpl.
  - destruct H as (?&?&?). split; [intros _ x|done]. by eapply parents_first_acyclic.
  - destruct H as (x&Hx). split; [done|]. intros Hno. by destruct (Hno x).
Qed.

Lemma parents_first_lookup g ids order i x p :
  parents_first g ids order → order !! i = Some x → parent_of g x p → p ∈ ids →
  ∃ j, j < i ∧ order !! j = Some p.
Proof.
  intros Hpf Hi Hp Hids.
  assert (p ∈ take i order) as [j Hj]%list_elem_of_lookup.
  { eapply (Hpf (take i order) x (drop (S i) order)); [|by split].
    symmetry. by apply take_drop_middle. }
  apply lookup_take_Some in Hj as [Hj ?]. eauto.
Qed.

(** ** Remote graphs *)

Lemma lookup_buildGraph_fold nodes (acc : RevisionGraph) i :
  foldl (λ byId node, <[RevisionNode.id node := node]> byId) acc nodes !! i
  = match last (filter (λ n, RevisionNode.id n = i) nodes) with
    | Some node => Some node
    | None => acc !! i
    end.
Proof.
  revert acc. induction nodes as [|n nodes IH]; intros acc; simpl; [done|].
  rewrite IH, filter_cons. case_decide as Hi.
  - rewrite last_cons. destruct (last _); [done|]. by subst; rewrite lookup_insert_eq.
  - destruct (last _); [done|]. by rewrite lookup_insert_ne.
Qed.

(** The last node declared with an id is the one the graph holds. *)
Lemma lookup_buildGraph nodes i :
  buildGraph nodes !! i = last (filter (λ n, RevisionNode.id n = i) nodes).
Proof. unfold buildGraph. rewrite lookup_buildGraph_fold. by destruct (last _). Qed.

Lemma buildGraph_lookup_Some nodes i node :
  buildGraph nodes !! i = Some node → RevisionNode.id node = i ∧ node ∈ nodes.
Proof.
  rewrite lookup_buildGraph. intros [l Hl]%last_Some.
  assert (node ∈ filter (λ n, RevisionNode.id n = i) nodes) as [??]%list_elem_of_filter; [|done].
  rewrite Hl. apply elem_of_app. right. by left.
Qed.

Lemma buildGraph_is_Some nodes i :
  is_Some (buildGraph nodes !! i) ↔ i ∈ RevisionNode.id <$> nodes.
Proof.
  rewrite lookup_buildGraph, last_is_Some, list_elem_of_fmap. split.
  - intros Hne. destruct (filter _ nodes) as [|n l] eqn:Hf; [done|].
    assert (n ∈ filter (λ n, RevisionNode.id n = i) nodes) as [<- ?]%list_elem_of_filter
      by (rewrite Hf; by left). eauto.
  - intros (n&->&Hn) Hnil. assert (n ∈ filter (λ m, RevisionNode.id m = RevisionNode.id n) nodes)
      as Hin by (by apply list_elem_of_filter). rewrite Hnil in Hin. by apply elem_of_nil in Hin.
Qed.

Lemma tc_parent_tparent g ids x y :
  (∀ z, is_Some (g !! z) → z ∈ ids) → tc (parent_of g) x y → y ∈ ids → tc (tparent g ids) x y.
Proof.
  intros Hids Hxy Hy. induction Hxy as [x y Hxy|x y z Hxy Hyz IH].
  - by apply tc_once.
  - eapply tc_l; [split; [done|]|by apply IH]. apply Hids.
    apply tc_inv_l in Hyz as (?&(node&?&_)&_). eauto.
Qed.

Lemma acyclic_tparent g ids :
  (∀ z, is_Some (g !! z) → z ∈ ids) →
  acyclic g ↔ ∀ x, ¬ tc (tparent g ids) x x.
Proof.
  intros Hids. split; intros Hno x Hx; apply (Hno x).
  - eapply (tc_congruence id); [|done]. by intros ?? [].
  - apply tc_parent_tparent; [done..|]. apply Hids.
    apply tc_inv_l in Hx as (?&(node&?&_)&_). eauto.
Qed.

Lemma check_distinct_spec seen nodes :
  NoDup seen →
  match check_distinct seen nodes with
  | Ok seen' => seen' = seen ++ (RevisionNode.id <$> nodes) ∧ NoDup seen'
  | Err _ => ¬ NoDup (seen ++ (RevisionNode.id <$> nodes))
  end.
Proof.
  revert seen. induction nodes as [|n nodes IH]; intros seen Hnd; simpl.
  { by rewrite app_nil_r. }
  destruct (decide (RevisionNode.id n ∈ seen)) as [Hin|Hin].
  - rewrite bool_decide_eq_false_2 by tauto. simpl. intros (_&Hdisj&_)%NoDup_app.
    apply (Hdisj _ Hin). by left.
  - rewrite bool_decide_eq_true_2 by done. simpl.
    specialize (IH _ (set_add_NoDup seen (RevisionNode.id n) Hnd)).
    rewrite set_add_absent in * by done. rewrite <-app_assoc in IH. exact IH.
Qed.

Lemma validateRemoteGraph_ok nodes :
  is_ok (validateRemoteGraph nodes) = true ↔
  NoDup (RevisionNode.id <$> nodes) ∧ acyclic (buildGraph nodes).
Proof.
  unfold validateRemoteGraph. pose proof (check_distinct_spec [] nodes (NoDup_nil_2)) as Hc.
  destruct (check_distinct [] nodes) as [seen|e]; simpl in *; [|naive_solver].
  destruct Hc as [-> Hnd].
  assert (∀ A B (f : A → B) r, is_ok (f <$> r) = is_ok r) as Hok by (by intros ??? []).
  rewrite Hok, topologicalOrder_ok_acyclic, (acyclic_tparent _ (RevisionNode.id <$> nodes)); [tauto|].
  intros z. by rewrite buildGraph_is_Some.
Qed.

Lemma missingRevisions_ok g head hasLocally :
  acyclic g →
  ∃ order, missingRevisions g head hasLocally = Ok order ∧ NoDup order ∧
    (∀ x, x ∈ order ↔
       rtc (parent_of g) head x ∧ is_Some (g !! x) ∧ hasLocally x = false) ∧
    ∀ i x p, order !! i = Some x → parent_of g x p →
      hasLocally p = true ∨ g !! p = None ∨ ∃ j, j < i ∧ order !! j = Some p.
Proof.
  intros Hacyc. unfold missingRevisions. set (wanted := filter _ _).
  assert (∀ x, x ∈ wanted ↔
    rtc (parent_of g) head x ∧ is_Some (g !! x) ∧ hasLocally x = false) as Hw.
  { intros x. unfold wanted. rewrite list_elem_of_filter, elem_of_ancestorsOf. tauto. }
  pose proof (topologicalOrder_spec g wanted) as H.
  destruct (topologicalOrder g wanted) as [order|].
  - destruct H as (?&Hel&Hpf). exists order. split_and!; [done..|by intros; rewrite Hel, Hw|].
    intros i x p Hi Hp. destruct (hasLocally p) eqn:Hloc; [by left|right].
    destruct (g !! p) eqn:Hgp; [right|by left].
    eapply parents_first_lookup; [done..|]. apply Hw. split_and!; [|by eauto|done].
    apply list_elem_of_lookup_2, Hel, Hw in Hi as (Hr&_). by eapply rtc_r.
  - destruct H as (x&Hx). destruct (Hacyc x). eapply (tc_congruence id); [|done]. by intros ?? [].
Qed.
