(* ===== verification/DagProps.v ===== *)
(** * The revision graph: properties

    What Dag.v promises to the sync engine and the session. *)

From S2P Require Import Prelude Model Dag DagTheory DagTheory.
From stdpp Require Import relations.

Definition mirror (d : Divergence) : Divergence :=
  match d with local_ahead => remote_ahead | remote_ahead => local_ahead | d => d end.

(** A graph that passes the check on remote summaries is acyclic. *)
Lemma acyclic_check nodes :
  is_ok (validateRemoteGraph nodes) = true → acyclic (buildGraph nodes).
Proof. intros ?. by apply validateRemoteGraph_ok. Qed.

(** C5: [ancestorsOf] returns each ancestor once: exactly the revisions
    reachable by walking parents, the start included, and revisions the graph
    does not define are kept as a frontier.  The loop always ends. *)
Theorem ancestorsOf_reachable g id :
  NoDup (ancestorsOf g id) ∧
  ∀ x, x ∈ ancestorsOf g id ↔ rtc (parent_of g) id x.
Proof. split; [apply ancestorsOf_NoDup|apply elem_of_ancestorsOf]. Qed.

(** the early-exit walk of [isAncestor] decides the same relation as
    membership in [ancestorsOf]. *)
Theorem isAncestor_ancestorsOf g a d :
  isAncestor g a d = bool_decide (a ∈ ancestorsOf g d).
Proof.
  apply eq_true_iff_eq. by rewrite bool_decide_eq_true, elem_of_ancestorsOf, isAncestor_rtc.
Qed.

(** C6: [findMergeBase] returns, without repetition, exactly the common
    ancestors that are not a proper ancestor of another common ancestor; on an
    acyclic graph it is empty only when the two revisions share no ancestor. *)
Theorem findMergeBase_best g a b :
  NoDup (findMergeBase g a b) ∧
  (∀ x, x ∈ findMergeBase g a b ↔ best_common_ancestor g a b x) ∧
  (acyclic g → findMergeBase g a b = [] ↔ ¬ ∃ x, common_ancestor g a b x).
Proof.
  split_and!; [apply findMergeBase_NoDup|apply elem_of_findMergeBase|].
  intros Hacyc. split.
  - intros Hnil (x&Hx). destruct (best_common_ancestor_exists g a b x) as (y&Hy); [done..|].
    apply elem_of_findMergeBase in Hy. rewrite Hnil in Hy. by apply elem_of_nil in Hy.
  - intros Hno. destruct (findMergeBase g a b) as [|x l] eqn:Hb; [done|].
    destruct Hno. exists x. apply (elem_of_findMergeBase g a b x). rewrite Hb. by left.
Qed.

(** C24: on an acyclic graph [classifyDivergence] returns the verdict that holds
    of the two heads, and no verdict of another kind holds of them. *)
Theorem classifyDivergence_correct g l r :
  acyclic g →
  divergence_spec g l r (classifyDivergence g l r) ∧
  ∀ d, divergence_spec g l r d → same_verdict (classifyDivergence g l r) d.
Proof.
  intros Hacyc. split; [by apply classifyDivergence_spec|]. intros d Hd.
  by apply (divergence_spec_unique g l r); [..|apply classifyDivergence_spec|].
Qed.

(** The two devices of a session reach mirrored verdicts: what is ahead on
    one side is behind on the other, and a fork has the same merge bases. *)
Theorem classifyDivergence_mirror g l r :
  acyclic g →
  same_verdict (classifyDivergence g r l) (mirror (classifyDivergence g l r)).
Proof.
  intros Hacyc.
  pose proof (classifyDivergence_cases g l r) as H1.
  pose proof (classifyDivergence_cases g r l) as H2.
  assert (findMergeBase g r l ≡ₚ findMergeBase g l r) as Hperm.
  { apply NoDup_Permutation; [apply findMergeBase_NoDup..|]. intros x.
    by rewrite !elem_of_findMergeBase, best_common_ancestor_sym. }
  assert (findMergeBase g r l = [] ↔ findMergeBase g l r = []) as Hnil.
  { split; intros Hb; rewrite Hb in Hperm; [symmetry in Hperm|]; by apply Permutation_nil_r in Hperm. }
  assert (rtc (parent_of g) l r → rtc (parent_of g) r l → l = r) as Hanti.
  { rewrite !rtc_tc. intros [|] [|]; [congruence..|]. destruct (Hacyc l). by eapply tc_trans. }
  destruct (classifyDivergence g l r), (classifyDivergence g r l); simpl;
    repeat match goal with H : _ ∧ _ |- _ => destruct H end; subst; try done;
    try (by exfalso; eauto using rtc_refl); try tauto.
Qed.

(** C24: [topologicalOrder] returns the given revisions once each, every parent
    among them before its children, or throws because parents among them form
    a cycle.  The loop always ends. *)
Theorem topologicalOrder_correct g ids :
  match topologicalOrder g ids with
  | Ok order =>
      NoDup order ∧ (∀ x, x ∈ order ↔ x ∈ ids) ∧
      ∀ i x p, order !! i = Some x → parent_of g x p → p ∈ ids →
        ∃ j, j < i ∧ order !! j = Some p
  | Err _ => ∃ x, tc (λ c p, parent_of g c p ∧ p ∈ ids) x x
  end.
Proof.
  pose proof (topologicalOrder_spec g ids) as H.
  destruct (topologicalOrder g ids) as [order|]; [|done].
  destruct H as (?&?&?). split_and!; [done..|]. intros. by eapply parents_first_lookup.
Qed.

(** A peer's history summary is accepted exactly when its revision ids are
    distinct and its parent edges have no cycle. *)
Theorem validateRemoteGraph_correct nodes :
  is_ok (validateRemoteGraph nodes) = true ↔
  NoDup (RevisionNode.id <$> nodes) ∧ acyclic (buildGraph nodes).
Proof. apply validateRemoteGraph_ok. Qed.

(** On an acyclic remote graph [missingRevisions] never throws and returns,
    once each, exactly the revisions behind the remote head that the summary
    defines and this device lacks, each after those of its parents that it
    also returns. *)
Theorem missingRevisions_correct g head hasLocally :
  acyclic g →
  ∃ order, missingRevisions g head hasLocally = Ok order ∧ NoDup order ∧
    (∀ x, x ∈ order ↔
       rtc (parent_of g) head x ∧ is_Some (g !! x) ∧ hasLocally x = false) ∧
    ∀ i x p, order !! i = Some x → parent_of g x p →
      hasLocally p = true ∨ g !! p = None ∨ ∃ j, j < i ∧ order !! j = Some p.
Proof. apply missingRevisions_ok. Qed.

(** ** Witnesses *)

Definition fork_nodes : list RevisionNode.t :=
  [RevisionNode.mk "root" []; RevisionNode.mk "a" ["root"]; RevisionNode.mk "b" ["root"];
   RevisionNode.mk "m" ["a"; "b"]].

Lemma classifyDivergence_correct_witness :
  divergence_spec (buildGraph fork_nodes) "a" "b"
    (classifyDivergence (buildGraph fork_nodes) "a" "b").
Proof. apply classifyDivergence_correct, acyclic_check. vm_compute. reflexivity. Defined.

Lemma classifyDivergence_mirror_witness :
  same_verdict (classifyDivergence (buildGraph fork_nodes) "m" "a")
    (mirror (classifyDivergence (buildGraph fork_nodes) "a" "m")).
Proof. apply classifyDivergence_mirror, acyclic_check. vm_compute. reflexivity. Defined.

Lemma missingRevisions_correct_witness :
  missingRevisions (buildGraph fork_nodes) "m" (λ id, bool_decide (id = "root"))
    = Ok ["b"; "a"; "m"] ∧
  ∃ order, missingRevisions (buildGraph fork_nodes) "m" (λ id, bool_decide (id = "root"))
    = Ok order ∧ NoDup order.
Proof.
  split; [vm_compute; reflexivity|].
  destruct (missingRevisions_correct (buildGraph fork_nodes) "m" (λ id, bool_decide (id = "root")))
    as (order&?&?&_); [apply acyclic_check; vm_compute; reflexivity|].
  exists order. split; assumption.
Defined.
