(* ===== verification/Bytes.v ===== *)
(** * Bytes

    A [Uint8Array] is a list of bytes; the readers and writers of fixed-width
    integers ([DataView]) and the copies ([set], [subarray]) the source uses. *)

From S2P Require Import Prelude.
From Stdlib Require Strings.Byte.

#[global] Instance byte_eq_dec : EqDecision Byte.byte := Byte.byte_eq_dec.

(** A byte as a number, and the low eight bits of a number as a byte. *)
Definition byte_to_Z (b : Byte.byte) : Z := Z.of_N (Byte.to_N b).

Definition byte_of_Z (z : Z) : Byte.byte :=
  default Byte.x00 (Byte.of_N (Z.to_N (Z.land z 255))).

(** [DataView.setUint32(_, v, false)] and [getUint32(_, false)]: big-endian. *)
Definition setUint32 (v : Z) : list Byte.byte :=
  [byte_of_Z (Z.shiftr v 24); byte_of_Z (Z.shiftr v 16);
   byte_of_Z (Z.shiftr v 8); byte_of_Z v].

Definition getUint32 (bytes : list Byte.byte) : Z :=
  foldl (λ acc b, Z.lor (Z.shiftl acc 8) (byte_to_Z b)) 0%Z (take 4 bytes).

(** [DataView.getUint32(_, true)]: little-endian. *)
Definition getUint32_le (bytes : list Byte.byte) : Z :=
  foldr (λ b acc, Z.lor (byte_to_Z b) (Z.shiftl acc 8)) 0%Z (take 4 bytes).

Definition byteLength (bytes : list Byte.byte) : Z := Z.of_nat (length bytes).

(** [bytes.subarray(first, last)] with [0 <= first]. *)
Definition subarray (bytes : list Byte.byte) (first last : Z) : list Byte.byte :=
  take (Z.to_nat (last - first)) (drop (Z.to_nat first) bytes).

(** [new Uint8Array(n)]: zero-filled. *)
Definition zeros (n : Z) : list Byte.byte := replicate (Z.to_nat n) Byte.x00.

(** [buffer.set(chunk, offset)]: throws a [RangeError] past the end. *)
Definition buffer_set (buffer chunk : list Byte.byte) (offset : Z) : result (list Byte.byte) :=
  if (offset + byteLength chunk <=? byteLength buffer)%Z then
    Ok (take (Z.to_nat offset) buffer ++ chunk
        ++ drop (Z.to_nat (offset + byteLength chunk)) buffer)
  else Err "offset is out of bounds".

(** ** Facts *)

Lemma byte_to_Z_range b : (0 <= byte_to_Z b < 256)%Z.
Proof. unfold byte_to_Z. pose proof (Byte.to_N_bounded b). lia. Qed.

Lemma byte_to_of_Z z : byte_to_Z (byte_of_Z z) = (z mod 256)%Z.
Proof.
  unfold byte_to_Z, byte_of_Z.
  change 255%Z with (Z.ones 8). rewrite Z.land_ones by lia. change (2 ^ 8)%Z with 256%Z.
  pose proof (Z.mod_pos_bound z 256 ltac:(lia)).
  destruct (Byte.of_N _) as [b|] eqn:Hb; simpl.
  - apply Byte.to_of_N in Hb. lia.
  - apply Byte.of_N_None_iff in Hb. lia.
Qed.

Lemma byte_of_to_Z b : byte_of_Z (byte_to_Z b) = b.
Proof. by destruct b. Qed.

Lemma byte_lor_shiftl (hi lo : Z) :
  (0 <= lo < 256)%Z → Z.lor (Z.shiftl hi 8) lo = (hi * 256 + lo)%Z.
Proof.
  intros Hlo. rewrite Z.shiftl_mul_pow2 by lia. change (2 ^ 8)%Z with 256%Z.
  enough (Z.land (hi * 256) lo = 0)%Z by (pose proof (Z.add_lor_land (hi * 256) lo); lia).
  apply Z.bits_inj'. intros n Hn.
  rewrite Z.land_spec, Z.bits_0. destruct (decide (n < 8)%Z) as [Hn8|Hn8].
  - change 256%Z with (2 ^ 8)%Z. by rewrite Z.mul_pow2_bits_low.
  - assert (Z.testbit lo n = false) as ->; [|apply andb_false_r].
    destruct (decide (lo = 0)%Z) as [->|]; [apply Z.bits_0|].
    apply Z.bits_above_log2; [lia|]. assert (Z.log2 lo < 8)%Z; [|lia].
    apply Z.log2_lt_pow2; lia.
Qed.

(** Reading back a 32-bit unsigned integer. *)
Lemma getUint32_setUint32 v rest :
  (0 <= v < 2 ^ 32)%Z → getUint32 (setUint32 v ++ rest) = v.
Proof.
  intros Hv. unfold getUint32, setUint32. simpl. change (Z.shiftl 0 8) with 0%Z. rewrite Z.lor_0_l.
  rewrite !byte_lor_shiftl by apply byte_to_Z_range. rewrite !byte_to_of_Z.
  rewrite !Z.shiftr_div_pow2 by lia.
  change (2 ^ 24)%Z with 16777216%Z. change (2 ^ 16)%Z with 65536%Z.
  change (2 ^ 8)%Z with 256%Z. change (2 ^ 32)%Z with 4294967296%Z in Hv.
  Z.to_euclidean_division_equations. lia.
Qed.

Lemma getUint32_range bytes : (0 <= getUint32 bytes < 2 ^ 32)%Z.
Proof.
  unfold getUint32.
  destruct bytes as [|a [|b [|c [|d ?]]]]; simpl; change (Z.shiftl 0 8) with 0%Z;
    rewrite ?Z.lor_0_l, ?byte_lor_shiftl by apply byte_to_Z_range;
    repeat match goal with |- context [byte_to_Z ?x] =>
      pose proof (byte_to_Z_range x); generalize dependent (byte_to_Z x); intros end; lia.
Qed.

Lemma buffer_set_next (done chunk : list Byte.byte) (n : nat) :
  length chunk ≤ n →
  buffer_set (done ++ replicate n Byte.x00) chunk (byteLength done)
  = Ok ((done ++ chunk) ++ replicate (n - length chunk) Byte.x00).
Proof.
  intros Hn. unfold buffer_set, byteLength. rewrite length_app, length_replicate.
  destruct (Z.leb_spec (Z.of_nat (length done) + Z.of_nat (length chunk))
              (Z.of_nat (length done + n))); [|lia].
  rewrite Nat2Z.id, take_app_length. f_equal. rewrite <-app_assoc. do 2 f_equal.
  rewrite drop_app_ge by lia. rewrite drop_replicate. f_equal. lia.
Qed.
