(* ===== verification/Framing.v ===== *)
(** * Binary framing

    packages/core/src/framing.ts: the frame header of the bulk channel, the
    number of chunks of a revision, and the assembler that puts the chunks of
    one inbound transfer back together; the chunk plan of
    packages/core/src/transfers.ts, which counts the same chunks.

    Sizes and indices are integers.  The division inside [Math.ceil] is exact
    integer division: a quotient of integers below 2^53 never rounds onto an
    integer it is not. *)

From S2P Require Import Prelude Bytes.

Open Scope Z_scope.

Definition CHUNK_HEADER_BYTES : Z := 8.
Definition DEFAULT_CHUNK_BYTES : Z := 64 * 1024.
Definition MAX_UINT32 : Z := 0xffffffff.

Module ChunkFrame.
Record t : Type := mk {
  transferSeq : Z;
  chunkIndex : Z;
  payload : list Byte.byte;
}.

#[global] Instance eq_dec : EqDecision t.
Proof. solve_decision. Defined.
End ChunkFrame.

Definition encodeChunkFrame (input : ChunkFrame.t) : result (list Byte.byte) :=
  let 'ChunkFrame.mk transferSeq chunkIndex payload := input in
  assert ((0 <=? transferSeq) && (transferSeq <=? MAX_UINT32))
    "transferSeq must fit in uint32" ≫= λ _,
  assert ((0 <=? chunkIndex) && (chunkIndex <=? MAX_UINT32))
    "chunkIndex must fit in uint32" ≫= λ _,
  Ok (setUint32 transferSeq ++ setUint32 chunkIndex ++ payload).

Definition decodeChunkFrame (frame : list Byte.byte) : option ChunkFrame.t :=
  if byteLength frame <? CHUNK_HEADER_BYTES then None
  else Some (ChunkFrame.mk (getUint32 frame) (getUint32 (drop 4 frame))
               (drop (Z.to_nat CHUNK_HEADER_BYTES) frame)).

(** [Math.ceil(n / d)] for integers, [d] positive. *)
Definition ceil_div (n d : Z) : Z := - ((- n) / d).

Definition chunkCountFor (sizeBytes chunkBytes : Z) : result Z :=
  assert (0 <=? sizeBytes) "size must not be negative" ≫= λ _,
  assert (0 <? chunkBytes) "chunk size must be positive" ≫= λ _,
  Ok (Z.max 1 (ceil_div sizeBytes chunkBytes)).

Module ChunkPlan.
Record t : Type := mk {
  chunkIndex : Z;
  offset : Z;
  length : Z;
}.
End ChunkPlan.

Definition planChunks (sizeBytes chunkSizeBytes : Z) : result (list ChunkPlan.t) :=
  assert (0 <=? sizeBytes) "size must not be negative" ≫= λ _,
  assert (0 <? chunkSizeBytes) "chunk size must be positive" ≫= λ _,
  let totalChunks := ceil_div sizeBytes chunkSizeBytes in
  Ok ((λ chunkIndex,
        let offset := chunkIndex * chunkSizeBytes in
        ChunkPlan.mk chunkIndex offset (Z.min chunkSizeBytes (sizeBytes - offset)))
      <$> seqZ 0 totalChunks).

(** ** The assembler *)
Module ChunkAssembler.
Record t : Type := mk {
  totalChunks : Z;
  expectedSizeBytes : Z;
  chunks : gmap Z (list Byte.byte);
  received : Z;
}.

Definition new (totalChunks expectedSizeBytes : Z) : result t :=
  assert (0 <? totalChunks) "a transfer must have at least one chunk" ≫= λ _,
  Ok (mk totalChunks expectedSizeBytes ∅ 0).

Definition accept (a : t) (frame : ChunkFrame.t) : bool * t :=
  let index := ChunkFrame.chunkIndex frame in
  if totalChunks a <=? index then (false, a)
  else
    match chunks a !! index with
    | Some _ => (true, a)
    | None =>
        let projected := received a + byteLength (ChunkFrame.payload frame) in
        if expectedSizeBytes a <? projected then (false, a)
        else (true, mk (totalChunks a) (expectedSizeBytes a)
                      (<[index := ChunkFrame.payload frame]> (chunks a)) projected)
    end.

Definition isComplete (a : t) : bool :=
  (Z.of_nat (size (chunks a)) =? totalChunks a) && (received a =? expectedSizeBytes a).

Definition receivedBytes (a : t) : Z := received a.

Definition missingIndices (a : t) : list Z :=
  filter (λ index, chunks a !! index = None) (seqZ 0 (totalChunks a)).

(** The copy loop of [assemble], over the indices still to copy. *)
Fixpoint assemble_loop (chunks : gmap Z (list Byte.byte)) (indices : list Z)
    (output : list Byte.byte) (offset : Z) : result (list Byte.byte) :=
  match indices with
  | [] => Ok output
  | index :: indices =>
      match chunks !! index with
      | None => Err ("Contract violation: missing chunk " +:+ pretty index)%string
      | Some chunk =>
          buffer_set output chunk offset ≫= λ output,
          assemble_loop chunks indices output (offset + byteLength chunk)
      end
  end.

Definition assemble (a : t) : result (list Byte.byte) :=
  assert (isComplete a) "cannot assemble an incomplete transfer" ≫= λ _,
  assemble_loop (chunks a) (seqZ 0 (totalChunks a)) (zeros (expectedSizeBytes a)) 0.
End ChunkAssembler.

(** The frames [serve] of packages/sync/src/session.ts sends for a revision:
    its bytes cut at multiples of the chunk size. *)
Definition chunk_frame (transferSeq chunkBytes : Z) (bytes : list Byte.byte) (chunkIndex : Z)
    : ChunkFrame.t :=
  let start := chunkIndex * chunkBytes in
  ChunkFrame.mk transferSeq chunkIndex
    (subarray bytes start (Z.min (start + chunkBytes) (byteLength bytes))).

(** Delivering frames to an assembler, one after the other. *)
Fixpoint deliver (a : ChunkAssembler.t) (frames : list ChunkFrame.t)
    : list bool * ChunkAssembler.t :=
  match frames with
  | [] => ([], a)
  | frame :: frames =>
      let '(ok, a) := ChunkAssembler.accept a frame in
      let '(oks, a) := deliver a frames in (ok :: oks, a)
  end.

(** ** Properties *)

(** ** Chunk counts *)

Lemma ceil_div_spec n d :
  0 < d → (ceil_div n d - 1) * d < n ∧ n <= ceil_div n d * d.
Proof.
  intros Hd. unfold ceil_div.
  pose proof (Z.mul_div_le (- n) d Hd). pose proof (Z.mul_succ_div_gt (- n) d Hd). nia.
Qed.

Lemma ceil_div_nonneg n d : 0 <= n → 0 < d → 0 <= ceil_div n d.
Proof. intros. pose proof (ceil_div_spec n d). nia. Qed.

Lemma chunkCountFor_ok s c n :
  chunkCountFor s c = Ok n ↔ 0 <= s ∧ 0 < c ∧ n = Z.max 1 (ceil_div s c).
Proof.
  unfold chunkCountFor. rewrite !assert_bind, Z.leb_le, Z.ltb_lt. split.
  - by intros (?&?&[= <-]).
  - by intros (?&?&->).
Qed.

Lemma chunkCountFor_bounds s c n :
  chunkCountFor s c = Ok n → 1 <= n ∧ s <= n * c ∧ (n - 1) * c <= s.
Proof.
  intros (?&?&->)%chunkCountFor_ok. pose proof (ceil_div_spec s c ltac:(lia)). nia.
Qed.

(** ** The assembler's invariant *)
Module AssemblerInv.
Import ChunkAssembler.

Definition total (m : gmap Z (list Byte.byte)) : nat := weight length (λ _, true) m.

Record inv (a : t) : Prop := Inv {
  inv_pos : 0 < totalChunks a;
  inv_keys : ∀ i c, chunks a !! i = Some c → 0 <= i < totalChunks a;
  inv_received : received a = Z.of_nat (total (chunks a));
  inv_bound : received a <= Z.max 0 (expectedSizeBytes a);
}.

Lemma inv_new tc es a : new tc es = Ok a → inv a.
Proof.
  unfold new. rewrite assert_bind, Z.ltb_lt. intros [? [= <-]].
  split; simpl; [lia|done| |lia]. unfold total. by rewrite weight_empty.
Qed.

Lemma inv_accept a f ok a' :
  0 <= ChunkFrame.chunkIndex f → inv a → accept a f = (ok, a') → inv a'.
Proof.
  intros Hf [Hp Hk Hr Hb]. unfold accept.
  destruct (Z.leb_spec (totalChunks a) (ChunkFrame.chunkIndex f)); [by intros [= <- <-]|].
  destruct (chunks a !! _) as [c|] eqn:Hc; [by intros [= <- <-]|].
  destruct (Z.ltb_spec (expectedSizeBytes a)
    (received a + byteLength (ChunkFrame.payload f))) as [?|Hle]; intros [= <- <-]; [done|].
  split; simpl; [done|..].
  - intros i c. destruct (decide (ChunkFrame.chunkIndex f = i)) as [<-|Hne]; [lia|].
    rewrite lookup_insert_ne by done. apply Hk.
  - unfold total, byteLength. rewrite weight_insert by done. unfold total in Hr. simpl. lia.
  - lia.
Qed.

(** A complete assembler holds every index. *)
Lemma complete_lookup a i :
  inv a → isComplete a = true → 0 <= i < totalChunks a → is_Some (chunks a !! i).
Proof.
  intros [Hp Hk _ _] [Hs%Z.eqb_eq _]%andb_true_iff Hi.
  apply elem_of_dom. set (D := list_to_set (seqZ 0 (totalChunks a)) : gset Z).
  assert (dom (chunks a) ⊆ D) as Hsub.
  { intros k [c Hkc]%elem_of_dom. apply elem_of_list_to_set, elem_of_seqZ.
    specialize (Hk k c Hkc). lia. }
  assert (size D = size (dom (chunks a))) as Hsize.
  { unfold D. rewrite size_list_to_set by apply NoDup_seqZ. rewrite length_seqZ, size_dom. lia. }
  assert (D ⊆ dom (chunks a)) as HD.
  { apply set_subseteq_size_eq in Hsub; [|lia]. set_solver. }
  apply HD, elem_of_list_to_set, elem_of_seqZ. lia.
Qed.

Lemma assemble_loop_ok m n done (l : list Z) rest :
  (∀ i, i ∈ l → is_Some (m !! i)) →
  (sum_list_with (λ i, length (default [] (m !! i))) l + n)%nat = rest →
  assemble_loop m l (done ++ replicate rest Byte.x00) (byteLength done)
  = Ok ((done ++ concat ((λ i, default [] (m !! i)) <$> l)) ++ replicate n Byte.x00).
Proof.
  revert done rest. induction l as [|i l IH]; intros done rest Hall Hrest; simpl in *.
  { by rewrite app_nil_r, <-Hrest. }
  destruct (Hall i) as [c Hc]; [by left|]. rewrite Hc in *. simpl in *.
  rewrite buffer_set_next by lia. cbn [mbind result_bind].
  replace (byteLength done + byteLength c) with (byteLength (done ++ c))
    by (unfold byteLength; rewrite length_app; lia).
  rewrite IH; [by rewrite <-!app_assoc|..|lia]. intros j ?. apply Hall. by right.
Qed.
End AssemblerInv.

(** ** Cutting bytes into chunks *)

(** The slice number [i] of [bytes] cut every [c] bytes. *)
Definition slice (c : Z) (bytes : list Byte.byte) (i : Z) : list Byte.byte :=
  take (Z.to_nat c) (drop (Z.to_nat (i * c)) bytes).

Lemma subarray_slice c bytes i last :
  0 <= i → 0 < c → last = Z.min (i * c + c) (byteLength bytes) →
  subarray bytes (i * c) last = slice c bytes i.
Proof.
  intros Hi Hc ->. unfold subarray, slice, byteLength.
  destruct (decide (i * c + c <= Z.of_nat (length bytes))) as [Hle|Hgt].
  - rewrite Z.min_l by lia. do 2 f_equal. lia.
  - rewrite Z.min_r by lia. rewrite !take_ge; [done|rewrite length_drop; lia..].
Qed.

Lemma concat_slices c bytes n :
  0 < c → 0 <= n →
  concat (slice c bytes <$> seqZ 0 n) = take (Z.to_nat (n * c)) bytes.
Proof.
  intros Hc Hn. pattern n. apply natlike_ind; [done|..|done].
  intros x Hx IH. replace (Z.succ x) with (x + 1) at 1 by lia. rewrite seqZ_app, fmap_app by lia.
  rewrite concat_app, IH. simpl. rewrite Z.add_0_l.
  rewrite app_nil_r. unfold slice.
  replace (Z.to_nat (Z.succ x * c)) with (Z.to_nat (x * c) + Z.to_nat c)%nat by lia.
  by rewrite take_take_drop.
Qed.

Lemma slice_length_pos c bytes i :
  0 < c → 0 <= i → i * c < byteLength bytes → 0 < byteLength (slice c bytes i) <= c.
Proof.
  unfold slice, byteLength. intros. rewrite length_take, length_drop. nia.
Qed.

(** The index after the last chunk is where the bytes end. *)
Lemma slices_cover c bytes n :
  0 < c → byteLength bytes <= n * c → concat (slice c bytes <$> seqZ 0 n) = bytes.
Proof.
  intros Hc Hn. unfold byteLength in Hn. rewrite concat_slices by nia. rewrite take_ge; [done|lia].
Qed.

Lemma length_concat_fmap {A} (f : A → list Byte.byte) (l : list A) :
  length (concat (f <$> l)) = sum_list_with (λ x, length (f x)) l.
Proof. induction l as [|x l IH]; csimpl; [done|]. by rewrite length_app, IH. Qed.

(** ** Assembling what was cut *)
Module Delivery.
Import ChunkAssembler.

Definition pieces (c : Z) (bytes : list Byte.byte) (n : Z) : gmap Z (list Byte.byte) :=
  list_to_map ((λ i, (i, slice c bytes i)) <$> seqZ 0 n).

Lemma lookup_pieces c bytes n i :
  pieces c bytes n !! i = if decide (0 <= i < n) then Some (slice c bytes i) else None.
Proof.
  unfold pieces. case_decide as Hi.
  - apply elem_of_list_to_map.
    + rewrite <-list_fmap_compose. simpl. rewrite list_fmap_id. apply NoDup_seqZ.
    + apply list_elem_of_fmap. exists i. split; [done|]. apply elem_of_seqZ. lia.
  - apply not_elem_of_list_to_map. rewrite <-list_fmap_compose. simpl. rewrite list_fmap_id.
    rewrite elem_of_seqZ. lia.
Qed.

Lemma total_pieces c bytes n :
  0 < c → byteLength bytes <= n * c →
  AssemblerInv.total (pieces c bytes n) = length bytes.
Proof.
  intros Hc Hn. unfold AssemblerInv.total, weight, pieces.
  rewrite (weight_list_perm length (λ _, true) _ ((λ i, (i, slice c bytes i)) <$> seqZ 0 n)).
  - trans (length (concat (slice c bytes <$> seqZ 0 n))); [|by rewrite slices_cover].
    rewrite length_concat_fmap. unfold weight_list.
    induction (seqZ 0 n) as [|i l IH]; simpl; [done|]. f_equal. apply IH.
  - apply map_to_list_to_map. rewrite <-list_fmap_compose. simpl. rewrite list_fmap_id.
    apply NoDup_seqZ.
Qed.

(** The state of an assembler that was given some of the frames. *)
Record partial (c : Z) (bytes : list Byte.byte) (n : Z) (got : Z → Prop) (a : t) : Prop :=
  Partial {
  partial_inv : AssemblerInv.inv a;
  partial_total : totalChunks a = n;
  partial_expected : expectedSizeBytes a = byteLength bytes;
  partial_chunks : chunks a ⊆ pieces c bytes n;
  partial_got : ∀ i, got i → is_Some (chunks a !! i);
}.

Lemma partial_new c bytes n a :
  new n (byteLength bytes) = Ok a → partial c bytes n (λ _, False) a.
Proof.
  intros Hnew. split; [by eapply AssemblerInv.inv_new|..];
    unfold new in Hnew; apply assert_bind in Hnew as [_ [= <-]]; simpl; try done.
  apply map_empty_subseteq.
Qed.

Lemma accept_partial seq c bytes n got a i :
  0 < c → byteLength bytes <= n * c → 0 <= i < n → partial c bytes n got a →
  ∃ a', accept a (chunk_frame seq c bytes i) = (true, a')
      ∧ partial c bytes n (λ j, got j ∨ j = i) a'.
Proof.
  intros Hc Hn Hi [Hinv Ht He Hsub Hgot].
  destruct (accept a (chunk_frame seq c bytes i)) as [ok a'] eqn:Ha.
  pose proof Ha as Hinv'. apply AssemblerInv.inv_accept in Hinv'; [|simpl; lia|done].
  revert Ha. unfold accept, chunk_frame; simpl. rewrite (subarray_slice c) by lia.
  destruct (Z.leb_spec (totalChunks a) i); [lia|].
  destruct (chunks a !! i) as [p|] eqn:Hp.
  { intros [= <- <-]. exists a. split; [done|]. split; try done.
    intros j [?| ->]; [by apply Hgot|by eexists]. }
  assert (<[i := slice c bytes i]> (chunks a) ⊆ pieces c bytes n) as Hsub'.
  { apply insert_subseteq_l; [|done]. rewrite lookup_pieces. by rewrite decide_True by lia. }
  destruct (Z.ltb_spec (expectedSizeBytes a) (received a + byteLength (slice c bytes i))) as [Hlt|].
  - exfalso. pose proof (weight_subseteq length (λ _, true) _ _ Hsub') as Hw.
    rewrite weight_insert in Hw by done. fold (AssemblerInv.total (chunks a)) in Hw.
    fold (AssemblerInv.total (pieces c bytes n)) in Hw. rewrite total_pieces in Hw by done.
    pose proof (AssemblerInv.inv_received _ Hinv) as Hr.
    unfold byteLength in *. simpl in Hw. lia.
  - intros [= <- <-]. eexists. split; [done|]. split; simpl; [done..|].
    intros j [Hj| ->]; [|rewrite lookup_insert_eq; eauto].
    destruct (decide (i = j)) as [<-|]; [rewrite lookup_insert_eq; eauto|].
    rewrite lookup_insert_ne by done. by apply Hgot.
Qed.

Lemma partial_weaken c bytes n (got got' : Z → Prop) a :
  (∀ i, got' i → got i) → partial c bytes n got a → partial c bytes n got' a.
Proof. intros Hgot [????]. split; auto. Qed.

Lemma deliver_partial seq c bytes n (idx : list Z) got a :
  0 < c → byteLength bytes <= n * c → Forall (λ i, 0 <= i < n) idx →
  partial c bytes n got a →
  ∃ a', deliver a (chunk_frame seq c bytes <$> idx) = (replicate (length idx) true, a')
      ∧ partial c bytes n (λ j, got j ∨ j ∈ idx) a'.
Proof.
  intros Hc Hn. revert got a. induction idx as [|i idx IH]; intros got a Hidx Ha; csimpl.
  { exists a. split; [done|]. eapply partial_weaken, Ha. set_solver. }
  apply Forall_cons in Hidx as [Hi Hidx].
  destruct (accept_partial seq c bytes n got a i Hc Hn Hi Ha) as (a1&->&Ha1).
  destruct (IH _ a1 Hidx Ha1) as (a2&->&Ha2).
  exists a2. split; [done|]. eapply partial_weaken, Ha2. set_solver.
Qed.

(** With every index delivered the assembler holds exactly the pieces. *)
Lemma partial_full c bytes n got a :
  0 < c → byteLength bytes <= n * c → (∀ i, 0 <= i < n → got i) →
  partial c bytes n got a → chunks a = pieces c bytes n.
Proof.
  intros Hc Hn Hall [_ _ _ Hsub Hgot]. apply map_eq. intros i.
  rewrite lookup_pieces. case_decide as Hi.
  - destruct (Hgot i (Hall i Hi)) as [p Hp]. rewrite Hp.
    eapply lookup_weaken in Hp; [|done]. rewrite lookup_pieces, decide_True in Hp by done. done.
  - destruct (chunks a !! i) as [p|] eqn:Hp; [|done].
    eapply lookup_weaken in Hp; [|done]. by rewrite lookup_pieces, decide_False in Hp.
Qed.

Lemma full_complete c bytes n a :
  0 < c → byteLength bytes <= n * c →
  AssemblerInv.inv a → totalChunks a = n → expectedSizeBytes a = byteLength bytes →
  chunks a = pieces c bytes n →
  isComplete a = true ∧ assemble a = Ok bytes.
Proof.
  intros Hc Hn Hinv Ht He Hfull.
  assert (0 < n) as Hpos by (rewrite <-Ht; apply Hinv).
  assert (isComplete a = true) as Hcomp.
  { unfold isComplete. rewrite (AssemblerInv.inv_received _ Hinv), Hfull, He, Ht.
    rewrite total_pieces by done. apply andb_true_iff. split; [|by apply Z.eqb_refl].
    apply Z.eqb_eq. unfold pieces. rewrite map_size_list_to_map.
    - rewrite length_fmap, length_seqZ. lia.
    - rewrite <-list_fmap_compose. simpl. rewrite list_fmap_id. apply NoDup_seqZ. }
  split; [done|]. unfold assemble. rewrite Hcomp. cbn [assert mbind result_bind].
  assert (∀ i, i ∈ seqZ 0 n → pieces c bytes n !! i = Some (slice c bytes i)) as Hlook.
  { intros i Hi%elem_of_seqZ. rewrite lookup_pieces. by rewrite decide_True by lia. }
  rewrite Hfull, He, Ht.
  assert ((λ i, default [] (pieces c bytes n !! i)) <$> seqZ 0 n
          = slice c bytes <$> seqZ 0 n) as Hmap.
  { apply list_fmap_ext. intros ? i Hi%list_elem_of_lookup_2. by rewrite Hlook. }
  pose proof (AssemblerInv.assemble_loop_ok (pieces c bytes n) 0 [] (seqZ 0 n) (length bytes))
    as Hloop.
  rewrite Hmap, (slices_cover c bytes n Hc Hn), !app_nil_r in Hloop. simpl in Hloop.
  unfold zeros, byteLength. rewrite Nat2Z.id. apply Hloop.
  - intros i Hi. rewrite Hlook by done. eauto.
  - by rewrite Nat.add_0_r, <-length_concat_fmap, Hmap, (slices_cover c bytes n Hc Hn).
Qed.
End Delivery.

Lemma total_keys (m : gmap Z (list Byte.byte)) n :
  (∀ i, is_Some (m !! i) ↔ 0 <= i < n) →
  AssemblerInv.total m = sum_list_with (λ i, length (default [] (m !! i))) (seqZ 0 n).
Proof.
  intros Hkeys. set (l := (λ i, (i, default [] (m !! i))) <$> seqZ 0 n).
  assert (l.*1 = seqZ 0 n) as Hfst.
  { unfold l. rewrite <-list_fmap_compose. apply list_fmap_id. }
  assert (NoDup l.*1) as Hnd by (rewrite Hfst; apply NoDup_seqZ).
  assert (m = list_to_map l) as Hm.
  { apply map_eq. intros i. symmetry. destruct (m !! i) as [c|] eqn:Hi.
    - apply elem_of_list_to_map; [done|]. apply list_elem_of_fmap. exists i. rewrite Hi.
      split; [done|]. apply elem_of_seqZ. pose proof (proj1 (Hkeys i) ltac:(eauto)). lia.
    - apply not_elem_of_list_to_map. rewrite Hfst, elem_of_seqZ. intros Hr.
      destruct (proj2 (Hkeys i)) as [??]; [lia|congruence]. }
  unfold AssemblerInv.total, weight.
  rewrite (weight_list_perm length (λ _, true) _ l) by (rewrite Hm at 1; by apply map_to_list_to_map).
  unfold l, weight_list. clear. induction (seqZ 0 n); csimpl; [done|]. f_equal. done.
Qed.

Lemma deliver_inv a frames oks a' :
  Forall (λ f, 0 <= ChunkFrame.chunkIndex f) frames →
  AssemblerInv.inv a → deliver a frames = (oks, a') →
  AssemblerInv.inv a' ∧ ChunkAssembler.expectedSizeBytes a' = ChunkAssembler.expectedSizeBytes a.
Proof.
  intros Hf. revert a oks. induction Hf as [|f frames Hf _ IH]; simpl; intros a oks Hinv.
  { by intros [= <- <-]. }
  destruct (ChunkAssembler.accept a f) as [ok a1] eqn:Ha.
  destruct (deliver a1 frames) as [oks' a2] eqn:Hd. intros [= <- <-].
  apply IH in Hd as [Hinv2 He2]; [|by eapply AssemblerInv.inv_accept].
  split; [done|]. rewrite He2. revert Ha. unfold ChunkAssembler.accept.
  repeat case_match; by intros [= <- <-].
Qed.

Lemma assemble_complete a :
  AssemblerInv.inv a → ChunkAssembler.isComplete a = true →
  ∃ bytes, ChunkAssembler.assemble a = Ok bytes ∧
    byteLength bytes = ChunkAssembler.expectedSizeBytes a.
Proof.
  intros Hinv Hcomp. unfold ChunkAssembler.assemble. rewrite Hcomp. cbn [assert mbind result_bind].
  set (m := ChunkAssembler.chunks a). set (n := ChunkAssembler.totalChunks a).
  assert (∀ i, is_Some (m !! i) ↔ 0 <= i < n) as Hkeys.
  { intros i. split; [intros [c Hc]; by eapply AssemblerInv.inv_keys|].
    by apply AssemblerInv.complete_lookup. }
  pose proof (total_keys m n Hkeys) as Htot.
  apply andb_true_iff in Hcomp as [_ Hrec%Z.eqb_eq].
  rewrite (AssemblerInv.inv_received _ Hinv) in Hrec. fold m in Hrec.
  pose proof (AssemblerInv.assemble_loop_ok m 0 [] (seqZ 0 n) (AssemblerInv.total m)) as Hloop.
  rewrite !app_nil_r in Hloop. simpl in Hloop.
  unfold zeros.
  replace (Z.to_nat (ChunkAssembler.expectedSizeBytes a)) with (AssemblerInv.total m) by lia. eexists. split.
  - apply Hloop; [|lia]. intros i Hi%elem_of_seqZ. apply Hkeys. lia.
  - unfold byteLength. rewrite length_concat_fmap, <-Htot. done.
Qed.

(** ** The frame header *)

Lemma byte_of_Z_eq z b : z mod 256 = byte_to_Z b → byte_of_Z z = b.
Proof.
  intros Hz. rewrite <-(byte_of_to_Z b), <-Hz, <-byte_to_of_Z, byte_of_to_Z. done.
Qed.

(** Four bytes are what writing their number writes. *)
Lemma setUint32_getUint32 bytes : (4 <= length bytes)%nat → setUint32 (getUint32 bytes) = take 4 bytes.
Proof.
  destruct bytes as [|a [|b [|c [|d rest]]]]; simpl; [lia..|intros _].
  unfold getUint32, setUint32. simpl. change (Z.shiftl 0 8) with 0. rewrite Z.lor_0_l.
  rewrite !byte_lor_shiftl by apply byte_to_Z_range.
  pose proof (byte_to_Z_range a). pose proof (byte_to_Z_range b).
  pose proof (byte_to_Z_range c). pose proof (byte_to_Z_range d).
  rewrite !Z.shiftr_div_pow2 by lia.
  change (2 ^ 24) with 16777216. change (2 ^ 16) with 65536. change (2 ^ 8) with 256.
  repeat f_equal; apply byte_of_Z_eq; Z.to_euclidean_division_equations; lia.
Qed.

Lemma encodeChunkFrame_ok seq i p bytes :
  encodeChunkFrame (ChunkFrame.mk seq i p) = Ok bytes ↔
  0 <= seq < 2 ^ 32 ∧ 0 <= i < 2 ^ 32 ∧ bytes = setUint32 seq ++ setUint32 i ++ p.
Proof.
  unfold encodeChunkFrame, MAX_UINT32. rewrite !assert_bind, !andb_true_iff, !Z.leb_le.
  change (2 ^ 32) with 4294967296. split.
  - intros ([??]&[??]&[= <-]). repeat split; lia.
  - intros (?&?&->). repeat split; lia.
Qed.

Lemma decode_encode seq i p bytes :
  encodeChunkFrame (ChunkFrame.mk seq i p) = Ok bytes →
  decodeChunkFrame bytes = Some (ChunkFrame.mk seq i p).
Proof.
  intros (Hseq&Hi&->)%encodeChunkFrame_ok. unfold decodeChunkFrame, byteLength.
  rewrite !length_app. change (length (setUint32 seq)) with 4%nat.
  change (length (setUint32 i)) with 4%nat. unfold CHUNK_HEADER_BYTES.
  destruct (Z.ltb_spec (Z.of_nat (4 + (4 + length p))) 8); [lia|].
  rewrite getUint32_setUint32 by done.
  change (drop 4 (setUint32 seq ++ ?r)) with r. rewrite getUint32_setUint32 by done. done.
Qed.

Lemma encode_decode bytes f :
  decodeChunkFrame bytes = Some f → encodeChunkFrame f = Ok bytes.
Proof.
  unfold decodeChunkFrame, CHUNK_HEADER_BYTES, byteLength.
  destruct (Z.ltb_spec (Z.of_nat (length bytes)) 8) as [|Hlen]; intros [= <-].
  apply encodeChunkFrame_ok. split; [apply getUint32_range|]. split; [apply getUint32_range|].
  rewrite setUint32_getUint32 by lia. rewrite setUint32_getUint32 by (rewrite length_drop; lia).
  change (Z.to_nat 8) with (4 + 4)%nat. rewrite <-drop_drop, take_drop, take_drop. done.
Qed.

(** ** Properties *)

(** The frame header is a bijection.  Encoding a frame gives some bytes
    exactly when decoding those bytes gives the frame; it throws exactly on a
    sequence number or index that does not fit in 32 bits, and decoding refuses
    exactly the buffers shorter than the header. *)
Theorem chunk_frame_codec (f : ChunkFrame.t) (bytes : list Byte.byte) :
  (encodeChunkFrame f = Ok bytes ↔ decodeChunkFrame bytes = Some f) ∧
  (is_ok (encodeChunkFrame f) = true ↔
     0 <= ChunkFrame.transferSeq f < 2 ^ 32 ∧ 0 <= ChunkFrame.chunkIndex f < 2 ^ 32) ∧
  (decodeChunkFrame bytes = None ↔ byteLength bytes < CHUNK_HEADER_BYTES).
Proof.
  destruct f as [seq i p]. split; [split; [apply decode_encode|apply encode_decode]|]. split.
  - split.
    + destruct (encodeChunkFrame _) as [b|] eqn:He; [|done].
      apply encodeChunkFrame_ok in He. simpl. tauto.
    + intros [??]. destruct (encodeChunkFrame (ChunkFrame.mk seq i p)) as [b|] eqn:He; [done|].
      assert (encodeChunkFrame (ChunkFrame.mk seq i p)
              = Ok (setUint32 seq ++ setUint32 i ++ p)) as He'; [|congruence].
      by apply encodeChunkFrame_ok.
  - unfold decodeChunkFrame. destruct (Z.ltb_spec (byteLength bytes) CHUNK_HEADER_BYTES); [done|].
    split; [done|lia].
Qed.

(** The chunk plan tiles the revision.  For every size and chunk size the
    plan exists, numbers its chunks from zero, and reading the planned ranges
    one after the other reads every byte exactly once; no chunk is empty or
    longer than the chunk size, and the plan has the number of chunks that the
    transfer offer announces, unless the revision is empty. *)
Theorem planChunks_tiles (bytes : list Byte.byte) (chunkSize : Z) (Hc : 0 < chunkSize) :
  ∃ plan,
    planChunks (byteLength bytes) chunkSize = Ok plan ∧
    ChunkPlan.chunkIndex <$> plan = seqZ 0 (Z.of_nat (length plan)) ∧
    concat ((λ p, subarray bytes (ChunkPlan.offset p)
                    (ChunkPlan.offset p + ChunkPlan.length p)) <$> plan) = bytes ∧
    Forall (λ p, 0 < ChunkPlan.length p <= chunkSize) plan ∧
    (0 < byteLength bytes →
       chunkCountFor (byteLength bytes) chunkSize = Ok (Z.of_nat (length plan))).
Proof.
  pose proof (ceil_div_spec (byteLength bytes) chunkSize Hc) as [Hlo Hhi].
  assert (0 <= byteLength bytes) as Hb by (unfold byteLength; lia).
  pose proof (ceil_div_nonneg _ _ Hb Hc) as Hn.
  unfold planChunks. rewrite (proj2 (Z.leb_le _ _)), (proj2 (Z.ltb_lt _ _)) by done.
  cbn [assert mbind result_bind]. eexists. split; [done|].
  rewrite length_fmap, length_seqZ, Z2Nat.id by done. rewrite <-!list_fmap_compose.
  split; [apply list_fmap_id|]. split_and!.
  - rewrite <-(slices_cover chunkSize bytes (ceil_div (byteLength bytes) chunkSize)) at 2 by done.
    f_equal. apply list_fmap_ext. intros ? i Hi%list_elem_of_lookup_2%elem_of_seqZ. simpl.
    apply subarray_slice; lia.
  - apply Forall_fmap, Forall_forall. intros i Hi%elem_of_seqZ. simpl. nia.
  - intros Hpos. apply chunkCountFor_ok. split_and!; [done..|]. nia.
Qed.

Lemma planChunks_tiles_witness :
  0 < 3 ∧ ∃ plan, planChunks 7 3 = Ok plan ∧ length plan = 3%nat.
Proof.
  split; [lia|].
  destruct (planChunks_tiles (zeros 7) 3 ltac:(lia)) as (plan&Hplan&_&_&_&Hcount).
  exists plan. split; [exact Hplan|]. specialize (Hcount ltac:(vm_compute; reflexivity)).
  assert (chunkCountFor (byteLength (zeros 7)) 3 = Ok 3) as Hthree by reflexivity.
  rewrite Hthree in Hcount. injection Hcount. lia.
Defined.

(** C25: a transfer rebuilds the revision.  Cut the sender's bytes into the
    announced number of chunks and deliver the frames in any order, any number
    of times each, every index at least once: no frame is refused, the transfer
    is complete, nothing is missing, and assembling gives the sender's bytes. *)
Theorem assembler_rebuilds (transferSeq chunkBytes : Z) (bytes : list Byte.byte)
    (total : Z) (a : ChunkAssembler.t) (order : list Z)
    (Hc : chunkCountFor (byteLength bytes) chunkBytes = Ok total)
    (Hnew : ChunkAssembler.new total (byteLength bytes) = Ok a)
    (Horder : ∀ i, i ∈ order ↔ 0 <= i < total) :
  ∃ a',
    deliver a (chunk_frame transferSeq chunkBytes bytes <$> order)
      = (replicate (length order) true, a') ∧
    ChunkAssembler.isComplete a' = true ∧
    ChunkAssembler.missingIndices a' = [] ∧
    ChunkAssembler.assemble a' = Ok bytes.
Proof.
  pose proof (chunkCountFor_bounds _ _ _ Hc) as (Ht&Hcover&_).
  apply chunkCountFor_ok in Hc as (_&Hcpos&_).
  destruct (Delivery.deliver_partial transferSeq chunkBytes bytes total order _ a
    Hcpos Hcover ltac:(apply Forall_forall; intros i ?; by apply Horder)
    (Delivery.partial_new chunkBytes _ _ _ Hnew)) as (a'&Hd&Ha').
  exists a'. split; [done|].
  assert (ChunkAssembler.chunks a' = Delivery.pieces chunkBytes bytes total) as Hfull.
  { eapply (Delivery.partial_full _ _ _ _ _ Hcpos Hcover); [|exact Ha'].
    intros i Hi. right. by apply Horder. }
  destruct Ha' as [Hinv Htot Hexp _ _].
  destruct (Delivery.full_complete _ _ _ _ Hcpos Hcover Hinv Htot Hexp Hfull) as [Hcomp Hass].
  split; [done|]. split; [|done].
  apply elem_of_nil_inv. intros i. unfold ChunkAssembler.missingIndices.
  rewrite list_elem_of_filter, elem_of_seqZ, Hfull, Htot, Delivery.lookup_pieces.
  intros [Hnone Hi]. rewrite decide_True in Hnone by lia. done.
Qed.

Lemma assembler_rebuilds_witness :
  ∃ a a', chunkCountFor 5 2 = Ok 3 ∧ ChunkAssembler.new 3 5 = Ok a ∧
    deliver a (chunk_frame 9 2 [Byte.x01; Byte.x02; Byte.x03; Byte.x04; Byte.x05] <$> [2; 0; 2; 1])
      = ([true; true; true; true], a') ∧
    ChunkAssembler.assemble a' = Ok [Byte.x01; Byte.x02; Byte.x03; Byte.x04; Byte.x05].
Proof.
  eexists. destruct (assembler_rebuilds 9 2
    [Byte.x01; Byte.x02; Byte.x03; Byte.x04; Byte.x05] 3 _ [2; 0; 2; 1]
    eq_refl eq_refl) as (a'&Hd&_&_&Ha).
  - intros i. rewrite !elem_of_cons, elem_of_nil. lia.
  - exists a'. split_and!; [reflexivity..|exact Hd|exact Ha].
Defined.

(** Whatever a peer sends, an assembler never holds more than it was told
    to expect, and never gives up what it does not have: after any frames, the
    bytes received are within the announced size, and a transfer that reports
    itself complete assembles, without throwing, to exactly the announced
    number of bytes. *)
Theorem assembler_safe (total expected : Z) (a : ChunkAssembler.t) (frames : list ChunkFrame.t)
    (oks : list bool) (a' : ChunkAssembler.t)
    (Hnew : ChunkAssembler.new total expected = Ok a)
    (Hframes : Forall (λ f, 0 <= ChunkFrame.chunkIndex f) frames)
    (Hd : deliver a frames = (oks, a')) :
  0 <= ChunkAssembler.receivedBytes a' <= Z.max 0 expected ∧
  (ChunkAssembler.isComplete a' = true →
   ChunkAssembler.missingIndices a' = [] ∧
   ∃ bytes, ChunkAssembler.assemble a' = Ok bytes ∧ byteLength bytes = expected).
Proof.
  assert (AssemblerInv.inv a ∧ ChunkAssembler.expectedSizeBytes a = expected) as [Hinv0 He].
  { split; [by eapply AssemblerInv.inv_new|].
    by apply assert_bind in Hnew as [_ [= <-]]. }
  apply deliver_inv in Hd as [Hinv He']; [|done..]. rewrite He in He'.
  pose proof (AssemblerInv.inv_received _ Hinv). pose proof (AssemblerInv.inv_bound _ Hinv) as Hb.
  unfold ChunkAssembler.receivedBytes. rewrite He' in Hb. split; [lia|]. intros Hcomp. split.
  - apply elem_of_nil_inv. intros i. unfold ChunkAssembler.missingIndices.
    rewrite list_elem_of_filter, elem_of_seqZ. intros [Hnone Hi].
    destruct (AssemblerInv.complete_lookup a' i Hinv Hcomp ltac:(lia)) as [c Hc]. congruence.
  - rewrite <-He'. by apply assemble_complete.
Qed.

(** A peer that claims an index beyond the transfer, then too many bytes. *)
Lemma assembler_safe_witness :
  ∃ a oks a', ChunkAssembler.new 2 3 = Ok a ∧
    deliver a [ChunkFrame.mk 0 7 [Byte.x00]; ChunkFrame.mk 0 0 (zeros 9);
               ChunkFrame.mk 0 1 [Byte.x01; Byte.x02]; ChunkFrame.mk 0 0 [Byte.x05]] = (oks, a') ∧
    oks = [false; false; true; true] ∧
    ChunkAssembler.receivedBytes a' <= 3 ∧
    ∃ bytes, ChunkAssembler.assemble a' = Ok bytes ∧ byteLength bytes = 3.
Proof.
  set (frames := [ChunkFrame.mk 0 7 [Byte.x00]; ChunkFrame.mk 0 0 (zeros 9);
    ChunkFrame.mk 0 1 [Byte.x01; Byte.x02]; ChunkFrame.mk 0 0 [Byte.x05]]).
  set (a := ChunkAssembler.mk 2 3 ∅ 0).
  set (out := deliver a frames).
  destruct (assembler_safe 2 3 a frames out.1 out.2 eq_refl) as [Hr Hc].
  - repeat constructor; vm_compute; congruence.
  - apply surjective_pairing.
  - exists a, out.1, out.2. split; [reflexivity|]. split; [apply surjective_pairing|].
    split; [reflexivity|]. split; [apply Hr|]. apply Hc. vm_compute. reflexivity.
Defined.
