(* ===== verification/JsString.v ===== *)
(** * Strings

    A string of the source is modelled by its UTF-8 bytes, a Rocq [string]; so
    equality of strings is equality of byte strings, [TextEncoder.encode] is the
    bytes themselves, and the identifiers, hashes and codes of the program,
    which are ASCII, are written as they are.  The operations that count or cut
    UTF-16 code units go through [to_units] and [of_units].  A lone surrogate is
    its three-byte generalised UTF-8 form. *)

From S2P Require Import Prelude.
From Stdlib Require Ascii String.

Definition chars (s : string) : list Ascii.ascii := String.list_ascii_of_string s.
Definition of_chars (l : list Ascii.ascii) : string := String.string_of_list_ascii l.

(** A byte of a string as a number, and back. *)
Definition charCode (c : Ascii.ascii) : Z := Z.of_N (Ascii.N_of_ascii c).
Definition fromCharCode (z : Z) : Ascii.ascii := Ascii.ascii_of_N (Z.to_N z).

(** ** Code points *)

Definition encode_point (p : Z) : list Z :=
  if (p <? 0x80)%Z then [p]
  else if (p <? 0x800)%Z then [0xC0 + p / 64; 0x80 + p mod 64]%Z
  else if (p <? 0x10000)%Z then
    [0xE0 + p / 4096; 0x80 + p / 64 mod 64; 0x80 + p mod 64]%Z
  else [0xF0 + p / 262144; 0x80 + p / 4096 mod 64; 0x80 + p / 64 mod 64; 0x80 + p mod 64]%Z.

Fixpoint decode_points (bytes : list Z) : list Z :=
  match bytes with
  | [] => []
  | a :: rest =>
      if (a <? 0xC0)%Z then a :: decode_points rest
      else
        match rest with
        | b :: rest =>
            if (a <? 0xE0)%Z then ((a - 0xC0) * 64 + (b - 0x80))%Z :: decode_points rest
            else
              match rest with
              | c :: rest =>
                  if (a <? 0xF0)%Z then
                    ((a - 0xE0) * 4096 + (b - 0x80) * 64 + (c - 0x80))%Z :: decode_points rest
                  else
                    match rest with
                    | d :: rest =>
                        ((a - 0xF0) * 262144 + (b - 0x80) * 4096 + (c - 0x80) * 64 + (d - 0x80))%Z
                          :: decode_points rest
                    | [] => []
                    end
              | [] => []
              end
        | [] => []
        end
  end.

Definition to_points (s : string) : list Z := decode_points (charCode <$> chars s).
Definition of_points (l : list Z) : string := of_chars (fromCharCode <$> (l ≫= encode_point)).

(** ** UTF-16 code units *)

Definition is_high (u : Z) : bool := ((0xD800 <=? u) && (u <=? 0xDBFF))%Z.
Definition is_low (u : Z) : bool := ((0xDC00 <=? u) && (u <=? 0xDFFF))%Z.
Definition combine_units (high low : Z) : Z :=
  (0x10000 + (high - 0xD800) * 1024 + (low - 0xDC00))%Z.

Definition point_units (p : Z) : list Z :=
  if (p <? 0x10000)%Z then [p]
  else [0xD800 + (p - 0x10000) / 1024; 0xDC00 + (p - 0x10000) mod 1024]%Z.

Fixpoint units_points (units : list Z) : list Z :=
  match units with
  | [] => []
  | h :: rest =>
      match rest with
      | l :: rest' =>
          if is_high h && is_low l then combine_units h l :: units_points rest'
          else h :: units_points rest
      | [] => [h]
      end
  end.

Definition to_units (s : string) : list Z := to_points s ≫= point_units.
Definition of_units (l : list Z) : string := of_points (units_points l).

(** [s.length], [s.slice(first, last)] and [s.slice(first)]. *)
Definition str_length (s : string) : Z := Z.of_nat (length (to_units s)).
Definition slice (s : string) (first last : Z) : string :=
  of_units (take (Z.to_nat (last - first)) (drop (Z.to_nat first) (to_units s))).
Definition slice_from (s : string) (first : Z) : string :=
  of_units (drop (Z.to_nat first) (to_units s)).

(** ** Trimming and capitals *)

(** White space and line terminators. *)
Definition is_space (u : Z) : bool :=
  bool_decide (u ∈ [9; 10; 11; 12; 13; 32; 0xA0; 0x1680; 0x2028; 0x2029; 0x202F; 0x205F;
                    0x3000; 0xFEFF]%Z)
  || ((0x2000 <=? u) && (u <=? 0x200A))%Z.

Fixpoint drop_spaces (l : list Z) : list Z :=
  match l with
  | [] => []
  | c :: l' => if is_space c then drop_spaces l' else l
  end.

Definition trim_units (l : list Z) : list Z := rev (drop_spaces (rev (drop_spaces l))).
Definition trim (s : string) : string := of_units (trim_units (to_units s)).

(** [toUpperCase] of a code point: the letters of ASCII and Latin-1, and every
    other code point whose capital is written in ASCII (the long s, the
    dotless i and the Latin ligatures).  Any other code point is left alone:
    none of them has a capital that is written in ASCII alone. *)
Definition upper_point (p : Z) : list Z :=
  if ((97 <=? p) && (p <=? 122))%Z then [p - 32]%Z
  else if (p =? 0xDF)%Z then [83; 83]%Z
  else if ((0xE0 <=? p) && (p <=? 0xFE) && negb (p =? 0xF7))%Z then [p - 32]%Z
  else if (p =? 0xB5)%Z then [0x39C]%Z
  else if (p =? 0xFF)%Z then [0x178]%Z
  else if (p =? 0x131)%Z then [73]%Z
  else if (p =? 0x17F)%Z then [83]%Z
  else if (p =? 0xFB00)%Z then [70; 70]%Z
  else if (p =? 0xFB01)%Z then [70; 73]%Z
  else if (p =? 0xFB02)%Z then [70; 76]%Z
  else if (p =? 0xFB03)%Z then [70; 70; 73]%Z
  else if (p =? 0xFB04)%Z then [70; 70; 76]%Z
  else if ((p =? 0xFB05) || (p =? 0xFB06))%Z then [83; 84]%Z
  else [p].

Definition toUpperCase (s : string) : string := of_points (to_points s ≫= upper_point).

(** [toLowerCase] of a code point: the ASCII letters and the Kelvin sign, the
    only code points whose small letter is written in ASCII. *)
Definition lower_point (p : Z) : Z :=
  if ((65 <=? p) && (p <=? 90))%Z then (p + 32)%Z else if (p =? 0x212A)%Z then 107%Z else p.
Definition toLowerCase (s : string) : string := of_points (lower_point <$> to_points s).

(** The classes [0-9a-f] and [0-9]. *)
Definition is_digit (c : Z) : bool := ((48 <=? c) && (c <=? 57))%Z.
Definition is_lower_hex (c : Z) : bool := is_digit c || ((97 <=? c) && (c <=? 102))%Z.

(** ** Facts *)

Lemma of_chars_chars s : of_chars (chars s) = s.
Proof. apply String.string_of_list_ascii_of_string. Qed.

Lemma chars_of_chars l : chars (of_chars l) = l.
Proof. apply String.list_ascii_of_string_of_list_ascii. Qed.

Lemma chars_inj s t : chars s = chars t → s = t.
Proof. intros H. by rewrite <-(of_chars_chars s), H, of_chars_chars. Qed.

Lemma chars_app s t : chars (s +:+ t) = chars s ++ chars t.
Proof. induction s as [|c s IH]; simpl; [done|]. unfold chars in *. simpl. by f_equal. Qed.

Lemma of_chars_app l k : of_chars (l ++ k) = of_chars l +:+ of_chars k.
Proof. apply chars_inj. by rewrite chars_app, !chars_of_chars. Qed.

Lemma charCode_range c : (0 <= charCode c < 256)%Z.
Proof. unfold charCode. pose proof (Ascii.N_ascii_bounded c). lia. Qed.

Lemma charCode_from z : (0 <= z < 256)%Z → charCode (fromCharCode z) = z.
Proof. intros. unfold charCode, fromCharCode. rewrite Ascii.N_ascii_embedding; lia. Qed.

Lemma fromCharCode_code c : fromCharCode (charCode c) = c.
Proof. unfold charCode, fromCharCode. by rewrite N2Z.id, Ascii.ascii_N_embedding. Qed.

Lemma charCode_inj c d : charCode c = charCode d → c = d.
Proof. intros H. by rewrite <-(fromCharCode_code c), H, fromCharCode_code. Qed.

#[global] Instance charCode_Inj : Inj (=) (=) charCode := charCode_inj.

#[export] Hint Rewrite of_chars_chars chars_of_chars chars_app : passvault.

(** ** ASCII strings *)

Definition ascii_code (z : Z) : Prop := (0 <= z < 128)%Z.
Definition is_ascii (s : string) : Prop := Forall (λ c, ascii_code (charCode c)) (chars s).

Lemma decode_points_ascii l : Forall ascii_code l → decode_points l = l.
Proof.
  unfold ascii_code. induction 1 as [|z l Hz _ IH]; simpl; [done|].
  destruct (Z.ltb_spec z 0xC0); [by rewrite IH|lia].
Qed.

Lemma to_points_ascii s : is_ascii s → to_points s = charCode <$> chars s.
Proof. intros Hs. apply decode_points_ascii. by apply Forall_fmap. Qed.

Lemma encode_ascii l : Forall ascii_code l → l ≫= encode_point = l.
Proof.
  unfold ascii_code. induction 1 as [|z l Hz _ IH]; csimpl; [done|]. rewrite IH.
  unfold encode_point. destruct (Z.ltb_spec z 0x80); [done|lia].
Qed.

Lemma of_points_ascii l : Forall ascii_code l → charCode <$> chars (of_points l) = l.
Proof.
  intros Hl. unfold of_points. rewrite encode_ascii, chars_of_chars, <-list_fmap_compose by done.
  transitivity (id <$> l); [|apply list_fmap_id].
  apply list_fmap_ext. intros i z Hz%list_elem_of_lookup_2.
  rewrite Forall_forall in Hl. specialize (Hl z Hz). unfold ascii_code in Hl.
  simpl. apply charCode_from. lia.
Qed.

Lemma is_ascii_of_points l : Forall ascii_code l → is_ascii (of_points l).
Proof.
  intros Hl. pose proof (of_points_ascii l Hl) as Hof. rewrite <-Hof in Hl.
  exact (proj1 (Forall_fmap _ _ _) Hl).
Qed.

Lemma to_of_points_ascii l : Forall ascii_code l → to_points (of_points l) = l.
Proof.
  intros Hl. rewrite to_points_ascii by by apply is_ascii_of_points. by apply of_points_ascii.
Qed.

Lemma point_units_ascii l : Forall ascii_code l → l ≫= point_units = l.
Proof.
  unfold ascii_code. induction 1 as [|z l Hz _ IH]; csimpl; [done|]. rewrite IH.
  unfold point_units. destruct (Z.ltb_spec z 0x10000); [done|lia].
Qed.

Lemma to_units_ascii s : is_ascii s → to_units s = charCode <$> chars s.
Proof.
  intros Hs. unfold to_units. rewrite to_points_ascii by done.
  apply point_units_ascii. by apply Forall_fmap.
Qed.

Lemma units_points_ascii l : Forall ascii_code l → units_points l = l.
Proof.
  unfold ascii_code. induction 1 as [|z l Hz Hl IH]; [done|].
  destruct l as [|y l]; [done|]. rewrite <-IH at 2. simpl.
  assert (is_high z = false) as ->; [|done].
  unfold is_high. destruct (Z.leb_spec 0xD800 z); [lia|done].
Qed.

Lemma of_units_ascii l : Forall ascii_code l → of_units l = of_points l.
Proof. intros. unfold of_units. by rewrite units_points_ascii. Qed.

Lemma of_to_points_ascii s : is_ascii s → of_points (charCode <$> chars s) = s.
Proof.
  intros Hs. apply chars_inj. apply (inj (fmap charCode)).
  apply of_points_ascii. by apply Forall_fmap.
Qed.

(** ** Any code points *)

Definition point_code (p : Z) : Prop := (0 <= p < 0x110000)%Z.

Lemma encode_point_bytes p : point_code p → Forall (λ b, (0 <= b < 256)%Z) (encode_point p).
Proof.
  unfold point_code, encode_point. intros Hp.
  repeat case_match; rewrite ?Z.ltb_lt, ?Z.ltb_ge in *; repeat constructor; Z.div_mod_to_equations; lia.
Qed.

Lemma decode_encode_point p l :
  point_code p → decode_points (encode_point p ++ l) = p :: decode_points l.
Proof.
  unfold point_code, encode_point. intros Hp.
  repeat case_match; rewrite ?Z.ltb_lt, ?Z.ltb_ge in *; simpl.
  - by replace (p <? 0xC0)%Z with true by lia.
  - replace (0xC0 + p / 64 <? 0xC0)%Z with false by (Z.div_mod_to_equations; lia).
    replace (0xC0 + p / 64 <? 0xE0)%Z with true by (Z.div_mod_to_equations; lia).
    f_equal. Z.div_mod_to_equations; lia.
  - replace (0xE0 + p / 4096 <? 0xC0)%Z with false by (Z.div_mod_to_equations; lia).
    replace (0xE0 + p / 4096 <? 0xE0)%Z with false by (Z.div_mod_to_equations; lia).
    replace (0xE0 + p / 4096 <? 0xF0)%Z with true by (Z.div_mod_to_equations; lia).
    f_equal. Z.div_mod_to_equations; lia.
  - replace (0xF0 + p / 262144 <? 0xC0)%Z with false by (Z.div_mod_to_equations; lia).
    replace (0xF0 + p / 262144 <? 0xE0)%Z with false by (Z.div_mod_to_equations; lia).
    replace (0xF0 + p / 262144 <? 0xF0)%Z with false by (Z.div_mod_to_equations; lia).
    f_equal. Z.div_mod_to_equations; lia.
Qed.

Lemma points_decode_encode l : Forall point_code l → decode_points (l ≫= encode_point) = l.
Proof.
  induction 1 as [|p l Hp _ IH]; csimpl; [done|]. by rewrite decode_encode_point, IH.
Qed.

Lemma charCode_from_bytes l : Forall (λ b, (0 <= b < 256)%Z) l → charCode <$> (fromCharCode <$> l) = l.
Proof. induction 1; csimpl; [done|]. rewrite charCode_from by done. by f_equal. Qed.

Lemma to_of_points l : Forall point_code l → to_points (of_points l) = l.
Proof.
  intros Hl. unfold to_points, of_points. rewrite chars_of_chars, charCode_from_bytes.
  - by apply points_decode_encode.
  - apply Forall_bind. eapply Forall_impl; [exact Hl|]. apply encode_point_bytes.
Qed.

(** Code points of one UTF-16 unit. *)
Definition unit_code (u : Z) : Prop := (0 <= u < 0xD800 ∨ 0xE000 <= u < 0x10000)%Z.

Lemma unit_point_code u : unit_code u → point_code u.
Proof. unfold unit_code, point_code. lia. Qed.

Lemma ascii_unit_code u : ascii_code u → unit_code u.
Proof. unfold unit_code, ascii_code. lia. Qed.

Lemma point_units_unit l : Forall unit_code l → l ≫= point_units = l.
Proof.
  unfold unit_code. induction 1 as [|z l Hz _ IH]; csimpl; [done|]. rewrite IH.
  unfold point_units. destruct (Z.ltb_spec z 0x10000); [done|lia].
Qed.

Lemma units_points_unit l : Forall unit_code l → units_points l = l.
Proof.
  unfold unit_code. induction 1 as [|z l Hz Hl IH]; [done|].
  destruct l as [|y l]; [done|]. rewrite <-IH at 2. simpl.
  assert (is_high z = false) as ->; [|done]. unfold is_high.
  destruct (Z.leb_spec 0xD800 z), (Z.leb_spec z 0xDBFF); simpl; try done; lia.
Qed.

Lemma to_units_of_points l : Forall unit_code l → to_units (of_points l) = l.
Proof.
  intros Hl. unfold to_units. rewrite to_of_points by (eapply Forall_impl, unit_point_code; exact Hl).
  by apply point_units_unit.
Qed.

Lemma of_units_unit l : Forall unit_code l → of_units l = of_points l.
Proof. intros. unfold of_units. by rewrite units_points_unit. Qed.

Lemma to_of_units l : Forall unit_code l → to_units (of_units l) = l.
Proof. intros. rewrite of_units_unit by done. by apply to_units_of_points. Qed.

(** ** Texts of 16-bit units *)

Definition unit16 (u : Z) : Prop := (0 <= u < 0x10000)%Z.

(** A string of the language. *)
Definition is_text (s : string) : Prop := ∃ l, s = of_points l ∧ Forall point_code l.

Lemma is_high_spec u : is_high u = true ↔ (0xD800 <= u <= 0xDBFF)%Z.
Proof. unfold is_high. rewrite andb_true_iff, !Z.leb_le. lia. Qed.

Lemma is_low_spec u : is_low u = true ↔ (0xDC00 <= u <= 0xDFFF)%Z.
Proof. unfold is_low. rewrite andb_true_iff, !Z.leb_le. lia. Qed.

Lemma combine_units_range h l :
  is_high h = true → is_low l = true → (0x10000 <= combine_units h l < 0x110000)%Z.
Proof. rewrite is_high_spec, is_low_spec. unfold combine_units. intros. lia. Qed.

Lemma point_units_combine h l :
  is_high h = true → is_low l = true → point_units (combine_units h l) = [h; l].
Proof.
  intros Hh Hl. pose proof (combine_units_range h l Hh Hl).
  apply is_high_spec in Hh. apply is_low_spec in Hl. unfold point_units.
  destruct (Z.ltb_spec (combine_units h l) 0x10000); [lia|]. unfold combine_units.
  f_equal; [|f_equal]; Z.div_mod_to_equations; lia.
Qed.

(** A list of units taken two at a time, as [units_points] does. *)
Lemma units_ind (P : list Z → Prop) :
  P [] → (∀ h, P [h]) →
  (∀ h l rest, is_high h && is_low l = true → P rest → P (h :: l :: rest)) →
  (∀ h l rest, is_high h && is_low l = false → P (l :: rest) → P (h :: l :: rest)) →
  ∀ l, P l.
Proof.
  intros H0 H1 H2 H3 l. induction l as [l IH] using (induction_ltof1 _ (@length Z)).
  destruct l as [|h [|x rest]]; [done|done|].
  destruct (is_high h && is_low x) eqn:Hp; [apply H2|apply H3]; try done;
    apply IH; unfold ltof; simpl; lia.
Qed.

Lemma units_points_pair h l rest : is_high h && is_low l = true →
  units_points (h :: l :: rest) = combine_units h l :: units_points rest.
Proof. intros Hp. simpl. by rewrite Hp. Qed.

Lemma units_points_single h l rest : is_high h && is_low l = false →
  units_points (h :: l :: rest) = h :: units_points (l :: rest).
Proof. intros Hp. simpl units_points at 1. by rewrite Hp. Qed.

Lemma units_points_valid l : Forall unit16 l → Forall point_code (units_points l).
Proof.
  induction l as [|h|h l rest Hp IH|h l rest Hp IH] using units_ind; [done| | |].
  - intros [Hl _]%Forall_cons. constructor; [|done].
    unfold unit16, point_code in *. lia.
  - intros [Hh [Hl Hr]%Forall_cons]%Forall_cons. rewrite units_points_pair by done.
    apply andb_true_iff in Hp as [Hp1 Hp2]. pose proof (combine_units_range h l Hp1 Hp2).
    constructor; [unfold point_code; lia|auto].
  - intros [Hh Hr]%Forall_cons. rewrite units_points_single by done.
    constructor; [unfold unit16, point_code in *; lia|auto].
Qed.

Lemma point_units_points l : Forall unit16 l → units_points l ≫= point_units = l.
Proof.
  assert (∀ h, unit16 h → point_units h = [h]) as Hone.
  { intros h Hh. unfold point_units. destruct (Z.ltb_spec h 0x10000); [done|].
    unfold unit16 in Hh. lia. }
  induction l as [|h|h l rest Hp IH|h l rest Hp IH] using units_ind; [done| | |].
  - intros [Hl _]%Forall_cons. csimpl. by rewrite Hone.
  - intros [Hh [Hl Hr]%Forall_cons]%Forall_cons. rewrite units_points_pair by done.
    apply andb_true_iff in Hp as [Hp1 Hp2]. csimpl. by rewrite point_units_combine, IH.
  - intros [Hh Hr]%Forall_cons. rewrite units_points_single by done. 
    change (point_units h ++ (units_points (l :: rest) ≫= point_units) = h :: l :: rest).
    by rewrite Hone, IH.
Qed.

Lemma to_of_units16 l : Forall unit16 l → to_units (of_units l) = l.
Proof.
  intros Hl. unfold of_units, to_units.
  rewrite to_of_points by by apply units_points_valid. by apply point_units_points.
Qed.

(** If every code point is below the surrogates, nothing was combined. *)
Lemma units_points_small l :
  Forall (λ p, p < 0x10000)%Z (units_points l) → units_points l = l.
Proof.
  induction l as [|h|h l rest Hp IH|h l rest Hp IH] using units_ind; [done..| |].
  - rewrite units_points_pair by done. intros [Hc _]%Forall_cons.
    apply andb_true_iff in Hp as [Hp1 Hp2]. pose proof (combine_units_range h l Hp1 Hp2). cbv beta in Hc. lia.
  - rewrite units_points_single by done. intros [_ Hr]%Forall_cons. by rewrite IH.
Qed.

Lemma point_units_unit16 l : Forall point_code l → Forall unit16 (l ≫= point_units).
Proof.
  intros Hl. apply Forall_bind. eapply Forall_impl; [exact Hl|]. unfold point_code, point_units.
  intros p Hp. simpl. destruct (Z.ltb_spec p 0x10000); rewrite ?Forall_cons, ?Forall_nil; unfold unit16;
    split_and!; try done; Z.div_mod_to_equations; lia.
Qed.

Lemma to_units_text s : is_text s → Forall unit16 (to_units s).
Proof.
  intros (l & -> & Hl). unfold to_units. rewrite to_of_points by done. by apply point_units_unit16.
Qed.

(** ** Trimming *)

Lemma drop_spaces_suffix l : drop_spaces l `suffix_of` l.
Proof.
  induction l as [|c l IH]; simpl; [done|]. destruct (is_space c); [|done].
  by apply suffix_cons_r.
Qed.

Lemma drop_spaces_id l : Forall (λ c, is_space c = false) l → drop_spaces l = l.
Proof. destruct 1 as [|c l Hc]; simpl; [done|]. by rewrite Hc. Qed.

Lemma trim_units_id l : Forall (λ c, is_space c = false) l → trim_units l = l.
Proof.
  intros Hl. unfold trim_units. rewrite (drop_spaces_id l) by done.
  rewrite drop_spaces_id by by apply Forall_rev. apply rev_involutive.
Qed.

Lemma drop_spaces_Forall P l : Forall P l → Forall P (drop_spaces l).
Proof. intros Hl. destruct (drop_spaces_suffix l) as [k Hk]. rewrite Hk in Hl. by apply Forall_app in Hl as [_ ?]. Qed.

Lemma trim_units_Forall P l : Forall P l → Forall P (trim_units l).
Proof. intros Hl. unfold trim_units. by apply Forall_rev, drop_spaces_Forall, Forall_rev, drop_spaces_Forall. Qed.

Lemma drop_spaces_idemp l : drop_spaces (drop_spaces l) = drop_spaces l.
Proof. induction l as [|c l IH]; simpl; [done|]. destruct (is_space c) eqn:Hc; [done|]. simpl. by rewrite Hc. Qed.

Lemma drop_spaces_head l : drop_spaces l = [] ∨ ∃ c k, drop_spaces l = c :: k ∧ is_space c = false.
Proof. induction l as [|c l IH]; simpl; [by left|]. destruct (is_space c) eqn:Hc; [done|]. right; eauto. Qed.

Lemma drop_spaces_app l c : is_space c = false → drop_spaces (l ++ [c]) = drop_spaces l ++ [c].
Proof. intros Hc. induction l as [|d l IH]; simpl; [by rewrite Hc|]. by destruct (is_space d). Qed.

Lemma trim_units_idemp l : trim_units (trim_units l) = trim_units l.
Proof.
  unfold trim_units. set (k := drop_spaces (rev (drop_spaces l))).
  assert (drop_spaces (rev k) = rev k) as Hk.
  { subst k. destruct (drop_spaces_head l) as [->|(c & m & Hm & Hc)]; [done|]. rewrite Hm. simpl.
    rewrite drop_spaces_app, rev_app_distr by done. simpl. by rewrite Hc. }
  rewrite Hk, rev_involutive. subst k. by rewrite drop_spaces_idemp.
Qed.

Lemma to_units_trim s : is_text s → to_units (trim s) = trim_units (to_units s).
Proof.
  intros Hs. apply to_of_units16. by apply trim_units_Forall, to_units_text.
Qed.

Lemma text_of_units l : Forall unit16 l → is_text (of_units l).
Proof. intros Hl. exists (units_points l). split; [done|]. by apply units_points_valid. Qed.

Lemma text_trim s : is_text s → is_text (trim s).
Proof. intros Hs. by apply text_of_units, trim_units_Forall, to_units_text. Qed.

Lemma upper_point_code p : point_code p → Forall point_code (upper_point p).
Proof.
  intros Hp. unfold upper_point, point_code in *.
  repeat case_match; rewrite ?andb_true_iff, ?Z.leb_le in *; repeat apply Forall_cons_2;
    try apply Forall_nil_2; lia.
Qed.

Lemma text_upper s : is_text s → is_text (toUpperCase s).
Proof.
  intros (l & -> & Hl). eexists. split; [done|]. rewrite to_of_points by done. apply Forall_bind.
  eapply Forall_impl; [exact Hl|]. apply upper_point_code.
Qed.
