(* ===== verification/Lineage.v ===== *)
(** * Revisions, head moves, conflicts and transfers

    packages/core/src/lineage.ts (the constructors of a revision),
    revisions.ts (the moves of a vault's head), conflicts.ts (the life of a
    conflict) and transfers.ts (the life of a pending transfer).  Each function
    that takes an object of named inputs takes them here in the same order. *)

From S2P Require Import Prelude Model JsString.

Open Scope Z_scope.

(** ** lineage.ts *)

Module RevisionSeed.
Record t : Type := mk {
  id : RevisionId;
  vaultId : VaultId;
  hash : Sha256Hex;
  sizeBytes : Z;
  at_ : Date;
  message : option string;
}.
End RevisionSeed.

(** [base]: what every constructor takes from the seed; the two fields it
    leaves out, and the origin, are its arguments. *)
Definition base (seed : RevisionSeed.t)
    : result (list RevisionId → RevisionOperation.t → option DeviceId → Revision.t) :=
  assert (0 <=? RevisionSeed.sizeBytes seed) "revision size must not be negative" ≫= λ _,
  Ok (λ parentIds operation originDeviceId,
    {| Revision.id := RevisionSeed.id seed;
       Revision.vaultId := RevisionSeed.vaultId seed;
       Revision.hash := RevisionSeed.hash seed;
       Revision.sizeBytes := RevisionSeed.sizeBytes seed;
       Revision.createdAt := RevisionSeed.at_ seed;
       Revision.originDeviceId := originDeviceId;
       Revision.parentIds := parentIds;
       Revision.operation := operation;
       Revision.message := RevisionSeed.message seed |}).

Definition importedRevision (seed : RevisionSeed.t) (originDeviceId : option DeviceId)
    : result Revision.t :=
  base seed ≫= λ revision, Ok (revision [] RevisionOperation.imported originDeviceId).

Definition localChangeRevision (seed : RevisionSeed.t) (currentHeadId : option RevisionId)
    (originDeviceId : option DeviceId) : result Revision.t :=
  base seed ≫= λ revision,
  Ok (revision (match currentHeadId with None => [] | Some head => [head] end)
        RevisionOperation.local_change originDeviceId).

Definition receivedRevision (seed : RevisionSeed.t) (declaredParentIds : list RevisionId)
    (originDeviceId : DeviceId) : result Revision.t :=
  assert (bool_decide (RevisionSeed.id seed ∉ declaredParentIds))
    "a revision cannot be its own parent" ≫= λ _,
  base seed ≫= λ revision,
  Ok (revision declaredParentIds RevisionOperation.received (Some originDeviceId)).

Definition mergedRevision (seed : RevisionSeed.t) (baseRevisionId : RevisionId)
    (inputRevisionIds : list RevisionId) (originDeviceId : option DeviceId)
    : result Revision.t :=
  assert (0 <? Z.of_nat (length inputRevisionIds))
    "a merge must have at least one incoming revision" ≫= λ _,
  let parentIds := baseRevisionId :: inputRevisionIds in
  assert (length (set_from parentIds) =? length parentIds)%nat
    "merge parents must be distinct" ≫= λ _,
  base seed ≫= λ revision,
  Ok (revision parentIds RevisionOperation.merged originDeviceId).

(** ** revisions.ts *)

Definition moveHead (vault : Vault.t) (nextRevisionId : RevisionId) (at_ : Date)
    (reason : HeadReason.t) : Vault.t * HeadRevisionEvent.t :=
  (Vault.set_head vault nextRevisionId,
   {| HeadRevisionEvent.vaultId := Vault.id vault;
      HeadRevisionEvent.previousRevisionId := Vault.headRevisionId vault;
      HeadRevisionEvent.nextRevisionId := nextRevisionId;
      HeadRevisionEvent.createdAt := at_;
      HeadRevisionEvent.reason := reason |}).

Definition promoteRevision (vault : Vault.t) (nextRevision : Revision.t) (at_ : Date)
    : result (Vault.t * HeadRevisionEvent.t) :=
  assert (bool_decide (Vault.id vault = Revision.vaultId nextRevision))
    "cannot promote revision from another vault" ≫= λ _,
  Ok (moveHead vault (Revision.id nextRevision) at_ HeadReason.promote).

Definition fastForwardRevision (vault : Vault.t) (nextRevision : Revision.t) (at_ : Date)
    : result (Vault.t * HeadRevisionEvent.t) :=
  assert (bool_decide (Vault.id vault = Revision.vaultId nextRevision))
    "cannot fast-forward to a revision from another vault" ≫= λ _,
  Ok (moveHead vault (Revision.id nextRevision) at_ HeadReason.fast_forward).

Definition restoreRevision (vault : Vault.t) (targetRevision : Revision.t) (at_ : Date)
    : result (Vault.t * HeadRevisionEvent.t) :=
  assert (bool_decide (Vault.id vault = Revision.vaultId targetRevision))
    "cannot restore revision from another vault" ≫= λ _,
  Ok (moveHead vault (Revision.id targetRevision) at_ HeadReason.restore).

Definition undoLastHeadMove (vault : Vault.t) (lastEvent : HeadRevisionEvent.t) (at_ : Date)
    : result (Vault.t * HeadRevisionEvent.t) :=
  assert (bool_decide (HeadRevisionEvent.vaultId lastEvent = Vault.id vault))
    "undo event must belong to vault" ≫= λ _,
  match HeadRevisionEvent.previousRevisionId lastEvent with
  | None => Err "Contract violation: cannot undo when there is no previous revision"
  | Some previousRevisionId => Ok (moveHead vault previousRevisionId at_ HeadReason.undo)
  end.

Definition bookmarkRevision (bookmarkId : BookmarkId) (revision : Revision.t)
    (message : string) (at_ : Date) : result Bookmark.t :=
  assert (0 <? str_length (trim message)) "bookmark message must not be empty" ≫= λ _,
  Ok {| Bookmark.id := bookmarkId;
        Bookmark.vaultId := Revision.vaultId revision;
        Bookmark.revisionId := Revision.id revision;
        Bookmark.message := message;
        Bookmark.createdAt := at_ |}.

Definition revisionHasParent (revision : Revision.t) (parentId : RevisionId) : bool :=
  bool_decide (parentId ∈ Revision.parentIds revision).

(** ** conflicts.ts *)

Definition openConflict (conflictId : ConflictId) (vault : Vault.t)
    (currentRevision incomingRevision : Revision.t) (at_ : Date) : result Conflict.t :=
  assert (bool_decide (Revision.vaultId currentRevision = Vault.id vault))
    "current revision must belong to vault" ≫= λ _,
  assert (bool_decide (Revision.vaultId incomingRevision = Vault.id vault))
    "incoming revision must belong to vault" ≫= λ _,
  assert (bool_decide (Vault.headRevisionId vault = Some (Revision.id currentRevision)))
    "current revision must be the vault head" ≫= λ _,
  Ok {| Conflict.id := conflictId;
        Conflict.vaultId := Vault.id vault;
        Conflict.currentRevisionId := Revision.id currentRevision;
        Conflict.incomingRevisionId := Revision.id incomingRevision;
        Conflict.status := ConflictStatus.open;
        Conflict.createdAt := at_;
        Conflict.resolvedAt := None;
        Conflict.decision := None |}.

(** The spread of a conflict with the three fields a decision sets. *)
Definition decided (conflict : Conflict.t) (status : ConflictStatus.t) (at_ : Date)
    (decision : ConflictDecision.t) : Conflict.t :=
  {| Conflict.id := Conflict.id conflict;
     Conflict.vaultId := Conflict.vaultId conflict;
     Conflict.currentRevisionId := Conflict.currentRevisionId conflict;
     Conflict.incomingRevisionId := Conflict.incomingRevisionId conflict;
     Conflict.status := status;
     Conflict.createdAt := Conflict.createdAt conflict;
     Conflict.resolvedAt := Some at_;
     Conflict.decision := Some decision |}.

Definition recordConflictDecision (conflict : Conflict.t) (decision : ConflictDecision.t)
    (at_ : Date) : result Conflict.t :=
  assert (bool_decide (Conflict.status conflict = ConflictStatus.open))
    "only open conflicts can be decided" ≫= λ _,
  match decision with
  | ConflictDecision.keep_current
  | ConflictDecision.switch_incoming
  | ConflictDecision.try_merge
  | ConflictDecision.restore_revision _ =>
      Ok (decided conflict ConflictStatus.resolved at_ decision)
  | ConflictDecision.save_both =>
      Ok (decided conflict ConflictStatus.deferred at_ decision)
  end.

(** ** transfers.ts *)

Definition createPendingTransfer (transferId : TransferId) (revision : Revision.t)
    (direction : TransferDirection.t) (peerDeviceId : DeviceId) : PendingTransfer.t :=
  {| PendingTransfer.id := transferId;
     PendingTransfer.vaultId := Revision.vaultId revision;
     PendingTransfer.revisionId := Revision.id revision;
     PendingTransfer.direction := direction;
     PendingTransfer.expectedHash := Revision.hash revision;
     PendingTransfer.expectedSizeBytes := Revision.sizeBytes revision;
     PendingTransfer.receivedBytes := 0;
     PendingTransfer.status := TransferStatus.requested;
     PendingTransfer.peerDeviceId := peerDeviceId |}.

Definition markTransferComplete (transfer : PendingTransfer.t) (actualHash : string)
    (actualSizeBytes : Z) : result PendingTransfer.t :=
  assert (bool_decide (actualHash = PendingTransfer.expectedHash transfer))
    "completed transfer hash must match" ≫= λ _,
  assert (actualSizeBytes =? PendingTransfer.expectedSizeBytes transfer)
    "completed transfer size must match" ≫= λ _,
  Ok {| PendingTransfer.id := PendingTransfer.id transfer;
        PendingTransfer.vaultId := PendingTransfer.vaultId transfer;
        PendingTransfer.revisionId := PendingTransfer.revisionId transfer;
        PendingTransfer.direction := PendingTransfer.direction transfer;
        PendingTransfer.expectedHash := PendingTransfer.expectedHash transfer;
        PendingTransfer.expectedSizeBytes := PendingTransfer.expectedSizeBytes transfer;
        PendingTransfer.receivedBytes := actualSizeBytes;
        PendingTransfer.status := TransferStatus.complete;
        PendingTransfer.peerDeviceId := PendingTransfer.peerDeviceId transfer |}.
