(* ===== verification/LineageProps.v ===== *)
(** * Revisions, head moves and conflicts: properties *)

From S2P Require Import Prelude Model JsString Lineage.

Open Scope Z_scope.

(** ** Constructors *)

Lemma base_ok seed mk :
  base seed = Ok mk →
  0 <= RevisionSeed.sizeBytes seed ∧
  ∀ parents operation origin,
    Revision.id (mk parents operation origin) = RevisionSeed.id seed ∧
    Revision.parentIds (mk parents operation origin) = parents ∧
    Revision.operation (mk parents operation origin) = operation ∧
    Revision.originDeviceId (mk parents operation origin) = origin.
Proof. unfold base. rewrite assert_bind, Z.leb_le. intros [? [= <-]]. done. Qed.

Lemma set_adds_length {A} `{EqDecision A} (l s : list A) :
  (length (foldl set_add s l) <= length s + length l)%nat.
Proof.
  revert s. induction l as [|x l IH]; intros s; simpl; [lia|].
  etrans; [apply IH|]. unfold set_add. case_decide; [lia|]. rewrite length_app. simpl. lia.
Qed.

Lemma set_adds_size {A} `{EqDecision A} (l s : list A) :
  length (foldl set_add s l) = (length s + length l)%nat → NoDup l ∧ ∀ x, x ∈ l → x ∉ s.
Proof.
  revert s. induction l as [|x l IH]; intros s; simpl.
  { intros _. split; [apply NoDup_nil_2|]. set_solver. }
  unfold set_add at 2. case_decide as Hx.
  { pose proof (set_adds_length l s). lia. }
  intros Hl. destruct (IH (s ++ [x])) as [Hnd Hout]; [rewrite length_app; simpl; lia|].
  split.
  - apply NoDup_cons. split; [|done]. intros Hin. apply (Hout x Hin). set_solver.
  - intros y [-> |Hy]%elem_of_cons; [done|]. intros Hys. apply (Hout y Hy). set_solver.
Qed.

Lemma set_from_size_NoDup {A} `{EqDecision A} (l : list A) :
  length (set_from l) = length l → NoDup l.
Proof. intros Hl. by apply (set_adds_size l []). Qed.

(** The parents each constructor may give, as the file promises them. *)
Definition lineage_spec (seed : RevisionSeed.t) (r : Revision.t)
    (op : RevisionOperation.t) (parents : list RevisionId) : Prop :=
  0 <= Revision.sizeBytes r ∧ Revision.id r = RevisionSeed.id seed ∧
  Revision.operation r = op ∧ Revision.parentIds r = parents.

Lemma base_lineage seed mk op parents origin :
  base seed = Ok mk → lineage_spec seed (mk parents op origin) op parents.
Proof. unfold base. rewrite assert_bind, Z.leb_le. intros [? [= <-]]. done. Qed.

Lemma mergedRevision_fields seed b inputs origin r :
  mergedRevision seed b inputs origin = Ok r →
  Revision.parentIds r = b :: inputs ∧ NoDup (b :: inputs) ∧ inputs ≠ [] ∧
  Revision.id r = RevisionSeed.id seed ∧ Revision.hash r = RevisionSeed.hash seed ∧
  Revision.vaultId r = RevisionSeed.vaultId seed.
Proof.
  intros [Hlen Hr]%assert_bind. apply assert_bind in Hr as [Hset Hr]. apply Z.ltb_lt in Hlen.
  unfold base in Hr. apply result_bind_ok in Hr as (mk&Hb&[= <-]).
  apply assert_bind in Hb as [_ [= <-]]. apply Nat.eqb_eq, set_from_size_NoDup in Hset.
  split_and!; try done. by destruct inputs.
Qed.

(** No constructor invents lineage.  An imported revision is a root; a
    local change has exactly the head it was made on as its parent; a received
    revision has exactly the parents its sender declared, whatever this device
    holds, and never itself; a merge has the base and every input, each once,
    so at least two parents. *)
Theorem constructors_parents (seed : RevisionSeed.t) (origin : option DeviceId) :
  (∀ r, importedRevision seed origin = Ok r →
     lineage_spec seed r RevisionOperation.imported []) ∧
  (∀ head r, localChangeRevision seed head origin = Ok r →
     lineage_spec seed r RevisionOperation.local_change (option_list head)) ∧
  (∀ declared sender r, receivedRevision seed declared sender = Ok r →
     lineage_spec seed r RevisionOperation.received declared ∧
     (Revision.id r ∉ declared) ∧ Revision.originDeviceId r = Some sender) ∧
  (∀ b inputs r, mergedRevision seed b inputs origin = Ok r →
     lineage_spec seed r RevisionOperation.merged (b :: inputs) ∧
     NoDup (b :: inputs) ∧ (2 <= length (Revision.parentIds r))%nat).
Proof.
  split_and!.
  - intros r (mk&Hb&[= <-])%result_bind_ok. by apply base_lineage.
  - intros head r (mk&Hb&[= <-])%result_bind_ok. by destruct head; apply base_lineage.
  - intros declared sender r [Hid (mk&Hb&[= <-])%result_bind_ok]%assert_bind.
    apply bool_decide_eq_true in Hid.
    destruct (base_ok _ _ Hb) as [_ Hf]. split; [by apply base_lineage|].
    destruct (Hf declared RevisionOperation.received (Some sender)) as (->&_&_&->). done.
  - intros b inputs r [Hlen Hr]%assert_bind.
    apply assert_bind in Hr as [Hset Hr]. apply result_bind_ok in Hr as (mk&Hb&[= <-]).
    destruct (base_ok _ _ Hb) as [_ Hf]. split; [by apply base_lineage|].
    apply Nat.eqb_eq in Hset. split; [by apply set_from_size_NoDup|].
    destruct (Hf (b :: inputs) RevisionOperation.merged origin) as (_&->&_).
    apply Z.ltb_lt in Hlen. simpl. lia.
Qed.

Definition seed0 : RevisionSeed.t := RevisionSeed.mk "r2" "v" "h" 10 0 None.

Lemma constructors_parents_witness :
  ∃ r, mergedRevision seed0 "r0" ["r1"] None = Ok r ∧ NoDup ["r0"; "r1"].
Proof.
  eexists. split; [reflexivity|].
  exact (proj1 (proj2 (proj2 (proj2 (proj2 (constructors_parents seed0 None)))
    "r0" ["r1"] _ eq_refl))).
Defined.

(** ** Head moves *)

(** The three ways the head is moved to a revision. *)
Inductive HeadMove : Type :=
  | Promote (r : Revision.t)
  | FastForward (r : Revision.t)
  | Restore (r : Revision.t).

Definition target (m : HeadMove) : Revision.t :=
  match m with Promote r | FastForward r | Restore r => r end.

Definition run_move (vault : Vault.t) (m : HeadMove) (at_ : Date)
    : result (Vault.t * HeadRevisionEvent.t) :=
  match m with
  | Promote r => promoteRevision vault r at_
  | FastForward r => fastForwardRevision vault r at_
  | Restore r => restoreRevision vault r at_
  end.

Lemma run_move_ok vault m at_ out :
  run_move vault m at_ = Ok out →
  Vault.id vault = Revision.vaultId (target m) ∧
  ∃ reason, out = moveHead vault (Revision.id (target m)) at_ reason.
Proof.
  destruct m; simpl; intros [Hid%bool_decide_eq_true [= <-]]%assert_bind; eauto.
Qed.

Lemma set_head_twice v a b : Vault.set_head (Vault.set_head v a) b = Vault.set_head v b.
Proof. done. Qed.

Lemma set_head_id v h : Vault.headRevisionId v = Some h → Vault.set_head v h = v.
Proof. destruct v; simpl. by intros ->. Qed.

Lemma undo_ok v e at_ h :
  HeadRevisionEvent.vaultId e = Vault.id v → HeadRevisionEvent.previousRevisionId e = Some h →
  undoLastHeadMove v e at_ = Ok (moveHead v h at_ HeadReason.undo).
Proof. intros Hv Hp. unfold undoLastHeadMove. by rewrite bool_decide_true, Hp. Qed.

(** A head move never crosses vaults and can be undone.  A move succeeds
    exactly when the revision is of the vault; it changes the head and nothing
    else, and its event records the head before and after.  Undoing that event
    gives back the vault as it was, at any time, and undoing the undo redoes the
    move; with no head before the move, there is nothing to undo and the call
    throws. *)
Theorem head_moves_undo (vault : Vault.t) (m : HeadMove) (at_ at2 at3 : Date) :
  (is_ok (run_move vault m at_) = true ↔ Vault.id vault = Revision.vaultId (target m)) ∧
  ∀ vault' event, run_move vault m at_ = Ok (vault', event) →
    vault' = Vault.set_head vault (Revision.id (target m)) ∧
    HeadRevisionEvent.previousRevisionId event = Vault.headRevisionId vault ∧
    HeadRevisionEvent.nextRevisionId event = Revision.id (target m) ∧
    match Vault.headRevisionId vault with
    | Some _ =>
        ∃ undo redo, undoLastHeadMove vault' event at2 = Ok (vault, undo) ∧
          undoLastHeadMove vault undo at3 = Ok (vault', redo)
    | None => is_ok (undoLastHeadMove vault' event at2) = false
    end.
Proof.
  split.
  - split.
    + destruct (run_move vault m at_) as [out|] eqn:Hm; [|done].
      apply run_move_ok in Hm. tauto.
    + intros Hid. by destruct m; simpl in *; unfold promoteRevision, fastForwardRevision,
        restoreRevision; rewrite bool_decide_true.
  - intros vault' event (Hid&reason&[= -> ->])%run_move_ok. split_and!; [done..|].
    destruct (Vault.headRevisionId vault) as [h|] eqn:Hh.
    + rewrite (undo_ok _ _ _ h) by done. unfold moveHead at 1.
      rewrite set_head_twice, set_head_id by done. eexists _, _. split; [done|].
      by erewrite undo_ok.
    + unfold undoLastHeadMove. by rewrite bool_decide_true; simpl; rewrite ?Hh.
Qed.

Definition vault0 : Vault.t := Vault.mk "v" "work" (Some "r1") None 0.
Definition rev0 : Revision.t :=
  Revision.mk "r2" "v" "h" 10 0 None ["r1"] RevisionOperation.local_change None.

Lemma head_moves_undo_witness :
  ∃ v' e, run_move vault0 (Promote rev0) 5 = Ok (v', e) ∧
    ∃ undo redo, undoLastHeadMove v' e 6 = Ok (vault0, undo) ∧
      undoLastHeadMove vault0 undo 7 = Ok (v', redo).
Proof.
  eexists _, _. split; [reflexivity|].
  exact (proj2 (proj2 (proj2
    (proj2 (head_moves_undo vault0 (Promote rev0) 5 6 7) _ _ eq_refl)))).
Defined.

(** ** Conflicts *)

(** Deciding again and again, keeping the conflict when a decision is refused. *)
Definition decide_all (c : Conflict.t) (attempts : list (ConflictDecision.t * Date)) : Conflict.t :=
  foldl (λ c '(decision, at_),
    match recordConflictDecision c decision at_ with Ok c' => c' | Err _ => c end) c attempts.

Lemma record_open c d at_ :
  Conflict.status c = ConflictStatus.open →
  recordConflictDecision c d at_
  = Ok (decided c (match d with
                   | ConflictDecision.save_both => ConflictStatus.deferred
                   | _ => ConflictStatus.resolved end) at_ d).
Proof. unfold recordConflictDecision. intros ->. by destruct d. Qed.

Lemma record_closed c d at_ :
  Conflict.status c ≠ ConflictStatus.open → is_ok (recordConflictDecision c d at_) = false.
Proof. unfold recordConflictDecision. intros. by rewrite bool_decide_false. Qed.

Lemma decide_all_closed c attempts :
  Conflict.status c ≠ ConflictStatus.open → decide_all c attempts = c.
Proof.
  intros Hc. unfold decide_all. induction attempts as [|[d t] attempts IH]; simpl; [done|].
  pose proof (record_closed c d t Hc). by destruct (recordConflictDecision c d t).
Qed.

(** A conflict is decided once.  It is opened only between the vault's
    head and another revision of the same vault, undecided; the first decision
    is the one it keeps whatever is attempted later, "save both" leaves it
    deferred and every other decision resolves it. *)
Theorem conflict_first_decision (id : ConflictId) (vault : Vault.t)
    (current incoming : Revision.t) (at_ : Date) (c : Conflict.t)
    (Ho : openConflict id vault current incoming at_ = Ok c) :
  Vault.headRevisionId vault = Some (Conflict.currentRevisionId c) ∧
  Revision.vaultId incoming = Vault.id vault ∧
  Conflict.status c = ConflictStatus.open ∧ Conflict.decision c = None ∧
  ∀ d t later,
    let c' := decide_all c ((d, t) :: later) in
    Conflict.decision c' = Some d ∧ Conflict.resolvedAt c' = Some t ∧
    (Conflict.status c' = ConflictStatus.deferred ↔ d = ConflictDecision.save_both) ∧
    (Conflict.status c' = ConflictStatus.resolved ↔ d ≠ ConflictDecision.save_both).
Proof.
  unfold openConflict in Ho. apply assert_bind in Ho as [Hcur Ho].
  apply assert_bind in Ho as [Hinc Ho]. apply assert_bind in Ho as [Hhead Ho].
  apply bool_decide_eq_true in Hcur, Hinc, Hhead. injection Ho as Ho.
  assert (Conflict.status c = ConflictStatus.open) as Hs by (by rewrite <-Ho).
  split_and!; [by rewrite <-Ho|done|done|by rewrite <-Ho|].
  intros d t later. simpl. unfold decide_all. simpl. rewrite record_open by done.
  fold (decide_all (decided c (match d with ConflictDecision.save_both => ConflictStatus.deferred
    | _ => ConflictStatus.resolved end) t d) later).
  rewrite decide_all_closed by by destruct d. destruct d; simpl; naive_solver.
Qed.

Lemma conflict_first_decision_witness :
  ∃ c, openConflict "c" vault0 (Revision.mk "r1" "v" "h1" 1 0 None []
         RevisionOperation.imported None) rev0 3 = Ok c ∧
    Conflict.decision (decide_all c [(ConflictDecision.try_merge, 4);
      (ConflictDecision.keep_current, 5)]) = Some ConflictDecision.try_merge.
Proof.
  eexists. split; [reflexivity|].
  exact (proj1 (proj2 (proj2 (proj2 (proj2 (conflict_first_decision "c" vault0 (Revision.mk "r1" "v" "h1" 1 0 None []
         RevisionOperation.imported None) rev0 3 _ eq_refl))))
    ConflictDecision.try_merge 4 [(ConflictDecision.keep_current, 5)])).
Defined.
