(* ===== verification/Json.v ===== *)
(** * JSON

    [JSON.parse] and [JSON.stringify] of the language, as the source uses them:
    on text that other devices send and on the values the program writes.

    A number is what [JSON.parse] makes of a numeral, an IEEE double.  Only
    integers are ever looked at, so a number is its integer or the fact that it
    is not one (a fraction or an infinity).  Objects keep every member in order;
    a later member with the same name hides an earlier one.  A string is its
    UTF-8 bytes (JsString).  Nesting is bounded by the length of the text. *)

From S2P Require Import Prelude JsString.
From Stdlib Require Ascii.
From Stdlib Require Import QArith_base.

Set Warnings "-register-all".

Inductive number : Type :=
  | NInt (z : Z)
  | NNonInt.

#[global] Instance number_eq_dec : EqDecision number.
Proof. solve_decision. Defined.

Inductive json : Type :=
  | JNull
  | JBool (b : bool)
  | JNum (n : number)
  | JStr (s : string)
  | JArr (elements : list json)
  | JObj (members : list (string * json)).

(** [value\["key"\]] on an object. *)
Fixpoint member (key : string) (members : list (string * json)) : option json :=
  match members with
  | [] => None
  | (k, v) :: members =>
      match member key members with
      | Some w => Some w
      | None => if decide (k = key) then Some v else None
      end
  end.

(** A member that is a string. *)
Definition text_member (key : string) (members : list (string * json)) : option string :=
  match member key members with Some (JStr s) => Some s | _ => None end.

(** ** Doubles *)

(** [n / d] rounded to the nearest integer, ties to even ([0 <= n], [0 < d]). *)
Definition round_half_even (n d : Z) : Z :=
  let q := (n / d)%Z in
  let r := (n mod d)%Z in
  if (2 * r <? d)%Z then q
  else if (d <? 2 * r)%Z then (q + 1)%Z
  else if Z.even q then q else (q + 1)%Z.

(** The exponent of the last bit of the double nearest to [n / d]. *)
Definition ulp_exponent (n d : Z) : Z :=
  let k := (Z.log2 n - Z.log2 d - 52)%Z in
  let below := if (0 <=? k + 52)%Z then (n <? d * 2 ^ (k + 52))%Z else (n * 2 ^ (- (k + 52)) <? d)%Z in
  Z.max (-1074) (if below then (k - 1)%Z else k).

(** The double nearest to a rational, ties to even: what an operation of the
    language makes of its exact result, overflow aside. *)
Definition nearest (q : Q) : Q :=
  let n := Z.abs (Qnum q) in
  let d := Zpos (Qden q) in
  if (n =? 0)%Z then 0%Q
  else
    let k := ulp_exponent n d in
    let s := Z.sgn (Qnum q) in
    if (0 <=? k)%Z then inject_Z (s * (round_half_even n (d * 2 ^ k) * 2 ^ k))
    else Qmake (s * round_half_even (n * 2 ^ (- k)) d) (Z.to_pos (2 ^ (- k))).

(** The double nearest to the fraction [n / d]. *)
Definition nearest_double (n d : Z) : number :=
  if (n =? 0)%Z then NInt 0
  else
    let k := ulp_exponent n d in
    if (0 <=? k)%Z then
      let value := (round_half_even n (d * 2 ^ k) * 2 ^ k)%Z in
      if (2 ^ 1024 <=? value)%Z then NNonInt else NInt value
    else
      let q := round_half_even (n * 2 ^ (- k)) d in
      if (q mod 2 ^ (- k) =? 0)%Z then NInt (q / 2 ^ (- k)) else NNonInt.

(** The double a numeral denotes: its sign, its digits and its decimal exponent. *)
Definition decimal_double (negative : bool) (digits exponent : Z) : number :=
  let m :=
    if (0 <=? exponent)%Z then nearest_double (digits * 10 ^ exponent) 1
    else nearest_double digits (10 ^ (- exponent)) in
  match m with
  | NInt z => NInt (if negative then (- z)%Z else z)
  | NNonInt => NNonInt
  end.

(** ** Parsing *)

Abbreviation text := (list Ascii.ascii).

Definition is_char (z : Z) (c : Ascii.ascii) : bool := (charCode c =? z)%Z.

Definition is_json_space (c : Ascii.ascii) : bool :=
  let z := charCode c in ((z =? 32) || (z =? 9) || (z =? 10) || (z =? 13))%Z.

Fixpoint skip_space (l : text) : text :=
  match l with
  | [] => []
  | c :: l' => if is_json_space c then skip_space l' else l
  end.

Fixpoint take_digits (l : text) : list Z * text :=
  match l with
  | [] => ([], [])
  | c :: l' =>
      if is_digit (charCode c) then
        let '(ds, rest) := take_digits l' in ((charCode c - 48)%Z :: ds, rest)
      else ([], l)
  end.

Definition digits_value (ds : list Z) : Z := foldl (λ acc d, (acc * 10 + d)%Z) 0%Z ds.

(** The optional exponent of a numeral. *)
Definition parse_exponent (l : text) : option (Z * text) :=
  match l with
  | e :: l' =>
      if is_char 101 e || is_char 69 e then
        let '(negative, l') :=
          match l' with
          | c :: l'' => if is_char 43 c then (false, l'') else if is_char 45 c then (true, l'') else (false, l')
          | [] => (false, l')
          end in
        let '(ds, rest) := take_digits l' in
        if decide (ds = []) then None
        else Some (if negative then (- digits_value ds)%Z else digits_value ds, rest)
      else Some (0%Z, l)
  | [] => Some (0%Z, l)
  end.

(** The optional fraction: its digits. *)
Definition parse_fraction (l : text) : option (list Z * text) :=
  match l with
  | c :: l' =>
      if is_char 46 c then
        let '(ds, rest) := take_digits l' in
        if decide (ds = []) then None else Some (ds, rest)
      else Some ([], l)
  | [] => Some ([], l)
  end.

Definition parse_number (l : text) : option (number * text) :=
  let '(negative, l) :=
    match l with
    | c :: l' => if is_char 45 c then (true, l') else (false, l)
    | [] => (false, l)
    end in
  let '(whole, l) := take_digits l in
  match whole with
  | [] => None
  | d :: more =>
      if (d =? 0)%Z && bool_decide (more ≠ []) then None
      else
        parse_fraction l ≫= λ '(fraction, l),
        parse_exponent l ≫= λ '(exponent, l),
        Some (decimal_double negative (digits_value (whole ++ fraction))
                (exponent - Z.of_nat (length fraction)), l)
  end.

Definition hex_value (c : Ascii.ascii) : option Z :=
  let z := charCode c in
  if is_digit z then Some (z - 48)%Z
  else if ((97 <=? z) && (z <=? 102))%Z then Some (z - 87)%Z
  else if ((65 <=? z) && (z <=? 70))%Z then Some (z - 55)%Z
  else None.

Definition parse_hex4 (l : text) : option (Z * text) :=
  match l with
  | a :: b :: c :: d :: rest =>
      a' ← hex_value a; b' ← hex_value b; c' ← hex_value c; d' ← hex_value d;
      Some (a' * 4096 + b' * 256 + c' * 16 + d', rest)%Z
  | _ => None
  end.

Definition point_bytes (p : Z) : text := fromCharCode <$> encode_point p.

(** The two-character escapes. *)
Definition simple_escape (c : Ascii.ascii) : option Ascii.ascii :=
  let z := charCode c in
  if ((z =? 34) || (z =? 92) || (z =? 47))%Z then Some c
  else if (z =? 98)%Z then Some (fromCharCode 8)
  else if (z =? 102)%Z then Some (fromCharCode 12)
  else if (z =? 110)%Z then Some (fromCharCode 10)
  else if (z =? 114)%Z then Some (fromCharCode 13)
  else if (z =? 116)%Z then Some (fromCharCode 9)
  else None.

(** The rest of an escape after the backslash and the u: one code unit, or the
    two of a surrogate pair written as two escapes. *)
Definition parse_unicode (l : text) : option (text * text) :=
  parse_hex4 l ≫= λ '(u, rest),
  match rest with
  | b :: x :: rest' =>
      if is_high u && is_char 92 b && is_char 117 x then
        match parse_hex4 rest' with
        | Some (v, rest'') =>
            if is_low v then Some (point_bytes (combine_units u v), rest'')
            else Some (point_bytes u, rest)
        | None => Some (point_bytes u, rest)
        end
      else Some (point_bytes u, rest)
  | _ => Some (point_bytes u, rest)
  end.

(** The characters of a string literal after its opening quote. *)
Fixpoint parse_string (fuel : nat) (l : text) : option (text * text) :=
  match fuel with
  | O => None
  | S fuel =>
      match l with
      | [] => None
      | c :: l =>
          if is_char 34 c then Some ([], l)
          else if is_char 92 c then
            match l with
            | [] => None
            | e :: l' =>
                if is_char 117 e then
                  parse_unicode l' ≫= λ '(bytes, rest),
                  parse_string fuel rest ≫= λ '(more, rest), Some (bytes ++ more, rest)
                else
                  simple_escape e ≫= λ c,
                  parse_string fuel l' ≫= λ '(more, rest), Some (c :: more, rest)
            end
          else if (charCode c <? 32)%Z then None
          else parse_string fuel l ≫= λ '(more, rest), Some (c :: more, rest)
      end
  end.

Definition parse_literal (word : string) (value : json) (l : text) : option (json * text) :=
  if decide (take (length (chars word)) l = chars word) then
    Some (value, drop (length (chars word)) l)
  else None.

(** [parse_value] reads a value; [parse_elements] reads the elements of an array
    after its bracket, [parse_members] the members of an object. *)
Fixpoint parse_value (fuel : nat) (l : text) {struct fuel} : option (json * text) :=
  match fuel with
  | O => None
  | S fuel =>
      match skip_space l with
      | [] => None
      | c :: rest =>
          if is_char 123 c then
            match skip_space rest with
            | d :: rest' =>
                if is_char 125 d then Some (JObj [], rest')
                else
                  parse_members fuel rest ≫= λ '(members, rest), Some (JObj members, rest)
            | [] => None
            end
          else if is_char 91 c then
            match skip_space rest with
            | d :: rest' =>
                if is_char 93 d then Some (JArr [], rest')
                else
                  parse_elements fuel rest ≫= λ '(elements, rest), Some (JArr elements, rest)
            | [] => None
            end
          else if is_char 34 c then
            parse_string (S (length rest)) rest ≫= λ '(s, rest), Some (JStr (of_chars s), rest)
          else if is_char 116 c then parse_literal "true" (JBool true) (c :: rest)
          else if is_char 102 c then parse_literal "false" (JBool false) (c :: rest)
          else if is_char 110 c then parse_literal "null" JNull (c :: rest)
          else parse_number (c :: rest) ≫= λ '(n, rest), Some (JNum n, rest)
      end
  end

with parse_elements (fuel : nat) (l : text) {struct fuel} : option (list json * text) :=
  match fuel with
  | O => None
  | S fuel =>
      parse_value fuel l ≫= λ '(v, rest),
      match skip_space rest with
      | c :: rest =>
          if is_char 44 c then
            parse_elements fuel rest ≫= λ '(vs, rest), Some (v :: vs, rest)
          else if is_char 93 c then Some ([v], rest)
          else None
      | [] => None
      end
  end

with parse_members (fuel : nat) (l : text) {struct fuel} : option (list (string * json) * text) :=
  match fuel with
  | O => None
  | S fuel =>
      match skip_space l with
      | q :: rest =>
          if is_char 34 q then
            parse_string (S (length rest)) rest ≫= λ '(key, rest),
            match skip_space rest with
            | colon :: rest =>
                if is_char 58 colon then
                  parse_value fuel rest ≫= λ '(v, rest),
                  match skip_space rest with
                  | c :: rest =>
                      if is_char 44 c then
                        parse_members fuel rest ≫= λ '(members, rest),
                        Some ((of_chars key, v) :: members, rest)
                      else if is_char 125 c then Some ([(of_chars key, v)], rest)
                      else None
                  | [] => None
                  end
                else None
            | [] => None
            end
          else None
      | [] => None
      end
  end.

Definition JSON_parse (raw : string) : option json :=
  let l := chars raw in
  match parse_value (S (2 * length l)) l with
  | Some (v, rest) => if decide (skip_space rest = []) then Some v else None
  | None => None
  end.

(** ** Writing *)

Definition hex_digit (z : Z) : Ascii.ascii :=
  fromCharCode (if (z <? 10)%Z then z + 48 else z + 87)%Z.

Definition quote_char (c : Ascii.ascii) : text :=
  let z := charCode c in
  if ((z =? 34) || (z =? 92))%Z then [fromCharCode 92; c]
  else if (z =? 8)%Z then chars "\b"
  else if (z =? 12)%Z then chars "\f"
  else if (z =? 10)%Z then chars "\n"
  else if (z =? 13)%Z then chars "\r"
  else if (z =? 9)%Z then chars "\t"
  else if (z <? 32)%Z then chars "\u00" ++ [hex_digit (z / 16); hex_digit (z mod 16)]
  else [c].

Definition quote (s : string) : text :=
  fromCharCode 34 :: (chars s ≫= quote_char) ++ [fromCharCode 34].

(** The decimal digits of a natural number. *)
Fixpoint digits_loop (fuel : nat) (z : Z) (acc : text) : text :=
  match fuel with
  | O => acc
  | S fuel =>
      let acc := fromCharCode (48 + z mod 10) :: acc in
      if (z <? 10)%Z then acc else digits_loop fuel (z / 10) acc
  end.

Definition write_nat (z : Z) : text := digits_loop (S (Z.to_nat (Z.log2 z))) z [].

(** Integers below 10^21 in magnitude are written in full; the program writes
    no other number ([JSON.stringify] writes [null] for an infinity). *)
Definition write_number (n : number) : text :=
  match n with
  | NInt z => if (z <? 0)%Z then fromCharCode 45 :: write_nat (- z) else write_nat z
  | NNonInt => chars "null"
  end.

Definition join (sep : text) (parts : list text) : text :=
  match parts with
  | [] => []
  | p :: parts => p ++ concat ((λ q, sep ++ q) <$> parts)
  end.

Fixpoint write (j : json) : text :=
  match j with
  | JNull => chars "null"
  | JBool b => chars (if b then "true" else "false")
  | JNum n => write_number n
  | JStr s => quote s
  | JArr elements => chars "[" ++ join (chars ",") (map write elements) ++ chars "]"
  | JObj members =>
      chars "{" ++ join (chars ",")
        (map (λ '(k, v), quote k ++ chars ":" ++ write v) members) ++ chars "}"
  end.

Definition JSON_stringify (j : json) : string := of_chars (write j).

Module Examples.
Definition q : string := of_chars [fromCharCode 34].

Example parse_object :
  JSON_parse ("{" +:+ q +:+ "a" +:+ q +:+ " : [1, -2.5e1 ,0.5, null], " +:+ q +:+ "a" +:+ q +:+ ":true}")%string
  = Some (JObj [("a", JArr [JNum (NInt 1); JNum (NInt (-25)); JNum NNonInt; JNull]);
                ("a", JBool true)]).
Proof. vm_compute. reflexivity. Qed.

(** Rounding: 2^53 + 1 is not a double, and neither is 1 + 10^-20. *)
Example parse_rounds :
  JSON_parse "[9007199254740993, 1.00000000000000000001, 0.1, 1e400]"
  = Some (JArr [JNum (NInt 9007199254740992); JNum (NInt 1); JNum NNonInt; JNum NNonInt]).
Proof. vm_compute. reflexivity. Qed.

Example parse_bad : JSON_parse "[1,]" = None ∧ JSON_parse "01" = None ∧ JSON_parse "1 2" = None.
Proof. vm_compute. auto. Qed.
End Examples.
