(* ===== verification/JsonProps.v ===== *)
(** * JSON: reading back what was written *)

From S2P Require Import Prelude JsString Json.
From Stdlib Require Ascii.
From Stdlib Require Import QArith_base.

Set Warnings "-register-all".

(** ** Numbers *)

Lemma round_exact n : round_half_even n 1 = n.
Proof. unfold round_half_even. by rewrite Z.div_1_r, Z.mod_1_r. Qed.

(** Integers below 2^53 are doubles. *)
Lemma nearest_double_int z : (0 <= z < 2 ^ 53)%Z → nearest_double z 1 = NInt z.
Proof.
  intros [Hz Hmax]. unfold nearest_double. destruct (Z.eqb_spec z 0) as [->|Hne]; [done|].
  assert (0 <= Z.log2 z < 53)%Z as Hlog.
  { split; [apply Z.log2_nonneg|]. apply Z.log2_lt_pow2; lia. }
  assert (ulp_exponent z 1 = Z.log2 z - 52)%Z as ->.
  { unfold ulp_exponent. change (Z.log2 1) with 0%Z. rewrite Z.sub_0_r.
    replace (Z.log2 z - 52 + 52)%Z with (Z.log2 z) by lia.
    destruct (Z.leb_spec 0 (Z.log2 z)); [|lia].
    destruct (Z.ltb_spec z (1 * 2 ^ Z.log2 z)) as [Hlt|]; [|lia].
    pose proof (Z.log2_spec z ltac:(lia)). lia. }
  destruct (Z.leb_spec 0 (Z.log2 z - 52)) as [Hk|Hk].
  - replace (Z.log2 z - 52)%Z with 0%Z by lia. rewrite !Z.mul_1_r, round_exact.
    destruct (Z.leb_spec (2 ^ 1024) z) as [Hbig|]; [|done].
    assert (2 ^ 53 < 2 ^ 1024)%Z by (apply Z.pow_lt_mono_r; lia). lia.
  - rewrite round_exact. assert (0 < 2 ^ (- (Z.log2 z - 52)))%Z by (apply Z.pow_pos_nonneg; lia).
    rewrite Z.mod_mul, Z.div_mul by lia. done.
Qed.

(** Rounding stays between whole numbers. *)
Lemma round_half_even_between n d a c :
  (0 < d → a * d <= n <= c * d → a <= round_half_even n d <= c)%Z.
Proof.
  intros Hd Hn. pose proof (Z.div_mod n d ltac:(lia)) as Hdm. pose proof (Z.mod_pos_bound n d Hd) as Hr.
  assert (a <= n / d)%Z by (apply Z.div_le_lower_bound; lia).
  assert (n / d <= c)%Z as Hc by (apply Z.div_le_upper_bound; lia).
  assert (0 < n mod d → n / d < c)%Z as Hup by (intros; nia).
  unfold round_half_even. destruct (Z.ltb_spec (2 * (n mod d)) d); [lia|].
  assert (n / d < c)%Z by (apply Hup; lia).
  destruct (Z.ltb_spec d (2 * (n mod d))); [lia|]. destruct (Z.even (n / d)); lia.
Qed.

(** The last bit of a double under 2^(53-j) is a 2^j-th, or less. *)
Lemma ulp_exponent_small j n d :
  (0 <= j <= 1074 → 0 < n → 0 < d → n * 2 ^ j < 2 ^ 53 * d → ulp_exponent n d <= - j)%Z.
Proof.
  intros Hj Hn Hd Hlt. unfold ulp_exponent.
  assert (Z.log2 n + j <= Z.log2 d + 53)%Z as Hlog.
  { rewrite (Z.add_comm _ j), (Z.add_comm _ 53), <-!Z.log2_mul_pow2 by lia. apply Z.log2_le_mono. lia. }
  destruct (Z.eq_dec (Z.log2 n - Z.log2 d - 52) (1 - j)) as [He|]; [|case_match; lia].
  rewrite He. assert ((if (0 <=? 1 - j + 52)%Z then (n <? d * 2 ^ (1 - j + 52))%Z
                      else (n * 2 ^ (- (1 - j + 52)) <? d)%Z) = true) as ->; [|lia].
  assert (0 < 2 ^ j)%Z as Hp by (apply Z.pow_pos_nonneg; lia).
  destruct (Z.leb_spec 0 (1 - j + 52)) as [Hk|Hk]; apply Z.ltb_lt, (Z.mul_lt_mono_pos_r (2 ^ j)); try done.
  - rewrite <-Z.mul_assoc, <-Z.pow_add_r by lia. replace (1 - j + 52 + j)%Z with 53%Z by lia. lia.
  - replace (2 ^ j)%Z with (2 ^ 53 * 2 ^ (- (1 - j + 52)))%Z at 2 by (rewrite <-Z.pow_add_r by lia; f_equal; lia).
    assert (0 < 2 ^ (- (1 - j + 52)))%Z by (apply Z.pow_pos_nonneg; lia). nia.
Qed.

(** Rounding stays between two multiples of a 2^j-th. *)
Lemma nearest_between (j a c : Z) (q : Q) :
  (0 <= j <= 1074)%Z → (0 <= a)%Z → (c < 2 ^ 53)%Z → (inject_Z a <= q * inject_Z (2 ^ j) ∧ q * inject_Z (2 ^ j) <= inject_Z c)%Q →
  (inject_Z a <= nearest q * inject_Z (2 ^ j) ∧ nearest q * inject_Z (2 ^ j) <= inject_Z c)%Q.
Proof.
  destruct q as [n d]. intros Hj Ha Hc. assert (0 < 2 ^ j)%Z as Hpj by (apply Z.pow_pos_nonneg; lia).
  unfold Qle, Qmult, inject_Z. cbn [Qnum Qden]. rewrite !Pos.mul_1_r, !Z.mul_1_r. intros [Hl Hu].
  unfold nearest. cbn [Qnum Qden]. destruct (Z.eqb_spec (Z.abs n) 0) as [Hz|Hz]; [cbn [Qnum Qden]; nia|].
  assert (0 < n)%Z as Hn by nia. rewrite Z.abs_eq, Z.sgn_pos, !Z.mul_1_l by lia.
  pose proof (ulp_exponent_small j n (Zpos d) Hj Hn ltac:(done) ltac:(nia)) as Hk.
  destruct (Z.leb_spec 0 (ulp_exponent n (Zpos d))) as [H0|H0].
  - replace (ulp_exponent n (Zpos d)) with 0%Z by lia. assert (j = 0)%Z as -> by lia. cbn [Qnum Qden inject_Z].
    change (2 ^ 0)%Z with 1%Z in *. rewrite !Z.mul_1_r in *. apply round_half_even_between; lia.
  - set (k := ulp_exponent n (Zpos d)) in *.
    pose proof (Z.pow_pos_nonneg 2 (- k - j) ltac:(lia) ltac:(lia)) as Hp.
    assert (2 ^ (- k) = 2 ^ j * 2 ^ (- k - j))%Z as Hsplit by (rewrite <-Z.pow_add_r by lia; f_equal; lia).
    cbn [Qnum Qden]. rewrite Z2Pos.id by nia.
    assert (a * 2 ^ (- k - j) <= round_half_even (n * 2 ^ (- k)) (Z.pos d) <= c * 2 ^ (- k - j))%Z as Hr.
    { apply round_half_even_between; [done|]. rewrite Hsplit. nia. }
    revert Hr. generalize (round_half_even (n * 2 ^ (- k)) (Z.pos d)). intros r Hr. rewrite Hsplit.
    clearbody k. generalize dependent (2 ^ (- k - j))%Z. intros x. generalize dependent (2 ^ j)%Z. nia.
Qed.

(** The digits written are digits, without a leading zero, and denote the number. *)
Lemma digits_loop_spec fuel z acc :
  (0 < fuel)%nat → (0 <= z < 2 ^ Z.of_nat fuel)%Z →
  ∃ d ds, digits_loop fuel z acc = ((λ d, fromCharCode (48 + d)) <$> (d :: ds)) ++ acc ∧
    Forall (λ d, 0 <= d < 10)%Z (d :: ds) ∧ digits_value (d :: ds) = z ∧ (d = 0%Z → ds = []).
Proof.
  revert z acc. induction fuel as [|fuel IH]; intros z acc Hf Hz; [lia|].
  cbn [digits_loop]. destruct (Z.ltb_spec z 10) as [Hlt|Hge].
  - exists z, []. rewrite Z.mod_small by lia. simpl. split_and!; [done| |unfold digits_value; simpl; lia|done].
    apply Forall_singleton; lia.
  - assert (0 <= z / 10 < 2 ^ Z.of_nat fuel)%Z as Hdiv.
    { rewrite Nat2Z.inj_succ, Z.pow_succ_r in Hz by lia.
      pose proof (Z.div_lt_upper_bound z 10 (2 ^ Z.of_nat fuel)). pose proof (Z.div_pos z 10). lia. }
    assert (0 < fuel)%nat as Hf'.
    { destruct fuel; [|lia]. change (2 ^ Z.of_nat 1)%Z with 2%Z in Hz. lia. }
    destruct (IH (z / 10)%Z (fromCharCode (48 + z mod 10) :: acc) Hf' Hdiv)
      as (d&ds&->&Hds&Hval&Hlead).
    pose proof (Z.mod_pos_bound z 10 ltac:(lia)).
    exists d, (ds ++ [z mod 10]%Z). split_and!.
    + rewrite app_comm_cons, fmap_app, <-app_assoc. done.
    + rewrite app_comm_cons. apply Forall_app. split; [done|]. apply Forall_singleton; lia.
    + unfold digits_value in *. rewrite app_comm_cons, foldl_app, Hval. simpl.
      pose proof (Z.div_mod z 10 ltac:(lia)). lia.
    + intros Hd. rewrite (Hlead Hd) in Hval. subst d. unfold digits_value in Hval. simpl in Hval.
      pose proof (Z.div_mod z 10 ltac:(lia)). lia.
Qed.

(** What may follow a value: the end of the text or a delimiter. *)
Definition follows (rest : text) : Prop :=
  match rest with
  | [] => True
  | c :: _ => charCode c ∈ [44; 93; 125]%Z
  end.

Lemma take_digits_spec ds rest :
  Forall (λ d, 0 <= d < 10)%Z ds → follows rest →
  take_digits (((λ d, fromCharCode (48 + d)) <$> ds) ++ rest) = (ds, rest).
Proof.
  intros Hds Hrest. induction Hds as [|d ds Hd _ IH]; csimpl.
  - destruct rest as [|c rest]; [done|]. unfold follows in Hrest. simpl.
    assert (is_digit (charCode c) = false) as ->; [|done].
    rewrite !elem_of_cons, elem_of_nil in Hrest. unfold is_digit.
    destruct (Z.leb_spec 48 (charCode c)), (Z.leb_spec (charCode c) 57); simpl; try done; lia.
  - rewrite charCode_from by lia. unfold is_digit.
    destruct (Z.leb_spec 48 (48 + d)), (Z.leb_spec (48 + d) 57); simpl; try lia.
    rewrite IH. do 2 f_equal. lia.
Qed.

Lemma follows_no_fraction rest : follows rest → parse_fraction rest = Some ([], rest).
Proof.
  destruct rest as [|c rest]; [done|]. unfold follows, parse_fraction, is_char.
  rewrite !elem_of_cons, elem_of_nil. intros Hc.
  destruct (Z.eqb_spec (charCode c) 46); [lia|done].
Qed.

Lemma follows_no_exponent rest : follows rest → parse_exponent rest = Some (0%Z, rest).
Proof.
  destruct rest as [|c rest]; [done|]. unfold follows, parse_exponent, is_char.
  rewrite !elem_of_cons, elem_of_nil. intros Hc.
  destruct (Z.eqb_spec (charCode c) 101), (Z.eqb_spec (charCode c) 69); simpl; try done; lia.
Qed.

Definition safe_integer (z : Z) : Prop := (- 2 ^ 53 < z < 2 ^ 53)%Z.

Lemma write_nat_spec z :
  (0 <= z)%Z →
  ∃ d ds, write_nat z = (λ d, fromCharCode (48 + d)) <$> (d :: ds) ∧
    Forall (λ d, 0 <= d < 10)%Z (d :: ds) ∧ digits_value (d :: ds) = z ∧ (d = 0%Z → ds = []).
Proof.
  intros Hz. unfold write_nat.
  destruct (digits_loop_spec (S (Z.to_nat (Z.log2 z))) z []) as (d&ds&Hw&Hrest).
  - lia.
  - split; [done|]. rewrite Nat2Z.inj_succ, Z2Nat.id by apply Z.log2_nonneg.
    destruct (decide (z = 0%Z)) as [->|]; [simpl; lia|]. apply Z.log2_spec. lia.
  - exists d, ds. rewrite app_nil_r in Hw. done.
Qed.

Lemma parse_digits negative d ds z rest :
  Forall (λ d, 0 <= d < 10)%Z (d :: ds) → digits_value (d :: ds) = z →
  (d = 0%Z → ds = []) → (0 <= z < 2 ^ 53)%Z → follows rest →
  (let '(whole, l) := take_digits (((λ d, fromCharCode (48 + d)) <$> (d :: ds)) ++ rest) in
   match whole with
   | [] => None
   | d :: more =>
       if (d =? 0)%Z && bool_decide (more ≠ []) then None
       else
         parse_fraction l ≫= λ '(fraction, l),
         parse_exponent l ≫= λ '(exponent, l),
         Some (decimal_double negative (digits_value (whole ++ fraction))
                 (exponent - Z.of_nat (length fraction)), l)
   end) = Some (NInt (if negative then - z else z)%Z, rest).
Proof.
  intros Hds Hval Hlead Hz Hrest. rewrite take_digits_spec by done.
  assert ((d =? 0)%Z && bool_decide (ds ≠ []) = false) as ->.
  { destruct (Z.eqb_spec d 0) as [Hd|]; [|done]. rewrite (Hlead Hd). done. }
  rewrite follows_no_fraction by done. cbn [mbind option_bind].
  rewrite follows_no_exponent by done. cbn [mbind option_bind].
  rewrite app_nil_r, Hval. unfold decimal_double. simpl.
  by rewrite Z.mul_1_r, nearest_double_int.
Qed.

Lemma digit_not_minus d : (0 <= d < 10)%Z → is_char 45 (fromCharCode (48 + d)) = false.
Proof.
  intros. unfold is_char. rewrite charCode_from by lia. apply Z.eqb_neq. lia.
Qed.

Lemma parse_write_number z rest :
  safe_integer z → follows rest → parse_number (write_number (NInt z) ++ rest) = Some (NInt z, rest).
Proof.
  unfold safe_integer. intros Hz Hrest. unfold write_number, parse_number.
  destruct (Z.ltb_spec z 0) as [Hneg|Hpos].
  - destruct (write_nat_spec (- z) ltac:(lia)) as (d&ds&->&Hds&Hval&Hlead).
    replace (NInt z) with (NInt (- - z)) by (f_equal; lia).
    exact (parse_digits true d ds (- z) rest Hds Hval Hlead ltac:(lia) Hrest).
  - destruct (write_nat_spec z Hpos) as (d&ds&->&Hds&Hval&Hlead). csimpl.
    rewrite digit_not_minus by (by inversion Hds).
    exact (parse_digits false d ds z rest Hds Hval Hlead ltac:(lia) Hrest).
Qed.

(** ** Strings *)

Lemma parse_unicode_bmp l u rest :
  parse_hex4 l = Some (u, rest) → is_high u = false →
  parse_unicode l = Some (point_bytes u, rest).
Proof.
  unfold parse_unicode. intros -> Hu. cbn [mbind option_bind]. rewrite Hu.
  by destruct rest as [|? [|? ?]].
Qed.

(** The escape of a control character reads back as that character. *)
Lemma parse_control c l :
  (charCode c < 32)%Z →
  parse_unicode (chars "00" ++ [hex_digit (charCode c / 16); hex_digit (charCode c mod 16)] ++ l)
  = Some ([c], l).
Proof.
  intros Hc. rewrite (parse_unicode_bmp _ (charCode c) l).
  - destruct c as [[] [] [] [] [] [] [] []]; try (vm_compute in Hc; discriminate Hc); reflexivity.
  - destruct c as [[] [] [] [] [] [] [] []]; try (vm_compute in Hc; discriminate Hc); reflexivity.
  - destruct c as [[] [] [] [] [] [] [] []]; try (vm_compute in Hc; discriminate Hc); reflexivity.
Qed.

Lemma parse_escape_u fuel t :
  parse_string (S fuel) (chars "\u" ++ t)
  = parse_unicode t ≫= λ '(bytes, rest),
    parse_string fuel rest ≫= λ '(more, rest), Some (bytes ++ more, rest).
Proof. reflexivity. Qed.

(** Is the character the one of this code?  If so its escape is computed. *)
Ltac char_case c n Hl N :=
  let H := fresh in
  destruct (Z.eqb_spec (charCode c) n) as [H|N];
  [apply (charCode_inj c (fromCharCode n)) in H; subst c; simpl; by rewrite Hl|].

Lemma parse_quoted_char fuel c l more rest :
  parse_string fuel l = Some (more, rest) →
  parse_string (S fuel) (quote_char c ++ l) = Some (c :: more, rest).
Proof.
  intros Hl. unfold quote_char.
  char_case c 34%Z Hl N34. char_case c 92%Z Hl N92. cbn [orb].
  char_case c 8%Z Hl N8. char_case c 12%Z Hl N12. char_case c 10%Z Hl N10.
  char_case c 13%Z Hl N13. char_case c 9%Z Hl N9.
  destruct (Z.ltb_spec (charCode c) 32) as [H|N32].
  - pose proof (parse_control c l H) as Hp.
    change (chars "\u00") with (chars "\u" ++ chars "00"). rewrite <-!app_assoc.
    rewrite parse_escape_u, Hp. cbn [mbind option_bind]. by rewrite Hl.
  - cbn [app parse_string]. unfold is_char.
    rewrite (proj2 (Z.eqb_neq _ _) N34), (proj2 (Z.eqb_neq _ _) N92).
    rewrite (proj2 (Z.ltb_ge _ _) N32). by rewrite Hl.
Qed.

Lemma parse_quoted s fuel rest :
  (length s < fuel)%nat →
  parse_string fuel ((s ≫= quote_char) ++ fromCharCode 34 :: rest) = Some (s, rest).
Proof.
  revert fuel. induction s as [|c s IH]; intros fuel Hf; (destruct fuel as [|fuel]; [lia|]).
  - reflexivity.
  - csimpl. rewrite <-app_assoc. apply parse_quoted_char, IH. simpl in Hf. lia.
Qed.

Lemma quote_char_nonempty c : (1 <= length (quote_char c))%nat.
Proof. unfold quote_char. repeat case_match; simpl; lia. Qed.

Lemma length_quoted (s : text) : (length s <= length (s ≫= quote_char))%nat.
Proof.
  induction s as [|c s IH]; csimpl; [done|]. rewrite length_app.
  pose proof (quote_char_nonempty c). lia.
Qed.

(** A string literal reads back whatever follows it. *)
Lemma parse_quote s rest :
  quote s ++ rest = fromCharCode 34 :: ((chars s ≫= quote_char) ++ fromCharCode 34 :: rest) ∧
  ∀ fuel, (length ((chars s ≫= quote_char) ++ fromCharCode 34 :: rest) <= fuel)%nat →
    parse_string fuel ((chars s ≫= quote_char) ++ fromCharCode 34 :: rest)
    = Some (chars s, rest).
Proof.
  split; [unfold quote; by rewrite <-app_comm_cons, <-app_assoc|].
  intros fuel Hf. apply parse_quoted. pose proof (length_quoted (chars s)).
  rewrite length_app in Hf. simpl in Hf. lia.
Qed.

(** ** Values *)

Section json_induction.
Variable P : json → Prop.
Hypothesis Hnull : P JNull.
Hypothesis Hbool : ∀ b, P (JBool b).
Hypothesis Hnum : ∀ n, P (JNum n).
Hypothesis Hstr : ∀ s, P (JStr s).
Hypothesis Harr : ∀ l, Forall P l → P (JArr l).
Hypothesis Hobj : ∀ l, Forall (λ kv, P kv.2) l → P (JObj l).

Fixpoint json_nested_ind (j : json) : P j :=
  match j with
  | JNull => Hnull
  | JBool b => Hbool b
  | JNum n => Hnum n
  | JStr s => Hstr s
  | JArr l =>
      Harr l ((fix go l : Forall P l :=
        match l with
        | [] => Forall_nil_2 _
        | x :: l => Forall_cons_2 _ _ _ (json_nested_ind x) (go l)
        end) l)
  | JObj l =>
      Hobj l ((fix go l : Forall (λ kv, P kv.2) l :=
        match l with
        | [] => Forall_nil_2 _
        | x :: l => Forall_cons_2 _ _ _ (json_nested_ind x.2) (go l)
        end) l)
  end.
End json_induction.

(** Values whose numbers are integers that doubles hold exactly. *)
Fixpoint safe (j : json) : Prop :=
  match j with
  | JNum (NInt z) => safe_integer z
  | JNum NNonInt => False
  | JArr l => (fix go l := match l with [] => True | x :: l => safe x ∧ go l end) l
  | JObj l => (fix go l := match l with [] => True | (_, v) :: l => safe v ∧ go l end) l
  | _ => True
  end.

Lemma safe_arr l : safe (JArr l) ↔ Forall safe l.
Proof. induction l as [|x l IH]; simpl in *; [done|]. by rewrite Forall_cons, <-IH. Qed.

Lemma safe_obj l : safe (JObj l) ↔ Forall (λ kv, safe kv.2) l.
Proof. induction l as [|[k x] l IH]; simpl in *; [done|]. by rewrite Forall_cons, <-IH. Qed.

(** What is written of a list after its first element. *)
Fixpoint tail_text {A} (w : A → text) (close : text) (l : list A) : text :=
  match l with
  | [] => close
  | x :: l => chars "," ++ w x ++ tail_text w close l
  end.

Lemma join_tail {A} (w : A → text) close x l :
  join (chars ",") (map w (x :: l)) ++ close = w x ++ tail_text w close l.
Proof.
  simpl. rewrite <-app_assoc. f_equal. induction l as [|y l IH]; csimpl; [done|].
  rewrite <-IH. by rewrite <-!app_assoc.
Qed.

Definition member_text : string * json → text := λ '(k, v), quote k ++ chars ":" ++ write v.

Lemma write_number_head z :
  ∃ c l, write_number (NInt z) = c :: l ∧ (charCode c = 45 ∨ 48 <= charCode c < 58)%Z.
Proof.
  unfold write_number. destruct (Z.ltb_spec z 0).
  - eexists _, _. split; [done|]. by left.
  - destruct (write_nat_spec z ltac:(lia)) as (d&ds&->&Hds&_).
    eexists _, _. split; [done|]. right. apply Forall_cons in Hds as [? _].
    rewrite charCode_from by lia. lia.
Qed.

Lemma json_space_false c : (32 < charCode c)%Z → is_json_space c = false.
Proof.
  intros. unfold is_json_space.
  destruct (Z.eqb_spec (charCode c) 32), (Z.eqb_spec (charCode c) 9),
    (Z.eqb_spec (charCode c) 10), (Z.eqb_spec (charCode c) 13); simpl; try done; lia.
Qed.

Lemma is_char_false n c : charCode c ≠ n → is_char n c = false.
Proof. intros. unfold is_char. by apply Z.eqb_neq. Qed.

(** A written value starts with a character that is neither white space nor a
    closing bracket. *)
Lemma write_head j :
  safe j → ∃ c l, write j = c :: l ∧ (32 < charCode c)%Z ∧ charCode c ≠ 93%Z ∧ charCode c ≠ 125%Z.
Proof.
  destruct j as [|b|[z|]|s|l|l]; intros Hj.
  - by eexists _, _.
  - destruct b; by eexists _, _.
  - destruct (write_number_head z) as (c&t&Hw&Hc). exists c, t. split; [exact Hw|]. lia.
  - done.
  - by eexists _, _.
  - by eexists _, _.
  - by eexists _, _.
Qed.

Lemma skip_space_head c l : (32 < charCode c)%Z → skip_space (c :: l) = c :: l.
Proof. intros. simpl. by rewrite json_space_false. Qed.

Lemma follows_skip c l : charCode c ∈ [44; 93; 125]%Z → skip_space (c :: l) = c :: l.
Proof.
  rewrite !elem_of_cons, elem_of_nil. intros. apply skip_space_head. lia.
Qed.

Definition reads (j : json) : Prop :=
  ∀ rest fuel, safe j → follows rest → (2 * length (write j) + 1 <= fuel)%nat →
    parse_value fuel (write j ++ rest) = Some (j, rest).

Lemma parse_elements_reads x l rest fuel :
  reads x → Forall reads l → safe x → Forall safe l →
  (2 * length (write x ++ tail_text write (chars "]") l) + 2 <= fuel)%nat →
  parse_elements fuel (write x ++ tail_text write (chars "]") l ++ rest) = Some (x :: l, rest).
Proof.
  revert x fuel. induction l as [|y l IH]; intros x fuel Hx Hl Sx Sl Hfuel;
    (destruct fuel as [|fuel]; [lia|]); cbn [tail_text] in *; cbn [parse_elements];
    rewrite length_app in Hfuel.
  - rewrite Hx; [|done|simpl; set_solver|lia]. reflexivity.
  - apply Forall_cons in Hl as [Hy Hl]. apply Forall_cons in Sl as [Sy Sl].
    rewrite (length_app (chars ",")) in Hfuel. change (length (chars ",")) with 1%nat in Hfuel.
    rewrite Hx; [|done|simpl; set_solver|lia]. cbn [mbind option_bind].
    change (chars "," ++ write y ++ tail_text write (chars "]") l) with
      (fromCharCode 44 :: (write y ++ tail_text write (chars "]") l)).
    cbn [app]. rewrite follows_skip by (simpl; set_solver).
    change (is_char 44 (fromCharCode 44)) with true. cbn iota. rewrite <-app_assoc.
    rewrite IH by (done || lia). done.
Qed.

Lemma parse_member_key k rest fuel :
  (1 <= fuel)%nat →
  ∀ v t, parse_value fuel (v ++ rest) = Some t →
  parse_members (S fuel) (quote k ++ chars ":" ++ v ++ rest)
  = match skip_space t.2 with
    | c :: rest =>
        if is_char 44 c then
          parse_members fuel rest ≫= λ '(members, rest), Some ((k, t.1) :: members, rest)
        else if is_char 125 c then Some ([(k, t.1)], rest)
        else None
    | [] => None
    end.
Proof.
  intros Hf v [j t] Hv. rewrite (proj1 (parse_quote k _)). cbn [parse_members].
  rewrite skip_space_head by (vm_compute; reflexivity).
  change (is_char 34 (fromCharCode 34)) with true. cbn iota.
  rewrite (proj2 (parse_quote k _)) by lia. cbn [mbind option_bind].
  change (chars ":" ++ v ++ rest) with (fromCharCode 58 :: (v ++ rest)).
  rewrite skip_space_head by (vm_compute; reflexivity).
  change (is_char 58 (fromCharCode 58)) with true. cbn iota.
  rewrite Hv. cbn [mbind option_bind fst snd]. by rewrite of_chars_chars.
Qed.

Lemma parse_members_reads kv l rest fuel :
  reads kv.2 → Forall (λ kv, reads kv.2) l → safe kv.2 → Forall (λ kv, safe kv.2) l →
  (2 * length (member_text kv ++ tail_text member_text (chars "}") l) + 2 <= fuel)%nat →
  parse_members fuel (member_text kv ++ tail_text member_text (chars "}") l ++ rest)
  = Some (kv :: l, rest).
Proof.
  revert kv fuel. induction l as [|kv' l IH]; intros [k v] fuel Hx Hl Sx Sl Hfuel;
    (destruct fuel as [|fuel]; [lia|]); cbn [tail_text] in *; cbn [member_text] in *;
    rewrite length_app, !length_app in Hfuel;
    change (length (chars ":")) with 1%nat in Hfuel; rewrite <-!app_assoc.
  - erewrite parse_member_key; [|lia|apply Hx; [done|simpl; set_solver|simpl in *; lia]].
    reflexivity.
  - apply Forall_cons in Hl as [Hy Hl]. apply Forall_cons in Sl as [Sy Sl].
    change (length (chars ",")) with 1%nat in Hfuel.
    erewrite parse_member_key; [|lia|apply Hx; [done|simpl; set_solver|simpl in *; lia]].
    cbn [fst snd].
    change (chars "," ++ member_text kv' ++ tail_text member_text (chars "}") l ++ rest) with
      (fromCharCode 44 :: (member_text kv' ++ tail_text member_text (chars "}") l ++ rest)).
    rewrite follows_skip by set_solver.
    change (is_char 44 (fromCharCode 44)) with true. cbn iota.
    rewrite IH by (done || (rewrite !length_app; lia)). done.
Qed.

Lemma all_reads j : reads j.
Proof.
  induction j as [|b|[z|]|s|l Hl|l Hl] using json_nested_ind; intros rest fuel Sj Hrest Hfuel;
    try done; (destruct fuel as [|fuel]; [lia|]).
  - reflexivity.
  - by destruct b.
  - destruct (write_number_head z) as (c&t&Hw&Hc). cbn [write parse_value].
    rewrite Hw. cbn [app]. rewrite skip_space_head by lia.
    rewrite !is_char_false by lia. rewrite app_comm_cons, <-Hw.
    by rewrite parse_write_number.
  - cbn [write]. rewrite (proj1 (parse_quote s rest)). cbn [parse_value].
    rewrite skip_space_head by (vm_compute; reflexivity).
    change (is_char 123 (fromCharCode 34)) with false.
    change (is_char 91 (fromCharCode 34)) with false.
    change (is_char 34 (fromCharCode 34)) with true. cbn iota.
    rewrite (proj2 (parse_quote s rest)) by lia.
    cbn [mbind option_bind]. by rewrite of_chars_chars.
  - apply safe_arr in Sj. destruct l as [|x l]; [reflexivity|].
    apply Forall_cons in Hl as [Hx Hl]. apply Forall_cons in Sj as [Sx Sl].
    destruct (write_head x Sx) as (c&t&Hw&Hsp&Hclose&_).
    change (write (JArr (x :: l))) with
      (fromCharCode 91 :: (join (chars ",") (map write (x :: l)) ++ chars "]")) in *.
    rewrite join_tail in *. cbn [app parse_value]. rewrite skip_space_head by (vm_compute; reflexivity).
    change (is_char 123 (fromCharCode 91)) with false.
    change (is_char 91 (fromCharCode 91)) with true. cbn iota.
    rewrite <-app_assoc. rewrite Hw at 1. cbn [app]. rewrite skip_space_head by done.
    rewrite is_char_false by done.
    rewrite parse_elements_reads by (done || (cbn [length] in Hfuel; lia)). done.
  - apply safe_obj in Sj. destruct l as [|[k v] l]; [reflexivity|].
    apply Forall_cons in Hl as [Hx Hl]. apply Forall_cons in Sj as [Sx Sl].
    change (write (JObj ((k, v) :: l))) with
      (fromCharCode 123 :: (join (chars ",") (map member_text ((k, v) :: l)) ++ chars "}")) in *.
    rewrite join_tail in *. cbn [app parse_value]. rewrite skip_space_head by (vm_compute; reflexivity).
    change (is_char 123 (fromCharCode 123)) with true. cbn iota.
    rewrite <-app_assoc.
    assert (∃ t, member_text (k, v) = fromCharCode 34 :: t) as [t Ht] by by eexists.
    rewrite Ht at 1. cbn [app]. rewrite skip_space_head by (vm_compute; reflexivity).
    change (is_char 125 (fromCharCode 34)) with false. cbn iota.
    rewrite parse_members_reads by (done || (cbn [length] in Hfuel; lia)). done.
Qed.

Lemma JSON_parse_stringify j : safe j → JSON_parse (JSON_stringify j) = Some j.
Proof.
  intros Hj. unfold JSON_parse, JSON_stringify. rewrite chars_of_chars.
  pose proof (all_reads j [] (S (2 * length (write j))) Hj I ltac:(lia)) as Hr.
  rewrite app_nil_r in Hr. by rewrite Hr.
Qed.
