(* ===== verification/Protocol.v ===== *)
(** * The control-channel protocol

    packages/core/src/protocol.ts: the messages of a session, their encoding,
    and the parser that checks every field of a message another device sent.
    [unknown] is [option json], [None] being [undefined]. *)

From S2P Require Import Prelude Model JsString Json.
From Stdlib Require Ascii.

Open Scope Z_scope.

Definition PROTOCOL_VERSION : Z := 1.

Module LIMITS.
Definition maxHistoryNodes : Z := 100000.
Definition maxParentsPerRevision : Z := 64.
Definition maxWantedRevisions : Z := 100000.
Definition maxRevisionBytes : Z := 512 * 1024 * 1024.
Definition maxChunks : Z := 262144.
Definition maxStringLength : Z := 4096.
End LIMITS.

Module HistorySummaryEntry.
Record t : Type := mk {
  revisionId : RevisionId;
  hash : Sha256Hex;
  sizeBytes : Z;
  parentIds : list RevisionId;
}.

#[global] Instance eq_dec : EqDecision t.
Proof. solve_decision. Defined.
End HistorySummaryEntry.

Module RevisionHeader.
Record t : Type := mk {
  transferSeq : Z;
  vaultId : VaultId;
  revisionId : RevisionId;
  hash : Sha256Hex;
  sizeBytes : Z;
  parentIds : list RevisionId;
  totalChunks : Z;
  message : option string;
}.

#[global] Instance eq_dec : EqDecision t.
Proof. solve_decision. Defined.
End RevisionHeader.

Inductive ProtocolErrorCode : Type :=
  | unsupported_version
  | unauthorized
  | unknown_vault
  | malformed_message
  | limit_exceeded
  | internal.

#[global] Instance ProtocolErrorCode_eq_dec : EqDecision ProtocolErrorCode.
Proof. solve_decision. Defined.

Definition code_string (code : ProtocolErrorCode) : string :=
  match code with
  | unsupported_version => "unsupported-version"
  | unauthorized => "unauthorized"
  | unknown_vault => "unknown-vault"
  | malformed_message => "malformed-message"
  | limit_exceeded => "limit-exceeded"
  | internal => "internal"
  end.

Definition known_codes : list ProtocolErrorCode :=
  [unsupported_version; unauthorized; unknown_vault; malformed_message; limit_exceeded; internal].

Inductive ProtocolMessage : Type :=
  | Hello (protocolVersion : Z) (deviceId : DeviceId) (deviceName publicKey nonce : string)
  | Auth (signature : string)
  | VaultSummary (vaultId : VaultId) (vaultName : string) (headRevisionId : option RevisionId)
      (revisionCount : Z)
  | HistorySummary (vaultId : VaultId) (revisions : list HistorySummaryEntry.t)
  | WantRevisions (vaultId : VaultId) (revisionIds : list RevisionId)
  | RevisionHeaderMessage (header : RevisionHeader.t)
  | RevisionAck (revisionId : RevisionId) (accepted : bool) (reason : option string)
  | TransferCancel (transferSeq : Z) (reason : string)
  | SyncComplete (vaultId : VaultId)
  | Bye
  | ErrorMessage (code : ProtocolErrorCode) (message : string).

#[global] Instance ProtocolMessage_eq_dec : EqDecision ProtocolMessage.
Proof. solve_decision. Defined.

(** ** Encoding *)

Definition jstr (s : string) : json := JStr s.
Definition jint (z : Z) : json := JNum (NInt z).
Definition jstrs (l : list string) : json := JArr (jstr <$> l).

(** An optional field: absent when the value is [undefined]. *)
Definition optional (key : string) (value : option json) : list (string * json) :=
  match value with None => [] | Some v => [(key, v)] end.

Definition entry_json (e : HistorySummaryEntry.t) : json :=
  JObj [("revisionId", jstr (HistorySummaryEntry.revisionId e));
        ("hash", jstr (HistorySummaryEntry.hash e));
        ("sizeBytes", jint (HistorySummaryEntry.sizeBytes e));
        ("parentIds", jstrs (HistorySummaryEntry.parentIds e))].

Definition entries_json (l : list HistorySummaryEntry.t) : json := JArr (entry_json <$> l).

Definition message_json (m : ProtocolMessage) : json :=
  match m with
  | Hello protocolVersion deviceId deviceName publicKey nonce =>
      JObj [("type", jstr "hello"); ("protocolVersion", jint protocolVersion);
            ("deviceId", jstr deviceId); ("deviceName", jstr deviceName);
            ("publicKey", jstr publicKey); ("nonce", jstr nonce)]
  | Auth signature => JObj [("type", jstr "auth"); ("signature", jstr signature)]
  | VaultSummary vaultId vaultName headRevisionId revisionCount =>
      JObj ([("type", jstr "vault-summary"); ("vaultId", jstr vaultId);
             ("vaultName", jstr vaultName); ("revisionCount", jint revisionCount)]
            ++ optional "headRevisionId" (jstr <$> headRevisionId))
  | HistorySummary vaultId revisions =>
      JObj [("type", jstr "history-summary"); ("vaultId", jstr vaultId);
            ("revisions", entries_json revisions)]
  | WantRevisions vaultId revisionIds =>
      JObj [("type", jstr "want-revisions"); ("vaultId", jstr vaultId);
            ("revisionIds", jstrs revisionIds)]
  | RevisionHeaderMessage h =>
      JObj ([("type", jstr "revision-header");
             ("transferSeq", jint (RevisionHeader.transferSeq h));
             ("vaultId", jstr (RevisionHeader.vaultId h));
             ("revisionId", jstr (RevisionHeader.revisionId h));
             ("hash", jstr (RevisionHeader.hash h));
             ("sizeBytes", jint (RevisionHeader.sizeBytes h));
             ("parentIds", jstrs (RevisionHeader.parentIds h));
             ("totalChunks", jint (RevisionHeader.totalChunks h))]
            ++ optional "message" (jstr <$> RevisionHeader.message h))
  | RevisionAck revisionId accepted reason =>
      JObj ([("type", jstr "revision-ack"); ("revisionId", jstr revisionId);
             ("accepted", JBool accepted)] ++ optional "reason" (jstr <$> reason))
  | TransferCancel transferSeq reason =>
      JObj [("type", jstr "transfer-cancel"); ("transferSeq", jint transferSeq);
            ("reason", jstr reason)]
  | SyncComplete vaultId => JObj [("type", jstr "sync-complete"); ("vaultId", jstr vaultId)]
  | Bye => JObj [("type", jstr "bye")]
  | ErrorMessage code message =>
      JObj [("type", jstr "error"); ("code", jstr (code_string code)); ("message", jstr message)]
  end.

Definition encodeMessage (message : ProtocolMessage) : string := JSON_stringify (message_json message).

(** ** Checked fields *)

Inductive ParseOutcome : Type :=
  | parsed (message : ProtocolMessage)
  | refused (code : ProtocolErrorCode) (reason : string).

Definition malformed (reason : string) : ParseOutcome := refused malformed_message reason.
Definition exceeded (reason : string) : ParseOutcome := refused limit_exceeded reason.

Definition str (value : option json) : option string :=
  match value with
  | Some (JStr s) =>
      if (str_length s =? 0) || (LIMITS.maxStringLength <? str_length s) then None else Some s
  | _ => None
  end.

Definition hex64 (value : option json) : option Sha256Hex :=
  match value with
  | Some (JStr s) =>
      if (length (chars s) =? 64)%nat && forallb (λ c, is_lower_hex (charCode c)) (chars s)
      then Some s else None
  | _ => None
  end.

(** [typeof value === "number" && Number.isInteger(value)]. *)
Definition integer (value : option json) : option Z :=
  match value with Some (JNum (NInt z)) => Some z | _ => None end.

Definition isCount (value : option json) : option Z :=
  match integer value with
  | Some z => if 0 <=? z then Some z else None
  | None => None
  end.

Definition isArray (value : option json) : option (list json) :=
  match value with Some (JArr l) => Some l | _ => None end.

Definition boolean (value : option json) : option bool :=
  match value with Some (JBool b) => Some b | _ => None end.

(** The [for] loops that collect strings: [None] on an element that is not one. *)
Definition strings (l : list json) : option (list string) := mapM (λ j, str (Some j)) l.

(** An early return: go on with the value, or stop with the outcome. *)
Definition require {A} (value : option A) (otherwise : ParseOutcome) (k : A → ParseOutcome)
    : ParseOutcome :=
  match value with Some a => k a | None => otherwise end.

(** A count with an upper bound. *)
Definition isCountUpTo (limit : Z) (value : option json) : option Z :=
  match isCount value with
  | Some z => if limit <? z then None else Some z
  | None => None
  end.

Definition count_text (l : list json) : string := pretty (Z.of_nat (length l)).

(** ** One parser per message type *)

Definition parseHello (value : list (string * json)) : ParseOutcome :=
  let field key := member key value in
  match str (field "deviceId"), str (field "deviceName") with
  | Some deviceId, Some deviceName =>
      match str (field "publicKey"), str (field "nonce") with
      | Some publicKey, Some nonce =>
          require (integer (field "protocolVersion"))
            (malformed "hello requires an integer protocolVersion") (λ protocolVersion,
          parsed (Hello protocolVersion deviceId deviceName publicKey nonce))
      | _, _ => malformed "hello requires publicKey and nonce"
      end
  | _, _ => malformed "hello requires deviceId and deviceName"
  end.

Definition parseAuth (value : list (string * json)) : ParseOutcome :=
  require (str (member "signature" value)) (malformed "auth requires a signature") (λ signature,
  parsed (Auth signature)).

Definition parseVaultSummary (value : list (string * json)) : ParseOutcome :=
  let field key := member key value in
  let vaultName := default "Shared vault" (str (field "vaultName")) in
  let headRevisionId := str (field "headRevisionId") in
  require (str (field "vaultId")) (malformed "vault-summary requires vaultId") (λ vaultId,
  require (isCount (field "revisionCount"))
    (malformed "vault-summary requires a non-negative revisionCount") (λ revisionCount,
  parsed (VaultSummary vaultId vaultName headRevisionId revisionCount))).

(** One row of a history summary: its entry, or the outcome that ends the parse. *)
Definition parse_entry (row : json) : HistorySummaryEntry.t + ParseOutcome :=
  match row with
  | JObj row =>
      match str (member "revisionId" row), hex64 (member "hash" row) with
      | Some revisionId, Some hash =>
          match isCountUpTo LIMITS.maxRevisionBytes (member "sizeBytes" row) with
          | Some sizeBytes =>
              match isArray (member "parentIds" row) with
              | Some parents =>
                  if LIMITS.maxParentsPerRevision <? Z.of_nat (length parents) then
                    inr (exceeded ("revision " +:+ revisionId +:+ " declares " +:+
                                   count_text parents +:+ " parents")%string)
                  else
                    match strings parents with
                    | Some parentIds =>
                        inl (HistorySummaryEntry.mk revisionId hash sizeBytes parentIds)
                    | None => inr (malformed "parentIds must be strings")
                    end
              | None => inr (malformed "history-summary entry requires parentIds")
              end
          | None => inr (malformed "history-summary entry has an invalid sizeBytes")
          end
      | _, _ => inr (malformed "history-summary entry requires revisionId and a sha256 hash")
      end
  | _ => inr (malformed "history-summary entry is not an object")
  end.

Fixpoint parse_entries (rows : list json) : list HistorySummaryEntry.t + ParseOutcome :=
  match rows with
  | [] => inl []
  | row :: rows =>
      match parse_entry row with
      | inr outcome => inr outcome
      | inl entry =>
          match parse_entries rows with
          | inr outcome => inr outcome
          | inl entries => inl (entry :: entries)
          end
      end
  end.

Definition parseHistorySummary (value : list (string * json)) : ParseOutcome :=
  require (str (member "vaultId" value))
    (malformed "history-summary requires vaultId") (λ vaultId,
  require (isArray (member "revisions" value))
    (malformed "history-summary requires a revisions array") (λ rows,
  if LIMITS.maxHistoryNodes <? Z.of_nat (length rows) then
    exceeded ("history-summary carries " +:+ count_text rows +:+ " revisions")%string
  else
    match parse_entries rows with
    | inr outcome => outcome
    | inl revisions => parsed (HistorySummary vaultId revisions)
    end)).

Definition parseWantRevisions (value : list (string * json)) : ParseOutcome :=
  require (str (member "vaultId" value))
    (malformed "want-revisions requires vaultId") (λ vaultId,
  require (isArray (member "revisionIds" value))
    (malformed "want-revisions requires a revisionIds array") (λ ids,
  if LIMITS.maxWantedRevisions <? Z.of_nat (length ids) then
    exceeded ("want-revisions asks for " +:+ count_text ids +:+ " revisions")%string
  else
    require (strings ids) (malformed "revisionIds must be strings") (λ revisionIds,
    parsed (WantRevisions vaultId revisionIds)))).

(** [!Array.isArray(parents) || parents.length > limit], negated. *)
Definition bounded_array (limit : Z) (value : option json) : option (list json) :=
  match isArray value with
  | Some l => if limit <? Z.of_nat (length l) then None else Some l
  | None => None
  end.

Definition parseRevisionHeader (value : list (string * json)) : ParseOutcome :=
  let field key := member key value in
  match str (field "vaultId"), str (field "revisionId"), hex64 (field "hash") with
  | Some vaultId, Some revisionId, Some hash =>
      require (isCount (field "transferSeq"))
        (malformed "revision-header requires a transferSeq") (λ transferSeq,
      require (isCountUpTo LIMITS.maxRevisionBytes (field "sizeBytes"))
        (exceeded "revision-header declares an unacceptable sizeBytes") (λ sizeBytes,
      require (isCountUpTo LIMITS.maxChunks (field "totalChunks"))
        (exceeded "revision-header declares an unacceptable totalChunks") (λ totalChunks,
      require (bounded_array LIMITS.maxParentsPerRevision (field "parentIds"))
        (malformed "revision-header requires a bounded parentIds array") (λ parents,
      require (strings parents) (malformed "parentIds must be strings") (λ parentIds,
      let header message := parsed (RevisionHeaderMessage
        (RevisionHeader.mk transferSeq vaultId revisionId hash sizeBytes parentIds
           totalChunks message)) in
      match field "message" with
      | None => header None
      | Some message =>
          require (str (Some message))
            (malformed "revision-header message must be a bounded string") (λ message,
          header (Some message))
      end)))))
  | _, _, _ => malformed "revision-header requires vaultId, revisionId and a sha256 hash"
  end.

Definition parseRevisionAck (value : list (string * json)) : ParseOutcome :=
  let field key := member key value in
  match str (field "revisionId"), boolean (field "accepted") with
  | Some revisionId, Some accepted =>
      parsed (RevisionAck revisionId accepted
        (match field "reason" with
         | Some (JStr reason) => Some (slice reason 0 LIMITS.maxStringLength)
         | _ => None
         end))
  | _, _ => malformed "revision-ack requires revisionId and accepted"
  end.

Definition parseTransferCancel (value : list (string * json)) : ParseOutcome :=
  let reason := default "cancelled" (str (member "reason" value)) in
  require (isCount (member "transferSeq" value))
    (malformed "transfer-cancel requires a transferSeq") (λ transferSeq,
  parsed (TransferCancel transferSeq reason)).

Definition parseSyncComplete (value : list (string * json)) : ParseOutcome :=
  require (str (member "vaultId" value)) (malformed "sync-complete requires vaultId") (λ vaultId,
  parsed (SyncComplete vaultId)).

Definition parseError (value : list (string * json)) : ParseOutcome :=
  let code := default "internal" (str (member "code" value)) in
  let message := default "" (str (member "message" value)) in
  parsed (ErrorMessage
    (default internal (head (filter (λ known, code_string known = code) known_codes))) message).

(** ** Dispatch *)

Definition parseMessage (raw : string) : ParseOutcome :=
  match JSON_parse raw with
  | None => malformed "message is not valid JSON"
  | Some (JObj value) =>
      match member "type" value with
      | Some (JStr type) =>
          if decide (type = "hello") then parseHello value
          else if decide (type = "auth") then parseAuth value
          else if decide (type = "vault-summary") then parseVaultSummary value
          else if decide (type = "history-summary") then parseHistorySummary value
          else if decide (type = "want-revisions") then parseWantRevisions value
          else if decide (type = "revision-header") then parseRevisionHeader value
          else if decide (type = "revision-ack") then parseRevisionAck value
          else if decide (type = "transfer-cancel") then parseTransferCancel value
          else if decide (type = "sync-complete") then parseSyncComplete value
          else if decide (type = "bye") then parsed Bye
          else if decide (type = "error") then parseError value
          else malformed ("unknown message type " +:+ type)%string
      | _ => malformed "message has no type"
      end
  | Some _ => malformed "message has no type"
  end.
