(* ===== verification/Inbox.v ===== *)
(** * The control inbox

    packages/sync/src/controlInbox.ts: where inbound control messages go.  A
    handler takes them at once; otherwise the oldest [expect] waiting for the
    type does; otherwise they are queued for the next.  A promise that [expect]
    returned is its index in a list of promises. *)

From S2P Require Import Prelude Model JsString Json Protocol.

Inductive SessionCode : Type :=
  | protocol_code (code : ProtocolErrorCode)
  | timeout
  | closed.

#[global] Instance SessionCode_eq_dec : EqDecision SessionCode.
Proof. solve_decision. Defined.

Module SessionError.
Record t : Type := mk {
  code : SessionCode;
  message : string;
}.

#[global] Instance eq_dec : EqDecision t.
Proof. solve_decision. Defined.
End SessionError.

(** The [type] of a message. *)
Definition type_of (message : ProtocolMessage) : string :=
  match message with
  | Hello _ _ _ _ _ => "hello"
  | Auth _ => "auth"
  | VaultSummary _ _ _ _ => "vault-summary"
  | HistorySummary _ _ => "history-summary"
  | WantRevisions _ _ => "want-revisions"
  | RevisionHeaderMessage _ => "revision-header"
  | RevisionAck _ _ _ => "revision-ack"
  | TransferCancel _ _ => "transfer-cancel"
  | SyncComplete _ => "sync-complete"
  | Bye => "bye"
  | ErrorMessage _ _ => "error"
  end.

Inductive Settled : Type :=
  | pending
  | resolved (message : ProtocolMessage)
  | failed_with (error : SessionError.t).

#[global] Instance Settled_eq_dec : EqDecision Settled.
Proof. solve_decision. Defined.

Module Promise.
Record t : Type := mk {
  type : string;
  state : Settled;
}.

#[global] Instance eq_dec : EqDecision t.
Proof. solve_decision. Defined.

(** A promise settles once. *)
Definition settle (s : Settled) (p : t) : t :=
  match state p with pending => mk (type p) s | _ => p end.
End Promise.

Module ControlInbox.
Record t : Type := mk {
  handlers : gset string;
  queued : gmap string (list ProtocolMessage);
  waiters : gmap string (list nat);
  failure : option SessionError.t;
  rejecters : list nat;
  promises : list Promise.t;
}.

Definition new : t := mk ∅ ∅ ∅ None [] [].

Definition set_handlers x (i : t) : t := let 'mk _ b c d e f := i in mk x b c d e f.
Definition set_queued x (i : t) : t := let 'mk a _ c d e f := i in mk a x c d e f.
Definition set_waiters x (i : t) : t := let 'mk a b _ d e f := i in mk a b x d e f.
Definition set_failure x (i : t) : t := let 'mk a b c _ e f := i in mk a b c x e f.
Definition set_rejecters x (i : t) : t := let 'mk a b c d _ f := i in mk a b c d x f.
Definition set_promises x (i : t) : t := let 'mk a b c d e _ := i in mk a b c d e x.

(** [cleanup] of an [expect]: its timer is cleared, and it is neither rejected
    nor resolved any more. *)
Definition cleanup (type : string) (id : nat) (i : t) : t :=
  set_waiters (match waiters i !! type with
               | Some list => <[type := set_delete list id]> (waiters i)
               | None => waiters i
               end)
    (set_rejecters (set_delete (rejecters i) id) i).

Definition settle (id : nat) (s : Settled) (i : t) : t :=
  set_promises (alter (Promise.settle s) id (promises i)) i.

(** What the [setTimeout] of an [expect] and its [onFail] do. *)
Definition reject (type : string) (id : nat) (error : SessionError.t) (i : t) : t :=
  settle id (failed_with error) (cleanup type id i).

(** The rejecter of a promise knows its type. *)
Definition reject_id (error : SessionError.t) (i : t) (id : nat) : t :=
  match promises i !! id with
  | Some p => reject (Promise.type p) id error i
  | None => i
  end.

Definition fail (error : SessionError.t) (i : t) : t :=
  let i := set_failure (match failure i with Some e => Some e | None => Some error end) i in
  set_rejecters [] (foldl (reject_id error) i (rejecters i)).

(** One raw payload; a message that has a handler is returned for it. *)
Definition accept (raw : string) (i : t) : t * option ProtocolMessage :=
  match parseMessage raw with
  | refused code reason => (fail (SessionError.mk (protocol_code code) reason) i, None)
  | parsed (ErrorMessage code text) =>
      (fail (SessionError.mk (protocol_code code) ("peer reported: " +:+ text)%string) i, None)
  | parsed message =>
      let type := type_of message in
      if decide (type ∈ handlers i) then (i, Some message)
      else
        match waiters i !! type with
        | Some (waiter :: list) =>
            (settle waiter (resolved message)
               (cleanup type waiter (set_waiters (<[type := list]> (waiters i)) i)), None)
        | _ =>
            (set_queued (<[type := default [] (queued i !! type) ++ [message]]> (queued i)) i, None)
        end
  end.

(** Register a handler; the messages that had arrived are returned for it. *)
Definition on (type : string) (i : t) : t * list ProtocolMessage :=
  (set_queued (delete type (queued i)) (set_handlers ({[type]} ∪ handlers i) i),
   default [] (queued i !! type)).

Definition new_promise (type : string) (s : Settled) (i : t) : t :=
  set_promises (promises i ++ [Promise.mk type s]) i.

(** [expect]: the promise it returns is the new last one. *)
Definition expect (type : string) (i : t) : t :=
  match failure i with
  | Some error => new_promise type (failed_with error) i
  | None =>
      if decide (type ∈ handlers i) then
        new_promise type (failed_with (SessionError.mk (protocol_code internal)
          ("cannot expect " +:+ type +:+ ": a handler is already registered for it")%string)) i
      else
        match queued i !! type with
        | Some (ready :: queue) =>
            new_promise type (resolved ready) (set_queued (<[type := queue]> (queued i)) i)
        | _ =>
            let id := length (promises i) in
            new_promise type pending
              (set_waiters (<[type := default [] (waiters i !! type) ++ [id]]> (waiters i))
                 (set_rejecters (set_add (rejecters i) id) i))
        end
  end.

(** The timer of a promise fires only while the promise is pending. *)
Definition time_out (id : nat) (i : t) : t :=
  match promises i !! id with
  | Some (Promise.mk type pending) =>
      reject type id (SessionError.mk timeout ("timed out waiting for " +:+ type)%string) i
  | _ => i
  end.
End ControlInbox.

(** ** Properties *)

Import ControlInbox.

(** ** Sequences of calls *)

Inductive InboxOp : Type :=
  | Accept (raw : string)
  | On (type : string)
  | Expect (type : string)
  | TimeOut (id : nat)
  | Fail (error : SessionError.t).

Definition run_op (i : ControlInbox.t) (op : InboxOp) : ControlInbox.t :=
  match op with
  | Accept raw => (accept raw i).1
  | On type => (on type i).1
  | Expect type => expect type i
  | TimeOut id => time_out id i
  | Fail error => fail error i
  end.

(** The messages of a type that a sequence of calls brought in. *)
Definition arrived (T : string) (op : InboxOp) : option ProtocolMessage :=
  match op with
  | Accept raw =>
      match parseMessage raw with
      | parsed message => if decide (type_of message = T) then Some message else None
      | refused _ _ => None
      end
  | _ => None
  end.

(** The messages that the promises of a type were given, oldest promise first. *)
Definition given (T : string) (promises : list Promise.t) : list ProtocolMessage :=
  omap (λ p, match p with
             | Promise.mk type (resolved message) => if decide (type = T) then Some message else None
             | _ => None
             end) promises.

Definition is_pending (T : string) (promises : list Promise.t) (id : nat) : Prop :=
  promises !! id = Some (Promise.mk T pending).

#[global] Instance is_pending_dec T promises id : Decision (is_pending T promises id).
Proof. unfold is_pending. apply _. Defined.

Definition pending_ids (T : string) (promises : list Promise.t) : list nat :=
  filter (is_pending T promises) (seq 0 (length promises)).

Record inbox_ok (i : ControlInbox.t) : Prop := InboxOk {
  ok_waiters : ∀ T, default [] (waiters i !! T) = pending_ids T (promises i);
  ok_rejecters : ∀ id, id ∈ rejecters i ↔ ∃ T, is_pending T (promises i) id;
  ok_nodup : NoDup (rejecters i);
  ok_idle : ∀ T, default [] (queued i !! T) = [] ∨ pending_ids T (promises i) = [];
  ok_order : ∀ T j k m, is_pending T (promises i) j → (j < k)%nat →
    promises i !! k ≠ Some (Promise.mk T (resolved m));
}.

(** ** Promises *)

Lemma elem_of_pending_ids T ps id : id ∈ pending_ids T ps ↔ is_pending T ps id.
Proof.
  unfold pending_ids. rewrite list_elem_of_filter, elem_of_seq. split; [by intros []|].
  intros Hp. split; [done|]. pose proof (lookup_lt_Some _ _ _ Hp). lia.
Qed.

Lemma settle_pending T ps id j s :
  s ≠ pending → is_pending T (alter (Promise.settle s) id ps) j ↔ is_pending T ps j ∧ j ≠ id.
Proof.
  intros Hs. unfold is_pending. destruct (decide (j = id)) as [->|Hne].
  - rewrite list_lookup_alter_eq. split; [|naive_solver].
    destruct (ps !! id) as [[type []]|]; simpl; unfold Promise.settle; simpl; intros [= ? ?]; congruence.
  - rewrite list_lookup_alter_ne by done. tauto.
Qed.

Lemma pending_ids_settle T ps id s :
  s ≠ pending → pending_ids T (alter (Promise.settle s) id ps) = set_delete (pending_ids T ps) id.
Proof.
  intros Hs. unfold pending_ids, set_delete. rewrite length_alter, list_filter_filter.
  apply list_filter_iff. intros j. rewrite settle_pending by done. tauto.
Qed.

Lemma given_fail T ps id e : given T (alter (Promise.settle (failed_with e)) id ps) = given T ps.
Proof.
  unfold given. revert id. induction ps as [|[type []] ps IH]; intros [|id]; try done;
    cbn [alter list_alter]; csimpl; rewrite ?IH; done.
Qed.

Lemma filter_ext_elem {A} (P Q : A → Prop) `{∀ x, Decision (P x), ∀ x, Decision (Q x)} (l : list A) :
  (∀ x, x ∈ l → P x ↔ Q x) → filter P l = filter Q l.
Proof.
  induction l as [|x l IH]; intros Hl; [done|]. rewrite !filter_cons.
  rewrite IH by (intros y Hy; apply Hl; by right). pose proof (Hl x (list_elem_of_here x l)).
  repeat case_decide; tauto.
Qed.

Lemma pending_ids_snoc T ps p :
  pending_ids T (ps ++ [p]) =
  pending_ids T ps ++ (if decide (p = Promise.mk T pending) then [length ps] else []).
Proof.
  unfold pending_ids. rewrite length_app, Nat.add_comm, seq_S, filter_app. f_equal.
  - apply filter_ext_elem. intros j [_ Hj]%elem_of_seq. unfold is_pending. by rewrite lookup_app_l.
  - rewrite filter_cons, filter_nil. change (0 + length ps)%nat with (length ps).
    assert (is_pending T (ps ++ [p]) (length ps) ↔ p = Promise.mk T pending) as Hp.
    { unfold is_pending. rewrite lookup_app_r, Nat.sub_diag by lia. simpl. naive_solver. }
    repeat case_decide; tauto.
Qed.

Lemma filter_seq_first (P : nat → Prop) `{∀ x, Decision (P x)} a n w l :
  filter P (seq a n) = w :: l → ∀ j, (a <= j < w)%nat → ¬ P j.
Proof.
  revert a. induction n as [|n IH]; intros a; [done|]. cbn [seq]. rewrite filter_cons.
  case_decide as Ha; [intros [= -> _]; lia|]. intros Hl j Hj. destruct (decide (j = a)) as [->|]; [done|].
  apply (IH (S a)); [done|lia].
Qed.

Lemma given_app T l1 l2 : given T (l1 ++ l2) = given T l1 ++ given T l2.
Proof. apply omap_app. Qed.

Lemma given_cons T p l : given T (p :: l) = given T [p] ++ given T l.
Proof. apply (given_app T [p]). Qed.

Lemma given_nil T l : (∀ k m, l !! k ≠ Some (Promise.mk T (resolved m))) → given T l = [].
Proof.
  induction l as [|[type s] l IH]; intros Hl; [done|]. unfold given. csimpl.
  rewrite <-(IH (λ k m, Hl (S k) m)). destruct s as [|m|]; [done| |done].
  case_decide; [|done]. subst. by destruct (Hl 0%nat m).
Qed.

(** Resolving the oldest pending promise of a type appends to what the promises
    of that type were given. *)
Lemma given_resolve T T' ps w m :
  is_pending T ps w → (∀ k m, (w < k)%nat → ps !! k ≠ Some (Promise.mk T (resolved m))) →
  given T' (alter (Promise.settle (resolved m)) w ps) =
  given T' ps ++ (if decide (T' = T) then [m] else []).
Proof.
  intros Hw Hlater. rewrite <-(take_drop_middle _ _ _ Hw) at 1 2.
  assert (length (take w ps) = w) as Hlen
    by (apply length_take_le; pose proof (lookup_lt_Some _ _ _ Hw); lia).
  rewrite <-Hlen at 1. rewrite <-(Nat.add_0_r (length (take w ps))), alter_app_r.
  rewrite !given_app. cbn [alter list_alter].
  rewrite (given_cons _ (Promise.settle _ _)), (given_cons _ (Promise.mk T pending)).
  case_decide as HT.
  - subst T'. assert (given T (drop (S w) ps) = []) as Hnil.
    { apply given_nil. intros k m'. rewrite lookup_drop. apply Hlater. lia. }
    rewrite Hnil, !app_nil_r. f_equal. unfold given. simpl. by rewrite decide_True.
  - rewrite app_nil_r. f_equal. f_equal. unfold given. simpl. by rewrite decide_False.
Qed.

(** ** Each call *)

Lemma set_delete_absent (l : list nat) x : x ∉ l → set_delete l x = l.
Proof.
  intros Hx. unfold set_delete. rewrite (filter_ext_elem _ (λ _, True)); [|naive_solver].
  clear Hx. induction l as [|y l IH]; [done|]. by rewrite filter_cons, decide_True, IH.
Qed.

Lemma cleanup_promises T id i : promises (cleanup T id i) = promises i.
Proof. by destruct i. Qed.

Lemma cleanup_queued T id i : queued (cleanup T id i) = queued i.
Proof. by destruct i. Qed.

Lemma cleanup_rejecters T id i : rejecters (cleanup T id i) = set_delete (rejecters i) id.
Proof. by destruct i. Qed.

Lemma cleanup_waiters T T' id i :
  default [] (waiters (cleanup T id i) !! T') =
  if decide (T' = T) then set_delete (default [] (waiters i !! T)) id
  else default [] (waiters i !! T').
Proof.
  destruct i as [h q w f r p]. unfold cleanup; simpl. case_decide as HT.
  - subst. destruct (w !! T) as [l|] eqn:Hl; [by rewrite lookup_insert_eq|by rewrite Hl].
  - destruct (w !! T); [by rewrite lookup_insert_ne|done].
Qed.

(** What a promise that settled, or a new one, leaves of the lists. *)
Lemma settle_other T T' ps id : is_pending T ps id → T' ≠ T → set_delete (pending_ids T' ps) id = pending_ids T' ps.
Proof.
  intros Hp HT. apply set_delete_absent. rewrite elem_of_pending_ids. unfold is_pending in *. congruence.
Qed.

Lemma ok_reject T id e i :
  inbox_ok i → is_pending T (promises i) id →
  let i' := reject T id e i in
  inbox_ok i' ∧ queued i' = queued i ∧ (∀ T', given T' (promises i') = given T' (promises i)) ∧
  ∀ T' j, is_pending T' (promises i') j ↔ is_pending T' (promises i) j ∧ j ≠ id.
Proof.
  intros [Hw Hr Hnd Hi Ho] Hp i'.
  assert (promises i' = alter (Promise.settle (failed_with e)) id (promises i)) as Hps by by destruct i.
  assert (queued i' = queued i) as Hq by by destruct i.
  split_and!; [split|done| |].
  - intros T'. assert (waiters i' = waiters (cleanup T id i)) as -> by by destruct i.
    rewrite cleanup_waiters, Hps, pending_ids_settle by done. case_decide as HT.
    + subst. by rewrite Hw.
    + by rewrite Hw, (settle_other T).
  - intros j. assert (rejecters i' = set_delete (rejecters i) id) as -> by by destruct i.
    rewrite elem_of_set_delete, Hr, Hps. setoid_rewrite settle_pending; [|done]. naive_solver.
  - assert (rejecters i' = set_delete (rejecters i) id) as -> by by destruct i.
    by apply NoDup_filter.
  - intros T'. rewrite Hq, Hps, pending_ids_settle by done. destruct (Hi T') as [|Hnil]; [by left|].
    right. by rewrite Hnil.
  - intros T' j k m. rewrite Hps, settle_pending by done. intros [Hj Hne] Hk.
    destruct (decide (k = id)) as [->|Hid].
    + rewrite list_lookup_alter_eq, Hp. done.
    + rewrite list_lookup_alter_ne by done. by apply (Ho T' j).
  - intros T'. rewrite Hps. apply given_fail.
  - intros T' j. rewrite Hps. by apply settle_pending.
Qed.

Lemma ok_reject_ids e l i :
  inbox_ok i →
  let i' := foldl (reject_id e) i l in
  (∀ id, id ∈ l → ∃ T, is_pending T (promises i) id) → NoDup l →
  inbox_ok i' ∧ queued i' = queued i ∧ (∀ T, given T (promises i') = given T (promises i)) ∧
  ∀ T j, is_pending T (promises i') j ↔ is_pending T (promises i) j ∧ j ∉ l.
Proof.
  revert i. induction l as [|id l IH]; intros i Hi i' Hl Hnd; cbn [foldl] in i'.
  { split_and!; try done. set_solver. }
  apply NoDup_cons in Hnd as [Hid Hnd]. destruct (Hl id) as [T Hp]; [by left|].
  assert (reject_id e i id = reject T id e i) as Hrej by by unfold reject_id; rewrite Hp.
  destruct (ok_reject T id e i Hi Hp) as (Hi1&Hq1&Hg1&Hp1).
  destruct (IH (reject_id e i id)) as (Hi2&Hq2&Hg2&Hp2); rewrite ?Hrej in *; [done| |done|].
  - intros j Hj. destruct (Hl j) as [Tj Hpj]; [by right|]. exists Tj. apply Hp1. split; [done|].
    by intros ->.
  - subst i'. rewrite Hrej. split_and!; [done|congruence|by intros; rewrite Hg2|].
    intros Tj j. rewrite Hp2, Hp1, not_elem_of_cons. tauto.
Qed.

Lemma ok_fail e i :
  inbox_ok i → inbox_ok (fail e i) ∧ queued (fail e i) = queued i ∧
  ∀ T, given T (promises (fail e i)) = given T (promises i).
Proof.
  intros Hi. unfold fail. cbv zeta. set (f := match failure i with Some _ => _ | None => _ end).
  assert (inbox_ok (set_failure f i)) as Hf by (destruct i, Hi; by split).
  assert (rejecters (set_failure f i) = rejecters i) as -> by by destruct i.
  destruct (ok_reject_ids e (rejecters i) (set_failure f i) Hf) as (Ho&Hq&Hg&Hp).
  { intros id Hid. apply (ok_rejecters _ Hf). by destruct i. }
  { apply Hi. }
  set (i' := foldl _ _ _) in *.
  assert (∀ T j, ¬ is_pending T (promises i') j) as Hnone.
  { intros T j [Hj Hnin]%Hp. apply Hnin. apply (ok_rejecters _ Hi). exists T. by destruct i. }
  assert (promises (set_failure f i) = promises i) as Hsf by by destruct i.
  split_and!.
  - destruct Ho as [Hw Hr Hnd Hidle Hord]. split; destruct i'; simpl in *; try done.
    + intros id. split; [by intros ?%elem_of_nil|]. intros [T Hj]. by destruct (Hnone T id).
    + apply NoDup_nil_2.
  - destruct i', i; simpl in *; done.
  - intros T. rewrite <-Hsf, <-Hg. by destruct i'.
Qed.

Lemma ok_new_promise T s i :
  inbox_ok i → s ≠ pending →
  (∀ m, s = resolved m → pending_ids T (promises i) = []) →
  inbox_ok (new_promise T s i).
Proof.
  intros [Hw Hr Hnd Hi Ho] Hs Hres.
  assert (∀ T', pending_ids T' (promises i ++ [Promise.mk T s]) = pending_ids T' (promises i)) as Hids.
  { intros T'. rewrite pending_ids_snoc, decide_False, app_nil_r; [done|congruence]. }
  assert (∀ T' j, is_pending T' (promises i ++ [Promise.mk T s]) j ↔ is_pending T' (promises i) j) as Hp.
  { intros T' j. by rewrite <-!elem_of_pending_ids, Hids. }
  destruct i as [h q w f r ps]; simpl in *. split; simpl.
  - intros T'. by rewrite Hids.
  - intros id. rewrite Hr. by setoid_rewrite Hp.
  - done.
  - intros T'. by rewrite Hids.
  - intros T' j k m Hj%Hp Hk. destruct (decide (k < length ps)%nat) as [Hlt|Hge].
    + rewrite lookup_app_l by done. by apply (Ho T' j).
    + intros [[? ?]|[-> [= -> ->]]]%lookup_snoc_Some; [lia|].
      apply elem_of_pending_ids in Hj. rewrite (Hres m) in Hj by done. by apply elem_of_nil in Hj.
Qed.

Lemma ok_set_queued T l i :
  inbox_ok i → pending_ids T (promises i) = [] →
  inbox_ok (set_queued (<[T := l]> (queued i)) i).
Proof.
  intros [Hw Hr Hnd Hi Ho] Hnil. destruct i as [h q w f r ps]; simpl in *. split; simpl; try done.
  intros T'. destruct (decide (T' = T)) as [->|]; [by right|]. by rewrite lookup_insert_ne.
Qed.

Lemma ok_set_handlers x i : inbox_ok i → inbox_ok (set_handlers x i).
Proof. by intros [] ; destruct i; split. Qed.

Lemma ok_delete_queue T i : inbox_ok i → inbox_ok (set_queued (delete T (queued i)) i).
Proof.
  intros [Hw Hr Hnd Hi Ho]. destruct i as [h q w f r ps]; simpl in *. split; simpl; try done.
  intros T'. destruct (decide (T' = T)) as [->|]; [left; by rewrite lookup_delete_eq|].
  by rewrite lookup_delete_ne.
Qed.

(** Giving a message to the oldest waiter of its type. *)
Definition resolve_waiter (T : string) (w : nat) (l : list nat) (m : ProtocolMessage)
    (i : ControlInbox.t) : ControlInbox.t :=
  settle w (resolved m) (cleanup T w (set_waiters (<[T := l]> (waiters i)) i)).

Lemma ok_resolve_waiter T w l m i :
  inbox_ok i → waiters i !! T = Some (w :: l) →
  let i' := resolve_waiter T w l m i in
  inbox_ok i' ∧ queued i' = queued i ∧
  ∀ T', given T' (promises i') = given T' (promises i) ++ (if decide (T' = T) then [m] else []).
Proof.
  intros [Hw Hr Hnd Hi Ho] Hwl i'.
  assert (promises i' = alter (Promise.settle (resolved m)) w (promises i)) as Hps by by destruct i.
  assert (queued i' = queued i) as Hq by by destruct i.
  assert (pending_ids T (promises i) = w :: l) as Hids by (rewrite <-Hw; by rewrite Hwl).
  assert (is_pending T (promises i) w) as Hp.
  { apply elem_of_pending_ids. rewrite Hids. by left. }
  assert (set_delete (w :: l) w = set_delete l w) as Hdel.
  { unfold set_delete. rewrite filter_cons, decide_False; [done|]. by intros []. }
  split_and!; [split|done|].
  - intros T'.
    assert (waiters i' = waiters (cleanup T w (set_waiters (<[T := l]> (waiters i)) i))) as ->
      by by destruct i.
    rewrite cleanup_waiters, Hps, pending_ids_settle by done.
    assert (waiters (set_waiters (<[T := l]> (waiters i)) i) = <[T := l]> (waiters i)) as ->
      by by destruct i.
    case_decide as HT.
    + subst. by rewrite lookup_insert_eq, Hids, Hdel.
    + by rewrite lookup_insert_ne, Hw, (settle_other T).
  - intros j. assert (rejecters i' = set_delete (rejecters i) w) as -> by by destruct i.
    rewrite elem_of_set_delete, Hr, Hps. setoid_rewrite settle_pending; [|done]. naive_solver.
  - assert (rejecters i' = set_delete (rejecters i) w) as -> by by destruct i.
    by apply NoDup_filter.
  - intros T'. rewrite Hq, Hps, pending_ids_settle by done. destruct (Hi T') as [|Hnil]; [by left|].
    right. by rewrite Hnil.
  - intros T' j k m'. rewrite Hps, settle_pending by done. intros [Hj Hne] Hk.
    destruct (decide (k = w)) as [->|Hid].
    + destruct (decide (T' = T)) as [->|HT].
      * destruct (filter_seq_first _ _ _ _ _ Hids j); [lia|done].
      * rewrite list_lookup_alter_eq, Hp. simpl. unfold Promise.settle. simpl. congruence.
    + rewrite list_lookup_alter_ne by done. by apply (Ho T' j).
  - intros T'. rewrite Hps. apply given_resolve; [done|]. intros k m'. by apply (Ho T w).
Qed.

(** What one call does to the messages of a type that has no handler: those its
    promises were given, then those queued. *)
Definition kept (T : string) (i : ControlInbox.t) : list ProtocolMessage :=
  given T (promises i) ++ default [] (queued i !! T).

Lemma accept_cases raw i :
  match parseMessage raw with
  | parsed m =>
      (type_of m = "error" ∧ ∃ e, accept raw i = (fail e i, None)) ∨
      (type_of m ∈ handlers i ∧ accept raw i = (i, Some m)) ∨
      (∃ w l, waiters i !! type_of m = Some (w :: l) ∧
         accept raw i = (resolve_waiter (type_of m) w l m i, None)) ∨
      (default [] (waiters i !! type_of m) = [] ∧ accept raw i =
         (set_queued (<[type_of m := default [] (queued i !! type_of m) ++ [m]]> (queued i)) i, None))
  | refused _ _ => ∃ e, accept raw i = (fail e i, None)
  end.
Proof.
  unfold accept, resolve_waiter. destruct (parseMessage raw) as [m|code reason]; [|by eexists].
  destruct m; try (by left; split; [|eexists]); right.
  all: case_decide; [by left|right].
  all: destruct (waiters i !! _) as [[|w l]|]; [by right|left; by do 2 eexists|by right].
Qed.

Lemma ok_accept raw i :
  inbox_ok i → inbox_ok (accept raw i).1 ∧
  ∀ T, T ≠ "error" → T ∉ handlers i →
    kept T (accept raw i).1 = kept T i ++ option_list (arrived T (Accept raw)).
Proof.
  intros Hi. pose proof (accept_cases raw i) as Hc. unfold kept. cbn [arrived].
  destruct (parseMessage raw) as [m|code reason].
  2:{ destruct Hc as [e ->]. destruct (ok_fail e i Hi) as (?&Hq&Hg). split; [done|]. intros T _ _.
      simpl. by rewrite Hq, Hg, app_nil_r. }
  destruct Hc as [[Herr [e ->]]|[[Hh ->]|[(w&l&Hw&->)|[Hw ->]]]]; simpl.
  - destruct (ok_fail e i Hi) as (?&Hq&Hg). split; [done|]. intros T HT _.
    rewrite Hq, Hg, decide_False by congruence. by rewrite app_nil_r.
  - split; [done|]. intros T _ HT. rewrite decide_False by congruence. by rewrite app_nil_r.
  - destruct (ok_resolve_waiter _ w l m i Hi Hw) as (?&Hq&Hg). split; [done|]. intros T _ _.
    rewrite Hq, Hg. destruct (decide (T = type_of m)) as [->|HT].
    + rewrite (decide_True _ _ eq_refl). destruct (ok_idle _ Hi (type_of m)) as [->|Hnil].
      * by rewrite !app_nil_r.
      * rewrite <-(ok_waiters _ Hi), Hw in Hnil. done.
    + rewrite (decide_False (P := type_of m = T)) by congruence. by rewrite !app_nil_r.
  - split.
    + apply ok_set_queued; [done|]. by rewrite <-(ok_waiters _ Hi).
    + intros T _ _. destruct i as [h q ws f r ps]; simpl in *.
      destruct (decide (type_of m = T)) as [<-|HT].
      * by rewrite lookup_insert_eq, <-app_assoc.
      * by rewrite lookup_insert_ne, app_nil_r.
Qed.

Lemma given_snoc T ps T' s :
  given T (ps ++ [Promise.mk T' s]) = given T ps ++
    match s with resolved m => if decide (T' = T) then [m] else [] | _ => [] end.
Proof. rewrite given_app. f_equal. unfold given. simpl. destruct s; [done| |done]. by case_decide. Qed.

Lemma expect_cases T i :
  (∃ e, expect T i = new_promise T (failed_with e) i) ∨
  (∃ m l, queued i !! T = Some (m :: l) ∧
     expect T i = new_promise T (resolved m) (set_queued (<[T := l]> (queued i)) i)) ∨
  (default [] (queued i !! T) = [] ∧
     let id := length (promises i) in
     expect T i = new_promise T pending
       (set_waiters (<[T := default [] (waiters i !! T) ++ [id]]> (waiters i))
          (set_rejecters (set_add (rejecters i) id) i))).
Proof.
  unfold expect. destruct (failure i); [left; by eexists|]. case_decide; [left; by eexists|right].
  destruct (queued i !! T) as [[|m l]|]; [by right|left; by do 2 eexists|by right].
Qed.

Lemma ok_wait T i :
  inbox_ok i → default [] (queued i !! T) = [] →
  inbox_ok (new_promise T pending
    (set_waiters (<[T := default [] (waiters i !! T) ++ [length (promises i)]]> (waiters i))
       (set_rejecters (set_add (rejecters i) (length (promises i))) i))).
Proof.
  intros [Hw Hr Hnd Hi Ho] Hq. destruct i as [h q ws f r ps]; simpl in *.
  assert (∀ T' j, is_pending T' (ps ++ [Promise.mk T pending]) j ↔
    is_pending T' ps j ∨ (T' = T ∧ j = length ps)) as Hp.
  { intros T' j. rewrite <-!elem_of_pending_ids, pending_ids_snoc, elem_of_app.
    case_decide; simplify_eq; set_solver. }
  split; simpl.
  - intros T'. rewrite pending_ids_snoc. destruct (decide (T' = T)) as [->|HT].
    + by rewrite lookup_insert_eq, decide_True, Hw.
    + rewrite lookup_insert_ne, Hw, decide_False, app_nil_r by congruence. done.
  - intros id. rewrite elem_of_set_add, Hr. setoid_rewrite Hp. naive_solver.
  - by apply set_add_NoDup.
  - intros T'. destruct (decide (T' = T)) as [->|HT]; [by left|].
    rewrite pending_ids_snoc, decide_False, app_nil_r by congruence. done.
  - intros T' j k m Hj%Hp Hk [[? Hkm]|[-> ?]]%lookup_snoc_Some; [|done].
    destruct Hj as [Hj|[-> ->]]; [by apply (Ho T' j k m)|lia].
Qed.

Lemma ok_expect T i :
  inbox_ok i → inbox_ok (expect T i) ∧ ∀ T', kept T' (expect T i) = kept T' i.
Proof.
  intros Hi. unfold kept. destruct (expect_cases T i) as [[e ->]|[(m&l&Hq&->)|[Hq ->]]].
  - split; [by apply ok_new_promise|]. intros T'. destruct i; simpl. by rewrite given_snoc, app_nil_r.
  - assert (pending_ids T (promises i) = []) as Hnil
      by (destruct (ok_idle _ Hi T) as [Hbad|]; [rewrite Hq in Hbad|]; done).
    split.
    + apply ok_new_promise; [by apply ok_set_queued|done|]. intros _ _. by destruct i.
    + intros T'. destruct i as [h q ws f r ps]; simpl in *. rewrite given_snoc.
      destruct (decide (T' = T)) as [->|HT].
      * by rewrite lookup_insert_eq, Hq, decide_True, <-app_assoc.
      * by rewrite lookup_insert_ne, decide_False, app_nil_r.
  - split; [by apply ok_wait|]. intros T'. destruct i; simpl. by rewrite given_snoc, app_nil_r.
Qed.

Lemma ok_time_out id i :
  inbox_ok i → inbox_ok (time_out id i) ∧ ∀ T, kept T (time_out id i) = kept T i.
Proof.
  intros Hi. unfold time_out, kept. destruct (promises i !! id) as [[T [| |]]|] eqn:Hp; [|done..].
  destruct (ok_reject T id (SessionError.mk timeout ("timed out waiting for " +:+ T)%string) i Hi Hp)
    as (?&Hq&Hg&_).
  split; [done|]. intros T'. by rewrite Hq, Hg.
Qed.

Lemma reject_handlers T id e i : handlers (reject T id e i) = handlers i.
Proof. by destruct i. Qed.

Lemma fail_handlers e i : handlers (fail e i) = handlers i.
Proof.
  unfold fail. cbv zeta. generalize (match failure i with Some e' => Some e' | None => Some e end).
  intros f. assert (handlers (set_failure f i) = handlers i) as <- by by destruct i.
  generalize (set_failure f i). intros i0. generalize (rejecters i0) at 1. intros l.
  assert (handlers (foldl (reject_id e) i0 l) = handlers i0) as <-.
  { revert i0. induction l as [|x l IH]; intros i0; [done|]. simpl. rewrite IH. unfold reject_id.
    destruct (promises i0 !! x); [by destruct i0|done]. }
  by destruct (foldl _ _ _).
Qed.

(** Only [on] registers handlers. *)
Lemma run_op_handlers i op :
  handlers (run_op i op) = match op with On T => {[T]} ∪ handlers i | _ => handlers i end.
Proof.
  destruct op as [raw|T|T|id|e]; cbn [run_op].
  - pose proof (accept_cases raw i) as Hc. destruct (parseMessage raw) as [m|? ?].
    + destruct Hc as [[_ [e ->]]|[[_ ->]|[(w&l&_&->)|[_ ->]]]]; [apply fail_handlers|done|by destruct i..].
    + destruct Hc as [e ->]. apply fail_handlers.
  - by destruct i.
  - destruct (expect_cases T i) as [[e ->]|[(m&l&_&->)|[_ ->]]]; by destruct i.
  - unfold time_out. by destruct (promises i !! id) as [[T [| |]]|]; [destruct i| | |].
  - apply fail_handlers.
Qed.

Lemma ok_run_op T i op :
  inbox_ok i → T ≠ "error" → T ∉ handlers i → op ≠ On T →
  inbox_ok (run_op i op) ∧ kept T (run_op i op) = kept T i ++ option_list (arrived T op).
Proof.
  intros Hi HT Hh Hop. destruct op as [raw|T'|T'|id|e]; cbn [run_op].
  - destruct (ok_accept raw i Hi) as [? Hk]. split; [done|by apply Hk].
  - split.
    { pose proof (ok_delete_queue T' _ (ok_set_handlers ({[T']} ∪ handlers i) i Hi)) as Hd.
      by destruct i. }
    destruct i as [h q w f r ps].
    unfold kept. simpl. rewrite lookup_delete_ne, app_nil_r; [done|congruence].
  - destruct (ok_expect T' i Hi) as [? Hk]. split; [done|]. by rewrite Hk, app_nil_r.
  - destruct (ok_time_out id i Hi) as [? Hk]. split; [done|]. by rewrite Hk, app_nil_r.
  - destruct (ok_fail e i Hi) as (?&Hq&Hg). split; [done|]. unfold kept. by rewrite Hq, Hg, app_nil_r.
Qed.

Lemma ok_run T ops i :
  inbox_ok i → T ≠ "error" → T ∉ handlers i → On T ∉ ops →
  inbox_ok (foldl run_op i ops) ∧ kept T (foldl run_op i ops) = kept T i ++ omap (arrived T) ops.
Proof.
  intros Hi HT Hh Hops. revert i Hi Hh. induction ops as [|op ops IH]; intros i Hi Hh.
  { split; [done|by rewrite app_nil_r]. }
  apply not_elem_of_cons in Hops as [Hop Hops].
  destruct (ok_run_op T i op Hi HT Hh) as [Hi' Hk]; [congruence|]. cbn [foldl].
  destruct (IH Hops (run_op i op) Hi') as [Hok Hkept].
  { rewrite run_op_handlers. destruct op; [done| |done..]. set_solver. }
  split; [done|]. rewrite Hkept, Hk, <-app_assoc. csimpl. f_equal. by destruct (arrived T op).
Qed.

Lemma inbox_new_ok : inbox_ok ControlInbox.new.
Proof.
  split; simpl; try done; [|apply NoDup_nil_2|by left].
  intros id. split; [by intros ?%elem_of_nil|]. by intros [T Hp].
Qed.

(** ** Properties *)

(** No control message is lost, repeated or reordered.  Whatever payloads
    arrive, whatever is awaited, and whichever waits time out or fail, in any
    order: the messages of a type without a handler that arrived are, in order,
    those that the promises of that type were given, oldest promise first,
    followed by those still queued; and while one is queued, no promise of the
    type is waiting. *)
Theorem inbox_fifo (T : string) (ops : list InboxOp)
    (HT : T ≠ "error") (Hops : On T ∉ ops) :
  let i := foldl run_op ControlInbox.new ops in
  omap (arrived T) ops = given T (promises i) ++ default [] (queued i !! T) ∧
  (default [] (queued i !! T) = [] ∨
   ∀ id p, promises i !! id = Some p → Promise.type p = T → Promise.state p ≠ pending).
Proof.
  intros i. destruct (ok_run T ops _ inbox_new_ok HT) as [Hok Hk]; [by apply not_elem_of_empty|done|].
  fold i in Hok, Hk. split; [exact (eq_sym Hk)|]. destruct (ok_idle _ Hok T) as [|Hnil]; [by left|right].
  intros id [type s] Hp Htype Hs. simpl in *. subst.
  assert (id ∈ pending_ids T (promises i)) as Hin by by apply elem_of_pending_ids.
  rewrite Hnil in Hin. by apply elem_of_nil in Hin.
Qed.

Lemma inbox_fifo_witness :
  let bye := encodeMessage Bye in
  let i := foldl run_op ControlInbox.new [Expect "bye"; Accept bye; TimeOut 0; Accept bye] in
  given "bye" (promises i) = [Bye] ∧ default [] (queued i !! "bye") = [Bye] ∧
  [Bye; Bye] = given "bye" (promises i) ++ default [] (queued i !! "bye").
Proof.
  split; [vm_compute; reflexivity|]. split; [vm_compute; reflexivity|].
  refine (proj1 (inbox_fifo "bye" [Expect "bye"; Accept (encodeMessage Bye); TimeOut 0;
    Accept (encodeMessage Bye)] _ _)); [discriminate|].
  rewrite !not_elem_of_cons. repeat split; try discriminate. apply not_elem_of_nil.
Defined.
