(* ===== verification/ProtocolProps.v ===== *)
(** * The control-channel protocol: properties

    Whatever text a peer sends, an accepted message is within the caps; and a
    message a device may send is accepted as it was sent. *)

From S2P Require Import Prelude Model JsString Json JsonProps Protocol.
From Stdlib Require Ascii.

Open Scope Z_scope.

(** ** What the caps promise *)

Definition bounded_str (s : string) : Prop := 0 < str_length s <= LIMITS.maxStringLength.

Definition sha256_text (s : string) : Prop :=
  length (chars s) = 64%nat ∧ Forall (λ c, is_lower_hex (charCode c) = true) (chars s).

Definition short {A} (limit : Z) (l : list A) : Prop := Z.of_nat (length l) <= limit.

Definition bounded_parents (l : list RevisionId) : Prop :=
  short LIMITS.maxParentsPerRevision l ∧ Forall bounded_str l.

Definition bounded_entry (e : HistorySummaryEntry.t) : Prop :=
  bounded_str (HistorySummaryEntry.revisionId e) ∧ sha256_text (HistorySummaryEntry.hash e) ∧
  0 <= HistorySummaryEntry.sizeBytes e <= LIMITS.maxRevisionBytes ∧
  bounded_parents (HistorySummaryEntry.parentIds e).

Definition on_option {A} (P : A → Prop) (o : option A) : Prop :=
  match o with None => True | Some a => P a end.

Definition within_limits (m : ProtocolMessage) : Prop :=
  match m with
  | Hello _ deviceId deviceName publicKey nonce =>
      Forall bounded_str [deviceId; deviceName; publicKey; nonce]
  | Auth signature => bounded_str signature
  | VaultSummary vaultId vaultName head count =>
      bounded_str vaultId ∧ bounded_str vaultName ∧ on_option bounded_str head ∧ 0 <= count
  | HistorySummary vaultId revisions =>
      bounded_str vaultId ∧ short LIMITS.maxHistoryNodes revisions ∧
      Forall bounded_entry revisions
  | WantRevisions vaultId ids =>
      bounded_str vaultId ∧ short LIMITS.maxWantedRevisions ids ∧ Forall bounded_str ids
  | RevisionHeaderMessage h =>
      bounded_str (RevisionHeader.vaultId h) ∧ bounded_str (RevisionHeader.revisionId h) ∧
      sha256_text (RevisionHeader.hash h) ∧ 0 <= RevisionHeader.transferSeq h ∧
      0 <= RevisionHeader.sizeBytes h <= LIMITS.maxRevisionBytes ∧
      0 <= RevisionHeader.totalChunks h <= LIMITS.maxChunks ∧
      bounded_parents (RevisionHeader.parentIds h) ∧
      on_option bounded_str (RevisionHeader.message h)
  | RevisionAck revisionId _ reason =>
      bounded_str revisionId ∧
      on_option (λ r, ∃ whole, r = slice whole 0 LIMITS.maxStringLength) reason
  | TransferCancel seq reason => 0 <= seq ∧ bounded_str reason
  | SyncComplete vaultId => bounded_str vaultId
  | Bye => True
  | ErrorMessage _ message => message = "" ∨ bounded_str message
  end.

(** ** The checked fields *)

#[local] Arguments str : simpl never.
#[local] Arguments hex64 : simpl never.
#[local] Arguments isCount : simpl never.
#[local] Arguments isCountUpTo : simpl never.
#[local] Arguments strings : simpl never.

Lemma str_spec v s : str v = Some s ↔ v = Some (JStr s) ∧ bounded_str s.
Proof.
  unfold str, bounded_str. destruct v as [[]|]; try naive_solver.
  destruct (Z.eqb_spec (str_length s0) 0) as [H0|H0]; simpl.
  { split; [done|]. intros [[= ->] ?]. lia. }
  destruct (Z.ltb_spec LIMITS.maxStringLength (str_length s0)) as [H|H].
  { split; [done|]. intros [[= ->] ?]. lia. }
  assert (0 <= str_length s0) by (unfold str_length; lia).
  split; [intros [= ->]; split; [done|lia]|by intros [[= ->] _]].
Qed.

Lemma hex64_spec v s : hex64 v = Some s ↔ v = Some (JStr s) ∧ sha256_text s.
Proof.
  unfold hex64, sha256_text. destruct v as [[]|]; try naive_solver.
  destruct (Nat.eqb_spec (length (chars s0)) 64) as [H|H]; simpl; [|naive_solver].
  destruct (forallb _ _) eqn:Hb.
  - rewrite forallb_forall in Hb. split; [|by intros [[= ->] _]].
    intros [= ->]. split; [done|]. split; [done|]. apply Forall_forall. intros c Hc.
    apply Hb. by apply list_elem_of_In.
  - split; [done|]. intros [[= ->] [_ Hf]]. exfalso. apply not_true_iff_false in Hb. apply Hb.
    apply forallb_forall. intros c Hc%list_elem_of_In. by eapply Forall_forall in Hf.
Qed.

Lemma isCount_spec v z : isCount v = Some z ↔ v = Some (jint z) ∧ 0 <= z.
Proof.
  unfold isCount, integer, jint. destruct v as [[| |[z'|]| | |]|]; try naive_solver.
  destruct (Z.leb_spec 0 z'); split; try done.
  - by intros [= ->].
  - by intros [[= ->] _].
  - intros [[= ->] ?]. lia.
Qed.

Lemma isCountUpTo_spec limit v z :
  isCountUpTo limit v = Some z ↔ v = Some (jint z) ∧ 0 <= z <= limit.
Proof.
  unfold isCountUpTo. destruct (isCount v) as [z'|] eqn:Hc.
  - apply isCount_spec in Hc as [-> Hz]. destruct (Z.ltb_spec limit z').
    + split; [done|]. intros [[= ->] ?]. lia.
    + split; [by intros [= ->]|by intros [[= ->] _]].
  - split; [done|]. intros [-> ?]. assert (isCount (Some (jint z)) = Some z); [|congruence].
    apply isCount_spec. split; [done|lia].
Qed.

Lemma strings_spec l ss : strings l = Some ss ↔ l = jstr <$> ss ∧ Forall bounded_str ss.
Proof.
  unfold strings. revert ss. induction l as [|j l IH]; intros ss; csimpl.
  - split; [by intros [= <-]|]. destruct ss; [done|]. by intros [? _].
  - split.
    + intros (s&Hs&(ss'&Hl&[= <-])%bind_Some)%bind_Some.
      apply str_spec in Hs as [[= ->] ?]. destruct (proj1 (IH ss') Hl) as [-> ?].
      split; [done|]. by constructor.
    + intros [Heq Hall]. destruct ss as [|s ss]; [done|]. injection Heq as -> Heq.
      apply Forall_cons in Hall as [Hs Hss].
      apply bind_Some. exists s. split; [by apply str_spec|].
      apply bind_Some. exists ss. split; [by apply IH|done].
Qed.

Lemma require_parsed {A} (v : option A) o k m :
  (∀ m', o ≠ parsed m') → require v o k = parsed m → ∃ a, v = Some a ∧ k a = parsed m.
Proof. destruct v; simpl; [eauto|]. intros Ho Hm. by destruct (Ho m). Qed.

(** Unfold a successful parse into the checks it made. *)
Ltac inv_parse :=
  repeat match goal with
  | H : require _ _ _ = parsed _ |- _ => apply require_parsed in H as (?&?&H); [|done]
  | H : parsed _ = parsed _ |- _ => injection H as H
  | H : str _ = Some _ |- _ => apply str_spec in H as [??]
  | H : hex64 _ = Some _ |- _ => apply hex64_spec in H as [??]
  | H : isCount _ = Some _ |- _ => apply isCount_spec in H as [??]
  | H : isCountUpTo _ _ = Some _ |- _ => apply isCountUpTo_spec in H as [??]
  | H : strings _ = Some _ |- _ => apply strings_spec in H as [??]
  | H : match str ?v with _ => _ end = parsed _ |- _ => destruct (str v) eqn:?; [|done]
  | H : match hex64 ?v with _ => _ end = parsed _ |- _ => destruct (hex64 v) eqn:?; [|done]
  | H : match boolean ?v with _ => _ end = parsed _ |- _ => destruct (boolean v) eqn:?; [|done]
  end.

Lemma default_str_bounded d v : bounded_str d → bounded_str (default d (str v)).
Proof. intros Hd. destruct (str v) eqn:Hs; [|done]. by apply str_spec in Hs as [_ ?]. Qed.

Lemma bounded_array_spec limit v l :
  bounded_array limit v = Some l ↔ v = Some (JArr l) ∧ short limit l.
Proof.
  unfold bounded_array, isArray, short. destruct v as [[| | | |l'|]|]; try naive_solver.
  destruct (Z.ltb_spec limit (Z.of_nat (length l'))).
  - split; [done|]. intros [[= ->] ?]. lia.
  - split; [by intros [= ->]|by intros [[= ->] _]].
Qed.

Lemma short_fmap {A B} (f : A → B) limit l : short limit (f <$> l) ↔ short limit l.
Proof. unfold short. by rewrite length_fmap. Qed.

Lemma parse_entry_spec row e :
  parse_entry row = inl e ↔
  bounded_entry e ∧ ∃ fields, row = JObj fields ∧
    member "revisionId" fields = Some (jstr (HistorySummaryEntry.revisionId e)) ∧
    member "hash" fields = Some (jstr (HistorySummaryEntry.hash e)) ∧
    member "sizeBytes" fields = Some (jint (HistorySummaryEntry.sizeBytes e)) ∧
    member "parentIds" fields = Some (jstrs (HistorySummaryEntry.parentIds e)).
Proof.
  unfold parse_entry, bounded_entry, bounded_parents. split.
  - destruct row as [| | | | |fields]; try done.
    destruct (str _) as [id|] eqn:Hid; [|done]. destruct (hex64 _) as [h|] eqn:Hh; [|done].
    destruct (isCountUpTo _ _) as [n|] eqn:Hn; [|done].
    destruct (isArray _) as [ps|] eqn:Hps; [|done].
    destruct (Z.ltb_spec LIMITS.maxParentsPerRevision (Z.of_nat (length ps))); [done|].
    destruct (strings ps) as [ids|] eqn:Hids; [|done]. intros [= <-]. inv_parse. subst ps.
    unfold short in *. rewrite length_fmap in *. simpl. split; [done|].
    exists fields. split_and!; try done. unfold isArray in Hps. by repeat case_match; simplify_eq.
  - intros ((Hid&Hh&Hn&Hs&Hps)&fields&->&Eid&Eh&En&Eps). rewrite Eid, Eh, En, Eps.
    rewrite (proj2 (str_spec _ (HistorySummaryEntry.revisionId e))) by done.
    rewrite (proj2 (hex64_spec _ (HistorySummaryEntry.hash e))) by done.
    rewrite (proj2 (isCountUpTo_spec _ _ (HistorySummaryEntry.sizeBytes e))) by done. simpl.
    unfold short in Hs. rewrite length_fmap.
    destruct (Z.ltb_spec LIMITS.maxParentsPerRevision
      (Z.of_nat (length (HistorySummaryEntry.parentIds e)))); [lia|].
    rewrite (proj2 (strings_spec _ (HistorySummaryEntry.parentIds e))) by done. by destruct e.
Qed.

Lemma parse_entries_bounded rows es :
  parse_entries rows = inl es → Forall bounded_entry es ∧ length es = length rows.
Proof.
  revert es. induction rows as [|row rows IH]; intros es; simpl; [by intros [= <-]|].
  destruct (parse_entry row) as [e|] eqn:He; [|done].
  destruct (parse_entries rows) as [es'|]; [|done]. intros [= <-].
  apply parse_entry_spec in He as [He _]. destruct (IH es' eq_refl) as [Hes Hlen].
  split; [by constructor|]. simpl. by rewrite Hlen.
Qed.

Lemma parse_entries_entry_json es :
  Forall bounded_entry es → parse_entries (entry_json <$> es) = inl es.
Proof.
  induction 1 as [|e es He _ IH]; [done|]. rewrite fmap_cons. cbn [parse_entries].
  rewrite (proj2 (parse_entry_spec (entry_json e) e)); [by rewrite IH|].
  split; [done|]. by eexists.
Qed.

Lemma no_parsed_entry row o m : parse_entry row = inr o → o ≠ parsed m.
Proof. unfold parse_entry. repeat case_match; by intros [= <-]. Qed.

Lemma no_parsed_entries rows o m : parse_entries rows = inr o → o ≠ parsed m.
Proof.
  induction rows as [|row rows IH]; simpl; [done|].
  destruct (parse_entry row) eqn:He; [|intros [= <-]; by eapply no_parsed_entry].
  destruct (parse_entries rows); [done|]. intros [= <-]. by apply IH.
Qed.

(** ** Acceptance *)

Lemma bounded_default_vault : bounded_str "Shared vault".
Proof. by_compute. Qed.

Lemma bounded_cancelled : bounded_str "cancelled".
Proof. by_compute. Qed.

(** The parser that [parseMessage] chooses for a message type. *)
Definition dispatch (type : string) (value : list (string * json)) : ParseOutcome :=
  if decide (type = "hello") then parseHello value
  else if decide (type = "auth") then parseAuth value
  else if decide (type = "vault-summary") then parseVaultSummary value
  else if decide (type = "history-summary") then parseHistorySummary value
  else if decide (type = "want-revisions") then parseWantRevisions value
  else if decide (type = "revision-header") then parseRevisionHeader value
  else if decide (type = "revision-ack") then parseRevisionAck value
  else if decide (type = "transfer-cancel") then parseTransferCancel value
  else if decide (type = "sync-complete") then parseSyncComplete value
  else if decide (type = "bye") then parsed Bye
  else if decide (type = "error") then parseError value
  else malformed ("unknown message type " +:+ type)%string.

Lemma parseMessage_dispatch raw value type :
  JSON_parse raw = Some (JObj value) → member "type" value = Some (JStr type) →
  parseMessage raw = dispatch type value.
Proof. unfold parseMessage. by intros -> ->. Qed.

Lemma parseMessage_inv raw m :
  parseMessage raw = parsed m → ∃ type value, dispatch type value = parsed m.
Proof.
  unfold parseMessage. destruct (JSON_parse raw) as [[| | | | |value]|]; try done.
  destruct (member "type" value) as [[| | |type| |]|]; try done.
  intros Hm. by exists type, value.
Qed.

Lemma parseHistorySummary_bounded value m :
  parseHistorySummary value = parsed m → within_limits m.
Proof.
  unfold parseHistorySummary. intros H. inv_parse.
  destruct (Z.ltb_spec LIMITS.maxHistoryNodes (Z.of_nat (length x0))); [done|].
  destruct (parse_entries x0) as [es|o] eqn:He; [|by apply (no_parsed_entries _ _ m) in He].
  injection H as <-. apply parse_entries_bounded in He as [Hes Hlen].
  simpl. unfold short. rewrite Hlen. done.
Qed.

Lemma parseRevisionHeader_bounded value m :
  parseRevisionHeader value = parsed m → within_limits m.
Proof.
  unfold parseRevisionHeader. intros H. inv_parse.
  match goal with H : bounded_array _ _ = Some _ |- _ => apply bounded_array_spec in H as [_ Hs] end.
  subst. rewrite short_fmap in Hs.
  destruct (member "message" value) eqn:?; inv_parse; subst; simpl;
    unfold bounded_parents; done.
Qed.

Lemma dispatch_bounded type value m : dispatch type value = parsed m → within_limits m.
Proof.
  unfold dispatch. intros Hd. repeat case_decide; try done.
  - unfold parseHello in Hd. inv_parse. subst. simpl. by rewrite !Forall_cons, Forall_nil.
  - unfold parseAuth in Hd. inv_parse. by subst.
  - unfold parseVaultSummary in Hd. inv_parse. subst. simpl.
    split_and!; [done|apply default_str_bounded, bounded_default_vault| |done].
    destruct (str (member "headRevisionId" value)) eqn:Hh; [|done]. apply str_spec in Hh. apply Hh.
  - by eapply parseHistorySummary_bounded.
  - unfold parseWantRevisions in Hd. inv_parse.
    destruct (Z.ltb_spec LIMITS.maxWantedRevisions (Z.of_nat (length x0))); [done|].
    inv_parse. subst. simpl. split_and!; [done| |done]. unfold short. by rewrite length_fmap in *.
  - by eapply parseRevisionHeader_bounded.
  - unfold parseRevisionAck in Hd. inv_parse. subst. simpl. split; [done|].
    repeat case_match; simpl; eauto.
  - unfold parseTransferCancel in Hd. inv_parse. subst. simpl.
    split; [done|apply default_str_bounded, bounded_cancelled].
  - unfold parseSyncComplete in Hd. inv_parse. by subst.
  - by injection Hd as <-.
  - unfold parseError in Hd. injection Hd as <-. simpl.
    destruct (str (member "message" value)) eqn:Hs; [|by left]. apply str_spec in Hs. right. apply Hs.
Qed.

(** ** Sending *)

(** What a device may send: a message within the caps whose integers a double
    holds, whose reason, if it acknowledges, is not cut, and whose error text
    is not empty or is. *)
Definition sendable (m : ProtocolMessage) : Prop :=
  within_limits m ∧
  match m with
  | Hello v _ _ _ _ => safe_integer v
  | VaultSummary _ _ _ count => safe_integer count
  | RevisionHeaderMessage h => safe_integer (RevisionHeader.transferSeq h)
  | RevisionAck _ _ (Some reason) => slice reason 0 LIMITS.maxStringLength = reason
  | TransferCancel seq _ => safe_integer seq
  | _ => True
  end.

Lemma safe_jstrs l : safe (jstrs l).
Proof. apply safe_arr, Forall_fmap, Forall_true. done. Qed.

Lemma safe_revision_bytes z : 0 <= z <= LIMITS.maxRevisionBytes → safe_integer z.
Proof. unfold LIMITS.maxRevisionBytes, safe_integer. lia. Qed.

Lemma safe_chunks z : 0 <= z <= LIMITS.maxChunks → safe_integer z.
Proof. unfold LIMITS.maxChunks, safe_integer. lia. Qed.

Lemma safe_entry e : bounded_entry e → safe (entry_json e).
Proof.
  intros (_&_&Hn&_). simpl. split_and!; try done; [by apply safe_revision_bytes|apply safe_jstrs].
Qed.

Lemma safe_message m : sendable m → safe (message_json m).
Proof.
  intros [Hl Hs]. destruct m; simpl in *; try done.
  - destruct headRevisionId; simpl; naive_solver.
  - split_and!; [done..| |done]. apply (safe_arr (entry_json <$> revisions)), Forall_fmap.
    eapply Forall_impl; [apply Hl|]. apply safe_entry.
  - split_and!; [done..|apply safe_jstrs|done].
  - destruct Hl as (_&_&_&_&Hn&Hc&_).
    pose proof (safe_revision_bytes _ Hn). pose proof (safe_chunks _ Hc).
    destruct (RevisionHeader.message header); simpl; split_and!; try done; apply safe_jstrs.
  - by destruct reason.
Qed.

Lemma str_jstr s : bounded_str s → str (Some (jstr s)) = Some s.
Proof. intros. by apply str_spec. Qed.

Lemma hex64_jstr s : sha256_text s → hex64 (Some (jstr s)) = Some s.
Proof. intros. by apply hex64_spec. Qed.

Lemma isCount_jint z : 0 <= z → isCount (Some (jint z)) = Some z.
Proof. intros. by apply isCount_spec. Qed.

Lemma isCountUpTo_jint limit z : 0 <= z <= limit → isCountUpTo limit (Some (jint z)) = Some z.
Proof. intros. by apply isCountUpTo_spec. Qed.

Lemma strings_jstr l : Forall bounded_str l → strings (jstr <$> l) = Some l.
Proof. intros. by apply strings_spec. Qed.

Lemma bounded_array_jstrs limit l :
  short limit l → bounded_array limit (Some (jstrs l)) = Some (jstr <$> l).
Proof. intros. apply bounded_array_spec. by rewrite short_fmap. Qed.

(** Read the fields of an object that was written out. *)
Ltac read_fields :=
  repeat match goal with
  | |- context [member ?k ?l] =>
      let v := eval lazy -[jstr jint jstrs entries_json] in (member k l) in
      change (member k l) with v
  end.

Create Rewrite HintDb protocol.
#[local] Hint Rewrite str_jstr hex64_jstr isCount_jint isCountUpTo_jint strings_jstr
  bounded_array_jstrs using (done || tauto) : protocol.

Lemma short_ltb {A} limit (l : list A) : short limit l → (limit <? Z.of_nat (length l)) = false.
Proof. unfold short. intros. apply Z.ltb_ge. lia. Qed.

Lemma head_known_code code :
  default internal (head (filter (λ known, code_string known = code_string code) known_codes))
  = code.
Proof. by destruct code. Qed.

Lemma bounded_code code : bounded_str (code_string code).
Proof. destruct code; by_compute. Qed.

(** The parser of a message's type on the fields the message is written with. *)
Definition parses_back (m : ProtocolMessage) : Prop :=
  ∃ type fields, message_json m = JObj fields ∧ member "type" fields = Some (JStr type) ∧
    dispatch type fields = parsed m.

Ltac parse_back :=
  eexists _, _; split; [reflexivity|]; split; [reflexivity|];
  match goal with |- dispatch ?t ?f = _ => let p := eval lazy -[parseHello parseAuth
    parseVaultSummary parseHistorySummary parseWantRevisions parseRevisionHeader parseRevisionAck
    parseTransferCancel parseSyncComplete parseError jstr jint jstrs entries_json] in (dispatch t f) in
    change (dispatch t f) with p end.

Lemma header_parses_back h : within_limits (RevisionHeaderMessage h) →
  parses_back (RevisionHeaderMessage h).
Proof.
  destruct h as [seq v r h n ps c [msg|]]; simpl; intros (?&?&?&?&?&?&[??]&?); parse_back;
    unfold parseRevisionHeader; read_fields; autorewrite with protocol; cbn [require];
    autorewrite with protocol; cbn [require]; autorewrite with protocol; reflexivity.
Qed.

Lemma history_parses_back vaultId revisions :
  within_limits (HistorySummary vaultId revisions) →
  parses_back (HistorySummary vaultId revisions).
Proof.
  simpl. intros (?&Hs&He). parse_back. unfold parseHistorySummary. read_fields.
  autorewrite with protocol. cbn [require isArray entries_json]. rewrite length_fmap.
  by rewrite short_ltb, parse_entries_entry_json.
Qed.

Lemma all_parse_back m : sendable m → parses_back m.
Proof.
  intros [Hl Hs].
  destruct m as [v d n p k|s|v n h c|v es|v ids|h|r a o|q r|v| |c s];
    [| | |by apply history_parses_back| |by apply header_parses_back|..]; simpl in Hl, Hs.
  - rewrite !Forall_cons in Hl. destruct Hl as (?&?&?&?&_). parse_back. unfold parseHello.
    read_fields. by autorewrite with protocol.
  - parse_back. unfold parseAuth. read_fields. by autorewrite with protocol.
  - destruct Hl as (?&?&?&?). destruct h; parse_back; unfold parseVaultSummary; read_fields;
      simpl in *; by autorewrite with protocol.
  - destruct Hl as (?&?&?). parse_back. unfold parseWantRevisions. read_fields.
    autorewrite with protocol. cbn [require isArray jstrs]. rewrite length_fmap.
    rewrite short_ltb by done. by autorewrite with protocol.
  - destruct Hl as (?&?). destruct o; parse_back; unfold parseRevisionAck; read_fields;
      autorewrite with protocol; simpl in *; by rewrite ?Hs.
  - destruct Hl as (?&?). parse_back. unfold parseTransferCancel. read_fields.
    by autorewrite with protocol.
  - parse_back. unfold parseSyncComplete. read_fields. by autorewrite with protocol.
  - by parse_back.
  - parse_back. unfold parseError. read_fields. rewrite str_jstr by apply bounded_code.
    f_equal. f_equal; [exact (head_known_code c)|].
    destruct Hl as [-> | ?]; [done|]. by autorewrite with protocol.
Qed.

(** ** Properties *)

(** C26: whatever text arrives, an accepted message is within the caps: every
    string is present, not empty and short, every hash is 64 lower-case
    hexadecimal digits, every count is a non-negative integer, and the sizes,
    chunk numbers, parents, history and wants are below the limits. *)
Theorem parseMessage_within_limits (raw : string) (m : ProtocolMessage)
    (Hm : parseMessage raw = parsed m) : within_limits m.
Proof. apply parseMessage_inv in Hm as (type&value&Hd). by eapply dispatch_bounded. Qed.

Lemma parseMessage_within_limits_witness :
  ∃ m, parseMessage (encodeMessage (TransferCancel 7 "changed")) = parsed m ∧ within_limits m.
Proof.
  eexists. split; [vm_compute; reflexivity|].
  apply (parseMessage_within_limits (encodeMessage (TransferCancel 7 "changed"))).
  vm_compute. reflexivity.
Defined.

Lemma parse_text m m' : safe (message_json m) →
  (∃ type fields, message_json m = JObj fields ∧ member "type" fields = Some (JStr type) ∧ dispatch type fields = parsed m') →
  parseMessage (encodeMessage m) = parsed m'.
Proof.
  intros Hm (type&fields&Hj&Ht&Hd). rewrite (parseMessage_dispatch _ fields type); [done| |done].
  unfold encodeMessage. by rewrite JSON_parse_stringify, Hj.
Qed.

Lemma parse_encoded m : sendable m → parseMessage (encodeMessage m) = parsed m.
Proof. intros Hm. apply parse_text; [by apply safe_message|by apply all_parse_back]. Qed.

(** A message as its reader has it: a summary whose name is empty, as the one of
    a device that names no vault, or is too long has the default name. *)
Definition named (m : ProtocolMessage) : ProtocolMessage :=
  match m with
  | VaultSummary vaultId vaultName head count =>
      VaultSummary vaultId (default "Shared vault" (str (Some (jstr vaultName)))) head count
  | _ => m
  end.

Lemma parse_named m : sendable (named m) → parseMessage (encodeMessage m) = parsed (named m).
Proof.
  destruct m as [| |v n h c| | | | | | | |]; simpl named; try by apply parse_encoded.
  intros [(Hv&_&Hh&Hc) Hs]. apply parse_text; [by destruct h|].
  destruct h; parse_back; unfold parseVaultSummary; read_fields; simpl in *;
    rewrite (str_jstr v), isCount_jint by done; cbn [require]; [by rewrite (str_jstr _ Hh)|done].
Qed.

(** C27: a message a device may send is accepted by its peer exactly as it was
    sent: parsing the text of its encoding gives the message back, strings with
    any characters included. *)
Theorem encodeMessage_roundtrip (m : ProtocolMessage) (Hm : sendable m) :
  parseMessage (encodeMessage m) = parsed m.
Proof. by apply parse_encoded. Qed.

Definition hash0 : string := of_chars (replicate 64 (fromCharCode 97)).

Definition header0 : ProtocolMessage :=
  RevisionHeaderMessage (RevisionHeader.mk 3 "v" "r2" hash0 10 ["r1"] 1
    (Some (of_chars [fromCharCode 34; fromCharCode 10]))).

Lemma encodeMessage_roundtrip_witness :
  sendable header0 ∧ parseMessage (encodeMessage header0) = parsed header0.
Proof.
  assert (sendable header0) as Hs.
  { split; [|by_compute]. simpl. unfold bounded_parents.
    rewrite Forall_singleton. unfold sha256_text.
    split_and!; try by_compute.
    apply Forall_forall. intros c Hc. unfold hash0 in Hc. rewrite chars_of_chars in Hc.
    apply elem_of_replicate in Hc as [-> _]. reflexivity. }
  split; [exact Hs|]. apply (encodeMessage_roundtrip header0 Hs).
Defined.
