(* ===== verification/Effects.v ===== *)
(** * Stateful code that may throw

    An asynchronous method of the source is a function from the state it works
    on to a result and the state it leaves: a thrown error keeps the effects
    that came before it.  Awaits are sequencing; the components in which other
    work can come between two awaits say so and model it as steps. *)

From S2P Require Import Prelude.

Definition M (S A : Type) : Type := S → result A * S.

#[global] Instance M_ret {S} : MRet (M S) := λ A a s, (Ok a, s).
#[global] Instance M_bind {S} : MBind (M S) := λ A B k m s,
  match m s with
  | (Ok a, s') => k a s'
  | (Err e, s') => (Err e, s')
  end.
#[global] Instance M_fmap {S} : FMap (M S) := λ A B f m, m ≫= λ a, mret (f a).

Definition throw {S A} (message : string) : M S A := λ s, (Err message, s).
Definition lift {S A} (r : result A) : M S A := λ s, (r, s).
Definition gets {S A} (f : S → A) : M S A := λ s, (Ok (f s), s).
Definition modify {S} (f : S → S) : M S unit := λ s, (Ok tt, f s).

(** [for (const x of l) await f(x)]. *)
Fixpoint for_each {S A} (l : list A) (f : A → M S unit) : M S unit :=
  match l with
  | [] => mret tt
  | x :: l => f x ≫= λ _, for_each l f
  end.

(** The values of a loop that awaits one call per element, in order. *)
Fixpoint map_each {S A B} (l : list A) (f : A → M S B) : M S (list B) :=
  match l with
  | [] => mret []
  | x :: l => f x ≫= λ y, map_each l f ≫= λ ys, mret (y :: ys)
  end.

(** A part of the state, for running the methods of one component inside
    another. *)
Class Part (S T : Type) : Type := {
  part : S → T;
  with_part : T → S → S;
  part_with : ∀ t s, part (with_part t s) = t;
  with_part_part : ∀ s, with_part (part s) s = s;
  with_part_twice : ∀ t u s, with_part t (with_part u s) = with_part t s;
}.

Definition on {S T A} `{Part S T} (m : M T A) : M S A := λ s,
  let '(r, t) := m (part s) in (r, with_part t s).

(** ** Facts *)

Section facts.
Context {S : Type}.
Implicit Types s : S.

Lemma bind_ok {A B} (m : M S A) (k : A → M S B) s b s' :
  (m ≫= k) s = (Ok b, s') ↔ ∃ a s1, m s = (Ok a, s1) ∧ k a s1 = (Ok b, s').
Proof.
  unfold mbind, M_bind. destruct (m s) as [[a|e] s1]; naive_solver.
Qed.

Lemma bind_eq {A B} (m : M S A) (k : A → M S B) s a s1 :
  m s = (Ok a, s1) → (m ≫= k) s = k a s1.
Proof. unfold mbind, M_bind. by intros ->. Qed.

Lemma bind_err {A B} (m : M S A) (k : A → M S B) s e s1 :
  m s = (Err e, s1) → (m ≫= k) s = (Err e, s1).
Proof. unfold mbind, M_bind. by intros ->. Qed.

Lemma bind_ext {A B} (m : M S A) (k k' : A → M S B) s :
  (∀ a s, k a s = k' a s) → (m ≫= k) s = (m ≫= k') s.
Proof. intros Hk. unfold mbind, M_bind. destruct (m s) as [[a|e] s1]; [apply Hk|done]. Qed.

Lemma ret_ok {A} (a b : A) s s' : (mret a : M S A) s = (Ok b, s') ↔ a = b ∧ s = s'.
Proof. unfold mret, M_ret. naive_solver. Qed.

Lemma lift_ok {A} (r : result A) s a s' : lift r s = (Ok a, s') ↔ r = Ok a ∧ s = s'.
Proof. unfold lift. naive_solver. Qed.

Lemma on_ok {T A} `{Part S T} (m : M T A) s a s' :
  on m s = (Ok a, s') ↔ ∃ t, m (part s) = (Ok a, t) ∧ s' = with_part t s.
Proof. unfold on. destruct (m (part s)) as [r t]. naive_solver. Qed.

Lemma on_eq {T A} `{Part S T} (m : M T A) s r t :
  m (part s) = (r, t) → on m s = (r, with_part t s).
Proof. unfold on. by intros ->. Qed.
End facts.

#[export] Hint Rewrite @bind_ok @ret_ok @lift_ok @on_ok : passvault.

(** ** Operations that leave the state as they found it *)

Definition reads {S A} (m : M S A) : Prop := ∀ s, (m s).2 = s.

Section reading.
Context {S : Type}.

Lemma reads_ret {A} (a : A) : reads (mret a : M S A).
Proof. done. Qed.

Lemma reads_lift {A} (r : result A) : reads (lift r : M S A).
Proof. done. Qed.

Lemma reads_throw {A} e : reads (throw e : M S A).
Proof. done. Qed.

Lemma reads_gets {A} (f : S → A) : reads (gets f).
Proof. done. Qed.

Lemma reads_bind {A B} (m : M S A) (k : A → M S B) :
  reads m → (∀ a, reads (k a)) → reads (m ≫= k).
Proof.
  intros Hm Hk s. unfold mbind, M_bind. specialize (Hm s).
  destruct (m s) as [[a|e] s1]; simpl in *; subst; [apply Hk|done].
Qed.

Lemma reads_map_each {A B} (l : list A) (f : A → M S B) :
  (∀ a, reads (f a)) → reads (map_each l f).
Proof.
  intros Hf. induction l as [|a l IH]; [done|]. cbn [map_each].
  apply reads_bind; [done|]. intros b. by apply reads_bind.
Qed.

Lemma reads_on {T A} `{Part S T} (m : M T A) : reads m → reads (on m).
Proof.
  intros Hm s. unfold on. specialize (Hm (part s)). destruct (m (part s)); simpl in *; subst.
  apply with_part_part.
Qed.

Lemma reads_cases {A} (m : M S A) s :
  reads m → (∃ a, m s = (Ok a, s)) ∨ ∃ e, m s = (Err e, s).
Proof. intros Hm. specialize (Hm s). destruct (m s) as [[a|e] s1]; simpl in *; subst; eauto. Qed.

(** A loop that only reads saw the same state at each turn. *)
Lemma map_each_reads {A B} (l : list A) (f : A → M S B) s ys s' :
  (∀ a, reads (f a)) → map_each l f s = (Ok ys, s') →
  s' = s ∧ Forall2 (λ x y, f x s = (Ok y, s)) l ys.
Proof.
  intros Hf. revert ys s'. induction l as [|a l IH]; intros ys s' Hrun; cbn [map_each] in Hrun.
  { by apply ret_ok in Hrun as [<- <-]. }
  apply bind_ok in Hrun as (y&s1&Hy&Hrun). apply bind_ok in Hrun as (ys'&s2&Hys&Hrun).
  apply ret_ok in Hrun as [<- <-]. pose proof (Hf a s) as Hs1. rewrite Hy in Hs1. simpl in Hs1. subst s1.
  apply IH in Hys as [-> Hys]. split; [done|]. by constructor.
Qed.

(** A loop of pure calls. *)
Lemma map_each_pure {A C} (f : A → C) (m : A → M S C) (l : list A) (t : S) :
  (∀ a, m a t = (Ok (f a), t)) → map_each l m t = (Ok (f <$> l), t).
Proof.
  intros Hm. induction l as [|a l IH]; [done|].
  simpl. rewrite (bind_eq _ _ _ _ _ (Hm a)), (bind_eq _ _ _ _ _ IH). done.
Qed.
End reading.

#[export] Hint Resolve reads_ret reads_lift reads_throw reads_gets reads_bind reads_map_each
  reads_on : passvault.

(** Take a successful run apart, call by call. *)
Ltac inv_run :=
  repeat match goal with
  | H : (_ ≫= _) _ = (Ok _, _) |- _ =>
      let a := fresh "a" in let s1 := fresh "s" in let H1 := fresh "Hrun" in
      apply bind_ok in H as (a & s1 & H1 & H)
  | H : mret _ _ = (Ok _, _) |- _ => apply ret_ok in H as [? ?]; simplify_eq
  | H : lift _ _ = (Ok _, _) |- _ => apply lift_ok in H as [? ?]; simplify_eq
  | H : gets _ _ = (Ok _, _) |- _ => unfold gets in H; simplify_eq
  | H : modify _ _ = (Ok _, _) |- _ => unfold modify in H; simplify_eq
  | H : throw _ _ = (Ok _, _) |- _ => discriminate H
  end.
