(* ===== verification/Store.v ===== *)
(** * The metadata store

    packages/storage-sql/src/schema.ts and sqliteMetadataStore.ts: the tables,
    with their keys and foreign keys, and every method of [SqliteMetadataStore]
    as a state transformer.

    A table with a primary key is a finite map; a table whose order is its key
    ([AUTOINCREMENT]) is a list, the last row last.  SQL leaves open the order in
    which rows are read when no [ORDER BY] decides it: reads go through [scan],
    any function that permutes its argument.  The driver turns foreign keys on,
    so inserting a row of an unknown vault throws.  A [Date] is stored as its ISO
    text and read back as the same date, and the order of those texts is the order
    of the dates (years 0 to 9999). *)

From S2P Require Import Prelude Model JsString Json Dag Effects.
From stdpp Require Import sorting.

Open Scope Z_scope.

(** The order of rows that no [ORDER BY] decides. *)
Class RowOrder : Type := {
  scan : ∀ {A : Type}, list A → list A;
  scan_perm : ∀ {A} (l : list A), scan l ≡ₚ l;
}.

(** [ORDER BY key] and [ORDER BY key DESC]. *)
Definition key_le {A} (key : A → Z) (a b : A) : Prop := key a <= key b.
Definition key_ge {A} (key : A → Z) (a b : A) : Prop := key b <= key a.
#[global] Instance key_le_dec {A} (key : A → Z) : RelDecision (key_le key).
Proof. intros a b. apply Z.le_dec. Defined.
#[global] Instance key_ge_dec {A} (key : A → Z) : RelDecision (key_ge key).
Proof. intros a b. apply Z.le_dec. Defined.

Definition order_by {A} (key : A → Z) (rows : list A) : list A := merge_sort (key_le key) rows.
Definition order_by_desc {A} (key : A → Z) (rows : list A) : list A :=
  merge_sort (key_ge key) rows.

Lemma order_by_desc_perm {A} (key : A → Z) (rows : list A) : order_by_desc key rows ≡ₚ rows.
Proof. apply merge_sort_Permutation. Qed.

(** ** Rows *)

Module RevisionRow.
Record t : Type := mk {
  id : string;
  vault_id : string;
  hash : string;
  size_bytes : Z;
  created_at : Date;
  origin_device_id : option string;
  operation : RevisionOperation.t;
  message : option string;
}.
End RevisionRow.

Module ConflictRow.
Record t : Type := mk {
  id : string;
  vault_id : string;
  current_revision_id : string;
  incoming_revision_id : string;
  status : ConflictStatus.t;
  decision : option string;
  created_at : Date;
  resolved_at : option Date;
}.
End ConflictRow.

Module DeviceRow.
Record t : Type := mk {
  id : string;
  public_key : Uint8Array;
  name : string;
  trust : string;
  paired_at : Date;
  last_seen_at : option Date;
}.
End DeviceRow.

Module EventRow.
Record t : Type := mk {
  at_ : Date;
  kind : string;
  payload : string;
}.
End EventRow.

(** The tables. *)
Module Db.
Record t : Type := mk {
  vaults : gmap string Vault.t;
  revisions : gmap string RevisionRow.t;
  revision_parents : list (string * string);
  head_events : list HeadRevisionEvent.t;
  bookmarks : gmap string Bookmark.t;
  conflicts : gmap string ConflictRow.t;
  transfers : gmap string PendingTransfer.t;
  devices : gmap string DeviceRow.t;
  peer_heads : gmap (string * string) (string * Date);
  settings : gmap string string;
  events : list EventRow.t;
}.

(** The tables the schema creates. *)
Definition empty : t := mk ∅ ∅ [] [] ∅ ∅ ∅ ∅ ∅ ∅ [].

Definition set_vaults x d := let 'mk _ b c e f g h i j k l := d in mk x b c e f g h i j k l.
Definition set_revisions x d := let 'mk a _ c e f g h i j k l := d in mk a x c e f g h i j k l.
Definition set_parents x d := let 'mk a b _ e f g h i j k l := d in mk a b x e f g h i j k l.
Definition set_head_events x d := let 'mk a b c _ f g h i j k l := d in mk a b c x f g h i j k l.
Definition set_bookmarks x d := let 'mk a b c e _ g h i j k l := d in mk a b c e x g h i j k l.
Definition set_conflicts x d := let 'mk a b c e f _ h i j k l := d in mk a b c e f x h i j k l.
Definition set_transfers x d := let 'mk a b c e f g _ i j k l := d in mk a b c e f g x i j k l.
Definition set_devices x d := let 'mk a b c e f g h _ j k l := d in mk a b c e f g h x j k l.
Definition set_peer_heads x d := let 'mk a b c e f g h i _ k l := d in mk a b c e f g h i x k l.
Definition set_settings x d := let 'mk a b c e f g h i j _ l := d in mk a b c e f g h i j x l.
Definition set_events x d := let 'mk a b c e f g h i j k _ := d in mk a b c e f g h i j k x.
End Db.

(** A [REFERENCES vaults(id)] column: the row must name a stored vault. *)
Definition foreign_key (vault_id : string) : M Db.t unit := λ d,
  match Db.vaults d !! vault_id with
  | Some _ => (Ok tt, d)
  | None => (Err "FOREIGN KEY constraint failed", d)
  end.

(** ** Vaults *)

Definition getVault (vaultId : VaultId) : M Db.t (option Vault.t) :=
  gets (λ d, Db.vaults d !! vaultId).

(** The row written over an existing one: everything but the creation date. *)
Definition upsert_vault (existing : option Vault.t) (v : Vault.t) : Vault.t :=
  match existing with
  | None => v
  | Some old =>
      {| Vault.id := Vault.id old; Vault.name := Vault.name v;
         Vault.headRevisionId := Vault.headRevisionId v; Vault.kdbxPath := Vault.kdbxPath v;
         Vault.createdAt := Vault.createdAt old |}
  end.

Definition saveVault (vault : Vault.t) : M Db.t unit :=
  modify (λ d,
    Db.set_vaults (<[Vault.id vault := upsert_vault (Db.vaults d !! Vault.id vault) vault]>
                     (Db.vaults d)) d).

(** ** Revisions *)

Definition to_row (r : Revision.t) : RevisionRow.t :=
  {| RevisionRow.id := Revision.id r; RevisionRow.vault_id := Revision.vaultId r;
     RevisionRow.hash := Revision.hash r; RevisionRow.size_bytes := Revision.sizeBytes r;
     RevisionRow.created_at := Revision.createdAt r;
     RevisionRow.origin_device_id := Revision.originDeviceId r;
     RevisionRow.operation := Revision.operation r;
     RevisionRow.message := Revision.message r |}.

Definition toRevision (row : RevisionRow.t) (parentIds : list RevisionId) : Revision.t :=
  {| Revision.id := RevisionRow.id row; Revision.vaultId := RevisionRow.vault_id row;
     Revision.hash := RevisionRow.hash row; Revision.sizeBytes := RevisionRow.size_bytes row;
     Revision.createdAt := RevisionRow.created_at row;
     Revision.originDeviceId := RevisionRow.origin_device_id row;
     Revision.parentIds := parentIds;
     Revision.operation := RevisionRow.operation row;
     Revision.message := RevisionRow.message row |}.

Definition hasRevision (revisionId : RevisionId) : M Db.t bool :=
  gets (λ d, bool_decide (is_Some (Db.revisions d !! revisionId))).

(** [INSERT INTO revisions ... ON CONFLICT(id) DO NOTHING]. *)
Definition insert_revision (revision : Revision.t) : M Db.t unit := λ d,
  match Db.revisions d !! Revision.id revision with
  | Some _ => (Ok tt, d)
  | None =>
      (foreign_key (Revision.vaultId revision) ≫= λ _,
       modify (λ d, Db.set_revisions
         (<[Revision.id revision := to_row revision]> (Db.revisions d)) d)) d
  end.

(** [INSERT INTO revision_parents ... ON CONFLICT DO NOTHING]. *)
Definition insert_parent (revisionId parentId : RevisionId) : M Db.t unit :=
  modify (λ d, Db.set_parents (set_add (Db.revision_parents d) (revisionId, parentId)) d).

Definition saveRevision (revision : Revision.t) : M Db.t unit :=
  for_each (Revision.parentIds revision) (λ parentId,
    hasRevision parentId ≫= λ present,
    lift (assert present
      ("cannot store revision " +:+ Revision.id revision +:+ ": parent " +:+ parentId +:+
       " is not stored yet")%string)) ≫= λ _,
  insert_revision revision ≫= λ _,
  for_each (Revision.parentIds revision) (insert_parent (Revision.id revision)).

Section reads.
Context `{RowOrder}.

Definition listVaults : M Db.t (list Vault.t) :=
  gets (λ d, order_by Vault.createdAt (scan (map_to_list (Db.vaults d)).*2)).

(** [SELECT parent_id FROM revision_parents WHERE revision_id = ?]. *)
Definition parents_in (d : Db.t) (revisionId : RevisionId) : list RevisionId :=
  scan (filter (λ row, row.1 = revisionId) (Db.revision_parents d)).*2.

Definition parentsOf (revisionId : RevisionId) : M Db.t (list RevisionId) :=
  gets (λ d, parents_in d revisionId).

Definition getRevision (revisionId : RevisionId) : M Db.t (option Revision.t) :=
  gets (λ d, Db.revisions d !! revisionId) ≫= λ row,
  match row with
  | None => mret None
  | Some row => parentsOf revisionId ≫= λ parents, mret (Some (toRevision row parents))
  end.

Definition revision_rows (d : Db.t) (vaultId : VaultId) : list RevisionRow.t :=
  scan (filter (λ row, RevisionRow.vault_id row = vaultId) (map_to_list (Db.revisions d)).*2).

Definition listRevisions (vaultId : VaultId) : M Db.t (list Revision.t) :=
  gets (λ d, order_by_desc RevisionRow.created_at (revision_rows d vaultId)) ≫= λ rows,
  map_each rows (λ row,
    parentsOf (RevisionRow.id row) ≫= λ parents, mret (toRevision row parents)).

(** The rows of the left join of [loadGraph]: one per parent, or one without. *)
Definition join_rows (d : Db.t) (vaultId : VaultId) : list (RevisionId * option RevisionId) :=
  scan (revision_rows d vaultId ≫= λ row,
    match (filter (λ p, p.1 = RevisionRow.id row) (Db.revision_parents d)).*2 with
    | [] => [(RevisionRow.id row, None)]
    | parents => (λ p, (RevisionRow.id row, Some p)) <$> parents
    end).

(** The loop of [loadGraph] over the joined rows, on the map it fills. *)
Definition group_parents (rows : list (RevisionId * option RevisionId))
    : gmap RevisionId (list RevisionId) :=
  foldl (λ parentsById '(id, parent_id),
    let parents := default [] (parentsById !! id) in
    <[id := match parent_id with None => parents | Some p => parents ++ [p] end]> parentsById)
    ∅ rows.

Definition loadGraph (vaultId : VaultId) : M Db.t RevisionGraph :=
  gets (λ d, buildGraph ((λ '(id, parentIds), RevisionNode.mk id parentIds)
    <$> map_to_list (group_parents (join_rows d vaultId)))).
End reads.

(** The recursive query [ANCESTORS_CTE]: the closure under stored edges, as a
    queue of ids whose parents are still to be joined. *)
Fixpoint ancestors_cte (fuel : nat) (edges : list (string * string))
    (queue seen : list RevisionId) : list RevisionId :=
  match fuel with
  | O => seen
  | S fuel =>
      match queue with
      | [] => seen
      | id :: queue =>
          let fresh := filter (λ p, p ∉ seen)
            (set_from (filter (λ row, row.1 = id) edges).*2) in
          ancestors_cte fuel edges (queue ++ fresh) (seen ++ fresh)
      end
  end.

Definition ancestorIdsOf (revisionId : RevisionId) : M Db.t (list RevisionId) :=
  gets (λ d, ancestors_cte (2 + length (Db.revision_parents d)) (Db.revision_parents d)
    [revisionId] [revisionId]).

(** ** Head events *)

Definition appendHeadEvent (event : HeadRevisionEvent.t) : M Db.t unit :=
  foreign_key (HeadRevisionEvent.vaultId event) ≫= λ _,
  modify (λ d, Db.set_head_events (Db.head_events d ++ [event]) d).

Definition lastHeadEvent (vaultId : VaultId) : M Db.t (option HeadRevisionEvent.t) :=
  gets (λ d, last (filter (λ e, HeadRevisionEvent.vaultId e = vaultId) (Db.head_events d))).

(** ** Bookmarks *)

Definition saveBookmark (bookmark : Bookmark.t) : M Db.t unit := λ d,
  match Db.bookmarks d !! Bookmark.id bookmark with
  | Some old =>
      modify (λ d, Db.set_bookmarks (<[Bookmark.id bookmark :=
        {| Bookmark.id := Bookmark.id old; Bookmark.vaultId := Bookmark.vaultId old;
           Bookmark.revisionId := Bookmark.revisionId old;
           Bookmark.message := Bookmark.message bookmark;
           Bookmark.createdAt := Bookmark.createdAt old |}]> (Db.bookmarks d)) d) d
  | None =>
      (foreign_key (Bookmark.vaultId bookmark) ≫= λ _,
       modify (λ d, Db.set_bookmarks (<[Bookmark.id bookmark := bookmark]> (Db.bookmarks d)) d)) d
  end.

Definition listBookmarks `{RowOrder} (vaultId : VaultId) : M Db.t (list Bookmark.t) :=
  gets (λ d, order_by_desc Bookmark.createdAt
    (scan (filter (λ b, Bookmark.vaultId b = vaultId) (map_to_list (Db.bookmarks d)).*2))).

(** ** Conflicts *)

(** A decision is stored as its JSON text. *)
Definition decision_json (decision : ConflictDecision.t) : json :=
  match decision with
  | ConflictDecision.keep_current => JObj [("kind", JStr "keep-current")]
  | ConflictDecision.switch_incoming => JObj [("kind", JStr "switch-incoming")]
  | ConflictDecision.try_merge => JObj [("kind", JStr "try-merge")]
  | ConflictDecision.save_both => JObj [("kind", JStr "save-both")]
  | ConflictDecision.restore_revision id =>
      JObj [("kind", JStr "restore-revision"); ("revisionId", JStr id)]
  end.

(** The parsed text, read as a decision; [None] when it is not one (the source
    would hand the value on as it is). *)
Definition decision_of (text : string) : option ConflictDecision.t :=
  match JSON_parse text with
  | Some (JObj fields) =>
      match member "kind" fields, member "revisionId" fields with
      | Some (JStr kind), id =>
          if decide (kind = "keep-current") then Some ConflictDecision.keep_current
          else if decide (kind = "switch-incoming") then Some ConflictDecision.switch_incoming
          else if decide (kind = "try-merge") then Some ConflictDecision.try_merge
          else if decide (kind = "save-both") then Some ConflictDecision.save_both
          else if decide (kind = "restore-revision") then
            match id with
            | Some (JStr id) => Some (ConflictDecision.restore_revision id)
            | _ => None
            end
          else None
      | _, _ => None
      end
  | _ => None
  end.

Definition conflict_row (c : Conflict.t) : ConflictRow.t :=
  {| ConflictRow.id := Conflict.id c; ConflictRow.vault_id := Conflict.vaultId c;
     ConflictRow.current_revision_id := Conflict.currentRevisionId c;
     ConflictRow.incoming_revision_id := Conflict.incomingRevisionId c;
     ConflictRow.status := Conflict.status c;
     ConflictRow.decision := (λ d, JSON_stringify (decision_json d)) <$> Conflict.decision c;
     ConflictRow.created_at := Conflict.createdAt c;
     ConflictRow.resolved_at := Conflict.resolvedAt c |}.

Definition toConflict (row : ConflictRow.t) : Conflict.t :=
  {| Conflict.id := ConflictRow.id row; Conflict.vaultId := ConflictRow.vault_id row;
     Conflict.currentRevisionId := ConflictRow.current_revision_id row;
     Conflict.incomingRevisionId := ConflictRow.incoming_revision_id row;
     Conflict.status := ConflictRow.status row;
     Conflict.createdAt := ConflictRow.created_at row;
     Conflict.resolvedAt := ConflictRow.resolved_at row;
     Conflict.decision := ConflictRow.decision row ≫= decision_of |}.

Definition saveConflict (conflict : Conflict.t) : M Db.t unit := λ d,
  let row := conflict_row conflict in
  match Db.conflicts d !! Conflict.id conflict with
  | Some old =>
      modify (λ d, Db.set_conflicts (<[Conflict.id conflict :=
        {| ConflictRow.id := ConflictRow.id old; ConflictRow.vault_id := ConflictRow.vault_id old;
           ConflictRow.current_revision_id := ConflictRow.current_revision_id old;
           ConflictRow.incoming_revision_id := ConflictRow.incoming_revision_id old;
           ConflictRow.status := ConflictRow.status row;
           ConflictRow.decision := ConflictRow.decision row;
           ConflictRow.created_at := ConflictRow.created_at old;
           ConflictRow.resolved_at := ConflictRow.resolved_at row |}]> (Db.conflicts d)) d) d
  | None =>
      (foreign_key (Conflict.vaultId conflict) ≫= λ _,
       modify (λ d, Db.set_conflicts (<[Conflict.id conflict := row]> (Db.conflicts d)) d)) d
  end.

Definition listOpenConflicts `{RowOrder} (vaultId : VaultId) : M Db.t (list Conflict.t) :=
  gets (λ d, toConflict <$> order_by_desc ConflictRow.created_at
    (scan (filter (λ c, ConflictRow.vault_id c = vaultId ∧
                        ConflictRow.status c = ConflictStatus.open)
             (map_to_list (Db.conflicts d)).*2))).

(** ** Transfers *)

Definition saveTransfer (transfer : PendingTransfer.t) : M Db.t unit := λ d,
  match Db.transfers d !! PendingTransfer.id transfer with
  | Some old =>
      modify (λ d, Db.set_transfers (<[PendingTransfer.id transfer :=
        {| PendingTransfer.id := PendingTransfer.id old;
           PendingTransfer.vaultId := PendingTransfer.vaultId old;
           PendingTransfer.revisionId := PendingTransfer.revisionId old;
           PendingTransfer.direction := PendingTransfer.direction old;
           PendingTransfer.expectedHash := PendingTransfer.expectedHash old;
           PendingTransfer.expectedSizeBytes := PendingTransfer.expectedSizeBytes old;
           PendingTransfer.receivedBytes := PendingTransfer.receivedBytes transfer;
           PendingTransfer.status := PendingTransfer.status transfer;
           PendingTransfer.peerDeviceId := PendingTransfer.peerDeviceId old |}]>
        (Db.transfers d)) d) d
  | None =>
      (foreign_key (PendingTransfer.vaultId transfer) ≫= λ _,
       modify (λ d, Db.set_transfers
         (<[PendingTransfer.id transfer := transfer]> (Db.transfers d)) d)) d
  end.

Definition listPendingTransfers `{RowOrder} (vaultId : VaultId)
    : M Db.t (list PendingTransfer.t) :=
  gets (λ d, scan (filter (λ t, PendingTransfer.vaultId t = vaultId ∧
      (PendingTransfer.status t = TransferStatus.requested ∨
       PendingTransfer.status t = TransferStatus.transferring))
    (map_to_list (Db.transfers d)).*2)).

(** ** Peer heads and the event log *)

Definition recordPeerHead (deviceId : DeviceId) (vaultId : VaultId)
    (headRevisionId : RevisionId) (seenAt : Date) : M Db.t unit :=
  foreign_key vaultId ≫= λ _,
  modify (λ d, Db.set_peer_heads
    (<[(deviceId, vaultId) := (headRevisionId, seenAt)]> (Db.peer_heads d)) d).

Definition getPeerHead (deviceId : DeviceId) (vaultId : VaultId) : M Db.t (option RevisionId) :=
  gets (λ d, fst <$> Db.peer_heads d !! (deviceId, vaultId)).

Definition appendEvent (at_ : Date) (kind payload : string) : M Db.t unit :=
  modify (λ d, Db.set_events (Db.events d ++ [EventRow.mk at_ kind payload]) d).

Definition listEvents (limit : Z) : M Db.t (list EventRow.t) :=
  gets (λ d, let newest_first := rev (Db.events d) in
    if limit <? 0 then newest_first else take (Z.to_nat limit) newest_first).

(** ** Transactions *)

(** The connection: its tables, how many transactions the store believes open,
    the tables a [ROLLBACK] goes back to while one is, and whether another
    process holds the write lock of the file. *)
Module Store.
Record t : Type := mk {
  db : Db.t;
  depth : Z;
  saved : option Db.t;
  locked : bool;
}.

Definition open : t := mk Db.empty 0 None false.

Definition set_db (d : Db.t) (s : t) : t := mk d (depth s) (saved s) (locked s).

#[global, refine] Instance db_part : Part t Db.t := { part := db; with_part := set_db }.
Proof. all: by intros; repeat match goal with s : t |- _ => destruct s end. Defined.

Definition BEGIN_IMMEDIATE : M t unit := λ s,
  if locked s then (Err "database is locked", s)
  else
    match saved s with
    | Some _ => (Err "cannot start a transaction within a transaction", s)
    | None => (Ok tt, mk (db s) (depth s) (Some (db s)) (locked s))
    end.

Definition COMMIT : M t unit := λ s,
  match saved s with
  | None => (Err "cannot commit - no transaction is active", s)
  | Some _ => (Ok tt, mk (db s) (depth s) None (locked s))
  end.

Definition ROLLBACK : M t unit := λ s,
  match saved s with
  | None => (Err "cannot rollback - no transaction is active", s)
  | Some d => (Ok tt, mk d (depth s) None (locked s))
  end.

Definition add_depth (n : Z) : M t unit :=
  modify (λ s, mk (db s) (depth s + n) (saved s) (locked s)).
End Store.

(** The [try] block of a transaction: the body and the commit, or the rollback
    and the error again. *)
Definition commit_or_rollback {S A} `{Part S Store.t} (body : M S A) : M S A := λ s,
  match (body ≫= λ a, on Store.COMMIT ≫= λ _, mret a) s with
  | (Ok a, s) => (Ok a, s)
  | (Err e, s) => (on Store.ROLLBACK ≫= λ _, throw e) s
  end.

(** [m finally { cleanup }]. *)
Definition finally {S A} (m : M S A) (cleanup : S → S) : M S A := λ s,
  let '(r, s) := m s in (r, cleanup s).

(** [transaction(body)] when nothing else runs between its awaits.  The depth is
    raised and [BEGIN] is executed before the [try]. *)
Definition transaction {S A} `{Part S Store.t} (body : M S A) : M S A := λ s,
  if 0 <? Store.depth (part s) then body s
  else
    (on (Store.add_depth 1) ≫= λ _,
     on Store.BEGIN_IMMEDIATE ≫= λ _,
     finally (commit_or_rollback body) (λ s, (on (Store.add_depth (-1)) s).2)) s.

(** The same transaction cut at its awaits, for the interleavings of several
    callers: entering joins an open transaction or begins one; leaving commits
    or rolls back only what was begun.  (A caller that has to wait its turn in
    [queue] enters when the transaction before it is over; one that arrives
    while a transaction is open does not wait.) *)
Inductive Entered : Type := joined | begun.

Definition tx_enter : M Store.t Entered := λ s,
  if 0 <? Store.depth s then (Ok joined, s)
  else (Store.add_depth 1 ≫= λ _, Store.BEGIN_IMMEDIATE ≫= λ _, mret begun) s.

Definition tx_commit (entered : Entered) : M Store.t unit :=
  match entered with
  | joined => mret tt
  | begun => Store.COMMIT ≫= λ _, Store.add_depth (-1)
  end.

Definition tx_rollback (entered : Entered) : M Store.t unit :=
  match entered with
  | joined => mret tt
  | begun => Store.ROLLBACK ≫= λ _, Store.add_depth (-1)
  end.
