(* ===== verification/StoreTheory.v ===== *)
(** * The metadata store: its invariant

    A stored history has no dangling edge and no cycle, whatever sequence of
    operations filled the tables, and reading a revision gives back what was
    saved, its parents in some order. *)

From S2P Require Import Prelude Model JsString Json Dag DagTheory DagTheory Effects Store.
From stdpp Require Import relations sorting.

Open Scope Z_scope.

(** ** The invariant *)

Definition edge (d : Db.t) (child parent : RevisionId) : Prop :=
  (child, parent) ∈ Db.revision_parents d.

Definition stored (d : Db.t) (id : RevisionId) : Prop := is_Some (Db.revisions d !! id).

(** Every edge goes from a later rank to an earlier one. *)
Definition ranked (d : Db.t) (rank : RevisionId → nat) : Prop :=
  ∀ c p, edge d c p → (rank p < rank c)%nat.

Record wf (d : Db.t) : Prop := Wf {
  wf_vault_id : ∀ k v, Db.vaults d !! k = Some v → Vault.id v = k;
  wf_row_id : ∀ k r, Db.revisions d !! k = Some r → RevisionRow.id r = k;
  wf_row_vault : ∀ k r, Db.revisions d !! k = Some r →
    is_Some (Db.vaults d !! RevisionRow.vault_id r);
  wf_edges : NoDup (Db.revision_parents d);
  wf_closed : ∀ c p, edge d c p → stored d c ∧ stored d p;
  wf_rank : ∃ rank, ranked d rank;
}.

Lemma wf_empty : wf Db.empty.
Proof.
  split; simpl; try by intros.
  - apply NoDup_nil_2.
  - intros c p H. by apply elem_of_nil in H.
  - exists (λ _, 0%nat). intros c p H. by apply elem_of_nil in H.
Qed.

(** The tables the invariant speaks of. *)
Definition same_history (d d' : Db.t) : Prop :=
  Db.vaults d' = Db.vaults d ∧ Db.revisions d' = Db.revisions d ∧
  Db.revision_parents d' = Db.revision_parents d.

#[global] Instance same_history_refl : Reflexive same_history.
Proof. by intros d. Qed.

#[global] Instance same_history_trans : Transitive same_history.
Proof. intros a b c (?&?&?) (?&?&?). split_and!; congruence. Qed.

#[global] Instance wf_proper : Proper (same_history ==> impl) wf.
Proof.
  intros d d' (Hv&Hr&Hp) [H1 H2 H3 H4 H5 H6]. unfold ranked, edge, stored in *.
  split; unfold ranked, edge, stored in *; rewrite ?Hv, ?Hr, ?Hp; done.
Qed.

(** A ranked history has no cycle. *)
Lemma ranked_tc d rank c p : ranked d rank → tc (edge d) c p → (rank p < rank c)%nat.
Proof. intros Hr. induction 1 as [c p Hcp|c x p Hcx _ IH]; [auto|]. specialize (Hr _ _ Hcx). lia. Qed.

Lemma wf_acyclic d i : wf d → ¬ tc (edge d) i i.
Proof. intros Hd Hi. destruct (wf_rank d Hd) as [rank Hr]. pose proof (ranked_tc _ _ _ _ Hr Hi). lia. Qed.

(** ** Saving a revision *)

(** The first parent that is not stored. *)
Definition missing_parent (d : Db.t) (parents : list RevisionId) : option RevisionId :=
  head (filter (λ p, Db.revisions d !! p = None) parents).

Definition add_edges (id : RevisionId) (parents : list RevisionId)
    (edges : list (string * string)) : list (string * string) :=
  foldl set_add edges (pair id <$> parents).

Definition with_revision (r : Revision.t) (d : Db.t) : Db.t :=
  Db.set_parents (add_edges (Revision.id r) (Revision.parentIds r) (Db.revision_parents d))
    (match Db.revisions d !! Revision.id r with
     | Some _ => d
     | None => Db.set_revisions (<[Revision.id r := to_row r]> (Db.revisions d)) d
     end).

Lemma check_parents d id parents :
  for_each parents (λ parentId,
    hasRevision parentId ≫= λ present,
    lift (assert present
      ("cannot store revision " +:+ id +:+ ": parent " +:+ parentId +:+
       " is not stored yet")%string)) d
  = match missing_parent d parents with
    | None => (Ok tt, d)
    | Some p => (Err ("Contract violation: cannot store revision " +:+ id +:+ ": parent " +:+ p +:+
                      " is not stored yet")%string, d)
    end.
Proof.
  unfold missing_parent. induction parents as [|p parents IH]; [done|].
  cbn [for_each]. rewrite filter_cons. unfold hasRevision, gets, lift, mbind, M_bind.
  destruct (Db.revisions d !! p) as [row|] eqn:Hp.
  - rewrite bool_decide_true by eauto. rewrite decide_False by done. exact IH.
  - rewrite bool_decide_false by by intros [??]. by rewrite decide_True.
Qed.

Lemma insert_parents d id parents :
  for_each parents (insert_parent id) d
  = (Ok tt, Db.set_parents (add_edges id parents (Db.revision_parents d)) d).
Proof.
  revert d. induction parents as [|p parents IH]; intros d; [by destruct d|].
  cbn [for_each]. erewrite bind_eq by reflexivity. rewrite IH. by destruct d.
Qed.

Lemma saveRevision_run r d :
  saveRevision r d =
  match missing_parent d (Revision.parentIds r) with
  | Some p => (Err ("Contract violation: cannot store revision " +:+ Revision.id r +:+ ": parent "
                    +:+ p +:+ " is not stored yet")%string, d)
  | None =>
      match Db.revisions d !! Revision.id r, Db.vaults d !! Revision.vaultId r with
      | None, None => (Err "FOREIGN KEY constraint failed", d)
      | _, _ => (Ok tt, with_revision r d)
      end
  end.
Proof.
  unfold saveRevision. pose proof (check_parents d (Revision.id r) (Revision.parentIds r)) as Hc.
  destruct (missing_parent d _) as [p|]; [by rewrite (bind_err _ _ _ _ _ Hc)|].
  rewrite (bind_eq _ _ _ _ _ Hc). unfold with_revision.
  destruct (Db.revisions d !! Revision.id r) as [row|] eqn:Hrow.
  - rewrite (bind_eq _ _ _ tt d) by (unfold insert_revision; by rewrite Hrow).
    by rewrite insert_parents.
  - destruct (Db.vaults d !! Revision.vaultId r) as [v|] eqn:Hv.
    + erewrite bind_eq; [|unfold insert_revision; rewrite Hrow;
        erewrite bind_eq by (unfold foreign_key; by rewrite Hv); reflexivity].
      rewrite insert_parents. by destruct d.
    + erewrite bind_err; [done|]. unfold insert_revision. rewrite Hrow.
      erewrite bind_err; [done|]. unfold foreign_key. by rewrite Hv.
Qed.

Lemma missing_parent_None d parents :
  missing_parent d parents = None ↔ ∀ p, p ∈ parents → stored d p.
Proof.
  unfold missing_parent, stored. rewrite head_None. split.
  - intros Hnil p Hp. destruct (Db.revisions d !! p) eqn:Hr; [eauto|]. exfalso.
    assert (p ∈ filter (λ p, Db.revisions d !! p = None) parents) as Hin
      by by apply list_elem_of_filter.
    rewrite Hnil in Hin. by apply elem_of_nil in Hin.
  - intros Hall. apply elem_of_nil_inv. intros p [Hp Hin]%list_elem_of_filter.
    destruct (Hall p Hin). congruence.
Qed.

Lemma missing_parent_Some d parents p :
  missing_parent d parents = Some p → p ∈ parents ∧ ¬ stored d p.
Proof.
  unfold missing_parent, stored. intros Hp%head_Some_elem_of.
  apply list_elem_of_filter in Hp as [Hnone Hin]. split; [done|]. rewrite Hnone. by intros [??].
Qed.

Lemma elem_of_add_edges id parents edges c p :
  (c, p) ∈ add_edges id parents edges ↔ (c, p) ∈ edges ∨ (c = id ∧ p ∈ parents).
Proof.
  unfold add_edges. rewrite elem_of_set_adds, list_elem_of_fmap. naive_solver.
Qed.

Lemma with_revision_vaults r d : Db.vaults (with_revision r d) = Db.vaults d.
Proof. unfold with_revision. destruct d; simpl. by case_match. Qed.

Lemma with_revision_parents r d :
  Db.revision_parents (with_revision r d)
  = add_edges (Revision.id r) (Revision.parentIds r) (Db.revision_parents d).
Proof. unfold with_revision. destruct d; simpl. by case_match. Qed.

Lemma with_revision_edge r d c p :
  edge (with_revision r d) c p ↔ edge d c p ∨ (c = Revision.id r ∧ p ∈ Revision.parentIds r).
Proof. unfold edge. rewrite with_revision_parents. apply elem_of_add_edges. Qed.

Lemma with_revision_lookup r d i :
  Db.revisions (with_revision r d) !! i =
  match Db.revisions d !! i with
  | Some row => Some row
  | None => if decide (i = Revision.id r) then Some (to_row r) else None
  end.
Proof.
  unfold with_revision. destruct d as [? revs ? ? ? ? ? ? ? ? ?]; simpl.
  destruct (revs !! Revision.id r) as [row|] eqn:Hr; simpl.
  - case_decide as Hi; [subst; by rewrite Hr|]. by destruct (revs !! i).
  - case_decide as Hi.
    + subst. by rewrite lookup_insert_eq, Hr.
    + rewrite lookup_insert_ne by done. by destruct (revs !! i).
Qed.

Lemma sum_rank_le (rank : RevisionId → nat) parents p :
  p ∈ parents → (rank p <= sum_list (rank <$> parents))%nat.
Proof. induction 1; csimpl; lia. Qed.

(** Saving a revision that is not stored yet keeps the invariant. *)
Lemma wf_with_revision r d :
  wf d → ¬ stored d (Revision.id r) → is_Some (Db.vaults d !! Revision.vaultId r) →
  (∀ p, p ∈ Revision.parentIds r → stored d p) → wf (with_revision r d).
Proof.
  intros [Hvid Hrid Hrv Hnd Hcl [rank Hrank]] Hnew Hvault Hpar.
  assert (∀ i, stored (with_revision r d) i ↔ stored d i ∨ i = Revision.id r) as Hstored.
  { intros i. unfold stored. rewrite with_revision_lookup.
    destruct (Db.revisions d !! i) eqn:Hi; [split; eauto|]. case_decide; subst.
    - split; eauto.
    - split; [by intros [??]|]. intros [[??]|]; congruence. }
  split.
  - rewrite with_revision_vaults. done.
  - intros k row. rewrite with_revision_lookup. destruct (Db.revisions d !! k) eqn:Hk.
    + intros [= <-]. by apply Hrid.
    + case_decide; [|done]. intros [= <-]. by subst.
  - intros k row. rewrite with_revision_lookup, with_revision_vaults.
    destruct (Db.revisions d !! k) eqn:Hk.
    + intros [= <-]. by eapply Hrv.
    + case_decide; [|done]. by intros [= <-].
  - rewrite with_revision_parents. by apply set_adds_NoDup.
  - intros c p [Hcp|[-> Hp]]%with_revision_edge; rewrite !Hstored.
    + destruct (Hcl _ _ Hcp). eauto.
    + eauto.
  - exists (λ x, if decide (x = Revision.id r)
                 then S (sum_list (rank <$> Revision.parentIds r)) else rank x).
    intros c p [Hcp|[-> Hp]]%with_revision_edge.
    + destruct (Hcl _ _ Hcp) as [Hc Hp].
      rewrite !decide_False by (intros ->; done). by apply Hrank.
    + rewrite (decide_True (P := Revision.id r = _)) by done.
      rewrite decide_False by (intros ->; eauto). pose proof (sum_rank_le rank _ _ Hp). lia.
Qed.

(** ** Reading back *)

Section reading.
Context `{RowOrder}.

Lemma getRevision_run i d :
  getRevision i d =
  (Ok ((λ row, toRevision row (parents_in d i)) <$> Db.revisions d !! i), d).
Proof.
  unfold getRevision. erewrite bind_eq by reflexivity.
  destruct (Db.revisions d !! i) as [row|]; [|done]. by erewrite bind_eq by reflexivity.
Qed.

Lemma elem_of_parents_in d i p : p ∈ parents_in d i ↔ edge d i p.
Proof.
  unfold parents_in, edge. rewrite scan_perm, list_elem_of_fmap. split.
  - intros ([c q]&->&[Hc Hin]%list_elem_of_filter). simpl in *. by subst.
  - intros Hin. exists (i, p). split; [done|]. by apply list_elem_of_filter.
Qed.

Lemma parents_in_NoDup d i : NoDup (Db.revision_parents d) → NoDup (parents_in d i).
Proof.
  intros Hnd. unfold parents_in. rewrite scan_perm.
  apply (NoDup_filter (λ row, row.1 = i)) in Hnd.
  apply NoDup_fmap_2_strong; [|done].
  intros [a b] [a' b'] [??]%list_elem_of_filter [??]%list_elem_of_filter ?. simpl in *. congruence.
Qed.

(** Two revisions that differ at most in the order and repetition of parents. *)
Definition same_revision (r r' : Revision.t) : Prop :=
  Revision.id r' = Revision.id r ∧ Revision.vaultId r' = Revision.vaultId r ∧
  Revision.hash r' = Revision.hash r ∧ Revision.sizeBytes r' = Revision.sizeBytes r ∧
  Revision.createdAt r' = Revision.createdAt r ∧
  Revision.originDeviceId r' = Revision.originDeviceId r ∧
  Revision.operation r' = Revision.operation r ∧ Revision.message r' = Revision.message r ∧
  ∀ p, p ∈ Revision.parentIds r' ↔ p ∈ Revision.parentIds r.

Lemma getRevision_with_revision r d :
  wf d → ¬ stored d (Revision.id r) →
  ∃ r', getRevision (Revision.id r) (with_revision r d) = (Ok (Some r'), with_revision r d)
      ∧ same_revision r r' ∧ (NoDup (Revision.parentIds r) →
          Revision.parentIds r' ≡ₚ Revision.parentIds r).
Proof.
  intros Hd Hnew. rewrite getRevision_run, with_revision_lookup.
  assert (Db.revisions d !! Revision.id r = None) as Hnone.
  { apply eq_None_not_Some. done. }
  rewrite Hnone, decide_True by done.
  assert (∀ p, p ∈ parents_in (with_revision r d) (Revision.id r) ↔ p ∈ Revision.parentIds r) as Hp.
  { intros p. rewrite elem_of_parents_in, with_revision_edge. split; [|tauto].
    intros [He|[_ ?]]; [|done]. by destruct (wf_closed _ Hd _ _ He). }
  eexists. split; [done|]. split; [by split_and!|]. intros Hnd. simpl.
  apply NoDup_Permutation; [|done|done]. apply parents_in_NoDup.
  rewrite with_revision_parents. apply set_adds_NoDup, Hd.
Qed.

(** Reads of other revisions do not change. *)
Lemma add_edges_other id parents edges i :
  i ≠ id →
  filter (λ row, row.1 = i) (add_edges id parents edges) = filter (λ row, row.1 = i) edges.
Proof.
  intros Hi. unfold add_edges. revert edges.
  induction parents as [|p parents IH]; intros edges; csimpl; [done|]. rewrite IH.
  unfold set_add. case_decide; [done|]. rewrite filter_app, filter_cons, filter_nil.
  rewrite decide_False by (simpl; congruence). by rewrite app_nil_r.
Qed.

Lemma getRevision_other r d i :
  i ≠ Revision.id r → (getRevision i (with_revision r d)).1 = (getRevision i d).1.
Proof.
  intros Hi. rewrite !getRevision_run. simpl. unfold parents_in.
  rewrite with_revision_lookup, with_revision_parents, add_edges_other by done.
  destruct (Db.revisions d !! i); [done|]. by rewrite decide_False.
Qed.
End reading.

(** ** The graph of a vault *)

Section graph.
Context `{RowOrder}.

Lemma group_parents_fold rows (acc : gmap RevisionId (list RevisionId)) :
  let m := foldl (λ parentsById '(id, parent_id),
    let parents := default [] (parentsById !! id) in
    <[id := match parent_id with None => parents | Some p => parents ++ [p] end]> parentsById)
    acc rows in
  ∀ i, (is_Some (m !! i) ↔ is_Some (acc !! i) ∨ i ∈ rows.*1) ∧
    ∀ p, p ∈ default [] (m !! i) ↔ p ∈ default [] (acc !! i) ∨ (i, Some p) ∈ rows.
Proof.
  revert acc. induction rows as [|[j o] rows IH]; intros acc m i; csimpl in *; [set_solver|].
  subst m. specialize (IH (<[j:=match o with Some p => default [] (acc !! j) ++ [p]
    | None => default [] (acc !! j) end]> acc) i) as [IH1 IH2].
  split.
  - rewrite IH1, elem_of_cons. destruct (decide (j = i)) as [->|Hne].
    + rewrite lookup_insert_eq. naive_solver.
    + rewrite lookup_insert_ne by done. naive_solver.
  - intros p. rewrite IH2, elem_of_cons. destruct (decide (j = i)) as [->|Hne].
    + rewrite lookup_insert_eq. destruct o as [q|]; simpl; [|naive_solver].
      rewrite elem_of_app, list_elem_of_singleton. naive_solver.
    + rewrite lookup_insert_ne by done. naive_solver.
Qed.

Lemma elem_of_revision_rows d v row :
  wf d → row ∈ revision_rows d v ↔
  Db.revisions d !! RevisionRow.id row = Some row ∧ RevisionRow.vault_id row = v.
Proof.
  intros Hd. unfold revision_rows. rewrite scan_perm, list_elem_of_filter, list_elem_of_fmap.
  split.
  - intros [Hv ([k row']&->&Hk%elem_of_map_to_list)]. simpl in *.
    by rewrite (wf_row_id _ Hd _ _ Hk).
  - intros [Hr Hv]. split; [done|]. exists (RevisionRow.id row, row). split; [done|].
    by apply elem_of_map_to_list.
Qed.

Lemma elem_of_edges_of d i p :
  p ∈ (filter (λ q, q.1 = i) (Db.revision_parents d)).*2 ↔ edge d i p.
Proof.
  unfold edge. rewrite list_elem_of_fmap. split.
  - intros ([c q]&->&[Hc Hin]%list_elem_of_filter). simpl in *. by subst.
  - intros Hin. exists (i, p). split; [done|]. by apply list_elem_of_filter.
Qed.

Lemma elem_of_join_rows d v i o :
  wf d → (i, o) ∈ join_rows d v ↔
  (∃ row, Db.revisions d !! i = Some row ∧ RevisionRow.vault_id row = v) ∧
  match o with Some p => edge d i p | None => ¬ ∃ p, edge d i p end.
Proof.
  intros Hd. unfold join_rows. rewrite scan_perm, list_elem_of_bind.
  assert (∀ row, (i, o) ∈ match (filter (λ p, p.1 = RevisionRow.id row) (Db.revision_parents d)).*2 with
      | [] => [(RevisionRow.id row, None)]
      | parents => (λ p, (RevisionRow.id row, Some p)) <$> parents
      end ↔ i = RevisionRow.id row ∧
        match o with Some p => edge d i p | None => ¬ ∃ p, edge d i p end) as Hmatch.
  { intros row. pose proof (elem_of_edges_of d (RevisionRow.id row)) as He.
    destruct (filter _ _).*2 as [|q qs].
    - rewrite list_elem_of_singleton. split.
      + intros [= -> ->]. split; [done|]. intros [p Hp%He]. by apply elem_of_nil in Hp.
      + intros [-> Ho]. destruct o as [p|]; [|done]. apply He in Ho. by apply elem_of_nil in Ho.
    - rewrite list_elem_of_fmap. split.
      + intros (p&[= -> ->]&Hp%He). done.
      + intros [-> Ho]. destruct o as [p|]; [exists p; split; [done|]; by apply He|].
        destruct Ho. exists q. apply He. by left. }
  split.
  - intros (row&[-> Ho]%Hmatch&Hrow%elem_of_revision_rows); [|done]. naive_solver.
  - intros [(row&Hrow&Hv) Ho]. exists row. pose proof (wf_row_id _ Hd _ _ Hrow) as <-.
    split; [by apply Hmatch|]. by apply elem_of_revision_rows.
Qed.

(** The graph of a vault has a node for each of its stored revisions, with the
    stored parents. *)
Lemma loadGraph_spec d v :
  wf d → ∃ g, loadGraph v d = (Ok g, d) ∧
  (∀ i, is_Some (g !! i) ↔ ∃ row, Db.revisions d !! i = Some row ∧ RevisionRow.vault_id row = v) ∧
  ∀ i node, g !! i = Some node →
    RevisionNode.id node = i ∧ ∀ p, p ∈ RevisionNode.parentIds node ↔ edge d i p.
Proof.
  intros Hd. eexists. split; [reflexivity|].
  set (m := group_parents (join_rows d v)).
  assert (∀ i, (is_Some (m !! i) ↔ is_Some ((∅ : gmap RevisionId (list RevisionId)) !! i) ∨
      i ∈ (join_rows d v).*1) ∧
    ∀ p, p ∈ default [] (m !! i) ↔
      p ∈ default [] ((∅ : gmap RevisionId (list RevisionId)) !! i) ∨
      (i, Some p) ∈ join_rows d v) as Hm
    by exact (group_parents_fold (join_rows d v) ∅).
  assert (∀ i, is_Some (m !! i) ↔ ∃ row, Db.revisions d !! i = Some row ∧
    RevisionRow.vault_id row = v) as Hdom.
  { intros i. destruct (Hm i) as [Hi _]. rewrite Hi, lookup_empty, list_elem_of_fmap. split.
    - intros [[? [=]]|([j o]&->&Ho%elem_of_join_rows)]; [|done]. apply Ho.
    - intros Hrow. right. pose proof (elem_of_edges_of d i) as He.
      destruct (filter (λ q, q.1 = i) (Db.revision_parents d)).*2 as [|p l].
      + exists (i, None). split; [done|]. apply elem_of_join_rows; [done|]. split; [done|].
        intros [p Hp%He]. by apply elem_of_nil in Hp.
      + exists (i, Some p). split; [done|]. apply elem_of_join_rows; [done|]. split; [done|].
        apply He. by left. }
  split.
  - intros i. rewrite buildGraph_is_Some, <-Hdom, <-list_fmap_compose, list_elem_of_fmap. split.
    + intros ([j ps]&->&Hj%elem_of_map_to_list). simpl. eauto.
    + intros [ps Hps]. exists (i, ps). split; [done|]. by apply elem_of_map_to_list.
  - intros i node [Hid Hin]%buildGraph_lookup_Some. split; [done|]. subst i.
    apply list_elem_of_fmap in Hin as ([j ps]&->&Hj%elem_of_map_to_list). simpl. intros p.
    destruct (Hm j) as [_ Hp]. specialize (Hp p). rewrite Hj, lookup_empty in Hp. simpl in Hp.
    rewrite Hp. split.
    + intros [?%elem_of_nil|Ho%elem_of_join_rows]; [done|apply Ho|done].
    + intros He. right. apply elem_of_join_rows; [done|]. split; [|done]. apply Hdom. eauto.
Qed.

Lemma loadGraph_acyclic d v g : wf d → loadGraph v d = (Ok g, d) → acyclic g.
Proof.
  intros Hd Hg. destruct (loadGraph_spec d v Hd) as (g'&Hg'&_&Hn). rewrite Hg in Hg'.
  injection Hg' as <-. intros x Hx. apply (wf_acyclic d x Hd).
  eapply (tc_congruence id); [|done]. intros a b (node&Ha&Hb). by apply (Hn a node).
Qed.
End graph.

(** ** The revisions of a vault *)

Section revisions.
Context `{RowOrder}.
Implicit Types d : Db.t.

(** The revisions of a vault, as [listRevisions] gives them. *)
Definition revisions_of (d : Db.t) (k : VaultId) : list Revision.t :=
  (λ row, toRevision row (parents_in d (RevisionRow.id row)))
    <$> order_by_desc RevisionRow.created_at (revision_rows d k).

Lemma listRevisions_run k d : listRevisions k d = (Ok (revisions_of d k), d).
Proof. by apply (map_each_pure (λ row, toRevision row (parents_in d (RevisionRow.id row)))). Qed.

Lemma elem_of_revisions_of d k i : wf d →
  i ∈ Revision.id <$> revisions_of d k ↔
  ∃ row, Db.revisions d !! i = Some row ∧ RevisionRow.vault_id row = k.
Proof.
  intros Hd. unfold revisions_of. rewrite <- list_fmap_compose, list_elem_of_fmap.
  setoid_rewrite (order_by_desc_perm RevisionRow.created_at (revision_rows d k)).
  setoid_rewrite elem_of_revision_rows; [|done]. split.
  - intros (row&->&Hrow&Hk). by exists row.
  - intros (row&Hrow&Hk). exists row. simpl. by rewrite (wf_row_id _ Hd _ _ Hrow).
Qed.

Lemma revisions_of_NoDup d k : wf d → NoDup (Revision.id <$> revisions_of d k).
Proof.
  intros Hd. unfold revisions_of. rewrite <- list_fmap_compose.
  change (Revision.id ∘ _) with RevisionRow.id.
  rewrite (order_by_desc_perm RevisionRow.created_at (revision_rows d k)).
  unfold revision_rows. rewrite scan_perm.
  eapply sublist_NoDup; [|apply fmap_sublist, sublist_filter].
  assert (RevisionRow.id <$> (map_to_list (Db.revisions d)).*2 = (map_to_list (Db.revisions d)).*1) as ->;
    [|apply NoDup_fst_map_to_list].
  rewrite <- list_fmap_compose. apply list_fmap_ext. intros i [key row] Hin.
  apply list_elem_of_lookup_2, elem_of_map_to_list in Hin. by apply (wf_row_id _ Hd).
Qed.
End revisions.
