(* ===== verification/StoreProps.v ===== *)
(** * The metadata store: properties *)

From S2P Require Import Prelude Model JsString Json JsonProps Dag DagTheory Effects Store.
From S2P Require Import StoreTheory.
From stdpp Require Import relations sorting.

Open Scope Z_scope.

(** ** Sequences of writes *)

Inductive Write : Type :=
  | SaveVault (v : Vault.t)
  | SaveRevision (r : Revision.t)
  | AppendHeadEvent (e : HeadRevisionEvent.t)
  | SaveBookmark (b : Bookmark.t)
  | SaveConflict (c : Conflict.t)
  | SaveTransfer (t : PendingTransfer.t)
  | RecordPeerHead (dev : DeviceId) (v : VaultId) (r : RevisionId) (at_ : Date)
  | AppendEvent (at_ : Date) (kind payload : string).

Definition run_write (w : Write) : M Db.t unit :=
  match w with
  | SaveVault v => saveVault v
  | SaveRevision r => saveRevision r
  | AppendHeadEvent e => appendHeadEvent e
  | SaveBookmark b => saveBookmark b
  | SaveConflict c => saveConflict c
  | SaveTransfer t => saveTransfer t
  | RecordPeerHead dev v r at_ => recordPeerHead dev v r at_
  | AppendEvent at_ kind payload => appendEvent at_ kind payload
  end.

(** The tables that any sequence of writes reaches, failed ones included, as
    long as no revision is saved again under an id that is taken. *)
Inductive reachable : Db.t → Prop :=
  | reachable_empty : reachable Db.empty
  | reachable_write d w :
      reachable d → (∀ r, w = SaveRevision r → ¬ stored d (Revision.id r)) →
      reachable (run_write w d).2.

Lemma wf_saveVault d v : wf d → wf (saveVault v d).2.
Proof.
  intros [Hvid Hrid Hrv Hnd Hcl Hrk]. unfold saveVault, modify. destruct d; simpl in *.
  split; simpl; try done.
  - intros k w. destruct (decide (Vault.id v = k)) as [<-|Hne].
    + rewrite lookup_insert_eq. intros [= <-]. unfold upsert_vault.
      destruct (vaults !! Vault.id v) as [old|] eqn:Hold; [|done]. simpl. by apply Hvid.
    + rewrite lookup_insert_ne by done. apply Hvid.
  - intros k r Hr. destruct (Hrv k r Hr) as [w Hw]. destruct (decide (Vault.id v = RevisionRow.vault_id r))
      as [->|Hne]; [rewrite lookup_insert_eq; eauto|]. rewrite lookup_insert_ne by done. eauto.
Qed.

Lemma wf_saveRevision d r :
  wf d → ¬ stored d (Revision.id r) → wf (saveRevision r d).2.
Proof.
  intros Hd Hnew. rewrite saveRevision_run.
  destruct (missing_parent d _) as [p|] eqn:Hp; [done|].
  destruct (Db.revisions d !! Revision.id r) eqn:Hr; [destruct Hnew; unfold stored; by rewrite Hr|].
  destruct (Db.vaults d !! Revision.vaultId r) eqn:Hv; [|done]. simpl.
  apply wf_with_revision; [done..|by rewrite Hv|]. by apply missing_parent_None.
Qed.

(** The other writes do not touch the history. *)
Lemma other_writes_same w d :
  match w with SaveVault _ | SaveRevision _ => False | _ => True end →
  same_history d (run_write w d).2.
Proof.
  unfold same_history. destruct d, w; try done; intros _; simpl;
    unfold appendHeadEvent, saveBookmark, saveConflict, saveTransfer, recordPeerHead, appendEvent,
      foreign_key, modify, mbind, M_bind;
    repeat case_match; simplify_eq; done.
Qed.

Lemma reachable_wf d : reachable d → wf d.
Proof.
  induction 1 as [|d w _ IH Hnew]; [apply wf_empty|].
  destruct w as [v|r|e|b|c|t|dev v r a|a k p];
    try by (eapply wf_proper, IH; apply other_writes_same).
  - by apply wf_saveVault.
  - apply wf_saveRevision; [done|]. by apply Hnew.
Qed.

(** A stored history is sound, whatever sequence of writes, successful or
    not, led to it: every parent of a stored revision is stored, no revision is
    its own ancestor, the graph of every vault loads, is acyclic, and defines
    exactly the vault's revisions with their stored parents. *)
Theorem stored_history_sound `{RowOrder} (d : Db.t) (Hd : reachable d) :
  (∀ i r, (getRevision i d).1 = Ok (Some r) →
     ∀ p, p ∈ Revision.parentIds r → (hasRevision p d).1 = Ok true) ∧
  (∀ i, ¬ tc (edge d) i i) ∧
  ∀ v, ∃ g, loadGraph v d = (Ok g, d) ∧ acyclic g ∧
    ∀ i, is_Some (g !! i) ↔ ∃ r, getRevision i d = (Ok (Some r), d) ∧ Revision.vaultId r = v ∧
      ∀ p, parent_of g i p ↔ p ∈ Revision.parentIds r.
Proof.
  apply reachable_wf in Hd. split_and!.
  - intros i r. rewrite getRevision_run. simpl.
    destruct (Db.revisions d !! i) as [row|] eqn:Hrow; [|done]. intros [= <-] p.
    simpl. rewrite elem_of_parents_in. intros He. unfold hasRevision, gets. simpl.
    destruct (wf_closed _ Hd _ _ He) as [_ Hp]. by rewrite bool_decide_true.
  - intros i. by apply wf_acyclic.
  - intros v. destruct (loadGraph_spec d v Hd) as (g&Hg&Hdom&Hnode). exists g.
    split; [done|]. split; [by eapply loadGraph_acyclic|]. intros i. rewrite Hdom.
    rewrite getRevision_run. split.
    + intros (row&Hrow&Hv). rewrite Hrow. eexists. split; [done|]. split; [done|].
      intros p. simpl. rewrite elem_of_parents_in. destruct (proj2 (Hdom i)) as [node Hn]; [eauto|].
      rewrite (parent_of_lookup _ _ _ _ Hn). by apply Hnode.
    + intros (r&[= Hr]&Hv&_). destruct (Db.revisions d !! i) as [row|] eqn:Hrow; [|done].
      injection Hr as <-. eauto.
Qed.

Definition savable (r : Revision.t) (d : Db.t) : Prop :=
  (∀ p, p ∈ Revision.parentIds r → stored d p) ∧
  (stored d (Revision.id r) ∨ is_Some (Db.vaults d !! Revision.vaultId r)).

Lemma saveRevision_cases r d :
  (savable r d ∧ saveRevision r d = (Ok tt, with_revision r d)) ∨
  (¬ savable r d ∧ ∃ e, saveRevision r d = (Err e, d)).
Proof.
  unfold savable, stored. rewrite saveRevision_run.
  pose proof (missing_parent_None d (Revision.parentIds r)) as Hm.
  destruct (missing_parent d (Revision.parentIds r)) as [p|].
  { right. split; [|by eexists]. intros [Hall _]. by apply Hm in Hall. }
  pose proof (proj1 Hm eq_refl) as Hall.
  destruct (Db.revisions d !! Revision.id r) as [row|]; [left; by eauto 10|].
  destruct (Db.vaults d !! Revision.vaultId r) as [v|]; [left; by eauto 10|].
  right. split; [|by eexists]. intros [_ [[? [=]]|[? [=]]]].
Qed.

(** Saving a revision.  With every parent stored, and its vault known or its
    id taken, the call succeeds; otherwise it throws and the tables are as they
    were.  A revision saved under a new id reads back with every field as it was
    and its parents, each once, in some order, and no other revision reads
    differently; one saved under a taken id keeps the stored fields. *)
Theorem saveRevision_contract `{RowOrder} (r : Revision.t) (d : Db.t) (Hd : wf d) :
  (is_ok (saveRevision r d).1 = true ↔ savable r d) ∧
  (is_ok (saveRevision r d).1 = false → (saveRevision r d).2 = d) ∧
  ∀ d', saveRevision r d = (Ok tt, d') →
    (∀ i, i ≠ Revision.id r → (getRevision i d').1 = (getRevision i d).1) ∧
    (stored d (Revision.id r) →
       Db.revisions d' !! Revision.id r = Db.revisions d !! Revision.id r) ∧
    (¬ stored d (Revision.id r) →
       ∃ r', (getRevision (Revision.id r) d').1 = Ok (Some r') ∧ same_revision r r' ∧
         (NoDup (Revision.parentIds r) → Revision.parentIds r' ≡ₚ Revision.parentIds r)).
Proof.
  destruct (saveRevision_cases r d) as [[Hs ->]|[Hs [e ->]]].
  - split_and!; [done|done|]. intros d' [= <-]. split_and!.
    + intros i Hi. by apply getRevision_other.
    + intros [row Hrow]. by rewrite with_revision_lookup, Hrow.
    + intros Hnew. destruct (getRevision_with_revision r d Hd Hnew) as (r'&Hr'&?&?).
      exists r'. by rewrite Hr'.
  - by split_and!.
Qed.

(** ** Transactions *)

Section transactions.
Context {S : Type} `{!Part S Store.t}.
Implicit Types s : S.

Definition store (s : S) : Store.t := part s.

(** A body that reads and writes tables, and may open transactions inside, but
    issues no [BEGIN], [COMMIT] or [ROLLBACK] of its own. *)
Definition framed {A} (m : M S A) : Prop := ∀ s,
  let s' := (m s).2 in
  Store.depth (store s') = Store.depth (store s) ∧
  Store.saved (store s') = Store.saved (store s) ∧
  Store.locked (store s') = Store.locked (store s).

Lemma framed_db {A} (m : M Db.t A) : framed (on (on m : M Store.t A)).
Proof.
  intros s. unfold on, store. destruct (m _) as [r d]. simpl. rewrite part_with.
  unfold with_part; simpl. by destruct (part s).
Qed.

Lemma framed_ret {A} (a : A) : framed (mret a).
Proof. by intros s. Qed.

Lemma framed_bind {A B} (m : M S A) (k : A → M S B) :
  framed m → (∀ a, framed (k a)) → framed (m ≫= k).
Proof.
  intros Hm Hk s. unfold mbind, M_bind. specialize (Hm s).
  destruct (m s) as [[a|e] s1]; simpl in *; [|done].
  destruct Hm as (H1&H2&H3). specialize (Hk a s1). simpl in Hk. by rewrite <-H1, <-H2, <-H3.
Qed.

(** The state in which the body of an outermost transaction starts. *)
Definition opened (s : S) : S :=
  with_part (Store.mk (Store.db (store s)) 1 (Some (Store.db (store s))) false) s.

Lemma transaction_run {A} (body : M S A) s :
  Store.depth (store s) = 0 → Store.saved (store s) = None → Store.locked (store s) = false →
  framed body →
  transaction body s =
  let '(r, s1) := body (opened s) in
  (r, with_part (Store.mk (match r with Ok _ => Store.db (store s1) | Err _ => Store.db (store s) end)
                   0 None false) s1).
Proof.
  intros Hdep Hsav Hloc Hf. unfold transaction. fold (store s). rewrite Hdep.
  change (0 <? 0) with false. cbn iota.
  erewrite bind_eq by (apply on_eq; reflexivity).
  set (s1 := with_part _ s).
  assert (store s1 = Store.mk (Store.db (store s)) 1 None false) as Hs1.
  { unfold s1, store. rewrite part_with. fold (store s). rewrite Hdep, Hsav, Hloc. done. }
  erewrite bind_eq; [|apply on_eq; fold (store s1); rewrite Hs1; reflexivity].
  unfold s1. rewrite with_part_twice. simpl. fold (opened s).
  unfold finally, commit_or_rollback.
  pose proof (Hf (opened s)) as (H1&H2&H3).
  assert (store (opened s) = Store.mk (Store.db (store s)) 1 (Some (Store.db (store s))) false) as Ho.
  { unfold opened, store. by rewrite part_with. }
  rewrite Ho in H1, H2, H3. unfold mbind at 1, M_bind at 1.
  destruct (body (opened s)) as [[a|e] s2]; simpl in H1, H2, H3.
  - erewrite bind_eq.
    2:{ apply on_eq. unfold Store.COMMIT. fold (store s2). rewrite H2. reflexivity. }
    simpl. unfold on, Store.add_depth, modify. rewrite part_with. simpl.
    rewrite with_part_twice, H1, H3. done.
  - erewrite bind_eq.
    2:{ apply on_eq. unfold Store.ROLLBACK. fold (store s2). rewrite H2. reflexivity. }
    simpl. unfold on, Store.add_depth, modify. rewrite part_with. simpl.
    rewrite with_part_twice, H1, H3. done.
Qed.
End transactions.

(** C28: a transaction whose awaits nothing else comes between is atomic.  Its body
    may read and write tables and open transactions inside, but issues no [BEGIN],
    [COMMIT] or [ROLLBACK] of its own.  With no transaction open and the file not
    locked, it runs its body on the current tables and either commits what the
    body left or, when the body throws, throws the same error with the tables
    exactly as they were before; either way no transaction is left open.  When
    the file is locked, the body does not run and no table changes, but the depth
    stays raised.  And while the store believes one open, inside another or after
    a [BEGIN] that failed, it only runs its body, which then is not undone
    ([failed_begin_disables_transactions]; callers that come between the awaits of
    another: [joined_transaction_is_lost]). *)
Theorem transaction_atomic {S A} `{!Part S Store.t} (body : M S A) (s : S) (Hbody : framed body) :
  (Store.depth (store s) = 0 → Store.saved (store s) = None → Store.locked (store s) = false →
   let '(r, s1) := body (opened s) in
   let '(r', s') := transaction body s in
   r' = r ∧ Store.depth (store s') = 0 ∧ Store.saved (store s') = None ∧
   Store.db (store s') =
     (match r with Ok _ => Store.db (store s1) | Err _ => Store.db (store s) end)) ∧
  (Store.depth (store s) = 0 → Store.locked (store s) = true →
   let '(r', s') := transaction body s in
   r' = Err "database is locked" ∧ Store.db (store s') = Store.db (store s) ∧
   Store.saved (store s') = Store.saved (store s) ∧ Store.depth (store s') = 1) ∧
  (0 < Store.depth (store s) → transaction body s = body s).
Proof.
  split_and!.
  - intros Hdepth Hsaved Hlocked. rewrite transaction_run by done. destruct (body (opened s)) as [r s1] eqn:Hb.
    unfold store. rewrite !part_with. simpl. by split_and!.
  - intros Hdepth Hlocked. unfold transaction. fold (store s). rewrite Hdepth. change (0 <? 0) with false. cbv iota.
    erewrite bind_eq by (apply on_eq; reflexivity). set (s1 := with_part _ s).
    assert (store s1 = Store.mk (Store.db (store s)) 1 (Store.saved (store s)) true) as Hs1.
    { unfold s1, store. rewrite part_with. fold (store s). by rewrite Hdepth, Hlocked. }
    erewrite bind_err by (apply on_eq; fold (store s1); unfold Store.BEGIN_IMMEDIATE; rewrite Hs1; reflexivity).
    unfold store. rewrite part_with. fold (store s1). rewrite ?Hs1. done.
  - intros Hdepth. unfold transaction. fold (store s). by rewrite (proj2 (Z.ltb_lt _ _) Hdepth).
Qed.

#[global, refine] Instance self_part {S} : Part S S := { part s := s; with_part t _ := t }.
Proof. all: done. Defined.

Definition v0 : Vault.t := Vault.mk "v" "work" None None 0.
Definition r0 : Revision.t :=
  Revision.mk "r" "v" "h" 3 1 None [] RevisionOperation.imported None.
Definition orphan : Revision.t :=
  Revision.mk "o" "v" "h" 3 1 None ["missing"] RevisionOperation.received None.

(** A body whose last write is refused: the first one is undone. *)
Definition failing_body : M Store.t unit :=
  on (on (saveVault v0) : M Store.t unit) ≫= λ _, on (on (saveRevision orphan) : M Store.t unit).

Lemma transaction_atomic_witness :
  is_ok (transaction failing_body Store.open).1 = false ∧
  Store.db (store (transaction failing_body Store.open).2) = Db.empty.
Proof.
  assert (framed failing_body) as Hf.
  { apply framed_bind; [apply framed_db|intros _; apply framed_db]. }
  pose proof (proj1 (transaction_atomic failing_body Store.open Hf) eq_refl eq_refl eq_refl) as H.
  destruct (failing_body (opened Store.open)) as [r s1] eqn:Hb.
  destruct (transaction failing_body Store.open) as [r' s'] eqn:Ht.
  destruct H as (->&_&_&Hdb). vm_compute in Hb. injection Hb as <- <-.
  split; [reflexivity|]. exact Hdb.
Defined.

(** One order of rows: the order in which they were inserted. *)
Definition insertion_order : RowOrder := {| scan A l := l; scan_perm A l := reflexivity l |}.

Lemma saveRevision_contract_witness :
  wf (saveVault v0 Db.empty).2 ∧
  (is_ok (saveRevision r0 (saveVault v0 Db.empty).2).1 = true ↔
     savable r0 (saveVault v0 Db.empty).2).
Proof.
  assert (wf (saveVault v0 Db.empty).2) as Hd by apply wf_saveVault, wf_empty.
  split; [exact Hd|].
  exact (proj1 (saveRevision_contract (H := insertion_order) r0 _ Hd)).
Defined.

Lemma reachable_r0 : reachable (saveRevision r0 (saveVault v0 Db.empty).2).2.
Proof.
  apply (reachable_write _ (SaveRevision r0)).
  - apply (reachable_write _ (SaveVault v0)); [apply reachable_empty|by intros].
  - intros r [= <-] [row Hrow]. vm_compute in Hrow. discriminate.
Qed.

Lemma stored_history_sound_witness :
  let d := (saveRevision r0 (saveVault v0 Db.empty).2).2 in
  (getRevision (H := insertion_order) "r" d).1 = Ok (Some r0) ∧ ∀ i, ¬ tc (edge d) i i.
Proof.
  split; [vm_compute; reflexivity|].
  exact (proj1 (proj2 (stored_history_sound (H := insertion_order) _ reachable_r0))).
Defined.

(** ** Where atomicity is lost *)

Definition unlock (s : Store.t) : Store.t :=
  Store.mk (Store.db s) (Store.depth s) (Store.saved s) false.

(** A [BEGIN] that fails disables every later transaction.  The depth is
    raised before [BEGIN IMMEDIATE] runs, outside the block whose [finally]
    lowers it, so when the file is locked the call throws and the depth stays
    raised: from then on, the lock released, [transaction] only runs its body,
    and a body that throws keeps the writes it made. *)
Theorem failed_begin_disables_transactions {A B} (first : M Store.t A) (later : M Store.t B)
    (s : Store.t) (Hdepth : Store.depth s = 0) (Hlocked : Store.locked s = true) :
  ∃ s', transaction first s = (Err "database is locked", s') ∧
    Store.depth s' = 1 ∧ Store.db s' = Store.db s ∧
    transaction later (unlock s') = later (unlock s') ∧
    (Store.db s = Db.empty →
       let out := transaction failing_body (unlock s') in
       is_ok out.1 = false ∧ Db.vaults (Store.db out.2) !! "v" = Some v0).
Proof.
  destruct s as [d dep sav loc]. simpl in *. subst dep loc. unfold transaction. simpl.
  change (0 <? 0) with false. cbn iota. eexists. split; [reflexivity|].
  split_and!; [done|done|done|]. intros ->. vm_compute. done.
Qed.

Lemma failed_begin_disables_transactions_witness :
  ∃ s', transaction failing_body (Store.mk Db.empty 0 None true)
          = (Err "database is locked", s') ∧
    Db.vaults (Store.db (transaction failing_body (unlock s')).2) !! "v" = Some v0.
Proof.
  destruct (failed_begin_disables_transactions failing_body failing_body
    (Store.mk Db.empty 0 None true) eq_refl eq_refl) as (s'&Hs'&_&_&_&Hv).
  exists s'. split; [exact Hs'|]. exact (proj2 (Hv eq_refl)).
Defined.

(** The same writes as [transaction] runs them, cut at its awaits: entering,
    the body and leaving are the whole transaction when nothing comes between. *)
Lemma transaction_steps {A} (body : M Store.t A) (s : Store.t) a s2 :
  Store.depth s = 0 → Store.saved s = None → Store.locked s = false → framed body →
  (tx_enter ≫= λ e, body ≫= λ a, tx_commit e ≫= λ _, mret a) s = (Ok a, s2) →
  transaction body s = (Ok a, s2).
Proof.
  intros Hd Hs Hl Hf Hrun. rewrite transaction_run by done. unfold store, opened. simpl.
  destruct s as [d dep sav loc]; simpl in *; subst.
  unfold tx_enter, mbind, M_bind in Hrun. simpl in Hrun. change (0 + 1) with 1 in Hrun.
  pose proof (Hf (Store.mk d 1 (Some d) false)) as (H1&H2&H3). unfold store in *. simpl in *.
  destruct (body (Store.mk d 1 (Some d) false)) as [[b|e] s1]; [|done]. simpl in *.
  destruct s1 as [d1 dep1 sav1 loc1]. simpl in *. subst. unfold Store.COMMIT in Hrun. simpl in Hrun.
  by simplify_eq.
Qed.

(** Transactions of two callers are not serialized.  While a first caller is
    between two awaits of its transaction, the transaction of a second caller
    joins it instead of waiting in the queue; when the first then throws, the
    second has already reported success and its write is undone. *)
Theorem joined_transaction_is_lost (v w : Vault.t) (d : Db.t) :
  let s0 := Store.mk d 0 None false in
  ∃ s1 s2,
    (* the first caller enters and writes *)
    (tx_enter ≫= λ e, on (saveVault v) ≫= λ _, mret e) s0 = (Ok begun, s1) ∧
    (* the second caller runs its whole transaction *)
    (tx_enter ≫= λ e, on (saveVault w) ≫= λ _, tx_commit e ≫= λ _, mret e) s1 = (Ok joined, s2) ∧
    is_Some (Db.vaults (Store.db s2) !! Vault.id w) ∧
    (* the first caller throws and rolls back *)
    tx_rollback begun s2 = (Ok tt, s0).
Proof.
  eexists _, _. split; [reflexivity|]. split; [reflexivity|]. split; [|reflexivity].
  simpl. destruct d; simpl. rewrite lookup_insert_eq. eauto.
Qed.
