(* ===== verification/BlobStore.v ===== *)
(** * The blob store

    packages/storage-node/src/blobStore.ts: encrypted bytes in files named by
    their hash, written to a temporary file, synced, and renamed into place.  The
    file system is modelled with the two facts that make that order matter: a
    file's bytes reach the disk only when it is synced, and a crash may lose or
    damage whatever did not.

    [Class BlobStore] is what packages/core/src/ports.ts promises to the sync
    engine: an abstract map from hashes to bytes.  SHA-256 is a parameter: its
    digest is 64 lower-case hexadecimal digits; it is never assumed to have no
    collision. *)

From S2P Require Import Prelude Model Bytes JsString Effects.

Open Scope Z_scope.

(** ** The interface *)

(** A hash function whose digests are keys of the store. *)
Class Sha256 : Type := {
  sha256 : Uint8Array → Sha256Hex;
  sha256_hex : ∀ bytes, length (chars (sha256 bytes)) = 64%nat ∧
    forallb (λ c, is_lower_hex (charCode c)) (chars (sha256 bytes)) = true;
}.

(** The operations of a content-addressed store and what they promise, in terms
    of the bytes it holds under each hash. *)
Class BlobStore (B : Type) `{Sha256} : Type := {
  view : B → Sha256Hex → option Uint8Array;
  blob_ok : B → Prop;
  blob_put : Uint8Array → M B Sha256Hex;
  blob_get : Sha256Hex → M B Uint8Array;
  blob_has : Sha256Hex → M B bool;
  view_hash : ∀ s h bytes, blob_ok s → view s h = Some bytes → sha256 bytes = h;
  put_spec : ∀ s bytes r s', blob_ok s → blob_put bytes s = (r, s') →
    blob_ok s' ∧
    (∀ h b, view s h = Some b → view s' h = Some b) ∧
    match r with
    | Ok h => h = sha256 bytes ∧ ∃ b, view s' h = Some b ∧ (view s h = None → b = bytes)
    | Err _ => ∀ h, view s' h = view s h
    end;
  get_spec : ∀ s h bytes, blob_ok s → view s h = Some bytes → blob_get h s = (Ok bytes, s);
  get_missing : ∀ s h, blob_ok s → view s h = None → is_ok (blob_get h s).1 = false;
  get_pure : ∀ s h, (blob_get h s).2 = s;
  has_spec : ∀ s h, blob_has h s = (Ok (bool_decide (is_Some (view s h))), s);
}.

(** ** The file system *)

Module File.
Record t : Type := mk {
  content : Uint8Array;
  durable : bool;
}.
End File.

Module FS.
Record t : Type := mk {
  dirs : gset string;
  files : gmap string File.t;
}.

Definition set_files f (s : t) : t := mk (dirs s) f.

(** [mkdir(path, { recursive: true })]. *)
Definition mkdir (path : string) : M t unit := modify (λ s, mk ({[path]} ∪ dirs s) (files s)).

(** [open(path, "w")] in a directory: creates or empties the file. *)
Definition open_w (dir path : string) : M t unit := λ s,
  if decide (dir ∈ dirs s) then
    (Ok tt, set_files (<[path := File.mk [] false]> (files s)) s)
  else (Err "ENOENT: no such file or directory", s).

Definition write_file (path : string) (bytes : Uint8Array) : M t unit := λ s,
  match files s !! path with
  | Some _ => (Ok tt, set_files (<[path := File.mk bytes false]> (files s)) s)
  | None => (Err "EBADF: bad file descriptor", s)
  end.

Definition sync (path : string) : M t unit := λ s,
  match files s !! path with
  | Some f => (Ok tt, set_files (<[path := File.mk (File.content f) true]> (files s)) s)
  | None => (Err "EBADF: bad file descriptor", s)
  end.

(** [rename(from, to)] within the file system: atomic, replaces the target. *)
Definition rename (from dir to : string) : M t unit := λ s,
  match files s !! from with
  | Some f =>
      if decide (dir ∈ dirs s) then
        (Ok tt, set_files (<[to := f]> (delete from (files s))) s)
      else (Err "ENOENT: no such file or directory", s)
  | None => (Err "ENOENT: no such file or directory", s)
  end.

(** [rm(path, { force: true })]. *)
Definition rm (path : string) : M t unit := modify (λ s, set_files (delete path (files s)) s).

Definition stat (path : string) : M t Z := λ s,
  match files s !! path with
  | Some f => (Ok (byteLength (File.content f)), s)
  | None => (Err "ENOENT: no such file or directory", s)
  end.

Definition read_file (path : string) : M t Uint8Array := λ s,
  match files s !! path with
  | Some f => (Ok (File.content f), s)
  | None => (Err "ENOENT: no such file or directory", s)
  end.

(** What a crash may leave, all of it on the disk: a file whose bytes had
    reached the disk keeps them or, if its name had not, disappears; any other
    file holds anything. *)
Definition crash (s s' : t) : Prop :=
  ∀ path f', files s' !! path = Some f' →
    File.durable f' = true ∧ ∃ f, files s !! path = Some f ∧
      (File.durable f = true → File.content f' = File.content f).
End FS.

(** ** FileBlobStore *)

Section store.
Context `{Sha256} (rootDir : string).

Definition blobsDir : string := rootDir +:+ "/blobs".
Definition tmpDir : string := rootDir +:+ "/tmp".

Definition shardOf (hash : Sha256Hex) : string := slice hash 0 2.
Definition shardDir (hash : Sha256Hex) : string := blobsDir +:+ "/" +:+ shardOf hash.

Definition is_key (hash : string) : bool :=
  (length (chars hash) =? 64)%nat && forallb (λ c, is_lower_hex (charCode c)) (chars hash).

Definition pathFor (hash : Sha256Hex) : result string :=
  assert (is_key hash) "blob key must be a sha256 hex digest" ≫= λ _,
  Ok (shardDir hash +:+ "/" +:+ hash +:+ ".kdbx").

Definition tempPath (uuid : string) : string := tmpDir +:+ "/" +:+ uuid +:+ ".part".

Definition init : M FS.t unit := FS.mkdir blobsDir ≫= λ _, FS.mkdir tmpDir.

Definition sizeOf (hash : Sha256Hex) : M FS.t (option Z) := λ s,
  match (lift (pathFor hash) ≫= FS.stat) s with
  | (Ok size, s) => (Ok (Some size), s)
  | (Err _, s) => (Ok None, s)
  end.

Definition has (hash : Sha256Hex) : M FS.t bool :=
  sizeOf hash ≫= λ size, mret (bool_decide (is_Some size)).

(** The last [try] of [put]: the rename, or the removal and the error again. *)
Definition rename_or_clean (from dir to : string) : M FS.t unit := λ s,
  match FS.rename from dir to s with
  | (Ok u, s) => (Ok u, s)
  | (Err e, s) => (FS.rm from ≫= λ _, throw e) s
  end.

(** The calls that put bytes under their final name, after the early return. *)
Definition write_blob (uuid hash : string) (bytes : Uint8Array) : M FS.t unit :=
  lift (pathFor hash) ≫= λ finalPath,
  FS.mkdir (shardDir hash) ≫= λ _,
  FS.open_w tmpDir (tempPath uuid) ≫= λ _,
  FS.write_file (tempPath uuid) bytes ≫= λ _,
  FS.sync (tempPath uuid) ≫= λ _,
  rename_or_clean (tempPath uuid) (shardDir hash) finalPath.

(** [put], with the UUID that names its temporary file. *)
Definition put (uuid : string) (bytes : Uint8Array) : M FS.t Sha256Hex :=
  let hash := sha256 bytes in
  has hash ≫= λ present,
  if (present : bool) then (mret hash : M FS.t Sha256Hex)
  else write_blob uuid hash bytes ≫= λ _, mret hash.

Definition get (hash : Sha256Hex) : M FS.t Uint8Array :=
  lift (pathFor hash) ≫= FS.read_file.

Definition delete_blob (hash : Sha256Hex) : M FS.t unit :=
  lift (pathFor hash) ≫= FS.rm.

Definition verify_blob (hash : Sha256Hex) : M FS.t bool := λ s,
  match get hash s with
  | (Ok bytes, s) => (Ok (bool_decide (sha256 bytes = hash)), s)
  | (Err _, s) => (Ok false, s)
  end.

(** Every file under the temporary directory. *)
Definition is_temp (path : string) : Prop := ∃ uuid, path = tempPath uuid.

Definition under (dir path : string) : bool := String.prefix (dir +:+ "/") path.

Definition sweepTemp : M FS.t unit :=
  modify (λ s, FS.mk (FS.dirs s ∖ {[tmpDir]})
    (filter (λ kv, under tmpDir kv.1 = false) (FS.files s))) ≫= λ _,
  FS.mkdir tmpDir.
End store.

(** ** Several puts at once, failures and crashes

    A [put] that found its hash absent goes through five calls; between two of
    them other work runs, any of them can fail, and the machine can stop. *)

Inductive Stage : Type := AtMkdir | AtOpen | AtWrite | AtSync | AtRename.

Definition run_stage (rootDir uuid hash finalPath : string) (bytes : Uint8Array) (stage : Stage)
    : M FS.t unit :=
  match stage with
  | AtMkdir => FS.mkdir (shardDir rootDir hash)
  | AtOpen => FS.open_w (tmpDir rootDir) (tempPath rootDir uuid)
  | AtWrite => FS.write_file (tempPath rootDir uuid) bytes
  | AtSync => FS.sync (tempPath rootDir uuid)
  | AtRename =>
      rename_or_clean (tempPath rootDir uuid) (shardDir rootDir hash) finalPath
  end.

Definition next_stage (stage : Stage) : option Stage :=
  match stage with
  | AtMkdir => Some AtOpen
  | AtOpen => Some AtWrite
  | AtWrite => Some AtSync
  | AtSync => Some AtRename
  | AtRename => None
  end.

(** The puts in flight, by the UUID of their temporary file. *)
Module Put.
Record t : Type := mk {
  bytes : Uint8Array;
  stage : Stage;
}.
End Put.

Module Disk.
Record t : Type := mk {
  fs : FS.t;
  puts : gmap string Put.t;
}.
End Disk.

Inductive disk_step `{Sha256} (rootDir : string) : Disk.t → Disk.t → Prop :=
  (* a put starts, under a fresh UUID, and finds its hash absent *)
  | step_start fs puts uuid bytes :
      puts !! uuid = None → (has rootDir (sha256 bytes) fs).1 = Ok false →
      disk_step rootDir (Disk.mk fs puts)
        (Disk.mk fs (<[uuid := Put.mk bytes AtMkdir]> puts))
  (* one call of a put succeeds *)
  | step_call fs puts uuid bytes stage finalPath fs' :
      puts !! uuid = Some (Put.mk bytes stage) →
      pathFor rootDir (sha256 bytes) = Ok finalPath →
      run_stage rootDir uuid (sha256 bytes) finalPath bytes stage fs = (Ok tt, fs') →
      disk_step rootDir (Disk.mk fs puts)
        (Disk.mk fs' (match next_stage stage with
                      | Some stage => <[uuid := Put.mk bytes stage]> puts
                      | None => delete uuid puts
                      end))
  (* part of a write reaches the file *)
  | step_partial_write fs puts uuid bytes n fs' :
      puts !! uuid = Some (Put.mk bytes AtWrite) →
      FS.write_file (tempPath rootDir uuid) (take n bytes) fs = (Ok tt, fs') →
      disk_step rootDir (Disk.mk fs puts) (Disk.mk fs' puts)
  (* a call fails and the put throws, leaving or removing its temporary file *)
  | step_fail fs puts uuid put (cleaned : bool) :
      puts !! uuid = Some put →
      disk_step rootDir (Disk.mk fs puts)
        (Disk.mk (if cleaned then (FS.rm (tempPath rootDir uuid) fs).2 else fs)
           (delete uuid puts))
  | step_delete fs puts hash :
      disk_step rootDir (Disk.mk fs puts) (Disk.mk (delete_blob rootDir hash fs).2 puts)
  (* the machine stops and starts again: the puts are gone, the store is opened *)
  | step_crash fs puts fs' :
      FS.crash fs fs' →
      disk_step rootDir (Disk.mk fs puts)
        (Disk.mk ((init rootDir ≫= λ _, sweepTemp rootDir) fs').2 ∅).
