(* ===== verification/BlobProps.v ===== *)
(** * The blob store: properties

    What is found under a hash is bytes of that hash, whatever puts were in
    flight, failed or were cut off by a crash; and the store implements the
    interface the engine is proved against. *)

From S2P Require Import Prelude Model Bytes JsString Effects BlobStore.
From stdpp Require Import relations.

Open Scope Z_scope.

(** ** Paths *)

Section paths.
Context (rootDir : string).

Definition path_of (h : Sha256Hex) : string := shardDir rootDir h +:+ "/" +:+ h +:+ ".kdbx".

Lemma pathFor_key h : is_key h = true → pathFor rootDir h = Ok (path_of h).
Proof. unfold pathFor, path_of. by intros ->. Qed.

Lemma pathFor_ok h p : pathFor rootDir h = Ok p ↔ is_key h = true ∧ p = path_of h.
Proof.
  unfold pathFor, path_of. rewrite assert_bind. split; [by intros [? [= <-]]|by intros [? ->]].
Qed.

Lemma path_of_inj h k : is_key h = true → is_key k = true → path_of h = path_of k → h = k.
Proof.
  unfold is_key. rewrite !andb_true_iff, !Nat.eqb_eq. intros [Hh _] [Hk _] Heq.
  apply (f_equal chars) in Heq. unfold path_of in Heq. rewrite !chars_app in Heq.
  rewrite !(app_assoc (chars "/")), !(app_assoc (chars (shardDir _ _))) in Heq.
  apply app_inj_2 in Heq as [Heq _]; [|done].
  apply app_inj_2 in Heq as [_ Heq]; [|by rewrite Hh, Hk]. by apply chars_inj.
Qed.

Lemma tempPath_inj u v : tempPath rootDir u = tempPath rootDir v → u = v.
Proof.
  intros Heq%(f_equal chars). unfold tempPath in Heq. rewrite !chars_app in Heq.
  apply app_inv_head, app_inv_head, app_inv_tail in Heq. by apply chars_inj.
Qed.

(** The two directories part at the second character after the root. *)
Lemma temp_not_blob u h : tempPath rootDir u ≠ path_of h.
Proof.
  intros Heq%(f_equal chars). unfold tempPath, path_of, shardDir, tmpDir, blobsDir in Heq.
  rewrite !chars_app, <-!app_assoc in Heq. apply app_inv_head in Heq. discriminate Heq.
Qed.

Lemma prefix_chars a b : String.prefix a b = true → ∃ t, chars b = chars a ++ t.
Proof.
  revert b. induction a as [|c a IH]; intros [|d b]; simpl; try done; [by eexists..|].
  destruct (Ascii.ascii_dec c d) as [->|]; [|done]. intros [t Ht]%IH. exists t.
  unfold chars in *. simpl. by rewrite Ht.
Qed.

Lemma blob_not_under_tmp h : under (tmpDir rootDir) (path_of h) = false.
Proof.
  apply not_true_iff_false. intros [t Ht]%prefix_chars.
  unfold path_of, shardDir, tmpDir, blobsDir in Ht.
  rewrite !chars_app, <-!app_assoc in Ht. apply app_inv_head in Ht. discriminate Ht.
Qed.
End paths.

(** ** The invariant of the disk *)

Section disk.
Context `{Sha256} (rootDir : string).

Definition good (fs : FS.t) : Prop :=
  ∀ h f, is_key h = true → FS.files fs !! path_of rootDir h = Some f →
    File.durable f = true ∧ sha256 (File.content f) = h.

Lemma sha256_key bytes : is_key (sha256 bytes) = true.
Proof.
  destruct (sha256_hex bytes) as [Hl Hh]. unfold is_key. by rewrite Hl, Hh.
Qed.

(** What a put in flight has on disk. *)
Definition put_ok (fs : FS.t) (uuid : string) (p : Put.t) : Prop :=
  match Put.stage p with
  | AtSync => ∃ d, FS.files fs !! tempPath rootDir uuid = Some (File.mk (Put.bytes p) d)
  | AtRename => FS.files fs !! tempPath rootDir uuid = Some (File.mk (Put.bytes p) true)
  | _ => True
  end.

Definition disk_inv (d : Disk.t) : Prop :=
  good (Disk.fs d) ∧
  ∀ uuid p, Disk.puts d !! uuid = Some p → put_ok (Disk.fs d) uuid p.

(** Writing a temporary file leaves the blobs and the other puts alone. *)
Lemma good_temp fs uuid f :
  good fs → good (FS.set_files (<[tempPath rootDir uuid := f]> (FS.files fs)) fs).
Proof.
  intros Hg h g Hh. simpl. rewrite lookup_insert_ne by apply temp_not_blob. by apply Hg.
Qed.

Lemma good_delete fs path : good fs → good (FS.set_files (delete path (FS.files fs)) fs).
Proof. intros Hg h f Hh Hf. simpl in Hf. apply lookup_delete_Some in Hf as [_ Hf]. by apply Hg. Qed.

Lemma put_ok_other fs uuid v f p :
  uuid ≠ v → put_ok fs v p →
  put_ok (FS.set_files (<[tempPath rootDir uuid := f]> (FS.files fs)) fs) v p.
Proof.
  intros Hne. unfold put_ok. simpl.
  rewrite lookup_insert_ne by (intros ?%tempPath_inj; done). done.
Qed.

Lemma put_ok_delete_other fs path v p :
  path ≠ tempPath rootDir v → put_ok fs v p →
  put_ok (FS.set_files (delete path (FS.files fs)) fs) v p.
Proof. intros Hne. unfold put_ok. simpl. by rewrite lookup_delete_ne. Qed.

(** A put that moves on to a stage its own temporary file is ready for. *)
Lemma puts_advance fs (puts : gmap string Put.t) uuid p f :
  (∀ v q, puts !! v = Some q → put_ok fs v q) →
  put_ok (FS.set_files (<[tempPath rootDir uuid := f]> (FS.files fs)) fs) uuid p →
  ∀ v q, <[uuid := p]> puts !! v = Some q →
    put_ok (FS.set_files (<[tempPath rootDir uuid := f]> (FS.files fs)) fs) v q.
Proof.
  intros Hputs Hp v q. destruct (decide (uuid = v)) as [<-|Hne].
  - rewrite lookup_insert_eq. by intros [= <-].
  - rewrite lookup_insert_ne by done. intros Hq. by apply put_ok_other, Hputs.
Qed.

Lemma init_sweep_files fs :
  FS.files ((init rootDir ≫= λ _, sweepTemp rootDir) fs).2
  = filter (λ kv, under (tmpDir rootDir) kv.1 = false) (FS.files fs).
Proof. reflexivity. Qed.

Lemma disk_inv_call fs puts uuid bytes stage finalPath fs' :
  disk_inv (Disk.mk fs puts) → puts !! uuid = Some (Put.mk bytes stage) →
  pathFor rootDir (sha256 bytes) = Ok finalPath →
  run_stage rootDir uuid (sha256 bytes) finalPath bytes stage fs = (Ok tt, fs') →
  disk_inv (Disk.mk fs' (match next_stage stage with
    | Some stage => <[uuid := Put.mk bytes stage]> puts | None => delete uuid puts end)).
Proof.
  intros [Hg Hputs] Hu Hpath Hrun. simpl in Hg, Hputs. pose proof (Hputs _ _ Hu) as Hme.
  destruct stage; simpl in Hrun |- *.
  - injection Hrun as <-. split; [exact Hg|]. simpl. intros v q.
    destruct (decide (uuid = v)) as [<-|Hne]; [rewrite lookup_insert_eq; by intros [= <-]|].
    rewrite lookup_insert_ne by done. apply Hputs.
  - unfold FS.open_w in Hrun. case_decide; [|done]. injection Hrun as <-.
    split; [by apply good_temp|]. by apply puts_advance.
  - unfold FS.write_file in Hrun. case_match; [|done]. injection Hrun as <-.
    split; [by apply good_temp|]. apply puts_advance; [done|]. exists false. simpl.
    apply lookup_insert_eq.
  - destruct Hme as [d Hd]. simpl in Hd. unfold FS.sync in Hrun. rewrite Hd in Hrun.
    injection Hrun as <-. split; [by apply good_temp|]. apply puts_advance; [done|].
    unfold put_ok. simpl. apply lookup_insert_eq.
  - unfold put_ok in Hme. simpl in Hme. unfold rename_or_clean, FS.rename in Hrun.
    rewrite Hme in Hrun. case_decide; [|done]. injection Hrun as <-.
    apply pathFor_ok in Hpath as [Hkey ->]. split; simpl.
    + intros h f Hh. simpl. destruct (decide (sha256 bytes = h)) as [<-|Hne].
      * rewrite lookup_insert_eq. by intros [= <-].
      * rewrite lookup_insert_ne by (intros ?%path_of_inj; done).
        intros [_ Hf]%lookup_delete_Some. by apply Hg.
    + intros v q [Hne Hq]%lookup_delete_Some. specialize (Hputs v q Hq). unfold put_ok in *.
      simpl. rewrite lookup_insert_ne by (intros Heq; by eapply temp_not_blob).
      rewrite lookup_delete_ne by (intros ?%tempPath_inj; done). done.
Qed.

Lemma disk_inv_step d d' : disk_inv d → disk_step rootDir d d' → disk_inv d'.
Proof.
  intros Hinv Hstep. destruct Hstep as [fs puts uuid bytes Hu Hhas|
    fs puts uuid bytes stage finalPath fs' Hu Hpath Hrun|fs puts uuid bytes n fs' Hu Hrun|
    fs puts uuid p cleaned Hu|fs puts h|fs puts fs' Hcrash].
  - destruct Hinv as [Hg Hputs]. split; [done|]. simpl in *. intros v q.
    destruct (decide (uuid = v)) as [<-|]; [rewrite lookup_insert_eq; by intros [= <-]|].
    rewrite lookup_insert_ne by done. apply Hputs.
  - by eapply disk_inv_call.
  - destruct Hinv as [Hg Hputs]. simpl in *. unfold FS.write_file in Hrun.
    case_match; [|done]. injection Hrun as <-. split; [by apply good_temp|].
    rewrite <-(insert_id puts uuid (Put.mk bytes AtWrite)) by done. by apply puts_advance.
  - destruct Hinv as [Hg Hputs]. simpl in *. split; simpl.
    + destruct cleaned; [by apply good_delete|done].
    + intros v q [Hne Hq]%lookup_delete_Some. destruct cleaned; [|by apply Hputs].
      apply put_ok_delete_other; [intros ?%tempPath_inj; done|by apply Hputs].
  - destruct Hinv as [Hg Hputs]. unfold delete_blob. unfold lift, mbind, M_bind.
    destruct (pathFor rootDir h) as [path|e] eqn:Hp; [|by split].
    apply pathFor_ok in Hp as [_ ->]. split; simpl; [by apply good_delete|].
    intros v q Hq. apply put_ok_delete_other; [|by apply Hputs].
    intros Heq. by eapply temp_not_blob.
  - destruct Hinv as [Hg _]. split; [|simpl; by intros ? ? ?%lookup_empty_Some].
    intros h f Hh. cbn [Disk.fs]. rewrite init_sweep_files.
    intros [Hf _]%map_lookup_filter_Some.
    destruct (Hcrash _ _ Hf) as (Hdisk&f0&Hf0&Hd). destruct (Hg h f0 Hh Hf0) as [Hdur Hhash].
    split; [done|by rewrite Hd].
Qed.

Lemma disk_inv_reachable d : rtc (disk_step rootDir) (Disk.mk (FS.mk ∅ ∅) ∅) d → disk_inv d.
Proof.
  intros Hsteps. remember (Disk.mk (FS.mk ∅ ∅) ∅) as d0 eqn:Hd0.
  assert (disk_inv d0) as Hinv.
  { subst. split; simpl; [|by intros ? ? ?%lookup_empty_Some].
    intros h f _ Hf. simpl in Hf. by apply lookup_empty_Some in Hf. }
  clear Hd0. induction Hsteps as [|d0 d1 d2 Hstep _ IH]; [done|].
  apply IH. by eapply disk_inv_step.
Qed.

(** ** One put at a time *)

Definition blob_view (fs : FS.t) (h : Sha256Hex) : option Uint8Array :=
  if is_key h then File.content <$> FS.files fs !! path_of rootDir h else None.

Lemma has_run h fs : has rootDir h fs = (Ok (bool_decide (is_Some (blob_view fs h))), fs).
Proof.
  unfold has, sizeOf, blob_view, lift, FS.stat, mbind, M_bind, mret, M_ret.
  destruct (is_key h) eqn:Hk.
  - rewrite pathFor_key by done. destruct (FS.files fs !! path_of rootDir h); reflexivity.
  - unfold pathFor. rewrite Hk. reflexivity.
Qed.

Lemma get_run h fs :
  get rootDir h fs = (match blob_view fs h with
    | Some bytes => Ok bytes
    | None => if is_key h then Err "ENOENT: no such file or directory"
              else Err "Contract violation: blob key must be a sha256 hex digest" end, fs).
Proof.
  unfold get, blob_view, lift, FS.read_file, mbind, M_bind. destruct (is_key h) eqn:Hk.
  - rewrite pathFor_key by done. destruct (FS.files fs !! path_of rootDir h); reflexivity.
  - unfold pathFor. rewrite Hk. reflexivity.
Qed.

Lemma blob_view_good fs h bytes : good fs → blob_view fs h = Some bytes → sha256 bytes = h.
Proof.
  unfold blob_view. intros Hg. destruct (is_key h) eqn:Hk; [|done].
  intros (f&Hf&->)%fmap_Some. by apply (Hg h f).
Qed.

(** The file system a put leaves: the bytes under their final name, nothing
    left under the temporary one. *)
Definition after_put (uuid : string) (bytes : Uint8Array) (fs : FS.t) : FS.t :=
  FS.mk ({[shardDir rootDir (sha256 bytes)]} ∪ FS.dirs fs)
    (<[path_of rootDir (sha256 bytes) := File.mk bytes true]>
       (delete (tempPath rootDir uuid) (FS.files fs))).

Lemma write_blob_run uuid bytes fs :
  write_blob rootDir uuid (sha256 bytes) bytes fs =
  if decide (tmpDir rootDir ∈ {[shardDir rootDir (sha256 bytes)]} ∪ FS.dirs fs)
  then (Ok tt, after_put uuid bytes fs)
  else (Err "ENOENT: no such file or directory",
        FS.mk ({[shardDir rootDir (sha256 bytes)]} ∪ FS.dirs fs) (FS.files fs)).
Proof.
  unfold write_blob. erewrite bind_eq by (unfold lift; by rewrite pathFor_key by apply sha256_key).
  erewrite bind_eq by reflexivity. case_decide as Hd.
  - erewrite bind_eq by (unfold FS.open_w; by rewrite decide_True).
    erewrite bind_eq by (unfold FS.write_file; simpl; by rewrite lookup_insert_eq).
    erewrite bind_eq by (unfold FS.sync; simpl; by rewrite lookup_insert_eq).
    unfold rename_or_clean, FS.rename. simpl. rewrite lookup_insert_eq.
    rewrite decide_True by set_solver. unfold after_put, FS.set_files. simpl.
    by rewrite !delete_insert_eq.
  - erewrite bind_err; [done|]. unfold FS.open_w. by rewrite decide_False.
Qed.

Lemma put_run uuid bytes fs :
  put rootDir uuid bytes fs =
  match blob_view fs (sha256 bytes) with
  | Some _ => (Ok (sha256 bytes), fs)
  | None =>
      if decide (tmpDir rootDir ∈ {[shardDir rootDir (sha256 bytes)]} ∪ FS.dirs fs)
      then (Ok (sha256 bytes), after_put uuid bytes fs)
      else (Err "ENOENT: no such file or directory",
            FS.mk ({[shardDir rootDir (sha256 bytes)]} ∪ FS.dirs fs) (FS.files fs))
  end.
Proof.
  unfold put. rewrite (bind_eq _ _ _ _ _ (has_run _ _)).
  destruct (blob_view fs (sha256 bytes)); [done|].
  rewrite bool_decide_false by by intros [? [=]]. cbn iota.
  pose proof (write_blob_run uuid bytes fs) as Hw. case_decide.
  - by rewrite (bind_eq _ _ _ _ _ Hw).
  - by rewrite (bind_err _ _ _ _ _ Hw).
Qed.

Lemma view_after_put uuid bytes fs h :
  blob_view (after_put uuid bytes fs) h =
  if decide (h = sha256 bytes) then Some bytes else blob_view fs h.
Proof.
  unfold blob_view, after_put. simpl. case_decide as Hh.
  - subst. by rewrite sha256_key, lookup_insert_eq.
  - destruct (is_key h) eqn:Hk; [|done].
    rewrite lookup_insert_ne by (intros ?%path_of_inj; [done|apply sha256_key|done]).
    rewrite lookup_delete_ne; [done|]. apply temp_not_blob.
Qed.

Lemma good_after_put uuid bytes fs : good fs → good (after_put uuid bytes fs).
Proof.
  intros Hg h f Hk. unfold after_put. simpl. destruct (decide (sha256 bytes = h)) as [<-|Hne].
  - rewrite lookup_insert_eq. by intros [= <-].
  - rewrite lookup_insert_ne by (intros ?%path_of_inj; [done|apply sha256_key|done]).
    intros [_ Hf]%lookup_delete_Some. by apply Hg.
Qed.

(** ** The interface *)

(** The store of a device: its files, and how many UUIDs were drawn. *)
Context (uuids : nat → string).

Definition node_put (bytes : Uint8Array) : M (FS.t * nat) Sha256Hex := λ '(fs, n),
  let '(r, fs) := put rootDir (uuids n) bytes fs in (r, (fs, S n)).

Definition node_get (h : Sha256Hex) : M (FS.t * nat) Uint8Array := λ '(fs, n),
  let '(r, fs) := get rootDir h fs in (r, (fs, n)).

Definition node_has (h : Sha256Hex) : M (FS.t * nat) bool := λ '(fs, n),
  let '(r, fs) := has rootDir h fs in (r, (fs, n)).

#[global, refine] Instance file_blob_store : BlobStore (FS.t * nat) := {
  view s := blob_view s.1;
  blob_ok s := good s.1;
  blob_put := node_put;
  blob_get := node_get;
  blob_has := node_has;
}.
Proof.
  - intros [fs n] h bytes. apply blob_view_good.
  - intros [fs n] bytes r s' Hg. unfold node_put. rewrite put_run. simpl in *.
    destruct (blob_view fs (sha256 bytes)) as [b|] eqn:Hb.
    { intros [= <- <-]. simpl. split_and!; [done..|]. exists b. by rewrite Hb. }
    case_decide; intros [= <- <-]; simpl.
    + split_and!; [by apply good_after_put| |done|].
      * intros h b Hh. rewrite view_after_put. case_decide; [subst; congruence|done].
      * exists bytes. by rewrite view_after_put, decide_True.
    + split_and!; done.
  - intros [fs n] h bytes Hg Hv. unfold node_get. rewrite get_run. simpl in *. by rewrite Hv.
  - intros [fs n] h Hg Hv. unfold node_get. rewrite get_run. simpl in *. rewrite Hv.
    by destruct (is_key h).
  - intros [fs n] h. unfold node_get. by rewrite get_run.
  - intros [fs n] h. unfold node_has. by rewrite has_run.
Defined.
End disk.

(** ** Properties *)

(** C29: no half-written blob is ever trusted.  Start with an empty disk and run
    any number of puts at once, in any interleaving of their calls, with partial
    writes, failing calls, deletions and crashes that lose or damage whatever
    was not synced: at every moment, what is read under a hash is bytes of that
    hash, on the disk for good, and the scrub finds nothing wrong. *)
Theorem blobs_survive_crashes `{Sha256} (rootDir : string) (d : Disk.t)
    (Hd : rtc (disk_step rootDir) (Disk.mk (FS.mk ∅ ∅) ∅) d) (h : Sha256Hex) :
  match (get rootDir h (Disk.fs d)).1 with
  | Ok bytes => sha256 bytes = h ∧ (verify_blob rootDir h (Disk.fs d)).1 = Ok true
  | Err _ => blob_view rootDir (Disk.fs d) h = None
  end.
Proof.
  destruct (disk_inv_reachable rootDir d Hd) as [Hg _]. unfold verify_blob. rewrite get_run.
  destruct (blob_view rootDir (Disk.fs d) h) as [bytes|] eqn:Hv; simpl.
  - pose proof (blob_view_good rootDir _ _ _ Hg Hv) as Hb. split; [done|]. by rewrite bool_decide_true.
  - by destruct (is_key h).
Qed.

(** A concrete digest for the witnesses: one digit that depends on the length. *)
Definition toy_digit (bytes : Uint8Array) : Ascii.ascii :=
  fromCharCode (48 + byteLength bytes mod 10).

Definition toy_hash (bytes : Uint8Array) : Sha256Hex :=
  of_chars (toy_digit bytes :: replicate 63 (fromCharCode 48)).

#[refine] Definition toy_sha256 : Sha256 := {| sha256 := toy_hash |}.
Proof.
  intros bytes. unfold toy_hash. rewrite chars_of_chars. split; [done|].
  unfold toy_digit. pose proof (Z.mod_pos_bound (byteLength bytes) 10 ltac:(lia)).
  cbn [forallb]. rewrite charCode_from by lia. unfold is_lower_hex at 1, is_digit.
  rewrite (proj2 (Z.leb_le 48 _)), (proj2 (Z.leb_le _ 57)) by lia. reflexivity.
Defined.

(** The store is opened, and a put goes through its five calls. *)
Lemma blobs_survive_crashes_witness :
  let d0 := Disk.mk (FS.mk ∅ ∅) ∅ in
  ∃ d, rtc (disk_step (H := toy_sha256) "/data") d0 d ∧
    (get "/data" (toy_hash [Byte.x01]) (Disk.fs d)).1 = Ok [Byte.x01] ∧
    (verify_blob (H := toy_sha256) "/data" (toy_hash [Byte.x01]) (Disk.fs d)).1 = Ok true.
Proof.
  assert (∃ d, rtc (disk_step (H := toy_sha256) "/data") (Disk.mk (FS.mk ∅ ∅) ∅) d ∧
    (get "/data" (toy_hash [Byte.x01]) (Disk.fs d)).1 = Ok [Byte.x01]) as (d&Hd&Hget).
  { eexists. split.
    - eapply rtc_l; [apply (step_crash (H := toy_sha256) _ _ _ (FS.mk ∅ ∅)); by intros ? ? ?|].
      eapply rtc_l; [apply (step_start (H := toy_sha256) _ _ _ "u" [Byte.x01]); reflexivity|].
      do 5 (eapply rtc_l; [eapply (step_call (H := toy_sha256) _ _ _ "u"); [reflexivity..|];
        vm_compute; reflexivity|]).
      apply rtc_refl.
    - vm_compute. reflexivity. }
  exists d. split; [exact Hd|]. split; [exact Hget|].
  pose proof (blobs_survive_crashes (H := toy_sha256) "/data" d Hd (toy_hash [Byte.x01])) as Hb.
  rewrite Hget in Hb. exact (proj2 Hb).
Defined.
