(* ===== verification/Engine.v ===== *)
(** * The sync engine

    packages/sync/src/engine.ts: every operation of [SyncEngine], over the
    metadata store (Store.v), any blob store (the interface of BlobStore.v), a
    hash, a clock, a generator of identifiers, and the interpreter, the one port
    that opens a vault.  The clock and the generator are functions of a counter
    that advances at each call. *)

From S2P Require Import Prelude Model Bytes Dag Lineage Protocol Effects Store BlobStore.

Open Scope Z_scope.

(** ** The interpreter port (packages/core/src/interpreter.ts) *)

Module RevisionMaterial.
Record t : Type := mk {
  revisionId : RevisionId;
  bytes : Uint8Array;
}.
End RevisionMaterial.

Inductive InterpretationResult : Type :=
  | merge_succeeded (bytes : Uint8Array) (parentRevisionIds : list RevisionId)
  | merge_failed (reason : string)
  | merge_needs_credentials (reason : string)
  | unsupported (reason : string).

Module DiffEntrySummary.
Record t : Type := mk {
  uuid : string;
  title : string;
  groupPath : string;
}.

#[global] Instance eq_dec : EqDecision t.
Proof. solve_decision. Defined.
End DiffEntrySummary.

Module ChangedEntrySummary.
Record t : Type := mk {
  entry : DiffEntrySummary.t;
  changedFields : list string;
}.
End ChangedEntrySummary.

Module VaultDiff.
Record t : Type := mk {
  addedEntries : list DiffEntrySummary.t;
  removedEntries : list DiffEntrySummary.t;
  changedEntries : list ChangedEntrySummary.t;
  addedGroups : list string;
  removedGroups : list string;
  changedGroups : list string;
}.
End VaultDiff.

Definition emptyVaultDiff : VaultDiff.t := VaultDiff.mk [] [] [] [] [] [].

Definition mergeVaultDiffs (left right : VaultDiff.t) : VaultDiff.t :=
  {| VaultDiff.addedEntries := VaultDiff.addedEntries left ++ VaultDiff.addedEntries right;
     VaultDiff.removedEntries := VaultDiff.removedEntries left ++ VaultDiff.removedEntries right;
     VaultDiff.changedEntries := VaultDiff.changedEntries left ++ VaultDiff.changedEntries right;
     VaultDiff.addedGroups := VaultDiff.addedGroups left ++ VaultDiff.addedGroups right;
     VaultDiff.removedGroups := VaultDiff.removedGroups left ++ VaultDiff.removedGroups right;
     VaultDiff.changedGroups := VaultDiff.changedGroups left ++ VaultDiff.changedGroups right |}.

Inductive DiffResult : Type :=
  | diff_ready (diff : VaultDiff.t)
  | diff_failed (reason : string)
  | diff_needs_credentials (reason : string).

Module InterpretationRequest.
Record t (Credentials : Type) : Type := mk {
  vaultId : VaultId;
  local : RevisionMaterial.t;
  incoming : list RevisionMaterial.t;
  credentials : option Credentials;
}.
Arguments mk {_} _ _ _ _.
End InterpretationRequest.

(** ** Results *)

Inductive LocalChangeResult : Type :=
  | unchanged (revisionId : RevisionId)
  | recorded (revision : Revision.t).

Inductive IngestResult : Type :=
  | stored (revision : Revision.t)
  | already_present (revisionId : RevisionId)
  | rejected (reason : string).

Inductive MergeOutcome : Type :=
  | merged (revision : Revision.t)
  | merge_outcome_failed (reason : string)
  | merge_outcome_needs_credentials (reason : string).

Inductive DiffOutcome : Type :=
  | ready (diff : VaultDiff.t)
  | diff_outcome_failed (reason : string)
  | diff_outcome_needs_credentials (reason : string).

(** ** The state *)

Module EngineState.
Record t (B : Type) : Type := mk {
  metadata : Store.t;
  blobs : B;
  ticks : nat;
}.
Arguments mk {_} _ _ _.
Arguments metadata {_} _.
Arguments blobs {_} _.
Arguments ticks {_} _.

Definition set_metadata {B} (m : Store.t) (s : t B) : t B := mk m (blobs s) (ticks s).
Definition set_blobs {B} (b : B) (s : t B) : t B := mk (metadata s) b (ticks s).

#[global, refine] Instance metadata_part {B} : Part (t B) Store.t :=
  { part := metadata; with_part := set_metadata }.
Proof. all: by intros; repeat match goal with s : t _ |- _ => destruct s end. Defined.

#[global, refine] Instance blobs_part {B} : Part (t B) B :=
  { part := blobs; with_part := set_blobs }.
Proof. all: by intros; repeat match goal with s : t _ |- _ => destruct s end. Defined.
End EngineState.

(** The input of [ingestReceivedRevision]. *)
Module Ingest.
Record t : Type := mk {
  vaultId : VaultId;
  revisionId : RevisionId;
  declaredParentIds : list RevisionId;
  declaredHash : Sha256Hex;
  bytes : Uint8Array;
  fromDeviceId : DeviceId;
  message : option string;
}.
End Ingest.

Section engine.
Context `{RowOrder} `{Sha256} {B : Type} `{!BlobStore B}.
(** The ports: the clock, the generator of identifiers, this device, and the
    interpreter. *)
Context (clock : nat → Date) (vaultIds revisionIds : nat → string) (deviceId : DeviceId).
Context {Credentials : Type}.
Context (interpreter_merge : InterpretationRequest.t Credentials → InterpretationResult).
Context (interpreter_diff : InterpretationRequest.t Credentials → DiffResult).

Abbreviation Engine := (M (EngineState.t B)).

(** A call on the metadata store, and one on the blob store. *)
Definition metadata {A} (m : M Db.t A) : Engine A :=
  on (S := EngineState.t B) (T := Store.t) (on (S := Store.t) (T := Db.t) m).
Definition blobs {A} (m : M B A) : Engine A := on (S := EngineState.t B) (T := B) m.

Definition tick {A} (f : nat → A) : Engine A := λ s,
  (Ok (f (EngineState.ticks s)),
   EngineState.mk (EngineState.metadata s) (EngineState.blobs s) (S (EngineState.ticks s))).

Definition now : Engine Date := tick clock.

Definition seed (vaultId : VaultId) (hash : Sha256Hex) (sizeBytes : Z) (at_ : Date)
    (message : option string) : Engine RevisionSeed.t :=
  tick revisionIds ≫= λ id, mret (RevisionSeed.mk id vaultId hash sizeBytes at_ message).

Definition requireVault (vaultId : VaultId) : Engine Vault.t :=
  metadata (getVault vaultId) ≫= λ vault,
  match vault with
  | Some vault => mret vault
  | None => throw ("Contract violation: unknown vault " +:+ vaultId)%string
  end.

Definition requireRevision (revisionId : RevisionId) : Engine Revision.t :=
  metadata (getRevision revisionId) ≫= λ revision,
  match revision with
  | Some revision => mret revision
  | None => throw ("Contract violation: unknown revision " +:+ revisionId)%string
  end.

(** ** Local history *)

Definition importVault (name : string) (bytes : Uint8Array) (kdbxPath : option string)
    : Engine (Vault.t * Revision.t) :=
  blobs (blob_put bytes) ≫= λ hash,
  now ≫= λ now,
  tick vaultIds ≫= λ vaultId,
  seed vaultId hash (byteLength bytes) now (Some name) ≫= λ seed,
  lift (importedRevision seed (Some deviceId)) ≫= λ revision,
  transaction (
    let vault := {| Vault.id := vaultId; Vault.name := name; Vault.headRevisionId := None;
                    Vault.kdbxPath := kdbxPath; Vault.createdAt := now |} in
    metadata (saveVault vault) ≫= λ _,
    metadata (saveRevision revision) ≫= λ _,
    let withHead := Vault.set_head vault (Revision.id revision) in
    metadata (saveVault withHead) ≫= λ _,
    metadata (appendHeadEvent
      {| HeadRevisionEvent.vaultId := vaultId; HeadRevisionEvent.previousRevisionId := None;
         HeadRevisionEvent.nextRevisionId := Revision.id revision;
         HeadRevisionEvent.createdAt := now;
         HeadRevisionEvent.reason := HeadReason.promote |}) ≫= λ _,
    mret (withHead, revision)).

(** Is the head of the vault, if it has one, these bytes already? *)
Definition unchanged_head (vault : Vault.t) (hash : Sha256Hex) : Engine (option RevisionId) :=
  match Vault.headRevisionId vault with
  | None => mret None
  | Some head =>
      metadata (getRevision head) ≫= λ head,
      mret (match head with
            | Some head => if decide (Revision.hash head = hash) then Some (Revision.id head) else None
            | None => None
            end)
  end.

Definition recordLocalChange (vaultId : VaultId) (bytes : Uint8Array) : Engine LocalChangeResult :=
  requireVault vaultId ≫= λ vault,
  let hash := sha256 bytes in
  unchanged_head vault hash ≫= λ same,
  match same with
  | Some id => mret (unchanged id)
  | None =>
      blobs (blob_put bytes) ≫= λ _,
      now ≫= λ now,
      seed vaultId hash (byteLength bytes) now None ≫= λ seed,
      lift (localChangeRevision seed (Vault.headRevisionId vault) (Some deviceId)) ≫= λ revision,
      transaction (
        metadata (saveRevision revision) ≫= λ _,
        metadata (saveVault (Vault.set_head vault (Revision.id revision))) ≫= λ _,
        metadata (appendHeadEvent
          {| HeadRevisionEvent.vaultId := vaultId;
             HeadRevisionEvent.previousRevisionId := Vault.headRevisionId vault;
             HeadRevisionEvent.nextRevisionId := Revision.id revision;
             HeadRevisionEvent.createdAt := now;
             HeadRevisionEvent.reason := HeadReason.promote |}) ≫= λ _,
        mret (recorded revision))
  end.

(** ** Revisions from a peer *)

(** The loop over the declared parents: the first that is not stored. *)
Fixpoint absent_parent (parents : list RevisionId) : Engine (option RevisionId) :=
  match parents with
  | [] => mret None
  | parentId :: parents =>
      metadata (hasRevision parentId) ≫= λ present,
      if (present : bool) then absent_parent parents else (mret (Some parentId) : Engine _)
  end.

Definition ingestReceivedRevision (input : Ingest.t) : Engine IngestResult :=
  metadata (hasRevision (Ingest.revisionId input)) ≫= λ present,
  if (present : bool) then (mret (already_present (Ingest.revisionId input)) : Engine _)
  else
    let actualHash := sha256 (Ingest.bytes input) in
    if decide (actualHash ≠ Ingest.declaredHash input) then
      (mret (rejected "received bytes do not match the declared hash") : Engine _)
    else
      absent_parent (Ingest.declaredParentIds input) ≫= λ absent,
      match absent with
      | Some parentId =>
          mret (rejected ("parent " +:+ parentId +:+ " must be received before " +:+
                          Ingest.revisionId input)%string)
      | None =>
          blobs (blob_put (Ingest.bytes input)) ≫= λ _,
          now ≫= λ now,
          lift (receivedRevision
            {| RevisionSeed.id := Ingest.revisionId input;
               RevisionSeed.vaultId := Ingest.vaultId input;
               RevisionSeed.hash := actualHash;
               RevisionSeed.sizeBytes := byteLength (Ingest.bytes input);
               RevisionSeed.at_ := now;
               RevisionSeed.message := Ingest.message input |}
            (Ingest.declaredParentIds input) (Ingest.fromDeviceId input)) ≫= λ revision,
          metadata (saveRevision revision) ≫= λ _,
          mret (stored revision)
      end.

Definition divergenceWithPeer (vaultId : VaultId) (remoteNodes : list RevisionNode.t)
    (remoteHead : RevisionId) : Engine Divergence :=
  lift (validateRemoteGraph remoteNodes) ≫= λ _,
  requireVault vaultId ≫= λ vault,
  match Vault.headRevisionId vault with
  | None => throw "Contract violation: cannot compare a vault with no head"
  | Some head =>
      metadata (loadGraph vaultId) ≫= λ local,
      mret (classifyDivergence (unionGraphs local (buildGraph remoteNodes)) head remoteHead)
  end.

(** ** Merging *)

(** The encrypted bytes of a revision, as the interpreter is handed them. *)
Definition material (revision : Revision.t) : Engine RevisionMaterial.t :=
  blobs (blob_get (Revision.hash revision)) ≫= λ bytes,
  mret (RevisionMaterial.mk (Revision.id revision) bytes).

Definition merge (vaultId : VaultId) (baseRevisionId : RevisionId)
    (incomingRevisionIds : list RevisionId) (credentials : Credentials)
    (message : option string) : Engine MergeOutcome :=
  requireRevision baseRevisionId ≫= λ base,
  map_each incomingRevisionIds requireRevision ≫= λ incoming,
  material base ≫= λ local,
  map_each incoming material ≫= λ incoming_material,
  match interpreter_merge (InterpretationRequest.mk vaultId local incoming_material
          (Some credentials)) with
  | merge_needs_credentials reason => mret (merge_outcome_needs_credentials reason)
  | merge_failed reason | unsupported reason => mret (merge_outcome_failed reason)
  | merge_succeeded bytes _ =>
      blobs (blob_put bytes) ≫= λ hash,
      now ≫= λ now,
      seed vaultId hash (byteLength bytes) now
        (Some (default ("Merged " +:+ pretty (Z.of_nat (length incoming) + 1) +:+ " revisions")%string
                 message)) ≫= λ seed,
      lift (mergedRevision seed (Revision.id base) (Revision.id <$> incoming) (Some deviceId))
        ≫= λ revision,
      metadata (saveRevision revision) ≫= λ _,
      mret (merged revision)
  end.

Definition previewDiff (vaultId : VaultId) (baseRevisionId : RevisionId)
    (incomingRevisionIds : list RevisionId) (credentials : Credentials) : Engine DiffOutcome :=
  requireRevision baseRevisionId ≫= λ base,
  map_each incomingRevisionIds requireRevision ≫= λ incoming,
  material base ≫= λ local,
  map_each incoming material ≫= λ incoming_material,
  mret (match interpreter_diff (InterpretationRequest.mk vaultId local incoming_material
                (Some credentials)) with
        | diff_needs_credentials reason => diff_outcome_needs_credentials reason
        | diff_failed reason => diff_outcome_failed reason
        | diff_ready diff => ready diff
        end).

(** ** The head *)

Definition save_move (move : Vault.t * HeadRevisionEvent.t) : Engine Vault.t :=
  let '(next, event) := move in
  transaction (
    metadata (saveVault next) ≫= λ _,
    metadata (appendHeadEvent event) ≫= λ _,
    mret next).

Definition promote (vaultId : VaultId) (revisionId : RevisionId) : Engine Vault.t :=
  requireVault vaultId ≫= λ vault,
  requireRevision revisionId ≫= λ revision,
  now ≫= λ now,
  lift (promoteRevision vault revision now) ≫= save_move.

Definition fastForward (vaultId : VaultId) (revisionId : RevisionId) : Engine Vault.t :=
  requireVault vaultId ≫= λ vault,
  requireRevision revisionId ≫= λ revision,
  now ≫= λ now,
  lift (fastForwardRevision vault revision now) ≫= save_move.

Definition bytesOf (revisionId : RevisionId) : Engine Uint8Array :=
  requireRevision revisionId ≫= λ revision, blobs (blob_get (Revision.hash revision)).

(** ** Vaults *)

Definition adoptVault (vaultId : VaultId) (name : string) : Engine Vault.t :=
  metadata (getVault vaultId) ≫= λ existing,
  match existing with
  | Some existing => mret existing
  | None =>
      now ≫= λ now,
      let vault := {| Vault.id := vaultId; Vault.name := name; Vault.headRevisionId := None;
                      Vault.kdbxPath := None; Vault.createdAt := now |} in
      metadata (saveVault vault) ≫= λ _, mret vault
  end.

Definition bindVaultToFile (vaultId : VaultId) (kdbxPath : string) : Engine Vault.t :=
  requireVault vaultId ≫= λ vault,
  let bound := Vault.set_path vault kdbxPath in
  metadata (saveVault bound) ≫= λ _, mret bound.

Definition engine_hasRevision (revisionId : RevisionId) : Engine bool :=
  metadata (hasRevision revisionId).
Definition engine_getVault (vaultId : VaultId) : Engine (option Vault.t) :=
  metadata (getVault vaultId).
Definition engine_getRevision (revisionId : RevisionId) : Engine (option Revision.t) :=
  metadata (getRevision revisionId).

Definition summary_entry (revision : Revision.t) : HistorySummaryEntry.t :=
  HistorySummaryEntry.mk (Revision.id revision) (Revision.hash revision)
    (Revision.sizeBytes revision) (Revision.parentIds revision).

Definition historySummary (vaultId : VaultId) : Engine (list HistorySummaryEntry.t) :=
  metadata (listRevisions vaultId) ≫= λ revisions, mret (summary_entry <$> revisions).

Definition revisionCount (vaultId : VaultId) : Engine Z :=
  metadata (listRevisions vaultId) ≫= λ revisions, mret (Z.of_nat (length revisions)).

Definition engine_recordPeerHead (peer : DeviceId) (vaultId : VaultId) (head : RevisionId)
    : Engine unit :=
  now ≫= λ now, metadata (recordPeerHead peer vaultId head now).
End engine.
