(* ===== verification/EngineTheory.v ===== *)
(** * The sync engine: its runs and its invariant

    What each operation does to the tables and the blobs, as equations; and the
    invariant of a device: a sound history, every stored revision's bytes in the
    blob store, every head a stored revision of its vault. *)

From S2P Require Import Prelude Model Bytes Dag Lineage LineageProps Protocol Effects Store.
From S2P Require Import StoreTheory StoreProps BlobStore Engine.

Open Scope Z_scope.

Section runs.
Context `{RowOrder} `{Sha256} {B : Type} `{!BlobStore B}.
Implicit Types s : EngineState.t B.

Definition db s : Db.t := Store.db (EngineState.metadata s).
Definition set_db (d : Db.t) s : EngineState.t B :=
  EngineState.set_metadata (Store.set_db d (EngineState.metadata s)) s.

(** No transaction is open, and no other process holds the file. *)
Definition quiet s : Prop :=
  Store.depth (EngineState.metadata s) = 0 ∧ Store.saved (EngineState.metadata s) = None ∧
  Store.locked (EngineState.metadata s) = false.

Record engine_ok s : Prop := EngineOk {
  ok_quiet : quiet s;
  ok_wf : wf (db s);
  ok_blobs : blob_ok (EngineState.blobs s);
  ok_bytes : ∀ i row, Db.revisions (db s) !! i = Some row →
    is_Some (view (EngineState.blobs s) (RevisionRow.hash row));
  ok_head : ∀ k v h, Db.vaults (db s) !! k = Some v → Vault.headRevisionId v = Some h →
    ∃ row, Db.revisions (db s) !! h = Some row ∧ RevisionRow.vault_id row = k;
}.

(** ** Equations *)

Lemma metadata_run {A} (m : M Db.t A) s :
  metadata (B := B) m s = ((m (db s)).1, set_db (m (db s)).2 s).
Proof.
  unfold metadata, on, db, set_db. simpl. by destruct (m _) as [r d].
Qed.

Lemma set_db_id s : set_db (db s) s = s.
Proof. by destruct s as [[] ? ?]. Qed.

Lemma metadata_gets {A} (f : Db.t → A) s : metadata (B := B) (gets f) s = (Ok (f (db s)), s).
Proof. rewrite metadata_run. simpl. by rewrite set_db_id. Qed.

Lemma set_db_twice d d' s : set_db d (set_db d' s) = set_db d s.
Proof. by destruct s as [[] ? ?]. Qed.

Lemma db_set_db d s : db (set_db d s) = d.
Proof. by destruct s as [[] ? ?]. Qed.

Lemma quiet_set_db d s : quiet (set_db d s) ↔ quiet s.
Proof. by destruct s as [[] ? ?]. Qed.

Lemma blobs_set_db d s : EngineState.blobs (set_db d s) = EngineState.blobs s.
Proof. done. Qed.

Lemma getRevision_engine i s :
  metadata (B := B) (getRevision i) s
  = (Ok ((λ row, toRevision row (parents_in (db s) i)) <$> Db.revisions (db s) !! i), s).
Proof. rewrite metadata_run, getRevision_run. simpl. by rewrite set_db_id. Qed.

Lemma requireVault_run k s :
  requireVault (B := B) k s
  = (match Db.vaults (db s) !! k with
     | Some v => Ok v
     | None => Err ("Contract violation: unknown vault " +:+ k)%string
     end, s).
Proof.
  unfold requireVault, getVault. erewrite bind_eq by apply metadata_gets.
  by destruct (Db.vaults (db s) !! k).
Qed.

Lemma requireRevision_run i s :
  requireRevision (B := B) i s
  = (match Db.revisions (db s) !! i with
     | Some row => Ok (toRevision row (parents_in (db s) i))
     | None => Err ("Contract violation: unknown revision " +:+ i)%string
     end, s).
Proof.
  unfold requireRevision. erewrite bind_eq by apply getRevision_engine.
  by destruct (Db.revisions (db s) !! i).
Qed.

Lemma hasRevision_engine i s :
  metadata (B := B) (hasRevision i) s
  = (Ok (bool_decide (is_Some (Db.revisions (db s) !! i))), s).
Proof. apply metadata_gets. Qed.

(** A transaction of table writes that all succeed, and one that throws. *)
Lemma transaction_db {A} (m : M Db.t A) s :
  quiet s →
  transaction (metadata (B := B) m) s
  = (match m (db s) with
     | (Ok a, d) => (Ok a, set_db d s)
     | (Err e, _) => (Err e, s)
     end).
Proof.
  intros (Hd&Hs&Hl). rewrite transaction_run; [|done..|apply framed_db].
  rewrite metadata_run. unfold opened, db, set_db, store. simpl.
  destruct s as [[d dep sav loc] b n]; simpl in *; subst.
  by destruct (m d) as [[a|e] d'].
Qed.

(** Consecutive table operations are one. *)
Lemma metadata_bind {A C} (m : M Db.t A) (k : A → M Db.t C) s :
  (metadata (B := B) m ≫= λ a, metadata (k a)) s = metadata (m ≫= k) s.
Proof.
  unfold mbind at 1, M_bind at 1. rewrite !metadata_run. unfold mbind, M_bind.
  destruct (m (db s)) as [[a|e] d]; simpl; [|done].
  by rewrite metadata_run, db_set_db, set_db_twice.
Qed.

Lemma metadata_ret {A} (a : A) s :
  metadata (B := B) (mret a) s = (mret a : M (EngineState.t B) A) s.
Proof. rewrite metadata_run. simpl. by rewrite set_db_id. Qed.

Lemma transaction_ext {A} (m m' : M (EngineState.t B) A) s :
  (∀ s, m s = m' s) → transaction m s = transaction m' s.
Proof.
  intros Heq. unfold transaction. rewrite Heq. case_match; [done|].
  unfold mbind, M_bind. destruct (on _ s) as [[?|?] s1]; [|done].
  destruct (on _ s1) as [[?|?] s2]; [|done].
  unfold finally, commit_or_rollback, mbind, M_bind. by rewrite Heq.
Qed.

End runs.

(** Fuse the table operations of a body into one. *)
Ltac fuse_metadata :=
  repeat (rewrite <-metadata_bind; apply bind_ext; intros); by rewrite metadata_ret.

Section engine.
Context `{RowOrder} `{Sha256} {B : Type} `{!BlobStore B}.
Implicit Types s : EngineState.t B.

(** ** The tables after the engine's writes *)

Definition saved_vault (v : Vault.t) (d : Db.t) : Db.t := (saveVault v d).2.
Definition with_event (e : HeadRevisionEvent.t) (d : Db.t) : Db.t :=
  Db.set_head_events (Db.head_events d ++ [e]) d.

Lemma saved_vault_lookup v d k :
  Db.vaults (saved_vault v d) !! k =
  if decide (k = Vault.id v) then Some (upsert_vault (Db.vaults d !! Vault.id v) v)
  else Db.vaults d !! k.
Proof.
  unfold saved_vault. destruct d; simpl. case_decide; [subst; apply lookup_insert_eq|].
  by rewrite lookup_insert_ne.
Qed.

Lemma saved_vault_revisions v d : Db.revisions (saved_vault v d) = Db.revisions d.
Proof. by destruct d. Qed.

Lemma with_event_same e d : same_history d (with_event e d).
Proof. by destruct d. Qed.

Lemma with_event_vaults e d : Db.vaults (with_event e d) = Db.vaults d.
Proof. by destruct d. Qed.

Lemma with_event_revisions e d : Db.revisions (with_event e d) = Db.revisions d.
Proof. by destruct d. Qed.

Lemma saveVault_run v d : saveVault v d = (Ok tt, saved_vault v d).
Proof. done. Qed.

Lemma appendHeadEvent_run e d :
  is_Some (Db.vaults d !! HeadRevisionEvent.vaultId e) →
  appendHeadEvent e d = (Ok tt, with_event e d).
Proof.
  intros [v Hv]. unfold appendHeadEvent.
  by erewrite bind_eq by (unfold foreign_key; by rewrite Hv).
Qed.

Lemma saveRevision_ok r d : savable r d → saveRevision r d = (Ok tt, with_revision r d).
Proof. intros Hs. by destruct (saveRevision_cases r d) as [[_ ?]|[? _]]. Qed.

(** The vault after its head moved: the stored creation date is kept. *)
Lemma upsert_set_head v h :
  upsert_vault (Some v) (Vault.set_head v h) = Vault.set_head v h.
Proof. by destruct v. Qed.

(** ** Keeping the invariant *)

Lemma ok_set_db d s :
  engine_ok s → wf d →
  (∀ i row, Db.revisions d !! i = Some row →
     Db.revisions (db s) !! i = Some row ∨
     is_Some (view (EngineState.blobs s) (RevisionRow.hash row))) →
  (∀ k v h, Db.vaults d !! k = Some v → Vault.headRevisionId v = Some h →
     ∃ row, Db.revisions d !! h = Some row ∧ RevisionRow.vault_id row = k) →
  engine_ok (set_db d s).
Proof.
  intros [Hq Hw Hb Hby Hh] Hd Hrows Hheads.
  split; rewrite ?db_set_db, ?blobs_set_db; [by apply quiet_set_db|done|done| |done].
  intros i row Hi. destruct (Hrows i row Hi) as [Hold|]; [by eapply Hby|done].
Qed.

Lemma ok_tick s n :
  engine_ok s →
  engine_ok (EngineState.mk (EngineState.metadata s) (EngineState.blobs s) n).
Proof. by intros []. Qed.

Lemma blobs_put_run bytes s :
  blobs (B := B) (blob_put bytes) s
  = ((blob_put bytes (EngineState.blobs s)).1,
     EngineState.set_blobs (blob_put bytes (EngineState.blobs s)).2 s).
Proof. unfold blobs, on. simpl. by destruct (blob_put bytes _). Qed.

(** Writing a blob keeps the invariant, whether or not it succeeds. *)
Lemma ok_blob_put bytes s :
  engine_ok s → engine_ok (EngineState.set_blobs (blob_put bytes (EngineState.blobs s)).2 s).
Proof.
  intros [Hq Hw Hb Hby Hh].
  destruct (blob_put bytes (EngineState.blobs s)) as [r b'] eqn:Hp.
  destruct (put_spec _ _ _ _ Hb Hp) as (Hb'&Hkeep&_). split; simpl; try done.
  intros i row Hi. destruct (Hby i row Hi) as [bytes' Hv]. eauto.
Qed.

Lemma blob_put_view bytes s h b' :
  engine_ok s → blob_put bytes (EngineState.blobs s) = (Ok h, b') →
  h = sha256 bytes ∧ is_Some (view b' h).
Proof.
  intros Hs Hp. destruct (put_spec _ _ _ _ (ok_blobs _ Hs) Hp) as (_&_&->&b&Hb&_). eauto.
Qed.

(** A new revision whose bytes are in the blob store. *)
Lemma ok_with_revision r s :
  engine_ok s → savable r (db s) → ¬ StoreTheory.stored (db s) (Revision.id r) →
  is_Some (view (EngineState.blobs s) (Revision.hash r)) →
  engine_ok (set_db (with_revision r (db s)) s).
Proof.
  intros Hs [Hpar [Hst|Hv]] Hnew Hview; [done|]. apply ok_set_db; [done|..].
  - apply wf_with_revision; [apply Hs|done..].
  - intros i row. rewrite with_revision_lookup. destruct (Db.revisions (db s) !! i); [by left|].
    case_decide; [|done]. intros [= <-]. by right.
  - intros k v h. rewrite with_revision_vaults. intros Hk Hh.
    destruct (ok_head _ Hs k v h Hk Hh) as (row&Hrow&?). exists row.
    by rewrite with_revision_lookup, Hrow.
Qed.

(** Saving a vault whose head, if it has one, is a stored revision of it. *)
Lemma ok_saved_vault v s :
  engine_ok s →
  (∀ h, Vault.headRevisionId v = Some h →
     ∃ row, Db.revisions (db s) !! h = Some row ∧ RevisionRow.vault_id row = Vault.id v) →
  engine_ok (set_db (saved_vault v (db s)) s).
Proof.
  intros Hs Hv. apply ok_set_db; [done|apply wf_saveVault, Hs|..].
  - intros i row. rewrite saved_vault_revisions. by left.
  - intros k w h. rewrite saved_vault_lookup, saved_vault_revisions. case_decide as Hk.
    + intros [= <-] Hh. subst k. apply Hv. revert Hh. unfold upsert_vault. by case_match.
    + apply (ok_head _ Hs).
Qed.

Lemma ok_with_event e s : engine_ok s → engine_ok (set_db (with_event e (db s)) s).
Proof.
  intros Hs. apply ok_set_db; [done|..].
  - eapply wf_proper, Hs. apply with_event_same.
  - intros i row. rewrite with_event_revisions. by left.
  - intros k v h. rewrite with_event_vaults, with_event_revisions. apply (ok_head _ Hs).
Qed.

(** ** Head moves *)

Definition next_tick s : EngineState.t B :=
  EngineState.mk (EngineState.metadata s) (EngineState.blobs s) (S (EngineState.ticks s)).

Lemma tick_run {A} (f : nat → A) s : tick (B := B) f s = (Ok (f (EngineState.ticks s)), next_tick s).
Proof. done. Qed.

Lemma save_move_run next event s :
  quiet s → HeadRevisionEvent.vaultId event = Vault.id next →
  save_move (B := B) (next, event) s
  = (Ok next, set_db (with_event event (saved_vault next (db s))) s).
Proof.
  intros Hq He. unfold save_move.
  rewrite (transaction_ext _ (metadata (saveVault next ≫= λ _, appendHeadEvent event ≫= λ _,
    mret next))).
  - rewrite transaction_db by done. rewrite (bind_eq _ _ _ _ _ (saveVault_run _ _)).
    rewrite (bind_eq _ _ _ tt (with_event event (saved_vault next (db s)))); [done|].
    apply appendHeadEvent_run. rewrite saved_vault_lookup, He, decide_True by done. eauto.
  - intros s'. fuse_metadata.
Qed.

(** The tables after a head moved to a revision. *)
Definition moved (v : Vault.t) (i : RevisionId) (at_ : Date) (reason : HeadReason.t) (d : Db.t)
    : Db.t :=
  with_event (moveHead v i at_ reason).2 (saved_vault (Vault.set_head v i) d).

Lemma ok_moved v i row at_ reason s :
  engine_ok s → Db.vaults (db s) !! Vault.id v = Some v →
  Db.revisions (db s) !! i = Some row → RevisionRow.vault_id row = Vault.id v →
  engine_ok (set_db (moved v i at_ reason (db s)) s).
Proof.
  intros Hs Hv Hi Hrow. unfold moved.
  assert (engine_ok (set_db (saved_vault (Vault.set_head v i) (db s)) s)) as Hs1.
  { apply ok_saved_vault; [done|]. intros h [= <-]. eauto. }
  pose proof (ok_with_event (moveHead v i at_ reason).2 _ Hs1) as Hs2.
  by rewrite db_set_db, set_db_twice in Hs2.
Qed.

Section moves.
Context (clock : nat → Date).

(** What a head move does, for [promote] and [fastForward] alike. *)
Definition head_move_result (k : VaultId) (i : RevisionId) (reason : HeadReason.t)
    (refusal : string) s : result Vault.t * EngineState.t B :=
  match Db.vaults (db s) !! k, Db.revisions (db s) !! i with
  | None, _ => (Err ("Contract violation: unknown vault " +:+ k)%string, s)
  | Some _, None => (Err ("Contract violation: unknown revision " +:+ i)%string, s)
  | Some v, Some row =>
      if decide (k = RevisionRow.vault_id row) then
        (Ok (Vault.set_head v i),
         set_db (moved v i (clock (EngineState.ticks s)) reason (db s)) (next_tick s))
      else (Err ("Contract violation: " +:+ refusal)%string, next_tick s)
  end.

Lemma promote_run k i s :
  engine_ok s → promote (B := B) clock k i s =
  head_move_result k i HeadReason.promote "cannot promote revision from another vault" s.
Proof.
  intros Hs. unfold promote, head_move_result. pose proof (requireVault_run k s) as Hv.
  destruct (Db.vaults (db s) !! k) as [v|] eqn:Hk; [|by rewrite (bind_err _ _ _ _ _ Hv)].
  rewrite (bind_eq _ _ _ _ _ Hv). pose proof (requireRevision_run i s) as Hr.
  destruct (Db.revisions (db s) !! i) as [row|] eqn:Hi; [|by rewrite (bind_err _ _ _ _ _ Hr)].
  rewrite (bind_eq _ _ _ _ _ Hr). unfold now. rewrite (bind_eq _ _ _ _ _ (tick_run _ _)).
  pose proof (wf_vault_id _ (ok_wf _ Hs) _ _ Hk) as Hvk.
  pose proof (wf_row_id _ (ok_wf _ Hs) _ _ Hi) as Hri. unfold promoteRevision. simpl.
  rewrite Hvk. case_decide as Heq.
  - rewrite bool_decide_true by done. erewrite bind_eq by reflexivity.
    unfold moveHead. rewrite save_move_run; [|by destruct (ok_quiet _ Hs)|by simpl; destruct v].
    simpl. unfold moved, moveHead. by rewrite Hri.
  - rewrite bool_decide_false by done. by erewrite bind_err by reflexivity.
Qed.

Lemma fastForward_run k i s :
  engine_ok s → fastForward (B := B) clock k i s =
  head_move_result k i HeadReason.fast_forward
    "cannot fast-forward to a revision from another vault" s.
Proof.
  intros Hs. unfold fastForward, head_move_result. pose proof (requireVault_run k s) as Hv.
  destruct (Db.vaults (db s) !! k) as [v|] eqn:Hk; [|by rewrite (bind_err _ _ _ _ _ Hv)].
  rewrite (bind_eq _ _ _ _ _ Hv). pose proof (requireRevision_run i s) as Hr.
  destruct (Db.revisions (db s) !! i) as [row|] eqn:Hi; [|by rewrite (bind_err _ _ _ _ _ Hr)].
  rewrite (bind_eq _ _ _ _ _ Hr). unfold now. rewrite (bind_eq _ _ _ _ _ (tick_run _ _)).
  pose proof (wf_vault_id _ (ok_wf _ Hs) _ _ Hk) as Hvk.
  pose proof (wf_row_id _ (ok_wf _ Hs) _ _ Hi) as Hri. unfold fastForwardRevision. simpl.
  rewrite Hvk. case_decide as Heq.
  - rewrite bool_decide_true by done. erewrite bind_eq by reflexivity.
    unfold moveHead. rewrite save_move_run; [|by destruct (ok_quiet _ Hs)|by simpl; destruct v].
    simpl. unfold moved, moveHead. by rewrite Hri.
  - rewrite bool_decide_false by done. by erewrite bind_err by reflexivity.
Qed.

Lemma ok_head_move k i reason refusal s :
  engine_ok s → engine_ok (head_move_result k i reason refusal s).2.
Proof.
  intros Hs. unfold head_move_result.
  destruct (Db.vaults (db s) !! k) as [v|] eqn:Hk; [|done].
  destruct (Db.revisions (db s) !! i) as [row|] eqn:Hi; [|done].
  pose proof (wf_vault_id _ (ok_wf _ Hs) _ _ Hk) as Hvk. case_decide as Heq; simpl.
  - change (db s) with (db (next_tick s)). apply (ok_moved _ _ row); [by apply ok_tick| |done|congruence].
    by rewrite Hvk.
  - by apply ok_tick.
Qed.
End moves.

(** ** Revisions from a peer *)

Lemma absent_parent_run parents s :
  absent_parent (B := B) parents s = (Ok (missing_parent (db s) parents), s).
Proof.
  unfold missing_parent. induction parents as [|p parents IH]; [done|].
  cbn [absent_parent]. rewrite (bind_eq _ _ _ _ _ (hasRevision_engine _ _)), filter_cons.
  destruct (Db.revisions (db s) !! p) as [row|] eqn:Hp.
  - rewrite bool_decide_true by eauto. by rewrite decide_False.
  - rewrite bool_decide_false by by intros [??]. by rewrite decide_True.
Qed.

(** The revision an ingest stores. *)
Definition received (at_ : Date) (input : Ingest.t) : Revision.t :=
  {| Revision.id := Ingest.revisionId input;
     Revision.vaultId := Ingest.vaultId input;
     Revision.hash := sha256 (Ingest.bytes input);
     Revision.sizeBytes := byteLength (Ingest.bytes input);
     Revision.createdAt := at_;
     Revision.originDeviceId := Some (Ingest.fromDeviceId input);
     Revision.parentIds := Ingest.declaredParentIds input;
     Revision.operation := RevisionOperation.received;
     Revision.message := Ingest.message input |}.

Section ingest.
Context (clock : nat → Date).

(** The state after the bytes of an ingest were offered to the blob store. *)
Definition after_blob (bytes : Uint8Array) s : EngineState.t B :=
  EngineState.set_blobs (blob_put bytes (EngineState.blobs s)).2 s.

Lemma ingest_present input s :
  StoreTheory.stored (db s) (Ingest.revisionId input) →
  ingestReceivedRevision (B := B) clock input s
  = (Ok (already_present (Ingest.revisionId input)), s).
Proof.
  intros Hst. unfold ingestReceivedRevision.
  rewrite (bind_eq _ _ _ _ _ (hasRevision_engine _ _)). by rewrite bool_decide_true.
Qed.

Lemma ingest_absent input s :
  ¬ StoreTheory.stored (db s) (Ingest.revisionId input) →
  sha256 (Ingest.bytes input) = Ingest.declaredHash input →
  (∀ p, p ∈ Ingest.declaredParentIds input → StoreTheory.stored (db s) p) →
  ingestReceivedRevision (B := B) clock input s =
  match (blob_put (Ingest.bytes input) (EngineState.blobs s)).1 with
  | Err e => (Err e, after_blob (Ingest.bytes input) s)
  | Ok _ =>
      let r := received (clock (EngineState.ticks s)) input in
      let s1 := next_tick (after_blob (Ingest.bytes input) s) in
      match Db.vaults (db s) !! Ingest.vaultId input with
      | None => (Err "FOREIGN KEY constraint failed", s1)
      | Some _ => (Ok (stored r), set_db (with_revision r (db s)) s1)
      end
  end.
Proof.
  intros Hnew Hhash Hpar. unfold ingestReceivedRevision.
  rewrite (bind_eq _ _ _ _ _ (hasRevision_engine _ _)), bool_decide_false by done.
  rewrite decide_False by (intros Hne; by apply Hne).
  rewrite (bind_eq _ _ _ _ _ (absent_parent_run _ _)).
  rewrite (proj2 (missing_parent_None _ _) Hpar).
  pose proof (blobs_put_run (Ingest.bytes input) s) as Hput.
  destruct (blob_put (Ingest.bytes input) (EngineState.blobs s)).1 as [h|e] eqn:Hp.
  2:{ by rewrite (bind_err _ _ _ _ _ Hput). }
  rewrite (bind_eq _ _ _ _ _ Hput). unfold now. rewrite (bind_eq _ _ _ _ _ (tick_run _ _)).
  set (s1 := next_tick _). cbv zeta.
  assert (lift (S := EngineState.t B) (receivedRevision
    (RevisionSeed.mk (Ingest.revisionId input) (Ingest.vaultId input) (sha256 (Ingest.bytes input))
      (byteLength (Ingest.bytes input)) (clock (EngineState.ticks s)) (Ingest.message input))
    (Ingest.declaredParentIds input) (Ingest.fromDeviceId input)) s1
    = (Ok (received (clock (EngineState.ticks s)) input), s1)) as Hrec.
  { unfold lift, receivedRevision. simpl. rewrite bool_decide_true by eauto. unfold base. simpl.
    destruct (Z.leb_spec 0 (byteLength (Ingest.bytes input))); [done|unfold byteLength in *; lia]. }
  rewrite (bind_eq _ _ _ _ _ Hrec).
  assert (db s1 = db s) as Hdb by done. clearbody s1. clear Hput Hrec Hp.
  set (r := received _ input).
  destruct (Db.vaults (db s) !! Ingest.vaultId input) as [v|] eqn:Hv.
  - erewrite bind_eq.
    2:{ rewrite metadata_run, Hdb, saveRevision_ok; [reflexivity|].
        split; [exact Hpar|]. right. simpl. by rewrite Hv. }
    done.
  - erewrite bind_err; [reflexivity|]. rewrite metadata_run, Hdb, saveRevision_run.
    change (Revision.parentIds r) with (Ingest.declaredParentIds input).
    rewrite (proj2 (missing_parent_None _ _) Hpar). simpl. rewrite Hv.
    destruct (Db.revisions (db s) !! Ingest.revisionId input) as [row|] eqn:Hr.
    { destruct Hnew. unfold StoreTheory.stored. by rewrite Hr. }
    simpl. by rewrite <-Hdb, set_db_id.
Qed.

(** The invariant after an ingest, whatever it returned. *)
Lemma ok_after_blob bytes s : engine_ok s → engine_ok (after_blob bytes s).
Proof. apply ok_blob_put. Qed.

Lemma ingest_rejected input s :
  ¬ StoreTheory.stored (db s) (Ingest.revisionId input) →
  sha256 (Ingest.bytes input) ≠ Ingest.declaredHash input ∨
  (∃ p, p ∈ Ingest.declaredParentIds input ∧ ¬ StoreTheory.stored (db s) p) →
  ∃ reason, ingestReceivedRevision (B := B) clock input s = (Ok (rejected reason), s).
Proof.
  intros Hnew Hbad. unfold ingestReceivedRevision.
  rewrite (bind_eq _ _ _ _ _ (hasRevision_engine _ _)), bool_decide_false by done.
  case_decide as Hhash; [by eexists|].
  destruct Hbad as [?|(p&Hp&Hns)]; [done|].
  rewrite (bind_eq _ _ _ _ _ (absent_parent_run _ _)).
  destruct (missing_parent (db s) (Ingest.declaredParentIds input)) as [q|] eqn:Hm; [by eexists|].
  destruct Hns. eapply missing_parent_None; done.
Qed.

Lemma ok_ingest input s :
  engine_ok s → engine_ok (ingestReceivedRevision (B := B) clock input s).2.
Proof.
  intros Hs. destruct (decide (is_Some (Db.revisions (db s) !! Ingest.revisionId input))) as [Hst|Hst].
  { by rewrite ingest_present. }
  destruct (decide (sha256 (Ingest.bytes input) = Ingest.declaredHash input)) as [Hh|Hh].
  2:{ destruct (ingest_rejected input s) as [reason ->]; auto. }
  destruct (missing_parent (db s) (Ingest.declaredParentIds input)) as [q|] eqn:Hm.
  { apply missing_parent_Some in Hm as [Hq Hns].
    destruct (ingest_rejected input s) as [reason ->]; eauto. }
  pose proof (proj1 (missing_parent_None _ _) Hm) as Hpar.
  rewrite ingest_absent by done. pose proof (ok_after_blob (Ingest.bytes input) s Hs) as Hs1.
  destruct (blob_put _ _) as [[h|e] b'] eqn:Hp; simpl; [|done].
  destruct (Db.vaults (db s) !! Ingest.vaultId input) as [v|] eqn:Hv; simpl; [|by apply ok_tick].
  change (db s) with (db (next_tick (after_blob (Ingest.bytes input) s))).
  apply ok_with_revision; [by apply ok_tick| |done|].
  - split; [exact Hpar|]. right. unfold received; simpl. change (db _) with (db s). by rewrite Hv.
  - simpl. rewrite Hp. by destruct (blob_put_view _ _ _ _ Hs Hp) as [-> ?].
Qed.
End ingest.

(** ** Local history *)

Section local.
Context (clock : nat → Date) (vaultIds revisionIds : nat → string) (deviceId : DeviceId).

(** Identifiers drawn from now on name nothing that is stored. *)
Definition fresh_ids s : Prop := ∀ n, (EngineState.ticks s <= n)%nat →
  Db.revisions (db s) !! revisionIds n = None ∧ Db.vaults (db s) !! vaultIds n = None.

(** The revision of a local change of a vault. *)
Definition changed (v : Vault.t) (bytes : Uint8Array) (n : nat) : Revision.t :=
  {| Revision.id := revisionIds (S n);
     Revision.vaultId := Vault.id v;
     Revision.hash := sha256 bytes;
     Revision.sizeBytes := byteLength bytes;
     Revision.createdAt := clock n;
     Revision.originDeviceId := Some deviceId;
     Revision.parentIds := option_list (Vault.headRevisionId v);
     Revision.operation := RevisionOperation.local_change;
     Revision.message := None |}.

Definition head_hash (v : Vault.t) (d : Db.t) : option Sha256Hex :=
  Vault.headRevisionId v ≫= λ h, RevisionRow.hash <$> Db.revisions d !! h.

(** The tables after a local change was recorded. *)
Definition changed_db (v : Vault.t) (r : Revision.t) (at_ : Date) (d : Db.t) : Db.t :=
  with_event (moveHead v (Revision.id r) at_ HeadReason.promote).2
    (saved_vault (Vault.set_head v (Revision.id r)) (with_revision r d)).

Lemma unchanged_head_run v hash s :
  engine_ok s → Db.vaults (db s) !! Vault.id v = Some v →
  unchanged_head (B := B) v hash s
  = (Ok (if decide (head_hash v (db s) = Some hash) then Vault.headRevisionId v else None), s).
Proof.
  intros Hs Hv. unfold unchanged_head, head_hash.
  destruct (Vault.headRevisionId v) as [h|] eqn:Hh; [|done].
  rewrite (bind_eq _ _ _ _ _ (getRevision_engine _ _)).
  destruct (ok_head _ Hs _ _ _ Hv Hh) as (row&Hrow&_).
  pose proof (wf_row_id _ (ok_wf _ Hs) _ _ Hrow) as Hid. simpl. rewrite Hrow. simpl.
  unfold mret, M_ret. destruct (decide (RevisionRow.hash row = hash)) as [Heq|Hne].
  - rewrite decide_True by by f_equal. by rewrite Hid.
  - by rewrite decide_False by (intros [= ?]; done).
Qed.

Lemma base_run seed :
  0 <= RevisionSeed.sizeBytes seed → ∃ mk, base seed = Ok mk ∧
  ∀ parents operation origin, mk parents operation origin =
    {| Revision.id := RevisionSeed.id seed; Revision.vaultId := RevisionSeed.vaultId seed;
       Revision.hash := RevisionSeed.hash seed; Revision.sizeBytes := RevisionSeed.sizeBytes seed;
       Revision.createdAt := RevisionSeed.at_ seed; Revision.originDeviceId := origin;
       Revision.parentIds := parents; Revision.operation := operation;
       Revision.message := RevisionSeed.message seed |}.
Proof.
  intros Hsize. unfold base. destruct (Z.leb_spec 0 (RevisionSeed.sizeBytes seed)); [|lia].
  by eexists.
Qed.

Lemma changed_savable v r s :
  engine_ok s → Db.vaults (db s) !! Vault.id v = Some v → Revision.vaultId r = Vault.id v →
  Revision.parentIds r = option_list (Vault.headRevisionId v) → savable r (db s).
Proof.
  intros Hs Hv Hr Hp. split; [|right; by rewrite Hr, Hv]. rewrite Hp. intros p.
  destruct (Vault.headRevisionId v) as [h|] eqn:Hh; simpl; [|by intros ?%elem_of_nil].
  intros ->%list_elem_of_singleton. destruct (ok_head _ Hs _ _ _ Hv Hh) as (row&?&_).
  unfold StoreTheory.stored. eauto.
Qed.

(** One transaction: the revision, the head, the event. *)
Lemma record_transaction v r at_ s :
  engine_ok s → Db.vaults (db s) !! Vault.id v = Some v → Revision.vaultId r = Vault.id v →
  Revision.parentIds r = option_list (Vault.headRevisionId v) →
  transaction (
    metadata (B := B) (saveRevision r) ≫= λ _,
    metadata (saveVault (Vault.set_head v (Revision.id r))) ≫= λ _,
    metadata (appendHeadEvent
      {| HeadRevisionEvent.vaultId := Vault.id v;
         HeadRevisionEvent.previousRevisionId := Vault.headRevisionId v;
         HeadRevisionEvent.nextRevisionId := Revision.id r;
         HeadRevisionEvent.createdAt := at_;
         HeadRevisionEvent.reason := HeadReason.promote |}) ≫= λ _,
    mret (recorded r)) s
  = (Ok (recorded r), set_db (changed_db v r at_ (db s)) s).
Proof.
  intros Hs Hv Hr Hp. set (e := HeadRevisionEvent.mk _ _ _ _ _).
  rewrite (transaction_ext _ (metadata (saveRevision r ≫= λ _,
    saveVault (Vault.set_head v (Revision.id r)) ≫= λ _, appendHeadEvent e ≫= λ _,
    mret (recorded r)))).
  - rewrite transaction_db by apply Hs.
    rewrite (bind_eq _ _ _ _ _ (saveRevision_ok _ _ (changed_savable v r s Hs Hv Hr Hp))).
    rewrite (bind_eq _ _ _ _ _ (saveVault_run _ _)).
    erewrite bind_eq; [reflexivity|]. apply appendHeadEvent_run.
    rewrite saved_vault_lookup. simpl. rewrite decide_True by (by destruct v). eauto.
  - intros s'. fuse_metadata.
Qed.

Lemma seed_run k hash size at_ message s :
  seed (B := B) revisionIds k hash size at_ message s
  = (Ok (RevisionSeed.mk (revisionIds (EngineState.ticks s)) k hash size at_ message), next_tick s).
Proof. done. Qed.

Lemma local_change_run v bytes n s :
  lift (S := EngineState.t B) (localChangeRevision
    (RevisionSeed.mk (revisionIds (S n)) (Vault.id v) (sha256 bytes) (byteLength bytes)
      (clock n) None) (Vault.headRevisionId v) (Some deviceId)) s
  = (Ok (changed v bytes n), s).
Proof.
  unfold lift, localChangeRevision.
  destruct (base_run (RevisionSeed.mk (revisionIds (S n)) (Vault.id v) (sha256 bytes)
    (byteLength bytes) (clock n) None)) as (mk&Hmk&Heq); [unfold byteLength; simpl; lia|].
  rewrite Hmk. cbn [mbind result_bind]. by rewrite Heq.
Qed.

Lemma recordLocalChange_run k bytes s :
  engine_ok s →
  recordLocalChange (B := B) clock revisionIds deviceId k bytes s =
  match Db.vaults (db s) !! k with
  | None => (Err ("Contract violation: unknown vault " +:+ k)%string, s)
  | Some v =>
      match (if decide (head_hash v (db s) = Some (sha256 bytes))
             then Vault.headRevisionId v else None) with
      | Some h => (Ok (unchanged h), s)
      | None =>
          match (blob_put bytes (EngineState.blobs s)).1 with
          | Err e => (Err e, after_blob bytes s)
          | Ok _ =>
              let n := EngineState.ticks s in
              (Ok (recorded (changed v bytes n)),
               set_db (changed_db v (changed v bytes n) (clock n) (db s))
                 (next_tick (next_tick (after_blob bytes s))))
          end
      end
  end.
Proof.
  intros Hs. unfold recordLocalChange. pose proof (requireVault_run k s) as Hreq.
  destruct (Db.vaults (db s) !! k) as [v|] eqn:Hk; [|by rewrite (bind_err _ _ _ _ _ Hreq)].
  rewrite (bind_eq _ _ _ _ _ Hreq).
  pose proof (wf_vault_id _ (ok_wf _ Hs) _ _ Hk) as Hvk.
  assert (Db.vaults (db s) !! Vault.id v = Some v) as Hv by by rewrite Hvk.
  rewrite (bind_eq _ _ _ _ _ (unchanged_head_run v (sha256 bytes) s Hs Hv)).
  destruct (if decide _ then _ else _) as [h|]; [done|].
  pose proof (blobs_put_run bytes s) as Hput.
  destruct (blob_put bytes (EngineState.blobs s)).1 as [h|e] eqn:Hp.
  2:{ by rewrite (bind_err _ _ _ _ _ Hput). }
  rewrite (bind_eq _ _ _ _ _ Hput). unfold now. rewrite (bind_eq _ _ _ _ _ (tick_run _ _)).
  change (EngineState.ticks (EngineState.set_blobs _ s)) with (EngineState.ticks s).
  change (EngineState.set_blobs _ s) with (after_blob bytes s).
  set (n := EngineState.ticks s).
  rewrite (bind_eq _ _ _ _ _ (seed_run _ _ _ _ _ _)).
  rewrite <-Hvk, (bind_eq _ _ _ _ _ (local_change_run v bytes n _)).
  apply (record_transaction v (changed v bytes n) (clock n)
    (next_tick (next_tick (after_blob bytes s)))); [|done..]. by apply ok_tick, ok_tick, ok_after_blob.
Qed.
End local.
End engine.
