(* ===== verification/EngineSteps.v ===== *)
(** * The sync engine: importing, merging, and every operation a step

    The runs of [importVault] and [merge], and the proof that each operation of
    the engine keeps the invariant whether it returns or throws: the states a
    device can reach. *)

From S2P Require Import Prelude Model Bytes Dag Lineage LineageProps Protocol Effects Store.
From S2P Require Import StoreTheory StoreProps BlobStore Engine EngineTheory.

Open Scope Z_scope.

Section steps.
Context `{RowOrder} `{Sha256} {B : Type} `{!BlobStore B}.
Context (clock : nat → Date) (vaultIds revisionIds : nat → string) (deviceId : DeviceId).
Context {Credentials : Type}.
Context (interpreter_merge : InterpretationRequest.t Credentials → InterpretationResult).
Context (interpreter_diff : InterpretationRequest.t Credentials → DiffResult).
Implicit Types s : EngineState.t B.

(** ** Import *)

Definition imported_revision (k : VaultId) (i : RevisionId) (name : string) (bytes : Uint8Array)
    (at_ : Date) : Revision.t :=
  {| Revision.id := i; Revision.vaultId := k; Revision.hash := sha256 bytes;
     Revision.sizeBytes := byteLength bytes; Revision.createdAt := at_;
     Revision.originDeviceId := Some deviceId; Revision.parentIds := [];
     Revision.operation := RevisionOperation.imported; Revision.message := Some name |}.

Definition imported_vault (k : VaultId) (name : string) (path : option string) (at_ : Date) : Vault.t :=
  {| Vault.id := k; Vault.name := name; Vault.headRevisionId := None; Vault.kdbxPath := path;
     Vault.createdAt := at_ |}.

Definition import_event (k : VaultId) (i : RevisionId) (at_ : Date) : HeadRevisionEvent.t :=
  {| HeadRevisionEvent.vaultId := k; HeadRevisionEvent.previousRevisionId := None;
     HeadRevisionEvent.nextRevisionId := i; HeadRevisionEvent.createdAt := at_;
     HeadRevisionEvent.reason := HeadReason.promote |}.

Definition imported_db (v : Vault.t) (r : Revision.t) (d : Db.t) : Db.t :=
  with_event (import_event (Vault.id v) (Revision.id r) (Vault.createdAt v))
    (saved_vault (Vault.set_head v (Revision.id r)) (with_revision r (saved_vault v d))).

Lemma import_transaction v r s :
  engine_ok s → Revision.vaultId r = Vault.id v → Revision.parentIds r = [] →
  transaction (
    metadata (B := B) (saveVault v) ≫= λ _,
    metadata (saveRevision r) ≫= λ _,
    metadata (saveVault (Vault.set_head v (Revision.id r))) ≫= λ _,
    metadata (appendHeadEvent (import_event (Vault.id v) (Revision.id r) (Vault.createdAt v)))
      ≫= λ _, mret (Vault.set_head v (Revision.id r), r)) s
  = (Ok (Vault.set_head v (Revision.id r), r), set_db (imported_db v r (db s)) s).
Proof.
  intros Hs Hr Hp.
  rewrite (transaction_ext _ (metadata (saveVault v ≫= λ _, saveRevision r ≫= λ _,
    saveVault (Vault.set_head v (Revision.id r)) ≫= λ _,
    appendHeadEvent (import_event (Vault.id v) (Revision.id r) (Vault.createdAt v)) ≫= λ _,
    mret (Vault.set_head v (Revision.id r), r)))).
  - rewrite transaction_db by apply Hs. rewrite (bind_eq _ _ _ _ _ (saveVault_run _ _)).
    rewrite (bind_eq _ _ _ tt (with_revision r (saved_vault v (db s)))).
    + rewrite (bind_eq _ _ _ _ _ (saveVault_run _ _)). erewrite bind_eq; [reflexivity|].
      apply appendHeadEvent_run. rewrite saved_vault_lookup. simpl.
      rewrite decide_True by (by destruct v). eauto.
    + apply saveRevision_ok. split; [rewrite Hp; by intros p ?%elem_of_nil|]. right.
      rewrite saved_vault_lookup, decide_True by done. eauto.
  - intros s'. fuse_metadata.
Qed.

Lemma ok_imported v r s :
  engine_ok s → Vault.headRevisionId v = None → Revision.vaultId r = Vault.id v →
  Revision.parentIds r = [] → ¬ StoreTheory.stored (db s) (Revision.id r) →
  is_Some (view (EngineState.blobs s) (Revision.hash r)) →
  engine_ok (set_db (imported_db v r (db s)) s).
Proof.
  intros Hs Hh Hr Hp Hnew Hview.
  pose proof (ok_saved_vault v s Hs ltac:(by rewrite Hh)) as H1.
  apply (ok_with_revision r) in H1; rewrite ?db_set_db, ?blobs_set_db in *.
  - apply (ok_saved_vault (Vault.set_head v (Revision.id r))) in H1; rewrite ?db_set_db in *.
    + apply (ok_with_event (import_event (Vault.id v) (Revision.id r) (Vault.createdAt v))) in H1.
      by rewrite !db_set_db, !set_db_twice in H1.
    + intros h. destruct v; simpl in *. intros [= <-].
      rewrite with_revision_lookup, saved_vault_revisions.
      unfold StoreTheory.stored in Hnew. destruct (Db.revisions (db s) !! Revision.id r); [by destruct Hnew|].
      rewrite decide_True by done. eexists. split; [done|]. done.
  - split; [rewrite Hp; by intros p ?%elem_of_nil|]. right.
    rewrite saved_vault_lookup, decide_True by done. eauto.
  - unfold StoreTheory.stored. by rewrite saved_vault_revisions.
  - done.
Qed.
Definition new_vault (name : string) (path : option string) s : Vault.t :=
  imported_vault (vaultIds (S (EngineState.ticks s))) name path (clock (EngineState.ticks s)).

Definition new_revision (name : string) (bytes : Uint8Array) s : Revision.t :=
  imported_revision (vaultIds (S (EngineState.ticks s))) (revisionIds (S (S (EngineState.ticks s))))
    name bytes (clock (EngineState.ticks s)).

Lemma imported_run k i name bytes at_ s :
  lift (S := EngineState.t B) (importedRevision
    (RevisionSeed.mk i k (sha256 bytes) (byteLength bytes) at_ (Some name)) (Some deviceId)) s
  = (Ok (imported_revision k i name bytes at_), s).
Proof.
  unfold lift, importedRevision.
  destruct (base_run (RevisionSeed.mk i k (sha256 bytes) (byteLength bytes) at_ (Some name)))
    as (mk&Hmk&Heq); [unfold byteLength; simpl; lia|].
  rewrite Hmk. cbn [mbind result_bind]. by rewrite Heq.
Qed.

Lemma importVault_run name bytes path s :
  engine_ok s →
  importVault (B := B) clock vaultIds revisionIds deviceId name bytes path s =
  match (blob_put bytes (EngineState.blobs s)).1 with
  | Err e => (Err e, after_blob bytes s)
  | Ok _ =>
      let v := new_vault name path s in
      let r := new_revision name bytes s in
      (Ok (Vault.set_head v (Revision.id r), r),
       set_db (imported_db v r (db s)) (next_tick (next_tick (next_tick (after_blob bytes s)))))
  end.
Proof.
  intros Hs. unfold importVault. pose proof (blobs_put_run bytes s) as Hput.
  pose proof (blob_put_view bytes s) as Hview.
  destruct (blob_put bytes (EngineState.blobs s)) as [[h|e] b'] eqn:Hp; simpl in *.
  2:{ rewrite (bind_err _ _ _ _ _ Hput). unfold after_blob. by rewrite Hp. }
  destruct (Hview h b' Hs eq_refl) as [-> _]. rewrite (bind_eq _ _ _ _ _ Hput).
  assert (EngineState.set_blobs b' s = after_blob bytes s) as -> by (unfold after_blob; by rewrite Hp).
  unfold now. rewrite (bind_eq _ _ _ _ _ (tick_run _ _)), (bind_eq _ _ _ _ _ (tick_run _ _)).
  rewrite (bind_eq _ _ _ _ _ (seed_run _ _ _ _ _ _ _)), (bind_eq _ _ _ _ _ (imported_run _ _ _ _ _ _)).
  apply (import_transaction (new_vault name path s) (new_revision name bytes s)
    (next_tick (next_tick (next_tick (after_blob bytes s))))); [|done..].
  by repeat apply ok_tick; apply ok_after_blob.
Qed.

Lemma ok_import name bytes path s :
  engine_ok s → fresh_ids vaultIds revisionIds s →
  engine_ok (importVault (B := B) clock vaultIds revisionIds deviceId name bytes path s).2.
Proof.
  intros Hs Hf. rewrite importVault_run by done. pose proof (ok_after_blob bytes s Hs) as Hb.
  pose proof (blob_put_view bytes s) as Hview. unfold after_blob in *.
  destruct (blob_put bytes (EngineState.blobs s)) as [[h|e] b'] eqn:Hp; simpl in *; [|done].
  set (s1 := next_tick (next_tick (next_tick _))). change (db s) with (db s1).
  apply ok_imported; [by do 3 apply ok_tick|done..| |].
  - destruct (Hf (S (S (EngineState.ticks s)))) as [Hnone _]; [lia|].
    intros [row Hrow]. change (Db.revisions (db s) !! revisionIds (S (S (EngineState.ticks s)))
      = Some row) in Hrow. congruence.
  - destruct (Hview h b' Hs eq_refl) as [-> ?]. done.
Qed.

(** ** Reading *)

Lemma reads_requireVault k : reads (requireVault (B := B) k).
Proof. intros s. by rewrite requireVault_run. Qed.

Lemma reads_requireRevision i : reads (requireRevision (B := B) i).
Proof. intros s. by rewrite requireRevision_run. Qed.

Lemma reads_metadata {A} (m : M Db.t A) : reads m → reads (metadata (B := B) m).
Proof. intros Hm s. rewrite metadata_run, Hm. apply set_db_id. Qed.

Lemma reads_listRevisions k : reads (listRevisions k).
Proof. unfold listRevisions, parentsOf. auto with passvault. Qed.

Lemma reads_loadGraph k : reads (loadGraph k).
Proof. done. Qed.

Lemma reads_material r : reads (material (B := B) r).
Proof.
  apply reads_bind; [|done]. intros s. unfold blobs, on. simpl.
  pose proof (get_pure (EngineState.blobs s) (Revision.hash r)) as Hg.
  destruct (blob_get _ _); simpl in *. subst. by destruct s.
Qed.

#[local] Hint Resolve reads_requireVault reads_requireRevision reads_material : passvault.

Lemma ok_bind_reads {A C} (m : M (EngineState.t B) A) (k : A → M _ C) s :
  reads m → engine_ok s → (∀ a, m s = (Ok a, s) → engine_ok (k a s).2) → engine_ok ((m ≫= k) s).2.
Proof.
  intros Hm Hs Hk. unfold mbind, M_bind. specialize (Hm s).
  destruct (m s) as [[a|e] s1]; simpl in *; subst; [by apply Hk|done].
Qed.

Lemma ok_reads {A} (m : M (EngineState.t B) A) s : reads m → engine_ok s → engine_ok (m s).2.
Proof. intros Hm Hs. by rewrite Hm. Qed.

(** ** Merge *)

(** Saving a new revision outside a transaction, whether or not it is refused. *)
Lemma ok_saveRevision r s :
  engine_ok s → ¬ StoreTheory.stored (db s) (Revision.id r) →
  is_Some (view (EngineState.blobs s) (Revision.hash r)) →
  engine_ok (metadata (B := B) (saveRevision r) s).2.
Proof.
  intros Hs Hnew Hview. rewrite metadata_run.
  destruct (saveRevision_cases r (db s)) as [[Hsv Hrun]|[_ [e Hrun]]]; rewrite Hrun.
  - by apply ok_with_revision.
  - simpl. by rewrite set_db_id.
Qed.

(** The part of a merge after the interpreter produced the merged vault. *)
Definition store_merge (k : VaultId) (base : RevisionId) (incoming : list RevisionId)
    (message : string) (bytes : Uint8Array) : M (EngineState.t B) MergeOutcome :=
  blobs (blob_put bytes) ≫= λ hash,
  Engine.now clock ≫= λ now,
  seed revisionIds k hash (byteLength bytes) now (Some message) ≫= λ seed,
  lift (mergedRevision seed base incoming (Some deviceId)) ≫= λ revision,
  metadata (saveRevision revision) ≫= λ _, mret (merged revision).

Lemma ok_store_merge k base incoming message bytes s :
  engine_ok s → fresh_ids vaultIds revisionIds s →
  engine_ok (store_merge k base incoming message bytes s).2.
Proof.
  intros Hs Hf. unfold store_merge. pose proof (blobs_put_run bytes s) as Hput.
  pose proof (blob_put_view bytes s) as Hview. pose proof (ok_blob_put bytes s Hs) as Hb.
  destruct (blob_put bytes (EngineState.blobs s)) as [[h|e] b'] eqn:Hp; simpl in *.
  2:{ by rewrite (bind_err _ _ _ _ _ Hput). }
  destruct (Hview h b' Hs eq_refl) as [-> Hv]. rewrite (bind_eq _ _ _ _ _ Hput).
  unfold Engine.now. rewrite (bind_eq _ _ _ _ _ (tick_run _ _)), (bind_eq _ _ _ _ _ (seed_run _ _ _ _ _ _ _)).
  set (s1 := next_tick (next_tick _)). assert (engine_ok s1) as Hs1 by by do 2 apply ok_tick.
  unfold lift at 1. unfold mbind at 1, M_bind at 1. simpl.
  destruct (mergedRevision _ _ _ _) as [r|e] eqn:Hr; [|done].
  destruct (mergedRevision_fields _ _ _ _ _ Hr) as (_&_&_&Hid&Hhash&_). simpl in Hid, Hhash.
  assert (engine_ok (metadata (B := B) (saveRevision r) s1).2) as Hok.
  { apply ok_saveRevision; [done| |by rewrite Hhash].
    intros [row Hrow]. destruct (Hf (S (EngineState.ticks s)) ltac:(lia)) as [Hnone _].
    rewrite Hid in Hrow. change (db s1) with (db s) in Hrow. congruence. }
  unfold mbind, M_bind. destruct (metadata (saveRevision r) s1) as [[u|e] s2]; done.
Qed.

Lemma ok_merge k base incoming credentials message s :
  engine_ok s → fresh_ids vaultIds revisionIds s →
  engine_ok (merge (B := B) clock revisionIds deviceId interpreter_merge
    k base incoming credentials message s).2.
Proof.
  intros Hs Hf. unfold merge.
  apply ok_bind_reads; [apply reads_requireRevision|done|]. intros b _.
  apply ok_bind_reads; [apply reads_map_each, reads_requireRevision|done|]. intros inc _.
  apply ok_bind_reads; [apply reads_material|done|]. intros loc _.
  apply ok_bind_reads; [apply reads_map_each, reads_material|done|]. intros mats _.
  destruct (interpreter_merge _) as [bytes ?| | |]; [|done..].
  by apply ok_store_merge.
Qed.

(** ** Vaults and peers *)

Lemma ok_adopt k name s : engine_ok s → engine_ok (adoptVault (B := B) clock k name s).2.
Proof.
  intros Hs. unfold adoptVault, getVault. erewrite bind_eq by apply metadata_gets.
  destruct (Db.vaults (db s) !! k) as [v|]; [done|].
  unfold Engine.now. rewrite (bind_eq _ _ _ _ _ (tick_run _ _)). cbv zeta.
  erewrite bind_eq by (rewrite metadata_run, saveVault_run; reflexivity).
  apply (ok_saved_vault _ (next_tick s)); [by apply ok_tick|done].
Qed.

Lemma ok_bind_file k path s : engine_ok s → engine_ok (bindVaultToFile (B := B) k path s).2.
Proof.
  intros Hs. unfold bindVaultToFile. apply ok_bind_reads; [apply reads_requireVault|done|].
  intros v Hv. rewrite requireVault_run in Hv.
  destruct (Db.vaults (db s) !! k) as [w|] eqn:Hk; simplify_eq.
  erewrite bind_eq by (rewrite metadata_run, saveVault_run; reflexivity).
  apply ok_saved_vault; [done|]. destruct v; simpl. intros h Hh. 
  pose proof (wf_vault_id _ (ok_wf _ Hs) _ _ Hk) as Hid. simpl in Hid. subst.
  by apply (ok_head _ Hs _ _ _ Hk).
Qed.

Lemma ok_peer_head peer k head s :
  engine_ok s → engine_ok (engine_recordPeerHead (B := B) clock peer k head s).2.
Proof.
  intros Hs. unfold engine_recordPeerHead, Engine.now. rewrite (bind_eq _ _ _ _ _ (tick_run _ _)).
  rewrite metadata_run. simpl. change (db (next_tick s)) with (db s).
  set (d := (recordPeerHead _ _ _ _ _).2).
  assert (same_history (db s) d) as Hd by by apply (other_writes_same (RecordPeerHead peer k head _)).
  apply ok_set_db; [by apply ok_tick|by eapply wf_proper, Hs|..].
  - destruct Hd as (_&->&_). by left.
  - destruct Hd as (->&->&_). apply (ok_head _ Hs).
Qed.

(** ** The states of a device *)

(** A call of a public method of the engine, whose answer is dropped. *)
Inductive EngineOp : Type :=
  | ImportVault (name : string) (bytes : Uint8Array) (kdbxPath : option string)
  | RecordLocalChange (vaultId : VaultId) (bytes : Uint8Array)
  | IngestReceivedRevision (input : Ingest.t)
  | DivergenceWithPeer (vaultId : VaultId) (nodes : list RevisionNode.t) (head : RevisionId)
  | Merge (vaultId : VaultId) (base : RevisionId) (incoming : list RevisionId)
      (credentials : Credentials) (message : option string)
  | PreviewDiff (vaultId : VaultId) (base : RevisionId) (incoming : list RevisionId)
      (credentials : Credentials)
  | Promote (vaultId : VaultId) (revisionId : RevisionId)
  | FastForward (vaultId : VaultId) (revisionId : RevisionId)
  | BytesOf (revisionId : RevisionId)
  | AdoptVault (vaultId : VaultId) (name : string)
  | BindVaultToFile (vaultId : VaultId) (kdbxPath : string)
  | HistorySummary (vaultId : VaultId)
  | RecordPeerHead (peer : DeviceId) (vaultId : VaultId) (head : RevisionId).

Definition after {A} (m : M (EngineState.t B) A) s : EngineState.t B := (m s).2.

Definition perform (op : EngineOp) : EngineState.t B → EngineState.t B :=
  match op with
  | ImportVault name bytes path =>
      after (importVault clock vaultIds revisionIds deviceId name bytes path)
  | RecordLocalChange k bytes => after (recordLocalChange clock revisionIds deviceId k bytes)
  | IngestReceivedRevision input => after (ingestReceivedRevision clock input)
  | DivergenceWithPeer k nodes head => after (divergenceWithPeer k nodes head)
  | Merge k base incoming credentials message =>
      after (merge clock revisionIds deviceId interpreter_merge k base incoming credentials message)
  | PreviewDiff k base incoming credentials =>
      after (previewDiff interpreter_diff k base incoming credentials)
  | Promote k i => after (promote clock k i)
  | FastForward k i => after (fastForward clock k i)
  | BytesOf i => after (bytesOf i)
  | AdoptVault k name => after (adoptVault clock k name)
  | BindVaultToFile k path => after (bindVaultToFile k path)
  | HistorySummary k => after (historySummary k)
  | RecordPeerHead peer k head => after (engine_recordPeerHead clock peer k head)
  end.

Definition engine_initial s : Prop :=
  EngineState.metadata s = Store.mk Db.empty 0 None false ∧ blob_ok (EngineState.blobs s).

(** Every sequence of operations, each run where the identifiers still to be
    drawn are new. *)
Inductive engine_reachable : EngineState.t B → Prop :=
  | engine_start s : engine_initial s → engine_reachable s
  | engine_step op s :
      engine_reachable s → fresh_ids vaultIds revisionIds s → engine_reachable (perform op s).

Lemma ok_changed v bytes n at_ s :
  engine_ok s → Db.vaults (db s) !! Vault.id v = Some v →
  ¬ StoreTheory.stored (db s) (revisionIds (S n)) →
  is_Some (view (EngineState.blobs s) (sha256 bytes)) →
  engine_ok (set_db (changed_db v (changed clock revisionIds deviceId v bytes n) at_ (db s)) s).
Proof.
  intros Hs Hv Hnew Hview. set (r := changed _ _ _ _ _ _).
  pose proof (ok_with_revision r s Hs (changed_savable v r s Hs Hv eq_refl eq_refl) Hnew Hview) as H1.
  apply (ok_saved_vault (Vault.set_head v (Revision.id r))) in H1; rewrite ?db_set_db in *.
  - apply (ok_with_event (moveHead v (Revision.id r) at_ HeadReason.promote).2) in H1.
    by rewrite !db_set_db, !set_db_twice in H1.
  - intros h. destruct v; simpl in *. intros [= <-]. rewrite with_revision_lookup.
    unfold StoreTheory.stored in Hnew. simpl.
    destruct (Db.revisions (db s) !! revisionIds (S n)); [by destruct Hnew|].
    rewrite decide_True by done. eexists. split; done.
Qed.

Lemma ok_local_change k bytes s :
  engine_ok s → fresh_ids vaultIds revisionIds s →
  engine_ok (recordLocalChange (B := B) clock revisionIds deviceId k bytes s).2.
Proof.
  intros Hs Hf. rewrite recordLocalChange_run by done.
  destruct (Db.vaults (db s) !! k) as [v|] eqn:Hk; [|done].
  destruct (if decide _ then _ else _) as [h|]; [done|].
  pose proof (ok_after_blob bytes s Hs) as Hb. pose proof (blob_put_view bytes s) as Hview.
  unfold after_blob in *. destruct (blob_put bytes (EngineState.blobs s)) as [[h|e] b'] eqn:Hp;
    simpl in *; [|done].
  destruct (Hview h b' Hs eq_refl) as [-> Hv].
  set (s1 := next_tick (next_tick _)). change (db s) with (db s1).
  apply ok_changed; [by do 2 apply ok_tick| | |done].
  - change (db s1) with (db s). by rewrite (wf_vault_id _ (ok_wf _ Hs) _ _ Hk).
  - destruct (Hf (S (EngineState.ticks s))) as [Hnone _]; [lia|].
    intros [row Hrow]. change (Db.revisions (db s) !! revisionIds (S (EngineState.ticks s))
      = Some row) in Hrow. congruence.
Qed.

Lemma reads_divergence k nodes head : reads (divergenceWithPeer (B := B) k nodes head).
Proof.
  unfold divergenceWithPeer. apply reads_bind; [apply reads_lift|]. intros _.
  apply reads_bind; [apply reads_requireVault|]. intros v. destruct (Vault.headRevisionId v);
    eauto using reads_metadata, reads_loadGraph with passvault.
Qed.

Lemma reads_bytesOf i : reads (bytesOf (B := B) i).
Proof.
  apply reads_bind; [apply reads_requireRevision|]. intros r s. unfold blobs, on. simpl.
  pose proof (get_pure (EngineState.blobs s) (Revision.hash r)) as Hg.
  destruct (blob_get _ _); simpl in *. subst. by destruct s.
Qed.

Lemma perform_ok op s : engine_ok s → fresh_ids vaultIds revisionIds s → engine_ok (perform op s).
Proof.
  intros Hs Hf. unfold perform, after.
  destruct op as [name bytes path|k bytes|input|k nodes head|k base inc cred message
    |k base inc cred|k i|k i|i|k name|k path|k|peer k head].
  - by apply ok_import.
  - by apply ok_local_change.
  - by apply ok_ingest.
  - apply ok_reads; [apply reads_divergence|done].
  - by apply ok_merge.
  - apply ok_reads; [|done]. unfold previewDiff.
    repeat (apply reads_bind; [auto with passvault|intros ?]); auto with passvault.
  - rewrite promote_run by done. by apply ok_head_move.
  - rewrite fastForward_run by done. by apply ok_head_move.
  - apply ok_reads; [apply reads_bytesOf|done].
  - by apply ok_adopt.
  - by apply ok_bind_file.
  - apply ok_reads; [|done]. apply reads_bind; [|done]. apply reads_metadata, reads_listRevisions.
  - by apply ok_peer_head.
Qed.

Lemma engine_reachable_ok s : engine_reachable s → engine_ok s.
Proof.
  induction 1 as [s [Hm Hb]|op s _ IH Hf]; [|by apply perform_ok].
  split; unfold quiet, db; rewrite ?Hm; simpl; [done|apply wf_empty|done|..]; by intros.
Qed.

End steps.

#[export] Hint Resolve reads_requireVault reads_requireRevision reads_material : passvault.
