(* ===== verification/EngineProps.v ===== *)
(** * The sync engine: properties *)

From S2P Require Import Prelude Model Bytes JsString Dag DagTheory DagTheory Lineage.
From S2P Require Import LineageProps Protocol Effects Store StoreTheory StoreProps BlobStore.
From S2P Require Import BlobProps Engine EngineTheory EngineSteps.
From stdpp Require Import relations.

Open Scope Z_scope.

Section facts.
Context `{RowOrder} `{Sha256} {B : Type} `{!BlobStore B}.
Implicit Types s : EngineState.t B.

Lemma bytesOf_run i row bytes s :
  engine_ok s → Db.revisions (db s) !! i = Some row →
  view (EngineState.blobs s) (RevisionRow.hash row) = Some bytes →
  bytesOf (B := B) i s = (Ok bytes, s).
Proof.
  intros Hs Hrow Hv. unfold bytesOf. pose proof (requireRevision_run i s) as Hr.
  rewrite Hrow in Hr. rewrite (bind_eq _ _ _ _ _ Hr). unfold blobs, on. simpl.
  rewrite (get_spec _ _ _ (ok_blobs _ Hs) Hv). by destruct s.
Qed.

(** The bytes of every stored revision are there, under its hash. *)
Lemma stored_bytes i row s :
  engine_ok s → Db.revisions (db s) !! i = Some row →
  ∃ bytes, bytesOf (B := B) i s = (Ok bytes, s) ∧ sha256 bytes = RevisionRow.hash row.
Proof.
  intros Hs Hrow. destruct (ok_bytes _ Hs _ _ Hrow) as [bytes Hv]. exists bytes.
  split; [by eapply bytesOf_run|]. by apply (view_hash _ _ _ (ok_blobs _ Hs)).
Qed.

(** ** The states of a device *)

Section devices.
Context (clock : nat → Date) (vaultIds revisionIds : nat → string) (deviceId : DeviceId).
Context {Credentials : Type}.
Context (interpreter_merge : InterpretationRequest.t Credentials → InterpretationResult).
Context (interpreter_diff : InterpretationRequest.t Credentials → DiffResult).

(** C5: whatever operations a device performed, in any order, failed ones
    included, with any peer and any interpreter: each stored revision's exact
    bytes can be read back and hash to its recorded hash, its parents are
    stored, no revision is its own ancestor, and the head of each vault is a
    stored revision of that vault.  Identifiers drawn by the device are new. *)
Theorem engine_history_sound s
    (Hs : engine_reachable clock vaultIds revisionIds deviceId interpreter_merge interpreter_diff s) :
  (∀ i row, Db.revisions (db s) !! i = Some row →
     (∃ bytes, bytesOf (B := B) i s = (Ok bytes, s) ∧ sha256 bytes = RevisionRow.hash row) ∧
     ∀ p, edge (db s) i p → StoreTheory.stored (db s) p) ∧
  (∀ i, ¬ tc (edge (db s)) i i) ∧
  (∀ k v h, Db.vaults (db s) !! k = Some v → Vault.headRevisionId v = Some h →
     ∃ r, (metadata (B := B) (getRevision h) s).1 = Ok (Some r) ∧ Revision.vaultId r = k).
Proof.
  apply engine_reachable_ok in Hs. split_and!.
  - intros i row Hrow. split; [by apply stored_bytes|]. intros p Hp.
    by apply (wf_closed _ (ok_wf _ Hs) i p).
  - intros i. apply wf_acyclic, Hs.
  - intros k v h Hv Hh. destruct (ok_head _ Hs k v h Hv Hh) as (row&Hrow&<-).
    rewrite getRevision_engine, Hrow. by eexists.
Qed.
End devices.

(** ** Head moves *)

(** Promoting and fast-forwarding.  With the vault and the revision known
    and the revision the vault's own, the head becomes the revision, everything
    else about every vault and every revision stays, and one event records the
    move with the head it replaced; otherwise the call throws and no table
    changes. *)
Theorem head_moves_recorded (clock : nat → Date) (k : VaultId) (i : RevisionId)
    (reason : HeadReason.t) s (Hs : engine_ok s)
    (move : M (EngineState.t B) Vault.t)
    (Hmove : (reason = HeadReason.promote ∧ move = promote clock k i) ∨
             (reason = HeadReason.fast_forward ∧ move = fastForward clock k i)) :
  match move s with
  | (Ok next, s') =>
      ∃ v row, Db.vaults (db s) !! k = Some v ∧ Db.revisions (db s) !! i = Some row ∧
        RevisionRow.vault_id row = k ∧ next = Vault.set_head v i ∧
        Db.vaults (db s') = <[k := next]> (Db.vaults (db s)) ∧
        Db.revisions (db s') = Db.revisions (db s) ∧
        Db.revision_parents (db s') = Db.revision_parents (db s) ∧
        Db.head_events (db s') = Db.head_events (db s) ++
          [HeadRevisionEvent.mk k (Vault.headRevisionId v) i (clock (EngineState.ticks s)) reason]
  | (Err _, s') =>
      db s' = db s ∧ ¬ ∃ v row, Db.vaults (db s) !! k = Some v ∧
        Db.revisions (db s) !! i = Some row ∧ RevisionRow.vault_id row = k
  end.
Proof.
  assert (∃ refusal, move s = head_move_result clock k i reason refusal s) as [refusal ->].
  { destruct Hmove as [[-> ->]|[-> ->]]; eexists; by rewrite ?promote_run, ?fastForward_run. }
  unfold head_move_result.
  destruct (Db.vaults (db s) !! k) as [v|] eqn:Hv; [|split; [done|naive_solver]].
  destruct (Db.revisions (db s) !! i) as [row|] eqn:Hrow; [|split; [done|naive_solver]].
  case_decide as Heq; [|split; [done|naive_solver]].
  pose proof (wf_vault_id _ (ok_wf _ Hs) _ _ Hv) as Hid.
  exists v, row. split_and!; [done..| | | |]; rewrite db_set_db.
  all: unfold moved, with_event, saved_vault, saveVault, modify; simpl; destruct (db s), v; simpl in *.
  all: rewrite ?Hid, ?Hv, ?Hid; done.
Qed.
(** ** New revisions *)

(** Between two states exactly this revision became stored, with its bytes. *)
Definition adds (r : Revision.t) s s' : Prop :=
  ¬ StoreTheory.stored (db s) (Revision.id r) ∧
  (∃ r', (metadata (B := B) (getRevision (Revision.id r)) s').1 = Ok (Some r') ∧ same_revision r r') ∧
  (∀ i, i ≠ Revision.id r →
     (metadata (B := B) (getRevision i) s').1 = (metadata (B := B) (getRevision i) s).1) ∧
  ∃ bytes, bytesOf (B := B) (Revision.id r) s' = (Ok bytes, s') ∧ sha256 bytes = Revision.hash r.

Lemma getRevision_same i d d' :
  Db.revisions d' = Db.revisions d → Db.revision_parents d' = Db.revision_parents d →
  (getRevision i d').1 = (getRevision i d).1.
Proof. intros Hr Hp. rewrite !getRevision_run. unfold parents_in. by rewrite Hr, Hp. Qed.

Lemma getRevision_part i s :
  (metadata (B := B) (getRevision i) s).1 = (getRevision i (db s)).1.
Proof. by rewrite metadata_run. Qed.

Lemma adds_with_revision r s s' :
  wf (db s) → engine_ok s' → ¬ StoreTheory.stored (db s) (Revision.id r) →
  Db.revisions (db s') = Db.revisions (with_revision r (db s)) →
  Db.revision_parents (db s') = Db.revision_parents (with_revision r (db s)) →
  adds r s s'.
Proof.
  intros Hw Hs' Hnew Hr Hp. unfold adds. setoid_rewrite getRevision_part.
  setoid_rewrite (λ i, getRevision_same i _ _ Hr Hp). split_and!; [done| | |].
  - destruct (getRevision_with_revision r (db s) Hw Hnew) as (r'&->&Hsame&_). eauto.
  - intros i Hi. by apply getRevision_other.
  - assert (Db.revisions (db s') !! Revision.id r = Some (to_row r)) as Hrow.
    { rewrite Hr, with_revision_lookup, decide_True by done. destruct (Db.revisions (db s) !! _) eqn:Hi;
        [|done]. destruct Hnew. by eexists. }
    by destruct (stored_bytes _ _ _ Hs' Hrow) as (bytes&?&?); eauto.
Qed.

Lemma with_revision_head_events r d : Db.head_events (with_revision r d) = Db.head_events d.
Proof. unfold with_revision. destruct d; simpl. by case_match. Qed.

Lemma changed_db_tables v r at_ d :
  Db.revisions (changed_db v r at_ d) = Db.revisions (with_revision r d) ∧
  Db.revision_parents (changed_db v r at_ d) = Db.revision_parents (with_revision r d) ∧
  Db.vaults (changed_db v r at_ d) =
    <[Vault.id v := upsert_vault (Db.vaults d !! Vault.id v) (Vault.set_head v (Revision.id r))]>
      (Db.vaults d) ∧
  Db.head_events (changed_db v r at_ d) =
    Db.head_events d ++ [(moveHead v (Revision.id r) at_ HeadReason.promote).2].
Proof.
  rewrite <-(with_revision_vaults r d), <-(with_revision_head_events r d).
  unfold changed_db, with_event, saved_vault, saveVault, modify.
  destruct (with_revision r d), v. by split_and!.
Qed.

(** Recording the bytes of a vault file.  When they hash to the head's
    recorded hash, nothing is written.  Otherwise one new revision becomes
    stored, with the old head as its only parent, its bytes in the blob store,
    it is the head, and one event records the move; all of it or, when the blob
    store fails or the vault is unknown, no table changes. *)
Theorem local_change_recorded (clock : nat → Date) (vaultIds revisionIds : nat → string)
    (deviceId : DeviceId) (k : VaultId) (bytes : Uint8Array) s
    (Hs : engine_ok s) (Hf : fresh_ids vaultIds revisionIds s) :
  match recordLocalChange (B := B) clock revisionIds deviceId k bytes s with
  | (Ok (unchanged h), s') =>
      s' = s ∧ ∃ v row, Db.vaults (db s) !! k = Some v ∧ Vault.headRevisionId v = Some h ∧
        Db.revisions (db s) !! h = Some row ∧ RevisionRow.hash row = sha256 bytes
  | (Ok (recorded r), s') =>
      ∃ v, Db.vaults (db s) !! k = Some v ∧ head_hash v (db s) ≠ Some (sha256 bytes) ∧
        Revision.vaultId r = k ∧ Revision.hash r = sha256 bytes ∧
        Revision.parentIds r = option_list (Vault.headRevisionId v) ∧ adds r s s' ∧
        Db.vaults (db s') = <[k := Vault.set_head v (Revision.id r)]> (Db.vaults (db s)) ∧
        Db.head_events (db s') = Db.head_events (db s) ++
          [HeadRevisionEvent.mk k (Vault.headRevisionId v) (Revision.id r)
             (clock (EngineState.ticks s)) HeadReason.promote]
  | (Err _, s') => db s' = db s
  end.
Proof.
  pose proof (ok_local_change clock vaultIds revisionIds deviceId k bytes s Hs Hf) as Hok.
  rewrite recordLocalChange_run in * by done.
  destruct (Db.vaults (db s) !! k) as [v|] eqn:Hv; [|done].
  pose proof (wf_vault_id _ (ok_wf _ Hs) _ _ Hv) as Hid. case_decide as Hh.
  - destruct (Vault.headRevisionId v) as [h|] eqn:Hhead.
    + split; [done|]. revert Hh. unfold head_hash. rewrite Hhead. simpl.
      destruct (Db.revisions (db s) !! h) as [row|] eqn:Hrow; [|done]. intros [= Heq].
      by exists v, row.
    + revert Hh. unfold head_hash. by rewrite Hhead.
  - destruct (blob_put bytes (EngineState.blobs s)).1 as [h|e]; [|done]. cbv zeta in *.
    set (r := changed _ _ _ _ _ _) in *. simpl in Hok. exists v.
    destruct (changed_db_tables v r (clock (EngineState.ticks s)) (db s)) as (Hrv&Hp&Hvs&He).
    split_and!; [done..| | |].
    + apply adds_with_revision; [apply Hs|done| |done..].
      destruct (Hf (S (EngineState.ticks s))) as [Hnone _]; [lia|]. intros [row Hrow].
      change (Db.revisions (db s) !! revisionIds (S (EngineState.ticks s)) = Some row) in Hrow. congruence.
    + rewrite db_set_db, Hvs, Hid, Hv. by rewrite upsert_set_head.
    + rewrite db_set_db, He. unfold moveHead. by rewrite Hid.
Qed.
Lemma with_revision_adds r s s' :
  engine_ok s → engine_ok s' → ¬ StoreTheory.stored (db s) (Revision.id r) →
  db s' = with_revision r (db s) →
  adds r s s' ∧ Db.vaults (db s') = Db.vaults (db s) ∧
  Db.head_events (db s') = Db.head_events (db s).
Proof.
  intros Hs Hs' Hnew Hdb.
  rewrite Hdb, with_revision_vaults, with_revision_head_events. split_and!; [|done..].
  apply adds_with_revision; [apply Hs|done..|by rewrite Hdb|by rewrite Hdb].
Qed.

(** C30: a revision from a peer.  Ingesting never moves a head and never stores
    bytes that do not hash to the declared hash or a revision whose declared
    parents are not all stored: those are refused and nothing changes, as when
    the revision is there already.  A revision that is stored has exactly the
    declared parents, this device's time and the sender as its origin, and its
    bytes can be read back. *)
Theorem ingest_verified (clock : nat → Date) (input : Ingest.t) s (Hs : engine_ok s) :
  match ingestReceivedRevision (B := B) clock input s with
  | (Ok (already_present i), s') =>
      s' = s ∧ i = Ingest.revisionId input ∧ StoreTheory.stored (db s) i
  | (Ok (rejected _), s') =>
      s' = s ∧ ¬ StoreTheory.stored (db s) (Ingest.revisionId input) ∧
      (sha256 (Ingest.bytes input) ≠ Ingest.declaredHash input ∨
       ∃ p, p ∈ Ingest.declaredParentIds input ∧ ¬ StoreTheory.stored (db s) p)
  | (Ok (stored r), s') =>
      r = received (clock (EngineState.ticks s)) input ∧
      sha256 (Ingest.bytes input) = Ingest.declaredHash input ∧
      (∀ p, p ∈ Ingest.declaredParentIds input → StoreTheory.stored (db s) p) ∧
      adds r s s' ∧ Db.vaults (db s') = Db.vaults (db s) ∧
      Db.head_events (db s') = Db.head_events (db s)
  | (Err _, s') => db s' = db s
  end.
Proof.
  pose proof (ok_ingest clock input s Hs) as Hok.
  destruct (decide (is_Some (Db.revisions (db s) !! Ingest.revisionId input))) as [Hst|Hst].
  { by rewrite ingest_present. }
  destruct (decide (sha256 (Ingest.bytes input) = Ingest.declaredHash input)) as [Hh|Hh].
  2:{ destruct (ingest_rejected clock input s) as [reason ->]; auto. }
  destruct (missing_parent (db s) (Ingest.declaredParentIds input)) as [q|] eqn:Hm.
  { apply missing_parent_Some in Hm as [Hq Hns].
    destruct (ingest_rejected clock input s) as [reason ->]; eauto 10. }
  pose proof (proj1 (missing_parent_None _ _) Hm) as Hpar.
  rewrite ingest_absent in * by done. destruct (blob_put _ _).1 as [h|e]; [|done]. cbv zeta in *.
  destruct (Db.vaults (db s) !! Ingest.vaultId input) as [v|] eqn:Hv; [|done].
  do 3 (split; [done|]). by apply with_revision_adds.
Qed.

Lemma requireRevision_ok i r s :
  engine_ok s → requireRevision (B := B) i s = (Ok r, s) →
  StoreTheory.stored (db s) i ∧ Revision.id r = i ∧
  ∀ bytes, material (B := B) r s = (Ok bytes, s) →
    RevisionMaterial.revisionId bytes = i ∧
    bytesOf (B := B) i s = (Ok (RevisionMaterial.bytes bytes), s).
Proof.
  intros Hs Hr. pose proof Hr as Hreq. rewrite requireRevision_run in Hr. unfold StoreTheory.stored.
  destruct (Db.revisions (db s) !! i) as [row|] eqn:Hrow; [|done]. injection Hr as <-.
  pose proof (wf_row_id _ (ok_wf _ Hs) _ _ Hrow) as Hid. split_and!; [by eauto|done|].
  intros m (b&s1&Hb&Hm)%bind_ok. apply ret_ok in Hm as [<- ->]. split; [done|].
  unfold bytesOf. by rewrite (bind_eq _ _ _ _ _ Hreq).
Qed.

Lemma store_merge_cases (clock : nat → Date) (vaultIds revisionIds : nat → string)
    (deviceId : DeviceId) k b incoming message bytes s :
  engine_ok s → fresh_ids vaultIds revisionIds s →
  match store_merge (B := B) clock revisionIds deviceId k b incoming message bytes s with
  | (Ok (merged r), s') =>
      Revision.parentIds r = b :: incoming ∧ NoDup (b :: incoming) ∧ incoming ≠ [] ∧
      Revision.vaultId r = k ∧ Revision.hash r = sha256 bytes ∧ adds r s s' ∧
      Db.vaults (db s') = Db.vaults (db s) ∧ Db.head_events (db s') = Db.head_events (db s)
  | (Ok _, _) => False
  | (Err _, s') => db s' = db s
  end.
Proof.
  intros Hs Hf. pose proof (ok_store_merge clock vaultIds revisionIds deviceId k b incoming message
    bytes s Hs Hf) as Hok. revert Hok. unfold store_merge. pose proof (blobs_put_run bytes s) as Hput.
  pose proof (blob_put_view bytes s) as Hview.
  destruct (blob_put bytes (EngineState.blobs s)) as [[h|e] b'] eqn:Hp; simpl in *.
  2:{ by rewrite (bind_err _ _ _ _ _ Hput). }
  destruct (Hview h b' Hs eq_refl) as [-> Hv]. rewrite (bind_eq _ _ _ _ _ Hput).
  unfold Engine.now. rewrite (bind_eq _ _ _ _ _ (tick_run _ _)), (bind_eq _ _ _ _ _ (seed_run _ _ _ _ _ _ _)).
  set (s1 := next_tick (next_tick _)). assert (db s1 = db s) as Hs1 by done.
  unfold lift, mbind, M_bind.
  destruct (mergedRevision _ _ _ _) as [r|e] eqn:Hr; [|done].
  destruct (mergedRevision_fields _ _ _ _ _ Hr) as (Hpar&Hnd&Hne&Hid&Hhash&Hvault). simpl in *.
  rewrite !metadata_run, Hs1.
  destruct (saveRevision_cases r (db s)) as [[_ Hrun]|[_ [e Hrun]]]; rewrite Hrun; simpl; intros Hok.
  - do 5 (split; [done|]). apply with_revision_adds; [done..| |apply db_set_db].
    intros [row Hrow]. destruct (Hf (S (EngineState.ticks s)) ltac:(lia)) as [Hnone _].
    rewrite Hid in Hrow. congruence.
  - apply db_set_db.
Qed.

Lemma incoming_materials incoming inc mats s :
  engine_ok s → Forall2 (λ i r, requireRevision (B := B) i s = (Ok r, s)) incoming inc →
  Forall2 (λ r m, material (B := B) r s = (Ok m, s)) inc mats →
  Revision.id <$> inc = incoming ∧ Forall (StoreTheory.stored (db s)) incoming ∧
  Forall2 (λ i m, RevisionMaterial.revisionId m = i ∧
    bytesOf (B := B) i s = (Ok (RevisionMaterial.bytes m), s)) incoming mats.
Proof.
  intros Hs Hi. revert mats. induction Hi as [|i r incoming inc Hr _ IH]; intros mats Hm.
  { apply Forall2_nil_inv_l in Hm as ->. by split_and!. }
  apply Forall2_cons_inv_l in Hm as (m&mats'&Hm&Hms&->).
  destruct (requireRevision_ok _ _ _ Hs Hr) as (Hst&Hid&Hmat). destruct (IH _ Hms) as (?&?&?).
  split_and!; [csimpl; congruence|by constructor|]. constructor; [by apply Hmat|done].
Qed.

(** What a merge does, by its result. *)
Lemma merge_outcomes {Credentials : Type} (clock : nat → Date)
    (vaultIds revisionIds : nat → string) (deviceId : DeviceId)
    (interpreter_merge : InterpretationRequest.t Credentials → InterpretationResult)
    (k : VaultId) (base : RevisionId) (incoming : list RevisionId) (credentials : Credentials)
    (message : option string) s (Hs : engine_ok s) (Hf : fresh_ids vaultIds revisionIds s) :
  match Engine.merge (B := B) clock revisionIds deviceId interpreter_merge
          k base incoming credentials message s with
  | (Ok (merged r), s') =>
      Revision.parentIds r = base :: incoming ∧ NoDup (base :: incoming) ∧ incoming ≠ [] ∧
      Forall (StoreTheory.stored (db s)) (base :: incoming) ∧ Revision.vaultId r = k ∧
      (∃ local others bytes parents,
         bytesOf (B := B) base s = (Ok local, s) ∧
         Forall2 (λ i m, RevisionMaterial.revisionId m = i ∧
           bytesOf (B := B) i s = (Ok (RevisionMaterial.bytes m), s)) incoming others ∧
         interpreter_merge (InterpretationRequest.mk k (RevisionMaterial.mk base local) others
           (Some credentials)) = merge_succeeded bytes parents ∧
         Revision.hash r = sha256 bytes) ∧
      adds r s s' ∧ Db.vaults (db s') = Db.vaults (db s) ∧
      Db.head_events (db s') = Db.head_events (db s)
  | (Ok _, s') => s' = s
  | (Err _, s') => db s' = db s
  end.
Proof.
  unfold Engine.merge.
  destruct (reads_cases _ s (reads_requireRevision base)) as [[b Hb]|[e He]];
    [rewrite (bind_eq _ _ _ _ _ Hb)|by rewrite (bind_err _ _ _ _ _ He)].
  destruct (reads_cases (map_each incoming (requireRevision (B := B))) s) as [[inc Hi]|[e He]];
    [auto with passvault|rewrite (bind_eq _ _ _ _ _ Hi)|by rewrite (bind_err _ _ _ _ _ He)].
  destruct (reads_cases _ s (reads_material b)) as [[local Hl]|[e He]];
    [rewrite (bind_eq _ _ _ _ _ Hl)|by rewrite (bind_err _ _ _ _ _ He)].
  destruct (reads_cases (map_each inc (material (B := B))) s) as [[mats Hm]|[e He]];
    [auto with passvault|rewrite (bind_eq _ _ _ _ _ Hm)|by rewrite (bind_err _ _ _ _ _ He)].
  destruct (requireRevision_ok _ _ _ Hs Hb) as (Hbst&Hbid&Hbm).
  apply map_each_reads in Hi as [_ Hi]; [|auto with passvault].
  apply map_each_reads in Hm as [_ Hm]; [|auto with passvault].
  destruct (incoming_materials _ _ _ _ Hs Hi Hm) as (Hids&Hst&Hmats).
  destruct (Hbm _ Hl) as [Hlid Hlb]. destruct local as [lid lbytes]; simpl in *. subst lid.
  destruct (interpreter_merge _) as [bytes parents| | |] eqn:Hint; [|done..].
  pose proof (store_merge_cases clock vaultIds revisionIds deviceId k (Revision.id b)
    (Revision.id <$> inc) (default ("Merged " +:+ pretty (Z.of_nat (length inc) + 1) +:+
      " revisions")%string message) bytes s Hs Hf) as Hc.
  unfold store_merge in Hc. revert Hc.
  match goal with |- match ?m with _ => _ end → _ => destruct m as [[[r| |]|e] s'] end; [|done..].
  rewrite Hbid, Hids. intros (?&?&?&?&?&?&?&?). do 3 (split; [done|]).
  split; [by constructor|]. split; [done|]. split; [by exists lbytes, mats, bytes, parents|done].
Qed.

(** Merging.  A merge that stores a revision gives it the base and then
    the incoming revisions as its parents, all of them stored, pairwise
    distinct and at least two, and its bytes are what the interpreter made of
    theirs; no head moves.  A merge that the interpreter refuses changes
    nothing, one that throws stores no revision. *)
Theorem merge_recorded {Credentials : Type} (clock : nat → Date)
    (vaultIds revisionIds : nat → string) (deviceId : DeviceId)
    (interpreter_merge : InterpretationRequest.t Credentials → InterpretationResult)
    (k : VaultId) (base : RevisionId) (incoming : list RevisionId) (credentials : Credentials)
    (message : option string) s (Hs : engine_ok s) (Hf : fresh_ids vaultIds revisionIds s) :
  match Engine.merge (B := B) clock revisionIds deviceId interpreter_merge
          k base incoming credentials message s with
  | (Ok (merged r), s') =>
      Revision.parentIds r = base :: incoming ∧ NoDup (base :: incoming) ∧ incoming ≠ [] ∧
      Forall (StoreTheory.stored (db s)) (base :: incoming) ∧ Revision.vaultId r = k ∧
      (∃ local others bytes parents,
         bytesOf (B := B) base s = (Ok local, s) ∧
         Forall2 (λ i m, RevisionMaterial.revisionId m = i ∧
           bytesOf (B := B) i s = (Ok (RevisionMaterial.bytes m), s)) incoming others ∧
         interpreter_merge (InterpretationRequest.mk k (RevisionMaterial.mk base local) others
           (Some credentials)) = merge_succeeded bytes parents ∧
         Revision.hash r = sha256 bytes) ∧
      adds r s s' ∧ Db.vaults (db s') = Db.vaults (db s) ∧
      Db.head_events (db s') = Db.head_events (db s)
  | (Ok _, s') => s' = s
  | (Err _, s') => db s' = db s
  end.
Proof. exact (merge_outcomes clock vaultIds revisionIds deviceId interpreter_merge k base incoming
  credentials message s Hs Hf). Qed.

(** ** Catching up with a peer *)

Section catching_up.
Context (clock : nat → Date) (k : VaultId) (input : RevisionId → Ingest.t).
(** The blob store can be written to, and stays so. *)
Context (writable : B → Prop).
Context (put_writable : ∀ b bytes, blob_ok b → writable b →
  is_ok (blob_put bytes b).1 = true ∧ writable (blob_put bytes b).2).

(** A delivery that the declared parents, hash and vault of a revision fit. *)
Definition delivers (x : RevisionId) : Prop :=
  Ingest.revisionId (input x) = x ∧ Ingest.vaultId (input x) = k ∧
  sha256 (Ingest.bytes (input x)) = Ingest.declaredHash (input x).

Lemma ingest_stores x s :
  engine_ok s → writable (EngineState.blobs s) → is_Some (Db.vaults (db s) !! k) →
  delivers x → ¬ StoreTheory.stored (db s) x →
  (∀ p, p ∈ Ingest.declaredParentIds (input x) → StoreTheory.stored (db s) p) →
  ∃ r s', ingestReceivedRevision (B := B) clock (input x) s = (Ok (stored r), s') ∧
    engine_ok s' ∧ writable (EngineState.blobs s') ∧
    Revision.id r = x ∧ Revision.vaultId r = k ∧ db s' = with_revision r (db s).
Proof.
  intros Hs Hw [v Hv] (Hid&Hvault&Hhash) Hnew Hpar.
  pose proof (ok_ingest clock (input x) s Hs) as Hok. rewrite <-Hid in Hnew.
  pose proof (put_writable _ (Ingest.bytes (input x)) (ok_blobs _ Hs) Hw) as [Hput Hw'].
  rewrite ingest_absent in * by done. destruct (blob_put _ _).1 as [h|e] eqn:Hp; [|done].
  rewrite Hvault, Hv in *. cbv zeta in *. do 2 eexists. split; [done|]. split; [done|].
  split; [done|]. split; [done|]. split; [done|]. apply db_set_db.
Qed.

Definition is_stored (r : IngestResult) : Prop :=
  match r with stored _ => True | _ => False end.

Lemma stored_with_revision r d x :
  StoreTheory.stored (with_revision r d) x ↔ StoreTheory.stored d x ∨ x = Revision.id r.
Proof.
  unfold StoreTheory.stored. rewrite with_revision_lookup. destruct (Db.revisions d !! x) eqn:Hx.
  - split; eauto.
  - case_decide as Hi; [split; eauto|]. split; [by intros [??]|]. by intros [[??]|?].
Qed.

(** Delivered in an order that puts parents first, every revision is stored. *)
Lemma ingest_in_order order s :
  engine_ok s → writable (EngineState.blobs s) → is_Some (Db.vaults (db s) !! k) →
  NoDup order → (∀ x, x ∈ order → delivers x ∧ ¬ StoreTheory.stored (db s) x) →
  (∀ i x p, order !! i = Some x → p ∈ Ingest.declaredParentIds (input x) →
     StoreTheory.stored (db s) p ∨ ∃ j, (j < i)%nat ∧ order !! j = Some p) →
  ∃ results s', map_each (input <$> order) (ingestReceivedRevision (B := B) clock) s = (Ok results, s') ∧
    length results = length order ∧ Forall is_stored results ∧ engine_ok s' ∧
    Db.vaults (db s') = Db.vaults (db s) ∧
    (∀ x, StoreTheory.stored (db s') x ↔ StoreTheory.stored (db s) x ∨ x ∈ order) ∧
    (∀ x row, Db.revisions (db s') !! x = Some row →
       Db.revisions (db s) !! x = Some row ∨ RevisionRow.vault_id row = k).
Proof.
  revert s. induction order as [|x order IH]; intros s Hs Hw Hv Hnd Hdel Hpar.
  { exists [], s. split_and!; try done; [set_solver|by left]. }
  apply NoDup_cons in Hnd as [Hx Hnd]. destruct (Hdel x) as [Hdx Hnx]; [by left|].
  destruct (ingest_stores x s Hs Hw Hv Hdx Hnx) as (r&s1&Hrun&Hs1&Hw1&Hid&Hvault&Hdb).
  { intros p Hp. destruct (Hpar 0%nat x p eq_refl Hp) as [|(j&?&_)]; [done|lia]. }
  destruct (IH s1 Hs1 Hw1) as (results&s2&Hruns&Hlen&Hall&Hs2&Hvs&Hst&Hrows);
    [by rewrite Hdb, with_revision_vaults|done| | |].
  - intros y Hy. destruct (Hdel y) as [? Hny]; [by right|]. split; [done|].
    rewrite Hdb, stored_with_revision, Hid. intros [?| ->]; done.
  - intros i y p Hi Hp. rewrite Hdb, stored_with_revision, Hid.
    destruct (Hpar (S i) y p Hi Hp) as [?|([|j]&?&Hj)]; [by left; left|..].
    + injection Hj as ->. by left; right.
    + right. exists j. split; [lia|done].
  - exists (stored r :: results), s2. csimpl. rewrite (bind_eq _ _ _ _ _ Hrun).
    rewrite (bind_eq _ _ _ _ _ Hruns). split_and!; [done|by rewrite Hlen|by constructor|done| | |].
    + by rewrite Hvs, Hdb, with_revision_vaults.
    + intros y. rewrite Hst, Hdb, stored_with_revision, Hid. set_solver.
    + intros y row Hy. destruct (Hrows y row Hy) as [Hy1|]; [|by right]. revert Hy1.
      rewrite Hdb, with_revision_lookup. destruct (Db.revisions (db s) !! y); [by left|].
      case_decide; [|done]. intros [= <-]. by right.
Qed.
(** What is behind the head is defined by the summary or stored here. *)
Lemma reached_is_node nodes head x s :
  (∀ n p, n ∈ nodes → p ∈ RevisionNode.parentIds n →
     StoreTheory.stored (db s) p ∨ p ∈ RevisionNode.id <$> nodes) →
  head ∈ RevisionNode.id <$> nodes → ¬ StoreTheory.stored (db s) x →
  rtc (parent_of (buildGraph nodes)) head x → is_Some (buildGraph nodes !! x).
Proof.
  intros Hclosed Hhead Hnx Hx. apply buildGraph_is_Some.
  apply rtc_inv_r in Hx as [<-|(c&_&node&Hc&Hp)]; [done|].
  apply buildGraph_lookup_Some in Hc as [_ Hc]. destruct (Hclosed _ _ Hc Hp); [|done].
  by destruct Hnx.
Qed.

(** C31: catching up.  Take a history summary that passes validation, whose
    every parent is in it or stored here, with deliveries that fit it.  The
    order [missingRevisions] gives exists; delivering the revisions in that
    order, every one of them is stored, none refused; then everything behind the
    peer's head is stored and fast-forwarding to it succeeds. *)
Theorem catch_up_completes (nodes : list RevisionNode.t) (head : RevisionId) s
    (Hs : engine_ok s) (Hw : writable (EngineState.blobs s))
    (Hv : is_Some (Db.vaults (db s) !! k))
    (Hvalid : validateRemoteGraph nodes = Ok tt)
    (Hclosed : ∀ n p, n ∈ nodes → p ∈ RevisionNode.parentIds n →
       StoreTheory.stored (db s) p ∨ p ∈ RevisionNode.id <$> nodes)
    (Hhead : head ∈ RevisionNode.id <$> nodes)
    (Hown : ∀ row, Db.revisions (db s) !! head = Some row → RevisionRow.vault_id row = k)
    (Hinput : ∀ n, n ∈ nodes → delivers (RevisionNode.id n) ∧
       Ingest.declaredParentIds (input (RevisionNode.id n)) = RevisionNode.parentIds n) :
  ∃ order results s1 v s2,
    missingRevisions (buildGraph nodes) head
      (λ i, bool_decide (is_Some (Db.revisions (db s) !! i))) = Ok order ∧
    map_each (input <$> order) (ingestReceivedRevision (B := B) clock) s = (Ok results, s1) ∧
    length results = length order ∧ Forall is_stored results ∧
    (∀ x, rtc (parent_of (buildGraph nodes)) head x → StoreTheory.stored (db s1) x) ∧
    fastForward clock k head s1 = (Ok v, s2) ∧ Vault.headRevisionId v = Some head.
Proof.
  assert (NoDup (RevisionNode.id <$> nodes) ∧ acyclic (buildGraph nodes)) as [_ Hacyc]
    by (apply validateRemoteGraph_ok; by rewrite Hvalid).
  destruct (missingRevisions_ok (buildGraph nodes) head
    (λ i, bool_decide (is_Some (Db.revisions (db s) !! i))) Hacyc) as (order&Horder&Hnd&Hin&Hpf).
  setoid_rewrite bool_decide_eq_false in Hin. setoid_rewrite bool_decide_eq_true in Hpf.
  assert (∀ x node, buildGraph nodes !! x = Some node → node ∈ nodes ∧ RevisionNode.id node = x) as Hg.
  { intros x node [? ?]%buildGraph_lookup_Some. done. }
  destruct (ingest_in_order order s Hs Hw Hv Hnd) as (results&s1&Hruns&Hlen&Hall&Hs1&Hvs&Hst&Hrows).
  { intros x (_&[node Hx]&Hnx)%Hin. apply Hg in Hx as [Hx <-]. split; [by apply Hinput|done]. }
  { intros i x p Hi Hp.
    assert (x ∈ order) as (_&[node Hx]&_)%Hin by by eapply list_elem_of_lookup_2.
    pose proof (Hg _ _ Hx) as [Hnode Hid]. rewrite <-Hid, (proj2 (Hinput _ Hnode)) in Hp.
    destruct (Hpf i x p Hi) as [|[Hnone|]]; [by exists node|by left| |by right].
    left. destruct (Hclosed _ _ Hnode Hp) as [|Hq]; [done|].
    apply buildGraph_is_Some in Hq as [? ?]. congruence. }
  assert (∀ x, rtc (parent_of (buildGraph nodes)) head x → StoreTheory.stored (db s1) x) as Hall'.
  { intros x Hx. apply Hst. destruct (decide (is_Some (Db.revisions (db s) !! x))) as [|Hnx]; [by left|].
    right. apply Hin. split_and!; [done| |done]. by eapply reached_is_node. }
  destruct (Hall' head (rtc_refl _ _)) as [row Hrow]. destruct Hv as [v Hv].
  exists order, results, s1, (Vault.set_head v head). eexists. split_and!; [done..| |by destruct v].
  rewrite fastForward_run by done. unfold head_move_result. rewrite Hvs, Hv, Hrow.
  rewrite decide_True; [done|]. symmetry. destruct (Hrows _ _ Hrow) as [Hold|]; [by apply Hown|done].
Qed.
End catching_up.
(** ** A stop in the middle of an ingest *)

(** [saveRevision] outside a transaction, stopped after the revision's row and
    its first parents were written: each statement commits by itself. *)
Definition torn_saveRevision (n : nat) (r : Revision.t) : M Db.t unit :=
  insert_revision r ≫= λ _,
  for_each (take n (Revision.parentIds r)) (insert_parent (Revision.id r)).

Definition truncated (n : nat) (r : Revision.t) : Revision.t :=
  {| Revision.id := Revision.id r; Revision.vaultId := Revision.vaultId r;
     Revision.hash := Revision.hash r; Revision.sizeBytes := Revision.sizeBytes r;
     Revision.createdAt := Revision.createdAt r;
     Revision.originDeviceId := Revision.originDeviceId r;
     Revision.parentIds := take n (Revision.parentIds r);
     Revision.operation := Revision.operation r; Revision.message := Revision.message r |}.

Lemma torn_saveRevision_run n r d :
  savable r d → torn_saveRevision n r d = (Ok tt, with_revision (truncated n r) d).
Proof.
  intros [Hpar Hv]. assert (∀ p, p ∈ take n (Revision.parentIds r) → StoreTheory.stored d p) as Hp.
  { intros p Hp%subseteq_take. by apply Hpar. }
  rewrite <-(saveRevision_ok (truncated n r)) by done.
  unfold saveRevision. rewrite (bind_eq _ (λ _, _ ≫= _) d tt d); [done|].
  by rewrite check_parents, (proj2 (missing_parent_None _ _)).
Qed.

(** An ingest that is stopped between two statements is not made good.  The
    engine saves a received revision outside a transaction; if the machine stops
    after its row and [n] of its parents were written, then ever after the same
    revision is answered with [already-present], nothing is written, and it
    reads back without some of the parents it was declared with. *)
Theorem stopped_ingest_loses_parents (clock : nat → Date) (input : Ingest.t) (n : nat) s
    (Hs : engine_ok s) (Hnew : ¬ StoreTheory.stored (db s) (Ingest.revisionId input))
    (Hpar : ∀ p, p ∈ Ingest.declaredParentIds input → StoreTheory.stored (db s) p)
    (Hv : is_Some (Db.vaults (db s) !! Ingest.vaultId input))
    (Hnd : NoDup (Ingest.declaredParentIds input))
    (Hn : (n < length (Ingest.declaredParentIds input))%nat) :
  let r := received (clock (EngineState.ticks s)) input in
  let stopped := set_db (torn_saveRevision n r (db s)).2 s in
  ingestReceivedRevision (B := B) clock input stopped
    = (Ok (already_present (Ingest.revisionId input)), stopped) ∧
  ∃ r' p, (metadata (B := B) (getRevision (Ingest.revisionId input)) stopped).1 = Ok (Some r') ∧
    p ∈ Ingest.declaredParentIds input ∧ p ∉ Revision.parentIds r'.
Proof.
  intros r stopped. assert (db stopped = with_revision (truncated n r) (db s)) as Hdb.
  { unfold stopped. rewrite torn_saveRevision_run; [apply db_set_db|]. split; [done|by right]. }
  split.
  - apply ingest_present. rewrite Hdb. apply stored_with_revision. by right.
  - rewrite getRevision_part, Hdb.
    destruct (getRevision_with_revision (truncated n r) (db s)) as (r'&Hget&Hsame&_);
      [apply Hs|done|]. simpl in Hget. rewrite Hget.
    destruct (lookup_lt_is_Some_2 _ _ Hn) as [p Hp]. exists r', p. split; [done|].
    split; [by eapply list_elem_of_lookup_2|]. rewrite (proj2 (proj2 (proj2 (proj2 (proj2 (proj2
      (proj2 (proj2 Hsame)))))))).
    intros (j&Hj&Hlt)%elem_of_take.
    assert (j = n) by (eapply NoDup_lookup; done). lia.
Qed.
End facts.

(** ** Witnesses

    A device with an empty database and an empty disk, whose clock and
    generator count in unary, and the same device after one import. *)

Module Device.
Fixpoint ids (n : nat) : string :=
  match n with O => "" | S n => "a" +:+ ids n end.
Definition clock (n : nat) : Date := Z.of_nat n.
Definition interpret (request : InterpretationRequest.t unit) : InterpretationResult :=
  merge_succeeded (RevisionMaterial.bytes (InterpretationRequest.local _ request)) [].
Definition diff (request : InterpretationRequest.t unit) : DiffResult := diff_ready emptyVaultDiff.
End Device.

#[local] Existing Instance insertion_order.
#[local] Existing Instance toy_sha256.
#[local] Instance device_blobs : BlobStore (FS.t * nat) := file_blob_store "/data" Device.ids.

Definition device : EngineState.t (FS.t * nat) :=
  EngineState.mk (Store.mk Db.empty 0 None false) (FS.mk {["/data/tmp"]} ∅, 0%nat) 0.

Abbreviation performs := (perform Device.clock Device.ids Device.ids "this" Device.interpret Device.diff).

Definition device1 : EngineState.t (FS.t * nat) :=
  performs (ImportVault "work" [Byte.x01] None) device.

Lemma ids_inj m n : Device.ids m = Device.ids n → m = n.
Proof. revert n. induction m as [|m IH]; intros [|n]; try done. intros [= ?]. f_equal. auto. Qed.

Lemma device_fresh : fresh_ids Device.ids Device.ids device.
Proof. intros n _. done. Qed.

Lemma device1_reachable :
  engine_reachable Device.clock Device.ids Device.ids "this" Device.interpret Device.diff device1.
Proof.
  apply engine_step; [|apply device_fresh]. apply engine_start. split; [done|].
  intros h f _ Hf. done.
Qed.

Lemma device1_ok : engine_ok device1.
Proof. eapply engine_reachable_ok, device1_reachable. Qed.

Lemma device1_fresh : fresh_ids Device.ids Device.ids device1.
Proof.
  intros n Hn.
  assert (∃ r, Db.revisions (db device1) = {[Device.ids 2 := r]}) as [r ->]
    by (eexists; vm_compute; reflexivity).
  assert (∃ v, Db.vaults (db device1) = {[Device.ids 1 := v]}) as [v ->]
    by (eexists; vm_compute; reflexivity).
  change (EngineState.ticks device1) with 3%nat in Hn.
  split; apply lookup_singleton_ne; intros ?%ids_inj; lia.
Qed.

Lemma engine_history_sound_witness :
  ∃ bytes, bytesOf (B := FS.t * nat) "aa" device1 = (Ok bytes, device1) ∧ bytes = [Byte.x01] ∧
    ∀ i, ¬ tc (edge (db device1)) i i.
Proof.
  destruct (engine_history_sound _ _ _ _ _ _ _ device1_reachable) as (Hb&Hac&_).
  assert (∃ row, Db.revisions (db device1) !! "aa" = Some row) as [row Hrow]
    by (eexists; vm_compute; reflexivity).
  destruct (Hb _ _ Hrow) as [(bytes&Hbytes&_) _].
  exists bytes. split; [exact Hbytes|]. split; [|exact Hac].
  vm_compute in Hbytes. injection Hbytes. congruence.
Defined.

Lemma head_moves_recorded_witness :
  match promote Device.clock "a" "aa" device1 with
  | (Ok next, s') => Db.revisions (db s') = Db.revisions (db device1)
  | (Err _, _) => False
  end.
Proof.
  pose proof (head_moves_recorded Device.clock "a" "aa" HeadReason.promote device1 device1_ok
    (promote Device.clock "a" "aa") (or_introl (conj eq_refl eq_refl))) as Hm.
  assert (is_ok (promote Device.clock "a" "aa" device1).1 = true) as Hok by (vm_compute; reflexivity).
  destruct (promote Device.clock "a" "aa" device1) as [[next|e] s']; [|discriminate Hok].
  destruct Hm as (v&row&_&_&_&_&_&Hr&_). exact Hr.
Defined.

Lemma local_change_recorded_witness :
  match recordLocalChange Device.clock Device.ids "this" "a" [Byte.x01; Byte.x02] device1 with
  | (Ok (recorded r), s') => Revision.parentIds r = ["aa"] ∧ adds r device1 s'
  | _ => False
  end.
Proof.
  pose proof (local_change_recorded Device.clock Device.ids Device.ids "this" "a"
    [Byte.x01; Byte.x02] device1 device1_ok device1_fresh) as Hc.
  assert (match (recordLocalChange Device.clock Device.ids "this" "a" [Byte.x01; Byte.x02] device1).1 with
    | Ok (recorded r) => Revision.parentIds r = ["aa"] | _ => False end) as Hr
    by (vm_compute; reflexivity).
  destruct (recordLocalChange _ _ _ _ _ device1) as [[[h|r]|e] s']; [destruct Hr| |destruct Hr].
  destruct Hc as (v&_&_&_&_&_&Ha&_). split; [exact Hr|exact Ha].
Defined.

(** A delivery of a child of the imported revision. *)
Definition delivery (x : RevisionId) : Ingest.t :=
  {| Ingest.vaultId := "a"; Ingest.revisionId := x; Ingest.declaredParentIds := ["aa"];
     Ingest.declaredHash := toy_hash [Byte.x01; Byte.x02]; Ingest.bytes := [Byte.x01; Byte.x02];
     Ingest.fromDeviceId := "peer"; Ingest.message := None |}.

Lemma ingest_verified_witness :
  match ingestReceivedRevision Device.clock (delivery "x") device1 with
  | (Ok (stored r), s') => adds r device1 s' ∧ Db.vaults (db s') = Db.vaults (db device1)
  | _ => False
  end.
Proof.
  pose proof (ingest_verified Device.clock (delivery "x") device1 device1_ok) as Hc.
  assert (match (ingestReceivedRevision Device.clock (delivery "x") device1).1 with
    | Ok (stored r) => True | _ => False end) as Hr by (vm_compute; exact I).
  destruct (ingestReceivedRevision _ _ device1) as [[[r|i|e]|e] s']; try destruct Hr.
  destruct Hc as (_&_&_&Ha&Hv&_). split; [exact Ha|exact Hv].
Defined.

(** The device after it stored that delivery. *)
Definition device2 : EngineState.t (FS.t * nat) :=
  performs (IngestReceivedRevision (delivery "x")) device1.

Lemma device2_ok : engine_ok device2.
Proof.
  eapply engine_reachable_ok, engine_step; [apply device1_reachable|apply device1_fresh].
Qed.

Lemma device2_fresh : fresh_ids Device.ids Device.ids device2.
Proof.
  intros n Hn.
  assert (∃ r r', Db.revisions (db device2) = <[Device.ids 2 := r]> {["x" := r']}) as (r&r'&->)
    by (do 2 eexists; vm_compute; reflexivity).
  assert (∃ v, Db.vaults (db device2) = {[Device.ids 1 := v]}) as [v ->]
    by (eexists; vm_compute; reflexivity).
  change (EngineState.ticks device2) with 4%nat in Hn.
  split; [|apply lookup_singleton_ne; intros ?%ids_inj; lia].
  rewrite lookup_insert_ne by (intros ?%ids_inj; lia). apply lookup_singleton_ne.
  by destruct n.
Qed.

Lemma merge_recorded_witness :
  match Engine.merge Device.clock Device.ids "this" Device.interpret "a" "aa" ["x"] tt None device2 with
  | (Ok (merged r), s') => Revision.parentIds r = ["aa"; "x"] ∧ adds r device2 s'
  | _ => False
  end.
Proof.
  pose proof (merge_recorded Device.clock Device.ids Device.ids "this" Device.interpret "a" "aa" ["x"]
    tt None device2 device2_ok device2_fresh) as Hc.
  assert (match (Engine.merge Device.clock Device.ids "this" Device.interpret "a" "aa" ["x"] tt None
    device2).1 with Ok (merged r) => True | _ => False end) as Hr by (vm_compute; exact I).
  destruct (Engine.merge _ _ _ _ _ _ _ _ _ device2) as [[[r|e|e]|e] s']; try destruct Hr.
  destruct Hc as (Hp&_&_&_&_&_&Ha&_). split; [exact Hp|exact Ha].
Defined.

Definition writes (b : FS.t * nat) : Prop := "/data/tmp" ∈ FS.dirs b.1.

Lemma device_writes b bytes :
  blob_ok b → writes b → is_ok (blob_put bytes b).1 = true ∧ writes (blob_put bytes b).2.
Proof.
  destruct b as [fs n]. intros _ Hw. unfold writes in *. simpl in *. rewrite put_run.
  destruct (blob_view _ fs _); [done|]. rewrite decide_True by (change (tmpDir "/data") with "/data/tmp"; set_solver).
  simpl. split; [done|]. set_solver.
Qed.

Lemma catch_up_completes_witness :
  ∃ order results s1 v s2,
    missingRevisions (buildGraph [RevisionNode.mk "x" ["aa"]]) "x"
      (λ i, bool_decide (is_Some (Db.revisions (db device1) !! i))) = Ok order ∧
    map_each (delivery <$> order) (ingestReceivedRevision Device.clock) device1 = (Ok results, s1) ∧
    fastForward Device.clock "a" "x" s1 = (Ok v, s2) ∧ Vault.headRevisionId v = Some "x".
Proof.
  destruct (catch_up_completes Device.clock "a" delivery writes device_writes
    [RevisionNode.mk "x" ["aa"]] "x" device1 device1_ok) as (order&results&s1&v&s2&Ho&Hr&_&_&_&Hf&Hh).
  - unfold writes. simpl. set_solver.
  - eexists. vm_compute. reflexivity.
  - vm_compute. reflexivity.
  - intros n p ->%list_elem_of_singleton Hp. left. apply list_elem_of_singleton in Hp as ->.
    eexists. vm_compute. reflexivity.
  - set_solver.
  - intros row Hrow. vm_compute in Hrow. discriminate.
  - intros n ->%list_elem_of_singleton. by_compute.
  - exists order, results, s1, v, s2. split; [exact Ho|]. split; [exact Hr|]. split; [exact Hf|exact Hh].
Defined.

Lemma stopped_ingest_loses_parents_witness :
  let r := received (Device.clock (EngineState.ticks device1)) (delivery "x") in
  let stopped := set_db (torn_saveRevision 0 r (db device1)).2 device1 in
  ingestReceivedRevision Device.clock (delivery "x") stopped = (Ok (already_present "x"), stopped).
Proof.
  refine (proj1 (stopped_ingest_loses_parents Device.clock (delivery "x") 0 device1 device1_ok _ _ _ _ _)).
  - intros [row Hrow]. vm_compute in Hrow. discriminate.
  - intros p ->%list_elem_of_singleton. eexists. vm_compute. reflexivity.
  - eexists. vm_compute. reflexivity.
  - apply NoDup_singleton.
  - vm_compute. lia.
Defined.
