(* ===== verification/Codec.v ===== *)
(** * Hexadecimal and base64

    [toHex], [fromHex], [toBase64] and [fromBase64] of
    packages/identity/src/identity.ts, and the same two base64 functions of
    packages/sync/src/session.ts: over [btoa] and [atob] as the HTML standard
    defines them, forgiving white space and missing padding. *)

From S2P Require Import Prelude Model Bytes JsString Json.
From Stdlib Require Ascii.

Open Scope Z_scope.

(** ** Hexadecimal *)

(** [value.toString(16)] of one digit. *)
Definition hex_digit (v : Z) : Ascii.ascii :=
  fromCharCode (if v <? 10 then 48 + v else 87 + v).

(** [byte.toString(16).padStart(2, "0")]. *)
Definition byte_hex (b : Byte.byte) : list Ascii.ascii :=
  [hex_digit (byte_to_Z b / 16); hex_digit (byte_to_Z b mod 16)].

Definition toHex (bytes : Uint8Array) : string := of_chars (bytes ≫= byte_hex).

(** The loop of [fromHex], two digits at a time. *)
Fixpoint from_digits (digits : list Z) : Uint8Array :=
  match digits with
  | high :: low :: digits => byte_of_Z (high * 16 + low) :: from_digits digits
  | _ => []
  end.

Definition fromHex (value : string) : result Uint8Array :=
  match mapM hex_value (chars value) with
  | Some digits =>
      assert (Z.of_nat (length digits) mod 2 =? 0) "expected an even-length hex string" ≫= λ _,
      Ok (from_digits digits)
  | None => Err "Contract violation: expected an even-length hex string"
  end.

(** ** Base64 *)

Definition base64_digit (v : Z) : Ascii.ascii :=
  fromCharCode (if v <? 26 then 65 + v
                else if v <? 52 then 71 + v
                else if v <? 62 then v - 4
                else if v =? 62 then 43 else 47).

Definition base64_value (c : Ascii.ascii) : option Z :=
  let z := charCode c in
  if (65 <=? z) && (z <=? 90) then Some (z - 65)
  else if (97 <=? z) && (z <=? 122) then Some (z - 71)
  else if (48 <=? z) && (z <=? 57) then Some (z + 4)
  else if z =? 43 then Some 62
  else if z =? 47 then Some 63
  else None.

Definition padding : Ascii.ascii := fromCharCode 61.

Fixpoint base64_chars (bytes : Uint8Array) : list Ascii.ascii :=
  match bytes with
  | [] => []
  | [a] =>
      let a := byte_to_Z a in
      [base64_digit (a / 4); base64_digit (a mod 4 * 16); padding; padding]
  | [a; b] =>
      let a := byte_to_Z a in
      let b := byte_to_Z b in
      [base64_digit (a / 4); base64_digit (a mod 4 * 16 + b / 16);
       base64_digit (b mod 16 * 4); padding]
  | a :: b :: c :: bytes =>
      let a := byte_to_Z a in
      let b := byte_to_Z b in
      let c := byte_to_Z c in
      base64_digit (a / 4) :: base64_digit (a mod 4 * 16 + b / 16)
        :: base64_digit (b mod 16 * 4 + c / 64) :: base64_digit (c mod 64) :: base64_chars bytes
  end.

(** [btoa] of the string with a character per byte. *)
Definition toBase64 (bytes : Uint8Array) : string := of_chars (base64_chars bytes).

(** Every group of four digits is three bytes; the bits a shorter last group
    has beyond whole bytes are dropped. *)
Fixpoint base64_bytes (digits : list Z) : Uint8Array :=
  match digits with
  | x :: y :: z :: w :: digits =>
      byte_of_Z (x * 4 + y / 16) :: byte_of_Z (y * 16 + z / 4) :: byte_of_Z (z * 64 + w)
        :: base64_bytes digits
  | [x; y; z] => [byte_of_Z (x * 4 + y / 16); byte_of_Z (y * 16 + z / 4)]
  | [x; y] => [byte_of_Z (x * 4 + y / 16)]
  | _ => []
  end.

Definition is_white (c : Ascii.ascii) : bool :=
  let z := charCode c in (z =? 32) || (z =? 9) || (z =? 10) || (z =? 12) || (z =? 13).

(** A text whose length is a multiple of four loses up to two [=] at its end. *)
Definition strip_padding (l : list Ascii.ascii) : list Ascii.ascii :=
  if Z.of_nat (length l) mod 4 =? 0 then
    match reverse l with
    | a :: b :: rest =>
        if decide (a = padding) then
          if decide (b = padding) then reverse rest else reverse (b :: rest)
        else l
    | _ => l
    end
  else l.

(** [atob], as the bytes of the string it returns; it throws on a text that is
    not base64. *)
Definition fromBase64 (value : string) : result Uint8Array :=
  let l := strip_padding (filter (λ c, is_white c = false) (chars value)) in
  if Z.of_nat (length l) mod 4 =? 1 then Err "InvalidCharacterError"
  else
    match mapM base64_value l with
    | Some digits => Ok (base64_bytes digits)
    | None => Err "InvalidCharacterError"
    end.

(** ** Facts *)

Lemma hex_digit_value v : 0 <= v < 16 → hex_value (hex_digit v) = Some v.
Proof.
  intros Hv. unfold hex_value, is_digit, hex_digit.
  rewrite charCode_from by (case_match; lia).
  destruct (Z.ltb_spec v 10).
  - rewrite (proj2 (Z.leb_le 48 _)), (proj2 (Z.leb_le _ 57)) by lia. simpl. f_equal. lia.
  - rewrite (proj2 (Z.leb_gt _ 57)), andb_false_r by lia.
    rewrite (proj2 (Z.leb_le 97 _)), (proj2 (Z.leb_le _ 102)) by lia. simpl. f_equal. lia.
Qed.

Lemma mapM_cons_eq {A B} (f : A → option B) x l y k :
  f x = Some y → mapM f l = Some k → mapM f (x :: l) = Some (y :: k).
Proof. intros Hx Hl. simpl. by rewrite Hx, Hl. Qed.

Lemma byte_halves b :
  0 <= byte_to_Z b / 16 < 16 ∧ 0 <= byte_to_Z b mod 16 < 16 ∧
  byte_of_Z (byte_to_Z b / 16 * 16 + byte_to_Z b mod 16) = b.
Proof.
  pose proof (byte_to_Z_range b). split_and!; [apply Z.div_pos; lia|
    apply Z.div_lt_upper_bound; lia|apply Z.mod_pos_bound; lia|apply Z.mod_pos_bound; lia|].
  rewrite <-(byte_of_to_Z b) at 3. f_equal. pose proof (Z.div_mod (byte_to_Z b) 16). lia.
Qed.

Lemma toHex_digits bytes :
  ∃ digits, mapM hex_value (chars (toHex bytes)) = Some digits ∧
    length digits = (2 * length bytes)%nat ∧ from_digits digits = bytes.
Proof.
  unfold toHex. rewrite chars_of_chars. induction bytes as [|b bytes (digits&Hm&Hlen&Hb)].
  { by exists []. }
  destruct (byte_halves b) as (Hhi&Hlo&Heq).
  eexists. split.
  - apply mapM_cons_eq; [by apply hex_digit_value|].
    apply mapM_cons_eq; [by apply hex_digit_value|exact Hm].
  - simpl. rewrite Hlen, Heq, Hb. split; [lia|done].
Qed.

Lemma base64_digit_value v : 0 <= v < 64 → base64_value (base64_digit v) = Some v.
Proof.
  intros Hv. unfold base64_value, base64_digit.
  destruct (Z.ltb_spec v 26); [|destruct (Z.ltb_spec v 52); [|destruct (Z.ltb_spec v 62);
    [|destruct (Z.eqb_spec v 62)]]]; rewrite charCode_from by lia;
    repeat first
      [ progress simpl
      | match goal with |- context [?a <=? ?b] => destruct (Z.leb_spec a b); try lia end
      | match goal with |- context [?a =? ?b] => destruct (Z.eqb_spec a b); try lia end ];
    f_equal; lia.
Qed.

(** Induction on bytes three at a time. *)
Lemma triple_ind (P : Uint8Array → Prop) :
  P [] → (∀ a, P [a]) → (∀ a b, P [a; b]) → (∀ a b c l, P l → P (a :: b :: c :: l)) → ∀ l, P l.
Proof.
  intros H0 H1 H2 H3. enough (∀ l, P l ∧ (∀ a, P (a :: l)) ∧ ∀ a b, P (a :: b :: l)) by firstorder.
  induction l as [|c l (IH&IH1&IH2)]; [auto|]. split_and!; auto.
Qed.

Lemma byte_of_Z_is z b : z mod 256 = byte_to_Z b → byte_of_Z z = b.
Proof. intros Hz. by rewrite <-(byte_of_to_Z (byte_of_Z z)), byte_to_of_Z, Hz, byte_of_to_Z. Qed.

Ltac div_mod := Z.div_mod_to_equations; lia.
Ltac sextets := rewrite ?Forall_cons, ?Forall_nil; split_and?; try done; div_mod.

(** The text of some bytes is the digits that decode to them, and padding. *)
Lemma base64_split bytes :
  ∃ digits pad, base64_chars bytes = (base64_digit <$> digits) ++ replicate pad padding ∧
    Forall (λ v, 0 <= v < 64) digits ∧ base64_bytes digits = bytes ∧
    (pad <= 2)%nat ∧ Z.of_nat (length digits + pad) mod 4 = 0.
Proof.
  induction bytes as [|a|a b|a b c l (digits&pad&Heq&Hall&Hb&Hpad&Hlen)] using triple_ind.
  - exists [], 0%nat. split_and!; [done|done|done|lia|done].
  - pose proof (byte_to_Z_range a). exists [byte_to_Z a / 4; byte_to_Z a mod 4 * 16], 2%nat.
    split_and!; [done|sextets| |lia|done].
    cbn [base64_bytes]. rewrite (byte_of_Z_is _ a); [done|div_mod].
  - pose proof (byte_to_Z_range a). pose proof (byte_to_Z_range b).
    exists [byte_to_Z a / 4; byte_to_Z a mod 4 * 16 + byte_to_Z b / 16; byte_to_Z b mod 16 * 4], 1%nat.
    split_and!; [done|sextets| |lia|done].
    cbn [base64_bytes]. rewrite (byte_of_Z_is _ a), (byte_of_Z_is _ b); [done|div_mod..].
  - pose proof (byte_to_Z_range a). pose proof (byte_to_Z_range b). pose proof (byte_to_Z_range c).
    exists (byte_to_Z a / 4 :: byte_to_Z a mod 4 * 16 + byte_to_Z b / 16
      :: byte_to_Z b mod 16 * 4 + byte_to_Z c / 64 :: byte_to_Z c mod 64 :: digits), pad.
    split_and!; [|sextets| |done|].
    + cbn [base64_chars]. cbv zeta. by rewrite Heq.
    + cbn [base64_bytes]. rewrite (byte_of_Z_is _ a), (byte_of_Z_is _ b), (byte_of_Z_is _ c), Hb;
        [done|div_mod..].
    + cbn [length]. div_mod.
Qed.

Lemma charCode_padding : charCode padding = 61.
Proof. by vm_compute. Qed.

Lemma base64_digit_code v :
  0 <= v < 64 → let z := charCode (base64_digit v) in
  (65 <= z <= 90) ∨ (97 <= z <= 122) ∨ (48 <= z <= 57) ∨ z = 43 ∨ z = 47.
Proof.
  intros Hv. unfold base64_digit.
  destruct (Z.ltb_spec v 26); [|destruct (Z.ltb_spec v 52); [|destruct (Z.ltb_spec v 62);
    [|destruct (Z.eqb_spec v 62)]]]; rewrite charCode_from by lia; lia.
Qed.

Lemma digits_not_white digits pad :
  Forall (λ v, 0 <= v < 64) digits →
  filter (λ c, is_white c = false) ((base64_digit <$> digits) ++ replicate pad padding)
  = (base64_digit <$> digits) ++ replicate pad padding.
Proof.
  intros Hall. rewrite filter_app. f_equal.
  - induction Hall as [|v digits Hv _ IH]; [done|]. csimpl. rewrite filter_cons, IH, decide_True; [done|].
    pose proof (base64_digit_code v Hv) as Hc. unfold is_white. cbv zeta in *. rewrite !orb_false_iff.
    rewrite !Z.eqb_neq. lia.
  - induction pad as [|pad IH]; [done|]. simpl. by rewrite filter_cons, IH, decide_True.
Qed.

Lemma strip_padding_digits digits pad :
  Forall (λ v, 0 <= v < 64) digits → (pad <= 2)%nat → Z.of_nat (length digits + pad) mod 4 = 0 →
  strip_padding ((base64_digit <$> digits) ++ replicate pad padding) = base64_digit <$> digits.
Proof.
  intros Hall Hpad Hlen. unfold strip_padding.
  rewrite length_app, length_fmap, length_replicate, Hlen. simpl. rewrite reverse_app.
  assert (∀ v, 0 <= v < 64 → base64_digit v ≠ padding) as Hne.
  { intros v Hv Heq. pose proof (base64_digit_code v Hv) as Hc. cbv zeta in Hc.
    rewrite Heq, charCode_padding in Hc. lia. }
  destruct digits as [|v digits _] using rev_ind; [destruct pad as [|[|[|]]]; [done|discriminate Hlen|discriminate Hlen|lia]|].
  apply Forall_app in Hall as [_ [Hv _]%Forall_cons]. rewrite fmap_app, reverse_app. simpl.
  destruct pad as [|[|[|]]]; [| | |lia]; cbn [replicate]; rewrite ?reverse_nil; simpl.
  - rewrite app_nil_r. destruct (reverse _) as [|x l]; [done|].
    by destruct (decide (base64_digit v = padding)) as [Hd|]; [destruct (Hne v Hv)|].
  - change (reverse [padding]) with [padding]. simpl.
    destruct (decide (padding = padding)); [|done].
    destruct (decide (base64_digit v = padding)) as [Hd|]; [by destruct (Hne v Hv)|].
    by rewrite reverse_cons, reverse_involutive.
  - change (reverse [padding; padding]) with [padding; padding]. simpl.
    destruct (decide (padding = padding)); [|done].
    by rewrite reverse_cons, reverse_involutive.
Qed.

Lemma base64_values digits :
  Forall (λ v, 0 <= v < 64) digits → mapM base64_value (base64_digit <$> digits) = Some digits.
Proof.
  induction 1 as [|v digits Hv _ IH]; [done|]. csimpl.
  apply mapM_cons_eq; [by apply base64_digit_value|exact IH].
Qed.

Lemma fromBase64_toBase64 bytes : fromBase64 (toBase64 bytes) = Ok bytes.
Proof.
  unfold fromBase64, toBase64. rewrite chars_of_chars.
  destruct (base64_split bytes) as (digits&pad&->&Hall&Hb&Hpad&Hlen).
  rewrite digits_not_white, strip_padding_digits, length_fmap, base64_values by done.
  rewrite (proj2 (Z.eqb_neq _ 1)); [by rewrite Hb|]. div_mod.
Qed.

Lemma fromHex_toHex bytes : fromHex (toHex bytes) = Ok bytes.
Proof.
  unfold fromHex. destruct (toHex_digits bytes) as (digits&->&Hlen&<-).
  rewrite Hlen. assert (Z.of_nat (2 * length (from_digits digits)) mod 2 = 0) as -> by div_mod. done.
Qed.

Lemma toHex_inj bytes bytes' : toHex bytes = toHex bytes' → bytes = bytes'.
Proof.
  intros Heq. pose proof (fromHex_toHex bytes) as H1. rewrite Heq, fromHex_toHex in H1. congruence.
Qed.

Lemma hex_digit_lower v : 0 <= v < 16 → is_lower_hex (charCode (hex_digit v)) = true.
Proof.
  intros Hv. unfold hex_digit. rewrite charCode_from by (case_match; lia).
  unfold is_lower_hex, is_digit. destruct (Z.ltb_spec v 10).
  - by rewrite (proj2 (Z.leb_le 48 _)), (proj2 (Z.leb_le _ 57)) by lia.
  - rewrite (proj2 (Z.leb_le 97 _)), (proj2 (Z.leb_le _ 102)) by lia. by rewrite orb_true_r.
Qed.

Lemma toHex_lower bytes :
  length (chars (toHex bytes)) = (2 * length bytes)%nat ∧
  forallb (λ c, is_lower_hex (charCode c)) (chars (toHex bytes)) = true.
Proof.
  unfold toHex. rewrite chars_of_chars. induction bytes as [|b bytes [IH1 IH2]]; [done|].
  destruct (byte_halves b) as (Hhi&Hlo&_). split; csimpl.
  - simpl. rewrite IH1. lia.
  - simpl. by rewrite !hex_digit_lower, IH2.
Qed.
