(* ===== verification/Identity.v ===== *)
(** * Devices: keys, trust and the proof of identity

    packages/identity/src/identity.ts, pairing.ts (all but the URL of a pairing
    offer) and authenticator.ts, and the trust store of
    packages/storage-sql/src/sqliteTrustStore.ts.  SHA-256 and Ed25519 are
    parameters. *)

From S2P Require Import Prelude Model Bytes JsString Json Codec Effects Store BlobStore.
From stdpp Require Import sorting.
From Stdlib Require Ascii.

Open Scope Z_scope.

(** ** Cryptography *)

Class Digest : Type := {
  digest : Uint8Array → Uint8Array;
  digest_length : ∀ bytes, length (digest bytes) = 32%nat;
}.

(** The hash of the blob store and of the engine is the digest in hexadecimal. *)
#[global, refine] Instance digest_sha256 `{Digest} : Sha256 := {| sha256 bytes := toHex (digest bytes) |}.
Proof.
  intros bytes. destruct (toHex_lower (digest bytes)) as [-> ?]. by rewrite digest_length.
Defined.

(** Signatures: verification throws on malformed input. *)
Class Ed25519 : Type := {
  getPublicKey : Uint8Array → Uint8Array;
  ed_sign : Uint8Array → Uint8Array → Uint8Array;
  ed_verify : Uint8Array → Uint8Array → Uint8Array → result bool;
  ed_verify_sign : ∀ message privateKey, length privateKey = 32%nat →
    ed_verify (ed_sign message privateKey) message (getPublicKey privateKey) = Ok true;
}.

(** ** identity.ts *)

Module DeviceKeyPair.
Record t : Type := mk {
  deviceId : DeviceId;
  publicKey : Uint8Array;
  privateKey : Uint8Array;
}.
End DeviceKeyPair.

Inductive DeviceTrust : Type := paired | revoked.

#[global] Instance DeviceTrust_eq_dec : EqDecision DeviceTrust.
Proof. solve_decision. Defined.

Module PairedDevice.
Record t : Type := mk {
  deviceId : DeviceId;
  publicKey : Uint8Array;
  name : string;
  trust : DeviceTrust;
  pairedAt : Date;
  lastSeenAt : option Date;
}.

Definition set_trust (x : DeviceTrust) (d : t) : t :=
  mk (deviceId d) (publicKey d) (name d) x (pairedAt d) (lastSeenAt d).
Definition set_seen (at_ : Date) (d : t) : t :=
  mk (deviceId d) (publicKey d) (name d) (trust d) (pairedAt d) (Some at_).
End PairedDevice.

Definition newline : string := of_chars [fromCharCode 10].

(** [new TextEncoder().encode(value)]. *)
Definition utf8 (value : string) : Uint8Array := Ascii.byte_of_ascii <$> chars value.

(** [compareBytes]: the first difference, or the difference of the lengths. *)
Fixpoint compareBytes (a b : Uint8Array) : Z :=
  match a, b with
  | x :: a, y :: b =>
      if decide (byte_to_Z x = byte_to_Z y) then compareBytes a b else byte_to_Z x - byte_to_Z y
  | _, _ => byteLength a - byteLength b
  end.

(** [text.padStart(n, "0")]. *)
Definition padStart (n : nat) (text : string) : string :=
  of_chars (replicate (n - length (chars text)) (fromCharCode 48) ++ chars text).

Section identity.
Context `{Digest, Ed25519}.

Definition deviceIdFor (publicKey : Uint8Array) : DeviceId := toHex (digest publicKey).

Definition keyPairFromPrivateKey (privateKey : Uint8Array) : result DeviceKeyPair.t :=
  assert (length privateKey =? 32)%nat "an ed25519 private key is 32 bytes" ≫= λ _,
  let publicKey := getPublicKey privateKey in
  Ok (DeviceKeyPair.mk (deviceIdFor publicKey) publicKey privateKey).

Definition sign (privateKey message : Uint8Array) : Uint8Array := ed_sign message privateKey.

Definition verify (publicKey message signature : Uint8Array) : bool :=
  match ed_verify signature message publicKey with Ok b => b | Err _ => false end.

Definition authChallengeText (nonce : Uint8Array) (challengerDeviceId responderDeviceId : DeviceId)
    : string :=
  "passvault/auth/v1" +:+ newline +:+ challengerDeviceId +:+ newline +:+ responderDeviceId
    +:+ newline +:+ toHex nonce.

Definition authChallengeBytes (nonce : Uint8Array) (challengerDeviceId responderDeviceId : DeviceId)
    : Uint8Array := utf8 (authChallengeText nonce challengerDeviceId responderDeviceId).

Definition shortAuthenticationString (a b : Uint8Array) : string :=
  let '(first, second) := if compareBytes a b <=? 0 then (a, b) else (b, a) in
  let digest := digest (utf8 "passvault/sas/v1" ++ first ++ second) in
  let at_ i := match digest !! i with Some b => byte_to_Z b | None => 0 end in
  let value := Z.lor (Z.lor (Z.shiftl (at_ 0%nat) 16) (Z.shiftl (at_ 1%nat) 8)) (at_ 2%nat) in
  padStart 6 (of_chars (write_nat (value mod 1000000))).
End identity.

(** ** pairing.ts: trust *)

Inductive TrustDecision : Type :=
  | trusted (device : PairedDevice.t)
  | unknown_device
  | device_revoked
  | key_mismatch.

(** The operations of a trust store, and what they promise in terms of the
    devices it holds. *)
Class TrustStore (S : Type) : Type := {
  devices : S → gmap DeviceId PairedDevice.t;
  ts_pair : DeviceId → Uint8Array → string → Date → M S unit;
  ts_get : DeviceId → M S (option PairedDevice.t);
  ts_list : M S (list PairedDevice.t);
  ts_revoke : DeviceId → M S unit;
  ts_markSeen : DeviceId → Date → M S unit;
  pair_spec : ∀ s id key name at_, ∃ s' seen, ts_pair id key name at_ s = (Ok tt, s') ∧
    devices s' = <[id := PairedDevice.mk id key name paired at_ seen]> (devices s);
  get_spec : ∀ s id, ts_get id s = (Ok (devices s !! id), s);
  list_spec : ∀ s, ∃ l, ts_list s = (Ok l, s) ∧ l ≡ₚ (map_to_list (devices s)).*2;
  revoke_spec : ∀ s id, ∃ s', ts_revoke id s = (Ok tt, s') ∧
    devices s' = alter (PairedDevice.set_trust revoked) id (devices s);
  markSeen_spec : ∀ s id at_, ∃ s', ts_markSeen id at_ s = (Ok tt, s') ∧
    devices s' = alter (PairedDevice.set_seen at_) id (devices s);
}.

(** The bytes are compared without an early exit. *)
Definition equalBytes (a b : Uint8Array) : bool :=
  if decide (byteLength a ≠ byteLength b) then false
  else foldl (λ difference '(x, y), Z.lor difference (Z.lxor (byte_to_Z x) (byte_to_Z y))) 0
         (zip a b) =? 0.

Section trust.
Context `{Digest} {S : Type} `{!TrustStore S}.

Definition evaluateTrust (deviceId : DeviceId) (publicKey : Uint8Array) : M S TrustDecision :=
  lift (assert (bool_decide (deviceIdFor publicKey = deviceId))
    "device id must be the hash of the presented public key") ≫= λ _,
  ts_get deviceId ≫= λ known,
  mret (match known with
        | None => unknown_device
        | Some known =>
            if decide (PairedDevice.trust known = revoked) then device_revoked
            else if equalBytes (PairedDevice.publicKey known) publicKey then trusted known
            else key_mismatch
        end).
End trust.

(** ** authenticator.ts *)

Inductive AuthOutcome : Type :=
  | accept (deviceName : string)
  | reject (reason : string).

(** The input of [verifyPeer]. *)
Module Claim.
Record t : Type := mk {
  deviceId : DeviceId;
  publicKey : Uint8Array;
  nonce : Uint8Array;
  signature : Uint8Array;
  claimedName : string;
}.
End Claim.

Section authenticator.
Context `{Digest, Ed25519} {S : Type} `{!TrustStore S}.
(** The options, and the time of the call. *)
Context (keyPair : DeviceKeyPair.t) (pairingMode : bool).
Context (confirmPairing : option (DeviceId → Uint8Array → string → bool)) (now : Date).

Definition signChallenge (nonce : Uint8Array) (challengerDeviceId responderDeviceId : DeviceId)
    : Uint8Array :=
  sign (DeviceKeyPair.privateKey keyPair)
    (authChallengeBytes nonce challengerDeviceId responderDeviceId).

Definition confirmed (claim : Claim.t) : bool :=
  match confirmPairing with
  | Some confirm =>
      confirm (Claim.deviceId claim) (Claim.publicKey claim) (Claim.claimedName claim)
  | None => true
  end.

Definition verifyPeer (claim : Claim.t) : M S AuthOutcome :=
  if decide (deviceIdFor (Claim.publicKey claim) ≠ Claim.deviceId claim) then
    (mret (reject "device id does not match the presented public key") : M S _)
  else
    let challenge := authChallengeBytes (Claim.nonce claim) (DeviceKeyPair.deviceId keyPair)
      (Claim.deviceId claim) in
    if negb (verify (Claim.publicKey claim) challenge (Claim.signature claim)) then
      (mret (reject "signature did not verify against the presented key") : M S _)
    else
      evaluateTrust (Claim.deviceId claim) (Claim.publicKey claim) ≫= λ decision,
      match decision with
      | trusted device =>
          ts_markSeen (Claim.deviceId claim) now ≫= λ _, mret (accept (PairedDevice.name device))
      | unknown_device =>
          if negb pairingMode then (mret (reject "device is not paired with this one") : M S _)
          else if negb (confirmed claim) then
            (mret (reject "the pairing numbers were not confirmed on this device") : M S _)
          else
            ts_pair (Claim.deviceId claim) (Claim.publicKey claim) (Claim.claimedName claim) now
              ≫= λ _, mret (accept (Claim.claimedName claim))
      | device_revoked => mret (reject "device has been revoked")
      | key_mismatch =>
          mret (reject "device key has changed since pairing; pair again to accept the new key")
      end.
End authenticator.

(** ** Trust stores *)

(** [trustStoreFromMap]. *)
#[global, refine] Instance map_trust_store : TrustStore (gmap DeviceId PairedDevice.t) := {
  devices s := s;
  ts_pair id key name at_ :=
    modify (λ s, <[id := PairedDevice.mk id key name paired at_ None]> s);
  ts_get id := gets (λ s, s !! id);
  ts_list := gets (λ s, (map_to_list s).*2);
  ts_revoke id := modify (λ s, match s !! id with
    | Some existing => <[id := PairedDevice.set_trust revoked existing]> s | None => s end);
  ts_markSeen id at_ := modify (λ s, match s !! id with
    | Some existing => <[id := PairedDevice.set_seen at_ existing]> s | None => s end);
}.
Proof.
  - intros. by do 2 eexists.
  - done.
  - intros s. by eexists.
  - intros s id. eexists. split; [reflexivity|]. apply map_eq. intros i.
    destruct (decide (i = id)) as [->|].
    + rewrite lookup_alter_eq. destruct (s !! id) eqn:Hs; [by rewrite lookup_insert_eq|by rewrite Hs].
    + rewrite lookup_alter_ne by done. destruct (s !! id); [by rewrite lookup_insert_ne|done].
  - intros s id at_. eexists. split; [reflexivity|]. apply map_eq. intros i.
    destruct (decide (i = id)) as [->|].
    + rewrite lookup_alter_eq. destruct (s !! id) eqn:Hs; [by rewrite lookup_insert_eq|by rewrite Hs].
    + rewrite lookup_alter_ne by done. destruct (s !! id); [by rewrite lookup_insert_ne|done].
Defined.

(** [createSqliteTrustStore], over the [devices] table. *)
Definition toPairedDevice (row : DeviceRow.t) : PairedDevice.t :=
  {| PairedDevice.deviceId := DeviceRow.id row; PairedDevice.publicKey := DeviceRow.public_key row;
     PairedDevice.name := DeviceRow.name row;
     PairedDevice.trust := if decide (DeviceRow.trust row = "revoked") then revoked else paired;
     PairedDevice.pairedAt := DeviceRow.paired_at row;
     PairedDevice.lastSeenAt := DeviceRow.last_seen_at row |}.

(** [INSERT INTO devices ... ON CONFLICT(id) DO UPDATE]: a device that was seen
    before keeps when. *)
Definition upsert_device (existing : option DeviceRow.t) (id : DeviceId) (key : Uint8Array)
    (name : string) (at_ : Date) : DeviceRow.t :=
  {| DeviceRow.id := id; DeviceRow.public_key := key; DeviceRow.name := name;
     DeviceRow.trust := "paired"; DeviceRow.paired_at := at_;
     DeviceRow.last_seen_at := existing ≫= DeviceRow.last_seen_at |}.

Definition update_device (f : DeviceRow.t → DeviceRow.t) (id : DeviceId) : M Db.t unit :=
  modify (λ d, Db.set_devices (alter f id (Db.devices d)) d).

Definition row_revoked (row : DeviceRow.t) : DeviceRow.t :=
  DeviceRow.mk (DeviceRow.id row) (DeviceRow.public_key row) (DeviceRow.name row) "revoked"
    (DeviceRow.paired_at row) (DeviceRow.last_seen_at row).

Definition row_seen (at_ : Date) (row : DeviceRow.t) : DeviceRow.t :=
  DeviceRow.mk (DeviceRow.id row) (DeviceRow.public_key row) (DeviceRow.name row)
    (DeviceRow.trust row) (DeviceRow.paired_at row) (Some at_).

#[global, refine] Instance sqlite_trust_store `{RowOrder} : TrustStore Db.t := {
  devices d := toPairedDevice <$> Db.devices d;
  ts_pair id key name at_ := modify (λ d, Db.set_devices
    (<[id := upsert_device (Db.devices d !! id) id key name at_]> (Db.devices d)) d);
  ts_get id := gets (λ d, toPairedDevice <$> Db.devices d !! id);
  ts_list := gets (λ d, toPairedDevice <$>
    order_by_desc DeviceRow.paired_at (scan (map_to_list (Db.devices d)).*2));
  ts_revoke id := update_device row_revoked id;
  ts_markSeen id at_ := update_device (row_seen at_) id;
}.
Proof.
  - intros d id key name at_. eexists.
    exists (Db.devices d !! id ≫= DeviceRow.last_seen_at). split; [reflexivity|].
    destruct d; simpl. by rewrite fmap_insert.
  - intros d id. unfold gets. by rewrite lookup_fmap.
  - intros d. eexists. split; [reflexivity|]. rewrite (order_by_desc_perm DeviceRow.paired_at), scan_perm.
    by rewrite map_to_list_fmap, <-!list_fmap_compose.
  - intros d id. eexists. split; [reflexivity|]. destruct d; simpl.
    apply map_eq. intros i. rewrite lookup_fmap.
    destruct (decide (i = id)) as [->|]; [rewrite !lookup_alter_eq|rewrite !lookup_alter_ne by done];
      rewrite lookup_fmap; [|done]. by destruct (_ !! id).
  - intros d id at_. eexists. split; [reflexivity|]. destruct d; simpl.
    apply map_eq. intros i. rewrite lookup_fmap.
    destruct (decide (i = id)) as [->|]; [rewrite !lookup_alter_eq|rewrite !lookup_alter_ne by done];
      rewrite lookup_fmap; [|done]. by destruct (_ !! id).
Defined.
