(* ===== verification/IdentityProps.v ===== *)
(** * Devices: properties *)

From S2P Require Import Prelude Model Bytes JsString Json JsonProps Codec Effects Store BlobStore.
From S2P Require Import Identity.
From Stdlib Require Ascii.

Open Scope Z_scope.

(** The encodings of keys, nonces and signatures.  Whatever the bytes,
    decoding their hexadecimal or base64 text gives them back; the hexadecimal
    text is two lower-case digits per byte. *)
Theorem codecs_roundtrip (bytes : Uint8Array) :
  fromHex (toHex bytes) = Ok bytes ∧ fromBase64 (toBase64 bytes) = Ok bytes ∧
  length (chars (toHex bytes)) = (2 * length bytes)%nat ∧
  forallb (λ c, is_lower_hex (charCode c)) (chars (toHex bytes)) = true.
Proof.
  destruct (toHex_lower bytes). split_and!; [apply fromHex_toHex|apply fromBase64_toBase64|done..].
Qed.

(** ** The short authentication string *)

Lemma compareBytes_opp a b : compareBytes b a = - compareBytes a b.
Proof.
  revert b. induction a as [|x a IH]; intros [|y b]; simpl; unfold byteLength; simpl; try lia.
  destruct (decide (byte_to_Z x = byte_to_Z y)) as [Heq|Hne].
  - by rewrite decide_True.
  - rewrite decide_False by congruence. lia.
Qed.

Lemma byte_to_Z_inj x y : byte_to_Z x = byte_to_Z y → x = y.
Proof. intros Heq. by rewrite <-(byte_of_to_Z x), Heq, byte_of_to_Z. Qed.

Lemma compareBytes_eq a b : compareBytes a b = 0 → a = b.
Proof.
  revert b. induction a as [|x a IH]; intros [|y b]; simpl; unfold byteLength; simpl; try lia; [done|].
  case_decide as Heq; [|lia]. intros Hab. f_equal; [by apply byte_to_Z_inj|by apply IH].
Qed.

Lemma digits_fold_lower ds acc :
  Forall (λ d, 0 <= d < 10) ds → 0 <= acc →
  acc * 10 ^ Z.of_nat (length ds) <= foldl (λ acc d, acc * 10 + d) acc ds.
Proof.
  intros Hall. revert acc. induction Hall as [|d ds Hd _ IH]; intros acc Hacc; [simpl; lia|].
  cbn [foldl length]. specialize (IH (acc * 10 + d) ltac:(lia)).
  rewrite Nat2Z.inj_succ, Z.pow_succ_r by lia.
  pose proof (Z.pow_pos_nonneg 10 (Z.of_nat (length ds)) ltac:(lia) ltac:(lia)). nia.
Qed.

(** The decimal text of a number below a power of ten is that many digits at most. *)
Lemma write_nat_length z n :
  0 <= z < 10 ^ Z.of_nat n → (0 < n)%nat →
  (length (write_nat z) <= n)%nat ∧
  Forall (λ c, 48 <= charCode c <= 57) (write_nat z).
Proof.
  intros Hz Hn. destruct (write_nat_spec z) as (d&ds&->&Hall&Hv&Hzero); [lia|]. split.
  - rewrite length_fmap. cbn [length]. destruct (decide (d = 0)) as [Hd|Hd].
    { rewrite (Hzero Hd). simpl. lia. }
    apply Forall_cons in Hall as [Hd10 Hall]. unfold digits_value in Hv. cbn [foldl] in Hv.
    pose proof (digits_fold_lower ds (0 * 10 + d) Hall ltac:(lia)) as Hlow. rewrite Hv in Hlow.
    assert (10 ^ Z.of_nat (length ds) < 10 ^ Z.of_nat n) as Hlt.
    { pose proof (Z.pow_pos_nonneg 10 (Z.of_nat (length ds)) ltac:(lia) ltac:(lia)). nia. }
    apply Z.pow_lt_mono_r_iff in Hlt; lia.
  - apply Forall_fmap. eapply Forall_impl; [exact Hall|]. intros v Hv10. simpl in *.
    rewrite charCode_from by lia. lia.
Qed.

Lemma padStart_spec n text :
  (length (chars text) <= n)%nat → Forall (λ c, 48 <= charCode c <= 57) (chars text) →
  length (chars (padStart n text)) = n ∧
  Forall (λ c, 48 <= charCode c <= 57) (chars (padStart n text)).
Proof.
  intros Hlen Hall. unfold padStart. rewrite chars_of_chars. split.
  - rewrite length_app, length_replicate. lia.
  - apply Forall_app. split; [|done]. apply Forall_replicate. vm_compute. split; discriminate.
Qed.

(** The number two people compare.  The two devices compute the same one
    whichever key each takes as its own, and it is exactly six decimal digits. *)
Theorem sas_symmetric `{Digest} (a b : Uint8Array) :
  shortAuthenticationString a b = shortAuthenticationString b a ∧
  length (chars (shortAuthenticationString a b)) = 6%nat ∧
  Forall (λ c, 48 <= charCode c <= 57) (chars (shortAuthenticationString a b)).
Proof.
  split.
  - unfold shortAuthenticationString. rewrite (compareBytes_opp a b).
    destruct (Z.leb_spec (compareBytes a b) 0), (Z.leb_spec (- compareBytes a b) 0); try done; [|lia].
    by rewrite (compareBytes_eq a b) by lia.
  - unfold shortAuthenticationString. destruct (if compareBytes a b <=? 0 then _ else _) as [x y].
    cbv zeta. set (value := Z.lor _ _).
    destruct (write_nat_length (value mod 1000000) 6) as [Hlen Hall].
    { change (10 ^ Z.of_nat 6) with 1000000. apply Z.mod_pos_bound. lia. }
    { lia. }
    apply padStart_spec; by rewrite chars_of_chars.
Qed.

(** ** The challenge *)

Lemma split_last {A} (x : A) l1 t1 l2 t2 :
  l1 ++ x :: t1 = l2 ++ x :: t2 → x ∉ t1 → x ∉ t2 → l1 = l2 ∧ t1 = t2.
Proof.
  intros Heq H1 H2. revert l2 Heq. induction l1 as [|y l1 IH]; intros [|z l2] Heq; cbn [app] in Heq.
  - by injection Heq as ->.
  - injection Heq as -> ->. destruct H1. set_solver.
  - injection Heq as -> <-. destruct H2. set_solver.
  - injection Heq as -> Ht. by destruct (IH l2 Ht) as [-> ->].
Qed.

Lemma byte_of_ascii_inj c d : Ascii.byte_of_ascii c = Ascii.byte_of_ascii d → c = d.
Proof.
  intros Heq. by rewrite <-(Ascii.ascii_of_byte_of_ascii c), Heq, Ascii.ascii_of_byte_of_ascii.
Qed.

Lemma utf8_inj s t : utf8 s = utf8 t → s = t.
Proof.
  unfold utf8. intros Heq. apply chars_inj. revert Heq. generalize (chars s) (chars t).
  intros l. induction l as [|c l IH]; intros [|d k] Heq; try done.
  injection Heq as Hc Hk. f_equal; [by apply byte_of_ascii_inj|by apply IH].
Qed.

(** A text of hexadecimal digits has no line break. *)
Definition one_line (text : string) : Prop := fromCharCode 10 ∉ chars text.

Lemma toHex_one_line bytes : one_line (toHex bytes).
Proof.
  unfold one_line. destruct (toHex_lower bytes) as [_ Hall]. intros Hin.
  rewrite forallb_forall in Hall. apply list_elem_of_In, Hall in Hin. vm_compute in Hin. discriminate.
Qed.

(** A signature answers one challenge only.  Two challenges whose texts are
    the same have the same nonce, the same challenger and the same responder,
    as long as the responders are device ids; the challenger may be any text a
    peer claims to be called, line breaks included. *)
Theorem challenge_binds (nonce nonce' : Uint8Array) (challenger challenger' responder responder' : DeviceId)
    (Hr : one_line responder) (Hr' : one_line responder') :
  authChallengeBytes nonce challenger responder = authChallengeBytes nonce' challenger' responder' →
  nonce = nonce' ∧ challenger = challenger' ∧ responder = responder'.
Proof.
  unfold authChallengeBytes, authChallengeText. intros Heq%utf8_inj%(f_equal chars).
  rewrite !chars_app in Heq. do 2 apply app_inv_head in Heq.
  change (chars newline) with [fromCharCode 10] in Heq. cbn [app] in Heq.
  set (nl := fromCharCode 10) in *.
  assert (∀ c r h, c ++ nl :: r ++ nl :: h = (c ++ nl :: r) ++ nl :: h) as Hass
    by (intros; by rewrite <-app_assoc).
  rewrite !Hass in Heq.
  apply split_last in Heq as [Heq Hn]; [|apply toHex_one_line..].
  apply split_last in Heq as [Hc Hresp]; [|done..].
  apply chars_inj in Hn as Hn'%toHex_inj. by apply chars_inj in Hc, Hresp.
Qed.

Lemma challenge_binds_witness :
  one_line "a" ∧ one_line "b" ∧
  (authChallengeBytes [Byte.x01] "me" "a" = authChallengeBytes [Byte.x01] "me" "b" → "a" = "b").
Proof.
  assert (∀ t, forallb (λ c, negb (bool_decide (c = fromCharCode 10))) (chars t) = true → one_line t) as Hline.
  { intros t Ht Hin. rewrite forallb_forall in Ht. apply list_elem_of_In, Ht in Hin.
    rewrite bool_decide_true in Hin by reflexivity. discriminate. }
  assert (one_line "a") as Ha by (apply Hline; vm_compute; reflexivity).
  assert (one_line "b") as Hb by (apply Hline; vm_compute; reflexivity).
  split; [exact Ha|]. split; [exact Hb|]. intros Heq.
  exact (proj2 (proj2 (challenge_binds _ _ "me" "me" "a" "b" Ha Hb Heq))).
Defined.

(** ** Trust *)

Lemma zlor_0 a b : Z.lor a b = 0 ↔ a = 0 ∧ b = 0.
Proof. apply Z.lor_eq_0_iff. Qed.

Lemma difference_zero l acc :
  foldl (λ difference '(x, y), Z.lor difference (Z.lxor (byte_to_Z x) (byte_to_Z y))) acc l = 0 ↔
  acc = 0 ∧ Forall (λ '(x, y), x = y) l.
Proof.
  revert acc. induction l as [|[x y] l IH]; intros acc; cbn [foldl]; [naive_solver|].
  rewrite IH, zlor_0, Forall_cons, Z.lxor_eq_0_iff. naive_solver eauto using byte_to_Z_inj, f_equal.
Qed.

Lemma equalBytes_eq a b : equalBytes a b = true ↔ a = b.
Proof.
  unfold equalBytes, byteLength. case_decide as Hlen.
  { split; [done|]. intros ->. done. }
  rewrite Z.eqb_eq, difference_zero. split.
  - intros [_ Hall]. assert (length a = length b) as Hl by lia. clear Hlen. revert b Hl Hall.
    induction a as [|x a IH]; intros [|y b] Hl Hall; try done. simpl in Hall.
    apply Forall_cons in Hall as [-> Hall]. f_equal. apply IH; [by injection Hl|done].
  - intros ->. split; [done|]. clear Hlen. induction b as [|y b IH]; [constructor|]. by constructor.
Qed.

Section trust.
Context `{Digest, Ed25519} {S : Type} `{!TrustStore S}.
Implicit Types s : S.

Lemma evaluateTrust_run id key s :
  deviceIdFor key = id →
  evaluateTrust id key s =
  (Ok (match devices s !! id with
       | None => unknown_device
       | Some known =>
           if decide (PairedDevice.trust known = revoked) then device_revoked
           else if decide (PairedDevice.publicKey known = key) then trusted known
           else key_mismatch
       end), s).
Proof.
  intros Hid. unfold evaluateTrust. erewrite bind_eq by (unfold lift; by rewrite bool_decide_true).
  rewrite (bind_eq _ _ _ _ _ (get_spec _ _)). unfold mret, M_ret.
  destruct (devices s !! id) as [known|]; [|done]. case_decide; [done|].
  destruct (equalBytes _ key) eqn:He.
  - apply equalBytes_eq in He. by rewrite decide_True.
  - rewrite decide_False; [done|]. intros Heq%equalBytes_eq. congruence.
Qed.

Section verify.
Context (keyPair : DeviceKeyPair.t) (pairingMode : bool).
Context (confirmPairing : option (DeviceId → Uint8Array → string → bool)) (now : Date).

(** What a claim proves: the id is the key's, and the key signed our nonce for us. *)
Definition proven (claim : Claim.t) : Prop :=
  deviceIdFor (Claim.publicKey claim) = Claim.deviceId claim ∧
  verify (Claim.publicKey claim)
    (authChallengeBytes (Claim.nonce claim) (DeviceKeyPair.deviceId keyPair) (Claim.deviceId claim))
    (Claim.signature claim) = true.

Lemma verifyPeer_cases (claim : Claim.t) s :
  let id := Claim.deviceId claim in
  match verifyPeer keyPair pairingMode confirmPairing now claim s with
  | (Ok (accept name), s') =>
      proven claim ∧
      ((∃ d, devices s !! id = Some d ∧ PairedDevice.trust d = paired ∧
          PairedDevice.publicKey d = Claim.publicKey claim ∧ PairedDevice.name d = name ∧
          devices s' = alter (PairedDevice.set_seen now) id (devices s)) ∨
       (devices s !! id = None ∧ pairingMode = true ∧
          (∀ confirm, confirmPairing = Some confirm →
             confirm id (Claim.publicKey claim) (Claim.claimedName claim) = true) ∧
          name = Claim.claimedName claim ∧
          ∃ seen, devices s' = <[id := PairedDevice.mk id (Claim.publicKey claim) name paired now seen]>
                                 (devices s)))
  | (Ok (reject _), s') => s' = s
  | (Err _, _) => False
  end.
Proof.
  unfold verifyPeer, proven, confirmed. cbv zeta.
  case_decide as Hid; [done|].
  destruct (verify _ _ _) eqn:Hv; [|done]. simpl.
  rewrite (bind_eq _ _ _ _ _ (evaluateTrust_run _ _ s Hid)).
  destruct (devices s !! Claim.deviceId claim) as [d|] eqn:Hd.
  - case_decide as Ht; [done|]. case_decide as Hk; [|done].
    destruct (markSeen_spec s (Claim.deviceId claim) now) as (s'&Hrun&Hs').
    rewrite (bind_eq _ _ _ _ _ Hrun). simpl. split; [done|]. left. exists d.
    split_and!; try done. by destruct (PairedDevice.trust d).
  - destruct pairingMode; [|done]. simpl.
    destruct (match confirmPairing with Some _ => _ | None => _ end) eqn:Hc; [|done]. simpl.
    destruct (pair_spec s (Claim.deviceId claim) (Claim.publicKey claim) (Claim.claimedName claim) now)
      as (s'&seen&Hrun&Hs').
    rewrite (bind_eq _ _ _ _ _ Hrun). simpl. split; [done|]. right. split_and!; try done; [|by exists seen].
    intros confirm ->. done.
Qed.
(** Who is let in.  A peer is accepted only if its id is the hash of the key
    it presents, that key signed this device's nonce for this device, and either
    the very key is pinned under the id and not revoked, and then only the time
    it was seen changes; or the id is unknown, the user is pairing and confirmed
    the numbers, and then it is pinned.  A refusal changes nothing, and nothing
    is thrown. *)
Theorem verifyPeer_sound (claim : Claim.t) s :
  let id := Claim.deviceId claim in
  match verifyPeer keyPair pairingMode confirmPairing now claim s with
  | (Ok (accept name), s') =>
      proven claim ∧
      ((∃ d, devices s !! id = Some d ∧ PairedDevice.trust d = paired ∧
          PairedDevice.publicKey d = Claim.publicKey claim ∧ PairedDevice.name d = name ∧
          devices s' = alter (PairedDevice.set_seen now) id (devices s)) ∨
       (devices s !! id = None ∧ pairingMode = true ∧
          (∀ confirm, confirmPairing = Some confirm →
             confirm id (Claim.publicKey claim) (Claim.claimedName claim) = true) ∧
          name = Claim.claimedName claim ∧
          ∃ seen, devices s' = <[id := PairedDevice.mk id (Claim.publicKey claim) name paired now seen]>
                                 (devices s)))
  | (Ok (reject _), s') => s' = s
  | (Err _, _) => False
  end.
Proof. apply verifyPeer_cases. Qed.
End verify.

(** An honest peer is let in.  Two devices with their own keys, the one's
    key pinned and trusted by the other: the proof the first signs for the
    other's nonce is accepted under its pinned name, whatever name it claims. *)
Theorem honest_peer_accepted (a b : Uint8Array) (pair_a pair_b : DeviceKeyPair.t)
    (Ha : keyPairFromPrivateKey a = Ok pair_a) (Hb : keyPairFromPrivateKey b = Ok pair_b)
    (nonce : Uint8Array) (claimed : string) (pairingMode : bool)
    (confirmPairing : option (DeviceId → Uint8Array → string → bool)) (now : Date)
    (d : PairedDevice.t) s
    (Hd : devices s !! DeviceKeyPair.deviceId pair_a = Some d)
    (Hkey : PairedDevice.publicKey d = DeviceKeyPair.publicKey pair_a)
    (Htrust : PairedDevice.trust d = paired) :
  let id := DeviceKeyPair.deviceId pair_a in
  let signature := signChallenge pair_a nonce (DeviceKeyPair.deviceId pair_b) id in
  (verifyPeer pair_b pairingMode confirmPairing now
     (Claim.mk id (DeviceKeyPair.publicKey pair_a) nonce signature claimed) s).1
  = Ok (accept (PairedDevice.name d)).
Proof.
  unfold keyPairFromPrivateKey in Ha. apply assert_bind in Ha as [Hlen [= <-]].
  apply Nat.eqb_eq in Hlen. simpl in *. unfold verifyPeer, signChallenge, sign, verify. simpl.
  rewrite decide_False by (intros Hne; by apply Hne). rewrite ed_verify_sign by done. simpl.
  rewrite (bind_eq _ _ _ _ _ (evaluateTrust_run _ _ s eq_refl)), Hd.
  rewrite decide_False, decide_True by (done || congruence).
  destruct (markSeen_spec s (deviceIdFor (getPublicKey a)) now) as (s'&Hrun&_).
  by rewrite (bind_eq _ _ _ _ _ Hrun).
Qed.

(** ** The pinned keys *)

(** The trust stores that verification, revocation and forgetting reach. *)
Inductive trust_reachable : S → Prop :=
  | trust_start s : devices s = ∅ → trust_reachable s
  | trust_verify keyPair pairingMode confirmPairing now claim s :
      trust_reachable s →
      trust_reachable (verifyPeer keyPair pairingMode confirmPairing now claim s).2
  | trust_revoke id s : trust_reachable s → trust_reachable (ts_revoke id s).2.

Definition keys_match s : Prop := ∀ id d, devices s !! id = Some d →
  deviceIdFor (PairedDevice.publicKey d) = id.

Lemma keys_match_alter f id s s' :
  (∀ d, PairedDevice.publicKey (f d) = PairedDevice.publicKey d) →
  keys_match s → devices s' = alter f id (devices s) → keys_match s'.
Proof.
  intros Hf Hs Hs' i d. rewrite Hs', lookup_alter_Some. intros [(->&d0&Hd0&->)|[_ Hd]]; [|by apply Hs].
  rewrite Hf. by apply Hs.
Qed.

Lemma keys_match_reachable s : trust_reachable s → keys_match s.
Proof.
  induction 1 as [s Hs|keyPair pm confirm now claim s _ IH|id s _ IH].
  - intros i d. by rewrite Hs, lookup_empty.
  - pose proof (verifyPeer_cases keyPair pm confirm now claim s) as Hc.
    destruct (verifyPeer _ _ _ _ _ s) as [[[name|reason]|e] s']; simpl in *; [|by subst|done].
    destruct Hc as [[Hid _] [(d&_&_&_&_&Hs')|(_&_&_&->&seen&Hs')]].
    + eapply keys_match_alter; [|exact IH|exact Hs']. by intros [].
    + intros i d. rewrite Hs'. destruct (decide (Claim.deviceId claim = i)) as [<-|Hne].
      * rewrite lookup_insert_eq. by intros [= <-].
      * rewrite lookup_insert_ne by done. apply IH.
  - destruct (revoke_spec s id) as (s'&Hrun&Hs'). rewrite Hrun. simpl.
    eapply keys_match_alter; [|exact IH|exact Hs']. by intros [].
Qed.

(** A changed key.  In a store that only verification and revocation wrote
    to, the refusal that reports a changed key comes up only if two different
    keys have the same SHA-256 digest: a reinstalled device presents a new id
    and is an unknown device, not one whose key changed. *)
Theorem changed_key_is_collision (keyPair : DeviceKeyPair.t) (pairingMode : bool)
    (confirmPairing : option (DeviceId → Uint8Array → string → bool)) (now : Date)
    (claim : Claim.t) s (Hs : trust_reachable s) :
  (verifyPeer keyPair pairingMode confirmPairing now claim s).1 = Ok (reject
    "device key has changed since pairing; pair again to accept the new key") →
  ∃ d, devices s !! Claim.deviceId claim = Some d ∧
    PairedDevice.publicKey d ≠ Claim.publicKey claim ∧
    digest (PairedDevice.publicKey d) = digest (Claim.publicKey claim).
Proof.
  unfold verifyPeer. cbv zeta. case_decide as Hid; [by intros [=]|].
  destruct (verify _ _ _) eqn:Hv; [|by intros [=]]. simpl.
  rewrite (bind_eq _ _ _ _ _ (evaluateTrust_run _ _ s Hid)).
  destruct (devices s !! Claim.deviceId claim) as [d|] eqn:Hd.
  - case_decide; [by intros [=]|]. case_decide as Hk.
    + destruct (markSeen_spec s (Claim.deviceId claim) now) as (s'&Hrun&_).
      by rewrite (bind_eq _ _ _ _ _ Hrun).
    + intros _. exists d. split_and!; [done|done|]. apply toHex_inj.
      pose proof (keys_match_reachable s Hs _ _ Hd) as Hkey. unfold deviceIdFor in *. congruence.
  - destruct pairingMode; [|by intros [=]]. simpl. destruct (confirmed _ _); [|by intros [=]]. simpl.
    destruct (pair_spec s (Claim.deviceId claim) (Claim.publicKey claim) (Claim.claimedName claim) now)
      as (s'&seen&Hrun&_).
    by rewrite (bind_eq _ _ _ _ _ Hrun).
Qed.
End trust.

(** ** Witnesses: a digest that is the same for every text, and signatures that
    name the key. *)

#[refine] Definition toy_digest : Digest := {| digest bytes := replicate 32 Byte.x00 |}.
Proof. intros bytes. reflexivity. Defined.

#[refine] Definition toy_ed25519 : Ed25519 :=
  {| getPublicKey privateKey := privateKey;
     ed_sign message privateKey := message ++ privateKey;
     ed_verify signature message publicKey := Ok (bool_decide (signature = message ++ publicKey)) |}.
Proof. intros message privateKey _. by rewrite bool_decide_true. Defined.

#[local] Existing Instance toy_digest.
#[local] Existing Instance toy_ed25519.

Definition key_one : Uint8Array := replicate 32 Byte.x01.
Definition key_two : Uint8Array := replicate 32 Byte.x02.
Definition pair_of (key : Uint8Array) : DeviceKeyPair.t := DeviceKeyPair.mk (deviceIdFor key) key key.

Definition claim_of (key : Uint8Array) : Claim.t :=
  Claim.mk (deviceIdFor key) key [Byte.x09]
    (signChallenge (pair_of key) [Byte.x09] (deviceIdFor key_one) (deviceIdFor key)) "phone".

(** The map store after the first key was pinned. *)
Definition pinned : gmap DeviceId PairedDevice.t :=
  (verifyPeer (pair_of key_one) true None 0 (claim_of key_one) ∅).2.

Lemma honest_peer_accepted_witness :
  (verifyPeer (S := gmap DeviceId PairedDevice.t) (pair_of key_two) false None 1
     (Claim.mk (deviceIdFor key_one) key_one [Byte.x07]
       (signChallenge (pair_of key_one) [Byte.x07] (deviceIdFor key_two) (deviceIdFor key_one)) "x")
     pinned).1 = Ok (accept "phone").
Proof.
  refine (honest_peer_accepted key_one key_two (pair_of key_one) (pair_of key_two) _ _ [Byte.x07] "x"
    false None 1 (PairedDevice.mk (deviceIdFor key_one) key_one "phone" paired 0 None) pinned _ _ _);
    vm_compute; reflexivity.
Defined.

Lemma changed_key_is_collision_witness :
  ∃ d, devices pinned !! deviceIdFor key_two = Some d ∧ PairedDevice.publicKey d ≠ key_two.
Proof.
  destruct (changed_key_is_collision (pair_of key_one) true None 1 (claim_of key_two) pinned)
    as (d&Hd&Hne&_).
  - apply trust_verify, trust_start. reflexivity.
  - vm_compute. reflexivity.
  - exists d. split; [exact Hd|exact Hne].
Defined.
