(* ===== verification/Session.v ===== *)
(** * A sync session

    packages/sync/src/session.ts: one session over a connected link, as the
    handlers and the tasks of a single-threaded program.  An event runs one of
    them: a payload arrives on a channel, the channel closes, a timer fires, or
    a task goes on past the await it is at.  The main task ([run]) is its
    [Phase]; [serve] and the queue of ingests run beside it.  An error that a
    handler lets escape is the [Err] of its event. *)

From S2P Require Import Prelude Model Bytes JsString Dag Framing Lineage Json Protocol Codec Effects.
From S2P Require Import Store BlobStore Engine Inbox Identity.

Open Scope Z_scope.

Definition MAX_ORPHAN_FRAMES : nat := 64.

(** "\u0000none". *)
Definition EMPTY_VAULT_ID : VaultId := of_chars [fromCharCode 0] +:+ "none".

(** ** The authenticator port (packages/core/src/ports.ts) *)

Class PeerAuthenticator (A : Type) : Type := {
  auth_deviceId : DeviceId;
  auth_deviceName : string;
  auth_publicKey : Uint8Array;
  auth_newNonce : M A Uint8Array;
  auth_signChallenge : Uint8Array → DeviceId → DeviceId → Uint8Array;
  auth_verifyPeer : Claim.t → M A AuthOutcome;
}.

(** ** Data *)

Inductive SessionEvent : Type :=
  | handshake_event (remoteDeviceId : DeviceId) (remoteDeviceName : string)
  | authenticated_event (remoteDeviceId : DeviceId)
  | adopted_vault (vaultId : VaultId) (name : string)
  | requested (revisionIds : list RevisionId)
  | sending (revisionId : RevisionId) (totalChunks : Z)
  | sent_event (revisionId : RevisionId)
  | received_event (revisionId : RevisionId)
  | rejected_event (revisionId : RevisionId) (reason : string).

Module Remote.
Record t : Type := mk {
  id : DeviceId;
  name : string;
}.
End Remote.

Module SessionResult.
Record t : Type := mk {
  vaultId : VaultId;
  remoteDevice : Remote.t;
  received : list RevisionId;
  sent : list RevisionId;
  missing : list RevisionId;
  divergence : Divergence;
  remoteHead : option RevisionId;
}.
End SessionResult.

Module InboundHeader.
Record t : Type := mk {
  header : RevisionHeader.t;
  fromDeviceId : DeviceId;
}.

Definition revisionId (h : t) : RevisionId := RevisionHeader.revisionId (header h).
End InboundHeader.

Module Transfer.
Record t : Type := mk {
  header : InboundHeader.t;
  assembler : ChunkAssembler.t;
}.
End Transfer.

(** The revision being served: the frames still to be sent, and what the peer
    answered. *)
Module Outgoing.
Record t : Type := mk {
  revisionId : RevisionId;
  frames : list ChunkFrame.t;
  outcome : option (bool * option string);
}.
End Outgoing.

Module Serving.
Record t : Type := mk {
  todo : list RevisionId;
  transferSeq : Z;
  current : option Outgoing.t;
}.
End Serving.

(** Why [run] threw: an error of the session, or any other. *)
Inductive Failure : Type :=
  | session_error (error : SessionError.t)
  | other_error (message : string).

(** What the main task waits for.  A promise of the inbox is its index. *)
Inductive Phase : Type :=
  | NotStarted
  | AwaitHello (ourNonce : Uint8Array) (promise : nat)
  | AwaitAuth (ourNonce : Uint8Array) (deviceId : DeviceId) (deviceName : string)
      (peerPublicKey : Uint8Array) (promise : nat)
  | Verifying (claim : Claim.t)
  | AwaitVaultSummary (remote : Remote.t) (local : option Vault.t) (promise : nat)
  | AwaitHistory (remote : Remote.t) (remoteHead : option RevisionId) (promise : nat)
  | AwaitWants (remote : Remote.t) (remoteHead : option RevisionId) (remoteGraph : RevisionGraph)
      (promise : nat)
  | Exchanging (remote : Remote.t) (remoteHead : option RevisionId) (remoteGraph : RevisionGraph)
  | AwaitPeerComplete (remote : Remote.t) (remoteHead : option RevisionId)
      (remoteGraph : RevisionGraph)
  | AwaitInboundWork (remote : Remote.t) (remoteHead : option RevisionId)
      (remoteGraph : RevisionGraph) (until : nat)
  | Done (result : SessionResult.t)
  | Failed (failure : Failure).

Module Session.
Record t (B A : Type) : Type := mk {
  engine : EngineState.t B;
  auth : A;
  inbox : ControlInbox.t;
  assemblers : gmap Z Transfer.t;
  orphanFrames : list ChunkFrame.t;
  ackWaiters : gset RevisionId;
  expected : list RevisionId;
  received : list RevisionId;
  sent : list RevisionId;
  (* the ingests queued behind [inboundWork], and how many are done *)
  inboundWork : list (InboundHeader.t * Uint8Array);
  ingested : nat;
  peerCompleted : bool;
  remoteDeviceId : option DeviceId;
  (* [notifyProgress] is set; the promise of [drainInbound] is resolved *)
  armed : bool;
  drained : bool;
  vaultId : VaultId;
  phase : Phase;
  serving : Serving.t;
  (* what was sent on the two channels, and emitted *)
  control : list ProtocolMessage;
  bulk : list ChunkFrame.t;
  events : list SessionEvent;
}.
Arguments mk {_ _} _ _ _ _ _ _ _ _ _ _ _ _ _ _ _ _ _ _ _ _ _.
Arguments engine {_ _} _.
Arguments auth {_ _} _.
Arguments inbox {_ _} _.
Arguments assemblers {_ _} _.
Arguments orphanFrames {_ _} _.
Arguments ackWaiters {_ _} _.
Arguments expected {_ _} _.
Arguments received {_ _} _.
Arguments sent {_ _} _.
Arguments inboundWork {_ _} _.
Arguments ingested {_ _} _.
Arguments peerCompleted {_ _} _.
Arguments remoteDeviceId {_ _} _.
Arguments armed {_ _} _.
Arguments drained {_ _} _.
Arguments vaultId {_ _} _.
Arguments phase {_ _} _.
Arguments serving {_ _} _.
Arguments control {_ _} _.
Arguments bulk {_ _} _.
Arguments events {_ _} _.

Definition set_engine {B A} x (s : t B A) : t B A :=
  mk x (auth s) (inbox s) (assemblers s) (orphanFrames s) (ackWaiters s) (expected s)
    (received s) (sent s) (inboundWork s) (ingested s) (peerCompleted s) (remoteDeviceId
    s) (armed s) (drained s) (vaultId s) (phase s) (serving s) (control s) (bulk s)
    (events s).
Definition set_auth {B A} x (s : t B A) : t B A :=
  mk (engine s) x (inbox s) (assemblers s) (orphanFrames s) (ackWaiters s) (expected s)
    (received s) (sent s) (inboundWork s) (ingested s) (peerCompleted s) (remoteDeviceId
    s) (armed s) (drained s) (vaultId s) (phase s) (serving s) (control s) (bulk s)
    (events s).
Definition set_inbox {B A} x (s : t B A) : t B A :=
  mk (engine s) (auth s) x (assemblers s) (orphanFrames s) (ackWaiters s) (expected s)
    (received s) (sent s) (inboundWork s) (ingested s) (peerCompleted s) (remoteDeviceId
    s) (armed s) (drained s) (vaultId s) (phase s) (serving s) (control s) (bulk s)
    (events s).
Definition set_assemblers {B A} x (s : t B A) : t B A :=
  mk (engine s) (auth s) (inbox s) x (orphanFrames s) (ackWaiters s) (expected s)
    (received s) (sent s) (inboundWork s) (ingested s) (peerCompleted s) (remoteDeviceId
    s) (armed s) (drained s) (vaultId s) (phase s) (serving s) (control s) (bulk s)
    (events s).
Definition set_orphanFrames {B A} x (s : t B A) : t B A :=
  mk (engine s) (auth s) (inbox s) (assemblers s) x (ackWaiters s) (expected s)
    (received s) (sent s) (inboundWork s) (ingested s) (peerCompleted s) (remoteDeviceId
    s) (armed s) (drained s) (vaultId s) (phase s) (serving s) (control s) (bulk s)
    (events s).
Definition set_ackWaiters {B A} x (s : t B A) : t B A :=
  mk (engine s) (auth s) (inbox s) (assemblers s) (orphanFrames s) x (expected s)
    (received s) (sent s) (inboundWork s) (ingested s) (peerCompleted s) (remoteDeviceId
    s) (armed s) (drained s) (vaultId s) (phase s) (serving s) (control s) (bulk s)
    (events s).
Definition set_expected {B A} x (s : t B A) : t B A :=
  mk (engine s) (auth s) (inbox s) (assemblers s) (orphanFrames s) (ackWaiters s) x
    (received s) (sent s) (inboundWork s) (ingested s) (peerCompleted s) (remoteDeviceId
    s) (armed s) (drained s) (vaultId s) (phase s) (serving s) (control s) (bulk s)
    (events s).
Definition set_received {B A} x (s : t B A) : t B A :=
  mk (engine s) (auth s) (inbox s) (assemblers s) (orphanFrames s) (ackWaiters s)
    (expected s) x (sent s) (inboundWork s) (ingested s) (peerCompleted s)
    (remoteDeviceId s) (armed s) (drained s) (vaultId s) (phase s) (serving s) (control
    s) (bulk s) (events s).
Definition set_sent {B A} x (s : t B A) : t B A :=
  mk (engine s) (auth s) (inbox s) (assemblers s) (orphanFrames s) (ackWaiters s)
    (expected s) (received s) x (inboundWork s) (ingested s) (peerCompleted s)
    (remoteDeviceId s) (armed s) (drained s) (vaultId s) (phase s) (serving s) (control
    s) (bulk s) (events s).
Definition set_inboundWork {B A} x (s : t B A) : t B A :=
  mk (engine s) (auth s) (inbox s) (assemblers s) (orphanFrames s) (ackWaiters s)
    (expected s) (received s) (sent s) x (ingested s) (peerCompleted s) (remoteDeviceId
    s) (armed s) (drained s) (vaultId s) (phase s) (serving s) (control s) (bulk s)
    (events s).
Definition set_ingested {B A} x (s : t B A) : t B A :=
  mk (engine s) (auth s) (inbox s) (assemblers s) (orphanFrames s) (ackWaiters s)
    (expected s) (received s) (sent s) (inboundWork s) x (peerCompleted s)
    (remoteDeviceId s) (armed s) (drained s) (vaultId s) (phase s) (serving s) (control
    s) (bulk s) (events s).
Definition set_peerCompleted {B A} x (s : t B A) : t B A :=
  mk (engine s) (auth s) (inbox s) (assemblers s) (orphanFrames s) (ackWaiters s)
    (expected s) (received s) (sent s) (inboundWork s) (ingested s) x (remoteDeviceId s)
    (armed s) (drained s) (vaultId s) (phase s) (serving s) (control s) (bulk s) (events
    s).
Definition set_remoteDeviceId {B A} x (s : t B A) : t B A :=
  mk (engine s) (auth s) (inbox s) (assemblers s) (orphanFrames s) (ackWaiters s)
    (expected s) (received s) (sent s) (inboundWork s) (ingested s) (peerCompleted s) x
    (armed s) (drained s) (vaultId s) (phase s) (serving s) (control s) (bulk s) (events
    s).
Definition set_armed {B A} x (s : t B A) : t B A :=
  mk (engine s) (auth s) (inbox s) (assemblers s) (orphanFrames s) (ackWaiters s)
    (expected s) (received s) (sent s) (inboundWork s) (ingested s) (peerCompleted s)
    (remoteDeviceId s) x (drained s) (vaultId s) (phase s) (serving s) (control s) (bulk
    s) (events s).
Definition set_drained {B A} x (s : t B A) : t B A :=
  mk (engine s) (auth s) (inbox s) (assemblers s) (orphanFrames s) (ackWaiters s)
    (expected s) (received s) (sent s) (inboundWork s) (ingested s) (peerCompleted s)
    (remoteDeviceId s) (armed s) x (vaultId s) (phase s) (serving s) (control s) (bulk
    s) (events s).
Definition set_vaultId {B A} x (s : t B A) : t B A :=
  mk (engine s) (auth s) (inbox s) (assemblers s) (orphanFrames s) (ackWaiters s)
    (expected s) (received s) (sent s) (inboundWork s) (ingested s) (peerCompleted s)
    (remoteDeviceId s) (armed s) (drained s) x (phase s) (serving s) (control s) (bulk
    s) (events s).
Definition set_phase {B A} x (s : t B A) : t B A :=
  mk (engine s) (auth s) (inbox s) (assemblers s) (orphanFrames s) (ackWaiters s)
    (expected s) (received s) (sent s) (inboundWork s) (ingested s) (peerCompleted s)
    (remoteDeviceId s) (armed s) (drained s) (vaultId s) x (serving s) (control s) (bulk
    s) (events s).
Definition set_serving {B A} x (s : t B A) : t B A :=
  mk (engine s) (auth s) (inbox s) (assemblers s) (orphanFrames s) (ackWaiters s)
    (expected s) (received s) (sent s) (inboundWork s) (ingested s) (peerCompleted s)
    (remoteDeviceId s) (armed s) (drained s) (vaultId s) (phase s) x (control s) (bulk
    s) (events s).
Definition set_control {B A} x (s : t B A) : t B A :=
  mk (engine s) (auth s) (inbox s) (assemblers s) (orphanFrames s) (ackWaiters s)
    (expected s) (received s) (sent s) (inboundWork s) (ingested s) (peerCompleted s)
    (remoteDeviceId s) (armed s) (drained s) (vaultId s) (phase s) (serving s) x (bulk
    s) (events s).
Definition set_bulk {B A} x (s : t B A) : t B A :=
  mk (engine s) (auth s) (inbox s) (assemblers s) (orphanFrames s) (ackWaiters s)
    (expected s) (received s) (sent s) (inboundWork s) (ingested s) (peerCompleted s)
    (remoteDeviceId s) (armed s) (drained s) (vaultId s) (phase s) (serving s) (control
    s) x (events s).
Definition set_events {B A} x (s : t B A) : t B A :=
  mk (engine s) (auth s) (inbox s) (assemblers s) (orphanFrames s) (ackWaiters s)
    (expected s) (received s) (sent s) (inboundWork s) (ingested s) (peerCompleted s)
    (remoteDeviceId s) (armed s) (drained s) (vaultId s) (phase s) (serving s) (control
    s) (bulk s) x.

#[global, refine] Instance engine_part {B A} : Part (t B A) (EngineState.t B) :=
  { part := engine; with_part := set_engine }.
Proof. all: by intros; repeat match goal with s : t _ _ |- _ => destruct s end. Defined.

#[global, refine] Instance auth_part {B A} : Part (t B A) A :=
  { part := auth; with_part := set_auth }.
Proof. all: by intros; repeat match goal with s : t _ _ |- _ => destruct s end. Defined.
End Session.

Section session.
Context `{RowOrder} `{Sha256} {B : Type} `{!BlobStore B} {A : Type} `{!PeerAuthenticator A}.
Context (clock : nat → Date).
(** [deps.vaultId] and [options.chunkBytes]. *)
Context (deps_vaultId : option VaultId) (chunkBytes : Z).

Abbreviation S := (Session.t B A).
Abbreviation Run := (M (Session.t B A)).

(** ** Plumbing *)

Definition send (message : ProtocolMessage) : Run unit :=
  modify (λ s, Session.set_control (Session.control s ++ [message]) s).

Definition emit (event : SessionEvent) : Run unit :=
  modify (λ s, Session.set_events (Session.events s ++ [event]) s).

Definition goto (phase : Phase) : Run unit := modify (Session.set_phase phase).

Definition throw_session (code : SessionCode) (message : string) : Run unit :=
  goto (Failed (session_error (SessionError.mk code message))).

(** [this.notifyProgress?.()]. *)
Definition notifyProgress : Run unit := modify (λ s,
  if Session.armed s && (bool_decide (Session.expected s = []) || Session.peerCompleted s) then
    Session.set_drained true (Session.set_armed false s)
  else s).

Definition expected_delete (id : RevisionId) : Run unit :=
  modify (λ s, Session.set_expected (set_delete (Session.expected s) id) s).

Definition inbox_fail (code : SessionCode) (message : string) : Run unit :=
  modify (λ s, Session.set_inbox
    (ControlInbox.fail (SessionError.mk code message) (Session.inbox s)) s).

(** ** Inbound *)

Definition reject_revision (revisionId : RevisionId) (reason : string) : Run unit :=
  send (RevisionAck revisionId false (Some reason)) ≫= λ _,
  expected_delete revisionId ≫= λ _,
  emit (rejected_event revisionId reason) ≫= λ _,
  notifyProgress.

Definition queueIngest (header : InboundHeader.t) (bytes : Uint8Array) : Run unit :=
  modify (λ s, Session.set_inboundWork (Session.inboundWork s ++ [(header, bytes)]) s).

Definition onFrame (frame : ChunkFrame.t) : Run unit := λ s,
  let seq := ChunkFrame.transferSeq frame in
  match Session.assemblers s !! seq with
  | None =>
      if decide (length (Session.orphanFrames s) < MAX_ORPHAN_FRAMES)%nat then
        (Ok tt, Session.set_orphanFrames (Session.orphanFrames s ++ [frame]) s)
      else (Ok tt, s)
  | Some entry =>
      let '(accepted, assembler) := ChunkAssembler.accept (Transfer.assembler entry) frame in
      let remove := modify (λ s : S, Session.set_assemblers (delete seq (Session.assemblers s)) s) in
      if negb accepted then
        (remove ≫= λ _,
         reject_revision (InboundHeader.revisionId (Transfer.header entry))
           "chunk exceeded the declared size") s
      else if ChunkAssembler.isComplete assembler then
        (remove ≫= λ _,
         lift (ChunkAssembler.assemble assembler) ≫= λ bytes,
         queueIngest (Transfer.header entry) bytes) s
      else
        (Ok tt, Session.set_assemblers
                  (<[seq := Transfer.mk (Transfer.header entry) assembler]> (Session.assemblers s)) s)
  end.

(** The loop over the orphans, from the last to the first; [index] of them are
    still to be looked at. *)
Fixpoint drain_orphans (transferSeq : Z) (index : nat) : Run unit :=
  match index with
  | O => mret tt
  | Datatypes.S index =>
      gets Session.orphanFrames ≫= λ orphans,
      match orphans !! index with
      | Some frame =>
          if decide (ChunkFrame.transferSeq frame = transferSeq) then
            modify (Session.set_orphanFrames (delete index orphans)) ≫= λ _,
            onFrame frame ≫= λ _,
            drain_orphans transferSeq index
          else drain_orphans transferSeq index
      | None => drain_orphans transferSeq index
      end
  end.

Definition onHeader (header : InboundHeader.t) : Run unit :=
  let h := InboundHeader.header header in
  lift (ChunkAssembler.new (RevisionHeader.totalChunks h) (RevisionHeader.sizeBytes h))
    ≫= λ assembler,
  modify (λ s, Session.set_assemblers
    (<[RevisionHeader.transferSeq h := Transfer.mk header assembler]> (Session.assemblers s)) s)
    ≫= λ _,
  gets (λ s, length (Session.orphanFrames s)) ≫= λ n,
  drain_orphans (RevisionHeader.transferSeq h) n.

Definition ingest_input (header : InboundHeader.t) (bytes : Uint8Array) : Ingest.t :=
  let h := InboundHeader.header header in
  {| Ingest.vaultId := RevisionHeader.vaultId h; Ingest.revisionId := RevisionHeader.revisionId h;
     Ingest.declaredParentIds := RevisionHeader.parentIds h;
     Ingest.declaredHash := RevisionHeader.hash h; Ingest.bytes := bytes;
     Ingest.fromDeviceId := InboundHeader.fromDeviceId header;
     Ingest.message := RevisionHeader.message h |}.

(** The first queued ingest runs to its end, its [catch] included. *)
Definition ingest_next : Run unit := λ s,
  match Session.inboundWork s with
  | [] => (Ok tt, s)
  | (header, bytes) :: work =>
      let id := InboundHeader.revisionId header in
      let '(result, engine) := ingestReceivedRevision clock (ingest_input header bytes) (Session.engine s) in
      let s := Session.set_ingested (Datatypes.S (Session.ingested s))
        (Session.set_inboundWork work (Session.set_engine engine s)) in
      match result with
      | Ok (rejected reason) => reject_revision id reason s
      | Ok _ =>
          (send (RevisionAck id true None) ≫= λ _,
           expected_delete id ≫= λ _,
           modify (λ s, Session.set_received (Session.received s ++ [id]) s) ≫= λ _,
           emit (received_event id) ≫= λ _,
           notifyProgress) s
      | Err e => reject_revision id e s
      end
  end.

(** ** Handlers *)

Definition handle (message : ProtocolMessage) : Run unit :=
  match message with
  | RevisionHeaderMessage header =>
      gets Session.remoteDeviceId ≫= λ fromDeviceId,
      match fromDeviceId with
      | None =>
          inbox_fail (protocol_code malformed_message) "revision-header arrived before hello"
      | Some fromDeviceId => onHeader (InboundHeader.mk header fromDeviceId)
      end
  | RevisionAck revisionId accepted reason => modify (λ s,
      if decide (revisionId ∈ Session.ackWaiters s) then
        let s := Session.set_ackWaiters (Session.ackWaiters s ∖ {[revisionId]}) s in
        let 'Serving.mk todo seq current := Session.serving s in
        match current with
        | Some (Outgoing.mk id frames None) =>
            if decide (id = revisionId) then
              Session.set_serving
                (Serving.mk todo seq (Some (Outgoing.mk id frames (Some (accepted, reason))))) s
            else s
        | _ => s
        end
      else s)
  | SyncComplete _ => modify (Session.set_peerCompleted true) ≫= λ _, notifyProgress
  | TransferCancel transferSeq reason =>
      gets (λ s, Session.assemblers s !! transferSeq) ≫= λ entry,
      modify (λ s, Session.set_assemblers (delete transferSeq (Session.assemblers s)) s) ≫= λ _,
      match entry with
      | Some entry =>
          let id := InboundHeader.revisionId (Transfer.header entry) in
          expected_delete id ≫= λ _,
          emit (rejected_event id reason) ≫= λ _,
          notifyProgress
      | None => mret tt
      end
  | _ => mret tt
  end.

(** The types [attach] registers a handler for. *)
Definition handled_types : list string :=
  ["revision-header"; "revision-ack"; "sync-complete"; "transfer-cancel"].

Definition attach : Run unit := modify (λ s,
  Session.set_inbox (foldl (λ i type, (ControlInbox.on type i).1) (Session.inbox s) handled_types) s).

Definition on_control (raw : string) : Run unit := λ s,
  let '(inbox, message) := ControlInbox.accept raw (Session.inbox s) in
  let s := Session.set_inbox inbox s in
  match message with Some message => handle message s | None => (Ok tt, s) end.

Definition on_bulk (data : Uint8Array) : Run unit :=
  match decodeChunkFrame data with Some frame => onFrame frame | None => mret tt end.

Definition on_close : Run unit := inbox_fail closed "peer closed the control channel".

(** [inbox.expect(type)]: the index of its promise. *)
Definition expect (type : string) : Run nat := λ s,
  (Ok (length (ControlInbox.promises (Session.inbox s))),
   Session.set_inbox (ControlInbox.expect type (Session.inbox s)) s).

(** A call on the engine, or on the authenticator; what it throws, [run] throws. *)
Definition call {X} (m : Run X) (k : X → Run unit) : Run unit := λ s,
  match m s with
  | (Ok x, s) => k x s
  | (Err e, s) => goto (Failed (other_error e)) s
  end.

Definition engine_call {X} (m : M (EngineState.t B) X) : Run X := on (S := S) (T := EngineState.t B) m.
Definition auth_call {X} (m : M A X) : Run X := on (S := S) (T := A) m.
(** ** The main task *)

(** Start the handshake. *)
Definition run_start : Run unit :=
  attach ≫= λ _,
  modify (λ s, match deps_vaultId with Some id => Session.set_vaultId id s | None => s end) ≫= λ _,
  call (auth_call auth_newNonce) (λ ourNonce,
  send (Hello PROTOCOL_VERSION auth_deviceId auth_deviceName (toBase64 auth_publicKey)
          (toBase64 ourNonce)) ≫= λ _,
  expect "hello" ≫= λ promise,
  goto (AwaitHello ourNonce promise)).

Definition on_hello (ourNonce : Uint8Array) (message : ProtocolMessage) : Run unit :=
  match message with
  | Hello protocolVersion deviceId deviceName publicKey nonce =>
      if decide (protocolVersion ≠ PROTOCOL_VERSION) then
        send (ErrorMessage unsupported_version
          ("this device speaks protocol " +:+ pretty PROTOCOL_VERSION +:+ ", peer speaks "
             +:+ pretty protocolVersion)%string) ≫= λ _,
        throw_session (protocol_code unsupported_version)
          ("peer protocol version " +:+ pretty protocolVersion +:+ " is not supported")%string
      else
        match fromBase64 publicKey, fromBase64 nonce with
        | Ok peerPublicKey, Ok peerNonce =>
            send (Auth (toBase64 (auth_signChallenge peerNonce deviceId auth_deviceId))) ≫= λ _,
            expect "auth" ≫= λ promise,
            goto (AwaitAuth ourNonce deviceId deviceName peerPublicKey promise)
        | _, _ =>
            throw_session (protocol_code malformed_message)
              "hello carried an undecodable key or nonce"
        end
  | _ => mret tt
  end.

Definition on_auth (ourNonce : Uint8Array) (deviceId : DeviceId) (deviceName : string)
    (peerPublicKey : Uint8Array) (message : ProtocolMessage) : Run unit :=
  match message with
  | Auth signature =>
      match fromBase64 signature with
      | Ok signature =>
          goto (Verifying {| Claim.deviceId := deviceId; Claim.publicKey := peerPublicKey;
                             Claim.nonce := ourNonce; Claim.signature := signature;
                             Claim.claimedName := deviceName |})
      | Err _ =>
          throw_session (protocol_code malformed_message) "auth carried an undecodable signature"
      end
  | _ => mret tt
  end.

(** [exchangeVaultSummary] up to its await. *)
Definition send_vault_summary (remote : Remote.t) : Run unit :=
  call (match deps_vaultId with
        | None => mret None
        | Some vaultId => engine_call (engine_getVault vaultId)
        end) (λ local,
  match deps_vaultId, local with
  | Some _, None =>
      send (ErrorMessage unknown_vault "this device does not track that vault") ≫= λ _,
      throw_session (protocol_code unknown_vault) "local device does not track this vault"
  | _, Some local =>
      call (engine_call (revisionCount (Vault.id local))) (λ count,
      send (VaultSummary (Vault.id local) (Vault.name local) (Vault.headRevisionId local) count)
        ≫= λ _,
      expect "vault-summary" ≫= λ promise,
      goto (AwaitVaultSummary remote (Some local) promise))
  | None, None =>
      send (VaultSummary EMPTY_VAULT_ID "" None 0) ≫= λ _,
      expect "vault-summary" ≫= λ promise,
      goto (AwaitVaultSummary remote None promise)
  end).

(** The peer's proof is judged; only then anything about the vault is sent. *)
Definition on_verified (claim : Claim.t) : Run unit :=
  call (auth_call (auth_verifyPeer claim)) (λ outcome,
  match outcome with
  | reject reason =>
      send (ErrorMessage unauthorized reason) ≫= λ _,
      throw_session (protocol_code unauthorized) ("peer rejected: " +:+ reason)%string
  | accept deviceName =>
      let remote := Remote.mk (Claim.deviceId claim) deviceName in
      modify (Session.set_remoteDeviceId (Some (Claim.deviceId claim))) ≫= λ _,
      emit (handshake_event (Remote.id remote) (Remote.name remote)) ≫= λ _,
      emit (authenticated_event (Remote.id remote)) ≫= λ _,
      send_vault_summary remote
  end).

(** [exchangeHistory] up to its await. *)
Definition send_history (remote : Remote.t) (remoteHead : option RevisionId) : Run unit :=
  gets Session.vaultId ≫= λ vaultId,
  call (engine_call (historySummary vaultId)) (λ revisions,
  send (HistorySummary vaultId revisions) ≫= λ _,
  expect "history-summary" ≫= λ promise,
  goto (AwaitHistory remote remoteHead promise)).

Definition different_vaults (local remote : string) : string :=
  let quote := of_chars [fromCharCode 34] in
  "This device tracks " +:+ quote +:+ local +:+ quote +:+ " and the peer tracks " +:+ quote
    +:+ remote +:+ quote +:+ ", which are different vaults. "
    +:+ "A vault must be shared from one device and joined on the other, "
    +:+ "not imported separately on both.".

Definition on_vault_summary (remote : Remote.t) (local : option Vault.t) (message : ProtocolMessage)
    : Run unit :=
  match message with
  | VaultSummary vaultId vaultName headRevisionId _ =>
      let remoteHasVault := bool_decide (vaultId ≠ EMPTY_VAULT_ID) in
      match local with
      | None =>
          if negb remoteHasVault then
            throw_session (protocol_code unknown_vault) "neither device is tracking a vault yet"
          else
            call (engine_call (adoptVault clock vaultId vaultName)) (λ _,
            modify (Session.set_vaultId vaultId) ≫= λ _,
            emit (adopted_vault vaultId vaultName) ≫= λ _,
            send_history remote headRevisionId)
      | Some local =>
          if remoteHasVault && bool_decide (vaultId ≠ Vault.id local) then
            throw_session (protocol_code unknown_vault) (different_vaults (Vault.name local) vaultName)
          else
            modify (Session.set_vaultId (Vault.id local)) ≫= λ _,
            send_history remote headRevisionId
      end
  | _ => mret tt
  end.

Definition nodes_of (revisions : list HistorySummaryEntry.t) : list RevisionNode.t :=
  (λ entry, RevisionNode.mk (HistorySummaryEntry.revisionId entry)
              (HistorySummaryEntry.parentIds entry)) <$> revisions.

Definition computeWants (remoteGraph : RevisionGraph) (remoteHead : RevisionId)
    : Run (list RevisionId) :=
  gets Session.vaultId ≫= λ vaultId,
  engine_call (historySummary vaultId) ≫= λ revisions,
  let held := set_from (HistorySummaryEntry.revisionId <$> revisions) in
  lift (missingRevisions remoteGraph remoteHead (λ id, bool_decide (id ∈ held))).

Definition on_history (remote : Remote.t) (remoteHead : option RevisionId)
    (message : ProtocolMessage) : Run unit :=
  match message with
  | HistorySummary _ revisions =>
      call (lift (validateRemoteGraph (nodes_of revisions))) (λ _,
      let remoteGraph := buildGraph (nodes_of revisions) in
      call (match remoteHead with
            | None => mret []
            | Some head => computeWants remoteGraph head
            end) (λ wanted,
      modify (λ s, Session.set_expected (foldl set_add (Session.expected s) wanted) s) ≫= λ _,
      emit (requested wanted) ≫= λ _,
      gets Session.vaultId ≫= λ vaultId,
      send (WantRevisions vaultId wanted) ≫= λ _,
      expect "want-revisions" ≫= λ promise,
      goto (AwaitWants remote remoteHead remoteGraph promise)))
  | _ => mret tt
  end.

(** [drainInbound] starts, and [serve]. *)
Definition on_wants (remote : Remote.t) (remoteHead : option RevisionId)
    (remoteGraph : RevisionGraph) (message : ProtocolMessage) : Run unit :=
  match message with
  | WantRevisions _ revisionIds =>
      modify (Session.set_serving (Serving.mk revisionIds 0 None)) ≫= λ _,
      modify (λ s, if decide (Session.expected s = []) then Session.set_drained true s
                   else Session.set_armed true s) ≫= λ _,
      goto (Exchanging remote remoteHead remoteGraph)
  | _ => mret tt
  end.

Definition served (s : S) : bool :=
  match Session.serving s with Serving.mk [] _ None => true | _ => false end.

Definition classify (remoteGraph : RevisionGraph) (remoteHead : option RevisionId)
    : Run Divergence :=
  gets Session.vaultId ≫= λ vaultId,
  engine_call (engine_getVault vaultId) ≫= λ vault,
  match vault ≫= Vault.headRevisionId, remoteHead with
  | None, None => mret equal
  | None, Some _ => mret remote_ahead
  | Some _, None => mret local_ahead
  | Some localHead, Some remoteHead =>
      engine_call (historySummary vaultId) ≫= λ revisions,
      mret (classifyDivergence (unionGraphs (buildGraph (nodes_of revisions)) remoteGraph)
              localHead remoteHead)
  end.

Definition finish (remote : Remote.t) (remoteHead : option RevisionId)
    (remoteGraph : RevisionGraph) : Run unit :=
  gets Session.vaultId ≫= λ vaultId,
  call (match remoteHead with
        | None => mret tt
        | Some head =>
            engine_call (engine_recordPeerHead clock (Remote.id remote) vaultId head)
        end) (λ _,
  gets id ≫= λ s,
  call (classify remoteGraph remoteHead) (λ divergence,
  goto (Done {| SessionResult.vaultId := vaultId; SessionResult.remoteDevice := remote;
                SessionResult.received := Session.received s; SessionResult.sent := Session.sent s;
                SessionResult.missing := Session.expected s;
                SessionResult.divergence := divergence;
                SessionResult.remoteHead := remoteHead |}))).

(** An await of an inbox promise. *)
Definition awaiting (promise : nat) (k : ProtocolMessage → Run unit) : Run unit := λ s,
  match ControlInbox.promises (Session.inbox s) !! promise with
  | Some (Promise.mk _ (resolved message)) => k message s
  | Some (Promise.mk _ (failed_with error)) => goto (Failed (session_error error)) s
  | _ => (Ok tt, s)
  end.

(** The main task goes on, if what it awaits is there. *)
Definition resume : Run unit := λ s,
  match Session.phase s with
  | NotStarted => run_start s
  | AwaitHello ourNonce promise => awaiting promise (on_hello ourNonce) s
  | AwaitAuth ourNonce deviceId deviceName key promise =>
      awaiting promise (on_auth ourNonce deviceId deviceName key) s
  | Verifying claim => on_verified claim s
  | AwaitVaultSummary remote local promise => awaiting promise (on_vault_summary remote local) s
  | AwaitHistory remote head promise => awaiting promise (on_history remote head) s
  | AwaitWants remote head graph promise => awaiting promise (on_wants remote head graph) s
  | Exchanging remote head graph =>
      if served s && Session.drained s then
        (send (SyncComplete (Session.vaultId s)) ≫= λ _,
         goto (AwaitPeerComplete remote head graph)) s
      else (Ok tt, s)
  | AwaitPeerComplete remote head graph =>
      if Session.peerCompleted s then
        goto (AwaitInboundWork remote head graph
                (Session.ingested s + length (Session.inboundWork s))) s
      else (Ok tt, s)
  | AwaitInboundWork remote head graph until =>
      if (until <=? Session.ingested s)%nat then finish remote head graph s else (Ok tt, s)
  | Done _ | Failed _ => (Ok tt, s)
  end.

(** ** Serving *)

Definition set_current (current : option Outgoing.t) : Run unit := modify (λ s,
  Session.set_serving
    (Serving.mk (Serving.todo (Session.serving s)) (Serving.transferSeq (Session.serving s)) current) s).

Definition header_of (transferSeq totalChunks : Z) (r : Revision.t) : RevisionHeader.t :=
  {| RevisionHeader.transferSeq := transferSeq; RevisionHeader.vaultId := Revision.vaultId r;
     RevisionHeader.revisionId := Revision.id r; RevisionHeader.hash := Revision.hash r;
     RevisionHeader.sizeBytes := Revision.sizeBytes r;
     RevisionHeader.parentIds := Revision.parentIds r; RevisionHeader.totalChunks := totalChunks;
     RevisionHeader.message := Revision.message r |}.

(** The next revision the peer asked for: its header, and its frames made ready. *)
Definition serve_revision (revisionId : RevisionId) (todo : list RevisionId) (seq : Z) : Run unit :=
  call (engine_call (engine_getRevision revisionId)) (λ revision,
  match revision with
  | None => modify (Session.set_serving (Serving.mk todo seq None))
  | Some revision =>
      let seq := seq + 1 in
      call (engine_call (bytesOf revisionId)) (λ bytes,
      call (lift (chunkCountFor (byteLength bytes) chunkBytes)) (λ totalChunks,
      send (RevisionHeaderMessage (header_of seq totalChunks revision)) ≫= λ _,
      emit (sending revisionId totalChunks) ≫= λ _,
      modify (λ s, Session.set_ackWaiters ({[revisionId]} ∪ Session.ackWaiters s) s) ≫= λ _,
      modify (Session.set_serving (Serving.mk todo seq (Some (Outgoing.mk revisionId
        (chunk_frame seq chunkBytes bytes <$> seqZ 0 totalChunks) None))))))
  end).

(** [serve] goes on: the next revision, the next chunk, or the peer's answer. *)
Definition serve_step : Run unit := λ s,
  match Session.phase s, Session.serving s with
  | Exchanging _ _ _, Serving.mk (revisionId :: todo) seq None => serve_revision revisionId todo seq s
  | Exchanging _ _ _, Serving.mk _ _ (Some (Outgoing.mk id (frame :: frames) outcome)) =>
      (call (lift (encodeChunkFrame frame)) (λ _,
       modify (λ s, Session.set_bulk (Session.bulk s ++ [frame]) s) ≫= λ _,
       set_current (Some (Outgoing.mk id frames outcome)))) s
  | Exchanging _ _ _, Serving.mk _ _ (Some (Outgoing.mk id [] (Some (ok, reason)))) =>
      ((if (ok : bool) then
          modify (λ s, Session.set_sent (Session.sent s ++ [id]) s) ≫= λ _, emit (sent_event id)
        else emit (rejected_event id (default "peer rejected" reason))) ≫= λ _,
       set_current None) s
  | _, _ => (Ok tt, s)
  end.

(** ** Events *)

Inductive Event : Type :=
  | ControlMessage (raw : string)
  | BulkMessage (data : Uint8Array)
  | ControlClosed
  | ExpectTimer (promise : nat)
  | CompleteTimer
  | MainResumes
  | ServeResumes
  | IngestRuns.

Definition on_event (event : Event) : Run unit :=
  match event with
  | ControlMessage raw => on_control raw
  | BulkMessage data => on_bulk data
  | ControlClosed => on_close
  | ExpectTimer promise => modify (λ s,
      Session.set_inbox (ControlInbox.time_out promise (Session.inbox s)) s)
  | CompleteTimer => λ s,
      match Session.phase s with
      | AwaitPeerComplete _ _ _ =>
          if Session.peerCompleted s then (Ok tt, s)
          else throw_session timeout "timed out waiting for sync-complete from peer" s
      | _ => (Ok tt, s)
      end
  | MainResumes => resume
  | ServeResumes => serve_step
  | IngestRuns => ingest_next
  end.

(** What a session leaves after some events; an error that escaped a handler
    ends its event and nothing else. *)
Definition run_events (events : list Event) (s : S) : S :=
  foldl (λ s event, (on_event event s).2) s events.
End session.

(** A session before it started. *)
Definition new_session {B A} (engine : EngineState.t B) (auth : A) : Session.t B A :=
  Session.mk engine auth ControlInbox.new ∅ [] ∅ [] [] [] [] 0 false None false false ""
    NotStarted (Serving.mk [] 0 None) [] [] [].

(** ** createAuthenticator (packages/identity/src/authenticator.ts) *)

(** The trust store, and how many nonces were drawn. *)
Module Authenticator.
Record t (S : Type) : Type := mk {
  store : S;
  drawn : nat;
}.
Arguments mk {_} _ _.
Arguments store {_} _.
Arguments drawn {_} _.

Definition set_store {S} x (a : t S) : t S := mk x (drawn a).

#[global, refine] Instance store_part {S} : Part (t S) S := { part := store; with_part := set_store }.
Proof. all: by intros; repeat match goal with a : t _ |- _ => destruct a end. Defined.
End Authenticator.

Section authenticator.
Context `{Digest, Ed25519} {S : Type} `{!TrustStore S}.
Context (keyPair : DeviceKeyPair.t) (deviceName : string) (pairingMode : bool).
Context (confirmPairing : option (DeviceId → Uint8Array → string → bool)) (now : Date).
(** What [randomNonce] draws. *)
Context (randomNonce : nat → Uint8Array).

Definition newNonce : M (Authenticator.t S) Uint8Array := λ a,
  (Ok (randomNonce (Authenticator.drawn a)),
   Authenticator.mk (Authenticator.store a) (Datatypes.S (Authenticator.drawn a))).

Definition createAuthenticator : PeerAuthenticator (Authenticator.t S) := {|
  auth_deviceId := DeviceKeyPair.deviceId keyPair;
  auth_deviceName := deviceName;
  auth_publicKey := DeviceKeyPair.publicKey keyPair;
  auth_newNonce := newNonce;
  auth_signChallenge := signChallenge keyPair;
  auth_verifyPeer claim := on (S := Authenticator.t S) (T := S)
    (verifyPeer keyPair pairingMode confirmPairing now claim);
|}.
End authenticator.
