(* ===== verification/SessionTheory.v ===== *)
(** * A sync session: what its steps keep

    What a session may do to the engine, the interface of an invariant of a
    session ([SessionInvariant]), and that every handler and every step of the
    tasks keeps an invariant with that interface. *)

From S2P Require Import Prelude Model Bytes JsString Dag Framing Lineage Json Protocol Codec Effects.
From S2P Require Import Store StoreTheory StoreProps BlobStore Engine EngineTheory EngineSteps.
From S2P Require Import Inbox Identity Session.

Open Scope Z_scope.

(** ** What a session may do to the engine *)

Section extends.
Context `{RowOrder} `{Sha256} {B : Type} `{!BlobStore B}.
Implicit Types e : EngineState.t B.

(** Every vault is as it was, new ones have no head, no head event was written,
    and stored revisions stay as they are. *)
Record extends e e' : Prop := Extends {
  ext_vaults : ∀ k v, Db.vaults (db e) !! k = Some v → Db.vaults (db e') !! k = Some v;
  ext_new : ∀ k v, Db.vaults (db e) !! k = None → Db.vaults (db e') !! k = Some v →
    Vault.headRevisionId v = None;
  ext_events : Db.head_events (db e') = Db.head_events (db e);
  ext_revisions : ∀ i row, Db.revisions (db e) !! i = Some row → Db.revisions (db e') !! i = Some row;
}.

#[global] Instance extends_refl : Reflexive extends.
Proof. intros e. split; try done. congruence. Qed.

#[global] Instance extends_trans : Transitive extends.
Proof.
  intros a b c [H1 H2 H3 H4] [H1' H2' H3' H4']. split.
  - eauto.
  - intros k v Ha Hc. destruct (Db.vaults (db b) !! k) as [w|] eqn:Hb; [|by eapply H2'].
    pose proof (H1' _ _ Hb). simplify_eq. by eapply H2.
  - congruence.
  - eauto.
Qed.

Lemma extends_stored e e' i : extends e e' → StoreTheory.stored (db e) i → StoreTheory.stored (db e') i.
Proof. intros Hext [row Hrow]. exists row. by apply (ext_revisions _ _ Hext). Qed.

Lemma extends_same_db e e' : db e' = db e → extends e e'.
Proof. intros Heq. split; rewrite Heq; try done. congruence. Qed.

Lemma extends_with_revision r e e' : db e' = with_revision r (db e) → extends e e'.
Proof.
  intros Heq. split; rewrite Heq, ?with_revision_vaults; try done; [congruence| |].
  - unfold with_revision. destruct (db e). simpl. by case_match.
  - intros i row Hi. by rewrite with_revision_lookup, Hi.
Qed.

Lemma ingest_extends (clock : nat → Date) input e :
  extends e (ingestReceivedRevision (B := B) clock input e).2.
Proof.
  destruct (decide (is_Some (Db.revisions (db e) !! Ingest.revisionId input))) as [Hst|Hst].
  { by rewrite ingest_present. }
  destruct (decide (sha256 (Ingest.bytes input) = Ingest.declaredHash input)) as [Hh|Hh].
  2:{ by destruct (ingest_rejected clock input e Hst (or_introl Hh)) as [reason ->]. }
  destruct (missing_parent (db e) (Ingest.declaredParentIds input)) as [q|] eqn:Hm.
  { apply missing_parent_Some in Hm as [Hq Hns].
    by destruct (ingest_rejected clock input e Hst (or_intror (ex_intro _ q (conj Hq Hns))))
      as [reason ->]. }
  rewrite ingest_absent by (done || by apply missing_parent_None).
  destruct (blob_put _ _).1; [|by apply extends_same_db]. cbv zeta.
  destruct (Db.vaults (db e) !! _); [|by apply extends_same_db].
  simpl. eapply extends_with_revision, db_set_db.
Qed.

(** A revision that an ingest stored, or found, is stored afterwards. *)
Lemma ingest_accepted (clock : nat → Date) input e result e' :
  ingestReceivedRevision (B := B) clock input e = (Ok result, e') →
  match result with rejected _ => True | _ => StoreTheory.stored (db e') (Ingest.revisionId input) end.
Proof.
  destruct (decide (is_Some (Db.revisions (db e) !! Ingest.revisionId input))) as [Hst|Hst].
  { rewrite ingest_present by done. by intros [= <- <-]. }
  destruct (decide (sha256 (Ingest.bytes input) = Ingest.declaredHash input)) as [Hh|Hh].
  2:{ destruct (ingest_rejected clock input e Hst (or_introl Hh)) as [reason ->]. by intros [= <- <-]. }
  destruct (missing_parent (db e) (Ingest.declaredParentIds input)) as [q|] eqn:Hm.
  { apply missing_parent_Some in Hm as [Hq Hns].
    destruct (ingest_rejected clock input e Hst (or_intror (ex_intro _ q (conj Hq Hns))))
      as [reason ->]. by intros [= <- <-]. }
  rewrite ingest_absent by (done || by apply missing_parent_None).
  destruct (blob_put _ _).1; [|done]. cbv zeta.
  destruct (Db.vaults (db e) !! _); [|done]. intros [= <- <-]. rewrite db_set_db.
  unfold StoreTheory.stored. rewrite with_revision_lookup. destruct (Db.revisions (db e) !! _); [by eexists|].
  rewrite decide_True by done. by eexists.
Qed.

Lemma adopt_extends (clock : nat → Date) k name e :
  extends e (adoptVault (B := B) clock k name e).2.
Proof.
  unfold adoptVault, getVault. erewrite bind_eq by apply metadata_gets.
  destruct (Db.vaults (db e) !! k) as [v|] eqn:Hk; [done|].
  unfold Engine.now. rewrite (bind_eq _ _ _ _ _ (tick_run _ _)). cbv zeta.
  erewrite bind_eq by (rewrite metadata_run, saveVault_run; reflexivity). simpl.
  split; rewrite ?db_set_db.
  - intros j w Hj. rewrite saved_vault_lookup. case_decide; [|done].
    simpl in *. subst. change (db (next_tick e)) with (db e) in *. congruence.
  - intros j w Hj. rewrite saved_vault_lookup. case_decide; simpl in *.
    + subst. change (db (next_tick e)) with (db e). rewrite Hk. by intros [= <-].
    + change (db (next_tick e)) with (db e). congruence.
  - change (db (next_tick e)) with (db e). by destruct (db e).
  - intros i row. by rewrite saved_vault_revisions.
Qed.

Lemma peer_head_extends (clock : nat → Date) peer k head e :
  extends e (engine_recordPeerHead (B := B) clock peer k head e).2.
Proof.
  unfold engine_recordPeerHead, Engine.now. rewrite (bind_eq _ _ _ _ _ (tick_run _ _)).
  rewrite metadata_run. change (db (next_tick e)) with (db e). simpl.
  set (d := (recordPeerHead _ _ _ _ _).2).
  assert (Db.vaults d = Db.vaults (db e) ∧ Db.revisions d = Db.revisions (db e) ∧
    Db.head_events d = Db.head_events (db e)) as (Hv&Hr&He).
  { subst d. unfold recordPeerHead, foreign_key, modify, mbind, M_bind.
    destruct (db e); simpl. by destruct (_ !! k). }
  split; rewrite db_set_db, ?Hv, ?Hr, ?He; try done. congruence.
Qed.
End extends.

(** ** Properties every call keeps *)

Section keeps.
Context {St : Type} (P : St → Prop).

Definition keeps {X} (m : M St X) : Prop := ∀ s, P s → P (m s).2.

Lemma keeps_bind {X Y} (m : M St X) (k : X → M St Y) :
  keeps m → (∀ x, keeps (k x)) → keeps (m ≫= k).
Proof.
  intros Hm Hk s Hs. unfold mbind, M_bind. specialize (Hm s Hs).
  destruct (m s) as [[x|e] s1]; simpl in *; [by apply Hk|done].
Qed.

Lemma keeps_reads {X} (m : M St X) : reads m → keeps m.
Proof. intros Hm s Hs. by rewrite Hm. Qed.

Lemma keeps_modify f : (∀ s, P s → P (f s)) → keeps (modify f).
Proof. intros Hf s Hs. by apply Hf. Qed.
End keeps.


(** ** Invariants of a session *)

Inductive early : Phase → Prop :=
  | early_start : early NotStarted
  | early_hello nonce promise : early (AwaitHello nonce promise)
  | early_auth nonce id name key promise : early (AwaitAuth nonce id name key promise)
  | early_verifying claim : early (Verifying claim).

(** The two good reports on a revision. *)
Definition good_ack (m : ProtocolMessage) : Prop := ∃ id, m = RevisionAck id true None.

Section frame.
Context {B A : Type}.
Implicit Types s : Session.t B A.

(** Only the parts that no invariant speaks of changed, and the phase perhaps
    to an allowed one. *)
Record frame (allowed : Phase → Prop) s s' : Prop := Frame {
  frame_engine : Session.engine s' = Session.engine s;
  frame_received : Session.received s' = Session.received s;
  frame_control : Session.control s' = Session.control s;
  frame_remote : Session.remoteDeviceId s' = Session.remoteDeviceId s;
  frame_phase : Session.phase s' = Session.phase s ∨ allowed (Session.phase s');
}.
End frame.

(** What a call of a session did to the engine. *)
Definition engine_step `{RowOrder} `{Sha256} {B : Type} `{!BlobStore B} (e e' : EngineState.t B) : Prop :=
  extends e e' ∧ (engine_ok e → engine_ok e').

(** An invariant of a session, and the phases the tasks may go to under it. *)
Class SessionInvariant `{RowOrder} `{Sha256} {B : Type} `{!BlobStore B} {A : Type}
    (P : Session.t B A → Prop) (allowed : Phase → Prop) : Prop := {
  inv_late ph : ¬ early ph → allowed ph;
  inv_frame s s' : P s → frame allowed s s' → P s';
  inv_send m s : P s → ¬ good_ack m → P (Session.set_control (Session.control s ++ [m]) s);
  inv_engine e s : P s → engine_step (Session.engine s) e → P (Session.set_engine e s);
  inv_ack id s : P s → StoreTheory.stored (db (Session.engine s)) id →
    P (Session.set_control (Session.control s ++ [RevisionAck id true None]) s);
  inv_received id s : P s → StoreTheory.stored (db (Session.engine s)) id →
    P (Session.set_received (Session.received s ++ [id]) s);
}.

Section session.
Context `{RowOrder} `{Sha256} {B : Type} `{!BlobStore B} {A : Type} `{!PeerAuthenticator A}.
Context (clock : nat → Date) (deps_vaultId : option VaultId) (chunkBytes : Z).
Context (P : Session.t B A → Prop) (allowed : Phase → Prop) `{!SessionInvariant P allowed}.
Abbreviation S := (Session.t B A).
Abbreviation Run := (M (Session.t B A)).
Abbreviation kept := (keeps P).
Implicit Types s : S.

(** ** The plumbing *)

Lemma kept_apply {X} (m : Run X) s : kept m → P s → P (m s).2.
Proof. auto. Qed.

Lemma kept_frame f : (∀ s, frame allowed s (f s)) → kept (modify f).
Proof. intros Hf s Hs. by eapply inv_frame. Qed.

Lemma kept_goto ph : allowed ph → kept (goto ph).
Proof. intros Hph s Hs. eapply inv_frame; [done|]. split; try done. by right. Qed.

Lemma kept_late ph : ¬ early ph → kept (goto ph).
Proof. intros Hph. eapply kept_goto, inv_late, Hph. Qed.

Lemma kept_send m : ¬ good_ack m → kept (send m).
Proof. intros Hm s Hs. by eapply inv_send. Qed.

Lemma kept_emit ev : kept (emit ev).
Proof. apply kept_frame. split; auto. Qed.

Lemma kept_throw_session c m : kept (throw_session c m).
Proof. apply kept_late. by inversion 1. Qed.

Lemma kept_notify : kept notifyProgress.
Proof. apply kept_frame. intros s. case_match; split; auto. Qed.

Lemma kept_expect type : kept (expect type).
Proof. intros s Hs. eapply inv_frame; [done|]. split; auto. Qed.

Lemma kept_call {X} (m : Run X) k : kept m → (∀ x, kept (k x)) → kept (call m k).
Proof.
  intros Hm Hk s Hs. unfold call. specialize (Hm s Hs).
  destruct (m s) as [[x|e] s1]; simpl in *; [by apply Hk|].
  apply kept_late; [by inversion 1|done].
Qed.

Lemma kept_engine {X} (m : M (EngineState.t B) X) :
  (∀ e, engine_step e (m e).2) → kept (engine_call m).
Proof.
  intros Hm s Hs. unfold engine_call, on. simpl. specialize (Hm (Session.engine s)).
  destruct (m (Session.engine s)) as [r e]; simpl in *. by eapply inv_engine.
Qed.

Lemma kept_engine_reads {X} (m : M (EngineState.t B) X) : reads m → kept (engine_call m).
Proof. intros Hm. apply kept_engine. intros e. by rewrite Hm. Qed.

Lemma kept_auth {X} (m : M A X) : kept (auth_call m).
Proof.
  intros s Hs. unfold auth_call, on. simpl. destruct (m (Session.auth s)) as [r a]. simpl.
  eapply inv_frame; [done|]. split; auto.
Qed.

Lemma reads_getVault k : reads (engine_getVault (B := B) k).
Proof. unfold engine_getVault, getVault. auto using reads_metadata, reads_gets. Qed.

Lemma reads_getRevision i : reads (engine_getRevision (B := B) i).
Proof.
  unfold engine_getRevision, getRevision, parentsOf. apply reads_metadata, reads_bind; [apply reads_gets|].
  intros [row|]; auto with passvault.
Qed.

Lemma reads_historySummary k : reads (historySummary (B := B) k).
Proof. unfold historySummary. auto using reads_metadata, reads_listRevisions with passvault. Qed.

Lemma reads_revisionCount k : reads (revisionCount (B := B) k).
Proof. unfold revisionCount. auto using reads_metadata, reads_listRevisions with passvault. Qed.

Lemma kept_adopt k name : kept (engine_call (adoptVault clock k name)).
Proof. apply kept_engine. intros e. split; auto using ok_adopt, adopt_extends. Qed.

Lemma kept_peer_head peer k head : kept (engine_call (engine_recordPeerHead clock peer k head)).
Proof. apply kept_engine. intros e. split; auto using ok_peer_head, peer_head_extends. Qed.

#[local] Hint Resolve kept_emit kept_throw_session kept_notify kept_expect kept_auth kept_adopt
  kept_peer_head : passvault.
#[local] Hint Extern 5 (keeps _ (mret _)) => by apply keeps_reads, reads_ret : passvault.
#[local] Hint Extern 5 (keeps _ (lift _)) => by apply keeps_reads, reads_lift : passvault.
#[local] Hint Extern 5 (keeps _ (gets _)) => by apply keeps_reads, reads_gets : passvault.
#[local] Hint Extern 5 (keeps _ (send _)) => by apply kept_send; intros [??] : passvault.
#[local] Hint Extern 5 (keeps _ (goto _)) => by apply kept_late; inversion 1 : passvault.
#[local] Hint Extern 6 (keeps _ (modify _)) =>
  by apply kept_frame; intros ?; repeat case_match; split; auto : passvault.
#[local] Hint Extern 4 (keeps _ (engine_call _)) =>
  apply kept_engine_reads; first [apply reads_getVault|apply reads_getRevision
    |apply reads_historySummary|apply reads_revisionCount|apply reads_bytesOf] : passvault.

(** Take a call apart down to the plumbing. *)
Ltac keep :=
  repeat first
    [ match goal with |- ∀ _, _ => intro end
    | solve [auto with passvault nocore]
    | apply keeps_bind
    | apply kept_call
    | match goal with |- keeps _ (match ?x with _ => _ end) => destruct x end
    | progress cbv zeta ].

(** ** Messages *)

Lemma kept_reject_revision id reason : kept (reject_revision id reason).
Proof. unfold reject_revision, expected_delete. keep. Qed.
#[local] Hint Resolve kept_reject_revision : passvault.

Lemma kept_onFrame fr : kept (onFrame fr).
Proof.
  intros s Hs. unfold onFrame. cbv zeta. destruct (_ !! _) as [entry|].
  2:{ case_decide; [|done]. eapply inv_frame; [done|]. split; auto. }
  destruct (ChunkAssembler.accept _ _) as [[] assembler]; cbn [negb]; [case_match|].
  - apply kept_apply; [|done]. unfold queueIngest. keep.
  - eapply inv_frame; [done|]. split; auto.
  - apply kept_apply; [|done]. keep.
Qed.

Lemma kept_drain_orphans seq n : kept (drain_orphans seq n).
Proof.
  induction n as [|n IH]; simpl; [keep|]. apply keeps_bind; [by apply keeps_reads, reads_gets|].
  intros orphans. destruct (orphans !! n) as [fr|]; [|done]. case_decide; [|done].
  apply keeps_bind; [auto with passvault|]. intros _. apply keeps_bind; [apply kept_onFrame|done].
Qed.
#[local] Hint Resolve kept_drain_orphans : passvault.

Lemma kept_onHeader header : kept (onHeader header).
Proof. unfold onHeader. keep. Qed.
#[local] Hint Resolve kept_onHeader : passvault.

Lemma kept_handle message : kept (handle message).
Proof. unfold handle, inbox_fail, expected_delete. destruct message; keep. Qed.

Lemma kept_on_control raw : kept (on_control raw).
Proof.
  intros s Hs. unfold on_control. destruct (ControlInbox.accept _ _) as [inbox message].
  assert (P (Session.set_inbox inbox s)) by by eapply inv_frame; [done|]; split; auto.
  destruct message; [by apply kept_handle|done].
Qed.

Lemma kept_on_bulk data : kept (on_bulk data).
Proof. unfold on_bulk. destruct (decodeChunkFrame data); [apply kept_onFrame|keep]. Qed.

Lemma kept_on_close : kept on_close.
Proof. unfold on_close, inbox_fail. keep. Qed.

(** A good acknowledgement follows a stored revision. *)
Lemma kept_accepted id s :
  P s → StoreTheory.stored (db (Session.engine s)) id →
  P ((send (RevisionAck id true None) ≫= λ _,
      expected_delete id ≫= λ _,
      modify (λ s, Session.set_received (Session.received s ++ [id]) s) ≫= λ _,
      emit (received_event id) ≫= λ _,
      notifyProgress) s).2.
Proof.
  intros Hs Hst. unfold mbind, M_bind, send, expected_delete, emit, modify.
  pose proof (inv_ack (P := P) id _ Hs Hst) as Hs1.
  pose proof (inv_received (P := P) id _ Hs1 Hst) as Hs2.
  apply kept_notify. eapply (inv_frame (P := P)); [exact Hs2|]. by split; [..|left].
Qed.

(** The ingest reports what it stored. *)
Lemma kept_ingest_next : kept (ingest_next clock).
Proof.
  intros s Hs. unfold ingest_next. destruct (Session.inboundWork s) as [|[header bytes] work]; [done|].
  pose proof (ingest_extends clock (ingest_input header bytes) (Session.engine s)) as Hext.
  pose proof (ok_ingest clock (ingest_input header bytes) (Session.engine s)) as Hok.
  destruct (ingestReceivedRevision _ _ _) as [r e] eqn:Hi. cbv zeta. simpl in Hext, Hok.
  assert (P (Session.set_ingested (Datatypes.S (Session.ingested s))
    (Session.set_inboundWork work (Session.set_engine e s)))) as Hs1.
  { eapply inv_frame; [apply inv_engine; [exact Hs|by split]|]. split; auto. }
  destruct r as [result|err]; [|by apply kept_reject_revision].
  apply ingest_accepted in Hi.
  destruct result; [by apply kept_accepted..|by apply kept_reject_revision].
Qed.

(** ** The main task, once the peer proved itself *)

Lemma kept_send_vault_summary remote : kept (send_vault_summary deps_vaultId remote).
Proof. unfold send_vault_summary. keep. Qed.

Lemma kept_send_history remote head : kept (send_history remote head).
Proof. unfold send_history. keep. Qed.
#[local] Hint Resolve kept_send_history : passvault.

Lemma kept_on_vault_summary remote local message :
  kept (on_vault_summary clock remote local message).
Proof. unfold on_vault_summary. keep. Qed.

Lemma kept_computeWants graph head : kept (computeWants graph head).
Proof. unfold computeWants. keep. Qed.
#[local] Hint Resolve kept_computeWants : passvault.

Lemma kept_on_history remote head message : kept (on_history remote head message).
Proof. unfold on_history. keep. Qed.

Lemma kept_on_wants remote head graph message : kept (on_wants remote head graph message).
Proof. unfold on_wants. keep. Qed.

Lemma kept_classify graph head : kept (classify graph head).
Proof. unfold classify. keep. Qed.
#[local] Hint Resolve kept_classify : passvault.

Lemma kept_finish remote head graph : kept (finish clock remote head graph).
Proof. unfold finish. keep. Qed.

Lemma kept_awaiting promise k : (∀ message, kept (k message)) → kept (awaiting promise k).
Proof.
  intros Hk s Hs. unfold awaiting. destruct (_ !! promise) as [[ty []]|]; try done.
  - by apply Hk.
  - apply kept_late; [by inversion 1|done].
Qed.

Lemma kept_resume_late s : ¬ early (Session.phase s) → P s → P (resume clock deps_vaultId s).2.
Proof.
  intros Hph Hs. unfold resume.
  destruct (Session.phase s); try done; try (by destruct Hph; constructor).
  - apply kept_awaiting; [|done]. intros. apply kept_on_vault_summary.
  - apply kept_awaiting; [|done]. intros. apply kept_on_history.
  - apply kept_awaiting; [|done]. intros. apply kept_on_wants.
  - case_match; [|done]. apply kept_apply; [|done]. keep.
  - case_match; [|done]. by apply kept_late; [inversion 1|].
  - case_match; [|done]. by apply kept_finish.
Qed.

Lemma kept_serve_step : kept (serve_step chunkBytes).
Proof.
  intros s Hs. unfold serve_step, serve_revision, set_current.
  repeat case_match; try done; (apply kept_apply; [|done]); keep.
Qed.

(** Every event but one that wakes the main task. *)
Lemma kept_on_event event :
  (event = MainResumes → kept (resume clock deps_vaultId)) →
  kept (on_event clock deps_vaultId chunkBytes event).
Proof.
  intros Hresume. destruct event; simpl;
    auto using kept_on_control, kept_on_bulk, kept_on_close, kept_serve_step, kept_ingest_next
      with passvault.
  intros s Hs. repeat case_match; try done; by apply kept_throw_session.
Qed.

(** ** The main task before that, if every phase is allowed *)

Lemma kept_resume : (∀ ph, allowed ph) → (∀ id, kept (modify (Session.set_remoteDeviceId id))) →
  kept (resume clock deps_vaultId).
Proof.
  intros Hall Hremote s Hs.
  assert (∀ ph, kept (goto ph)) as Hgoto by auto using kept_goto.
  assert (∀ name, kept (emit name)) by auto using kept_emit.
  pose proof kept_send_vault_summary. destruct (Session.phase s) eqn:Hph;
    try (by apply kept_resume_late; [rewrite Hph; inversion 1|]); unfold resume; rewrite Hph.
  - apply kept_apply; [|done]. unfold run_start, attach. keep.
  - apply kept_awaiting; [|done]. unfold on_hello. keep.
  - apply kept_awaiting; [|done]. unfold on_auth. keep.
  - apply kept_apply; [|done]. unfold on_verified. keep.
Qed.
End session.
