(* ===== verification/SessionProps.v ===== *)
(** * A sync session: properties *)

From S2P Require Import Prelude Model Bytes JsString Dag Framing Lineage Json Protocol Codec Effects.
From S2P Require Import Store StoreTheory StoreProps BlobStore Engine EngineTheory EngineSteps.
From S2P Require Import Inbox Identity IdentityProps Session SessionTheory.
From S2P Require Import BlobProps EngineProps.

Open Scope Z_scope.

(** ** What a session does to a device *)

Section session.
Context `{RowOrder} `{Sha256} {B : Type} `{!BlobStore B} {A : Type} `{!PeerAuthenticator A}.
Context (clock : nat → Date) (deps_vaultId : option VaultId) (chunkBytes : Z).
(** The device when the session started. *)
Context (e0 : EngineState.t B) (a0 : A).
Implicit Types s : Session.t B A.
Abbreviation run_events := (run_events (B := B) (A := A) clock deps_vaultId chunkBytes).
Abbreviation on_event := (on_event (B := B) (A := A) clock deps_vaultId chunkBytes).

(** Every revision acknowledged or reported as received is stored. *)
Definition acknowledged s : Prop :=
  ∀ id, id ∈ Session.received s ∨ RevisionAck id true None ∈ Session.control s →
    StoreTheory.stored (db (Session.engine s)) id.

Definition sound s : Prop :=
  engine_ok (Session.engine s) ∧ extends e0 (Session.engine s) ∧ acknowledged s.

#[local] Instance sound_invariant : SessionInvariant sound (λ _, True).
Proof.
  split; [done|..].
  - intros s s' (Hok&Hext&Hack) [He Hr Hc _ _]. unfold sound, acknowledged. by rewrite He, Hr, Hc.
  - intros m s (Hok&Hext&Hack) Hm. split_and!; [done..|]. intros id. simpl.
    rewrite elem_of_app, list_elem_of_singleton.
    intros [Hid|[Hid|Hid]]; [apply Hack; auto..|]. destruct Hm. by exists id.
  - intros e s (Hok&Hext&Hack) [Hext' Hok']. split_and!; [by apply Hok'|by etrans|].
    intros id Hid. by eapply extends_stored, Hack.
  - intros i s (Hok&Hext&Hack) Hi. split_and!; [done..|]. intros id. simpl.
    rewrite elem_of_app, list_elem_of_singleton.
    intros [Hid|[Hid|[= ->]]]; [apply Hack; auto..|done].
  - intros i s (Hok&Hext&Hack) Hi. split_and!; [done..|]. intros id. simpl.
    rewrite elem_of_app, list_elem_of_singleton.
    intros [[Hid| ->]|Hid]; [apply Hack; auto|done|apply Hack; auto].
Qed.

Lemma run_events_sound events s : sound s → sound (run_events events s).
Proof.
  revert s. induction events as [|event events IH]; intros s Hs; [done|]. apply IH.
  apply (kept_on_event clock deps_vaultId chunkBytes sound (λ _, True)); [|done]. intros _.
  by apply (kept_resume clock deps_vaultId sound (λ _, True)); [|intros id' s' Hs'].
Qed.

(** ** Before the peer proved itself *)

(** What may be sent to anyone. *)
Inductive introduction : ProtocolMessage → Prop :=
  | hello_introduction v id name key nonce : introduction (Hello v id name key nonce)
  | auth_introduction signature : introduction (Auth signature)
  | error_introduction code text : introduction (ErrorMessage code text).

(** The nonce that was drawn when the session started was sent. *)
Definition challenged (nonce : Uint8Array) (a : A) s : Prop :=
  auth_newNonce a0 = (Ok nonce, a) ∧
  Hello PROTOCOL_VERSION auth_deviceId auth_deviceName (toBase64 auth_publicKey) (toBase64 nonce)
    ∈ Session.control s.

Record anonymous s : Prop := Anonymous {
  anon_remote : Session.remoteDeviceId s = None;
  anon_engine : Session.engine s = e0;
  anon_assemblers : Session.assemblers s = ∅;
  anon_work : Session.inboundWork s = [];
  anon_bulk : Session.bulk s = [];
  anon_control : Forall introduction (Session.control s);
  anon_phase : match Session.phase s with
    | NotStarted => Session.auth s = a0
    | AwaitHello nonce _ | AwaitAuth nonce _ _ _ _ => challenged nonce (Session.auth s) s
    | Verifying claim => challenged (Claim.nonce claim) (Session.auth s) s
    | Failed _ => True
    | _ => False
    end;
}.

(** The peer with this id proved itself. *)
Definition proved_itself (d : DeviceId) s : Prop :=
  ∃ claim a name a', challenged (Claim.nonce claim) a s ∧ Claim.deviceId claim = d ∧
    auth_verifyPeer claim a = (Ok (accept name), a').

Definition admitted_as (d : DeviceId) s : Prop :=
  Session.remoteDeviceId s = Some d ∧ proved_itself d s.

Definition identified (d : DeviceId) s : Prop := admitted_as d s ∧ ¬ early (Session.phase s).

Lemma proved_itself_mono d s s' :
  Session.control s ⊆ Session.control s' → proved_itself d s → proved_itself d s'.
Proof.
  intros Hsub (claim & a & name & a' & [Hn Hc] & Hd & Hv). exists claim, a, name, a'.
  split_and!; [|done..]. split; [done|]. by apply Hsub.
Qed.

#[local] Instance admitted_invariant d : SessionInvariant (admitted_as d) (λ _, True).
Proof.
  split; [done|..].
  - intros s s' [Hr Hd] [_ _ Hc Hm _]. split; [congruence|].
    eapply proved_itself_mono; [|exact Hd]. by rewrite Hc.
  - intros m s [Hr Hd] _. split; [done|]. eapply proved_itself_mono; [|exact Hd]. simpl. set_solver.
  - intros e s [Hr Hd] _. by split.
  - intros i s [Hr Hd] _. split; [done|]. eapply proved_itself_mono; [|exact Hd]. simpl. set_solver.
  - intros i s [Hr Hd] _. by split.
Qed.

#[local] Instance identified_invariant d : SessionInvariant (identified d) (λ ph, ¬ early ph).
Proof.
  split; [done|..].
  - intros s s' [Ha Hp] Hf. split; [|by destruct (frame_phase _ _ _ Hf) as [->|]].
    eapply (inv_frame (P := admitted_as d)); [exact Ha|]. destruct Hf. split; auto.
  - intros m s [Ha Hp] Hm. split; [|done]. by apply (inv_send (P := admitted_as d)).
  - intros e s [Ha Hp] He. split; [|done]. by apply (inv_engine (P := admitted_as d)).
  - intros i s [Ha Hp] Hi. split; [|done]. by apply (inv_ack (P := admitted_as d)).
  - intros i s [Ha Hp] Hi. split; [|done]. by apply (inv_received (P := admitted_as d)).
Qed.

Lemma identified_on_event d event s : identified d s → identified d (on_event event s).2.
Proof.
  revert s. apply (kept_on_event clock deps_vaultId chunkBytes (identified d) (λ ph, ¬ early ph)).
  intros _ s Hs.
  apply (kept_resume_late clock deps_vaultId (identified d) (λ ph, ¬ early ph)); [apply Hs|done].
Qed.

(** Only parts that [anonymous] does not speak of changed. *)
Lemma anonymous_same s s' :
  anonymous s → frame (λ _, False) s s' → Session.assemblers s' = Session.assemblers s →
  Session.inboundWork s' = Session.inboundWork s → Session.bulk s' = Session.bulk s →
  Session.auth s' = Session.auth s → anonymous s'.
Proof.
  intros [] [He _ Hc Hr [Hp|[]]] Ha Hw Hb Hau. split; rewrite ?He, ?Hc, ?Hr, ?Ha, ?Hw, ?Hb; try done.
  unfold challenged in *. by rewrite Hp, ?Hau, ?Hc.
Qed.

Ltac same := eapply anonymous_same; [eassumption|split; auto|done..].

Lemma anonymous_handle message s : anonymous s → anonymous (handle message s).2.
Proof.
  intros Hs. unfold handle, inbox_fail, mbind, M_bind, gets, modify.
  destruct message; try done.
  - rewrite (anon_remote _ Hs). same.
  - simpl. repeat case_match; try done; same.
  - simpl. rewrite (anon_assemblers _ Hs), lookup_empty, delete_empty. simpl.
    eapply anonymous_same; [exact Hs|split; auto|simpl|done..]. by rewrite (anon_assemblers _ Hs).
  - simpl. unfold notifyProgress, modify. simpl. case_match; same.
Qed.

Lemma anonymous_send m s : introduction m → anonymous s →
  anonymous (Session.set_control (Session.control s ++ [m]) s).
Proof.
  intros Hm []. split; try done; simpl.
  - apply Forall_app. split; [done|by constructor].
  - unfold challenged in *. simpl.
    destruct (Session.phase s); try done; (destruct anon_phase0 as [Hn Hc]; split; [done|set_solver]).
Qed.

Lemma anonymous_throw code text s : anonymous s → anonymous (throw_session code text s).2.
Proof. intros []. by split. Qed.

Lemma anonymous_expect type s : anonymous s → anonymous (expect type s).2.
Proof. intros. same. Qed.

Lemma anonymous_awaiting promise k s :
  (∀ message, anonymous (k message s).2) → anonymous s → anonymous (awaiting promise k s).2.
Proof.
  intros Hk Hs. unfold awaiting. destruct (_ !! promise) as [[ty []]|]; try done.
  destruct Hs. by split.
Qed.

Lemma anonymous_run_start s :
  anonymous s → Session.phase s = NotStarted → anonymous (run_start deps_vaultId s).2.
Proof.
  intros [] Hph. rewrite Hph in anon_phase0. unfold run_start, attach, call, auth_call, on.
  unfold mbind, M_bind, modify, send, expect, goto.
  destruct deps_vaultId as [k|]; simpl; rewrite anon_phase0;
    destruct (auth_newNonce a0) as [[nonce|e] a] eqn:Hn; simpl; split; try done; simpl.
  all: try (by apply Forall_app; split; [|repeat constructor]).
  all: split; [done|set_solver].
Qed.

Lemma anonymous_on_hello nonce promise message s :
  anonymous s → Session.phase s = AwaitHello nonce promise → anonymous (on_hello nonce message s).2.
Proof.
  intros Hs Hph. unfold on_hello. destruct message; try done.
  case_decide.
  { unfold mbind, M_bind, send, modify. by apply anonymous_throw, anonymous_send; [constructor|]. }
  destruct (fromBase64 _); [|by apply anonymous_throw]. destruct (fromBase64 _); [|by apply anonymous_throw].
  unfold mbind, M_bind, send, modify, expect, goto. simpl.
  set (s1 := Session.set_control _ s).
  assert (anonymous s1) as [] by by apply anonymous_send; [constructor|]. split; try done; simpl.
  change (Session.phase s1) with (Session.phase s) in *. by rewrite Hph in anon_phase0.
Qed.

Lemma anonymous_on_auth nonce id name key promise message s :
  anonymous s → Session.phase s = AwaitAuth nonce id name key promise →
  anonymous (on_auth nonce id name key message s).2.
Proof.
  intros Hs Hph. unfold on_auth. destruct message; try done.
  destruct (fromBase64 _); [|by apply anonymous_throw]. destruct Hs. split; try done.
  by rewrite Hph in anon_phase0.
Qed.

Lemma send_vault_summary_late remote s :
  ¬ early (Session.phase (send_vault_summary deps_vaultId remote s).2).
Proof.
  unfold send_vault_summary, call. destruct deps_vaultId as [k|]; [|by inversion 1].
  destruct (engine_call (engine_getVault k) s) as [[[v|]|e] s1]; [|by inversion 1..].
  destruct (engine_call (revisionCount (Vault.id v)) s1) as [[count|e] s2]; by inversion 1.
Qed.

(** Judging the peer's proof ends the anonymous part of the session. *)
Lemma anonymous_on_verified claim s :
  anonymous s → Session.phase s = Verifying claim →
  anonymous (on_verified deps_vaultId claim s).2 ∨
  identified (Claim.deviceId claim) (on_verified deps_vaultId claim s).2.
Proof.
  intros Hs Hph. unfold on_verified, call, auth_call, on. simpl.
  pose proof (anon_phase _ Hs) as Hch. rewrite Hph in Hch.
  destruct (auth_verifyPeer claim (Session.auth s)) as [[[name|reason]|e] a'] eqn:Hv.
  - right. unfold mbind, M_bind, modify, emit. split; [|apply send_vault_summary_late].
    apply (kept_send_vault_summary deps_vaultId (admitted_as (Claim.deviceId claim)) (λ _, True)).
    split; [done|]. by exists claim, (Session.auth s), name, a'.
  - left. destruct Hs. split; try done. simpl. apply Forall_app; split; [done|repeat constructor].
  - left. destruct Hs. by split.
Qed.

Lemma anonymous_resume s : anonymous s →
  anonymous (resume clock deps_vaultId s).2 ∨ ∃ d, identified d (resume clock deps_vaultId s).2.
Proof.
  intros Hs. pose proof (anon_phase _ Hs) as Hph. unfold resume.
  destruct (Session.phase s) eqn:Heq; try done; try (by left).
  - left. by apply anonymous_run_start.
  - left. apply anonymous_awaiting; [|done]. intros message. by eapply anonymous_on_hello.
  - left. apply anonymous_awaiting; [|done]. intros message. by eapply anonymous_on_auth.
  - destruct (anonymous_on_verified _ _ Hs Heq); eauto.
Qed.

Lemma anonymous_on_event event s : anonymous s →
  anonymous (on_event event s).2 ∨ ∃ d, identified d (on_event event s).2.
Proof.
  intros Hs. destruct event as [raw|data| |promise| | | |]; simpl.
  - left. unfold on_control. destruct (ControlInbox.accept _ _) as [inbox message].
    assert (anonymous (Session.set_inbox inbox s)) by same.
    destruct message; [by apply anonymous_handle|done].
  - left. unfold on_bulk. destruct (decodeChunkFrame data) as [frame|]; [|done].
    unfold onFrame. cbv zeta. rewrite (anon_assemblers _ Hs), lookup_empty. case_decide; [|done]. same.
  - left. unfold on_close, inbox_fail, modify. same.
  - left. same.
  - left. pose proof (anon_phase _ Hs). by destruct (Session.phase s).
  - by apply anonymous_resume.
  - left. pose proof (anon_phase _ Hs). unfold serve_step. by destruct (Session.phase s).
  - left. unfold ingest_next. by rewrite (anon_work _ Hs).
Qed.

Lemma run_events_hidden events s :
  (anonymous s ∨ ∃ d, identified d s) →
  anonymous (run_events events s) ∨ ∃ d, identified d (run_events events s).
Proof.
  revert s. induction events as [|event events IH]; intros s Hs; [done|]. apply IH.
  destruct Hs as [Hs|[d Hs]]; [by apply anonymous_on_event|].
  right. exists d. by apply identified_on_event.
Qed.

(** C1: a session only adds.  Whatever a peer sends, and in whatever order the
    handlers, timers and tasks run, a session that starts on a sound device
    leaves a sound device: it moved no head and changed no vault, it changed
    and dropped no revision, a vault it made has no head; and every revision it
    acknowledged to the peer, or lists as received, is stored. *)
Theorem session_only_adds (events : list Event) (Hok : engine_ok e0) :
  let s := run_events events (new_session e0 a0) in
  engine_ok (Session.engine s) ∧ extends e0 (Session.engine s) ∧
  ∀ id, id ∈ Session.received s ∨ RevisionAck id true None ∈ Session.control s →
    is_Some (Db.revisions (db (Session.engine s)) !! id).
Proof.
  apply run_events_sound. split_and!; [done..|]. intros id. simpl. set_solver.
Qed.

(** C10: nothing about the vault before the proof.  As long as a session has not
    accepted its peer, it has sent greetings, proofs and errors and nothing
    else, no chunk, and the device is as it was; and once it takes the peer for
    device [d], its authenticator accepted a claim to be [d], made for the
    nonce that this session drew and sent. *)
Theorem hidden_until_verified (events : list Event) :
  let s := run_events events (new_session e0 a0) in
  match Session.remoteDeviceId s with
  | None =>
      Forall introduction (Session.control s) ∧ Session.bulk s = [] ∧ Session.engine s = e0
  | Some d =>
      ∃ nonce a claim name a',
        auth_newNonce a0 = (Ok nonce, a) ∧
        Hello PROTOCOL_VERSION auth_deviceId auth_deviceName (toBase64 auth_publicKey)
          (toBase64 nonce) ∈ Session.control s ∧
        Claim.deviceId claim = d ∧ Claim.nonce claim = nonce ∧
        auth_verifyPeer claim a = (Ok (accept name), a')
  end.
Proof.
  cbv zeta.
  destruct (run_events_hidden events (new_session e0 a0)) as [Hs|(d & [Hd Hp] & _)];
    [left; by split|..].
  - rewrite (anon_remote _ Hs). split_and!; apply Hs.
  - rewrite Hd. destruct Hp as (claim & a & name & a' & [Hn Hc] & Hid & Hv).
    by exists (Claim.nonce claim), a, claim, name, a'.
Qed.

(** ** Waits without end *)

(** Not a message: the channel closes, a timer fires, a task is woken. *)
Definition no_message (event : Event) : Prop :=
  match event with ControlMessage _ | BulkMessage _ => False | _ => True end.

(** The exchange waits: for revisions that were asked for, or for the peer's
    answer to one that was sent. *)
Definition waiting s : Prop :=
  (∃ remote head graph, Session.phase s = Exchanging remote head graph) ∧
  Session.inboundWork s = [] ∧
  ((Serving.todo (Session.serving s) = [] ∧ Serving.current (Session.serving s) = None ∧
    Session.drained s = false) ∨
   ∃ id, Serving.current (Session.serving s) = Some (Outgoing.mk id [] None)).

Lemma waiting_on_event event s :
  no_message event → waiting s →
  ∃ inbox, (on_event event s).2 = Session.set_inbox inbox s.
Proof.
  intros Hev ((remote & head & graph & Hph) & Hwork & Hserve).
  assert (Session.set_inbox (Session.inbox s) s = s) as Hsame by by destruct s.
  destruct event as [raw|data| |promise| | | |]; try destruct Hev; simpl.
  - by eexists.
  - by eexists.
  - rewrite Hph. by exists (Session.inbox s).
  - exists (Session.inbox s). unfold resume. rewrite Hph, Hsame.
    assert (served s && Session.drained s = false) as ->; [|done]. unfold served.
    destruct (Session.serving s) as [[|x todo] seq current]; simpl in *; [|done].
    destruct Hserve as [(_&->&Hd)|[id ->]]; [by rewrite Hd|done].
  - exists (Session.inbox s). unfold serve_step. rewrite Hph, Hsame.
    destruct (Session.serving s) as [[|x todo] seq current]; simpl in *;
      by destruct Hserve as [(?&->&Hd)|[id ->]].
  - exists (Session.inbox s). unfold ingest_next. by rewrite Hwork, Hsame.
Qed.

(** C32: a peer that goes silent in the exchange is waited for without end.
    While a session waits in the exchange for revisions it asked for, or for the
    answer to one it sent, no closing of the channel and no timer ends the wait:
    if no message comes, [run] neither returns nor throws. *)
Theorem exchange_waits_forever (events : list Event) s :
  waiting s → Forall no_message events →
  ∃ inbox, run_events events s = Session.set_inbox inbox s.
Proof.
  revert s. induction events as [|event events IH]; intros s Hs Hev.
  - exists (Session.inbox s). by destruct s.
  - apply Forall_cons in Hev as [Hev Hevs].
    destruct (waiting_on_event _ _ Hev Hs) as [inbox Hstep].
    change (run_events (event :: events) s) with (run_events events (on_event event s).2).
    rewrite Hstep. destruct (IH (Session.set_inbox inbox s)) as [inbox' ->]; [done..|].
    by exists inbox'.
Qed.
End session.

(** ** With the authenticator of the app *)

Section authenticated.
Context `{RowOrder} `{!Digest, !Ed25519} {B : Type} `{!BlobStore B} {T : Type} `{!TrustStore T}.
Context (clock : nat → Date) (deps_vaultId : option VaultId) (chunkBytes : Z).
Context (keyPair : DeviceKeyPair.t) (deviceName : string) (pairingMode : bool).
Context (confirmPairing : option (DeviceId → Uint8Array → string → bool)) (now : Date).
Context (randomNonce : nat → Uint8Array).

#[local] Instance app_authenticator : PeerAuthenticator (Authenticator.t T) :=
  createAuthenticator keyPair deviceName pairingMode confirmPairing now randomNonce.

(** C6: with whom a session speaks.  A session of the app that takes its peer
    for device [d] got a signature over the nonce it drew, made for this device,
    that verifies with a key whose hash is [d]; and that very key was pinned
    under [d] and not revoked when the session began, or [d] was unknown, the
    user was pairing, and confirmed the numbers. *)
Theorem peer_is_pinned (events : list Event) (e0 : EngineState.t B) (a0 : Authenticator.t T) :
  let s := run_events clock deps_vaultId chunkBytes events (new_session e0 a0) in
  ∀ d, Session.remoteDeviceId s = Some d →
  ∃ key signature name,
    deviceIdFor key = d ∧
    verify key (authChallengeBytes (randomNonce (Authenticator.drawn a0))
                  (DeviceKeyPair.deviceId keyPair) d) signature = true ∧
    ((∃ device, devices (Authenticator.store a0) !! d = Some device ∧
        PairedDevice.trust device = paired ∧ PairedDevice.publicKey device = key) ∨
     (devices (Authenticator.store a0) !! d = None ∧ pairingMode = true ∧
        ∀ confirm, confirmPairing = Some confirm → confirm d key name = true)).
Proof.
  intros s d Hd.
  destruct (run_events_hidden clock deps_vaultId chunkBytes e0 a0 events (new_session e0 a0))
    as [Hs|(d' & [Hd' Hp] & _)]; [left; by split|..].
  { pose proof (anon_remote _ _ _ Hs). by subst s; simplify_eq. }
  subst s. assert (d' = d) as -> by congruence.
  destruct Hp as (claim & a & name & a' & [Hn _] & Hid & Hv).
  simpl in Hn. unfold newNonce in Hn. injection Hn as Hnonce Ha. subst a.
  simpl in Hv. unfold on in Hv. simpl in Hv.
  pose proof (verifyPeer_cases keyPair pairingMode confirmPairing now claim
    (Authenticator.store a0)) as Hc. cbv zeta in Hc.
  destruct (verifyPeer _ _ _ _ claim _) as [r t]. injection Hv as -> _.
  destruct Hc as [[Hkey Hsig] Hc]. exists (Claim.publicKey claim), (Claim.signature claim),
    (Claim.claimedName claim).
  rewrite Hid in *. rewrite <-Hnonce in Hsig. split_and!; [congruence|done|].
  destruct Hc as [(device & Hdev & Htr & Hk & _)|(Hnone & Hmode & Hconf & _)]; [left; eauto|right; auto].
Qed.
End authenticated.

(** ** Witnesses

    The device of the engine's witnesses meets a phone that has one more
    revision. *)

#[local] Existing Instance insertion_order.
#[local] Existing Instance toy_sha256.
#[local] Existing Instance toy_digest.
#[local] Existing Instance toy_ed25519.
#[local] Existing Instance device_blobs.

Module Meeting.
Definition nonce (n : nat) : Uint8Array := [Byte.x07].

Definition phone : DeviceKeyPair.t := pair_of key_one.
Definition laptop : DeviceKeyPair.t := pair_of key_two.

Definition bytes : Uint8Array := [Byte.x01; Byte.x02].

Definition header : RevisionHeader.t :=
  {| RevisionHeader.transferSeq := 1; RevisionHeader.vaultId := "a";
     RevisionHeader.revisionId := "x"; RevisionHeader.hash := toy_hash bytes;
     RevisionHeader.sizeBytes := 2; RevisionHeader.parentIds := ["aa"];
     RevisionHeader.totalChunks := 1; RevisionHeader.message := None |}.

Definition says (m : ProtocolMessage) : list Event := [ControlMessage (encodeMessage m); MainResumes].

(** Up to the exchange. *)
Definition opening : list Event :=
  [MainResumes] ++
  says (Hello PROTOCOL_VERSION (DeviceKeyPair.deviceId phone) "phone" (toBase64 key_one)
          (toBase64 [Byte.x09])) ++
  says (Auth (toBase64 (signChallenge phone (nonce 0) (DeviceKeyPair.deviceId laptop)
          (DeviceKeyPair.deviceId phone)))) ++
  [MainResumes] ++
  says (VaultSummary "a" "work" (Some "x") 2) ++
  says (Protocol.HistorySummary "a" [HistorySummaryEntry.mk "aa" (toy_hash [Byte.x01]) 1 [];
                            HistorySummaryEntry.mk "x" (toy_hash bytes) 2 ["aa"]]) ++
  says (WantRevisions "a" []).

(** The revision that was asked for. *)
Definition delivers : list Event :=
  [ControlMessage (encodeMessage (RevisionHeaderMessage header));
   BulkMessage (default [] (match encodeChunkFrame (ChunkFrame.mk 1 0 bytes) with
                            | Ok frame => Some frame | Err _ => None end));
   IngestRuns; MainResumes] ++
  says (SyncComplete "a") ++ [MainResumes].
End Meeting.

#[local] Instance laptop_authenticator
    : PeerAuthenticator (Authenticator.t (gmap DeviceId PairedDevice.t)) :=
  createAuthenticator Meeting.laptop "laptop" false None 1 Meeting.nonce.

Definition meets (events : list Event)
    : Session.t (FS.t * nat) (Authenticator.t (gmap DeviceId PairedDevice.t)) :=
  run_events Device.clock (Some "a") 65536 events (new_session device1 (Authenticator.mk pinned 0)).
(** The whole session: the laptop ends with the phone's revision, and its own
    head is where it was. *)
Lemma meeting_ends :
  ∃ result, Session.phase (meets (Meeting.opening ++ Meeting.delivers)) = Done result ∧
    SessionResult.received result = ["x"] ∧ SessionResult.missing result = [] ∧
    SessionResult.divergence result = remote_ahead.
Proof. eexists. split; [vm_compute; reflexivity|]. by_compute. Qed.

Lemma session_only_adds_witness :
  is_Some (Db.revisions (db (Session.engine (meets (Meeting.opening ++ Meeting.delivers)))) !! "x").
Proof.
  destruct (session_only_adds Device.clock (Some "a") 65536 device1 (Authenticator.mk pinned 0)
    (Meeting.opening ++ Meeting.delivers) device1_ok) as (_ & _ & Hack).
  apply Hack. left. replace (Session.received _) with ["x"] by (vm_compute; reflexivity).
  apply list_elem_of_singleton. reflexivity.
Defined.

(** The phone leaves after the laptop asked it for its revision. *)
Lemma exchange_waits_forever_witness :
  ∃ inbox, run_events Device.clock (Some "a") 65536
      [ControlClosed; CompleteTimer; MainResumes; ServeResumes] (meets Meeting.opening) =
    Session.set_inbox inbox (meets Meeting.opening).
Proof.
  refine (exchange_waits_forever Device.clock (Some "a") 65536
    [ControlClosed; CompleteTimer; MainResumes; ServeResumes] (meets Meeting.opening) _ _).
  - split; [do 3 eexists; vm_compute; reflexivity|]. split; [vm_compute; reflexivity|].
    left. split; [vm_compute; reflexivity|]. split; vm_compute; reflexivity.
  - repeat constructor.
Defined.

Lemma peer_is_pinned_witness :
  ∃ key signature, verify key (authChallengeBytes (Meeting.nonce 0)
    (DeviceKeyPair.deviceId Meeting.laptop) (DeviceKeyPair.deviceId Meeting.phone)) signature = true.
Proof.
  destruct (peer_is_pinned (H0 := toy_digest)
    (BlobStore0 := file_blob_store (H := digest_sha256 (H := toy_digest)) "/data" Device.ids)
    Device.clock (Some "a") 65536 Meeting.laptop "laptop" false None 1
    Meeting.nonce (Meeting.opening ++ Meeting.delivers) device1 (Authenticator.mk pinned 0)
    (DeviceKeyPair.deviceId Meeting.phone)) as (key & signature & _ & _ & Hsig & _).
  - vm_compute. reflexivity.
  - exists key, signature. exact Hsig.
Defined.

(** A header that announces no chunks passes the parser, and the error of the
    assembler escapes the handler: the revision is neither taken nor refused. *)
Lemma empty_transfer_escapes (s : Session.t (FS.t * nat) (Authenticator.t (gmap DeviceId PairedDevice.t)))
    (header : RevisionHeader.t) d :
  Session.remoteDeviceId s = Some d → RevisionHeader.totalChunks header = 0 →
  ∃ message, handle (RevisionHeaderMessage header) s = (Err message, s).
Proof.
  intros Hd Hn. unfold handle, gets, mbind, M_bind. rewrite Hd. unfold onHeader. simpl.
  rewrite Hn. by eexists.
Qed.

Lemma empty_transfer_parses :
  parseMessage (encodeMessage (RevisionHeaderMessage
    (RevisionHeader.mk 1 "a" "x" (toy_hash Meeting.bytes) 2 ["aa"] 0 None))) =
  parsed (RevisionHeaderMessage
    (RevisionHeader.mk 1 "a" "x" (toy_hash Meeting.bytes) 2 ["aa"] 0 None)).
Proof. by_compute. Qed.
