(* ===== verification/ShortCode.v ===== *)
(** * Short pairing codes and server names

    packages/core/src/shortCode.ts.  Texts are taken apart as lists of UTF-16
    units or code points (JsString).  The expression of a server name is a
    [regex]: the regular expressions of the source, over code points, matched by
    derivatives; an anchored expression is asked about the whole text. *)

From S2P Require Import Prelude JsString.
From Stdlib Require String.

(** ** Regular expressions *)

Inductive regex : Type :=
  | Never
  | Nothing
  | Class (p : Z → bool)
  | Then (r s : regex)
  | Or (r s : regex)
  | Many (r : regex).

(** The texts of an expression. *)
Inductive matches : regex → list Z → Prop :=
  | matches_nothing : matches Nothing []
  | matches_class p c : p c = true → matches (Class p) [c]
  | matches_then r s l k : matches r l → matches s k → matches (Then r s) (l ++ k)
  | matches_left r s l : matches r l → matches (Or r s) l
  | matches_right r s l : matches s l → matches (Or r s) l
  | matches_none r : matches (Many r) []
  | matches_more r l k : matches r l → matches (Many r) k → matches (Many r) (l ++ k).

(** [r?] and [r{1,n+1}]. *)
Definition Maybe (r : regex) : regex := Or Nothing r.
Fixpoint UpTo (n : nat) (r : regex) : regex :=
  match n with O => r | S n => Then r (Maybe (UpTo n r)) end.

Fixpoint nullable (r : regex) : bool :=
  match r with
  | Nothing | Many _ => true
  | Never | Class _ => false
  | Then r s => nullable r && nullable s
  | Or r s => nullable r || nullable s
  end.

(** What may follow [c] in a text of the expression. *)
Fixpoint after (c : Z) (r : regex) : regex :=
  match r with
  | Never | Nothing => Never
  | Class p => if p c then Nothing else Never
  | Then r s => if nullable r then Or (Then (after c r) s) (after c s) else Then (after c r) s
  | Or r s => Or (after c r) (after c s)
  | Many r => Then (after c r) (Many r)
  end.

Fixpoint accepts (r : regex) (l : list Z) : bool :=
  match l with [] => nullable r | c :: l => accepts (after c r) l end.

Ltac inv_matches :=
  match goal with
  | H : matches Never _ |- _ => by inversion H
  | H : matches Nothing _ |- _ => inversion H; subst; clear H
  | H : matches (Class _) _ |- _ => inversion H; subst; clear H
  | H : matches (Then _ _) _ |- _ => inversion H; subst; clear H
  | H : matches (Or _ _) _ |- _ => inversion H; subst; clear H
  end.

#[export] Hint Constructors matches : passvault.

Lemma nullable_matches r : nullable r = true ↔ matches r [].
Proof.
  split.
  - induction r as [| |p|r IHr s IHs|r IHr s IHs|r IHr]; simpl; try done; auto with passvault.
    + intros [??]%andb_true_iff. apply (matches_then r s [] []); auto.
    + intros [?|?]%orb_true_iff; auto with passvault.
  - remember [] as l eqn:Hl. induction 1 as [| | r s l k Hr IHr Hs IHs| | | |]; simpl; try done.
    + apply app_nil in Hl as [-> ->]. by rewrite IHr, IHs.
    + by rewrite IHmatches.
    + rewrite IHmatches by done. apply orb_true_r.
Qed.

Lemma after_sound c r l : matches (after c r) l → matches r (c :: l).
Proof.
  revert l. induction r as [| |p|r IHr s IHs|r IHr s IHs|r IHr]; simpl; intros l Hl.
  - inv_matches.
  - inv_matches.
  - destruct (p c) eqn:Hp; inv_matches. by constructor.
  - destruct (nullable r) eqn:Hn; inv_matches.
    + inv_matches. rewrite app_comm_cons. constructor; auto.
    + apply nullable_matches in Hn. apply (matches_then r s [] (c :: l)); auto.
    + rewrite app_comm_cons. constructor; auto.
  - inv_matches; auto with passvault.
  - inv_matches. rewrite app_comm_cons. constructor; auto.
Qed.

Lemma after_complete c r l : matches r (c :: l) → matches (after c r) l.
Proof.
  remember (c :: l) as m eqn:Hm. intros Hr. revert l Hm.
  induction Hr as [|p d Hp|r s l' k Hr IHr Hs IHs|r s l' Hl IH|r s l' Hl IH|r|r l' k Hr IHr Hs IHs];
    intros l Hm; simpl; simplify_eq.
  - rewrite Hp. constructor.
  - destruct l' as [|d l']; simplify_eq/=.
    + assert (nullable r = true) as -> by by apply nullable_matches. auto with passvault.
    + destruct (nullable r); auto with passvault.
  - auto with passvault.
  - auto with passvault.
  - destruct l' as [|d l']; simplify_eq/=; auto with passvault.
Qed.

(** The matcher decides the texts of an expression. *)
Lemma accepts_matches r l : accepts r l = true ↔ matches r l.
Proof.
  revert r. induction l as [|c l IH]; intros r; simpl; [apply nullable_matches|].
  rewrite IH. split; [apply after_sound|apply after_complete].
Qed.

#[global] Instance matches_dec r l : Decision (matches r l).
Proof. refine (cast_if (decide (accepts r l = true))); by rewrite <-accepts_matches. Defined.

(** ** Texts of compound expressions *)

Lemma matches_Maybe r l : matches (Maybe r) l ↔ l = [] ∨ matches r l.
Proof.
  split; [|intros [->|?]; unfold Maybe; auto with passvault].
  unfold Maybe. intros. inv_matches; [|by right]. inv_matches. by left.
Qed.

Lemma matches_Then r s l : matches (Then r s) l ↔ ∃ l1 l2, l = l1 ++ l2 ∧ matches r l1 ∧ matches s l2.
Proof. split; [intros; inv_matches; eauto|intros (?&?&->&?&?); auto with passvault]. Qed.

Lemma matches_Many_class p l : matches (Many (Class p)) l ↔ Forall (λ c, p c = true) l.
Proof.
  split.
  - remember (Many (Class p)) as r eqn:Hr. induction 1; simplify_eq; [done|].
    inv_matches. constructor; [done|auto].
  - induction 1 as [|c l Hc Hl IH]; [constructor|]. apply (matches_more _ [c] l); [by constructor|done].
Qed.

(** Every code point of a text is in a class of the expression. *)
Fixpoint classes (r : regex) (c : Z) : bool :=
  match r with
  | Never | Nothing => false
  | Class p => p c
  | Then r s | Or r s => classes r c || classes s c
  | Many r => classes r c
  end.

Lemma matches_classes r l : matches r l → Forall (λ c, classes r c = true) l.
Proof.
  induction 1; simpl in *; rewrite ?Forall_app; repeat constructor; try done;
    (eapply Forall_impl; [eassumption|]); simpl; intros c ->; auto using orb_true_r.
Qed.

(** A map of code points that stays within every class of an expression. *)
Fixpoint stable (f : Z → Z) (r : regex) : Prop :=
  match r with
  | Never | Nothing => True
  | Class p => ∀ c, p c = true → p (f c) = true
  | Then r s | Or r s => stable f r ∧ stable f s
  | Many r => stable f r
  end.

Lemma matches_fmap f r l : stable f r → matches r l → matches r (f <$> l).
Proof.
  intros Hf Hr. revert Hf.
  induction Hr; simpl; rewrite ?fmap_app; naive_solver auto with passvault.
Qed.

Open Scope Z_scope.

Definition SHORT_CODE_ALPHABET : string := "0123456789ABCDEFGHJKMNPQRSTVWXYZ".
Definition SHORT_CODE_LENGTH : Z := 8.

Definition formatShortCode (code : string) : string := slice code 0 4 +:+ "-" +:+ slice_from code 4.

(** The class [\s-]. *)
Definition is_separator (u : Z) : bool := is_space u || (u =? 45).

(** O for 0, and I and L for 1. *)
Definition read_as (u : Z) : Z :=
  if u =? 79 then 48 else if (u =? 73) || (u =? 76) then 49 else u.

Definition normalizeShortCode (raw : string) : string :=
  of_units (read_as <$> filter (λ u, is_separator u = false) (to_units (toUpperCase (trim raw)))).

(** ** Searching a text *)

(** [text.includes(sub)]. *)
Fixpoint includes (sub text : list Z) : bool :=
  bool_decide (sub `prefix_of` text) ||
  match text with [] => false | _ :: text => includes sub text end.

Fixpoint indexOf (u : Z) (text : list Z) : option nat :=
  match text with
  | [] => None
  | v :: text => if decide (v = u) then Some 0%nat else S <$> indexOf u text
  end.

Definition lastIndexOf (u : Z) (text : list Z) : option nat :=
  (λ i, (length text - 1 - i)%nat) <$> indexOf u (rev text).

(** The first two elements of [text.split(":")]. *)
Definition split_colon (text : list Z) : list Z * option (list Z) :=
  match indexOf 58 text with
  | None => (text, None)
  | Some i =>
      let rest := drop (S i) text in
      (take i text, Some (match indexOf 58 rest with Some j => take j rest | None => rest end))
  end.

(** ** Server names *)

(** [a-z] and [a-z0-9] with the flags i and u, by which the long s is an s and
    the Kelvin sign a k. *)
Definition letter (c : Z) : bool :=
  ((97 <=? c) && (c <=? 122)) || ((65 <=? c) && (c <=? 90)) || (c =? 0x17F) || (c =? 0x212A).
Definition alnum (c : Z) : bool := letter c || is_digit c.
Definition alnum_dash (c : Z) : bool := alnum c || (c =? 45).

Definition label : regex := Then (Class alnum) (Maybe (Then (Many (Class alnum_dash)) (Class alnum))).

Definition host_regex : regex :=
  Then label
    (Then (Many (Then (Class (Z.eqb 46)) label))
       (Maybe (Then (Class (Z.eqb 58)) (UpTo 4 (Class is_digit))))).

(** [Number] of decimal digits between white space. *)
Definition decimal (digits : list Z) : Z :=
  foldl (λ n c, n * 10 + (c - 48)) 0 (trim_units digits).

Definition isValidServerHost (host : string) : bool :=
  if negb (accepts host_regex (to_points (trim host))) then false
  else
    match (split_colon (to_units host)).2 with
    | None => true
    | Some port => (0 <? decimal port) && (decimal port <=? 65535)
    end.

(** The characters of a scheme: [a-z0-9+.-]. *)
Definition scheme_char (c : Z) : bool := alnum c || bool_decide (c ∈ [43; 46; 45]).

(** A scheme and the two slashes, taken off. *)
Fixpoint after_scheme (l : list Z) : option (list Z) :=
  match l with
  | 58 :: 47 :: 47 :: rest => Some rest
  | c :: l => if scheme_char c then after_scheme l else None
  | [] => None
  end.

Definition without_scheme (l : list Z) : list Z :=
  match l with
  | c :: l' => if letter c then default l (after_scheme l') else l
  | [] => l
  end.

(** The part of a text before the first of [/?#]. *)
Fixpoint before_path (l : list Z) : list Z :=
  match l with
  | [] => []
  | c :: l => if bool_decide (c ∈ [47; 63; 35]) then [] else c :: before_path l
  end.

Definition normalizeServerHost (raw : string) : option string :=
  let host := toLowerCase (of_points (before_path (without_scheme (to_points (trim raw))))) in
  if isValidServerHost host then Some host else None.

(** [text.endsWith(sub)]. *)
Definition endsWith (sub text : string) : bool :=
  bool_decide (chars sub `suffix_of` chars text).

Definition isLocalHost (host : string) : bool :=
  let name := toLowerCase (of_units (split_colon (to_units host)).1) in
  bool_decide (name = "localhost") || bool_decide (name = "127.0.0.1")
  || bool_decide (name = "::1") || endsWith ".local" name.

Definition httpUrlFor (host : string) : string :=
  (if isLocalHost host then "http" else "https") +:+ "://" +:+ host.

Definition signalUrlFor (host : string) : string :=
  (if isLocalHost host then "ws" else "wss") +:+ "://" +:+ host +:+ "/signal".

(** ** Codes *)

Module ParsedShortCode.
Record t : Type := mk {
  code : string;
  host : option string;
}.

#[global] Instance eq_dec : EqDecision t.
Proof. solve_decision. Defined.
End ParsedShortCode.

(** Every character is one of the alphabet. *)
Definition in_alphabet (code : string) : bool :=
  forallb (λ c, bool_decide (c ∈ (charCode <$> chars SHORT_CODE_ALPHABET))) (to_points code).

Definition parseShortCode (raw : string) : option ParsedShortCode.t :=
  let trimmed := to_units (trim raw) in
  if includes [58; 47; 47] trimmed then None
  else
    let '(codePart, hostPart) :=
      match lastIndexOf 64 trimmed with
      | None => (trimmed, None)
      | Some at_ => (take at_ trimmed, Some (of_units (trim_units (drop (S at_) trimmed))))
      end in
    let code := normalizeShortCode (of_units codePart) in
    if negb ((str_length code =? SHORT_CODE_LENGTH) && in_alphabet code) then None
    else
      match hostPart with
      | None => Some (ParsedShortCode.mk code None)
      | Some host =>
          if isValidServerHost host then Some (ParsedShortCode.mk code (Some (toLowerCase host)))
          else None
      end.

Definition looksLikeShortCode (raw : string) : bool := bool_decide (is_Some (parseShortCode raw)).

Definition formatQualifiedShortCode (code host : string) : string :=
  (if str_length (normalizeShortCode code) =? SHORT_CODE_LENGTH
   then formatShortCode (normalizeShortCode code) else code) +:+ "@" +:+ host.
