(* ===== verification/ShortCodeProps.v ===== *)
(** * Short pairing codes: properties *)

From S2P Require Import Prelude JsString ShortCode.
From Stdlib Require String.

Open Scope Z_scope.

(** ** Characters *)

(** The alphabet of codes: digits, and capitals without I, L, O and U. *)
Definition code_char (c : Z) : Prop :=
  48 <= c <= 57 ∨ 65 <= c <= 90 ∧ c ≠ 73 ∧ c ≠ 76 ∧ c ≠ 79 ∧ c ≠ 85.

Lemma alphabet_spec c : c ∈ (charCode <$> chars SHORT_CODE_ALPHABET) ↔ code_char c.
Proof.
  replace (charCode <$> chars SHORT_CODE_ALPHABET)
    with (seqZ 48 10 ++ seqZ 65 8 ++ seqZ 74 2 ++ seqZ 77 2 ++ seqZ 80 5 ++ seqZ 86 5)
    by (vm_compute; reflexivity).
  rewrite !elem_of_app, !elem_of_seqZ. unfold code_char. lia.
Qed.

(** A well-formed code, as a list of characters. *)
Definition is_code (cs : list Z) : Prop := length cs = 8%nat ∧ Forall code_char cs.

Lemma code_char_ascii c : code_char c → ascii_code c.
Proof. unfold code_char, ascii_code. lia. Qed.

Lemma code_char_no_space c : code_char c → is_space c = false.
Proof.
  unfold code_char, is_space. intros Hc. apply orb_false_iff. split.
  - apply bool_decide_eq_false. rewrite !elem_of_cons, elem_of_nil. lia.
  - apply andb_false_iff. rewrite !Z.leb_gt. lia.
Qed.

Lemma in_alphabet_spec s : in_alphabet s = true ↔ Forall code_char (to_points s).
Proof.
  unfold in_alphabet. rewrite forallb_forall, Forall_forall. split; intros Hc x Hx.
  - apply alphabet_spec, (bool_decide_eq_true_1 _), Hc, list_elem_of_In, Hx.
  - apply bool_decide_eq_true, alphabet_spec, Hc, list_elem_of_In, Hx.
Qed.

(** ** What may be typed for a code *)

(** A character typed for one of a code: itself, its small letter, an O for a
    zero, an I or an L for a one. *)
Inductive typed_char : Z → Z → Prop :=
  | typed_same c : typed_char c c
  | typed_small c : 65 <= c <= 90 → typed_char c (c + 32)
  | typed_zero u : u ∈ [79; 111] → typed_char 48 u
  | typed_one u : u ∈ [73; 105; 76; 108] → typed_char 49 u.

(** A text typed for a code: blanks and dashes may be anywhere. *)
Inductive typed : list Z → list Z → Prop :=
  | typed_end : typed [] []
  | typed_next c u cs l : code_char c → typed_char c u → typed cs l → typed (c :: cs) (u :: l)
  | typed_blank u cs l : ascii_code u → is_separator u = true → typed cs l → typed cs (u :: l).

(** [toUpperCase] of an ASCII character. *)
Definition up (c : Z) : Z := if (97 <=? c) && (c <=? 122) then c - 32 else c.

Lemma upper_ascii l : Forall ascii_code l → l ≫= upper_point = up <$> l.
Proof.
  unfold ascii_code. induction 1 as [|c l Hc _ IH]; csimpl; [done|]. rewrite IH.
  unfold upper_point, up. destruct ((97 <=? c) && (c <=? 122)) eqn:Hu; [done|].
  replace (c =? 0xDF) with false by lia. replace (0xE0 <=? c) with false by lia.
  replace (c =? 0xB5) with false by lia. replace (c =? 0xFF) with false by lia.
  replace (c =? 0x131) with false by lia. replace (c =? 0x17F) with false by lia.
  replace (c =? 0xFB00) with false by lia. replace (c =? 0xFB01) with false by lia.
  replace (c =? 0xFB02) with false by lia. replace (c =? 0xFB03) with false by lia.
  replace (c =? 0xFB04) with false by lia. replace (c =? 0xFB05) with false by lia.
  by replace (c =? 0xFB06) with false by lia.
Qed.

Lemma up_ascii c : ascii_code c → ascii_code (up c).
Proof. unfold ascii_code, up. destruct (Z.leb_spec 97 c), (Z.leb_spec c 122); simpl; lia. Qed.

Lemma up_separator u : is_separator u = true → up u = u.
Proof.
  unfold up. intros Hu. destruct (Z.leb_spec 97 u), (Z.leb_spec u 122); simpl; try done.
  exfalso. unfold is_separator, is_space in Hu. apply orb_true_iff in Hu as [Hu|Hu]; [|lia].
  apply orb_true_iff in Hu as [Hu|Hu]; [|lia].
  apply bool_decide_eq_true in Hu. rewrite !elem_of_cons, elem_of_nil in Hu. lia.
Qed.

(** [normalizeShortCode] after the trimming, on ASCII. *)
Definition norm (l : list Z) : list Z :=
  read_as <$> filter (λ u, is_separator u = false) (up <$> l).

Lemma norm_app l k : norm (l ++ k) = norm l ++ norm k.
Proof. unfold norm. by rewrite fmap_app, filter_app, fmap_app. Qed.

Lemma norm_cons u l :
  norm (u :: l) = (if is_separator (up u) then norm l else read_as (up u) :: norm l).
Proof.
  unfold norm. rewrite fmap_cons, filter_cons.
  case_decide as Hd; [by rewrite Hd|by destruct (is_separator (up u))].
Qed.

Lemma norm_rev l : norm (rev l) = rev (norm l).
Proof.
  induction l as [|u l IH]; [done|]. simpl rev. rewrite norm_app, IH, (norm_cons u []), norm_cons.
  destruct (is_separator (up u)); simpl; [apply app_nil_r|done].
Qed.

Lemma norm_drop_spaces l : norm (drop_spaces l) = norm l.
Proof.
  induction l as [|u l IH]; [done|]. simpl. destruct (is_space u) eqn:Hu; [|done].
  assert (is_separator u = true) as Hs by by unfold is_separator; rewrite Hu.
  by rewrite IH, norm_cons, up_separator, Hs.
Qed.

Lemma norm_trim l : norm (trim_units l) = norm l.
Proof.
  unfold trim_units. by rewrite norm_rev, norm_drop_spaces, norm_rev, rev_involutive, norm_drop_spaces.
Qed.

Lemma read_as_ascii u : ascii_code u → ascii_code (read_as u).
Proof.
  unfold ascii_code, read_as. destruct (Z.eqb_spec u 79); [lia|]. by destruct ((u =? 73) || (u =? 76)).
Qed.

Lemma norm_ascii l : Forall ascii_code l → Forall ascii_code (norm l).
Proof.
  rewrite !Forall_forall. intros Hl x Hx. unfold norm in Hx.
  apply list_elem_of_fmap in Hx as (u & -> & [_ Hu]%list_elem_of_filter).
  apply list_elem_of_fmap in Hu as (v & -> & Hv). by apply read_as_ascii, up_ascii, Hl.
Qed.

Lemma ascii_units l : Forall ascii_code l → Forall unit_code l.
Proof. intros Hl. eapply Forall_impl, ascii_unit_code. exact Hl. Qed.

Lemma trim_of_points l :
  Forall unit_code l → trim (of_points l) = of_points (trim_units l).
Proof.
  intros Hl. unfold trim. rewrite to_units_of_points by done.
  by apply of_units_unit, trim_units_Forall.
Qed.

Lemma normalize_ascii l : Forall ascii_code l → normalizeShortCode (of_points l) = of_points (norm l).
Proof.
  intros Hl. unfold normalizeShortCode. rewrite trim_of_points by by apply ascii_units.
  assert (Forall ascii_code (trim_units l)) as Ht by by apply trim_units_Forall.
  unfold toUpperCase. rewrite to_of_points_ascii, upper_ascii by done.
  rewrite to_units_of_points.
  - change (of_units (norm (trim_units l)) = of_points (norm l)). rewrite norm_trim.
    by apply of_units_ascii, norm_ascii.
  - apply ascii_units, Forall_fmap. eapply Forall_impl; [exact Ht|]. apply up_ascii.
Qed.

Lemma typed_char_up c u : code_char c → typed_char c u → is_separator (up u) = false ∧ read_as (up u) = c.
Proof.
  intros Hc Hu.
  assert (is_separator c = false ∧ read_as c = c ∧ up c = c) as (H1 & H2 & H3).
  { unfold is_separator. rewrite (code_char_no_space c) by done. unfold code_char in Hc.
    unfold read_as, up. repeat case_match; rewrite ?orb_true_iff, ?andb_true_iff in *; split_and!; lia. }
  destruct Hu as [c|c Hr|u Hu|u Hu].
  - by rewrite H3.
  - assert (up (c + 32) = c) as ->; [|done]. unfold up.
    destruct (Z.leb_spec 97 (c + 32)), (Z.leb_spec (c + 32) 122); simpl; lia.
  - repeat (apply elem_of_cons in Hu as [->|Hu]; [done|]). by apply elem_of_nil in Hu.
  - repeat (apply elem_of_cons in Hu as [->|Hu]; [done|]). by apply elem_of_nil in Hu.
Qed.

Lemma typed_norm cs l : typed cs l → norm l = cs.
Proof.
  induction 1 as [|c u cs l Hc Hu Ht IH|u cs l Ha Hs Ht IH]; [done|..]; rewrite norm_cons.
  - destruct (typed_char_up c u Hc Hu) as [-> ->]. by rewrite IH.
  - by rewrite up_separator, Hs.
Qed.

Lemma typed_char_ascii c u : code_char c → typed_char c u → ascii_code u.
Proof.
  unfold code_char, ascii_code. intros Hc Hu.
  destruct Hu as [c|c Hr|u Hu|u Hu]; rewrite ?elem_of_cons, ?elem_of_nil in *; lia.
Qed.

Lemma typed_ascii cs l : typed cs l → Forall ascii_code l.
Proof. induction 1; constructor; eauto using typed_char_ascii. Qed.

(** ** Searching *)

Lemma indexOf_None u l : indexOf u l = None ↔ u ∉ l.
Proof.
  induction l as [|v l IH]; simpl; [split; [by intros _ ?%elem_of_nil|done]|].
  rewrite not_elem_of_cons. case_decide; [naive_solver|]. rewrite fmap_None, IH. naive_solver.
Qed.

Lemma indexOf_app u l k : u ∉ l → indexOf u (l ++ u :: k) = Some (length l).
Proof.
  induction l as [|v l IH]; simpl; [by rewrite decide_True|].
  rewrite not_elem_of_cons. intros [Hv Hl]. rewrite decide_False by done. by rewrite IH.
Qed.

Lemma elem_of_rev {A} (x : A) l : x ∈ rev l ↔ x ∈ l.
Proof. by rewrite !list_elem_of_In, <-in_rev. Qed.

Lemma lastIndexOf_None u l : u ∉ l → lastIndexOf u l = None.
Proof.
  intros Hu. unfold lastIndexOf. by rewrite (proj2 (indexOf_None u (rev l))) by by rewrite elem_of_rev.
Qed.

Lemma lastIndexOf_app u l k : u ∉ k → lastIndexOf u (l ++ u :: k) = Some (length l).
Proof.
  intros Hu. unfold lastIndexOf. rewrite rev_app_distr. simpl. rewrite <-app_assoc. simpl.
  rewrite indexOf_app by by rewrite elem_of_rev. simpl. f_equal.
  rewrite length_app, length_rev. simpl. lia.
Qed.

Lemma includes_absent sub u text : u ∈ sub → u ∉ text → includes sub text = false.
Proof.
  intros Hs. assert (sub ≠ []) as Hne by by intros ->; apply elem_of_nil in Hs.
  induction text as [|v text IH]; intros Hu; simpl.
  - rewrite orb_false_r. apply bool_decide_eq_false. by intros ?%prefix_nil_inv.
  - apply orb_false_iff. split; [|by apply IH; set_solver].
    apply bool_decide_eq_false. intros [k Hk]. apply Hu. rewrite Hk. set_solver.
Qed.

(** ** Server names *)

Definition name_char (c : Z) : Prop := alnum c = true ∨ c = 45 ∨ c = 46.

(** A name, and the digits of a port if there is one. *)
Definition host_text (name : list Z) (port : option (list Z)) : list Z :=
  name ++ match port with None => [] | Some ds => 58 :: ds end.

Lemma host_shape Q : matches host_regex Q →
  ∃ name port, Q = host_text name port ∧ name ≠ [] ∧ Forall name_char name ∧
    ∀ ds, port = Some ds → Forall (λ c, is_digit c = true) ds.
Proof.
  unfold host_regex. rewrite matches_Then. intros (l1 & l2 & -> & Hl1 & Hl2).
  apply matches_Then in Hl2 as (l3 & l4 & -> & Hl3 & Hl4).
  pose proof (matches_classes _ _ Hl1) as Hc1. pose proof (matches_classes _ _ Hl3) as Hc3.
  assert (l1 ++ l3 ≠ []) as Hne.
  { intros [-> _]%app_nil. apply matches_Then in Hl1 as ([|? ?] & k & Heq & Hk & _); [|done].
    inversion Hk. }
  assert (Forall name_char (l1 ++ l3)) as Hname.
  { apply Forall_app. split; (eapply Forall_impl; [eassumption|]); intros c; unfold label, Maybe, name_char;
      cbn [classes]; unfold alnum_dash; rewrite ?orb_true_iff, ?Z.eqb_eq; intuition congruence. }
  apply matches_Maybe in Hl4 as [->|Hp].
  - exists (l1 ++ l3), None. split_and!; try done. unfold host_text. by rewrite !app_nil_r.
  - apply matches_Then in Hp as (c & ds & -> & Hc & Hds). inversion Hc as [|p d Hd| | | | |]; subst.
    apply Z.eqb_eq in Hd as <-. exists (l1 ++ l3), (Some ds). split_and!; try done.
    + unfold host_text. by rewrite <-app_assoc.
    + intros ds' [= <-]. apply matches_classes in Hds. eapply Forall_impl; [exact Hds|].
      intros e. unfold UpTo, Maybe. cbn [classes]. rewrite !orb_true_iff. intuition congruence.
Qed.

Lemma alnum_spec c : alnum c = true ↔
  97 <= c <= 122 ∨ 65 <= c <= 90 ∨ c = 0x17F ∨ c = 0x212A ∨ 48 <= c <= 57.
Proof. unfold alnum, letter, is_digit. rewrite !orb_true_iff, !andb_true_iff. lia. Qed.

Lemma digit_spec c : is_digit c = true ↔ 48 <= c <= 57.
Proof. unfold is_digit. rewrite andb_true_iff. lia. Qed.

(** The characters of a server name and its port. *)
Definition host_char (c : Z) : Prop := name_char c ∨ c = 58.

Lemma host_chars Q : matches host_regex Q → Forall host_char Q.
Proof.
  intros (name & port & -> & _ & Hn & Hp)%host_shape. apply Forall_app. split.
  - eapply Forall_impl; [exact Hn|]. by left.
  - destruct port as [ds|]; [|done]. constructor; [by right|]. eapply Forall_impl; [by apply Hp|].
    intros c Hc. left. left. apply alnum_spec. apply digit_spec in Hc. lia.
Qed.

Lemma host_char_cases c : host_char c →
  97 <= c <= 122 ∨ 65 <= c <= 90 ∨ c = 0x17F ∨ c = 0x212A ∨ 48 <= c <= 57 ∨ c = 45 ∨ c = 46 ∨ c = 58.
Proof. unfold host_char, name_char. rewrite alnum_spec. lia. Qed.

Lemma host_char_no_space c : host_char c → is_space c = false.
Proof.
  intros Hc%host_char_cases. unfold is_space. apply orb_false_iff. split.
  - apply bool_decide_eq_false. rewrite !elem_of_cons, elem_of_nil. lia.
  - apply andb_false_iff. rewrite !Z.leb_gt. lia.
Qed.

Lemma host_char_unit c : host_char c → unit_code c.
Proof. intros Hc%host_char_cases. unfold unit_code. lia. Qed.

(** The number of a port is one that a TCP port can have. *)
Definition port_ok (port : option (list Z)) : Prop :=
  ∀ ds, port = Some ds → 0 < decimal ds <= 65535.

Lemma name_char_colon name : Forall name_char name → 58 ∉ name.
Proof.
  rewrite Forall_forall. intros Hn Hin. specialize (Hn _ Hin). unfold name_char in Hn.
  rewrite alnum_spec in Hn. lia.
Qed.

Lemma digits_colon ds : Forall (λ c, is_digit c = true) ds → 58 ∉ ds.
Proof. rewrite Forall_forall. intros Hn Hin%Hn. apply digit_spec in Hin. lia. Qed.

Lemma split_host name port :
  Forall name_char name → (∀ ds, port = Some ds → Forall (λ c, is_digit c = true) ds) →
  split_colon (host_text name port) = (name, port).
Proof.
  intros Hn%name_char_colon Hp. unfold split_colon, host_text. destruct port as [ds|].
  - rewrite indexOf_app by done. rewrite take_app_length.
    replace (drop (S (length name)) (name ++ 58 :: ds)) with ds.
    + rewrite (proj2 (indexOf_None 58 ds)); [done|]. by apply digits_colon, Hp.
    + rewrite drop_app_ge by lia. by replace (S (length name) - length name)%nat with 1%nat by lia.
  - rewrite app_nil_r. by rewrite (proj2 (indexOf_None 58 name)).
Qed.

Lemma valid_host name port :
  matches host_regex (host_text name port) → Forall name_char name →
  (∀ ds, port = Some ds → Forall (λ c, is_digit c = true) ds) →
  isValidServerHost (of_points (host_text name port)) = true ↔ port_ok port.
Proof.
  intros Hm Hn Hp. pose proof (host_chars _ Hm) as Hc.
  assert (Forall unit_code (host_text name port)) as Hu
    by (eapply Forall_impl; [exact Hc|]; apply host_char_unit).
  unfold isValidServerHost. rewrite trim_of_points by done.
  rewrite trim_units_id by (eapply Forall_impl; [exact Hc|]; apply host_char_no_space).
  rewrite to_of_points by (eapply Forall_impl; [exact Hu|]; apply unit_point_code).
  rewrite (proj2 (accepts_matches _ _) Hm), to_units_of_points, split_host by done. simpl.
  unfold port_ok. destruct port as [ds|]; [|naive_solver].
  rewrite andb_true_iff, Z.ltb_lt, Z.leb_le. naive_solver.
Qed.

(** ** Small letters *)

Lemma lower_stable : stable lower_point host_regex.
Proof.
  assert (∀ c, alnum c = true → alnum (lower_point c) = true) as Ha.
  { intros c. rewrite !alnum_spec. unfold lower_point. repeat case_match; lia. }
  assert (∀ c, is_digit c = true → is_digit (lower_point c) = true) as Hd.
  { intros c. rewrite !digit_spec. unfold lower_point. repeat case_match; lia. }
  assert (∀ c, alnum_dash c = true → alnum_dash (lower_point c) = true) as Had.
  { intros c. unfold alnum_dash. rewrite !orb_true_iff, !Z.eqb_eq. intros [?| ->]; auto. }
  unfold host_regex, label, UpTo, Maybe. cbn [stable].
  split_and!; auto; by intros c <-%Z.eqb_eq.
Qed.

Lemma lower_digits ds : Forall (λ c, is_digit c = true) ds → lower_point <$> ds = ds.
Proof.
  induction 1 as [|c ds Hc _ IH]; csimpl; [done|]. rewrite IH. apply digit_spec in Hc. f_equal.
  unfold lower_point. repeat case_match; lia.
Qed.

Lemma lower_idemp c : lower_point (lower_point c) = lower_point c.
Proof. unfold lower_point. repeat case_match; lia. Qed.

Lemma lower_name name : Forall name_char name → Forall name_char (lower_point <$> name).
Proof.
  intros Hn. apply Forall_fmap. eapply Forall_impl; [exact Hn|]. intros c. unfold name_char. simpl.
  rewrite !alnum_spec. unfold lower_point. repeat case_match; lia.
Qed.

Lemma lower_host name port :
  (∀ ds, port = Some ds → Forall (λ c, is_digit c = true) ds) →
  lower_point <$> host_text name port = host_text (lower_point <$> name) port.
Proof.
  intros Hp. unfold host_text. rewrite fmap_app. f_equal. destruct port as [ds|]; [|done].
  csimpl. by rewrite lower_digits by auto.
Qed.

(** A server name that is accepted stays one in small letters. *)
Lemma lower_valid name port :
  matches host_regex (host_text name port) → Forall name_char name →
  (∀ ds, port = Some ds → Forall (λ c, is_digit c = true) ds) →
  isValidServerHost (of_points (host_text name port)) = true →
  isValidServerHost (of_points (host_text (lower_point <$> name) port)) = true.
Proof.
  intros Hm Hn Hp. rewrite valid_host by done. rewrite valid_host; [done| |by apply lower_name|done].
  rewrite <-lower_host by done. apply matches_fmap; [apply lower_stable|done].
Qed.

(** ** Parsing *)

Lemma no_space_suffix l k : Forall (λ c, is_space c = false) k → k ≠ [] →
  trim_units (l ++ k) = drop_spaces l ++ k.
Proof.
  intros Hk Hne. destruct k as [|c k]; [done|]. unfold trim_units.
  assert (drop_spaces (l ++ c :: k) = drop_spaces l ++ c :: k) as ->.
  { apply Forall_cons in Hk as [Hc _]. induction l as [|d l IH]; simpl; [by rewrite Hc|].
    by destruct (is_space d). }
  rewrite rev_app_distr. assert (Forall (λ c, is_space c = false) (rev (c :: k))) as Hr
    by by apply Forall_rev.
  destruct (rev (c :: k)) as [|d r] eqn:Hrev; [by apply (f_equal length) in Hrev; rewrite length_rev in Hrev|].
  apply Forall_cons in Hr as [Hd _]. simpl. rewrite Hd.
  change (rev ((d :: r) ++ rev (drop_spaces l)) = drop_spaces l ++ c :: k).
  by rewrite <-Hrev, rev_app_distr, !rev_involutive.
Qed.

(** [parseShortCode] of a text without a server name. *)
Lemma parse_bare l cs :
  Forall ascii_code l → 58 ∉ l → 64 ∉ l → norm l = cs → is_code cs →
  parseShortCode (of_points l) = Some (ParsedShortCode.mk (of_points cs) None).
Proof.
  intros Ha H58 H64 Hn [Hlen Hcs]. unfold parseShortCode.
  assert (Forall ascii_code cs) as Hca by (eapply Forall_impl; [exact Hcs|]; apply code_char_ascii).
  assert (Forall ascii_code (trim_units l)) as Hta by by apply trim_units_Forall.
  assert (∀ x, x ∉ l → x ∉ trim_units l) as Hsub.
  { intros x Hx Hin. pose proof (trim_units_Forall (λ y, y ≠ x) l) as Hf.
    rewrite !Forall_forall in Hf. refine (Hf _ x Hin eq_refl). by intros y Hy ->. }
  rewrite trim_of_points, to_units_of_points by by apply ascii_units.
  rewrite (includes_absent _ 58), lastIndexOf_None by (auto || set_solver).
  rewrite of_units_ascii, normalize_ascii, norm_trim, Hn by done.
  unfold str_length. rewrite to_units_of_points, Hlen by by apply ascii_units.
  rewrite (proj2 (in_alphabet_spec _)); [done|]. by rewrite to_of_points_ascii.
Qed.

(** A server name and port, as they may stand behind a code. *)
Record is_host (name : list Z) (port : option (list Z)) : Prop := IsHost {
  host_matches : matches host_regex (host_text name port);
  host_name : Forall name_char name;
  host_digits ds : port = Some ds → Forall (λ c, is_digit c = true) ds;
  host_port : port_ok port;
}.

Lemma is_host_chars name port : is_host name port → Forall host_char (host_text name port).
Proof. intros []. by apply host_chars. Qed.

Lemma is_host_units name port : is_host name port → Forall unit_code (host_text name port).
Proof. intros Hh. eapply Forall_impl; [by apply is_host_chars|]. apply host_char_unit. Qed.

Lemma is_host_valid name port : is_host name port → isValidServerHost (of_points (host_text name port)) = true.
Proof. intros []. by apply valid_host. Qed.

Lemma is_host_lower name port : is_host name port → is_host (lower_point <$> name) port.
Proof.
  intros []. split; [|by apply lower_name|done..]. rewrite <-lower_host by done.
  apply matches_fmap; [apply lower_stable|done].
Qed.

Lemma host_absent x Q : Forall host_char Q → x = 64 ∨ x = 47 → x ∉ Q.
Proof. rewrite Forall_forall. intros HQ Hx Hin. specialize (HQ _ Hin). apply host_char_cases in HQ. lia. Qed.

(** The text with a server name. *)
Lemma parse_qualified l cs name port :
  Forall ascii_code l → 47 ∉ l → norm l = cs → is_code cs → is_host name port →
  parseShortCode (of_points (l ++ 64 :: host_text name port)) =
    Some (ParsedShortCode.mk (of_points cs) (Some (of_points (host_text (lower_point <$> name) port)))).
Proof.
  intros Ha H47 Hn [Hlen Hcs] Hh. set (Q := host_text name port).
  pose proof (is_host_chars _ _ Hh) as Hc. pose proof (is_host_units _ _ Hh) as Hu. fold Q in Hc, Hu.
  assert (Forall ascii_code cs) as Hca by (eapply Forall_impl; [exact Hcs|]; apply code_char_ascii).
  assert (Forall (λ c, is_space c = false) Q) as Hns
    by (eapply Forall_impl; [exact Hc|]; apply host_char_no_space).
  set (l' := drop_spaces l).
  assert (Forall ascii_code l') as Hl' by by apply drop_spaces_Forall.
  assert (47 ∉ l') as H47'.
  { intros Hin. apply H47. destruct (drop_spaces_suffix l) as [k ->]. apply elem_of_app. by right. }
  assert (∀ k, Forall ascii_code k → Forall unit_code (k ++ 64 :: Q)) as Hunit.
  { intros k Hk. apply Forall_app. split; [by apply ascii_units|]. constructor; [|done].
    unfold unit_code. lia. }
  unfold parseShortCode.
  rewrite trim_of_points, no_space_suffix; [|by constructor|done|by apply Hunit].
  fold l'. rewrite to_units_of_points by by apply Hunit.
  rewrite (includes_absent _ 47); [|set_solver|].
  2:{ pose proof (host_absent 47 Q Hc). set_solver. }
  rewrite lastIndexOf_app by (apply host_absent; auto).
  rewrite take_app_length.
  assert (drop (S (length l')) (l' ++ 64 :: Q) = Q) as ->.
  { rewrite drop_app_ge by lia. by replace (S (length l') - length l')%nat with 1%nat by lia. }
  rewrite of_units_ascii, normalize_ascii by done. unfold l'. rewrite norm_drop_spaces, Hn.
  unfold str_length. rewrite to_units_of_points, Hlen by by apply ascii_units.
  rewrite (proj2 (in_alphabet_spec _)) by by rewrite to_of_points_ascii.
  change (negb ((Z.of_nat 8 =? SHORT_CODE_LENGTH) && true)) with false. cbv iota.
  rewrite (trim_units_id Q Hns), (of_units_unit Q Hu). unfold Q. rewrite is_host_valid by done.
  unfold toLowerCase. rewrite to_of_points by (eapply Forall_impl; [exact Hu|]; apply unit_point_code).
  by rewrite lower_host by apply Hh.
Qed.

(** ** What the parser accepts *)

Lemma code_of_units L :
  Forall unit16 L → str_length (of_units L) = 8 → Forall code_char (to_points (of_units L)) →
  is_code L ∧ of_units L = of_points L.
Proof.
  intros HL Hlen Hc. pose proof (units_points_valid _ HL) as Hv.
  unfold str_length in Hlen. rewrite to_of_units16 in Hlen by done.
  unfold of_units in Hc. rewrite to_of_points in Hc by done.
  assert (units_points L = L) as Heq.
  { apply units_points_small. eapply Forall_impl; [exact Hc|]. unfold code_char. intros. lia. }
  rewrite Heq in Hc. split; [|unfold of_units; by rewrite Heq]. split; [lia|done].
Qed.

Lemma host_of_units L :
  Forall unit16 L → trim_units L = L → isValidServerHost (of_units L) = true →
  ∃ name port, is_host name port ∧ of_units L = of_points (host_text name port).
Proof.
  intros HL Ht Hv. assert (accepts host_regex (to_points (trim (of_units L))) = true) as Hm.
  { unfold isValidServerHost in Hv. by destruct (accepts _ _). }
  apply accepts_matches in Hm.
  unfold trim in Hm. rewrite to_of_units16, Ht in Hm by done. unfold of_units in Hm.
  rewrite to_of_points in Hm by by apply units_points_valid.
  assert (units_points L = L) as Heq.
  { apply units_points_small. eapply Forall_impl; [by apply host_chars|].
    intros c Hc%host_char_cases. simpl. lia. }
  rewrite Heq in Hm. assert (of_units L = of_points L) as HL' by (unfold of_units; by rewrite Heq).
  rewrite HL' in *. destruct (host_shape _ Hm) as (name & port & -> & Hne & Hn & Hd).
  exists name, port. split; [|done]. split; [done..|]. by apply (valid_host name).
Qed.

(** [normalizeShortCode] gives a list of units. *)
Lemma normalize_units raw : is_text raw → ∃ L, normalizeShortCode raw = of_units L ∧ Forall unit16 L.
Proof.
  intros Hr. unfold normalizeShortCode. set (U := to_units _).
  assert (Forall unit16 U) as HU by by apply to_units_text, text_upper, text_trim.
  eexists. split; [reflexivity|]. rewrite !Forall_forall in *. intros x Hx.
  apply list_elem_of_fmap in Hx as (u & -> & [_ Hu]%list_elem_of_filter).
  specialize (HU _ Hu). unfold read_as, unit16 in *. repeat case_match; lia.
Qed.

Lemma parse_cases raw p : is_text raw → parseShortCode raw = Some p →
  ∃ cs, is_code cs ∧ ParsedShortCode.code p = of_points cs ∧
    match ParsedShortCode.host p with
    | None => True
    | Some h => ∃ name port, is_host name port ∧ h = of_points (host_text (lower_point <$> name) port)
    end.
Proof.
  intros Hr. unfold parseShortCode. set (trimmed := to_units (trim raw)).
  assert (Forall unit16 trimmed) as Ht by by apply to_units_text, text_trim.
  destruct (includes _ _); [done|].
  set (parts := match lastIndexOf 64 trimmed with None => _ | Some _ => _ end).
  assert (∃ codePart, parts.1 = codePart ∧ Forall unit16 codePart ∧
    ∀ h, parts.2 = Some h → ∃ L, Forall unit16 L ∧ trim_units L = L ∧ h = of_units L)
    as (codePart & Hp1 & Hcp & Hp2).
  { subst parts. eexists. split; [reflexivity|]. destruct (lastIndexOf 64 trimmed) as [i|]; simpl;
      (split; [by try apply Forall_take|]); [|done]. intros h [= <-]. eexists.
    split; [|split; [apply trim_units_idemp|done]]. by apply trim_units_Forall, Forall_drop. }
  destruct parts as [codePart' hostPart]. simpl in Hp1, Hp2. subst codePart'.
  destruct (normalize_units (of_units codePart)) as (L & HL & HLu); [by apply text_of_units|].
  rewrite HL. cbv zeta.
  destruct (str_length (of_units L) =? SHORT_CODE_LENGTH) eqn:Hlen; [|done].
  apply Z.eqb_eq in Hlen. destruct (in_alphabet (of_units L)) eqn:Ha; [|done].
  apply in_alphabet_spec in Ha. destruct (code_of_units L) as [Hcode Heq]; [done..|].
  cbn [negb andb]. rewrite Heq. destruct hostPart as [h|].
  - destruct (Hp2 h eq_refl) as (K & HK & HKt & ->).
    destruct (isValidServerHost (of_units K)) eqn:Hv; [|done]. intros [= <-].
    exists L. split_and!; [done..|]. destruct (host_of_units K) as (name & port & Hh & HKeq); [done..|].
    exists name, port. split; [done|]. simpl. rewrite HKeq. unfold toLowerCase.
    rewrite to_of_points, lower_host; [done|apply Hh|].
    eapply Forall_impl; [by apply is_host_units|]. apply unit_point_code.
  - intros [= <-]. by exists L.
Qed.

(** ** Formatting *)

Lemma code_ascii cs : is_code cs → Forall ascii_code cs.
Proof. intros [_ Hcs]. eapply Forall_impl; [exact Hcs|]. apply code_char_ascii. Qed.

(** The characters of a formatted code. *)
Definition dashed (cs : list Z) : list Z := take 4 cs ++ 45 :: drop 4 cs.

Lemma dashed_typed cs : is_code cs → typed cs (dashed cs).
Proof.
  intros [_ Hcs]. unfold dashed. rewrite <-(take_drop 4 cs) at 1.
  rewrite <-(take_drop 4 cs) in Hcs. apply Forall_app in Hcs as [H1 H2].
  assert (∀ l, Forall code_char l → typed l l) as Hsame
    by (induction 1; [constructor|by constructor; [|constructor|]]).
  revert H1. generalize (take 4 cs). induction l as [|c l IH]; simpl; intros H1.
  - apply typed_blank; [by unfold ascii_code; lia|done|by apply Hsame].
  - apply Forall_cons in H1 as [Hc Hl]. constructor; [done|constructor|by apply IH].
Qed.

Lemma of_points_app l k : of_points (l ++ k) = of_points l +:+ of_points k.
Proof. unfold of_points. by rewrite bind_app, fmap_app, of_chars_app. Qed.

Lemma format_code cs : is_code cs → formatShortCode (of_points cs) = of_points (dashed cs).
Proof.
  intros Hc. pose proof (ascii_units _ (code_ascii _ Hc)) as Hu. destruct Hc as [Hlen _].
  unfold formatShortCode, slice, slice_from, dashed. rewrite to_units_of_points by done.
  rewrite !of_units_unit by (by apply Forall_take || by apply Forall_drop).
  change (Z.to_nat (4 - 0)) with 4%nat. change (Z.to_nat 0) with 0%nat. change (Z.to_nat 4) with 4%nat.
  rewrite drop_0, of_points_app. done.
Qed.

Lemma typed_absent x cs l : x = 58 ∨ x = 64 ∨ x = 47 → typed cs l → x ∉ l.
Proof.
  intros Hx. induction 1 as [|c u cs l Hc Hu Ht IH|u cs l Ha Hs Ht IH];
    [apply not_elem_of_nil|apply not_elem_of_cons; split; [intros <-|done]..].
  - unfold code_char in Hc. inversion Hu as [|? Hr| ? Hu'|? Hu']; subst; try lia;
      rewrite !elem_of_cons, elem_of_nil in Hu'; lia.
  - unfold is_separator, is_space in Hs. apply orb_true_iff in Hs as [Hs|Hs]; [|lia].
    apply orb_true_iff in Hs as [Hs|Hs]; [|lia]. apply bool_decide_eq_true in Hs.
    rewrite !elem_of_cons, elem_of_nil in Hs. lia.
Qed.

Lemma typed_parses cs l : is_code cs → typed cs l →
  parseShortCode (of_points l) = Some (ParsedShortCode.mk (of_points cs) None).
Proof.
  intros Hc Hl. apply parse_bare; [by eapply typed_ascii|eapply typed_absent; eauto..|by apply typed_norm|done].
Qed.

Lemma typed_qualified_parses cs l name port : is_code cs → typed cs l → is_host name port →
  parseShortCode (of_points (l ++ 64 :: host_text name port)) =
    Some (ParsedShortCode.mk (of_points cs) (Some (of_points (host_text (lower_point <$> name) port)))).
Proof.
  intros Hc Hl Hh. apply parse_qualified; [by eapply typed_ascii|eapply typed_absent; eauto
    |by apply typed_norm|done..].
Qed.

Lemma format_qualified cs h : is_code cs →
  formatQualifiedShortCode (of_points cs) h = of_points (dashed cs) +:+ "@" +:+ h.
Proof.
  intros Hc. unfold formatQualifiedShortCode. rewrite normalize_ascii by by apply code_ascii.
  rewrite (typed_norm cs cs).
  - unfold str_length. rewrite to_units_of_points by by apply ascii_units, code_ascii.
    destruct Hc as [Hlen Hcs] eqn:Hc'. rewrite Hlen. by rewrite format_code.
  - destruct Hc as [_ Hcs]. induction Hcs; constructor; try done. constructor.
Qed.

(** ** The properties *)

(** A code can be typed as people type.  A code of the alphabet is read
    back from any text made of its characters with small letters, an O for a
    zero, an I or an L for a one, and blanks and dashes anywhere; and with a
    server name behind an at sign, that name is read too, in small letters. *)
Theorem typed_code_parses (cs l : list Z) (Hc : is_code cs) (Hl : typed cs l) :
  parseShortCode (of_points l) = Some (ParsedShortCode.mk (of_points cs) None) ∧
  ∀ name port, is_host name port →
    parseShortCode (of_points l +:+ "@" +:+ of_points (host_text name port)) =
      Some (ParsedShortCode.mk (of_points cs)
              (Some (of_points (host_text (lower_point <$> name) port)))).
Proof.
  split; [by apply typed_parses|]. intros name port Hh.
  rewrite <-(typed_qualified_parses cs l name port) by done. f_equal. by rewrite of_points_app.
Qed.

(** What is accepted as a code is one, and can be passed on.  Whatever is
    typed, an accepted text gives eight characters of the alphabet and perhaps
    a valid server name in small letters; and the text the app shows for them
    is accepted again with the same result. *)
Theorem accepted_code_shown (raw : string) p (Hr : is_text raw) (Hp : parseShortCode raw = Some p) :
  (∃ cs, is_code cs ∧ ParsedShortCode.code p = of_points cs) ∧
  match ParsedShortCode.host p with
  | None => parseShortCode (formatShortCode (ParsedShortCode.code p)) = Some p
  | Some h =>
      isValidServerHost h = true ∧ toLowerCase h = h ∧
      parseShortCode (formatQualifiedShortCode (ParsedShortCode.code p) h) = Some p
  end.
Proof.
  destruct (parse_cases raw p Hr Hp) as (cs & Hc & Hcode & Hh). split; [by exists cs|].
  destruct p as [code [h|]]; simpl in *; subst code.
  - destruct Hh as (name & port & Hh & ->). pose proof (is_host_lower _ _ Hh) as Hl.
    split_and!.
    + by apply is_host_valid.
    + unfold toLowerCase. rewrite to_of_points.
      * rewrite lower_host by apply Hh. do 2 f_equal. rewrite <-list_fmap_compose.
        apply list_fmap_ext. intros i c _. apply lower_idemp.
      * eapply Forall_impl; [by apply is_host_units|]. apply unit_point_code.
    + rewrite format_qualified by done.
      change (of_points (dashed cs) +:+ "@" +:+ ?h) with (of_points (dashed cs) +:+ (of_points [64] +:+ h)).
      rewrite <-!of_points_app. simpl. rewrite (typed_qualified_parses cs) by (done || by apply dashed_typed).
      do 4 f_equal. f_equal. rewrite <-list_fmap_compose. apply list_fmap_ext. intros i c _. apply lower_idemp.
  - rewrite format_code by done. by apply typed_parses; [|apply dashed_typed].
Qed.

(** ** Server names that are no names

    A blank before the path is kept: [isValidServerHost] trims what it is asked
    about, and [normalizeServerHost] returns it untrimmed. *)
Lemma blank_kept : normalizeServerHost "https://sync.example.org /health" = Some "sync.example.org ".
Proof. by_compute. Qed.

(** The address of the loopback interface in IPv6 has colons itself. *)
Lemma loopback_v6_not_local : isLocalHost "::1" = false ∧ isLocalHost "[::1]" = false.
Proof. by_compute. Qed.

(** ** Witnesses *)

(** 4F1K20X9. *)
Definition sample_code : list Z := [52; 70; 49; 75; 50; 48; 88; 57].

Lemma sample_is_code : is_code sample_code.
Proof.
  split; [reflexivity|]. unfold sample_code, code_char.
  repeat (apply Forall_cons_2; [lia|]). apply Forall_nil_2.
Qed.

Lemma typed_code_parses_witness :
  parseShortCode " 4fi-k2 Ox9" = Some (ParsedShortCode.mk "4F1K20X9" None).
Proof.
  refine (proj1 (typed_code_parses sample_code [32; 52; 102; 105; 45; 107; 50; 32; 79; 120; 57]
    sample_is_code _)).
  unfold sample_code. apply typed_blank; [unfold ascii_code; lia|reflexivity|].
  assert (∀ c u cs l, code_char c → typed_char c u → typed cs l → typed (c :: cs) (u :: l))
    as Hnext by exact typed_next.
  unfold code_char in Hnext.
  apply Hnext; [lia|apply typed_same|]. apply Hnext; [lia|apply (typed_small 70); lia|].
  apply Hnext; [lia|apply typed_one; set_solver|].
  apply typed_blank; [unfold ascii_code; lia|reflexivity|].
  apply Hnext; [lia|apply (typed_small 75); lia|]. apply Hnext; [lia|apply typed_same|].
  apply typed_blank; [unfold ascii_code; lia|reflexivity|].
  apply Hnext; [lia|apply typed_zero; set_solver|].
  apply Hnext; [lia|apply (typed_small 88); lia|]. apply Hnext; [lia|apply typed_same|].
  apply typed_end.
Defined.

Lemma accepted_code_shown_witness :
  parseShortCode (formatQualifiedShortCode "4F7K2QX9" "sync.example.org") =
    Some (ParsedShortCode.mk "4F7K2QX9" (Some "sync.example.org")).
Proof.
  refine (proj2 (proj2 (proj2 (accepted_code_shown " 4f7k 2qx9@Sync.Example.org"
    (ParsedShortCode.mk "4F7K2QX9" (Some "sync.example.org")) _ _)))).
  - exists [32; 52; 102; 55; 107; 32; 50; 113; 120; 57; 64; 83; 121; 110;
      99; 46; 69; 120; 97; 109; 112; 108; 101; 46; 111; 114; 103].
    split; [vm_compute; reflexivity|]. unfold point_code.
    repeat (apply Forall_cons_2; [lia|]). apply Forall_nil_2.
  - vm_compute. reflexivity.
Defined.
