(* ===== verification/Settings.v ===== *)
(** * Connection settings

    packages/storage-sql/src/settingsStore.ts and the types of
    packages/core/src/connection.ts.  The settings table is a map from keys to
    texts; a stored text is parsed as [JSON.parse] does. *)

From S2P Require Import Prelude Model JsString Json JsonProps Effects ShortCode ShortCodeProps.
From Stdlib Require String.

Open Scope Z_scope.

Module ConnectionSettings.
Record t : Type := mk {
  serverHost : string;
  turnUrl : option string;
  turnUsername : option string;
  turnCredential : option string;
}.

#[global] Instance eq_dec : EqDecision t.
Proof. solve_decision. Defined.
End ConnectionSettings.

Module IceServer.
Record t : Type := mk {
  urls : string;
  username : option string;
  credential : option string;
}.
End IceServer.

Definition KEY : string := "connection".

(** The character of a quotation mark. *)
Definition quotation : string := of_chars [fromCharCode 34].

Module SettingsStore.
(** The settings table, and the [cached] of the store. *)
Record t : Type := mk {
  table : gmap string string;
  cached : option ConnectionSettings.t;
}.

Definition set_table x (s : t) : t := mk x (cached s).
Definition set_cached x (s : t) : t := mk (table s) x.

Section store.
Context (fallbackHost : string).
Abbreviation Store := (M SettingsStore.t).

(** The members of the stored value.  A value that is no object has none, but
    reading one of [null] throws. *)
Definition stored (row : option string) : result (list (string * json)) :=
  match row with
  | None => Ok []
  | Some value =>
      match JSON_parse value with
      | Some (JObj members) => Ok members
      | Some JNull => Err "Cannot read properties of null (reading 'serverHost')"
      | Some _ | None => Ok []
      end
  end.

(** The settings that the members of a stored value say. *)
Definition read_members (members : list (string * json)) : ConnectionSettings.t :=
  {| ConnectionSettings.serverHost :=
       match text_member "serverHost" members with
       | Some host => if isValidServerHost host then host else fallbackHost
       | None => fallbackHost
       end;
     ConnectionSettings.turnUrl :=
       match text_member "turnUrl" members with
       | Some url => if 0 <? str_length url then Some url else None
       | None => None
       end;
     ConnectionSettings.turnUsername := text_member "turnUsername" members;
     ConnectionSettings.turnCredential := text_member "turnCredential" members |}.

Definition get : Store ConnectionSettings.t :=
  gets cached ≫= λ c,
  match c with
  | Some settings => mret settings
  | None =>
      gets (λ s, table s !! KEY) ≫= λ row,
      lift (stored row) ≫= λ members,
      let settings := read_members members in
      modify (set_cached (Some settings)) ≫= λ _, mret settings
  end.

(** A [u] as the flags i and u read it: the letter [small], big or small. *)
Definition same_letter (small u : Z) : bool :=
  (u =? small) || (u =? small - 32) || ((small =? 115) && (u =? 0x17F)).

(** [/^turns?:/iu]. *)
Definition is_relay (points : list Z) : bool :=
  match points with
  | t :: u :: r :: n :: rest =>
      same_letter 116 t && same_letter 117 u && same_letter 114 r && same_letter 110 n &&
      match rest with
      | 58 :: _ => true
      | s :: 58 :: _ => same_letter 115 s
      | _ => false
      end
  | _ => false
  end.

(** What [JSON.stringify] is given. *)
Definition settings_json (settings : ConnectionSettings.t) : json :=
  let optional key (value : option string) :=
    match value with Some s => [(key, JStr s)] | None => [] end in
  JObj ([("serverHost", JStr (ConnectionSettings.serverHost settings))]
        ++ optional "turnUrl" (ConnectionSettings.turnUrl settings)
        ++ optional "turnUsername" (ConnectionSettings.turnUsername settings)
        ++ optional "turnCredential" (ConnectionSettings.turnCredential settings)).

(** The settings that [save] makes of what it is given. *)
Definition checked (next : ConnectionSettings.t) : result ConnectionSettings.t :=
  match normalizeServerHost (ConnectionSettings.serverHost next) with
  | None =>
      Err ("Could not read " +:+ quotation +:+ trim (ConnectionSettings.serverHost next) +:+ quotation
           +:+ " as a server address. It should look like sync.example.org.")
  | Some host =>
      let turnUrl := default EmptyString (trim <$> ConnectionSettings.turnUrl next) in
      if (0 <? str_length turnUrl) && negb (is_relay (to_points turnUrl)) then
        Err (quotation +:+ turnUrl +:+ quotation
             +:+ " is not a relay address. It should start with turn: or turns:.")
      else
        Ok {| ConnectionSettings.serverHost := host;
              ConnectionSettings.turnUrl := if 0 <? str_length turnUrl then Some turnUrl else None;
              ConnectionSettings.turnUsername := trim <$> ConnectionSettings.turnUsername next;
              ConnectionSettings.turnCredential := ConnectionSettings.turnCredential next |}
  end.

Definition save (next : ConnectionSettings.t) : Store ConnectionSettings.t :=
  lift (checked next) ≫= λ settings,
  modify (λ s, set_table (<[KEY := JSON_stringify (settings_json settings)]> (table s)) s) ≫= λ _,
  modify (set_cached (Some settings)) ≫= λ _,
  mret settings.

Definition iceServers : Store (list IceServer.t) :=
  get ≫= λ settings,
  mret (IceServer.mk "stun:stun.l.google.com:19302" None None ::
        match ConnectionSettings.turnUrl settings with
        | Some url => [IceServer.mk url (ConnectionSettings.turnUsername settings)
                         (ConnectionSettings.turnCredential settings)]
        | None => []
        end).
End store.
End SettingsStore.

(** ** Properties *)

Import SettingsStore.

(** A store that has just been opened. *)
Definition reopened (s : SettingsStore.t) : SettingsStore.t := set_cached None s.

Lemma normalized_valid raw host : normalizeServerHost raw = Some host → isValidServerHost host = true.
Proof. unfold normalizeServerHost. by destruct (isValidServerHost _) eqn:Hv; intros [= <-]. Qed.

Lemma checked_valid next settings : checked next = Ok settings →
  isValidServerHost (ConnectionSettings.serverHost settings) = true ∧
  ∀ url, ConnectionSettings.turnUrl settings = Some url →
    0 < str_length url ∧ is_relay (to_points url) = true.
Proof.
  unfold checked. destruct (normalizeServerHost _) as [host|] eqn:Hh; [|done].
  apply normalized_valid in Hh. cbv zeta. set (url := default _ _).
  destruct (Z.ltb_spec 0 (str_length url)) as [Hlen|Hlen]; cbn [andb].
  - destruct (is_relay (to_points url)) eqn:Hr; [|done]. cbn [negb]. intros [= <-]. simpl.
    split; [done|]. by intros ? [= <-].
  - intros [= <-]. done.
Qed.

(** What [get] makes of what [save] stored. *)
Lemma read_settings_json fallback settings :
  isValidServerHost (ConnectionSettings.serverHost settings) = true →
  (∀ url, ConnectionSettings.turnUrl settings = Some url → 0 < str_length url) →
  ∃ members, settings_json settings = JObj members ∧ read_members fallback members = settings.
Proof.
  destruct settings as [host url name credential]. cbn [ConnectionSettings.serverHost ConnectionSettings.turnUrl].
  intros Hh Hu. eexists. split; [reflexivity|].
  unfold read_members.
  set (members := _ ++ _). assert (text_member "serverHost" members = Some host ∧
    text_member "turnUrl" members = url ∧ text_member "turnUsername" members = name ∧
    text_member "turnCredential" members = credential) as (-> & -> & -> & ->).
  { by destruct url, name, credential. }
  rewrite Hh. destruct url as [url|]; [|done]. by rewrite (proj2 (Z.ltb_lt _ _)) by by apply Hu.
Qed.

Lemma stored_settings settings :
  stored (Some (JSON_stringify (settings_json settings))) =
    match settings_json settings with JObj members => Ok members | _ => Ok [] end.
Proof.
  unfold stored. rewrite JSON_parse_stringify; [done|].
  apply safe_obj. simpl.
  by destruct (ConnectionSettings.turnUrl settings), (ConnectionSettings.turnUsername settings),
    (ConnectionSettings.turnCredential settings); repeat constructor.
Qed.

Lemma get_uncached fallback s : cached s = None →
  get fallback s =
    match stored (table s !! KEY) with
    | Ok members => (Ok (read_members fallback members), set_cached (Some (read_members fallback members)) s)
    | Err e => (Err e, s)
    end.
Proof.
  intros Hc. unfold get, mbind, M_bind, gets, lift, modify. rewrite Hc. by destruct (stored _).
Qed.

(** Settings that were saved are the settings.  If [save] takes them, the
    store says the same from then on, and so does one that opens the same table
    later, whatever its default; the server can be reached under the host it has,
    and a relay is one the connections know. *)
Theorem settings_roundtrip (next settings : ConnectionSettings.t) (s : SettingsStore.t) fallback fallback'
    (Hsave : (save next s).1 = Ok settings) :
  let s' := (save next s).2 in
  (get fallback s').1 = Ok settings ∧ (get fallback' (reopened s')).1 = Ok settings ∧
  isValidServerHost (ConnectionSettings.serverHost settings) = true ∧
  (∀ url, ConnectionSettings.turnUrl settings = Some url → is_relay (to_points url) = true) ∧
  ∀ key, key ≠ KEY → table s' !! key = table s !! key.
Proof.
  unfold save, lift, mbind, M_bind, modify in *. destruct (checked next) as [checked|e] eqn:Hc; [|done].
  simpl in Hsave. injection Hsave as ->. destruct (checked_valid _ _ Hc) as [Hh Hu].
  simpl. split_and!; [done| |done|by intros url Hurl; apply Hu|by intros key Hk; apply lookup_insert_ne].
  rewrite get_uncached by done. simpl. rewrite lookup_insert_eq, stored_settings.
  destruct (read_settings_json fallback' settings) as (members & -> & Hr); [done|by intros url Hurl; apply Hu|].
  by rewrite Hr.
Qed.

(** Settings that were spoilt do not stop the app.  Whatever text the table
    has, the settings can be read and name a server that can be reached (if the
    default does), unless the text is [null]: then [get] throws. *)
Theorem spoilt_settings (s : SettingsStore.t) fallback
    (Hc : cached s = None) (Hf : isValidServerHost fallback = true) :
  (∀ e, (get fallback s).1 = Err e ↔
     e = ("Cannot read properties of null (reading 'serverHost')" : string) ∧
     ∃ text, table s !! KEY = Some text ∧ JSON_parse text = Some JNull) ∧
  ∀ settings, (get fallback s).1 = Ok settings →
    isValidServerHost (ConnectionSettings.serverHost settings) = true ∧
    ∀ url, ConnectionSettings.turnUrl settings = Some url → 0 < str_length url.
Proof.
  rewrite get_uncached by done. unfold stored. split.
  - intros e. destruct (table s !! KEY) as [text|]; [|naive_solver].
    destruct (JSON_parse text) as [[]|] eqn:Hp; simpl; naive_solver.
  - intros settings. destruct (match table s !! KEY with Some _ => _ | None => _ end) as [members|e]; [|done].
    cbn [fst]. intros [= <-]. unfold read_members. simpl. split.
    + destruct (text_member _ _) as [host|]; [|done]. by destruct (isValidServerHost host) eqn:Hv.
    + intros url. destruct (text_member "turnUrl" _) as [u|]; [|done].
      destruct (Z.ltb_spec 0 (str_length u)); [by intros [= <-]|done].
Qed.

(** ** Witnesses *)

Definition typed_settings : ConnectionSettings.t :=
  ConnectionSettings.mk " https://Sync.example.org/health" (Some "turn:relay.example.org ") (Some "me") None.

Definition good_settings : ConnectionSettings.t :=
  ConnectionSettings.mk "sync.example.org" (Some "turn:relay.example.org") (Some "me") None.

Lemma settings_roundtrip_witness :
  (get "localhost:1234" (reopened (save typed_settings (SettingsStore.mk ∅ None)).2)).1 = Ok good_settings.
Proof.
  refine (proj1 (proj2 (settings_roundtrip typed_settings good_settings (SettingsStore.mk ∅ None)
    "localhost:1234" "localhost:1234" _))).
  vm_compute. reflexivity.
Defined.

Lemma spoilt_settings_witness :
  ∃ e, (get "localhost:1234" (SettingsStore.mk {[KEY := ("null" : string)]} None)).1 = Err e.
Proof.
  eexists. apply (spoilt_settings (SettingsStore.mk {[KEY := ("null" : string)]} None) "localhost:1234").
  - reflexivity.
  - vm_compute. reflexivity.
  - split; [reflexivity|]. exists ("null" : string). split; vm_compute; reflexivity.
Defined.
