(* ===== verification/Explain.v ===== *)
(** * What the person is told

    The texts of packages/services/src/vaultServices.ts: how a sync went, and
    why it failed. *)

From S2P Require Import Prelude Model Bytes JsString Protocol Effects Store Inbox Identity IdentityProps.
From S2P Require Import ShortCode Settings.
From Stdlib Require String.

Open Scope Z_scope.

Definition number (n : Z) : string := pretty n.

Definition plural (n : Z) : string := if n =? 1 then EmptyString else "s".

Definition describeSync (peerName : string) (received sent missing : Z) : string :=
  let shortfall :=
    if missing =? 0 then EmptyString
    else " " +:+ number missing +:+ " change" +:+ plural missing
         +:+ " did not arrive; they will be fetched again next time." in
  if (received =? 0) && (sent =? 0) then
    if missing =? 0 then "Checked with " +:+ peerName +:+ " — already in step."
    else "Checked with " +:+ peerName +:+ "." +:+ shortfall
  else
    let parts :=
      (if 0 <? received
       then ["received " +:+ number received +:+ " change" +:+ plural received] else [])
      ++ (if 0 <? sent then ["sent " +:+ number sent] else []) in
    "Synced with " +:+ peerName +:+ " — " +:+ String.concat " and " parts +:+ "." +:+ shortfall.

Definition short (value : string) : string :=
  if str_length value <=? 12 then value else slice value 0 8 +:+ "…".

(** [reason.includes(sub)]. *)
Definition has (reason sub : string) : bool :=
  includes (charCode <$> chars sub) (charCode <$> chars reason).

(** What stands before the next quotation mark, and what follows it. *)
Fixpoint until_quotation (l : list Z) : option (list Z * list Z) :=
  match l with
  | [] => None
  | c :: l =>
      if c =? 34 then Some ([], l)
      else match until_quotation l with Some (name, rest) => Some (c :: name, rest) | None => None end
  end.

Fixpoint after_prefix (prefix l : list Z) : option (list Z) :=
  match prefix, l with
  | [], _ => Some l
  | a :: prefix, b :: l => if a =? b then after_prefix prefix l else None
  | _ :: _, [] => None
  end.

Definition quoted_after (prefix : string) (l : list Z) : option (list Z * list Z) :=
  match after_prefix (charCode <$> chars (prefix +:+ quotation)) l with
  | Some l => until_quotation l
  | None => None
  end.

(** A text of the bytes of one. *)
Definition bytes_text (l : list Z) : string := of_chars (fromCharCode <$> l).

(** The expression that finds the names of the two files, at the first place
    where it matches. *)
Fixpoint two_files (l : list Z) : option (string * string) :=
  let here :=
    match quoted_after "This device tracks " l with
    | Some (ours, l) =>
        match quoted_after " and the peer tracks " l with
        | Some (theirs, _) => Some (bytes_text ours, bytes_text theirs)
        | None => None
        end
    | None => None
    end in
  match here, l with
  | Some files, _ => Some files
  | None, _ :: l => two_files l
  | None, [] => None
  end.

Definition explainFailure (reason : string) (code : option SessionCode) : string :=
  let weRefused := has reason "peer rejected:" in
  match two_files (charCode <$> chars reason) with
  | Some (ours, theirs) =>
      "This device is syncing " +:+ ours +:+ " and the other one is syncing " +:+ theirs +:+ ". "
      +:+ "They are separate files with no history in common, so there is nothing to combine. "
      +:+ "Keep whichever you want: on the device holding the other one, press “Stop tracking it”, then sync again."
  | None =>
      if has reason "neither device is tracking a vault" then
        "Connected, but neither device has a password file yet. Set one up on either device and it will reach the other by itself."
      else if has reason "does not track that vault" then
        "This device lost track of the file it was syncing. Pick it again under “The file on this device”."
      else if has reason "device has been revoked" then
        (if weRefused then "You disconnected that device on this one, so it was turned away. Press Reconnect under Devices to start syncing again."
         else "The other device has this one disconnected. Press Reconnect there — nothing needs doing on this device.")
      else if has reason "device is not paired with this one" then
        (if weRefused then "That device is not set up on this one, so it was turned away. Connect them again under Devices."
         else "The other device does not have this one set up. Connect them again, starting from that device.")
      else if has reason "device key has changed since pairing" then
        (if weRefused then "That device is not using the key you verified. Reinstalling PassVault does this — so does someone pretending to be it. Press Forget under Devices, then connect it again and compare the six digits."
         else "The other device no longer recognises this one's key. Press Forget for this device there, then connect the two again and compare the six digits.")
      else if has reason "the pairing numbers were not confirmed" then
        (if weRefused then "The numbers were not confirmed here, so nothing was shared and nothing was saved. Start again if that was not what you meant."
         else "The other device did not confirm the numbers, so nothing was shared. Check the same six digits are showing on both screens, then try again.")
      else if has reason "device id does not match" || has reason "signature did not verify" then
        (if weRefused then "The other device could not prove it is the one you connected, so nothing was shared. If it keeps happening, press Forget under Devices and connect it again."
         else "This device could not prove its identity to the other one. Connect the two again, comparing the six digits.")
      else if bool_decide (code = Some (protocol_code unsupported_version)) || has reason "speaks protocol" then
        "The two devices are running versions of PassVault that cannot talk to each other. Update both to the same version."
      else if bool_decide (code = Some (protocol_code malformed_message)) || bool_decide (code = Some (protocol_code limit_exceeded)) then
        "The other device sent something this one could not read, so the sync was stopped and nothing was changed. This usually means the two are on different versions of PassVault."
      else if bool_decide (code = Some timeout) || has reason "timed out waiting for" then
        "The other device stopped responding partway through. Nothing was lost — your changes are still here, and will go across next time you are both online."
      else if bool_decide (code = Some closed) || has reason "closed the control channel" then
        "The other device disconnected before the sync finished. Nothing was lost — press “Sync now” under Devices once it is back."
      else "Sync could not finish: " +:+ reason
  end.

(** ** Properties *)

(** The reasons with which an authenticator turns a peer away. *)
Definition reject_reasons : list string :=
  ["device id does not match the presented public key";
   "signature did not verify against the presented key";
   "device is not paired with this one";
   "the pairing numbers were not confirmed on this device";
   "device has been revoked";
   "device key has changed since pairing; pair again to accept the new key"].

Section authenticator.
Context `{Digest, Ed25519} {S : Type} `{!TrustStore S}.

Lemma verifyPeer_reasons keyPair pairingMode confirm now claim (s s' : S) reason :
  verifyPeer keyPair pairingMode confirm now claim s = (Ok (reject reason), s') →
  reason ∈ reject_reasons.
Proof.
  unfold verifyPeer, reject_reasons. case_decide; [intros [= <- _]; set_solver|].
  destruct (negb (verify _ _ _)); [intros [= <- _]; set_solver|].
  intros (decision & s1 & _ & Hd)%bind_ok. destruct decision as [device| | |].
  - apply bind_ok in Hd as (? & ? & _ & [= ? _]).
  - destruct (negb pairingMode); [injection Hd as <- _; set_solver|].
    destruct (negb (confirmed confirm claim)); [injection Hd as <- _; set_solver|].
    apply bind_ok in Hd as (? & ? & _ & [= ? _]).
  - injection Hd as <- _. set_solver.
  - injection Hd as <- _. set_solver.
Qed.

Definition unexplained (reason : string) : string := "Sync could not finish: " +:+ reason.

Lemma reject_explained reason code code' : reason ∈ reject_reasons →
  let here := explainFailure ("peer rejected: " +:+ reason) code in
  let there := explainFailure ("peer reported: " +:+ reason) code' in
  here ≠ there ∧ (∀ r, here ≠ unexplained r) ∧ (∀ r, there ≠ unexplained r).
Proof.
  unfold reject_reasons. rewrite !elem_of_cons, elem_of_nil.
  intros [->|[->|[->|[->|[->|[->|[]]]]]]]; vm_compute; split_and!; congruence.
Qed.

(** Both ends of a refusal are told what to do.  Whatever reason the
    authenticator has to turn a peer away, the session that refused and the one
    that was refused each show a sentence of its own, and neither shows the raw
    words of the protocol. *)
Theorem rejections_explained keyPair pairingMode confirm now claim (s s' : S) reason code code'
    (Hreject : verifyPeer keyPair pairingMode confirm now claim s = (Ok (reject reason), s')) :
  let here := explainFailure ("peer rejected: " +:+ reason) code in
  let there := explainFailure ("peer reported: " +:+ reason) code' in
  here ≠ there ∧ (∀ r, here ≠ unexplained r) ∧ (∀ r, there ≠ unexplained r).
Proof. by eapply reject_explained, verifyPeer_reasons. Qed.
End authenticator.

(** The device that lost track of its vault says so to the other one in words
    that the other one takes for its own; itself it has only the raw ones. *)
Lemma lost_track_told_to_the_other :
  explainFailure "peer reported: this device does not track that vault"
    (Some (protocol_code unknown_vault)) =
    "This device lost track of the file it was syncing. Pick it again under “The file on this device”." ∧
  explainFailure "local device does not track this vault" (Some (protocol_code unknown_vault)) =
    unexplained "local device does not track this vault".
Proof. split; vm_compute; reflexivity. Qed.

#[local] Existing Instance toy_digest.
#[local] Existing Instance toy_ed25519.

Lemma rejections_explained_witness :
  explainFailure "peer rejected: device id does not match the presented public key" None ≠
  explainFailure "peer reported: device id does not match the presented public key" None.
Proof.
  refine (proj1 (rejections_explained (DeviceKeyPair.mk "laptop" [] []) false None 0
    (Claim.mk "phone" [] [] [] "phone") (∅ : gmap DeviceId PairedDevice.t) ∅
    "device id does not match the presented public key" None None _)).
  vm_compute. reflexivity.
Defined.
