(* ===== verification/JsMap.v ===== *)
(** * JavaScript maps

    A [Map] iterates in insertion order and has a key once: it is a list of
    entries.  [set] keeps the place of a key that is there. *)

From S2P Require Import Prelude.

Section map.
Context {K : Type} `{EqDecision K} {V : Type}.
Implicit Types (m : list (K * V)) (k : K) (v : V).

Fixpoint map_set k v m : list (K * V) :=
  match m with
  | [] => [(k, v)]
  | (k', w) :: m => if decide (k' = k) then (k', v) :: m else (k', w) :: map_set k v m
  end.

Definition map_delete k m : list (K * V) := filter (λ e, e.1 ≠ k) m.

Fixpoint map_get k m : option V :=
  match m with
  | [] => None
  | (k', v) :: m => if decide (k' = k) then Some v else map_get k m
  end.

Lemma map_set_keys k v m : (map_set k v m).*1 = if decide (k ∈ m.*1) then m.*1 else m.*1 ++ [k].
Proof.
  induction m as [|[k' w] m IH]; csimpl; [done|].
  destruct (decide (k' = k)) as [->|Hne]; csimpl.
  - by rewrite decide_True by constructor.
  - rewrite IH. destruct (decide (k ∈ m.*1)).
    + by rewrite decide_True by by constructor.
    + by rewrite decide_False by by rewrite not_elem_of_cons.
Qed.

Lemma map_set_NoDup k v m : NoDup m.*1 → NoDup (map_set k v m).*1.
Proof.
  intros Hm. rewrite map_set_keys. case_decide; [done|].
  apply NoDup_app. split_and!; [done| |apply NoDup_singleton].
  intros x Hx ->%list_elem_of_singleton. done.
Qed.

Lemma elem_of_map_set k v m k' w : NoDup m.*1 →
  (k', w) ∈ map_set k v m ↔ (k' = k ∧ w = v) ∨ (k' ≠ k ∧ (k', w) ∈ m).
Proof.
  induction m as [|[k0 v0] m IH]; csimpl; intros Hm.
  - rewrite list_elem_of_singleton, elem_of_nil. naive_solver.
  - apply NoDup_cons in Hm as [Hk Hm]. destruct (decide (k0 = k)) as [->|Hne]; rewrite !elem_of_cons.
    + split; [|naive_solver]. intros [[= -> ->]|Hin]; [by left|]. right. split; [|by right].
      intros ->. apply Hk. by apply (list_elem_of_fmap_2 fst) in Hin.
    + rewrite IH by done. naive_solver.
Qed.

Lemma elem_of_map_delete k m k' w : (k', w) ∈ map_delete k m ↔ k' ≠ k ∧ (k', w) ∈ m.
Proof. unfold map_delete. by rewrite list_elem_of_filter. Qed.

Lemma map_delete_NoDup k m : NoDup m.*1 → NoDup (map_delete k m).*1.
Proof.
  intros Hm. unfold map_delete. induction m as [|[k' v] m IH]; csimpl; [done|].
  apply NoDup_cons in Hm as [Hk Hm]. rewrite filter_cons. case_decide; csimpl; [|by apply IH].
  constructor; [|by apply IH]. intros [[q t] [Hq Hin]]%list_elem_of_fmap. simpl in *. subst.
  apply Hk. apply list_elem_of_filter in Hin as [_ Hin]. by apply (list_elem_of_fmap_2 fst) in Hin.
Qed.

Lemma map_get_Some k m v : map_get k m = Some v → (k, v) ∈ m.
Proof.
  induction m as [|[k' w] m IH]; csimpl; [done|]. destruct (decide (k' = k)) as [->|].
  - intros [= ->]. constructor.
  - intros Hm. constructor. auto.
Qed.

Lemma map_get_elem k m v : NoDup m.*1 → (k, v) ∈ m → map_get k m = Some v.
Proof.
  induction m as [|[k' w] m IH]; csimpl; [by intros _ ?%elem_of_nil|].
  intros [Hk Hm]%NoDup_cons [[= -> ->]|Hin]%elem_of_cons; [by rewrite decide_True|].
  rewrite decide_False; [by apply IH|]. intros ->. apply Hk.
  by apply (list_elem_of_fmap_2 fst) in Hin.
Qed.

Lemma map_get_None k m : map_get k m = None ↔ k ∉ m.*1.
Proof.
  induction m as [|[k' v] m IH]; csimpl; [split; [intros _; apply not_elem_of_nil|done]|].
  rewrite not_elem_of_cons. destruct (decide (k' = k)) as [->|]; [naive_solver|].
  rewrite IH. naive_solver.
Qed.

Lemma map_get_set k v m k' : map_get k' (map_set k v m) = if decide (k = k') then Some v else map_get k' m.
Proof.
  induction m as [|[k0 v0] m IH]; csimpl; [done|].
  destruct (decide (k0 = k)) as [->|Hne]; csimpl.
  - by destruct (decide (k = k')).
  - rewrite IH. destruct (decide (k0 = k')) as [->|]; [|done]. by rewrite decide_False.
Qed.

Lemma map_delete_cons k k' v m :
  map_delete k ((k', v) :: m) = if decide (k' = k) then map_delete k m else (k', v) :: map_delete k m.
Proof. unfold map_delete. rewrite filter_cons. simpl. by destruct (decide (k' = k)); case_decide. Qed.

Lemma map_get_delete k m k' : map_get k' (map_delete k m) = if decide (k = k') then None else map_get k' m.
Proof.
  induction m as [|[k0 v0] m IH]; [by simpl; destruct (decide _)|].
  rewrite map_delete_cons. destruct (decide (k0 = k)) as [->|Hne]; simpl; rewrite IH.
  - by destruct (decide (k = k')).
  - destruct (decide (k0 = k')) as [->|]; [|done]. by rewrite decide_False.
Qed.
End map.
