(* ===== verification/Rooms.v ===== *)
(** * The signaling server's registries

    apps/signaling/src/rooms.ts and shortCodes.ts.  A peer's [send] is the
    socket it came from; what is sent is kept in order.  Every read of the clock
    is the next one of [now]; identifiers, tokens and the draws of [randomInt]
    come from the sequences the registries are given. *)

From S2P Require Import Prelude JsString Json JsMap Effects ShortCode.
From Stdlib Require String.

Open Scope Z_scope.

Abbreviation RoomId := string (only parsing).
Abbreviation PeerId := string (only parsing).
Abbreviation Socket := nat (only parsing).

(** signalingTypes.ts. *)
Inductive ServerSignalMessage : Type :=
  | joined_message (roomId : RoomId) (peerId : PeerId) (existingPeerIds : list PeerId)
  | peer_joined (peerId : PeerId)
  | peer_left (peerId : PeerId)
  | signal_from (fromPeerId : PeerId) (payload : option json)
  | signal_error (message : string).

Inductive ClientSignalMessage : Type :=
  | join_room (roomId : RoomId) (inviteToken : string) (peerId : PeerId)
  | signal_to (targetPeerId : PeerId) (payload : option json).

(** [peers] is a Map from ids to sockets: in insertion order, a key once. *)
Module Room.
Record t : Type := mk {
  id : RoomId;
  inviteToken : string;
  peers : list (PeerId * Socket);
  createdAt : Z;
}.

Definition set_peers x (r : t) : t := mk (id r) (inviteToken r) x (createdAt r).
End Room.

(** ** Rooms *)

Definition EMPTY_ROOM_TTL_MS : Z := 20 * 60 * 1000.
Definition MAX_ROOMS : nat := Z.to_nat 50000.

(** The message of a [RoomFull]. *)
Definition RoomFull : string := "too many rooms are open".

Module RoomRegistry.
Record t : Type := mk {
  rooms : gmap RoomId Room.t;
  reads : nat;
  made : nat;
  sent : list (Socket * ServerSignalMessage);
}.

Definition new : t := mk ∅ 0 0 [].

Definition set_rooms x (r : t) : t := mk x (reads r) (made r) (sent r).
Definition set_reads x (r : t) : t := mk (rooms r) x (made r) (sent r).
Definition set_made x (r : t) : t := mk (rooms r) (reads r) x (sent r).
Definition set_sent x (r : t) : t := mk (rooms r) (reads r) (made r) x.

Section registry.
Context (now : nat → Z) (randomUUID : nat → RoomId) (randomToken : nat → string).
Abbreviation Registry := (M RoomRegistry.t).

Definition read_clock : Registry Z := λ r, (Ok (now (reads r)), set_reads (S (reads r)) r).

Definition send (socket : Socket) (message : ServerSignalMessage) : Registry unit :=
  modify (λ r, set_sent (sent r ++ [(socket, message)]) r).

Definition set_room (roomId : RoomId) (room : Room.t) : Registry unit :=
  modify (λ r, set_rooms (<[roomId := room]> (rooms r)) r).

Definition delete_room (roomId : RoomId) : Registry unit :=
  modify (λ r, set_rooms (delete roomId (rooms r)) r).

(** A room that the sweep removes. *)
Definition stale (cutoff : Z) (room : Room.t) : Prop :=
  Room.peers room = [] ∧ Room.createdAt room <= cutoff.

#[global] Instance stale_dec cutoff room : Decision (stale cutoff room).
Proof. unfold stale. apply _. Defined.

Definition size : Registry nat := gets (λ r, base.size (rooms r)).

Definition sweep : Registry nat :=
  read_clock ≫= λ at_,
  let cutoff := at_ - EMPTY_ROOM_TTL_MS in
  gets rooms ≫= λ before,
  modify (set_rooms (filter (λ kv, ¬ stale cutoff kv.2) before)) ≫= λ _,
  size ≫= λ after,
  mret (base.size before - after)%nat.

Definition createRoom : Registry (RoomId * string) :=
  sweep ≫= λ _,
  size ≫= λ n,
  if decide (MAX_ROOMS <= n)%nat then (throw RoomFull : Registry _)
  else
    gets made ≫= λ i,
    modify (set_made (S i)) ≫= λ _,
    let roomId := randomUUID i in
    let inviteToken := randomToken i in
    read_clock ≫= λ createdAt,
    set_room roomId (Room.mk roomId inviteToken [] createdAt) ≫= λ _,
    mret (roomId, inviteToken).

(** The room to join: the one there is, or a new one. *)
Definition room_for (roomId : RoomId) (inviteToken : string) : Registry Room.t :=
  gets (λ r, rooms r !! roomId) ≫= λ room,
  match room with
  | Some room => mret room
  | None =>
      size ≫= λ n,
      if decide (MAX_ROOMS <= n)%nat then (throw RoomFull : Registry _)
      else
        read_clock ≫= λ createdAt,
        let room := Room.mk roomId inviteToken [] createdAt in
        set_room roomId room ≫= λ _, mret room
  end.

Definition join (roomId : RoomId) (inviteToken : string) (peerId : PeerId) (socket : Socket)
    : Registry (list PeerId) :=
  room_for roomId inviteToken ≫= λ room,
  lift (assert (bool_decide (Room.inviteToken room = inviteToken)) "invite token must match room")
    ≫= λ _,
  let existingPeerIds := (Room.peers room).*1 in
  let peers := map_set peerId socket (Room.peers room) in
  set_room roomId (Room.set_peers peers room) ≫= λ _,
  for_each peers (λ '(id, to), if decide (id = peerId) then (mret tt : Registry unit)
                               else send to (peer_joined peerId)) ≫= λ _,
  mret existingPeerIds.

Definition leave (roomId : RoomId) (peerId : PeerId) : Registry unit :=
  gets (λ r, rooms r !! roomId) ≫= λ room,
  match room with
  | None => mret tt
  | Some room =>
      let peers := map_delete peerId (Room.peers room) in
      set_room roomId (Room.set_peers peers room) ≫= λ _,
      for_each peers (λ '(_, to), send to (peer_left peerId)) ≫= λ _,
      if decide (peers = []) then delete_room roomId else mret tt
  end.

Definition relay (roomId : RoomId) (fromPeerId targetPeerId : PeerId) (payload : option json)
    : Registry unit :=
  gets (λ r, rooms r !! roomId) ≫= λ room,
  match room with
  | None => lift (assert false "room must exist before signaling")
  | Some room =>
      match map_get targetPeerId (Room.peers room) with
      | None => lift (assert false "target peer must be in room")
      | Some target => send target (signal_from fromPeerId payload)
      end
  end.
End registry.
End RoomRegistry.

(** ** Short codes *)

Definition TTL_MS : Z := 10 * 60 * 1000.
Definition MAX_ENTRIES : nat := Z.to_nat 10000.
Definition MAX_OFFER_BYTES : Z := 2048.

Module Offer.
Record t : Type := mk {
  offer : string;
  expiresAt : Z;
}.
End Offer.

Module IssuedShortCode.
Record t : Type := mk {
  code : string;
  expiresAt : Z;
}.
End IssuedShortCode.

Module ShortCodeRegistry.
Record t : Type := mk {
  entries : gmap string Offer.t;
  reads : nat;
  draws : nat;
}.

Definition new : t := mk ∅ 0 0.

Definition set_entries x (r : t) : t := mk x (reads r) (draws r).
Definition set_reads x (r : t) : t := mk (entries r) x (draws r).
Definition set_draws x (r : t) : t := mk (entries r) (reads r) x.

Section registry.
(** [randomInt (SHORT_CODE_ALPHABET.length)], call by call. *)
Context (now : nat → Z) (randomInt : nat → nat).
Abbreviation Registry := (M ShortCodeRegistry.t).

Definition read_clock : Registry Z := λ r, (Ok (now (reads r)), set_reads (S (reads r)) r).

Definition sweep : Registry unit :=
  read_clock ≫= λ at_,
  modify (λ r, set_entries (filter (λ kv, ¬ Offer.expiresAt kv.2 <= at_) (entries r)) r).

(** The code of eight draws, from the [i]th on. *)
Definition code_at (i : nat) : string :=
  of_chars ((λ k, nth (randomInt (i + k)) (chars SHORT_CODE_ALPHABET) Ascii.zero)
              <$> seq 0 (Z.to_nat SHORT_CODE_LENGTH)).

Definition generate : Registry string := λ r,
  (Ok (code_at (draws r)), set_draws (draws r + Z.to_nat SHORT_CODE_LENGTH)%nat r).

(** [while (this.entries.has(code)) code = this.generate()].  The loop of the
    source has no bound; here it draws at most [fuel] codes, and [None] says that
    every one of them is taken, so that the loop is still running.  With a code
    that is free among them the answer is that of the source, whatever the fuel
    ([SignalingEdges.issue_terminates]). *)
Fixpoint free_code (fuel : nat) : Registry (option string) :=
  match fuel with
  | O => mret None
  | S fuel =>
      generate ≫= λ code,
      gets entries ≫= λ taken,
      if decide (is_Some (taken !! code)) then free_code fuel else mret (Some code)
  end.

Definition issue (fuel : nat) (offer : string) : Registry (option IssuedShortCode.t) :=
  if decide (str_length offer = 0 ∨ MAX_OFFER_BYTES < str_length offer) then
    (throw "pairing offer is missing or too large" : Registry _)
  else
    sweep ≫= λ _,
    gets (λ r, base.size (entries r)) ≫= λ n,
    if decide (MAX_ENTRIES <= n)%nat then
      (throw "too many pairing codes are outstanding" : Registry _)
    else
      free_code fuel ≫= λ code,
      match code with
      | None => mret None
      | Some code =>
          read_clock ≫= λ at_,
          let expiresAt := at_ + TTL_MS in
          modify (λ r, set_entries (<[code := Offer.mk offer expiresAt]> (entries r)) r) ≫= λ _,
          mret (Some (IssuedShortCode.mk (formatShortCode code) expiresAt))
      end.

Definition redeem (raw : string) : Registry (option string) :=
  sweep ≫= λ _,
  gets (λ r, entries r !! normalizeShortCode raw) ≫= λ entry,
  match entry with
  | None => mret None
  | Some entry =>
      modify (λ r, set_entries (delete (normalizeShortCode raw) (entries r)) r) ≫= λ _,
      mret (Some (Offer.offer entry))
  end.
End registry.
End ShortCodeRegistry.
