(* ===== verification/Signaling.v ===== *)
(** * The signaling server

    apps/signaling/src/index.ts: what the server does on each event of its
    sockets, on each request and on each beat of its timer.  What the rate
    limiters answer is part of a request.  An [Err] is an exception that leaves
    the handler. *)

From S2P Require Import Prelude JsString Json Effects ShortCode Rooms.
From Stdlib Require String.

Open Scope Z_scope.

(** ** Messages *)

Definition parseClientMessage (raw : string) : option ClientSignalMessage :=
  match JSON_parse raw with
  | Some (JObj value) =>
      match text_member "type" value with
      | Some type =>
          if decide (type = "join") then
            match text_member "roomId" value, text_member "inviteToken" value,
                  text_member "peerId" value with
            | Some roomId, Some inviteToken, Some peerId =>
                Some (join_room roomId inviteToken peerId)
            | _, _, _ => None
            end
          else if decide (type = "signal") then
            match text_member "targetPeerId" value with
            | Some target => Some (signal_to target (member "payload" value))
            | None => None
            end
          else None
      | None => None
      end
  | _ => None
  end.

(** The JSON that [send] writes. *)
Definition server_json (message : ServerSignalMessage) : json :=
  match message with
  | joined_message roomId peerId existing =>
      JObj [("type", JStr "joined"); ("roomId", JStr roomId); ("peerId", JStr peerId);
            ("existingPeerIds", JArr (JStr <$> existing))]
  | peer_joined peerId => JObj [("type", JStr "peer-joined"); ("peerId", JStr peerId)]
  | peer_left peerId => JObj [("type", JStr "peer-left"); ("peerId", JStr peerId)]
  | signal_from fromPeerId payload =>
      JObj ([("type", JStr "signal"); ("fromPeerId", JStr fromPeerId)]
            ++ match payload with Some p => [("payload", p)] | None => [] end)
  | signal_error message => JObj [("type", JStr "error"); ("message", JStr message)]
  end.

(** ** Percent-encoding *)

(** The bytes of [n] escapes at the head of a text. *)
Fixpoint escapes (n : nat) (l : text) : option (list Z * text) :=
  match n with
  | O => Some ([], l)
  | S n =>
      match l with
      | c :: h1 :: h2 :: rest =>
          if is_char 37 c then
            match hex_value h1, hex_value h2 with
            | Some a, Some b =>
                match escapes n rest with
                | Some (bytes, rest) => Some (a * 16 + b :: bytes, rest)
                | None => None
                end
            | _, _ => None
            end
          else None
      | _ => None
      end
  end.

Definition continuation (b : Z) : bool := (0x80 <=? b) && (b <=? 0xBF).

(** A well-formed UTF-8 sequence. *)
Definition well_formed (bytes : list Z) : bool :=
  match bytes with
  | [a] => a <=? 0x7F
  | [a; b] => (0xC2 <=? a) && (a <=? 0xDF) && continuation b
  | [a; b; c] =>
      (0xE0 <=? a) && (a <=? 0xEF) && continuation b && continuation c
      && ((0xE0 <? a) || (0xA0 <=? b)) && negb ((a =? 0xED) && (0xA0 <=? b))
  | [a; b; c; d] =>
      (0xF0 <=? a) && (a <=? 0xF4) && continuation b && continuation c && continuation d
      && ((0xF0 <? a) || (0x90 <=? b)) && ((a <? 0xF4) || (b <=? 0x8F))
  | _ => false
  end.

Definition sequence_length (first : Z) : nat :=
  if first <? 0x80 then 1 else if first <? 0xE0 then 2 else if first <? 0xF0 then 3 else 4.

(** [decodeURIComponent]; [None] is its [URIError].  Each turn consumes a
    character, so the length of the text is fuel enough. *)
Fixpoint decode_uri (fuel : nat) (l : text) : option text :=
  match fuel with
  | O => Some []
  | S fuel =>
      match l with
      | [] => Some []
      | c :: l' =>
          if is_char 37 c then
            match escapes 1 l with
            | Some (first :: _, _) =>
                match escapes (sequence_length first) l with
                | Some (bytes, rest) =>
                    if well_formed bytes then
                      match decode_uri fuel rest with
                      | Some decoded => Some ((fromCharCode <$> bytes) ++ decoded)
                      | None => None
                      end
                    else None
                | None => None
                end
            | _ => None
            end
          else match decode_uri fuel l' with Some decoded => Some (c :: decoded) | None => None end
      end
  end.

Definition decodeURIComponent (s : string) : result string :=
  match decode_uri (length (chars s)) (chars s) with
  | Some decoded => Ok (of_chars decoded)
  | None => Err "URI malformed"
  end.

(** ** State *)

(** A socket of the server: what it joined, and whether it answered the last
    ping. *)
Module Peer.
Record t : Type := mk {
  joined : option (RoomId * PeerId);
  isAlive : bool;
  terminated : bool;
}.
End Peer.

Module Server.
Record t : Type := mk {
  registry : RoomRegistry.t;
  shortCodes : ShortCodeRegistry.t;
  clients : gmap Socket Peer.t;
}.

Definition new : t := mk RoomRegistry.new ShortCodeRegistry.new ∅.

Definition set_registry x (s : t) : t := mk x (shortCodes s) (clients s).
Definition set_shortCodes x (s : t) : t := mk (registry s) x (clients s).
Definition set_clients x (s : t) : t := mk (registry s) (shortCodes s) x.

#[global, refine] Instance registry_part : Part t RoomRegistry.t :=
  { part := registry; with_part := set_registry }.
Proof. all: by intros; repeat match goal with s : t |- _ => destruct s end. Defined.

#[global, refine] Instance codes_part : Part t ShortCodeRegistry.t :=
  { part := shortCodes; with_part := set_shortCodes }.
Proof. all: by intros; repeat match goal with s : t |- _ => destruct s end. Defined.
End Server.

(** ** Requests *)

Module Body.
(** The sizes of the chunks of a body, and its text. *)
Record t : Type := mk {
  chunks : list Z;
  content : string;
}.
End Body.

Inductive Request : Type :=
  | OptionsRequest
  | GetRequest (url : string) (allowed : bool)
  | PostRequest (url : string) (allowed : bool) (body : Body.t)
  | OtherRequest.

Inductive Response : Type :=
  | NoContent
  | Health (rooms : nat)
  | RoomCreated (roomId : RoomId) (inviteToken : string)
  | CodeIssued (code : IssuedShortCode.t)
  | OfferFound (offer : string)
  | Failure (status : Z) (error : string).

Definition MAX_BODY_BYTES : Z := 8192.

(** [readJsonBody]: [None] for [undefined]. *)
Fixpoint body_fits (size : Z) (chunks : list Z) : bool :=
  match chunks with
  | [] => true
  | n :: chunks => let size := size + n in (size <=? MAX_BODY_BYTES) && body_fits size chunks
  end.

Definition readJsonBody (body : Body.t) : option json :=
  if body_fits 0 (Body.chunks body) then JSON_parse (Body.content body) else None.

Definition offer_of (body : option json) : option string :=
  match body with Some (JObj value) => text_member "offer" value | _ => None end.

Definition pairing_codes : string := "/pairing-codes/".

Section server.
Context (now : nat → Z) (randomUUID : nat → RoomId) (randomToken : nat → string).
Context (randomInt : nat → nat) (fuel : nat).
Abbreviation Run := (M Server.t).
Abbreviation registry_call := (on (S := Server.t) (T := RoomRegistry.t)).
Abbreviation codes_call := (on (S := Server.t) (T := ShortCodeRegistry.t)).

(** [try] with a [catch] that has the message of the error. *)
Definition catching {A} (m : Run A) (handler : string → Run A) : Run A := λ s,
  match m s with (Ok a, s) => (Ok a, s) | (Err e, s) => handler e s end.

Definition too_many : Response := Failure 429 "too many requests".

(** The handler of a request; [None] if a code could not be found in [fuel]
    turns. *)
Definition on_request (request : Request) : Run (option Response) :=
  match request with
  | OptionsRequest => mret (Some NoContent)
  | GetRequest url allowed =>
      if decide (url = "/health") then
        registry_call RoomRegistry.size ≫= λ rooms, mret (Some (Health rooms))
      else if bool_decide (chars pairing_codes `prefix_of` chars url) then
        if negb allowed then (mret (Some too_many) : Run _)
        else
          lift (decodeURIComponent (slice_from url (str_length pairing_codes))) ≫= λ code,
          codes_call (ShortCodeRegistry.redeem now code) ≫= λ offer,
          mret (Some (match offer with
                      | None => Failure 404 "That code is not valid. Ask for a new one."
                      | Some offer => OfferFound offer
                      end))
      else mret (Some (Failure 404 "not found"))
  | PostRequest url allowed body =>
      if decide (url = "/rooms") then
        if negb allowed then (mret (Some too_many) : Run _)
        else
          catching (registry_call (RoomRegistry.createRoom now randomUUID randomToken)
                      ≫= λ '(roomId, inviteToken), mret (Some (RoomCreated roomId inviteToken)))
            (λ e, mret (Some (Failure 503
              (if decide (e = RoomFull) then "the server is at capacity"
               else "could not create a room"))))
      else if decide (url = "/pairing-codes") then
        if negb allowed then (mret (Some too_many) : Run _)
        else
          match offer_of (readJsonBody body) with
          | None => mret (Some (Failure 400 "expected an offer string"))
          | Some offer =>
              catching (codes_call (ShortCodeRegistry.issue now randomInt fuel offer)
                          ≫= λ issued, mret (CodeIssued <$> issued))
                (λ e, mret (Some (Failure 503 e)))
          end
      else mret (Some (Failure 404 "not found"))
  | OtherRequest => mret (Some (Failure 404 "not found"))
  end.

(** ** Sockets *)

Definition send (socket : Socket) (message : ServerSignalMessage) : Run unit :=
  registry_call (RoomRegistry.send socket message).

Definition update_client (socket : Socket) (f : Peer.t → Peer.t) : Run unit :=
  modify (λ s, Server.set_clients (alter f socket (Server.clients s)) s).

Definition on_connection (socket : Socket) : Run unit :=
  modify (λ s, Server.set_clients (<[socket := Peer.mk None true false]> (Server.clients s)) s).

Definition on_pong (socket : Socket) : Run unit :=
  update_client socket (λ p, Peer.mk (Peer.joined p) true (Peer.terminated p)).

(** [socket.terminate()]: its close event is still to come. *)
Definition terminate (socket : Socket) : Run unit :=
  update_client socket (λ p, Peer.mk (Peer.joined p) (Peer.isAlive p) true).

Definition joined_of (socket : Socket) : Run (option (RoomId * PeerId)) :=
  gets (λ s, Server.clients s !! socket ≫= Peer.joined).

(** The body of the [try] of a message. *)
Definition handle_message (socket : Socket) (raw : string) : Run unit :=
  match parseClientMessage raw with
  | None => send socket (signal_error "invalid signaling message")
  | Some (join_room roomId inviteToken peerId) =>
      registry_call (RoomRegistry.join now roomId inviteToken peerId socket) ≫= λ existing,
      update_client socket (λ p, Peer.mk (Some (roomId, peerId)) (Peer.isAlive p) (Peer.terminated p))
        ≫= λ _,
      send socket (joined_message roomId peerId existing)
  | Some (signal_to target payload) =>
      joined_of socket ≫= λ joined,
      match joined with
      | None => send socket (signal_error "join a room before signaling")
      | Some (roomId, peerId) => registry_call (RoomRegistry.relay roomId peerId target payload)
      end
  end.

Definition on_message (socket : Socket) (raw : string) : Run unit :=
  catching (handle_message socket raw) (λ e, send socket (signal_error e)).

Definition on_close (socket : Socket) : Run unit :=
  joined_of socket ≫= λ joined,
  modify (λ s, Server.set_clients (delete socket (Server.clients s)) s) ≫= λ _,
  match joined with
  | Some (roomId, peerId) => registry_call (RoomRegistry.leave roomId peerId)
  | None => mret tt
  end.

(** A beat of the heart: who did not answer since the last one is cut off. *)
Definition beat (p : Peer.t) : Peer.t :=
  if Peer.isAlive p then Peer.mk (Peer.joined p) false (Peer.terminated p)
  else Peer.mk (Peer.joined p) false true.

Definition heartbeat : Run unit :=
  modify (λ s, Server.set_clients (beat <$> Server.clients s) s).

(** ** Events *)

Inductive ServerEvent : Type :=
  | Connects (socket : Socket)
  | Says (socket : Socket) (raw : string)
  | Pongs (socket : Socket)
  | Errors (socket : Socket)
  | Closes (socket : Socket)
  | Beats
  | Requests (request : Request).

(** A socket that is not connected has no events; one that connects is a new
    one. *)
Definition possible (events : list ServerEvent) (s : Server.t) (event : ServerEvent) : Prop :=
  match event with
  | Connects _ => event ∉ events
  | Says socket _ | Pongs socket | Errors socket | Closes socket =>
      is_Some (Server.clients s !! socket)
  | Beats | Requests _ => True
  end.

Definition serve (event : ServerEvent) (s : Server.t) : Server.t :=
  match event with
  | Connects socket => (on_connection socket s).2
  | Says socket raw => (on_message socket raw s).2
  | Pongs socket => (on_pong socket s).2
  | Errors socket => (terminate socket s).2
  | Closes socket => (on_close socket s).2
  | Beats => (heartbeat s).2
  | Requests request => (on_request request s).2
  end.

(** What the server went through. *)
Inductive serves : list ServerEvent → Server.t → Prop :=
  | serves_none : serves [] Server.new
  | serves_more events event s :
      serves events s → possible events s event → serves (events ++ [event]) (serve event s).
End server.
