(* ===== verification/SignalingTheory.v ===== *)
(** * The signaling server: what its steps do *)

From S2P Require Import Prelude JsString Json JsMap Effects ShortCode Rooms Signaling.

Open Scope Z_scope.

(** ** The operations on rooms *)

Section registry.
Context (now : nat → Z) (randomUUID : nat → RoomId) (randomToken : nat → string).
Implicit Types r : RoomRegistry.t.
Abbreviation rooms := RoomRegistry.rooms.
Abbreviation sent := RoomRegistry.sent.

(** A message to every peer of a list. *)
Definition to_all (peers : list (PeerId * Socket)) (m : ServerSignalMessage)
    : list (Socket * ServerSignalMessage) := (λ e, (e.2, m)) <$> peers.

(** What the other peers of a room are told. *)
Definition told (p : PeerId) (peers : list (PeerId * Socket)) (m : ServerSignalMessage)
    : list (Socket * ServerSignalMessage) := to_all (filter (λ e, e.1 ≠ p) peers) m.

Lemma told_cons p k v peers m :
  told p ((k, v) :: peers) m = (if decide (k = p) then [] else [(v, m)]) ++ told p peers m.
Proof.
  unfold told, to_all. rewrite filter_cons. simpl. destruct (decide (k = p)); case_decide; naive_solver.
Qed.

Lemma tell_joined p peers r :
  for_each peers (λ '(id, to), if decide (id = p) then mret tt
                               else RoomRegistry.send to (peer_joined p)) r =
    (Ok tt, RoomRegistry.set_sent (sent r ++ told p peers (peer_joined p)) r).
Proof.
  revert r. induction peers as [|[k v] peers IH]; intros r.
  - unfold told. simpl. rewrite app_nil_r. by destruct r.
  - simpl for_each. rewrite told_cons. unfold mbind, M_bind. destruct (decide (k = p)).
    + simpl. by rewrite IH.
    + unfold RoomRegistry.send, modify. simpl. rewrite IH. simpl. by rewrite <-app_assoc.
Qed.

Lemma tell_left p peers r :
  for_each peers (λ '(_, to), RoomRegistry.send to (peer_left p)) r =
    (Ok tt, RoomRegistry.set_sent (sent r ++ to_all peers (peer_left p)) r).
Proof.
  revert r. induction peers as [|[k v] peers IH]; intros r.
  - simpl. rewrite app_nil_r. by destruct r.
  - simpl for_each. unfold mbind, M_bind, RoomRegistry.send, modify. simpl. rewrite IH. simpl.
    by rewrite <-app_assoc.
Qed.

(** The room that a join gets. *)
Inductive found (R : RoomId) (token : string) r : Room.t → Prop :=
  | found_there room : rooms r !! R = Some room → found R token r room
  | found_new at_ : rooms r !! R = None → (base.size (rooms r) < MAX_ROOMS)%nat →
      found R token r (Room.mk R token [] at_).

(** A join that succeeds, and one that fails. *)
Lemma join_cases R token p sock r :
  match RoomRegistry.join now R token p sock r with
  | (Ok existing, r') =>
      ∃ room, found R token r room ∧ Room.inviteToken room = token ∧
        existing = (Room.peers room).*1 ∧
        rooms r' = <[R := Room.set_peers (map_set p sock (Room.peers room)) room]> (rooms r) ∧
        sent r' = sent r ++ told p (map_set p sock (Room.peers room)) (peer_joined p)
  | (Err _, r') => rooms r' = rooms r ∧ sent r' = sent r
  end.
Proof.
  unfold RoomRegistry.join, RoomRegistry.room_for, mbind, M_bind, gets, lift.
  destruct (rooms r !! R) as [room|] eqn:HR; cbn [mret M_ret].
  - destruct (bool_decide_reflect (Room.inviteToken room = token)) as [Ht|Ht]; simpl; [|done].
    unfold RoomRegistry.set_room, modify. rewrite tell_joined. simpl.
    exists room. split_and!; try done. by constructor.
  - unfold RoomRegistry.size, gets. destruct (decide _) as [|Hlt]; simpl; [done|].
    unfold RoomRegistry.read_clock, RoomRegistry.set_room, modify. simpl.
    rewrite bool_decide_true by done. simpl.
    case_decide; [|done]. simpl. eexists. split; [apply found_new; [done|lia]|].
    split_and!; [done|done|by rewrite insert_insert_eq|].
    change (sent r = sent r ++ told p [(p, sock)] (peer_joined p)).
    rewrite told_cons, decide_True by done. unfold told, to_all. simpl. by rewrite app_nil_r.
Qed.

Lemma leave_cases R p r :
  (RoomRegistry.leave R p r).1 = Ok tt ∧
  let r' := (RoomRegistry.leave R p r).2 in
  match rooms r !! R with
  | None => r' = r
  | Some room =>
      let peers := map_delete p (Room.peers room) in
      rooms r' = (if decide (peers = []) then delete R (rooms r)
                  else <[R := Room.set_peers peers room]> (rooms r)) ∧
      sent r' = sent r ++ to_all peers (peer_left p)
  end.
Proof.
  unfold RoomRegistry.leave, mbind, M_bind, gets. destruct (rooms r !! R) as [room|] eqn:HR; [|done].
  cbv zeta. unfold RoomRegistry.set_room, modify. rewrite tell_left.
  case_decide as Hp; simpl; [|done]. by rewrite delete_insert_eq.
Qed.

Lemma relay_cases R p q payload r :
  match RoomRegistry.relay R p q payload r with
  | (Ok _, r') => ∃ room target, rooms r !! R = Some room ∧ map_get q (Room.peers room) = Some target ∧
      r' = RoomRegistry.set_sent (sent r ++ [(target, signal_from p payload)]) r
  | (Err _, r') => r' = r ∧
      (∀ room, rooms r !! R = Some room → map_get q (Room.peers room) = None)
  end.
Proof.
  unfold RoomRegistry.relay, mbind, M_bind, gets. destruct (rooms r !! R) as [room|] eqn:HR; [|done].
  destruct (map_get q (Room.peers room)) as [target|] eqn:Hq.
  - simpl. by exists room, target.
  - simpl. split; [done|]. by intros ? [= <-].
Qed.
End registry.

(** ** Rooms made by a request *)

Section sweep.
Context (now : nat → Z) (randomUUID : nat → RoomId) (randomToken : nat → string).
Implicit Types r : RoomRegistry.t.
Abbreviation rooms := RoomRegistry.rooms.

(** The rooms that stay after a sweep at a time. *)
Definition swept (at_ : Z) (m : gmap RoomId Room.t) : gmap RoomId Room.t :=
  filter (λ kv, ¬ RoomRegistry.stale (at_ - EMPTY_ROOM_TTL_MS) kv.2) m.

Lemma swept_lookup at_ m R room : swept at_ m !! R = Some room → m !! R = Some room.
Proof. unfold swept. by rewrite map_lookup_filter_Some; intros [? _]. Qed.

(** A room with a peer is never swept. *)
Lemma swept_peers at_ m R room :
  m !! R = Some room → Room.peers room ≠ [] → swept at_ m !! R = Some room.
Proof.
  intros Hm Hp. unfold swept. apply map_lookup_filter_Some. split; [done|].
  simpl. by intros [? _].
Qed.

Lemma swept_size at_ m : (base.size (swept at_ m) <= map_size m)%nat.
Proof. apply map_subseteq_size, map_filter_subseteq. Qed.

Lemma createRoom_cases r :
  let '(res, r') := RoomRegistry.createRoom now randomUUID randomToken r in
  RoomRegistry.sent r' = RoomRegistry.sent r ∧
  let kept := swept (now (RoomRegistry.reads r)) (rooms r) in
  match res with
  | Ok (R, token) => (base.size kept < MAX_ROOMS)%nat ∧
      ∃ at_, rooms r' = <[R := Room.mk R token [] at_]> kept
  | Err e => e = RoomFull ∧ rooms r' = kept ∧ (MAX_ROOMS <= map_size kept)%nat
  end.
Proof.
  unfold RoomRegistry.createRoom, RoomRegistry.sweep, RoomRegistry.size, RoomRegistry.read_clock,
    mbind, M_bind, gets, modify. cbn [fst snd mret M_ret].
  destruct (decide _) as [Hfull|Hfull]; simpl in *.
  - split; [done|]. split_and!; [done|done|exact Hfull].
  - split; [done|]. split; [apply Nat.nle_gt; exact Hfull|]. by eexists.
Qed.
End sweep.

(** ** Histories *)

Lemma sub_last {A} (l : list A) x : l ⊆ l ++ [x].
Proof. set_solver. Qed.

(** In a history, a socket asked to join a room with a token under an id. *)
Definition asked (events : list ServerEvent) (socket : Socket) (R : RoomId) (token : string)
    (p : PeerId) : Prop :=
  ∃ raw, Says socket raw ∈ events ∧ parseClientMessage raw = Some (join_room R token p).

Lemma asked_mono events events' socket R token p :
  events ⊆ events' → asked events socket R token p → asked events' socket R token p.
Proof. intros Hsub (raw & Hin & Hp). exists raw. auto. Qed.

(** What holds of the rooms and the sockets after any history. *)
Record server_ok (events : list ServerEvent) (s : Server.t) : Prop := ServerOk {
  so_size : (base.size (RoomRegistry.rooms (Server.registry s)) <= MAX_ROOMS)%nat;
  so_keys R room : RoomRegistry.rooms (Server.registry s) !! R = Some room →
    NoDup (Room.peers room).*1;
  so_asked R room p socket : RoomRegistry.rooms (Server.registry s) !! R = Some room →
    (p, socket) ∈ Room.peers room → asked events socket R (Room.inviteToken room) p;
  so_joined socket c R p : Server.clients s !! socket = Some c → Peer.joined c = Some (R, p) →
    ∃ token, asked events socket R token p;
}.

Lemma server_ok_new : server_ok [] Server.new.
Proof.
  split.
  - simpl. rewrite map_size_empty. lia.
  - intros R room. simpl. by rewrite lookup_empty.
  - intros R room p socket. simpl. by rewrite lookup_empty.
  - intros socket c R p. simpl. by rewrite lookup_empty.
Qed.

(** Who an event is of. *)
Definition speaker (event : ServerEvent) : option Socket :=
  match event with
  | Connects socket | Says socket _ | Pongs socket | Errors socket | Closes socket => Some socket
  | Beats | Requests _ => None
  end.

(** What peers are told about the peer [p], when it does what the event says. *)
Inductive news (event : ServerEvent) (p : PeerId) : ServerSignalMessage → Prop :=
  | news_joined : news event p (peer_joined p)
  | news_left : news event p (peer_left p)
  | news_signal socket raw q payload : event = Says socket raw →
      parseClientMessage raw = Some (signal_to q payload) → news event p (signal_from p payload).

(** A message that an event may cause: an answer to its socket, or news about
    its socket to one that asked for the room that it asked for. *)
Definition confined (events : list ServerEvent) (event : ServerEvent)
    (delivery : Socket * ServerSignalMessage) : Prop :=
  speaker event = Some delivery.1 ∨
  ∃ socket R token p token' q, speaker event = Some socket ∧
    asked (events ++ [event]) socket R token p ∧ asked (events ++ [event]) delivery.1 R token' q ∧
    news event p delivery.2.

Section steps.
Context (now : nat → Z) (randomUUID : nat → RoomId) (randomToken : nat → string).
Context (randomInt : nat → nat) (fuel : nat).
Implicit Types s : Server.t.
Abbreviation rooms s := (RoomRegistry.rooms (Server.registry s)).
Abbreviation sent s := (RoomRegistry.sent (Server.registry s)).
Abbreviation serve := (serve now randomUUID randomToken randomInt fuel).
Abbreviation serves := (serves now randomUUID randomToken randomInt fuel).

(** A step keeps what holds, and what it sent is confined. *)
Definition step_ok (events : list ServerEvent) (event : ServerEvent) s s' : Prop :=
  server_ok (events ++ [event]) s' ∧ ∃ new, sent s' = sent s ++ new ∧ Forall (confined events event) new.

Lemma ok_clients events event s s' :
  server_ok events s → rooms s' = rooms s →
  (∀ socket c', Server.clients s' !! socket = Some c' → Peer.joined c' = None ∨
     ∃ c, Server.clients s !! socket = Some c ∧ Peer.joined c' = Peer.joined c) →
  server_ok (events ++ [event]) s'.
Proof.
  intros [Hsz Hk Ha Hj] Hr Hc. split; rewrite ?Hr; try done.
  - intros R room p socket HR Hp. eapply asked_mono; [apply sub_last|]. by eapply Ha.
  - intros socket c' R p Hc' Hjn. destruct (Hc _ _ Hc') as [Hn|(c & Hc1 & Heq)]; [congruence|].
    destruct (Hj socket c R p) as [token Ht]; [done|congruence|]. exists token.
    by eapply asked_mono; [apply sub_last|].
Qed.

(** A step that sends nothing and leaves the rooms alone. *)
Lemma quiet_step events event s s' :
  server_ok events s → rooms s' = rooms s → sent s' = sent s →
  (∀ socket c', Server.clients s' !! socket = Some c' → Peer.joined c' = None ∨
     ∃ c, Server.clients s !! socket = Some c ∧ Peer.joined c' = Peer.joined c) →
  step_ok events event s s'.
Proof.
  intros Hok Hr Hs Hc. split; [by eapply ok_clients|]. exists []. by rewrite Hs, app_nil_r.
Qed.

(** An answer to the socket of the event, and nothing else. *)
Lemma reply_step events event socket m s s' :
  server_ok events s → speaker event = Some socket → rooms s' = rooms s →
  sent s' = sent s ++ [(socket, m)] → Server.clients s' = Server.clients s →
  step_ok events event s s'.
Proof.
  intros Hok Hsp Hr Hs Hc. split.
  - eapply ok_clients; [done..|]. rewrite Hc. eauto.
  - eexists. split; [exact Hs|]. constructor; [|done]. by left.
Qed.

Lemma step_join events socket raw R token p s :
  server_ok events s → is_Some (Server.clients s !! socket) →
  parseClientMessage raw = Some (join_room R token p) →
  step_ok events (Says socket raw) s (on_message now socket raw s).2.
Proof.
  intros Hok [c Hc] Hp. unfold on_message, catching, handle_message. rewrite Hp.
  unfold mbind, M_bind, on. pose proof (join_cases now R token p socket (Server.registry s)) as Hj.
  simpl part. destruct (RoomRegistry.join _ _ _ _ _ _) as [[existing|e] r']; simpl.
  2:{ destruct Hj as [Hr Hs]. eapply reply_step; [done|done|done| |done]. simpl. by rewrite Hs. }
  destruct Hj as (room & Hf & Ht & _ & Hr & Hs).
  assert (asked (events ++ [Says socket raw]) socket R token p) as Hask.
  { exists raw. split; [set_solver|done]. }
  assert (∀ q t, (q, t) ∈ Room.peers room → asked (events ++ [Says socket raw]) t R token q) as Hpeers.
  { intros q t Hin. eapply asked_mono; [apply sub_last|]. destruct Hf as [room HR|at_ HR Hlt].
    - rewrite <-Ht. by eapply (so_asked _ _ Hok).
    - simpl in Hin. by apply elem_of_nil in Hin. }
  assert (NoDup (Room.peers room).*1) as Hnd.
  { destruct Hf as [room HR|]; [by eapply (so_keys _ _ Hok)|constructor]. }
  split; [split; simpl; rewrite ?Hr|].
  - destruct Hf as [room HR|at_ HR Hlt].
    + rewrite map_size_insert_Some by by eexists. apply (so_size _ _ Hok).
    + rewrite map_size_insert_None by done. apply (Nat.le_succ_l _ _), Hlt.
  - intros R' room'. destruct (decide (R' = R)) as [->|Hne].
    + rewrite lookup_insert_eq. intros [= <-]. by apply map_set_NoDup.
    + rewrite lookup_insert_ne by done. apply (so_keys _ _ Hok).
  - intros R' room' q t. destruct (decide (R' = R)) as [->|Hne].
    + rewrite lookup_insert_eq. intros [= <-]. simpl. rewrite elem_of_map_set by done. rewrite Ht.
      intros [[-> ->]|[_ Hin]]; [done|by apply Hpeers].
    + rewrite lookup_insert_ne by done. intros HR Hin. eapply asked_mono; [apply sub_last|].
      by eapply (so_asked _ _ Hok).
  - intros t c' R' p'. destruct (decide (t = socket)) as [->|Hne].
    + rewrite lookup_alter_eq, Hc. simpl. intros [= <-] [= <- <-]. by exists token.
    + rewrite lookup_alter_ne by done. intros Hc' Hj'.
      destruct (so_joined _ _ Hok t c' R' p') as [tok Htok]; [done..|]. exists tok.
      by eapply asked_mono; [apply sub_last|].
  - exists (told p (map_set p socket (Room.peers room)) (peer_joined p)
      ++ [(socket, joined_message R p existing)]).
    simpl. rewrite Hs, <-app_assoc. split; [done|]. apply Forall_app. split.
    + apply Forall_forall. intros d Hd. unfold told, to_all in Hd.
      apply list_elem_of_fmap in Hd as ([q t] & -> & [Hq Hin]%list_elem_of_filter). right. simpl in *.
      exists socket, R, token, p, token, q. split_and!; [done|done| |constructor].
      apply elem_of_map_set in Hin as [[-> _]|[_ Hin]]; [done|by apply Hpeers|done].
    + constructor; [|done]. by left.
Qed.

Lemma step_signal events socket raw q payload s :
  server_ok events s → parseClientMessage raw = Some (signal_to q payload) →
  step_ok events (Says socket raw) s (on_message now socket raw s).2.
Proof.
  intros Hok Hp. unfold on_message, catching, handle_message. rewrite Hp.
  unfold joined_of, mbind, M_bind, gets. simpl.
  destruct (Server.clients s !! socket) as [c|] eqn:Hc; simpl; [|by eapply reply_step].
  destruct (Peer.joined c) as [[R p]|] eqn:Hj; [|by eapply reply_step].
  unfold on. simpl. pose proof (relay_cases R p q payload (Server.registry s)) as Hrel.
  destruct (RoomRegistry.relay _ _ _ _ _) as [[[]|e] r']; simpl.
  - destruct Hrel as (room & target & HR & Hget & ->). split.
    + eapply ok_clients; [done|done|]. intros t c' Hc'. right. by exists c'.
    + eexists. split; [reflexivity|]. constructor; [|done]. right. simpl.
      destruct (so_joined _ _ Hok socket c R p) as [token Ht]; [done..|].
      exists socket, R, token, p, (Room.inviteToken room), q. split_and!; [done| | |].
      * by eapply asked_mono; [apply sub_last|].
      * eapply asked_mono; [apply sub_last|]. eapply (so_asked _ _ Hok); [done|].
        by apply map_get_Some.
      * by eapply news_signal.
  - destruct Hrel as [-> _]. by eapply reply_step.
Qed.

Lemma step_close events socket s :
  server_ok events s → step_ok events (Closes socket) s (on_close socket s).2.
Proof.
  intros Hok. unfold on_close, joined_of, mbind, M_bind, gets, modify. simpl.
  assert (∀ t c', delete socket (Server.clients s) !! t = Some c' → Peer.joined c' = None ∨
    ∃ c, Server.clients s !! t = Some c ∧ Peer.joined c' = Peer.joined c) as Hdel.
  { intros t c'. rewrite lookup_delete_Some. intros [_ Hc']. right. by exists c'. }
  destruct (Server.clients s !! socket) as [c|] eqn:Hc; simpl; [|by apply quiet_step].
  destruct (Peer.joined c) as [[R p]|] eqn:Hj; [|by apply quiet_step].
  unfold on. simpl. pose proof (leave_cases R p (Server.registry s)) as [Hres Hl].
  destruct (RoomRegistry.leave R p (Server.registry s)) as [res r']. simpl in *. subst res.
  destruct (RoomRegistry.rooms (Server.registry s) !! R) as [room|] eqn:HR.
  2:{ subst. by apply quiet_step. }
  destruct Hl as [Hr Hs].
  assert (∀ R' room', RoomRegistry.rooms r' !! R' = Some room' →
    ∃ room0, RoomRegistry.rooms (Server.registry s) !! R' = Some room0 ∧
      Room.inviteToken room' = Room.inviteToken room0 ∧
      (Room.peers room' = Room.peers room0 ∨ Room.peers room' = map_delete p (Room.peers room0)))
    as Hback.
  { intros R' room'. rewrite Hr. case_decide.
    - rewrite lookup_delete_Some. intros [_ HR']. exists room'. auto.
    - destruct (decide (R' = R)) as [->|].
      + rewrite lookup_insert_eq. intros [= <-]. exists room. auto.
      + rewrite lookup_insert_ne by done. intros HR'. exists room'. auto. }
  split; [split; simpl|].
  - rewrite Hr. etrans; [|apply (so_size _ _ Hok)]. case_decide.
    + apply map_subseteq_size, delete_subseteq.
    + by rewrite map_size_insert_Some by by eexists.
  - intros R' room' HR'. destruct (Hback _ _ HR') as (room0 & HR0 & _ & [->| ->]);
      [|apply map_delete_NoDup]; by eapply (so_keys _ _ Hok).
  - intros R' room' q t HR' Hin. destruct (Hback _ _ HR') as (room0 & HR0 & -> & Hpe).
    eapply asked_mono; [apply sub_last|]. eapply (so_asked _ _ Hok); [done|].
    destruct Hpe as [Hpe|Hpe]; rewrite Hpe in Hin; [done|]. by apply elem_of_map_delete in Hin as [_ ?].
  - intros t c' R' p' [_ Hc']%lookup_delete_Some Hj'.
    destruct (so_joined _ _ Hok t c' R' p') as [tok Htok]; [done..|]. exists tok.
    by eapply asked_mono; [apply sub_last|].
  - eexists. split; [exact Hs|]. apply Forall_forall. intros d Hd. unfold to_all in Hd.
    apply list_elem_of_fmap in Hd as ([q t] & -> & [Hq Hin]%elem_of_map_delete). right. simpl in *.
    destruct (so_joined _ _ Hok socket c R p) as [token Ht]; [done..|].
    exists socket, R, token, p, (Room.inviteToken room), q. split_and!; [done| | |constructor].
    + by eapply asked_mono; [apply sub_last|].
    + eapply asked_mono; [apply sub_last|]. by eapply (so_asked _ _ Hok).
Qed.

(** A request about codes leaves the rooms alone. *)
Lemma codes_call_quiet {A} (m : M ShortCodeRegistry.t A) s :
  Server.registry ((on m : M Server.t A) s).2 = Server.registry s ∧
  Server.clients ((on m : M Server.t A) s).2 = Server.clients s.
Proof. unfold on. simpl. by destruct (m (Server.shortCodes s)). Qed.

Lemma step_create events allowed body s :
  server_ok events s →
  step_ok events (Requests (PostRequest "/rooms" allowed body)) s
    (on_request now randomUUID randomToken randomInt fuel (PostRequest "/rooms" allowed body) s).2.
Proof.
  intros Hok. unfold on_request. rewrite decide_True by done.
  destruct allowed; simpl; [|apply quiet_step; eauto].
  unfold catching, mbind, M_bind, on. simpl.
  pose proof (createRoom_cases now randomUUID randomToken (Server.registry s)) as Hc.
  destruct (RoomRegistry.createRoom _ _ _ _) as [res r']. destruct Hc as [Hs Hc].
  set (kept := swept _ _) in Hc.
  assert (∀ R room, kept !! R = Some room → rooms s !! R = Some room) as Hkept
    by by intros R room; apply swept_lookup.
  assert (∀ s', Server.registry s' = r' → Server.clients s' = Server.clients s →
    step_ok events (Requests (PostRequest "/rooms" true body)) s s') as Hstep.
  { intros s' Hr' Hcl.
    assert (∀ R room, RoomRegistry.rooms r' !! R = Some room →
      Room.peers room = [] ∨ rooms s !! R = Some room) as Hback.
    { intros R room. destruct res as [[R' token]|e].
      - destruct Hc as [_ [at_ ->]]. destruct (decide (R = R')) as [->|].
        + rewrite lookup_insert_eq. intros [= <-]. by left.
        + rewrite lookup_insert_ne by done. eauto.
      - destruct Hc as (_ & -> & _). eauto. }
    split; [split; rewrite ?Hr', ?Hcl|].
    - destruct res as [[R' token]|e].
      + destruct Hc as [Hlt [at_ ->]]. destruct (kept !! R') eqn:HR'.
        * rewrite map_size_insert_Some by by eexists. apply Nat.lt_le_incl, Hlt.
        * rewrite map_size_insert_None by done. apply Nat.le_succ_l, Hlt.
      + destruct Hc as (_ & -> & _). etrans; [apply swept_size|apply (so_size _ _ Hok)].
    - intros R room HR. destruct (Hback _ _ HR) as [->|HR']; [constructor|by eapply (so_keys _ _ Hok)].
    - intros R room p t HR Hin. destruct (Hback _ _ HR) as [Hn|HR'].
      + rewrite Hn in Hin. by apply elem_of_nil in Hin.
      + eapply asked_mono; [apply sub_last|]. by eapply (so_asked _ _ Hok).
    - intros t c R p Ht Hj. destruct (so_joined _ _ Hok t c R p) as [tok Htok]; [done..|].
      exists tok. by eapply asked_mono; [apply sub_last|].
    - exists []. by rewrite Hr', Hs, app_nil_r. }
  destruct res as [[R' token]|e]; by apply Hstep.
Qed.

Lemma step_request events request s :
  server_ok events s →
  step_ok events (Requests request) s (on_request now randomUUID randomToken randomInt fuel request s).2.
Proof.
  intros Hok.
  assert (∀ s', Server.registry s' = Server.registry s → Server.clients s' = Server.clients s →
    step_ok events (Requests request) s s') as Hquiet.
  { intros s' Hr Hc. apply quiet_step; rewrite ?Hr, ?Hc; eauto. }
  destruct request as [|url allowed|url allowed body|]; simpl; try by apply Hquiet.
  - case_decide; [by apply Hquiet|]. case_bool_decide; [|by apply Hquiet].
    destruct allowed; [|by apply Hquiet]. simpl. unfold mbind, M_bind, lift.
    destruct (decodeURIComponent _) as [code|e]; [|by apply Hquiet].
    destruct (codes_call_quiet (ShortCodeRegistry.redeem now code) s) as [Hr Hc].
    destruct (on _ s) as [[offer|e] s']; by apply Hquiet.
  - case_decide as Hu; [subst; by apply step_create|]. case_decide; [|by apply Hquiet].
    destruct allowed; [|by apply Hquiet]. simpl.
    destruct (offer_of _) as [offer|]; [|by apply Hquiet]. unfold catching, mbind, M_bind.
    destruct (codes_call_quiet (ShortCodeRegistry.issue now randomInt fuel offer) s) as [Hr Hc].
    destruct (on _ s) as [[issued|e] s']; by apply Hquiet.
Qed.

Lemma server_step events event s :
  server_ok events s → possible events s event → step_ok events event s (serve event s).
Proof.
  intros Hok Hpos. destruct event as [t|t raw|t|t|t| |request]; simpl in *.
  - apply quiet_step; [done..|]. intros t' c'. simpl. rewrite lookup_insert_Some.
    intros [[<- <-]|[_ Hc]]; eauto.
  - destruct (parseClientMessage raw) as [[R token p|q payload]|] eqn:Hp.
    + by eapply step_join.
    + by eapply step_signal.
    + unfold on_message, catching, handle_message. rewrite Hp. by eapply reply_step.
  - apply quiet_step; [done..|]. intros t' c'. simpl. rewrite lookup_alter_Some.
    intros [(<- & c & Hc & ->)|[_ Hc]]; eauto.
  - apply quiet_step; [done..|]. intros t' c'. simpl. rewrite lookup_alter_Some.
    intros [(<- & c & Hc & ->)|[_ Hc]]; eauto.
  - by apply step_close.
  - apply quiet_step; [done..|]. intros t' c'. simpl. rewrite lookup_fmap_Some.
    intros (c & <- & Hc). right. exists c. split; [done|]. unfold beat. by destruct (Peer.isAlive c).
  - by apply step_request.
Qed.

Lemma serves_ok events s : serves events s → server_ok events s.
Proof.
  induction 1 as [|events event s Hs IH Hpos]; [apply server_ok_new|].
  by apply (server_step _ _ _ IH Hpos).
Qed.
End steps.
