(* ===== verification/SignalingProps.v ===== *)
(** * The signaling server: properties *)

From S2P Require Import Prelude JsString Json JsMap Effects ShortCode ShortCodeProps Rooms Signaling.
From S2P Require Import SignalingTheory.
From Stdlib Require String.

Open Scope Z_scope.

Section server.
Context (now : nat → Z) (randomUUID : nat → RoomId) (randomToken : nat → string).
Context (randomInt : nat → nat) (fuel : nat).
Implicit Types s : Server.t.
Abbreviation rooms s := (RoomRegistry.rooms (Server.registry s)).
Abbreviation sent s := (RoomRegistry.sent (Server.registry s)).
Abbreviation serve := (serve now randomUUID randomToken randomInt fuel).
Abbreviation serves := (serves now randomUUID randomToken randomInt fuel).

(** C33: rooms keep to themselves.  In any history, whatever an event makes the
    server send goes to the socket of the event, or is news about its peer to a
    socket that asked for a room its own socket asked for; whoever is in a room
    asked for it with the token the room has; no room has a peer twice; and
    there are never more than [MAX_ROOMS] rooms. *)
Theorem rooms_confined (events : list ServerEvent) s (event : ServerEvent)
    (Hs : serves events s) (Hpos : possible events s event) :
  let s' := serve event s in
  (∃ new, sent s' = sent s ++ new ∧ Forall (confined events event) new) ∧
  (base.size (rooms s') <= MAX_ROOMS)%nat ∧
  ∀ R room, rooms s' !! R = Some room → NoDup (Room.peers room).*1 ∧
    ∀ p t, (p, t) ∈ Room.peers room → asked (events ++ [event]) t R (Room.inviteToken room) p.
Proof.
  pose proof (serves_ok _ _ _ _ _ _ _ Hs) as Hok.
  destruct (server_step now randomUUID randomToken randomInt fuel _ _ _ Hok Hpos) as [[Hsz Hk Ha _] Hnew].
  split; [exact Hnew|]. split; [exact Hsz|]. intros R room HR. split; [by eapply Hk|].
  intros p t. by eapply Ha.
Qed.

(** ** Clients that behave as the apps do *)

(** A socket asks for one room under one id, and no two sockets use an id in
    the same room. *)
Definition honest (events : list ServerEvent) : Prop :=
  (∀ t R token p R' token' p', asked events t R token p → asked events t R' token' p' →
     R = R' ∧ p = p') ∧
  (∀ t t' R token token' p, asked events t R token p → asked events t' R token' p → t = t').

Lemma honest_prefix events event : honest (events ++ [event]) → honest events.
Proof.
  intros [H1 H2]. assert (∀ t R token p, asked events t R token p → asked (events ++ [event]) t R token p)
    as Hm by (intros t R token p Ha; eapply asked_mono; [apply sub_last|exact Ha]).
  split; [intros t R token p R' token' p' Ha Hb; eapply H1; eauto|].
  intros t t' R token token' p Ha Hb. eapply H2; eauto.
Qed.

(** The peers of a room, and what the sockets have joined. *)
Definition in_room s (R : RoomId) (p : PeerId) (t : Socket) : Prop :=
  ∃ room, rooms s !! R = Some room ∧ (p, t) ∈ Room.peers room.

Definition has_joined s (R : RoomId) (p : PeerId) (t : Socket) : Prop :=
  ∃ c, Server.clients s !! t = Some c ∧ Peer.joined c = Some (R, p).

Definition exact_rooms s : Prop := ∀ R p t, in_room s R p t ↔ has_joined s R p t.

(** A room has an id once. *)
Definition server_keys s : Prop := ∀ R room, rooms s !! R = Some room → NoDup (Room.peers room).*1.

Lemma keys_of events s : server_ok events s → server_keys s.
Proof. intros Hok R room. by apply (so_keys _ _ Hok). Qed.

(** A step that changes neither. *)
Lemma exact_same s s' :
  exact_rooms s → rooms s' = rooms s →
  (∀ R p t, has_joined s' R p t ↔ has_joined s R p t) → exact_rooms s'.
Proof. intros He Hr Hj R p t. unfold in_room. rewrite Hr, Hj. apply He. Qed.

Lemma request_clients request s :
  Server.clients (on_request now randomUUID randomToken randomInt fuel request s).2 = Server.clients s.
Proof.
  assert (∀ A (m : M RoomRegistry.t A), Server.clients ((on m : M Server.t A) s).2 = Server.clients s)
    as Hreg by (intros A m; unfold on; simpl; by destruct (m (Server.registry s))).
  destruct request as [|url allowed|url allowed body|]; simpl; try done.
  - case_decide; [done|]. case_bool_decide; [|done]. destruct allowed; [|done]. cbn [negb].
    unfold mbind, M_bind, lift. destruct (decodeURIComponent _) as [code|e]; [|done].
    destruct (codes_call_quiet (ShortCodeRegistry.redeem now code) s) as [_ Hc].
    by destruct (on _ s) as [[offer|e] s'].
  - case_decide; [|case_decide; [|done]]; (destruct allowed; [|done]); simpl.
    + unfold catching, mbind, M_bind.
      specialize (Hreg _ (RoomRegistry.createRoom now randomUUID randomToken)).
      by destruct (on _ s) as [[[R token]|e] s'].
    + destruct (offer_of _) as [offer|]; [|done]. unfold catching, mbind, M_bind.
      destruct (codes_call_quiet (ShortCodeRegistry.issue now randomInt fuel offer) s) as [_ Hc].
      by destruct (on _ s) as [[issued|e] s'].
Qed.

(** What a message does to the sockets: a good join is noted. *)
Lemma message_clients socket raw s :
  Server.clients (on_message now socket raw s).2 = Server.clients s ∨
  ∃ R token p, parseClientMessage raw = Some (join_room R token p) ∧
    Server.clients (on_message now socket raw s).2 =
      alter (λ c, Peer.mk (Some (R, p)) (Peer.isAlive c) (Peer.terminated c)) socket (Server.clients s).
Proof.
  unfold on_message, catching, handle_message, send, joined_of, mbind, M_bind, gets, on.
  destruct (parseClientMessage raw) as [[R token p|q payload]|]; simpl; [|left|by left].
  - destruct (RoomRegistry.join _ _ _ _ _ _) as [[existing|e] r']; simpl; [|by left].
    right. by exists R, token, p.
  - destruct (Server.clients s !! socket) as [c|]; simpl; [|done].
    destruct (Peer.joined c) as [[R p]|]; [|done].
    by destruct (RoomRegistry.relay _ _ _ _ _) as [[[]|e] r'].
Qed.

Lemma close_clients socket s : Server.clients (on_close socket s).2 = delete socket (Server.clients s).
Proof.
  unfold on_close, joined_of, mbind, M_bind, gets, modify, on. simpl.
  destruct (Server.clients s !! socket) as [c|]; simpl; [|done].
  destruct (Peer.joined c) as [[R p]|]; [|done].
  by destruct (RoomRegistry.leave _ _ _) as [[[]|e] r'].
Qed.

(** Who speaks has connected. *)
Lemma connected_first events s : serves events s →
  ∀ t, (is_Some (Server.clients s !! t) ∨ ∃ raw, Says t raw ∈ events) → Connects t ∈ events.
Proof.
  induction 1 as [|events event s Hs IH Hpos]; intros t.
  { simpl. rewrite lookup_empty. intros [[? ?]|[raw ?%elem_of_nil]]; done. }
  assert (is_Some (Server.clients (serve event s) !! t) →
    is_Some (Server.clients s !! t) ∨ event = Connects t) as Hback.
  { destruct event as [u|u raw|u|u|u| |request]; simpl.
    - rewrite lookup_insert_is_Some. naive_solver.
    - destruct (message_clients u raw s) as [->|(R & token & p & _ & ->)]; [by left|].
      rewrite lookup_alter_is_Some. by left.
    - rewrite lookup_alter_is_Some. by left.
    - rewrite lookup_alter_is_Some. by left.
    - rewrite close_clients, lookup_delete_is_Some. naive_solver.
    - rewrite lookup_fmap, fmap_is_Some. by left.
    - rewrite request_clients. by left. }
  rewrite !elem_of_app, !list_elem_of_singleton. intros [Hc|[raw [Hin|Hin]%elem_of_app]].
  - destruct (Hback Hc) as [Hc'|Hev]; [left; apply IH; by left|by right].
  - left. apply IH. eauto.
  - apply list_elem_of_singleton in Hin. subst. simpl in Hpos. left. apply IH. by left.
Qed.

Lemma message_join socket raw R token p s : parseClientMessage raw = Some (join_room R token p) →
  let s' := (on_message now socket raw s).2 in
  (rooms s' = rooms s ∧ Server.clients s' = Server.clients s ∧
   ∃ text, sent s' = sent s ++ [(socket, signal_error text)]) ∨
  ∃ room, found R token (Server.registry s) room ∧
    rooms s' = <[R := Room.set_peers (map_set p socket (Room.peers room)) room]> (rooms s) ∧
    Server.clients s' =
      alter (λ c, Peer.mk (Some (R, p)) (Peer.isAlive c) (Peer.terminated c)) socket (Server.clients s) ∧
    sent s' = sent s ++ told p (map_set p socket (Room.peers room)) (peer_joined p)
                ++ [(socket, joined_message R p (Room.peers room).*1)].
Proof.
  intros Hp. unfold on_message, catching, handle_message. rewrite Hp.
  unfold mbind, M_bind, on. pose proof (join_cases now R token p socket (Server.registry s)) as Hj.
  simpl part. destruct (RoomRegistry.join _ _ _ _ _ _) as [[existing|e] r']; simpl.
  - destruct Hj as (room & Hf & _ & -> & Hr & Hs). right. exists room. by rewrite Hs, <-app_assoc.
  - left. destruct Hj as [-> ->]. split_and!; [done|done|by eexists].
Qed.

(** The peers of the room that a join gets. *)
Lemma found_peers R token room s : found R token (Server.registry s) room →
  ∀ q t, (q, t) ∈ Room.peers room ↔ in_room s R q t.
Proof.
  intros Hf q t. destruct Hf as [room HR|at_ HR Hlt]; simpl.
  - split; [by exists room|]. by intros (room' & ? & ?); simplify_eq.
  - rewrite elem_of_nil. split; [done|]. by intros (room' & ? & _); simplify_eq.
Qed.

Lemma message_no_join socket raw s :
  (∀ R token p, parseClientMessage raw ≠ Some (join_room R token p)) →
  let s' := (on_message now socket raw s).2 in
  rooms s' = rooms s ∧ Server.clients s' = Server.clients s.
Proof.
  intros Hp. unfold on_message, catching, handle_message, send, joined_of, mbind, M_bind, gets, on.
  destruct (parseClientMessage raw) as [[R token p|q payload]|]; simpl; [by destruct (Hp R token p)| |done].
  destruct (Server.clients s !! socket) as [c|]; simpl; [|done].
  destruct (Peer.joined c) as [[R p]|]; [|done].
  pose proof (relay_cases R p q payload (Server.registry s)) as Hrel.
  destruct (RoomRegistry.relay _ _ _ _ _) as [[[]|e] r']; simpl.
  - by destruct Hrel as (room & target & _ & _ & ->).
  - by destruct Hrel as [-> _].
Qed.

Lemma exact_join events socket raw R token p s :
  server_ok events s → honest (events ++ [Says socket raw]) → is_Some (Server.clients s !! socket) →
  parseClientMessage raw = Some (join_room R token p) → exact_rooms s →
  exact_rooms (on_message now socket raw s).2.
Proof.
  intros Hok [Hone Hname] [c Hc] Hp He.
  destruct (message_join socket raw R token p s Hp) as [(Hr & Hcl & _)|(room & Hf & Hr & Hcl & _)].
  { eapply exact_same; [done..|]. intros *. unfold has_joined. by rewrite Hcl. }
  assert (asked (events ++ [Says socket raw]) socket R token p) as Hask.
  { exists raw. split; [set_solver|done]. }
  assert (∀ t R' token' p', asked events t R' token' p' → asked (events ++ [Says socket raw]) t R' token' p')
    as Hm by (intros * Ha; eapply asked_mono; [apply sub_last|exact Ha]).
  pose proof (found_peers _ _ _ _ Hf) as Hin.
  assert (NoDup (Room.peers room).*1) as Hnd.
  { destruct Hf as [room HR|]; [by eapply (so_keys _ _ Hok)|constructor]. }
  assert (∀ R' p', Peer.joined c = Some (R', p') → R' = R ∧ p' = p) as Hprev.
  { intros R' p' Hj. destruct (so_joined _ _ Hok socket c R' p' Hc Hj) as [tok Htok].
    destruct (Hone socket R' tok p' R token p) as [-> ->]; auto. }
  intros R' q t. unfold in_room, has_joined. rewrite Hr, Hcl.
  destruct (decide (t = socket)) as [->|Hnt].
  - rewrite lookup_alter_eq, Hc. simpl.
    transitivity (R' = R ∧ q = p).
    + split.
      * intros (room' & HR' & Hq). destruct (decide (R' = R)) as [->|Hne].
        -- rewrite lookup_insert_eq in HR'. simplify_eq/=. split; [done|].
           apply elem_of_map_set in Hq as [[? _]|[_ Hq]]; [done| |done].
           apply Hin, He in Hq as (c' & Hc' & Hj). simplify_eq. by apply Hprev in Hj as [_ ?].
        -- rewrite lookup_insert_ne in HR' by done.
           assert (has_joined s R' q socket) as (c' & Hc' & Hj) by (apply He; by exists room').
           simplify_eq. by apply Hprev in Hj as [? _].
      * intros [-> ->]. eexists. rewrite lookup_insert_eq. split; [done|]. simpl.
        apply elem_of_map_set; [done|]. by left.
    + split; [intros [-> ->]; by eexists|]. by intros (c' & [= <-] & [= -> ->]).
  - rewrite lookup_alter_ne by done.
    rewrite <-(He R' q t). unfold in_room. destruct (decide (R' = R)) as [->|Hne].
    + rewrite lookup_insert_eq. split.
      * intros (room' & [= <-] & Hq). simpl in Hq.
        apply elem_of_map_set in Hq as [[_ ?]|[_ Hq]]; [done| |done]. by apply Hin.
      * intros Hq. apply (Hin q t) in Hq. eexists. split; [done|]. simpl.
        apply elem_of_map_set; [done|]. right. split; [|done]. intros ->. apply Hnt.
        destruct Hf as [room HR|]; [|by apply elem_of_nil in Hq].
        eapply (Hname t socket R _ token p); [|exact Hask]. apply Hm. by eapply (so_asked _ _ Hok).
    + by rewrite lookup_insert_ne.
Qed.

Lemma exact_close events socket s :
  server_ok events s → exact_rooms s → exact_rooms (on_close socket s).2.
Proof.
  intros Hok He. unfold on_close, joined_of, mbind, M_bind, gets, modify, on. simpl.
  assert (∀ R p t s', Server.clients s' = delete socket (Server.clients s) →
    has_joined s' R p t ↔ t ≠ socket ∧ has_joined s R p t) as Hdel.
  { intros R p t s' Hs'. unfold has_joined. rewrite Hs'. setoid_rewrite lookup_delete_Some. naive_solver. }
  assert ((∀ R p, ¬ has_joined s R p socket) → ∀ s', rooms s' = rooms s →
    Server.clients s' = delete socket (Server.clients s) → exact_rooms s') as Hnone.
  { intros Hno s' Hr Hs' R p t. unfold in_room. rewrite Hr, Hdel by done.
    rewrite <-(He R p t). unfold in_room. split; [|naive_solver]. intros Hin. split; [|done].
    intros ->. by apply (Hno R p), He. }
  destruct (Server.clients s !! socket) as [c|] eqn:Hc; simpl.
  2:{ apply Hnone; [|done..]. intros R p (c & ? & _). congruence. }
  destruct (Peer.joined c) as [[R p]|] eqn:Hj.
  2:{ apply Hnone; [|done..]. intros R p (c' & ? & ?). simplify_eq. }
  simpl. pose proof (leave_cases R p (Server.registry s)) as [Hres Hl].
  destruct (RoomRegistry.leave R p (Server.registry s)) as [res r']. simpl in *. subst res.
  assert (in_room s R p socket) as (room & HR & Hin) by (apply He; by exists c).
  rewrite HR in Hl. destruct Hl as [Hr _].
  intros R' q t. rewrite Hdel by done. rewrite <-(He R' q t). unfold in_room. simpl. rewrite Hr.
  destruct (decide (R' = R)) as [->|Hne].
  - assert (NoDup (Room.peers room).*1) as Hnd by by eapply (so_keys _ _ Hok).
    transitivity ((q, t) ∈ map_delete p (Room.peers room)).
    + case_decide as Hempty.
      * rewrite Hempty, lookup_delete_eq, elem_of_nil. naive_solver.
      * rewrite lookup_insert_eq. naive_solver.
    + rewrite elem_of_map_delete. split.
      * intros [Hq Ht]. split; [|by exists room]. intros ->.
        assert (has_joined s R q socket) as (c' & ? & ?) by (apply He; by exists room). simplify_eq.
      * intros [Ht (room' & ? & Hq)]. simplify_eq. split; [|done]. intros ->. apply Ht.
        pose proof (map_get_elem p (Room.peers room) t Hnd Hq).
        pose proof (map_get_elem p (Room.peers room) socket Hnd Hin). congruence.
  - transitivity (∃ room', rooms s !! R' = Some room' ∧ (q, t) ∈ Room.peers room').
    + case_decide; [by rewrite lookup_delete_ne|by rewrite lookup_insert_ne].
    + split; [|naive_solver]. intros Hq. split; [|done]. intros ->.
      assert (has_joined s R' q socket) as (c' & ? & ?) by by apply He. simplify_eq.
Qed.

(** The identifier that the next room gets has not been asked for. *)
Definition fresh_uuid (events : list ServerEvent) s : Prop :=
  ∀ t token p, ¬ asked events t (randomUUID (RoomRegistry.made (Server.registry s))) token p.

(** A history of honest sockets, in which no two rooms get the same identifier. *)
Inductive used_well : list ServerEvent → Server.t → Prop :=
  | used_none : used_well [] Server.new
  | used_more events event s :
      used_well events s → possible events s event → honest (events ++ [event]) →
      fresh_uuid events s → used_well (events ++ [event]) (serve event s).

Lemma used_serves events s : used_well events s → serves events s.
Proof. induction 1; by constructor. Qed.

Lemma create_key (r : RoomRegistry.t) :
  match RoomRegistry.createRoom now randomUUID randomToken r with
  | (Ok (R, _), _) => R = randomUUID (RoomRegistry.made r)
  | _ => True
  end.
Proof.
  unfold RoomRegistry.createRoom, RoomRegistry.sweep, RoomRegistry.size, RoomRegistry.read_clock,
    mbind, M_bind, gets, modify. cbn [fst snd mret M_ret]. by destruct (decide _).
Qed.

Lemma exact_request events request s :
  server_ok events s → fresh_uuid events s → exact_rooms s →
  exact_rooms (on_request now randomUUID randomToken randomInt fuel request s).2.
Proof.
  intros Hok Hf He.
  assert (∀ R p t, has_joined (on_request now randomUUID randomToken randomInt fuel request s).2 R p t
    ↔ has_joined s R p t) as Hj by (intros *; unfold has_joined; by rewrite request_clients).
  set (s' := (on_request now randomUUID randomToken randomInt fuel request s).2) in *.
  assert ((rooms s' = rooms s) ∨ ∃ kept, rooms s' = kept ∧
    (∀ R p t, in_room s R p t ↔ ∃ room, kept !! R = Some room ∧ (p, t) ∈ Room.peers room)) as Hr.
  { subst s'. destruct request as [|url allowed|url allowed body|]; simpl; try by left.
    - case_decide; [by left|]. case_bool_decide; [|by left]. destruct allowed; [|by left]. left. cbn [negb].
      unfold mbind, M_bind, lift. destruct (decodeURIComponent _) as [code|e]; [|done].
      destruct (codes_call_quiet (ShortCodeRegistry.redeem now code) s) as [Hc _].
      destruct (on _ s) as [[offer|e] s']; simpl in *; by rewrite Hc.
    - case_decide as Hu; [|case_decide; [|by left]]; (destruct allowed; [|by left]); simpl.
      + right. unfold catching, mbind, M_bind, on. simpl.
        pose proof (createRoom_cases now randomUUID randomToken (Server.registry s)) as Hc.
        pose proof (create_key (Server.registry s)) as Hk.
        destruct (RoomRegistry.createRoom _ _ _ _) as [res r']. destruct Hc as [_ Hc].
        set (kept := swept _ _) in Hc.
        assert (∀ R p t, in_room s R p t ↔ ∃ room, kept !! R = Some room ∧ (p, t) ∈ Room.peers room)
          as Hkept.
        { intros R p t. split.
          - intros (room & HR & Hin). exists room. split; [|done]. apply swept_peers; [done|].
            intros Hn. rewrite Hn in Hin. by apply elem_of_nil in Hin.
          - intros (room & HR & Hin). exists room. split; [|done]. by eapply swept_lookup. }
        destruct res as [[R token]|e]; simpl.
        * destruct Hc as [_ [at_ Hr']]. eexists. split; [reflexivity|]. intros R' p t.
          rewrite Hkept, Hr'. destruct (decide (R' = R)) as [->|Hne]; [|by rewrite lookup_insert_ne].
          rewrite lookup_insert_eq. split.
          -- intros (room & HR & Hin). exfalso. apply (Hf t (Room.inviteToken room) p). rewrite <-Hk.
             eapply (so_asked _ _ Hok); [by eapply swept_lookup|done].
          -- intros (room & [= <-] & Hin). by apply elem_of_nil in Hin.
        * destruct Hc as (_ & Hr' & _). eexists. split; [reflexivity|]. by rewrite Hr'.
      + left. destruct (offer_of _) as [offer|]; [|done]. unfold catching, mbind, M_bind.
        destruct (codes_call_quiet (ShortCodeRegistry.issue now randomInt fuel offer) s) as [Hc _].
        destruct (on _ s) as [[issued|e] s']; simpl in *; by rewrite Hc. }
  destruct Hr as [Hr|(kept & Hr & Hk)]; [by eapply exact_same|].
  intros R p t. unfold in_room. rewrite Hr, Hj, <-(He R p t). by rewrite Hk.
Qed.

(** A step keeps the rooms exact. *)
Lemma exact_step events event s : serves events s → possible events s event → honest (events ++ [event]) →
  match event with Requests _ => fresh_uuid events s | _ => True end → exact_rooms s →
  exact_rooms (serve event s).
Proof.
  intros Hs Hpos Hh Hf IH. pose proof (serves_ok _ _ _ _ _ _ _ Hs) as Hok.
  destruct event as [u|u raw|u|u|u| |request]; simpl in *.
  - intros R p t. transitivity (in_room s R p t); [done|]. rewrite (IH R p t). unfold has_joined. simpl.
    destruct (decide (u = t)) as [->|Hne]; [|by rewrite lookup_insert_ne].
    rewrite lookup_insert_eq. split.
    + intros (c & Hc & _). destruct Hpos. eapply connected_first; [exact Hs|]. left. by exists c.
    + by intros (c & [= <-] & ?).
  - destruct (parseClientMessage raw) as [[R token p|q payload]|] eqn:Hp.
    + by eapply exact_join.
    + destruct (message_no_join u raw s) as [Hr Hc]; [congruence|].
      eapply exact_same; [done..|]. intros *. unfold has_joined. by rewrite Hc.
    + destruct (message_no_join u raw s) as [Hr Hc]; [congruence|].
      eapply exact_same; [done..|]. intros *. unfold has_joined. by rewrite Hc.
  - eapply exact_same; [done..|]. intros R p t. unfold has_joined. simpl.
    destruct (decide (u = t)) as [->|Hne]; [|by rewrite lookup_alter_ne].
    rewrite lookup_alter_eq. destruct (Server.clients s !! t) as [c|]; naive_solver.
  - eapply exact_same; [done..|]. intros R p t. unfold has_joined. simpl.
    destruct (decide (u = t)) as [->|Hne]; [|by rewrite lookup_alter_ne].
    rewrite lookup_alter_eq. destruct (Server.clients s !! t) as [c|]; naive_solver.
  - by eapply exact_close.
  - eapply exact_same; [done..|]. intros R p t. unfold has_joined. simpl. rewrite lookup_fmap.
    destruct (Server.clients s !! t) as [c|]; simpl; [|naive_solver]. unfold beat.
    destruct (Peer.isAlive c); naive_solver.
  - by eapply exact_request.
Qed.

Lemma used_exact events s : used_well events s → exact_rooms s.
Proof.
  induction 1 as [|events event s Hu IH Hpos Hh Hf].
  - intros R p t. unfold in_room, has_joined. simpl. setoid_rewrite lookup_empty. naive_solver.
  - apply (exact_step events); [by apply used_serves|done..| |done]. by destruct event.
Qed.

(** Two sockets of a room do not have one id. *)
Lemma joined_once s R q t t' : server_keys s → exact_rooms s → has_joined s R q t → has_joined s R q t' → t = t'.
Proof.
  intros Hk He (room & HR & Hin)%He (room' & HR' & Hin')%He. simplify_eq.
  pose proof (map_get_elem q _ _ (Hk _ _ HR) Hin). pose proof (map_get_elem q _ _ (Hk _ _ HR) Hin'). congruence.
Qed.

(** A signal goes to the socket that joined under the id, if there is one. *)
Lemma signal_delivered s R p t raw q payload : exact_rooms s → has_joined s R p t →
  parseClientMessage raw = Some (signal_to q payload) →
  (∃ t', has_joined s R q t' ∧ sent (serve (Says t raw) s) = sent s ++ [(t', signal_from p payload)]) ∨
  ((∀ t', ¬ has_joined s R q t') ∧ ∃ text, sent (serve (Says t raw) s) = sent s ++ [(t, signal_error text)]).
Proof.
  intros He (c & Hc & Hj) Hp. simpl.
  unfold on_message, catching, handle_message. rewrite Hp.
  unfold joined_of, mbind, M_bind, gets, on. simpl. rewrite Hc. simpl. rewrite Hj. simpl.
  pose proof (relay_cases R p q payload (Server.registry s)) as Hrel.
  destruct (RoomRegistry.relay _ _ _ _ _) as [[[]|e] r']; simpl.
  - destruct Hrel as (room & target & HR & Hget & ->). apply map_get_Some in Hget. left.
    exists target. split; [apply He; by exists room|done].
  - destruct Hrel as [-> Hnone]. right. split; [|by eexists].
    intros t' (room' & HR' & Hin')%He. specialize (Hnone _ HR'). apply map_get_None in Hnone.
    by apply (list_elem_of_fmap_2 fst) in Hin'.
Qed.

(** For clients as the apps are, the server is what it seems.  If every
    socket asks for one room under an id that no other socket uses there, the
    rooms hold exactly the connected sockets that were told they had joined; a
    signal reaches the socket that has joined under the id it is for, and no
    other; and if none has, its sender is told so. *)
Theorem signals_reach (events : list ServerEvent) s (Hu : used_well events s) :
  (∀ R p t, in_room s R p t ↔ has_joined s R p t) ∧
  ∀ t R p raw q payload, has_joined s R p t → parseClientMessage raw = Some (signal_to q payload) →
    let s' := serve (Says t raw) s in
    (∀ t', has_joined s R q t' → sent s' = sent s ++ [(t', signal_from p payload)]) ∧
    ((∀ t', ¬ has_joined s R q t') → ∃ text, sent s' = sent s ++ [(t, signal_error text)]).
Proof.
  pose proof (used_exact events s Hu) as He. split; [exact He|].
  assert (server_keys s) as Hk by by eapply keys_of, serves_ok, used_serves.
  intros t R p raw q payload Ht Hp.
  destruct (signal_delivered s R p t raw q payload He Ht Hp) as [(u & Hu' & Hs)|[Hno Hs]]; split.
  - intros t' Ht'. by rewrite (joined_once s R q t' u Hk He Ht' Hu').
  - intros Hnone. by destruct (Hnone u).
  - intros t' Ht'. by destruct (Hno t').
  - done.
Qed.
End server.

(** ** Histories, computed *)

(** The joins a history asks for. *)
Definition asks (events : list ServerEvent) : list (Socket * RoomId * string * PeerId) :=
  omap (λ event, match event with
                 | Says t raw =>
                     match parseClientMessage raw with
                     | Some (join_room R token p) => Some (t, R, token, p)
                     | _ => None
                     end
                 | _ => None
                 end) events.

Lemma asked_asks events t R token p : asked events t R token p ↔ (t, R, token, p) ∈ asks events.
Proof.
  unfold asked, asks. rewrite list_elem_of_omap. split.
  - intros (raw & Hin & Hp). exists (Says t raw). by rewrite Hp.
  - intros ([| u raw | | | | | ] & Hin & He); try done. exists raw.
    destruct (parseClientMessage raw) as [[R' token' p'|]|]; by simplify_eq.
Qed.

Definition honest_pair (x y : Socket * RoomId * string * PeerId) : Prop :=
  (x.1.1.1 = y.1.1.1 → x.1.1.2 = y.1.1.2 ∧ x.2 = y.2) ∧
  (x.1.1.2 = y.1.1.2 → x.2 = y.2 → x.1.1.1 = y.1.1.1).

Definition joins_fine (events : list ServerEvent) : Prop :=
  Forall (λ x, Forall (honest_pair x) (asks events)) (asks events).

#[global] Instance joins_fine_dec events : Decision (joins_fine events).
Proof. unfold joins_fine, honest_pair. apply _. Defined.

Lemma honest_asks events : joins_fine events → honest events.
Proof.
  intros H. unfold joins_fine in H. rewrite Forall_forall in H. split.
  - intros t R token p R' token' p' Hx%asked_asks Hy%asked_asks.
    apply H in Hx. rewrite Forall_forall in Hx. apply Hx in Hy. by apply Hy.
  - intros t t' R token token' p Hx%asked_asks Hy%asked_asks.
    apply H in Hx. rewrite Forall_forall in Hx. apply Hx in Hy. by apply Hy.
Qed.

#[global] Instance ServerEvent_eq_dec : EqDecision ServerEvent.
Proof. unfold EqDecision, Decision. repeat decide equality; apply eq_comparable. Defined.

#[global] Instance possible_dec events s event : Decision (possible events s event).
Proof. destruct event; simpl; apply _. Defined.

(** Two devices in a room. *)
Module TwoDevices.
Definition clock (n : nat) : Z := Z.of_nat n.
Definition uuid (n : nat) : RoomId := of_chars (replicate (S n) (fromCharCode 114)).
Definition token (n : nat) : string := of_chars (replicate (S n) (fromCharCode 116)).
Definition draw (n : nat) : nat := n mod 32.

Definition join (peerId : PeerId) : string :=
  JSON_stringify (JObj [("type", JStr "join"); ("roomId", JStr "meeting");
                        ("inviteToken", JStr "secret"); ("peerId", JStr peerId)]).

Definition signal (target : PeerId) (payload : json) : string :=
  JSON_stringify (JObj [("type", JStr "signal"); ("targetPeerId", JStr target); ("payload", payload)]).

Definition step (s : Server.t) (event : ServerEvent) : Server.t :=
  serve clock uuid token draw 100 event s.

Definition run (events : list ServerEvent) (s : Server.t) : Server.t := foldl step s events.

(** Whether each event of a history can happen, and is as in [used_well]. *)
Fixpoint fits (past events : list ServerEvent) (s : Server.t) : Prop :=
  match events with
  | [] => True
  | event :: events =>
      possible past s event ∧ joins_fine (past ++ [event]) ∧
      Forall (λ x, x.1.1.2 ≠ uuid (RoomRegistry.made (Server.registry s))) (asks past) ∧
      fits (past ++ [event]) events (step s event)
  end.

#[global] Instance fits_dec past events s : Decision (fits past events s).
Proof. revert past s. induction events; intros past s; simpl; apply _. Defined.

Lemma run_used events : fits [] events Server.new →
  used_well clock uuid token draw 100 events (run events Server.new).
Proof.
  assert (∀ past s, used_well clock uuid token draw 100 past s → fits past events s →
    used_well clock uuid token draw 100 (past ++ events) (run events s)) as Hall.
  { induction events as [|event events IH]; intros past s Hs; simpl.
    - by rewrite app_nil_r.
    - intros (Hp & Hj & Hf & Hr). change (event :: events) with ([event] ++ events).
      rewrite app_assoc. apply IH; [|done]. constructor; [done..|by apply honest_asks|].
      intros t k p Ha%asked_asks. rewrite Forall_forall in Hf. by apply Hf in Ha. }
  intros Hf. apply (Hall []); [constructor|done].
Qed.

Definition history : list ServerEvent :=
  [Connects 0; Says 0 (join "laptop"); Beats; Connects 1; Says 1 (join "phone"); Pongs 0].
End TwoDevices.

Import TwoDevices.

Lemma history_used : used_well clock uuid token draw 100 history (run history Server.new).
Proof. apply run_used. refine (bool_decide_eq_true_1 _ _). vm_compute. reflexivity. Qed.

Lemma rooms_confined_witness :
  ∃ new, RoomRegistry.sent (Server.registry (run (history ++ [Says 0 (signal "phone" JNull)]) Server.new)) =
    RoomRegistry.sent (Server.registry (run history Server.new)) ++ new ∧
    Forall (confined history (Says 0 (signal "phone" JNull))) new.
Proof.
  apply (rooms_confined clock uuid token draw 100 history (run history Server.new)
    (Says 0 (signal "phone" JNull))).
  - apply used_serves, history_used.
  - refine (bool_decide_eq_true_1 _ _). vm_compute. reflexivity.
Defined.

Lemma signals_reach_witness :
  RoomRegistry.sent (Server.registry (run (history ++ [Says 0 (signal "phone" JNull)]) Server.new)) =
    RoomRegistry.sent (Server.registry (run history Server.new))
      ++ [(1%nat, signal_from "laptop" (Some JNull))].
Proof.
  destruct (signals_reach clock uuid token draw 100 history (run history Server.new) history_used)
    as [_ Hsig].
  destruct (Hsig 0%nat "meeting" "laptop" (signal "phone" JNull) "phone" (Some JNull)) as [Hin _].
  - eexists. split; vm_compute; reflexivity.
  - vm_compute. reflexivity.
  - apply Hin. eexists. split; vm_compute; reflexivity.
Defined.
