(* ===== verification/SignalingEdges.v ===== *)
(** * The signaling server: at the edges

    A device that reconnects while its old socket is half open, a socket that
    joins twice, a request with a bad escape, and the registry of short codes. *)

From S2P Require Import Prelude JsString Json JsMap Effects ShortCode ShortCodeProps Rooms Signaling.
From S2P Require Import SignalingTheory SignalingProps.
From Stdlib Require String.

Open Scope Z_scope.

(** ** What escapes a request *)

Lemma redeem_ok now code r : ∃ offer, (ShortCodeRegistry.redeem now code r).1 = Ok offer.
Proof.
  unfold ShortCodeRegistry.redeem. generalize (normalizeShortCode code). intros c.
  unfold ShortCodeRegistry.sweep, ShortCodeRegistry.read_clock, mbind, M_bind, gets, modify.
  cbn [fst snd]. destruct (_ !! c); by eexists.
Qed.

Lemma decode_error code e : decodeURIComponent code = Err e → e = "URI malformed".
Proof. unfold decodeURIComponent. destruct (decode_uri _ _); congruence. Qed.

(** ** Joining again *)

Section server.
Context (now : nat → Z) (randomUUID : nat → RoomId) (randomToken : nat → string).
Context (randomInt : nat → nat) (fuel : nat).
Implicit Types s : Server.t.
Abbreviation rooms s := (RoomRegistry.rooms (Server.registry s)).
Abbreviation sent s := (RoomRegistry.sent (Server.registry s)).
Abbreviation serve := (serve now randomUUID randomToken randomInt fuel).
Abbreviation serves := (serves now randomUUID randomToken randomInt fuel).

(** A join of a room that is there, with its token. *)
Lemma message_join_there socket raw R p s room :
  rooms s !! R = Some room → parseClientMessage raw = Some (join_room R (Room.inviteToken room) p) →
  let s' := (on_message now socket raw s).2 in
  rooms s' = <[R := Room.set_peers (map_set p socket (Room.peers room)) room]> (rooms s) ∧
  Server.clients s' =
    alter (λ c, Peer.mk (Some (R, p)) (Peer.isAlive c) (Peer.terminated c)) socket (Server.clients s) ∧
  sent s' = sent s ++ told p (map_set p socket (Room.peers room)) (peer_joined p)
              ++ [(socket, joined_message R p (Room.peers room).*1)].
Proof.
  intros HR Hp. unfold on_message, catching, handle_message. rewrite Hp.
  unfold mbind, M_bind, on. simpl part.
  unfold RoomRegistry.join, RoomRegistry.room_for, mbind, M_bind, gets, lift. rewrite HR.
  cbn [mret M_ret]. rewrite bool_decide_true by done. simpl.
  unfold RoomRegistry.set_room, modify. rewrite tell_joined. simpl. by rewrite <-app_assoc.
Qed.

(** The close of a socket that joined a room that is there. *)
Lemma close_joined socket s c R p room :
  Server.clients s !! socket = Some c → Peer.joined c = Some (R, p) → rooms s !! R = Some room →
  let peers := map_delete p (Room.peers room) in
  rooms (on_close socket s).2 =
    (if decide (peers = []) then delete R (rooms s) else <[R := Room.set_peers peers room]> (rooms s)) ∧
  sent (on_close socket s).2 = sent s ++ to_all peers (peer_left p).
Proof.
  intros Hc Hj HR. unfold on_close, joined_of, mbind, M_bind, gets, modify, on. simpl.
  rewrite Hc. simpl. rewrite Hj. simpl.
  pose proof (leave_cases R p (Server.registry s)) as [Hres Hl].
  destruct (RoomRegistry.leave R p (Server.registry s)) as [res r']. simpl in *.
  rewrite HR in Hl. exact Hl.
Qed.

(** A device that reconnects loses its place.  When a new socket joins a
    room under the id that an old, half-open socket of the same device has
    there, it is told that it meets itself; and when the old socket is at last
    closed, it is the new one that leaves the room: the others are told that the
    device left, and what they signal to it fails, although it is connected and
    was told that it had joined. *)
Theorem reconnect_evicted (events : list ServerEvent) s (old fresh : Socket) R p room raw
    (Hs : serves events s) (Hold : has_joined s R p old) (HR : rooms s !! R = Some room)
    (Hin : (p, old) ∈ Room.peers room) (Hfresh : is_Some (Server.clients s !! fresh))
    (Hne : old ≠ fresh) (Hraw : parseClientMessage raw = Some (join_room R (Room.inviteToken room) p)) :
  let s1 := serve (Says fresh raw) s in
  let s2 := serve (Closes old) s1 in
  (∃ existing, last (sent s1) = Some (fresh, joined_message R p existing) ∧ p ∈ existing) ∧
  has_joined s2 R p fresh ∧ (∀ t, ¬ in_room s2 R p t) ∧
  (∀ q t, q ≠ p → (q, t) ∈ Room.peers room → (t, peer_left p) ∈ drop (length (sent s1)) (sent s2)) ∧
  ∀ t q raw' payload, has_joined s2 R q t → parseClientMessage raw' = Some (signal_to p payload) →
    ∃ text, sent (serve (Says t raw') s2) = sent s2 ++ [(t, signal_error text)].
Proof.
  destruct Hold as (c & Hc & Hj). destruct Hfresh as [c' Hc'].
  assert (NoDup (Room.peers room).*1) as Hnd by by eapply so_keys, HR; eapply serves_ok.
  pose proof (message_join_there fresh raw R p s room HR Hraw) as (Hr1 & Hc1 & Hs1).
  cbv zeta in *. change (on_message now fresh raw s).2 with (serve (Says fresh raw) s) in *.
  set (s1 := serve (Says fresh raw) s) in *. set (m := map_set p fresh (Room.peers room)) in *.
  assert (Server.clients s1 !! old = Some c) as Hc1o by by rewrite Hc1, lookup_alter_ne.
  assert (rooms s1 !! R = Some (Room.set_peers m room)) as HR1 by by rewrite Hr1, lookup_insert_eq.
  pose proof (close_joined old s1 c R p _ Hc1o Hj HR1) as [Hr2 Hs2].
  pose proof (close_clients old s1) as Hc2. simpl in Hr2, Hs2.
  change (on_close old s1).2 with (serve (Closes old) s1) in *.
  set (s2 := serve (Closes old) s1) in *. set (m' := map_delete p m) in *.
  assert (∀ room2, rooms s2 !! R = Some room2 → Room.peers room2 = m') as Hr2'.
  { intros room2. rewrite Hr2. case_decide; [by rewrite lookup_delete_eq|].
    rewrite lookup_insert_eq. by intros [= <-]. }
  split_and!.
  - exists (Room.peers room).*1. rewrite Hs1, app_assoc, last_snoc. split; [done|].
    by apply (list_elem_of_fmap_2 fst) in Hin.
  - exists (Peer.mk (Some (R, p)) (Peer.isAlive c') (Peer.terminated c')). split; [|done].
    by rewrite Hc2, lookup_delete_ne, Hc1, lookup_alter_eq, Hc' by done.
  - intros t (room2 & HR2 & Hin2). rewrite (Hr2' _ HR2) in Hin2.
    by apply elem_of_map_delete in Hin2 as [? _].
  - intros q t Hq Hqt. rewrite Hs2, drop_app_length. unfold to_all.
    apply list_elem_of_fmap. exists (q, t). split; [done|].
    apply elem_of_map_delete. split; [done|]. apply elem_of_map_set; [done|]. by right.
  - intros t q raw' payload (c2 & Hc2t & Hj2) Hp'. simpl.
    unfold on_message, catching, handle_message. rewrite Hp'.
    unfold joined_of, mbind, M_bind, gets, on. simpl. rewrite Hc2t. simpl. rewrite Hj2. simpl.
    pose proof (relay_cases R q p payload (Server.registry s2)) as Hrel.
    destruct (RoomRegistry.relay _ _ _ _ _) as [[[]|e] r']; simpl.
    + destruct Hrel as (room2 & target & HR2 & Hget & _). exfalso.
      rewrite (Hr2' _ HR2) in Hget. apply map_get_Some in Hget.
      by apply elem_of_map_delete in Hget as [? _].
    + destruct Hrel as [-> _]. by eexists.
Qed.

(** A socket that joins a second room is forgotten in the first one: nothing
    takes it out when it closes, and no sweep removes a room with a peer. *)
Lemma second_join_abandons s socket c R p R' p' room room' :
  Server.clients s !! socket = Some c → Peer.joined c = Some (R', p') → R ≠ R' →
  rooms s !! R = Some room → (p, socket) ∈ Room.peers room → rooms s !! R' = Some room' →
  let s' := (on_close socket s).2 in
  Server.clients s' !! socket = None ∧ rooms s' !! R = Some room ∧
  ∀ at_, swept at_ (rooms s') !! R = Some room.
Proof.
  intros Hc Hj Hne HR Hin HR'. cbv zeta. rewrite close_clients, lookup_delete_eq.
  assert (rooms (on_close socket s).2 !! R = Some room) as Hkept.
  { destruct (close_joined socket s c R' p' room' Hc Hj HR') as [-> _].
    case_decide; [by rewrite lookup_delete_ne|by rewrite lookup_insert_ne]. }
  split_and!; [done|done|]. intros at_. apply swept_peers; [done|]. intros Hn.
  rewrite Hn in Hin. by apply elem_of_nil in Hin.
Qed.

(** What a request may throw.  A request is answered whatever it holds
    (unless no code was found), or it is the one case that nothing catches: a
    code whose escapes are malformed, with which the handler leaves no answer;
    the server has not changed. *)
Theorem only_bad_escapes_throw (request : Request) s :
  match (on_request now randomUUID randomToken randomInt fuel request s).1 with
  | Ok (Some _) => True
  | Ok None => ∃ url body offer, request = PostRequest url true body ∧
      (ShortCodeRegistry.issue now randomInt fuel offer (Server.shortCodes s)).1 = Ok None
  | Err e => e = ("URI malformed" : string) ∧
      (on_request now randomUUID randomToken randomInt fuel request s).2 = s ∧
      ∃ url, request = GetRequest url true ∧ chars pairing_codes `prefix_of` chars url ∧
        decodeURIComponent (slice_from url (str_length pairing_codes)) = Err "URI malformed"
  end.
Proof.
  destruct request as [|url allowed|url allowed body|]; [done|..|done]; unfold on_request.
  - case_decide; [done|]. case_bool_decide as Hpre; [|done]. destruct allowed; [|done]. cbn [negb].
    unfold mbind, M_bind, lift. destruct (decodeURIComponent _) as [code|e] eqn:Hd.
    + unfold on. cbn [part Server.codes_part].
      destruct (redeem_ok now code (Server.shortCodes s)) as [offer Ho].
      destruct (ShortCodeRegistry.redeem _ _ _) as [res r']. simpl in Ho. subst res. by destruct offer.
    + cbn [fst snd]. assert (e = "URI malformed") as -> by by eapply decode_error.
      split_and!; [done|done|]. by exists url.
  - case_decide; [|case_decide; [|done]]; (destruct allowed; [|done]); cbn [negb].
    + unfold catching, mbind, M_bind, on. cbn [part Server.registry_part].
      by destruct (RoomRegistry.createRoom _ _ _ _) as [[[R token]|e] r'].
    + destruct (offer_of _) as [offer|]; [|done].
      unfold catching, mbind, M_bind, on. cbn [part Server.codes_part].
      destruct (ShortCodeRegistry.issue _ _ _ _ _) as [[[issued|]|e] r'] eqn:Hi; try done.
      simpl. exists url, body, offer. by rewrite Hi.
Qed.
End server.

(** ** The registry of short codes *)

Section codes.
Context (now : nat → Z) (randomInt : nat → nat).
Implicit Types r : ShortCodeRegistry.t.
Abbreviation entries := ShortCodeRegistry.entries.
Abbreviation code_at := (ShortCodeRegistry.code_at randomInt).

(** The entries that a sweep at a time leaves. *)
Definition unexpired (at_ : Z) (m : gmap string Offer.t) : gmap string Offer.t :=
  filter (λ kv, ¬ Offer.expiresAt kv.2 <= at_) m.

(** The codes of the next [n] turns. *)
Definition next_codes (n : nat) (from : nat) : list string := (λ i, code_at (from + 8 * i)) <$> seq 0 n.

Lemma next_codes_S n from : next_codes (S n) from = code_at from :: next_codes n (from + 8).
Proof.
  unfold next_codes. simpl. f_equal; [f_equal; lia|]. rewrite <-seq_shift, <-list_fmap_compose.
  apply list_fmap_ext. intros i x _. simpl. f_equal. lia.
Qed.

(** The first of these codes that no entry has. *)
Fixpoint first_free (m : gmap string Offer.t) (codes : list string) : option string :=
  match codes with
  | [] => None
  | c :: codes => if decide (m !! c = None) then Some c else first_free m codes
  end.

Lemma first_free_spec m codes :
  match first_free m codes with
  | Some c => ∃ before after, codes = before ++ c :: after ∧ m !! c = None ∧ Forall (λ c, is_Some (m !! c)) before
  | None => Forall (λ c, is_Some (m !! c)) codes
  end.
Proof.
  induction codes as [|c codes IH]; simpl; [done|]. case_decide as Hc; [by exists [], codes|].
  apply not_eq_None_Some in Hc. destruct (first_free m codes) as [x|]; [|by constructor].
  destruct IH as (before & after & -> & Hx & Hb). exists (c :: before), after. by split_and!; [..|constructor].
Qed.

Lemma free_code_spec n r :
  match first_free (entries r) (next_codes n (ShortCodeRegistry.draws r)) with
  | Some c => ∃ d, ∀ more, (n <= more)%nat →
      ShortCodeRegistry.free_code randomInt more r = (Ok (Some c), ShortCodeRegistry.set_draws d r)
  | None => ∃ d, ShortCodeRegistry.free_code randomInt n r = (Ok None, ShortCodeRegistry.set_draws d r)
  end.
Proof.
  revert r. induction n as [|n IH]; intros r.
  { exists (ShortCodeRegistry.draws r). destruct r. reflexivity. }
  rewrite next_codes_S. cbn [first_free].
  assert (∀ more, ShortCodeRegistry.free_code randomInt (S more) r =
    let r1 := ShortCodeRegistry.set_draws (ShortCodeRegistry.draws r + 8) r in
    if decide (is_Some (entries r !! code_at (ShortCodeRegistry.draws r)))
    then ShortCodeRegistry.free_code randomInt more r1
    else (Ok (Some (code_at (ShortCodeRegistry.draws r))), r1)) as Hstep.
  { intros more. simpl. unfold ShortCodeRegistry.generate, mbind, M_bind, gets. cbn [fst snd].
    change (Z.to_nat SHORT_CODE_LENGTH) with 8%nat.
    change (entries (ShortCodeRegistry.set_draws (ShortCodeRegistry.draws r + 8) r)) with (entries r).
    by case_decide. }
  destruct (decide (entries r !! code_at (ShortCodeRegistry.draws r) = None)) as [Hfree|Hfree].
  - eexists. intros [|more] Hmore; [lia|]. rewrite Hstep, decide_False; [reflexivity|by rewrite Hfree; intros [? ?]].
  - specialize (IH (ShortCodeRegistry.set_draws (ShortCodeRegistry.draws r + 8) r)).
    apply not_eq_None_Some in Hfree. simpl in IH.
    destruct (first_free _ _) as [c|]; destruct IH as [d IH]; exists d.
    + intros [|more] Hmore; [lia|]. rewrite Hstep, decide_True by done. apply IH. lia.
    + by rewrite Hstep, decide_True.
Qed.

(** Among codes with more different ones than there are entries, one is free. *)
Lemma codes_pigeonhole (m : gmap string Offer.t) (l : list string) :
  (base.size m < base.size (list_to_set l : gset string))%nat → is_Some (first_free m l).
Proof.
  intros Hlt. pose proof (first_free_spec m l) as Hspec. destruct (first_free m l) as [c|]; [by eexists|].
  exfalso. assert (list_to_set l ⊆@{gset string} dom m) as Hsub.
  { intros c Hc%elem_of_list_to_set. rewrite Forall_forall in Hspec. by apply elem_of_dom, Hspec. }
  apply subseteq_size in Hsub. rewrite size_dom in Hsub. lia.
Qed.

(** [issue] with an offer and room for it: what it leaves, by the code it found. *)
Lemma issue_with n offer r :
  0 < str_length offer <= MAX_OFFER_BYTES →
  let kept := unexpired (now (ShortCodeRegistry.reads r)) (entries r) in
  let swept := ShortCodeRegistry.set_entries kept (ShortCodeRegistry.set_reads (S (ShortCodeRegistry.reads r)) r) in
  (base.size kept < MAX_ENTRIES)%nat →
  ∀ found d, ShortCodeRegistry.free_code randomInt n swept = (Ok found, ShortCodeRegistry.set_draws d swept) →
  ShortCodeRegistry.issue now randomInt n offer r =
    let until := now (S (ShortCodeRegistry.reads r)) + TTL_MS in
    match found with
    | Some c => (Ok (Some (IssuedShortCode.mk (formatShortCode c) until)),
        ShortCodeRegistry.mk (<[c := Offer.mk offer until]> kept) (S (S (ShortCodeRegistry.reads r))) d)
    | None => (Ok None, ShortCodeRegistry.mk kept (S (ShortCodeRegistry.reads r)) d)
    end.
Proof.
  intros Hlen kept swept Hsz found d Hfree. unfold ShortCodeRegistry.issue. rewrite decide_False by lia.
  unfold ShortCodeRegistry.sweep, ShortCodeRegistry.read_clock, mbind, M_bind, gets, modify.
  cbn [fst snd]. rewrite decide_False by (apply Nat.nle_gt; exact Hsz).
  subst swept kept. unfold unexpired in *. cbn [ShortCodeRegistry.entries ShortCodeRegistry.set_entries
    ShortCodeRegistry.set_reads ShortCodeRegistry.reads ShortCodeRegistry.draws] in *.
  rewrite Hfree. by destruct found.
Qed.

(** C34: the search for a code.  For an offer that may be kept, with room left:
    [issue] gives out the first code it draws that no unexpired offer has, for ten
    minutes, and the other unexpired offers stay; every larger fuel gives the
    same.  There is such a code as soon as the codes drawn have more different
    ones among them than there are unexpired offers, so always when they have
    [MAX_ENTRIES] different ones.  As long as each code drawn is taken the search
    goes on, and nothing but the sweep has changed: the loop of the source, which
    counts nothing, does not end while the random source gives no other codes. *)
Theorem issue_terminates (n : nat) (offer : string) r
    (Hlen : 0 < str_length offer <= MAX_OFFER_BYTES)
    (Hroom : (base.size (unexpired (now (ShortCodeRegistry.reads r)) (entries r)) < MAX_ENTRIES)%nat) :
  let kept := unexpired (now (ShortCodeRegistry.reads r)) (entries r) in
  let until := now (S (ShortCodeRegistry.reads r)) + TTL_MS in
  let codes := next_codes n (ShortCodeRegistry.draws r) in
  let issue fuel := ShortCodeRegistry.issue now randomInt fuel offer r in
  ((base.size kept < base.size (list_to_set codes : gset string))%nat → Exists (λ c, kept !! c = None) codes) ∧
  (∀ c before after, codes = before ++ c :: after → Forall (λ c, is_Some (kept !! c)) before → kept !! c = None →
     ∃ draws, ∀ more, (n <= more)%nat → issue more =
       (Ok (Some (IssuedShortCode.mk (formatShortCode c) until)),
        ShortCodeRegistry.mk (<[c := Offer.mk offer until]> kept) (S (S (ShortCodeRegistry.reads r))) draws)) ∧
  (Forall (λ c, is_Some (kept !! c)) codes →
     ∃ draws, issue n = (Ok None, ShortCodeRegistry.mk kept (S (ShortCodeRegistry.reads r)) draws)).
Proof.
  cbv zeta. set (kept := unexpired _ _). set (codes := next_codes n _).
  set (swept := ShortCodeRegistry.set_entries kept (ShortCodeRegistry.set_reads (S (ShortCodeRegistry.reads r)) r)).
  pose proof (free_code_spec n swept) as Hfree. pose proof (first_free_spec kept codes) as Hfirst.
  pose proof (codes_pigeonhole kept codes) as Hpigeon.
  change (entries swept) with kept in Hfree. change (next_codes n (ShortCodeRegistry.draws swept)) with codes in Hfree.
  split_and!.
  - intros Hsz%Hpigeon. destruct Hsz as [c Hc]. rewrite Hc in Hfirst. destruct Hfirst as (before & after & -> & Hn & _).
    apply Exists_app. right. by constructor.
  - intros c before after Hcodes Hbefore Hc. assert (first_free kept codes = Some c) as Hff.
    { rewrite Hcodes. clear -Hbefore Hc. induction Hbefore as [|x before [o Hx] _ IH]; simpl.
      - by rewrite decide_True.
      - by rewrite decide_False by congruence. }
    rewrite Hff in Hfree. destruct Hfree as [d Hd]. exists d. intros more Hmore.
    by rewrite (issue_with more offer r Hlen Hroom (Some c) d (Hd more Hmore)).
  - intros Htaken. destruct (first_free kept codes) as [c|].
    + destruct Hfirst as (before & after & Hcodes & Hn & _). rewrite Hcodes in Htaken.
      apply Forall_app in Htaken as [_ [[o Ho] _]%Forall_cons]. congruence.
    + destruct Hfree as [d Hd]. exists d. by rewrite (issue_with n offer r Hlen Hroom None d Hd).
Qed.

(** What [randomInt] draws is below its argument. *)
Lemma code_at_is_code i : (∀ k, (randomInt k < 32)%nat) → ∃ cs, is_code cs ∧ code_at i = of_points cs.
Proof.
  intros Hint. unfold ShortCodeRegistry.code_at. change (Z.to_nat SHORT_CODE_LENGTH) with 8%nat.
  set (l := (λ k, nth _ _ _) <$> seq 0 8).
  assert (Forall code_char (charCode <$> l)) as Hl.
  { apply Forall_fmap, Forall_fmap, Forall_forall. intros k _.
    apply alphabet_spec, list_elem_of_fmap. eexists. split; [reflexivity|].
    apply list_elem_of_In, nth_In, Hint. }
  exists (charCode <$> l). split.
  - split; [|done]. unfold l. by rewrite !length_fmap, length_seq.
  - rewrite <-(chars_of_chars l) at 2. symmetry. apply of_to_points_ascii.
    unfold is_ascii. rewrite chars_of_chars. rewrite Forall_fmap in Hl.
    eapply Forall_impl; [exact Hl|]. intros c. apply code_char_ascii.
Qed.

Lemma unexpired_None at_ m code :
  (∀ o, m !! code = Some o → Offer.expiresAt o <= at_) → unexpired at_ m !! code = None.
Proof.
  intros Hm. apply map_lookup_filter_None. right. intros o Ho Hn. apply Hn, Hm, Ho.
Qed.

Lemma redeem_spec raw r :
  let at_ := now (ShortCodeRegistry.reads r) in
  match unexpired at_ (entries r) !! normalizeShortCode raw with
  | None => (ShortCodeRegistry.redeem now raw r).1 = Ok None
  | Some entry => ∃ r', ShortCodeRegistry.redeem now raw r = (Ok (Some (Offer.offer entry)), r') ∧
      entries r' = delete (normalizeShortCode raw) (unexpired at_ (entries r))
  end.
Proof.
  cbv zeta. unfold ShortCodeRegistry.redeem. generalize (normalizeShortCode raw). intros code.
  unfold ShortCodeRegistry.sweep, ShortCodeRegistry.read_clock, mbind, M_bind, gets, modify.
  cbn [fst snd]. fold (unexpired (now (ShortCodeRegistry.reads r)) (entries r)).
  cbn [ShortCodeRegistry.set_entries ShortCodeRegistry.set_reads ShortCodeRegistry.entries].
  unfold unexpired. destruct (_ !! _); cbn [fst snd]; [by eexists|done].
Qed.

Lemma typed_normalize cs l : typed cs l → normalizeShortCode (of_points l) = of_points cs.
Proof.
  intros Hl. rewrite normalize_ascii by by eapply typed_ascii. f_equal. by apply typed_norm.
Qed.

(** The entry that [issue] leaves. *)
Lemma free_code_drawn n r c r' :
  ShortCodeRegistry.free_code randomInt n r = (Ok (Some c), r') →
  (∃ i, c = code_at i) ∧ entries r' = entries r.
Proof.
  revert r. induction n as [|n IH]; intros r; [done|]. simpl.
  unfold ShortCodeRegistry.generate, mbind, M_bind, gets. cbn [fst snd].
  case_decide; [by intros [Hi He]%IH|]. intros [= <- <-]. split; [by eexists|done].
Qed.

Lemma issued_entry n offer r issued r' :
  ShortCodeRegistry.issue now randomInt n offer r = (Ok (Some issued), r') →
  ∃ i, IssuedShortCode.code issued = formatShortCode (code_at i) ∧
    entries r' !! code_at i = Some (Offer.mk offer (IssuedShortCode.expiresAt issued)).
Proof.
  unfold ShortCodeRegistry.issue. case_decide; [done|].
  unfold ShortCodeRegistry.sweep, ShortCodeRegistry.read_clock, mbind, M_bind, gets, modify.
  cbn [fst snd]. case_decide; [done|].
  destruct (ShortCodeRegistry.free_code _ _ _) as [[[c|]|e] s1] eqn:Hf; [|done..].
  apply free_code_drawn in Hf as [[i ->] _]. intros [= <- <-]. exists i. split; [done|].
  simpl. by rewrite lookup_insert_eq.
Qed.

(** A code brings back its offer, once.  The code that [issue] gives out is
    four characters, a dash and four more; whichever way somebody types it, it
    is redeemed for the offer it was made for as long as it has not expired and
    its entry was not used, and then nobody redeems it again; and when it has
    expired, nobody does. *)
Theorem code_redeemed_once (n : nat) (offer : string) r issued r1
    (Hint : ∀ k, (randomInt k < 32)%nat)
    (Hissue : ShortCodeRegistry.issue now randomInt n offer r = (Ok (Some issued), r1)) :
  ∃ cs, is_code cs ∧ IssuedShortCode.code issued = formatShortCode (of_points cs) ∧
    typed cs (dashed cs) ∧ IssuedShortCode.code issued = of_points (dashed cs) ∧
    ∀ r2 l, entries r2 !! of_points cs = entries r1 !! of_points cs → typed cs l →
      let at_ := now (ShortCodeRegistry.reads r2) in
      (at_ < IssuedShortCode.expiresAt issued → ∃ r3,
         ShortCodeRegistry.redeem now (of_points l) r2 = (Ok (Some offer), r3) ∧
         ∀ l', typed cs l' → (ShortCodeRegistry.redeem now (of_points l') r3).1 = Ok None) ∧
      (IssuedShortCode.expiresAt issued <= at_ →
         (ShortCodeRegistry.redeem now (of_points l) r2).1 = Ok None).
Proof.
  destruct (issued_entry n offer r issued r1 Hissue) as (i & Hcode & Hentry).
  destruct (code_at_is_code i Hint) as (cs & Hcs & Heq). rewrite Heq in Hcode, Hentry.
  exists cs. split_and!; [done|done|by apply dashed_typed|by rewrite Hcode; apply format_code|].
  intros r2 l He Hl at_. rewrite Hentry in He.
  pose proof (redeem_spec (of_points l) r2) as Hr. rewrite typed_normalize with (cs := cs) in Hr by done.
  fold at_ in Hr. cbv zeta in Hr. split; intros Hat.
  - assert (unexpired at_ (entries r2) !! of_points cs =
      Some (Offer.mk offer (IssuedShortCode.expiresAt issued))) as Hu.
    { apply map_lookup_filter_Some. split; [done|]. simpl. lia. }
    rewrite Hu in Hr. destruct Hr as (r3 & Hr & Hr3). exists r3. split; [exact Hr|].
    intros l' Hl'. pose proof (redeem_spec (of_points l') r3) as Hr'.
    rewrite typed_normalize with (cs := cs) in Hr' by done.
    cbv zeta in Hr'. rewrite unexpired_None in Hr'; [exact Hr'|].
    intros o. by rewrite Hr3, lookup_delete_eq.
  - rewrite unexpired_None in Hr; [exact Hr|]. rewrite He. by intros o [= <-].
Qed.
End codes.

(** ** Witnesses *)

Import TwoDevices.

(** The phone's network is lost and it connects again. *)
Lemma reconnect_evicted_witness :
  has_joined (run (history ++ [Connects 2; Says 2 (join "phone"); Closes 1]) Server.new) "meeting" "phone" 2 ∧
  ¬ in_room (run (history ++ [Connects 2; Says 2 (join "phone"); Closes 1]) Server.new) "meeting" "phone" 2.
Proof.
  refine ((λ r, conj (proj1 (proj2 r)) (proj1 (proj2 (proj2 r)) 2%nat)) (reconnect_evicted clock uuid token draw 100 (history ++ [Connects 2])
    (run (history ++ [Connects 2]) Server.new) 1 2 "meeting" "phone"
    (Room.mk "meeting" "secret" [("laptop", 0%nat); ("phone", 1%nat)] 0) (join "phone")
    _ _ _ _ _ _ _)).
  - apply used_serves, run_used. refine (bool_decide_eq_true_1 _ _). vm_compute. reflexivity.
  - eexists. split; vm_compute; reflexivity.
  - vm_compute. reflexivity.
  - apply list_elem_of_In. right. by left.
  - eexists. vm_compute. reflexivity.
  - done.
  - vm_compute. reflexivity.
Defined.

(** A registry with an offer, whose random source starts again. *)
Definition repeating : ShortCodeRegistry.t :=
  ShortCodeRegistry.set_draws 0 (ShortCodeRegistry.issue clock draw 1 "first" ShortCodeRegistry.new).2.

(** The first code drawn is taken, the second one is given out. *)
Lemma issue_terminates_witness :
  ∃ issued r', ShortCodeRegistry.issue clock draw 100 "offer" repeating = (Ok (Some issued), r') ∧
    IssuedShortCode.code issued = "89AB-CDEF".
Proof.
  destruct (issue_terminates clock draw 2 "offer" repeating) as (_ & Hfree & _).
  - by_compute.
  - apply Nat.leb_le. vm_compute. reflexivity.
  - destruct (Hfree "89ABCDEF" ["01234567"] []) as [draws Hissue].
    + vm_compute. reflexivity.
    + constructor; [|constructor]. eexists. vm_compute. reflexivity.
    + vm_compute. reflexivity.
    + eexists _, _. split; [apply Hissue; lia|]. vm_compute. reflexivity.
Defined.

Lemma code_redeemed_once_witness :
  (ShortCodeRegistry.redeem clock "0123-4567"
     (ShortCodeRegistry.issue clock draw 3 "offer" ShortCodeRegistry.new).2).1 = Ok (Some "offer").
Proof.
  destruct (code_redeemed_once clock draw 3 "offer" ShortCodeRegistry.new
    (IssuedShortCode.mk "0123-4567" (1 + TTL_MS))
    (ShortCodeRegistry.issue clock draw 3 "offer" ShortCodeRegistry.new).2)
    as (cs & Hcs & Hcode & Htyped & Hdash & Hred).
  - intros k. by apply Nat.mod_upper_bound.
  - vm_compute. reflexivity.
  - simpl in Hdash. rewrite Hdash.
    destruct (Hred (ShortCodeRegistry.issue clock draw 3 "offer" ShortCodeRegistry.new).2 (dashed cs)
      eq_refl Htyped) as [Hin _].
    destruct Hin as (r3 & Hr3 & _); [vm_compute; reflexivity|]. by rewrite Hr3.
Defined.

(** A request for the code [%]. *)
Lemma bad_escape_throws :
  (on_request clock uuid token draw 100 (GetRequest "/pairing-codes/%" true) Server.new).1 =
    Err "URI malformed".
Proof. vm_compute. reflexivity. Qed.
