(* ===== verification/Hub.v ===== *)
(** * The hub of peer links

    packages/transport/src/peerLinkHub.ts and peerFrame.ts.  Channels are kept
    by number, since whoever was given a link holds on to it after the hub has
    forgotten it.  A handler, and a promise of [drain], is a number too; what the
    hub calls outside is kept in order.  A call from outside that answers a call
    of the hub is a step of its own. *)

From S2P Require Import Prelude Model Bytes JsString Json JsMap.

Open Scope Z_scope.

Inductive ChannelName : Type := control | bulk.

#[global] Instance ChannelName_eq_dec : EqDecision ChannelName.
Proof. solve_decision. Defined.

Module PeerFrame.
Record t : Type := mk {
  peerId : string;
  channel : ChannelName;
  text : option string;
  bytes : option Uint8Array;
}.

#[global] Instance eq_dec : EqDecision t.
Proof. solve_decision. Defined.
End PeerFrame.

Inductive Data : Type := Text (text : string) | Bytes (bytes : Uint8Array).

#[global] Instance Data_eq_dec : EqDecision Data.
Proof. solve_decision. Defined.

(** What the hub calls: [emit], a handler of a channel, its handler of the end,
    the [resolve] of a promise, [onPeerInitiated]. *)
Inductive Call : Type :=
  | Emits (frame : PeerFrame.t)
  | Hands (channel : nat) (handler : nat) (data : Data)
  | TellsClosed (channel : nat) (handler : nat)
  | Releases (waiter : nat)
  | Invites (peerId : string).

#[global] Instance Call_eq_dec : EqDecision Call.
Proof. solve_decision. Defined.

Definition LOW_WATER_BYTES : Z := 256 * 1024.

Module HubChannel.
Record t : Type := mk {
  peerId : string;
  channel : ChannelName;
  handler : option nat;
  closeHandler : option nat;
  buffered : Z;
  drainWaiters : list nat;
  closed : bool;
}.

Definition make (peerId : string) (channel : ChannelName) : t := mk peerId channel None None 0 [] false.

Definition set_handler x (c : t) : t :=
  mk (peerId c) (channel c) x (closeHandler c) (buffered c) (drainWaiters c) (closed c).
Definition set_closeHandler x (c : t) : t :=
  mk (peerId c) (channel c) (handler c) x (buffered c) (drainWaiters c) (closed c).
Definition set_buffered x (c : t) : t :=
  mk (peerId c) (channel c) (handler c) (closeHandler c) x (drainWaiters c) (closed c).
Definition set_drainWaiters x (c : t) : t :=
  mk (peerId c) (channel c) (handler c) (closeHandler c) (buffered c) x (closed c).
Definition set_closed x (c : t) : t :=
  mk (peerId c) (channel c) (handler c) (closeHandler c) (buffered c) (drainWaiters c) x.

Definition send (data : Data) (c : t) : list Call :=
  if closed c then []
  else [Emits (match data with
               | Text text => PeerFrame.mk (peerId c) (channel c) (Some text) None
               | Bytes bytes => PeerFrame.mk (peerId c) (channel c) None (Some bytes)
               end)].

(** The promise is there at once, or [waiter] waits for it. *)
Definition drain (waiter : nat) (c : t) : t * list Call :=
  if closed c || (buffered c <=? LOW_WATER_BYTES) then (c, [Releases waiter])
  else (set_drainWaiters (drainWaiters c ++ [waiter]) c, []).

Definition onMessage (handler : nat) (c : t) : t := set_handler (Some handler) c.
Definition onClose (handler : nat) (c : t) : t := set_closeHandler (Some handler) c.

Definition releaseWaiters (c : t) : t * list Call :=
  (set_drainWaiters [] c, Releases <$> drainWaiters c).

Definition close (id : nat) (c : t) : t * list Call :=
  if closed c then (c, [])
  else
    let '(c, released) := releaseWaiters (set_closed true c) in
    (c, released ++ match closeHandler c with Some h => [TellsClosed id h] | None => [] end).

Definition deliver (id : nat) (data : Data) (c : t) : list Call :=
  if closed c then []
  else match handler c with Some h => [Hands id h data] | None => [] end.

Definition reportBuffered (bytes : Z) (c : t) : t * list Call :=
  let c := set_buffered bytes c in
  if bytes <=? LOW_WATER_BYTES then releaseWaiters c else (c, []).
End HubChannel.

(** A record of the hub: the channels of a link. *)
Module LinkRecord.
Record t : Type := mk {
  control : nat;
  bulk : nat;
}.
End LinkRecord.

Definition opensASession (frame : PeerFrame.t) : bool :=
  match PeerFrame.channel frame, PeerFrame.text frame with
  | control, Some text =>
      match JSON_parse text with
      | Some (JObj value) => bool_decide (text_member "type" value = Some "hello")
      | _ => false
      end
  | _, _ => false
  end.

Definition MAX_WAITING : nat := 8.

Module Hub.
(** [microtasks] are the lists of frames whose delivery was put off by a tick;
    [answers] tells whether [onPeerInitiated] is set. *)
Record t : Type := mk {
  channels : list HubChannel.t;
  links : list (string * LinkRecord.t);
  waiting : gmap string (list PeerFrame.t);
  microtasks : list (list PeerFrame.t);
  answers : bool;
  calls : list Call;
}.

Definition new : t := mk [] [] ∅ [] true [].

Definition set_channels x (h : t) : t := mk x (links h) (waiting h) (microtasks h) (answers h) (calls h).
Definition set_links x (h : t) : t := mk (channels h) x (waiting h) (microtasks h) (answers h) (calls h).
Definition set_waiting x (h : t) : t := mk (channels h) (links h) x (microtasks h) (answers h) (calls h).
Definition set_microtasks x (h : t) : t := mk (channels h) (links h) (waiting h) x (answers h) (calls h).
Definition call x (h : t) : t := mk (channels h) (links h) (waiting h) (microtasks h) (answers h) (calls h ++ x).

(** A call of a method of a channel. *)
Definition on_channel (id : nat) (f : HubChannel.t → HubChannel.t * list Call) (h : t) : t :=
  match channels h !! id with
  | None => h
  | Some c => let '(c, called) := f c in call called (set_channels (<[id := c]> (channels h)) h)
  end.

Definition closeLink (peerId : string) (h : t) : t :=
  let h := set_waiting (delete peerId (waiting h)) h in
  match map_get peerId (links h) with
  | None => h
  | Some record =>
      let h := set_links (map_delete peerId (links h)) h in
      let h := on_channel (LinkRecord.control record) (HubChannel.close (LinkRecord.control record)) h in
      on_channel (LinkRecord.bulk record) (HubChannel.close (LinkRecord.bulk record)) h
  end.

Definition createLink (peerId : string) (h : t) : t * LinkRecord.t :=
  let held := waiting h !! peerId in
  let h := set_waiting (delete peerId (waiting h)) h in
  let h := closeLink peerId h in
  let n := length (channels h) in
  let record := LinkRecord.mk n (S n) in
  let h := set_channels (channels h ++ [HubChannel.make peerId control; HubChannel.make peerId bulk]) h in
  let h := set_links (map_set peerId record (links h)) h in
  (match held with Some held => set_microtasks (microtasks h ++ [held]) h | None => h end, record).

Definition deliverInbound (frame : PeerFrame.t) (h : t) : t :=
  match map_get (PeerFrame.peerId frame) (links h) with
  | None =>
      if negb (opensASession frame) then h
      else
        let held := default [] (waiting h !! PeerFrame.peerId frame) in
        let '(held, h) :=
          if decide (length held < MAX_WAITING)%nat then
            let held := held ++ [frame] in
            (held, set_waiting (<[PeerFrame.peerId frame := held]> (waiting h)) h)
          else (held, h) in
        if decide (length held = 1%nat) then
          if answers h then call [Invites (PeerFrame.peerId frame)] h else h
        else h
  | Some record =>
      match PeerFrame.channel frame, PeerFrame.text frame, PeerFrame.bytes frame with
      | control, Some text, _ =>
          on_channel (LinkRecord.control record)
            (λ c, (c, HubChannel.deliver (LinkRecord.control record) (Text text) c)) h
      | bulk, _, Some bytes =>
          on_channel (LinkRecord.bulk record)
            (λ c, (c, HubChannel.deliver (LinkRecord.bulk record) (Bytes bytes) c)) h
      | _, _, _ => h
      end
  end.

Definition reportBuffered (peerId : string) (bytes : Z) (h : t) : t :=
  match map_get peerId (links h) with
  | None => h
  | Some record => on_channel (LinkRecord.bulk record) (HubChannel.reportBuffered bytes) h
  end.

Definition closeAll (h : t) : t := foldl (λ h peerId, closeLink peerId h) h (links h).*1.

(** The oldest microtask. *)
Definition microtask (h : t) : t :=
  match microtasks h with
  | [] => h
  | held :: rest => foldl (λ h frame, deliverInbound frame h) (set_microtasks rest h) held
  end.
End Hub.

(** ** Steps *)

Inductive HubStep : Type :=
  | CreateLink (peerId : string)
  | DeliverInbound (frame : PeerFrame.t)
  | ReportBuffered (peerId : string) (bytes : Z)
  | CloseLink (peerId : string)
  | CloseAll
  | Microtask
  | Sends (channel : nat) (data : Data)
  | Drains (channel : nat) (waiter : nat)
  | Listens (channel : nat) (handler : nat)
  | ListensToClose (channel : nat) (handler : nat)
  | ClosesChannel (channel : nat).

Definition hub_step (h : Hub.t) (step : HubStep) : Hub.t :=
  match step with
  | CreateLink peerId => (Hub.createLink peerId h).1
  | DeliverInbound frame => Hub.deliverInbound frame h
  | ReportBuffered peerId bytes => Hub.reportBuffered peerId bytes h
  | CloseLink peerId => Hub.closeLink peerId h
  | CloseAll => Hub.closeAll h
  | Microtask => Hub.microtask h
  | Sends id data => Hub.on_channel id (λ c, (c, HubChannel.send data c)) h
  | Drains id waiter => Hub.on_channel id (HubChannel.drain waiter) h
  | Listens id handler => Hub.on_channel id (λ c, (HubChannel.onMessage handler c, [])) h
  | ListensToClose id handler => Hub.on_channel id (λ c, (HubChannel.onClose handler c, [])) h
  | ClosesChannel id => Hub.on_channel id (HubChannel.close id) h
  end.

Definition hub_run (steps : list HubStep) : Hub.t := foldl hub_step Hub.new steps.
