(* ===== verification/HubProps.v ===== *)
(** * The hub of peer links: properties *)

From S2P Require Import Prelude Model Bytes JsString Json JsMap Hub.

Open Scope Z_scope.

(** ** What arrives, waits and is handed over *)

(** What a frame carries for the channel it names. *)
Definition frame_data (frame : PeerFrame.t) : option Data :=
  match PeerFrame.channel frame with
  | control => Text <$> PeerFrame.text frame
  | bulk => Bytes <$> PeerFrame.bytes frame
  end.

(** What frames carry for a channel of a peer. *)
Definition carried (p : string) (ch : ChannelName) (frames : list PeerFrame.t) : list Data :=
  omap (λ f, if decide (PeerFrame.peerId f = p ∧ PeerFrame.channel f = ch) then frame_data f else None) frames.

(** The frames that arrived. *)
Definition arrived (steps : list HubStep) : list PeerFrame.t :=
  omap (λ s, match s with DeliverInbound f => Some f | _ => None end) steps.

Definition is_for (p : string) (ch : ChannelName) (c : HubChannel.t) : Prop :=
  HubChannel.peerId c = p ∧ HubChannel.channel c = ch.

#[global] Instance is_for_dec p ch c : Decision (is_for p ch c).
Proof. unfold is_for. apply _. Defined.

(** What the handlers of the channels of a peer were called with. *)
Definition handed_by (channels : list HubChannel.t) (p : string) (ch : ChannelName) (calls : list Call)
    : list Data :=
  omap (λ c, match c with
             | Hands id _ data =>
                 match channels !! id with
                 | Some c => if decide (is_for p ch c) then Some data else None
                 | None => None
                 end
             | _ => None
             end) calls.

Definition handed (h : Hub.t) (p : string) (ch : ChannelName) : list Data :=
  handed_by (Hub.channels h) p ch (Hub.calls h).

(** What still waits. *)
Definition held_frames (h : Hub.t) (p : string) : list PeerFrame.t :=
  default [] (Hub.waiting h !! p) ++ concat (Hub.microtasks h).

(** The channels of the links are those of their peers. *)
Definition links_ok (h : Hub.t) : Prop :=
  ∀ p record, map_get p (Hub.links h) = Some record →
    (∃ c, Hub.channels h !! LinkRecord.control record = Some c ∧ is_for p control c) ∧
    (∃ c, Hub.channels h !! LinkRecord.bulk record = Some c ∧ is_for p bulk c).

(** The calls are about channels there are. *)
Definition calls_ok (h : Hub.t) : Prop :=
  Forall (λ c, match c with Hands id _ _ => (id < length (Hub.channels h))%nat | _ => True end) (Hub.calls h).

(** What was handed over and what waits were brought by frames, each once. *)
Record accounted (h : Hub.t) (brought : string → ChannelName → list Data) : Prop := Accounted {
  ac_links : links_ok h;
  ac_calls : calls_ok h;
  ac_waiting p held : Hub.waiting h !! p = Some held → Forall (λ f, PeerFrame.peerId f = p) held;
  ac_data p ch : handed h p ch ++ carried p ch (held_frames h p) ⊆+ brought p ch;
}.

Lemma carried_app p ch l k : carried p ch (l ++ k) = carried p ch l ++ carried p ch k.
Proof. apply omap_app. Qed.

Lemma carried_one p ch f : carried p ch [f] =
  if decide (PeerFrame.peerId f = p ∧ PeerFrame.channel f = ch) then option_list (frame_data f) else [].
Proof. unfold carried. csimpl. case_decide; [|done]. by destruct (frame_data f). Qed.

Lemma handed_app channels p ch l k :
  handed_by channels p ch (l ++ k) = handed_by channels p ch l ++ handed_by channels p ch k.
Proof. apply omap_app. Qed.

(** Channels that keep their peer and name, and new ones. *)
Definition channels_kept (l l' : list HubChannel.t) : Prop :=
  ∀ id c, l !! id = Some c → ∃ c', l' !! id = Some c' ∧
    HubChannel.peerId c' = HubChannel.peerId c ∧ HubChannel.channel c' = HubChannel.channel c.

Lemma handed_kept l l' p ch calls :
  channels_kept l l' →
  Forall (λ c, match c with Hands id _ _ => (id < length l)%nat | _ => True end) calls →
  handed_by l' p ch calls = handed_by l p ch calls.
Proof.
  intros Hk Hc. unfold handed_by. induction Hc as [|call calls Hc _ IH]; [done|]. csimpl. rewrite IH.
  destruct call as [f|id hd data|id hd|w|q]; try done.
  apply lookup_lt_is_Some in Hc as [c Hlc]. rewrite Hlc. destruct (Hk id c Hlc) as (c' & -> & Hp & Hn).
  destruct (decide (is_for p ch c')) as [[]|Hno'], (decide (is_for p ch c)) as [[]|Hno]; try done;
    exfalso; [apply Hno|apply Hno']; split; congruence.
Qed.

Lemma channels_kept_length l l' : channels_kept l l' → (length l <= length l')%nat.
Proof.
  intros Hk. destruct (decide (length l = 0)%nat) as [|Hne]; [lia|].
  destruct (lookup_lt_is_Some_2 l (length l - 1)) as [c Hc]; [lia|].
  destruct (Hk _ _ Hc) as (c' & Hc' & _). apply lookup_lt_Some in Hc'. lia.
Qed.

Lemma calls_ok_kept l l' calls : channels_kept l l' →
  Forall (λ c, match c with Hands id _ _ => (id < length l)%nat | _ => True end) calls →
  Forall (λ c, match c with Hands id _ _ => (id < length l')%nat | _ => True end) calls.
Proof.
  intros Hk%channels_kept_length Hc. eapply Forall_impl; [exact Hc|]. intros [] ?; try done. lia.
Qed.

Lemma channels_kept_refl l : channels_kept l l.
Proof. intros id c Hc. by exists c. Qed.

Lemma channels_kept_trans l l' l'' : channels_kept l l' → channels_kept l' l'' → channels_kept l l''.
Proof.
  intros H1 H2 id c Hc. destruct (H1 id c Hc) as (c' & Hc' & Hp & Hn).
  destruct (H2 id c' Hc') as (c'' & ? & ? & ?). exists c''. split_and!; congruence.
Qed.

Lemma channels_kept_insert l id c c' : l !! id = Some c → HubChannel.peerId c' = HubChannel.peerId c →
  HubChannel.channel c' = HubChannel.channel c → channels_kept l (<[id := c']> l).
Proof.
  intros Hc Hp Hn i ci Hi. destruct (decide (i = id)) as [->|Hne].
  - exists c'. rewrite list_lookup_insert_eq by (by eapply lookup_lt_Some). simplify_eq. done.
  - exists ci. by rewrite list_lookup_insert_ne.
Qed.

Lemma channels_kept_app l k : channels_kept l (l ++ k).
Proof. intros id c Hc. exists c. split; [by apply lookup_app_l_Some|done]. Qed.

Lemma links_ok_kept h h' : links_ok h → channels_kept (Hub.channels h) (Hub.channels h') →
  (∀ p record, map_get p (Hub.links h') = Some record → map_get p (Hub.links h) = Some record) → links_ok h'.
Proof.
  intros Hl Hk Hsub p record Hr%Hsub. destruct (Hl p record Hr) as [(c & Hc & Hp & Hn) (b & Hb & Hbp & Hbn)].
  destruct (Hk _ _ Hc) as (c' & Hc' & Hp' & Hn'). destruct (Hk _ _ Hb) as (b' & Hb' & Hbp' & Hbn').
  split; [exists c'|exists b']; unfold is_for; split_and!; congruence.
Qed.

(** A step that hands nothing over. *)
Definition quiet_call (c : Call) : Prop := match c with Hands _ _ _ => False | _ => True end.

Definition quietly (h h' : Hub.t) : Prop :=
  channels_kept (Hub.channels h) (Hub.channels h') ∧
  ∃ new, Hub.calls h' = Hub.calls h ++ new ∧ Forall quiet_call new.

#[global] Instance quietly_preorder : PreOrder quietly.
Proof.
  split.
  - intros h. split; [apply channels_kept_refl|]. exists []. by rewrite app_nil_r.
  - intros h1 h2 h3 [Hk1 (n1 & Hn1 & Hq1)] [Hk2 (n2 & Hn2 & Hq2)].
    split; [by eapply channels_kept_trans|]. exists (n1 ++ n2). rewrite Hn2, Hn1, app_assoc.
    split; [done|by apply Forall_app].
Qed.

Lemma quietly_same h h' : Hub.channels h' = Hub.channels h → Hub.calls h' = Hub.calls h → quietly h h'.
Proof.
  intros Hc Hn. split; [rewrite Hc; apply channels_kept_refl|]. exists []. by rewrite app_nil_r.
Qed.

Lemma quiet_calls_ok h h' : quietly h h' → calls_ok h → calls_ok h'.
Proof.
  intros [Hk (new & Hcalls & Hnew)] Hc. unfold calls_ok. rewrite Hcalls. apply Forall_app.
  split; [by eapply calls_ok_kept|]. eapply Forall_impl; [exact Hnew|]. by intros [].
Qed.

Lemma quiet_handed h h' p ch : quietly h h' → calls_ok h → handed h' p ch = handed h p ch.
Proof.
  intros [Hk (new & Hcalls & Hnew)] Hc. unfold handed. rewrite Hcalls, handed_app.
  rewrite (handed_kept (Hub.channels h)) by done.
  assert (handed_by (Hub.channels h') p ch new = []) as ->; [|apply app_nil_r].
  clear -Hnew. unfold handed_by. induction Hnew as [|c new Hn _ IH]; [done|]. csimpl. rewrite IH. by destruct c.
Qed.

Lemma accounted_quiet h h' brought :
  accounted h brought → quietly h h' → links_ok h' →
  (∀ p held, Hub.waiting h' !! p = Some held → Forall (λ f, PeerFrame.peerId f = p) held) →
  (∀ p ch, carried p ch (held_frames h' p) ⊆+ carried p ch (held_frames h p)) →
  accounted h' brought.
Proof.
  intros [Hl Hc Hw Hd] Hq Hl' Hw' Hheld. split; [done|by eapply quiet_calls_ok|done|].
  intros p ch. rewrite <-(Hd p ch), (quiet_handed h) by done. by apply submseteq_skips_l.
Qed.

(** A call of a method of a channel that hands nothing over. *)
Definition hands_nothing (f : HubChannel.t → HubChannel.t * list Call) : Prop :=
  ∀ c, HubChannel.peerId (f c).1 = HubChannel.peerId c ∧ HubChannel.channel (f c).1 = HubChannel.channel c ∧
    Forall quiet_call (f c).2.

Lemma on_channel_fields id f h :
  let h' := Hub.on_channel id f h in
  Hub.links h' = Hub.links h ∧ Hub.waiting h' = Hub.waiting h ∧ Hub.microtasks h' = Hub.microtasks h ∧
  Hub.answers h' = Hub.answers h.
Proof. unfold Hub.on_channel. destruct (Hub.channels h !! id) as [c|]; [|done]. by destruct (f c). Qed.

Lemma quietly_on_channel id f h : hands_nothing f → quietly h (Hub.on_channel id f h).
Proof.
  intros Hf. unfold Hub.on_channel. destruct (Hub.channels h !! id) as [c|] eqn:Hc; [|done].
  destruct (Hf c) as (Hp & Hn & Hcalls). destruct (f c) as [c' new]. simpl in *.
  split; [by eapply channels_kept_insert|by exists new].
Qed.

Lemma accounted_on_channel id f h brought :
  hands_nothing f → accounted h brought → accounted (Hub.on_channel id f h) brought.
Proof.
  intros Hf Hac. pose proof (quietly_on_channel id f h Hf) as Hq.
  destruct (on_channel_fields id f h) as (Hl & Hw & Hm & _).
  eapply accounted_quiet; [exact Hac|exact Hq|..].
  - eapply links_ok_kept; [by apply Hac|by apply Hq|by rewrite Hl].
  - rewrite Hw. apply Hac.
  - intros p ch. unfold held_frames. by rewrite Hw, Hm.
Qed.

Lemma released_quiet (l : list nat) : Forall quiet_call (Releases <$> l).
Proof. by apply Forall_fmap, Forall_true. Qed.

Lemma close_quiet id : hands_nothing (HubChannel.close id).
Proof.
  intros c. unfold HubChannel.close. destruct (HubChannel.closed c); [done|]. simpl. split_and!; [done..|].
  apply Forall_app_2; [apply released_quiet|]. destruct (HubChannel.closeHandler c); by repeat constructor.
Qed.

Lemma reported_quiet bytes : hands_nothing (HubChannel.reportBuffered bytes).
Proof.
  intros c. unfold HubChannel.reportBuffered. destruct (bytes <=? LOW_WATER_BYTES); simpl; split_and!; try done.
  apply released_quiet.
Qed.

Lemma drain_quiet waiter : hands_nothing (HubChannel.drain waiter).
Proof. intros c. unfold HubChannel.drain. destruct (_ || _); simpl; split_and!; by repeat constructor. Qed.

Lemma send_quiet data : hands_nothing (λ c, (c, HubChannel.send data c)).
Proof. intros c. unfold HubChannel.send. destruct (HubChannel.closed c); simpl; split_and!; by repeat constructor. Qed.

Lemma carried_submseteq p ch l k : l ⊆+ k → carried p ch l ⊆+ carried p ch k.
Proof.
  unfold carried. induction 1 as [|x l k _ IH|x y l|x l k _ IH|l k m _ IH1 _ IH2]; csimpl; [done|..].
  - case_match; [by apply submseteq_skip|done].
  - repeat case_match; try done. apply submseteq_swap.
  - case_match; [by apply submseteq_cons|done].
  - by etrans.
Qed.

Lemma close_fields p h :
  Hub.waiting (Hub.closeLink p h) = delete p (Hub.waiting h) ∧
  Hub.microtasks (Hub.closeLink p h) = Hub.microtasks h ∧ Hub.answers (Hub.closeLink p h) = Hub.answers h ∧
  Hub.links (Hub.closeLink p h) =
    match map_get p (Hub.links h) with None => Hub.links h | Some _ => map_delete p (Hub.links h) end.
Proof.
  unfold Hub.closeLink. simpl. destruct (map_get p (Hub.links h)) as [record|]; [|done].
  cbv zeta. set (h0 := Hub.set_links _ _).
  destruct (on_channel_fields (LinkRecord.control record) (HubChannel.close (LinkRecord.control record)) h0)
    as (Hl & Hw & Hm & Ha). set (h1 := Hub.on_channel _ _ h0) in *.
  destruct (on_channel_fields (LinkRecord.bulk record) (HubChannel.close (LinkRecord.bulk record)) h1)
    as (-> & -> & -> & ->). by rewrite Hl, Hw, Hm, Ha.
Qed.

Lemma quietly_close p h : quietly h (Hub.closeLink p h).
Proof.
  unfold Hub.closeLink. simpl. destruct (map_get p (Hub.links h)) as [record|]; [|by apply quietly_same].
  cbv zeta. etrans; [|apply quietly_on_channel, close_quiet].
  etrans; [|apply quietly_on_channel, close_quiet]. by apply quietly_same.
Qed.

Lemma waiting_forgotten h q held p :
  delete p (Hub.waiting h) !! q = Some held → Hub.waiting h !! q = Some held.
Proof. by intros [_ ?]%lookup_delete_Some. Qed.

Lemma held_forgotten h p q : default [] (delete p (Hub.waiting h) !! q) ⊆+ default [] (Hub.waiting h !! q).
Proof.
  destruct (decide (p = q)) as [->|]; [|by rewrite lookup_delete_ne].
  rewrite lookup_delete_eq. apply submseteq_nil_l.
Qed.

Lemma accounted_close p h brought : accounted h brought → accounted (Hub.closeLink p h) brought.
Proof.
  intros Hac. destruct (close_fields p h) as (Hw & Hm & _ & Hl). pose proof (quietly_close p h) as Hq.
  eapply accounted_quiet; [exact Hac|exact Hq|..].
  - eapply links_ok_kept; [by apply Hac|by apply Hq|]. intros q record. rewrite Hl.
    destruct (map_get p (Hub.links h)); [|done]. rewrite map_get_delete. by case_decide.
  - rewrite Hw. intros q held Hq'%waiting_forgotten. by eapply (ac_waiting _ _ Hac).
  - intros q ch. apply carried_submseteq. unfold held_frames. rewrite Hw, Hm.
    apply submseteq_skips_r, held_forgotten.
Qed.

(** What [createLink] does. *)
Lemma create_fields p h :
  let h' := (Hub.createLink p h).1 in
  let n := length (Hub.channels (Hub.closeLink p h)) in
  (Hub.createLink p h).2 = LinkRecord.mk n (S n) ∧
  Hub.channels h' = Hub.channels (Hub.closeLink p h) ++ [HubChannel.make p control; HubChannel.make p bulk] ∧
  Hub.calls h' = Hub.calls (Hub.closeLink p h) ∧
  Hub.links h' = map_set p (LinkRecord.mk n (S n)) (Hub.links (Hub.closeLink p h)) ∧
  Hub.waiting h' = delete p (Hub.waiting h) ∧ Hub.answers h' = Hub.answers h ∧
  Hub.microtasks h' = Hub.microtasks h ++ match Hub.waiting h !! p with Some held => [held] | None => [] end.
Proof.
  unfold Hub.createLink.
  assert (Hub.closeLink p (Hub.set_waiting (delete p (Hub.waiting h)) h) = Hub.closeLink p h) as Heq.
  { unfold Hub.closeLink. simpl. by rewrite delete_delete_eq. }
  rewrite Heq. destruct (close_fields p h) as (Hw & Hm & Ha & _). cbv zeta.
  destruct (Hub.waiting h !! p) as [held|]; simpl; rewrite Hw, Hm, Ha; by rewrite ?app_nil_r.
Qed.

Lemma quietly_create p h : quietly h (Hub.createLink p h).1.
Proof.
  destruct (create_fields p h) as (_ & Hc & Hn & _). destruct (quietly_close p h) as [Hk (new & Hnew & Hq)].
  split.
  - rewrite Hc. eapply channels_kept_trans; [exact Hk|apply channels_kept_app].
  - exists new. by rewrite Hn.
Qed.

Lemma accounted_create p h brought : accounted h brought → accounted (Hub.createLink p h).1 brought.
Proof.
  intros Hac. destruct (create_fields p h) as (_ & Hc & _ & Hl & Hw & _ & Hm).
  set (h' := (Hub.createLink p h).1) in *. pose proof (accounted_close p h brought Hac) as Hcl.
  eapply accounted_quiet; [exact Hac|apply quietly_create|..].
  - intros q record. rewrite Hl, map_get_set, Hc. set (l := Hub.channels _). case_decide as Hpq.
    + intros [= <-]. subst q. simpl. split.
      * exists (HubChannel.make p control). split; [|done].
        rewrite lookup_app_r by done. by rewrite Nat.sub_diag.
      * exists (HubChannel.make p bulk). split; [|done].
        rewrite lookup_app_r by lia. by replace (S (length l) - length l)%nat with 1%nat by lia.
    + intros Hr. destruct (ac_links _ _ Hcl q record Hr) as [(c & Hc' & ?) (b & Hb & ?)].
      split; [exists c|exists b]; split; try done; by apply lookup_app_l_Some.
  - rewrite Hw. intros q held Hq'%waiting_forgotten. by eapply (ac_waiting _ _ Hac).
  - intros q ch. unfold held_frames. rewrite Hw, Hm, concat_app, !carried_app.
    destruct (Hub.waiting h !! p) as [held|] eqn:Hheld; simpl.
    2:{ unfold carried at 3. simpl. rewrite app_nil_r.
        apply submseteq_skips_r, carried_submseteq, held_forgotten. }
    rewrite app_nil_r. destruct (decide (p = q)) as [->|Hpq].
    + rewrite lookup_delete_eq, Hheld. simpl. by rewrite (comm (++)).
    + rewrite lookup_delete_ne by done. assert (carried q ch held = []) as ->; [|by rewrite app_nil_r].
      pose proof (ac_waiting _ _ Hac _ _ Hheld) as Hp. clear -Hp Hpq. unfold carried.
      induction Hp as [|f l Hf _ IH]; [done|]. csimpl. by rewrite decide_False by (intros [? _]; congruence).
Qed.

(** A frame that arrives. *)
Lemma deliver_there p record frame h :
  map_get p (Hub.links h) = Some record → PeerFrame.peerId frame = p →
  Hub.deliverInbound frame h = h ∨
  ∃ id data ch, frame_data frame = Some data ∧ PeerFrame.channel frame = ch ∧
    (∀ c, Hub.channels h !! id = Some c → links_ok h → is_for p ch c) ∧
    Hub.deliverInbound frame h = Hub.on_channel id (λ c, (c, HubChannel.deliver id data c)) h.
Proof.
  intros Hr Hp. unfold Hub.deliverInbound, frame_data. rewrite Hp, Hr.
  destruct (PeerFrame.channel frame), (PeerFrame.text frame) as [text|], (PeerFrame.bytes frame) as [bytes|];
    try (by left); right; do 3 eexists; (split; [reflexivity|]); (split; [reflexivity|]);
    (split; [|reflexivity]); intros c Hc Hl; destruct (Hl p record Hr) as [(c1 & Hc1 & ?) (c2 & Hc2 & ?)];
    congruence.
Qed.

Lemma opens_control frame : opensASession frame = true →
  PeerFrame.channel frame = control ∧ ∃ text, PeerFrame.text frame = Some text ∧
    frame_data frame = Some (Text text).
Proof.
  unfold opensASession, frame_data. destruct (PeerFrame.channel frame); [|done].
  destruct (PeerFrame.text frame) as [text|]; [|done]. intros _. split; [done|]. by exists text.
Qed.

Lemma handed_deliver h p record frame id data ch brought :
  accounted h brought → PeerFrame.peerId frame = p → map_get p (Hub.links h) = Some record →
  frame_data frame = Some data → PeerFrame.channel frame = ch →
  (∀ c, Hub.channels h !! id = Some c → links_ok h → is_for p ch c) →
  accounted (Hub.on_channel id (λ c, (c, HubChannel.deliver id data c)) h)
    (λ q k, carried q k [frame] ++ brought q k).
Proof.
  intros [Hl Hc Hw Hd] Hp Hr Hdata Hch Hfor. set (f := λ c, (c, HubChannel.deliver id data c)).
  assert (∀ q k, carried q k (held_frames (Hub.on_channel id f h) q) = carried q k (held_frames h q)) as Hheld.
  { intros q k. unfold held_frames. by destruct (on_channel_fields id f h) as (_ & -> & -> & _). }
  destruct (on_channel_fields id f h) as (Hl' & Hw' & _ & _).
  assert (Hub.channels (Hub.on_channel id f h) = Hub.channels h) as Hch'.
  { unfold Hub.on_channel. destruct (Hub.channels h !! id) eqn:Hid; [|done]. simpl. by apply list_insert_id. }
  assert (Hub.calls (Hub.on_channel id f h) = Hub.calls h ∨
    ∃ hd c, Hub.channels h !! id = Some c ∧ Hub.calls (Hub.on_channel id f h) = Hub.calls h ++ [Hands id hd data])
    as Hcalls.
  { unfold Hub.on_channel. destruct (Hub.channels h !! id) as [c|] eqn:Hid; [|by left]. simpl.
    unfold HubChannel.deliver. destruct (HubChannel.closed c); [left; apply app_nil_r|].
    destruct (HubChannel.handler c) as [hd|]; [|left; apply app_nil_r]. right. by exists hd, c. }
  split.
  - intros q rec. rewrite Hl', Hch'. apply Hl.
  - unfold calls_ok. rewrite Hch'. destruct Hcalls as [->|(hd & c & Hid & ->)]; [done|].
    apply Forall_app_2; [done|]. repeat constructor. by eapply lookup_lt_Some.
  - rewrite Hw'. exact Hw.
  - intros q k. rewrite Hheld. unfold handed. rewrite Hch'. destruct Hcalls as [->|(hd & c & Hid & ->)].
    + etrans; [apply Hd|]. by apply submseteq_inserts_l.
    + rewrite handed_app. cbv beta. rewrite carried_one, Hdata, Hp, Hch.
      unfold handed_by at 2. csimpl. rewrite Hid.
      destruct (Hfor c Hid Hl) as [Hcp Hck].
      destruct (decide (is_for q k c)) as [[Hq Hk]|Hno].
      * rewrite decide_True by (split; congruence). simpl. rewrite <-app_assoc. simpl.
        rewrite <-Permutation_middle. by apply submseteq_skip, Hd.
      * rewrite decide_False; [rewrite app_nil_r; apply Hd|]. intros [? ?]. apply Hno. split; congruence.
Qed.

Lemma accounted_deliver frame h brought :
  accounted h brought → accounted (Hub.deliverInbound frame h) (λ q k, carried q k [frame] ++ brought q k).
Proof.
  intros Hac.
  assert (accounted h (λ q k, carried q k [frame] ++ brought q k)) as Hmore.
  { destruct Hac as [Hl Hc Hw Hd]. split; [done..|]. intros q k. etrans; [apply Hd|].
    by apply submseteq_inserts_l. }
  destruct (map_get (PeerFrame.peerId frame) (Hub.links h)) as [record|] eqn:Hr.
  - destruct (deliver_there _ record frame h Hr eq_refl) as [->|(id & data & ch & Hdata & Hch & Hfor & ->)];
      [done|]. by eapply handed_deliver.
  - unfold Hub.deliverInbound. rewrite Hr. destruct (opensASession frame) eqn:Hopen; [|done]. simpl.
    destruct (opens_control frame Hopen) as (Hch & text & Htext & Hdata).
    set (p := PeerFrame.peerId frame). set (held := default [] (Hub.waiting h !! p)).
    assert (∀ h', quietly h h' → Hub.links h' = Hub.links h → Hub.microtasks h' = Hub.microtasks h →
      (Hub.waiting h' = Hub.waiting h ∨ Hub.waiting h' = <[p := held ++ [frame]]> (Hub.waiting h)) →
      accounted h' (λ q k, carried q k [frame] ++ brought q k)) as Hgoal.
    { intros h' Hq Hl' Hm' [Hw'|Hw'].
      - eapply accounted_quiet; [exact Hmore|exact Hq|..].
        + eapply links_ok_kept; [by apply Hac|by apply Hq|by rewrite Hl'].
        + rewrite Hw'. apply Hac.
        + intros q k. unfold held_frames. by rewrite Hw', Hm'.
      - split.
        + eapply links_ok_kept; [by apply Hac|by apply Hq|by rewrite Hl'].
        + eapply quiet_calls_ok; [exact Hq|apply Hac].
        + intros q l. rewrite Hw'. destruct (decide (p = q)) as [<-|]; [|rewrite lookup_insert_ne by done; apply Hac].
          rewrite lookup_insert_eq. intros [= <-]. apply Forall_app_2; [|by repeat constructor].
          unfold held. destruct (Hub.waiting h !! p) eqn:Hold; [by eapply (ac_waiting _ _ Hac)|constructor].
        + intros q k. rewrite (quiet_handed h) by (done || apply Hac). unfold held_frames. rewrite Hw', Hm'.
          destruct (decide (p = q)) as [<-|Hpq].
          * rewrite lookup_insert_eq. simpl. rewrite <-app_assoc.
            rewrite (carried_app p k held). rewrite (carried_app p k [frame]).
            etrans; [|apply submseteq_skips_l, (ac_data _ _ Hac p k)]. unfold held_frames. fold held.
            rewrite carried_app. solve_submseteq.
          * rewrite lookup_insert_ne by done. etrans; [|by apply submseteq_inserts_l]. apply Hac. }
    fold p. fold held. repeat case_decide; cbn [Hub.answers Hub.set_waiting]; try destruct (Hub.answers h);
      try done; apply Hgoal; simpl; auto; try (by apply quietly_same);
      (split; [apply channels_kept_refl|]); eexists; by split; [reflexivity|repeat constructor].
Qed.

Lemma accounted_more h brought brought' :
  (∀ p ch, brought p ch ⊆+ brought' p ch) → accounted h brought → accounted h brought'.
Proof. intros Hb [Hl Hc Hw Hd]. split; [done..|]. intros p ch. by rewrite Hd. Qed.

Lemma accounted_delivers frames h brought :
  accounted h brought →
  accounted (foldl (λ h frame, Hub.deliverInbound frame h) h frames) (λ q k, carried q k frames ++ brought q k).
Proof.
  revert h brought. induction frames as [|frame frames IH]; intros h brought Hac; cbn [foldl]; [done|].
  eapply accounted_more; [|apply IH, accounted_deliver, Hac].
  intros p ch. cbv beta. rewrite (carried_app p ch [frame] frames : carried p ch (frame :: frames) = _).
  solve_submseteq.
Qed.

Lemma accounted_microtask h brought : accounted h brought → accounted (Hub.microtask h) brought.
Proof.
  intros Hac. unfold Hub.microtask. destruct (Hub.microtasks h) as [|held rest] eqn:Hm; [done|].
  set (h0 := Hub.set_microtasks rest h).
  eapply accounted_more; [|apply (accounted_delivers held h0 (λ q k, handed h q k ++ carried q k (held_frames h0 q)))].
  - intros p ch. cbv beta. etrans; [|apply (ac_data _ _ Hac p ch)]. unfold held_frames. rewrite Hm. simpl.
    rewrite !carried_app. solve_submseteq.
  - split; [apply Hac|apply Hac|apply Hac|done].
Qed.

Lemma accounted_all l h brought :
  accounted h brought → accounted (foldl (λ h p, Hub.closeLink p h) h l) brought.
Proof. revert h. induction l as [|p l IH]; intros h Hac; simpl; [done|]. by apply IH, accounted_close. Qed.

Lemma accounted_step h step brought : accounted h brought →
  accounted (hub_step h step) (λ q k, carried q k (arrived [step]) ++ brought q k).
Proof.
  intros Hac. destruct step; simpl; try exact (accounted_deliver _ _ _ Hac).
  - by apply accounted_create.
  - unfold Hub.reportBuffered. destruct (map_get _ _); [|done].
    by apply accounted_on_channel; [apply reported_quiet|].
  - by apply accounted_close.
  - by apply accounted_all.
  - by apply accounted_microtask.
  - by apply accounted_on_channel; [apply send_quiet|].
  - by apply accounted_on_channel; [apply drain_quiet|].
  - by apply accounted_on_channel.
  - by apply accounted_on_channel.
  - by apply accounted_on_channel; [apply close_quiet|].
Qed.

Lemma arrived_app l k : arrived (l ++ k) = arrived l ++ arrived k.
Proof. apply omap_app. Qed.

(** The hub carries what arrives to whom it is for.  In any history, what
    the handlers of a peer's control channels, or of its bulk channels, were
    called with was brought by frames of that peer for that channel: nothing is
    made up, reaches another peer's session, or is handed over twice. *)
Theorem hub_delivers (steps : list HubStep) (p : string) (ch : ChannelName) :
  handed (hub_run steps) p ch ⊆+ carried p ch (arrived steps).
Proof.
  assert (accounted (hub_run steps) (λ q k, carried q k (arrived steps))) as Hac.
  { induction steps as [|step steps IH] using rev_ind.
    - split; [by intros q record|by constructor|by intros q held|by intros q k].
    - unfold hub_run. rewrite foldl_app. simpl.
      eapply accounted_more; [|apply accounted_step, IH].
      intros q k. cbv beta. rewrite arrived_app, carried_app. solve_submseteq. }
  etrans; [|apply (ac_data _ _ Hac p ch)]. by apply submseteq_inserts_r.
Qed.

(** ** A peer that begins *)

(** The texts of frames. *)
Definition texts (frames : list PeerFrame.t) : list Data :=
  omap (λ f, Text <$> PeerFrame.text f) frames.

Lemma wait_hellos frames h p :
  map_get p (Hub.links h) = None →
  Forall (λ f, PeerFrame.peerId f = p ∧ opensASession f = true) frames →
  (length (default [] (Hub.waiting h !! p)) + length frames <= MAX_WAITING)%nat →
  (default [] (Hub.waiting h !! p) ≠ []) →
  let h' := foldl (λ h frame, Hub.deliverInbound frame h) h frames in
  Hub.links h' = Hub.links h ∧ Hub.channels h' = Hub.channels h ∧ Hub.calls h' = Hub.calls h ∧
  Hub.microtasks h' = Hub.microtasks h ∧
  default [] (Hub.waiting h' !! p) = default [] (Hub.waiting h !! p) ++ frames.
Proof.
  intros Hl Hf. revert h Hl. induction Hf as [|f frames [Hp Hopen] _ IH]; intros h Hl Hlen Hne; simpl.
  { by rewrite app_nil_r. }
  assert (Hub.deliverInbound f h =
    Hub.set_waiting (<[p := default [] (Hub.waiting h !! p) ++ [f]]> (Hub.waiting h)) h) as ->.
  { unfold Hub.deliverInbound. rewrite Hp, Hl, Hopen. simpl negb. cbv iota.
    simpl in Hlen. rewrite decide_True by lia. rewrite decide_False; [done|].
    rewrite length_app. destruct (default [] (Hub.waiting h !! p)); [done|simpl; lia]. }
  destruct (IH (Hub.set_waiting (<[p := default [] (Hub.waiting h !! p) ++ [f]]> (Hub.waiting h)) h))
    as (-> & -> & -> & -> & ->).
  - done.
  - simpl. rewrite lookup_insert_eq. simpl in *. rewrite length_app. simpl. lia.
  - simpl. rewrite lookup_insert_eq. simpl. by destruct (default [] (Hub.waiting h !! p)).
  - simpl. rewrite lookup_insert_eq. simpl. by rewrite <-app_assoc.
Qed.

Lemma hands_over frames h p record c hd :
  map_get p (Hub.links h) = Some record → Hub.channels h !! LinkRecord.control record = Some c →
  HubChannel.closed c = false → HubChannel.handler c = Some hd →
  Forall (λ f, PeerFrame.peerId f = p ∧ opensASession f = true) frames →
  Hub.calls (foldl (λ h frame, Hub.deliverInbound frame h) h frames) =
    Hub.calls h ++ (Hands (LinkRecord.control record) hd <$> texts frames).
Proof.
  intros Hl Hc Hopen Hhd Hf. revert h Hl Hc. induction Hf as [|f frames [Hp Hf] _ IH]; intros h Hl Hc; simpl.
  { by rewrite app_nil_r. }
  destruct (opens_control f Hf) as (Hch & text & Ht & _).
  assert (Hub.deliverInbound f h = Hub.call [Hands (LinkRecord.control record) hd (Text text)] h) as ->.
  { unfold Hub.deliverInbound. rewrite Hp, Hl, Hch, Ht. unfold Hub.on_channel. rewrite Hc.
    unfold HubChannel.deliver. rewrite Hopen, Hhd. rewrite list_insert_id by done. by destruct h. }
  rewrite IH by done. unfold texts. csimpl. rewrite Ht. csimpl. by rewrite <-app_assoc.
Qed.

(** A peer that begins is heard.  When hellos come from a peer that has no
    link, the owner of the hub is asked once to answer, and the session that it
    starts is handed every one of them (up to eight) in order, once it listens;
    whatever else such a peer sends is dropped and starts nothing. *)
Theorem hello_reaches_session (h : Hub.t) (p : string) (frames : list PeerFrame.t) (listener : nat)
    (Hidle : map_get p (Hub.links h) = None) (Hnone : Hub.waiting h !! p = None)
    (Howner : Hub.answers h = true) (Hmicro : Hub.microtasks h = [])
    (Hhello : Forall (λ f, PeerFrame.peerId f = p ∧ opensASession f = true) frames)
    (Hlen : (1 <= length frames <= MAX_WAITING)%nat) :
  let h1 := foldl (λ h frame, Hub.deliverInbound frame h) h frames in
  let '(h2, record) := Hub.createLink p h1 in
  let h3 := hub_step h2 (Listens (LinkRecord.control record) listener) in
  Hub.calls h1 = Hub.calls h ++ [Invites p] ∧
  Hub.calls (Hub.microtask h3) =
    Hub.calls h1 ++ (Hands (LinkRecord.control record) listener <$> texts frames) ∧
  ∀ frame, PeerFrame.peerId frame = p → opensASession frame = false → Hub.deliverInbound frame h = h.
Proof.
  cbv zeta. destruct frames as [|f frames]; [simpl in Hlen; lia|].
  apply Forall_cons in Hhello as [[Hp Hopen] Hrest].
  assert (Hub.deliverInbound f h =
    Hub.call [Invites p] (Hub.set_waiting (<[p := [f]]> (Hub.waiting h)) h)) as Hfirst.
  { unfold Hub.deliverInbound. rewrite Hp, Hidle, Hopen, Hnone. simpl. by rewrite Howner. }
  set (h1 := foldl _ h (f :: frames)).
  destruct (wait_hellos frames (Hub.deliverInbound f h) p) as (Hl1 & Hc1 & Hn1 & Hm1 & Hw1).
  { by rewrite Hfirst. }
  { done. }
  { rewrite Hfirst. simpl in *. rewrite lookup_insert_eq. simpl. lia. }
  { rewrite Hfirst. simpl. by rewrite lookup_insert_eq. }
  change (foldl (λ h frame, Hub.deliverInbound frame h) (Hub.deliverInbound f h) frames) with h1 in *.
  rewrite Hfirst in Hl1, Hc1, Hn1, Hm1, Hw1. simpl in Hl1, Hc1, Hn1, Hm1, Hw1.
  rewrite lookup_insert_eq in Hw1. simpl in Hw1.
  assert (Hub.waiting h1 !! p = Some (f :: frames)) as Hw.
  { destruct (Hub.waiting h1 !! p) as [l|]; simpl in Hw1; [by rewrite Hw1|done]. }
  assert (Hub.closeLink p h1 = Hub.set_waiting (delete p (Hub.waiting h1)) h1) as Hclose.
  { unfold Hub.closeLink. simpl. by rewrite Hl1, Hidle. }
  destruct (create_fields p h1) as (Hrec & Hc2 & Hn2 & Hl2 & _ & _ & Hm2).
  rewrite Hclose in Hrec, Hc2, Hn2, Hl2.
  cbn [Hub.channels Hub.calls Hub.links Hub.set_waiting] in Hrec, Hc2, Hn2, Hl2. rewrite Hw, Hm1, Hmicro in Hm2.
  destruct (Hub.createLink p h1) as [h2 record]. simpl in Hrec, Hc2, Hn2, Hl2, Hm2. subst record.
  set (n := length (Hub.channels h1)) in *. cbn [LinkRecord.control]. split_and!.
  - exact Hn1.
  - cbn [hub_step]. unfold Hub.on_channel.
    assert (Hub.channels h2 !! n = Some (HubChannel.make p control)) as Hcn.
    { rewrite Hc2, lookup_app_r by done. by rewrite Nat.sub_diag. }
    rewrite Hcn. unfold Hub.microtask. cbn [Hub.call Hub.set_channels Hub.microtasks]. rewrite Hm2.
    set (h3 := Hub.set_microtasks [] _).
    rewrite (hands_over (f :: frames) h3 p (LinkRecord.mk n (S n))
      (HubChannel.onMessage listener (HubChannel.make p control)) listener).
    + simpl. by rewrite app_nil_r, Hn2.
    + simpl. rewrite Hl2, map_get_set. by rewrite decide_True.
    + simpl. apply list_lookup_insert_eq. by eapply lookup_lt_Some.
    + done.
    + done.
    + by constructor.
  - intros frame Hfp Hno. unfold Hub.deliverInbound. by rewrite Hfp, Hidle, Hno.
Qed.

(** ** Backpressure *)

(** Who waits for a channel to drain waits for one that is open and full. *)
Definition drains_ok (l : list HubChannel.t) : Prop :=
  ∀ id c, l !! id = Some c → HubChannel.drainWaiters c ≠ [] →
    HubChannel.closed c = false ∧ LOW_WATER_BYTES < HubChannel.buffered c.

Definition keeps_drains (f : HubChannel.t → HubChannel.t * list Call) : Prop :=
  ∀ c, (HubChannel.drainWaiters c ≠ [] → HubChannel.closed c = false ∧ LOW_WATER_BYTES < HubChannel.buffered c) →
    (HubChannel.drainWaiters (f c).1 ≠ [] →
       HubChannel.closed (f c).1 = false ∧ LOW_WATER_BYTES < HubChannel.buffered (f c).1) ∧
    ∀ w, w ∈ HubChannel.drainWaiters c → w ∈ HubChannel.drainWaiters (f c).1 ∨ Releases w ∈ (f c).2.

(** A promise is kept, or still waits at its channel. *)
Definition waits_or_kept (h : Hub.t) (id w : nat) : Prop :=
  Releases w ∈ Hub.calls h ∨ ∃ c, Hub.channels h !! id = Some c ∧ w ∈ HubChannel.drainWaiters c.

Definition drains_kept (h h' : Hub.t) : Prop :=
  drains_ok (Hub.channels h) →
  drains_ok (Hub.channels h') ∧ ∀ id w, waits_or_kept h id w → waits_or_kept h' id w.

#[global] Instance drains_kept_preorder : PreOrder drains_kept.
Proof.
  split; [done|]. intros h1 h2 h3 H12 H23 Hok. destruct (H12 Hok) as [Hok2 Hw2].
  destruct (H23 Hok2) as [Hok3 Hw3]. split; [done|]. auto.
Qed.

Lemma drains_same h h' : Hub.channels h' = Hub.channels h → (∀ c, c ∈ Hub.calls h → c ∈ Hub.calls h') →
  drains_kept h h'.
Proof.
  intros Hc Hn Hok. unfold waits_or_kept. rewrite Hc. split; [done|]. intros id w [Hw|Hw]; auto.
Qed.

Lemma drains_on_channel id f h : keeps_drains f → drains_kept h (Hub.on_channel id f h).
Proof.
  intros Hf Hok. unfold Hub.on_channel. destruct (Hub.channels h !! id) as [c|] eqn:Hc; [|done].
  destruct (Hf c) as [Hok' Hw']; [exact (Hok id c Hc)|]. destruct (f c) as [c' new]. simpl in *. split.
  - intros i ci. destruct (decide (i = id)) as [->|Hne].
    + rewrite list_lookup_insert_eq by (by eapply lookup_lt_Some). by intros [= <-].
    + rewrite list_lookup_insert_ne by done. apply Hok.
  - intros i w [Hw|(ci & Hi & Hw)]; [left; simpl; set_solver|]. unfold waits_or_kept. simpl.
    destruct (decide (i = id)) as [->|Hne].
    + simplify_eq. destruct (Hw' w Hw) as [Hin|Hin]; [right|left; apply elem_of_app; by right].
      exists c'. by rewrite list_lookup_insert_eq by (by eapply lookup_lt_Some).
    + right. exists ci. by rewrite list_lookup_insert_ne.
Qed.

Lemma drains_close id : keeps_drains (HubChannel.close id).
Proof.
  intros c Hc. unfold HubChannel.close. destruct (HubChannel.closed c) eqn:Hcl; simpl; [rewrite Hcl; split; [exact Hc|auto]|].
  split; [done|]. intros w Hw. right. apply elem_of_app. left. by apply list_elem_of_fmap_2.
Qed.

Lemma drains_reported bytes : keeps_drains (HubChannel.reportBuffered bytes).
Proof.
  intros c Hc. unfold HubChannel.reportBuffered. destruct (Z.leb_spec bytes LOW_WATER_BYTES); simpl.
  - split; [done|]. intros w Hw. right. by apply list_elem_of_fmap_2.
  - split; [|auto]. intros Hne. split; [by apply Hc|done].
Qed.

Lemma drains_drain w : keeps_drains (HubChannel.drain w).
Proof.
  intros c Hc. unfold HubChannel.drain. destruct (HubChannel.closed c) eqn:Hcl; simpl.
  { rewrite Hcl in *. split; [|by auto]. intros Hne. by destruct (Hc Hne). }
  destruct (Z.leb_spec (HubChannel.buffered c) LOW_WATER_BYTES); simpl; rewrite ?Hcl in *.
  - split; [done|by auto].
  - split; [done|]. intros v Hv. left. set_solver.
Qed.

Lemma drains_others f g : (∀ c, HubChannel.drainWaiters (f c) = HubChannel.drainWaiters c ∧
    HubChannel.closed (f c) = HubChannel.closed c ∧ HubChannel.buffered (f c) = HubChannel.buffered c) →
  keeps_drains (λ c, (f c, g c)).
Proof. intros Hf c Hc. simpl. destruct (Hf c) as (-> & -> & ->). split; [done|auto]. Qed.

Lemma drains_closeLink p h : drains_kept h (Hub.closeLink p h).
Proof.
  unfold Hub.closeLink. simpl. destruct (map_get p (Hub.links h)); [|by apply drains_same].
  cbv zeta. etrans; [|apply drains_on_channel, drains_close].
  etrans; [|apply drains_on_channel, drains_close]. by apply drains_same.
Qed.

Lemma drains_createLink p h : drains_kept h (Hub.createLink p h).1.
Proof.
  destruct (create_fields p h) as (_ & Hc & Hn & _). etrans; [apply (drains_closeLink p)|].
  intros Hok. unfold waits_or_kept. rewrite Hc, Hn. split.
  - intros id c [Hl|[_ Hl]]%lookup_app_Some; [by apply (Hok id)|].
    apply list_elem_of_lookup_2 in Hl. rewrite !elem_of_cons, elem_of_nil in Hl.
    by destruct Hl as [->|[->|[]]].
  - intros id w [Hw|(c & Hl & Hw)]; [by left|]. right. exists c. split; [by apply lookup_app_l_Some|done].
Qed.

Lemma drains_deliver frame h : drains_kept h (Hub.deliverInbound frame h).
Proof.
  unfold Hub.deliverInbound. destruct (map_get _ _) as [record|].
  - destruct (PeerFrame.channel frame), (PeerFrame.text frame), (PeerFrame.bytes frame); try done;
      by apply drains_on_channel, (drains_others (λ c, c)).
  - destruct (opensASession frame); [|done]. simpl.
    repeat case_decide; cbn [Hub.answers Hub.set_waiting]; try destruct (Hub.answers h); try done;
      apply drains_same; simpl; try done; set_solver.
Qed.

Lemma drains_all {A} (f : Hub.t → A → Hub.t) (l : list A) h :
  (∀ h x, drains_kept h (f h x)) → drains_kept h (foldl f h l).
Proof. intros Hf. revert h. induction l as [|x l IH]; intros h; simpl; [done|]. by etrans; [apply Hf|]. Qed.

Lemma drains_step h step : drains_kept h (hub_step h step).
Proof.
  destruct step; simpl.
  - apply drains_createLink.
  - apply drains_deliver.
  - unfold Hub.reportBuffered. destruct (map_get _ _); [|done]. apply drains_on_channel, drains_reported.
  - apply drains_closeLink.
  - apply drains_all. intros; apply drains_closeLink.
  - unfold Hub.microtask. destruct (Hub.microtasks h) as [|held rest]; [done|].
    etrans; [|apply drains_all; intros; apply drains_deliver]. by apply drains_same.
  - by apply drains_on_channel, (drains_others (λ c, c)).
  - apply drains_on_channel, drains_drain.
  - by apply drains_on_channel, (drains_others (HubChannel.onMessage _)).
  - by apply drains_on_channel, (drains_others (HubChannel.onClose _)).
  - apply drains_on_channel, drains_close.
Qed.

(** No sender waits for nothing.  Whoever asked a channel to drain has been
    let go on, or waits at a channel that is open and holds more than the low
    water mark: the report that it drained, and its closing, let all go on. *)
Theorem drain_released (before after : list HubStep) (id w : nat)
    (Hthere : is_Some (Hub.channels (hub_run before) !! id)) :
  let h := hub_run (before ++ Drains id w :: after) in
  Releases w ∈ Hub.calls h ∨
  ∃ c, Hub.channels h !! id = Some c ∧ w ∈ HubChannel.drainWaiters c ∧
    HubChannel.closed c = false ∧ LOW_WATER_BYTES < HubChannel.buffered c.
Proof.
  assert (∀ steps, drains_ok (Hub.channels (hub_run steps))) as Hok.
  { intros steps. apply (drains_all hub_step steps Hub.new drains_step). intros i c Hc. done. }
  assert (waits_or_kept (hub_step (hub_run before) (Drains id w)) id w) as Hw.
  { destruct Hthere as [c Hc]. unfold waits_or_kept, hub_step, Hub.on_channel. rewrite Hc. simpl.
    unfold HubChannel.drain. destruct (_ || _); simpl; [left; set_solver|]. right.
    eexists. rewrite list_lookup_insert_eq by (by eapply lookup_lt_Some). split; [done|]. simpl. set_solver. }
  cbv zeta. pose proof (Hok (before ++ Drains id w :: after)) as Hlast.
  unfold hub_run in *. rewrite foldl_app in *. cbn [foldl] in *.
  destruct (drains_all hub_step after (hub_step (foldl hub_step Hub.new before) (Drains id w)) drains_step)
    as [_ Hkept].
  { specialize (Hok (before ++ [Drains id w])). by rewrite foldl_app in Hok. }
  destruct (Hkept id w Hw) as [Hr|(c & Hc & Hin)]; [by left|]. right. exists c. split_and!; [done..| |];
    apply (Hlast id c Hc); intros Hn; rewrite Hn in Hin; by apply elem_of_nil in Hin.
Qed.

(** ** Witnesses *)

Definition hello_frame : PeerFrame.t :=
  PeerFrame.mk "phone" control (Some (JSON_stringify (JObj [("type", JStr "hello")]))) None.

Lemma hello_reaches_session_witness :
  Hub.calls (hub_run [DeliverInbound hello_frame; CreateLink "phone"; Listens 0 7; Microtask]) =
    [Invites "phone"; Hands 0 7 (Text (default EmptyString (PeerFrame.text hello_frame)))].
Proof.
  refine (proj1 (proj2 (hello_reaches_session Hub.new "phone" [hello_frame] 7 eq_refl eq_refl eq_refl eq_refl _ _))).
  - constructor; [|constructor]. split; vm_compute; reflexivity.
  - unfold MAX_WAITING. simpl. lia.
Defined.

Lemma drain_released_witness :
  Releases 3 ∈ Hub.calls (hub_run ([CreateLink "phone"; ReportBuffered "phone" (2 ^ 20)] ++
    Drains 1 3 :: [CloseLink "phone"])).
Proof.
  destruct (drain_released [CreateLink "phone"; ReportBuffered "phone" (2 ^ 20)] [CloseLink "phone"] 1 3)
    as [Hin|(c & Hc & _ & Hopen & _)].
  - eexists. vm_compute. reflexivity.
  - exact Hin.
  - vm_compute in Hc. injection Hc as <-. discriminate Hopen.
Defined.
