(* ===== verification/VaultFile.v ===== *)
(** * The vault file

    packages/storage-node/src/vaultFile.ts behind the interface of
    packages/services/src/platform.ts.  The files of other programs change
    between the calls, by steps of their own; whether KeePassXC holds a vault is
    asked of [held], [fails] tells which calls of the system fail, by the number
    of the call, and [partial] how many bytes a write that fails has written. *)

From S2P Require Import Prelude Model Bytes JsString ShortCode Effects.

Open Scope Z_scope.

(** ** What the application asks of a platform (platform.ts) *)

Inductive VaultWriteOutcome : Type :=
  | write_done
  | write_refused (reason : string).

(** [content] is what stands in a file that a vault may be in.  No call changes
    it but a write that is done. *)
Class VaultFileAccess (F : Type) : Type := {
  content : F → string → option Uint8Array;
  vault_path : string → Prop;
  file_read : string → M F Uint8Array;
  file_write : string → Uint8Array → bool → M F VaultWriteOutcome;
  file_isLocked : string → M F bool;
  can_watch : bool;
  file_read_spec : ∀ f path, vault_path path → ∃ f', (∀ q, content f' q = content f q) ∧
    (file_read path f = (Ok (default [] (content f path)), f') ∧ is_Some (content f path) ∨
     ∃ e, file_read path f = (Err e, f'));
  file_write_spec : ∀ f path bytes ignoreLock, vault_path path → ∃ f',
    (∀ q, content f' q = content f q) ∧
      (∃ e, file_write path bytes ignoreLock f = (Err e, f')) ∨
    (∀ q, content f' q = content f q) ∧
      (∃ reason, file_write path bytes ignoreLock f = (Ok (write_refused reason), f')) ∨
    (∀ q, content f' q = if decide (q = path) then Some bytes else content f q) ∧
      file_write path bytes ignoreLock f = (Ok write_done, f');
  file_isLocked_spec : ∀ f path, ∃ locked f', file_isLocked path f = (Ok locked, f') ∧
    ∀ q, content f' q = content f q;
}.

(** ** The files of a desktop *)

Definition lockPathFor (vaultPath : string) : string := vaultPath +:+ ".lock".

(** [dirname] and [join] of POSIX paths, as far as they are used. *)
Definition dirname (path : string) : string :=
  match lastIndexOf 47 (charCode <$> chars path) with
  | None => "."
  | Some O => "/"
  | Some i => of_chars (take i (chars path))
  end.

Definition join_path (directory name : string) : string :=
  if decide (directory = "/") then "/" +:+ name else directory +:+ "/" +:+ name.

Definition temp_name (uuid : string) : string := ".passvault-" +:+ uuid +:+ ".tmp".

(** A file whose name ends as those of the temporary files do. *)
Definition is_temp (path : string) : bool := endsWith ".tmp" path.

Module DiskFiles.
Record t : Type := mk {
  files : gmap string Uint8Array;
  asked : nat;
}.

Definition set_files x (d : t) : t := mk x (asked d).
Definition set_asked x (d : t) : t := mk (files d) x.
End DiskFiles.

Section disk.
Context (held : nat → string → bool) (fails : nat → bool) (partial : nat → nat) (randomUUID : nat → string).
Abbreviation Disk := (M DiskFiles.t).

(** A call of the system: it does its work, or fails and leaves something else. *)
Definition syscall_leaving (message : string) (f left : DiskFiles.t → DiskFiles.t) : Disk unit := λ d,
  let n := DiskFiles.asked d in
  let d := DiskFiles.set_asked (S n) d in
  if fails n then (Err message, left d) else (Ok tt, f d).

(** A call that does nothing when it fails. *)
Definition syscall (message : string) (f : DiskFiles.t → DiskFiles.t) : Disk unit :=
  syscall_leaving message f (λ d, d).

(** [stat] of the lock file. *)
Definition isVaultLocked (vaultPath : string) : Disk bool := λ d,
  (Ok (held (DiskFiles.asked d) (lockPathFor vaultPath)),
   DiskFiles.set_asked (S (DiskFiles.asked d)) d).

Definition readVaultFile (vaultPath : string) : Disk Uint8Array :=
  syscall "EACCES" (λ d, d) ≫= λ _,
  gets (λ d, DiskFiles.files d !! vaultPath) ≫= λ bytes,
  match bytes with Some bytes => mret bytes | None => throw "ENOENT" end.

Definition put_file (path : string) (bytes : Uint8Array) (d : DiskFiles.t) : DiskFiles.t :=
  DiskFiles.set_files (<[path := bytes]> (DiskFiles.files d)) d.

Definition remove_file (path : string) (d : DiskFiles.t) : DiskFiles.t :=
  DiskFiles.set_files (delete path (DiskFiles.files d)) d.

(** The file of a name takes another name, whose file is no more. *)
Definition rename_file (from to : string) (d : DiskFiles.t) : DiskFiles.t :=
  match DiskFiles.files d !! from with
  | Some bytes => DiskFiles.set_files (<[to := bytes]> (delete from (DiskFiles.files d))) d
  | None => d
  end.

(** [handle.writeFile]. *)
Definition write_handle (tempPath : string) (bytes : Uint8Array) : Disk unit :=
  syscall_leaving "ENOSPC" (put_file tempPath bytes)
    (λ d, put_file tempPath (take (partial (DiskFiles.asked d)) bytes) d).

(** [try { m } finally { await handle.close () }]: what closing throws comes
    before what [m] throws. *)
Definition closing (m : Disk unit) : Disk unit := λ d,
  let '(r, d) := m d in
  match syscall "EBADF" (λ d, d) d with
  | (Ok _, d) => (r, d)
  | (Err e, d) => (Err e, d)
  end.

(** The [try] around the renaming; removing may fail too. *)
Definition replace_file (tempPath vaultPath : string) : Disk unit := λ d,
  match syscall "EPERM" (rename_file tempPath vaultPath) d with
  | (Ok _, d) => (Ok tt, d)
  | (Err e, d) =>
      match syscall "EBUSY" (remove_file tempPath) d with
      | (Ok _, d) => (Err e, d)
      | (Err e, d) => (Err e, d)
      end
  end.

Definition writeVaultFileAtomic (vaultPath : string) (bytes : Uint8Array) (ignoreLock : bool)
    : Disk VaultWriteOutcome :=
  (if ignoreLock then (mret false : Disk _) else isVaultLocked vaultPath) ≫= λ locked,
  if (locked : bool) then
    (mret (write_refused "KeePassXC has this vault open. Close it before writing the merged revision.")
      : Disk _)
  else
    gets (λ d, randomUUID (DiskFiles.asked d)) ≫= λ uuid,
    let tempPath := join_path (dirname vaultPath) (temp_name uuid) in
    syscall "EACCES" (put_file tempPath []) ≫= λ _,
    closing (write_handle tempPath bytes ≫= λ _, syscall "EIO" (λ d, d)) ≫= λ _,
    replace_file tempPath vaultPath ≫= λ _,
    mret write_done.
End disk.

(** ** The watcher *)

(** [timer]: the debounce is running; [reads]: the attempts of a delivery in
    progress that are left; [delivered] the calls of [onChange], each with what
    was read. *)
Module VaultFileWatcher.
Record t : Type := mk {
  watching : bool;
  timer : bool;
  processing : bool;
  pending : bool;
  attempts : nat;
  calling : bool;
  delivered : list Uint8Array;
}.

Definition new : t := mk false false false false 0 false [].

Definition set_watching x (w : t) : t :=
  mk x (timer w) (processing w) (pending w) (attempts w) (calling w) (delivered w).
Definition set_timer x (w : t) : t :=
  mk (watching w) x (processing w) (pending w) (attempts w) (calling w) (delivered w).
Definition set_pending x (w : t) : t :=
  mk (watching w) (timer w) (processing w) x (attempts w) (calling w) (delivered w).

Definition start (w : t) : t := set_watching true w.

Definition stop (w : t) : t := set_watching false (set_timer false w).

Definition schedule (w : t) : t := set_timer true w.

(** The start of [deliver]: a read begins. *)
Definition deliver (w : t) : t :=
  if processing w then set_pending true w
  else mk (watching w) (timer w) true (pending w) 2 false (delivered w).

(** The [finally] of [deliver]. *)
Definition finish (w : t) : t :=
  let w := mk (watching w) (timer w) false (pending w) 0 false (delivered w) in
  if pending w then schedule (set_pending false w) else w.

(** The read that is awaited ends: with the bytes, or failing; a second failure
    gives nothing. *)
Definition read_ends (bytes : option Uint8Array) (w : t) : t :=
  match bytes, attempts w with
  | Some bytes, _ =>
      mk (watching w) (timer w) (processing w) (pending w) 0 true (delivered w ++ [bytes])
  | None, S (S n) => mk (watching w) (timer w) (processing w) (pending w) (S n) (calling w) (delivered w)
  | None, _ => finish w
  end.
End VaultFileWatcher.

Inductive WatchStep : Type :=
  | Starts
  | Stops
  | FileEvent
  | TimerFires
  | PollNow
  | ReadEnds (bytes : option Uint8Array)
  | OnChangeEnds.

(** The steps that can happen. *)
Definition watch_possible (w : VaultFileWatcher.t) (step : WatchStep) : Prop :=
  match step with
  | Starts | Stops | PollNow => True
  | FileEvent => VaultFileWatcher.watching w = true
  | TimerFires => VaultFileWatcher.timer w = true
  | ReadEnds _ => VaultFileWatcher.processing w = true ∧ VaultFileWatcher.calling w = false
  | OnChangeEnds => VaultFileWatcher.calling w = true
  end.

Definition watch_step (w : VaultFileWatcher.t) (step : WatchStep) : VaultFileWatcher.t :=
  match step with
  | Starts => VaultFileWatcher.start w
  | Stops => VaultFileWatcher.stop w
  | FileEvent => VaultFileWatcher.schedule w
  | TimerFires => VaultFileWatcher.deliver (VaultFileWatcher.set_timer false w)
  | PollNow => VaultFileWatcher.deliver w
  | ReadEnds bytes => VaultFileWatcher.read_ends bytes w
  | OnChangeEnds => VaultFileWatcher.finish w
  end.

Inductive watched : list WatchStep → VaultFileWatcher.t → Prop :=
  | watched_none : watched [] VaultFileWatcher.new
  | watched_more steps step w : watched steps w → watch_possible w step →
      watched (steps ++ [step]) (watch_step w step).
