(* ===== verification/VaultFileProps.v ===== *)
(** * The vault file: properties *)

From S2P Require Import Prelude Model Bytes JsString ShortCode Effects VaultFile.

Open Scope Z_scope.

Section disk.
Context (held : nat → string → bool) (fails : nat → bool) (partial : nat → nat) (randomUUID : nat → string).
Implicit Types d : DiskFiles.t.

Lemma syscall_cases message f d :
  let d' := DiskFiles.set_asked (S (DiskFiles.asked d)) d in
  syscall fails message f d = (Err message, d') ∨ syscall fails message f d = (Ok tt, f d').
Proof. unfold syscall, syscall_leaving. destruct (fails (DiskFiles.asked d)); auto. Qed.

(** The files of a disk that are no temporary files. *)
Definition lasting d (path : string) : option Uint8Array :=
  if is_temp path then None else DiskFiles.files d !! path.

Lemma chars_prefix_temp dir uuid : is_temp (join_path dir (temp_name uuid)) = true.
Proof.
  unfold is_temp, endsWith, join_path, temp_name. apply bool_decide_eq_true.
  assert (∀ s, chars ".tmp" `suffix_of` chars (s +:+ ".tmp")) as Hs.
  { intros s. rewrite chars_app. by exists (chars s). }
  assert (∀ a b c, a +:+ (b +:+ c) = (a +:+ b) +:+ c) as Hassoc.
  { intros a b c. apply chars_inj. by rewrite !chars_app, app_assoc. }
  case_decide; rewrite ?Hassoc; apply Hs.
Qed.

Lemma lasting_same d d' : DiskFiles.files d' = DiskFiles.files d → lasting d' = lasting d.
Proof. unfold lasting. by intros ->. Qed.

(** What a call on a temporary file leaves alone. *)
Definition but_temp (temp : string) d d' : Prop :=
  ∀ path, path ≠ temp → DiskFiles.files d' !! path = DiskFiles.files d !! path.

Lemma but_temp_lasting temp d d' : is_temp temp = true → but_temp temp d d' →
  ∀ path, lasting d' path = lasting d path.
Proof.
  intros Ht Hb path. unfold lasting. destruct (is_temp path) eqn:Hp; [done|]. apply Hb. congruence.
Qed.

#[global] Instance but_temp_preorder temp : PreOrder (but_temp temp).
Proof. split; [by intros d path|]. intros d1 d2 d3 H12 H23 path Hp. by rewrite H23, H12. Qed.

Lemma put_temp temp bytes d : but_temp temp d (put_file temp bytes d).
Proof. intros path Hp. by apply lookup_insert_ne. Qed.

Lemma syscall_temp temp message f d :
  (∀ d, but_temp temp d (f d)) → but_temp temp d (syscall fails message f d).2.
Proof.
  intros Hf. destruct (syscall_cases message f d) as [-> | ->]; [by intros path|]. simpl.
  etrans; [|apply Hf]. by intros path.
Qed.

(** The temporary file written and closed: nothing else changes, and when all
    went well it has the bytes. *)
Lemma written_temp temp bytes d :
  let '(outcome, d') := closing fails (write_handle fails partial temp bytes ≫= λ _, syscall fails "EIO" (λ d, d)) d in
  but_temp temp d d' ∧ (outcome = Ok tt → DiskFiles.files d' !! temp = Some bytes).
Proof.
  unfold closing, mbind, M_bind, write_handle, syscall, syscall_leaving.
  destruct (fails (DiskFiles.asked d)); simpl; [|destruct (fails _); simpl]; destruct (fails _); simpl;
    (split; [intros q Hq; by apply lookup_insert_ne|try done]); intros _; apply lookup_insert_eq.
Qed.

(** What [writeVaultFileAtomic] leaves: the file as it was, or the new bytes. *)
Lemma write_cases path bytes ignoreLock d :
  is_temp path = false →
  let '(outcome, d') := writeVaultFileAtomic held fails partial randomUUID path bytes ignoreLock d in
  match outcome with
  | Ok write_done => ∀ q, lasting d' q = if decide (q = path) then Some bytes else lasting d q
  | Ok (write_refused _) => (∀ q, lasting d' q = lasting d q) ∧ ignoreLock = false ∧
      held (DiskFiles.asked d) (lockPathFor path) = true
  | Err _ => ∀ q, lasting d' q = lasting d q
  end.
Proof.
  intros Hpath. unfold writeVaultFileAtomic.
  set (m := if ignoreLock then _ else _).
  assert (∃ locked d0, m d = (Ok locked, d0) ∧ DiskFiles.files d0 = DiskFiles.files d ∧
    (locked = true → ignoreLock = false ∧ held (DiskFiles.asked d) (lockPathFor path) = true))
    as (locked & d0 & Hm & Hf & Hl).
  { subst m. destruct ignoreLock; [by exists false, d|]. by do 2 eexists. }
  unfold mbind, M_bind. rewrite Hm. destruct locked; cbn [mret M_ret].
  { split; [by apply (λ e, f_equal (λ g, g _) (lasting_same d d0 Hf))|by apply Hl]. }
  unfold gets. set (temp := join_path _ _).
  assert (is_temp temp = true) as Ht by apply chars_prefix_temp.
  assert (temp ≠ path) as Hne by congruence.
  assert (but_temp temp d d0) as H0 by (intros q _; by rewrite Hf).
  pose proof (syscall_temp temp "EACCES" (put_file temp []) d0 (put_temp temp [])) as H1.
  destruct (syscall fails "EACCES" (put_file temp []) d0) as [[[]|e1] d1]; simpl in H1.
  2:{ apply (but_temp_lasting temp); [done|]. by transitivity d0. }
  pose proof (written_temp temp bytes d1) as H2. unfold mbind, M_bind in H2.
  destruct (closing _ _ d1) as [[[]|e2] d2]; destruct H2 as [H2 Htemp].
  2:{ apply (but_temp_lasting temp); [done|]. transitivity d0; [done|]. by transitivity d1. }
  assert (but_temp temp d d2) as H2' by (transitivity d0; [done|]; by transitivity d1).
  specialize (Htemp eq_refl). unfold replace_file.
  destruct (syscall_cases "EPERM" (rename_file temp path) d2) as [E4|E4]; rewrite E4.
  - pose proof (syscall_temp temp "EBUSY" (remove_file temp) (DiskFiles.set_asked (S (DiskFiles.asked d2)) d2)) as H5.
    destruct (syscall fails "EBUSY" (remove_file temp) _) as [[[]|e5] d5]; simpl in H5;
      (apply (but_temp_lasting temp); [done|]; transitivity d2; [done|]);
      (etrans; [|apply H5]; [by intros q|]; intros d3 q Hq; by apply lookup_delete_ne).
  - intros q. unfold rename_file. cbn [DiskFiles.files DiskFiles.set_asked]. rewrite Htemp.
    unfold lasting. cbn [DiskFiles.files DiskFiles.set_files].
    destruct (decide (q = path)) as [->|Hq]; [by rewrite Hpath, lookup_insert_eq|].
    rewrite lookup_insert_ne by done. destruct (is_temp q) eqn:Hq'; [done|].
    rewrite lookup_delete_ne by congruence. apply H2'. congruence.
Qed.

(** The desktop is a platform. *)
#[global, refine] Instance desktop_files : VaultFileAccess DiskFiles.t := {
  content := lasting;
  vault_path path := is_temp path = false;
  file_read := readVaultFile fails;
  file_write := writeVaultFileAtomic held fails partial randomUUID;
  file_isLocked := isVaultLocked held;
  can_watch := true;
}.
Proof.
  - intros d path Hp. unfold readVaultFile, mbind, M_bind, gets.
    exists (DiskFiles.set_asked (S (DiskFiles.asked d)) d). split; [done|].
    destruct (syscall_cases "EACCES" (λ d, d) d) as [-> | ->]; [right; by eexists|].
    cbn [DiskFiles.files DiskFiles.set_asked]. unfold lasting. rewrite Hp.
    destruct (DiskFiles.files d !! path) as [bytes|]; [left|right; by eexists]. by split; [|eexists].
  - intros d path bytes ignoreLock Hp. pose proof (write_cases path bytes ignoreLock d Hp) as Hw.
    destruct (writeVaultFileAtomic _ _ _ _ _ _ _ d) as [[[|reason]|e] d']; exists d'.
    + right. right. by split.
    + right. left. destruct Hw as (Hw & _ & _). split; [done|by eexists].
    + left. split; [done|by eexists].
  - intros d path. unfold isVaultLocked. do 2 eexists. split; [reflexivity|].
    done.
Defined.

(** C35: the vault file is replaced whole or not at all.  Whatever call of the
    system fails, a vault file has its old content or the new one, and no other
    file that lasts changes; it is not touched while KeePassXC was seen to hold
    it (unless the lock is to be ignored), and it has the new content if the call
    says so. *)
Theorem vault_file_atomic (path : string) (bytes : Uint8Array) (ignoreLock : bool) d
    (Hpath : is_temp path = false) :
  let '(outcome, d') := writeVaultFileAtomic held fails partial randomUUID path bytes ignoreLock d in
  (∀ q, is_temp q = false → q ≠ path → DiskFiles.files d' !! q = DiskFiles.files d !! q) ∧
  (DiskFiles.files d' !! path = DiskFiles.files d !! path ∨ DiskFiles.files d' !! path = Some bytes) ∧
  (outcome = Ok write_done → DiskFiles.files d' !! path = Some bytes) ∧
  (outcome ≠ Ok write_done → DiskFiles.files d' !! path = DiskFiles.files d !! path) ∧
  (held (DiskFiles.asked d) (lockPathFor path) = true → ignoreLock = false → outcome ≠ Ok write_done).
Proof.
  pose proof (write_cases path bytes ignoreLock d Hpath) as Hw.
  assert (held (DiskFiles.asked d) (lockPathFor path) = true → ignoreLock = false →
    (writeVaultFileAtomic held fails partial randomUUID path bytes ignoreLock d).1 ≠ Ok write_done) as Hheld.
  { intros Hh ->. unfold writeVaultFileAtomic, isVaultLocked, mbind, M_bind. by rewrite Hh. }
  destruct (writeVaultFileAtomic _ _ _ _ _ _ _ d) as [outcome d'].
  assert (∀ q, is_temp q = false → ∀ e : lasting d' q = lasting d q,
    DiskFiles.files d' !! q = DiskFiles.files d !! q) as Hl.
  { intros q Hq. unfold lasting. by rewrite Hq. }
  destruct outcome as [[|reason]|e]; [|destruct Hw as [Hw _]|].
  - assert (DiskFiles.files d' !! path = Some bytes) as Hnew.
    { specialize (Hw path). unfold lasting in Hw. rewrite Hpath, decide_True in Hw by done. done. }
    split_and!; auto; [|done]. intros q Hq Hne. apply Hl; [done|].
    specialize (Hw q). by rewrite decide_False in Hw by done.
  - split_and!; auto; done.
  - split_and!; auto; done.
Qed.
End disk.

(** ** The watcher *)

(** Whether something changed since the last read began, after one more step. *)
Definition dirty_after (w : VaultFileWatcher.t) (step : WatchStep) (dirty : bool) : bool :=
  match step with
  | FileEvent => true
  | TimerFires | PollNow => if VaultFileWatcher.processing w then dirty else false
  | _ => dirty
  end.

Inductive observed : list WatchStep → VaultFileWatcher.t → bool → Prop :=
  | observed_none : observed [] VaultFileWatcher.new false
  | observed_more steps step w dirty : observed steps w dirty → watch_possible w step →
      observed (steps ++ [step]) (watch_step w step) (dirty_after w step dirty).

(** C36: the watcher misses no change.  As long as it is not stopped, when the
    file changed after the last read began, the debounce runs, or a delivery is
    in progress whose end starts it; and when the debounce ends with no delivery
    in progress, the file is read. *)
Theorem watcher_misses_nothing (steps : list WatchStep) w (Hw : observed steps w true)
    (Hrunning : Stops ∉ steps) :
  (VaultFileWatcher.timer w = true ∨
   VaultFileWatcher.processing w = true ∧ VaultFileWatcher.timer (VaultFileWatcher.finish w) = true) ∧
  (VaultFileWatcher.timer w = true → VaultFileWatcher.processing w = false →
   dirty_after w TimerFires true = false ∧
   VaultFileWatcher.attempts (watch_step w TimerFires) = 2%nat).
Proof.
  assert (∀ dirty, observed steps w dirty → dirty = true →
    VaultFileWatcher.timer w = true ∨ VaultFileWatcher.processing w = true ∧ VaultFileWatcher.pending w = true)
    as Hinv.
  { clear Hw. intros dirty Hw. induction Hw as [|steps step w dirty Hw IH Hpos]; [done|].
    rewrite elem_of_app, list_elem_of_singleton in Hrunning.
    assert (Stops ∉ steps) as Hr by tauto. specialize (IH Hr).
    destruct w as [g t p q a c l], step as [| | | | |[bytes|]|]; try (by destruct Hrunning; right);
      cbn -[VaultFileWatcher.finish] in *; auto.
    - unfold VaultFileWatcher.deliver. destruct p; cbn; [|done]. auto.
    - unfold VaultFileWatcher.deliver. destruct p; cbn; [|done]. intros Hd. destruct (IH Hd); auto.
    - intros Hd. destruct a as [|[|a]]; unfold VaultFileWatcher.finish; cbn; destruct q; cbn; auto;
        destruct (IH Hd) as [?|[]]; auto.
    - intros Hd. unfold VaultFileWatcher.finish; cbn; destruct q; cbn; auto; destruct (IH Hd) as [?|[]]; auto. }
  specialize (Hinv true Hw eq_refl). destruct w as [g t p q a c l]. simpl in *. split.
  - destruct Hinv as [?|[? ->]]; [by left|by right].
  - by intros -> ->.
Qed.

(** A watcher that was stopped goes on: a change that came during a delivery is
    read, and handed over, after [stop] has returned. *)
Definition after_stop (bytes late : Uint8Array) : list WatchStep :=
  [Starts; FileEvent; TimerFires; FileEvent; TimerFires; Stops; ReadEnds (Some bytes); OnChangeEnds;
   TimerFires; ReadEnds (Some late)].

Lemma stopped_watcher_delivers bytes late :
  ∃ w, watched (after_stop bytes late) w ∧ VaultFileWatcher.delivered w = [bytes; late].
Proof.
  assert (∀ steps steps' w, watched steps w →
    (fix go w steps' := match steps' with
     | [] => True
     | step :: steps' => watch_possible w step ∧ go (watch_step w step) steps'
     end) w steps' → watched (steps ++ steps') (foldl watch_step w steps')) as Hrun.
  { intros steps steps'. revert steps. induction steps' as [|step steps' IH]; intros steps w Hw; simpl.
    - by rewrite app_nil_r.
    - intros [Hp Hgo]. change (step :: steps') with ([step] ++ steps'). rewrite app_assoc.
      apply IH; [by constructor|done]. }
  eexists. split.
  - apply (Hrun [] (after_stop bytes late) VaultFileWatcher.new); [constructor|]. simpl. tauto.
  - reflexivity.
Qed.

(** ** Witnesses *)

(** The renaming fails, and then the removing. *)
Definition failing_write : result VaultWriteOutcome * DiskFiles.t :=
  writeVaultFileAtomic (λ _ _, false) (λ n, 5 <=? n)%nat (λ _, 0%nat) (λ _, "1") "/v.kdbx" [Byte.x01] false
    (DiskFiles.mk {["/v.kdbx" := [Byte.x00]]} 0).

Lemma vault_file_atomic_witness : DiskFiles.files failing_write.2 !! ("/v.kdbx" : string) = Some [Byte.x00].
Proof.
  pose proof (vault_file_atomic (λ _ _, false) (λ n, 5 <=? n)%nat (λ _, 0%nat) (λ _, "1") "/v.kdbx" [Byte.x01] false
    (DiskFiles.mk {["/v.kdbx" := [Byte.x00]]} 0) eq_refl) as H.
  change (writeVaultFileAtomic _ _ _ _ _ _ _ _) with failing_write in H.
  assert (failing_write.1 ≠ Ok write_done) as Hf by (vm_compute; discriminate).
  destruct failing_write as [outcome d']. destruct H as (_ & _ & _ & Hkept & _). exact (Hkept Hf).
Defined.

Lemma watcher_misses_nothing_witness :
  VaultFileWatcher.timer (foldl watch_step VaultFileWatcher.new [Starts; FileEvent]) = true ∨
  VaultFileWatcher.processing (foldl watch_step VaultFileWatcher.new [Starts; FileEvent]) = true ∧
  VaultFileWatcher.timer (VaultFileWatcher.finish
    (foldl watch_step VaultFileWatcher.new [Starts; FileEvent])) = true.
Proof.
  apply (watcher_misses_nothing [Starts; FileEvent]).
  - apply (observed_more [Starts] FileEvent (watch_step VaultFileWatcher.new Starts) false); [|reflexivity].
    apply (observed_more [] Starts VaultFileWatcher.new false); constructor.
  - intros [H|[H|[]%elem_of_nil]%elem_of_cons]%elem_of_cons; discriminate.
Defined.
