(* ===== verification/Kdbx.v ===== *)
(** * The vault file, opened

    packages/kdbx/src: the one component that decrypts a vault.  It takes bytes
    and returns bytes ([KdbxInterpreter], in kdbxInterpreter.ts), and it tells
    what differs between two databases without telling a value (snapshot.ts).
    The library that reads and writes KDBX files is a parameter ([KdbxWeb]). *)

From S2P Require Import Prelude Model Bytes JsString JsMap Effects Codec BlobStore Engine Identity.
From stdpp Require Import sorting.
From Stdlib Require String Ascii.

Open Scope Z_scope.

(** ** Credentials (packages/kdbx/src/types.ts) *)

Module KdbxOpenCredentials.
Record t : Type := mk {
  password : option string;
  keyFile : option Uint8Array;
}.

#[global] Instance eq_dec : EqDecision t.
Proof. solve_decision. Defined.
End KdbxOpenCredentials.

Module KdbxCredentialSet.
Record t : Type := mk {
  local : KdbxOpenCredentials.t;
  incoming : list KdbxOpenCredentials.t;
  output : option KdbxOpenCredentials.t;
}.
End KdbxCredentialSet.

Definition password_only (password : string) : KdbxOpenCredentials.t :=
  KdbxOpenCredentials.mk (Some password) None.

Definition uniformCredentials (password : string) (incomingCount : nat) : KdbxCredentialSet.t :=
  KdbxCredentialSet.mk (password_only password) (replicate incomingCount (password_only password)) None.

Definition looksLikeKdbx (bytes : Uint8Array) : bool :=
  if byteLength bytes <? 8 then false
  else (getUint32_le bytes =? 0x9aa2d903) && (getUint32_le (drop 4 bytes) =? 0xb54bfb67).

(** ** What the library throws and returns *)

(** An error of the library, another [Error], or something else. *)
Inductive Failure : Type :=
  | KdbxError (code message : string)
  | PlainError (message : string)
  | NotAnError.

Inductive outcome (A : Type) : Type :=
  | returns (a : A)
  | throws (f : Failure).
Arguments returns {_} _.
Arguments throws {_} _.

#[global] Instance outcome_ret : MRet outcome := @returns.
#[global] Instance outcome_bind : MBind outcome := λ A B k m,
  match m with returns a => k a | throws f => throws f end.

(** [assert] throws a plain [Error]. *)
Definition asserting (condition : bool) (message : string) : outcome unit :=
  match assert condition message with Ok u => returns u | Err e => throws (PlainError e) end.

(** ** What is read of a database *)

(** The value of a field: a text, or one that is kept encrypted in memory, of
    which [getBinary] gives the bytes and [getText] the text. *)
Inductive KdbxEntryField : Type :=
  | plain_text (value : string)
  | ProtectedValue (binary : Uint8Array) (text : string).

Module KdbxEntry.
Record t : Type := mk {
  uuid : string;
  fields : list (string * KdbxEntryField);
  binaries : list string;
}.
End KdbxEntry.

Inductive KdbxGroup : Type :=
  | kdbx_group (uuid : string) (name : option string) (entries : list KdbxEntry.t)
      (groups : list KdbxGroup).

Definition group_name (group : KdbxGroup) : option string :=
  match group with kdbx_group _ name _ _ => name end.

(** The library: opening a file, merging a database into another, saving one,
    and its groups.  [InvalidKey] is its code of a wrong password. *)
Class KdbxWeb (Kdbx : Type) : Type := {
  kdbx_load : Uint8Array → KdbxOpenCredentials.t → outcome Kdbx;
  kdbx_merge : Kdbx → Kdbx → outcome Kdbx;
  kdbx_set_credentials : KdbxOpenCredentials.t → Kdbx → Kdbx;
  kdbx_save : Kdbx → outcome Uint8Array;
  kdbx_groups : Kdbx → list KdbxGroup;
  InvalidKey : string;
}.

(** ** Sorting of texts: [sort] compares code units *)

Fixpoint units_le (a b : list Z) : bool :=
  match a, b with
  | [], _ => true
  | _ :: _, [] => false
  | x :: a, y :: b => if x <? y then true else if y <? x then false else units_le a b
  end.

Definition text_le (s t : string) : Prop := units_le (to_units s) (to_units t) = true.

#[global] Instance text_le_dec : RelDecision text_le := λ s t, decide (_ = _).

Definition sort_texts (l : list string) : list string := merge_sort text_le l.

(** ** Snapshots (packages/kdbx/src/snapshot.ts) *)

Module EntrySnapshot.
Record t : Type := mk {
  uuid : string;
  title : string;
  groupPath : string;
  fields : list (string * string);
  binaryKeys : list string;
}.
End EntrySnapshot.

Module DatabaseSnapshot.
Record t : Type := mk {
  entries : list (string * EntrySnapshot.t);
  groups : list (string * string);
}.
Definition set_entry (uuid : string) (entry : EntrySnapshot.t) (s : t) : t :=
  mk (map_set uuid entry (entries s)) (groups s).
Definition set_group (uuid path : string) (s : t) : t :=
  mk (entries s) (map_set uuid path (groups s)).
End DatabaseSnapshot.

(** [text || "Untitled"]. *)
Definition or_untitled (text : string) : string :=
  if decide (text = EmptyString) then "Untitled" else text.

Definition entryTitle (entry : KdbxEntry.t) : string :=
  match map_get "Title" (KdbxEntry.fields entry) with
  | None => "Untitled"
  | Some (plain_text title) => or_untitled title
  | Some (ProtectedValue _ text) => or_untitled text
  end.

Section snapshot.
Context `{Digest}.

Definition fieldFingerprint (value : KdbxEntryField) : string :=
  match value with
  | plain_text value => "s:" +:+ value
  | ProtectedValue binary _ => "p:" +:+ slice (toHex (digest binary)) 0 32
  end.

Definition entry_snapshot (path : string) (entry : KdbxEntry.t) : EntrySnapshot.t :=
  {| EntrySnapshot.uuid := KdbxEntry.uuid entry;
     EntrySnapshot.title := entryTitle entry;
     EntrySnapshot.groupPath := path;
     EntrySnapshot.fields :=
       foldl (λ fields '(key, value), map_set key (fieldFingerprint value) fields) []
         (KdbxEntry.fields entry);
     EntrySnapshot.binaryKeys := sort_texts (KdbxEntry.binaries entry) |}.

Fixpoint collectGroup (group : KdbxGroup) (path : string) (s : DatabaseSnapshot.t)
    : DatabaseSnapshot.t :=
  match group with
  | kdbx_group uuid _ entries groups =>
      let s := DatabaseSnapshot.set_group uuid path s in
      let s := foldl (λ s entry,
        DatabaseSnapshot.set_entry (KdbxEntry.uuid entry) (entry_snapshot path entry) s) s entries in
      foldl (λ s child,
        collectGroup child (path +:+ "/" +:+ default "Unnamed group" (group_name child)) s) s groups
  end.

Definition snapshotDatabase (groups : list KdbxGroup) : DatabaseSnapshot.t :=
  foldl (λ s root, collectGroup root (default "Root" (group_name root)) s)
    (DatabaseSnapshot.mk [] []) groups.
End snapshot.

Definition summarize (entry : EntrySnapshot.t) : DiffEntrySummary.t :=
  {| DiffEntrySummary.uuid := EntrySnapshot.uuid entry;
     DiffEntrySummary.title := EntrySnapshot.title entry;
     DiffEntrySummary.groupPath := EntrySnapshot.groupPath entry |}.

(** The names of the attachments, joined with NUL. *)
Definition attachments (entry : EntrySnapshot.t) : string :=
  String.concat (String Ascii.zero EmptyString) (EntrySnapshot.binaryKeys entry).

Definition changedEntryFields (base incoming : EntrySnapshot.t) : list string :=
  let changed := foldl (λ changed field,
      if decide (map_get field.1 (EntrySnapshot.fields base) = Some field.2) then changed
      else set_add changed field.1) [] (EntrySnapshot.fields incoming) in
  let changed := foldl (λ changed key,
      if decide (is_Some (map_get key (EntrySnapshot.fields incoming))) then changed
      else set_add changed key) changed (EntrySnapshot.fields base).*1 in
  let changed := if decide (EntrySnapshot.groupPath base = EntrySnapshot.groupPath incoming)
                 then changed else set_add changed "Group" in
  let changed := if decide (attachments base = attachments incoming)
                 then changed else set_add changed "Attachments" in
  sort_texts changed.

(** What the first loop says of an entry of the incoming database. *)
Definition added_entry (base : DatabaseSnapshot.t) (e : string * EntrySnapshot.t)
    : option DiffEntrySummary.t :=
  match map_get e.1 (DatabaseSnapshot.entries base) with
  | None => Some (summarize e.2)
  | Some _ => None
  end.

Definition changed_entry (base : DatabaseSnapshot.t) (e : string * EntrySnapshot.t)
    : option ChangedEntrySummary.t :=
  match map_get e.1 (DatabaseSnapshot.entries base) with
  | None => None
  | Some baseEntry =>
      match changedEntryFields baseEntry e.2 with
      | [] => None
      | changedFields => Some (ChangedEntrySummary.mk (summarize e.2) changedFields)
      end
  end.

Definition added_group (base : DatabaseSnapshot.t) (g : string * string) : option string :=
  match map_get g.1 (DatabaseSnapshot.groups base) with None => Some g.2 | Some _ => None end.

Definition changed_group (base : DatabaseSnapshot.t) (g : string * string) : option string :=
  match map_get g.1 (DatabaseSnapshot.groups base) with
  | None => None
  | Some basePath => if decide (basePath = g.2) then None else Some g.2
  end.

(** The loops over the entries and the groups of the base do what the first
    case of the other two does, with the databases exchanged. *)
Definition diffSnapshots (base incoming : DatabaseSnapshot.t) : VaultDiff.t :=
  {| VaultDiff.addedEntries := omap (added_entry base) (DatabaseSnapshot.entries incoming);
     VaultDiff.removedEntries := omap (added_entry incoming) (DatabaseSnapshot.entries base);
     VaultDiff.changedEntries := omap (changed_entry base) (DatabaseSnapshot.entries incoming);
     VaultDiff.addedGroups := omap (added_group base) (DatabaseSnapshot.groups incoming);
     VaultDiff.removedGroups := omap (added_group incoming) (DatabaseSnapshot.groups base);
     VaultDiff.changedGroups := omap (changed_group base) (DatabaseSnapshot.groups incoming) |}.

(** ** The interpreter (packages/kdbx/src/kdbxInterpreter.ts) *)

Section interpreter.
Context `{Digest} {Kdbx : Type} `{!KdbxWeb Kdbx}.
Abbreviation Request := (InterpretationRequest.t KdbxCredentialSet.t).

Definition toCredentials (input : KdbxOpenCredentials.t) : outcome KdbxOpenCredentials.t :=
  asserting (bool_decide (is_Some (KdbxOpenCredentials.password input))
             || bool_decide (is_Some (KdbxOpenCredentials.keyFile input)))
    "KDBX credentials must include a password or key file" ≫= λ _,
  mret input.

Definition describe (error : Failure) : string :=
  match error with
  | KdbxError code message =>
      if decide (code = InvalidKey)
      then "Wrong password or key file for one of the selected databases."
      else "KDBX error (" +:+ code +:+ "): " +:+ message
  | PlainError message => message
  | NotAnError => "Unknown KDBX failure"
  end.

(** Opening the bytes of a revision. *)
Definition open_material (material : RevisionMaterial.t) (credentials : KdbxOpenCredentials.t)
    : outcome Kdbx :=
  toCredentials credentials ≫= λ credentials,
  kdbx_load (RevisionMaterial.bytes material) credentials.

(** Opening the [index]-th incoming revision. *)
Definition open_incoming (credentials : list KdbxOpenCredentials.t) (index : nat)
    (material : RevisionMaterial.t) : outcome Kdbx :=
  asserting (bool_decide (is_Some (credentials !! index)))
    "missing credentials for an incoming revision" ≫= λ _,
  match credentials !! index with
  | Some credentials => open_material material credentials
  | None => throws NotAnError
  end.

Fixpoint merge_all (credentials : list KdbxOpenCredentials.t) (index : nat)
    (incoming : list RevisionMaterial.t) (localDb : Kdbx) : outcome Kdbx :=
  match incoming with
  | [] => mret localDb
  | material :: incoming =>
      open_incoming credentials index material ≫= λ incomingDb,
      kdbx_merge localDb incomingDb ≫= λ localDb,
      merge_all credentials (S index) incoming localDb
  end.

Definition expected_sets (needed given : nat) : string :=
  "Expected " +:+ pretty needed +:+ " incoming credential set(s), received "
  +:+ pretty given +:+ ".".

(** The body of the [try] of [merge]. *)
Definition merge_body (credentials : KdbxCredentialSet.t) (request : Request) : outcome Uint8Array :=
  open_material (InterpretationRequest.local _ request) (KdbxCredentialSet.local credentials) ≫= λ localDb,
  merge_all (KdbxCredentialSet.incoming credentials) 0 (InterpretationRequest.incoming _ request)
    localDb ≫= λ localDb,
  (match KdbxCredentialSet.output credentials with
   | None => mret localDb
   | Some output =>
       toCredentials output ≫= λ output, mret (kdbx_set_credentials output localDb)
   end) ≫= λ localDb,
  kdbx_save localDb ≫= λ saved,
  toCredentials (default (KdbxCredentialSet.local credentials) (KdbxCredentialSet.output credentials))
    ≫= λ outputCredentials,
  (kdbx_load saved outputCredentials : outcome Kdbx) ≫= λ _,
  mret saved.

Definition kdbx_interpreter_merge (request : Request) : InterpretationResult :=
  match InterpretationRequest.credentials _ request with
  | None => merge_needs_credentials "KDBX merge requires credentials for every database."
  | Some credentials =>
      let incoming := InterpretationRequest.incoming _ request in
      if bool_decide (length incoming = 0%nat) then merge_failed "No incoming revisions to merge."
      else if negb (bool_decide (length (KdbxCredentialSet.incoming credentials) = length incoming)) then
        merge_needs_credentials
          (expected_sets (length incoming) (length (KdbxCredentialSet.incoming credentials)))
      else
        match merge_body credentials request with
        | returns saved =>
            merge_succeeded saved
              (RevisionMaterial.revisionId (InterpretationRequest.local _ request)
               :: (RevisionMaterial.revisionId <$> incoming))
        | throws error => merge_failed (describe error)
        end
  end.

Fixpoint diff_all (baseSnapshot : DatabaseSnapshot.t) (credentials : list KdbxOpenCredentials.t)
    (index : nat) (incoming : list RevisionMaterial.t) (aggregate : VaultDiff.t)
    : outcome VaultDiff.t :=
  match incoming with
  | [] => mret aggregate
  | material :: incoming =>
      open_incoming credentials index material ≫= λ incomingDb,
      diff_all baseSnapshot credentials (S index) incoming
        (mergeVaultDiffs aggregate
           (diffSnapshots baseSnapshot (snapshotDatabase (kdbx_groups incomingDb))))
  end.

Definition kdbx_interpreter_diff (request : Request) : DiffResult :=
  match InterpretationRequest.credentials _ request with
  | None => diff_needs_credentials "KDBX diff requires credentials for every database."
  | Some credentials =>
      let incoming := InterpretationRequest.incoming _ request in
      if negb (bool_decide (length (KdbxCredentialSet.incoming credentials) = length incoming)) then
        diff_needs_credentials
          (expected_sets (length incoming) (length (KdbxCredentialSet.incoming credentials)))
      else
        match
          open_material (InterpretationRequest.local _ request) (KdbxCredentialSet.local credentials)
            ≫= λ localDb,
          diff_all (snapshotDatabase (kdbx_groups localDb)) (KdbxCredentialSet.incoming credentials) 0
            incoming emptyVaultDiff
        with
        | returns diff => diff_ready diff
        | throws error => diff_failed (describe error)
        end
  end.
End interpreter.
