(* ===== verification/Services.v ===== *)
(** * The services of the application

    packages/services/src/vaultServices.ts: what the main process owns, and
    every operation on it.  An operation runs to its end before another begins,
    but a session does not: it starts, has events and ends, and whatever else
    happens comes between ([session_starts], [session_event], [session_ends]); so
    do the timers, the watcher and the answer of the person.  The engine, the
    platform's files and the hub are those of the other files; a promise is a
    number. *)

From S2P Require Import Prelude Model Bytes JsString Json JsMap Dag Lineage Protocol Effects Store.
From S2P Require Import BlobStore Engine Inbox Identity Session ShortCode Settings Hub VaultFile Explain Kdbx.
From Stdlib Require String.

Open Scope Z_scope.

Definition MAX_ACTIVITY : nat := 200.
Definition ACTIVE_VAULT_KEY : string := "activeVault".

(** ** Data (packages/services/src/snapshot.ts) *)

Module Rendezvous.
Record t : Type := mk {
  signalUrl : string;
  roomId : string;
  inviteToken : string;
}.

#[global] Instance eq_dec : EqDecision t.
Proof. solve_decision. Defined.
End Rendezvous.

(** A row of [device_rendezvous]. *)
Module RendezvousRow.
Record t : Type := mk {
  where_ : Rendezvous.t;
  updatedAt : Date;
}.
End RendezvousRow.

(** A handshake that waits for a person; [promise] is its [resolve]. *)
Module Verification.
Record t : Type := mk {
  deviceId : DeviceId;
  peerName : string;
  code : string;
  promise : nat;
}.
End Verification.

(** What the services tell the application, and what they resolve a promise
    of [confirmPairing] with. *)
Inductive Notice : Type :=
  | SnapshotChanged
  | SyncSuggested
  | Confirmed (promise : nat) (answer : bool).

#[global] Instance Notice_eq_dec : EqDecision Notice.
Proof. solve_decision. Defined.

Inductive WriteBackOutcome : Type :=
  | written (path : string)
  | refused_locked (reason : string)
  | write_failed (reason : string).

Inductive SyncOutcome : Type :=
  | completed (received sent : Z) (divergence : Divergence) (conflictId : option ConflictId)
  | sync_failed (reason : string).

Inductive MergeOutcomeSummary : Type :=
  | merged_summary (revisionId : RevisionId)
  | summary_needs_credentials (reason : string)
  | summary_failed (reason : string).

Inductive RecordOutcome : Type := file_recorded | file_unchanged | no_vault.

(** Numbers of what a merge would change. *)
Module DiffSummary.
Record t : Type := mk {
  addedEntries : nat;
  removedEntries : nat;
  changedEntries : nat;
  addedGroups : nat;
  removedGroups : nat;
  changedGroups : nat;
}.
End DiffSummary.

(** The three decisions of a person. *)
Inductive Decision3 : Type := keeps_current | switches_incoming | saves_both.

(** What a session is created with. *)
Module SessionInput.
Record t : Type := mk {
  peerId : string;
  link : LinkRecord.t;
  vaultId : option VaultId;
  pairingMode : bool;
  timeoutMs : option Z;
}.
End SessionInput.

Module Services.
Record t (B F : Type) : Type := mk {
  engine : EngineState.t B;
  files : F;
  cachedSettings : option ConnectionSettings.t;
  rendezvous : gmap DeviceId RendezvousRow.t;
  peers : Hub.t;
  vaultId : option VaultId;
  activity : list string;
  sessionsInFlight : list string;
  livePeers : list (string * option DeviceId);
  pendingRendezvous : option Rendezvous.t;
  updateHeldBack : bool;
  verification : option Verification.t;
  unlockTimer : bool;
  watcher : option string;
  pairingStartedAt : option Date;
  reads : nat;
  made : nat;
  notices : list Notice;
}.
Arguments mk {_ _} _ _ _ _ _ _ _ _ _ _ _ _ _ _ _ _ _ _.
Arguments engine {_ _} _.
Arguments files {_ _} _.
Arguments cachedSettings {_ _} _.
Arguments rendezvous {_ _} _.
Arguments peers {_ _} _.
Arguments vaultId {_ _} _.
Arguments activity {_ _} _.
Arguments sessionsInFlight {_ _} _.
Arguments livePeers {_ _} _.
Arguments pendingRendezvous {_ _} _.
Arguments updateHeldBack {_ _} _.
Arguments verification {_ _} _.
Arguments unlockTimer {_ _} _.
Arguments watcher {_ _} _.
Arguments pairingStartedAt {_ _} _.
Arguments reads {_ _} _.
Arguments made {_ _} _.
Arguments notices {_ _} _.

Section setters.
Context {B F : Type}.
Implicit Types s : t B F.
Definition set_engine x s : t B F := mk x (files s) (cachedSettings s) (rendezvous s) (peers s)
  (vaultId s) (activity s) (sessionsInFlight s) (livePeers s) (pendingRendezvous s)
  (updateHeldBack s) (verification s) (unlockTimer s) (watcher s) (pairingStartedAt s) (reads s)
  (made s) (notices s).
Definition set_files x s : t B F := mk (engine s) x (cachedSettings s) (rendezvous s) (peers s)
  (vaultId s) (activity s) (sessionsInFlight s) (livePeers s) (pendingRendezvous s)
  (updateHeldBack s) (verification s) (unlockTimer s) (watcher s) (pairingStartedAt s) (reads s)
  (made s) (notices s).
Definition set_cachedSettings x s : t B F := mk (engine s) (files s) x (rendezvous s) (peers s)
  (vaultId s) (activity s) (sessionsInFlight s) (livePeers s) (pendingRendezvous s)
  (updateHeldBack s) (verification s) (unlockTimer s) (watcher s) (pairingStartedAt s) (reads s)
  (made s) (notices s).
Definition set_rendezvous x s : t B F := mk (engine s) (files s) (cachedSettings s) x (peers s)
  (vaultId s) (activity s) (sessionsInFlight s) (livePeers s) (pendingRendezvous s)
  (updateHeldBack s) (verification s) (unlockTimer s) (watcher s) (pairingStartedAt s) (reads s)
  (made s) (notices s).
Definition set_peers x s : t B F := mk (engine s) (files s) (cachedSettings s) (rendezvous s) x
  (vaultId s) (activity s) (sessionsInFlight s) (livePeers s) (pendingRendezvous s)
  (updateHeldBack s) (verification s) (unlockTimer s) (watcher s) (pairingStartedAt s) (reads s)
  (made s) (notices s).
Definition set_vaultId x s : t B F := mk (engine s) (files s) (cachedSettings s) (rendezvous s)
  (peers s) x (activity s) (sessionsInFlight s) (livePeers s) (pendingRendezvous s)
  (updateHeldBack s) (verification s) (unlockTimer s) (watcher s) (pairingStartedAt s) (reads s)
  (made s) (notices s).
Definition set_activity x s : t B F := mk (engine s) (files s) (cachedSettings s) (rendezvous s)
  (peers s) (vaultId s) x (sessionsInFlight s) (livePeers s) (pendingRendezvous s) (updateHeldBack
  s) (verification s) (unlockTimer s) (watcher s) (pairingStartedAt s) (reads s) (made s) (notices
  s).
Definition set_sessionsInFlight x s : t B F := mk (engine s) (files s) (cachedSettings s)
  (rendezvous s) (peers s) (vaultId s) (activity s) x (livePeers s) (pendingRendezvous s)
  (updateHeldBack s) (verification s) (unlockTimer s) (watcher s) (pairingStartedAt s) (reads s)
  (made s) (notices s).
Definition set_livePeers x s : t B F := mk (engine s) (files s) (cachedSettings s) (rendezvous s)
  (peers s) (vaultId s) (activity s) (sessionsInFlight s) x (pendingRendezvous s) (updateHeldBack
  s) (verification s) (unlockTimer s) (watcher s) (pairingStartedAt s) (reads s) (made s) (notices
  s).
Definition set_pendingRendezvous x s : t B F := mk (engine s) (files s) (cachedSettings s)
  (rendezvous s) (peers s) (vaultId s) (activity s) (sessionsInFlight s) (livePeers s) x
  (updateHeldBack s) (verification s) (unlockTimer s) (watcher s) (pairingStartedAt s) (reads s)
  (made s) (notices s).
Definition set_updateHeldBack x s : t B F := mk (engine s) (files s) (cachedSettings s)
  (rendezvous s) (peers s) (vaultId s) (activity s) (sessionsInFlight s) (livePeers s)
  (pendingRendezvous s) x (verification s) (unlockTimer s) (watcher s) (pairingStartedAt s) (reads
  s) (made s) (notices s).
Definition set_verification x s : t B F := mk (engine s) (files s) (cachedSettings s) (rendezvous
  s) (peers s) (vaultId s) (activity s) (sessionsInFlight s) (livePeers s) (pendingRendezvous s)
  (updateHeldBack s) x (unlockTimer s) (watcher s) (pairingStartedAt s) (reads s) (made s)
  (notices s).
Definition set_unlockTimer x s : t B F := mk (engine s) (files s) (cachedSettings s) (rendezvous
  s) (peers s) (vaultId s) (activity s) (sessionsInFlight s) (livePeers s) (pendingRendezvous s)
  (updateHeldBack s) (verification s) x (watcher s) (pairingStartedAt s) (reads s) (made s)
  (notices s).
Definition set_watcher x s : t B F := mk (engine s) (files s) (cachedSettings s) (rendezvous s)
  (peers s) (vaultId s) (activity s) (sessionsInFlight s) (livePeers s) (pendingRendezvous s)
  (updateHeldBack s) (verification s) (unlockTimer s) x (pairingStartedAt s) (reads s) (made s)
  (notices s).
Definition set_pairingStartedAt x s : t B F := mk (engine s) (files s) (cachedSettings s)
  (rendezvous s) (peers s) (vaultId s) (activity s) (sessionsInFlight s) (livePeers s)
  (pendingRendezvous s) (updateHeldBack s) (verification s) (unlockTimer s) (watcher s) x (reads
  s) (made s) (notices s).
Definition set_reads x s : t B F := mk (engine s) (files s) (cachedSettings s) (rendezvous s)
  (peers s) (vaultId s) (activity s) (sessionsInFlight s) (livePeers s) (pendingRendezvous s)
  (updateHeldBack s) (verification s) (unlockTimer s) (watcher s) (pairingStartedAt s) x (made s)
  (notices s).
Definition set_made x s : t B F := mk (engine s) (files s) (cachedSettings s) (rendezvous s)
  (peers s) (vaultId s) (activity s) (sessionsInFlight s) (livePeers s) (pendingRendezvous s)
  (updateHeldBack s) (verification s) (unlockTimer s) (watcher s) (pairingStartedAt s) (reads s) x
  (notices s).
Definition set_notices x s : t B F := mk (engine s) (files s) (cachedSettings s) (rendezvous s)
  (peers s) (vaultId s) (activity s) (sessionsInFlight s) (livePeers s) (pendingRendezvous s)
  (updateHeldBack s) (verification s) (unlockTimer s) (watcher s) (pairingStartedAt s) (reads s)
  (made s) x.
End setters.

#[global, refine] Instance engine_part {B F} : Part (t B F) (EngineState.t B) :=
  { part := engine; with_part := set_engine }.
Proof. all: by intros; repeat match goal with s : t _ _ |- _ => destruct s end. Defined.

#[global, refine] Instance files_part {B F} : Part (t B F) F :=
  { part := files; with_part := set_files }.
Proof. all: by intros; repeat match goal with s : t _ _ |- _ => destruct s end. Defined.
End Services.


Section services.
Context `{RowOrder, Digest} {B : Type} `{!BlobStore B} {F : Type} `{!VaultFileAccess F}.
(** The clocks of the engine and of the services, the generators of identifiers,
    the time of day as it is shown, the interpreter, who this device is, and the
    server of the build. *)
Context (engine_clock : nat → Date) (vaultIds revisionIds : nat → string).
Context (clock : nat → Date) (localeTime : Date → string) (conflictIds : nat → string).
Context (interpreter_merge : InterpretationRequest.t KdbxCredentialSet.t → InterpretationResult).
Context (interpreter_diff : InterpretationRequest.t KdbxCredentialSet.t → DiffResult).
Context (keyPair : DeviceKeyPair.t) (deviceName : string) (atRestUnprotected : bool).
Context (defaultServerHost : string).

Abbreviation Run := (M (Services.t B F)).
Abbreviation engine_call := (on (S := Services.t B F) (T := EngineState.t B)).
Abbreviation files_call := (on (S := Services.t B F) (T := F)).
Abbreviation own_id := (DeviceKeyPair.deviceId keyPair).

(** A statement on the database. *)
Definition database {A} (m : M Db.t A) : Run A := engine_call (metadata m).

(** [try] with a [catch]. *)
Definition attempt {A} (m : Run A) (handler : string → Run A) : Run A := λ s,
  match m s with (Ok a, s) => (Ok a, s) | (Err e, s) => handler e s end.

Definition now : Run Date := λ s,
  (Ok (clock (Services.reads s)), Services.set_reads (S (Services.reads s)) s).

Definition notify (notice : Notice) : Run unit :=
  modify (λ s, Services.set_notices (Services.notices s ++ [notice]) s).

Definition onSnapshotChanged : Run unit := notify SnapshotChanged.
Definition onSyncSuggested : Run unit := notify SyncSuggested.

Definition log (message : string) : Run unit :=
  now ≫= λ at_,
  modify (λ s, Services.set_activity
    (take MAX_ACTIVITY ((localeTime at_ +:+ " · " +:+ message) :: Services.activity s)) s).

(** The settings store works on the settings table of the database. *)
Definition settings_call {A} (m : M SettingsStore.t A) : Run A :=
  database (gets Db.settings) ≫= λ table,
  gets Services.cachedSettings ≫= λ cached,
  let '(r, store) := m (SettingsStore.mk table cached) in
  database (modify (Db.set_settings (SettingsStore.table store))) ≫= λ _,
  modify (Services.set_cachedSettings (SettingsStore.cached store)) ≫= λ _,
  lift r.

(** ** Who is reachable *)

Definition peerOpened (peerId : string) : Run unit :=
  gets Services.livePeers ≫= λ live,
  match map_get peerId live with
  | Some _ => mret tt
  | None =>
      modify (Services.set_livePeers (map_set peerId None live)) ≫= λ _, onSnapshotChanged
  end.

Definition peerGone (peerId : string) : Run unit :=
  gets Services.livePeers ≫= λ live,
  match map_get peerId live with
  | None => mret tt
  | Some _ => modify (Services.set_livePeers (map_delete peerId live)) ≫= λ _, onSnapshotChanged
  end.

Definition onlineDeviceIds : Run (list DeviceId) :=
  gets (λ s, set_from (omap snd (Services.livePeers s))).

(** ** Which vault is tracked *)

Definition setActiveVault (vaultId : option VaultId) : Run unit :=
  modify (Services.set_vaultId vaultId) ≫= λ _,
  database (modify (λ d, Db.set_settings
    (match vaultId with
     | None => delete ACTIVE_VAULT_KEY (Db.settings d)
     | Some id => <[ACTIVE_VAULT_KEY := id]> (Db.settings d)
     end) d)).

Definition storedActiveVaultId : Run (option string) :=
  database (gets (λ d, Db.settings d !! ACTIVE_VAULT_KEY)).

Definition requireVaultId : Run VaultId :=
  gets Services.vaultId ≫= λ vaultId,
  match vaultId with Some id => mret id | None => throw "No vault is being tracked." end.

Definition clearHeldBackUpdate : Run unit :=
  modify (Services.set_updateHeldBack false) ≫= λ _, modify (Services.set_unlockTimer false).

Definition watchForUnlock : Run unit := modify (Services.set_unlockTimer true).

(** What is done with a save that was recorded. *)
Definition change_recorded : Run unit :=
  clearHeldBackUpdate ≫= λ _,
  log "You saved changes in KeePassXC." ≫= λ _,
  onSnapshotChanged ≫= λ _,
  onSyncSuggested.

(** [onChange] of the watcher; what it throws is its [onError]. *)
Definition watcher_changed (bytes : Uint8Array) : Run unit :=
  attempt
    (gets Services.vaultId ≫= λ vaultId,
     match vaultId with
     | None => mret tt
     | Some vaultId =>
         engine_call (recordLocalChange engine_clock revisionIds own_id vaultId bytes) ≫= λ result,
         match result with
         | recorded _ => change_recorded
         | unchanged _ => mret tt
         end
     end)
    (λ e, log ("Watching the vault failed: " +:+ e)).

Definition startWatching (kdbxPath : string) : Run unit :=
  modify (Services.set_watcher (if can_watch then Some kdbxPath else None)).

Definition recordFileNow : Run RecordOutcome :=
  gets Services.vaultId ≫= λ vaultId,
  match vaultId with
  | None => mret no_vault
  | Some vaultId =>
      database (getVault vaultId) ≫= λ vault,
      match vault ≫= Vault.kdbxPath with
      | None => mret no_vault
      | Some path =>
          files_call (file_read path) ≫= λ bytes,
          engine_call (recordLocalChange engine_clock revisionIds own_id vaultId bytes) ≫= λ result,
          match result with
          | unchanged _ => mret file_unchanged
          | recorded _ => change_recorded ≫= λ _, mret file_recorded
          end
      end
  end.

(** ** Starting *)

Definition start : Run unit :=
  (if atRestUnprotected
   then log "This system has no keychain, so this device's private key is stored unencrypted. Anyone who can read your files could copy it and impersonate this device."
   else mret tt) ≫= λ _,
  database listVaults ≫= λ vaults,
  storedActiveVaultId ≫= λ stored,
  let active :=
    match find (λ v, bool_decide (Some (Vault.id v) = stored)) vaults with
    | Some vault => Some vault
    | None => last vaults
    end in
  match active with
  | Some vault =>
      setActiveVault (Some (Vault.id vault)) ≫= λ _,
      (match Vault.kdbxPath vault with Some path => startWatching path | None => mret tt end) ≫= λ _,
      log ("Reopened " +:+ Vault.name vault +:+ ".")
  | None => log "Choose a .kdbx vault to begin."
  end.

Definition stop : Run unit :=
  modify (Services.set_watcher None) ≫= λ _,
  modify (Services.set_livePeers []) ≫= λ _,
  modify (λ s, Services.set_peers (Hub.closeAll (Services.peers s)) s).

(** ** The tracked file *)

(** The last part of a path, split at either separator. *)
Definition last_segment (path : string) : string :=
  of_chars (foldr (λ c seg, if bool_decide (charCode c ∈ [47; 92])
                            then (seg.1, true)
                            else if (seg.2 : bool) then seg else (c :: seg.1, false))
              ([], false) (chars path)).1.

Definition bindVault (kdbxPath : string) (displayName : option string) : Run unit :=
  gets Services.vaultId ≫= λ replacing,
  database listVaults ≫= λ vaults,
  match find (λ v, bool_decide (Vault.kdbxPath v = Some kdbxPath)) vaults with
  | Some known =>
      setActiveVault (Some (Vault.id known)) ≫= λ _,
      startWatching kdbxPath ≫= λ _,
      recordFileNow ≫= λ _,
      log ("Back to " +:+ Vault.name known +:+ ".") ≫= λ _,
      onSnapshotChanged
  | None =>
      files_call (file_read kdbxPath) ≫= λ bytes,
      if negb (looksLikeKdbx bytes) then
        (throw (default "That file" displayName
                +:+ " is not a KeePass database. Choose the .kdbx file KeePassXC opens.") : Run unit)
      else
        let name := default (last_segment kdbxPath) displayName in
        engine_call (importVault engine_clock vaultIds revisionIds own_id name bytes (Some kdbxPath))
          ≫= λ '(vault, _),
        setActiveVault (Some (Vault.id vault)) ≫= λ _,
        startWatching kdbxPath ≫= λ _,
        log (match replacing with
             | Some _ => "Now tracking " +:+ name +:+ ". Your other devices stay on the previous file until they switch too."
             | None => "Tracking " +:+ name +:+ ". Its current contents are the first revision."
             end) ≫= λ _,
        onSnapshotChanged
  end.

Definition stopTrackingVault : Run unit :=
  modify (Services.set_watcher None) ≫= λ _,
  clearHeldBackUpdate ≫= λ _,
  setActiveVault None ≫= λ _,
  log "Stopped tracking that file. Its history is kept, and syncing will now offer whatever your other device has." ≫= λ _,
  onSnapshotChanged.

(** Whether the file has the hash; [false] if it cannot be read. *)
Definition file_matches (path : string) (hash : Sha256Hex) : Run bool :=
  attempt (files_call (file_read path) ≫= λ bytes, mret (bool_decide (sha256 bytes = hash)))
    (λ _, mret false).

(** What the services do with the file when the current version is [head]. *)
Definition materialize_head (path : string) (head : Revision.t) : Run unit :=
  file_matches path (Revision.hash head) ≫= λ same,
  if (same : bool) then (clearHeldBackUpdate : Run unit)
  else
    files_call (file_isLocked path) ≫= λ locked,
    if (locked : bool) then
      gets Services.updateHeldBack ≫= λ already,
      (if (already : bool) then (mret tt : Run unit)
       else
         modify (Services.set_updateHeldBack true) ≫= λ _,
         log "KeePassXC has the file open. It will update as soon as you close it." ≫= λ _,
         onSnapshotChanged) ≫= λ _,
      watchForUnlock
    else
      engine_call (bytesOf (Revision.id head)) ≫= λ bytes,
      files_call (file_write path bytes false) ≫= λ _,
      clearHeldBackUpdate ≫= λ _,
      log "Updated the password file on this device." ≫= λ _,
      onSnapshotChanged.

Definition materializeCurrentVersion : Run unit :=
  gets Services.vaultId ≫= λ vaultId,
  match vaultId with
  | None => mret tt
  | Some vaultId =>
      database (getVault vaultId) ≫= λ vault,
      match vault with
      | None => mret tt
      | Some vault =>
          match Vault.kdbxPath vault, Vault.headRevisionId vault with
          | Some path, Some headId =>
              database (getRevision headId) ≫= λ head,
              match head with
              | None => mret tt
              | Some head => materialize_head path head
              end
          | _, _ => mret tt
          end
      end
  end.

(** A beat of the unlock timer; nothing awaits what it throws. *)
Definition unlock_beat : Run unit := attempt materializeCurrentVersion (λ _, mret tt).

(** The vault that is tracked, and the path of its file. *)
Definition tracked_path : Run (option string) :=
  gets Services.vaultId ≫= λ vaultId,
  match vaultId with
  | None => mret None
  | Some vaultId => database (getVault vaultId) ≫= λ vault, mret (vault ≫= Vault.kdbxPath)
  end.

Definition applyPendingUpdate : Run WriteBackOutcome :=
  tracked_path ≫= λ path,
  match path with
  | None => mret (write_failed "No password file is set up on this device.")
  | Some path =>
      files_call (file_isLocked path) ≫= λ locked,
      if (locked : bool) then
        (mret (refused_locked "KeePassXC still has the file open. Close it and try again.") : Run _)
      else materializeCurrentVersion ≫= λ _, mret (written path)
  end.

Definition writeBack (revisionId : RevisionId) (ignoreLock : bool) : Run WriteBackOutcome :=
  gets Services.vaultId ≫= λ vaultId,
  match vaultId with
  | None => mret (write_failed "No vault is being tracked.")
  | Some vaultId =>
      database (getVault vaultId) ≫= λ vault,
      match vault ≫= Vault.kdbxPath with
      | None => mret (write_failed "This vault is not bound to a file on disk.")
      | Some path =>
          attempt
            (engine_call (bytesOf revisionId) ≫= λ bytes,
             files_call (file_write path bytes ignoreLock) ≫= λ outcome,
             match outcome with
             | write_refused reason =>
                 log "Did not write the file — KeePassXC still has it open, and would save its own copy back over it. Close it and try again." ≫= λ _,
                 mret (refused_locked reason)
             | write_done =>
                 log ("Wrote revision " +:+ short revisionId +:+ " to " +:+ path +:+ ".") ≫= λ _,
                 onSnapshotChanged ≫= λ _,
                 mret (written path)
             end)
            (λ e, mret (write_failed e))
      end
  end.

Definition saveVaultAs (kdbxPath : string) : Run WriteBackOutcome :=
  requireVaultId ≫= λ vaultId,
  database (getVault vaultId) ≫= λ vault,
  match vault ≫= Vault.headRevisionId with
  | None => mret (write_failed "This vault has no revision to write yet.")
  | Some head =>
      attempt
        (engine_call (bytesOf head) ≫= λ bytes,
         files_call (file_write kdbxPath bytes true) ≫= λ _,
         engine_call (bindVaultToFile vaultId kdbxPath) ≫= λ _,
         startWatching kdbxPath ≫= λ _,
         log ("Saved your passwords to " +:+ kdbxPath +:+ ". Open that file in KeePassXC.") ≫= λ _,
         onSnapshotChanged ≫= λ _,
         mret (written kdbxPath))
        (λ e, mret (write_failed e))
  end.

Definition promote_version (revisionId : RevisionId) : Run unit :=
  requireVaultId ≫= λ vaultId,
  engine_call (promote engine_clock vaultId revisionId) ≫= λ _,
  log "Put an earlier version back in use." ≫= λ _,
  materializeCurrentVersion ≫= λ _,
  onSnapshotChanged ≫= λ _,
  onSyncSuggested.

(** ** Where peers are met *)

Definition connectionSettings : Run ConnectionSettings.t :=
  settings_call (SettingsStore.get defaultServerHost).

Definition backendUrl : Run string :=
  connectionSettings ≫= λ settings, mret (httpUrlFor (ConnectionSettings.serverHost settings)).

Definition signalUrl : Run string :=
  connectionSettings ≫= λ settings, mret (signalUrlFor (ConnectionSettings.serverHost settings)).

Definition iceServers : Run (list IceServer.t) := settings_call (SettingsStore.iceServers defaultServerHost).

Definition saveConnectionSettings (next : ConnectionSettings.t) : Run ConnectionSettings.t :=
  settings_call (SettingsStore.save next) ≫= λ saved,
  log ("Now meeting other devices through " +:+ ConnectionSettings.serverHost saved +:+ ".") ≫= λ _,
  onSnapshotChanged ≫= λ _,
  mret saved.

(** What creating a code, and reading one, leave behind. *)
Definition pairing_begins (where_ : Rendezvous.t) : Run unit :=
  modify (Services.set_pendingRendezvous (Some where_)) ≫= λ _,
  now ≫= λ at_,
  modify (Services.set_pairingStartedAt (Some at_)).

Definition pairingUnderway : Run bool :=
  gets Services.pairingStartedAt ≫= λ started,
  match started with
  | None => mret false
  | Some started => now ≫= λ at_, mret (at_ - started <? 5 * 60000)
  end.

Definition rememberRendezvous (deviceId : DeviceId) (where_ : Rendezvous.t) : Run unit :=
  now ≫= λ at_,
  modify (λ s, Services.set_rendezvous
    (<[deviceId := RendezvousRow.mk where_ at_]> (Services.rendezvous s)) s).

Definition rendezvousFor (deviceId : DeviceId) : Run (option Rendezvous.t) :=
  gets (λ s, RendezvousRow.where_ <$> Services.rendezvous s !! deviceId) ≫= λ where_,
  match where_ with
  | None => mret None
  | Some where_ => modify (Services.set_pendingRendezvous (Some where_)) ≫= λ _, mret (Some where_)
  end.

(** The rows of [device_rendezvous] joined with the paired devices. *)
Definition standing_rows (devices : gmap string DeviceRow.t) (rows : gmap DeviceId RendezvousRow.t)
    : list (DeviceRow.t * RendezvousRow.t) :=
  omap (λ '(id, row), match devices !! id with
                      | Some d => if decide (DeviceRow.trust d = "paired") then Some (d, row) else None
                      | None => None
                      end) (scan (map_to_list rows)).

Definition standingRendezvous : Run (option (DeviceId * string * Rendezvous.t)) :=
  database (gets Db.devices) ≫= λ devices,
  gets Services.rendezvous ≫= λ rows,
  match order_by_desc (λ r, RendezvousRow.updatedAt r.2) (standing_rows devices rows) with
  | [] => mret None
  | (device, row) :: _ =>
      let where_ := RendezvousRow.where_ row in
      modify (Services.set_pendingRendezvous (Some where_)) ≫= λ _,
      mret (Some (DeviceRow.id device, DeviceRow.name device, where_))
  end.

Definition sasFor (peerPublicKey : Uint8Array) : string :=
  shortAuthenticationString (DeviceKeyPair.publicKey keyPair) peerPublicKey.

(** ** Verifying a new device *)

(** [None]: the promise is there at once, with [false]. *)
Definition awaitPairingConfirmation (deviceId : DeviceId) (publicKey : Uint8Array) (name : string)
    : Run (option nat) :=
  gets Services.verification ≫= λ waiting,
  match waiting with
  | Some _ => mret None
  | None =>
      gets Services.made ≫= λ promise,
      modify (Services.set_made (S promise)) ≫= λ _,
      modify (Services.set_verification
        (Some (Verification.mk deviceId name (sasFor publicKey) promise))) ≫= λ _,
      log ("Check the six-digit number shown on " +:+ name +:+ " matches the one here.") ≫= λ _,
      onSnapshotChanged ≫= λ _,
      mret (Some promise)
  end.

Definition settleVerification (confirmed : bool) (message : string) : Run unit :=
  gets Services.verification ≫= λ waiting,
  match waiting with
  | None => mret tt
  | Some waiting =>
      modify (Services.set_verification None) ≫= λ _,
      notify (Confirmed (Verification.promise waiting) confirmed) ≫= λ _,
      log message ≫= λ _,
      onSnapshotChanged
  end.

Definition answerVerification (confirmed : bool) : Run unit :=
  gets Services.verification ≫= λ waiting,
  match waiting with
  | None => mret tt
  | Some waiting =>
      settleVerification confirmed
        (if confirmed
         then "You confirmed the numbers matched. " +:+ Verification.peerName waiting +:+ " is connected."
         else "You said the numbers did not match, so " +:+ Verification.peerName waiting +:+ " was refused.")
  end.

(** The timer of a verification, if it was not cleared. *)
Definition verification_timer (promise : nat) : Run unit :=
  gets Services.verification ≫= λ waiting,
  if decide (Verification.promise <$> waiting = Some promise)
  then settleVerification false "The connection was not confirmed in time. Try again."
  else (mret tt : Run unit).

(** ** The device list *)

Definition disconnectDevice (deviceId : DeviceId) : Run unit :=
  database (ts_revoke deviceId) ≫= λ _,
  log ("Disconnected " +:+ short deviceId +:+ ". Reconnect it any time from the Devices tab.") ≫= λ _,
  onSnapshotChanged.

Definition reconnectDevice (deviceId : DeviceId) : Run unit :=
  database (ts_get deviceId) ≫= λ known,
  match known with
  | None => throw "That device is no longer known to this one. Connect it again."
  | Some known =>
      database (ts_pair (PairedDevice.deviceId known) (PairedDevice.publicKey known)
        (PairedDevice.name known) (PairedDevice.pairedAt known)) ≫= λ _,
      log ("Reconnected " +:+ PairedDevice.name known +:+ ".") ≫= λ _,
      onSnapshotChanged
  end.

Definition forgetDevice (deviceId : DeviceId) : Run unit :=
  database (ts_get deviceId) ≫= λ known,
  modify (λ s, Services.set_rendezvous (delete deviceId (Services.rendezvous s)) s) ≫= λ _,
  database (modify (λ d, Db.set_devices (delete deviceId (Db.devices d)) d)) ≫= λ _,
  log ("Forgot " +:+ default (short deviceId) (PairedDevice.name <$> known)
       +:+ ". Connecting it again starts from scratch.") ≫= λ _,
  onSnapshotChanged.

(** ** Conflicts *)

Definition openConflictFor (vaultId : VaultId) (incomingRevisionId : RevisionId) : Run ConflictId :=
  database (getVault vaultId) ≫= λ vault,
  (match vault ≫= Vault.headRevisionId with
   | None => mret None
   | Some head => database (getRevision head)
   end) ≫= λ current,
  database (getRevision incomingRevisionId) ≫= λ incoming,
  match vault, current, incoming with
  | Some vault, Some current, Some incoming =>
      database (listOpenConflicts vaultId) ≫= λ existing,
      match find (λ c, bool_decide (Conflict.currentRevisionId c = Revision.id current ∧
                                    Conflict.incomingRevisionId c = Revision.id incoming)) existing with
      | Some already => mret (Conflict.id already)
      | None =>
          gets Services.made ≫= λ n,
          modify (Services.set_made (S n)) ≫= λ _,
          now ≫= λ at_,
          lift (openConflict (conflictIds n) vault current incoming at_) ≫= λ conflict,
          database (saveConflict conflict) ≫= λ _,
          log "Both devices changed the file while they were apart. Nothing is lost — combine them on the Home tab to keep every change." ≫= λ _,
          mret (Conflict.id conflict)
      end
  | _, _, _ => throw "cannot record a conflict without both revisions"
  end.

Definition decision_of (decision : Decision3) : ConflictDecision.t :=
  match decision with
  | keeps_current => ConflictDecision.keep_current
  | switches_incoming => ConflictDecision.switch_incoming
  | saves_both => ConflictDecision.save_both
  end.

Definition resolveConflict (conflictId : ConflictId) (decision : Decision3) : Run unit :=
  requireVaultId ≫= λ vaultId,
  database (listOpenConflicts vaultId) ≫= λ open,
  match find (λ c, bool_decide (Conflict.id c = conflictId)) open with
  | None => mret tt
  | Some conflict =>
      (match decision with
       | switches_incoming =>
           engine_call (promote engine_clock vaultId (Conflict.incomingRevisionId conflict)) ≫= λ _, mret tt
       | _ => mret tt
       end) ≫= λ _,
      now ≫= λ at_,
      lift (recordConflictDecision conflict (decision_of decision) at_) ≫= λ decided,
      database (saveConflict decided) ≫= λ _,
      log (match decision with
           | switches_incoming => "Switched to the other device's version on this device only."
           | keeps_current => "Kept this device's version. The other device still has its own."
           | saves_both => "Left both versions in the history."
           end) ≫= λ _,
      materializeCurrentVersion ≫= λ _,
      onSnapshotChanged
  end.

(** ** Merging *)

Definition summary_of (diff : VaultDiff.t) : DiffSummary.t :=
  {| DiffSummary.addedEntries := length (VaultDiff.addedEntries diff);
     DiffSummary.removedEntries := length (VaultDiff.removedEntries diff);
     DiffSummary.changedEntries := length (VaultDiff.changedEntries diff);
     DiffSummary.addedGroups := length (VaultDiff.addedGroups diff);
     DiffSummary.removedGroups := length (VaultDiff.removedGroups diff);
     DiffSummary.changedGroups := length (VaultDiff.changedGroups diff) |}.

Definition previewMerge (baseRevisionId : RevisionId) (incomingRevisionIds : list RevisionId)
    (password : string) : Run (DiffSummary.t + string) :=
  requireVaultId ≫= λ vaultId,
  engine_call (previewDiff interpreter_diff vaultId baseRevisionId incomingRevisionIds
    (uniformCredentials password (length incomingRevisionIds))) ≫= λ result,
  mret (match result with
        | ready diff => inl (summary_of diff)
        | diff_outcome_failed reason | diff_outcome_needs_credentials reason => inr reason
        end).

Definition merge_versions (baseRevisionId : RevisionId) (incomingRevisionIds : list RevisionId)
    (password : string) : Run MergeOutcomeSummary :=
  requireVaultId ≫= λ vaultId,
  engine_call (merge engine_clock revisionIds own_id interpreter_merge vaultId baseRevisionId
    incomingRevisionIds (uniformCredentials password (length incomingRevisionIds)) None) ≫= λ result,
  match result with
  | merge_outcome_needs_credentials reason => mret (summary_needs_credentials reason)
  | merge_outcome_failed reason =>
      log ("Merge failed: " +:+ reason) ≫= λ _, mret (summary_failed reason)
  | merged revision =>
      log "Combined both sets of changes into a new version." ≫= λ _,
      onSnapshotChanged ≫= λ _,
      mret (merged_summary (Revision.id revision))
  end.

(** The loop that records that the open conflicts were merged. *)
Definition merged_conflict (conflict : Conflict.t) : Run unit :=
  now ≫= λ at_,
  lift (recordConflictDecision conflict ConflictDecision.try_merge at_) ≫= λ decided,
  database (saveConflict decided).

Definition combineAndUse (otherVersionId : RevisionId) (password : string) : Run MergeOutcomeSummary :=
  requireVaultId ≫= λ vaultId,
  database (getVault vaultId) ≫= λ vault,
  match vault ≫= Vault.headRevisionId with
  | None => mret (summary_failed "There is no current version to combine with.")
  | Some head =>
      merge_versions head [otherVersionId] password ≫= λ outcome,
      match outcome with
      | merged_summary revisionId =>
          engine_call (promote engine_clock vaultId revisionId) ≫= λ _,
          database (listOpenConflicts vaultId) ≫= λ conflicts,
          for_each conflicts merged_conflict ≫= λ _,
          log "Using the combined version. Both devices' changes are kept." ≫= λ _,
          materializeCurrentVersion ≫= λ _,
          onSnapshotChanged ≫= λ _,
          onSyncSuggested ≫= λ _,
          mret outcome
      | _ => mret outcome
      end
  end.

(** ** Sessions *)

(** [runSession], to the call of [run]. *)
Definition session_starts (peerId : string) (pairingMode : bool) : Run (SessionInput.t + SyncOutcome) :=
  gets Services.sessionsInFlight ≫= λ running,
  if decide (peerId ∈ running) then
    (mret (inr (sync_failed "A sync with that device is already running.")) : Run _)
  else
    modify (Services.set_sessionsInFlight (set_add running peerId)) ≫= λ _,
    gets Services.peers ≫= λ hub,
    let '(hub, link) := Hub.createLink peerId hub in
    modify (Services.set_peers hub) ≫= λ _,
    gets Services.vaultId ≫= λ vaultId,
    mret (inl (SessionInput.mk peerId link vaultId pairingMode
                 (if pairingMode then Some (5 * 60000) else None))).

(** [onPeerInitiated]. *)
Definition on_peer_initiated (peerId : string) : Run (option (SessionInput.t + SyncOutcome)) :=
  gets Services.sessionsInFlight ≫= λ running,
  if decide (peerId ∈ running) then (mret None : Run _)
  else pairingUnderway ≫= λ pairing, session_starts peerId pairing ≫= λ started, mret (Some started).

(** [onEvent]. *)
Definition session_event (peerId : string) (event : SessionEvent) : Run unit :=
  match event with
  | authenticated_event remoteDeviceId =>
      log ("Authenticated " +:+ short remoteDeviceId +:+ ".") ≫= λ _,
      gets Services.pendingRendezvous ≫= λ where_,
      (match where_ with
       | Some where_ => rememberRendezvous remoteDeviceId where_
       | None => mret tt
       end) ≫= λ _,
      gets Services.livePeers ≫= λ live,
      match map_get peerId live with
      | Some _ =>
          modify (Services.set_livePeers (map_set peerId (Some remoteDeviceId) live)) ≫= λ _,
          onSnapshotChanged
      | None => mret tt
      end
  | adopted_vault vaultId name =>
      setActiveVault (Some vaultId) ≫= λ _,
      log ("Joined " +:+ quotation +:+ name +:+ quotation +:+ " from the paired device.")
  | _ => mret tt
  end.

(** What a session that ran to its end leads to. *)
Definition session_result (result : SessionResult.t) : Run SyncOutcome :=
  let vaultId := SessionResult.vaultId result in
  let count (l : list RevisionId) := Z.of_nat (length l) in
  setActiveVault (Some vaultId) ≫= λ _,
  log (describeSync (Remote.name (SessionResult.remoteDevice result))
    (count (SessionResult.received result)) (count (SessionResult.sent result))
    (count (SessionResult.missing result))) ≫= λ _,
  (match SessionResult.remoteHead result, SessionResult.divergence result with
   | Some remoteHead, diverged _ =>
       openConflictFor vaultId remoteHead ≫= λ id, mret (Some id)
   | Some remoteHead, remote_ahead =>
       engine_call (fastForward engine_clock vaultId remoteHead) ≫= λ _,
       log "Brought this device up to date." ≫= λ _,
       materializeCurrentVersion ≫= λ _,
       mret None
   | _, _ => mret None
   end) ≫= λ conflictId,
  onSnapshotChanged ≫= λ _,
  mret (completed (count (SessionResult.received result)) (count (SessionResult.sent result))
          (SessionResult.divergence result) conflictId).

(** The [catch]: the message of the error, and its code if a session threw it. *)
Definition session_failure (message : string) (code : option SessionCode) : Run SyncOutcome :=
  let explained := explainFailure message code in
  log explained ≫= λ _,
  onSnapshotChanged ≫= λ _,
  mret (sync_failed explained).

(** The [finally]. *)
Definition session_cleanup (peerId : string) : Run unit :=
  settleVerification false "The other device disconnected before you confirmed." ≫= λ _,
  modify (λ s, Services.set_sessionsInFlight (set_delete (Services.sessionsInFlight s) peerId) s) ≫= λ _,
  modify (λ s, Services.set_peers (Hub.closeLink peerId (Services.peers s)) s).

(** The end of a session: what [run] gave, or what it threw. *)
Definition session_ends (peerId : string) (ending : SessionResult.t + SessionError.t) : Run SyncOutcome :=
  (match ending with
   | inl result => attempt (session_result result) (λ e, session_failure e None)
   | inr error => session_failure (SessionError.message error) (Some (SessionError.code error))
   end) ≫= λ outcome,
  session_cleanup peerId ≫= λ _,
  mret outcome.
End services.
