(* ===== verification/ServicesTheory.v ===== *)
(** * The services: steps and what they leave alone *)

From S2P Require Import Prelude Model Bytes JsString Json JsMap Dag Lineage Protocol Effects Store.
From S2P Require Import BlobStore Engine Inbox Identity Session ShortCode Settings Hub VaultFile Explain Kdbx.
From S2P Require Import Services.
From Stdlib Require String.

Open Scope Z_scope.

(** ** Relations that operations keep *)

Section keeps.
Context {S : Type} (P : S → S → Prop) `{!PreOrder P}.

Definition keeps {A} (m : M S A) : Prop := ∀ s, P s (m s).2.

Lemma keeps_ret {A} (a : A) : keeps (mret a).
Proof. intros s. reflexivity. Qed.

Lemma keeps_throw {A} e : keeps (throw e : M S A).
Proof. intros s. reflexivity. Qed.

Lemma keeps_lift {A} (r : result A) : keeps (lift r).
Proof. intros s. reflexivity. Qed.

Lemma keeps_gets {A} (f : S → A) : keeps (gets f).
Proof. intros s. reflexivity. Qed.

Lemma kept_modify f : (∀ s, P s (f s)) → keeps (modify f).
Proof. intros Hf s. apply Hf. Qed.

Lemma kept_bind {A C} (m : M S A) (k : A → M S C) : keeps m → (∀ a, keeps (k a)) → keeps (m ≫= k).
Proof.
  intros Hm Hk s. unfold mbind, M_bind. specialize (Hm s). destruct (m s) as [[a|e] s']; [|done].
  etrans; [exact Hm|]. apply Hk.
Qed.

Lemma keeps_each {A} (l : list A) (f : A → M S unit) : (∀ x, keeps (f x)) → keeps (for_each l f).
Proof. intros Hf. induction l; simpl; [apply keeps_ret|]. by apply kept_bind. Qed.
End keeps.

(** ** Every operation as a step *)

Inductive ServiceStep : Type :=
  | StartsUp
  | StopsDown
  | OpensPeer (peerId : string)
  | LosesPeer (peerId : string)
  | BindsVault (kdbxPath : string) (displayName : option string)
  | StopsTracking
  | RecordsFile
  | WatcherReports (bytes : Uint8Array)
  | UnlockBeats
  | AppliesUpdate
  | WritesBack (revisionId : RevisionId) (ignoreLock : bool)
  | SavesAs (kdbxPath : string)
  | Promotes (revisionId : RevisionId)
  | ReadsSettings
  | SavesSettings (next : ConnectionSettings.t)
  | BeginsPairing (where_ : Rendezvous.t)
  | AsksRendezvous (deviceId : DeviceId)
  | AsksStanding
  | AsksPerson (deviceId : DeviceId) (publicKey : Uint8Array) (name : string)
  | Answers (confirmed : bool)
  | VerificationTimer (promise : nat)
  | Disconnects (deviceId : DeviceId)
  | Reconnects (deviceId : DeviceId)
  | Forgets (deviceId : DeviceId)
  | ResolvesConflict (conflictId : ConflictId) (decision : Decision3)
  | PreviewsMerge (base : RevisionId) (incoming : list RevisionId) (password : string)
  | Merges (base : RevisionId) (incoming : list RevisionId) (password : string)
  | Combines (other : RevisionId) (password : string)
  | StartsSession (peerId : string) (pairingMode : bool)
  | PeerInitiates (peerId : string)
  | SessionHas (peerId : string) (event : SessionEvent)
  | EndsSession (peerId : string) (ending : SessionResult.t + SessionError.t).

Section services.
Context `{RowOrder, Digest} {B : Type} `{!BlobStore B} {F : Type} `{!VaultFileAccess F}.
Context (engine_clock : nat → Date) (vaultIds revisionIds : nat → string).
Context (clock : nat → Date) (localeTime : Date → string) (conflictIds : nat → string).
Context (interpreter_merge : InterpretationRequest.t KdbxCredentialSet.t → InterpretationResult).
Context (interpreter_diff : InterpretationRequest.t KdbxCredentialSet.t → DiffResult).
Context (keyPair : DeviceKeyPair.t) (atRestUnprotected : bool).
Context (defaultServerHost : string).
Implicit Types s : Services.t B F.
Abbreviation Run := (M (Services.t B F)).

Definition perform (step : ServiceStep) s : Services.t B F :=
  match step with
  | StartsUp => (start clock localeTime atRestUnprotected s).2
  | StopsDown => (stop s).2
  | OpensPeer p => (peerOpened p s).2
  | LosesPeer p => (peerGone p s).2
  | BindsVault path name => (bindVault engine_clock vaultIds revisionIds clock localeTime keyPair path name s).2
  | StopsTracking => (stopTrackingVault clock localeTime s).2
  | RecordsFile => (recordFileNow engine_clock revisionIds clock localeTime keyPair s).2
  | WatcherReports bytes => (watcher_changed engine_clock revisionIds clock localeTime keyPair bytes s).2
  | UnlockBeats => (unlock_beat clock localeTime s).2
  | AppliesUpdate => (applyPendingUpdate clock localeTime s).2
  | WritesBack i ignoreLock => (writeBack clock localeTime i ignoreLock s).2
  | SavesAs path => (saveVaultAs clock localeTime path s).2
  | Promotes i => (promote_version engine_clock clock localeTime i s).2
  | ReadsSettings => (connectionSettings defaultServerHost s).2
  | SavesSettings next => (saveConnectionSettings clock localeTime next s).2
  | BeginsPairing where_ => (pairing_begins clock where_ s).2
  | AsksRendezvous d => (rendezvousFor d s).2
  | AsksStanding => (standingRendezvous s).2
  | AsksPerson d key name => (awaitPairingConfirmation clock localeTime keyPair d key name s).2
  | Answers confirmed => (answerVerification clock localeTime confirmed s).2
  | VerificationTimer promise => (verification_timer clock localeTime promise s).2
  | Disconnects d => (disconnectDevice clock localeTime d s).2
  | Reconnects d => (reconnectDevice clock localeTime d s).2
  | Forgets d => (forgetDevice clock localeTime d s).2
  | ResolvesConflict c decision => (resolveConflict engine_clock clock localeTime c decision s).2
  | PreviewsMerge base incoming password => (previewMerge interpreter_diff base incoming password s).2
  | Merges base incoming password =>
      (merge_versions engine_clock revisionIds clock localeTime interpreter_merge keyPair base incoming password s).2
  | Combines other password =>
      (combineAndUse engine_clock revisionIds clock localeTime interpreter_merge keyPair other password s).2
  | StartsSession p pairingMode => (session_starts p pairingMode s).2
  | PeerInitiates p => (on_peer_initiated clock p s).2
  | SessionHas p event => (session_event clock localeTime p event s).2
  | EndsSession p ending => (session_ends engine_clock clock localeTime conflictIds p ending s).2
  end.

(** What holds of the services: no log without end, the timer runs exactly while
    an update is held back, and one session a peer. *)
Record services_ok s : Prop := ServicesOk {
  ok_activity : (length (Services.activity s) <= MAX_ACTIVITY)%nat;
  ok_timer : Services.unlockTimer s = Services.updateHeldBack s;
  ok_sessions : NoDup (Services.sessionsInFlight s);
}.

(** A part of the services that leaves the verification, the pairing and the
    sessions alone, and resolves no promise. *)
Record undisturbed s s' : Prop := Undisturbed {
  un_verification : Services.verification s' = Services.verification s;
  un_pairing : Services.pairingStartedAt s' = Services.pairingStartedAt s;
  un_sessions : Services.sessionsInFlight s' = Services.sessionsInFlight s;
  un_notices : ∃ new, Services.notices s' = Services.notices s ++ new ∧
    Forall (λ n, ∀ promise answer, n ≠ Confirmed promise answer) new;
  un_activity : (length (Services.activity s) <= MAX_ACTIVITY)%nat →
    (length (Services.activity s') <= MAX_ACTIVITY)%nat;
  un_timer : Services.unlockTimer s = Services.updateHeldBack s →
    Services.unlockTimer s' = Services.updateHeldBack s';
}.

#[global] Instance undisturbed_preorder : PreOrder undisturbed.
Proof.
  split.
  - intros s. split; try done. exists []. by rewrite app_nil_r.
  - intros s1 s2 s3 [? ? ? (n1 & Hn1 & Hf1) ? ?] [? ? ? (n2 & Hn2 & Hf2) ? ?]. split; try congruence; auto.
    exists (n1 ++ n2). split; [by rewrite Hn2, Hn1, app_assoc|by apply Forall_app].
Qed.

Lemma undisturbed_same s s' :
  Services.verification s' = Services.verification s →
  Services.pairingStartedAt s' = Services.pairingStartedAt s →
  Services.sessionsInFlight s' = Services.sessionsInFlight s → Services.notices s' = Services.notices s →
  Services.activity s' = Services.activity s → Services.unlockTimer s' = Services.unlockTimer s →
  Services.updateHeldBack s' = Services.updateHeldBack s → undisturbed s s'.
Proof.
  intros ? ? ? Hn Ha Ht Hu. split; try done.
  - exists []. by rewrite app_nil_r.
  - by rewrite Ha.
  - by rewrite Ht, Hu.
Qed.

Abbreviation calm := (keeps undisturbed).

Lemma calm_part {T A} `{Part (Services.t B F) T} (m : M T A) :
  (∀ t s, undisturbed s (with_part t s)) → calm (on m : Run A).
Proof. intros Hp s. unfold on. destruct (m (part s)) as [r t]. apply Hp. Qed.

Lemma calm_engine {A} (m : M (EngineState.t B) A) : calm (on m : Run A).
Proof. apply calm_part. intros t s. by apply undisturbed_same. Qed.

Lemma calm_files {A} (m : M F A) : calm (on m : Run A).
Proof. apply calm_part. intros t s. by apply undisturbed_same. Qed.

Lemma calm_database {A} (m : M Db.t A) : calm (database m : Run A).
Proof. apply calm_engine. Qed.

Lemma calm_attempt {A} (m : Run A) handler : calm m → (∀ e, calm (handler e)) → calm (attempt m handler).
Proof.
  intros Hm Hh s. unfold attempt. specialize (Hm s). destruct (m s) as [[a|e] s']; [done|].
  etrans; [exact Hm|]. apply Hh.
Qed.

Lemma calm_now : calm (now clock).
Proof. intros s. by apply undisturbed_same. Qed.

Lemma taken {A} (l : list A) : (length (take MAX_ACTIVITY l) <= MAX_ACTIVITY)%nat.
Proof. rewrite length_take. lia. Qed.

Lemma calm_log message : calm (log clock localeTime message).
Proof.
  intros s. unfold log, now, mbind, M_bind, modify. cbn [fst snd]. split; try done.
  - exists []. by rewrite app_nil_r.
  - intros _. apply taken.
Qed.

Lemma calm_notify notice : (∀ promise answer, notice ≠ Confirmed promise answer) → calm (notify notice).
Proof. intros Hn s. split; try done. exists [notice]. split; [done|by repeat constructor]. Qed.

Lemma calm_settings {A} (m : M SettingsStore.t A) : calm (settings_call m : Run A).
Proof.
  unfold settings_call. apply kept_bind; [apply _|apply calm_database|]. intros table.
  apply kept_bind; [apply _|by apply keeps_gets, _|]. intros cached.
  destruct (m (SettingsStore.mk table cached)) as [r store].
  apply kept_bind; [apply _|apply calm_database|]. intros _.
  apply kept_bind; [apply _|apply kept_modify; intros s; by apply undisturbed_same|]. intros _.
  apply keeps_lift, _.
Qed.

Lemma calm_clear : calm (clearHeldBackUpdate (B := B) (F := F)).
Proof. intros s. split; try done. exists []. by rewrite app_nil_r. Qed.

(** The lock is held: what is kept. *)
Definition hold_back : Run unit :=
  gets Services.updateHeldBack ≫= λ already,
  (if (already : bool) then (mret tt : Run unit)
   else
     modify (Services.set_updateHeldBack true) ≫= λ _,
     log clock localeTime "KeePassXC has the file open. It will update as soon as you close it." ≫= λ _,
     onSnapshotChanged) ≫= λ _,
  watchForUnlock.

Lemma calm_hold_back : calm hold_back.
Proof.
  intros s. unfold hold_back, mbind, M_bind, gets, modify, log, now, onSnapshotChanged, notify, watchForUnlock,
    modify. cbn [fst snd]. destruct (Services.updateHeldBack s) eqn:Hheld; cbn [fst snd mret M_ret].
  - split; try done. exists []. by rewrite app_nil_r.
  - split; try done; [|intros _; apply taken].
    eexists. split; [reflexivity|]. by repeat constructor.
Qed.
End services.

Create HintDb calm discriminated.

(** Takes a calm operation apart. *)
Ltac calm_step :=
  lazymatch goal with
  | |- keeps _ (database _) => apply calm_database
  | |- keeps _ (on _) => first [apply calm_engine | apply calm_files]
  | |- keeps _ (log _ _ _) => apply calm_log
  | |- keeps _ (now _) => apply calm_now
  | |- keeps _ (settings_call _) => apply calm_settings
  | |- keeps _ clearHeldBackUpdate => apply calm_clear
  | |- keeps _ onSnapshotChanged => apply calm_notify; discriminate
  | |- keeps _ onSyncSuggested => apply calm_notify; discriminate
  | |- keeps _ (notify _) => apply calm_notify; discriminate
  | |- keeps _ (mret _) => apply keeps_ret; apply _
  | |- keeps _ (throw _) => apply keeps_throw; apply _
  | |- keeps _ (lift _) => apply keeps_lift; apply _
  | |- keeps _ (gets _) => apply keeps_gets; apply _
  | |- keeps _ (modify _) => apply kept_modify; intros ?; apply undisturbed_same; reflexivity
  | |- keeps _ (attempt _ _) => apply calm_attempt; [|intros ?]
  | |- keeps _ (for_each _ _) => apply keeps_each; [apply _|intros ?]
  | |- keeps _ (_ ≫= _) => apply kept_bind; [apply _| |intros ?]
  | |- keeps _ (match _ with _ => _ end) => case_match
  | |- keeps _ (let _ := _ in _) => cbv zeta
  | |- keeps _ _ => solve [auto 2 with calm]
  end.
Ltac calm := repeat calm_step.

Section operations.
Context `{RowOrder, Digest} {B : Type} `{!BlobStore B} {F : Type} `{!VaultFileAccess F}.
Context (engine_clock : nat → Date) (vaultIds revisionIds : nat → string).
Context (clock : nat → Date) (localeTime : Date → string) (conflictIds : nat → string).
Context (interpreter_merge : InterpretationRequest.t KdbxCredentialSet.t → InterpretationResult).
Context (interpreter_diff : InterpretationRequest.t KdbxCredentialSet.t → DiffResult).
Context (keyPair : DeviceKeyPair.t) (atRestUnprotected : bool).
Context (defaultServerHost : string).
Implicit Types s : Services.t B F.
Abbreviation calm := (keeps (undisturbed (B := B) (F := F))).

Lemma calm_setActiveVault v : calm (setActiveVault v).
Proof. unfold setActiveVault. calm. Qed.
#[local] Hint Resolve calm_setActiveVault : calm.

Lemma calm_startWatching path : calm (startWatching path).
Proof. unfold startWatching. calm. Qed.
#[local] Hint Resolve calm_startWatching : calm.

Lemma calm_requireVaultId : calm requireVaultId.
Proof. unfold requireVaultId. calm. Qed.
#[local] Hint Resolve calm_requireVaultId : calm.

Lemma calm_changed : calm (change_recorded clock localeTime).
Proof. unfold change_recorded. calm. Qed.
#[local] Hint Resolve calm_changed : calm.

Lemma calm_watcher bytes : calm (watcher_changed engine_clock revisionIds clock localeTime keyPair bytes).
Proof. unfold watcher_changed. calm. Qed.

Lemma calm_recordFileNow : calm (recordFileNow engine_clock revisionIds clock localeTime keyPair).
Proof. unfold recordFileNow. calm. Qed.
#[local] Hint Resolve calm_recordFileNow : calm.

Lemma calm_start : calm (start clock localeTime atRestUnprotected).
Proof. unfold start, storedActiveVaultId. calm. Qed.

Lemma calm_file_matches path hash : calm (file_matches path hash).
Proof. unfold file_matches. calm. Qed.
#[local] Hint Resolve calm_file_matches : calm.

Lemma calm_materialize_head path head : calm (materialize_head clock localeTime path head).
Proof.
  unfold materialize_head. apply kept_bind; [apply _|apply calm_file_matches|]. intros [|]; [calm|].
  apply kept_bind; [apply _|calm|]. intros [|]; [apply calm_hold_back|calm].
Qed.
#[local] Hint Resolve calm_materialize_head : calm.

Lemma calm_materialize : calm (materializeCurrentVersion clock localeTime).
Proof. unfold materializeCurrentVersion. calm. Qed.
#[local] Hint Resolve calm_materialize : calm.

Lemma calm_bindVault path name :
  calm (bindVault engine_clock vaultIds revisionIds clock localeTime keyPair path name).
Proof. unfold bindVault. calm. Qed.

Lemma calm_stopTracking : calm (stopTrackingVault clock localeTime).
Proof. unfold stopTrackingVault. calm. Qed.

Lemma calm_unlock_beat : calm (unlock_beat clock localeTime).
Proof. unfold unlock_beat. calm. Qed.

Lemma calm_tracked_path : calm tracked_path.
Proof. unfold tracked_path. calm. Qed.
#[local] Hint Resolve calm_tracked_path : calm.

Lemma calm_applyPendingUpdate : calm (applyPendingUpdate clock localeTime).
Proof. unfold applyPendingUpdate. calm. Qed.

Lemma calm_writeBack i ignoreLock : calm (writeBack clock localeTime i ignoreLock).
Proof. unfold writeBack. calm. Qed.

Lemma calm_saveVaultAs path : calm (saveVaultAs clock localeTime path).
Proof. unfold saveVaultAs. calm. Qed.

Lemma calm_promote i : calm (promote_version engine_clock clock localeTime i).
Proof. unfold promote_version. calm. Qed.

Lemma calm_saveSettings next : calm (saveConnectionSettings clock localeTime next).
Proof. unfold saveConnectionSettings. calm. Qed.

Lemma calm_rendezvousFor d : calm (rendezvousFor d).
Proof. unfold rendezvousFor. calm. Qed.

Lemma calm_standing : calm standingRendezvous.
Proof. unfold standingRendezvous. calm. Qed.

Lemma calm_disconnect d : calm (disconnectDevice clock localeTime d).
Proof. unfold disconnectDevice. calm. Qed.

Lemma calm_reconnect d : calm (reconnectDevice clock localeTime d).
Proof. unfold reconnectDevice. calm. Qed.

Lemma calm_forget d : calm (forgetDevice clock localeTime d).
Proof. unfold forgetDevice. calm. Qed.

Lemma calm_openConflict v i : calm (openConflictFor clock localeTime conflictIds v i).
Proof. unfold openConflictFor. calm. Qed.
#[local] Hint Resolve calm_openConflict : calm.

Lemma calm_resolve c decision : calm (resolveConflict engine_clock clock localeTime c decision).
Proof. unfold resolveConflict. calm. Qed.

Lemma calm_preview base incoming password : calm (previewMerge interpreter_diff base incoming password).
Proof. unfold previewMerge. calm. Qed.

Lemma calm_merge base incoming password :
  calm (merge_versions engine_clock revisionIds clock localeTime interpreter_merge keyPair base incoming password).
Proof. unfold merge_versions. calm. Qed.
#[local] Hint Resolve calm_merge : calm.

Lemma calm_merged_conflict c : calm (merged_conflict clock c).
Proof. unfold merged_conflict. calm. Qed.
#[local] Hint Resolve calm_merged_conflict : calm.

Lemma calm_combine other password :
  calm (combineAndUse engine_clock revisionIds clock localeTime interpreter_merge keyPair other password).
Proof. unfold combineAndUse. calm. Qed.

Lemma calm_remember d where_ : calm (rememberRendezvous clock d where_).
Proof. unfold rememberRendezvous. calm. Qed.
#[local] Hint Resolve calm_remember : calm.

Lemma calm_session_event p event : calm (session_event clock localeTime p event).
Proof. unfold session_event. calm. Qed.

Lemma calm_session_result result : calm (session_result engine_clock clock localeTime conflictIds result).
Proof. unfold session_result. calm. Qed.
#[local] Hint Resolve calm_session_result : calm.

Lemma calm_failure message code : calm (session_failure clock localeTime message code).
Proof. unfold session_failure. calm. Qed.
#[local] Hint Resolve calm_failure : calm.

Lemma calm_peers p : calm (peerOpened p) ∧ calm (peerGone p).
Proof. unfold peerOpened, peerGone. split; calm. Qed.

Lemma calm_stop : calm stop.
Proof. unfold stop. calm. Qed.
End operations.
