(* ===== verification/Desk.v ===== *)
(** * A desktop to try the services on

    Concrete parameters of the services: a digest, files without failures whose
    lock is a file beside them, identifiers, clocks and an interpreter; and the
    first states of a device that tracks a vault. *)

From S2P Require Import Prelude Model Bytes JsString Json JsMap Dag Lineage Protocol Effects Store StoreTheory StoreProps.
From S2P Require Import BlobStore BlobProps Engine EngineTheory EngineSteps EngineProps Inbox Identity Session ShortCode.
From S2P Require Import Settings Hub VaultFile VaultFileProps Explain Kdbx Services ServicesTheory.
From Stdlib Require String.

Open Scope Z_scope.

(** The first thirty-two bytes. *)
#[refine] Definition first_bytes : Digest := {| digest bytes := take 32 (bytes ++ replicate 32 Byte.x00) |}.
Proof. intros bytes. rewrite length_take, length_app, length_replicate. lia. Defined.

#[local] Existing Instance insertion_order.
#[local] Existing Instance first_bytes.

Module Desk.
(** Whether KeePassXC has the file open is decided by each use. *)
Definition held (open : bool) (n : nat) (path : string) : bool := open.
Definition fails (n : nat) : bool := false.
Definition partial (n : nat) : nat := 0.
Definition uuid (n : nat) : string := "v" +:+ Device.ids n.
Definition localeTime (t : Date) : string := "12:00:00".
Definition interpret (request : InterpretationRequest.t KdbxCredentialSet.t) : InterpretationResult :=
  merge_succeeded (RevisionMaterial.bytes (InterpretationRequest.local _ request)
    ++ mjoin (RevisionMaterial.bytes <$> InterpretationRequest.incoming _ request)) [].
Definition diff (request : InterpretationRequest.t KdbxCredentialSet.t) : DiffResult := diff_ready emptyVaultDiff.
Definition own : DeviceKeyPair.t := {| DeviceKeyPair.deviceId := "this"; DeviceKeyPair.publicKey := [];
  DeviceKeyPair.privateKey := [] |}.
Definition path : string := "/home/me/work.kdbx".
(** The eight bytes of a KDBX file, and one more. *)
Definition kdbx (b : Byte.byte) : Uint8Array :=
  [Byte.x03; Byte.xd9; Byte.xa2; Byte.x9a; Byte.x67; Byte.xfb; Byte.x4b; Byte.xb5; b].
Definition sick (code : SessionCode) : SessionError.t := SessionError.mk code "gone".
End Desk.

#[local] Instance desk_blobs : BlobStore (FS.t * nat) := file_blob_store "/data" Device.ids.
#[local] Instance desk_files (open : bool) : VaultFileAccess DiskFiles.t :=
  desktop_files (Desk.held open) Desk.fails Desk.partial Desk.uuid.

(** One operation, with KeePassXC open or not. *)
Definition desk_step (open : bool) (s : Services.t (FS.t * nat) DiskFiles.t) (step : ServiceStep)
    : Services.t (FS.t * nat) DiskFiles.t :=
  perform (VaultFileAccess0 := desk_files open) Device.clock Device.ids Device.ids Device.clock Desk.localeTime Device.ids
    Desk.interpret Desk.diff Desk.own false "localhost:8787" step s.

Definition desk : Services.t (FS.t * nat) DiskFiles.t :=
  Services.mk (EngineState.mk (Store.mk Db.empty 0 None false) (FS.mk {["/data/tmp"]} ∅, 0%nat) 0)
    (DiskFiles.mk {[Desk.path := Desk.kdbx Byte.x00]} 0) None ∅ Hub.new None [] [] [] None false None false
    None None 0 0 [].

(** A device that tracks its first vault. *)
Definition desk1 : Services.t (FS.t * nat) DiskFiles.t := desk_step false desk (BindsVault Desk.path None).

(** A version of another device, a child of the first one, arrives. *)
Definition desk_delivery : Ingest.t :=
  {| Ingest.vaultId := "a"; Ingest.revisionId := "x"; Ingest.declaredParentIds := ["aa"];
     Ingest.declaredHash := sha256 (Desk.kdbx Byte.x01); Ingest.bytes := Desk.kdbx Byte.x01;
     Ingest.fromDeviceId := "other"; Ingest.message := None |}.

Abbreviation operates := (EngineSteps.perform Device.clock Device.ids Device.ids "this" Desk.interpret Desk.diff).

Definition desk2 : Services.t (FS.t * nat) DiskFiles.t :=
  Services.set_engine (operates (IngestReceivedRevision desk_delivery) (Services.engine desk1)) desk1.

(** What the session that brought it says: the other device is ahead. *)
Definition desk_result (divergence : Divergence) : SessionResult.t :=
  SessionResult.mk "a" (Remote.mk "other" "phone") ["x"] [] [] divergence (Some "x").

(** The engine of the first states. *)
Definition imported : EngineState.t (FS.t * nat) :=
  operates (ImportVault "work.kdbx" (Desk.kdbx Byte.x00) (Some Desk.path)) (Services.engine desk).

Lemma imported_ok : engine_ok imported.
Proof.
  eapply engine_reachable_ok, engine_step; [|intros n _; done]. apply engine_start. split; [done|].
  intros h f _ Hf. done.
Qed.

Lemma desk1_engine : Services.engine desk1 = set_db (db (Services.engine desk1)) imported.
Proof. vm_compute. reflexivity. Qed.

Lemma desk1_ok : engine_ok (Services.engine desk1).
Proof.
  rewrite desk1_engine. assert (∃ t, db (Services.engine desk1) = Db.set_settings t (db imported)) as [t ->].
  { eexists. vm_compute. reflexivity. }
  apply ok_set_db; [apply imported_ok| | |].
  - eapply wf_proper; [|apply imported_ok]. split_and!; by destruct (db imported).
  - intros i row Hi. left. by destruct (db imported).
  - intros k v h Hv Hh. destruct (ok_head imported imported_ok k v h) as (row & Hrow & Hk);
      [by destruct (db imported)|done|]. exists row. by destruct (db imported).
Qed.

Lemma desk2_ok : engine_ok (Services.engine desk2).
Proof. apply ok_ingest, desk1_ok. Qed.

Lemma desk2_fresh : fresh_ids Device.ids Device.ids (Services.engine desk2).
Proof.
  intros n Hn.
  assert (∃ r r', Db.revisions (db (Services.engine desk2)) = <[Device.ids 2 := r]> {["x" := r']}) as (r&r'&->)
    by (do 2 eexists; vm_compute; reflexivity).
  assert (∃ v, Db.vaults (db (Services.engine desk2)) = {[Device.ids 1 := v]}) as [v ->]
    by (eexists; vm_compute; reflexivity).
  change (EngineState.ticks (Services.engine desk2)) with 4%nat in Hn.
  split; [|apply lookup_singleton_ne; intros ?%ids_inj; lia].
  rewrite lookup_insert_ne by (intros ?%ids_inj; lia). apply lookup_singleton_ne.
  by destruct n.
Qed.
