(* ===== verification/Link.v ===== *)
(** * Two sessions over a link

    packages/transport/src/memoryLink.ts, the link that two sessions in one
    process talk over, and two devices that run a session each over it, as the
    demonstration and the end-to-end tests do.  A payload that was sent is in
    flight until its delivery runs, as a microtask or after a delay; deliveries
    of one channel keep their order, those of two channels come in any. *)

From S2P Require Import Prelude Model Bytes JsString Framing Json Protocol Effects Store BlobStore Engine.
From S2P Require Import Inbox Identity Session.

Open Scope Z_scope.

(** ** A channel *)

Module MemoryChannel.
(** [handler] and [closeHandler] are set; [inFlight] holds what the closures
    [deliver] that were queued will deliver. *)
Record t (T : Type) : Type := mk {
  handler : bool;
  closeHandler : bool;
  buffered : Z;
  closed : bool;
  drainWaiters : list nat;
  totalBytesSent : Z;
  peakBufferedAmount : Z;
  inFlight : list T;
}.
Arguments mk {_} _ _ _ _ _ _ _ _.
Arguments handler {_} _.
Arguments closeHandler {_} _.
Arguments buffered {_} _.
Arguments closed {_} _.
Arguments drainWaiters {_} _.
Arguments totalBytesSent {_} _.
Arguments peakBufferedAmount {_} _.
Arguments inFlight {_} _.

Section channel.
Context {T : Type} (byteSize : T → Z) (lowWaterBytes : Z).
Implicit Types c peer : t T.

Definition new : t T := mk false false 0 false [] 0 0 [].

Definition send (data : T) c : t T :=
  if closed c then c
  else
    let size := byteSize data in
    let buffered := buffered c + size in
    mk (handler c) (closeHandler c) buffered false (drainWaiters c) (totalBytesSent c + size)
      (Z.max (peakBufferedAmount c) buffered) (inFlight c ++ [data]).

(** The next [deliver]: what the handler of the peer is called with, and the
    waiters that are called. *)
Definition deliver c peer : t T * option T * list nat :=
  match inFlight c with
  | [] => (c, None, [])
  | data :: rest =>
      let buffered := buffered c - byteSize data in
      let received := if closed peer || negb (handler peer) then None else Some data in
      let waiters := if buffered <=? lowWaterBytes then drainWaiters c else [] in
      (mk (handler c) (closeHandler c) buffered (closed c)
         (if buffered <=? lowWaterBytes then [] else drainWaiters c) (totalBytesSent c)
         (peakBufferedAmount c) rest,
       received, waiters)
  end.

(** [drain]: whether the promise is resolved at once; if not, it waits. *)
Definition drain (waiter : nat) c : t T * bool :=
  if buffered c <=? lowWaterBytes then (c, true)
  else (mk (handler c) (closeHandler c) (buffered c) (closed c) (drainWaiters c ++ [waiter])
          (totalBytesSent c) (peakBufferedAmount c) (inFlight c), false).

Definition onMessage c : t T :=
  mk true (closeHandler c) (buffered c) (closed c) (drainWaiters c) (totalBytesSent c)
    (peakBufferedAmount c) (inFlight c).

Definition onClose c : t T :=
  mk (handler c) true (buffered c) (closed c) (drainWaiters c) (totalBytesSent c)
    (peakBufferedAmount c) (inFlight c).

Definition set_closed c : t T :=
  mk (handler c) (closeHandler c) (buffered c) true (drainWaiters c) (totalBytesSent c)
    (peakBufferedAmount c) (inFlight c).

(** [close], which closes the peer too: both ends, and whose close handlers are
    called. *)
Definition close c peer : t T * t T * (bool * bool) :=
  if closed c then (c, peer, (false, false))
  else
    let calls_peer := negb (closed peer) && closeHandler peer in
    (set_closed c, set_closed peer, (closeHandler c, calls_peer)).
End channel.
End MemoryChannel.

(** One side of a link. *)
Module PeerLink.
Record t : Type := mk {
  control : MemoryChannel.t string;
  bulk : MemoryChannel.t Uint8Array;
}.

Definition new : t := mk MemoryChannel.new MemoryChannel.new.

Definition set_control x (l : t) : t := mk x (bulk l).
Definition set_bulk x (l : t) : t := mk (control l) x.
End PeerLink.

(** [options.lowWaterBytes]; the length of a text is in 16-bit units. *)
Definition DEFAULT_LOW_WATER : Z := 256 * 1024.
Definition send_text : string → MemoryChannel.t string → MemoryChannel.t string :=
  MemoryChannel.send str_length.
Definition send_bytes : Uint8Array → MemoryChannel.t Uint8Array → MemoryChannel.t Uint8Array :=
  MemoryChannel.send byteLength.

(** [attach] sets the handlers of a session. *)
Definition attached (l : PeerLink.t) : PeerLink.t :=
  PeerLink.mk (MemoryChannel.onClose (MemoryChannel.onMessage (PeerLink.control l)))
    (MemoryChannel.onMessage (PeerLink.bulk l)).

(** A session sends messages on the control channel and frames on the bulk. *)
Definition frame_bytes (frame : ChunkFrame.t) : option Uint8Array :=
  match encodeChunkFrame frame with Ok bytes => Some bytes | Err _ => None end.

Definition posts (messages : list ProtocolMessage) (frames : list ChunkFrame.t) (l : PeerLink.t) : PeerLink.t :=
  PeerLink.mk (foldl (λ c message, send_text (encodeMessage message) c) (PeerLink.control l) messages)
    (foldl (λ c bytes, send_bytes bytes c) (PeerLink.bulk l) (omap frame_bytes frames)).

(** ** Two devices *)

(** What the session of a device is made with. *)
Module Side.
Record t (A : Type) : Type := mk {
  authenticator : PeerAuthenticator A;
  clock : nat → Date;
  vaultId : option VaultId;
  chunkBytes : Z;
}.
Arguments mk {_} _ _ _ _.
Arguments authenticator {_} _.
Arguments clock {_} _.
Arguments vaultId {_} _.
Arguments chunkBytes {_} _.
End Side.

Module World.
Record t (B A1 A2 : Type) : Type := mk {
  left : Session.t B A1;
  right : Session.t B A2;
  leftEnd : PeerLink.t;
  rightEnd : PeerLink.t;
}.
Arguments mk {_ _ _} _ _ _ _.
Arguments left {_ _ _} _.
Arguments right {_ _ _} _.
Arguments leftEnd {_ _ _} _.
Arguments rightEnd {_ _ _} _.

Definition swap {B A1 A2} (w : t B A1 A2) : t B A2 A1 := mk (right w) (left w) (rightEnd w) (leftEnd w).
Definition set_left {B A1 A2} s l (w : t B A1 A2) : t B A1 A2 := mk s (right w) l (rightEnd w).
Definition set_ends {B A1 A2} l r (w : t B A1 A2) : t B A1 A2 := mk (left w) (right w) l r.
End World.

Section world.
Context `{RowOrder} `{Sha256} {B : Type} `{!BlobStore B}.

(** An event of the left session, with what it sends. *)
Definition left_event {A1 A2} (x : Side.t A1) (event : Event) (w : World.t B A1 A2) : World.t B A1 A2 :=
  let s := World.left w in
  let s' := (on_event (PeerAuthenticator0 := Side.authenticator x) (Side.clock x) (Side.vaultId x)
               (Side.chunkBytes x) event s).2 in
  let ready := match Session.phase s, event with
               | NotStarted, MainResumes => attached (World.leftEnd w)
               | _, _ => World.leftEnd w
               end in
  World.set_left s' (posts (drop (length (Session.control s)) (Session.control s'))
                       (drop (length (Session.bulk s)) (Session.bulk s')) ready) w.

Definition right_event {A1 A2} (y : Side.t A2) (event : Event) (w : World.t B A1 A2) : World.t B A1 A2 :=
  World.swap (left_event y event (World.swap w)).

(** What a side may do next. *)
Inductive SideStep : Type :=
  | Acts (event : Event)
  | ControlDelivered
  | BulkDelivered
  | LinkCloses.

(** The events that no channel makes. *)
Definition own_event (event : Event) : bool :=
  match event with ControlMessage _ | BulkMessage _ | ControlClosed => false | _ => true end.

(** [link.close]: both channels; the sessions hear of the first. *)
Definition link_closes {A1 A2} (x : Side.t A1) (y : Side.t A2) (w : World.t B A1 A2) : World.t B A1 A2 :=
  let '(c, peer, (mine, theirs)) :=
    MemoryChannel.close (PeerLink.control (World.leftEnd w)) (PeerLink.control (World.rightEnd w)) in
  let w := World.set_ends (PeerLink.set_control c (World.leftEnd w))
             (PeerLink.set_control peer (World.rightEnd w)) w in
  let w := if (mine : bool) then left_event x ControlClosed w else w in
  let w := if (theirs : bool) then right_event y ControlClosed w else w in
  let '(c, peer, _) :=
    MemoryChannel.close (PeerLink.bulk (World.leftEnd w)) (PeerLink.bulk (World.rightEnd w)) in
  World.set_ends (PeerLink.set_bulk c (World.leftEnd w)) (PeerLink.set_bulk peer (World.rightEnd w)) w.

(** A step of the left side; what it sent is delivered to the right. *)
Definition left_step {A1 A2} (x : Side.t A1) (y : Side.t A2) (step : SideStep) (w : World.t B A1 A2)
    : World.t B A1 A2 :=
  match step with
  | Acts event => if own_event event then left_event x event w else w
  | ControlDelivered =>
      let '(c, received, _) := MemoryChannel.deliver str_length DEFAULT_LOW_WATER
        (PeerLink.control (World.leftEnd w)) (PeerLink.control (World.rightEnd w)) in
      let w := World.set_ends (PeerLink.set_control c (World.leftEnd w)) (World.rightEnd w) w in
      match received with Some raw => right_event y (ControlMessage raw) w | None => w end
  | BulkDelivered =>
      let '(c, received, _) := MemoryChannel.deliver byteLength DEFAULT_LOW_WATER
        (PeerLink.bulk (World.leftEnd w)) (PeerLink.bulk (World.rightEnd w)) in
      let w := World.set_ends (PeerLink.set_bulk c (World.leftEnd w)) (World.rightEnd w) w in
      match received with Some data => right_event y (BulkMessage data) w | None => w end
  | LinkCloses => link_closes x y w
  end.

(** A step of the left side ([true]) or of the right. *)
Definition world_step {A1 A2} (x : Side.t A1) (y : Side.t A2) (w : World.t B A1 A2)
    (step : bool * SideStep) : World.t B A1 A2 :=
  if step.1 then left_step x y step.2 w else World.swap (left_step y x step.2 (World.swap w)).

(** [createMemoryLinkPair], and a session at either end. *)
Definition connected {A1 A2} (engine1 : EngineState.t B) (auth1 : A1) (engine2 : EngineState.t B) (auth2 : A2)
    : World.t B A1 A2 :=
  World.mk (new_session engine1 auth1) (new_session engine2 auth2) PeerLink.new PeerLink.new.

Definition run_world {A1 A2} (x : Side.t A1) (y : Side.t A2) (steps : list (bool * SideStep))
    (w : World.t B A1 A2) : World.t B A1 A2 :=
  foldl (world_step x y) w steps.
End world.
