(* ===== verification/LinkTheory.v ===== *)
(** * Two sessions over a link: what an honest session keeps

    A session whose peer sends what a session would send.  [told] says that one
    of the two devices recorded a revision so when they met; [says] what a device
    may say; [facing] is the invariant of a session against such a peer. *)

From S2P Require Import Prelude Model Bytes JsString Dag DagTheory DagTheory DagProps Framing Lineage Json Protocol.
From S2P Require Import Codec Effects Store StoreTheory StoreProps BlobStore Engine EngineTheory EngineSteps.
From S2P Require Import Inbox Identity Session SessionTheory.
From stdpp Require Import relations.

Open Scope Z_scope.

(** ** Graphs with the same edges *)

Definition same_edges (g g' : RevisionGraph) : Prop := ∀ c p, parent_of g c p ↔ parent_of g' c p.

#[global] Instance same_edges_equiv : Equivalence same_edges.
Proof. split; [by intros g c p|intros g g' Hg c p; by rewrite (Hg c p)|intros a b c Ha Hb x y; by rewrite (Ha x y), (Hb x y)]. Qed.

Lemma same_edges_tc g g' : same_edges g g' → ∀ x y, tc (parent_of g) x y ↔ tc (parent_of g') x y.
Proof.
  intros Hg x y. split; apply (tc_congruence id); intros a b; by rewrite (Hg a b).
Qed.

Lemma same_edges_rtc g g' : same_edges g g' → ∀ x y, rtc (parent_of g) x y ↔ rtc (parent_of g') x y.
Proof. intros Hg x y. by rewrite !rtc_tc, (same_edges_tc g g' Hg). Qed.

#[global] Instance acyclic_proper : Proper (same_edges ==> iff) acyclic.
Proof. intros g g' Hg. unfold acyclic. by setoid_rewrite (same_edges_tc g g' Hg). Qed.

#[global] Instance best_common_ancestor_proper : Proper (same_edges ==> (=) ==> (=) ==> (=) ==> iff) best_common_ancestor.
Proof.
  intros g g' Hg a ? <- b ? <- x ? <-. unfold best_common_ancestor, common_ancestor.
  setoid_rewrite (same_edges_rtc g g' Hg). by setoid_rewrite (same_edges_tc g g' Hg).
Qed.

#[global] Instance divergence_spec_proper : Proper (same_edges ==> (=) ==> (=) ==> (=) ==> iff) divergence_spec.
Proof.
  intros g g' Hg l ? <- r ? <- d ? <-. unfold divergence_spec.
  destruct d; rewrite ?(same_edges_tc g g' Hg); try done.
  - by setoid_rewrite (best_common_ancestor_proper g g' Hg l l eq_refl r r eq_refl _ _ eq_refl).
  - unfold common_ancestor. by setoid_rewrite (same_edges_rtc g g' Hg).
Qed.

(** The verdict on two heads, either of which may be missing. *)
Definition verdict (g : RevisionGraph) (l r : option RevisionId) (d : Divergence) : Prop :=
  match l, r with
  | None, None => d = equal
  | None, Some _ => d = remote_ahead
  | Some _, None => d = local_ahead
  | Some l, Some r => divergence_spec g l r d
  end.

(** Two that look at the same history from either end mirror each other. *)
Lemma verdict_mirror g g' l r d d' :
  acyclic g → same_edges g g' → verdict g l r d → verdict g' r l d' → same_verdict d' (mirror d).
Proof.
  intros Hacyc Hg Hd Hd'. destruct l as [l|], r as [r|]; simpl in *; try by subst.
  rewrite <-Hg in Hd'.
  pose proof (divergence_spec_unique g r l _ _ Hacyc Hd' (classifyDivergence_spec g r l Hacyc)) as H1.
  pose proof (divergence_spec_unique g l r _ _ Hacyc Hd (classifyDivergence_spec g l r Hacyc)) as H2.
  pose proof (classifyDivergence_mirror g l r Hacyc) as H3.
  destruct d, d', (classifyDivergence g l r), (classifyDivergence g r l); simpl in *; try done; try congruence.
  by rewrite H1, H3, H2.
Qed.

Definition ids_match (g : RevisionGraph) : Prop := ∀ i node, g !! i = Some node → RevisionNode.id node = i.

Lemma last_nodes (g : RevisionGraph) c : ids_match g →
  last (filter (λ n, RevisionNode.id n = c) (map_to_list g).*2) = g !! c.
Proof.
  intros Hg.
  assert (∀ n, n ∈ filter (λ n, RevisionNode.id n = c) (map_to_list g).*2 ↔ g !! c = Some n) as Hin.
  { intros n. rewrite list_elem_of_filter, list_elem_of_fmap. split.
    - intros [<- ([i m]&->&Hi%elem_of_map_to_list)]. simpl. by rewrite (Hg _ _ Hi).
    - intros Hn. split; [by apply Hg|]. exists (c, n). split; [done|]. by apply elem_of_map_to_list. }
  destruct (last _) as [n|] eqn:Hl.
  - symmetry. apply Hin. apply last_Some in Hl as [l ->]. apply elem_of_app. right. by left.
  - apply last_None in Hl. destruct (g !! c) as [n|] eqn:Hn; [|done].
    pose proof (proj2 (Hin n) eq_refl) as Hn'. rewrite Hl in Hn'. by apply elem_of_nil in Hn'.
Qed.

(** A union has the nodes of both graphs, the second one's where both have one. *)
Lemma lookup_unionGraphs g g' c : ids_match g → ids_match g' →
  unionGraphs g g' !! c = match g' !! c with Some node => Some node | None => g !! c end.
Proof.
  intros Hg Hg'. unfold unionGraphs.
  by rewrite lookup_buildGraph, filter_app, last_app, !last_nodes.
Qed.

Lemma buildGraph_ids_match nodes : ids_match (buildGraph nodes).
Proof. intros i node Hi. by apply buildGraph_lookup_Some in Hi as [? _]. Qed.

(** ** What the two devices recorded *)

(** The revision is in the vault, with these parents in some order. *)
Definition recorded (d : Db.t) (k : VaultId) (c : RevisionId) (parents : list RevisionId) : Prop :=
  ∃ row, Db.revisions d !! c = Some row ∧ RevisionRow.vault_id row = k ∧ ∀ p, p ∈ parents ↔ edge d c p.

Definition in_vault (d : Db.t) (k : VaultId) (c : RevisionId) : Prop :=
  ∃ row, Db.revisions d !! c = Some row ∧ RevisionRow.vault_id row = k.

Definition vault_edge (d : Db.t) (k : VaultId) (c p : RevisionId) : Prop := in_vault d k c ∧ edge d c p.

(** A revision that both devices hold is the same one. *)
Definition agree (d d' : Db.t) : Prop :=
  ∀ c row row', Db.revisions d !! c = Some row → Db.revisions d' !! c = Some row' →
    RevisionRow.vault_id row = RevisionRow.vault_id row' ∧ ∀ p, edge d c p ↔ edge d' c p.

Lemma agree_sym d d' : agree d d' → agree d' d.
Proof. intros Ha c row row' H H'. destruct (Ha c row' row H' H) as [Hv He]. split; [done|]. intros p. by rewrite (He p). Qed.

(** A graph of the history that two devices have between them. *)
Definition joint (d d' : Db.t) (k : VaultId) (g : RevisionGraph) : Prop :=
  ∀ c p, parent_of g c p ↔ vault_edge d k c p ∨ vault_edge d' k c p.

Lemma joint_sym d d' k g : joint d d' k g → joint d' d k g.
Proof. intros Hg c p. rewrite (Hg c p). tauto. Qed.

Lemma joint_same d d' k g g' : joint d d' k g → joint d d' k g' → same_edges g g'.
Proof. intros Hg Hg' c p. by rewrite (Hg c p), (Hg' c p). Qed.

Lemma joint_in_one d d' k : wf d → agree d d' → ∀ x y,
  tc (λ c p, vault_edge d k c p ∨ vault_edge d' k c p) x y → StoreTheory.stored d x → tc (edge d) x y.
Proof.
  intros Hd Ha x y Hxy [row Hrow]. revert row Hrow.
  assert (∀ c p row, vault_edge d k c p ∨ vault_edge d' k c p → Db.revisions d !! c = Some row → edge d c p) as Hstep.
  { intros c p row [[_ He]|[(row'&Hrow'&_) He]] Hrow; [done|]. by apply (Ha c row row' Hrow Hrow'). }
  induction Hxy as [x y Hxy|x y z Hxy Hyz IH]; intros row Hrow.
  - apply tc_once. by eapply Hstep.
  - pose proof (Hstep _ _ _ Hxy Hrow) as He. eapply tc_l; [done|].
    destruct (wf_closed _ Hd _ _ He) as [_ [row' Hrow']]. by eapply IH.
Qed.

Lemma joint_acyclic d d' k g : wf d → wf d' → agree d d' → joint d d' k g → acyclic g.
Proof.
  intros Hd Hd' Ha Hg x Hx.
  assert (tc (λ c p, vault_edge d k c p ∨ vault_edge d' k c p) x x) as Hx'.
  { eapply (tc_congruence id); [|done]. intros c p. apply Hg. }
  assert (StoreTheory.stored d x ∨ StoreTheory.stored d' x) as [Hs|Hs].
  { apply tc_inv_l in Hx' as (y&[[(row&Hrow&_) _]|[(row&Hrow&_) _]]&_); [left|right]; by exists row. }
  - apply (wf_acyclic d x Hd). by apply (joint_in_one d d' k).
  - apply (wf_acyclic d' x Hd'). apply (joint_in_one d' d k); [done|by apply agree_sym| |done].
    eapply (tc_congruence id); [|exact Hx']. by intros c p [|]; [right|left].
Qed.

(** ** An honest peer *)

Section facing.
Context `{RowOrder} `{Sha256} {B : Type} `{!BlobStore B} {A : Type} `{!PeerAuthenticator A}.
Context (clock : nat → Date) (chunkBytes : Z).
(** This device and its peer when they met, and the vaults they name. *)
Context (e0 e0' : EngineState.t B) (dep dep' : option VaultId).
Abbreviation S := (Session.t B A).
Abbreviation Run := (M (Session.t B A)).
Implicit Types (s : S) (e : EngineState.t B).

Definition told (k : VaultId) (c : RevisionId) (parents : list RevisionId) : Prop :=
  recorded (db e0) k c parents ∨ recorded (db e0') k c parents.

(** The vault a session can be about. *)
Definition common (dep dep' : option VaultId) : option VaultId :=
  match dep, dep' with
  | Some k, Some k' => if decide (k = k') then Some k else None
  | Some k, None | None, Some k => Some k
  | None, None => None
  end.

Definition head_in (d : Db.t) (k : VaultId) : option RevisionId := Db.vaults d !! k ≫= Vault.headRevisionId.

(** What a device advertises as its head. *)
Definition offered (e : EngineState.t B) (dep : option VaultId) : option RevisionId := dep ≫= head_in (db e).

(** What a session on a device says. *)
Definition says (e : EngineState.t B) (own : option VaultId) (m : ProtocolMessage) : Prop :=
  match m with
  | VaultSummary k _ head _ => k = default EMPTY_VAULT_ID own ∧ head = offered e own
  | Protocol.HistorySummary k entries =>
      common dep dep' = Some k ∧
      (∀ x, x ∈ entries → told k (HistorySummaryEntry.revisionId x) (HistorySummaryEntry.parentIds x)) ∧
      ∀ c, in_vault (db e) k c → c ∈ HistorySummaryEntry.revisionId <$> entries
  | RevisionHeaderMessage h =>
      told (RevisionHeader.vaultId h) (RevisionHeader.revisionId h) (RevisionHeader.parentIds h)
  | _ => True
  end.

Lemma told_ext k c ps ps' : (∀ p, p ∈ ps ↔ p ∈ ps') → told k c ps → told k c ps'.
Proof.
  intros Hps [(row&Hrow&Hk&Hp)|(row&Hrow&Hk&Hp)]; [left|right]; exists row; split_and!; try done;
    intros p; by rewrite <-Hp, Hps.
Qed.

(** ** What a device records meanwhile *)

Definition rows (d : Db.t) : Prop :=
  ∀ c row, Db.revisions d !! c = Some row → told (RevisionRow.vault_id row) c (parents_in d c).

Lemma rows_start : rows (db e0).
Proof. intros c row Hrow. left. exists row. split_and!; [done..|]. intros p. apply elem_of_parents_in. Qed.

Lemma rows_same d d' : Db.revisions d' = Db.revisions d → Db.revision_parents d' = Db.revision_parents d →
  rows d → rows d'.
Proof. intros Hr Hp Hd c row. unfold parents_in. rewrite Hr, Hp. apply Hd. Qed.

Lemma rows_with_revision r d : wf d → ¬ StoreTheory.stored d (Revision.id r) → rows d →
  told (Revision.vaultId r) (Revision.id r) (Revision.parentIds r) → rows (with_revision r d).
Proof.
  intros Hd Hnew Hrows Hr c row. rewrite with_revision_lookup.
  destruct (Db.revisions d !! c) as [row'|] eqn:Hc.
  - intros [= <-]. eapply told_ext; [|by apply Hrows]. intros p.
    rewrite !elem_of_parents_in, with_revision_edge. split; [by left|]. intros [?|[-> _]]; [done|].
    destruct Hnew. by exists row'.
  - case_decide as Hid; [|done]. intros [= <-]. subst c. eapply told_ext; [|exact Hr]. intros p.
    rewrite elem_of_parents_in, with_revision_edge. split; [by right|]. intros [He|[_ ?]]; [|done].
    by destruct (wf_closed _ Hd _ _ He).
Qed.

Lemma rows_ingest input e : engine_ok e → rows (db e) →
  told (Ingest.vaultId input) (Ingest.revisionId input) (Ingest.declaredParentIds input) →
  rows (db (ingestReceivedRevision (B := B) clock input e).2).
Proof.
  intros Hok Hrows Htold.
  destruct (decide (is_Some (Db.revisions (db e) !! Ingest.revisionId input))) as [Hst|Hst].
  { by rewrite ingest_present. }
  destruct (decide (sha256 (Ingest.bytes input) = Ingest.declaredHash input)) as [Hh|Hh].
  2:{ by destruct (ingest_rejected clock input e Hst (or_introl Hh)) as [reason ->]. }
  destruct (missing_parent (db e) (Ingest.declaredParentIds input)) as [q|] eqn:Hm.
  { apply missing_parent_Some in Hm as [Hq Hns].
    by destruct (ingest_rejected clock input e Hst (or_intror (ex_intro _ q (conj Hq Hns)))) as [reason ->]. }
  rewrite ingest_absent by (done || by apply missing_parent_None).
  destruct (blob_put _ _).1; [|done]. cbv zeta. destruct (Db.vaults (db e) !! _); [|done].
  cbn [snd]. rewrite db_set_db. apply rows_with_revision; [apply Hok|done..].
Qed.

Lemma adopt_rows k name e : rows (db e) → rows (db (adoptVault (B := B) clock k name e).2).
Proof.
  unfold adoptVault, getVault. erewrite bind_eq by apply metadata_gets.
  destruct (Db.vaults (db e) !! k) as [v|]; [done|].
  unfold Engine.now. rewrite (bind_eq _ _ _ _ _ (tick_run _ _)). cbv zeta.
  erewrite bind_eq by (rewrite metadata_run, saveVault_run; reflexivity). simpl.
  apply rows_same; rewrite db_set_db; [apply saved_vault_revisions|].
  change (db (next_tick e)) with (db e). by destruct (db e).
Qed.

Lemma peer_head_rows peer k head e : rows (db e) → rows (db (engine_recordPeerHead (B := B) clock peer k head e).2).
Proof.
  unfold engine_recordPeerHead, Engine.now. rewrite (bind_eq _ _ _ _ _ (tick_run _ _)).
  rewrite metadata_run. cbn [snd].
  apply rows_same; rewrite db_set_db; change (db (next_tick e)) with (db e);
    unfold recordPeerHead, foreign_key, modify, mbind, M_bind; destruct (db e); simpl;
    by destruct (_ !! k).
Qed.

(** ** The inbox holds what was heard *)

Definition heard (i : ControlInbox.t) (m : ProtocolMessage) : Prop :=
  (∃ type queue, ControlInbox.queued i !! type = Some queue ∧ m ∈ queue) ∨
  ∃ p, p ∈ ControlInbox.promises i ∧ Promise.state p = resolved m.

Lemma heard_settle id state i m :
  heard (ControlInbox.settle id state i) m → heard i m ∨ state = resolved m.
Proof.
  unfold heard, ControlInbox.settle. destruct i as [hs q ws f rs ps]; simpl.
  intros [?|(p&Hp&Hst)]; [by left; left|].
  apply list_elem_of_lookup_1 in Hp as [j Hj]. rewrite list_lookup_alter in Hj.
  destruct (decide (id = j)) as [->|].
  - destruct (ps !! j) as [p0|] eqn:Hp0; [|done]. injection Hj as <-.
    destruct p0 as [ty []]; simpl in *; [by right|left; right|done].
    eexists. split; [by eapply list_elem_of_lookup_2|done].
  - left. right. exists p. split; [by eapply list_elem_of_lookup_2|done].
Qed.

Lemma heard_cleanup type id i m : heard (ControlInbox.cleanup type id i) m ↔ heard i m.
Proof. by destruct i. Qed.

Lemma heard_reject_id error i id m : heard (ControlInbox.reject_id error i id) m → heard i m.
Proof.
  unfold ControlInbox.reject_id, ControlInbox.reject. destruct (_ !! id); [|done].
  intros [Hm|?]%heard_settle; [by apply heard_cleanup in Hm|done].
Qed.

Lemma heard_fail error i m : heard (ControlInbox.fail error i) m → heard i m.
Proof.
  unfold ControlInbox.fail. cbv zeta.
  assert (∀ ids j, heard (foldl (ControlInbox.reject_id error) j ids) m → heard j m) as Hfold.
  { induction ids as [|id ids IH]; intros j Hj; [done|]. by eapply heard_reject_id, IH. }
  intros Hm. assert (heard (foldl (ControlInbox.reject_id error)
    (ControlInbox.set_failure (match ControlInbox.failure i with Some e => Some e | None => Some error end) i)
    (ControlInbox.rejecters (ControlInbox.set_failure
      (match ControlInbox.failure i with Some e => Some e | None => Some error end) i))) m) as Hm'.
  { by destruct (foldl _ _ _). }
  apply Hfold in Hm'. by destruct i.
Qed.

Lemma heard_time_out id i m : heard (ControlInbox.time_out id i) m → heard i m.
Proof.
  unfold ControlInbox.time_out, ControlInbox.reject. destruct (_ !! id) as [[ty []]|]; try done.
  intros [Hm|?]%heard_settle; [by apply heard_cleanup in Hm|done].
Qed.

Lemma heard_new_promise type state i m :
  heard (ControlInbox.new_promise type state i) m → heard i m ∨ state = resolved m.
Proof.
  unfold heard, ControlInbox.new_promise. destruct i; simpl. setoid_rewrite elem_of_app.
  setoid_rewrite list_elem_of_singleton. naive_solver.
Qed.

Lemma heard_expect type i m : heard (ControlInbox.expect type i) m → heard i m.
Proof.
  unfold ControlInbox.expect.
  assert (∀ ws, heard (ControlInbox.set_waiters ws (ControlInbox.set_rejecters
    (set_add (ControlInbox.rejecters i) (length (ControlInbox.promises i))) i)) m → heard i m) as Hwait by by destruct i.
  destruct (ControlInbox.failure i); [by intros [?|?]%heard_new_promise|].
  case_decide; [by intros [?|?]%heard_new_promise|].
  destruct (ControlInbox.queued i !! type) as [[|ready queue]|] eqn:Hready;
    intros [Hm|Heq]%heard_new_promise; try done; try by eapply Hwait.
  - destruct i. unfold heard in *. simpl in *. destruct Hm as [(ty&q&Hq&Hin)|?]; [|by right].
    left. destruct (decide (type = ty)) as [->|].
    + rewrite lookup_insert_eq in Hq. injection Hq as <-. eexists _, _. split; [done|]. by right.
    + rewrite lookup_insert_ne in Hq by done. by eexists _, _.
  - left. eexists _, _. split; [done|]. injection Heq as <-. by left.
Qed.

Lemma heard_on type i m : heard (ControlInbox.on type i).1 m → heard i m.
Proof.
  destruct i. unfold heard. simpl. intros [(ty&q&[_ Hq]%lookup_delete_Some&Hin)|?]; [left; eauto|by right].
Qed.

(** A payload is heard, or handed to its handler, or not a message. *)
Lemma heard_accept raw i i' handled : ControlInbox.accept raw i = (i', handled) →
  (∀ m, handled = Some m → parseMessage raw = parsed m) ∧
  ∀ m, heard i' m → heard i m ∨ parseMessage raw = parsed m.
Proof.
  unfold ControlInbox.accept. destruct (parseMessage raw) as [message|code reason] eqn:Hraw.
  2:{ intros [= <- <-]. split; [done|]. intros m Hm%heard_fail. by left. }
  assert (∀ j, (let type := type_of message in
      if decide (type ∈ ControlInbox.handlers i) then (i, Some message)
      else match ControlInbox.waiters i !! type with
        | Some (waiter :: list) =>
            (ControlInbox.settle waiter (resolved message)
               (ControlInbox.cleanup type waiter (ControlInbox.set_waiters (<[type := list]> (ControlInbox.waiters i)) i)), None)
        | _ => (ControlInbox.set_queued (<[type := default [] (ControlInbox.queued i !! type) ++ [message]]> (ControlInbox.queued i)) i, None)
        end) = (i', j) →
    (∀ m, j = Some m → parsed message = parsed m) ∧ ∀ m, heard i' m → heard i m ∨ parsed message = parsed m) as Hrest.
  { cbv zeta. intros j. case_decide; [intros [= <- <-]; split; [intros m Hm; congruence|by left]|].
    assert (∀ m, heard (ControlInbox.set_queued (<[type_of message := default [] (ControlInbox.queued i !! type_of message) ++ [message]]>
      (ControlInbox.queued i)) i) m → heard i m ∨ parsed message = parsed m) as Hq.
    { intros m. destruct i. unfold heard. simpl. intros [(ty&q&Hq&Hin)|?]; [|by left; right].
      destruct (decide (type_of message = ty)) as [<-|]; [rewrite lookup_insert_eq in Hq|rewrite lookup_insert_ne in Hq by done].
      - injection Hq as <-. apply elem_of_app in Hin as [Hin| ->%list_elem_of_singleton]; [|by right].
        left; left. destruct (_ !! _) eqn:Heq; [by eexists _, _|by apply elem_of_nil in Hin].
      - left; left. by eexists _, _. }
    destruct (ControlInbox.waiters i !! type_of message) as [[|waiter list]|]; intros [= <- <-]; (split; [done|]); try done.
    intros m [Hm|[= ->]]%heard_settle; [|by right]. left. apply heard_cleanup in Hm. by destruct i. }
  destruct message; try (by apply Hrest). intros [= <- <-]. split; [done|]. intros m Hm%heard_fail. by left.
Qed.

(** ** What holds whatever the main task does *)

Definition told_header (h : InboundHeader.t) : Prop :=
  let h := InboundHeader.header h in
  told (RevisionHeader.vaultId h) (RevisionHeader.revisionId h) (RevisionHeader.parentIds h).

Record honest s : Prop := Honest {
  hon_ok : engine_ok (Session.engine s);
  hon_extends : extends e0 (Session.engine s);
  hon_rows : rows (db (Session.engine s));
  hon_coming : ∀ seq t, Session.assemblers s !! seq = Some t → told_header (Transfer.header t);
  hon_queued : ∀ h bytes, (h, bytes) ∈ Session.inboundWork s → told_header h;
  hon_heard : ∀ m, heard (Session.inbox s) m → says e0' dep' m;
  hon_said : ∀ m, m ∈ Session.control s → says e0 dep m;
}.

Abbreviation kept := (keeps honest).

Lemma honest_send m : says e0 dep m → kept (send m).
Proof.
  intros Hm. apply keeps_modify. intros s []. split; try done. simpl.
  intros m'. rewrite elem_of_app, list_elem_of_singleton. intros [?| ->]; auto.
Qed.

Lemma honest_emit ev : kept (emit ev).
Proof. apply keeps_modify. by intros s []. Qed.

Lemma honest_goto ph : kept (goto ph).
Proof. apply keeps_modify. by intros s []. Qed.

Lemma honest_notify : kept notifyProgress.
Proof. apply keeps_modify. intros s []. by case_match. Qed.

Lemma honest_inbox f : (∀ i m, heard (f i) m → heard i m) →
  kept (modify (λ s, Session.set_inbox (f (Session.inbox s)) s)).
Proof. intros Hf. apply keeps_modify. intros s []. split; try done. simpl. eauto. Qed.

Lemma honest_expect type : kept (expect type).
Proof. intros s []. split; try done. simpl. intros m Hm%heard_expect. auto. Qed.

Lemma honest_call {X} (m : Run X) k : kept m → (∀ x, kept (k x)) → kept (call m k).
Proof.
  intros Hm Hk s Hs. unfold call. specialize (Hm s Hs).
  destruct (m s) as [[x|err] s1]; simpl in *; [by apply Hk|by apply honest_goto].
Qed.

Lemma honest_engine {X} (m : M (EngineState.t B) X) :
  (∀ e, engine_ok e → rows (db e) → engine_ok (m e).2 ∧ extends e (m e).2 ∧ rows (db (m e).2)) →
  kept (engine_call m).
Proof.
  intros Hm s []. unfold engine_call, on. simpl. specialize (Hm (Session.engine s)).
  destruct (m (Session.engine s)) as [r e]; simpl in *. destruct Hm as (?&?&?); [done..|].
  split; try done. simpl. by etrans.
Qed.

Lemma honest_reads {X} (m : M (EngineState.t B) X) : reads m → kept (engine_call m).
Proof. intros Hm. apply honest_engine. intros e. by rewrite Hm. Qed.

Lemma honest_auth {X} (m : M A X) : kept (auth_call m).
Proof. intros s []. unfold auth_call, on. simpl. by destruct (m (Session.auth s)). Qed.

Lemma honest_throw code text : kept (throw_session code text).
Proof. apply honest_goto. Qed.

#[local] Hint Resolve honest_emit honest_goto honest_notify honest_expect honest_auth honest_throw : passvault.
#[local] Hint Extern 5 (keeps _ (mret _)) => by apply keeps_reads, reads_ret : passvault.
#[local] Hint Extern 5 (keeps _ (lift _)) => by apply keeps_reads, reads_lift : passvault.
#[local] Hint Extern 5 (keeps _ (gets _)) => by apply keeps_reads, reads_gets : passvault.
#[local] Hint Extern 5 (keeps _ (send _)) => by apply honest_send : passvault.
#[local] Hint Extern 6 (keeps _ (modify _)) =>
  by apply keeps_modify; intros ? []; repeat case_match; split : passvault.
#[local] Hint Extern 4 (keeps _ (engine_call _)) =>
  apply honest_reads; first [apply reads_getVault|apply reads_getRevision
    |apply reads_historySummary|apply reads_revisionCount|apply reads_bytesOf] : passvault.

(** Take a call apart down to the plumbing. *)
Ltac keep :=
  repeat first
    [ match goal with |- ∀ _, _ => intro end
    | solve [auto with passvault nocore]
    | apply keeps_bind
    | apply honest_call
    | match goal with |- keeps _ (match ?x with _ => _ end) => destruct x end
    | progress cbv zeta ].

Lemma honest_reject id reason : kept (reject_revision id reason).
Proof. unfold reject_revision, expected_delete. keep. Qed.
#[local] Hint Resolve honest_reject : passvault.

Lemma honest_forget seq : kept (modify (λ s : S, Session.set_assemblers (delete seq (Session.assemblers s)) s)).
Proof.
  apply keeps_modify. intros s []. split; try done. simpl. intros i t [_ Hi]%lookup_delete_Some. eauto.
Qed.
#[local] Hint Resolve honest_forget : passvault.

Lemma honest_queueIngest header bytes : told_header header → kept (queueIngest header bytes).
Proof.
  intros Hh. apply keeps_modify. intros s []. split; try done. simpl.
  intros h b. rewrite elem_of_app, list_elem_of_singleton. intros [?|[= -> ->]]; eauto.
Qed.

Lemma honest_assemble seq t s : told_header (Transfer.header t) → honest s →
  honest (Session.set_assemblers (<[seq := t]> (Session.assemblers s)) s).
Proof.
  intros Ht []. split; try done. simpl. intros i t' [[_ <-]|[_ Hi]]%lookup_insert_Some; eauto.
Qed.

Lemma honest_onFrame fr : kept (onFrame fr).
Proof.
  intros s Hs. unfold onFrame. cbv zeta. destruct (_ !! _) as [entry|] eqn:He.
  2:{ case_decide; [|done]. by destruct Hs. }
  pose proof (hon_coming s Hs _ _ He) as Hh.
  destruct (ChunkAssembler.accept _ _) as [[] assembler]; cbn [negb]; [case_match|].
  - pose proof (λ bytes, honest_queueIngest _ bytes Hh). clear He. revert s Hs. keep.
  - by apply honest_assemble.
  - clear He. revert s Hs. keep.
Qed.

Lemma honest_drain_orphans seq n : kept (drain_orphans seq n).
Proof.
  induction n as [|n IH]; simpl; [keep|]. apply keeps_bind; [by apply keeps_reads, reads_gets|].
  intros orphans. destruct (orphans !! n) as [fr|]; [|done]. case_decide; [|done].
  apply keeps_bind; [auto with passvault|]. intros _. apply keeps_bind; [apply honest_onFrame|done].
Qed.

Lemma honest_onHeader header : told_header header → kept (onHeader header).
Proof.
  intros Hh. pose proof honest_drain_orphans. unfold onHeader.
  apply keeps_bind; [auto with passvault|]. intros assembler.
  apply keeps_bind; [|keep]. intros s Hs. by apply honest_assemble.
Qed.

Lemma honest_handle message : says e0' dep' message → kept (handle message).
Proof.
  intros Hm. pose proof honest_onHeader as Hheader. unfold handle, inbox_fail, expected_delete.
  destruct message; keep; by apply (honest_inbox (ControlInbox.fail _)), heard_fail.
Qed.

Lemma honest_on_control raw : (∀ m, parseMessage raw = parsed m → says e0' dep' m) → kept (on_control raw).
Proof.
  intros Hraw s Hs. unfold on_control. destruct (ControlInbox.accept _ _) as [inbox message] eqn:Ha.
  apply heard_accept in Ha as [Hmessage Hheard].
  assert (honest (Session.set_inbox inbox s)) as Hs'.
  { destruct Hs. split; try done. simpl. intros m [Hm|Hm]%Hheard; auto. }
  destruct message as [message|]; [|done]. apply honest_handle; auto.
Qed.

Lemma honest_on_bulk data : kept (on_bulk data).
Proof. unfold on_bulk. destruct (decodeChunkFrame data); [apply honest_onFrame|keep]. Qed.

Lemma honest_ingest_next : kept (ingest_next clock).
Proof.
  intros s Hs. unfold ingest_next. destruct (Session.inboundWork s) as [|[header bytes] work] eqn:Hw; [done|].
  assert (told_header header) as Hh by (eapply (hon_queued s Hs); rewrite Hw; by left).
  pose proof (ingest_extends clock (ingest_input header bytes) (Session.engine s)) as Hext.
  pose proof (ok_ingest clock (ingest_input header bytes) (Session.engine s) (hon_ok s Hs)) as Hok.
  pose proof (rows_ingest (ingest_input header bytes) (Session.engine s) (hon_ok s Hs) (hon_rows s Hs) Hh) as Hr.
  destruct (ingestReceivedRevision _ _ _) as [r e] eqn:Hi. cbv zeta. simpl in Hext, Hok, Hr.
  assert (honest (Session.set_ingested (Datatypes.S (Session.ingested s))
    (Session.set_inboundWork work (Session.set_engine e s)))) as Hs'.
  { destruct Hs. split; try done; simpl; [by etrans|]. intros h b Hin. eapply hon_queued0. rewrite Hw. by right. }
  revert Hs'. generalize (Session.set_ingested (Datatypes.S (Session.ingested s))
    (Session.set_inboundWork work (Session.set_engine e s))).
  change (kept (λ s, match r with
    | Ok (rejected reason) => reject_revision (InboundHeader.revisionId header) reason s
    | Ok _ => (send (RevisionAck (InboundHeader.revisionId header) true None) ≫= λ _,
           expected_delete (InboundHeader.revisionId header) ≫= λ _,
           modify (λ s, Session.set_received (Session.received s ++ [InboundHeader.revisionId header]) s) ≫= λ _,
           emit (received_event (InboundHeader.revisionId header)) ≫= λ _,
           notifyProgress) s
    | Err e => reject_revision (InboundHeader.revisionId header) e s end)).
  unfold expected_delete. destruct r as [[]|]; keep.
Qed.

(** ** What the handlers leave as it is *)

Definition rejected s (c : RevisionId) : Prop := ∃ reason, rejected_event c reason ∈ Session.events s.

(** No revision that was expected is forgotten: it is stored, or the rejection
    was reported. *)
Record grows s s' : Prop := Grows {
  grow_vault : Session.vaultId s' = Session.vaultId s;
  grow_events : ∀ ev, ev ∈ Session.events s → ev ∈ Session.events s';
  grow_stored : ∀ c, StoreTheory.stored (db (Session.engine s)) c → StoreTheory.stored (db (Session.engine s')) c;
  grow_expected : ∀ c, c ∈ Session.expected s →
    c ∈ Session.expected s' ∨ StoreTheory.stored (db (Session.engine s')) c ∨ rejected s' c;
  grow_phase : Session.phase s' = Session.phase s ∨ ∃ failure, Session.phase s' = Failed failure;
}.

#[local] Instance grows_refl : Reflexive grows.
Proof. split; auto. Qed.

#[local] Instance grows_trans : Transitive grows.
Proof.
  intros a b c [V1 E1 S1 X1 P1] [V2 E2 S2 X2 P2]. split; eauto.
  - congruence.
  - intros i [Hi|[Hi|[reason Hi]]]%X1; [by apply X2|right; left; auto|right; right; exists reason; auto].
  - destruct P2 as [->|]; [done|by right].
Qed.

Definition advances {X} (m : Run X) : Prop := ∀ s, grows s (m s).2.

Lemma advances_bind {X Y} (m : Run X) (k : X → Run Y) : advances m → (∀ x, advances (k x)) → advances (m ≫= k).
Proof.
  intros Hm Hk s. unfold mbind, M_bind. specialize (Hm s). destruct (m s) as [[x|err] s1]; simpl in *; [|done].
  etrans; [done|apply Hk].
Qed.

Lemma advances_reads {X} (m : Run X) : reads m → advances m.
Proof. intros Hm s. by rewrite Hm. Qed.

Lemma advances_modify f : (∀ s, Session.vaultId (f s) = Session.vaultId s ∧
    Session.events (f s) = Session.events s ∧ Session.engine (f s) = Session.engine s ∧
    Session.expected (f s) = Session.expected s ∧ Session.phase (f s) = Session.phase s) →
  advances (modify f).
Proof.
  intros Hf s. destruct (Hf s) as (?&He&Hen&Hx&?). unfold modify. cbn [snd].
  split; rewrite ?He, ?Hen, ?Hx; auto.
Qed.

Lemma advances_emit ev : advances (emit ev).
Proof. intros s. split; simpl; auto. intros e He. apply elem_of_app. by left. Qed.

Lemma advances_fails failure : advances (goto (Failed failure)).
Proof. intros s. split; simpl; eauto. Qed.

Lemma advances_call {X} (m : Run X) k : advances m → (∀ x, advances (k x)) → advances (call m k).
Proof.
  intros Hm Hk s. unfold call. specialize (Hm s). destruct (m s) as [[x|err] s1]; simpl in *.
  - etrans; [done|apply Hk].
  - etrans; [done|apply advances_fails].
Qed.

Lemma advances_notify : advances notifyProgress.
Proof. apply advances_modify. intros s. by case_match. Qed.

(** A revision is given up with a report. *)
Lemma advances_drop {X} id reason (k : Run X) : advances k →
  advances (expected_delete id ≫= λ _, emit (rejected_event id reason) ≫= λ _, k).
Proof.
  intros Hk s. unfold expected_delete, emit, modify, mbind, M_bind. etrans; [|apply Hk]. split; simpl; auto.
  - intros e He. apply elem_of_app. by left.
  - intros c Hc. destruct (decide (c = id)) as [->|Hne].
    + right; right. exists reason. apply elem_of_app. right. by left.
    + left. by apply elem_of_set_delete.
Qed.

Lemma advances_reject id reason : advances (reject_revision id reason).
Proof.
  unfold reject_revision. apply advances_bind; [by apply advances_modify|]. intros _.
  apply advances_drop, advances_notify.
Qed.

Lemma advances_engine_reads {X} (m : M (EngineState.t B) X) : reads m → advances (engine_call m).
Proof. intros Hm. by apply advances_reads, reads_on. Qed.

#[local] Hint Resolve advances_emit advances_fails advances_notify advances_reject : passvault.
#[local] Hint Extern 5 (advances (mret _)) => by apply advances_reads, reads_ret : passvault.
#[local] Hint Extern 5 (advances (lift _)) => by apply advances_reads, reads_lift : passvault.
#[local] Hint Extern 5 (advances (gets _)) => by apply advances_reads, reads_gets : passvault.
#[local] Hint Extern 5 (advances (send _)) => by apply advances_modify : passvault.
#[local] Hint Extern 6 (advances (modify _)) =>
  by apply advances_modify; intros ?; repeat case_match; simplify_eq : passvault.
#[local] Hint Extern 4 (advances (engine_call _)) =>
  apply advances_engine_reads; first [apply reads_getVault|apply reads_getRevision
    |apply reads_historySummary|apply reads_revisionCount|apply reads_bytesOf] : passvault.

Ltac advance :=
  repeat first
    [ match goal with |- ∀ _, _ => intro end
    | solve [auto with passvault nocore]
    | apply advances_drop
    | apply advances_bind
    | apply advances_call
    | match goal with |- advances (match ?x with _ => _ end) => destruct x end
    | progress cbv zeta ].

Lemma advances_onFrame fr : advances (onFrame fr).
Proof.
  intros s. unfold onFrame. cbv zeta. destruct (_ !! _) as [entry|].
  2:{ case_decide; [|done]. by split; auto. }
  destruct (ChunkAssembler.accept _ _) as [[] assembler]; cbn [negb]; [case_match|].
  - revert s. unfold queueIngest. advance.
  - by split; auto.
  - revert s. advance.
Qed.

Lemma advances_drain_orphans seq n : advances (drain_orphans seq n).
Proof.
  pose proof advances_onFrame. induction n as [|n IH]; simpl; [advance|].
  apply advances_bind; [advance|]. intros orphans. destruct (orphans !! n) as [fr|]; [|done].
  case_decide; [|done]. advance.
Qed.

Lemma advances_handle message : advances (handle message).
Proof.
  pose proof advances_drain_orphans. unfold handle, onHeader, inbox_fail. destruct message; advance.
Qed.

Lemma advances_on_control raw : advances (on_control raw).
Proof.
  intros s. unfold on_control. destruct (ControlInbox.accept _ _) as [inbox [message|]].
  - transitivity (Session.set_inbox inbox s); [by split; auto|apply advances_handle].
  - by split; auto.
Qed.

Lemma advances_on_bulk data : advances (on_bulk data).
Proof. unfold on_bulk. destruct (decodeChunkFrame data); [apply advances_onFrame|advance]. Qed.

Lemma advances_ingest_next : advances (ingest_next clock).
Proof.
  intros s. unfold ingest_next. destruct (Session.inboundWork s) as [|[header bytes] work]; [done|].
  pose proof (ingest_extends clock (ingest_input header bytes) (Session.engine s)) as Hext.
  destruct (ingestReceivedRevision _ _ _) as [r e] eqn:Hi. cbv zeta. simpl in Hext.
  set (s1 := Session.set_ingested _ _).
  assert (grows s s1) as Hs1.
  { split; simpl; auto. intros c Hc. by eapply extends_stored. }
  etrans; [exact Hs1|]. destruct r as [result|err]; [|apply advances_reject].
  apply ingest_accepted in Hi.
  assert (StoreTheory.stored (db e) (Ingest.revisionId (ingest_input header bytes)) →
    grows s1 ((send (RevisionAck (InboundHeader.revisionId header) true None) ≫= λ _,
       expected_delete (InboundHeader.revisionId header) ≫= λ _,
       modify (λ s, Session.set_received (Session.received s ++ [InboundHeader.revisionId header]) s) ≫= λ _,
       emit (received_event (InboundHeader.revisionId header)) ≫= λ _, notifyProgress) s1).2) as Hacc.
  { intros Hst. unfold send, expected_delete, emit, modify, mbind, M_bind. etrans; [|apply advances_notify].
    split; simpl; auto.
    - intros e' He'. apply elem_of_app. by left.
    - intros c Hc. destruct (decide (c = InboundHeader.revisionId header)) as [->|Hne]; [by right; left|].
      left. by apply elem_of_set_delete. }
  destruct result; [by apply Hacc..|apply advances_reject].
Qed.

Lemma advances_serve_step : advances (serve_step chunkBytes).
Proof.
  intros s. unfold serve_step, serve_revision, set_current.
  repeat case_match; try done; match goal with |- grows _ (?m _).2 => cut (advances m); [by intros Hm; apply Hm|] end; advance.
Qed.

(** Every event but one that wakes the main task. *)
Lemma advances_on_event event : event ≠ MainResumes → advances (on_event clock dep chunkBytes event).
Proof.
  intros Hev. destruct event; simpl; try done;
    auto using advances_on_control, advances_on_bulk, advances_ingest_next, advances_serve_step.
  - unfold on_close, inbox_fail. advance.
  - advance.
  - intros s. repeat case_match; try done; apply advances_fails.
Qed.

Lemma getRevision_told id s : honest s → ∀ r, (engine_getRevision id (Session.engine s)).1 = Ok (Some r) →
  told (Revision.vaultId r) (Revision.id r) (Revision.parentIds r).
Proof.
  intros Hs r. unfold engine_getRevision. rewrite getRevision_engine. cbn [fst].
  destruct (Db.revisions _ !! id) as [row|] eqn:Hrow; [|done]. intros [= <-]. simpl.
  rewrite (wf_row_id _ (ok_wf _ (hon_ok s Hs)) _ _ Hrow). by apply (hon_rows s Hs).
Qed.

Lemma call_reads {X} (m : M (EngineState.t B) X) k s : reads m →
  call (engine_call m) k s =
  match (m (Session.engine s)).1 with
  | Ok x => k x s
  | Err err => goto (Failed (other_error err)) s
  end.
Proof.
  intros Hm. unfold call, engine_call, on. simpl. specialize (Hm (Session.engine s)).
  destruct (m (Session.engine s)) as [[x|err] e]; simpl in *; subst;
    change (Session.set_engine (Session.engine s) s) with (with_part (part s) s); by rewrite with_part_part.
Qed.

Lemma honest_serve_revision id todo seq : kept (serve_revision chunkBytes id todo seq).
Proof.
  intros s Hs. unfold serve_revision. rewrite call_reads by apply reads_getRevision.
  pose proof (getRevision_told id s Hs) as Htold.
  destruct (engine_getRevision _ _).1 as [[r|]|err]; [|by destruct Hs|by apply honest_goto].
  specialize (Htold r eq_refl). revert s Hs. keep.
Qed.

Lemma honest_serve_step : kept (serve_step chunkBytes).
Proof.
  pose proof honest_serve_revision. intros s Hs. unfold serve_step, set_current.
  repeat case_match; try done;
    match goal with |- honest (?m _).2 => cut (kept m); [by intros Hm; apply Hm|] end; keep.
Qed.

(** Every event but one that wakes the main task. *)
Lemma honest_on_event event : event ≠ MainResumes →
  (∀ raw, event = ControlMessage raw → ∀ m, parseMessage raw = parsed m → says e0' dep' m) →
  kept (on_event clock dep chunkBytes event).
Proof.
  intros Hev Hraw. destruct event; simpl; try done;
    eauto using honest_on_control, honest_on_bulk, honest_ingest_next, honest_serve_step.
  - by apply (honest_inbox (ControlInbox.fail _)), heard_fail.
  - apply (honest_inbox (ControlInbox.time_out promise)), heard_time_out.
  - intros s Hs. repeat case_match; try done; by apply honest_throw.
Qed.

(** ** What the main task learns *)

Lemma head_in_extends k e : extends e0 e → head_in (db e) k = head_in (db e0) k.
Proof.
  intros [Hold Hnew _ _]. unfold head_in. destruct (Db.vaults (db e0) !! k) as [v|] eqn:Hv.
  - by rewrite (Hold _ _ Hv).
  - destruct (Db.vaults (db e) !! k) as [v|] eqn:Hv'; [|done]. simpl. by eapply Hnew.
Qed.

(** A graph of revisions that were told. *)
Definition knows (k : VaultId) (g : RevisionGraph) : Prop :=
  ids_match g ∧ ∀ c node, g !! c = Some node → told k c (RevisionNode.parentIds node).

Definition complete (d : Db.t) (k : VaultId) (g : RevisionGraph) : Prop := ∀ c, in_vault d k c → is_Some (g !! c).

Definition told_entry (k : VaultId) (x : HistorySummaryEntry.t) : Prop :=
  told k (HistorySummaryEntry.revisionId x) (HistorySummaryEntry.parentIds x).

Lemma knows_nodes k entries : (∀ x, x ∈ entries → told_entry k x) → knows k (buildGraph (nodes_of entries)).
Proof.
  intros Hx. split; [apply buildGraph_ids_match|]. intros c node [Hid Hin]%buildGraph_lookup_Some.
  apply list_elem_of_fmap in Hin as (x&->&Hin). simpl in *. subst. by apply Hx.
Qed.

Lemma complete_nodes d k entries : (∀ c, in_vault d k c → c ∈ HistorySummaryEntry.revisionId <$> entries) →
  complete d k (buildGraph (nodes_of entries)).
Proof.
  intros Hc c Hin%Hc. apply buildGraph_is_Some. unfold nodes_of. by rewrite <-list_fmap_compose.
Qed.

Lemma historySummary_run k e :
  historySummary k e = (Ok (summary_entry <$> revisions_of (db e) k), e).
Proof.
  unfold historySummary. erewrite bind_eq; [reflexivity|].
  rewrite metadata_run, listRevisions_run. cbn [fst snd]. by rewrite set_db_id.
Qed.

Lemma history_ids e k c : engine_ok e →
  c ∈ HistorySummaryEntry.revisionId <$> (summary_entry <$> revisions_of (db e) k) ↔ in_vault (db e) k c.
Proof.
  intros Hok. rewrite <-list_fmap_compose. apply elem_of_revisions_of, Hok.
Qed.

Lemma history_told s k x : honest s → x ∈ summary_entry <$> revisions_of (db (Session.engine s)) k → told_entry k x.
Proof.
  intros Hs. pose proof (ok_wf _ (hon_ok s Hs)) as Hd. unfold revisions_of.
  rewrite <-list_fmap_compose, list_elem_of_fmap.
  setoid_rewrite (order_by_desc_perm RevisionRow.created_at (revision_rows (db (Session.engine s)) k)).
  intros (row&->&[Hrow Hk]%elem_of_revision_rows); [|done]. unfold told_entry. simpl. subst k.
  by apply (hon_rows s Hs).
Qed.

Context (Hwf : wf (db e0)) (Hwf' : wf (db e0')) (Hagree : agree (db e0) (db e0')).

Lemma told_edges k c ps : told k c ps → ∀ p, p ∈ ps ↔ vault_edge (db e0) k c p ∨ vault_edge (db e0') k c p.
Proof.
  intros [(row&Hrow&Hk&Hp)|(row&Hrow&Hk&Hp)] p; rewrite Hp; unfold vault_edge, in_vault.
  - split; [intros He; left; eauto|]. intros [[_ ?]|[(row'&Hrow'&_) He]]; [done|].
    by apply (Hagree c row row' Hrow Hrow').
  - split; [intros He; right; eauto|]. intros [[(row'&Hrow'&_) He]|[_ ?]]; [|done].
    by apply (Hagree c row' row Hrow' Hrow).
Qed.

Lemma knows_edge k g c p : knows k g → is_Some (g !! c) →
  parent_of g c p ↔ vault_edge (db e0) k c p ∨ vault_edge (db e0') k c p.
Proof.
  intros [_ Hg] [node Hnode]. rewrite (parent_of_lookup g c node p Hnode). by apply told_edges, Hg.
Qed.

Lemma union_joint k g g' : knows k g → knows k g' → complete (db e0) k g → complete (db e0') k g' →
  joint (db e0) (db e0') k (unionGraphs g g').
Proof.
  intros Hg Hg' Hc Hc'.
  assert (knows k (unionGraphs g g')) as Hu.
  { split; [apply buildGraph_ids_match|]. intros c node. rewrite lookup_unionGraphs by (apply Hg || apply Hg').
    destruct (g' !! c) eqn:Hgc; [intros [= <-]; by apply Hg'|apply Hg]. }
  intros c p. split.
  - intros Hp. apply (knows_edge k _ c p Hu); [|done]. destruct Hp as (node&?&_). by exists node.
  - intros He. apply (knows_edge k _ c p Hu); [|done]. rewrite lookup_unionGraphs by (apply Hg || apply Hg').
    destruct He as [[Hin _]|[Hin _]].
    + destruct (g' !! c); [done|]. by apply Hc.
    + destruct (Hc' c Hin) as [node ->]. done.
Qed.

Lemma complete_path k g h c : knows k g → complete (db e0') k g →
  rtc (vault_edge (db e0') k) h c → rtc (parent_of g) h c.
Proof.
  intros Hg Hc. apply (rtc_congruence id). intros x y Hxy. apply (knows_edge k g x y Hg); [|by right].
  apply Hc, Hxy.
Qed.

(** ** The main task *)

Context (Hown : ∀ k, dep = Some k → k ≠ EMPTY_VAULT_ID ∧ is_Some (Db.vaults (db e0) !! k)).
Context (Hpeer : ∀ k, dep' = Some k → k ≠ EMPTY_VAULT_ID).

(** The session is about the vault of both, and heard of the peer's head. *)
Definition agreed s (head : option RevisionId) : Prop :=
  common dep dep' = Some (Session.vaultId s) ∧ head = offered e0' dep'.

(** Nothing the peer's head builds on is lost sight of: it is stored, or among
    [ids], or its rejection was reported. *)
Definition accounted s (ids : list RevisionId) : Prop :=
  ∀ k h c, common dep dep' = Some k → offered e0' dep' = Some h →
    rtc (vault_edge (db e0') k) h c → in_vault (db e0') k c →
    StoreTheory.stored (db (Session.engine s)) c ∨ c ∈ ids ∨ rejected s c.

(** The session has the peer's history. *)
Definition informed s (head : option RevisionId) (g : RevisionGraph) : Prop :=
  agreed s head ∧ knows (Session.vaultId s) g ∧ complete (db e0') (Session.vaultId s) g ∧
  accounted s (Session.expected s).

(** What the result of a session says. *)
Definition concluded s (result : SessionResult.t) : Prop :=
  let k := SessionResult.vaultId result in
  common dep dep' = Some k ∧ SessionResult.remoteHead result = offered e0' dep' ∧
  (∃ g, joint (db e0) (db e0') k g ∧
     verdict g (head_in (db e0) k) (SessionResult.remoteHead result) (SessionResult.divergence result)) ∧
  accounted s (SessionResult.missing result).

Definition phase_ok s (phase : Phase) : Prop :=
  match phase with
  | AwaitVaultSummary _ local _ => local = dep ≫= λ k, Db.vaults (db e0) !! k
  | AwaitHistory _ head _ => agreed s head
  | AwaitWants _ head g _ | Exchanging _ head g | AwaitPeerComplete _ head g | AwaitInboundWork _ head g _ =>
      informed s head g
  | Done result => concluded s result
  | _ => True
  end.

Record facing s : Prop := Facing {
  facing_honest : honest s;
  facing_phase : phase_ok s (Session.phase s);
}.

Lemma accounted_grows s s' ids ids' : grows s s' →
  (∀ c, c ∈ ids → c ∈ ids' ∨ StoreTheory.stored (db (Session.engine s')) c ∨ rejected s' c) →
  accounted s ids → accounted s' ids'.
Proof.
  intros Hg Hids Ha k h c Hk Hh Hr Hin. destruct (Ha k h c Hk Hh Hr Hin) as [Hc|[Hc|[reason Hc]]].
  - left. by apply (grow_stored _ _ Hg).
  - destruct (Hids c Hc) as [?|[?|?]]; auto.
  - right; right. exists reason. by apply (grow_events _ _ Hg).
Qed.

Lemma informed_grows s s' head g : grows s s' → informed s head g → informed s' head g.
Proof.
  intros Hg (Ha&Hk&Hc&Hacc). unfold informed, agreed in *. rewrite (grow_vault _ _ Hg).
  split_and!; try apply Ha; try done. eapply accounted_grows; [done| |done]. apply Hg.
Qed.

Lemma phase_ok_grows s s' : grows s s' → phase_ok s (Session.phase s) → phase_ok s' (Session.phase s').
Proof.
  intros Hg. destruct (grow_phase _ _ Hg) as [->|[failure ->]]; [|done].
  destruct (Session.phase s); simpl; try done; try by apply informed_grows.
  - unfold agreed. by rewrite (grow_vault _ _ Hg).
  - intros (?&?&?&Hacc). split_and!; try done. eapply accounted_grows; [done| |done]. auto.
Qed.

Lemma facing_on_event event s : event ≠ MainResumes →
  (∀ raw, event = ControlMessage raw → ∀ m, parseMessage raw = parsed m → says e0' dep' m) →
  facing s → facing (on_event clock dep chunkBytes event s).2.
Proof.
  intros Hev Hraw [Hs Hph]. split; [by apply honest_on_event|].
  by apply (phase_ok_grows s); [apply advances_on_event|].
Qed.

(** A task goes to a phase that is right for what it leaves. *)
Lemma facing_goto s phase : honest s → phase_ok s phase → facing (goto phase s).2.
Proof.
  intros Hs Hph. split; [by apply honest_goto|]. destruct phase; simpl in *; try done.
Qed.

Lemma facing_fails s failure : honest s → facing (goto (Failed failure) s).2.
Proof. intros Hs. by apply facing_goto. Qed.

(** A task says something and waits for the answer. *)
Lemma facing_asks m type (phase : nat → Phase) s : honest s → says e0 dep m → (∀ n, phase_ok s (phase n)) →
  facing ((send m ≫= λ _, expect type ≫= λ promise, goto (phase promise)) s).2.
Proof.
  intros Hs Hm Hph. set (s1 := (send m s).2). assert (honest s1) as Hs1 by by apply honest_send.
  change ((send m ≫= λ _, expect type ≫= λ promise, goto (phase promise)) s)
    with (goto (phase (length (ControlInbox.promises (Session.inbox s1)))) (expect type s1).2).
  apply facing_goto; [by apply honest_expect|].
  specialize (Hph (length (ControlInbox.promises (Session.inbox s1)))).
  destruct (phase _); simpl in *; try done.
Qed.

Lemma facing_send_history remote head s : honest s → agreed s head →
  facing (send_history remote head s).2.
Proof.
  intros Hs Ha. unfold send_history, gets, mbind, M_bind.
  rewrite call_reads by apply reads_historySummary. rewrite historySummary_run. cbn [fst].
  apply (facing_asks _ _ (AwaitHistory remote head)); [done| |by intros].
  split_and!; [apply Ha|intros x; by apply history_told|].
  intros c (row&Hrow&Hk). apply history_ids; [by apply Hs|]. exists row. split; [|done].
  by apply (ext_revisions _ _ (hon_extends s Hs)).
Qed.

Lemma facing_send_vault_summary remote s : honest s → facing (send_vault_summary dep remote s).2.
Proof.
  intros Hs. unfold send_vault_summary.
  assert (∀ k, engine_getVault (B := B) k (Session.engine s) = (Ok (Db.vaults (db (Session.engine s)) !! k), Session.engine s))
    as Hget by (intros k; exact (metadata_gets (λ d, Db.vaults d !! k) (Session.engine s))).
  destruct dep as [k|] eqn:Hdep.
  - rewrite call_reads by apply reads_getVault. rewrite Hget. cbn [fst].
    destruct (Hown k eq_refl) as [_ [v Hv]]. rewrite (ext_vaults _ _ (hon_extends s Hs) _ _ Hv).
    rewrite call_reads by apply reads_revisionCount.
    destruct (revisionCount _ _).1 as [n|err]; [|by apply facing_fails].
    apply (facing_asks _ _ (AwaitVaultSummary remote (Some v))); [done| |].
    + simpl. rewrite Hdep. simpl. unfold head_in. rewrite Hv. split; [|done].
      by apply (wf_vault_id _ (ok_wf _ (hon_ok s Hs))), (ext_vaults _ _ (hon_extends s Hs)).
    + intros promise. simpl. by rewrite Hdep.
  - unfold call, mret, M_ret. apply (facing_asks _ _ (AwaitVaultSummary remote None)); [done| |].
    + simpl. by rewrite Hdep.
    + intros promise. simpl. by rewrite Hdep.
Qed.

Lemma kept_adopt_vault k name : kept (engine_call (adoptVault clock k name)).
Proof. apply honest_engine. intros e Hok Hr. split_and!; [by apply ok_adopt|apply adopt_extends|by apply adopt_rows]. Qed.

(** What the peer's summary says of its vault. *)
Lemma peer_vault k : k = default EMPTY_VAULT_ID dep' → k ≠ EMPTY_VAULT_ID → dep' = Some k.
Proof. intros ->. by destruct dep'. Qed.

Lemma own_vault : (∃ k v, dep = Some k ∧ Db.vaults (db e0) !! k = Some v) ∨ dep = None.
Proof. destruct dep as [k|]; [|by right]. left. destruct (Hown k eq_refl) as [_ [v Hv]]. eauto. Qed.

Lemma facing_on_vault_summary remote local message s : honest s → says e0' dep' message →
  local = (dep ≫= λ k, Db.vaults (db e0) !! k) →
  (∃ k n h c, message = VaultSummary k n h c) →
  facing (on_vault_summary clock remote local message s).2.
Proof.
  intros Hs Hm Hlocal (k & name & head & count & ->). destruct Hm as [Hk Hhead]. unfold on_vault_summary. cbv zeta.
  destruct own_vault as [(k0 & v & Hdep & Hv)|Hdep]; rewrite Hdep in Hlocal; simpl in Hlocal; subst local.
  - rewrite Hv. assert (Vault.id v = k0) as Hid.
    { by apply (wf_vault_id _ (ok_wf _ (hon_ok s Hs))), (ext_vaults _ _ (hon_extends s Hs)). }
    case_match eqn:Hdiff; [by apply facing_fails|].
    apply facing_send_history; [by destruct Hs|]. split; [|done]. simpl. rewrite Hdep, Hid.
    apply andb_false_iff in Hdiff. rewrite !bool_decide_eq_false in Hdiff.
    unfold common. destruct (decide (k = EMPTY_VAULT_ID)) as [Hempty|Hne].
    + destruct dep' as [k'|] eqn:Hdep'; [|done]. simpl in Hk. subst k'. by destruct (Hpeer k).
    + rewrite (peer_vault k Hk Hne). assert (k = k0) as -> by (destruct Hdiff as [Hd|Hd]; [tauto|]; apply dec_stable in Hd; congruence).
      by rewrite decide_True.
  - destruct (negb _) eqn:Hempty; [by apply facing_fails|].
    apply negb_false_iff, bool_decide_eq_true in Hempty.
    pose proof (kept_adopt_vault k name s Hs) as Hs1. unfold call.
    destruct (engine_call _ s) as [[x|err] s1]; [|by apply facing_fails].
    apply facing_send_history; [by destruct Hs1|]. split; [|done]. simpl.
    unfold common. by rewrite Hdep, (peer_vault k Hk Hempty).
Qed.

(** Every revision behind the peer's head is held, or wanted. *)
Lemma wanted_accounts k g h s : honest s → knows k g → complete (db e0') k g → acyclic g → Session.vaultId s = k →
  ∃ wanted, computeWants g h s = (Ok wanted, s) ∧
  ∀ c, rtc (vault_edge (db e0') k) h c → in_vault (db e0') k c →
    StoreTheory.stored (db (Session.engine s)) c ∨ c ∈ wanted.
Proof.
  intros Hs Hg Hc Hacyc Hk. unfold computeWants, gets, mbind, M_bind. rewrite Hk.
  unfold engine_call, on. simpl. rewrite historySummary_run.
  change (Session.set_engine (Session.engine s) s) with (with_part (part s) s). rewrite with_part_part.
  set (held := set_from _).
  destruct (missingRevisions_ok g h (λ id, bool_decide (id ∈ held)) Hacyc) as (wanted & Hw & _ & Hin & _).
  exists wanted. unfold lift. rewrite Hw. split; [done|]. intros c Hr Hv. rewrite (Hin c).
  destruct (bool_decide (c ∈ held)) eqn:Hheld.
  - left. apply bool_decide_eq_true, elem_of_set_from, history_ids in Hheld; [|apply Hs].
    destruct Hheld as (row&Hrow&_). by exists row.
  - right. split_and!; [by apply (complete_path k)|by apply Hc|done].
Qed.

Lemma facing_on_history remote head message s : honest s → says e0' dep' message → agreed s head →
  (∃ k entries, message = Protocol.HistorySummary k entries) →
  facing (on_history remote head message s).2.
Proof.
  intros Hs Hm Ha (k & entries & ->). destruct Hm as (Hk & Htold & Hall). unfold on_history.
  assert (Session.vaultId s = k) as Hvault by (destruct Ha as [Ha _]; congruence).
  unfold call at 1, lift. destruct (validateRemoteGraph (nodes_of entries)) as [[]|err] eqn:Hvalid; [|by apply facing_fails].
  assert (acyclic (buildGraph (nodes_of entries))) as Hacyc by (apply acyclic_check; by rewrite Hvalid).
  pose proof (knows_nodes k entries Htold) as Hg. pose proof (complete_nodes _ k entries Hall) as Hc.
  cbv zeta. set (g := buildGraph (nodes_of entries)) in *.
  assert (∃ wanted, (match head with None => mret [] | Some head => computeWants g head end) s = (Ok wanted, s) ∧
    ∀ h c, head = Some h → rtc (vault_edge (db e0') k) h c → in_vault (db e0') k c →
      StoreTheory.stored (db (Session.engine s)) c ∨ c ∈ wanted) as (wanted & Hrun & Hw).
  { destruct head as [h|]; [|by exists []].
    destruct (wanted_accounts k g h s Hs Hg Hc Hacyc Hvault) as (wanted&Hrun&Hw). exists wanted. split; [done|].
    intros h' c [= <-]. apply Hw. }
  unfold call. rewrite Hrun.
  set (s1 := Session.set_events (Session.events s ++ [requested wanted])
    (Session.set_expected (foldl set_add (Session.expected s) wanted) s)).
  change (facing ((send (WantRevisions (Session.vaultId s1) wanted) ≫= λ _, expect "want-revisions" ≫= λ promise,
    goto (AwaitWants remote head g promise)) s1).2).
  apply (facing_asks _ _ (AwaitWants remote head g)); [by destruct Hs|done|]. intros promise. simpl.
  unfold informed. change (Session.vaultId s1) with (Session.vaultId s). rewrite Hvault.
  split_and!; [exact Ha|done..|].
  intros k' h c Hk' Hh Hr Hin. assert (k' = k) as -> by congruence.
  destruct (Hw h c) as [?|?]; [by destruct Ha as [_ ->]|done..|by left|].
  right; left. apply elem_of_set_adds. by right.
Qed.

Lemma kept_record_head peer k head : kept (engine_call (engine_recordPeerHead clock peer k head)).
Proof.
  apply honest_engine. intros e Hok Hr. split_and!; [by apply ok_peer_head|apply peer_head_extends|by apply peer_head_rows].
Qed.

Lemma getVault_run k e : engine_getVault (B := B) k e = (Ok (Db.vaults (db e) !! k), e).
Proof. exact (metadata_gets (λ d, Db.vaults d !! k) e). Qed.

Lemma engine_call_run {X} (m : M (EngineState.t B) X) x s :
  m (Session.engine s) = (Ok x, Session.engine s) → engine_call m s = (Ok x, s).
Proof.
  intros Hm. unfold engine_call, on. simpl. rewrite Hm.
  change (Session.set_engine (Session.engine s) s) with (with_part (part s) s). by rewrite with_part_part.
Qed.

(** The divergence is that of the two heads in the joint history. *)
Lemma classify_verdict k g head s : honest s → knows k g → complete (db e0') k g → Session.vaultId s = k →
  ∃ d g', classify g head s = (Ok d, s) ∧ joint (db e0) (db e0') k g' ∧ acyclic g' ∧
    verdict g' (head_in (db e0) k) head d.
Proof.
  intros Hs Hg Hc Hk.
  set (local := buildGraph (nodes_of (summary_entry <$> revisions_of (db (Session.engine s)) k))).
  assert (joint (db e0) (db e0') k (unionGraphs local g)) as Hjoint.
  { apply union_joint; [|done| |done].
    - apply knows_nodes. intros x. by apply history_told.
    - apply complete_nodes. intros c (row&Hrow&Hin). apply history_ids; [by apply Hs|].
      exists row. split; [|done]. by apply (ext_revisions _ _ (hon_extends s Hs)). }
  pose proof (joint_acyclic _ _ _ _ Hwf Hwf' Hagree Hjoint) as Hacyc.
  unfold classify, gets, mbind at 1, M_bind at 1. rewrite Hk.
  rewrite (bind_eq _ _ _ _ _ (engine_call_run _ _ s (getVault_run k (Session.engine s)))).
  change (Db.vaults (db (Session.engine s)) !! k ≫= Vault.headRevisionId) with (head_in (db (Session.engine s)) k).
  rewrite (head_in_extends k _ (hon_extends s Hs)).
  destruct (head_in (db e0) k) as [l|], head as [r|]; try (by eexists _, _; split_and!).
  rewrite (bind_eq _ _ _ _ _ (engine_call_run _ _ s (historySummary_run k (Session.engine s)))).
  eexists _, _. split_and!; [done|exact Hjoint|done|]. by apply classifyDivergence_spec.
Qed.

Lemma facing_finish remote head g s : honest s → informed s head g → facing (finish clock remote head g s).2.
Proof.
  intros Hs Hi. unfold finish, gets, mbind at 1, M_bind at 1.
  set (m := match head with None => mret tt | Some head => engine_call (engine_recordPeerHead clock (Remote.id remote) (Session.vaultId s) head) end).
  assert (honest (m s).2 ∧ grows s (m s).2) as [Hs1 Hg].
  { subst m. destruct head as [h|]; [|done]. split; [by apply kept_record_head|].
    pose proof (peer_head_extends clock (Remote.id remote) (Session.vaultId s) h (Session.engine s)) as Hext.
    unfold engine_call, on. simpl. destruct (engine_recordPeerHead _ _ _ _ _) as [r e]. simpl in *.
    split; simpl; auto. intros c. by apply extends_stored. }
  unfold call at 1. destruct (m s) as [[[]|err] s1]; cbn [snd] in *; [|by apply facing_fails].
  destruct (informed_grows _ _ _ _ Hg Hi) as (Ha & Hk & Hc & Hacc).
  destruct (classify_verdict (Session.vaultId s1) g head s1 Hs1 Hk Hc eq_refl) as (d & g' & Hd & Hj & Hacyc & Hv).
  unfold mbind, M_bind, call. rewrite Hd. apply facing_goto; [done|]. simpl.
  rewrite <-(grow_vault _ _ Hg). destruct Ha as [Ha Hhead]. unfold concluded. simpl. split_and!; [done|done| |done].
  exists g'. by split.
Qed.

Lemma kept_attach : kept attach.
Proof.
  apply keeps_modify. intros s []. split; try done. simpl. intros m Hm. apply hon_heard0.
  revert Hm. unfold handled_types. simpl. by intros Hm%heard_on%heard_on%heard_on%heard_on.
Qed.

Lemma facing_run_start s : honest s → facing (run_start dep s).2.
Proof.
  intros Hs. unfold run_start.
  set (start := λ _ : (), modify (λ s, match dep with Some id => Session.set_vaultId id s | None => s end) ≫= _).
  assert (∀ s, honest s → facing (start tt s).2) as Hstart.
  { clear s Hs. intros s Hs. subst start. cbv beta.
    set (s1 := match dep with Some id => Session.set_vaultId id s | None => s end).
    assert (honest s1) as Hs1 by (subst s1; destruct dep; by destruct Hs).
    change (facing (call (auth_call auth_newNonce) (λ ourNonce,
      send (Hello PROTOCOL_VERSION auth_deviceId auth_deviceName (toBase64 auth_publicKey) (toBase64 ourNonce)) ≫= λ _,
      expect "hello" ≫= λ promise, goto (AwaitHello ourNonce promise)) s1).2).
    pose proof (honest_auth auth_newNonce s1 Hs1) as Hs2. unfold call.
    destruct (auth_call _ s1) as [[nonce|err] s2]; [|by apply facing_fails].
    by apply (facing_asks _ _ (AwaitHello nonce)). }
  change (facing (start tt (attach s).2).2). by apply Hstart, kept_attach.
Qed.

Lemma facing_on_hello nonce message s : facing s → facing (on_hello nonce message s).2.
Proof.
  intros Hs. unfold on_hello. destruct message; try done. case_decide.
  - apply facing_fails. by apply honest_send, Hs.
  - destruct (fromBase64 publicKey) as [key|]; [|apply facing_fails, Hs].
    destruct (fromBase64 nonce0) as [n|]; [|apply facing_fails, Hs].
    by apply (facing_asks _ _ (AwaitAuth nonce deviceId deviceName key)); [apply Hs|..].
Qed.

Lemma facing_on_auth nonce id name key message s : facing s → facing (on_auth nonce id name key message s).2.
Proof.
  intros Hs. unfold on_auth. destruct message; try done.
  destruct (fromBase64 signature); [by apply facing_goto; [apply Hs|]|apply facing_fails, Hs].
Qed.

Lemma facing_on_verified claim s : honest s → facing (on_verified dep claim s).2.
Proof.
  intros Hs. unfold on_verified, call at 1.
  pose proof (honest_auth (auth_verifyPeer claim) s Hs) as Hs1.
  destruct (auth_call _ s) as [[[name|reason]|err] s1]; [| |by apply facing_fails].
  - apply facing_send_vault_summary. by destruct Hs1.
  - apply facing_fails. by apply honest_send.
Qed.

(** What is awaited was heard. *)
Lemma facing_awaiting promise k s : facing s →
  (∀ m, says e0' dep' m → facing (k m s).2) → facing (awaiting promise k s).2.
Proof.
  intros Hs Hk. unfold awaiting. destruct (_ !! promise) as [[ty []]|] eqn:Hp; try done.
  - apply Hk, (hon_heard s (facing_honest s Hs)). right. eexists. split; [by eapply list_elem_of_lookup_2|done].
  - apply facing_fails, Hs.
Qed.

Lemma facing_resume s : facing s → facing (resume clock dep s).2.
Proof.
  intros Hs. pose proof (facing_honest s Hs) as Hh. pose proof (facing_phase s Hs) as Hph.
  unfold resume. destruct (Session.phase s) eqn:Hphase; simpl in Hph.
  - by apply facing_run_start.
  - apply facing_awaiting; [done|]. intros m _. by apply facing_on_hello.
  - apply facing_awaiting; [done|]. intros m _. by apply facing_on_auth.
  - by apply facing_on_verified.
  - apply facing_awaiting; [done|]. intros m Hm. destruct m; try exact Hs.
    apply facing_on_vault_summary; eauto.
  - apply facing_awaiting; [done|]. intros m Hm. destruct m; try exact Hs.
    apply facing_on_history; eauto.
  - apply facing_awaiting; [done|]. intros m _. destruct m; try exact Hs.
    apply facing_goto; [by destruct Hh; case_decide|]. simpl. by case_decide.
  - case_match; [|done]. apply facing_goto; [by apply honest_send|done].
  - case_match; [|done]. by apply facing_goto.
  - case_match; [|done]. by apply facing_finish.
  - done.
  - done.
Qed.

(** Against a peer that says what a session says, every event keeps it. *)
Lemma facing_event event s :
  (∀ raw, event = ControlMessage raw → ∀ m, parseMessage raw = parsed m → says e0' dep' m) →
  facing s → facing (on_event clock dep chunkBytes event s).2.
Proof.
  intros Hraw Hs. destruct event; first [by apply facing_resume|by apply facing_on_event].
Qed.

Lemma facing_start a : engine_ok e0 → facing (new_session e0 a).
Proof.
  intros Hok. split; [|done]. split; simpl; try done.
  - apply rows_start.
  - by intros h b ?%elem_of_nil.
  - intros m [(?&?&Hq&_)|(p&Hp%elem_of_nil&_)]; done.
  - by intros m ?%elem_of_nil.
Qed.
End facing.
