(* ===== verification/LinkProps.v ===== *)
(** * Two sessions over a link: properties

    What two devices that run a session with each other know at its end, under
    every interleaving of their tasks, timers and deliveries. *)

From S2P Require Import Prelude Model Bytes JsString Dag DagTheory DagProps Framing Lineage Json JsonProps Protocol.
From S2P Require Import ProtocolProps Codec Effects Store StoreTheory StoreProps BlobStore BlobProps Engine EngineTheory.
From S2P Require Import EngineSteps EngineProps Inbox Identity IdentityProps Session SessionTheory SessionProps.
From S2P Require Import Services Desk Link LinkTheory.
From stdpp Require Import relations.

Open Scope Z_scope.

(** ** What was said stays said *)

Section said.
Context `{RowOrder} `{Sha256} {B : Type} `{!BlobStore B} {A : Type} `{!PeerAuthenticator A}.
Context (clock : nat → Date) (dep : option VaultId) (chunkBytes : Z).

#[local] Instance said_invariant (said : list ProtocolMessage) :
  SessionInvariant (B := B) (λ s : Session.t B A, said `prefix_of` Session.control s) (λ _, True).
Proof.
  split; [done|..].
  - intros s s' Hs [_ _ -> _ _]. done.
  - intros m s Hs _. by apply prefix_app_r.
  - done.
  - intros id s Hs _. by apply prefix_app_r.
  - done.
Qed.

Lemma control_grows event (s : Session.t B A) :
  Session.control s `prefix_of` Session.control (on_event clock dep chunkBytes event s).2.
Proof.
  apply (kept_on_event clock dep chunkBytes (λ s', Session.control s `prefix_of` Session.control s') (λ _, True)); [|done].
  intros _. by apply (kept_resume clock dep (λ s', Session.control s `prefix_of` Session.control s') (λ _, True)); [|intros id s' Hs'].
Qed.
End said.

(** ** The channel *)

Lemma send_inFlight {T} (size : T → Z) data (c : MemoryChannel.t T) x :
  x ∈ MemoryChannel.inFlight (MemoryChannel.send size data c) → x ∈ MemoryChannel.inFlight c ∨ x = data.
Proof. unfold MemoryChannel.send. case_match; [by left|]. simpl. rewrite elem_of_app, list_elem_of_singleton. done. Qed.

Lemma deliver_inFlight {T} (size : T → Z) low (c peer : MemoryChannel.t T) :
  let '(c', received, _) := MemoryChannel.deliver size low c peer in
  (∀ x, x ∈ MemoryChannel.inFlight c' → x ∈ MemoryChannel.inFlight c) ∧
  ∀ x, received = Some x → x ∈ MemoryChannel.inFlight c.
Proof.
  unfold MemoryChannel.deliver. destruct (MemoryChannel.inFlight c) as [|data rest] eqn:Hc.
  - rewrite Hc. by split.
  - simpl. split; [by right|]. intros x. case_match; [done|]. intros [= <-]. by left.
Qed.

Lemma close_inFlight {T} (c peer : MemoryChannel.t T) :
  let '(c', peer', _) := MemoryChannel.close c peer in
  MemoryChannel.inFlight c' = MemoryChannel.inFlight c ∧ MemoryChannel.inFlight peer' = MemoryChannel.inFlight peer.
Proof. unfold MemoryChannel.close. by destruct (MemoryChannel.closed c). Qed.

Lemma posts_inFlight messages frames l raw :
  raw ∈ MemoryChannel.inFlight (PeerLink.control (posts messages frames l)) →
  raw ∈ MemoryChannel.inFlight (PeerLink.control l) ∨ ∃ m, m ∈ messages ∧ raw = encodeMessage m.
Proof.
  unfold posts, send_text. cbn [PeerLink.control]. generalize (PeerLink.control l).
  induction messages as [|m messages IH]; intros c; cbn [foldl]; [by left|].
  intros [Hin|(m' & Hm & Hraw)]%IH; [apply send_inFlight in Hin as [?|Hraw]; [by left|]|]; right.
  - exists m. split; [by left|done].
  - exists m'. split; [by right|done].
Qed.

(** ** The two halves *)

Section world.
Context `{RowOrder} `{Sha256} {B : Type} `{!BlobStore B}.

(** A device that a session starts on: sound, and holding the vault it names. *)
Record joins (e : EngineState.t B) (vault : option VaultId) : Prop := Joins {
  joins_ok : engine_ok e;
  joins_named : ∀ k, vault = Some k → k ≠ EMPTY_VAULT_ID ∧ is_Some (Db.vaults (db e) !! k);
}.

Record half {A} (e e' : EngineState.t B) (dep dep' : option VaultId) (s : Session.t B A) (l : PeerLink.t) : Prop := Half {
  half_facing : facing e e' dep dep' s;
  half_flying : ∀ raw, raw ∈ MemoryChannel.inFlight (PeerLink.control l) →
    ∃ m, m ∈ Session.control s ∧ raw = encodeMessage m;
}.

Context (e e' : EngineState.t B) (dep dep' : option VaultId).
Context (Hjoins : joins e dep) (Hjoins' : joins e' dep') (Hagree : agree (db e) (db e')).

Lemma half_event {A} `{!PeerAuthenticator A} clock chunkBytes event (s : Session.t B A) l l' :
  half e e' dep dep' s l → MemoryChannel.inFlight (PeerLink.control l') = MemoryChannel.inFlight (PeerLink.control l) →
  (∀ raw, event = ControlMessage raw → ∀ m, parseMessage raw = parsed m → says e e' dep dep' e' dep' m) →
  let s' := (on_event clock dep chunkBytes event s).2 in
  half e e' dep dep' s' (posts (drop (length (Session.control s)) (Session.control s'))
    (drop (length (Session.bulk s)) (Session.bulk s')) l').
Proof.
  intros [Hf Hfly] Hl Hraw. cbv zeta. set (s' := (on_event _ _ _ _ _).2).
  destruct (control_grows clock dep chunkBytes event s) as [new Hnew]. fold s' in Hnew. split.
  - apply facing_event; [apply ok_wf, Hjoins|apply ok_wf, Hjoins'|done|apply Hjoins|by intros k Hk; apply Hjoins'|done..].
  - intros raw [Hin|(m & Hm & ->)]%posts_inFlight.
    + rewrite Hl in Hin. destruct (Hfly raw Hin) as (m & Hm & ->). exists m. split; [|done].
      rewrite Hnew. apply elem_of_app. by left.
    + exists m. split; [|done]. rewrite Hnew, drop_app_length in Hm. rewrite Hnew. apply elem_of_app. by right.
Qed.
End world.

Section worlds.
Context `{RowOrder} `{Sha256} {B : Type} `{!BlobStore B}.

(** Both devices, with what is under way between them. *)
Definition met {A1 A2} (x : Side.t A1) (y : Side.t A2) (e1 e2 : EngineState.t B) (w : World.t B A1 A2) : Prop :=
  half e1 e2 (Side.vaultId x) (Side.vaultId y) (World.left w) (World.leftEnd w) ∧
  half e2 e1 (Side.vaultId y) (Side.vaultId x) (World.right w) (World.rightEnd w).

(** What the two have said is within the limits of the protocol, as its reader
    has it: the summary of a device that names no vault included. *)
Definition speakable (m : ProtocolMessage) : Prop := sendable (named m).

Definition speaks {A1 A2} (w : World.t B A1 A2) : Prop :=
  Forall speakable (Session.control (World.left w)) ∧ Forall speakable (Session.control (World.right w)).

Definition said {A1 A2} (w w' : World.t B A1 A2) : Prop :=
  Session.control (World.left w) `prefix_of` Session.control (World.left w') ∧
  Session.control (World.right w) `prefix_of` Session.control (World.right w').

#[local] Instance said_trans {A1 A2} : Transitive (said (A1 := A1) (A2 := A2)).
Proof. intros a b c [??] [??]. split; by etrans. Qed.

#[local] Instance said_refl {A1 A2} : Reflexive (said (A1 := A1) (A2 := A2)).
Proof. by intros w. Qed.

Lemma said_speaks {A1 A2} (w w' : World.t B A1 A2) : said w w' → speaks w' → speaks w.
Proof. intros [[l Hl] [r Hr]] [Hs Hs']. rewrite Hl, Forall_app in Hs. rewrite Hr, Forall_app in Hs'. split; tauto. Qed.

Lemma said_swap {A1 A2} (w w' : World.t B A1 A2) : said w w' → said (World.swap w) (World.swap w').
Proof. by intros [? ?]. Qed.

Lemma said_left_event {A1 A2} (x : Side.t A1) event (w : World.t B A1 A2) : said w (left_event x event w).
Proof. split; [apply control_grows|done]. Qed.

Lemma said_right_event {A1 A2} (y : Side.t A2) event (w : World.t B A1 A2) : said w (right_event y event w).
Proof. split; [done|apply control_grows]. Qed.

Lemma said_ends {A1 A2} l r (w : World.t B A1 A2) : said w (World.set_ends l r w).
Proof. done. Qed.

Lemma said_left_step {A1 A2} (x : Side.t A1) (y : Side.t A2) step (w : World.t B A1 A2) : said w (left_step x y step w).
Proof.
  destruct step as [event| | |]; unfold left_step.
  - case_match; [apply said_left_event|done].
  - destruct (MemoryChannel.deliver _ _ _ _) as [[c [raw|]] waiters]; [|done].
    etrans; [|apply said_right_event]. apply said_ends.
  - destruct (MemoryChannel.deliver _ _ _ _) as [[c [data|]] waiters]; [|done].
    etrans; [|apply said_right_event]. apply said_ends.
  - unfold link_closes. destruct (MemoryChannel.close _ _) as [[c peer] [mine theirs]]. cbv zeta.
    set (w1 := World.set_ends _ _ w). set (w2 := if mine then _ else w1). set (w3 := if theirs then _ else w2).
    assert (said w w3) as Hs.
    { transitivity w1; [apply said_ends|]. transitivity w2; [subst w2; destruct mine; [apply said_left_event|done]|].
      subst w3. destruct theirs; [apply said_right_event|done]. }
    destruct (MemoryChannel.close _ _) as [[c' peer'] _]. etrans; [exact Hs|apply said_ends].
Qed.

Lemma said_step {A1 A2} (x : Side.t A1) (y : Side.t A2) step (w : World.t B A1 A2) : said w (world_step x y w step).
Proof.
  unfold world_step. destruct (step.1); [apply said_left_step|].
  apply (said_swap (World.swap w) (left_step y x step.2 (World.swap w))), said_left_step.
Qed.

(** ** Every step keeps it *)

Lemma met_swap {A1 A2} (x : Side.t A1) (y : Side.t A2) e1 e2 (w : World.t B A1 A2) :
  met x y e1 e2 w → met y x e2 e1 (World.swap w).
Proof. by intros [? ?]. Qed.

Lemma met_ends {A1 A2} (x : Side.t A1) (y : Side.t A2) e1 e2 l r (w : World.t B A1 A2) :
  (∀ raw, raw ∈ MemoryChannel.inFlight (PeerLink.control l) → raw ∈ MemoryChannel.inFlight (PeerLink.control (World.leftEnd w))) →
  (∀ raw, raw ∈ MemoryChannel.inFlight (PeerLink.control r) → raw ∈ MemoryChannel.inFlight (PeerLink.control (World.rightEnd w))) →
  met x y e1 e2 w → met x y e1 e2 (World.set_ends l r w).
Proof. intros Hl Hr [[Hf Hfly] [Hf' Hfly']]. split; (split; [done|]); auto. Qed.

(** Both sides mean the same by it. *)
Lemma common_comm dep dep' : common dep dep' = common dep' dep.
Proof. destruct dep as [k|], dep' as [k'|]; simpl; try done. repeat case_decide; congruence. Qed.

Lemma says_comm (e1 e2 : EngineState.t B) dep1 dep2 e own m : says e2 e1 dep2 dep1 e own m → says e1 e2 dep1 dep2 e own m.
Proof.
  destruct m; simpl; try done.
  - rewrite (common_comm dep1 dep2). intros (?&Htold&?). split_and!; [done| |done].
    intros x Hx. destruct (Htold x Hx) as [?|?]; [by right|by left].
  - intros [?|?]; [by right|by left].
Qed.

(** The name of a summary is not what a session goes by. *)
Lemma says_named (e1 e2 : EngineState.t B) dep1 dep2 e own m : says e1 e2 dep1 dep2 e own m → says e1 e2 dep1 dep2 e own (named m).
Proof. by destruct m. Qed.

(** What arrives was said, in words the parser knows. *)
Definition arrives {A1 A2} (event : Event) (w : World.t B A1 A2) : Prop :=
  ∀ raw, event = ControlMessage raw → ∃ m, m ∈ Session.control (World.right w) ∧ raw = encodeMessage m ∧ speakable m.

Lemma met_left_event {A1 A2} (x : Side.t A1) (y : Side.t A2) e1 e2 event (w : World.t B A1 A2) :
  joins e1 (Side.vaultId x) → joins e2 (Side.vaultId y) → agree (db e1) (db e2) → arrives event w →
  met x y e1 e2 w → met x y e1 e2 (left_event x event w).
Proof.
  intros Hj1 Hj2 Ha Harr [Hl Hr]. split; [|done]. eapply (half_event e1 e2 (Side.vaultId x) (Side.vaultId y) Hj1 Hj2 Ha); [exact Hl|..].
  - by destruct (Session.phase _), event.
  - intros raw Hraw m Hm. destruct (Harr raw Hraw) as (m' & Hin & -> & Hsend).
    rewrite (parse_named m' Hsend) in Hm. injection Hm as <-. destruct Hr as [Hf _].
    by apply says_comm, says_named, (hon_said _ _ _ _ _ (facing_honest _ _ _ _ _ Hf)).
Qed.

Lemma met_right_event {A1 A2} (x : Side.t A1) (y : Side.t A2) e1 e2 event (w : World.t B A1 A2) :
  joins e1 (Side.vaultId x) → joins e2 (Side.vaultId y) → agree (db e1) (db e2) → arrives event (World.swap w) →
  met x y e1 e2 w → met x y e1 e2 (right_event y event w).
Proof.
  intros Hj1 Hj2 Ha Harr Hw. apply (met_swap y x e2 e1 (left_event y event (World.swap w))).
  apply met_left_event; [done..|by apply agree_sym|done|by apply met_swap].
Qed.

Lemma met_left_step {A1 A2} (x : Side.t A1) (y : Side.t A2) e1 e2 step (w : World.t B A1 A2) :
  joins e1 (Side.vaultId x) → joins e2 (Side.vaultId y) → agree (db e1) (db e2) → speaks w →
  met x y e1 e2 w → met x y e1 e2 (left_step x y step w).
Proof.
  intros Hj1 Hj2 Ha [Hs _] Hw. destruct step as [event| | |]; unfold left_step.
  - destruct (own_event event) eqn:Hown; [|done]. apply met_left_event; [done..| |done]. by intros raw ->.
  - pose proof (deliver_inFlight str_length DEFAULT_LOW_WATER (PeerLink.control (World.leftEnd w)) (PeerLink.control (World.rightEnd w))) as Hd.
    destruct (MemoryChannel.deliver _ _ _ _) as [[c received] waiters]. destruct Hd as [Hsub Hrec].
    assert (met x y e1 e2 (World.set_ends (PeerLink.set_control c (World.leftEnd w)) (World.rightEnd w) w)) as Hw1 by by apply met_ends.
    destruct received as [raw|]; [|done]. apply met_right_event; [done..| |done].
    intros raw' [= <-]. destruct Hw as [[_ Hfly] _]. destruct (Hfly raw (Hrec raw eq_refl)) as (m & Hm & ->).
    exists m. split_and!; [done..|]. by eapply Forall_forall.
  - pose proof (deliver_inFlight byteLength DEFAULT_LOW_WATER (PeerLink.bulk (World.leftEnd w)) (PeerLink.bulk (World.rightEnd w))) as Hd.
    destruct (MemoryChannel.deliver _ _ _ _) as [[c received] waiters].
    assert (met x y e1 e2 (World.set_ends (PeerLink.set_bulk c (World.leftEnd w)) (World.rightEnd w) w)) as Hw1 by by apply met_ends.
    destruct received as [data|]; [|done]. by apply met_right_event.
  - unfold link_closes.
    pose proof (close_inFlight (PeerLink.control (World.leftEnd w)) (PeerLink.control (World.rightEnd w))) as Hc.
    destruct (MemoryChannel.close _ _) as [[c peer] [mine theirs]]. destruct Hc as [Hc Hpeer]. cbv zeta.
    set (w1 := World.set_ends _ _ w). set (w2 := if mine then _ else w1). set (w3 := if theirs then _ else w2).
    assert (met x y e1 e2 w1) as Hw1 by (apply met_ends; simpl; by rewrite ?Hc, ?Hpeer).
    assert (met x y e1 e2 w2) as Hw2 by (subst w2; destruct mine; [by apply met_left_event|done]).
    assert (met x y e1 e2 w3) as Hw3 by (subst w3; destruct theirs; [by apply met_right_event|done]).
    destruct (MemoryChannel.close _ _) as [[c' peer'] _]. by apply met_ends.
Qed.

Lemma met_step {A1 A2} (x : Side.t A1) (y : Side.t A2) e1 e2 step (w : World.t B A1 A2) :
  joins e1 (Side.vaultId x) → joins e2 (Side.vaultId y) → agree (db e1) (db e2) → speaks w →
  met x y e1 e2 w → met x y e1 e2 (world_step x y w step).
Proof.
  intros Hj1 Hj2 Ha [Hs Hs'] Hw. unfold world_step. destruct (step.1); [by apply met_left_step|].
  apply (met_swap y x e2 e1 (left_step y x step.2 (World.swap w))).
  apply met_left_step; [done..|by apply agree_sym|done|by apply met_swap].
Qed.

Lemma met_run {A1 A2} (x : Side.t A1) (y : Side.t A2) e1 a1 e2 a2 steps :
  joins e1 (Side.vaultId x) → joins e2 (Side.vaultId y) → agree (db e1) (db e2) →
  let w := run_world x y steps (connected e1 a1 e2 a2) in speaks w → met x y e1 e2 w.
Proof.
  intros Hj1 Hj2 Ha. cbv zeta. induction steps as [|step steps IH] using rev_ind; intros Hs.
  - destruct Hj1, Hj2. split; (split; [by apply facing_start|]); by intros raw ?%elem_of_nil.
  - unfold run_world in *. rewrite foldl_snoc in *.
    pose proof (said_speaks _ _ (said_step x y step (foldl (world_step x y) (connected e1 a1 e2 a2) steps)) Hs) as Hs0.
    apply met_step; [done..|by apply IH].
Qed.

(** ** What the results say *)

(** What a head of the vault builds on, itself included. *)
Definition builds_on (d : Db.t) (k : VaultId) (head c : RevisionId) : Prop :=
  rtc (vault_edge d k) head c ∧ in_vault d k c.

(** The result of a session on [e] with [e'], which left [s]. *)
Record so (e e' : EngineState.t B) (dep dep' : option VaultId) {A} (s : Session.t B A) (result : SessionResult.t) : Prop := So {
  so_vault : common dep dep' = Some (SessionResult.vaultId result);
  so_head : SessionResult.remoteHead result = offered e' dep';
  so_divergence : ∃ g, joint (db e) (db e') (SessionResult.vaultId result) g ∧ acyclic g ∧
    verdict g (head_in (db e) (SessionResult.vaultId result)) (SessionResult.remoteHead result)
      (SessionResult.divergence result);
  so_received : ∀ head c, SessionResult.remoteHead result = Some head →
    builds_on (db e') (SessionResult.vaultId result) head c →
    StoreTheory.stored (db (Session.engine s)) c ∨ c ∈ SessionResult.missing result ∨ rejected s c;
}.

Lemma facing_so {A} e e' dep dep' (s : Session.t B A) result : wf (db e) → wf (db e') → agree (db e) (db e') →
  facing e e' dep dep' s → Session.phase s = Done result → so e e' dep dep' s result.
Proof.
  intros Hwf Hwf' Ha [_ Hph] Hdone. rewrite Hdone in Hph. destruct Hph as (Hk & Hhead & (g & Hj & Hv) & Hacc).
  split; [done|done| |].
  - exists g. split_and!; [done|exact (joint_acyclic _ _ _ _ Hwf Hwf' Ha Hj)|done].
  - intros head c Hh [Hr Hin]. by apply (Hacc (SessionResult.vaultId result) head c Hk); [congruence|..].
Qed.

Section two.
Context {A1 A2 : Type} (x : Side.t A1) (y : Side.t A2) (e1 e2 : EngineState.t B) (a1 : A1) (a2 : A2).
Context (steps : list (bool * SideStep)).
Abbreviation w := (run_world x y steps (connected e1 a1 e2 a2)).

Lemma left_so result : joins e1 (Side.vaultId x) → joins e2 (Side.vaultId y) → agree (db e1) (db e2) → speaks w →
  Session.phase (World.left w) = Done result → so e1 e2 (Side.vaultId x) (Side.vaultId y) (World.left w) result.
Proof.
  intros Hj1 Hj2 Ha Hs Hdone. destruct (met_run x y e1 a1 e2 a2 steps Hj1 Hj2 Ha Hs) as [[Hf _] _].
  apply facing_so; [apply ok_wf, Hj1|apply ok_wf, Hj2|done..].
Qed.

Lemma right_so result : joins e1 (Side.vaultId x) → joins e2 (Side.vaultId y) → agree (db e1) (db e2) → speaks w →
  Session.phase (World.right w) = Done result → so e2 e1 (Side.vaultId y) (Side.vaultId x) (World.right w) result.
Proof.
  intros Hj1 Hj2 Ha Hs Hdone. destruct (met_run x y e1 a1 e2 a2 steps Hj1 Hj2 Ha Hs) as [_ [Hf _]].
  apply facing_so; [apply ok_wf, Hj2|apply ok_wf, Hj1|by apply agree_sym|done..].
Qed.

Lemma left_extends : joins e1 (Side.vaultId x) → joins e2 (Side.vaultId y) → agree (db e1) (db e2) → speaks w →
  extends e1 (Session.engine (World.left w)) ∧ extends e2 (Session.engine (World.right w)).
Proof.
  intros Hj1 Hj2 Ha Hs. destruct (met_run x y e1 a1 e2 a2 steps Hj1 Hj2 Ha Hs) as [[Hf _] [Hf' _]].
  split; [apply (hon_extends _ _ _ _ _ (facing_honest _ _ _ _ _ Hf))|apply (hon_extends _ _ _ _ _ (facing_honest _ _ _ _ _ Hf'))].
Qed.

(** A device that names no vault to the session knows no head of one. *)
Definition shows_head {A} (z : Side.t A) (e : EngineState.t B) : Prop :=
  Side.vaultId z = None → ∀ k, head_in (db e) k = None.

Lemma shown_head {A} (z : Side.t A) e dep k : shows_head z e → common (Side.vaultId z) dep = Some k →
  offered e (Side.vaultId z) = head_in (db e) k.
Proof.
  unfold shows_head. destruct (Side.vaultId z) as [k'|]; simpl.
  - intros _. destruct dep; [case_decide|]; by intros [= ->].
  - intros Hnone _. by rewrite Hnone.
Qed.

(** The session brought everything it asked for. *)
Definition complete_session {A} (s : Session.t B A) (result : SessionResult.t) : Prop :=
  SessionResult.missing result = [] ∧ ∀ c, ¬ rejected s c.

(** C2: two sessions that talk to each other and both end agree.  The two devices
    are sound, each holds the vault it names to its session, if it names one,
    and one that names none knows no head of any vault, as a device that joins
    (one that stopped tracking keeps a history that it does not offer:
    [untracked_history_unseen]); they agree about the parents and the vault of
    each revision that both store; and what they say is within the limits of the
    protocol, above which its reader refuses it.  Then, however their tasks,
    timers and deliveries interleave, if both sessions return, the two results
    are about the same vault and each names the head the other device had; what
    one side takes for ahead the other takes for behind, and a fork has the same
    merge bases; and if neither missed nor rejected a revision, each device
    holds everything that either head builds on. *)
Theorem sessions_converge (result1 result2 : SessionResult.t)
    (Hj1 : joins e1 (Side.vaultId x)) (Hj2 : joins e2 (Side.vaultId y)) (Ha : agree (db e1) (db e2))
    (Hh1 : shows_head x e1) (Hh2 : shows_head y e2) (Hs : speaks w)
    (Hd1 : Session.phase (World.left w) = Done result1) (Hd2 : Session.phase (World.right w) = Done result2) :
  let k := SessionResult.vaultId result1 in
  SessionResult.vaultId result2 = k ∧
  SessionResult.remoteHead result1 = head_in (db e2) k ∧ SessionResult.remoteHead result2 = head_in (db e1) k ∧
  same_verdict (SessionResult.divergence result2) (mirror (SessionResult.divergence result1)) ∧
  (complete_session (World.left w) result1 → complete_session (World.right w) result2 →
   ∀ head c, head_in (db e1) k = Some head ∧ builds_on (db e1) k head c ∨
             head_in (db e2) k = Some head ∧ builds_on (db e2) k head c →
     StoreTheory.stored (db (Session.engine (World.left w))) c ∧
     StoreTheory.stored (db (Session.engine (World.right w))) c).
Proof.
  intros k. destruct (left_so result1) as [Hk1 Hr1 (g1 & Hg1 & Hacyc & Hv1) Hin1]; [done..|].
  destruct (right_so result2) as [Hk2 Hr2 (g2 & Hg2 & _ & Hv2) Hin2]; [done..|].
  rewrite common_comm in Hk2. assert (SessionResult.vaultId result2 = k) as Hk by (subst k; congruence).
  rewrite Hk in *. fold k in Hk1, Hg1, Hv1, Hin1.
  rewrite (shown_head y e2 (Side.vaultId x) k Hh2) in Hr1 by by rewrite common_comm.
  rewrite (shown_head x e1 (Side.vaultId y) k Hh1 Hk1) in Hr2.
  destruct left_extends as [Hext1 Hext2]; [done..|]. split_and!; [done..| |].
  - rewrite Hr1 in Hv1. rewrite Hr2 in Hv2.
    by apply (verdict_mirror g1 g2 (head_in (db e1) k) (head_in (db e2) k));
      [|apply (joint_same _ _ _ _ _ Hg1), joint_sym|..].
  - intros [Hm1 Hno1] [Hm2 Hno2] head c [[Hhead Hc]|[Hhead Hc]].
    + assert (StoreTheory.stored (db e1) c) as Hst by (destruct Hc as [_ (row&Hrow&_)]; by exists row).
      split; [by eapply extends_stored|].
      destruct (Hin2 head c) as [?|[Hmiss|Hrej]]; [congruence|done|done|rewrite Hm2 in Hmiss; by apply elem_of_nil in Hmiss|by destruct (Hno2 c)].
    + assert (StoreTheory.stored (db e2) c) as Hst by (destruct Hc as [_ (row&Hrow&_)]; by exists row).
      split; [|by eapply extends_stored].
      destruct (Hin1 head c) as [?|[Hmiss|Hrej]]; [congruence|done|done|rewrite Hm1 in Hmiss; by apply elem_of_nil in Hmiss|by destruct (Hno1 c)].
Qed.

(** C8: what a session returns is so.  The two devices are sound and hold the
    vaults they name to their sessions, if they name one, agree about the
    parents and the vault of each revision that both store, and say what is
    within the limits of the protocol.  If the session of one of them returns,
    whatever the other's does, then its result is about the vault both named or
    that the one named and the other joins, names the head that the other device
    offered, which is none from a device that names no vault, and its divergence
    is that of the two heads in the history the devices have between them; and
    each revision that the offered head builds on is stored now, or listed as
    missing, or was reported as rejected. *)
Theorem session_result_so (result : SessionResult.t)
    (Hj1 : joins e1 (Side.vaultId x)) (Hj2 : joins e2 (Side.vaultId y)) (Ha : agree (db e1) (db e2)) (Hs : speaks w)
    (Hd : Session.phase (World.left w) = Done result) :
  so e1 e2 (Side.vaultId x) (Side.vaultId y) (World.left w) result.
Proof. by apply left_so. Qed.
End two.
End worlds.

(** ** A laptop and a phone *)

#[local] Existing Instance insertion_order.
#[local] Existing Instance first_bytes.
#[local] Existing Instance toy_ed25519.
#[local] Existing Instance desk_blobs.

(** A message that its own parser gives back is within the limits. *)
Definition checked_sendable (m : ProtocolMessage) : bool :=
  match parseMessage (encodeMessage m) with parsed m' => bool_decide (m' = m) | _ => false end &&
  match m with
  | Hello v _ _ _ _ => bool_decide (- 2 ^ 53 < v < 2 ^ 53)
  | VaultSummary _ _ _ count => bool_decide (- 2 ^ 53 < count < 2 ^ 53)
  | RevisionHeaderMessage h => bool_decide (- 2 ^ 53 < RevisionHeader.transferSeq h < 2 ^ 53)
  | RevisionAck _ _ (Some reason) => bool_decide (JsString.slice reason 0 LIMITS.maxStringLength = reason)
  | TransferCancel seq _ => bool_decide (- 2 ^ 53 < seq < 2 ^ 53)
  | _ => true
  end.

Lemma checked_sendable_ok m : checked_sendable m = true → sendable m.
Proof.
  unfold checked_sendable. intros [Hm Hs]%andb_true_iff. split.
  - destruct (parseMessage _) as [m'|] eqn:Hparse; [|done]. apply bool_decide_eq_true in Hm. subst m'.
    apply parseMessage_inv in Hparse as (type & value & Hd). by eapply dispatch_bounded.
  - destruct m; try done; try by apply bool_decide_eq_true in Hs. destruct reason; [|done]. by apply bool_decide_eq_true in Hs.
Qed.

Lemma checked_speaks {B A1 A2} (w : World.t B A1 A2) :
  forallb (checked_sendable ∘ named) (Session.control (World.left w)) = true →
  forallb (checked_sendable ∘ named) (Session.control (World.right w)) = true → speaks w.
Proof.
  intros Hl Hr. split; apply Forall_forall; intros m Hm; apply checked_sendable_ok.
  - rewrite forallb_forall in Hl. by apply Hl, list_elem_of_In.
  - rewrite forallb_forall in Hr. by apply Hr, list_elem_of_In.
Qed.

Module Pair.
Definition key (bytes : Uint8Array) : DeviceKeyPair.t := DeviceKeyPair.mk (deviceIdFor bytes) bytes bytes.

(** A device that holds the first version of the vault, and changed it. *)
Definition changed (id : nat → string) (b : Byte.byte) : EngineState.t (FS.t * nat) :=
  EngineSteps.perform Device.clock Device.ids id "this" Desk.interpret Desk.diff
    (RecordLocalChange "a" (Desk.kdbx b)) imported.

Definition laptop : EngineState.t (FS.t * nat) := changed (λ n, "l" +:+ Device.ids n) Byte.x01.
Definition phone : EngineState.t (FS.t * nat) := changed (λ n, "p" +:+ Device.ids n) Byte.x02.

(** The keys of the other were pinned when they paired. *)
Definition pins (bytes : Uint8Array) (name : string) : Authenticator.t (gmap DeviceId PairedDevice.t) :=
  Authenticator.mk {[ deviceIdFor bytes := PairedDevice.mk (deviceIdFor bytes) bytes name paired 0 None ]} 0.

Definition side (bytes : Uint8Array) (name : string) (nonce : Byte.byte) (vault : option VaultId)
    : Side.t (Authenticator.t (gmap DeviceId PairedDevice.t)) :=
  Side.mk (createAuthenticator (key bytes) name false None 1 (λ _, [nonce])) Device.clock vault 4.

Definition left_side := side key_one "laptop" Byte.x07 (Some "a").
Definition right_side := side key_two "phone" Byte.x09 (Some "a").
Definition untracked_side := side key_two "phone" Byte.x09 None.

(** Both sides take turns. *)
Definition turns (n : nat) : list (bool * SideStep) :=
  mjoin (replicate n ([Acts MainResumes; Acts ServeResumes; ControlDelivered; BulkDelivered; Acts IngestRuns]
    ≫= (λ step, [(true, step); (false, step)]))).

(** A phone that was paired and has nothing yet. *)
Definition fresh : EngineState.t (FS.t * nat) := Services.engine desk.

(** The sessions of a laptop with a vault and a phone that joins it. *)
Abbreviation welcomes :=
  (run_world left_side untracked_side (turns 60) (connected laptop (pins key_two "phone") fresh (pins key_one "laptop"))).
Abbreviation joined :=
  (run_world untracked_side left_side (turns 60) (connected fresh (pins key_one "laptop") laptop (pins key_two "phone"))).

Abbreviation meets other :=
  (run_world left_side other (turns 20) (connected laptop (pins key_two "phone") phone (pins key_one "laptop"))).
End Pair.

(** The parents of a revision that two stores hold are compared as lists. *)
Definition checked_agree (d d' : Db.t) : bool :=
  forallb (λ '(c, row), match Db.revisions d' !! c with
    | Some row' => bool_decide (RevisionRow.vault_id row = RevisionRow.vault_id row') &&
        bool_decide (filter (λ e, e.1 = c) (Db.revision_parents d) = filter (λ e, e.1 = c) (Db.revision_parents d'))
    | None => true
    end) (map_to_list (Db.revisions d)).

Lemma checked_agree_ok d d' : checked_agree d d' = true → agree d d'.
Proof.
  unfold checked_agree. rewrite forallb_forall. intros Hall c row row' Hrow Hrow'.
  specialize (Hall (c, row)). simpl in Hall. rewrite Hrow' in Hall.
  destruct (proj1 (andb_true_iff _ _) (Hall (proj1 (list_elem_of_In _ _) (proj2 (elem_of_map_to_list _ _ _) Hrow))))
    as [Hv%bool_decide_eq_true He%bool_decide_eq_true].
  split; [done|]. intros p. unfold edge.
  assert (∀ l : list (string * string), (c, p) ∈ l ↔ (c, p) ∈ filter (λ e, e.1 = c) l) as Hf.
  { intros l. rewrite list_elem_of_filter. simpl. tauto. }
  by rewrite (Hf (Db.revision_parents d)), (Hf (Db.revision_parents d')), He.
Qed.

Lemma changed_joins id b : (∀ n, id n ≠ "aa") →
  is_Some (Db.vaults (db (Pair.changed id b)) !! "a") → joins (Pair.changed id b) (Some "a").
Proof.
  intros Hid Hvault. split; [|by intros k [= <-]].
  apply perform_ok; [apply imported_ok|]. intros n Hn.
  assert (∃ r, Db.revisions (db imported) = {["aa" := r]}) as [r ->] by (eexists; vm_compute; reflexivity).
  assert (∃ v, Db.vaults (db imported) = {["a" := v]}) as [v ->] by (eexists; vm_compute; reflexivity).
  change (EngineState.ticks imported) with 3%nat in Hn. split; apply lookup_singleton_ne.
  - intros Heq. by apply (Hid n).
  - intros Heq. apply (ids_inj 1 n) in Heq. lia.
Qed.

Lemma laptop_joins : joins Pair.laptop (Some "a").
Proof. apply changed_joins; [done|]. eexists. vm_compute. reflexivity. Qed.

Lemma phone_joins : joins Pair.phone (Some "a").
Proof. apply changed_joins; [done|]. eexists. vm_compute. reflexivity. Qed.

Lemma pair_agree : agree (db Pair.laptop) (db Pair.phone).
Proof. apply checked_agree_ok. vm_compute. reflexivity. Qed.

Lemma pair_speaks : speaks (Pair.meets Pair.right_side).
Proof. apply checked_speaks; vm_compute; reflexivity. Qed.

(** The laptop and the phone changed the same version. *)
Definition laptop_result : SessionResult.t :=
  SessionResult.mk "a" (Remote.mk (deviceIdFor key_two) "phone") ["paaaa"] ["laaaa"] [] (diverged ["aa"]) (Some "paaaa").
Definition phone_result : SessionResult.t :=
  SessionResult.mk "a" (Remote.mk (deviceIdFor key_one) "laptop") ["laaaa"] ["paaaa"] [] (diverged ["aa"]) (Some "laaaa").

Lemma pair_done :
  Session.phase (World.left (Pair.meets Pair.right_side)) = Done laptop_result ∧
  Session.phase (World.right (Pair.meets Pair.right_side)) = Done phone_result.
Proof. split; vm_compute; reflexivity. Qed.

Lemma no_rejection {B A} (s : Session.t B A) c :
  forallb (λ event, match event with rejected_event _ _ => false | _ => true end) (Session.events s) = true → ¬ rejected s c.
Proof. rewrite forallb_forall. intros Hall [reason Hin]. by specialize (Hall _ (proj1 (list_elem_of_In _ _) Hin)). Qed.

Lemma fresh_joins : joins Pair.fresh None.
Proof.
  split; [|by intros k [=]]. eapply engine_reachable_ok, (engine_start Device.clock Device.ids Device.ids "this" Desk.interpret Desk.diff).
  split; [done|]. intros h f _ Hf. done.
Qed.

Lemma joining_agree : agree (db Pair.laptop) (db Pair.fresh) ∧ agree (db Pair.fresh) (db Pair.laptop).
Proof. split; apply checked_agree_ok; vm_compute; reflexivity. Qed.

Lemma welcomes_speaks : speaks Pair.welcomes.
Proof. apply checked_speaks; vm_compute; reflexivity. Qed.

Lemma joined_speaks : speaks Pair.joined.
Proof. apply checked_speaks; vm_compute; reflexivity. Qed.

(** The phone gets the whole history of the laptop. *)
Definition welcome_result : SessionResult.t :=
  SessionResult.mk "a" (Remote.mk (deviceIdFor key_two) "phone") [] ["aa"; "laaaa"] [] local_ahead None.
Definition joined_result : SessionResult.t :=
  SessionResult.mk "a" (Remote.mk (deviceIdFor key_one) "laptop") ["aa"; "laaaa"] [] [] remote_ahead (Some "laaaa").

Lemma welcomes_done :
  Session.phase (World.left Pair.welcomes) = Done welcome_result ∧
  Session.phase (World.right Pair.welcomes) = Done joined_result.
Proof. split; vm_compute; reflexivity. Qed.

Lemma joined_done : Session.phase (World.left Pair.joined) = Done joined_result.
Proof. vm_compute. reflexivity. Qed.

(** Each got the version of the other; and a phone that had nothing has what the
    laptop's head builds on. *)
Lemma sessions_converge_witness :
  (same_verdict (SessionResult.divergence phone_result) (mirror (SessionResult.divergence laptop_result)) ∧
   StoreTheory.stored (db (Session.engine (World.left (Pair.meets Pair.right_side)))) "paaaa") ∧
  same_verdict (SessionResult.divergence joined_result) (mirror (SessionResult.divergence welcome_result)) ∧
  StoreTheory.stored (db (Session.engine (World.right Pair.welcomes))) "laaaa".
Proof.
  assert (shows_head Pair.left_side Pair.laptop) as Hh1 by (intros [=]).
  assert (shows_head Pair.right_side Pair.phone) as Hh2 by (intros [=]).
  assert (shows_head Pair.untracked_side Pair.fresh) as Hh3 by (intros _ k; reflexivity).
  split.
  - destruct (sessions_converge Pair.left_side Pair.right_side Pair.laptop Pair.phone
      (Pair.pins key_two "phone") (Pair.pins key_one "laptop") (Pair.turns 20) laptop_result phone_result
      laptop_joins phone_joins pair_agree Hh1 Hh2 pair_speaks (proj1 pair_done) (proj2 pair_done))
      as (_ & _ & _ & Hmirror & Hall).
    split; [exact Hmirror|]. refine (proj1 (Hall _ _ "paaaa" "paaaa" _)).
    + split; [reflexivity|]. intros c. apply no_rejection. vm_compute. reflexivity.
    + split; [reflexivity|]. intros c. apply no_rejection. vm_compute. reflexivity.
    + right. split; [vm_compute; reflexivity|]. split; [apply rtc_refl|].
      eexists. split; [vm_compute; reflexivity|]. reflexivity.
  - destruct (sessions_converge Pair.left_side Pair.untracked_side Pair.laptop Pair.fresh
      (Pair.pins key_two "phone") (Pair.pins key_one "laptop") (Pair.turns 60) welcome_result joined_result
      laptop_joins fresh_joins (proj1 joining_agree) Hh1 Hh3 welcomes_speaks (proj1 welcomes_done) (proj2 welcomes_done))
      as (_ & _ & _ & Hmirror & Hall).
    split; [exact Hmirror|]. refine (proj2 (Hall _ _ "laaaa" "laaaa" _)).
    + split; [reflexivity|]. intros c. apply no_rejection. vm_compute. reflexivity.
    + split; [reflexivity|]. intros c. apply no_rejection. vm_compute. reflexivity.
    + left. split; [vm_compute; reflexivity|]. split; [apply rtc_refl|].
      eexists. split; [vm_compute; reflexivity|]. reflexivity.
Defined.

(** The laptop learnt that both changed the first version; and the phone that
    joined has the version the laptop offered. *)
Lemma session_result_so_witness :
  (∃ g, joint (db Pair.laptop) (db Pair.phone) "a" g ∧ divergence_spec g "laaaa" "paaaa" (diverged ["aa"])) ∧
  so Pair.fresh Pair.laptop None (Some "a") (World.left Pair.joined) joined_result.
Proof.
  split.
  - destruct (session_result_so Pair.left_side Pair.right_side Pair.laptop Pair.phone
      (Pair.pins key_two "phone") (Pair.pins key_one "laptop") (Pair.turns 20) laptop_result
      laptop_joins phone_joins pair_agree pair_speaks (proj1 pair_done)) as [_ _ (g & Hg & _ & Hv) _].
    exists g. split; [exact Hg|]. exact Hv.
  - exact (session_result_so Pair.untracked_side Pair.left_side Pair.fresh Pair.laptop
      (Pair.pins key_one "laptop") (Pair.pins key_two "phone") (Pair.turns 60) joined_result
      fresh_joins laptop_joins (proj2 joining_agree) joined_speaks joined_done).
Defined.

(** A phone that stopped tracking the vault names none, and offers nothing of
    the history it still has: it sees the fork, and the laptop takes itself for
    ahead and asks for nothing. *)
Lemma untracked_history_unseen :
  (∃ result, Session.phase (World.left (Pair.meets Pair.untracked_side)) = Done result ∧
     SessionResult.divergence result = local_ahead ∧ SessionResult.received result = []) ∧
  ∃ result, Session.phase (World.right (Pair.meets Pair.untracked_side)) = Done result ∧
     SessionResult.divergence result = diverged ["aa"].
Proof. split; eexists; (split; [vm_compute; reflexivity|]); by_compute. Qed.
