(* ===== verification/KdbxProps.v ===== *)
(** * What the interpreter of vault files guarantees

    The summary of a database against a reference definition, what the
    difference of two databases tells, and what a merge hands back. *)

From S2P Require Import Prelude Model Bytes JsString JsMap Effects Codec Dag Lineage Store StoreTheory BlobStore.
From S2P Require Import BlobProps Engine EngineTheory EngineSteps EngineProps Identity Kdbx Services Desk StoreProps.
From stdpp Require Import sorting.

Open Scope Z_scope.

(** ** Sorting *)

Lemma units_le_total a b : units_le a b = true ∨ units_le b a = true.
Proof.
  revert b. induction a as [|x a IH]; intros [|y b]; simpl; auto.
  destruct (Z.ltb_spec x y), (Z.ltb_spec y x); auto.
Qed.

Lemma units_le_trans a b c : units_le a b = true → units_le b c = true → units_le a c = true.
Proof.
  revert b c. induction a as [|x a IH]; intros [|y b] [|z c]; simpl; try done.
  destruct (Z.ltb_spec x y), (Z.ltb_spec y z), (Z.ltb_spec y x), (Z.ltb_spec z y),
    (Z.ltb_spec x z), (Z.ltb_spec z x); try done; try lia. apply IH.
Qed.

#[local] Instance text_le_total : Total text_le.
Proof. intros s t. apply units_le_total. Qed.

#[local] Instance text_le_trans : Transitive text_le.
Proof. intros s t u. apply units_le_trans. Qed.

Lemma sort_texts_sorted l : StronglySorted text_le (sort_texts l).
Proof. apply (StronglySorted_merge_sort text_le). Qed.

Lemma sort_texts_perm l : sort_texts l ≡ₚ l.
Proof. apply merge_sort_Permutation. Qed.

(** ** The tree of groups *)

(** Induction on a tree of groups. *)
Lemma KdbxGroup_tree (P : KdbxGroup → Prop) :
  (∀ uuid name entries groups, Forall P groups → P (kdbx_group uuid name entries groups)) →
  ∀ group, P group.
Proof.
  intros IH. fix rec 1. intros [uuid name entries groups]. apply IH.
  induction groups as [|child groups IHg]; constructor; [apply rec|apply IHg].
Qed.

Definition child_path (path : string) (child : KdbxGroup) : string :=
  path +:+ "/" +:+ default "Unnamed group" (group_name child).

(** The groups of a tree, and its entries, each with its path, in the order of
    the file. *)
Fixpoint located_groups (group : KdbxGroup) (path : string) : list (string * string) :=
  match group with
  | kdbx_group uuid _ _ groups =>
      (uuid, path) :: (groups ≫= λ child, located_groups child (child_path path child))
  end.

Fixpoint located_entries (group : KdbxGroup) (path : string) : list (string * KdbxEntry.t) :=
  match group with
  | kdbx_group _ _ entries groups =>
      ((λ entry, (path, entry)) <$> entries)
      ++ (groups ≫= λ child, located_entries child (child_path path child))
  end.

Definition tree_groups (roots : list KdbxGroup) : list (string * string) :=
  roots ≫= λ root, located_groups root (default "Root" (group_name root)).

Definition tree_entries (roots : list KdbxGroup) : list (string * KdbxEntry.t) :=
  roots ≫= λ root, located_entries root (default "Root" (group_name root)).

Section snapshots.
Context `{Digest}.

Definition entry_row (e : string * KdbxEntry.t) : string * EntrySnapshot.t :=
  (KdbxEntry.uuid e.2, entry_snapshot e.1 e.2).

(** Setting rows one after the other. *)
Definition set_rows {V} (m : list (string * V)) (rows : list (string * V)) : list (string * V) :=
  foldl (λ m row, map_set row.1 row.2 m) m rows.

Lemma foldl_bind {A B C} (f : C → B → C) (g : A → list B) (l : list A) (c : C) :
  foldl f c (l ≫= g) = foldl (λ c a, foldl f c (g a)) c l.
Proof. revert c. induction l as [|a l IH]; intros c; [done|]. by rewrite bind_cons, foldl_app. Qed.

Lemma set_entries_fold path entries s :
  foldl (λ s entry,
    DatabaseSnapshot.set_entry (KdbxEntry.uuid entry) (entry_snapshot path entry) s) s entries
  = DatabaseSnapshot.mk
      (set_rows (DatabaseSnapshot.entries s) (entry_row <$> ((λ entry, (path, entry)) <$> entries)))
      (DatabaseSnapshot.groups s).
Proof.
  revert s. induction entries as [|e entries IH]; intros s; [by destruct s|]. csimpl. by rewrite IH.
Qed.

Definition add_located (s : DatabaseSnapshot.t) (entries : list (string * KdbxEntry.t))
    (groups : list (string * string)) : DatabaseSnapshot.t :=
  DatabaseSnapshot.mk (set_rows (DatabaseSnapshot.entries s) (entry_row <$> entries))
    (set_rows (DatabaseSnapshot.groups s) groups).

Lemma add_located_app s e1 e2 g1 g2 :
  add_located (add_located s e1 g1) e2 g2 = add_located s (e1 ++ e2) (g1 ++ g2).
Proof. unfold add_located, set_rows. simpl. by rewrite fmap_app, !foldl_app. Qed.

Lemma add_located_fold (l : list KdbxGroup) (f : KdbxGroup → string) s :
  Forall (λ g, ∀ path s,
    collectGroup g path s = add_located s (located_entries g path) (located_groups g path)) l →
  foldl (λ s g, collectGroup g (f g) s) s l
  = add_located s (l ≫= λ g, located_entries g (f g)) (l ≫= λ g, located_groups g (f g)).
Proof.
  intros Hl. revert s. induction Hl as [|g l Hg _ IH]; intros s; [by destruct s|].
  csimpl. by rewrite Hg, IH, add_located_app.
Qed.

Lemma collectGroup_located group path s :
  collectGroup group path s
  = add_located s (located_entries group path) (located_groups group path).
Proof.
  revert path s. induction group as [uuid name entries groups IH] using KdbxGroup_tree.
  intros path s. simpl. rewrite set_entries_fold.
  rewrite (add_located_fold groups (child_path path)) by done. unfold add_located at 1. simpl.
  unfold add_located, set_rows. by rewrite fmap_app, foldl_app.
Qed.

Lemma snapshotDatabase_located roots :
  snapshotDatabase roots
  = DatabaseSnapshot.mk (set_rows [] (entry_row <$> tree_entries roots)) (set_rows [] (tree_groups roots)).
Proof.
  unfold snapshotDatabase.
  rewrite (add_located_fold roots (λ root, default "Root" (group_name root))); [done|].
  apply Forall_true. intros g path s. apply collectGroup_located.
Qed.

Lemma set_rows_NoDup {V} (m rows : list (string * V)) : NoDup m.*1 → NoDup (set_rows m rows).*1.
Proof.
  revert m. induction rows as [|[k v] rows IH]; intros m Hm; [done|]. apply IH. by apply map_set_NoDup.
Qed.

Lemma set_rows_fresh {V} (m rows : list (string * V)) :
  NoDup (m ++ rows).*1 → set_rows m rows = m ++ rows.
Proof.
  revert m. induction rows as [|[k v] rows IH]; intros m Hm; [by rewrite app_nil_r|].
  simpl. change (foldl _ (map_set k v m) rows) with (set_rows (map_set k v m) rows).
  assert (Hk : k ∉ m.*1).
  { rewrite fmap_app in Hm. apply NoDup_app in Hm as (_ & Hd & _). intros Hin.
    apply (Hd k Hin). csimpl. constructor. }
  assert (map_set k v m = m ++ [(k, v)]) as ->.
  { clear -Hk. induction m as [|[k' w] m IH]; csimpl; [done|]. csimpl in Hk.
    apply not_elem_of_cons in Hk as [Hne Hk]. rewrite decide_False by done. by rewrite IH. }
  rewrite IH; by rewrite <- (assoc (++)).
Qed.
End snapshots.

(** ** The summary of a database *)

(** Where the identifiers are distinct, what is kept of a database is exactly
    its entries and its groups, in the order of the file: every entry once, under
    its identifier, with the path of the group it is in (the names from the root,
    joined by a stroke), and every group with its path, whatever the depth. *)
Theorem snapshot_of_tree `{Digest} (roots : list KdbxGroup)
    (Hentries : NoDup (KdbxEntry.uuid <$> (tree_entries roots).*2))
    (Hgroups : NoDup (tree_groups roots).*1) :
  DatabaseSnapshot.entries (snapshotDatabase roots)
  = (λ e, (KdbxEntry.uuid e.2, entry_snapshot e.1 e.2)) <$> tree_entries roots ∧
  DatabaseSnapshot.groups (snapshotDatabase roots) = tree_groups roots.
Proof.
  rewrite snapshotDatabase_located. simpl. split; rewrite set_rows_fresh; simpl; try done.
  rewrite <- !list_fmap_compose in *. done.
Qed.

(** ** Differences *)

(** A snapshot has an identifier once, an entry is under its own, and an entry
    has a field once. *)
Record well_formed (s : DatabaseSnapshot.t) : Prop := {
  wf_entries : NoDup (DatabaseSnapshot.entries s).*1;
  wf_groups : NoDup (DatabaseSnapshot.groups s).*1;
  wf_entry : Forall (λ e, EntrySnapshot.uuid e.2 = e.1 ∧ NoDup (EntrySnapshot.fields e.2).*1)
    (DatabaseSnapshot.entries s);
}.

Lemma set_rows_Forall {V} (P : string * V → Prop) (m rows : list (string * V)) :
  Forall P m → Forall P rows → Forall P (set_rows m rows).
Proof.
  intros Hm Hrows. revert m Hm. induction Hrows as [|[k v] rows Hr _ IH]; intros m Hm; [done|].
  apply IH. clear IH. induction Hm as [|[k' w] m Hw Hm IH]; csimpl; [by constructor|].
  destruct (decide (k' = k)) as [->|]; by constructor.
Qed.

Lemma entry_fields_NoDup `{Digest} path entry :
  NoDup (EntrySnapshot.fields (entry_snapshot path entry)).*1.
Proof.
  simpl. generalize (KdbxEntry.fields entry). intros fields.
  assert (Hm : NoDup (@nil (string * string)).*1) by constructor. revert Hm.
  generalize (@nil (string * string)). induction fields as [|[k v] fields IH]; intros m Hm; [done|].
  by apply IH, map_set_NoDup.
Qed.

Lemma snapshot_well_formed `{Digest} roots : well_formed (snapshotDatabase roots).
Proof.
  rewrite snapshotDatabase_located. split; simpl; [apply set_rows_NoDup; constructor..|].
  apply set_rows_Forall; [constructor|]. apply Forall_fmap, Forall_true. intros [path e].
  split; [done|]. apply entry_fields_NoDup.
Qed.

Abbreviation entry_of s u := (map_get u (DatabaseSnapshot.entries s)).
Abbreviation group_of s u := (map_get u (DatabaseSnapshot.groups s)).

(** Two versions of an entry differ in a field, in their group or in the names
    of their attachments. *)
Definition differs (base incoming : EntrySnapshot.t) (name : string) : Prop :=
  map_get name (EntrySnapshot.fields base) ≠ map_get name (EntrySnapshot.fields incoming) ∨
  (name = "Group" ∧ EntrySnapshot.groupPath base ≠ EntrySnapshot.groupPath incoming) ∨
  (name = "Attachments" ∧ attachments base ≠ attachments incoming).

Lemma elem_of_fold_add {A} (P : A → Prop) `{∀ a, Decision (P a)} (f : A → string) l s x :
  x ∈ foldl (λ s a, if decide (P a) then s else set_add s (f a)) s l
  ↔ x ∈ s ∨ ∃ a, a ∈ l ∧ ¬ P a ∧ x = f a.
Proof.
  revert s. induction l as [|a l IH]; intros s; simpl.
  - split; [by left|]. intros [?|(a&Ha%elem_of_nil&_)]; done.
  - rewrite IH. setoid_rewrite elem_of_cons. destruct (decide (P a)); [naive_solver|].
    rewrite elem_of_set_add. naive_solver.
Qed.

Lemma fold_add_NoDup {A} (P : A → Prop) `{∀ a, Decision (P a)} (f : A → string) l s :
  NoDup s → NoDup (foldl (λ s a, if decide (P a) then s else set_add s (f a)) s l).
Proof.
  revert s. induction l as [|a l IH]; intros s Hs; simpl; [done|]. apply IH.
  destruct (decide (P a)); [done|by apply set_add_NoDup].
Qed.

Lemma changedEntryFields_NoDup base incoming : NoDup (changedEntryFields base incoming).
Proof.
  unfold changedEntryFields. rewrite sort_texts_perm.
  repeat case_decide; repeat apply set_add_NoDup; apply (fold_add_NoDup (λ key,
      is_Some (map_get key (EntrySnapshot.fields incoming))) id);
    apply (fold_add_NoDup (λ field : string * string,
      map_get field.1 (EntrySnapshot.fields base) = Some field.2) fst); constructor.
Qed.

Lemma elem_of_changedEntryFields base incoming name :
  NoDup (EntrySnapshot.fields incoming).*1 →
  name ∈ changedEntryFields base incoming ↔ differs base incoming name.
Proof.
  intros Hi. unfold changedEntryFields, differs. rewrite sort_texts_perm.
  set (fields := foldl _ _ (EntrySnapshot.fields base).*1).
  assert (Hfields : name ∈ fields ↔
    map_get name (EntrySnapshot.fields base) ≠ map_get name (EntrySnapshot.fields incoming)).
  { unfold fields.
    rewrite (elem_of_fold_add (λ key, is_Some (map_get key (EntrySnapshot.fields incoming))) id).
    rewrite (elem_of_fold_add (λ field : string * string,
      map_get field.1 (EntrySnapshot.fields base) = Some field.2) fst).
    rewrite elem_of_nil. split.
    - intros [[[]|([k v]&Hin&Hne&->)]|(k&Hin&Hne&->)]; simpl in *.
      + intros Heq. by rewrite (map_get_elem _ _ _ Hi Hin) in Heq.
      + intros Heq. apply Hne. rewrite <- Heq. apply not_eq_None_Some.
        intros Hnone%map_get_None. done.
    - intros Hne. destruct (map_get name (EntrySnapshot.fields incoming)) as [v|] eqn:Hv.
      + left. right. exists (name, v). split_and!; [by apply map_get_Some|done|done].
      + right. exists name. rewrite Hv. split_and!; [|by intros []|done].
        destruct (decide (name ∈ (EntrySnapshot.fields base).*1)) as [|Hno]; [done|].
        apply map_get_None in Hno. congruence. }
  rewrite <- Hfields. clear Hfields. generalize fields. clear fields. intros fields.
  repeat case_decide; rewrite ?elem_of_set_add; naive_solver.
Qed.

Lemma changedEntryFields_nil base incoming :
  NoDup (EntrySnapshot.fields incoming).*1 →
  changedEntryFields base incoming = [] ↔ ∀ name, ¬ differs base incoming name.
Proof.
  intros Hi. setoid_rewrite <- (elem_of_changedEntryFields base incoming); [|done].
  split; [by intros -> name ?%elem_of_nil|].
  destruct (changedEntryFields base incoming) as [|x l]; [done|]. intros Hno.
  destruct (Hno x). constructor.
Qed.

(** An element of the list of a loop. *)
Lemma elem_of_rows {V A} (f : string * V → option A) (m : list (string * V)) a : NoDup m.*1 →
  a ∈ omap f m ↔ ∃ u v, map_get u m = Some v ∧ f (u, v) = Some a.
Proof.
  intros Hm. rewrite list_elem_of_omap. split.
  - intros ([u v]&Hin&Hf). exists u, v. split; [by apply map_get_elem|done].
  - intros (u&v&Hget%map_get_Some&Hf). by exists (u, v).
Qed.

(** What the difference of two databases tells.  An entry is told as added
    when only the incoming database has its identifier, as removed when only the
    base has it, and as changed when both have it and differ: the names told are
    then, sorted and each once, exactly those of the fields that differ, with
    Group for an entry that was moved and Attachments for other attachments; and
    no entry that differs is left out.  A group is told by its path, likewise. *)
Theorem diff_tells `{Digest} (base incoming : list KdbxGroup) :
  let b := snapshotDatabase base in
  let i := snapshotDatabase incoming in
  let d := diffSnapshots b i in
  (∀ s, s ∈ VaultDiff.addedEntries d ↔
     ∃ u e, entry_of i u = Some e ∧ entry_of b u = None ∧ s = summarize e) ∧
  (∀ s, s ∈ VaultDiff.removedEntries d ↔
     ∃ u e, entry_of b u = Some e ∧ entry_of i u = None ∧ s = summarize e) ∧
  (∀ c, c ∈ VaultDiff.changedEntries d ↔
     ∃ u eb ei, entry_of b u = Some eb ∧ entry_of i u = Some ei ∧
       c = ChangedEntrySummary.mk (summarize ei) (changedEntryFields eb ei) ∧
       ∃ name, differs eb ei name) ∧
  (∀ u eb ei, entry_of b u = Some eb → entry_of i u = Some ei →
     StronglySorted text_le (changedEntryFields eb ei) ∧ NoDup (changedEntryFields eb ei) ∧
     ∀ name, name ∈ changedEntryFields eb ei ↔ differs eb ei name) ∧
  (∀ p, p ∈ VaultDiff.addedGroups d ↔ ∃ u, group_of i u = Some p ∧ group_of b u = None) ∧
  (∀ p, p ∈ VaultDiff.removedGroups d ↔ ∃ u, group_of b u = Some p ∧ group_of i u = None) ∧
  (∀ p, p ∈ VaultDiff.changedGroups d ↔
     ∃ u q, group_of i u = Some p ∧ group_of b u = Some q ∧ q ≠ p).
Proof.
  intros b i d. pose proof (snapshot_well_formed base) as [Hbe Hbg Hbf].
  pose proof (snapshot_well_formed incoming) as [Hie Hig Hif].
  assert (Hf : ∀ u e, entry_of i u = Some e → NoDup (EntrySnapshot.fields e).*1).
  { intros u e He%map_get_Some. apply (proj1 (Forall_forall _ _) Hif _ He). }
  unfold d, diffSnapshots. simpl. split_and!; intros *; try (rewrite elem_of_rows by done).
  - unfold added_entry. simpl. split.
    + intros (u&e&He&Hs). exists u, e. by destruct (map_get u (DatabaseSnapshot.entries b)); simplify_eq.
    + intros (u&e&He&Hb&->). exists u, e. by rewrite Hb.
  - unfold added_entry. simpl. split.
    + intros (u&e&He&Hs). exists u, e. by destruct (map_get u (DatabaseSnapshot.entries i)); simplify_eq.
    + intros (u&e&He&Hb&->). exists u, e. by rewrite Hb.
  - unfold changed_entry. simpl. split.
    + intros (u&ei&Hei&Hc). destruct (map_get u (DatabaseSnapshot.entries b)) as [eb|] eqn:Heb; [|done].
      exists u, eb, ei. destruct (changedEntryFields eb ei) as [|x l] eqn:Hl; [done|].
      injection Hc as <-. split_and!; try done. exists x.
      apply elem_of_changedEntryFields; [by eapply Hf|]. rewrite Hl. constructor.
    + intros (u&eb&ei&Heb&Hei&->&name&Hdiff). exists u, ei. rewrite Heb. split; [done|].
      apply elem_of_changedEntryFields in Hdiff; [|by eapply Hf].
      destruct (changedEntryFields eb ei); [by apply elem_of_nil in Hdiff|done].
  - intros Heb Hei. split_and!; [apply sort_texts_sorted|apply changedEntryFields_NoDup|].
    intros name. apply elem_of_changedEntryFields. by eapply Hf.
  - unfold added_group. simpl. split.
    + intros (u&q&He&Hs). exists u. by destruct (map_get u (DatabaseSnapshot.groups b)); simplify_eq.
    + intros (u&He&Hb). exists u, p. by rewrite Hb.
  - unfold added_group. simpl. split.
    + intros (u&q&He&Hs). exists u. by destruct (map_get u (DatabaseSnapshot.groups i)); simplify_eq.
    + intros (u&He&Hb). exists u, p. by rewrite Hb.
  - unfold changed_group. simpl. split.
    + intros (u&q&He&Hs). exists u. destruct (map_get u (DatabaseSnapshot.groups b)) as [q'|]; [|done].
      exists q'. case_decide; simplify_eq. done.
    + intros (u&q&He&Hb&Hne). exists u, p. rewrite Hb. split; [done|]. by rewrite decide_False.
Qed.

(** The fields of a snapshot, with their values replaced. *)
Definition map_fields (φ : string → string) (e : EntrySnapshot.t) : EntrySnapshot.t :=
  EntrySnapshot.mk (EntrySnapshot.uuid e) (EntrySnapshot.title e) (EntrySnapshot.groupPath e)
    (prod_map id φ <$> EntrySnapshot.fields e) (EntrySnapshot.binaryKeys e).

Definition map_values (φ : string → string) (s : DatabaseSnapshot.t) : DatabaseSnapshot.t :=
  DatabaseSnapshot.mk (prod_map id (map_fields φ) <$> DatabaseSnapshot.entries s)
    (DatabaseSnapshot.groups s).

Lemma map_get_fmap {V W} (f : V → W) k (m : list (string * V)) :
  map_get k (prod_map id f <$> m) = f <$> map_get k m.
Proof. induction m as [|[k' v] m IH]; csimpl; [done|]. by destruct (decide (k' = k)). Qed.

Lemma omap_fmap {A B C} (g : A → B) (f : B → option C) (l : list A) :
  omap f (g <$> l) = omap (f ∘ g) l.
Proof. induction l as [|a l IH]; csimpl; [done|]. by rewrite IH. Qed.

Lemma omap_same {A C} (f g : A → option C) (l : list A) :
  (∀ a, f a = g a) → omap f l = omap g l.
Proof. intros Hfg. induction l as [|a l IH]; csimpl; [done|]. by rewrite Hfg, IH. Qed.

Lemma changedEntryFields_blind φ `{!Inj (=) (=) φ} base incoming :
  changedEntryFields (map_fields φ base) (map_fields φ incoming) = changedEntryFields base incoming.
Proof.
  unfold changedEntryFields. simpl.
  assert (Hkeys : ∀ m : list (string * string), (prod_map id φ <$> m).*1 = m.*1).
  { intros m. induction m as [|[k v] m IH]; csimpl; [done|]. by rewrite IH. }
  rewrite Hkeys.
  assert (Hfst : ∀ s, foldl (λ changed (field : string * string),
      if decide (map_get field.1 (prod_map id φ <$> EntrySnapshot.fields base) = Some field.2)
      then changed else set_add changed field.1) s (prod_map id φ <$> EntrySnapshot.fields incoming)
    = foldl (λ changed (field : string * string),
      if decide (map_get field.1 (EntrySnapshot.fields base) = Some field.2)
      then changed else set_add changed field.1) s (EntrySnapshot.fields incoming)).
  { induction (EntrySnapshot.fields incoming) as [|[k v] m IH]; intros s; csimpl; [done|].
    rewrite IH, map_get_fmap. f_equal. apply decide_ext.
    destruct (map_get k _) as [w|]; simpl; naive_solver. }
  rewrite Hfst.
  assert (Hsnd : ∀ l s, foldl (λ changed key,
      if decide (is_Some (map_get key (prod_map id φ <$> EntrySnapshot.fields incoming)))
      then changed else set_add changed key) s l
    = foldl (λ changed key, if decide (is_Some (map_get key (EntrySnapshot.fields incoming)))
      then changed else set_add changed key) s l).
  { induction l as [|k l IH]; intros s'; csimpl; [done|].
    rewrite IH, map_get_fmap. f_equal. apply decide_ext. by rewrite fmap_is_Some. }
  by rewrite Hsnd.
Qed.

(** The values of the fields count for nothing but whether they are the
    same.  Replace every value (or its fingerprint) by another, different ones by
    different ones: the difference of the two databases tells the same, to the
    letter. *)
Theorem diff_blind (φ : string → string) (Hφ : Inj (=) (=) φ) (base incoming : DatabaseSnapshot.t) :
  diffSnapshots (map_values φ base) (map_values φ incoming) = diffSnapshots base incoming.
Proof.
  unfold diffSnapshots. simpl. rewrite !omap_fmap. f_equal; apply omap_same; intros [u e];
    unfold added_entry, changed_entry; simpl; rewrite map_get_fmap.
  - by destruct (map_get u _).
  - by destruct (map_get u _).
  - destruct (map_get u _) as [eb|]; simpl; [|done]. by rewrite changedEntryFields_blind.
Qed.

Example diff_blind_witness :
  diffSnapshots
    (map_values (String.append "hidden ")
       (DatabaseSnapshot.mk [("1", EntrySnapshot.mk "1" "Bank" "Root" [("Password", "p:00")] [])] []))
    (map_values (String.append "hidden ")
       (DatabaseSnapshot.mk [("1", EntrySnapshot.mk "1" "Bank" "Root" [("Password", "p:01")] [])] []))
  = VaultDiff.mk [] []
      [ChangedEntrySummary.mk (DiffEntrySummary.mk "1" "Bank" "Root") ["Password"]] [] [] [].
Proof.
  etransitivity; [apply diff_blind; intros s t; apply (inj (String.append "hidden "))|].
  vm_compute. reflexivity.
Defined.

(** ** Merging *)

Section merging.
Context `{Digest} {Kdbx : Type} `{!KdbxWeb Kdbx}.
Abbreviation Request := (InterpretationRequest.t KdbxCredentialSet.t).

(** Some bytes open with some credentials, which have a password or a key. *)
Definition opens (bytes : Uint8Array) (credentials : KdbxOpenCredentials.t) (database : Kdbx) : Prop :=
  (is_Some (KdbxOpenCredentials.password credentials) ∨
   is_Some (KdbxOpenCredentials.keyFile credentials)) ∧
  kdbx_load bytes credentials = returns database.

(** Merging databases into one, one after the other. *)
Inductive merged_into : Kdbx → list Kdbx → Kdbx → Prop :=
  | merged_none database : merged_into database [] database
  | merged_next database other others database' result :
      kdbx_merge database other = returns database' →
      merged_into database' others result →
      merged_into database (other :: others) result.

(** A database is saved with the credentials of the output, if there are any. *)
Definition with_output (credentials : KdbxCredentialSet.t) (database : Kdbx) : Kdbx :=
  match KdbxCredentialSet.output credentials with
  | None => database
  | Some output => kdbx_set_credentials output database
  end.

Definition output_credentials (credentials : KdbxCredentialSet.t) : KdbxOpenCredentials.t :=
  default (KdbxCredentialSet.local credentials) (KdbxCredentialSet.output credentials).

Lemma outcome_bind_returns {A C} (m : outcome A) (k : A → outcome C) (c : C) :
  (m ≫= k) = returns c ↔ ∃ a, m = returns a ∧ k a = returns c.
Proof. destruct m; simpl; naive_solver. Qed.

Lemma asserting_returns b message u : asserting b message = returns u ↔ b = true.
Proof. destruct b, u; unfold asserting; simpl; naive_solver. Qed.

Lemma toCredentials_returns input credentials :
  toCredentials input = returns credentials ↔
  credentials = input ∧ (is_Some (KdbxOpenCredentials.password input) ∨
                         is_Some (KdbxOpenCredentials.keyFile input)).
Proof.
  unfold toCredentials. rewrite outcome_bind_returns. split.
  - intros ([]&[Hb|Hb]%asserting_returns%orb_true_iff&[= ->]); apply bool_decide_eq_true_1 in Hb;
      auto.
  - intros [-> Hi]. exists tt. split; [|done]. apply asserting_returns, orb_true_iff.
    rewrite !bool_decide_eq_true. done.
Qed.

Lemma open_material_returns material credentials database :
  open_material material credentials = returns database ↔
  opens (RevisionMaterial.bytes material) credentials database.
Proof.
  unfold open_material, opens. rewrite outcome_bind_returns.
  setoid_rewrite toCredentials_returns. naive_solver.
Qed.

Lemma open_incoming_returns credentials index material database :
  open_incoming credentials index material = returns database ↔
  ∃ c, credentials !! index = Some c ∧ opens (RevisionMaterial.bytes material) c database.
Proof.
  unfold open_incoming. rewrite outcome_bind_returns. split.
  - intros ([]&_&Hm). destruct (credentials !! index) as [c|]; [|done].
    exists c. by rewrite <- open_material_returns.
  - intros (c&->&Hm%open_material_returns). by exists tt.
Qed.

(** The loop over the incoming revisions, whose credentials are those from
    [index] on. *)
Lemma merge_all_returns before credentials incoming database result :
  length credentials = length incoming →
  merge_all (before ++ credentials) (length before) incoming database = returns result ↔
  ∃ opened, Forall3 (λ material c other, opens (RevisionMaterial.bytes material) c other)
              incoming credentials opened ∧ merged_into database opened result.
Proof.
  revert before credentials database.
  induction incoming as [|material incoming IH]; intros before credentials database Hlen.
  - apply nil_length_inv in Hlen as ->. simpl. split.
    + intros [= <-]. exists []. split; constructor.
    + intros (opened&Hopen&Hm). inversion Hopen; subst. by inversion Hm.
  - destruct credentials as [|c credentials]; [done|]. injection Hlen as Hlen.
    simpl. rewrite outcome_bind_returns. setoid_rewrite open_incoming_returns.
    setoid_rewrite outcome_bind_returns.
    assert (Hc : (before ++ c :: credentials) !! length before = Some c).
    { by rewrite list_lookup_middle. }
    assert (Hsplit : before ++ c :: credentials = (before ++ [c]) ++ credentials).
    { by rewrite <- (assoc (++)). }
    assert (HS : S (length before) = length (before ++ [c])) by (rewrite length_app; simpl; lia).
    rewrite HS, Hc, Hsplit. setoid_rewrite (IH (before ++ [c]) credentials _ Hlen).
    split.
    + intros (other&(?&[= <-]&Hopen)&database'&Hmerge&opened&Hopened&Hinto).
      exists (other :: opened). split; econstructor; done.
    + intros (opened&Hopened&Hinto). inversion Hopened; subst. inversion Hinto; subst. eauto 10.
Qed.

(** What the [try] of a merge returns. *)
Lemma merge_body_returns credentials (request : Request) saved :
  length (KdbxCredentialSet.incoming credentials) = length (InterpretationRequest.incoming _ request) →
  merge_body credentials request = returns saved ↔
  ∃ database opened result,
    opens (RevisionMaterial.bytes (InterpretationRequest.local _ request))
      (KdbxCredentialSet.local credentials) database ∧
    Forall3 (λ material c other, opens (RevisionMaterial.bytes material) c other)
      (InterpretationRequest.incoming _ request) (KdbxCredentialSet.incoming credentials) opened ∧
    merged_into database opened result ∧
    kdbx_save (with_output credentials result) = returns saved ∧
    ∃ again, opens saved (output_credentials credentials) again.
Proof.
  intros Hlen. unfold merge_body, with_output, output_credentials.
  rewrite outcome_bind_returns. setoid_rewrite open_material_returns.
  setoid_rewrite outcome_bind_returns.
  setoid_rewrite (merge_all_returns [] _ _ _ _ Hlen).
  setoid_rewrite outcome_bind_returns. setoid_rewrite outcome_bind_returns.
  setoid_rewrite outcome_bind_returns. setoid_rewrite toCredentials_returns.
  setoid_rewrite outcome_bind_returns. unfold opens.
  destruct (KdbxCredentialSet.output credentials) as [output|]; simpl.
  - setoid_rewrite outcome_bind_returns. setoid_rewrite toCredentials_returns.
    split; [|naive_solver]. 
    intros (database&?&result&(opened&?&?)&?&(?&[-> ?]&[= <-])&?&?&?&[-> ?]&again&?&[= ->]).
    eauto 15.
  - split; [|naive_solver].
    intros (database&?&result&(opened&?&?)&?&[= <-]&?&?&?&[-> ?]&again&?&[= ->]). eauto 15.
Qed.

Lemma merge_succeeds (request : Request) saved parents :
  kdbx_interpreter_merge request = merge_succeeded saved parents ↔
  ∃ credentials, InterpretationRequest.credentials _ request = Some credentials ∧
    InterpretationRequest.incoming _ request ≠ [] ∧
    length (KdbxCredentialSet.incoming credentials)
      = length (InterpretationRequest.incoming _ request) ∧
    parents = RevisionMaterial.revisionId
      <$> InterpretationRequest.local _ request :: InterpretationRequest.incoming _ request ∧
    merge_body credentials request = returns saved.
Proof.
  unfold kdbx_interpreter_merge. destruct (InterpretationRequest.credentials _ request) as [c|]; [|naive_solver].
  pose proof (length_zero_iff_nil (InterpretationRequest.incoming _ request)) as Hlist.
  case_bool_decide as Hnil; [naive_solver|].
  case_bool_decide as Hlen; simpl; [|naive_solver].
  split.
  - intros Hm. exists c. destruct (merge_body c request) as [b|f]; [|done]. injection Hm as <- <-.
    split_and!; try done. by intros ?%Hlist.
  - intros (c'&[= <-]&_&_&->&->). done.
Qed.
End merging.

(** A merge hands back bytes exactly when there was something to merge with,
    the database of every revision opened with its own credentials, they merged
    into the local one in the order they were given, and what was saved opens
    again with the credentials of the output (those of the local database unless
    others were named).  It then names the local revision and the incoming ones,
    in this order, as the parents.  In every other case it says why, and hands
    back nothing. *)
Theorem merge_hands_back `{Digest} {Kdbx : Type} `{!KdbxWeb Kdbx}
    (request : InterpretationRequest.t KdbxCredentialSet.t) (saved : Uint8Array)
    (parents : list RevisionId) :
  kdbx_interpreter_merge request = merge_succeeded saved parents ↔
  InterpretationRequest.incoming _ request ≠ [] ∧
  parents = RevisionMaterial.revisionId
    <$> InterpretationRequest.local _ request :: InterpretationRequest.incoming _ request ∧
  ∃ credentials database opened result again,
    InterpretationRequest.credentials _ request = Some credentials ∧
    opens (RevisionMaterial.bytes (InterpretationRequest.local _ request))
      (KdbxCredentialSet.local credentials) database ∧
    Forall3 (λ material c other, opens (RevisionMaterial.bytes material) c other)
      (InterpretationRequest.incoming _ request) (KdbxCredentialSet.incoming credentials) opened ∧
    merged_into database opened result ∧
    kdbx_save (with_output credentials result) = returns saved ∧
    opens saved (output_credentials credentials) again.
Proof.
  rewrite merge_succeeds. split.
  - intros (credentials&->&Hne&Hlen&->&Hbody). apply merge_body_returns in Hbody; [|done].
    naive_solver.
  - intros (Hne&->&credentials&database&opened&result&again&->&?&Hopened&?&?&?).
    exists credentials. pose proof (Forall3_length_lm _ _ _ _ Hopened).
    split_and!; try done. apply merge_body_returns; naive_solver.
Qed.

(** ** The merged version *)

Section merged_version.
Context `{RowOrder, Digest} {B : Type} `{!BlobStore B} {Kdbx : Type} `{!KdbxWeb Kdbx}.
Context (clock : nat → Date) (vaultIds revisionIds : nat → string) (deviceId : DeviceId).

Lemma opened_uniform password (materials : list RevisionMaterial.t) opened :
  Forall3 (λ material c (other : Kdbx), opens (RevisionMaterial.bytes material) c other)
    materials (replicate (length materials) (password_only password)) opened →
  Forall (λ material, ∃ other, opens (Kdbx := Kdbx) (RevisionMaterial.bytes material)
    (password_only password) other) materials.
Proof.
  revert opened. induction materials as [|material materials IH]; intros opened Hopen; [done|].
  simpl in Hopen. inversion Hopen; subst. constructor; [by eexists|by eapply IH].
Qed.

(** C15: a version that combines others can be read.  When the engine merges with
    one password, and a new version comes of it, then the bytes of the base and of
    every other version opened with that password, its parents are these versions,
    and bytes with the hash of the new version open with that password too; it is
    the only version that was added.  When anything fails to open, no version is
    added and the database is as it was. *)
Theorem merged_version_opens (k : VaultId) (base : RevisionId) (incoming : list RevisionId)
    (password : string) (message : option string) s (Hs : engine_ok s)
    (Hf : fresh_ids vaultIds revisionIds s) :
  match Engine.merge (B := B) clock revisionIds deviceId kdbx_interpreter_merge k base incoming
          (uniformCredentials password (length incoming)) message s with
  | (Ok (merged r), s') =>
      Revision.parentIds r = base :: incoming ∧ adds r s s' ∧
      (∃ bytes again, sha256 bytes = Revision.hash r ∧
         opens (Kdbx := Kdbx) bytes (password_only password) again) ∧
      Forall (λ i, ∃ bytes database, bytesOf (B := B) i s = (Ok bytes, s) ∧
         opens (Kdbx := Kdbx) bytes (password_only password) database) (base :: incoming)
  | (Ok _, s') => s' = s
  | (Err _, s') => db s' = db s
  end.
Proof.
  pose proof (merge_outcomes clock vaultIds revisionIds deviceId kdbx_interpreter_merge k base incoming
    (uniformCredentials password (length incoming)) message s Hs Hf) as Hm.
  destruct (Engine.merge _ _ _ _ _ _ _ _ _ s) as [[[r|e|e]|e] s']; [|exact Hm..].
  destruct Hm as (Hp&_&_&_&_&(local&others&bytes&parents&Hbase&Hothers&Hmerge&Hhash)&Hadds&_).
  apply merge_succeeds in Hmerge as (credentials&Hc&_&Hlen&_&Hbody). injection Hc as <-.
  apply merge_body_returns in Hbody; [|done].
  destruct Hbody as (database&opened&result&Hlocal&Hopened&_&_&again&Hagain). simpl in *.
  split; [done|]. split; [done|]. split; [by exists bytes, again|].
  constructor; [by exists local, database|].
  pose proof (Forall2_length _ _ _ Hothers) as Hl. rewrite Hl in Hopened.
  apply opened_uniform in Hopened. clear -Hothers Hopened.
  induction Hothers as [|i material incoming others [_ Hi] _ IH]; [constructor|].
  apply Forall_cons in Hopened as [[other Hother] Hopened].
  constructor; [by exists (RevisionMaterial.bytes material), other|by apply IH].
Qed.
End merged_version.

(** A library whose databases are their bytes, all with one password. *)
Module Toy.
Definition load (bytes : Uint8Array) (credentials : KdbxOpenCredentials.t) : outcome Uint8Array :=
  if decide (KdbxOpenCredentials.password credentials = Some "open sesame") then returns bytes
  else throws (KdbxError "InvalidKey" "").
End Toy.

#[local] Instance toy_kdbx : KdbxWeb Uint8Array :=
  {| kdbx_load := Toy.load; kdbx_merge a b := returns (a ++ b); kdbx_set_credentials _ a := a;
     kdbx_save := returns; kdbx_groups _ := []; InvalidKey := "InvalidKey" |}.
#[local] Existing Instance insertion_order.
#[local] Existing Instance first_bytes.
#[local] Existing Instance desk_blobs.

Lemma merged_version_opens_witness :
  match Engine.merge Device.clock Device.ids "this" kdbx_interpreter_merge "a" "aa" ["x"]
          (uniformCredentials "open sesame" 1) None (Services.engine desk2) with
  | (Ok (merged r), s') => Revision.parentIds r = ["aa"; "x"] ∧
      ∃ bytes again, sha256 bytes = Revision.hash r ∧
        opens (Kdbx := Uint8Array) bytes (password_only "open sesame") again
  | _ => False
  end.
Proof.
  pose proof (merged_version_opens Device.clock Device.ids Device.ids "this" "a" "aa" ["x"] "open sesame" None
    (Services.engine desk2) desk2_ok desk2_fresh) as Hm. change (length ["x"]) with 1%nat in Hm.
  assert (match (Engine.merge Device.clock Device.ids "this" kdbx_interpreter_merge "a" "aa" ["x"]
    (uniformCredentials "open sesame" 1) None (Services.engine desk2)).1 with
    | Ok (merged r) => True | _ => False end) as Hr by (vm_compute; exact I).
  destruct (Engine.merge _ _ _ _ _ _ _ _ _ (Services.engine desk2)) as [[[r|e|e]|e] s']; try destruct Hr.
  destruct Hm as (Hp&_&Ho&_). split; [exact Hp|exact Ho].
Defined.

(** Two entries with distinct identifiers, one of them in a group. *)
Definition tree : list KdbxGroup :=
  [kdbx_group "g0" (Some "Root") [KdbxEntry.mk "1" [("Title", plain_text "Bank")] []]
     [kdbx_group "g1" None [KdbxEntry.mk "2" [("Password", ProtectedValue [Byte.x01] "x")] ["b"; "a"]] []]].

Lemma snapshot_of_tree_witness :
  DatabaseSnapshot.entries (snapshotDatabase tree)
  = [("1", EntrySnapshot.mk "1" "Bank" "Root" [("Title", "s:Bank")] []);
     ("2", EntrySnapshot.mk "2" "Untitled" "Root/Unnamed group"
        [("Password", "p:01000000000000000000000000000000")] ["a"; "b"])] ∧
  DatabaseSnapshot.groups (snapshotDatabase tree) = [("g0", "Root"); ("g1", "Root/Unnamed group")].
Proof.
  destruct (snapshot_of_tree tree) as [He Hg].
  - refine (bool_decide_eq_true_1 _ _). vm_compute. reflexivity.
  - refine (bool_decide_eq_true_1 _ _). vm_compute. reflexivity.
  - split; [rewrite He|rewrite Hg]; vm_compute; reflexivity.
Defined.
