(* ===== verification/ServicesProps.v ===== *)
(** * The services: properties *)

From S2P Require Import Prelude Model Bytes JsString Json JsMap Dag Lineage Protocol Effects Store.
From S2P Require Import BlobStore Engine Inbox Identity Session ShortCode Settings Hub VaultFile Explain Kdbx.
From S2P Require Import Services ServicesTheory Desk StoreProps EngineProps.
From Stdlib Require String.

Open Scope Z_scope.

Section services.
Context `{RowOrder, Digest} {B : Type} `{!BlobStore B} {F : Type} `{!VaultFileAccess F}.
Context (engine_clock : nat → Date) (vaultIds revisionIds : nat → string).
Context (clock : nat → Date) (localeTime : Date → string) (conflictIds : nat → string).
Context (interpreter_merge : InterpretationRequest.t KdbxCredentialSet.t → InterpretationResult).
Context (interpreter_diff : InterpretationRequest.t KdbxCredentialSet.t → DiffResult).
Context (keyPair : DeviceKeyPair.t) (atRestUnprotected : bool).
Context (defaultServerHost : string).
Implicit Types s : Services.t B F.
Abbreviation perform := (perform engine_clock vaultIds revisionIds clock localeTime conflictIds
  interpreter_merge interpreter_diff keyPair atRestUnprotected defaultServerHost).
Abbreviation sas_of := (sasFor keyPair).

(** ** What the steps that are not calm do *)

(** The steps that touch the verification, the pairing or the sessions. *)
Definition touches (step : ServiceStep) : bool :=
  match step with
  | BeginsPairing _ | AsksPerson _ _ _ | Answers _ | VerificationTimer _ | StartsSession _ _
  | PeerInitiates _ | EndsSession _ _ => true
  | _ => false
  end.

Lemma calm_perform step s : touches step = false → undisturbed s (perform step s).
Proof.
  destruct step; try done; intros _.
  - apply calm_start. - apply calm_stop. - apply calm_peers. - apply calm_peers.
  - apply calm_bindVault. - apply calm_stopTracking. - apply calm_recordFileNow. - apply calm_watcher.
  - apply calm_unlock_beat. - apply calm_applyPendingUpdate. - apply calm_writeBack.
  - apply calm_saveVaultAs. - apply calm_promote. - apply calm_settings. - apply calm_saveSettings.
  - apply calm_rendezvousFor. - apply calm_standing. - apply calm_disconnect. - apply calm_reconnect.
  - apply calm_forget. - apply calm_resolve. - apply calm_preview. - apply calm_merge. - apply calm_combine.
  - apply calm_session_event.
Qed.

(** The end of a verification. *)
Lemma settle_run confirmed message s :
  match Services.verification s with
  | None => settleVerification clock localeTime confirmed message s = (Ok tt, s)
  | Some v => ∃ s', settleVerification clock localeTime confirmed message s = (Ok tt, s') ∧
      undisturbed (Services.set_notices (Services.notices s ++ [Confirmed (Verification.promise v) confirmed])
        (Services.set_verification None s)) s'
  end.
Proof.
  unfold settleVerification, mbind, M_bind, gets.
  destruct (Services.verification s) as [v|]; [|reflexivity].
  set (s0 := Services.set_notices (Services.notices s ++ [Confirmed (Verification.promise v) confirmed])
    (Services.set_verification None s)).
  set (tail := log clock localeTime message ≫= λ _, onSnapshotChanged : M (Services.t B F) unit).
  assert (keeps undisturbed tail) as Htail by (unfold tail; calm).
  exists (tail s0).2. split; [|apply Htail].
  reflexivity.
Qed.

(** What a session's end leaves, after what its result leads to. *)
Lemma ends_run p ending s :
  ∃ s1, undisturbed s s1 ∧
    let s2 := (settleVerification clock localeTime false "The other device disconnected before you confirmed." s1).2 in
    perform (EndsSession p ending) s =
      Services.set_peers (Hub.closeLink p (Services.peers s2))
        (Services.set_sessionsInFlight (set_delete (Services.sessionsInFlight s2) p) s2).
Proof.
  unfold ServicesTheory.perform, session_ends.
  set (m := match ending with inl _ => _ | inr _ => _ end).
  assert (undisturbed s (m s).2) as Hm.
  { unfold m. destruct ending; [|apply calm_failure].
    apply calm_attempt; [apply calm_session_result|intros; apply calm_failure]. }
  assert (∃ outcome, (m s).1 = Ok outcome) as [outcome Hok].
  { unfold m. destruct ending as [result|error]; [|by eexists].
    unfold attempt. destruct (session_result _ _ _ _ result s) as [[outcome|e] s']; by eexists. }
  exists (m s).2. split; [exact Hm|]. unfold mbind at 1, M_bind at 1.
  destruct (m s) as [r s1]. simpl in Hok. subst r. cbn [snd].
  unfold mbind, M_bind, session_cleanup, modify.
  pose proof (settle_run false "The other device disconnected before you confirmed." s1) as Hs.
  destruct (Services.verification s1) as [v|].
  - destruct Hs as (s2 & Hs2 & _). unfold mbind, M_bind in *. by rewrite Hs2.
  - unfold mbind, M_bind in *. by rewrite Hs.
Qed.

Lemma starts_run p pairingMode s :
  let s' := (session_starts p pairingMode s).2 in
  s' = s ∨ (p ∉ Services.sessionsInFlight s) ∧
    s' = Services.set_peers (Hub.createLink p (Services.peers s)).1
           (Services.set_sessionsInFlight (set_add (Services.sessionsInFlight s) p) s).
Proof.
  unfold session_starts, mbind, M_bind, gets. case_decide; [by left|]. right. split; [done|].
  unfold modify. cbn [fst snd Services.peers Services.set_sessionsInFlight].
  by destruct (Hub.createLink p (Services.peers s)) as [h link].
Qed.

Lemma initiated_run p s : ∃ n,
  let s0 := Services.set_reads n s in
  perform (PeerInitiates p) s = s ∨ ∃ pairing, perform (PeerInitiates p) s = (session_starts p pairing s0).2.
Proof.
  unfold ServicesTheory.perform, on_peer_initiated, pairingUnderway, mbind, M_bind, gets.
  case_decide; [by exists (Services.reads s); left|].
  destruct (Services.pairingStartedAt s) as [t|]; cbn [mret M_ret now fst snd].
  - exists (S (Services.reads s)). right. exists (clock (Services.reads s) - t <? 5 * 60000).
    by destruct (session_starts p _ _) as [[started|e] s'].
  - exists (Services.reads s). right. exists false.
    assert (Services.set_reads (Services.reads s) s = s) as -> by by destruct s.
    by destruct (session_starts p false s) as [[started|e] s'].
Qed.

Lemma asks_run d key name s :
  let s' := perform (AsksPerson d key name) s in
  match Services.verification s with
  | Some _ => s' = s
  | None => undisturbed
      (Services.set_verification (Some (Verification.mk d name (sas_of key) (Services.made s)))
        (Services.set_made (S (Services.made s)) s)) s'
  end.
Proof.
  unfold ServicesTheory.perform, awaitPairingConfirmation, mbind, M_bind, gets.
  destruct (Services.verification s) as [v|]; [reflexivity|].
  set (s0 := Services.set_verification _ _).
  set (tail := log clock localeTime ("Check the six-digit number shown on " +:+ name
    +:+ " matches the one here.") ≫= λ _, onSnapshotChanged ≫= λ _, mret (Some (Services.made s))
    : M (Services.t B F) (option nat)).
  assert (keeps undisturbed tail) as Htail by (unfold tail; calm).
  change (undisturbed s0 (tail s0).2). apply Htail.
Qed.

(** ** What every step does to the verification *)

(** The promises that a step resolved, and what it did to the number that is
    shown. *)
Definition verified step s s' : Prop :=
  ∃ new, Services.notices s' = Services.notices s ++ new ∧
    match Services.verification s with
    | None =>
        (∀ n answer, Confirmed n answer ∉ new) ∧
        ∀ v, Services.verification s' = Some v → ∃ key,
          step = AsksPerson (Verification.deviceId v) key (Verification.peerName v) ∧
          Verification.code v = sas_of key
    | Some v =>
        (Services.verification s' = Some v ∧ ∀ n answer, Confirmed n answer ∉ new) ∨
        (Services.verification s' = None ∧ ∃ answer, Confirmed (Verification.promise v) answer ∈ new ∧
           (∀ n a, Confirmed n a ∈ new → n = Verification.promise v ∧ a = answer) ∧
           (answer = true → step = Answers true))
    end.

Lemma no_answers new :
  Forall (λ n, ∀ promise answer, n ≠ Confirmed promise answer) new → ∀ n answer, Confirmed n answer ∉ new.
Proof. rewrite Forall_forall. intros Hf n answer Hin. by eapply Hf. Qed.

Lemma calm_verified step s s' : undisturbed s s' → verified step s s'.
Proof.
  intros [Hv _ _ (new & Hn & Hf) _ _]. exists new. split; [done|]. rewrite Hv.
  destruct (Services.verification s) as [v|]; [left; split; [done|]|split; [|done]]; by apply no_answers.
Qed.

Lemma settle_verified step confirmed message s :
  (confirmed = true → step = Answers true) →
  verified step s (settleVerification clock localeTime confirmed message s).2.
Proof.
  intros Hc. pose proof (settle_run confirmed message s) as Hs. unfold verified.
  destruct (Services.verification s) as [v|] eqn:Hv.
  - destruct Hs as (s' & -> & Hu). destruct Hu as [Hv' _ _ (new & Hn & Hf) _ _]. simpl in Hv', Hn.
    exists ([Confirmed (Verification.promise v) confirmed] ++ new). rewrite app_assoc. split; [exact Hn|].
    right. split; [exact Hv'|]. exists confirmed. split_and!; [set_solver| |exact Hc].
    intros n a. rewrite elem_of_app, list_elem_of_singleton. intros [[= -> ->]|Hin]; [done|].
    by apply (no_answers new Hf) in Hin.
  - rewrite Hs. exists []. rewrite app_nil_r. split; [done|]. split; [|simpl; congruence].
    intros n answer Hin. by apply elem_of_nil in Hin.
Qed.

Lemma verified_before step s s1 s' : undisturbed s s1 → verified step s1 s' → verified step s s'.
Proof.
  intros [Hv _ _ (n1 & Hn1 & Hf1) _ _] (n2 & Hn2 & Hcase). exists (n1 ++ n2).
  rewrite Hn2, Hn1, app_assoc. split; [done|]. rewrite Hv in Hcase.
  assert (∀ n a, Confirmed n a ∈ n1 ++ n2 ↔ Confirmed n a ∈ n2) as Hiff.
  { intros n a. rewrite elem_of_app. pose proof (no_answers n1 Hf1 n a). naive_solver. }
  destruct (Services.verification s) as [v|].
  - destruct Hcase as [[? Hno]|(? & answer & Hin & Hall & Hans)]; [left|right].
    + split; [done|]. intros n a. by rewrite Hiff.
    + split; [done|]. exists answer. rewrite Hiff. split_and!; [done| |done]. intros n a. rewrite Hiff. auto.
  - destruct Hcase as [Hno Hv2]. split; [|done]. intros n a. by rewrite Hiff.
Qed.

Lemma verified_fields step s s1 s2 :
  Services.verification s2 = Services.verification s1 → Services.notices s2 = Services.notices s1 →
  verified step s s1 → verified step s s2.
Proof. unfold verified. intros -> ->. done. Qed.

Lemma quiet_fields step s s' :
  Services.verification s' = Services.verification s → Services.notices s' = Services.notices s → verified step s s'.
Proof.
  intros Hv Hn. exists []. rewrite app_nil_r. split; [done|]. rewrite Hv.
  assert (∀ n answer, Confirmed n answer ∉ []) as Hno by (intros n answer Hin; by apply elem_of_nil in Hin).
  destruct (Services.verification s); [by left|done].
Qed.

Lemma perform_verified step s : verified step s (perform step s).
Proof.
  destruct (touches step) eqn:Ht; [|by apply calm_verified, calm_perform].
  destruct step; try done; clear Ht.
  - by apply quiet_fields.
  - pose proof (asks_run deviceId publicKey name s) as Ha. cbv zeta in Ha. unfold verified.
    destruct (Services.verification s) as [v|] eqn:Hv.
    + rewrite Ha. exists []. rewrite app_nil_r, Hv. split; [done|]. left. split; [done|].
      intros n answer Hin. by apply elem_of_nil in Hin.
    + destruct Ha as [Hv' _ _ (new & Hn & Hf) _ _]. exists new. split; [exact Hn|].
      split; [by apply no_answers|]. intros w. rewrite Hv'. simpl. intros [= <-]. by exists publicKey.
  - simpl. unfold answerVerification, mbind, M_bind, gets. destruct (Services.verification s) as [v|] eqn:Hv.
    + apply settle_verified. by intros ->.
    + by apply quiet_fields.
  - simpl. unfold verification_timer, mbind, M_bind, gets. case_decide; [|by apply quiet_fields].
    by apply settle_verified.
  - simpl. destruct (starts_run peerId pairingMode s) as [->|[_ ->]]; by apply quiet_fields.
  - destruct (initiated_run peerId s) as (n & [->|[pairing ->]]); [by apply quiet_fields|].
    destruct (starts_run peerId pairing (Services.set_reads n s)) as [->|[_ ->]]; by apply quiet_fields.
  - destruct (ends_run peerId ending s) as (s1 & Hu & ->). eapply verified_fields; [reflexivity..|].
    eapply verified_before; [exact Hu|]. by apply settle_verified.
Qed.

(** C7: only the person confirms a new device.  Whatever the application does, a
    handshake that waits for the six digits is let go on only by the person's
    yes, while the number shown is that of the key of the device it waits for;
    the number that is shown never becomes another one; and when it goes, its
    handshake, and no other, has its answer. *)
Theorem only_the_person_confirms (step : ServiceStep) s :
  let s' := perform step s in
  ∃ new, Services.notices s' = Services.notices s ++ new ∧
    (∀ n, Confirmed n true ∈ new → step = Answers true ∧
       ∃ v, Services.verification s = Some v ∧ Verification.promise v = n) ∧
    (∀ v, Services.verification s = Some v → Services.verification s' = Some v ∨
       Services.verification s' = None ∧ ∃ answer, Confirmed (Verification.promise v) answer ∈ new) ∧
    (∀ v, Services.verification s = None → Services.verification s' = Some v → ∃ key,
       step = AsksPerson (Verification.deviceId v) key (Verification.peerName v) ∧
       Verification.code v = sas_of key).
Proof.
  destruct (perform_verified step s) as (new & Hn & Hcase). cbv zeta. exists new. split; [done|].
  destruct (Services.verification s) as [v|].
  - destruct Hcase as [[Hv Hno]|(Hv & answer & Hin & Hall & Hans)]; rewrite Hv.
    + split_and!; [intros n Hn1; by apply Hno in Hn1|intros w [= <-]; by left|done].
    + split_and!; [|intros w [= <-]; right; by eauto|done].
      intros n Hn1. destruct (Hall _ _ Hn1) as [-> <-]. split; [by apply Hans|by eexists].
  - destruct Hcase as [Hno Hv]. split_and!; [intros n Hn1; by apply Hno in Hn1|done|auto].
Qed.

(** A session that ends refuses whoever is being verified.  Whatever
    session it is, of whichever peer, and however it ended: the number that is
    shown goes, and the handshake that waits for it is refused. *)
Theorem other_session_refuses (p : string) (ending : SessionResult.t + SessionError.t) s v
    (Hv : Services.verification s = Some v) :
  let s' := perform (EndsSession p ending) s in
  Services.verification s' = None ∧
  ∃ new, Services.notices s' = Services.notices s ++ new ∧ Confirmed (Verification.promise v) false ∈ new.
Proof.
  destruct (ends_run p ending s) as (s1 & Hu & Hend). cbv zeta. rewrite Hend.
  destruct Hu as [Hv1 _ _ (n1 & Hn1 & _) _ _]. 
  pose proof (settle_run false "The other device disconnected before you confirmed." s1) as Hs.
  rewrite Hv1, Hv in Hs. destruct Hs as (s2 & Hs2 & [Hv2 _ _ (n2 & Hn2 & _) _ _]). rewrite Hs2. simpl in *.
  split; [done|]. exists (n1 ++ [Confirmed (Verification.promise v) false] ++ n2).
  rewrite Hn2, Hn1, <-!app_assoc. split; [done|]. set_solver.
Qed.

(** ** What holds of the services *)

Lemma calm_ok s s' : undisturbed s s' → services_ok s → services_ok s'.
Proof. intros [? ? Hs ? ? ?] []. split; [auto..|by rewrite Hs]. Qed.

Lemma fields_ok s s' :
  Services.activity s' = Services.activity s → Services.unlockTimer s' = Services.unlockTimer s →
  Services.updateHeldBack s' = Services.updateHeldBack s → NoDup (Services.sessionsInFlight s') →
  services_ok s → services_ok s'.
Proof. intros Ha Ht Hu Hs []. split; [by rewrite Ha|by rewrite Ht, Hu|done]. Qed.

Lemma settle_ok confirmed message s :
  services_ok s → services_ok (settleVerification clock localeTime confirmed message s).2.
Proof.
  intros Hok. pose proof (settle_run confirmed message s) as Hs.
  destruct (Services.verification s); [|by rewrite Hs].
  destruct Hs as (s' & -> & Hu). eapply calm_ok; [exact Hu|]. apply (fields_ok s); [done..|apply Hok|done].
Qed.

Lemma starts_ok p pairing s : services_ok s → services_ok (session_starts p pairing s).2.
Proof.
  intros Hok. destruct (starts_run p pairing s) as [->|[_ ->]]; [done|].
  apply (fields_ok s); [done..| |done]. apply set_add_NoDup, Hok.
Qed.

Lemma set_delete_NoDup {A} `{EqDecision A} (l : list A) x : NoDup l → NoDup (set_delete l x).
Proof. apply NoDup_filter. Qed.

(** C37: the services stay sound.  Whatever the application does, the log keeps
    to its bound, the timer that waits for KeePassXC runs exactly while an update
    is held back, and no peer has two sessions; and a second session for a peer
    that has one is refused and changes nothing. *)
Theorem services_sound (step : ServiceStep) s (Hok : services_ok s) :
  services_ok (perform step s) ∧
  ∀ p pairing, p ∈ Services.sessionsInFlight s →
    session_starts p pairing s = (Ok (inr (sync_failed "A sync with that device is already running.")), s).
Proof.
  split.
  2:{ intros p pairing Hin. unfold session_starts, mbind, M_bind, gets. by rewrite decide_True. }
  destruct (touches step) eqn:Ht; [|by eapply calm_ok, Hok; apply calm_perform].
  destruct step; try done; clear Ht.
  - apply (fields_ok s); [done..|apply Hok|done].
  - pose proof (asks_run deviceId publicKey name s) as Ha. cbv zeta in Ha.
    destruct (Services.verification s); [by rewrite Ha|].
    eapply calm_ok; [exact Ha|]. apply (fields_ok s); [done..|apply Hok|done].
  - simpl. unfold answerVerification, mbind, M_bind, gets. destruct (Services.verification s); [|done].
    by apply settle_ok.
  - simpl. unfold verification_timer, mbind, M_bind, gets. case_decide; [by apply settle_ok|done].
  - by apply starts_ok.
  - destruct (initiated_run peerId s) as (n & [->|[pairing ->]]); [done|]. apply starts_ok.
    apply (fields_ok s); [done..|apply Hok|done].
  - destruct (ends_run peerId ending s) as (s1 & Hu & ->).
    assert (services_ok (settleVerification clock localeTime false
      "The other device disconnected before you confirmed." s1).2) as Hok2.
    { apply settle_ok. by eapply calm_ok. }
    eapply fields_ok; [ | | | |exact Hok2]; [done..|]. apply set_delete_NoDup, Hok2.
Qed.

(** ** The time of pairing *)

Lemma pairing_kept step s : (∀ where_, step ≠ BeginsPairing where_) →
  Services.pairingStartedAt (perform step s) = Services.pairingStartedAt s.
Proof.
  intros Hno.
  assert (∀ confirmed message s, Services.pairingStartedAt
    (settleVerification clock localeTime confirmed message s).2 = Services.pairingStartedAt s) as Hsettle.
  { intros confirmed message s0. pose proof (settle_run confirmed message s0) as Hs.
    destruct (Services.verification s0); [|by rewrite Hs]. destruct Hs as (s' & -> & [_ Hp _ _ _ _]). done. }
  assert (∀ p pairing s, Services.pairingStartedAt (session_starts p pairing s).2 =
    Services.pairingStartedAt s) as Hstart.
  { intros p pairing s0. by destruct (starts_run p pairing s0) as [->|[_ ->]]. }
  destruct (touches step) eqn:Ht; [|by apply calm_perform].
  destruct step; try done; clear Ht.
  - by destruct (Hno where_).
  - pose proof (asks_run deviceId publicKey name s) as Ha. cbv zeta in Ha.
    destruct (Services.verification s); [by rewrite Ha|]. by destruct Ha as [_ -> _ _ _ _].
  - simpl. unfold answerVerification, mbind, M_bind, gets. by destruct (Services.verification s).
  - simpl. unfold verification_timer, mbind, M_bind, gets. by case_decide.
  - apply Hstart.
  - destruct (initiated_run peerId s) as (n & [->|[pairing ->]]); [done|]. by rewrite Hstart.
  - destruct (ends_run peerId ending s) as (s1 & [_ Hp _ _ _ _] & ->). simpl. by rewrite Hsettle.
Qed.

(** A pairing stays open for five minutes.  Once a code was made or read at
    a time, a session that a peer begins is one that may pin an unknown key, as
    long as five minutes have not passed since; nothing that happens in between,
    a session that pinned a key least of all, closes the door earlier. *)
Theorem pairing_stays_open (steps : list ServiceStep) s (t : Date)
    (Hsteps : Forall (λ step, ∀ where_, step ≠ BeginsPairing where_) steps)
    (Ht : Services.pairingStartedAt s = Some t) :
  let s' := foldl (λ s step, perform step s) s steps in
  (pairingUnderway clock s').1 = Ok (clock (Services.reads s') - t <? 5 * 60000) ∧
  ∀ p, p ∉ Services.sessionsInFlight s' → clock (Services.reads s') - t < 5 * 60000 →
    ∃ input, (on_peer_initiated clock p s').1 = Ok (Some (inl input)) ∧ SessionInput.pairingMode input = true.
Proof.
  assert (Services.pairingStartedAt (foldl (λ s step, perform step s) s steps) = Some t) as Ht'.
  { revert s Ht. induction Hsteps as [|step steps Hno _ IH]; intros s Ht; cbn [foldl]; [done|].
    apply IH. by rewrite pairing_kept. }
  cbv zeta. set (s' := foldl _ s steps) in *. split.
  - unfold pairingUnderway, mbind, M_bind, gets. rewrite Ht'. done.
  - intros p Hp Hlt. unfold on_peer_initiated, pairingUnderway, mbind, M_bind, gets.
    rewrite decide_False, Ht' by done. cbn [now mret M_ret fst snd].
    rewrite (proj2 (Z.ltb_lt _ _)) by done. unfold session_starts, mbind, M_bind, gets. cbn [fst snd].
    rewrite decide_False by done. unfold modify. cbn [fst snd].
    destruct (Hub.createLink p _) as [h link]. cbn [fst snd mret M_ret]. eexists. split; [reflexivity|done].
Qed.
End services.

(** ** On a desktop *)

#[local] Existing Instance insertion_order.
#[local] Existing Instance first_bytes.
#[local] Existing Instance desk_blobs.
#[local] Instance open_files : VaultFileAccess DiskFiles.t := desk_files true.

Definition waiting : Verification.t := Verification.mk "other" "phone" (sasFor Desk.own []) 0.
Definition desk_asked : Services.t (FS.t * nat) DiskFiles.t := desk_step true desk1 (AsksPerson "other" [] "phone").

Lemma other_session_refuses_witness : Services.verification desk_asked = Some waiting ∧
  Services.verification (desk_step true desk_asked
    (EndsSession "a third" (inr (SessionError.mk Inbox.timeout "gone")))) = None.
Proof.
  split; [vm_compute; reflexivity|].
  refine (proj1 (other_session_refuses Device.clock Device.ids Device.ids Device.clock Desk.localeTime Device.ids
    Desk.interpret Desk.diff Desk.own false "localhost:8787" "a third"
    (inr (SessionError.mk Inbox.timeout "gone")) desk_asked waiting _)).
  vm_compute. reflexivity.
Defined.

Lemma services_sound_witness :
  services_ok (desk_step true desk1 (StartsSession "a peer" true)).
Proof.
  refine (proj1 (services_sound Device.clock Device.ids Device.ids Device.clock Desk.localeTime Device.ids
    Desk.interpret Desk.diff Desk.own false "localhost:8787" (StartsSession "a peer" true) desk1 _)).
  split; [|reflexivity|constructor].
  refine (bool_decide_eq_true_1 _ _). vm_compute. reflexivity.
Defined.

Definition meeting_place : Rendezvous.t := Rendezvous.mk "ws://localhost:8787" "room" "token".

Lemma pairing_stays_open_witness :
  (pairingUnderway Device.clock (desk_step true (desk_step true desk1 (BeginsPairing meeting_place))
     (StartsSession "a peer" true))).1 = Ok true.
Proof.
  refine (eq_trans (proj1 (pairing_stays_open Device.clock Device.ids Device.ids Device.clock Desk.localeTime
    Device.ids Desk.interpret Desk.diff Desk.own false "localhost:8787" [StartsSession "a peer" true]
    (desk_step true desk1 (BeginsPairing meeting_place)) 1 _ _)) _).
  - constructor; [discriminate|constructor].
  - vm_compute. reflexivity.
  - vm_compute. reflexivity.
Defined.
