(* ===== verification/ServicesFile.v ===== *)
(** * The services: the current version and its file

    What becomes of the file of the tracked vault when the current version
    moves, and of the current version when a session ends, the person saves or
    combines two versions. *)

From S2P Require Import Prelude Model Bytes JsString Json JsMap Dag DagTheory Lineage Protocol Effects Store.
From S2P Require Import StoreTheory StoreProps BlobStore Engine EngineTheory EngineSteps EngineProps Inbox.
From S2P Require Import Identity Session ShortCode Settings Hub VaultFile VaultFileProps Explain Kdbx.
From S2P Require Import Services ServicesTheory Desk.
From Stdlib Require String.

Open Scope Z_scope.

Section services.
Context `{RowOrder, Digest} {B : Type} `{!BlobStore B} {F : Type} `{!VaultFileAccess F}.
Context (engine_clock : nat → Date) (vaultIds revisionIds : nat → string).
Context (clock : nat → Date) (localeTime : Date → string) (conflictIds : nat → string).
Context (interpreter_merge : InterpretationRequest.t KdbxCredentialSet.t → InterpretationResult).
Context (interpreter_diff : InterpretationRequest.t KdbxCredentialSet.t → DiffResult).
Context (keyPair : DeviceKeyPair.t) (atRestUnprotected : bool).
Context (defaultServerHost : string).
Implicit Types s : Services.t B F.
Abbreviation Run := (M (Services.t B F)).
Abbreviation perform := (ServicesTheory.perform engine_clock vaultIds revisionIds clock localeTime conflictIds
  interpreter_merge interpreter_diff keyPair atRestUnprotected defaultServerHost).
Abbreviation log := (log clock localeTime).

(** The tables, and the content of a file. *)
Definition tables s : Db.t := db (Services.engine s).
Definition on_disk s (path : string) : option Uint8Array := content (Services.files s) path.

(** ** Runs *)

Lemma engine_run {A} (m : M (EngineState.t B) A) s r e :
  m (Services.engine s) = (r, e) → (on m : Run A) s = (r, Services.set_engine e s).
Proof. unfold on. simpl. by intros ->. Qed.

Lemma engine_reads {A} (m : M (EngineState.t B) A) s r :
  m (Services.engine s) = (r, Services.engine s) → (on m : Run A) s = (r, s).
Proof. intros Hm. rewrite (engine_run _ _ _ _ Hm). by destruct s. Qed.

Lemma database_gets {A} (f : Db.t → A) s : (database (gets f) : Run A) s = (Ok (f (tables s)), s).
Proof. apply engine_reads, metadata_gets. Qed.

Lemma database_getRevision i s :
  (database (getRevision i) : Run _) s =
  (Ok ((λ row, toRevision row (parents_in (tables s) i)) <$> Db.revisions (tables s) !! i), s).
Proof. apply engine_reads, getRevision_engine. Qed.

(** What the log and the notices leave alone. *)
Record beside s s' : Prop := Beside {
  be_engine : Services.engine s' = Services.engine s;
  be_files : Services.files s' = Services.files s;
  be_vault : Services.vaultId s' = Services.vaultId s;
  be_held : Services.updateHeldBack s' = Services.updateHeldBack s;
  be_timer : Services.unlockTimer s' = Services.unlockTimer s;
}.

#[global] Instance beside_preorder : PreOrder beside.
Proof. split; [by split|]. intros ??? [] []. split; congruence. Qed.

Lemma beside_log message : keeps beside (log message).
Proof. by intros s. Qed.

Lemma beside_notify notice : keeps beside (notify notice : Run unit).
Proof. by intros s. Qed.

(** A message and a notice, after which the run is done. *)
Lemma told_run message s : ∃ s', (log message ≫= λ _, onSnapshotChanged : Run unit) s = (Ok tt, s') ∧ beside s s'.
Proof. eexists. split; [reflexivity|by split]. Qed.

Lemma files_run {A} (m : M F A) s r f :
  m (Services.files s) = (r, f) → (on m : Run A) s = (r, Services.set_files f s).
Proof. unfold on. simpl. by intros ->. Qed.

Lemma set_files_beside f s : Services.engine (Services.set_files f s) = Services.engine s.
Proof. done. Qed.

(** ** The file *)

(** The vault [k], which is [v] in the tables, is tracked in the file [path]. *)
Record tracks s (k : VaultId) (v : Vault.t) (path : string) : Prop := Tracks {
  tr_vault : Services.vaultId s = Some k;
  tr_row : Db.vaults (tables s) !! k = Some v;
  tr_path : Vault.kdbxPath v = Some path;
  tr_file : vault_path path;
}.

(** What the files were read for leaves the engine, and every content. *)
Record same_files s s' : Prop := SameFiles {
  sf_engine : Services.engine s' = Services.engine s;
  sf_vault : Services.vaultId s' = Services.vaultId s;
  sf_disk : ∀ q, on_disk s' q = on_disk s q;
}.

Lemma matches_run path hash s : vault_path path →
  ∃ same f', (file_matches path hash : Run bool) s = (Ok same, Services.set_files f' s) ∧
    (∀ q, content f' q = on_disk s q) ∧
    (same = true → ∃ bytes, on_disk s path = Some bytes ∧ sha256 bytes = hash).
Proof.
  intros Hp. destruct (file_read_spec (Services.files s) path Hp) as (f' & Hc & Hr).
  unfold file_matches, attempt, mbind, M_bind. destruct Hr as [[Hr [bytes Hb]]|[e Hr]];
    rewrite (files_run _ _ _ _ Hr); do 2 eexists; (split; [reflexivity|split; [exact Hc|]]); [|done].
  intros Hsame%bool_decide_eq_true. exists bytes. split; [exact Hb|]. by rewrite Hb in Hsame.
Qed.

(** What making the file match the version [h] may leave. *)
Definition in_step (h : RevisionId) (row : RevisionRow.t) (path : string) s (r : result unit) s' : Prop :=
  (r = Ok tt ∧ Services.updateHeldBack s' = false ∧ Services.unlockTimer s' = false ∧
     ∃ bytes, on_disk s' path = Some bytes ∧ sha256 bytes = RevisionRow.hash row) ∨
  (r = Ok tt ∧ Services.updateHeldBack s' = true ∧ Services.unlockTimer s' = true ∧
     on_disk s' path = on_disk s path) ∨
  (r = Ok tt ∧ Services.updateHeldBack s' = false ∧ Services.unlockTimer s' = false ∧
     on_disk s' path = on_disk s path ∧
     ∃ bytes reason f f', file_write path bytes false f = (Ok (write_refused reason), f')) ∨
  (∃ e, r = Err e) ∧ Services.updateHeldBack s' = Services.updateHeldBack s ∧
     Services.unlockTimer s' = Services.unlockTimer s ∧ on_disk s' path = on_disk s path.

Lemma held_run s : ∃ s', hold_back clock localeTime s = (Ok tt, s') ∧ same_files s s' ∧
  Services.updateHeldBack s' = true ∧ Services.unlockTimer s' = true.
Proof.
  unfold hold_back, mbind, M_bind, gets. destruct (Services.updateHeldBack s) eqn:Hheld.
  - eexists. split; [reflexivity|]. by split_and!.
  - eexists. split; [reflexivity|]. by split_and!.
Qed.

Lemma head_run path h row parents s :
  engine_ok (Services.engine s) → Db.revisions (tables s) !! h = Some row → vault_path path →
  let '(r, s') := materialize_head clock localeTime path (toRevision row parents) s in
  Services.engine s' = Services.engine s ∧ Services.vaultId s' = Services.vaultId s ∧
  (∀ q, q ≠ path → on_disk s' q = on_disk s q) ∧ in_step h row path s r s' ∧
  ((∀ f, (file_isLocked path f).1 = Ok true) → ∀ q, on_disk s' q = on_disk s q).
Proof.
  intros Hok Hrow Hp. unfold materialize_head.
  destruct (matches_run path (RevisionRow.hash row) s Hp) as (same & f1 & Hm & Hc1 & Hsame).
  erewrite bind_eq by exact Hm. set (s1 := Services.set_files f1 s). destruct same.
  { destruct (Hsame eq_refl) as (bytes & Hb & Hh). split_and!; [done|done|intros q _; apply Hc1| |intros _ q; apply Hc1].
    left. split_and!; [done..|]. exists bytes. by rewrite <-Hb, <-Hc1. }
  destruct (file_isLocked_spec f1 path) as (locked & f2 & Hl & Hc2).
  erewrite bind_eq by exact (files_run _ s1 _ _ Hl). set (s2 := Services.set_files f2 s1).
  assert (∀ q, on_disk s2 q = on_disk s q) as Hs2 by (intros q; etrans; [apply Hc2|apply Hc1]).
  destruct locked.
  { destruct (held_run s2) as (s' & Hh & [? ? Hd] & ? & ?). change (materialize_head clock localeTime path) with
      (materialize_head (F := F) (B := B) clock localeTime path). unfold hold_back in Hh. rewrite Hh.
    split_and!; [done|done|intros q _; by rewrite Hd| |intros _ q; by rewrite Hd].
    right; left. split_and!; [done..|]. by rewrite Hd. }
  assert (¬ ∀ f, (file_isLocked path f).1 = Ok true) as Hnot.
  { intros Hlock. specialize (Hlock f1). by rewrite Hl in Hlock. }
  destruct (stored_bytes h row (Services.engine s2) Hok Hrow) as (bytes & Hbytes & Hhash).
  assert (Revision.id (toRevision row parents) = h) as Hid by exact (wf_row_id _ (ok_wf _ Hok) _ _ Hrow).
  rewrite Hid. erewrite bind_eq by exact (engine_reads _ s2 _ Hbytes).
  destruct (file_write_spec f2 path bytes false Hp) as (f3 & [[Hc3 [e Hw]]|[(Hc3 & reason & Hw)|[Hc3 Hw]]]).
  - erewrite bind_err by exact (files_run _ s2 _ _ Hw). assert (∀ q, content f3 q = on_disk s q) as Hs3.
    { intros q. etrans; [apply Hc3|apply Hs2]. }
    split_and!; [done|done|intros q _; apply Hs3| |done]. right; right; right. split_and!; [by eexists|done..|apply Hs3].
  - erewrite bind_eq by exact (files_run _ s2 _ _ Hw). assert (∀ q, content f3 q = on_disk s q) as Hs3.
    { intros q. etrans; [apply Hc3|apply Hs2]. }
    split_and!; [done|done|intros q _; apply Hs3| |done]. right; right; left. split_and!; [done..|apply Hs3|].
    by exists bytes, reason, f2, f3.
  - erewrite bind_eq by exact (files_run _ s2 _ _ Hw). split_and!; [done|done| | |done].
    + intros q Hq. etrans; [apply Hc3|]. rewrite decide_False by done. apply Hs2.
    + left. split_and!; [done..|]. exists bytes. split; [|done]. etrans; [apply Hc3|]. by rewrite decide_True.
Qed.

Lemma materialize_run k v path h row s :
  engine_ok (Services.engine s) → tracks s k v path → Vault.headRevisionId v = Some h →
  Db.revisions (tables s) !! h = Some row →
  materializeCurrentVersion clock localeTime s =
    materialize_head clock localeTime path (toRevision row (parents_in (tables s) h)) s.
Proof.
  intros Hok [Hv Hrow Hp _] Hh Hr. unfold materializeCurrentVersion.
  erewrite bind_eq by reflexivity. rewrite Hv. unfold getVault. erewrite bind_eq by apply database_gets.
  rewrite Hrow, Hp, Hh. erewrite bind_eq by apply database_getRevision. by rewrite Hr.
Qed.

(** C3: the current version reaches its file, or the file is left as it was.
    After anything that moves the current version, the file of the vault has the
    bytes of that version; or KeePassXC holds it, it is as it was, and the timer
    that tries again runs; or a call failed, and it is as it was.  No other file
    and nothing of the history changes.  The one other end is a lock taken
    between the question and the write: then the file is as it was, and nothing
    waits to try again.  As long as KeePassXC is seen to hold the file, no file
    changes at all. *)
Theorem current_version_written (k : VaultId) (v : Vault.t) (path : string) (h : RevisionId)
    (row : RevisionRow.t) s (Hok : engine_ok (Services.engine s)) (Ht : tracks s k v path)
    (Hh : Vault.headRevisionId v = Some h) (Hr : Db.revisions (tables s) !! h = Some row) :
  let '(r, s') := materializeCurrentVersion clock localeTime s in
  Services.engine s' = Services.engine s ∧ Services.vaultId s' = Services.vaultId s ∧
  (∀ q, q ≠ path → on_disk s' q = on_disk s q) ∧ in_step h row path s r s' ∧
  ((∀ f, (file_isLocked path f).1 = Ok true) → ∀ q, on_disk s' q = on_disk s q).
Proof. rewrite (materialize_run k v path h row) by done. apply head_run; [done..|apply Ht]. Qed.

(** ** The current version when a session ends *)

(** What leaves the history and the files' names alone. *)
Definition unmoved s s' : Prop := Services.engine s' = Services.engine s.

#[global] Instance unmoved_preorder : PreOrder unmoved.
Proof. split; [done|]. intros ??? ? ?. unfold unmoved in *. congruence. Qed.

Lemma unmoved_engine {A} (m : M (EngineState.t B) A) : reads m → keeps unmoved (on m : Run A).
Proof.
  intros Hm s. unfold unmoved, on. simpl. specialize (Hm (Services.engine s)).
  destruct (m (Services.engine s)) as [r e]. simpl in *. by subst.
Qed.

Lemma unmoved_files {A} (m : M F A) : keeps unmoved (on m : Run A).
Proof. intros s. unfold unmoved, on. destruct (m _). done. Qed.

Lemma unmoved_attempt {A} (m : Run A) handler :
  keeps unmoved m → (∀ e, keeps unmoved (handler e)) → keeps unmoved (attempt m handler).
Proof.
  intros Hm Hh s. unfold attempt. specialize (Hm s). destruct (m s) as [[a|e] s']; [done|].
  etrans; [exact Hm|]. apply Hh.
Qed.

Lemma unmoved_hold_back : keeps unmoved (hold_back (B := B) (F := F) clock localeTime).
Proof. intros s. destruct (held_run s) as (s' & -> & [? _ _] & _). done. Qed.

Lemma unmoved_head path head : keeps unmoved (materialize_head clock localeTime path head).
Proof.
  unfold materialize_head. apply kept_bind; [apply _| |intros [|]].
  - unfold file_matches. apply unmoved_attempt; [|intros; by apply keeps_ret, _].
    apply kept_bind; [apply _|apply unmoved_files|intros; by apply keeps_ret, _].
  - by intros s.
  - apply kept_bind; [apply _|apply unmoved_files|intros [|]]; [apply unmoved_hold_back|].
    apply kept_bind; [apply _|apply unmoved_engine, reads_bytesOf|intros bytes].
    apply kept_bind; [apply _|apply unmoved_files|intros outcome]. by intros s.
Qed.

Lemma unmoved_materialize : keeps unmoved (materializeCurrentVersion clock localeTime).
Proof.
  unfold materializeCurrentVersion. apply kept_bind; [apply _|by apply keeps_gets, _|intros [k|]];
    [|by apply keeps_ret, _].
  apply kept_bind; [apply _|by apply unmoved_engine, reads_metadata|intros [v|]]; [|by apply keeps_ret, _].
  case_match; [|by apply keeps_ret, _]. case_match; [|by apply keeps_ret, _].
  apply kept_bind; [apply _|apply unmoved_engine, reads_metadata|intros [head|]].
  - intros d. by rewrite getRevision_run.
  - apply unmoved_head.
  - by apply keeps_ret, _.
Qed.

(** The settings row of the active vault is no part of the history. *)
Definition activated (k : VaultId) (d : Db.t) : Db.t :=
  Db.set_settings (<[ACTIVE_VAULT_KEY := k]> (Db.settings d)) d.

Lemma activated_tables k d :
  Db.vaults (activated k d) = Db.vaults d ∧ Db.revisions (activated k d) = Db.revisions d ∧
  Db.revision_parents (activated k d) = Db.revision_parents d ∧
  Db.conflicts (activated k d) = Db.conflicts d ∧ Db.head_events (activated k d) = Db.head_events d.
Proof. by destruct d. Qed.

Lemma active_run k s : ∃ s', setActiveVault (Some k) s = (Ok tt, s') ∧
  Services.engine s' = set_db (activated k (tables s)) (Services.engine s) ∧
  Services.vaultId s' = Some k ∧ Services.made s' = Services.made s ∧ Services.files s' = Services.files s.
Proof.
  unfold setActiveVault, mbind, M_bind, modify, database. cbn [fst snd].
  erewrite engine_run by (rewrite metadata_run; reflexivity). eexists. split; [reflexivity|]. done.
Qed.

Lemma ok_activated k e : engine_ok e → engine_ok (set_db (activated k (db e)) e).
Proof.
  intros Hok. destruct (activated_tables k (db e)) as (Hv & Hr & Hp & _). apply ok_set_db; [done| | |].
  - eapply wf_proper; [|apply Hok]. by split_and!.
  - rewrite Hr. auto.
  - rewrite Hv, Hr. intros k' v h. by apply ok_head.
Qed.

(** What a result asks of the current version. *)
Definition result_moves (result : SessionResult.t) : Run (option ConflictId) :=
  match SessionResult.remoteHead result, SessionResult.divergence result with
  | Some remoteHead, diverged _ =>
      openConflictFor clock localeTime conflictIds (SessionResult.vaultId result) remoteHead ≫= λ id, mret (Some id)
  | Some remoteHead, remote_ahead =>
      on (fastForward engine_clock (SessionResult.vaultId result) remoteHead) ≫= λ _,
      log "Brought this device up to date." ≫= λ _,
      materializeCurrentVersion clock localeTime ≫= λ _,
      mret None
  | _, _ => mret None
  end.

(** The end of a session, up to the log, is what its result asks for in the state
    where its vault is the active one. *)
Lemma ends_engine p result s : ∃ s1,
  Services.engine s1 = set_db (activated (SessionResult.vaultId result) (tables s)) (Services.engine s) ∧
  Services.made s1 = Services.made s ∧ Services.files s1 = Services.files s ∧
  Services.vaultId s1 = Some (SessionResult.vaultId result) ∧
  beside (result_moves result s1).2 (perform (EndsSession p (inl result)) s).
Proof.
  destruct (active_run (SessionResult.vaultId result) s) as (s0 & Ha & He & Hk & Hmade & Hf).
  set (m := describeSync (Remote.name (SessionResult.remoteDevice result))
      (Z.of_nat (length (SessionResult.received result))) (Z.of_nat (length (SessionResult.sent result)))
      (Z.of_nat (length (SessionResult.missing result)))).
  set (s1 := (log m s0).2). exists s1. split_and!; [exact He|exact Hmade|exact Hf|exact Hk|].
  transitivity (session_result engine_clock clock localeTime conflictIds result s).2.
  - unfold session_result. fold m. erewrite bind_eq by exact Ha. erewrite (bind_eq (log m)) by reflexivity.
    change (Services.set_activity _ _) with s1.
    change (match SessionResult.remoteHead result with Some _ => _ | None => _ end) with (result_moves result).
    unfold mbind at 1, M_bind at 1. by destruct (result_moves result s1) as [[id|e] s'].
  - assert (∀ outcome s, beside s ((session_cleanup clock localeTime p ≫= λ _,
      (mret outcome : Run SyncOutcome)) s).2) as Hclean.
    { intros outcome s2. unfold session_cleanup, settleVerification, mbind, M_bind, gets.
      by destruct (Services.verification s2). }
    unfold ServicesTheory.perform, session_ends, mbind at 1, M_bind at 1, attempt.
    destruct (session_result _ _ _ _ result s) as [[outcome|e] s']; cbn [fst snd]; [apply Hclean|].
    unfold session_failure, mbind at 1, M_bind at 1. cbn [fst snd].
    unfold mbind at 1, M_bind at 1. cbn [fst snd mret M_ret]. etrans; [|apply Hclean]. by split.
Qed.

(** An open conflict of the vault [k] between two versions. *)
Definition open_conflict (d : Db.t) (k : VaultId) (current incoming : RevisionId) : Prop :=
  ∃ key row, Db.conflicts d !! key = Some row ∧ ConflictRow.vault_id row = k ∧
    ConflictRow.current_revision_id row = current ∧ ConflictRow.incoming_revision_id row = incoming ∧
    ConflictRow.status row = ConflictStatus.open.

Lemma elem_of_open d k c : c ∈ toConflict <$> order_by_desc ConflictRow.created_at
    (scan (filter (λ c, ConflictRow.vault_id c = k ∧ ConflictRow.status c = ConflictStatus.open)
       (map_to_list (Db.conflicts d)).*2)) →
  open_conflict d k (Conflict.currentRevisionId c) (Conflict.incomingRevisionId c).
Proof.
  rewrite list_elem_of_fmap. intros (row & -> & Hrow). rewrite order_by_desc_perm, scan_perm in Hrow.
  apply list_elem_of_filter in Hrow as [[Hk Hs] Hrow]. apply list_elem_of_fmap in Hrow as ([key row'] & -> & Hin).
  apply elem_of_map_to_list in Hin. by exists key, row'.
Qed.

(** The tables of the history are the same, and the conflicts only grow. *)
Definition history_kept (d d' : Db.t) : Prop :=
  same_history d d' ∧ Db.head_events d' = Db.head_events d ∧ Db.conflicts d ⊆ Db.conflicts d'.

Lemma conflict_run k v h row i s :
  engine_ok (Services.engine s) → Db.vaults (tables s) !! k = Some v → Vault.headRevisionId v = Some h →
  Db.revisions (tables s) !! i = Some row → RevisionRow.vault_id row = k →
  Db.conflicts (tables s) !! conflictIds (Services.made s) = None →
  let s' := (openConflictFor clock localeTime conflictIds k i s).2 in
  history_kept (tables s) (tables s') ∧ open_conflict (tables s') k h i.
Proof.
  intros Hok Hv Hh Hi Hk Hfresh. unfold openConflictFor, getVault.
  destruct (ok_head _ Hok _ _ _ Hv Hh) as (hrow & Hhrow & Hhk).
  pose proof (wf_row_id _ (ok_wf _ Hok) _ _ Hhrow) as Hhid. pose proof (wf_row_id _ (ok_wf _ Hok) _ _ Hi) as Hid.
  pose proof (wf_vault_id _ (ok_wf _ Hok) _ _ Hv) as Hvid.
  erewrite bind_eq by apply database_gets. rewrite Hv. cbn [mbind option_bind]. rewrite Hh.
  erewrite bind_eq by apply database_getRevision. erewrite bind_eq by apply database_getRevision.
  change (db (Services.engine s)) with (tables s) in Hhrow. rewrite Hhrow, Hi. cbn [fmap option_fmap option_map].
  unfold listOpenConflicts. erewrite bind_eq by apply database_gets. cbv zeta.
  destruct (find _ _) as [c|] eqn:Hfind.
  - apply find_some in Hfind as [Hin Hc]. apply bool_decide_eq_true in Hc as [Hc1 Hc2].
    split; [by split_and!|]. apply list_elem_of_In, elem_of_open in Hin.
    rewrite Hc1, Hc2 in Hin. simpl in Hin. by rewrite Hhid, Hid in Hin.
  - clear Hfind. erewrite bind_eq by reflexivity. erewrite bind_eq by reflexivity.
    erewrite bind_eq by reflexivity. set (s1 := Services.set_reads _ _).
    unfold openConflict. cbn [Revision.vaultId toRevision Revision.id]. rewrite Hhk, Hhid, Hid, Hk, Hvid.
    rewrite !bool_decide_true by done. erewrite bind_eq by reflexivity.
    set (c := Conflict.mk _ _ _ _ _ _ _ _).
    assert ((database (saveConflict c) : Run unit) s1 = (Ok tt, Services.set_engine
      (set_db (Db.set_conflicts (<[Conflict.id c := conflict_row c]> (Db.conflicts (tables s))) (tables s))
        (Services.engine s)) s1)) as Hsave.
    { apply engine_run. rewrite metadata_run. unfold saveConflict. change (db (Services.engine s1)) with (tables s).
      change (Conflict.id c) with (conflictIds (Services.made s)). rewrite Hfresh.
      unfold foreign_key, mbind, M_bind. change (Conflict.vaultId c) with k. by rewrite Hv. }
    erewrite bind_eq by exact Hsave. cbv zeta. erewrite bind_eq by reflexivity. cbn [snd mret M_ret].
    set (s2 := Services.set_activity _ _).
    assert (tables s2 = Db.set_conflicts (<[conflictIds (Services.made s) := conflict_row c]>
      (Db.conflicts (tables s))) (tables s)) as ->.
    { unfold tables at 1. simpl. apply db_set_db. }
    destruct (tables s) as [? ? ? ? ? cs]. simpl in *. split.
    + split_and!; [by split_and!|done|]. by apply insert_subseteq.
    + exists (conflictIds (Services.made s)), (conflict_row c). simpl. by rewrite lookup_insert_eq.
Qed.

(** A fast-forward of the tracked history. *)
Lemma fast_forward_run k v i row s :
  engine_ok (Services.engine s) → Db.vaults (tables s) !! k = Some v →
  Db.revisions (tables s) !! i = Some row → RevisionRow.vault_id row = k →
  (on (fastForward engine_clock k i) : Run Vault.t) s =
    (Ok (Vault.set_head v i), Services.set_engine (set_db
       (moved v i (engine_clock (EngineState.ticks (Services.engine s))) HeadReason.fast_forward (tables s))
       (next_tick (Services.engine s))) s).
Proof.
  intros Hok Hv Hi Hk. apply engine_run. rewrite fastForward_run by done. unfold head_move_result.
  change (db (Services.engine s)) with (tables s). by rewrite Hv, Hi, decide_True.
Qed.

Lemma moved_tables v i at_ reason d :
  Db.vaults (moved v i at_ reason d) =
    <[Vault.id v := upsert_vault (Db.vaults d !! Vault.id v) (Vault.set_head v i)]> (Db.vaults d) ∧
  Db.revisions (moved v i at_ reason d) = Db.revisions d ∧
  Db.revision_parents (moved v i at_ reason d) = Db.revision_parents d ∧
  Db.conflicts (moved v i at_ reason d) = Db.conflicts d ∧
  Db.head_events (moved v i at_ reason d) = Db.head_events d ++ [(moveHead v i at_ reason).2].
Proof.
  unfold moved, with_event, saved_vault, saveVault, modify. by destruct d, v.
Qed.

(** Ending with a result that says the other device is ahead. *)
Lemma ahead_run p result s v i row (k := SessionResult.vaultId result) :
  engine_ok (Services.engine s) → Db.vaults (tables s) !! k = Some v →
  SessionResult.remoteHead result = Some i → SessionResult.divergence result = remote_ahead →
  Db.revisions (tables s) !! i = Some row → RevisionRow.vault_id row = k →
  let s' := perform (EndsSession p (inl result)) s in
  Db.vaults (tables s') = <[k := Vault.set_head v i]> (Db.vaults (tables s)) ∧
  Db.revisions (tables s') = Db.revisions (tables s) ∧
  Db.revision_parents (tables s') = Db.revision_parents (tables s) ∧
  Db.conflicts (tables s') = Db.conflicts (tables s) ∧
  Db.head_events (tables s') = Db.head_events (tables s) ++
    [HeadRevisionEvent.mk k (Vault.headRevisionId v) i
       (engine_clock (EngineState.ticks (Services.engine s))) HeadReason.fast_forward] ∧
  engine_ok (Services.engine s') ∧
  EngineState.blobs (Services.engine s') = EngineState.blobs (Services.engine s).
Proof.
  intros Hok Hv Hhead Hdiv Hi Hk. cbv zeta. unfold tables at 1 3 5 7 9.
  destruct (ends_engine p result s) as (s1 & He & _ & _ & _ & [-> _ _ _ _]). fold k in He.
  destruct (activated_tables k (tables s)) as (Av & Ar & Ap & Ac & Ae).
  assert (tables s1 = activated k (tables s)) as Ht1 by (unfold tables at 1; by rewrite He, db_set_db).
  unfold result_moves. rewrite Hhead, Hdiv. fold k.
  erewrite bind_eq.
  2:{ apply (fast_forward_run k v i row); [rewrite He; by apply ok_activated|rewrite Ht1; by rewrite Av|
      rewrite Ht1; by rewrite Ar|done]. }
  set (s2 := Services.set_engine _ s1). erewrite bind_eq by reflexivity. set (s3 := Services.set_activity _ _).
  assert (keeps unmoved (materializeCurrentVersion clock localeTime ≫= λ _, mret None : Run (option ConflictId)))
    as Hkept by (apply kept_bind; [apply _|apply unmoved_materialize|intros; by apply keeps_ret, _]).
  rewrite (Hkept s3). change (Services.engine s3) with (Services.engine s2).
  cbn [s2 Services.engine Services.set_engine]. rewrite db_set_db, Ht1.
  destruct (moved_tables v i (engine_clock (EngineState.ticks (Services.engine s1))) HeadReason.fast_forward
    (activated k (tables s))) as (-> & -> & -> & -> & ->).
  rewrite Av, Ar, Ap, Ac, Ae, He. pose proof (wf_vault_id _ (ok_wf _ Hok) _ _ Hv) as Hid. rewrite Hid, Hv.
  split_and!; [by rewrite upsert_set_head|done..|by unfold moveHead; rewrite Hid| |done].
  set (e1 := next_tick (set_db (activated k (tables s)) (Services.engine s))).
  assert (engine_ok e1) as Hok1 by (by apply ok_tick, ok_activated).
  assert (db e1 = activated k (tables s)) as Hdb by exact (db_set_db (activated k (tables s)) (Services.engine s)).
  match goal with |- engine_ok (set_db (moved v i ?t ?reason _) _) =>
    pose proof (ok_moved v i row t reason e1 Hok1) as Hm end.
  rewrite Hdb, Av, Ar, Hid in Hm. by apply Hm.
Qed.

(** C9: what the end of a session does to the current version.  When the other
    device was found ahead, its version becomes the current one; when the two
    had parted, the current version stays and a conflict between the two is
    open; otherwise nothing moves.  No stored version is lost, and the heads of
    other vaults stay. *)
Theorem session_end_head (p : string) (result : SessionResult.t) s (v : Vault.t) (h i : RevisionId)
    (row : RevisionRow.t) (Hok : engine_ok (Services.engine s))
    (Hv : Db.vaults (tables s) !! SessionResult.vaultId result = Some v)
    (Hh : Vault.headRevisionId v = Some h) (Hhead : SessionResult.remoteHead result = Some i)
    (Hi : Db.revisions (tables s) !! i = Some row) (Hk : RevisionRow.vault_id row = SessionResult.vaultId result)
    (Hfresh : Db.conflicts (tables s) !! conflictIds (Services.made s) = None) :
  let k := SessionResult.vaultId result in
  let d := tables s in
  let d' := tables (perform (EndsSession p (inl result)) s) in
  Db.revisions d' = Db.revisions d ∧ Db.revision_parents d' = Db.revision_parents d ∧
  Db.conflicts d ⊆ Db.conflicts d' ∧
  match SessionResult.divergence result with
  | remote_ahead => Db.vaults d' = <[k := Vault.set_head v i]> (Db.vaults d)
  | diverged _ => Db.vaults d' = Db.vaults d ∧ open_conflict d' k h i
  | _ => Db.vaults d' = Db.vaults d ∧ Db.conflicts d' = Db.conflicts d
  end.
Proof.
  cbv zeta. set (k := SessionResult.vaultId result) in *.
  destruct (SessionResult.divergence result) eqn:Hdiv.
  3:{ destruct (ahead_run p result s v i row) as (Ev & Er & Ep & Ec & _); [done..|]. cbv zeta in *.
      split_and!; [done|done|by rewrite Ec|done]. }
  all: set (s' := perform _ s); assert (∃ s1, Services.made s1 = Services.made s ∧
    Services.engine s1 = set_db (activated k (tables s)) (Services.engine s) ∧
    Services.engine s' = Services.engine (result_moves result s1).2) as (s1 & Hmade & He & Heng) by
    (destruct (ends_engine p result s) as (s1 & ? & ? & _ & _ & [? _ _ _ _]); by exists s1);
    assert (tables s1 = activated k (tables s)) as Ht1 by (unfold tables at 1; by rewrite He, db_set_db);
    destruct (activated_tables k (tables s)) as (Av & Ar & Ap & Ac & _);
    unfold result_moves in Heng; rewrite Hhead, Hdiv in Heng; fold k in Heng.
  3:{ destruct (conflict_run k v h row i s1) as [[(Ev & Er & Ep) [_ Ec]] Hopen];
        rewrite ?Ht1, ?Av, ?Ar, ?Ac, ?Hmade; [rewrite He; by apply ok_activated|done..|].
      assert (tables s' = tables (openConflictFor clock localeTime conflictIds k i s1).2) as ->.
      { unfold tables. rewrite Heng. unfold mbind, M_bind.
        by destruct (openConflictFor clock localeTime conflictIds k i s1) as [[?|?] ?]. }
      rewrite Ht1 in *. split_and!; [by rewrite Er|by rewrite Ep|by rewrite <-Ac|by rewrite Ev|done]. }
  all: assert (tables s' = activated k (tables s)) as -> by (unfold tables at 1; rewrite Heng; exact Ht1);
    rewrite ?Av, ?Ar, ?Ap, ?Ac; by split_and!.
Qed.

(** ** A save that is recorded *)

Lemma changed_db_conflicts v r at_ d : Db.conflicts (changed_db v r at_ d) = Db.conflicts d.
Proof.
  unfold changed_db, with_event, saved_vault, saveVault, with_revision, modify. destruct d, v. by case_match.
Qed.

(** The revision that the watcher records of these bytes. *)
Abbreviation saved v bytes s :=
  (changed engine_clock revisionIds (DeviceKeyPair.deviceId keyPair) v bytes (EngineState.ticks (Services.engine s))).

Lemma watcher_run k v bytes s :
  engine_ok (Services.engine s) → Services.vaultId s = Some k → Db.vaults (tables s) !! k = Some v →
  head_hash v (tables s) ≠ Some (sha256 bytes) → is_ok (blob_put bytes (EngineState.blobs (Services.engine s))).1 →
  let s' := perform (WatcherReports bytes) s in
  let r := saved v bytes s in
  tables s' = changed_db v r (engine_clock (EngineState.ticks (Services.engine s))) (tables s) ∧
  Services.files s' = Services.files s ∧ Services.updateHeldBack s' = false ∧ Services.unlockTimer s' = false ∧
  Services.vaultId s' = Some k.
Proof.
  intros Hok Hk Hv Hh Hput. unfold ServicesTheory.perform, watcher_changed, attempt.
  erewrite bind_eq by reflexivity. rewrite Hk.
  assert (∃ e, recordLocalChange engine_clock revisionIds (DeviceKeyPair.deviceId keyPair) k bytes (Services.engine s)
    = (Ok (recorded (saved v bytes s)), e) ∧
    db e = changed_db v (saved v bytes s) (engine_clock (EngineState.ticks (Services.engine s))) (tables s))
    as (e & Hrec & He).
  { rewrite recordLocalChange_run by done. change (db (Services.engine s)) with (tables s).
    rewrite Hv, decide_False by done. destruct (blob_put bytes _).1; [|done].
    eexists. split; [reflexivity|]. apply db_set_db. }
  erewrite bind_eq by exact (engine_run _ _ _ _ Hrec). cbn [change_recorded]. simpl. by split_and!.
Qed.

Lemma watcher_ok bytes s :
  engine_ok (Services.engine s) → fresh_ids vaultIds revisionIds (Services.engine s) →
  engine_ok (Services.engine (perform (WatcherReports bytes) s)).
Proof.
  intros Hok Hf. unfold ServicesTheory.perform, watcher_changed, attempt.
  erewrite bind_eq by reflexivity. destruct (Services.vaultId s) as [k|]; [|done].
  pose proof (ok_local_change engine_clock vaultIds revisionIds (DeviceKeyPair.deviceId keyPair) k bytes _ Hok Hf)
    as Hr. unfold mbind, M_bind, on. simpl.
  destruct (recordLocalChange _ _ _ k bytes (Services.engine s)) as [[[h|r]|e] e1]; exact Hr.
Qed.

(** The update is held back when the lock answers so and the file is another. *)
Lemma locked_run path head s :
  vault_path path → (∀ f, (file_isLocked path f).1 = Ok true) →
  (∀ bytes, on_disk s path = Some bytes → sha256 bytes ≠ Revision.hash head) →
  ∃ s', materialize_head clock localeTime path head s = (Ok tt, s') ∧ same_files s s' ∧
    Services.updateHeldBack s' = true ∧ Services.unlockTimer s' = true.
Proof.
  intros Hp Hl Hold. unfold materialize_head.
  destruct (matches_run path (Revision.hash head) s Hp) as (same & f1 & Hm & Hc1 & Hsame).
  erewrite bind_eq by exact Hm. destruct same; [destruct (Hsame eq_refl) as (bytes & Hb & Hh); by destruct (Hold bytes)|].
  destruct (file_isLocked_spec f1 path) as (locked & f2 & Hf & Hc2). specialize (Hl f1). rewrite Hf in Hl.
  simplify_eq/=. erewrite bind_eq by exact (files_run _ (Services.set_files f1 s) _ _ Hf).
  destruct (held_run (Services.set_files f2 (Services.set_files f1 s))) as (s' & Hh & [He Hv Hd] & ? & ?).
  exists s'. unfold hold_back in Hh. split; [exact Hh|]. split_and!; [|done..]. split; [exact He|exact Hv|].
  intros q. rewrite Hd. etrans; [apply Hc2|apply Hc1].
Qed.

Lemma ahead_held p result s v i row path (k := SessionResult.vaultId result) :
  engine_ok (Services.engine s) → Db.vaults (tables s) !! k = Some v → Vault.kdbxPath v = Some path →
  vault_path path → SessionResult.remoteHead result = Some i → SessionResult.divergence result = remote_ahead →
  Db.revisions (tables s) !! i = Some row → RevisionRow.vault_id row = k →
  (∀ f, (file_isLocked path f).1 = Ok true) →
  (∀ bytes, on_disk s path = Some bytes → sha256 bytes ≠ RevisionRow.hash row) →
  let s' := perform (EndsSession p (inl result)) s in
  Services.updateHeldBack s' = true ∧ Services.unlockTimer s' = true ∧ Services.vaultId s' = Some k ∧
  ∀ q, on_disk s' q = on_disk s q.
Proof.
  intros Hok Hv Hpath Hp Hhead Hdiv Hi Hk Hl Hold. cbv zeta.
  destruct (ends_engine p result s) as (s1 & He & _ & Hf & Hs1 & [_ Bf Bv Bh Bt]). fold k in He, Hs1.
  unfold on_disk. rewrite Bf, Bv, Bh, Bt. clear Bf Bv Bh Bt.
  destruct (activated_tables k (tables s)) as (Av & Ar & Ap & Ac & Ae).
  assert (tables s1 = activated k (tables s)) as Ht1 by (unfold tables at 1; by rewrite He, db_set_db).
  unfold result_moves. rewrite Hhead, Hdiv. fold k.
  erewrite bind_eq.
  2:{ apply (fast_forward_run k v i row); [rewrite He; by apply ok_activated|rewrite Ht1; by rewrite Av|
      rewrite Ht1; by rewrite Ar|done]. }
  set (s2 := Services.set_engine _ s1). erewrite bind_eq by reflexivity. set (s3 := Services.set_activity _ _).
  assert (∃ parents, materializeCurrentVersion clock localeTime s3 =
    materialize_head clock localeTime path (toRevision row parents) s3) as [parents Hmat].
  { exists (parents_in (tables s3) i). unfold materializeCurrentVersion.
    erewrite bind_eq by reflexivity. change (Services.vaultId s3) with (Services.vaultId s1). rewrite Hs1.
    unfold getVault. erewrite bind_eq by apply database_gets.
    assert (tables s3 = moved v i (engine_clock (EngineState.ticks (Services.engine s1))) HeadReason.fast_forward
      (tables s1)) as -> by (unfold tables at 1; apply db_set_db).
    destruct (moved_tables v i (engine_clock (EngineState.ticks (Services.engine s1))) HeadReason.fast_forward
      (tables s1)) as (-> & Er & _). pose proof (wf_vault_id _ (ok_wf _ Hok) _ _ Hv) as Hid.
    rewrite Hid, lookup_insert_eq, Ht1, Av, Hv, upsert_set_head. cbn [Vault.set_head]. destruct v; simpl in *.
    rewrite Hpath. erewrite bind_eq by apply database_getRevision.
    unfold tables. simpl. rewrite db_set_db.
    match goal with |- context [Db.revisions ?d !! i] => replace (Db.revisions d) with (Db.revisions (tables s)) end.
    - by rewrite Hi.
    - symmetry. etrans; [apply Er|]. by rewrite Ht1. }
  destruct (locked_run path (toRevision row parents) s3) as (s4 & Hrun & [_ Hv4 Hd4] & Hh4 & Ht4); [done|done| |].
  { intros bytes. change (on_disk s3 path) with (content (Services.files s1) path). rewrite Hf. apply Hold. }
  erewrite bind_eq by (etrans; [exact Hmat|exact Hrun]). cbn [snd mret M_ret].
  split_and!; [done|done|by rewrite Hv4|]. intros q. etrans; [apply Hd4|].
  change (on_disk s3 q) with (content (Services.files s1) q). by rewrite Hf.
Qed.

(** C11: a save buries an update that is held back.  A session ends with the other
    device ahead while KeePassXC has the file open: the other device's version
    [i] becomes the current one, and the file, still the old one, waits.  When the
    person then saves, the bytes of that save, made from the old file, become
    the current version as a child of [i], the update waits no longer, and no
    conflict is opened: no version that is current or offered holds what the
    other device changed. *)
Theorem held_back_save_buries (p : string) (result : SessionResult.t) (bytes : Uint8Array) s (v : Vault.t)
    (i : RevisionId) (row : RevisionRow.t) (path : string)
    (Hok : engine_ok (Services.engine s))
    (Hv : Db.vaults (tables s) !! SessionResult.vaultId result = Some v)
    (Hpath : Vault.kdbxPath v = Some path) (Hfile : vault_path path)
    (Hhead : SessionResult.remoteHead result = Some i) (Hdiv : SessionResult.divergence result = remote_ahead)
    (Hi : Db.revisions (tables s) !! i = Some row) (Hk : RevisionRow.vault_id row = SessionResult.vaultId result)
    (Hopen : ∀ f, (file_isLocked path f).1 = Ok true)
    (Hold : ∀ bytes, on_disk s path = Some bytes → sha256 bytes ≠ RevisionRow.hash row)
    (Hsave : sha256 bytes ≠ RevisionRow.hash row)
    (Hput : is_ok (blob_put bytes (EngineState.blobs (Services.engine s))).1) :
  let s1 := perform (EndsSession p (inl result)) s in
  let s2 := perform (WatcherReports bytes) s1 in
  let r := saved (Vault.set_head v i) bytes s1 in
  (Db.vaults (tables s1) !! SessionResult.vaultId result = Some (Vault.set_head v i) ∧
   Services.updateHeldBack s1 = true ∧ ∀ q, on_disk s1 q = on_disk s q) ∧
  Db.vaults (tables s2) !! SessionResult.vaultId result = Some (Vault.set_head v (Revision.id r)) ∧
  Revision.hash r = sha256 bytes ∧ Revision.parentIds r = [i] ∧
  Db.conflicts (tables s2) = Db.conflicts (tables s) ∧
  Services.updateHeldBack s2 = false ∧ Services.unlockTimer s2 = false ∧
  ∀ q, on_disk s2 q = on_disk s q.
Proof.
  cbv zeta. set (s1 := perform (EndsSession p (inl result)) s). set (k := SessionResult.vaultId result) in *.
  destruct (ahead_run p result s v i row) as (Ev & Er & _ & Ec & _ & Hok1 & Hblobs); [done..|].
  destruct (ahead_held p result s v i row path) as (Hheld & _ & Hvault & Hdisk); [done..|].
  fold s1 k in Ev, Er, Ec, Hok1, Hblobs, Hheld, Hvault, Hdisk.
  assert (Db.vaults (tables s1) !! k = Some (Vault.set_head v i)) as Hv1 by by rewrite Ev, lookup_insert_eq.
  destruct (watcher_run k (Vault.set_head v i) bytes s1) as (Ht & Hf & Hu & Hti & _); [done..| |by rewrite Hblobs|].
  { unfold head_hash. rewrite Er. destruct v. cbn [Vault.set_head Vault.headRevisionId mbind option_bind].
    rewrite Hi. cbn [fmap option_fmap option_map]. intros [= Heq]. by destruct Hsave. }
  cbv zeta in *. pose proof (wf_vault_id _ (ok_wf _ Hok1) _ _ Hv1) as Hid.
  split; [by split_and!|]. set (r := saved (Vault.set_head v i) bytes s1) in *. rewrite Ht.
  destruct (changed_db_tables (Vault.set_head v i) r (engine_clock (EngineState.ticks (Services.engine s1)))
    (tables s1)) as (_ & _ & -> & _). rewrite Hid, Hv1, upsert_set_head, changed_db_conflicts, lookup_insert_eq.
  split_and!; [by destruct v|done|by destruct v|done..|]. intros q. unfold on_disk. rewrite Hf. apply Hdisk.
Qed.

(** C12: a session that ends late takes back a save.  While a session that found
    the other device ahead is ending, the person saves: the save is recorded on
    the old current version.  The end of the session then makes the other
    device's version [i] the current one all the same; the save is stored, but it
    is no ancestor of the current version, and no conflict offers it. *)
Theorem late_end_drops_save (p : string) (result : SessionResult.t) (bytes : Uint8Array) s (v : Vault.t)
    (h i : RevisionId) (row : RevisionRow.t)
    (Hok : engine_ok (Services.engine s)) (Hfresh : fresh_ids vaultIds revisionIds (Services.engine s))
    (Hk : Services.vaultId s = Some (SessionResult.vaultId result))
    (Hv : Db.vaults (tables s) !! SessionResult.vaultId result = Some v) (Hh : Vault.headRevisionId v = Some h)
    (Hhead : SessionResult.remoteHead result = Some i) (Hdiv : SessionResult.divergence result = remote_ahead)
    (Hi : Db.revisions (tables s) !! i = Some row) (Hrow : RevisionRow.vault_id row = SessionResult.vaultId result)
    (Hsave : head_hash v (tables s) ≠ Some (sha256 bytes))
    (Hput : is_ok (blob_put bytes (EngineState.blobs (Services.engine s))).1) :
  let s1 := perform (WatcherReports bytes) s in
  let s2 := perform (EndsSession p (inl result)) s1 in
  let x := Revision.id (saved v bytes s) in
  Db.vaults (tables s1) !! SessionResult.vaultId result = Some (Vault.set_head v x) ∧
  Db.vaults (tables s2) !! SessionResult.vaultId result = Some (Vault.set_head v i) ∧
  StoreTheory.stored (tables s2) x ∧ edge (tables s2) x h ∧ ¬ rtc (edge (tables s2)) i x ∧
  Db.conflicts (tables s2) = Db.conflicts (tables s).
Proof.
  cbv zeta. set (s1 := perform (WatcherReports bytes) s). set (k := SessionResult.vaultId result) in *.
  destruct (watcher_run k v bytes s) as (Ht & _ & _ & _ & _); [done..|]. cbv zeta in Ht. fold s1 in Ht.
  set (r := saved v bytes s) in *. pose proof (wf_vault_id _ (ok_wf _ Hok) _ _ Hv) as Hid.
  assert (¬ StoreTheory.stored (tables s) (Revision.id r)) as Hnew.
  { destruct (Hfresh (S (EngineState.ticks (Services.engine s)))) as [Hnone _]; [lia|]. intros [x Hx].
    change (Db.revisions (tables s) !! Revision.id r = None) in Hnone. congruence. }
  destruct (changed_db_tables v r (engine_clock (EngineState.ticks (Services.engine s))) (tables s))
    as (Cr & Cp & Cv & _). rewrite <-Ht, Hid, Hv, upsert_set_head in Cv. rewrite <-Ht in Cr, Cp.
  assert (∀ i, is_Some (Db.revisions (tables s) !! i) →
    Db.revisions (tables s1) !! i = Db.revisions (tables s) !! i) as Hkeep.
  { intros j [x Hx]. by rewrite Cr, with_revision_lookup, Hx. }
  assert (engine_ok (Services.engine s1)) as Hok1 by by apply watcher_ok.
  assert (Db.vaults (tables s1) !! k = Some (Vault.set_head v (Revision.id r))) as Hv1
    by by rewrite Cv, lookup_insert_eq.
  destruct (ahead_run p result s1 (Vault.set_head v (Revision.id r)) i row) as (Ev & Er & Ep & Ec & _);
    [done..|by rewrite Hkeep|done|].
  fold k in Ev. set (s2 := perform (EndsSession p (inl result)) s1) in *. rewrite Ev, lookup_insert_eq.
  assert (∀ c q, edge (tables s2) c q ↔ edge (tables s) c q ∨ c = Revision.id r ∧ q = h) as Hedge.
  { intros c q. unfold edge at 1. rewrite Ep, Cp. fold (edge (with_revision r (tables s)) c q).
    rewrite with_revision_edge. unfold r at 2, changed. simpl. rewrite Hh. simpl.
    by rewrite list_elem_of_singleton. }
  split_and!; [done|by destruct v| | | |].
  - unfold StoreTheory.stored. rewrite Er, Cr, with_revision_lookup, decide_True by done.
    destruct (Db.revisions (tables s) !! Revision.id r); by eexists.
  - apply Hedge. by right.
  - intros Hr. assert (StoreTheory.stored (tables s) i) as Hsi by by eexists.
    assert (∀ a b, rtc (edge (tables s2)) a b → StoreTheory.stored (tables s) a → StoreTheory.stored (tables s) b) as Hclosed.
    { induction 1 as [a|a b c Hab _ IH]; [done|]. intros Ha. apply IH.
      apply Hedge in Hab as [Hab|[-> _]]; [|done]. by destruct (wf_closed _ (ok_wf _ Hok) _ _ Hab). }
    by apply Hnew, (Hclosed i).
  - by rewrite Ec, Ht, changed_db_conflicts.
Qed.
End services.

(** ** Two versions that are combined *)

Section combining.
Context `{RowOrder, Digest} {B : Type} `{!BlobStore B} {F : Type} `{!VaultFileAccess F}.
Context (engine_clock : nat → Date) (vaultIds revisionIds : nat → string).
Context (clock : nat → Date) (localeTime : Date → string).
Context (interpreter_merge : InterpretationRequest.t KdbxCredentialSet.t → InterpretationResult).
Context (keyPair : DeviceKeyPair.t).
Implicit Types s : Services.t B F.
Abbreviation Run := (M (Services.t B F)).

(** What leaves the conflicts alone. *)
Definition conflicts_same (e e' : EngineState.t B) : Prop := Db.conflicts (db e') = Db.conflicts (db e).

#[local] Instance conflicts_same_preorder : PreOrder conflicts_same.
Proof. split; [done|]. intros ??? ??. unfold conflicts_same in *. congruence. Qed.

Lemma spares_reads {A} (m : M (EngineState.t B) A) : reads m → keeps conflicts_same m.
Proof. intros Hm e. by rewrite Hm. Qed.

Lemma spares_save r : keeps conflicts_same (metadata (B := B) (saveRevision r)).
Proof.
  intros e. unfold conflicts_same. rewrite metadata_run.
  destruct (saveRevision_cases r (db e)) as [[_ ->]|[_ [reason ->]]]; simpl; rewrite db_set_db; [|done].
  unfold with_revision. destruct (db e). by case_match.
Qed.

Lemma merge_spares k base incoming credentials message :
  keeps conflicts_same (Engine.merge (B := B) engine_clock revisionIds (DeviceKeyPair.deviceId keyPair)
    interpreter_merge k base incoming (credentials : KdbxCredentialSet.t) message).
Proof.
  unfold Engine.merge. apply kept_bind; [apply _|apply spares_reads, reads_requireRevision|intros b].
  apply kept_bind; [apply _|apply spares_reads, reads_map_each, reads_requireRevision|intros inc].
  apply kept_bind; [apply _|apply spares_reads, reads_material|intros loc].
  apply kept_bind; [apply _|apply spares_reads, reads_map_each, reads_material|intros mats].
  destruct (interpreter_merge _); try (by apply keeps_ret, _).
  apply kept_bind; [apply _|intros e; by rewrite blobs_put_run|intros hash].
  apply kept_bind; [apply _|by intros e|intros at_].
  apply kept_bind; [apply _|by intros e|intros seed].
  apply kept_bind; [apply _|by apply keeps_lift, _|intros r].
  apply kept_bind; [apply _|apply spares_save|intros _]. by apply keeps_ret, _.
Qed.

(** A conflict is stored under its id, the primary key of its table. *)
Definition keyed (d : Db.t) : Prop := ∀ key row, Db.conflicts d !! key = Some row → ConflictRow.id row = key.

(** The tables after one conflict was recorded as merged. *)
Definition closed_row (c : Conflict.t) (at_ : Date) (old : ConflictRow.t) : ConflictRow.t :=
  let row := conflict_row (decided c ConflictStatus.resolved at_ ConflictDecision.try_merge) in
  {| ConflictRow.id := ConflictRow.id old; ConflictRow.vault_id := ConflictRow.vault_id old;
     ConflictRow.current_revision_id := ConflictRow.current_revision_id old;
     ConflictRow.incoming_revision_id := ConflictRow.incoming_revision_id old;
     ConflictRow.status := ConflictRow.status row; ConflictRow.decision := ConflictRow.decision row;
     ConflictRow.created_at := ConflictRow.created_at old; ConflictRow.resolved_at := ConflictRow.resolved_at row |}.

Definition with_closed (c : Conflict.t) (at_ : Date) (old : ConflictRow.t) (d : Db.t) : Db.t :=
  Db.set_conflicts (<[Conflict.id c := closed_row c at_ old]> (Db.conflicts d)) d.

Lemma merged_conflict_run c old s : Conflict.status c = ConflictStatus.open →
  Db.conflicts (tables s) !! Conflict.id c = Some old →
  merged_conflict clock c s = (Ok tt, Services.set_engine
    (set_db (with_closed c (clock (Services.reads s)) old (tables s)) (Services.engine s))
    (Services.set_reads (S (Services.reads s)) s)).
Proof.
  intros Hc Hold. unfold merged_conflict. erewrite bind_eq by reflexivity.
  unfold recordConflictDecision. rewrite bool_decide_true by done. erewrite bind_eq by reflexivity.
  apply engine_run. rewrite metadata_run. unfold saveConflict.
  change (db (Services.engine (Services.set_reads (S (Services.reads s)) s))) with (tables s).
  change (Conflict.id (decided c _ _ _)) with (Conflict.id c). by rewrite Hold.
Qed.

(** Of the conflicts [cs] none stays open, and the others are as they were. *)
Lemma closing_run cs s : Forall (λ c, Conflict.status c = ConflictStatus.open) cs →
  (∀ c, c ∈ cs → is_Some (Db.conflicts (tables s) !! Conflict.id c)) →
  ∃ s', for_each cs (merged_conflict clock) s = (Ok tt, s') ∧ same_history (tables s) (tables s') ∧
    (∀ key row, Db.conflicts (tables s') !! key = Some row → ConflictRow.status row = ConflictStatus.open →
       Db.conflicts (tables s) !! key = Some row ∧ key ∉ Conflict.id <$> cs) ∧
    (∀ key, key ∉ Conflict.id <$> cs → Db.conflicts (tables s') !! key = Db.conflicts (tables s) !! key).
Proof.
  revert s. induction cs as [|c cs IH]; intros s Hopen Hthere.
  { exists s. split; [done|]. split; [done|]. split; [|done]. intros key row Hr _. split; [done|]. by apply not_elem_of_nil. }
  apply Forall_cons_1 in Hopen as [Hc Hopen]. destruct (Hthere c) as [old Hold]; [by left|].
  simpl. erewrite bind_eq by (by apply merged_conflict_run).
  set (s1 := Services.set_engine _ _).
  assert (tables s1 = with_closed c (clock (Services.reads s)) old (tables s)) as Ht1 by (unfold tables at 1; apply db_set_db).
  assert (∀ key, Db.conflicts (tables s1) !! key =
    if decide (key = Conflict.id c) then Some (closed_row c (clock (Services.reads s)) old)
    else Db.conflicts (tables s) !! key) as Hlook.
  { intros key. rewrite Ht1. unfold with_closed. destruct (tables s). simpl.
    case_decide; [subst; by rewrite lookup_insert_eq|by rewrite lookup_insert_ne]. }
  destruct (IH s1 Hopen) as (s' & Hrun & Hh & Hcl & Hoth).
  { intros c' Hc'. rewrite Hlook. case_decide; [by eexists|]. apply Hthere. by right. }
  exists s'. split; [done|]. split; [|split].
  - etrans; [|exact Hh]. rewrite Ht1. unfold with_closed. by destruct (tables s).
  - intros key row Hr Ho. destruct (Hcl key row Hr Ho) as [Hr1 Hn]. rewrite Hlook in Hr1. case_decide as Hk.
    + by simplify_eq.
    + split; [done|]. csimpl. by intros [?|?]%elem_of_cons.
  - intros key. csimpl. intros [Hk Hn]%not_elem_of_cons. rewrite Hoth by done. rewrite Hlook.
    by rewrite decide_False.
Qed.

Lemma open_listed d k c : keyed d →
  c ∈ toConflict <$> order_by_desc ConflictRow.created_at
    (scan (filter (λ c, ConflictRow.vault_id c = k ∧ ConflictRow.status c = ConflictStatus.open)
       (map_to_list (Db.conflicts d)).*2)) ↔
  ∃ key row, Db.conflicts d !! key = Some row ∧ ConflictRow.vault_id row = k ∧
    ConflictRow.status row = ConflictStatus.open ∧ c = toConflict row ∧ Conflict.id c = key.
Proof.
  intros Hkeyed. rewrite list_elem_of_fmap. setoid_rewrite order_by_desc_perm. setoid_rewrite scan_perm.
  setoid_rewrite list_elem_of_filter. setoid_rewrite list_elem_of_fmap. split.
  - intros (row & -> & [Hk Ho] & [key row'] & -> & Hin%elem_of_map_to_list). exists key, row'.
    split_and!; [done..|]. by apply Hkeyed.
  - intros (key & row & Hr & Hk & Ho & -> & _). exists row. split_and!; [done..|]. exists (key, row).
    split; [done|]. by apply elem_of_map_to_list.
Qed.

(** The version [i] was made of [h] and [other] and is the current one of [k]; no
    conflict of [k] is open, and everything else is as it was. *)
Record combined (k : VaultId) (v : Vault.t) (h other : RevisionId) (password : string) (i : RevisionId) s s' : Prop := Combined {
  cb_head : Db.vaults (tables s') = <[k := Vault.set_head v i]> (Db.vaults (tables s));
  cb_new : ¬ StoreTheory.stored (tables s) i ∧ ∃ r, (getRevision i (tables s')).1 = Ok (Some r) ∧
    Revision.vaultId r = k ∧ (∀ p, p ∈ Revision.parentIds r ↔ p = h ∨ p = other) ∧
    ∃ mine theirs bytes parents,
      bytesOf (B := B) h (Services.engine s) = (Ok mine, Services.engine s) ∧
      bytesOf (B := B) other (Services.engine s) = (Ok theirs, Services.engine s) ∧
      interpreter_merge (InterpretationRequest.mk k (RevisionMaterial.mk h mine) [RevisionMaterial.mk other theirs]
        (Some (uniformCredentials password 1))) = merge_succeeded bytes parents ∧
      Revision.hash r = sha256 bytes;
  cb_kept : ∀ j, j ≠ i → (getRevision j (tables s')).1 = (getRevision j (tables s)).1;
  cb_closed : ∀ a b, ¬ open_conflict (tables s') k a b;
  cb_others : ∀ key row, Db.conflicts (tables s) !! key = Some row → ConflictRow.vault_id row ≠ k →
    Db.conflicts (tables s') !! key = Some row;
}.

(** What follows a merge that was recorded. *)
Lemma combining_ends k v i row s : engine_ok (Services.engine s) → keyed (tables s) →
  Db.vaults (tables s) !! k = Some v → Db.revisions (tables s) !! i = Some row → RevisionRow.vault_id row = k →
  ∃ s1, (∀ A (rest : Run A), (on (promote engine_clock k i) ≫= λ _, database (listOpenConflicts k) ≫= λ conflicts,
      for_each conflicts (merged_conflict clock) ≫= λ _, rest) s = rest s1) ∧
    Db.vaults (tables s1) = <[k := Vault.set_head v i]> (Db.vaults (tables s)) ∧
    Db.revisions (tables s1) = Db.revisions (tables s) ∧
    Db.revision_parents (tables s1) = Db.revision_parents (tables s) ∧
    (∀ a b, ¬ open_conflict (tables s1) k a b) ∧
    (∀ key row, Db.conflicts (tables s) !! key = Some row → ConflictRow.vault_id row ≠ k →
       Db.conflicts (tables s1) !! key = Some row).
Proof.
  intros Hok Hkeyed Hv Hi Hk. pose proof (wf_vault_id _ (ok_wf _ Hok) _ _ Hv) as Hid.
  set (at_ := engine_clock (EngineState.ticks (Services.engine s))).
  assert ((on (promote engine_clock k i) : Run Vault.t) s = (Ok (Vault.set_head v i), Services.set_engine
    (set_db (moved v i at_ HeadReason.promote (tables s)) (next_tick (Services.engine s))) s)) as Hpromote.
  { apply engine_run. rewrite promote_run by done. unfold head_move_result.
    change (db (Services.engine s)) with (tables s). by rewrite Hv, Hi, decide_True. }
  set (s1 := Services.set_engine _ s) in Hpromote.
  assert (tables s1 = moved v i at_ HeadReason.promote (tables s)) as Ht1 by (unfold tables at 1; apply db_set_db).
  destruct (moved_tables v i at_ HeadReason.promote (tables s)) as (Mv & Mr & Mp & Mc & _).
  rewrite <-Ht1, Hid, Hv, upsert_set_head in Mv. rewrite <-Ht1 in Mr, Mp, Mc.
  assert (keyed (tables s1)) as Hkeyed1 by (intros key r; rewrite Mc; apply Hkeyed).
  set (cs := toConflict <$> order_by_desc ConflictRow.created_at
    (scan (filter (λ c, ConflictRow.vault_id c = k ∧ ConflictRow.status c = ConflictStatus.open)
       (map_to_list (Db.conflicts (tables s1))).*2))).
  destruct (closing_run cs s1) as (s2 & Hrun & (Cv & Cr & Cp) & Hcl & Hoth).
  { apply Forall_forall. by intros c (key & r & _ & _ & Ho & -> & _)%open_listed. }
  { intros c (key & r & Hr & _ & _ & _ & ->)%open_listed; [by eexists|done]. }
  exists s2. split.
  { intros A rest. erewrite bind_eq by exact Hpromote. unfold listOpenConflicts.
    erewrite bind_eq by apply database_gets. by erewrite bind_eq by exact Hrun. }
  rewrite Cv, Cr, Cp, Mv, Mr, Mp. split_and!; [done..| |].
  - intros a b (key & r & Hr & Hrk & _ & _ & Ho). destruct (Hcl key r Hr Ho) as [Hr1 Hn]. apply Hn.
    apply list_elem_of_fmap. exists (toConflict r). split; [symmetry; exact (Hkeyed1 _ _ Hr1)|].
    apply open_listed; [done|]. exists key, r. split_and!; [done..|exact (Hkeyed1 _ _ Hr1)].
  - intros key r Hr Hne. rewrite Hoth; [by rewrite Mc|].
    intros (c & -> & Hc)%list_elem_of_fmap. apply open_listed in Hc as (key & r' & Hr' & Hk' & _ & _ & Hkey); [|done].
    rewrite Hkey, <-Mc in Hr. congruence.
Qed.

(** What the person is told of a merge. *)
Definition summary_of (outcome : MergeOutcome) : MergeOutcomeSummary :=
  match outcome with
  | merged r => merged_summary (Revision.id r)
  | merge_outcome_failed reason => summary_failed reason
  | merge_outcome_needs_credentials reason => summary_needs_credentials reason
  end.

(** The merge of the services is that of the engine. *)
Lemma merge_versions_run k h other password s res e1 : Services.vaultId s = Some k →
  Engine.merge engine_clock revisionIds (DeviceKeyPair.deviceId keyPair) interpreter_merge k h [other]
    (uniformCredentials password 1) None (Services.engine s) = (res, e1) →
  match res with
  | Ok outcome => ∃ s2, merge_versions engine_clock revisionIds clock localeTime interpreter_merge keyPair h [other]
      password s = (Ok (summary_of outcome), s2) ∧ Services.engine s2 = e1
  | Err e => merge_versions engine_clock revisionIds clock localeTime interpreter_merge keyPair h [other] password s
      = (Err e, Services.set_engine e1 s)
  end.
Proof.
  intros Hk Hrun.
  assert ((on (Engine.merge engine_clock revisionIds (DeviceKeyPair.deviceId keyPair) interpreter_merge k h [other]
    (uniformCredentials password (length [other])) None) : Run MergeOutcome) s = (res, Services.set_engine e1 s)) as Hmerge
    by by apply engine_run.
  unfold merge_versions, requireVaultId. destruct res as [outcome|e].
  - erewrite bind_eq by (erewrite bind_eq by reflexivity; rewrite Hk; reflexivity).
    erewrite bind_eq by exact Hmerge. destruct outcome; eexists; split; reflexivity.
  - erewrite bind_eq by (erewrite bind_eq by reflexivity; rewrite Hk; reflexivity).
    by erewrite bind_err by exact Hmerge.
Qed.

(** What is told and written after that leaves the tables alone. *)
Lemma told_end outcome message s :
  let rest := (log clock localeTime message ≫= λ _, materializeCurrentVersion clock localeTime ≫= λ _,
    onSnapshotChanged ≫= λ _, onSyncSuggested ≫= λ _, mret outcome) : Run MergeOutcomeSummary in
  tables (rest s).2 = tables s ∧ ((rest s).1 = Ok outcome ∨ is_ok (rest s).1 = false).
Proof.
  cbv zeta. erewrite bind_eq by reflexivity. set (s1 := Services.set_activity _ _).
  pose proof (unmoved_materialize clock localeTime s1) as Hm.
  destruct (materializeCurrentVersion clock localeTime s1) as [[u|e] s2] eqn:Hrun; unfold unmoved in Hm; cbn [snd] in Hm.
  - erewrite bind_eq by exact Hrun. split; [|by left]. transitivity (tables s2); [reflexivity|]. unfold tables. by rewrite Hm.
  - erewrite bind_err by exact Hrun. split; [|by right]. transitivity (tables s2); [reflexivity|]. unfold tables. by rewrite Hm.
Qed.

(** After a merge that was recorded: the new version is current, and combined. *)
Lemma merged_combined k v h other password r e1 s s2 : engine_ok (Services.engine s) →
  fresh_ids vaultIds revisionIds (Services.engine s) → keyed (tables s) → Db.vaults (tables s) !! k = Some v →
  Engine.merge engine_clock revisionIds (DeviceKeyPair.deviceId keyPair) interpreter_merge k h [other]
    (uniformCredentials password 1) None (Services.engine s) = (Ok (merged r), e1) → Services.engine s2 = e1 →
  ∃ s3, (∀ A (rest : Run A), (on (promote engine_clock k (Revision.id r)) ≫= λ _, database (listOpenConflicts k)
      ≫= λ conflicts, for_each conflicts (merged_conflict clock) ≫= λ _, rest) s2 = rest s3) ∧
    ∀ s4, tables s4 = tables s3 → combined k v h other password (Revision.id r) s s4.
Proof.
  intros Hok Hfresh Hkeyed Hv Hrun He2.
  pose proof (merge_outcomes engine_clock vaultIds revisionIds (DeviceKeyPair.deviceId keyPair) interpreter_merge
    k h [other] (uniformCredentials password 1) None (Services.engine s) Hok Hfresh) as Hm.
  pose proof (ok_merge engine_clock vaultIds revisionIds (DeviceKeyPair.deviceId keyPair) interpreter_merge
    k h [other] (uniformCredentials password 1) None (Services.engine s) Hok Hfresh) as Hok1.
  pose proof (merge_spares k h [other] (uniformCredentials password 1) None (Services.engine s)) as Hsp.
  rewrite Hrun in Hm, Hok1, Hsp. cbn [snd] in Hok1, Hsp.
  destruct Hm as (Hpar & Hnd & _ & _ & Hvault & (mine & others & bytes & parents & Hmine & Hothers & Hint & Hhash) &
    (Hnew & (r' & Hr' & Hsame) & Hkept & _) & Hvaults & _).
  assert (tables s2 = db e1) as Ht2 by (unfold tables; by rewrite He2).
  rewrite metadata_run, getRevision_run in Hr'. cbn [fst] in Hr'.
  destruct (Db.revisions (db e1) !! Revision.id r) as [row|] eqn:Hrow; [|done].
  injection Hr' as <-. pose proof Hsame as (_ & Hvid & Hh' & _ & _ & _ & _ & _ & Hp').
  destruct (combining_ends k v (Revision.id r) row s2) as (s3 & Hends & Ev & Er & Ep & Hclosed & Hoth).
  { by rewrite He2. }
  { intros key c. rewrite Ht2, Hsp. apply Hkeyed. }
  { rewrite Ht2, Hvaults. exact Hv. }
  { by rewrite Ht2. }
  { etrans; [exact Hvid|exact Hvault]. }
  exists s3. split; [exact Hends|]. intros s4 Ht4. split; rewrite ?Ht4.
  - rewrite Ev, Ht2, Hvaults. done.
  - split; [exact Hnew|]. eexists. split.
    { rewrite getRevision_run. unfold parents_in. rewrite Er, Ep, Ht2, Hrow. reflexivity. }
    split; [etrans; [exact Hvid|exact Hvault]|]. split.
    { intros p. etrans; [apply Hp'|]. rewrite Hpar, elem_of_cons, list_elem_of_singleton. done. }
    apply Forall2_cons_inv_l in Hothers as ([m theirs] & others' & [Hm Htheirs] & Hnil%Forall2_nil_inv_l & ->).
    cbn in Hm, Htheirs. subst m others'. exists mine, theirs, bytes, parents. split_and!; [done..|].
    etrans; [exact Hh'|exact Hhash].
  - intros j Hj. pose proof (Hkept j Hj) as Hj'. rewrite !getRevision_part in Hj'.
    rewrite (getRevision_same j _ _ Er Ep), Ht2. exact Hj'.
  - exact Hclosed.
  - intros key c Hc Hne. apply Hoth; [|done]. by rewrite Ht2, Hsp.
Qed.

(** C4: combining keeps both.  When a person combines the current version [h] with
    another one, the new version was made by the interpreter from the bytes of
    both and the password, has both as its parents, and is the current version;
    every stored version stays as it was; and no conflict of the vault is open
    any more, also none with a version that was not combined.  If the merge is
    refused the tables are as they were.  An error may come before all that, or
    after it, when the file could not be read or written: then the new version is
    the current one all the same. *)
Theorem combined_version_used (other : RevisionId) (password : string) s (k : VaultId) (v : Vault.t) (h : RevisionId)
    (Hok : engine_ok (Services.engine s)) (Hfresh : fresh_ids vaultIds revisionIds (Services.engine s))
    (Hkeyed : keyed (tables s)) (Hk : Services.vaultId s = Some k) (Hv : Db.vaults (tables s) !! k = Some v)
    (Hh : Vault.headRevisionId v = Some h) :
  let '(r, s') := combineAndUse engine_clock revisionIds clock localeTime interpreter_merge keyPair other password s in
  match r with
  | Ok (merged_summary i) => combined k v h other password i s s'
  | Ok _ => tables s' = tables s
  | Err _ => tables s' = tables s ∨ ∃ i, combined k v h other password i s s'
  end.
Proof.
  unfold combineAndUse, requireVaultId.
  erewrite bind_eq by (erewrite bind_eq by reflexivity; rewrite Hk; reflexivity).
  unfold getVault. erewrite bind_eq by apply database_gets. rewrite Hv. cbn [mbind option_bind]. rewrite Hh.
  pose proof (merge_outcomes engine_clock vaultIds revisionIds (DeviceKeyPair.deviceId keyPair) interpreter_merge
    k h [other] (uniformCredentials password 1) None (Services.engine s) Hok Hfresh) as Hm.
  destruct (Engine.merge _ _ _ _ k h [other] _ None (Services.engine s)) as [res e1] eqn:Hrun.
  pose proof (merge_versions_run k h other password s res e1 Hk Hrun) as Hmv.
  destruct res as [[r|reason|reason]|e].
  - destruct Hmv as (s2 & Hmv & He2). cbn [summary_of] in Hmv. erewrite bind_eq by exact Hmv.
    destruct (merged_combined k v h other password r e1 s s2) as (s3 & Hends & Hcombined); [done..|].
    rewrite Hends. destruct (told_end (merged_summary (Revision.id r))
      "Using the combined version. Both devices' changes are kept." s3) as [Htold Hres].
    set (rest := log _ _ _ ≫= _) in *. destruct (rest s3) as [res s4]. cbn [fst snd] in Htold, Hres.
    specialize (Hcombined s4 Htold). destruct Hres as [->|Herr]; [done|]. destruct res; [done|]. right. by eexists.
  - destruct Hmv as (s2 & Hmv & He2). cbn [summary_of] in Hmv. erewrite bind_eq by exact Hmv. unfold tables. cbn. by rewrite He2, Hm.
  - destruct Hmv as (s2 & Hmv & He2). cbn [summary_of] in Hmv. erewrite bind_eq by exact Hmv. unfold tables. cbn. by rewrite He2, Hm.
  - erewrite bind_err by exact Hmv. left. exact Hm.
Qed.
End combining.

(** ** On a desktop *)

#[local] Existing Instance insertion_order.
#[local] Existing Instance first_bytes.
#[local] Existing Instance desk_blobs.

Definition desk_vault : Vault.t :=
  default (Vault.mk "" "" None None 0) (Db.vaults (tables desk2) !! "a").
Definition desk_row : RevisionRow.t :=
  default (RevisionRow.mk "" "" "" 0 0 None RevisionOperation.imported None) (Db.revisions (tables desk2) !! "x").

Lemma desk_tables : Db.vaults (tables desk2) !! "a" = Some desk_vault ∧
  Db.revisions (tables desk2) !! "x" = Some desk_row ∧ Vault.headRevisionId desk_vault = Some "aa" ∧
  Vault.kdbxPath desk_vault = Some Desk.path ∧ RevisionRow.vault_id desk_row = "a" ∧
  RevisionRow.hash desk_row = sha256 (Desk.kdbx Byte.x01).
Proof. split_and!; vm_compute; reflexivity. Qed.

Lemma current_version_written_witness :
  ∃ row, Db.revisions (tables desk1) !! "aa" = Some row ∧
    Services.engine (materializeCurrentVersion (VaultFileAccess0 := desk_files false) Device.clock Desk.localeTime
      desk1).2 = Services.engine desk1.
Proof.
  assert (∃ v row, Db.vaults (tables desk1) !! "a" = Some v ∧ Vault.kdbxPath v = Some Desk.path ∧
    Vault.headRevisionId v = Some "aa" ∧ Db.revisions (tables desk1) !! "aa" = Some row) as (v & row & Hv & Hp & Hh & Hr).
  { do 2 eexists. split_and!; vm_compute; reflexivity. }
  exists row. split; [exact Hr|].
  pose proof (current_version_written (VaultFileAccess0 := desk_files false) Device.clock Desk.localeTime
    "a" v Desk.path "aa" row desk1 desk1_ok) as Hw.
  assert (tracks (VaultFileAccess0 := desk_files false) desk1 "a" v Desk.path) as Ht.
  { split; [vm_compute; reflexivity|exact Hv|exact Hp|vm_compute; reflexivity]. }
  specialize (Hw Ht Hh Hr). destruct (materializeCurrentVersion _ _ desk1) as [r s'].
  exact (proj1 Hw).
Defined.

Lemma session_end_head_witness :
  open_conflict (tables (desk_step true desk2 (EndsSession "peer" (inl (desk_result (diverged [])))))) "a" "aa" "x".
Proof.
  destruct desk_tables as (Hv & Hr & Hh & _ & Hk & _).
  exact (proj2 (proj2 (proj2 (proj2 (session_end_head (VaultFileAccess0 := desk_files true) Device.clock Device.ids
    Device.ids Device.clock Desk.localeTime Device.ids Desk.interpret Desk.diff Desk.own false "localhost:8787"
    "peer" (desk_result (diverged [])) desk2 desk_vault "aa" "x" desk_row desk2_ok Hv Hh eq_refl Hr Hk eq_refl))))).
Defined.

(** What KeePassXC writes over the old file. *)
Definition desk_save : Uint8Array := Desk.kdbx Byte.x02.

Lemma held_back_save_buries_witness :
  Services.updateHeldBack (desk_step true desk2 (EndsSession "peer" (inl (desk_result remote_ahead)))) = true.
Proof.
  destruct desk_tables as (Hv & Hr & Hh & Hp & Hk & Hash).
  refine (proj1 (proj2 (proj1 (held_back_save_buries (VaultFileAccess0 := desk_files true) Device.clock Device.ids
    Device.ids Device.clock Desk.localeTime Device.ids Desk.interpret Desk.diff Desk.own false "localhost:8787"
    "peer" (desk_result remote_ahead) desk_save desk2 desk_vault "x" desk_row Desk.path desk2_ok Hv Hp _ eq_refl
    eq_refl Hr Hk _ _ _ _)))).
  - vm_compute. reflexivity.
  - intros f. reflexivity.
  - assert (on_disk (VaultFileAccess0 := desk_files true) desk2 Desk.path = Some (Desk.kdbx Byte.x00)) as ->
      by (vm_compute; reflexivity).
    intros bytes [= <-]. rewrite Hash. vm_compute. discriminate.
  - rewrite Hash. vm_compute. discriminate.
  - vm_compute. exact I.
Defined.

Lemma late_end_drops_save_witness :
  ∃ s1 x, s1 = desk_step true (desk_step true desk2 (WatcherReports desk_save))
      (EndsSession "peer" (inl (desk_result remote_ahead))) ∧
    StoreTheory.stored (tables s1) x ∧ ¬ rtc (edge (tables s1)) "x" x.
Proof.
  destruct desk_tables as (Hv & Hr & Hh & Hp & Hk & Hash).
  destruct (late_end_drops_save (VaultFileAccess0 := desk_files true) Device.clock Device.ids
    Device.ids Device.clock Desk.localeTime Device.ids Desk.interpret Desk.diff Desk.own false "localhost:8787"
    "peer" (desk_result remote_ahead) desk_save desk2 desk_vault "aa" "x" desk_row desk2_ok desk2_fresh eq_refl
    Hv Hh eq_refl eq_refl Hr Hk) as (_ & _ & Hs & _ & Hno & _).
  - vm_compute. discriminate.
  - vm_compute. exact I.
  - do 2 eexists. split; [reflexivity|]. split; [exact Hs|exact Hno].
Defined.

(** A session found that the two versions had parted. *)
Definition desk3 : Services.t (FS.t * nat) DiskFiles.t :=
  desk_step false desk2 (EndsSession "peer" (inl (desk_result (diverged [])))).

Lemma desk3_engine : Services.engine desk3 = set_db (db (Services.engine desk3)) (Services.engine desk2).
Proof. vm_compute. reflexivity. Qed.

Lemma desk3_history : same_history (db (Services.engine desk2)) (db (Services.engine desk3)).
Proof. split; [|split]; vm_compute; reflexivity. Qed.

Lemma desk3_ok : engine_ok (Services.engine desk3).
Proof.
  destruct desk3_history as (Hv & Hr & Hp). rewrite desk3_engine.
  apply ok_set_db; [apply desk2_ok| | |].
  - eapply wf_proper; [apply desk3_history|apply desk2_ok].
  - intros i row Hi. left. by rewrite <- Hr.
  - intros k v h. rewrite Hv, Hr. apply (ok_head _ desk2_ok).
Qed.

Lemma desk3_fresh : fresh_ids Device.ids Device.ids (Services.engine desk3).
Proof.
  assert (EngineState.ticks (Services.engine desk3) = EngineState.ticks (Services.engine desk2)) as Ht
    by (vm_compute; reflexivity).
  destruct desk3_history as (Hv & Hr & _). intros n Hn. rewrite Hv, Hr. rewrite Ht in Hn. exact (desk2_fresh n Hn).
Qed.

Lemma desk3_keyed : keyed (tables desk3).
Proof.
  assert (∃ row, Db.conflicts (tables desk3) = {[Device.ids 0 := row]} ∧ ConflictRow.id row = Device.ids 0) as (row & Hc & Hid).
  { eexists (ConflictRow.mk _ _ _ _ _ _ _ _). split; vm_compute; reflexivity. }
  intros key r. rewrite Hc. intros [<- <-]%lookup_singleton_Some. done.
Qed.

Lemma desk3_tables : Services.vaultId desk3 = Some "a" ∧ Db.vaults (tables desk3) !! "a" = Some desk_vault ∧
  Vault.headRevisionId desk_vault = Some "aa".
Proof. split_and!; vm_compute; reflexivity. Qed.

(** Combined there, with KeePassXC closed. *)
Definition combines_there : result MergeOutcomeSummary * Services.t (FS.t * nat) DiskFiles.t :=
  combineAndUse (VaultFileAccess0 := desk_files false) Device.clock Device.ids Device.clock Desk.localeTime Desk.interpret
    Desk.own "x" "open sesame" desk3.

Lemma combines_there_result : ∃ i, combines_there.1 = Ok (merged_summary i).
Proof. eexists. vm_compute. reflexivity. Qed.

Lemma combined_version_used_witness :
  open_conflict (tables desk3) "a" "aa" "x" ∧
  ∃ i, Db.vaults (tables combines_there.2) !! "a" = Some (Vault.set_head desk_vault i) ∧
    ∀ a b, ¬ open_conflict (tables combines_there.2) "a" a b.
Proof.
  split.
  - exists (Device.ids 0). eexists. split; [vm_compute; reflexivity|]. split_and!; reflexivity.
  - destruct desk3_tables as (Hk & Hv & Hh). destruct combines_there_result as [i Hi].
    pose proof (combined_version_used (VaultFileAccess0 := desk_files false) Device.clock Device.ids Device.ids Device.clock
      Desk.localeTime Desk.interpret Desk.own "x" "open sesame" desk3 "a" desk_vault "aa" desk3_ok desk3_fresh desk3_keyed
      Hk Hv Hh) as Hc.
    fold combines_there in Hc. destruct combines_there as [r s']. cbn [fst snd] in Hi |- *. subst r.
    destruct Hc as [Hhead _ _ Hclosed _]. exists i. split; [|exact Hclosed]. rewrite Hhead. apply lookup_insert_eq.
Defined.
