(* ===== verification/Offer.v ===== *)
(** * Pairing offers

    packages/identity/src/pairing.ts: the link that a device shows and another
    reads, encoded and decoded as [URLSearchParams] does.  What a platform takes
    for a URL, and the text it reads in bytes that may be no UTF-8, are
    parameters ([WebUrl]). *)

From S2P Require Import Prelude Model Bytes JsString Json BlobStore Codec Identity JsMap.
From Stdlib Require String Ascii.

Open Scope Z_scope.

Definition PAIRING_SCHEME : string := "passvault".
Definition PAIRING_VERSION : Z := 1.

(** ** Parameters of a URL (application/x-www-form-urlencoded) *)

Definition form_safe (c : Z) : bool :=
  ((97 <=? c) && (c <=? 122)) || ((65 <=? c) && (c <=? 90)) || is_digit c
  || bool_decide (c ∈ [42; 45; 46; 95]).

Definition upper_hex (v : Z) : Ascii.ascii := fromCharCode (if v <? 10 then 48 + v else 55 + v).

Definition form_char (c : Ascii.ascii) : text :=
  if form_safe (charCode c) then [c]
  else if charCode c =? 32 then [fromCharCode 43]
  else [fromCharCode 37; upper_hex (charCode c / 16); upper_hex (charCode c mod 16)].

(** A text has no lone surrogate when it is serialised: each is replaced. *)
Definition scalar_point (p : Z) : Z := if (0xD800 <=? p) && (p <=? 0xDFFF) then 0xFFFD else p.

Definition usv (s : string) : string := of_points (scalar_point <$> to_points s).

Definition form_text (s : string) : text := chars (usv s) ≫= form_char.

(** [params.toString()]. *)
Fixpoint form_pairs (params : list (string * string)) : text :=
  match params with
  | [] => []
  | [(k, v)] => form_text k ++ fromCharCode 61 :: form_text v
  | (k, v) :: params =>
      form_text k ++ fromCharCode 61 :: form_text v ++ fromCharCode 38 :: form_pairs params
  end.

(** The parts of a text between the occurrences of a character. *)
Fixpoint split_at (sep : Z) (l : text) : list text :=
  match l with
  | [] => [[]]
  | c :: l =>
      if is_char sep c then [] :: split_at sep l
      else match split_at sep l with part :: parts => (c :: part) :: parts | [] => [[c]] end
  end.

(** What stands before the first [=], and what follows it. *)
Fixpoint name_value (l : text) : text * text :=
  match l with
  | [] => ([], [])
  | c :: l => if is_char 61 c then ([], l) else let '(name, value) := name_value l in (c :: name, value)
  end.

(** The bytes that escapes and plus signs stand for. *)
Fixpoint form_bytes (l : text) : list Z :=
  match l with
  | [] => []
  | c :: l' =>
      if is_char 43 c then 32 :: form_bytes l'
      else if is_char 37 c then
        match l' with
        | h1 :: h2 :: rest =>
            match hex_value h1, hex_value h2 with
            | Some a, Some b => (a * 16 + b) :: form_bytes rest
            | _, _ => 37 :: form_bytes l'
            end
        | _ => 37 :: form_bytes l'
        end
      else charCode c :: form_bytes l'
  end.

(** The [URL] of a text is its protocol and its query, if it is a URL; a text is
    read in bytes as [TextDecoder] does. *)
Class WebUrl : Type := {
  url_parts : string → option (string * string);
  utf8_text : list Z → string;
}.

(** [params.get(name)], the first of that name, in digits: [Number.parseInt]. *)
Fixpoint leading_digits (l : list Z) : list Z :=
  match l with
  | [] => []
  | c :: l => if is_digit c then (c - 48) :: leading_digits l else []
  end.

Definition parse_digits10 (l : list Z) : option Z :=
  match leading_digits l with [] => None | ds => Some (digits_value ds) end.

Definition parseInt10 (s : string) : option Z :=
  match drop_spaces (to_units s) with
  | 45 :: l => Z.opp <$> parse_digits10 l
  | 43 :: l => parse_digits10 l
  | l => parse_digits10 l
  end.

(** ** Offers *)

Module PairingOffer.
Record t : Type := mk {
  version : Z;
  deviceId : DeviceId;
  publicKey : Uint8Array;
  name : string;
  roomId : string;
  inviteToken : string;
  signalUrl : string;
}.
End PairingOffer.

Definition offer_params (offer : PairingOffer.t) : list (string * string) :=
  [("v", of_chars (write_nat PAIRING_VERSION));
   ("k", toBase64 (PairingOffer.publicKey offer));
   ("n", PairingOffer.name offer);
   ("r", PairingOffer.roomId offer);
   ("t", PairingOffer.inviteToken offer);
   ("s", PairingOffer.signalUrl offer)].

Definition encodePairingOffer (offer : PairingOffer.t) : string :=
  PAIRING_SCHEME +:+ "://pair?" +:+ of_chars (form_pairs (offer_params offer)).

(** [url.searchParams] of a query: empty parts are left out. *)
Definition search_params `{WebUrl} (query : string) : list (string * string) :=
  (λ part, let '(name, value) := name_value part in
           (utf8_text (form_bytes name), utf8_text (form_bytes value)))
    <$> filter (λ part, part ≠ []) (split_at 38 (chars query)).

(** The offer of a code, or why it has none. *)
Definition decodePairingOffer `{WebUrl, Digest} (raw : string) : PairingOffer.t + string :=
  match url_parts (trim raw) with
  | None => inr "That does not look like a pairing code."
  | Some (protocol, query) =>
      if decide (protocol ≠ PAIRING_SCHEME +:+ ":") then
        inr "That pairing code is for a different application."
      else
        let params := search_params query in
        let v := map_get "v" params in
        if decide (parseInt10 (default EmptyString v) ≠ Some PAIRING_VERSION) then
          inr ("Unsupported pairing code version " +:+ default "?" v +:+ ".")
        else
          match map_get "k" params, map_get "n" params, map_get "r" params, map_get "t" params,
                map_get "s" params with
          | Some encodedKey, Some name, Some roomId, Some inviteToken, Some signalUrl =>
              match fromBase64 encodedKey with
              | Err _ => inr "That pairing code has an unreadable key."
              | Ok publicKey =>
                  if decide (length publicKey ≠ 32%nat) then inr "That pairing code has an invalid key."
                  else inl {| PairingOffer.version := PAIRING_VERSION;
                              PairingOffer.deviceId := deviceIdFor publicKey;
                              PairingOffer.publicKey := publicKey; PairingOffer.name := name;
                              PairingOffer.roomId := roomId; PairingOffer.inviteToken := inviteToken;
                              PairingOffer.signalUrl := signalUrl |}
              end
          | _, _, _, _, _ => inr "That pairing code is incomplete."
          end
  end.

(** ** What it guarantees *)

(** ** Parameters *)

(** The characters of encoded parameters. *)
Definition form_code (z : Z) : Prop := form_safe z = true ∨ z ∈ [37; 43; 38; 61].

(** Those of an encoded text. *)
Definition coded (z : Z) : Prop := form_safe z = true ∨ z ∈ [37; 43].

Lemma form_safe_spec z : form_safe z = true ↔
  97 <= z <= 122 ∨ 65 <= z <= 90 ∨ 48 <= z <= 57 ∨ z = 42 ∨ z = 45 ∨ z = 46 ∨ z = 95.
Proof.
  unfold form_safe, is_digit. rewrite !orb_true_iff, !andb_true_iff, !Z.leb_le, bool_decide_eq_true.
  rewrite !elem_of_cons, elem_of_nil. lia.
Qed.

Lemma coded_spec z : coded z ↔
  97 <= z <= 122 ∨ 65 <= z <= 90 ∨ 48 <= z <= 57 ∨ z = 42 ∨ z = 45 ∨ z = 46 ∨ z = 95 ∨ z = 37 ∨ z = 43.
Proof. unfold coded. rewrite form_safe_spec, !elem_of_cons, elem_of_nil. lia. Qed.

Lemma upper_hex_code v : 0 <= v < 16 → charCode (upper_hex v) = if v <? 10 then 48 + v else 55 + v.
Proof. intros Hv. unfold upper_hex. apply charCode_from. case_match; lia. Qed.

Lemma upper_hex_value v : 0 <= v < 16 → hex_value (upper_hex v) = Some v.
Proof.
  intros Hv. unfold hex_value, is_digit. rewrite upper_hex_code by done.
  destruct (Z.ltb_spec v 10).
  - rewrite (proj2 (Z.leb_le 48 _)), (proj2 (Z.leb_le _ 57)) by lia. simpl. f_equal. lia.
  - rewrite (proj2 (Z.leb_gt _ 57)), andb_false_r by lia.
    rewrite (proj2 (Z.leb_gt 97 _)) by lia. simpl.
    rewrite (proj2 (Z.leb_le 65 _)), (proj2 (Z.leb_le _ 70)) by lia. simpl. f_equal. lia.
Qed.

Lemma code_halves c : 0 <= charCode c / 16 < 16 ∧ 0 <= charCode c mod 16 < 16.
Proof. pose proof (charCode_range c). Z.to_euclidean_division_equations. lia. Qed.

Lemma form_char_coded c : Forall (λ d, coded (charCode d)) (form_char c).
Proof.
  unfold form_char. destruct (form_safe _) eqn:Hs; [constructor; [by left|constructor]|].
  destruct (charCode c =? 32); [constructor; [by apply coded_spec; vm_compute; lia|constructor]|].
  pose proof (code_halves c) as [Hhigh Hlow]. (constructor; [|constructor; [|constructor; [|constructor]]]); apply coded_spec.
  - vm_compute. lia.
  - rewrite upper_hex_code by done. case_match; lia.
  - rewrite upper_hex_code by done. case_match; lia.
Qed.

Lemma form_text_coded s : Forall (λ d, coded (charCode d)) (form_text s).
Proof.
  unfold form_text. induction (chars (usv s)) as [|c l IH]; [constructor|].
  csimpl. apply Forall_app. split; [apply form_char_coded|done].
Qed.

Lemma form_bytes_char c rest : form_bytes (form_char c ++ rest) = charCode c :: form_bytes rest.
Proof.
  unfold form_char. destruct (form_safe _) eqn:Hs.
  - apply form_safe_spec in Hs. simpl. unfold is_char.
    rewrite (proj2 (Z.eqb_neq (charCode c) 43)), (proj2 (Z.eqb_neq (charCode c) 37)) by lia. done.
  - destruct (Z.eqb_spec (charCode c) 32) as [->|Hne]; [done|].
    pose proof (code_halves c) as [Hhigh Hlow].
    change (form_bytes ([fromCharCode 37; upper_hex (charCode c / 16); upper_hex (charCode c mod 16)] ++ rest))
      with (match hex_value (upper_hex (charCode c / 16)), hex_value (upper_hex (charCode c mod 16)) with
            | Some a, Some b => (a * 16 + b) :: form_bytes rest
            | _, _ => 37 :: form_bytes (upper_hex (charCode c / 16) :: upper_hex (charCode c mod 16) :: rest)
            end).
    rewrite !upper_hex_value by done. f_equal. pose proof (Z.div_mod (charCode c) 16). lia.
Qed.

Lemma form_bytes_text s : form_bytes (form_text s) = charCode <$> chars (usv s).
Proof.
  unfold form_text. induction (chars (usv s)) as [|c l IH]; [done|].
  rewrite bind_cons, form_bytes_char, IH. done.
Qed.

(** A character that is not coded ends a coded text. *)
Lemma coded_not sep l : ¬ coded sep → Forall (λ d, coded (charCode d)) l →
  Forall (λ d, is_char sep d = false) l.
Proof.
  intros Hsep Hl. eapply Forall_impl; [exact Hl|]. intros d Hd. unfold is_char. apply Z.eqb_neq. by intros <-.
Qed.

Lemma name_value_at l value : Forall (λ d, is_char 61 d = false) l →
  name_value (l ++ fromCharCode 61 :: value) = (l, value).
Proof. intros Hl. induction Hl as [|c l Hc _ IH]; [done|]. simpl. by rewrite Hc, IH. Qed.

Lemma split_at_end sep l : Forall (λ d, is_char sep d = false) l → split_at sep l = [l].
Proof. intros Hl. induction Hl as [|c l Hc _ IH]; [done|]. simpl. by rewrite Hc, IH. Qed.

Lemma split_at_sep sep l c rest : Forall (λ d, is_char sep d = false) l → is_char sep c = true →
  split_at sep (l ++ c :: rest) = l :: split_at sep rest.
Proof.
  intros Hl Hc. induction Hl as [|d l Hd _ IH]; simpl; [by rewrite Hc|]. by rewrite Hd, IH.
Qed.

(** One encoded parameter. *)
Definition form_pair (kv : string * string) : text :=
  form_text kv.1 ++ fromCharCode 61 :: form_text kv.2.

Lemma form_pair_plain kv : Forall (λ d, is_char 38 d = false) (form_pair kv).
Proof.
  assert (¬ coded 38) as Hno by (rewrite coded_spec; lia).
  apply Forall_app. split; [by apply coded_not, form_text_coded|].
  constructor; [done|by apply coded_not, form_text_coded].
Qed.

Lemma split_form_pairs params : params ≠ [] →
  split_at 38 (form_pairs params) = form_pair <$> params.
Proof.
  induction params as [|[k v] params IH]; [done|]. intros _.
  destruct params as [|kv params].
  - apply (split_at_end 38 (form_pair (k, v))), form_pair_plain.
  - change (form_pairs ((k, v) :: kv :: params))
      with (form_text k ++ fromCharCode 61 :: form_text v ++ fromCharCode 38 :: form_pairs (kv :: params)).
    rewrite app_comm_cons, (assoc (++)).
    rewrite (split_at_sep 38 (form_pair (k, v)) (fromCharCode 38));
      [|apply form_pair_plain|done]. by rewrite IH.
Qed.

Section offers.
Context `{WebUrl, Digest}.
(** The bytes of a text without lone surrogates are read as that text. *)
Context (utf8_spec : ∀ s, utf8_text (charCode <$> chars (usv s)) = usv s).

Lemma search_form_pairs params : params ≠ [] →
  search_params (of_chars (form_pairs params)) = (λ kv, (usv kv.1, usv kv.2)) <$> params.
Proof.
  intros Hne. unfold search_params. rewrite chars_of_chars, split_form_pairs by done. clear Hne.
  assert (¬ coded 61) as Hno by (rewrite coded_spec; lia).
  induction params as [|kv params IH]; [done|]. csimpl. rewrite filter_cons_True.
  - csimpl. rewrite IH. f_equal. unfold form_pair.
    rewrite name_value_at by (by apply coded_not, form_text_coded).
    by rewrite !form_bytes_text, !utf8_spec.
  - intros Hnil. by apply app_eq_nil in Hnil as [_ ?].
Qed.
End offers.

(** ** The text of an offer *)

Lemma form_pairs_code params :
  Forall (λ d, form_code (charCode d)) (form_pairs params).
Proof.
  assert (∀ s, Forall (λ d, form_code (charCode d)) (form_text s)) as Ht.
  { intros s. eapply Forall_impl; [apply form_text_coded|]. intros d [Hd|Hd]; [by left|right].
    set_solver. }
  assert (form_code (charCode (fromCharCode 61)) ∧ form_code (charCode (fromCharCode 38))) as [Heq Hamp].
  { split; right; vm_compute; repeat constructor. }
  induction params as [|[k v] params IH]; [constructor|].
  destruct params as [|kv params].
  - apply Forall_app. split; [done|]. by constructor.
  - change (form_pairs ((k, v) :: kv :: params))
      with (form_text k ++ fromCharCode 61 :: form_text v ++ fromCharCode 38 :: form_pairs (kv :: params)).
    apply Forall_app. split; [done|]. constructor; [done|]. apply Forall_app. split; [done|].
    by constructor.
Qed.

Lemma form_code_ascii z : form_code z → 33 <= z < 127.
Proof. intros [Hz%form_safe_spec|Hz]; [lia|]. rewrite !elem_of_cons, elem_of_nil in Hz. lia. Qed.

Lemma trim_plain s : Forall (λ c, 33 <= charCode c < 127) (chars s) → trim s = s.
Proof.
  intros Hs. assert (is_ascii s) as Ha.
  { eapply Forall_impl; [exact Hs|]. intros c Hc. unfold ascii_code. cbv beta in Hc. lia. }
  assert (Forall (λ z, 33 <= z < 127) (charCode <$> chars s)) as Hz by by apply Forall_fmap.
  unfold trim. rewrite to_units_ascii by done. rewrite trim_units_id.
  - rewrite of_units_ascii by (by apply Forall_fmap). by apply of_to_points_ascii.
  - eapply Forall_impl; [exact Hz|]. intros z Hr. cbv beta in Hr. unfold is_space. apply orb_false_iff. split.
    + apply bool_decide_eq_false. rewrite !elem_of_cons, elem_of_nil. lia.
    + apply andb_false_iff. left. apply Z.leb_gt. lia.
Qed.

Lemma encoded_chars offer :
  Forall (λ c, 33 <= charCode c < 127) (chars (encodePairingOffer offer)).
Proof.
  unfold encodePairingOffer. rewrite !chars_app, chars_of_chars, !Forall_app. split_and!.
  - refine (bool_decide_eq_true_1 _ _). vm_compute. reflexivity.
  - refine (bool_decide_eq_true_1 _ _). vm_compute. reflexivity.
  - eapply Forall_impl; [apply form_pairs_code|]. intros c. apply form_code_ascii.
Qed.

Lemma trim_encoded offer : trim (encodePairingOffer offer) = encodePairingOffer offer.
Proof. apply trim_plain, encoded_chars. Qed.

(** A text of whole characters, none of them a lone surrogate. *)
Definition scalar_text (s : string) : Prop :=
  ∃ l, s = of_points l ∧ Forall (λ p, point_code p ∧ ¬ 0xD800 <= p <= 0xDFFF) l.

Lemma scalar_text_point_code l : Forall (λ p, point_code p ∧ ¬ 0xD800 <= p <= 0xDFFF) l → Forall point_code l.
Proof. intros Hl. eapply Forall_impl; [exact Hl|]. by intros p [? _]. Qed.

Lemma usv_scalar s : scalar_text s → usv s = s.
Proof.
  intros (l&->&Hl). unfold usv. rewrite to_of_points by by apply scalar_text_point_code.
  f_equal. induction Hl as [|p l [_ Hp] _ IH]; [done|]. csimpl. rewrite IH. f_equal.
  unfold scalar_point. destruct (Z.leb_spec 0xD800 p), (Z.leb_spec p 0xDFFF); simpl; lia.
Qed.

(** Deciding that a text is one. *)
Definition is_scalar (p : Z) : bool :=
  (0 <=? p) && (p <? 0x110000) && negb ((0xD800 <=? p) && (p <=? 0xDFFF)).

Lemma scalar_text_check s :
  of_points (to_points s) = s → forallb is_scalar (to_points s) = true → scalar_text s.
Proof.
  intros Hs Hall. exists (to_points s). split; [done|]. apply Forall_forall. intros p Hin%list_elem_of_In. specialize (forallb_forall is_scalar (to_points s)) as [Hf _].
  specialize (Hf Hall p Hin). unfold is_scalar in Hf. unfold point_code. lia.
Qed.

Lemma ascii_scalar s : is_ascii s → scalar_text s.
Proof.
  intros Hs. exists (charCode <$> chars s). split; [by rewrite of_to_points_ascii|].
  apply Forall_fmap. eapply Forall_impl; [exact Hs|]. intros c Hc. unfold ascii_code in Hc.
  cbv beta in Hc. unfold point_code. simpl. lia.
Qed.

Lemma base64_digit_ascii v : 0 <= v < 64 → ascii_code (charCode (base64_digit v)).
Proof.
  intros Hv. unfold base64_digit, ascii_code. rewrite charCode_from; repeat case_match; lia.
Qed.

Lemma base64_chars_ascii bytes : Forall (λ c, ascii_code (charCode c)) (base64_chars bytes).
Proof.
  revert bytes. fix IH 1. intros bytes.
  assert (ascii_code (charCode padding)) as Hpad by (vm_compute; split; congruence).
  destruct bytes as [|a [|b [|c bytes]]]; cbn [base64_chars]; cbv zeta; [constructor|..];
    pose proof (byte_to_Z_range a); try (pose proof (byte_to_Z_range b));
    try (pose proof (byte_to_Z_range c));
    repeat (constructor; [first [exact Hpad
      |apply base64_digit_ascii; Z.to_euclidean_division_equations; lia]|]);
    [constructor..|apply IH].
Qed.

Section decoding.
Context `{WebUrl, Digest}.
Context (utf8_spec : ∀ s, utf8_text (charCode <$> chars (usv s)) = usv s).
(** A link of this application is a URL, whose query is what follows the question
    mark, when nothing in it has to be escaped. *)
Context (url_spec : ∀ query, Forall (λ c, form_code (charCode c)) (chars query) →
  url_parts (PAIRING_SCHEME +:+ "://pair?" +:+ query) = Some (PAIRING_SCHEME +:+ ":", query)).

Lemma decode_encoded (offer : PairingOffer.t) (raw : string) :
  trim raw = encodePairingOffer offer →
  length (PairingOffer.publicKey offer) = 32%nat →
  decodePairingOffer raw
  = inl (PairingOffer.mk 1 (deviceIdFor (PairingOffer.publicKey offer)) (PairingOffer.publicKey offer)
           (usv (PairingOffer.name offer)) (usv (PairingOffer.roomId offer))
           (usv (PairingOffer.inviteToken offer)) (usv (PairingOffer.signalUrl offer))).
Proof.
  intros Hraw Hlen. unfold decodePairingOffer. rewrite Hraw. unfold encodePairingOffer at 1.
  rewrite url_spec by (rewrite chars_of_chars; apply form_pairs_code).
  rewrite decide_False by (intros Hne; by apply Hne).
  rewrite search_form_pairs by done. cbv zeta.
  change (map_get ?k ((λ kv, (usv kv.1, usv kv.2)) <$> offer_params offer))
    with (map_get k [(usv "v", usv (of_chars (write_nat PAIRING_VERSION)));
      (usv "k", usv (toBase64 (PairingOffer.publicKey offer))); (usv "n", usv (PairingOffer.name offer));
      (usv "r", usv (PairingOffer.roomId offer)); (usv "t", usv (PairingOffer.inviteToken offer));
      (usv "s", usv (PairingOffer.signalUrl offer))]).
  assert (usv (toBase64 (PairingOffer.publicKey offer)) = toBase64 (PairingOffer.publicKey offer)) as ->.
  { apply usv_scalar, ascii_scalar. unfold is_ascii, toBase64. rewrite chars_of_chars.
    apply base64_chars_ascii. }
  replace (usv "v") with "v" by (vm_compute; reflexivity).
  replace (usv "k") with "k" by (vm_compute; reflexivity).
  replace (usv "n") with "n" by (vm_compute; reflexivity).
  replace (usv "r") with "r" by (vm_compute; reflexivity).
  replace (usv "t") with "t" by (vm_compute; reflexivity).
  replace (usv "s") with "s" by (vm_compute; reflexivity).
  replace (usv (of_chars (write_nat PAIRING_VERSION))) with "1" by (vm_compute; reflexivity).
  match goal with |- context [map_get "v" ?l] => set (params := l) end.
  change (map_get "v" params) with (Some "1").
  change (map_get "k" params) with (Some (toBase64 (PairingOffer.publicKey offer))).
  change (map_get "n" params) with (Some (usv (PairingOffer.name offer))).
  change (map_get "r" params) with (Some (usv (PairingOffer.roomId offer))).
  change (map_get "t" params) with (Some (usv (PairingOffer.inviteToken offer))).
  change (map_get "s" params) with (Some (usv (PairingOffer.signalUrl offer))).
  rewrite decide_False by (intros Hne; apply Hne; vm_compute; reflexivity).
  rewrite fromBase64_toBase64, decide_False by (by intros Hne). done.
Qed.
End decoding.

(** An offer survives its link.  Whatever the name of the device and the
    address of the server, in any script, what is read from the link an offer was
    made into, with or without white space around it, is that offer; the
    identifier of the device is not sent, it is the hash of the key. *)
Theorem offer_roundtrip `{WebUrl, Digest}
    (utf8_spec : ∀ s, utf8_text (charCode <$> chars (usv s)) = usv s)
    (url_spec : ∀ query, Forall (λ c, form_code (charCode c)) (chars query) →
      url_parts (PAIRING_SCHEME +:+ "://pair?" +:+ query) = Some (PAIRING_SCHEME +:+ ":", query))
    (offer : PairingOffer.t) (raw : string) (Hraw : trim raw = encodePairingOffer offer)
    (Hkey : length (PairingOffer.publicKey offer) = 32%nat)
    (Hid : PairingOffer.deviceId offer = deviceIdFor (PairingOffer.publicKey offer))
    (Hversion : PairingOffer.version offer = PAIRING_VERSION)
    (Hname : scalar_text (PairingOffer.name offer)) (Hroom : scalar_text (PairingOffer.roomId offer))
    (Htoken : scalar_text (PairingOffer.inviteToken offer))
    (Hsignal : scalar_text (PairingOffer.signalUrl offer)) :
  decodePairingOffer raw = inl offer.
Proof.
  rewrite (decode_encoded utf8_spec url_spec offer raw Hraw Hkey), !usv_scalar by done.
  rewrite <- Hid. destruct offer. simpl in *. by rewrite Hversion.
Qed.

(** What is accepted. *)
Lemma decoded_offer `{WebUrl, Digest} (raw : string) (offer : PairingOffer.t) :
  decodePairingOffer raw = inl offer →
  PairingOffer.deviceId offer = deviceIdFor (PairingOffer.publicKey offer) ∧
  length (PairingOffer.publicKey offer) = 32%nat ∧
  length (chars (PairingOffer.deviceId offer)) = 64%nat ∧
  PairingOffer.version offer = PAIRING_VERSION.
Proof.
  intros Hoffer.
  assert (∀ key, length (chars (deviceIdFor key)) = 64%nat) as Hhex.
  { intros key. unfold deviceIdFor. destruct (toHex_lower (digest key)) as [-> _].
    by rewrite digest_length. }
  unfold decodePairingOffer in Hoffer. repeat (case_match; try discriminate).
  injection Hoffer as <-. simpl. split_and!; [done| |apply Hhex|done].
  lia.
Qed.

(** Whatever link is read, from whoever it is, a device that comes out of it
    is the one of its key: the key has 32 bytes, the identifier is its hash, and
    the version is the one this program writes. *)
Theorem offer_sound `{WebUrl, Digest} (raw : string) (offer : PairingOffer.t)
    (Hoffer : decodePairingOffer raw = inl offer) :
  PairingOffer.deviceId offer = deviceIdFor (PairingOffer.publicKey offer) ∧
  length (PairingOffer.publicKey offer) = 32%nat ∧
  length (chars (PairingOffer.deviceId offer)) = 64%nat ∧
  PairingOffer.version offer = PAIRING_VERSION.
Proof. by apply decoded_offer in Hoffer. Qed.

(** ** Witnesses *)

(** A platform that reads links of this application only, and bytes as they are. *)
Module ToyUrl.
Definition prefix : text := chars (PAIRING_SCHEME +:+ "://pair?").
Definition parts (raw : string) : option (string * string) :=
  if decide (take (length prefix) (chars raw) = prefix)
  then Some (PAIRING_SCHEME +:+ ":", of_chars (drop (length prefix) (chars raw))) else None.
End ToyUrl.

Definition toy_url : WebUrl :=
  {| url_parts := ToyUrl.parts; utf8_text bytes := of_chars (fromCharCode <$> bytes) |}.

Lemma toy_url_spec (query : string) :
  url_parts (WebUrl := toy_url) (PAIRING_SCHEME +:+ "://pair?" +:+ query)
  = Some (PAIRING_SCHEME +:+ ":", query).
Proof.
  simpl. unfold ToyUrl.parts.
  assert (chars (PAIRING_SCHEME +:+ "://pair?" +:+ query) = ToyUrl.prefix ++ chars query) as Hq.
  { change (PAIRING_SCHEME +:+ "://pair?" +:+ query) with ((PAIRING_SCHEME +:+ "://pair?") +:+ query).
    apply chars_app. }
  change ("passvault://pair?" +:+ query) with (PAIRING_SCHEME +:+ "://pair?" +:+ query).
  rewrite Hq. rewrite decide_True by apply take_app_length. by rewrite drop_app_length, of_chars_chars.
Qed.

Lemma toy_utf8_spec s : utf8_text (WebUrl := toy_url) (charCode <$> chars (usv s)) = usv s.
Proof.
  simpl. rewrite <- list_fmap_compose. rewrite (list_fmap_ext _ id), list_fmap_id.
  - apply of_chars_chars.
  - intros i c _. apply fromCharCode_code.
Qed.

#[refine] Definition toy_digest : Digest := {| digest bytes := take 32 (bytes ++ replicate 32 Byte.x00) |}.
Proof. intros bytes. rewrite length_take, length_app, length_replicate. lia. Defined.

(** An offer of a device whose name is not ASCII. *)
Definition toy_offer : PairingOffer.t :=
  PairingOffer.mk 1 (@deviceIdFor toy_digest (replicate 32 Byte.x07)) (replicate 32 Byte.x07)
    "Zoë's = & phone" "room 1" "t+%" "wss://sync.example.org/signal".

Lemma offer_roundtrip_witness :
  @decodePairingOffer toy_url toy_digest (" " +:+ encodePairingOffer toy_offer +:+ " ")
  = inl toy_offer.
Proof.
  refine (@offer_roundtrip toy_url toy_digest toy_utf8_spec (λ q _, toy_url_spec q) toy_offer _ _
    eq_refl eq_refl eq_refl _ _ _ _); [vm_compute; reflexivity|..];
    apply scalar_text_check; vm_compute; reflexivity.
Defined.

Lemma offer_sound_witness : length (PairingOffer.publicKey toy_offer) = 32%nat.
Proof.
  refine (proj1 (proj2 (@offer_sound toy_url toy_digest (encodePairingOffer toy_offer) toy_offer _))).
  vm_compute. reflexivity.
Defined.
