(* ===== verification/Calls.v ===== *)
(** * The calls of the services over HTTP

    packages/services/src/vaultServices.ts: making a pairing code, reading one,
    and checking a server.  The network is an interface ([Network]); the answers
    of a signaling server (apps/signaling/src/index.ts) implement it. *)

From S2P Require Import Prelude Model Bytes JsString Json JsMap Effects Codec ShortCode Rooms Signaling.
From S2P Require Import Store BlobStore Engine Identity Settings VaultFile Services Offer.
From Stdlib Require String Ascii.

Open Scope Z_scope.

(** ** The network *)

Module HttpRequest.
Record t : Type := mk {
  method : string;
  base : string;
  path : string;
  body : option string;
}.
End HttpRequest.

Module HttpResponse.
Record t : Type := mk {
  status : Z;
  body : string;
}.
Definition ok (response : t) : bool := (200 <=? status response) && (status response <=? 299).
End HttpResponse.

(** [fetch]: what answers, or why nothing does. *)
Class Network (N : Type) : Type := {
  fetch : HttpRequest.t → M N HttpResponse.t;
}.

(** [response.json()]. *)
Definition response_json (response : HttpResponse.t) : result json :=
  match JSON_parse (HttpResponse.body response) with
  | Some j => Ok j
  | None => Err "Unexpected token in JSON"
  end.

(** A property of a parsed body: reading one of [null] throws. *)
Definition property (key : string) (body : json) : result (option json) :=
  match body with
  | JNull => Err "Cannot read properties of null"
  | JObj members => Ok (member key members)
  | _ => Ok None
  end.

(** [encodeURIComponent] of a text, byte by byte. *)
Definition uri_safe (c : Z) : bool :=
  ((97 <=? c) && (c <=? 122)) || ((65 <=? c) && (c <=? 90)) || is_digit c
  || bool_decide (c ∈ [45; 95; 46; 33; 126; 42; 39; 40; 41]).

Definition uri_char (c : Ascii.ascii) : text :=
  if uri_safe (charCode c) then [c]
  else [fromCharCode 37; upper_hex (charCode c / 16); upper_hex (charCode c mod 16)].

Definition encodeURIComponent (s : string) : string := of_chars (chars s ≫= uri_char).

(** ** Data (packages/services/src/snapshot.ts) *)

Module ShortCodes.
(** What a code of eight characters adds to a link; the time is as the server
    wrote it. *)
Record t : Type := mk {
  shortCode : string;
  shortCodeQualified : string;
  shortCodeExpiresAt : option json;
}.
End ShortCodes.

Module PairingCode.
Record t : Type := mk {
  code : string;
  short : option ShortCodes.t;
  serverHost : string;
  where_ : Rendezvous.t;
}.
End PairingCode.

Module AcceptedPairing.
Record t : Type := mk {
  where_ : Rendezvous.t;
  peerName : string;
  peerPublicKeyBase64 : string;
  shortAuthenticationString : string;
}.
End AcceptedPairing.

Section calls.
Context `{WebUrl, RowOrder, Digest} {B : Type} `{!BlobStore B} {F : Type} `{!VaultFileAccess F}.
Context {N : Type} `{!Network N}.
Context (clock : nat → Date) (localeTime : Date → string).
Context (keyPair : DeviceKeyPair.t) (deviceName defaultServerHost : string).

(** The services and the network. *)
Abbreviation Run := (M (Services.t B F * N)).

Definition on_services {A} (m : M (Services.t B F) A) : Run A := λ s,
  let '(r, services) := m s.1 in (r, (services, s.2)).

Definition on_network {A} (m : M N A) : Run A := λ s,
  let '(r, network) := m s.2 in (r, (s.1, network)).

Definition trying {A} (m : Run A) (handler : Run A) : Run A := λ s,
  match m s with (Ok a, s) => (Ok a, s) | (Err _, s) => handler s end.

Definition get (base path : string) : Run HttpResponse.t :=
  on_network (fetch (HttpRequest.mk "GET" base path None)).

Definition post (base path : string) (body : option string) : Run HttpResponse.t :=
  on_network (fetch (HttpRequest.mk "POST" base path body)).

Definition backend : Run string := on_services (backendUrl defaultServerHost).

Definition serverHost : Run string :=
  on_services (connectionSettings defaultServerHost) ≫= λ settings,
  mret (ConnectionSettings.serverHost settings).

(** The body of the [try] of [testConnectionServer]. *)
Definition ask_health (host : string) : Run (bool * string) :=
  get (httpUrlFor host) "/health" ≫= λ response,
  if negb (HttpResponse.ok response) then
    mret (false, host +:+ " answered, but with an error (" +:+ pretty (HttpResponse.status response) +:+ ").")
  else
    lift (response_json response) ≫= λ body,
    lift (property "service" body) ≫= λ service,
    mret (match service with
          | Some (JStr name) =>
              if decide (name = "passvault-signaling")
              then (true, host +:+ " is reachable and is a PassVault server.")
              else (false, "Something answered at " +:+ host +:+ ", but it is not a PassVault server.")
          | _ => (false, "Something answered at " +:+ host +:+ ", but it is not a PassVault server.")
          end).

Definition testConnectionServer (raw : string) : Run (bool * string) :=
  match normalizeServerHost raw with
  | None =>
      mret (false, "Could not read " +:+ quotation +:+ trim raw +:+ quotation
        +:+ " as a server address. It should look like sync.example.org.")
  | Some host =>
      trying (ask_health host)
        (mret (false, "Could not reach " +:+ host +:+ ". Check the address, and that it is running."))
  end.

(** A code for a link, if the server gives one.  A code that is no text makes
    [formatQualifiedShortCode] throw. *)
Definition issueShortCode (link : string) : Run (option ShortCodes.t) :=
  trying
    (backend ≫= λ base,
     post base "/pairing-codes" (Some (JSON_stringify (JObj [("offer", JStr link)]))) ≫= λ response,
     if negb (HttpResponse.ok response) then mret None
     else
       lift (response_json response) ≫= λ issued,
       lift (property "code" issued) ≫= λ code,
       match code with
       | Some (JStr code) =>
           serverHost ≫= λ host,
           lift (property "expiresAt" issued) ≫= λ expiresAt,
           mret (Some (ShortCodes.mk code (formatQualifiedShortCode code host) expiresAt))
       | _ => throw "raw.toUpperCase is not a function"
       end)
    (mret None).

(** The room of an answer.  The code takes its two members for texts; here
    anything else throws. *)
Definition room_of (body : json) : result (string * string) :=
  property "roomId" body ≫= λ roomId,
  property "inviteToken" body ≫= λ inviteToken,
  match roomId, inviteToken with
  | Some (JStr roomId), Some (JStr inviteToken) => Ok (roomId, inviteToken)
  | _, _ => Err "the answer has no room"
  end.

Definition ready_message (short : option ShortCodes.t) : string :=
  match short with
  | None => "Ready to connect. Copy the link to your other device."
  | Some short => "Ready to connect. Type " +:+ ShortCodes.shortCode short +:+ " on your other device."
  end.

Definition createPairingCode : Run PairingCode.t :=
  backend ≫= λ base,
  post base "/rooms" None ≫= λ response,
  if negb (HttpResponse.ok response) then
    throw ("The signaling server refused to create a room ("
           +:+ pretty (HttpResponse.status response) +:+ ").")
  else
    lift (response_json response) ≫= λ body,
    lift (room_of body) ≫= λ '(roomId, inviteToken),
    on_services (signalUrl defaultServerHost) ≫= λ signal,
    let link := encodePairingOffer
      {| PairingOffer.version := PAIRING_VERSION;
         PairingOffer.deviceId := DeviceKeyPair.deviceId keyPair;
         PairingOffer.publicKey := DeviceKeyPair.publicKey keyPair;
         PairingOffer.name := deviceName; PairingOffer.roomId := roomId;
         PairingOffer.inviteToken := inviteToken; PairingOffer.signalUrl := signal |} in
    let where_ := Rendezvous.mk signal roomId inviteToken in
    on_services (pairing_begins clock where_) ≫= λ _,
    issueShortCode link ≫= λ short,
    on_services (log clock localeTime (ready_message short)) ≫= λ _,
    serverHost ≫= λ host,
    mret (PairingCode.mk link short host where_).

(** The body of the [try] of [redeemShortCode]. *)
Definition ask_code (typed : ParsedShortCode.t) (ours host : string) : Run (string + string) :=
  get (httpUrlFor host) ("/pairing-codes/" +:+ encodeURIComponent (ParsedShortCode.code typed)) ≫= λ response,
  if HttpResponse.status response =? 404 then
    mret (inr (match ParsedShortCode.host typed with
               | None => "No such code on " +:+ ours +:+ ". Codes last ten minutes and work once. If the other device uses a different connection server, ask it for the code with the server on the end — it looks like CODE@server."
               | Some _ => host +:+ " does not have that code. It may have expired, or already been used."
               end))
  else if negb (HttpResponse.ok response) then
    mret (inr (host +:+ " answered with an error (" +:+ pretty (HttpResponse.status response) +:+ ")."))
  else
    lift (response_json response) ≫= λ body,
    lift (property "offer" body) ≫= λ offer,
    mret (match offer with
          | Some (JStr link) => inl link
          | _ => inr (host +:+ " returned something unreadable.")
          end).

Definition redeemShortCode (typed : ParsedShortCode.t) : Run (string + string) :=
  serverHost ≫= λ ours,
  let host := default ours (ParsedShortCode.host typed) in
  trying (ask_code typed ours host)
    (mret (inr ("Could not reach " +:+ host +:+ " to look that code up. Check the address and that both devices are online."))).

(** What a link leads to. *)
Definition accept_link (link : string) : Run (AcceptedPairing.t + string) :=
  match decodePairingOffer link with
  | inr reason => mret (inr reason)
  | inl offer =>
      let where_ := Rendezvous.mk (PairingOffer.signalUrl offer) (PairingOffer.roomId offer)
                      (PairingOffer.inviteToken offer) in
      on_services (pairing_begins clock where_) ≫= λ _,
      mret (inl (AcceptedPairing.mk where_ (PairingOffer.name offer)
        (toBase64 (PairingOffer.publicKey offer))
        (sasFor keyPair (PairingOffer.publicKey offer))))
  end.

Definition readPairingCode (code : string) : Run (AcceptedPairing.t + string) :=
  (match parseShortCode code with
   | None => mret (inl code)
   | Some typed => redeemShortCode typed
   end) ≫= λ resolved,
  match resolved with
  | inr reason => mret (inr reason)
  | inl link => accept_link link
  end.
End calls.

(** ** The answers of the signaling server (apps/signaling/src/index.ts) *)

Section server.
Context (now : nat → Z) (randomUUID : nat → RoomId) (randomToken : nat → string).
Context (randomInt : nat → nat) (fuel : nat) (isoText : Z → string) (wallClock : Z).

(** What [sendJson] and [sendEmpty] write. *)
Definition response_of (response : Response) : HttpResponse.t :=
  let sendJson status body := HttpResponse.mk status (JSON_stringify (JObj body)) in
  match response with
  | NoContent => HttpResponse.mk 204 EmptyString
  | Health rooms =>
      sendJson 200 [("ok", JBool true); ("service", JStr "passvault-signaling");
                    ("rooms", JNum (NInt (Z.of_nat rooms))); ("now", JStr (isoText wallClock))]
  | RoomCreated roomId inviteToken =>
      sendJson 201 [("roomId", JStr roomId); ("inviteToken", JStr inviteToken)]
  | CodeIssued issued =>
      sendJson 201 [("code", JStr (IssuedShortCode.code issued));
                    ("expiresAt", JStr (isoText (IssuedShortCode.expiresAt issued)))]
  | OfferFound offer => sendJson 200 [("offer", JStr offer)]
  | Failure status error => sendJson status [("error", JStr error)]
  end.

(** A request as the server has it; its body comes in one piece, and no limiter
    refuses it. *)
Definition request_of (request : HttpRequest.t) : Request :=
  let path := HttpRequest.path request in
  if decide (HttpRequest.method request = "GET") then GetRequest path true
  else if decide (HttpRequest.method request = "POST") then
    let content := default EmptyString (HttpRequest.body request) in
    PostRequest path true (Body.mk [Z.of_nat (length (chars content))] content)
  else if decide (HttpRequest.method request = "OPTIONS") then OptionsRequest
  else OtherRequest.

(** A network that has one signaling server, at [host]. *)
Definition server_fetch (host : string) (request : HttpRequest.t) : M Server.t HttpResponse.t :=
  if decide (HttpRequest.base request = httpUrlFor host) then
    on_request now randomUUID randomToken randomInt fuel (request_of request) ≫= λ response,
    match response with
    | Some response => mret (response_of response)
    | None => throw "fetch failed"
    end
  else throw "fetch failed".

Definition server_network (host : string) : Network Server.t := {| fetch := server_fetch host |}.
End server.
