(* ===== verification/CallsProps.v ===== *)
(** * What the calls over HTTP guarantee

    A code that one device makes is read by another; a device goes without a
    code when the server has none to give; and a failure is told, not thrown. *)

From S2P Require Import Prelude Model Bytes JsString Json JsonProps JsMap Effects Codec ShortCode ShortCodeProps.
From S2P Require Import Rooms Signaling SignalingTheory SignalingProps SignalingEdges Store StoreProps BlobStore BlobProps Engine EngineProps.
From S2P Require Import Identity IdentityProps Settings VaultFile VaultFileProps Hub Services Desk Offer Calls.
From Stdlib Require String Ascii.

Open Scope Z_scope.

(** ** Bodies *)

Lemma response_json_object status members : safe (JObj members) →
  response_json (HttpResponse.mk status (JSON_stringify (JObj members))) = Ok (JObj members).
Proof. intros Hs. unfold response_json. simpl. by rewrite JSON_parse_stringify. Qed.

Lemma safe_texts (members : list (string * string)) :
  safe (JObj ((λ kv, (kv.1, JStr kv.2)) <$> members)).
Proof. apply safe_obj, Forall_fmap, Forall_true. by intros [k v]. Qed.

(** ** Codes in a path *)

Lemma alphabet_safe :
  Forall (λ z, uri_safe z = true ∧ z ≠ 37) (charCode <$> chars SHORT_CODE_ALPHABET).
Proof. refine (bool_decide_eq_true_1 _ _). vm_compute. reflexivity. Qed.

Lemma code_char_safe z : code_char z → uri_safe z = true ∧ z ≠ 37.
Proof. intros Hz%alphabet_spec. exact (proj1 (Forall_forall _ _) alphabet_safe z Hz). Qed.

Lemma code_uri_safe c : code_char (charCode c) → uri_char c = [c].
Proof. intros [Hc _]%code_char_safe. unfold uri_char. by rewrite Hc. Qed.

Lemma chars_of_code cs : is_code cs → charCode <$> chars (of_points cs) = cs.
Proof. intros Hc. apply of_points_ascii, code_ascii, Hc. Qed.

Lemma code_chars cs : is_code cs → Forall (λ c, code_char (charCode c)) (chars (of_points cs)).
Proof.
  intros Hc. pose proof (chars_of_code cs Hc) as Heq. destruct Hc as [_ Hcs].
  rewrite <- Heq in Hcs. exact (proj1 (Forall_fmap charCode code_char _) Hcs).
Qed.

Lemma encode_code cs : is_code cs → encodeURIComponent (of_points cs) = of_points cs.
Proof.
  intros Hc. unfold encodeURIComponent. rewrite <- (of_chars_chars (of_points cs)) at 2. f_equal.
  pose proof (code_chars cs Hc) as Hall. induction Hall as [|c l Hl _ IH]; [done|].
  csimpl. by rewrite code_uri_safe, IH.
Qed.

Lemma decode_code cs : is_code cs → decodeURIComponent (of_points cs) = Ok (of_points cs).
Proof.
  intros Hc. unfold decodeURIComponent.
  assert (decode_uri (length (chars (of_points cs))) (chars (of_points cs))
    = Some (chars (of_points cs))) as ->; [|by rewrite of_chars_chars].
  pose proof (code_chars cs Hc) as Hall. induction Hall as [|c l Hl _ IH]; [done|].
  csimpl. unfold is_char. rewrite (proj2 (Z.eqb_neq (charCode c) 37)).
  - by rewrite IH.
  - by apply code_char_safe.
Qed.

Lemma code_path cs : is_code cs →
  bool_decide (chars pairing_codes `prefix_of` chars ("/pairing-codes/" +:+ of_points cs)) = true ∧
  slice_from ("/pairing-codes/" +:+ of_points cs) (str_length pairing_codes) = of_points cs.
Proof.
  intros Hc. split.
  - apply bool_decide_eq_true. rewrite chars_app. by eexists.
  - pose proof (code_ascii cs Hc) as Hcs.
    assert (is_ascii ("/pairing-codes/" +:+ of_points cs)) as Ha.
    { unfold is_ascii. rewrite chars_app. apply Forall_app. split.
      - unfold ascii_code. refine (bool_decide_eq_true_1 _ _). vm_compute. reflexivity.
      - by apply is_ascii_of_points. }
    unfold slice_from. rewrite to_units_ascii, chars_app, fmap_app, chars_of_code by done.
    change (Z.to_nat (str_length pairing_codes)) with (length (charCode <$> chars "/pairing-codes/")).
    rewrite drop_app_length. by apply of_units_ascii.
Qed.

Lemma typed_self cs : is_code cs → typed cs cs.
Proof. intros [_ Hcs]. induction Hcs; constructor; try done. constructor. Qed.

(** ** The server *)

Section server.
Context (now : nat → Z) (randomUUID : nat → RoomId) (randomToken : nat → string).
Context (randomInt : nat → nat) (fuel : nat) (isoText : Z → string) (wallClock : Z) (host : string).
Abbreviation fetches := (server_fetch now randomUUID randomToken randomInt fuel isoText wallClock host).
Abbreviation handles := (on_request now randomUUID randomToken randomInt fuel).
Abbreviation answer := (response_of isoText wallClock).
Abbreviation creates := (RoomRegistry.createRoom now randomUUID randomToken).
Abbreviation issues := (ShortCodeRegistry.issue now randomInt fuel).
Abbreviation redeems := (ShortCodeRegistry.redeem now).

(** What an answer of the server was. *)
Lemma fetch_ok request response s s' :
  fetches request s = (Ok response, s') →
  HttpRequest.base request = httpUrlFor host ∧
  ∃ r, handles (request_of request) s = (Ok (Some r), s') ∧ response = answer r.
Proof.
  unfold server_fetch. case_decide; [|done]. intros ([r|]&s1&Hr&Hk)%bind_ok; [|done].
  injection Hk as <- <-. split; [done|]. by exists r.
Qed.

Lemma refused status error :
  HttpResponse.ok (answer (Failure status error)) = (200 <=? status) && (status <=? 299).
Proof. done. Qed.

Lemma create_answered base response s s' :
  fetches (HttpRequest.mk "POST" base "/rooms" None) s = (Ok response, s') →
  HttpResponse.ok response = true →
  base = httpUrlFor host ∧ ∃ R token, response = answer (RoomCreated R token) ∧
    creates (Server.registry s) = (Ok (R, token), Server.registry s') ∧
    Server.shortCodes s' = Server.shortCodes s.
Proof.
  intros (Hbase&r&Hr&->)%fetch_ok Hok. split; [done|]. unfold request_of in Hr. simpl in Hr.
  unfold catching, on, mbind, M_bind in Hr.
  destruct (RoomRegistry.createRoom _ _ _ _) as [[[R token]|e] reg] eqn:Hc; simpl in Hr; injection Hr as <- <-.
  - exists R, token. by destruct s.
  - done.
Qed.

Lemma offer_in_body link : offer_of (JSON_parse (JSON_stringify (JObj [("offer", JStr link)]))) = Some link.
Proof. rewrite JSON_parse_stringify by done. done. Qed.

Lemma issue_answered base link response s s' :
  fetches (HttpRequest.mk "POST" base "/pairing-codes"
    (Some (JSON_stringify (JObj [("offer", JStr link)])))) s = (Ok response, s') →
  HttpResponse.ok response = true →
  ∃ issued, response = answer (CodeIssued issued) ∧
    issues link (Server.shortCodes s) = (Ok (Some issued), Server.shortCodes s') ∧
    Server.registry s' = Server.registry s.
Proof.
  intros (_&r&Hr&->)%fetch_ok Hok. revert Hr. unfold request_of.
  cbn [HttpRequest.method HttpRequest.path HttpRequest.body default from_option].
  rewrite decide_False, decide_True by done. set (body := JSON_stringify _).
  change (id body) with body.
  change (handles (PostRequest "/pairing-codes" true (Body.mk [Z.of_nat (length (chars body))] body)) s)
    with (match offer_of (readJsonBody (Body.mk [Z.of_nat (length (chars body))] body)) with
          | None => mret (Some (Failure 400 "expected an offer string"))
          | Some offer =>
              catching (on (S := Server.t) (T := ShortCodeRegistry.t) (issues offer)
                          ≫= λ issued, mret (CodeIssued <$> issued))
                (λ e, mret (Some (Failure 503 e)))
          end s).
  unfold readJsonBody. cbn [Body.chunks Body.content].
  destruct (body_fits _ _); [|by intros [= <- <-]]. unfold body. rewrite offer_in_body.
  unfold catching, on, mbind, M_bind.
  destruct (ShortCodeRegistry.issue _ _ _ _ _) as [[[issued|]|e] codes] eqn:Hi; simpl;
    [|done|by intros [= <- <-]].
  intros [= <- <-]. exists issued. by destruct s.
Qed.

Lemma redeem_answered cs link s codes : is_code cs →
  redeems (of_points cs) (Server.shortCodes s) = (Ok (Some link), codes) →
  fetches (HttpRequest.mk "GET" (httpUrlFor host)
    ("/pairing-codes/" +:+ encodeURIComponent (of_points cs)) None) s
  = (Ok (answer (OfferFound link)), Server.set_shortCodes codes s).
Proof.
  intros Hc Hr. rewrite encode_code by done. destruct (code_path cs Hc) as [Hprefix Hslice].
  unfold server_fetch. rewrite decide_True by done.
  rewrite (bind_eq _ _ _ (Some (OfferFound link)) (Server.set_shortCodes codes s)); [done|].
  unfold request_of. cbn [HttpRequest.method HttpRequest.path]. rewrite decide_True by done.
  unfold on_request. rewrite decide_False by done. rewrite Hprefix. cbn [negb].
  rewrite Hslice, decode_code by done. unfold mbind, M_bind, lift, on. cbn [fst snd part Server.codes_part].
  by rewrite Hr.
Qed.
End server.

(** When a code that was issued expires. *)
Lemma issued_until now randomInt n offer r issued r' :
  ShortCodeRegistry.issue now randomInt n offer r = (Ok (Some issued), r') →
  ∃ i, (ShortCodeRegistry.reads r <= i <= ShortCodeRegistry.reads r')%nat ∧
    IssuedShortCode.expiresAt issued = now i + TTL_MS.
Proof.
  assert (∀ n r c r', ShortCodeRegistry.free_code randomInt n r = (Ok c, r') →
    ShortCodeRegistry.reads r' = ShortCodeRegistry.reads r) as Hfree.
  { clear. intros n. induction n as [|n IH]; intros r c r'; [by intros [= _ <-]|]. simpl.
    unfold ShortCodeRegistry.generate, mbind, M_bind, gets. cbn [fst snd].
    case_decide; [by intros ->%IH|]. by intros [= _ <-]. }
  unfold ShortCodeRegistry.issue. case_decide; [done|].
  unfold ShortCodeRegistry.sweep, ShortCodeRegistry.read_clock, mbind, M_bind, gets, modify.
  cbn [fst snd]. case_decide; [done|].
  destruct (ShortCodeRegistry.free_code _ _ _) as [[[c|]|e] s1] eqn:Hf; [|done..].
  apply Hfree in Hf. simpl in Hf. intros [= <- <-]. simpl.
  exists (ShortCodeRegistry.reads s1). split; [rewrite Hf; lia|done].
Qed.

Section pairing.
Context `{WebUrl, RowOrder, Digest} {B : Type} `{!BlobStore B} {F : Type} `{!VaultFileAccess F}.
Context {N : Type} `{!Network N}.
Abbreviation State := (Services.t B F * N)%type.

Lemma on_services_ok {A} (m : M (Services.t B F) A) (s s' : State) a :
  on_services m s = (Ok a, s') ↔ m s.1 = (Ok a, s'.1) ∧ s'.2 = s.2.
Proof.
  unfold on_services. destruct s as [s n], s' as [s' n']. simpl. destruct (m s) as [r t].
  split; [by intros [= -> -> ->]|]. by intros [[= -> ->] ->].
Qed.

Lemma on_services_run {A} (m : M (Services.t B F) A) s n a s' :
  m s = (Ok a, s') → on_services m ((s, n) : State) = (Ok a, (s', n)).
Proof. intros Hm. by apply on_services_ok. Qed.

Lemma on_network_ok {A} (m : M N A) (s s' : State) a :
  on_network m s = (Ok a, s') ↔ m s.2 = (Ok a, s'.2) ∧ s'.1 = s.1.
Proof.
  unfold on_network. destruct s as [s n], s' as [s' n']. simpl. destruct (m n) as [r t].
  split; [by intros [= -> -> ->]|]. by intros [[= -> ->] ->].
Qed.

Lemma on_network_run {A} (m : M N A) s n a n' :
  m n = (Ok a, n') → on_network m ((s, n) : State) = (Ok a, (s, n')).
Proof. intros Hm. by apply on_network_ok. Qed.

Lemma trying_some {A} (m : M State (option A)) s a s' :
  trying m (mret None) s = (Ok (Some a), s') → m s = (Ok (Some a), s').
Proof. unfold trying. destruct (m s) as [[r|e] t]; [done|]. by intros [=]. Qed.

(** Both devices remember where to meet. *)
Lemma pairing_begins_run clock where_ (s : Services.t B F) :
  ∃ s', pairing_begins clock where_ s = (Ok tt, s') ∧ Services.pendingRendezvous s' = Some where_.
Proof. eexists. split; [reflexivity|done]. Qed.

Lemma log_keeps clock localeTime message (s : Services.t B F) :
  ∃ s', log clock localeTime message s = (Ok tt, s') ∧
    Services.pendingRendezvous s' = Services.pendingRendezvous s.
Proof. eexists. split; [reflexivity|done]. Qed.

Lemma settings_keep defaultHost (s : Services.t B F) :
  Services.pendingRendezvous (connectionSettings defaultHost s).2 = Services.pendingRendezvous s.
Proof.
  unfold connectionSettings, settings_call, database, metadata, on, mbind, M_bind, gets, modify, lift.
  cbn. by destruct (SettingsStore.get defaultHost _) as [[r|e] store].
Qed.

Lemma backend_keeps defaultHost (s : Services.t B F) :
  Services.pendingRendezvous (backendUrl defaultHost s).2 = Services.pendingRendezvous s.
Proof.
  rewrite <- (settings_keep defaultHost s). unfold backendUrl, mbind, M_bind.
  by destruct (connectionSettings defaultHost s) as [[r|e] t].
Qed.
End pairing.

(** ** A code from one device to another *)

Section code.
Context `{WebUrl, RowOrder, Digest} {B : Type} `{!BlobStore B} {F : Type} `{!VaultFileAccess F}.
Context (now : nat → Z) (randomUUID : nat → RoomId) (randomToken : nat → string).
Context (randomInt : nat → nat) (fuel : nat) (isoText : Z → string) (wallClock : Z) (host : string).
#[local] Instance wire : Network Server.t :=
  server_network now randomUUID randomToken randomInt fuel isoText wallClock host.
Abbreviation answer := (response_of isoText wallClock).

(** A short code comes of an entry that the server made. *)
Lemma short_code_issued defaultHost link (s s' : Services.t B F * Server.t) short :
  issueShortCode defaultHost link s = (Ok (Some short), s') →
  ∃ issued, ShortCodes.shortCode short = IssuedShortCode.code issued ∧
    ShortCodeRegistry.issue now randomInt fuel link (Server.shortCodes s.2)
      = (Ok (Some issued), Server.shortCodes s'.2) ∧
    Server.registry s'.2 = Server.registry s.2 ∧
    Services.pendingRendezvous s'.1 = Services.pendingRendezvous s.1.
Proof.
  unfold issueShortCode. intros Hs%trying_some. revert Hs.
  intros (base&s1&[Hbase Hs1]%on_services_ok&(response&s2&[Hpost Hs2]%on_network_ok&Hk)%bind_ok)%bind_ok.
  assert (Services.pendingRendezvous s1.1 = Services.pendingRendezvous s.1) as Hkeep.
  { pose proof (backend_keeps defaultHost s.1) as Hb. by rewrite Hbase in Hb. }
  destruct (HttpResponse.ok response) eqn:Hok; [|done].
  apply issue_answered in Hpost as (issued&->&Hissue&Hreg); [|done].
  exists issued. cbn [negb] in Hk.
  assert (response_json (answer (CodeIssued issued)) = Ok (JObj [("code", JStr (IssuedShortCode.code issued));
    ("expiresAt", JStr (isoText (IssuedShortCode.expiresAt issued)))])) as Hjson.
  { apply response_json_object, (safe_texts [("code", IssuedShortCode.code issued);
      ("expiresAt", isoText (IssuedShortCode.expiresAt issued))]). }
  rewrite Hjson in Hk. rewrite (bind_eq (lift _) _ _ _ _ eq_refl) in Hk.
  set (body := JObj _) in Hk. change (property "code" body) with (Ok (Some (JStr (IssuedShortCode.code issued)))) in Hk.
  change (property "expiresAt" body) with (Ok (Some (JStr (isoText (IssuedShortCode.expiresAt issued))))) in Hk.
  rewrite (bind_eq (lift _) _ _ _ _ eq_refl) in Hk. cbv beta match in Hk.
  apply bind_ok in Hk as (h&s3&Hh&Hk). rewrite (bind_eq (lift _) _ _ _ _ eq_refl) in Hk.
  injection Hk as <- <-. unfold serverHost in Hh.
  apply bind_ok in Hh as (settings&s4&[Hset Hs4]%on_services_ok&[= <- ->]).
  rewrite Hs1 in *. rewrite Hs4. split; [done|]. split; [done|]. split; [done|].
  pose proof (settings_keep defaultHost s2.1) as Hk2. rewrite Hset in Hk2. simpl in Hk2. congruence.
Qed.

Lemma code_made clock localeTime keyPair deviceName defaultHost s srv code s' srv' short :
  createPairingCode clock localeTime keyPair deviceName defaultHost ((s, srv) : Services.t B F * Server.t)
    = (Ok code, (s', srv')) →
  PairingCode.short code = Some short →
  let where_ := PairingCode.where_ code in
  let offer := PairingOffer.mk PAIRING_VERSION (DeviceKeyPair.deviceId keyPair)
    (DeviceKeyPair.publicKey keyPair) deviceName (Rendezvous.roomId where_)
    (Rendezvous.inviteToken where_) (Rendezvous.signalUrl where_) in
  ∃ issued srv1,
    PairingCode.code code = encodePairingOffer offer ∧
    RoomRegistry.createRoom now randomUUID randomToken (Server.registry srv)
      = (Ok (Rendezvous.roomId where_, Rendezvous.inviteToken where_), Server.registry srv') ∧
    Server.shortCodes srv1 = Server.shortCodes srv ∧
    ShortCodeRegistry.issue now randomInt fuel (encodePairingOffer offer) (Server.shortCodes srv1)
      = (Ok (Some issued), Server.shortCodes srv') ∧
    ShortCodes.shortCode short = IssuedShortCode.code issued ∧
    Services.pendingRendezvous s' = Some where_.
Proof.
  intros (base&s1&[Hbase Hs1]%on_services_ok&(response&s2&[Hpost Hs2]%on_network_ok&Hk)%bind_ok)%bind_ok Hshort.
  destruct (HttpResponse.ok response) eqn:Hok; [|done]. cbn [negb] in Hk.
  apply create_answered in Hpost as (_&R&token&->&Hroom&Hcodes); [|done].
  assert (response_json (answer (RoomCreated R token)) = Ok (JObj [("roomId", JStr R);
    ("inviteToken", JStr token)])) as Hjson.
  { apply response_json_object, (safe_texts [("roomId", R); ("inviteToken", token)]). }
  rewrite Hjson in Hk. rewrite (bind_eq (lift _) _ _ _ _ eq_refl) in Hk.
  change (room_of (JObj [("roomId", JStr R); ("inviteToken", JStr token)])) with (Ok (R, token)) in Hk.
  rewrite (bind_eq (lift _) _ _ _ _ eq_refl) in Hk. cbv beta match in Hk.
  apply bind_ok in Hk as (signal&s3&[Hsignal Hs3]%on_services_ok&Hk). cbv zeta in Hk.
  apply bind_ok in Hk as ([]&s4&[Hbegins Hs4]%on_services_ok&Hk).
  apply bind_ok in Hk as (short'&s5&Hissue&Hk).
  apply bind_ok in Hk as ([]&s6&[Hlog Hs6]%on_services_ok&Hk).
  unfold serverHost in Hk. apply bind_ok in Hk as (h&s7&Hh&[= <- ->]).
  apply bind_ok in Hh as (settings&s8&[Hset Hs8]%on_services_ok&[= <- ->]).
  simpl in Hshort. subst short'.
  apply short_code_issued in Hissue as (issued&Hcode&Hissue&Hreg&Hpending).
  exists issued, s4.2. simpl in *.
  pose proof (pairing_begins_run clock (Rendezvous.mk signal R token) s3.1) as (t&Ht&Hwhere).
  rewrite Hbegins in Ht. injection Ht as Ht.
  pose proof (log_keeps clock localeTime ("Ready to connect. Type " +:+ ShortCodes.shortCode short
    +:+ " on your other device.") s5.1) as (t'&Ht'&Hkeep).
  rewrite Hlog in Ht'. injection Ht' as Ht'.
  pose proof (settings_keep defaultHost s6.1) as Hkeep2. rewrite Hset in Hkeep2. simpl in Hkeep2.
  split_and!; try congruence.
Qed.

Lemma offer_answered link :
  response_json (answer (OfferFound link)) = Ok (JObj [("offer", JStr link)]).
Proof. apply response_json_object, (safe_texts [("offer", link)]). Qed.

(** Reading a code whose entry is there. *)
Lemma code_resolved cs named defaultHost settings (s s1 : Services.t B F) srv codes link :
  is_code cs →
  ShortCodeRegistry.redeem now (of_points cs) (Server.shortCodes srv) = (Ok (Some link), codes) →
  connectionSettings defaultHost s = (Ok settings, s1) →
  default (ConnectionSettings.serverHost settings) named = host →
  redeemShortCode defaultHost (ParsedShortCode.mk (of_points cs) named) (s, srv)
  = (Ok (inl link), (s1, Server.set_shortCodes codes srv)).
Proof.
  intros Hcs Hredeem Hset Hhost. unfold redeemShortCode.
  rewrite (bind_eq (serverHost defaultHost) _ _ (ConnectionSettings.serverHost settings) (s1, srv)).
  - cbn [ParsedShortCode.host]. cbv zeta. rewrite Hhost. unfold trying.
    assert (ask_code (ParsedShortCode.mk (of_points cs) named) (ConnectionSettings.serverHost settings)
      host (s1, srv) = (Ok (inl link), (s1, Server.set_shortCodes codes srv))) as ->; [|done].
    unfold ask_code. rewrite (bind_eq _ _ _ (answer (OfferFound link)) (s1, Server.set_shortCodes codes srv)).
    2: { apply on_network_ok. split; [|done]. exact (redeem_answered now randomUUID randomToken randomInt
      fuel isoText wallClock host cs link srv codes Hcs Hredeem). }
    change (HttpResponse.status (answer (OfferFound link)) =? 404) with false.
    change (HttpResponse.ok (answer (OfferFound link))) with true. cbn [negb].
    rewrite offer_answered. done.
  - unfold serverHost. erewrite bind_eq by by apply on_services_run. done.
Qed.

(** C13: a code that one device makes leads the other to it.  A device asks the
    server for a room and a code; on another device somebody types the code, in
    any way that reads as that code, naming the server or not, less than ten
    minutes later and with the entry still there.  Then the other device has the
    room, the token and the server of the first one, its name and its key, and
    both show the same six digits; both remember the same meeting place, the room
    is there, and nobody redeems the code again. *)
Theorem typed_code_pairs
    (utf8_spec : ∀ s, utf8_text (charCode <$> chars (usv s)) = usv s)
    (url_spec : ∀ query, Forall (λ c, form_code (charCode c)) (chars query) →
      url_parts (PAIRING_SCHEME +:+ "://pair?" +:+ query) = Some (PAIRING_SCHEME +:+ ":", query))
    (Hrandom : ∀ k, (randomInt k < 32)%nat)
    (clockA : nat → Date) localeTime keyA nameA defaultA (clockB : nat → Date) keyB defaultB
    (sA : Services.t B F) srv code sA' srv' short
    (Hmade : createPairingCode clockA localeTime keyA nameA defaultA (sA, srv) = (Ok code, (sA', srv')))
    (Hshort : PairingCode.short code = Some short)
    (Hkey : length (DeviceKeyPair.publicKey keyA) = 32%nat) (Hname : scalar_text nameA)
    (Hroom : scalar_text (Rendezvous.roomId (PairingCode.where_ code)))
    (Htoken : scalar_text (Rendezvous.inviteToken (PairingCode.where_ code)))
    (Hsignal : scalar_text (Rendezvous.signalUrl (PairingCode.where_ code)))
    raw named settings (sB sB1 : Services.t B F) srv2
    (Htyped : parseShortCode raw
      = Some (ParsedShortCode.mk (normalizeShortCode (ShortCodes.shortCode short)) named))
    (Hset : connectionSettings defaultB sB = (Ok settings, sB1))
    (Hhost : default (ConnectionSettings.serverHost settings) named = host)
    (Hkept : ShortCodeRegistry.entries (Server.shortCodes srv2)
        !! normalizeShortCode (ShortCodes.shortCode short)
      = ShortCodeRegistry.entries (Server.shortCodes srv')
        !! normalizeShortCode (ShortCodes.shortCode short))
    (Hsoon : ∀ i, (ShortCodeRegistry.reads (Server.shortCodes srv) <= i
                   <= ShortCodeRegistry.reads (Server.shortCodes srv'))%nat →
      now (ShortCodeRegistry.reads (Server.shortCodes srv2)) < now i + TTL_MS) :
  let where_ := PairingCode.where_ code in
  ∃ accepted sB' srv3,
    readPairingCode clockB keyB defaultB raw (sB, srv2) = (Ok (inl accepted), (sB', srv3)) ∧
    AcceptedPairing.where_ accepted = where_ ∧
    AcceptedPairing.peerName accepted = nameA ∧
    AcceptedPairing.peerPublicKeyBase64 accepted = toBase64 (DeviceKeyPair.publicKey keyA) ∧
    AcceptedPairing.shortAuthenticationString accepted = sasFor keyA (DeviceKeyPair.publicKey keyB) ∧
    Services.pendingRendezvous sA' = Some where_ ∧ Services.pendingRendezvous sB' = Some where_ ∧
    (∃ at_, RoomRegistry.rooms (Server.registry srv') !! Rendezvous.roomId where_
      = Some (Room.mk (Rendezvous.roomId where_) (Rendezvous.inviteToken where_) [] at_)) ∧
    (ShortCodeRegistry.redeem now (ShortCodes.shortCode short) (Server.shortCodes srv3)).1 = Ok None.
Proof.
  intros where_. pose proof (code_made _ _ _ _ _ _ _ _ _ _ _ Hmade Hshort) as Hcode.
  cbv zeta in Hcode. fold where_ in Hcode.
  destruct Hcode as (issued&srv1&_&Hcreate&Hcodes1&Hissue&Hcode&HpendingA).
  set (offer := PairingOffer.mk _ _ _ _ _ _ _) in Hissue.
  destruct (issued_until _ _ _ _ _ _ _ Hissue) as (i&Hi&Huntil). rewrite Hcodes1 in Hi.
  destruct (code_redeemed_once _ _ _ _ _ _ _ Hrandom Hissue) as (cs&Hcs&_&Hdashed&Hcode'&Hredeem).
  assert (normalizeShortCode (ShortCodes.shortCode short) = of_points cs) as Hnorm.
  { rewrite Hcode, Hcode'. by apply typed_normalize. }
  rewrite Hnorm in Htyped, Hkept.
  destruct (Hredeem _ cs Hkept (typed_self cs Hcs)) as [Hin _].
  destruct (Hin ltac:(rewrite Huntil; by apply Hsoon)) as (codes&Hfound&Honce).
  pose proof (code_resolved cs named defaultB settings sB sB1 srv2 codes _ Hcs Hfound Hset Hhost) as Hlink.
  pose proof (decode_encoded utf8_spec url_spec offer _ (trim_encoded offer) Hkey) as Hdecode.
  simpl in Hdecode. rewrite !usv_scalar in Hdecode by done.
  destruct (pairing_begins_run clockB where_ sB1) as (sB'&Hbegins&HpendingB).
  exists (AcceptedPairing.mk where_ nameA (toBase64 (DeviceKeyPair.publicKey keyA))
    (sasFor keyB (DeviceKeyPair.publicKey keyA))), sB', (Server.set_shortCodes codes srv2).
  split_and!; try done.
  - unfold readPairingCode. rewrite Htyped, (bind_eq _ _ _ _ _ Hlink). cbv beta match.
    unfold accept_link. rewrite Hdecode. cbv beta match zeta. simpl. fold where_.
    replace (Rendezvous.mk _ _ _) with where_ by (by destruct where_).
    by rewrite (bind_eq _ _ _ _ _ (on_services_run _ _ (Server.set_shortCodes codes srv2) _ _ Hbegins)).
  - apply sas_symmetric.
  - pose proof (createRoom_cases now randomUUID randomToken (Server.registry srv)) as Hc.
    rewrite Hcreate in Hc. destruct Hc as (_&_&at_&Hrooms). exists at_. by rewrite Hrooms, lookup_insert_eq.
  - simpl. rewrite Hcode, Hcode'. by apply Honce.
Qed.
End code.

(** ** Without a code, and without an answer *)

Section failing.
Context `{WebUrl, RowOrder, Digest} {B : Type} `{!BlobStore B} {F : Type} `{!VaultFileAccess F}.
Context {N : Type} `{!Network N}.
Implicit Types (s : Services.t B F) (n : N).

Lemma settings_cached defaultHost s settings s' :
  connectionSettings defaultHost s = (Ok settings, s') → Services.cachedSettings s' = Some settings.
Proof.
  unfold connectionSettings, settings_call, database, metadata, on, mbind, M_bind, gets, modify, lift.
  cbn. destruct (SettingsStore.get defaultHost _) as [[r|e] store] eqn:Hget; [|done].
  intros [= -> <-]. cbn. revert Hget. unfold SettingsStore.get, mbind, M_bind, gets, modify, lift. cbn.
  destruct (Services.cachedSettings _) as [c|]; cbn; [by intros [= -> <-]|].
  destruct (SettingsStore.stored _) as [members|e]; cbn; [|done]. by intros [= -> <-].
Qed.

Lemma settings_from_cache defaultHost s settings :
  Services.cachedSettings s = Some settings → connectionSettings defaultHost s = (Ok settings, s).
Proof.
  intros Hc.
  unfold connectionSettings, settings_call, database, metadata, on, mbind, M_bind, gets, modify, lift.
  cbn. destruct s as [[[db ? ? ?] blobs ticks] files cached]. simpl in *. subst. cbn. by destruct db.
Qed.

(** What one device does before another calls. *)
Lemma begins_keeps_settings clock where_ s :
  Services.cachedSettings (pairing_begins clock where_ s).2 = Services.cachedSettings s.
Proof. done. Qed.

Lemma log_keeps_settings clock localeTime message s :
  Services.cachedSettings (log clock localeTime message s).2 = Services.cachedSettings s.
Proof. done. Qed.

Lemma server_host_cached defaultHost s n settings :
  Services.cachedSettings s = Some settings →
  serverHost (N := N) defaultHost (s, n) = (Ok (ConnectionSettings.serverHost settings), (s, n)).
Proof.
  intros Hc. unfold serverHost. erewrite bind_eq; [done|].
  by apply on_services_run, settings_from_cache.
Qed.

Lemma backend_cached defaultHost s n settings :
  Services.cachedSettings s = Some settings →
  backend (N := N) defaultHost (s, n) = (Ok (httpUrlFor (ConnectionSettings.serverHost settings)), (s, n)).
Proof.
  intros Hc. apply on_services_run. unfold backendUrl. by rewrite (bind_eq _ _ _ _ _ (settings_from_cache _ _ _ Hc)).
Qed.

(** Asking for a code always ends, and the services stay as they were. *)
Lemma issue_harmless defaultHost link s n settings :
  Services.cachedSettings s = Some settings →
  ∃ short n', issueShortCode defaultHost link (s, n) = (Ok short, (s, n')).
Proof.
  intros Hc. unfold issueShortCode, trying.
  rewrite (bind_eq _ _ _ _ _ (backend_cached defaultHost s n settings Hc)).
  unfold post, on_network, mbind at 1, M_bind at 1. cbn [fst snd].
  destruct (fetch _ n) as [[response|e] n']; [|by exists None, n'].
  destruct (HttpResponse.ok response); cbn [negb]; [|by exists None, n'].
  unfold lift, mbind, M_bind. destruct (response_json response) as [issued|e]; [|by exists None, n'].
  destruct (property "code" issued) as [[[| | |code| |]|]|e]; try (by exists None, n').
  rewrite (server_host_cached defaultHost s n' settings Hc).
  destruct (property "expiresAt" issued) as [expiresAt|e]; [by eexists _, n'|by exists None, n'].
Qed.

(** Looking a code up always ends. *)
Lemma redeem_ends defaultHost typed s settings s1 n :
  connectionSettings defaultHost s = (Ok settings, s1) →
  ∃ resolved n', redeemShortCode defaultHost typed (s, n) = (Ok resolved, (s1, n')).
Proof.
  intros Hset. unfold redeemShortCode. erewrite bind_eq.
  2: { unfold serverHost. rewrite (bind_eq _ _ _ _ _ (on_services_run _ _ n _ _ Hset)). reflexivity. }
  cbv zeta. unfold trying, ask_code, get, on_network, mbind at 1, M_bind at 1. cbn [fst snd].
  destruct (fetch _ n) as [[response|e] n']; [|by eexists _, n'].
  destruct (HttpResponse.status response =? 404); [by eexists _, n'|].
  destruct (HttpResponse.ok response); cbn [negb]; [|by eexists _, n'].
  unfold lift, mbind, M_bind. destruct (response_json response) as [body|e]; [|by eexists _, n'].
  destruct (property "offer" body) as [[[]|]|e]; by eexists _, n'.
Qed.

Lemma decoded_key link offer : decodePairingOffer link = inl offer →
  length (PairingOffer.publicKey offer) = 32%nat.
Proof. by intros (_&?&_)%decoded_offer. Qed.

Lemma accept_told clock keyPair link s n :
  ∃ outcome s', accept_link clock keyPair link (s, n) = (Ok outcome, (s', n)) ∧
    match outcome with
    | inr _ => s' = s
    | inl accepted => Services.pendingRendezvous s' = Some (AcceptedPairing.where_ accepted) ∧
        ∃ key, length key = 32%nat ∧ AcceptedPairing.peerPublicKeyBase64 accepted = toBase64 key ∧
          AcceptedPairing.shortAuthenticationString accepted = sasFor keyPair key
    end.
Proof.
  unfold accept_link. destruct (decodePairingOffer link) as [offer|reason] eqn:Ho; [|by eexists _, _].
  cbv zeta. set (where_ := Rendezvous.mk _ _ _).
  destruct (pairing_begins_run clock where_ s) as (s'&Hbegins&Hwhere). eexists _, s'. split.
  - by rewrite (bind_eq _ _ _ _ _ (on_services_run _ _ n _ _ Hbegins)).
  - simpl. split; [done|]. exists (PairingOffer.publicKey offer). split; [|done].
    by eapply decoded_key.
Qed.

(** A server that gives rooms and no codes is enough.  When the settings can
    be read and the server answers with a room, a pairing code is made, whatever
    the server answers when it is asked for eight characters, and if it does not
    answer at all: the link has the room and this device's key, and the device
    remembers where it will be met. *)
Theorem link_without_code clock localeTime keyPair deviceName defaultHost s settings s1 n n1
    (response : HttpResponse.t) (roomId inviteToken : string)
    (Hset : connectionSettings defaultHost s = (Ok settings, s1))
    (Hfetch : fetch (HttpRequest.mk "POST" (httpUrlFor (ConnectionSettings.serverHost settings)) "/rooms" None) n
      = (Ok response, n1))
    (Hok : HttpResponse.ok response = true)
    (Hroom : (response_json response ≫= room_of) = Ok (roomId, inviteToken)) :
  let signal := signalUrlFor (ConnectionSettings.serverHost settings) in
  let where_ := Rendezvous.mk signal roomId inviteToken in
  ∃ short s' n', createPairingCode clock localeTime keyPair deviceName defaultHost (s, n)
    = (Ok (PairingCode.mk
             (encodePairingOffer (PairingOffer.mk PAIRING_VERSION (DeviceKeyPair.deviceId keyPair)
               (DeviceKeyPair.publicKey keyPair) deviceName roomId inviteToken signal))
             short (ConnectionSettings.serverHost settings) where_), (s', n')) ∧
    Services.pendingRendezvous s' = Some where_.
Proof.
  intros signal where_. pose proof (settings_cached _ _ _ _ Hset) as Hc.
  apply result_bind_ok in Hroom as (body & Hjson & Hroom).
  unfold createPairingCode. erewrite bind_eq.
  2: { apply on_services_run. unfold backendUrl. rewrite (bind_eq _ _ _ _ _ Hset). reflexivity. }
  rewrite (bind_eq _ _ _ _ _ (on_network_run _ s1 n _ n1 Hfetch)).
  rewrite Hok. cbn [negb]. rewrite Hjson, (bind_eq (lift _) _ _ _ _ eq_refl).
  rewrite Hroom, (bind_eq (lift _) _ _ _ _ eq_refl). cbv beta match.
  erewrite bind_eq.
  2: { apply on_services_run. unfold signalUrl. rewrite (bind_eq _ _ _ _ _ (settings_from_cache _ _ _ Hc)).
       reflexivity. }
  cbv zeta. fold signal where_.
  destruct (pairing_begins_run clock where_ s1) as (s2&Hbegins&Hwhere).
  pose proof (begins_keeps_settings clock where_ s1) as Hc2. rewrite Hbegins in Hc2. simpl in Hc2.
  rewrite Hc in Hc2. rewrite (bind_eq _ _ _ _ _ (on_services_run _ _ n1 _ _ Hbegins)).
  set (link := encodePairingOffer _).
  destruct (issue_harmless defaultHost link s2 n1 settings Hc2) as (short&n2&Hissue).
  rewrite (bind_eq _ _ _ _ _ Hissue).
  destruct (log_keeps clock localeTime (ready_message short) s2) as (s3&Hlog&Hkeep).
  pose proof (log_keeps_settings clock localeTime (ready_message short) s2) as Hc3. rewrite Hlog in Hc3.
  simpl in Hc3. rewrite Hc2 in Hc3. rewrite (bind_eq _ _ _ _ _ (on_services_run _ _ n2 _ _ Hlog)).
  rewrite (bind_eq _ _ _ _ _ (server_host_cached defaultHost s3 n2 settings Hc3)).
  exists short, s3, n2. split; [done|]. congruence.
Qed.

(** Reading a code never throws, and what is wrong is told.  When the
    settings can be read, whatever the text and whatever the network does, reading
    it ends with a place to meet or with a reason.  With a reason, nothing of the
    services changes but the settings they have read; with a place, that place is
    remembered and the offer is of the device of its key.  A text that is no short
    code is not sent to anybody. *)
Theorem reading_told clock keyPair defaultHost raw s settings s1 n
    (Hset : connectionSettings defaultHost s = (Ok settings, s1)) :
  ∃ outcome s' n', readPairingCode clock keyPair defaultHost raw (s, n) = (Ok outcome, (s', n')) ∧
    match outcome with
    | inr reason => s' = s ∨ s' = s1
    | inl accepted => Services.pendingRendezvous s' = Some (AcceptedPairing.where_ accepted) ∧
        ∃ key, length key = 32%nat ∧ AcceptedPairing.peerPublicKeyBase64 accepted = toBase64 key ∧
          AcceptedPairing.shortAuthenticationString accepted = sasFor keyPair key
    end ∧
    (parseShortCode raw = None → n' = n).
Proof.
  unfold readPairingCode. destruct (parseShortCode raw) as [typed|] eqn:Hparse.
  - destruct (redeem_ends defaultHost typed s settings s1 n Hset) as (resolved&n'&Hresolved).
    rewrite (bind_eq _ _ _ _ _ Hresolved). destruct resolved as [link|reason].
    + destruct (accept_told clock keyPair link s1 n') as (outcome&s'&->&Hout).
      exists outcome, s', n'. split; [done|]. split; [|done]. destruct outcome; [done|by right].
    + exists (inr reason), s1, n'. split; [done|]. split; [by right|done].
  - rewrite (bind_eq _ _ _ (inl raw) (s, n)) by done.
    destruct (accept_told clock keyPair raw s n) as (outcome&s'&->&Hout). exists outcome, s', n.
    split; [done|]. split; [|done]. destruct outcome; [done|by left].
Qed.
End failing.

(** ** Witnesses *)

#[local] Existing Instance toy_url.
#[local] Existing Instance insertion_order.
#[local] Existing Instance first_bytes.
#[local] Existing Instance desk_blobs.
#[local] Instance closed_files : VaultFileAccess DiskFiles.t := desk_files false.

Module Pairing.
Definition host : string := "localhost:8787".
Definition key (b : Byte.byte) : DeviceKeyPair.t :=
  {| DeviceKeyPair.deviceId := deviceIdFor (replicate 32 b); DeviceKeyPair.publicKey := replicate 32 b;
     DeviceKeyPair.privateKey := [] |}.
Definition iso (t : Z) : string := pretty t.
End Pairing.

#[local] Instance pairing_server : Network Server.t :=
  wire SignalingProps.TwoDevices.clock SignalingProps.TwoDevices.uuid SignalingProps.TwoDevices.token SignalingProps.TwoDevices.draw 100 Pairing.iso 0 Pairing.host.

(** One device makes a code at a new server. *)
Definition made_code : result PairingCode.t * (Services.t (FS.t * nat) DiskFiles.t * Server.t) :=
  createPairingCode Device.clock Desk.localeTime (Pairing.key Byte.x01) "Zoë" Pairing.host (desk, Server.new).

Definition shown : ShortCodes.t :=
  ShortCodes.mk "0123-4567" "0123-4567@localhost:8787" (Some (JStr "600001")).

Definition toy_code : PairingCode.t :=
  PairingCode.mk "passvault://pair?v=1&k=AQEBAQEBAQEBAQEBAQEBAQEBAQEBAQEBAQEBAQEBAQE%3D&n=Zo%C3%AB&r=r&t=t&s=ws%3A%2F%2Flocalhost%3A8787%2Fsignal"
    (Some shown) Pairing.host (Rendezvous.mk "ws://localhost:8787/signal" "r" "t").

Lemma code_was_made : made_code = (Ok toy_code, (made_code.2.1, made_code.2.2)).
Proof. vm_compute. reflexivity. Qed.

Definition desk_settings : ConnectionSettings.t := ConnectionSettings.mk Pairing.host None None None.

Lemma desk_settings_read :
  connectionSettings Pairing.host desk = (Ok desk_settings, (connectionSettings Pairing.host desk).2).
Proof. vm_compute. reflexivity. Qed.

(** The other device, whose key is another one; the code is typed with an o for
    the zero, an l for the one, and a blank. *)
Lemma typed_code_pairs_witness :
  ∃ accepted s' srv,
    readPairingCode Device.clock (Pairing.key Byte.x02) Pairing.host "ol23 4567" (desk, made_code.2.2)
      = (Ok (inl accepted), (s', srv)) ∧
    AcceptedPairing.where_ accepted = Rendezvous.mk "ws://localhost:8787/signal" "r" "t" ∧
    AcceptedPairing.peerName accepted = "Zoë" ∧
    AcceptedPairing.shortAuthenticationString accepted
      = sasFor (Pairing.key Byte.x01) (replicate 32 Byte.x02).
Proof.
  destruct (typed_code_pairs SignalingProps.TwoDevices.clock SignalingProps.TwoDevices.uuid
    SignalingProps.TwoDevices.token SignalingProps.TwoDevices.draw 100 Pairing.iso 0 Pairing.host
    toy_utf8_spec (λ q _, toy_url_spec q)
    (λ k, proj2 (Nat.mod_bound_pos k 32 (Nat.le_0_l k) (Nat.lt_0_succ 31)))
    Device.clock Desk.localeTime (Pairing.key Byte.x01) "Zoë" Pairing.host
    Device.clock (Pairing.key Byte.x02) Pairing.host desk Server.new toy_code made_code.2.1 made_code.2.2 shown
    code_was_made eq_refl eq_refl (scalar_text_check "Zoë" eq_refl eq_refl)
    (scalar_text_check "r" eq_refl eq_refl) (scalar_text_check "t" eq_refl eq_refl)
    (scalar_text_check "ws://localhost:8787/signal" eq_refl eq_refl)
    "ol23 4567" None desk_settings desk (connectionSettings Pairing.host desk).2 made_code.2.2)
    as (a&s'&srv&Hr&Hw&Hn&_&Hs&_).
  - vm_compute. reflexivity.
  - apply desk_settings_read.
  - reflexivity.
  - reflexivity.
  - assert (ShortCodeRegistry.reads (Server.shortCodes made_code.2.2) = 2%nat) as -> by (vm_compute; reflexivity).
    intros i _. unfold SignalingProps.TwoDevices.clock. change TTL_MS with 600000. lia.
  - exists a, s', srv. split; [exact Hr|]. split; [exact Hw|]. split; [exact Hn|exact Hs].
Defined.

(** A network where only rooms are given. *)
Definition rooms_only : Network nat :=
  {| fetch request n :=
       if decide (HttpRequest.path request = "/rooms")
       then (Ok (HttpResponse.mk 201 (JSON_stringify (JObj [("roomId", JStr "r"); ("inviteToken", JStr "t")]))), S n)
       else (Err "fetch failed", S n) |}.

Lemma link_without_code_witness :
  match (createPairingCode (Network0 := rooms_only) Device.clock Desk.localeTime (Pairing.key Byte.x01) "Zoë"
    Pairing.host (desk, 0%nat)).1 with
  | Ok code => PairingCode.where_ code = Rendezvous.mk "ws://localhost:8787/signal" "r" "t"
  | Err _ => False
  end.
Proof.
  destruct (link_without_code (Network0 := rooms_only) Device.clock Desk.localeTime (Pairing.key Byte.x01) "Zoë"
    Pairing.host desk desk_settings _ 0%nat 1%nat
    (HttpResponse.mk 201 (JSON_stringify (JObj [("roomId", JStr "r"); ("inviteToken", JStr "t")]))) "r" "t"
    desk_settings_read) as (short&s'&n'&Hcode&_).
  - reflexivity.
  - reflexivity.
  - vm_compute. reflexivity.
  - rewrite Hcode. reflexivity.
Defined.

(** A code of a server that has no such code. *)
Lemma reading_told_witness :
  ∃ outcome s' n', readPairingCode (Network0 := rooms_only) Device.clock (Pairing.key Byte.x01) Pairing.host
    "0123-4567@other.example" (desk, 0%nat) = (Ok outcome, (s', n')).
Proof.
  destruct (reading_told (Network0 := rooms_only) Device.clock (Pairing.key Byte.x01) Pairing.host
    "0123-4567@other.example" desk desk_settings _ 0%nat desk_settings_read) as (outcome&s'&n'&Hr&_).
  exists outcome, s', n'. exact Hr.
Defined.
