(* ===== verification/Snapshot.v ===== *)
(** * What the windows are shown

    [snapshot] of packages/services/src/vaultServices.ts and the records of
    packages/services/src/snapshot.ts: the device, its vault, its versions, its
    conflicts and its peers, as texts and flags.  A date that is shown as a text
    is that date here. *)

From S2P Require Import Prelude Model Bytes JsString Json JsMap Dag Lineage Protocol Effects Codec Store.
From S2P Require Import BlobStore Engine Inbox Identity Session ShortCode Settings Hub VaultFile Explain Services.
From Stdlib Require String.

Open Scope Z_scope.

(** ** Data (packages/services/src/snapshot.ts) *)

Module DeviceSummary.
Record t : Type := mk {
  deviceId : DeviceId;
  name : string;
  publicKeyBase64 : string;
}.
End DeviceSummary.

Module PairedDeviceSummary.
Record t : Type := mk {
  deviceId : DeviceId;
  name : string;
  trust : DeviceTrust;
  pairedAt : Date;
  canReconnect : bool;
  online : bool;
  lastSeenAt : option Date;
}.
End PairedDeviceSummary.

Inductive VersionOrigin : Type := from_you | from_peer | from_merge | from_first.

Module VersionSummary.
Record t : Type := mk {
  id : RevisionId;
  savedAt : Date;
  sizeBytes : Z;
  origin : VersionOrigin;
  summary : string;
  isCurrent : bool;
  canCombine : bool;
}.
End VersionSummary.

Inductive SyncState : Type :=
  | needs_setup
  | needs_file (vaultName : string)
  | up_to_date
  | in_conflict
  | waiting_for_close.

Module ConflictSummary.
Record t : Type := mk {
  id : ConflictId;
  currentRevisionId : RevisionId;
  incomingRevisionId : RevisionId;
  createdAt : Date;
  mergeBaseIds : list RevisionId;
}.
End ConflictSummary.

Module VaultSummary.
Record t : Type := mk {
  id : VaultId;
  name : string;
  locked : bool;
  kdbxPath : option string;
  headRevisionId : option RevisionId;
}.
End VaultSummary.

Module AppSnapshot.
Record t : Type := mk {
  device : DeviceSummary.t;
  state : SyncState;
  vault : option VaultSummary.t;
  versions : list VersionSummary.t;
  conflicts : list ConflictSummary.t;
  pairedDevices : list PairedDeviceSummary.t;
  (** The name and the six digits of a handshake that waits. *)
  verification : option (string * string);
  activity : list string;
  signalUrl : string;
}.
End AppSnapshot.

(** ** The pieces *)

Section pieces.
Context (keyPair : DeviceKeyPair.t) (deviceName : string).

Definition device_summary : DeviceSummary.t :=
  DeviceSummary.mk (DeviceKeyPair.deviceId keyPair) deviceName (toBase64 (DeviceKeyPair.publicKey keyPair)).

Definition paired_summary (known : gmap DeviceId RendezvousRow.t) (online : list DeviceId)
    (entry : PairedDevice.t) : PairedDeviceSummary.t :=
  {| PairedDeviceSummary.deviceId := PairedDevice.deviceId entry;
     PairedDeviceSummary.name := PairedDevice.name entry;
     PairedDeviceSummary.trust := PairedDevice.trust entry;
     PairedDeviceSummary.pairedAt := PairedDevice.pairedAt entry;
     PairedDeviceSummary.canReconnect := bool_decide (is_Some (known !! PairedDevice.deviceId entry));
     PairedDeviceSummary.online := bool_decide (PairedDevice.deviceId entry ∈ online);
     PairedDeviceSummary.lastSeenAt := PairedDevice.lastSeenAt entry |}.

(** A [Map] made of the devices: a later one replaces an earlier one. *)
Definition device_names (devices : list PairedDevice.t) : list (DeviceId * string) :=
  foldl (λ names d, map_set (PairedDevice.deviceId d) (PairedDevice.name d) names) [] devices.

Definition origin_of (revision : Revision.t) : VersionOrigin :=
  if decide (Revision.operation revision = RevisionOperation.merged) then from_merge
  else if decide (Revision.parentIds revision = []) then from_first
  else match Revision.originDeviceId revision with
       | Some origin => if decide (origin = DeviceKeyPair.deviceId keyPair) then from_you else from_peer
       | None => from_you
       end.

Definition peer_name (names : list (DeviceId * string)) (revision : Revision.t) : string :=
  match Revision.originDeviceId revision with
  | None => "another device"
  | Some origin => default "another device" (map_get origin names)
  end.

Definition version_text (names : list (DeviceId * string)) (revision : Revision.t) : string :=
  match origin_of revision with
  | from_merge => "Combined changes from both devices"
  | from_first => "First version"
  | from_peer => "Saved on " +:+ peer_name names revision
  | from_you => "You saved changes in KeePassXC"
  end.

Definition can_combine (graph : RevisionGraph) (headId : option RevisionId) (id : RevisionId) : bool :=
  match headId with
  | None => false
  | Some head =>
      negb (bool_decide (id = head)) &&
      match classifyDivergence graph head id with diverged _ => true | _ => false end
  end.

Definition version_summary (graph : RevisionGraph) (headId : option RevisionId)
    (names : list (DeviceId * string)) (revision : Revision.t) : VersionSummary.t :=
  {| VersionSummary.id := Revision.id revision;
     VersionSummary.savedAt := Revision.createdAt revision;
     VersionSummary.sizeBytes := Revision.sizeBytes revision;
     VersionSummary.origin := origin_of revision;
     VersionSummary.summary := version_text names revision;
     VersionSummary.isCurrent := bool_decide (headId = Some (Revision.id revision));
     VersionSummary.canCombine := can_combine graph headId (Revision.id revision) |}.

Definition mergeBasesOf (graph : RevisionGraph) (conflict : Conflict.t) : list RevisionId :=
  match classifyDivergence graph (Conflict.currentRevisionId conflict)
          (Conflict.incomingRevisionId conflict) with
  | diverged mergeBases => mergeBases
  | _ => []
  end.

Definition conflict_summary (graph : RevisionGraph) (conflict : Conflict.t) : ConflictSummary.t :=
  ConflictSummary.mk (Conflict.id conflict) (Conflict.currentRevisionId conflict)
    (Conflict.incomingRevisionId conflict) (Conflict.createdAt conflict) (mergeBasesOf graph conflict).

Definition sync_state (vault : option Vault.t) (conflicts : list Conflict.t) (updateHeldBack : bool)
    : SyncState :=
  match vault with
  | None => needs_setup
  | Some vault =>
      match Vault.kdbxPath vault with
      | None => needs_file (Vault.name vault)
      | Some _ =>
          if (0 <? length conflicts)%nat then in_conflict
          else if updateHeldBack then waiting_for_close
          else up_to_date
      end
  end.

Definition waiting (verification : option Verification.t) : option (string * string) :=
  (λ v, (Verification.peerName v, Verification.code v)) <$> verification.
End pieces.

(** ** The snapshot *)

Section snapshot.
Context `{RowOrder, Digest} {B : Type} `{!BlobStore B} {F : Type} `{!VaultFileAccess F}.
Context (keyPair : DeviceKeyPair.t) (deviceName defaultServerHost : string).
Abbreviation Run := (M (Services.t B F)).

Definition vault_summary (vault : Vault.t) : Run VaultSummary.t :=
  (match Vault.kdbxPath vault with
   | None => mret false
   | Some path => on (S := Services.t B F) (T := F) (file_isLocked path)
   end) ≫= λ locked,
  mret (VaultSummary.mk (Vault.id vault) (Vault.name vault) locked (Vault.kdbxPath vault)
          (Vault.headRevisionId vault)).

Definition snapshot : Run AppSnapshot.t :=
  gets Services.rendezvous ≫= λ knownRendezvous,
  onlineDeviceIds ≫= λ online,
  database ts_list ≫= λ devices,
  let paired := paired_summary knownRendezvous online <$> devices in
  gets Services.vaultId ≫= λ vaultId,
  gets Services.verification ≫= λ verification,
  gets Services.activity ≫= λ activity,
  gets Services.updateHeldBack ≫= λ updateHeldBack,
  match vaultId with
  | None =>
      signalUrl defaultServerHost ≫= λ signal,
      mret {| AppSnapshot.device := device_summary keyPair deviceName;
              AppSnapshot.state := needs_setup; AppSnapshot.vault := None;
              AppSnapshot.versions := []; AppSnapshot.conflicts := [];
              AppSnapshot.pairedDevices := paired;
              AppSnapshot.verification := waiting verification;
              AppSnapshot.activity := activity; AppSnapshot.signalUrl := signal |}
  | Some vaultId =>
      database (getVault vaultId) ≫= λ vault,
      database (listRevisions vaultId) ≫= λ revisions,
      database (loadGraph vaultId) ≫= λ graph,
      database (listOpenConflicts vaultId) ≫= λ conflicts,
      let headId := vault ≫= Vault.headRevisionId in
      database ts_list ≫= λ devices,
      let names := device_names devices in
      (match vault with
       | None => mret None
       | Some vault => vault_summary vault ≫= λ summary, mret (Some summary)
       end) ≫= λ summary,
      signalUrl defaultServerHost ≫= λ signal,
      mret {| AppSnapshot.device := device_summary keyPair deviceName;
              AppSnapshot.state := sync_state vault conflicts updateHeldBack;
              AppSnapshot.vault := summary;
              AppSnapshot.versions := version_summary keyPair graph headId names <$> revisions;
              AppSnapshot.conflicts := conflict_summary graph <$> conflicts;
              AppSnapshot.pairedDevices := paired;
              AppSnapshot.verification := waiting verification;
              AppSnapshot.activity := activity; AppSnapshot.signalUrl := signal |}
  end.
End snapshot.
