(* ===== verification/SnapshotProps.v ===== *)
(** * What the windows are shown is what there is

    The snapshot of the services against the tables, the files and the live
    peers. *)

From S2P Require Import Prelude Model Bytes JsString Json JsMap Dag DagTheory Lineage Protocol Effects Codec Store StoreTheory StoreProps.
From S2P Require Import BlobStore BlobProps Engine EngineTheory EngineSteps EngineProps Inbox Identity IdentityProps Session ShortCode Settings.
From S2P Require Import Hub VaultFile VaultFileProps Explain Kdbx Services ServicesTheory Desk ServicesProps ServicesFile CallsProps Snapshot.
From stdpp Require Import relations sorting.
From Stdlib Require String.

Open Scope Z_scope.

Section reading.
Context `{RowOrder, Digest} {B : Type} `{!BlobStore B} {F : Type} `{!VaultFileAccess F}.
Implicit Types (s : Services.t B F) (d : Db.t).

Lemma database_read {A} (m : M Db.t A) s a : m (tables s) = (Ok a, tables s) →
  (database (B := B) (F := F) m) s = (Ok a, s).
Proof.
  intros Hm. apply engine_reads. unfold tables in Hm. rewrite metadata_run, Hm. cbn [fst snd].
  by rewrite set_db_id.
Qed.

(** Newest first. *)
Lemma order_by_desc_sorted {C} (key : C → Z) rows : StronglySorted (key_ge key) (order_by_desc key rows).
Proof.
  apply StronglySorted_merge_sort; [|intros a b; unfold key_ge; lia].
  intros a b c. unfold key_ge. lia.
Qed.

Lemma sorted_fmap {C D} (R : D → D → Prop) (f : C → D) rows :
  StronglySorted (λ a b, R (f a) (f b)) rows → StronglySorted R (f <$> rows).
Proof.
  induction 1 as [|row rows _ IH Hall]; [constructor|]. csimpl. constructor; [done|].
  apply Forall_fmap. eapply Forall_impl; [exact Hall|]. done.
Qed.

(** ** Flags *)

(** Two versions have forked. *)
Definition forked (g : RevisionGraph) (a b : RevisionId) : Prop :=
  a ≠ b ∧ ¬ tc (parent_of g) a b ∧ ¬ tc (parent_of g) b a ∧ ∃ x, common_ancestor g a b x.

Lemma can_combine_spec g head i : acyclic g →
  can_combine g head i = true ↔ ∃ h, head = Some h ∧ forked g h i.
Proof.
  intros Hg. unfold can_combine, forked. destruct head as [h|]; [|naive_solver].
  rewrite andb_true_iff, negb_true_iff, bool_decide_eq_false.
  pose proof (classifyDivergence_spec g h i Hg) as Hspec. split.
  - intros [Hne Hd]. exists h. split; [done|]. destruct (classifyDivergence g h i) as [| | |bases|]; try done.
    pose proof (divergence_spec_common g h i (diverged bases) Hspec ltac:(done)) as Hc.
    simpl in Hspec. naive_solver.
  - intros (?&[= <-]&Hne&H1&H2&Hc). split; [congruence|].
    destruct (classifyDivergence g h i); simpl in Hspec; naive_solver.
Qed.

Lemma open_conflicts_run k d :
  listOpenConflicts k d = (Ok (toConflict <$> order_by_desc ConflictRow.created_at
    (scan (filter (λ c, ConflictRow.vault_id c = k ∧ ConflictRow.status c = ConflictStatus.open)
       (map_to_list (Db.conflicts d)).*2))), d).
Proof. done. Qed.

(** ** What each card says *)

(** A version as it is stored, the head marked, and the forks of the head. *)
Record shows_version (own : DeviceId) (g : RevisionGraph) (d : Db.t) (head : option RevisionId)
    (x : VersionSummary.t) (row : RevisionRow.t) : Prop := ShowsVersion {
  sv_id : VersionSummary.id x = RevisionRow.id row;
  sv_saved : VersionSummary.savedAt x = RevisionRow.created_at row;
  sv_size : VersionSummary.sizeBytes x = RevisionRow.size_bytes row;
  sv_current : VersionSummary.isCurrent x = true ↔ head = Some (RevisionRow.id row);
  sv_combine : VersionSummary.canCombine x = true ↔ ∃ h, head = Some h ∧ forked g h (RevisionRow.id row);
  sv_merge : VersionSummary.origin x = from_merge ↔ RevisionRow.operation row = RevisionOperation.merged;
  sv_first : VersionSummary.origin x = from_first ↔
    RevisionRow.operation row ≠ RevisionOperation.merged ∧ ¬ ∃ p, edge d (RevisionRow.id row) p;
  sv_peer : VersionSummary.origin x = from_peer ↔
    RevisionRow.operation row ≠ RevisionOperation.merged ∧ (∃ p, edge d (RevisionRow.id row) p) ∧
    ∃ o, RevisionRow.origin_device_id row = Some o ∧ o ≠ own;
}.

(** A conflict as it is stored, with where its two versions forked. *)
Record shows_conflict (g : RevisionGraph) (x : ConflictSummary.t) (row : ConflictRow.t) : Prop := ShowsConflict {
  sc_id : ConflictSummary.id x = ConflictRow.id row;
  sc_current : ConflictSummary.currentRevisionId x = ConflictRow.current_revision_id row;
  sc_incoming : ConflictSummary.incomingRevisionId x = ConflictRow.incoming_revision_id row;
  sc_created : ConflictSummary.createdAt x = ConflictRow.created_at row;
  sc_bases : NoDup (ConflictSummary.mergeBaseIds x) ∧
    ∀ b, b ∈ ConflictSummary.mergeBaseIds x ↔
      forked g (ConflictRow.current_revision_id row) (ConflictRow.incoming_revision_id row) ∧
      best_common_ancestor g (ConflictRow.current_revision_id row) (ConflictRow.incoming_revision_id row) b;
}.

(** A device as the trust store has it, with whether a live peer has proved to
    be it and whether there is a room to meet it in again. *)
Record shows_device s (x : PairedDeviceSummary.t) (row : DeviceRow.t) : Prop := ShowsDevice {
  sd_id : PairedDeviceSummary.deviceId x = DeviceRow.id row;
  sd_name : PairedDeviceSummary.name x = DeviceRow.name row;
  sd_trust : PairedDeviceSummary.trust x = revoked ↔ DeviceRow.trust row = "revoked";
  sd_paired : PairedDeviceSummary.pairedAt x = DeviceRow.paired_at row;
  sd_seen : PairedDeviceSummary.lastSeenAt x = DeviceRow.last_seen_at row;
  sd_online : PairedDeviceSummary.online x = true ↔ ∃ peer, (peer, Some (DeviceRow.id row)) ∈ Services.livePeers s;
  sd_reconnect : PairedDeviceSummary.canReconnect x = true ↔ is_Some (Services.rendezvous s !! DeviceRow.id row);
}.

(** The open conflicts of a vault. *)
Definition open_rows (k : VaultId) d : list ConflictRow.t :=
  filter (λ c, ConflictRow.vault_id c = k ∧ ConflictRow.status c = ConflictStatus.open) (map_to_list (Db.conflicts d)).*2.

Lemma forall2_fmap {C D} (P : D → C → Prop) (f : C → D) l : (∀ x, x ∈ l → P (f x) x) → Forall2 P (f <$> l) l.
Proof. intros HP. apply Forall2_fmap_l, Forall_Forall2_diag, Forall_forall. exact HP. Qed.

Lemma version_shown keyPair g d head names row : acyclic g →
  shows_version (DeviceKeyPair.deviceId keyPair) g d head
    (version_summary keyPair g head names (toRevision row (parents_in d (RevisionRow.id row)))) row.
Proof.
  intros Hg. pose proof (elem_of_parents_in d (RevisionRow.id row)) as Hp.
  assert (parents_in d (RevisionRow.id row) = [] ↔ ¬ ∃ p, edge d (RevisionRow.id row) p) as Hnil.
  { setoid_rewrite <- Hp. destruct (parents_in d (RevisionRow.id row)) as [|q l]; split; [|done| |].
    - by intros _ [p ?%elem_of_nil].
    - done.
    - intros []. exists q. constructor. }
  split; try done.
  - cbn [version_summary VersionSummary.isCurrent]. by rewrite bool_decide_eq_true.
  - by apply can_combine_spec.
  - cbn [version_summary VersionSummary.origin]. unfold origin_of. simpl. repeat case_decide; repeat case_match; naive_solver.
  - cbn [version_summary VersionSummary.origin]. unfold origin_of. simpl. rewrite <- Hnil. repeat case_decide; repeat case_match; naive_solver.
  - cbn [version_summary VersionSummary.origin]. unfold origin_of. simpl.
    assert (parents_in d (RevisionRow.id row) ≠ [] ↔ ∃ p, edge d (RevisionRow.id row) p) as <-.
    { setoid_rewrite <- Hp. split; [|by intros [p ?] Hl; rewrite Hl in *; apply elem_of_nil in H1]. intros Hne.
      destruct (parents_in d (RevisionRow.id row)) as [|q l]; [done|]. exists q. constructor. }
    repeat case_decide; repeat case_match; naive_solver.
Qed.

Lemma conflict_shown g row : acyclic g → shows_conflict g (conflict_summary g (toConflict row)) row.
Proof.
  intros Hg. split; try done. cbn [conflict_summary ConflictSummary.mergeBaseIds]. unfold mergeBasesOf.
  cbn [toConflict Conflict.currentRevisionId Conflict.incomingRevisionId].
  pose proof (classifyDivergence_spec g (ConflictRow.current_revision_id row) (ConflictRow.incoming_revision_id row) Hg) as Hspec.
  destruct (classifyDivergence _ _ _) as [| | |bases|] eqn:Hd; simpl in Hspec.
  4: { destruct Hspec as (Hne & H1 & H2 & Hbases & Hnd & Hall). split; [done|]. intros b. rewrite Hall. split; [|by intros [_ ?]].
       intros Hb. split; [|done]. split_and!; [done..|]. exists b. apply Hb. }
  all: split; [apply NoDup_nil_2|]; intros b; rewrite elem_of_nil; split; [done|];
    intros [(Hne & H1 & H2 & Hc) _]; tauto.
Qed.

Lemma device_shown s entry :
  shows_device s (paired_summary (Services.rendezvous s) (set_from (omap snd (Services.livePeers s))) (toPairedDevice entry)) entry.
Proof.
  split; try done.
  - simpl. by case_decide.
  - simpl. rewrite bool_decide_eq_true, elem_of_set_from, list_elem_of_omap.
    split; [|intros (peer&Hin); by exists (peer, Some (DeviceRow.id entry))].
    intros ([peer o]&Hin&Ho). simpl in Ho. subst. by exists peer.
  - simpl. by rewrite bool_decide_eq_true.
Qed.

(** Asking whether KeePassXC has the file open changes no file. *)
Lemma vault_summary_run (v : Vault.t) s :
  ∃ summary s', vault_summary v s = (Ok summary, s') ∧
    Services.engine s' = Services.engine s ∧ Services.cachedSettings s' = Services.cachedSettings s ∧
    (∀ path, content (Services.files s') path = content (Services.files s) path) ∧
    VaultSummary.id summary = Vault.id v ∧ VaultSummary.headRevisionId summary = Vault.headRevisionId v.
Proof.
  unfold vault_summary. destruct (Vault.kdbxPath v) as [path|].
  - destruct (file_isLocked_spec (Services.files s) path) as (locked&f'&Hrun&Hsame).
    unfold mbind, M_bind, on. cbn [part Services.files_part]. rewrite Hrun. cbn [fst snd].
    do 2 eexists. split; [reflexivity|]. by destruct s.
  - do 2 eexists. split; [reflexivity|]. by destruct s.
Qed.

(** The vault as it is stored, and whether its file is open elsewhere. *)
Lemma vault_summary_tells k (v : Vault.t) s summary s' : Vault.id v = k → vault_summary v s = (Ok summary, s') →
  ∃ locked, Some summary = Some (VaultSummary.mk k (Vault.name v) locked (Vault.kdbxPath v) (Vault.headRevisionId v)) ∧
    Ok locked = match Vault.kdbxPath v with None => Ok false | Some path => (file_isLocked path (Services.files s)).1 end.
Proof.
  intros <-. unfold vault_summary. destruct (Vault.kdbxPath v) as [path|] eqn:Hp.
  - destruct (file_isLocked_spec (Services.files s) path) as (locked&f'&Hrun&_).
    unfold mbind, M_bind, on. cbn [part Services.files_part]. rewrite Hrun. cbn [fst snd].
    intros [= <- <-]. by exists locked.
  - intros [= <- <-]. by exists false.
Qed.

(** The pieces of a snapshot of a device that tracks a vault. *)
Lemma snapshot_run keyPair deviceName defaultHost s k v settings :
  wf (tables s) → Services.vaultId s = Some k → Db.vaults (tables s) !! k = Some v →
  Services.cachedSettings s = Some settings →
  ∃ summary s' g names,
    vault_summary v s = (Ok summary, s') ∧ loadGraph k (tables s) = (Ok g, tables s) ∧
    snapshot keyPair deviceName defaultHost s = (Ok
      {| AppSnapshot.device := device_summary keyPair deviceName;
         AppSnapshot.state := sync_state (Some v)
           (toConflict <$> order_by_desc ConflictRow.created_at (scan (open_rows k (tables s)))) (Services.updateHeldBack s);
         AppSnapshot.vault := Some summary;
         AppSnapshot.versions := version_summary keyPair g (Vault.headRevisionId v) names <$> revisions_of (tables s) k;
         AppSnapshot.conflicts := conflict_summary g <$>
           (toConflict <$> order_by_desc ConflictRow.created_at (scan (open_rows k (tables s))));
         AppSnapshot.pairedDevices := paired_summary (Services.rendezvous s) (set_from (omap snd (Services.livePeers s))) <$>
           (toPairedDevice <$> order_by_desc DeviceRow.paired_at (scan (map_to_list (Db.devices (tables s))).*2));
         AppSnapshot.verification := waiting (Services.verification s);
         AppSnapshot.activity := Services.activity s;
         AppSnapshot.signalUrl := signalUrlFor (ConnectionSettings.serverHost settings) |}, s').
Proof.
  intros Hwf Hk Hv Hset. destruct (loadGraph_spec (tables s) k Hwf) as (g&Hg&_).
  assert (ts_list (tables s) = (Ok (toPairedDevice <$>
    order_by_desc DeviceRow.paired_at (scan (map_to_list (Db.devices (tables s))).*2)), tables s)) as Hdevices by done.
  set (devices := toPairedDevice <$> _) in Hdevices |- *.
  pose proof (open_conflicts_run k (tables s)) as Hconflicts. fold (open_rows k (tables s)) in Hconflicts.
  set (conflicts := toConflict <$> _) in Hconflicts |- *.
  destruct (vault_summary_run v s) as (summary&s'&Hsummary&Hengine&Hcached&Hfiles&_).
  rewrite Hset in Hcached.
  pose proof (settings_from_cache defaultHost s' settings Hcached) as Hsettings.
  exists summary, s', g, (device_names devices). split_and!; [done..|].
  unfold snapshot. do 1 (rewrite (bind_eq _ _ s (Services.rendezvous s) s) by done).
  rewrite (bind_eq _ _ s (set_from (omap snd (Services.livePeers s))) s) by done.
  rewrite (bind_eq _ _ _ _ _ (database_read _ s _ Hdevices)). cbv zeta.
  rewrite (bind_eq _ _ s (Services.vaultId s) s) by done.
  rewrite (bind_eq _ _ s (Services.verification s) s) by done.
  rewrite (bind_eq _ _ s (Services.activity s) s) by done.
  rewrite (bind_eq _ _ s (Services.updateHeldBack s) s) by done. rewrite Hk.
  rewrite (bind_eq _ _ s (Some v) s) by (apply database_read; by rewrite <- Hv).
  rewrite (bind_eq _ _ _ _ _ (database_read _ s _ (listRevisions_run k (tables s)))).
  rewrite (bind_eq _ _ _ _ _ (database_read _ s _ Hg)).
  rewrite (bind_eq _ _ _ _ _ (database_read _ s _ Hconflicts)). cbv zeta.
  rewrite (bind_eq _ _ _ _ _ (database_read _ s _ Hdevices)).
  rewrite (bind_eq _ _ s (Some summary) s') by by rewrite (bind_eq _ _ _ _ _ Hsummary).
  unfold signalUrl. rewrite (bind_eq _ _ s' (signalUrlFor (ConnectionSettings.serverHost settings)) s')
    by by rewrite (bind_eq _ _ _ _ _ Hsettings).
  reflexivity.
Qed.

(** The lists of a snapshot against the tables they are read from. *)
Record lists_tell s (k : VaultId) (v : Vault.t) (own : DeviceId) (g : RevisionGraph) (snap : AppSnapshot.t) : Prop := ListsTell {
  lt_versions : ∃ rows, rows ≡ₚ revision_rows (tables s) k ∧
    Forall2 (shows_version own g (tables s) (Vault.headRevisionId v)) (AppSnapshot.versions snap) rows;
  lt_newest : StronglySorted (λ a b, VersionSummary.savedAt b <= VersionSummary.savedAt a) (AppSnapshot.versions snap);
  lt_conflicts : ∃ rows, rows ≡ₚ open_rows k (tables s) ∧
    Forall2 (shows_conflict g) (AppSnapshot.conflicts snap) rows;
  lt_latest : StronglySorted (λ a b, ConflictSummary.createdAt b <= ConflictSummary.createdAt a) (AppSnapshot.conflicts snap);
  lt_devices : ∃ rows, rows ≡ₚ (map_to_list (Db.devices (tables s))).*2 ∧
    Forall2 (shows_device s) (AppSnapshot.pairedDevices snap) rows;
  lt_joined : StronglySorted (λ a b, PairedDeviceSummary.pairedAt b <= PairedDeviceSummary.pairedAt a)
    (AppSnapshot.pairedDevices snap);
}.

Lemma snapshot_lists keyPair deviceName defaultHost s k v settings :
  wf (tables s) → Services.vaultId s = Some k → Db.vaults (tables s) !! k = Some v →
  Services.cachedSettings s = Some settings →
  ∃ snap s' g, snapshot keyPair deviceName defaultHost s = (Ok snap, s') ∧
    loadGraph k (tables s) = (Ok g, tables s) ∧ lists_tell s k v (DeviceKeyPair.deviceId keyPair) g snap.
Proof.
  intros Hwf Hk Hv Hset.
  destruct (snapshot_run keyPair deviceName defaultHost s k v settings Hwf Hk Hv Hset) as (summary&s'&g&names&_&Hg&Hsnap).
  do 2 eexists. exists g. split; [exact Hsnap|]. split; [exact Hg|].
  pose proof (loadGraph_acyclic _ _ _ Hwf Hg) as Hacyc. split; simpl.
  - exists (order_by_desc RevisionRow.created_at (revision_rows (tables s) k)). split; [apply order_by_desc_perm|].
    unfold revisions_of. rewrite <- list_fmap_compose. apply forall2_fmap. intros row _. by apply version_shown.
  - unfold revisions_of. rewrite <- list_fmap_compose. apply sorted_fmap, order_by_desc_sorted.
  - eexists. split; [|rewrite <- list_fmap_compose; apply forall2_fmap; intros row _; by apply conflict_shown].
    by rewrite order_by_desc_perm, scan_perm.
  - rewrite <- list_fmap_compose. apply sorted_fmap, order_by_desc_sorted.
  - eexists. split; [|rewrite <- list_fmap_compose; apply forall2_fmap; intros row _; apply device_shown].
    by rewrite order_by_desc_perm, scan_perm.
  - rewrite <- list_fmap_compose. apply sorted_fmap, order_by_desc_sorted.
Qed.

(** C16: the windows show what there is.  For a device in a sound state that tracks
    a vault and has read its settings, making a snapshot changes nothing: the
    tables and the files are the same.  It lists every version of the vault once,
    the newest first, with when it was saved, its size and where it came from;
    the one marked as current is the head, which is among them; and a version
    may be combined exactly when it and the head have forked: neither is an
    ancestor of the other, and they have a common ancestor.  It lists every open
    conflict of the vault once, the newest first, and no other, with its two
    versions and, if they forked, their best common ancestors.  It lists every
    device of the trust store once, the newest first, with its name and trust,
    as online exactly when a live peer has proved to be it, and as one to
    reconnect to exactly when the services know where to meet it.  The state asks
    for a file exactly when the vault has none; with a file it is a conflict
    exactly when one is listed, and else an update that waits or up to date.  The
    vault with its lock, the digits that wait for the person, the log and the
    server are those of the services. *)
Theorem windows_tell_truth keyPair deviceName defaultHost s k v settings
    (Hs : engine_ok (Services.engine s)) (Hk : Services.vaultId s = Some k)
    (Hv : Db.vaults (tables s) !! k = Some v)
    (Hset : Services.cachedSettings s = Some settings) :
  ∃ snap s' g,
    snapshot keyPair deviceName defaultHost s = (Ok snap, s') ∧ loadGraph k (tables s) = (Ok g, tables s) ∧
    (tables s' = tables s ∧ ∀ path, content (Services.files s') path = content (Services.files s) path) ∧
    lists_tell s k v (DeviceKeyPair.deviceId keyPair) g snap ∧
    (NoDup (VersionSummary.id <$> AppSnapshot.versions snap) ∧
     (∀ i, i ∈ VersionSummary.id <$> AppSnapshot.versions snap ↔
        ∃ row, Db.revisions (tables s) !! i = Some row ∧ RevisionRow.vault_id row = k) ∧
     ∀ h, Vault.headRevisionId v = Some h → h ∈ VersionSummary.id <$> AppSnapshot.versions snap) ∧
    (AppSnapshot.state snap =
       match Vault.kdbxPath v with
       | None => needs_file (Vault.name v)
       | Some _ => if decide (AppSnapshot.conflicts snap = []) then
                     if Services.updateHeldBack s then waiting_for_close else up_to_date
                   else in_conflict
       end) ∧
    (∃ locked, AppSnapshot.vault snap =
       Some (VaultSummary.mk k (Vault.name v) locked (Vault.kdbxPath v) (Vault.headRevisionId v)) ∧
       Ok locked = match Vault.kdbxPath v with None => Ok false | Some path => (file_isLocked path (Services.files s)).1 end) ∧
    AppSnapshot.device snap =
      DeviceSummary.mk (DeviceKeyPair.deviceId keyPair) deviceName (toBase64 (DeviceKeyPair.publicKey keyPair)) ∧
    AppSnapshot.verification snap =
      (λ w, (Verification.peerName w, Verification.code w)) <$> Services.verification s ∧
    AppSnapshot.activity snap = Services.activity s ∧
    AppSnapshot.signalUrl snap = signalUrlFor (ConnectionSettings.serverHost settings).
Proof.
  pose proof (ok_wf _ Hs) as Hwf. fold (tables s) in Hwf.
  destruct (snapshot_lists keyPair deviceName defaultHost s k v settings Hwf Hk Hv Hset) as (snap&s'&g&Hsnap&Hg&Hlists).
  destruct (snapshot_run keyPair deviceName defaultHost s k v settings Hwf Hk Hv Hset)
    as (summary&s2&g2&names&Hsummary&Hg2&Hsnap2).
  rewrite Hsnap2 in Hsnap. injection Hsnap as <- <-. rewrite Hg2 in Hg. injection Hg as <-.
  destruct (vault_summary_run v s) as (summary'&s''&Hsummary'&Hengine&_&Hfiles&_).
  rewrite Hsummary in Hsummary'. injection Hsummary' as <- <-.
  do 2 eexists. exists g2. split_and!; [exact Hsnap2|exact Hg2| |exact Hfiles|exact Hlists|..]; try done; simpl.
  - unfold tables. by rewrite Hengine.
  - rewrite <- list_fmap_compose. by apply revisions_of_NoDup.
  - intros i. rewrite <- list_fmap_compose. by apply elem_of_revisions_of.
  - intros h Hh. rewrite <- list_fmap_compose. apply elem_of_revisions_of; [done|]. by apply (ok_head _ Hs k v).
  - destruct (Vault.kdbxPath v); [|done]. destruct (order_by_desc _ _); [by rewrite decide_True|by rewrite decide_False].
  - by apply (vault_summary_tells k v s summary s2 (wf_vault_id _ Hwf k v Hv)).
Qed.
End reading.

(** ** Witnesses *)

#[local] Existing Instance insertion_order.
#[local] Existing Instance first_bytes.
#[local] Existing Instance desk_blobs.
#[local] Instance windows_files : VaultFileAccess DiskFiles.t := desk_files false.

(** The desktop with a version of another device, its settings read. *)
Definition desk2_read : Services.t (FS.t * nat) DiskFiles.t :=
  Services.set_cachedSettings (Some desk_settings) desk2.

Lemma settings_set_engine {B F} c (s : Services.t B F) :
  Services.engine (Services.set_cachedSettings c s) = Services.engine s.
Proof. reflexivity. Qed.

Lemma desk2_read_ok : engine_ok (Services.engine desk2_read).
Proof. unfold desk2_read. rewrite settings_set_engine. exact desk2_ok. Qed.

(** Both devices changed the first version, and met. *)
Definition desk_saves : Services.t (FS.t * nat) DiskFiles.t := desk_step false desk2_read (WatcherReports desk_save).
Definition desk_forked : Services.t (FS.t * nat) DiskFiles.t :=
  desk_step false desk_saves (EndsSession "peer" (inl (desk_result (diverged ["aa"])))).

(** The other device is paired, and connected. *)
Definition desk_phone : DeviceRow.t := DeviceRow.mk "other" [Byte.x02] "phone" "paired" 5 None.
Definition desk_paired : Services.t (FS.t * nat) DiskFiles.t :=
  Services.set_livePeers [("peer", Some "other")]
    (Services.set_engine (set_db (Db.set_devices {[ "other" := desk_phone ]} (tables desk_forked)) (Services.engine desk_forked))
       desk_forked).

Lemma desk_saves_ok : engine_ok (Services.engine desk_saves).
Proof. apply watcher_ok; [exact desk2_read_ok|]. unfold desk2_read. rewrite settings_set_engine. exact desk2_fresh. Qed.

Lemma desk_paired_engine : Services.engine desk_paired = set_db (db (Services.engine desk_paired)) (Services.engine desk_saves).
Proof. vm_compute. reflexivity. Qed.

Lemma desk_paired_same : same_history (db (Services.engine desk_saves)) (db (Services.engine desk_paired)).
Proof. split; [|split]; vm_compute; reflexivity. Qed.

Lemma desk_paired_ok : engine_ok (Services.engine desk_paired).
Proof.
  destruct desk_paired_same as (Hv & Hr & Hp). rewrite desk_paired_engine. apply ok_set_db; [apply desk_saves_ok| | |].
  - eapply wf_proper; [exact desk_paired_same|apply desk_saves_ok].
  - intros i row Hi. left. by rewrite <- Hr.
  - intros k v h. rewrite Hv, Hr. apply (ok_head _ desk_saves_ok).
Qed.

(** One conflict is open, and one device is paired. *)
Lemma desk_paired_tables :
  open_rows "a" (tables desk_paired) ≠ [] ∧ (map_to_list (Db.devices (tables desk_paired))).*2 = [desk_phone].
Proof. split; [vm_compute; discriminate|vm_compute; reflexivity]. Qed.

(** The window of the desktop shows a conflict, and the phone as online. *)
Lemma windows_tell_truth_witness :
  ∃ snap s', snapshot Desk.own "desktop" Pairing.host desk_paired = (Ok snap, s') ∧
    "x" ∈ VersionSummary.id <$> AppSnapshot.versions snap ∧ AppSnapshot.conflicts snap ≠ [] ∧
    AppSnapshot.state snap = in_conflict ∧
    ∃ x, AppSnapshot.pairedDevices snap = [x] ∧ PairedDeviceSummary.online x = true.
Proof.
  assert (∃ v, Db.vaults (tables desk_paired) !! "a" = Some v ∧ is_Some (Vault.kdbxPath v)) as (v&Hv&[path Hp])
    by (eexists; split; [vm_compute; reflexivity|eexists; reflexivity]).
  destruct (windows_tell_truth Desk.own "desktop" Pairing.host desk_paired "a" v desk_settings desk_paired_ok
    ltac:(vm_compute; reflexivity) Hv ltac:(vm_compute; reflexivity))
    as (snap&s'&g&Hsnap&_&_&[_ _ (rows&Hrows&Hc) _ (phones&Hphones&Hd) _]&(_&Hids&_)&Hstate&_).
  destruct desk_paired_tables as [Hopen Hone].
  assert (AppSnapshot.conflicts snap ≠ []) as Hne.
  { intros He. rewrite He in Hc. apply Forall2_nil_inv_l in Hc. rewrite Hc in Hrows. exact (Hopen (Permutation_nil Hrows)). }
  exists snap, s'. split; [exact Hsnap|]. split; [|split; [exact Hne|split]].
  - apply Hids. eexists. split; vm_compute; reflexivity.
  - rewrite Hstate, Hp. rewrite decide_False by exact Hne. reflexivity.
  - rewrite Hone in Hphones. apply Permutation_singleton_r in Hphones. rewrite Hphones in Hd.
    apply Forall2_cons_inv_r in Hd as (x&rest&Hx&Hrest&Heq). apply Forall2_nil_inv_r in Hrest. rewrite Hrest in Heq.
    exists x. split; [exact Heq|]. apply (sd_online _ _ _ Hx). exists "peer". constructor.
Defined.
