(* ===== verification/Bridge.v ===== *)
(** * The bridge to the peers

    packages/transport/src/peerBridge.ts: the socket to the signaling server and
    its replacement after a loss, and the connections and channels to the peers.
    Sockets, connections and channels are numbers; what the bridge calls outside
    is kept in order.  What happens to a socket, a connection or a channel is an
    event, with any delay after the bridge closed it; what is awaited of WebRTC
    is a task whose end is an event too.  The wait before a retry is the double
    the source computes from what [Math.random] gives; it ends when its timer
    fires. *)

From S2P Require Import Prelude Model JsString Json JsMap Effects Rooms Hub Settings Services.

From Stdlib Require Import QArith_base.

Open Scope Z_scope.

Definition FIRST_RETRY_MS : Z := 1000.
Definition MAX_RETRY_MS : Z := 30000.

(** What the bridge calls: [BridgeEvents], [PeerTransportHost], and the methods
    of sockets, channels and connections. *)
Inductive BridgeCall : Type :=
  | onStatus (status : string)
  | onNotice (message : string)
  | onPeer (peerId : string)
  | onClosed (peerId : string)
  | peerInbound (frame : PeerFrame.t)
  | peerBuffered (peerId : string) (bytes : Z)
  | peerOpen (peerId : string)
  | peerClosed (peerId : string)
  | SocketSends (socket : nat) (text : string)
  | SocketCloses (socket : nat)
  | ChannelSends (channel : nat) (data : Data)
  | ChannelIsClosed (channel : nat)
  | ConnectionIsClosed (connection : nat).

#[global] Instance BridgeCall_eq_dec : EqDecision BridgeCall.
Proof. solve_decision. Defined.

(** The [readyState] of a channel, as far as it is read. *)
Module DataChannel.
Record t : Type := mk {
  peerId : string;
  bulk : bool;
  isOpen : bool;
  bufferedAmount : Z;
}.

Definition set_isOpen x (c : t) : t := mk (peerId c) (bulk c) x (bufferedAmount c).
Definition set_bufferedAmount x (c : t) : t := mk (peerId c) (bulk c) (isOpen c) x.
End DataChannel.

(** What is awaited of a connection: an offer, with the peers that come after it
    in the room, or an answer. *)
Inductive BridgeTask : Type :=
  | Offering (peerId : string) (rest : list string)
  | Answering (peerId : string).

Module Bridge.
(** [made] sockets and [rtc] connections were made; [socketOpen]: whether the
    socket is past connecting.  [retryTimer] holds the milliseconds its timer was
    set to; [Math_random] what the random source of the process gives, draw by
    draw, and [draws] how many were used. *)
Record t : Type := mk {
  socket : option nat;
  socketOpen : bool;
  made : nat;
  connections : list (string * nat);
  rtc : list (string * list IceServer.t);
  control : list (string * nat);
  bulk : list (string * nat);
  channels : list DataChannel.t;
  ready : list string;
  outbound : bool;
  closingDeliberately : bool;
  room : option Rendezvous.t;
  retryDelayMs : Z;
  retryTimer : option Q;
  outageReported : bool;
  wakeHooked : bool;
  iceServers : list IceServer.t;
  tasks : list BridgeTask;
  calls : list BridgeCall;
  Math_random : nat → Q;
  draws : nat;
}.

Definition set_socket x o n (b : t) : t := mk x o n (connections b) (rtc b) (control b) (bulk b) (channels b)
  (ready b) (outbound b) (closingDeliberately b) (room b) (retryDelayMs b) (retryTimer b) (outageReported b)
  (wakeHooked b) (iceServers b) (tasks b) (calls b)
  (Math_random b) (draws b).
Definition set_peers c k u r (b : t) : t := mk (socket b) (socketOpen b) (made b) c (rtc b) k u (channels b)
  r (outbound b) (closingDeliberately b) (room b) (retryDelayMs b) (retryTimer b) (outageReported b)
  (wakeHooked b) (iceServers b) (tasks b) (calls b)
  (Math_random b) (draws b).
Definition set_objects r c (b : t) : t := mk (socket b) (socketOpen b) (made b) (connections b) r (control b)
  (bulk b) c (ready b) (outbound b) (closingDeliberately b) (room b) (retryDelayMs b) (retryTimer b)
  (outageReported b) (wakeHooked b) (iceServers b) (tasks b) (calls b) (Math_random b) (draws b).
Definition set_outbound x (b : t) : t := mk (socket b) (socketOpen b) (made b) (connections b) (rtc b) (control b)
  (bulk b) (channels b) (ready b) x (closingDeliberately b) (room b) (retryDelayMs b) (retryTimer b)
  (outageReported b) (wakeHooked b) (iceServers b) (tasks b) (calls b) (Math_random b) (draws b).
Definition set_room x r (b : t) : t := mk (socket b) (socketOpen b) (made b) (connections b) (rtc b) (control b)
  (bulk b) (channels b) (ready b) (outbound b) x r (retryDelayMs b) (retryTimer b)
  (outageReported b) (wakeHooked b) (iceServers b) (tasks b) (calls b) (Math_random b) (draws b).
Definition set_retry d w o (b : t) : t := mk (socket b) (socketOpen b) (made b) (connections b) (rtc b) (control b)
  (bulk b) (channels b) (ready b) (outbound b) (closingDeliberately b) (room b) d w
  o (wakeHooked b) (iceServers b) (tasks b) (calls b)
  (Math_random b) (draws b).
Definition set_wakeHooked x (b : t) : t := mk (socket b) (socketOpen b) (made b) (connections b) (rtc b) (control b)
  (bulk b) (channels b) (ready b) (outbound b) (closingDeliberately b) (room b) (retryDelayMs b) (retryTimer b)
  (outageReported b) x (iceServers b) (tasks b) (calls b) (Math_random b) (draws b).
Definition set_iceServers x (b : t) : t := mk (socket b) (socketOpen b) (made b) (connections b) (rtc b) (control b)
  (bulk b) (channels b) (ready b) (outbound b) (closingDeliberately b) (room b) (retryDelayMs b) (retryTimer b)
  (outageReported b) (wakeHooked b) x (tasks b) (calls b) (Math_random b) (draws b).
Definition set_tasks x (b : t) : t := mk (socket b) (socketOpen b) (made b) (connections b) (rtc b) (control b)
  (bulk b) (channels b) (ready b) (outbound b) (closingDeliberately b) (room b) (retryDelayMs b) (retryTimer b)
  (outageReported b) (wakeHooked b) (iceServers b) x (calls b) (Math_random b) (draws b).
Definition tell x (b : t) : t := mk (socket b) (socketOpen b) (made b) (connections b) (rtc b) (control b)
  (bulk b) (channels b) (ready b) (outbound b) (closingDeliberately b) (room b) (retryDelayMs b) (retryTimer b)
  (outageReported b) (wakeHooked b) (iceServers b) (tasks b) (calls b ++ x) (Math_random b) (draws b).
Definition set_draws x (b : t) : t := mk (socket b) (socketOpen b) (made b) (connections b) (rtc b) (control b)
  (bulk b) (channels b) (ready b) (outbound b) (closingDeliberately b) (room b) (retryDelayMs b) (retryTimer b)
  (outageReported b) (wakeHooked b) (iceServers b) (tasks b) (calls b) (Math_random b) x.
End Bridge.

Section bridge.
(** The host of a URL, if it is one; the addresses the constructor of a socket
    takes; and whether there is a window, whose events tell of a device that
    woke. *)
Context (url_host : string → option string) (opens : string → bool) (has_window : bool).
Implicit Types b : Bridge.t.

Definition default_ice : list IceServer.t := [IceServer.mk "stun:stun.l.google.com:19302" None None].

Definition new_bridge (Math_random : nat → Q) (iceServers : option (list IceServer.t)) : Bridge.t :=
  Bridge.mk None false 0 [] [] [] [] [] [] false false None 0 None false false
    (default default_ice iceServers) [] [] Math_random 0.

Definition useIceServers (servers : list IceServer.t) b : Bridge.t :=
  if decide (servers = []) then b else Bridge.set_iceServers servers b.

Definition serverName (signalUrl : string) : string := default signalUrl (url_host signalUrl).

(** ** The socket *)

Definition outage (server detail : string) : string :=
  if decide (detail = EmptyString)
  then "Lost the connection to " +:+ server +:+ ". Trying again automatically — check that this device is online, and that the address under Devices → Connection server is right."
  else server +:+ " closed the connection: " +:+ detail +:+ ". Trying again automatically.".

Definition next_delay (delay : Z) : Z :=
  if delay =? 0 then FIRST_RETRY_MS else Z.min (delay * 2) MAX_RETRY_MS.

(** [this.retryDelayMs * (0.5 + Math.random() * 0.5)]: each operation is rounded
    to a double. *)
Definition jittered (delay : Z) (random : Q) : Q :=
  nearest (inject_Z delay * nearest ((1 # 2) + nearest (random * (1 # 2)))).

Definition scheduleRetry (server detail : string) b : Bridge.t :=
  match Bridge.room b with
  | None => b
  | Some _ =>
      match Bridge.retryTimer b with
      | Some _ => b
      | None =>
          let stillSyncing := negb (bool_decide (Bridge.ready b = [])) in
          let reported := Bridge.outageReported b in
          let delay := next_delay (Bridge.retryDelayMs b) in
          let wait := jittered delay (Bridge.Math_random b (Bridge.draws b)) in
          let b := Bridge.set_retry delay (Some wait) (if stillSyncing then reported else true)
                     (Bridge.set_draws (S (Bridge.draws b)) b) in
          if stillSyncing then b
          else Bridge.tell (onStatus "Reconnecting…" :: if reported then [] else [onNotice (outage server detail)]) b
      end
  end.

Definition openSocket b : Bridge.t :=
  match Bridge.room b with
  | None => b
  | Some room =>
      let b := Bridge.tell [onStatus (if Bridge.retryDelayMs b =? 0 then "Connecting…" else "Reconnecting…")] b in
      if opens (Rendezvous.signalUrl room)
      then Bridge.set_socket (Some (Bridge.made b)) false (S (Bridge.made b)) b
      else scheduleRetry (serverName (Rendezvous.signalUrl room)) "" b
  end.

(** The text of the join. *)
Definition join_text (room : Rendezvous.t) (localPeerId : string) : string :=
  JSON_stringify (JObj [("type", JStr "join"); ("roomId", JStr (Rendezvous.roomId room));
    ("inviteToken", JStr (Rendezvous.inviteToken room)); ("peerId", JStr localPeerId)]).

(** The listener of [open]; [room] is that of [openSocket]. *)
Definition socket_opened (localPeerId : string) (room : Rendezvous.t) (socket : nat) b : Bridge.t :=
  let b := Bridge.set_retry 0 (Bridge.retryTimer b) false b in
  let b := if decide (Bridge.socket b = Some socket)
           then Bridge.set_socket (Bridge.socket b) true (Bridge.made b) b else b in
  Bridge.tell [onStatus "Finding your other device…"; SocketSends socket (join_text room localPeerId)] b.

Definition failed (socket : nat) (server detail : string) b : Bridge.t :=
  if Bridge.closingDeliberately b then b
  else if decide (Bridge.socket b = Some socket)
       then scheduleRetry server detail (Bridge.set_socket None false (Bridge.made b) b)
       else b.

Definition retry_fires b : Bridge.t :=
  openSocket (Bridge.set_retry (Bridge.retryDelayMs b) None (Bridge.outageReported b) b).

Definition wake (hidden : bool) b : Bridge.t :=
  match Bridge.room b, Bridge.socket b with
  | Some _, None =>
      if hidden then b else openSocket (Bridge.set_retry 0 None (Bridge.outageReported b) b)
  | _, _ => b
  end.

Definition hookWakeEvents b : Bridge.t :=
  if Bridge.wakeHooked b || negb has_window then b else Bridge.set_wakeHooked true b.

(** ** The peers *)

Definition close_channel (channel : nat) b : Bridge.t :=
  Bridge.tell [ChannelIsClosed channel]
    (Bridge.set_objects (Bridge.rtc b) (alter (DataChannel.set_isOpen false) channel (Bridge.channels b)) b).

Definition teardown (peerId : string) b : Bridge.t :=
  let control := map_get peerId (Bridge.control b) in
  let bulk := map_get peerId (Bridge.bulk b) in
  let connection := map_get peerId (Bridge.connections b) in
  match control, bulk, connection with
  | None, None, None => b
  | _, _, _ =>
      let b := Bridge.set_peers (map_delete peerId (Bridge.connections b)) (map_delete peerId (Bridge.control b))
                 (map_delete peerId (Bridge.bulk b)) (set_delete (Bridge.ready b) peerId) b in
      let b := match control with Some c => close_channel c b | None => b end in
      let b := match bulk with Some c => close_channel c b | None => b end in
      let b := match connection with Some c => Bridge.tell [ConnectionIsClosed c] b | None => b end in
      Bridge.tell [peerClosed peerId; onClosed peerId] b
  end.

(** [attach] of a channel that the connection has just made. *)
Definition attach (peerId : string) (isBulk : bool) b : Bridge.t :=
  let c := length (Bridge.channels b) in
  let b := Bridge.set_objects (Bridge.rtc b)
             (Bridge.channels b ++ [DataChannel.mk peerId isBulk false 0]) b in
  if isBulk
  then Bridge.set_peers (Bridge.connections b) (Bridge.control b) (map_set peerId c (Bridge.bulk b)) (Bridge.ready b) b
  else Bridge.set_peers (Bridge.connections b) (map_set peerId c (Bridge.control b)) (Bridge.bulk b) (Bridge.ready b) b.

(** [openConnection], to what it awaits: whether there is an offer to wait for. *)
Definition openConnection (peerId : string) (initiator : bool) b : Bridge.t * bool :=
  match map_get peerId (Bridge.connections b) with
  | Some _ => (b, false)
  | None =>
      let n := length (Bridge.rtc b) in
      let b := Bridge.set_objects (Bridge.rtc b ++ [(peerId, Bridge.iceServers b)]) (Bridge.channels b) b in
      let b := Bridge.set_peers (map_set peerId n (Bridge.connections b)) (Bridge.control b) (Bridge.bulk b)
                 (Bridge.ready b) b in
      if initiator then (attach peerId true (attach peerId false b), true) else (b, false)
  end.

(** The loop over the peers of the room, to the first offer it awaits. *)
Fixpoint open_peers (peers : list string) b : Bridge.t :=
  match peers with
  | [] => b
  | peerId :: rest =>
      match openConnection peerId true b with
      | (b, true) => Bridge.set_tasks (Bridge.tasks b ++ [Offering peerId rest]) b
      | (b, false) => open_peers rest b
      end
  end.

Definition disconnect b : Bridge.t :=
  let b := Bridge.set_room true None b in
  let b := Bridge.set_retry (Bridge.retryDelayMs b) None (Bridge.outageReported b) b in
  let b := if Bridge.wakeHooked b && has_window then Bridge.set_wakeHooked false b else b in
  let b := Bridge.set_outbound false b in
  let b := foldl (λ b peerId, teardown peerId b) b (Bridge.connections b).*1 in
  let b := match Bridge.socket b with Some n => Bridge.tell [SocketCloses n] b | None => b end in
  Bridge.set_socket None false (Bridge.made b) b.

Definition connect (input : Rendezvous.t) b : Bridge.t :=
  let b := disconnect b in
  let b := Bridge.set_room false (Some input) b in
  let b := Bridge.set_retry 0 (Bridge.retryTimer b) false b in
  let b := Bridge.set_outbound true b in
  openSocket (hookWakeEvents b).

(** [sendSignal]: [None] when the socket is still connecting, and throws. *)
Definition sendSignal (targetPeerId : string) (payload : json) b : option Bridge.t :=
  match Bridge.socket b with
  | None => Some b
  | Some n =>
      if Bridge.socketOpen b
      then Some (Bridge.tell [SocketSends n (JSON_stringify (JObj [("type", JStr "signal");
             ("targetPeerId", JStr targetPeerId); ("payload", payload)]))] b)
      else None
  end.

(** The end of an offer: its description, or nothing when WebRTC failed.  What is
    thrown ends the loop over the room. *)
Definition offer_done (peerId : string) (rest : list string) (description : option json) b : Bridge.t :=
  match description with
  | None => b
  | Some offer =>
      match sendSignal peerId (JObj [("type", JStr "offer"); ("description", offer)]) b with
      | Some b => open_peers rest b
      | None => b
      end
  end.

Definition answer_done (peerId : string) (description : option json) b : Bridge.t :=
  match description with
  | None => b
  | Some answer => default b (sendSignal peerId (JObj [("type", JStr "answer"); ("description", answer)]) b)
  end.

Definition task_done (task : BridgeTask) (description : option json) b : Bridge.t :=
  match task with
  | Offering peerId rest => offer_done peerId rest description b
  | Answering peerId => answer_done peerId description b
  end.

(** The first of what is awaited of a signal; the rest are calls of WebRTC. *)
Definition applySignal (peerId : string) (payload : option json) b : Bridge.t :=
  match map_get peerId (Bridge.connections b), payload with
  | Some _, Some (JObj members) =>
      match member "type" members, member "description" members with
      | Some (JStr kind), Some _ =>
          if decide (kind = "offer") then Bridge.set_tasks (Bridge.tasks b ++ [Answering peerId]) b else b
      | _, _ => b
      end
  | _, _ => b
  end.

Definition handleSignal (message : ServerSignalMessage) b : Bridge.t :=
  match message with
  | joined_message _ _ existingPeerIds =>
      open_peers existingPeerIds
        (Bridge.tell [onStatus (if decide (existingPeerIds = []) then "Waiting for your other device"
                                else "Connecting to your other device…")] b)
  | peer_joined peerId => (openConnection peerId false b).1
  | peer_left peerId => if decide (peerId ∈ Bridge.ready b) then b else teardown peerId b
  | signal_from fromPeerId payload => applySignal fromPeerId payload b
  | signal_error message =>
      Bridge.tell [onStatus "Server refused";
        onNotice ("The connection server would not let this device in: " +:+ message
                  +:+ ". If you were pairing, the code may have expired — ask for a new one.")] b
  end.

(** The listener of [connectionstatechange]; [state] is failed or closed. *)
Definition state_changed (peerId : string) (isFailed : bool) b : Bridge.t :=
  teardown peerId
    (if isFailed
     then Bridge.tell [onStatus "Couldn't connect";
       onNotice "Both devices found each other, but no direct connection could be made — some networks, mobile ones especially, block that. Add a relay under Devices → Connection server to get past it."] b
     else b).

Definition channel_open (c : option nat) b : bool :=
  match c ≫= λ c, Bridge.channels b !! c with Some channel => DataChannel.isOpen channel | None => false end.

Definition maybeReady (peerId : string) b : Bridge.t :=
  if negb (channel_open (map_get peerId (Bridge.control b)) b)
     || negb (channel_open (map_get peerId (Bridge.bulk b)) b)
     || bool_decide (peerId ∈ Bridge.ready b)
  then b
  else Bridge.tell [peerOpen peerId; onPeer peerId]
         (Bridge.set_peers (Bridge.connections b) (Bridge.control b) (Bridge.bulk b)
            (set_add (Bridge.ready b) peerId) b).

(** The listener of [message]. *)
Definition channel_message (channel : DataChannel.t) (data : Data) b : Bridge.t :=
  match DataChannel.bulk channel, data with
  | true, Bytes bytes =>
      Bridge.tell [peerInbound (PeerFrame.mk (DataChannel.peerId channel) Hub.bulk None (Some bytes))] b
  | false, Text text =>
      Bridge.tell [peerInbound (PeerFrame.mk (DataChannel.peerId channel) Hub.control (Some text) None)] b
  | _, _ => b
  end.

(** [queued] is the [bufferedAmount] after the send. *)
Definition forwardOutbound (frame : PeerFrame.t) (queued : Z) b : Bridge.t :=
  let c := map_get (PeerFrame.peerId frame)
             (match PeerFrame.channel frame with Hub.bulk => Bridge.bulk b | Hub.control => Bridge.control b end) in
  match c with
  | Some c =>
      if negb (channel_open (Some c) b) then b
      else match PeerFrame.text frame, PeerFrame.bytes frame with
           | Some text, _ => Bridge.tell [ChannelSends c (Text text)] b
           | None, Some bytes =>
               Bridge.tell [ChannelSends c (Bytes bytes); peerBuffered (PeerFrame.peerId frame) queued] b
           | None, None => b
           end
  | None => b
  end.

(** ** Events *)

Inductive BridgeEvent : Type :=
  | Connects (input : Rendezvous.t)
  | Disconnected
  | UsesIce (servers : list IceServer.t)
  | SocketOpens (socket : nat) (room : Rendezvous.t)
  | SocketHears (message : ServerSignalMessage)
  | SocketFails (socket : nat) (server detail : string)
  | RetryFires
  | Wakes (hidden : bool)
  | SendsOut (frame : PeerFrame.t) (queued : Z)
  | FindsCandidate (peerId : string) (candidate : json)
  | StateChanges (peerId : string) (isFailed : bool)
  | ReceivesChannel (peerId : string) (isBulk : bool)
  | ChannelOpens (channel : nat)
  | ChannelHears (channel : nat) (data : Data)
  | ChannelCloses (channel : nat)
  | ChannelDrains (channel : nat) (bytes : Z)
  | TaskEnds (task : nat) (description : option json).

(** When an event can be: what it speaks of is there. *)
Definition can_happen b (event : BridgeEvent) : Prop :=
  match event with
  | SocketOpens n room => Bridge.socket b = Some n ∧ Bridge.room b = Some room ∧ Bridge.socketOpen b = false
  | SocketHears _ => is_Some (Bridge.socket b)
  | SocketFails n _ _ => (n < Bridge.made b)%nat
  | RetryFires => is_Some (Bridge.retryTimer b)
  | Wakes _ => Bridge.wakeHooked b = true
  | SendsOut _ _ => Bridge.outbound b = true
  | FindsCandidate peerId _ | StateChanges peerId _ | ReceivesChannel peerId _ => peerId ∈ (Bridge.rtc b).*1
  | ChannelOpens c | ChannelHears c _ | ChannelCloses c | ChannelDrains c _ => is_Some (Bridge.channels b !! c)
  | TaskEnds i _ => is_Some (Bridge.tasks b !! i)
  | _ => True
  end.

Definition on_event (localPeerId : string) (event : BridgeEvent) b : Bridge.t :=
  match event with
  | Connects input => connect input b
  | Disconnected => disconnect b
  | UsesIce servers => useIceServers servers b
  | SocketOpens n room => socket_opened localPeerId room n b
  | SocketHears message => handleSignal message b
  | SocketFails n server detail => failed n server detail b
  | RetryFires => retry_fires b
  | Wakes hidden => wake hidden b
  | SendsOut frame queued => forwardOutbound frame queued b
  | FindsCandidate peerId candidate =>
      default b (sendSignal peerId (JObj [("type", JStr "ice"); ("candidate", candidate)]) b)
  | StateChanges peerId isFailed => state_changed peerId isFailed b
  | ReceivesChannel peerId isBulk => attach peerId isBulk b
  | ChannelOpens c =>
      match Bridge.channels b !! c with
      | Some channel => maybeReady (DataChannel.peerId channel)
          (Bridge.set_objects (Bridge.rtc b) (alter (DataChannel.set_isOpen true) c (Bridge.channels b)) b)
      | None => b
      end
  | ChannelHears c data =>
      match Bridge.channels b !! c with Some channel => channel_message channel data b | None => b end
  | ChannelCloses c =>
      match Bridge.channels b !! c with
      | Some channel => teardown (DataChannel.peerId channel)
          (Bridge.set_objects (Bridge.rtc b) (alter (DataChannel.set_isOpen false) c (Bridge.channels b)) b)
      | None => b
      end
  | ChannelDrains c bytes =>
      match Bridge.channels b !! c with
      | Some channel => if DataChannel.bulk channel
                        then Bridge.tell [peerBuffered (DataChannel.peerId channel) bytes] b else b
      | None => b
      end
  | TaskEnds i description =>
      match Bridge.tasks b !! i with
      | Some task => task_done task description (Bridge.set_tasks (delete i (Bridge.tasks b)) b)
      | None => b
      end
  end.

(** What [Math.random] gives: numbers from zero to under one. *)
Definition draws_of_unit (Math_random : nat → Q) : Prop := ∀ k, (0 <= Math_random k)%Q ∧ (Math_random k < 1)%Q.

Inductive bridged (localPeerId : string) : list BridgeEvent → Bridge.t → Prop :=
  | bridged_new Math_random ice : draws_of_unit Math_random →
      bridged localPeerId [] (new_bridge Math_random ice)
  | bridged_more events event b : bridged localPeerId events b → can_happen b event →
      bridged localPeerId (events ++ [event]) (on_event localPeerId event b).
End bridge.
