(* ===== verification/BridgeProps.v ===== *)
(** * The bridge to the peers: properties *)

From S2P Require Import Prelude Model Bytes JsString Json JsMap Effects Store BlobStore Engine Rooms Hub Settings.
From S2P Require Import JsonProps VaultFile Services Bridge.
From Stdlib Require Import QArith Lqa.

Open Scope Z_scope.

Section bridge.
Context (url_host : string → option string) (opens : string → bool) (has_window : bool).
Context (localPeerId : string).
Implicit Types b : Bridge.t.
Abbreviation on_event := (on_event url_host opens has_window localPeerId).
Abbreviation bridged := (bridged url_host opens has_window localPeerId).

(** ** What the peers leave alone *)

(** The socket, the room and the retry are the same; and what was called meanwhile. *)
Record wire_same b b' : Prop := WireSame {
  ws_socket : Bridge.socket b' = Bridge.socket b;
  ws_room : Bridge.room b' = Bridge.room b;
  ws_closing : Bridge.closingDeliberately b' = Bridge.closingDeliberately b;
  ws_delay : Bridge.retryDelayMs b' = Bridge.retryDelayMs b;
  ws_timer : Bridge.retryTimer b' = Bridge.retryTimer b;
  ws_reported : Bridge.outageReported b' = Bridge.outageReported b;
  ws_hooked : Bridge.wakeHooked b' = Bridge.wakeHooked b;
  ws_outbound : Bridge.outbound b' = Bridge.outbound b;
  ws_random : Bridge.Math_random b' = Bridge.Math_random b;
  ws_draws : Bridge.draws b' = Bridge.draws b;
}.

#[global] Instance wire_same_preorder : PreOrder wire_same.
Proof. split; [by split|]. intros ??? [] []. split; congruence. Qed.

Lemma close_wire c b : wire_same b (close_channel c b).
Proof. by split. Qed.

Lemma teardown_wire p b : wire_same b (teardown p b).
Proof.
  unfold teardown. destruct (map_get p (Bridge.control b)), (map_get p (Bridge.bulk b)),
    (map_get p (Bridge.connections b)); by split.
Qed.

Lemma teardowns_wire l b : wire_same b (foldl (λ b p, teardown p b) b l).
Proof. revert b. induction l as [|p l IH]; intros b; [done|]. simpl. etrans; [apply teardown_wire|apply IH]. Qed.

Lemma attach_wire p bulk b : wire_same b (attach p bulk b).
Proof. unfold attach. by destruct bulk; split. Qed.

Lemma openConnection_wire p initiator b : wire_same b (openConnection p initiator b).1.
Proof.
  unfold openConnection. destruct (map_get p _); [done|]. destruct initiator; [|by split].
  do 2 (etrans; [|apply attach_wire]). by split.
Qed.

Lemma open_peers_wire l b : wire_same b (open_peers l b).
Proof.
  revert b. induction l as [|p l IH]; intros b; simpl; [done|].
  pose proof (openConnection_wire p true b) as Hw. destruct (openConnection p true b) as [b1 []]; simpl in Hw.
  - etrans; [exact Hw|]. by split.
  - etrans; [exact Hw|apply IH].
Qed.

Lemma sendSignal_wire p payload b b' : sendSignal p payload b = Some b' → wire_same b b'.
Proof.
  unfold sendSignal. destruct (Bridge.socket b) as [n|] eqn:Hs; [destruct (Bridge.socketOpen b)|];
    intros; simplify_eq; by split.
Qed.

Lemma task_wire task description b : wire_same b (task_done task description b).
Proof.
  destruct task as [p rest|p]; simpl; [unfold offer_done|unfold answer_done]; destruct description as [d|]; try done.
  - destruct (sendSignal _ _ b) as [b1|] eqn:Hs; [|done]. etrans; [by eapply sendSignal_wire|apply open_peers_wire].
  - destruct (sendSignal _ _ b) as [b1|] eqn:Hs; simpl; [by eapply sendSignal_wire|done].
Qed.

Lemma applySignal_wire p payload b : wire_same b (applySignal p payload b).
Proof.
  unfold applySignal. repeat case_match; try done; by split.
Qed.

Lemma handleSignal_wire message b : wire_same b (handleSignal message b).
Proof.
  destruct message as [room p ids|p|p|p payload|text]; simpl.
  - etrans; [|apply open_peers_wire]. by split.
  - apply openConnection_wire.
  - case_decide; [done|apply teardown_wire].
  - apply applySignal_wire.
  - by split.
Qed.

Lemma maybeReady_wire p b : wire_same b (maybeReady p b).
Proof. unfold maybeReady. destruct (_ || _); [done|by split]. Qed.

Lemma forward_wire frame queued b : wire_same b (forwardOutbound frame queued b).
Proof. unfold forwardOutbound. repeat case_match; try done; by split. Qed.

(** The events of peers, and the others. *)
Definition of_peers (event : BridgeEvent) : bool :=
  match event with
  | Connects _ | Disconnected | SocketOpens _ _ | SocketFails _ _ _ | RetryFires | Wakes _ => false
  | _ => true
  end.

Lemma peers_wire event b : of_peers event = true → wire_same b (on_event event b).
Proof.
  destruct event; try done; intros _; simpl.
  - unfold useIceServers. case_decide; [done|by split].
  - apply handleSignal_wire.
  - apply forward_wire.
  - destruct (sendSignal _ _ b) as [b1|] eqn:Hs; simpl; [by eapply sendSignal_wire|done].
  - unfold state_changed. etrans; [|apply teardown_wire]. destruct isFailed; by split.
  - apply attach_wire.
  - case_match; [|done]. etrans; [|apply maybeReady_wire]. by split.
  - case_match; [|done]. unfold channel_message. repeat case_match; try done; by split.
  - case_match; [|done]. etrans; [|apply teardown_wire]. by split.
  - case_match; [|done]. case_match; by split.
  - case_match; [|done]. etrans; [|apply task_wire]. by split.
Qed.

(** ** Coming back *)

(** The wait before the [n]th retry in a row, before the jitter. *)
Definition backoff (n : nat) : Z := match n with O => 0 | S m => Z.min (1000 * 2 ^ Z.of_nat m) 30000 end.

Lemma next_backoff n : next_delay (backoff n) = backoff (S n).
Proof.
  destruct n as [|m]; [done|]. unfold next_delay, backoff, FIRST_RETRY_MS, MAX_RETRY_MS.
  pose proof (Z.pow_pos_nonneg 2 (Z.of_nat m) ltac:(lia) ltac:(lia)).
  rewrite (Nat2Z.inj_succ m), Z.pow_succ_r by lia.
  destruct (Z.eqb_spec (Z.min (1000 * 2 ^ Z.of_nat m) 30000) 0); lia.
Qed.

(** A wait is between the half and the whole of the time it is drawn for. *)
Definition within_half (delay : Z) (wait : Q) : Prop :=
  (inject_Z delay * (1 # 2) <= wait)%Q ∧ (wait <= inject_Z delay)%Q.

Lemma jittered_within delay random : 0 <= delay <= 30000 → (0 <= random)%Q → (random < 1)%Q →
  within_half delay (jittered delay random).
Proof.
  intros Hd Hr0 Hr1. unfold jittered, within_half. set (h := nearest (random * (1 # 2))).
  assert (inject_Z 0 <= h * inject_Z (2 ^ 1) ∧ h * inject_Z (2 ^ 1) <= inject_Z 1)%Q as [Hh0 Hh1].
  { apply nearest_between; [lia..|]. change (inject_Z (2 ^ 1)) with 2%Q. change (inject_Z 0) with 0%Q.
    change (inject_Z 1) with 1%Q. split; lra. }
  set (f := nearest ((1 # 2) + h)).
  assert (inject_Z 1 <= f * inject_Z (2 ^ 1) ∧ f * inject_Z (2 ^ 1) <= inject_Z 2)%Q as [Hf0 Hf1].
  { apply nearest_between; [lia..|]. change (inject_Z (2 ^ 1)) with 2%Q in *. change (inject_Z 0) with 0%Q in *.
    change (inject_Z 1) with 1%Q in *. change (inject_Z 2) with 2%Q. split; lra. }
  assert (0 <= inject_Z delay)%Q as Hd0 by (change 0%Q with (inject_Z 0); rewrite <-Zle_Qle; lia).
  change (inject_Z (2 ^ 1)) with 2%Q in *. change (inject_Z 1) with 1%Q in *. change (inject_Z 2) with 2%Q in *.
  destruct (nearest_between 1 delay (2 * delay) (inject_Z delay * f)) as [Hw0 Hw1]; [lia..| |].
  - change (inject_Z (2 ^ 1)) with 2%Q. rewrite inject_Z_mult. change (inject_Z 2) with 2%Q. split; nra.
  - change (inject_Z (2 ^ 1)) with 2%Q in *. rewrite inject_Z_mult in Hw1. change (inject_Z 2) with 2%Q in *.
    split; lra.
Qed.

Lemma backoff_bounds n : 0 <= backoff n <= 30000.
Proof.
  destruct n as [|m]; [done|]. unfold backoff. pose proof (Z.pow_pos_nonneg 2 (Z.of_nat m) ltac:(lia) ltac:(lia)). lia.
Qed.

(** What starts the count of the retries again: a socket that opens, the person
    who connects, and a device that wakes without a socket. *)
Definition starts_afresh (event : BridgeEvent) b : bool :=
  match event with
  | Connects _ | SocketOpens _ _ => true
  | Wakes hidden => negb hidden && bool_decide (is_Some (Bridge.room b)) && bool_decide (Bridge.socket b = None)
  | _ => false
  end.

(** The timers set in a row: each takes one draw. *)
Definition retries (event : BridgeEvent) (n : nat) b : nat :=
  (if starts_afresh event b then 0 else n) + (Bridge.draws (on_event event b) - Bridge.draws b).

(** The bridge after these events, with the timers it set in a row. *)
Inductive tried : nat → list BridgeEvent → Bridge.t → Prop :=
  | tried_new Math_random ice : draws_of_unit Math_random → tried 0 [] (new_bridge Math_random ice)
  | tried_more n events event b : tried n events b → can_happen b event →
      tried (retries event n b) (events ++ [event]) (on_event event b).

Lemma bridged_tried events b : bridged events b ↔ ∃ n, tried n events b.
Proof.
  split.
  - induction 1 as [random ice Hr|events event b _ [n IH] Hcan]; eexists; by constructor.
  - intros [n Hb]. induction Hb; by constructor.
Qed.

(** A device that is in a room has a socket, or a timer that will make one, and
    not both; one that is in none has neither. *)
Record steady (n : nat) b : Prop := Steady {
  st_some : ∀ r, Bridge.room b = Some r → Bridge.closingDeliberately b = false ∧
    (is_Some (Bridge.socket b) ∧ Bridge.retryTimer b = None ∨
     Bridge.socket b = None ∧ is_Some (Bridge.retryTimer b)) ∧ Bridge.outbound b = true ∧
    Bridge.wakeHooked b = has_window;
  st_none : Bridge.room b = None → Bridge.socket b = None ∧ Bridge.retryTimer b = None ∧
    Bridge.outbound b = false ∧ Bridge.wakeHooked b = false;
  st_random : draws_of_unit (Bridge.Math_random b);
  st_delay : Bridge.retryDelayMs b = backoff n;
  st_wait : ∀ wait, Bridge.retryTimer b = Some wait → n ≠ 0%nat ∧ within_half (Bridge.retryDelayMs b) wait;
}.

Lemma steady_same n b b' : wire_same b b' → steady n b → steady n b'.
Proof.
  intros [Es Er Ec Ed Et Eo Eh Eu Em _] [Hs Hn Hm Hd Hw].
  split; rewrite ?Es, ?Er, ?Ec, ?Ed, ?Et, ?Eo, ?Eh, ?Eu, ?Em; done.
Qed.

(** A bridge that waits for nothing yet, and has a room. *)
Record unsettled (n : nat) b : Prop := Unsettled {
  un_room : is_Some (Bridge.room b);
  un_socket : Bridge.socket b = None;
  un_timer : Bridge.retryTimer b = None;
  un_closing : Bridge.closingDeliberately b = false;
  un_outbound : Bridge.outbound b = true;
  un_hooked : Bridge.wakeHooked b = has_window;
  un_random : draws_of_unit (Bridge.Math_random b);
  un_delay : Bridge.retryDelayMs b = backoff n;
}.

Lemma scheduleRetry_steady server detail n b : unsettled n b →
  steady (S n) (scheduleRetry server detail b) ∧ Bridge.draws (scheduleRetry server detail b) = S (Bridge.draws b).
Proof.
  intros [[r Hr] Hs Ht Hc Ho Hw Hm Hd]. unfold scheduleRetry. rewrite Hr, Ht, Hd, next_backoff.
  destruct (Hm (Bridge.draws b)) as [Hm0 Hm1].
  pose proof (jittered_within _ _ (backoff_bounds (S n)) Hm0 Hm1) as Hj.
  destruct (negb _); (split; [|done]); split; simpl; rewrite ?Hr, ?Hs, ?Hc, ?Ho, ?Hw; try done.
  1, 3: intros _ _; split_and!; [done|by right|done..].
  all: intros wait [= <-]; by split.
Qed.

Lemma openSocket_steady n b (b' := openSocket url_host opens b) : unsettled n b →
  steady (n + (Bridge.draws b' - Bridge.draws b)) b'.
Proof.
  intros Hu. pose proof Hu as [[r Hr] Hs Ht Hc Ho Hw Hm Hd]. subst b'. unfold openSocket. rewrite Hr.
  set (b1 := Bridge.tell _ b). assert (unsettled n b1) as Hu1 by by split.
  destruct (opens _).
  - simpl. rewrite Nat.sub_diag, Nat.add_0_r.
    split; simpl; rewrite ?Hr, ?Ht, ?Hc, ?Ho, ?Hw; try done. intros _ _. split_and!; [done|left|done..]. by split.
  - destruct (scheduleRetry_steady (serverName url_host (Rendezvous.signalUrl r)) "" n b1 Hu1) as [Hst ->].
    change (Bridge.draws b1) with (Bridge.draws b). by replace (n + _)%nat with (S n) by lia.
Qed.

Lemma disconnect_fields b (b' := disconnect has_window b) :
  Bridge.room b' = None ∧ Bridge.socket b' = None ∧ Bridge.retryTimer b' = None ∧ Bridge.outbound b' = false ∧
  Bridge.wakeHooked b' = Bridge.wakeHooked b && negb has_window ∧ Bridge.retryDelayMs b' = Bridge.retryDelayMs b ∧
  Bridge.Math_random b' = Bridge.Math_random b ∧ Bridge.draws b' = Bridge.draws b.
Proof.
  subst b'. unfold disconnect. set (b1 := Bridge.set_outbound false _).
  pose proof (teardowns_wire (Bridge.connections b1).*1 b1) as [Es Er _ Ed Et _ Eh Eu Em Ew].
  assert (Bridge.wakeHooked b1 = Bridge.wakeHooked b && negb has_window) as Hh.
  { subst b1. simpl. destruct (Bridge.wakeHooked b) eqn:E, has_window; simpl; done. }
  assert (Bridge.room b1 = None ∧ Bridge.retryTimer b1 = None ∧ Bridge.outbound b1 = false ∧
    Bridge.retryDelayMs b1 = Bridge.retryDelayMs b ∧ Bridge.Math_random b1 = Bridge.Math_random b ∧
    Bridge.draws b1 = Bridge.draws b) as (Hr & Ht & Ho & Hd & Hm & Hw).
  { subst b1. simpl. by destruct (Bridge.wakeHooked b && has_window). }
  set (b2 := foldl _ b1 _) in *. cbv zeta. destruct (Bridge.socket b2); simpl; split_and!; congruence.
Qed.

Lemma disconnect_steady n b : steady n b → steady n (disconnect has_window b).
Proof.
  intros [Hs Hn Hm Hd _]. destruct (disconnect_fields b) as (Er & Es & Et & Eo & Eh & Ed & Em & _).
  split; rewrite ?Er, ?Es, ?Et, ?Eo, ?Eh, ?Ed, ?Em; try done. intros _. split_and!; try done.
  destruct (Bridge.room b) as [r|] eqn:Hr.
  - destruct (Hs _ eq_refl) as (_ & _ & _ & ->). by destruct has_window.
  - by destruct (Hn eq_refl) as (_ & _ & _ & ->).
Qed.

Lemma connect_steady input n b (b' := connect url_host opens has_window input b) :
  steady n b → steady (Bridge.draws b' - Bridge.draws b) b'.
Proof.
  intros Hb. pose proof (disconnect_steady n b Hb) as [_ Hn Hm _ _].
  destruct (disconnect_fields b) as (Er & Es & Et & Eo & _ & _ & _ & Ew). destruct (Hn Er) as (_ & _ & _ & Eh).
  subst b'. unfold connect. rewrite <-Ew. unfold hookWakeEvents. generalize dependent (disconnect has_window b).
  intros b1 _ Hm _ Es Et _ _ Eh. simpl. rewrite Eh. simpl.
  set (b2 := if negb has_window then _ else _).
  replace (Bridge.draws b1) with (Bridge.draws b2) by (subst b2; by destruct has_window).
  apply (openSocket_steady 0). subst b2.
  destruct has_window eqn:Hwin; simpl; split; simpl; rewrite ?Es, ?Et, ?Eh; done.
Qed.

Lemma event_steady event n b : steady n b → can_happen b event → steady (retries event n b) (on_event event b).
Proof.
  intros Hb Hcan. unfold retries. destruct (of_peers event) eqn:Hp.
  { pose proof (peers_wire event b Hp) as Hw. rewrite (ws_draws _ _ Hw), Nat.sub_diag, Nat.add_0_r.
    replace (starts_afresh event b) with false by by destruct event. by eapply steady_same. }
  pose proof Hb as [Hs Hn Hm Hd Hw]. destruct event; try done; cbn [starts_afresh on_event can_happen] in *.
  - by eapply connect_steady.
  - destruct (disconnect_fields b) as (_ & _ & _ & _ & _ & _ & _ & Ew). rewrite Ew, Nat.sub_diag, Nat.add_0_r.
    by apply disconnect_steady.
  - destruct Hcan as (Es & Er & _). destruct (Hs _ Er) as (Hc & [[_ Ht]|[? _]] & Ho & Hh); [|congruence].
    unfold socket_opened. cbn [Bridge.socket Bridge.set_retry]. rewrite decide_True by done.
    simpl. rewrite Nat.sub_diag.
    split; simpl; rewrite ?Es, ?Er, ?Hc, ?Ht, ?Ho, ?Hh; try done. intros _ _. split_and!; [done|left|done..]. by split.
  - unfold failed. destruct (Bridge.closingDeliberately b) eqn:Hc; [by rewrite Nat.sub_diag, Nat.add_0_r|].
    case_decide as Es; [|by rewrite Nat.sub_diag, Nat.add_0_r].
    destruct (Bridge.room b) as [r|] eqn:Er; [|by destruct (Hn eq_refl); congruence].
    destruct (Hs _ eq_refl) as (_ & [[_ Ht]|[? _]] & Ho & Hh); [|congruence].
    destruct (scheduleRetry_steady server detail n (Bridge.set_socket None false (Bridge.made b) b)) as [Hst ->].
    { split; simpl; rewrite ?Er; done. }
    simpl Bridge.draws. by replace (n + _)%nat with (S n) by lia.
  - unfold retry_fires. destruct (Bridge.room b) as [r|] eqn:Er.
    2:{ destruct (Hn eq_refl) as (_ & Ht & _). rewrite Ht in Hcan. by destruct Hcan. }
    destruct (Hs _ eq_refl) as (Hc & [[_ Ht]|[Es _]] & Ho & Hh); [rewrite Ht in Hcan; by destruct Hcan|].
    set (b1 := Bridge.set_retry _ _ _ b). change (Bridge.draws b) with (Bridge.draws b1).
    apply openSocket_steady. split; simpl; rewrite ?Er; done.
  - unfold wake. destruct (Bridge.room b) as [r|] eqn:Er;
      [|rewrite bool_decide_false, andb_false_r by (by intros [? ?]); by rewrite Nat.sub_diag, Nat.add_0_r].
    destruct (Bridge.socket b) eqn:Es;
      [rewrite (bool_decide_false (Some _ = None)), andb_false_r by done; by rewrite Nat.sub_diag, Nat.add_0_r|].
    destruct hidden; [by rewrite Nat.sub_diag, Nat.add_0_r|]. destruct (Hs _ eq_refl) as (Hc & _ & Ho & Hh).
    rewrite !bool_decide_true by (done || by eexists). simpl negb. simpl andb. cbv iota.
    set (b1 := Bridge.set_retry _ _ _ b). change (Bridge.draws b) with (Bridge.draws b1).
    apply openSocket_steady. split; simpl; rewrite ?Er; done.
Qed.

Lemma tried_steady n events b : tried n events b → steady n b.
Proof. induction 1 as [random ice Hr|n events event b _ IH Hcan]; [by split|by apply event_steady]. Qed.

(** ** A device that left *)

Definition sends (call : BridgeCall) : bool := match call with SocketSends _ _ => true | _ => false end.

(** A step without a socket, over which nothing is sent. *)
Definition unheard b b' : Prop :=
  Bridge.socket b = None → Bridge.socket b' = None ∧
  ∃ new, Bridge.calls b' = Bridge.calls b ++ new ∧ Forall (λ call, sends call = false) new.

#[global] Instance unheard_preorder : PreOrder unheard.
Proof.
  split.
  - intros b Hs. split; [done|]. exists []. by rewrite app_nil_r.
  - intros b1 b2 b3 H1 H2 Hs. destruct (H1 Hs) as (Hs2 & n1 & E1 & F1), (H2 Hs2) as (Hs3 & n2 & E2 & F2).
    split; [done|]. exists (n1 ++ n2). split; [by rewrite E2, E1, app_assoc|by apply Forall_app].
Qed.

Lemma unheard_calls new b b' : Bridge.socket b' = Bridge.socket b → Bridge.calls b' = Bridge.calls b ++ new →
  Forall (λ call, sends call = false) new → unheard b b'.
Proof. intros Es Ec Hn Hs. split; [congruence|by exists new]. Qed.

Lemma unheard_fields b b' : Bridge.socket b' = Bridge.socket b → Bridge.calls b' = Bridge.calls b → unheard b b'.
Proof. intros Es Ec. apply (unheard_calls []); rewrite ?app_nil_r; done. Qed.

Lemma unheard_tell calls b : Forall (λ call, sends call = false) calls → unheard b (Bridge.tell calls b).
Proof. by apply unheard_calls. Qed.

Lemma close_unheard c b : unheard b (close_channel c b).
Proof. apply (unheard_calls [ChannelIsClosed c]); [done..|by constructor]. Qed.

Lemma teardown_unheard p b : unheard b (teardown p b).
Proof.
  unfold teardown. destruct (map_get p (Bridge.control b)) as [c|], (map_get p (Bridge.bulk b)) as [u|],
    (map_get p (Bridge.connections b)) as [n|]; try done; (etrans; [|by apply unheard_tell; repeat constructor]);
    repeat first [by apply unheard_fields | etrans; [|apply close_unheard]
                 | etrans; [|by apply unheard_tell; repeat constructor]].
Qed.

Lemma teardowns_unheard l b : unheard b (foldl (λ b p, teardown p b) b l).
Proof. revert b. induction l as [|p l IH]; intros b; [done|]. simpl. etrans; [apply teardown_unheard|apply IH]. Qed.

Lemma attach_unheard p bulk b : unheard b (attach p bulk b).
Proof. unfold attach. by destruct bulk; apply unheard_fields. Qed.

Lemma openConnection_unheard p initiator b : unheard b (openConnection p initiator b).1.
Proof.
  unfold openConnection. destruct (map_get p _); [done|]. destruct initiator; [|by apply unheard_fields].
  do 2 (etrans; [|apply attach_unheard]). by apply unheard_fields.
Qed.

Lemma open_peers_unheard l b : unheard b (open_peers l b).
Proof.
  revert b. induction l as [|p l IH]; intros b; simpl; [done|].
  pose proof (openConnection_unheard p true b) as Hw. destruct (openConnection p true b) as [b1 []]; simpl in Hw.
  - etrans; [exact Hw|]. by apply unheard_fields.
  - etrans; [exact Hw|apply IH].
Qed.

Lemma sendSignal_unheard p payload b : Bridge.socket b = None → sendSignal p payload b = Some b.
Proof. unfold sendSignal. by intros ->. Qed.

Lemma maybeReady_unheard p b : unheard b (maybeReady p b).
Proof.
  unfold maybeReady. destruct (_ || _); [done|].
  apply (unheard_calls [peerOpen p; onPeer p]); by repeat constructor.
Qed.

Lemma task_unheard task description b : unheard b (task_done task description b).
Proof.
  intros Hs. destruct task as [p rest|p]; simpl; [unfold offer_done|unfold answer_done];
    destruct description as [d|]; rewrite ?sendSignal_unheard by done; try exact (reflexivity (R := unheard) b Hs).
  exact (open_peers_unheard rest b Hs).
Qed.

Lemma disconnect_unheard b : Bridge.socket b = None → unheard b (disconnect has_window b).
Proof.
  intros Hs. unfold disconnect. set (b1 := Bridge.set_outbound false _).
  assert (unheard b b1) as H1 by (apply unheard_fields; subst b1; simpl; by destruct (Bridge.wakeHooked b && has_window)).
  pose proof (teardowns_unheard (Bridge.connections b1).*1 b1) as H2. set (b2 := foldl _ b1 _) in *.
  assert (Bridge.socket b2 = None) as Es by (by apply H2, H1). cbv zeta. rewrite Es.
  transitivity b1; [done|]. transitivity b2; [done|]. by apply unheard_fields.
Qed.

(** Nothing that can happen to a device that left, but its person connecting,
    makes a socket or sends over one. *)
Lemma left_unheard n event b : steady n b → Bridge.room b = None → can_happen b event →
  match event with
  | Connects _ => True
  | _ => Bridge.room (on_event event b) = None ∧ unheard b (on_event event b)
  end.
Proof.
  intros [_ Hn _ _ _] Hr Hcan. destruct (Hn Hr) as (Hs & Ht & Ho & Hh).
  destruct (of_peers event) eqn:Hp.
  - pose proof (ws_room _ _ (peers_wire event b Hp)) as Er. rewrite Hr in Er.
    destruct event; try done; (split; [exact Er|]); cbn [on_event can_happen] in *.
    + unfold useIceServers. case_decide; [done|by apply unheard_fields].
    + rewrite Hs in Hcan. by destruct Hcan.
    + congruence.
    + by rewrite sendSignal_unheard.
    + unfold state_changed. etrans; [|apply teardown_unheard].
      destruct isFailed; [apply unheard_tell; by repeat constructor|done].
    + apply attach_unheard.
    + case_match; [|done]. etrans; [|apply maybeReady_unheard]. by apply unheard_fields.
    + case_match; [|done]. unfold channel_message. repeat case_match; try done; by apply unheard_tell; repeat constructor.
    + case_match; [|done]. etrans; [|apply teardown_unheard]. by apply unheard_fields.
    + case_match; [|done]. case_match; [by apply unheard_tell; repeat constructor|done].
    + case_match; [|done]. etrans; [|apply task_unheard]. by apply unheard_fields.
  - destruct event; try done; cbn [on_event can_happen] in *.
    + destruct (disconnect_fields b) as [Er _]. split; [exact Er|]. by apply disconnect_unheard.
    + destruct Hcan as (Es & _). congruence.
    + unfold failed. destruct (Bridge.closingDeliberately b); [done|]. by rewrite decide_False by congruence.
    + rewrite Ht in Hcan. by destruct Hcan.
    + congruence.
Qed.

(** C38: a device that is in a room comes back.  Whatever happens to its sockets
    and its peers, it has a socket, or a timer that will make one, and never
    both.  The timer that is the [n]th in a row, since a socket last opened, the
    person connected or the device woke without a socket, waits at least the half
    and at most the whole of 2^(n-1) seconds, or of thirty when that is less.
    When the timer fires, and at once when the device wakes without a socket,
    there is a new socket if the address is one.  A device that left has no
    socket and no timer, and until its person connects again nothing that can
    happen to it gives it one or makes it send over one; an offer it still awaits
    may go on to open connections to the rest of the room it left. *)
Theorem always_coming_back (n : nat) (events : list BridgeEvent) b (Hb : tried n events b) :
  match Bridge.room b with
  | Some room =>
      (is_Some (Bridge.socket b) ∧ Bridge.retryTimer b = None ∨
       Bridge.socket b = None ∧ is_Some (Bridge.retryTimer b)) ∧
      (∀ wait, Bridge.retryTimer b = Some wait → ∃ m, n = S m ∧
         within_half (Z.min (1000 * 2 ^ Z.of_nat m) 30000) wait) ∧
      (∀ event, event = RetryFires ∨ event = Wakes false → can_happen b event → Bridge.socket b = None →
         opens (Rendezvous.signalUrl room) = true →
         Bridge.socket (on_event event b) = Some (Bridge.made b) ∧ Bridge.retryTimer (on_event event b) = None)
  | None => Bridge.socket b = None ∧ Bridge.retryTimer b = None ∧
      ∀ event, can_happen b event →
        match event with
        | Connects _ => True
        | _ => let b' := on_event event b in
            Bridge.room b' = None ∧ Bridge.socket b' = None ∧
            ∃ new, Bridge.calls b' = Bridge.calls b ++ new ∧ Forall (λ call, sends call = false) new
        end
  end.
Proof.
  pose proof (tried_steady n events b Hb) as Hst. pose proof Hst as [Hs Hn _ Hd Hw].
  destruct (Bridge.room b) as [room|] eqn:Hr.
  - destruct (Hs _ eq_refl) as (_ & Hone & _). split_and!; [exact Hone| |].
    + intros wait [Hne Hwait]%Hw. rewrite Hd in Hwait. destruct n as [|m]; [done|]. by exists m.
    + intros event [->| ->] _ Hsock Hopen; simpl; [unfold retry_fires|unfold wake; rewrite Hr, Hsock];
        unfold openSocket; simpl; by rewrite Hr, Hopen.
  - destruct (Hn eq_refl) as (Hsock & Ht & _). split_and!; [done..|]. intros event Hcan.
    pose proof (left_unheard n event b Hst Hr Hcan) as Hleft.
    destruct event; try done; destruct Hleft as [Hroom Hun]; (split; [exact Hroom|exact (Hun Hsock)]).
Qed.

(** ** Who is there *)

(** Whom the bridge tells of a peer: the main process, or the window. *)
Inductive Listener : Type := main_process | the_window.

(** A call that tells a listener that a peer came or went. *)
Definition told_of (to : Listener) (call : BridgeCall) : option (bool * string) :=
  match to, call with
  | main_process, peerOpen p | the_window, onPeer p => Some (true, p)
  | main_process, peerClosed p | the_window, onClosed p => Some (false, p)
  | _, _ => None
  end.

(** Whether a peer is there, by what the bridge told last. *)
Definition tells (to : Listener) (p : string) (x : bool) (call : BridgeCall) : bool :=
  match told_of to call with
  | Some (here, q) => if decide (q = p) then here else x
  | None => x
  end.

Definition present (to : Listener) (p : string) (x : bool) (calls : list BridgeCall) : bool :=
  foldl (tells to p) x calls.

Definition ready_keys b : Prop := ∀ p, p ∈ Bridge.ready b → is_Some (map_get p (Bridge.control b)).

(** The calls of a step tell how the ready peers changed. *)
Record follows b b' : Prop := Follows {
  fo_keys : ready_keys b → ready_keys b';
  fo_calls : ready_keys b → ∃ new, Bridge.calls b' = Bridge.calls b ++ new ∧
    ∀ to p, present to p (bool_decide (p ∈ Bridge.ready b)) new = bool_decide (p ∈ Bridge.ready b');
}.

#[global] Instance follows_preorder : PreOrder follows.
Proof.
  split.
  - intros b. split; [done|]. intros _. exists []. by rewrite app_nil_r.
  - intros b1 b2 b3 [K1 C1] [K2 C2]. split; [auto|]. intros Hk.
    destruct (C1 Hk) as (n1 & E1 & P1), (C2 (K1 Hk)) as (n2 & E2 & P2). exists (n1 ++ n2).
    split; [by rewrite E2, E1, app_assoc|]. intros to p. unfold present in *. by rewrite foldl_app, P1, P2.
Qed.

Definition silent (call : BridgeCall) : bool :=
  match call with peerOpen _ | peerClosed _ | onPeer _ | onClosed _ => false | _ => true end.

Lemma present_silent to p x calls : forallb silent calls = true → present to p x calls = x.
Proof.
  unfold present. revert x. induction calls as [|call calls IH]; intros x; [done|]. simpl.
  intros [Hc Hr]%andb_true_iff. rewrite IH by done. by destruct call, to.
Qed.

Lemma follows_silent b b' new :
  Bridge.calls b' = Bridge.calls b ++ new → forallb silent new = true → Bridge.ready b' = Bridge.ready b →
  (∀ p, is_Some (map_get p (Bridge.control b)) → is_Some (map_get p (Bridge.control b'))) → follows b b'.
Proof.
  intros Hc Hs Hr Hk. split.
  - intros Hb p. rewrite Hr. intros Hp. by apply Hk, Hb.
  - intros _. exists new. split; [done|]. intros to p. by rewrite present_silent, Hr.
Qed.

Lemma follows_fields b b' :
  Bridge.calls b' = Bridge.calls b → Bridge.ready b' = Bridge.ready b → Bridge.control b' = Bridge.control b →
  follows b b'.
Proof. intros Hc Hr Hk. apply (follows_silent _ _ []); rewrite ?Hk; [by rewrite app_nil_r|done..]. Qed.

Lemma follows_tell calls b : forallb silent calls = true → follows b (Bridge.tell calls b).
Proof. intros Hs. by apply (follows_silent _ _ calls). Qed.

Lemma teardown_follows p b : follows b (teardown p b).
Proof.
  assert (∀ new, forallb silent new = true → ∀ b',
    Bridge.calls b' = Bridge.calls b ++ new ++ [peerClosed p; onClosed p] →
    Bridge.ready b' = set_delete (Bridge.ready b) p → Bridge.control b' = map_delete p (Bridge.control b) →
    follows b b') as Hgo.
  { intros new Hs b' Hc Hr Hk. split.
    - intros Hb q. rewrite Hr, Hk, elem_of_set_delete, map_get_delete. intros [Hq Hne].
      rewrite decide_False by done. by apply Hb.
    - intros _. exists (new ++ [peerClosed p; onClosed p]). split; [done|]. intros to q. rewrite Hr.
      unfold present. rewrite foldl_app. fold (present to q (bool_decide (q ∈ Bridge.ready b)) new).
      rewrite present_silent by done. destruct to; simpl; unfold tells; simpl; destruct (decide (p = q)) as [->|Hne].
      1, 3: symmetry; apply bool_decide_eq_false; rewrite elem_of_set_delete; tauto.
      all: apply bool_decide_ext; rewrite elem_of_set_delete; naive_solver. }
  unfold teardown.
  destruct (map_get p (Bridge.control b)) as [c|], (map_get p (Bridge.bulk b)) as [u|],
    (map_get p (Bridge.connections b)) as [n|]; try done.
  - apply (Hgo [ChannelIsClosed c; ChannelIsClosed u; ConnectionIsClosed n]); simpl; rewrite <-?app_assoc; done.
  - apply (Hgo [ChannelIsClosed c; ChannelIsClosed u]); simpl; rewrite <-?app_assoc; done.
  - apply (Hgo [ChannelIsClosed c; ConnectionIsClosed n]); simpl; rewrite <-?app_assoc; done.
  - apply (Hgo [ChannelIsClosed c]); simpl; rewrite <-?app_assoc; done.
  - apply (Hgo [ChannelIsClosed u; ConnectionIsClosed n]); simpl; rewrite <-?app_assoc; done.
  - apply (Hgo [ChannelIsClosed u]); simpl; rewrite <-?app_assoc; done.
  - apply (Hgo [ConnectionIsClosed n]); simpl; rewrite <-?app_assoc; done.
Qed.

Lemma teardowns_follow l b : follows b (foldl (λ b p, teardown p b) b l).
Proof. revert b. induction l as [|p l IH]; intros b; [done|]. simpl. etrans; [apply teardown_follows|apply IH]. Qed.

Lemma attach_follows p bulk b : follows b (attach p bulk b).
Proof.
  unfold attach. destruct bulk; [by apply follows_fields|].
  apply (follows_silent _ _ []); simpl; [by rewrite app_nil_r|done..|].
  intros q Hq. rewrite map_get_set. case_decide; [by eexists|done].
Qed.

Lemma openConnection_follows p initiator b : follows b (openConnection p initiator b).1.
Proof.
  unfold openConnection. destruct (map_get p _); [done|]. destruct initiator; [|by apply follows_fields].
  do 2 (etrans; [|apply attach_follows]). by apply follows_fields.
Qed.

Lemma open_peers_follows l b : follows b (open_peers l b).
Proof.
  revert b. induction l as [|p l IH]; intros b; simpl; [done|].
  pose proof (openConnection_follows p true b) as Hw. destruct (openConnection p true b) as [b1 []]; simpl in Hw.
  - etrans; [exact Hw|]. by apply follows_fields.
  - etrans; [exact Hw|apply IH].
Qed.

Lemma sendSignal_follows p payload b : follows b (default b (sendSignal p payload b)).
Proof.
  unfold sendSignal. destruct (Bridge.socket b); [|done]. destruct (Bridge.socketOpen b); [|done].
  by apply follows_tell.
Qed.

Lemma task_follows task description b : follows b (task_done task description b).
Proof.
  destruct task as [p rest|p]; simpl; [unfold offer_done|unfold answer_done]; destruct description as [d|]; try done.
  - pose proof (sendSignal_follows p (JObj [("type", JStr "offer"); ("description", d)]) b) as Hs.
    destruct (sendSignal _ _ b) as [b1|]; [|done]. etrans; [exact Hs|apply open_peers_follows].
  - apply sendSignal_follows.
Qed.

Lemma maybeReady_follows p b : follows b (maybeReady p b).
Proof.
  unfold maybeReady. destruct (negb _ || _ || _) eqn:Hcond; [done|].
  apply orb_false_iff in Hcond as [[Hc _]%orb_false_iff Hp]. apply negb_false_iff in Hc.
  apply bool_decide_eq_false in Hp. split.
  - intros Hb q. simpl. rewrite elem_of_set_add. intros [Hq| ->]; [by apply Hb|].
    unfold channel_open in Hc. destruct (map_get p (Bridge.control b)); [by eexists|done].
  - intros _. exists [peerOpen p; onPeer p]. split; [done|]. intros to q. simpl.
    destruct to; unfold tells; simpl; destruct (decide (p = q)) as [->|Hne].
    1, 3: symmetry; apply bool_decide_eq_true, elem_of_set_add; by right.
    all: apply bool_decide_ext; rewrite elem_of_set_add; naive_solver.
Qed.

Lemma scheduleRetry_follows server detail b : follows b (scheduleRetry server detail b).
Proof.
  unfold scheduleRetry. destruct (Bridge.room b); [|done]. destruct (Bridge.retryTimer b); [done|].
  destruct (negb _); [by apply follows_fields|]. eapply follows_silent; [reflexivity| |done|done].
  by destruct (Bridge.outageReported b).
Qed.

Lemma openSocket_follows b : follows b (openSocket url_host opens b).
Proof.
  unfold openSocket. destruct (Bridge.room b) as [r|]; [|done].
  etrans; [by apply (follows_tell [onStatus (if Bridge.retryDelayMs b =? 0 then "Connecting…" else "Reconnecting…")])|].
  destruct (opens _); [by apply follows_fields|apply scheduleRetry_follows].
Qed.

Lemma disconnect_follows b : follows b (disconnect has_window b).
Proof.
  unfold disconnect. set (b1 := Bridge.set_outbound false _).
  transitivity b1; [apply follows_fields; subst b1; simpl; by destruct (Bridge.wakeHooked b && has_window)|].
  etrans; [apply (teardowns_follow (Bridge.connections b1).*1)|]. set (b2 := foldl _ b1 _). cbv zeta.
  destruct (Bridge.socket b2) as [n|]; [|by apply follows_fields].
  etrans; [by apply (follows_tell [SocketCloses n])|]. by apply follows_fields.
Qed.

Lemma event_follows event b : follows b (on_event event b).
Proof.
  destruct event; simpl.
  - unfold connect. etrans; [apply disconnect_follows|]. set (b1 := disconnect has_window b).
    etrans; [|apply openSocket_follows]. unfold hookWakeEvents.
    destruct (Bridge.wakeHooked _ || _); by apply follows_fields.
  - apply disconnect_follows.
  - unfold useIceServers. case_decide; [done|by apply follows_fields].
  - unfold socket_opened. simpl. case_decide; by eapply follows_silent.
  - destruct message as [room' p ids|p|p|p payload|text]; simpl.
    + etrans; [|apply open_peers_follows]. by apply follows_tell.
    + apply openConnection_follows.
    + case_decide; [done|apply teardown_follows].
    + unfold applySignal. repeat case_match; try done; by apply follows_fields.
    + by apply follows_tell.
  - unfold failed. destruct (Bridge.closingDeliberately b); [done|]. case_decide; [|done].
    etrans; [|apply scheduleRetry_follows]. by apply follows_fields.
  - unfold retry_fires. etrans; [|apply openSocket_follows]. by apply follows_fields.
  - unfold wake. destruct (Bridge.room b), (Bridge.socket b); try done. destruct hidden; [done|].
    etrans; [|apply openSocket_follows]. by apply follows_fields.
  - unfold forwardOutbound. repeat case_match; try done; by apply follows_tell.
  - apply sendSignal_follows.
  - unfold state_changed. etrans; [|apply teardown_follows]. destruct isFailed; [by apply follows_tell|done].
  - apply attach_follows.
  - case_match; [|done]. etrans; [|apply maybeReady_follows]. by apply follows_fields.
  - case_match; [|done]. unfold channel_message. repeat case_match; try done; by apply follows_tell.
  - case_match; [|done]. etrans; [|apply teardown_follows]. by apply follows_fields.
  - case_match; [|done]. case_match; [by apply follows_tell|done].
  - case_match; [|done]. etrans; [|apply task_follows]. by apply follows_fields.
Qed.

Lemma bridged_present events b : bridged events b → ready_keys b ∧
  ∀ to p, present to p false (Bridge.calls b) = bool_decide (p ∈ Bridge.ready b).
Proof.
  induction 1 as [random ice _|events event b _ [Hk Hp] _]; [split; [intros p Hp; by apply elem_of_nil in Hp|done]|].
  destruct (event_follows event b) as [K C]. split; [by apply K|].
  destruct (C Hk) as (new & -> & Hn). intros to p. unfold present. rewrite foldl_app.
  change (present to p (present to p false (Bridge.calls b)) new = bool_decide (p ∈ Bridge.ready (on_event event b))).
  by rewrite Hp, Hn.
Qed.
End bridge.

(** The main process is told who is there: [peerOpened] and [peerGone]. *)
Section presence.
Context {B F : Type}.
Implicit Types s : Services.t B F.

Definition hears (call : BridgeCall) s : Services.t B F :=
  match call with
  | peerOpen p => (peerOpened p s).2
  | peerClosed p => (peerGone p s).2
  | _ => s
  end.

Lemma hears_live call s p :
  bool_decide (is_Some (map_get p (Services.livePeers (hears call s)))) =
  tells main_process p (bool_decide (is_Some (map_get p (Services.livePeers s)))) call.
Proof.
  destruct call; try done; unfold tells; simpl.
  - unfold peerOpened, mbind, M_bind, gets. destruct (map_get peerId (Services.livePeers s)) as [d|] eqn:Hd; simpl.
    + case_decide; [subst|done]. rewrite Hd. by apply bool_decide_eq_true.
    + rewrite map_get_set. case_decide; [|done]. by apply bool_decide_eq_true.
  - unfold peerGone, mbind, M_bind, gets. destruct (map_get peerId (Services.livePeers s)) as [d|] eqn:Hd; simpl.
    + rewrite map_get_delete. case_decide; [|done]. by apply bool_decide_eq_false; intros [? ?].
    + case_decide; [subst|done]. rewrite Hd. by apply bool_decide_eq_false; intros [? ?].
Qed.

Lemma hears_all calls s p :
  bool_decide (is_Some (map_get p (Services.livePeers (foldl (λ s call, hears call s) s calls)))) =
  present main_process p (bool_decide (is_Some (map_get p (Services.livePeers s)))) calls.
Proof.
  revert s. induction calls as [|call calls IH]; intros s; [done|]. simpl.
  by rewrite IH, hears_live.
Qed.

(** The device list shows who is there.  Whatever happens to sockets,
    connections and channels, the peers that the main process takes to be live,
    from all that the bridge told it in order, are the peers whose two channels
    opened and that were not torn down since. *)
Theorem presence_known (url_host : string → option string) (opens : string → bool) (has_window : bool)
    (localPeerId : string) (events : list BridgeEvent) b s
    (Hb : bridged url_host opens has_window localPeerId events b) (Hs : Services.livePeers s = []) :
  ∀ p, is_Some (map_get p (Services.livePeers (foldl (λ s call, hears call s) s (Bridge.calls b)))) ↔
       p ∈ Bridge.ready b.
Proof.
  intros p. destruct (bridged_present _ _ _ _ _ _ Hb) as [_ Hp].
  pose proof (hears_all (Bridge.calls b) s p) as Ha. rewrite Hs in Ha. simpl in Ha. rewrite Hp in Ha.
  rewrite <-(bool_decide_eq_true (is_Some _)), Ha. apply bool_decide_eq_true.
Qed.
End presence.

(** ** Notices *)

Section notices.
Context (url_host : string → option string) (opens : string → bool) (has_window : bool).
Context (localPeerId : string).
Implicit Types b : Bridge.t.
Abbreviation on_event := (on_event url_host opens has_window localPeerId).

Definition is_notice (call : BridgeCall) : bool := match call with onNotice _ => true | _ => false end.

(** The notices that a loss of the socket, or an attempt to replace it, gives. *)
Definition outage_notices (event : BridgeEvent) b : nat :=
  match event with
  | SocketFails _ _ _ | RetryFires | Wakes _ =>
      length (filter (λ c, is_notice c = true) (drop (length (Bridge.calls b)) (Bridge.calls (on_event event b))))
  | _ => 0
  end.

Fixpoint notices_along (events : list BridgeEvent) b : nat :=
  match events with
  | [] => 0
  | event :: events => outage_notices event b + notices_along events (on_event event b)
  end.

(** How many notices the outage may still give. *)
Definition allowance b : nat := if Bridge.outageReported b then 0 else 1.

(** A step that adds these calls. *)
Definition within b b' : Prop :=
  ∃ new, Bridge.calls b' = Bridge.calls b ++ new ∧
    (length (filter (λ c, is_notice c = true) new) + allowance b' <= allowance b)%nat ∧
    (Bridge.ready b ≠ [] → filter (λ c, is_notice c = true) new = []).

Lemma schedule_within server detail b : within b (scheduleRetry server detail b).
Proof.
  unfold scheduleRetry, within, allowance. destruct (Bridge.room b).
  2:{ exists []. rewrite app_nil_r. by split_and!. }
  destruct (Bridge.retryTimer b); [exists []; rewrite app_nil_r; by split_and!|].
  destruct (negb (bool_decide (Bridge.ready b = []))) eqn:Hsync.
  - exists []. rewrite app_nil_r. by split_and!.
  - apply negb_false_iff, bool_decide_eq_true in Hsync. simpl. rewrite Hsync.
    eexists. split; [reflexivity|]. by destruct (Bridge.outageReported b); split; simpl; (lia || done).
Qed.

Lemma open_within b : within b (openSocket url_host opens b).
Proof.
  unfold openSocket. destruct (Bridge.room b) as [r|]; [|exists []; rewrite app_nil_r; by split_and!].
  set (status := onStatus _). destruct (opens _).
  - exists [status]. by split_and!.
  - set (b1 := Bridge.tell [status] b).
    destruct (schedule_within (serverName url_host (Rendezvous.signalUrl r)) "" b1) as (new & Hc & Hl & Hr).
    exists (status :: new). split_and!.
    + rewrite Hc. simpl. by rewrite <-app_assoc.
    + exact Hl.
    + exact Hr.
Qed.

Lemma within_fields b0 b b' : Bridge.calls b = Bridge.calls b0 → Bridge.outageReported b = Bridge.outageReported b0 →
  Bridge.ready b = Bridge.ready b0 → within b b' → within b0 b'.
Proof. unfold within, allowance. intros -> -> ->. done. Qed.

Lemma within_refl b : within b b.
Proof. exists []. rewrite app_nil_r. by split_and!. Qed.

Lemma losing_within event b :
  match event with SocketFails _ _ _ | RetryFires | Wakes _ => within b (on_event event b) | _ => True end.
Proof.
  destruct event; try done; simpl.
  - unfold failed. destruct (Bridge.closingDeliberately b); [apply within_refl|].
    case_decide; [|apply within_refl]. by eapply within_fields, schedule_within.
  - unfold retry_fires. by eapply within_fields, open_within.
  - unfold wake. destruct (Bridge.room b), (Bridge.socket b); try apply within_refl.
    destruct hidden; [apply within_refl|]. by eapply within_fields, open_within.
Qed.

Lemma within_notices event b : within b (on_event event b) →
  (length (filter (λ c, is_notice c = true) (drop (length (Bridge.calls b)) (Bridge.calls (on_event event b))))
    + allowance (on_event event b) <= allowance b)%nat ∧
  (Bridge.ready b ≠ [] →
   filter (λ c, is_notice c = true) (drop (length (Bridge.calls b)) (Bridge.calls (on_event event b))) = []).
Proof. intros (new & Hc & Hl & Hr). rewrite Hc, drop_app_length. done. Qed.

Lemma disconnect_reported b : Bridge.outageReported (disconnect has_window b) = Bridge.outageReported b.
Proof.
  unfold disconnect. set (b1 := Bridge.set_outbound false _).
  pose proof (teardowns_wire (Bridge.connections b1).*1 b1) as [_ _ _ _ _ Eo _ _].
  assert (Bridge.outageReported b1 = Bridge.outageReported b) as Hb.
  { subst b1. simpl. by destruct (Bridge.wakeHooked b && has_window). }
  set (b2 := foldl _ b1 _) in *. cbv zeta. destruct (Bridge.socket b2); simpl; congruence.
Qed.

Lemma notices_step event b : match event with Connects _ | SocketOpens _ _ => False | _ => True end →
  (outage_notices event b + allowance (on_event event b) <= allowance b)%nat.
Proof.
  intros He. destruct (of_peers event) eqn:Hp.
  - assert (outage_notices event b = 0%nat) as -> by by destruct event.
    unfold allowance. rewrite (ws_reported _ _ (peers_wire url_host opens has_window localPeerId _ b Hp)). lia.
  - pose proof (losing_within event b) as Hw. destruct event; try done; try (by apply within_notices in Hw as [Hw _]).
    unfold allowance. change (on_event Disconnected b) with (disconnect has_window b).
    rewrite disconnect_reported. simpl. lia.
Qed.

(** An outage is told once.  Along any events in which no socket opens and
    the person connects nowhere else, at most one notice says that the server was
    lost, none if it was said before; and none while a peer is there. *)
Theorem outage_told_once (events : list BridgeEvent) b
    (Hevents : Forall (λ event, match event with Connects _ | SocketOpens _ _ => False | _ => True end) events) :
  (notices_along events b <= (if Bridge.outageReported b then 0 else 1))%nat ∧
  ∀ event, Bridge.ready b ≠ [] → outage_notices event b = 0%nat.
Proof.
  pose proof notices_step as Hstep.
  split.
  - fold (allowance b). revert b. induction Hevents as [|event events He _ IH]; intros b; simpl; [lia|].
    specialize (IH (on_event event b)). specialize (Hstep event b He). lia.
  - intros event Hr. pose proof (losing_within event b) as Hw. unfold outage_notices.
    destruct event; try done; apply within_notices in Hw as [_ Hw]; by rewrite Hw.
Qed.
End notices.

(** ** Closing late *)

Section late.
Context (url_host : string → option string) (opens : string → bool) (has_window : bool).
Context (localPeerId : string).
Implicit Types b : Bridge.t.

(** The end of an old channel takes down the new connection.  When a peer
    that was lost is back and ready, and the event of a channel of its first
    connection comes late, the new connection is torn down with its channels, and
    the peer is reported gone: nothing in the listener looks whether the
    channel that closed is one of those in use. *)
Theorem stale_close_tears_down (events : list BridgeEvent) b (c control : nat) (channel : DataChannel.t)
    (Hb : bridged url_host opens has_window localPeerId events b)
    (Hc : Bridge.channels b !! c = Some channel)
    (Hready : DataChannel.peerId channel ∈ Bridge.ready b)
    (Hcontrol : map_get (DataChannel.peerId channel) (Bridge.control b) = Some control) (Hold : c ≠ control) :
  let p := DataChannel.peerId channel in
  let b' := on_event url_host opens has_window localPeerId (ChannelCloses c) b in
  (p ∉ Bridge.ready b') ∧ map_get p (Bridge.connections b') = None ∧ map_get p (Bridge.control b') = None ∧
  map_get p (Bridge.bulk b') = None ∧
  ∃ closing, Bridge.calls b' = Bridge.calls b ++ ChannelIsClosed control :: closing ++ [peerClosed p; onClosed p].
Proof.
  cbv zeta. unfold on_event. rewrite Hc. set (b1 := Bridge.set_objects _ _ b). set (p := DataChannel.peerId channel) in *.
  unfold teardown. change (Bridge.control b1) with (Bridge.control b). change (Bridge.bulk b1) with (Bridge.bulk b).
  change (Bridge.connections b1) with (Bridge.connections b). rewrite Hcontrol.
  assert (p ∉ set_delete (Bridge.ready b) p) as Hgone by (rewrite elem_of_set_delete; tauto).
  assert (∀ m : list (string * nat), map_get p (map_delete p m) = None) as Hnone.
  { intros m. by rewrite map_get_delete, decide_True. }
  destruct (map_get p (Bridge.bulk b)) as [u|], (map_get p (Bridge.connections b)) as [n|];
    (split_and!; [exact Hgone|apply Hnone..|]); simpl; rewrite <-!app_assoc.
  - by exists [ChannelIsClosed u; ConnectionIsClosed n].
  - by exists [ChannelIsClosed u].
  - by exists [ConnectionIsClosed n].
  - by exists [].
Qed.
End late.

(** ** A phone that was lost and came back *)

Definition no_host (url : string) : option string := None.
Definition any_url (url : string) : bool := true.
Definition a_room : Rendezvous.t := Rendezvous.mk "ws://localhost:8787/signal" "room" "secret".

(** What [Math.random] gives. *)
Definition quarters (k : nat) : Q := Qmake (Z.of_nat k mod 4) 4.

Lemma quarters_unit : draws_of_unit quarters.
Proof.
  intros k. pose proof (Z.mod_pos_bound (Z.of_nat k) 4 ltac:(lia)). unfold quarters, Qle, Qlt. simpl Qnum. simpl Qden. lia.
Qed.

(** Run only what can happen. *)
Definition bridge_run (events : list BridgeEvent) : Bridge.t :=
  foldl (λ b event, on_event no_host any_url true "laptop" event b) (new_bridge quarters None) events.

Definition comes (n : nat) : list BridgeEvent :=
  [SocketHears (peer_joined "phone"); ReceivesChannel "phone" false; ReceivesChannel "phone" true;
   ChannelOpens n; ChannelOpens (S n)].

(** The phone comes, its connection fails, and it comes again. *)
Definition comes_back : list BridgeEvent :=
  [Connects a_room; SocketOpens 0 a_room] ++ comes 0 ++ [StateChanges "phone" true] ++ comes 2.

#[local] Instance can_happen_dec b event : Decision (can_happen b event).
Proof. destruct event; simpl; apply _. Defined.

Fixpoint happens (b : Bridge.t) (events : list BridgeEvent) : bool :=
  match events with
  | [] => true
  | event :: events => bool_decide (can_happen b event) && happens (on_event no_host any_url true "laptop" event b) events
  end.

(** The timers set in a row along these events. *)
Fixpoint tries (n : nat) (b : Bridge.t) (events : list BridgeEvent) : nat :=
  match events with
  | [] => n
  | event :: events => tries (retries no_host any_url true "laptop" event n b)
                         (on_event no_host any_url true "laptop" event b) events
  end.

Lemma run_tried events : happens (new_bridge quarters None) events = true →
  tried no_host any_url true "laptop" (tries 0 (new_bridge quarters None) events) events (bridge_run events).
Proof.
  assert (∀ n before b, tried no_host any_url true "laptop" n before b → happens b events = true →
    tried no_host any_url true "laptop" (tries n b events) (before ++ events)
      (foldl (λ b event, on_event no_host any_url true "laptop" event b) b events)) as Hgo.
  { induction events as [|event events IH]; intros n before b Hb Hh; simpl; [by rewrite app_nil_r|].
    simpl in Hh. apply andb_true_iff in Hh as [Hcan%bool_decide_eq_true Hh].
    rewrite (cons_middle event before events), app_assoc. apply IH; [by constructor|done]. }
  intros Hh. apply (Hgo 0%nat []); [constructor; exact quarters_unit|done].
Qed.

Lemma run_bridged events : happens (new_bridge quarters None) events = true →
  bridged no_host any_url true "laptop" events (bridge_run events).
Proof. intros Hh. apply bridged_tried. eexists. by apply run_tried. Qed.

Lemma back_bridged : bridged no_host any_url true "laptop" comes_back (bridge_run comes_back).
Proof. apply run_bridged. vm_compute. reflexivity. Qed.

Lemma stale_close_tears_down_witness :
  "phone" ∉ Bridge.ready (on_event no_host any_url true "laptop" (ChannelCloses 0) (bridge_run comes_back)).
Proof.
  refine (proj1 (stale_close_tears_down no_host any_url true "laptop" comes_back (bridge_run comes_back) 0 2
    (DataChannel.mk "phone" false false 0) back_bridged _ _ _ _)).
  - vm_compute. reflexivity.
  - refine (bool_decide_eq_true_1 _ _). vm_compute. reflexivity.
  - vm_compute. reflexivity.
  - discriminate.
Defined.

(** The server restarts, and is not back when the laptop tries again. *)
Definition restarted : list BridgeEvent :=
  comes_back ++ [SocketFails 0 "server" "restart"; RetryFires; SocketFails 1 "server" ""].

Lemma restarted_tried : tried no_host any_url true "laptop" 2 restarted (bridge_run restarted).
Proof. refine (run_tried restarted _). vm_compute. reflexivity. Qed.

Lemma restarted_room : Bridge.room (bridge_run restarted) = Some a_room.
Proof. vm_compute. reflexivity. Qed.

Lemma always_coming_back_witness :
  (∃ wait, Bridge.retryTimer (bridge_run restarted) = Some wait ∧ within_half 2000 wait) ∧
  Bridge.socket (on_event no_host any_url true "laptop" RetryFires (bridge_run restarted)) = Some 2%nat.
Proof.
  pose proof (always_coming_back no_host any_url true "laptop" 2 restarted (bridge_run restarted)
    restarted_tried) as Hback.
  rewrite restarted_room in Hback. destruct Hback as (Hone & Hwait & Hfires). split.
  - destruct Hone as [[_ Ht]|[_ [wait Ht]]]; [vm_compute in Ht; discriminate|].
    exists wait. split; [exact Ht|]. destruct (Hwait wait Ht) as (m & [= <-] & Hm). exact Hm.
  - refine (proj1 (Hfires RetryFires (or_introl eq_refl) _ _ _)).
    + eexists. vm_compute. reflexivity.
    + vm_compute. reflexivity.
    + reflexivity.
Defined.

Definition nobody : Services.t unit unit := Services.mk (EngineState.mk (Store.mk Db.empty 0 None false) tt 0)
  tt None ∅ Hub.Hub.new None [] [] [] None false None false None None 0 0 [].

Lemma presence_known_witness :
  is_Some (map_get "phone" (Services.livePeers
    (foldl (λ s call, hears call s) nobody (Bridge.calls (bridge_run comes_back))))).
Proof.
  refine (proj2 (presence_known no_host any_url true "laptop" comes_back (bridge_run comes_back) nobody back_bridged
    eq_refl "phone") _).
  refine (bool_decide_eq_true_1 _ _). vm_compute. reflexivity.
Defined.

Lemma outage_told_once_witness :
  (notices_along no_host any_url true "laptop" [SocketFails 0 "server" ""; RetryFires; SocketFails 1 "server" ""]
     (bridge_run [Connects a_room]) <= 1)%nat.
Proof.
  refine (proj1 (outage_told_once no_host any_url true "laptop"
    [SocketFails 0 "server" ""; RetryFires; SocketFails 1 "server" ""] (bridge_run [Connects a_room]) _)).
  repeat constructor.
Defined.

(** A person who leaves while offers are awaited is connected all the same: the
    loop over the room goes on. *)
Lemma loop_survives_disconnect :
  Bridge.connections (bridge_run [Connects a_room; SocketOpens 0 a_room;
    SocketHears (joined_message "room" "laptop" ["phone"; "tablet"]); Disconnected; TaskEnds 0 (Some JNull)])
  = [("tablet", 1%nat)].
Proof. vm_compute. reflexivity. Qed.

(** A room that still lists this device makes it connect to itself. *)
Lemma connects_to_itself :
  Bridge.connections (bridge_run [Connects a_room; SocketOpens 0 a_room;
    SocketHears (joined_message "room" "laptop" ["laptop"])]) = [("laptop", 0%nat)].
Proof. vm_compute. reflexivity. Qed.
