(* ===== verification/Meeting.v ===== *)
(** * Devices that meet

    The bridges of several devices and the signaling server between them:
    packages/transport/src/peerBridge.ts at both ends of the sockets of
    apps/signaling/src/index.ts.  What a bridge sends is heard by the server in
    its order, and what the server sends to a socket is heard by its bridge in
    its order, each at any time; between them other clients do what they want. *)

From S2P Require Import Prelude Model JsString Json JsonProps JsMap Effects Rooms Hub Settings Services Signaling.
From S2P Require Import SignalingTheory SignalingProps Bridge.

Open Scope Z_scope.

(** ** What a bridge hears *)

(** The texts of an array of texts. *)
Definition json_texts (l : list json) : option (list string) :=
  mapM (λ j, match j with JStr s => Some s | _ => None end) l.

(** [JSON.parse (String (event.data)) as SignalMessage]: the message that a
    bridge handles; what is none of them it drops, or throws on. *)
Definition read_signal (data : string) : option ServerSignalMessage :=
  match JSON_parse data with
  | Some (JObj value) =>
      match text_member "type" value with
      | Some type =>
          if decide (type = "joined") then
            match text_member "roomId" value, text_member "peerId" value, member "existingPeerIds" value with
            | Some roomId, Some peerId, Some (JArr ids) => joined_message roomId peerId <$> json_texts ids
            | _, _, _ => None
            end
          else if decide (type = "peer-joined") then peer_joined <$> text_member "peerId" value
          else if decide (type = "peer-left") then peer_left <$> text_member "peerId" value
          else if decide (type = "signal") then
            (λ fromPeerId, signal_from fromPeerId (member "payload" value)) <$> text_member "fromPeerId" value
          else if decide (type = "error") then signal_error <$> text_member "message" value
          else None
      | None => None
      end
  | _ => None
  end.

(** What [sendSignal] writes, and the payloads of an offer, an answer and a
    candidate. *)
Definition signal_text (targetPeerId : string) (payload : json) : string :=
  JSON_stringify (JObj [("type", JStr "signal"); ("targetPeerId", JStr targetPeerId); ("payload", payload)]).

Definition offer_signal (description : json) : json := JObj [("type", JStr "offer"); ("description", description)].
Definition answer_signal (description : json) : json := JObj [("type", JStr "answer"); ("description", description)].
Definition ice_signal (candidate : json) : json := JObj [("type", JStr "ice"); ("candidate", candidate)].

(** What a bridge wrote to its sockets. *)
Definition texts (b : Bridge.t) : list string :=
  omap (λ call, match call with SocketSends _ text => Some text | _ => None end) (Bridge.calls b).

(** What the server wrote to a socket. *)
Definition inbox (s : Server.t) (socket : Socket) : list ServerSignalMessage :=
  (filter (λ d, d.1 = socket) (RoomRegistry.sent (Server.registry s))).*2.

(** ** The devices and the server *)

(** A device: its id and its room, the socket that the server has for it, its
    bridge, and how much of what either end wrote has arrived. *)
Module Device.
Record t : Type := mk {
  peerId : string;
  room : Rendezvous.t;
  socket : Socket;
  bridge : Bridge.t;
  said : nat;
  heard : nat;
}.

Definition set_bridge b (d : t) : t := mk (peerId d) (room d) (socket d) b (said d) (heard d).
Definition says (d : t) : t := mk (peerId d) (room d) (socket d) (bridge d) (S (said d)) (heard d).
Definition hears b (d : t) : t := mk (peerId d) (room d) (socket d) b (said d) (S (heard d)).
End Device.

Module World.
Record t : Type := mk {
  past : list ServerEvent;
  server : Server.t;
  devices : list Device.t;
}.
End World.

(** What a device has heard. *)
Definition heard_by (w : World.t) (d : Device.t) : list ServerSignalMessage :=
  take (Device.heard d) (inbox (World.server w) (Device.socket d)).

(** The events of a bridge whose connections and sockets do not fail.  What
    WebRTC describes is JSON whose numbers are whole. *)
Definition goes_well (event : BridgeEvent) : Prop :=
  match event with
  | TaskEnds _ (Some description) => safe description
  | FindsCandidate _ candidate => safe candidate
  | UsesIce _ | Wakes _ | SendsOut _ _ | ReceivesChannel _ _
  | ChannelOpens _ | ChannelHears _ _ | ChannelDrains _ _ => True
  | _ => False
  end.

(** An event of the server that is not of the devices: it is not on their
    sockets, but for the heartbeat, does not ask for their ids, and signals
    whole numbers. *)
Definition of_strangers (devices : list Device.t) (event : ServerEvent) : Prop :=
  match event with
  | Says t raw => (t ∉ Device.socket <$> devices) ∧
      match parseClientMessage raw with
      | Some (join_room _ _ peerId) => peerId ∉ Device.peerId <$> devices
      | Some (signal_to _ (Some payload)) => safe payload
      | _ => True
      end
  | Signaling.Connects t | Closes t => t ∉ Device.socket <$> devices
  | _ => True
  end.

(** A device that opened its socket, and nothing more. *)
Record at_start (d : Device.t) : Prop := AtStart {
  as_socket : Bridge.socket (Device.bridge d) = Some 0%nat;
  as_open : Bridge.socketOpen (Device.bridge d) = false;
  as_room : Bridge.room (Device.bridge d) = Some (Device.room d);
  as_connections : Bridge.connections (Device.bridge d) = [];
  as_rtc : Bridge.rtc (Device.bridge d) = [];
  as_tasks : Bridge.tasks (Device.bridge d) = [];
  as_texts : texts (Device.bridge d) = [];
  as_said : Device.said d = 0%nat;
  as_heard : Device.heard d = 0%nat;
}.

Section meeting.
Context (now : nat → Z) (randomUUID : nat → RoomId) (randomToken : nat → string).
Context (randomInt : nat → nat) (fuel : nat).
Context (url_host : string → option string) (opens : string → bool) (has_window : bool).
Abbreviation serve := (serve now randomUUID randomToken randomInt fuel).
Abbreviation fresh_uuid := (fresh_uuid randomUUID).
Abbreviation on_event := (Bridge.on_event url_host opens has_window).

(** The devices know one room, and have their own ids and sockets. *)
Definition invited (roomId : RoomId) (devices : list Device.t) : Prop :=
  Forall (λ d, at_start d ∧ Rendezvous.roomId (Device.room d) = roomId) devices ∧
  NoDup (Device.peerId <$> devices) ∧ NoDup (Device.socket <$> devices).

Inductive step (w : World.t) : World.t → Prop :=
  (* another client, a request, or the heartbeat *)
  | step_other event :
      of_strangers (World.devices w) event → possible (World.past w) (World.server w) event →
      honest (World.past w ++ [event]) → fresh_uuid (World.past w) (World.server w) →
      step w (World.mk (World.past w ++ [event]) (serve event (World.server w)) (World.devices w))
  (* the socket of a device opens *)
  | step_opens i d :
      World.devices w !! i = Some d → Bridge.socketOpen (Device.bridge d) = false →
      possible (World.past w) (World.server w) (Signaling.Connects (Device.socket d)) →
      step w (World.mk (World.past w ++ [Signaling.Connects (Device.socket d)])
                (serve (Signaling.Connects (Device.socket d)) (World.server w))
                (<[i := Device.set_bridge (on_event (Device.peerId d) (SocketOpens 0 (Device.room d))
                                             (Device.bridge d)) d]> (World.devices w)))
  (* the server hears the next text of a device *)
  | step_says i d text :
      World.devices w !! i = Some d → texts (Device.bridge d) !! Device.said d = Some text →
      step w (World.mk (World.past w ++ [Says (Device.socket d) text])
                (serve (Says (Device.socket d) text) (World.server w))
                (<[i := Device.says d]> (World.devices w)))
  (* a device hears the next text of the server *)
  | step_hears i d message :
      World.devices w !! i = Some d → Bridge.socketOpen (Device.bridge d) = true →
      inbox (World.server w) (Device.socket d) !! Device.heard d = Some message →
      step w (World.mk (World.past w) (World.server w)
                (<[i := Device.hears
                     (match read_signal (JSON_stringify (server_json message)) with
                      | Some message => on_event (Device.peerId d) (SocketHears message) (Device.bridge d)
                      | None => Device.bridge d
                      end) d]> (World.devices w)))
  (* anything else that happens to a bridge *)
  | step_does i d event :
      World.devices w !! i = Some d → Bridge.socketOpen (Device.bridge d) = true →
      goes_well event → can_happen (Device.bridge d) event →
      step w (World.mk (World.past w) (World.server w)
                (<[i := Device.set_bridge (on_event (Device.peerId d) event (Device.bridge d)) d]>
                   (World.devices w))).

Inductive meeting (roomId : RoomId) : World.t → Prop :=
  | meeting_starts devices : invited roomId devices → meeting roomId (World.mk [] Server.new devices)
  | meeting_goes_on w w' : meeting roomId w → step w w' → meeting roomId w'.
End meeting.

(** Everything that was written has arrived, and nothing is awaited. *)
Definition delivered (w : World.t) : Prop :=
  Forall (λ d, Bridge.socketOpen (Device.bridge d) = true ∧
    Device.said d = length (texts (Device.bridge d)) ∧
    Device.heard d = length (inbox (World.server w) (Device.socket d)) ∧
    Bridge.tasks (Device.bridge d) = []) (World.devices w).

(** [x] waited in the room, [y] came: [y] offered, [x] answered, and both have a
    connection for the other. *)
Record met (w : World.t) (x y : Device.t) : Prop := Met {
  met_waiting : is_Some (map_get (Device.peerId y) (Bridge.connections (Device.bridge x)));
  met_coming : is_Some (map_get (Device.peerId x) (Bridge.connections (Device.bridge y)));
  met_listed : ∃ roomId peerId ids, joined_message roomId peerId ids ∈ heard_by w y ∧ Device.peerId x ∈ ids;
  met_offer : ∃ offer, signal_from (Device.peerId y) (Some (offer_signal offer)) ∈ heard_by w x;
  met_answer : ∃ answer, signal_from (Device.peerId x) (Some (answer_signal answer)) ∈ heard_by w y;
  met_once : ∀ offer, signal_from (Device.peerId x) (Some (offer_signal offer)) ∉ heard_by w y;
}.

(** A device that was let in. *)
Definition let_in (w : World.t) (d : Device.t) : Prop :=
  ∃ roomId peerId ids, joined_message roomId peerId ids ∈ heard_by w d.
