(* ===== verification/MeetingTheory.v ===== *)
(** * Devices that meet: the bridges *)

From S2P Require Import Prelude Model JsString Json JsonProps Effects JsMap Rooms Signaling SignalingTheory.
From S2P Require Import SignalingProps Hub Settings Services Bridge BridgeProps Meeting.

Open Scope Z_scope.

(** ** The words *)

Lemma json_texts_map ids : json_texts (JStr <$> ids) = Some ids.
Proof.
  unfold json_texts. induction ids as [|id ids IH]; [done|].
  change (JStr <$> id :: ids) with (JStr id :: (JStr <$> ids)). cbn [mapM]. by rewrite IH.
Qed.

(** A message whose payload has whole numbers. *)
Definition plain (message : ServerSignalMessage) : Prop :=
  match message with signal_from _ (Some payload) => safe payload | _ => True end.

Lemma safe_server_json message : plain message → safe (server_json message).
Proof.
  destruct message as [R p ids|p|p|p [payload|]|text]; intros Hp; apply safe_obj; repeat constructor; simpl; try done.
  apply (safe_arr (JStr <$> ids)). apply Forall_fmap, Forall_forall. done.
Qed.

(** A bridge reads what the server wrote. *)
Lemma read_server_words message : plain message →
  read_signal (JSON_stringify (server_json message)) = Some message.
Proof.
  intros Hp. unfold read_signal. rewrite JSON_parse_stringify by by apply safe_server_json.
  destruct message as [R p ids|p|p|p [payload|]|text]; try reflexivity.
  simpl. by rewrite json_texts_map.
Qed.

(** The server reads what a bridge wrote. *)
Lemma parse_join_text room me :
  parseClientMessage (join_text room me) =
    Some (join_room (Rendezvous.roomId room) (Rendezvous.inviteToken room) me).
Proof. unfold parseClientMessage, join_text. by rewrite JSON_parse_stringify by (apply safe_obj; repeat constructor). Qed.

Lemma parse_signal_text p payload : safe payload →
  parseClientMessage (signal_text p payload) = Some (signal_to p (Some payload)).
Proof.
  intros Hs. unfold parseClientMessage, signal_text.
  by rewrite JSON_parse_stringify by (apply safe_obj; repeat constructor; simpl; done).
Qed.

(** ** What a bridge knows *)

Implicit Types (b : Bridge.t) (heard : list ServerSignalMessage) (p q : string).

(** A message that lists a peer as being in the room, and one that makes a peer
    known. *)
Definition lists p heard : Prop := ∃ R me ids, joined_message R me ids ∈ heard ∧ p ∈ ids.
Definition knows p heard : Prop := peer_joined p ∈ heard ∨ lists p heard.

Lemma lists_more p heard message : lists p heard → lists p (heard ++ [message]).
Proof. intros (R & me & ids & Hin & Hp). exists R, me, ids. set_solver. Qed.

Lemma knows_more p heard message : knows p heard → knows p (heard ++ [message]).
Proof. intros [Hj|Hl]; [left; set_solver|right; by apply lists_more]. Qed.

(** The signals of a bridge that heard so much. *)
Inductive signals heard p : json → Prop :=
  | signals_offer description : lists p heard → safe description → signals heard p (offer_signal description)
  | signals_answer description : knows p heard → safe description → signals heard p (answer_signal description)
  | signals_candidate candidate : knows p heard → safe candidate → signals heard p (ice_signal candidate).

Lemma signals_more heard p payload message : signals heard p payload → signals (heard ++ [message]) p payload.
Proof. intros []; constructor; auto using lists_more, knows_more. Qed.

Lemma signals_knows heard p payload : signals heard p payload → knows p heard.
Proof. by intros [? Hl| |]; [right| |]. Qed.

Lemma signals_safe heard p payload : signals heard p payload → safe payload.
Proof. intros []; apply safe_obj; repeat constructor; done. Qed.

(** An offer to the peer is awaited, or was sent. *)
Definition pending p b : Prop :=
  (∃ rest, Offering p rest ∈ Bridge.tasks b) ∨
  (∃ description, safe description ∧ signal_text p (offer_signal description) ∈ texts b).

(** What the state of a bridge with an open socket is, by what it heard; [todo]
    are peers that it is about to open a connection to. *)
Record talks (room : Rendezvous.t) (me : string) heard (todo : list string) b : Prop := Talks {
  tk_socket : Bridge.socket b = Some 0%nat;
  tk_open : Bridge.socketOpen b = true;
  tk_texts : ∃ said, texts b = join_text room me :: said ∧
    Forall (λ text, ∃ p payload, text = signal_text p payload ∧ signals heard p payload) said;
  tk_offering p rest : Offering p rest ∈ Bridge.tasks b → lists p heard ∧ Forall (λ q, lists q heard) rest;
  tk_answering p : Answering p ∈ Bridge.tasks b → knows p heard;
  tk_rtc p : p ∈ (Bridge.rtc b).*1 → knows p heard;
  tk_connected p : p ∈ (Bridge.connections b).*1 → p ∈ (Bridge.rtc b).*1 ∧
    (peer_joined p ∉ heard → pending p b);
  tk_todo : Forall (λ p, lists p heard) todo;
  tk_listed p : lists p heard → peer_left p ∉ heard →
    p ∈ (Bridge.connections b).*1 ∨ (∃ q rest, Offering q rest ∈ Bridge.tasks b ∧ p ∈ rest) ∨ p ∈ todo;
  tk_joined p : peer_joined p ∈ heard → peer_left p ∉ heard → p ∈ (Bridge.connections b).*1;
  tk_offered before p description after : heard = before ++ signal_from p (Some (offer_signal description)) :: after →
    peer_joined p ∈ before → peer_left p ∉ heard →
    Answering p ∈ Bridge.tasks b ∨ ∃ answer, safe answer ∧ signal_text p (answer_signal answer) ∈ texts b;
}.

(** ** What happens to it *)

(** What is told to the person and to the main process does not matter. *)
Record same_talk b b' : Prop := SameTalk {
  st_socket : Bridge.socket b' = Bridge.socket b;
  st_open : Bridge.socketOpen b' = Bridge.socketOpen b;
  st_texts : texts b' = texts b;
  st_tasks : Bridge.tasks b' = Bridge.tasks b;
  st_rtc : Bridge.rtc b' = Bridge.rtc b;
  st_connections : Bridge.connections b' = Bridge.connections b;
}.

#[global] Instance same_talk_preorder : PreOrder same_talk.
Proof. split; [by split|]. intros ??? [] []. split; congruence. Qed.

Lemma talks_same room me heard todo b b' : same_talk b b' → talks room me heard todo b → talks room me heard todo b'.
Proof.
  intros [Es Eo Et Ek Er Ec] [Hs Ho Ht Hof Ha Hr Hc Htd Hl Hj Hso].
  split; unfold pending in *; rewrite ?Es, ?Eo, ?Et, ?Ek, ?Er, ?Ec; done.
Qed.

Lemma tell_texts l b : texts (Bridge.tell l b) = texts b ++ omap (λ call, match call with SocketSends _ text => Some text | _ => None end) l.
Proof. unfold texts. simpl. apply omap_app. Qed.

Lemma tell_same l b :
  Forall (λ call, match call with SocketSends _ _ => False | _ => True end) l → same_talk b (Bridge.tell l b).
Proof.
  intros Hl. split; try done. rewrite tell_texts. induction Hl as [|call l Hc _ IH]; simpl; [by rewrite app_nil_r|].
  by destruct call.
Qed.

Lemma attach_same p bulk b : same_talk b (attach p bulk b).
Proof. unfold attach. by destruct bulk; split. Qed.

Lemma maybeReady_same p b : same_talk b (maybeReady p b).
Proof.
  unfold maybeReady. case_match; [done|]. etrans; [|apply tell_same; by repeat constructor]. by split.
Qed.

Lemma forward_same frame queued b : same_talk b (forwardOutbound frame queued b).
Proof. unfold forwardOutbound. repeat case_match; try done; apply tell_same; by repeat constructor. Qed.

Lemma keys_set {V} p (v : V) (m : list (string * V)) q : q ∈ (map_set p v m).*1 ↔ q = p ∨ q ∈ m.*1.
Proof. rewrite map_set_keys. case_decide; set_solver. Qed.

Lemma keys_delete {V} p (m : list (string * V)) q : q ∈ (map_delete p m).*1 ↔ q ≠ p ∧ q ∈ m.*1.
Proof.
  rewrite !list_elem_of_fmap. split.
  - intros ([k v] & -> & [Hk Hin]%elem_of_map_delete). split; [done|]. by exists (k, v).
  - intros (Hq & [k v] & -> & Hin). exists (k, v). split; [done|]. by apply elem_of_map_delete.
Qed.

Lemma get_key {V} p (m : list (string * V)) : is_Some (map_get p m) ↔ p ∈ m.*1.
Proof.
  destruct (map_get p m) eqn:E.
  - apply map_get_Some, (list_elem_of_fmap_2 fst) in E. split; [done|by eexists].
  - apply map_get_None in E. split; [by intros [? ?]|done].
Qed.

(** A new connection. *)
Lemma openConnection_cases p initiator b :
  ((p ∈ (Bridge.connections b).*1) ∧ openConnection p initiator b = (b, false)) ∨
  ((p ∉ (Bridge.connections b).*1) ∧ (openConnection p initiator b).2 = initiator ∧
   let b' := (openConnection p initiator b).1 in
   Bridge.socket b' = Bridge.socket b ∧ Bridge.socketOpen b' = Bridge.socketOpen b ∧
   texts b' = texts b ∧ Bridge.tasks b' = Bridge.tasks b ∧
   Bridge.rtc b' = Bridge.rtc b ++ [(p, Bridge.iceServers b)] ∧
   Bridge.connections b' = map_set p (length (Bridge.rtc b)) (Bridge.connections b)).
Proof.
  unfold openConnection. destruct (map_get p (Bridge.connections b)) as [c|] eqn:Hc.
  - left. split; [|done]. apply get_key. by eexists.
  - right. apply map_get_None in Hc. by destruct initiator.
Qed.

(** The loop over the peers of a room does what was to do. *)
Lemma open_peers_talks room me heard l b : talks room me heard l b → talks room me heard [] (open_peers l b).
Proof.
  revert b. induction l as [|p l IH]; intros b Hb; [done|]. simpl.
  pose proof Hb as [Hs Ho Ht Hof Ha Hr Hc [Hp Htd]%Forall_cons Hl Hj Hso].
  destruct (openConnection_cases p true b) as [[Hin ->]|(Hnot & Hinit & Es & Eo & Et & Ek & Er & Ec)].
  - apply IH. split; try done. intros q Hq Hleft. destruct (Hl q Hq Hleft) as [?|[?|[->|?]%elem_of_cons]]; auto.
  - destruct (openConnection p true b) as [b1 i]. simpl in *. subst i.
    split; unfold pending; simpl; rewrite ?Es, ?Eo, ?Ek, ?Er, ?Ec; unfold texts in *; simpl; rewrite ?Et; try done.
    + intros q rest. rewrite elem_of_app, list_elem_of_singleton. intros [?|[= -> ->]]; [by apply Hof|done].
    + intros q. rewrite elem_of_app, list_elem_of_singleton. intros [?|?]; [by apply Ha|done].
    + intros q. rewrite fmap_app, elem_of_app. simpl. rewrite list_elem_of_singleton.
      intros [?| ->]; [by apply Hr|by right].
    + intros q. rewrite keys_set, fmap_app, elem_of_app. simpl. rewrite list_elem_of_singleton. intros [ ->|Hq].
      * split; [by right|]. intros _. left. exists l. set_solver.
      * destruct (Hc q Hq) as [? Hpend]. split; [by left|]. intros Hnj.
        destruct (Hpend Hnj) as [[rest ?]|?]; [left; exists rest; set_solver|by right].
    + intros q Hq Hleft. rewrite keys_set.
      destruct (Hl q Hq Hleft) as [?|[(r & rest & ? & ?)|[->|?]%elem_of_cons]]; [by left; right| |by left; left|].
      * right. left. exists r, rest. set_solver.
      * right. left. exists p, l. set_solver.
    + intros q Hq Hleft. rewrite keys_set. right. by apply Hj.
    + intros before q description after Heq Hq Hleft.
      destruct (Hso before q description after Heq Hq Hleft) as [?|?]; [left; set_solver|by right].
Qed.

(** How a message changes a bridge, before it opens connections to the peers the
    message lists. *)
Record evolves (message : ServerSignalMessage) b b' : Prop := Evolves {
  ev_socket : Bridge.socket b' = Bridge.socket b;
  ev_open : Bridge.socketOpen b' = Bridge.socketOpen b;
  ev_texts : texts b' = texts b;
  ev_tasks : ∃ new, Bridge.tasks b' = Bridge.tasks b ++ new ∧
    Forall (λ task, ∃ p, task = Answering p ∧ p ∈ (Bridge.connections b).*1) new;
  ev_rtc p : p ∈ (Bridge.rtc b').*1 → p ∈ (Bridge.rtc b).*1 ∨ message = peer_joined p;
  ev_made p : p ∈ (Bridge.connections b').*1 →
    (p ∈ (Bridge.rtc b').*1) ∧ (p ∈ (Bridge.connections b).*1 ∨ message = peer_joined p);
  ev_kept p : p ∈ (Bridge.connections b).*1 → p ∈ (Bridge.connections b').*1 ∨ message = peer_left p;
  ev_joined p : message = peer_joined p → p ∈ (Bridge.connections b').*1;
  ev_offer p description : message = signal_from p (Some (offer_signal description)) →
    p ∈ (Bridge.connections b).*1 → Answering p ∈ Bridge.tasks b';
}.

Lemma knows_last heard message p : knows p (heard ++ [message]) → knows p heard ∨ message = peer_joined p ∨
  ∃ R me ids, message = joined_message R me ids ∧ p ∈ ids.
Proof.
  intros [Hj|(R & me & ids & Hin & Hp)].
  - apply elem_of_app in Hj as [?|?%list_elem_of_singleton]; [by left; left|by right; left].
  - apply elem_of_app in Hin as [?|?%list_elem_of_singleton]; [left; right; by exists R, me, ids|].
    right. right. by exists R, me, ids.
Qed.

(** The peers a message lists. *)
Definition listed_by (message : ServerSignalMessage) : list string :=
  match message with joined_message _ _ ids => ids | _ => [] end.

Lemma lists_last heard message p : lists p (heard ++ [message]) ↔ lists p heard ∨ p ∈ listed_by message.
Proof.
  split.
  - intros (R & me & ids & Hin & Hp).
    apply elem_of_app in Hin as [?|<-%list_elem_of_singleton]; [left; by exists R, me, ids|by right].
  - intros [?|Hp]; [by apply lists_more|]. destruct message as [R me ids| | | |]; simpl in Hp;
      try by apply elem_of_nil in Hp. exists R, me, ids. set_solver.
Qed.

Lemma talks_evolves room me heard message b b' :
  evolves message b b' → talks room me heard [] b → talks room me (heard ++ [message]) (listed_by message) b'.
Proof.
  intros [Es Eo Et (new & Ek & Hnew) Er Hmade Hkept Hjoin Hoffer] [Hs Ho Ht Hof Ha Hr Hc _ Hl Hj Hso].
  assert (∀ p, pending p b → pending p b') as Hpend.
  { intros p [[rest Hin]|Hd]; unfold pending; rewrite Ek, Et; [left; exists rest; set_solver|by right]. }
  split; rewrite ?Es, ?Eo, ?Et; try done.
  - destruct Ht as (said & -> & Hsaid). exists said. split; [done|]. eapply Forall_impl; [exact Hsaid|].
    intros text (p & payload & -> & Hp). exists p, payload. split; [done|by apply signals_more].
  - intros p rest. rewrite Ek. intros [Hin|Hin]%elem_of_app.
    + destruct (Hof p rest Hin) as [? Hrest]. split; [by apply lists_more|]. eapply Forall_impl; [exact Hrest|].
      intros q. apply lists_more.
    + rewrite Forall_forall in Hnew. by destruct (Hnew _ Hin) as (? & [=] & _).
  - intros p. rewrite Ek. intros [Hin|Hin]%elem_of_app; [by apply knows_more, Ha|].
    rewrite Forall_forall in Hnew. destruct (Hnew _ Hin) as (q & [= <-] & Hq). by apply knows_more, Hr, Hc.
  - intros p Hp. destruct (Er p Hp) as [?| ->]; [by apply knows_more, Hr|left; set_solver].
  - intros p Hp. destruct (Hmade p Hp) as [Hrtc Hold]. split; [done|]. intros Hnj.
    destruct Hold as [Hold| ->]; [|set_solver]. apply Hpend, (Hc p Hold). set_solver.
  - apply Forall_forall. intros p Hp. apply lists_last. by right.
  - intros p [Hp|Hp]%lists_last Hleft; [|by right; right].
    destruct (Hl p Hp) as [Hin|[(q & rest & Hin & Hq)|Hin%elem_of_nil]]; [set_solver| | |done].
    + destruct (Hkept p Hin) as [?| ->]; [by left|set_solver].
    + right. left. exists q, rest. rewrite Ek. set_solver.
  - intros p [Hin|Hin%list_elem_of_singleton]%elem_of_app Hleft; [|by apply Hjoin].
    destruct (Hkept p) as [?| ->]; [apply Hj; set_solver|done|set_solver].
  - intros before p description after Heq Hbefore Hleft.
    destruct after as [|x after _] using rev_ind.
    + apply app_inj_tail in Heq as [-> ->]. left. eapply Hoffer; [done|]. apply Hj; [done|set_solver].
    + rewrite app_comm_cons, app_assoc in Heq. apply app_inj_tail in Heq as [-> ->].
      rewrite Ek. destruct (Hso before p description after eq_refl Hbefore) as [?|?]; [set_solver|left; set_solver|by right].
Qed.

Lemma evolves_same message b b' : same_talk b b' → (∀ p, message ≠ peer_joined p) →
  (∀ p description, message = signal_from p (Some (offer_signal description)) → p ∉ (Bridge.connections b).*1) →
  (∀ p, (p ∈ (Bridge.connections b).*1) → p ∈ (Bridge.rtc b).*1) → evolves message b b'.
Proof.
  intros [Es Eo Et Ek Er Ec] Hnj Hno Hrtc. split; rewrite ?Es, ?Eo, ?Et, ?Ek, ?Er, ?Ec; auto.
  - exists []. by rewrite app_nil_r.
  - intros p Hm. by destruct (Hnj p).
  - intros p description Hm Hp. by destruct (Hno p description Hm).
Qed.

Lemma teardown_cases p b :
  let b' := teardown p b in
  Bridge.socket b' = Bridge.socket b ∧ Bridge.socketOpen b' = Bridge.socketOpen b ∧ texts b' = texts b ∧
  Bridge.tasks b' = Bridge.tasks b ∧ Bridge.rtc b' = Bridge.rtc b ∧
  (Bridge.connections b' = Bridge.connections b ∨ Bridge.connections b' = map_delete p (Bridge.connections b)).
Proof.
  cbv zeta. unfold teardown, texts.
  destruct (map_get p (Bridge.control b)), (map_get p (Bridge.bulk b)), (map_get p (Bridge.connections b));
    simpl; rewrite ?omap_app; simpl; rewrite ?app_nil_r; auto 10.
Qed.

(** A message that its handler has heard, up to the loop over the room. *)
Lemma handle_evolves room me heard message b : talks room me heard [] b →
  ∃ b', evolves message b b' ∧ handleSignal message b = open_peers (listed_by message) b'.
Proof.
  intros Hb. assert (∀ p, (p ∈ (Bridge.connections b).*1) → p ∈ (Bridge.rtc b).*1) as Hrtc by apply Hb.
  destruct message as [R q ids|p|p|p payload|text]; simpl.
  - eexists. split; [|reflexivity]. apply evolves_same; [|done..]. apply tell_same. by repeat constructor.
  - exists (openConnection p false b).1. split; [|done].
    destruct (openConnection_cases p false b) as [[Hin ->]|(Hnot & _ & Es & Eo & Et & Ek & Er & Ec)].
    + split; auto; [exists []; by rewrite app_nil_r|by intros ? [= ->]|done].
    + split; rewrite ?Es, ?Eo, ?Et, ?Ek, ?Er, ?Ec; auto.
      * exists []. by rewrite app_nil_r.
      * intros q. rewrite fmap_app, elem_of_app. simpl. rewrite list_elem_of_singleton.
        intros [?| ->]; [by left|by right].
      * intros q. rewrite keys_set, fmap_app, elem_of_app. simpl. rewrite list_elem_of_singleton.
        intros [->|Hq]; [by split; right|]. split; [left; by apply Hrtc|by left].
      * intros q Hq. left. rewrite keys_set. by right.
      * intros q [= ->]. rewrite keys_set. by left.
      * done.
  - case_decide; eexists; (split; [|reflexivity]); [by apply evolves_same|].
    destruct (teardown_cases p b) as (Es & Eo & Et & Ek & Er & Ec). split; rewrite ?Es, ?Eo, ?Et, ?Ek, ?Er; auto.
    + exists []. by rewrite app_nil_r.
    + intros q Hq. assert (q ∈ (Bridge.connections b).*1) as Hin.
      { destruct Ec as [Ec|Ec]; rewrite Ec in Hq; [done|]. by apply keys_delete in Hq as [_ ?]. }
      split; [by apply Hrtc|by left].
    + intros q Hq. destruct Ec as [->| ->]; [by left|]. rewrite keys_delete.
      destruct (decide (q = p)) as [->|]; [by right|by left].
    + done.
    + done.
  - eexists. split; [|reflexivity]. unfold applySignal.
    destruct (map_get p (Bridge.connections b)) as [c|] eqn:Hc.
    2:{ apply evolves_same; [done..| |done]. intros q d [= -> _]. by apply map_get_None. }
    assert (p ∈ (Bridge.connections b).*1) as Hp by (apply get_key; by eexists).
    assert (∀ payload', (∀ d, payload' ≠ Some (offer_signal d)) → evolves (signal_from p payload') b b) as Hother.
    { intros payload' Hno. apply evolves_same; [done..| |done]. intros q d [= -> ->]. by destruct (Hno d). }
    destruct payload as [[| | | | |members]|]; try by apply Hother.
    destruct (member "type" members) as [[| | |kind| |]|] eqn:Hk;
      try (apply Hother; intros d [= ->]; simpl in Hk; discriminate).
    destruct (member "description" members) as [d|] eqn:Hd;
      [|apply Hother; intros d [= ->]; simpl in Hd; discriminate].
    case_decide as Hkind; [|apply Hother; intros d' [= ->]; simpl in Hk; by injection Hk].
    split; simpl; auto.
    + exists [Answering p]. split; [done|]. repeat constructor. by exists p.
    + done.
    + intros q d' [= -> _] _. set_solver.
  - eexists. split; [|reflexivity]. apply evolves_same; [|done..]. apply tell_same. by repeat constructor.
Qed.

Lemma talks_hears room me heard message b :
  talks room me heard [] b → talks room me (heard ++ [message]) [] (handleSignal message b).
Proof.
  intros Hb. destruct (handle_evolves room me heard message b Hb) as (b' & He & ->).
  by apply open_peers_talks, (talks_evolves _ _ _ _ b).
Qed.

(** A signal that is sent. *)
Lemma talks_says room me heard todo p payload b : talks room me heard todo b → signals heard p payload →
  talks room me heard todo (Bridge.tell [SocketSends 0 (signal_text p payload)] b).
Proof.
  intros [Hs Ho Ht Hof Ha Hr Hc Htd Hl Hj Hso] Hsig.
  split; unfold pending; rewrite ?tell_texts; simpl; try done.
  - destruct Ht as (said & -> & Hsaid). exists (said ++ [signal_text p payload]). split; [done|].
    apply Forall_app_2; [done|]. repeat constructor. by exists p, payload.
  - intros q Hq. destruct (Hc q Hq) as [? Hpend]. split; [done|]. intros Hnj.
    destruct (Hpend Hnj) as [?|(d & Hd & Hin)]; [by left|right]. exists d. split; [done|]. set_solver.
  - intros before q d after Heq Hbefore Hleft. destruct (Hso before q d after Heq Hbefore Hleft) as [?|(a & ? & ?)];
      [by left|right]. exists a. set_solver.
Qed.

Lemma sendSignal_open room me heard todo p payload b :
  talks room me heard todo b →
  sendSignal p payload b = Some (Bridge.tell [SocketSends 0 (signal_text p payload)] b).
Proof. intros Hb. unfold sendSignal. by rewrite (tk_socket _ _ _ _ _ Hb), (tk_open _ _ _ _ _ Hb). Qed.

(** What was awaited for a peer is there: the task goes, its signal is sent. *)
Lemma delete_task (task : BridgeTask) (i : nat) (l : list BridgeTask) t : l !! i = Some task → t ∈ l → t = task ∨ t ∈ delete i l.
Proof.
  intros Hi Ht. apply list_elem_of_lookup in Ht as [j Hj]. destruct (decide (i = j)) as [->|Hne].
  - left. congruence.
  - right. apply list_elem_of_lookup. destruct (decide (j < i)%nat).
    + exists j. by rewrite list_lookup_delete_lt.
    + exists (j - 1)%nat. rewrite list_lookup_delete_ge by lia. by replace (S (j - 1)) with j by lia.
Qed.

Lemma deleted_task (l : list BridgeTask) (i : nat) t : t ∈ delete i l → t ∈ l.
Proof. rewrite delete_take_drop, elem_of_app. intros [Ht|Ht]; [by eapply subseteq_take|by eapply subseteq_drop]. Qed.

(** What a task sends at its end, and what it leaves to do. *)
Definition task_signal (task : BridgeTask) (description : json) : string * json :=
  match task with
  | Offering p _ => (p, offer_signal description)
  | Answering p => (p, answer_signal description)
  end.

Definition task_rest (task : BridgeTask) : list string :=
  match task with Offering _ rest => rest | Answering _ => [] end.

Lemma talks_ends room me heard i task description b :
  talks room me heard [] b → Bridge.tasks b !! i = Some task → safe description →
  let sent := task_signal task description in
  talks room me heard (task_rest task)
    (Bridge.tell [SocketSends 0 (signal_text sent.1 sent.2)] (Bridge.set_tasks (delete i (Bridge.tasks b)) b)).
Proof.
  intros Hb Hi Hd sent. pose proof (list_elem_of_lookup_2 _ _ _ Hi) as Htask.
  assert (signals heard sent.1 sent.2) as Hsig.
  { destruct task as [p rest|p]; simpl; constructor; try done; [by eapply (tk_offering _ _ _ _ _ Hb)|].
    by apply (tk_answering _ _ _ _ _ Hb). }
  pose proof (talks_says room me heard [] sent.1 sent.2 b Hb Hsig) as [Hs Ho Ht Hof Ha Hr Hc Htd Hl Hj Hso].
  rewrite tell_texts in Ht. simpl in *.
  assert (∀ p, pending p (Bridge.tell [SocketSends 0 (signal_text sent.1 sent.2)] b) →
    pending p (Bridge.tell [SocketSends 0 (signal_text sent.1 sent.2)]
                 (Bridge.set_tasks (delete i (Bridge.tasks b)) b))) as Hpend.
  { intros p [[rest Hin]|?]; [|by right]. simpl in Hin. destruct (delete_task _ _ _ _ Hi Hin) as [<-|?].
    - right. exists description. split; [done|]. rewrite tell_texts. simpl. set_solver.
    - left. by exists rest. }
  split; simpl; rewrite ?tell_texts; simpl; try done.
  - intros p rest Hin%deleted_task. by apply Hof.
  - intros p Hin%deleted_task. by apply Ha.
  - intros p Hp. destruct (Hc p Hp) as [? Hq]. split; [done|]. intros Hnj. by apply Hpend, Hq.
  - destruct task as [p rest|p]; simpl; [by eapply (tk_offering _ _ _ _ _ Hb)|constructor].
  - intros p Hp Hleft. destruct (Hl p Hp Hleft) as [?|[(q & rest & Hin & Hrest)|?%elem_of_nil]]; [by left| |done].
    destruct (delete_task _ _ _ _ Hi Hin) as [<-|?]; [by right; right|right; left; by exists q, rest].
  - intros before p d after Heq Hbefore Hleft.
    destruct (Hso before p d after Heq Hbefore Hleft) as [Hin|(a & ? & Hin)].
    + destruct (delete_task _ _ _ _ Hi Hin) as [<-|?]; [|by left]. right. exists description. set_solver.
    + right. exists a. rewrite tell_texts in Hin. simpl in Hin. done.
Qed.

Section events.
Context (url_host : string → option string) (opens : string → bool) (has_window : bool).
Abbreviation on_event := (Bridge.on_event url_host opens has_window).

(** A socket that opens. *)
Lemma talks_opens (d : Device.t) : at_start d →
  talks (Device.room d) (Device.peerId d) [] []
    (on_event (Device.peerId d) (SocketOpens 0 (Device.room d)) (Device.bridge d)).
Proof.
  intros [Hs Ho _ Hc Hr Hk Ht _ _]. simpl. unfold socket_opened. rewrite decide_True by done.
  split; unfold pending; rewrite ?tell_texts; simpl; rewrite ?Hs, ?Hk, ?Hr, ?Hc; unfold texts in *; simpl in *;
    rewrite ?Ht; try done; try (by intros ? ?%elem_of_nil); try (by intros ? ? ?%elem_of_nil).
  - by eexists [].
  - by intros p (? & ? & ? & ?%elem_of_nil & _).
  - by intros [] ? ? ? [=].
Qed.

Lemma talks_does room me heard event b : talks room me heard [] b → goes_well event → can_happen b event →
  talks room me heard [] (on_event me event b).
Proof.
  intros Hb Hwell Hcan. destruct event; try done; simpl in *.
  - unfold useIceServers. case_decide; [done|]. eapply talks_same, Hb. by split.
  - unfold wake. rewrite (tk_socket _ _ _ _ _ Hb). by case_match.
  - eapply talks_same, Hb. apply forward_same.
  - rewrite (sendSignal_open room me heard [] _ _ _ Hb). simpl. apply talks_says; [done|].
    constructor; [by apply (tk_rtc _ _ _ _ _ Hb)|done].
  - eapply talks_same, Hb. apply attach_same.
  - case_match; [|done]. eapply talks_same, Hb. etrans; [|apply maybeReady_same]. by split.
  - case_match; [|done]. eapply talks_same, Hb. unfold channel_message. repeat case_match; try done;
      apply tell_same; by repeat constructor.
  - case_match; [|done]. eapply talks_same, Hb. case_match; [|done]. apply tell_same. by repeat constructor.
  - destruct description as [description|]; [|done]. destruct Hcan as [t Hi]. rewrite Hi.
    pose proof (talks_ends room me heard task t description b Hb Hi Hwell) as Hends.
    assert (∀ p payload, sendSignal p payload (Bridge.set_tasks (delete task (Bridge.tasks b)) b) =
      Some (Bridge.tell [SocketSends 0 (signal_text p payload)]
              (Bridge.set_tasks (delete task (Bridge.tasks b)) b))) as Hsend.
    { intros p payload. unfold sendSignal. simpl. by rewrite (tk_socket _ _ _ _ _ Hb), (tk_open _ _ _ _ _ Hb). }
    destruct t as [p rest|p]; simpl in *.
    + unfold offer_done. fold (offer_signal description). rewrite Hsend. by apply open_peers_talks.
    + unfold answer_done. fold (answer_signal description). by rewrite Hsend.
Qed.
End events.

(** ** What it wrote stays *)

Lemma open_peers_texts l b : texts (open_peers l b) = texts b.
Proof.
  revert b. induction l as [|p l IH]; intros b; [done|]. simpl.
  destruct (openConnection_cases p true b) as [[_ ->]|(_ & Hi & _ & _ & Et & _)]; [apply IH|].
  destruct (openConnection p true b) as [b1 i]. simpl in *. subst i. exact Et.
Qed.

Lemma hears_texts room me heard message b : talks room me heard [] b → texts (handleSignal message b) = texts b.
Proof.
  intros Hb. destruct (handle_evolves room me heard message b Hb) as (b' & He & ->).
  rewrite open_peers_texts. apply He.
Qed.

Lemma does_texts url_host opens has_window room me heard event b :
  talks room me heard [] b → goes_well event → can_happen b event →
  ∃ new, texts (on_event url_host opens has_window me event b) = texts b ++ new.
Proof.
  intros Hb Hwell Hcan.
  assert (∀ b', same_talk b b' → ∃ new, texts b' = texts b ++ new) as Hsame.
  { intros b' Hb'. exists []. by rewrite app_nil_r, (st_texts _ _ Hb'). }
  destruct event; try done; simpl in *.
  - apply Hsame. unfold useIceServers. case_decide; [done|by split].
  - apply Hsame. unfold wake. rewrite (tk_socket _ _ _ _ _ Hb). by case_match.
  - apply Hsame, forward_same.
  - rewrite (sendSignal_open room me heard [] _ _ _ Hb). simpl. rewrite tell_texts. by eexists.
  - apply Hsame, attach_same.
  - apply Hsame. case_match; [|done]. etrans; [|apply maybeReady_same]. by split.
  - apply Hsame. case_match; [|done]. unfold channel_message. repeat case_match; try done;
      apply tell_same; by repeat constructor.
  - apply Hsame. case_match; [|done]. case_match; [|done]. apply tell_same. by repeat constructor.
  - destruct description as [description|]; [|done]. destruct Hcan as [t Hi]. rewrite Hi.
    destruct t as [p rest|p]; simpl; [unfold offer_done|unfold answer_done]; unfold sendSignal; simpl;
      rewrite (tk_socket _ _ _ _ _ Hb), (tk_open _ _ _ _ _ Hb); simpl; rewrite ?open_peers_texts, tell_texts; by eexists.
Qed.

(** ** The server *)

(** A message about a peer. *)
Inductive about (p : PeerId) : ServerSignalMessage → Prop :=
  | about_joined : about p (peer_joined p)
  | about_left : about p (peer_left p)
  | about_signal payload : about p (signal_from p payload)
  | about_listed R me ids : p ∈ ids → about p (joined_message R me ids).

Lemma about_inv p m : about p m → m = peer_joined p ∨ m = peer_left p ∨ (∃ payload, m = signal_from p payload) ∨
  p ∈ listed_by m.
Proof. intros []; eauto. Qed.

(** A message about none of the devices, and no answer to a join. *)
Definition other_news (devices : list Device.t) (m : ServerSignalMessage) : Prop :=
  (∀ R p ids, m ≠ joined_message R p ids) ∧ ∀ p, p ∈ Device.peerId <$> devices → ¬ about p m.

(** What a socket joined, as far as the server knows it. *)
Definition seat (s : Server.t) (t : Socket) : option (option (RoomId * PeerId)) :=
  Peer.joined <$> Server.clients s !! t.

Lemma seat_joined s R p t : has_joined s R p t ↔ seat s t = Some (Some (R, p)).
Proof.
  unfold has_joined, seat. destruct (Server.clients s !! t) as [c|]; simpl; split.
  - intros (c' & [= <-] & ->). done.
  - intros [= Hj]. by exists c.
  - by intros (c' & [=] & _).
  - done.
Qed.

Lemma seat_alter f t u (s : Server.t) : (∀ c, Peer.joined (f c) = Peer.joined c) →
  Peer.joined <$> alter f t (Server.clients s) !! u = seat s u.
Proof.
  intros Hf. unfold seat. destruct (decide (t = u)) as [->|]; [|by rewrite lookup_alter_ne].
  rewrite lookup_alter_eq. destruct (Server.clients s !! u) as [c|]; simpl; [|done]. by rewrite Hf.
Qed.

Lemma inbox_sent s s' new t : RoomRegistry.sent (Server.registry s') = RoomRegistry.sent (Server.registry s) ++ new →
  inbox s' t = inbox s t ++ (filter (λ d, d.1 = t) new).*2.
Proof. intros Hs. unfold inbox. by rewrite Hs, filter_app, fmap_app. Qed.

Section steps.
Context (now : nat → Z) (randomUUID : nat → RoomId) (randomToken : nat → string).
Context (randomInt : nat → nat) (fuel : nat).
Abbreviation serve := (serve now randomUUID randomToken randomInt fuel).
Abbreviation serves := (serves now randomUUID randomToken randomInt fuel).
Abbreviation sent s := (RoomRegistry.sent (Server.registry s)).
Implicit Types (s : Server.t) (devices : list Device.t) (past : list ServerEvent).

(** The ids of the devices are asked for by their sockets only. *)
Definition own_ids past devices : Prop :=
  ∀ d t R token, d ∈ devices → asked past t R token (Device.peerId d) → t = Device.socket d.

Lemma asked_last past event t R token p : asked (past ++ [event]) t R token p →
  asked past t R token p ∨ ∃ raw, event = Says t raw ∧ parseClientMessage raw = Some (join_room R token p).
Proof.
  intros (raw & [Hin|Hin%list_elem_of_singleton]%elem_of_app & Hp); [left|right]; by exists raw.
Qed.

Lemma stranger_own devices past event : of_strangers devices event →
  own_ids past devices → own_ids (past ++ [event]) devices.
Proof.
  intros Hstr Hown d t R token Hd [Ha|(raw & -> & Hp)]%asked_last; [by eapply Hown|].
  simpl in Hstr. rewrite Hp in Hstr. destruct Hstr as [_ Hno]. destruct Hno. by apply list_elem_of_fmap_2.
Qed.

(** The heartbeat and its answers send nothing. *)
Lemma beats_silent event s : match event with Pongs _ | Errors _ | Beats => True | _ => False end →
  sent (serve event s) = sent s.
Proof. by destruct event. Qed.

Lemma stranger_seat devices event s t : of_strangers devices event → t ∈ Device.socket <$> devices →
  seat (serve event s) t = seat s t.
Proof.
  intros Hstr Ht. unfold seat.
  destruct event as [u|u raw|u|u|u| |request]; simpl in *.
  - rewrite lookup_insert_ne by set_solver. done.
  - destruct Hstr as [Hu _].
    destruct (message_clients now u raw s) as [->|(R & token & p & _ & ->)]; [done|].
    by rewrite lookup_alter_ne by set_solver.
  - by apply seat_alter.
  - by apply seat_alter.
  - rewrite close_clients, lookup_delete_ne by set_solver. done.
  - rewrite lookup_fmap. destruct (Server.clients s !! t) as [c|]; simpl; [|done]. unfold beat.
    by destruct (Peer.isAlive c).
  - by rewrite request_clients.
Qed.

(** What strangers do is no news about the devices. *)
Lemma stranger_news devices past event s : of_strangers devices event →
  serves past s → possible past s event → own_ids past devices →
  ∀ d, d ∈ devices → ∃ new, inbox (serve event s) (Device.socket d) = inbox s (Device.socket d) ++ new ∧
    Forall (λ m, other_news devices m ∧ plain m) new.
Proof.
  intros Hstr Hs Hpos Hown d Hd.
  assert (sent (serve event s) = sent s ∨ match event with Pongs _ | Errors _ | Beats => False | _ => True end)
    as [Hq|Hloud].
  { destruct event; auto; left; by apply beats_silent. }
  { exists []. split; [|done]. rewrite app_nil_r. unfold inbox. by rewrite Hq. }
  destruct (server_step now randomUUID randomToken randomInt fuel past event s) as [_ (new & Hnew & Hall)];
    [by eapply serves_ok|done|].
  exists (filter (λ x, x.1 = Device.socket d) new).*2. split; [by apply inbox_sent|].
  assert (∀ u, speaker event = Some u → u ∉ Device.socket <$> devices) as Hspeaker.
  { intros u Hu. destruct event; simplify_eq/=; try done. by destruct Hstr. }
  apply Forall_fmap, Forall_forall. intros [t m] [Ht Hin]%list_elem_of_filter. simpl in *. subst t.
  rewrite Forall_forall in Hall. destruct (Hall _ Hin) as [Hsp|(u & R & token & p & token' & q & Hu & Hp & _ & Hm)];
    simpl in *.
  { destruct (Hspeaker _ Hsp). by apply list_elem_of_fmap_2. }
  split.
  2:{ destruct Hm as [| |t raw q' [payload|] -> Hraw]; simpl; try done. simpl in Hstr. rewrite Hraw in Hstr. by destruct Hstr. }
  split; [intros; by destruct Hm|]. intros p' Hp' Hab.
  assert (p' = p) as ->. { destruct Hm; by inversion Hab. }
  apply list_elem_of_fmap in Hp' as (d' & -> & Hd').
  destruct (Hspeaker u Hu). rewrite (stranger_own devices past event Hstr Hown d' u R token Hd' Hp).
  by apply list_elem_of_fmap_2.
Qed.


(** ** What the devices do *)

(** A socket that opens has joined nothing yet. *)
Lemma opens_seat t s : sent (serve (Signaling.Connects t) s) = sent s ∧
  seat (serve (Signaling.Connects t) s) t = Some None ∧
  ∀ u, u ≠ t → seat (serve (Signaling.Connects t) s) u = seat s u.
Proof.
  split; [done|]. unfold seat. simpl. split; [by rewrite lookup_insert_eq|].
  intros u Hu. by rewrite lookup_insert_ne.
Qed.

(** A join is refused, or it seats the socket; it is told who is in the room,
    and they are told of it. *)
Lemma join_step t raw R token p s :
  parseClientMessage raw = Some (join_room R token p) → seat s t = Some None → server_keys s → exact_rooms s →
  (∀ u, ¬ has_joined s R p u) →
  let s' := serve (Says t raw) s in
  (∃ text, sent s' = sent s ++ [(t, signal_error text)] ∧ ∀ u, seat s' u = seat s u) ∨
  (∃ ids, (∀ q, q ∈ ids ↔ ∃ u, has_joined s R q u) ∧
    seat s' t = Some (Some (R, p)) ∧ (∀ u, u ≠ t → seat s' u = seat s u) ∧
    inbox s' t = inbox s t ++ [joined_message R p ids] ∧
    ∀ u, u ≠ t → ∃ new, inbox s' u = inbox s u ++ new ∧ Forall (λ m, m = peer_joined p) new ∧
      (new ≠ [] ↔ ∃ q, has_joined s R q u)).
Proof.
  intros Hp Hseat Hk He Hnew. simpl.
  destruct (message_join now t raw R token p s Hp) as [(_ & Hc & text & Hs)|(room & Hf & _ & Hc & Hs)].
  { left. exists text. split; [done|]. intros u. unfold seat. by rewrite Hc. }
  right. pose proof (found_peers R token room s Hf) as Hin. exists (Room.peers room).*1.
  assert (∀ q u, (q, u) ∈ Room.peers room ↔ has_joined s R q u) as Hpeers by (intros q u; by rewrite Hin).
  assert (NoDup (Room.peers room).*1) as Hnd by (destruct Hf as [room HR|]; [by eapply Hk|constructor]).
  unfold seat in Hseat. destruct (Server.clients s !! t) as [c|] eqn:Hct; [|done].
  assert (∀ u, (filter (λ d, d.1 = u) (told p (map_set p t (Room.peers room)) (peer_joined p))).*2 =
    (λ _, peer_joined p) <$> filter (λ e, e.2 = u) (filter (λ e, e.1 ≠ p) (map_set p t (Room.peers room)))) as Htold.
  { intros u. unfold told, to_all. set (l := filter (λ e, e.1 ≠ p) _). clearbody l.
    induction l as [|[q v] l IH]; [done|].
    csimpl. rewrite !filter_cons. simpl. case_decide; csimpl; by rewrite IH. }
  split_and!.
  - intros q. rewrite list_elem_of_fmap. split.
    + intros ([q' u] & -> & Hq). exists u. by apply Hpeers.
    + intros [u Hu]. exists (q, u). split; [done|]. by apply Hpeers.
  - unfold seat. rewrite Hc, lookup_alter_eq, Hct. done.
  - intros u Hu. unfold seat. by rewrite Hc, lookup_alter_ne.
  - rewrite (inbox_sent _ _ _ t Hs), filter_app, fmap_app, Htold. rewrite filter_cons. simpl.
    rewrite decide_True by done. simpl.
    assert (filter (λ e, e.2 = t) (filter (λ e, e.1 ≠ p) (map_set p t (Room.peers room))) = []) as ->; [|done].
    apply elem_of_nil_inv.
    intros [q u] [Hq [Hqp Hq']%list_elem_of_filter]%list_elem_of_filter. simpl in *. subst u.
    apply elem_of_map_set in Hq' as [[? _]|[_ Hq'%Hpeers]]; [done| |done].
    apply seat_joined in Hq'. unfold seat in Hq'. rewrite Hct in Hq'. simpl in Hq'. congruence.
  - intros u Hu. eexists. split; [exact (inbox_sent _ _ _ u Hs)|].
    rewrite filter_app, fmap_app, Htold. rewrite filter_cons. simpl. rewrite decide_False by done. simpl.
    rewrite app_nil_r. split; [by apply Forall_fmap, Forall_forall|].
    split.
    + intros Hne. destruct (filter _ (filter _ _)) as [|[q v] l] eqn:Hl; [done|].
      assert ((q, v) ∈ (q, v) :: l) as Hq by constructor. rewrite <-Hl in Hq.
      apply list_elem_of_filter in Hq as [Hv [Hq Hq']%list_elem_of_filter]. simpl in *. subst v.
      apply elem_of_map_set in Hq' as [[? _]|[_ Hq'%Hpeers]]; [done|by exists q|done].
    + intros [q Hq] Hnil%fmap_nil_inv.
      assert ((q, u) ∈ filter (λ e, e.2 = u) (filter (λ e, e.1 ≠ p) (map_set p t (Room.peers room)))) as Hel.
      { apply list_elem_of_filter. split; [done|]. apply list_elem_of_filter.
        assert (q ≠ p) by (intros ->; by apply (Hnew u)).
        split; [done|]. apply elem_of_map_set; [done|]. right. split; [done|]. by apply Hpeers. }
      rewrite Hnil in Hel. by apply elem_of_nil in Hel.
Qed.

(** A signal is for the socket that joined under the id, or its sender is told
    that there is none. *)
Lemma signal_step t raw R p q payload s :
  parseClientMessage raw = Some (signal_to q payload) → has_joined s R p t → server_keys s → exact_rooms s →
  let s' := serve (Says t raw) s in
  (∀ u, seat s' u = seat s u) ∧
  ∀ u, ∃ new, inbox s' u = inbox s u ++ new ∧
    Forall (λ m, (∃ text, m = signal_error text) ∨ m = signal_from p payload ∧ has_joined s R q u) new ∧
    (has_joined s R q u → signal_from p payload ∈ new).
Proof.
  intros Hp Ht Hk He s'. split.
  { intros u. unfold seat. subst s'. simpl.
    destruct (message_no_join now t raw s) as [_ ->]; [congruence|done]. }
  intros u. subst s'.
  destruct (signal_delivered now randomUUID randomToken randomInt fuel s R p t raw q payload He Ht Hp)
    as [(v & Hv & Hs)|(Hno & text & Hs)].
  - exists (filter (λ d, d.1 = u) [(v, signal_from p payload)]).*2. split; [by apply inbox_sent|].
    rewrite filter_cons. simpl. destruct (decide (v = u)) as [->|Hne]; csimpl.
    + split; [constructor; [by right|constructor]|]. intros _. set_solver.
    + split; [constructor|]. intros Hu. destruct Hne. by apply (joined_once s R q v u).
  - exists (filter (λ d, d.1 = u) [(t, signal_error text)]).*2. split; [by apply inbox_sent|].
    rewrite filter_cons. simpl. destruct (decide (t = u)) as [->|Hne]; csimpl.
    + split; [constructor; [left; by exists text|constructor]|]. intros Hu. by destruct (Hno u).
    + split; [constructor|]. intros Hu. by destruct (Hno u).
Qed.

(** One who has not joined is told so. *)
Lemma signal_unseated t raw q payload s : parseClientMessage raw = Some (signal_to q payload) → seat s t = Some None →
  let s' := serve (Says t raw) s in
  (∀ u, seat s' u = seat s u) ∧ ∃ text, sent s' = sent s ++ [(t, signal_error text)].
Proof.
  intros Hp Hseat s'. split.
  { intros u. unfold seat. subst s'. simpl.
    destruct (message_no_join now t raw s) as [_ ->]; [congruence|done]. }
  subst s'. simpl. unfold on_message, catching, handle_message. rewrite Hp.
  unfold joined_of, mbind, M_bind, gets, on. simpl. unfold seat in Hseat.
  destruct (Server.clients s !! t) as [c|]; [|done]. simpl in *. injection Hseat as Hj. rewrite Hj. by eexists.
Qed.

(** An error for one socket. *)
Lemma error_inbox s s' t text u : sent s' = sent s ++ [(t, signal_error text)] →
  ∃ new, inbox s' u = inbox s u ++ new ∧ Forall (λ m, ∃ text, m = signal_error text) new.
Proof.
  intros Hs. eexists. split; [exact (inbox_sent s s' _ u Hs)|]. rewrite filter_cons. simpl.
  case_decide; csimpl; repeat constructor. by exists text.
Qed.
End steps.
