(* ===== verification/MeetingWorld.v ===== *)
(** * Devices that meet: what holds at every step *)

From S2P Require Import Prelude Model JsString Json JsonProps JsMap Effects Rooms Hub Settings Services Signaling.
From S2P Require Import SignalingTheory SignalingProps Bridge Meeting MeetingTheory.

Open Scope Z_scope.

(** ** What holds of the devices and the server *)

Implicit Types (devices : list Device.t) (i j k : nat) (s : Server.t) (d x y : Device.t) (past : list ServerEvent) (w : World.t).

Definition heard_of s d : list ServerSignalMessage := take (Device.heard d) (inbox s (Device.socket d)).

Lemma heard_more s s' d new : (Device.heard d <= length (inbox s (Device.socket d)))%nat →
  inbox s' (Device.socket d) = inbox s (Device.socket d) ++ new → heard_of s' d = heard_of s d.
Proof. intros Hle Hin. unfold heard_of. rewrite Hin. by apply take_app_le. Qed.

Lemma heard_inbox s d m : m ∈ heard_of s d → m ∈ inbox s (Device.socket d).
Proof. apply subseteq_take. Qed.

Lemma knows_inbox s d p : knows p (heard_of s d) → knows p (inbox s (Device.socket d)).
Proof.
  intros [Hj|(R & me & ids & Hin & Hp)]; [left; by apply heard_inbox|].
  right. exists R, me, ids. split; [by apply heard_inbox|done].
Qed.

(** The device is the same one. *)
Definition same_id d d' : Prop :=
  Device.peerId d' = Device.peerId d ∧ Device.room d' = Device.room d ∧ Device.socket d' = Device.socket d.

Section room.
Context (R : RoomId).
Definition seated s d : Prop := has_joined s R (Device.peerId d) (Device.socket d).

(** What holds of a device. *)
Record device_ok past s d : Prop := DeviceOk {
  dv_room : Rendezvous.roomId (Device.room d) = R;
  dv_state : (talks (Device.room d) (Device.peerId d) (heard_of s d) [] (Device.bridge d) ∧
              is_Some (seat s (Device.socket d))) ∨
             (at_start d ∧ seat s (Device.socket d) = None);
  dv_own R' token p : asked past (Device.socket d) R' token p → R' = R ∧ p = Device.peerId d;
  dv_said : (Device.said d <= length (texts (Device.bridge d)))%nat;
  dv_heard : (Device.heard d <= length (inbox s (Device.socket d)))%nat;
  dv_first R' p : Device.said d = 0%nat → ¬ has_joined s R' p (Device.socket d);
  dv_plain : Forall plain (inbox s (Device.socket d));
  dv_joined R' p ids : joined_message R' p ids ∈ inbox s (Device.socket d) → seated s d;
}.

(** [x] was in the room when [y] came. *)
Record first_in s x y : Prop := FirstIn {
  fi_told : peer_joined (Device.peerId y) ∈ inbox s (Device.socket x);
  fi_unlisted : ¬ lists (Device.peerId y) (inbox s (Device.socket x));
  fi_listed : lists (Device.peerId x) (inbox s (Device.socket y));
  fi_untold : peer_joined (Device.peerId x) ∉ inbox s (Device.socket y);
  fi_order before payload after :
    inbox s (Device.socket x) = before ++ signal_from (Device.peerId y) payload :: after →
    peer_joined (Device.peerId y) ∈ before;
}.

(** What [x] was sent about [y]. *)
Record pair_ok s x y : Prop := PairOk {
  pk_gone : peer_left (Device.peerId y) ∉ inbox s (Device.socket x);
  pk_unknown m : m ∈ inbox s (Device.socket x) → about (Device.peerId y) m → seated s y;
  pk_here : knows (Device.peerId y) (inbox s (Device.socket x)) → seated s x;
  pk_signals payload : signal_from (Device.peerId y) payload ∈ inbox s (Device.socket x) →
    ∃ p, payload = Some p ∧ signals (heard_of s y) (Device.peerId x) p;
  pk_sent k payload : (k < Device.said y)%nat →
    texts (Device.bridge y) !! k = Some (signal_text (Device.peerId x) payload) → safe payload →
    signal_from (Device.peerId y) (Some payload) ∈ inbox s (Device.socket x);
}.

Definition in_order s x y : Prop := seated s x → seated s y → first_in s x y ∨ first_in s y x.

(** ** Steps of the server that leave a device as it is *)

Lemma device_keeps past past' s s' d new : device_ok past s d →
  inbox s' (Device.socket d) = inbox s (Device.socket d) ++ new →
  Forall (λ m, plain m ∧ ∀ R' p ids, m ≠ joined_message R' p ids) new →
  seat s' (Device.socket d) = seat s (Device.socket d) →
  (∀ R' token p, asked past' (Device.socket d) R' token p → asked past (Device.socket d) R' token p) →
  device_ok past' s' d.
Proof.
  intros [Hroom Hst Hown Hsaid Hheard Hfirst Hplain Hj] Hin Hnew Hseat Hask.
  split; rewrite ?Hseat, ?Hin, ?(heard_more s s' d new Hheard Hin); try done.
  - intros R' token p Ha. by eapply Hown, Hask.
  - rewrite length_app. lia.
  - intros R' p H0 Hjn%seat_joined. rewrite Hseat in Hjn. apply (Hfirst R' p H0). by apply seat_joined.
  - apply Forall_app_2; [done|]. eapply Forall_impl; [exact Hnew|]. by intros m [? _].
  - intros R' p ids [Hin'|Hin']%elem_of_app.
    + apply seat_joined. rewrite Hseat. apply seat_joined. by eapply Hj.
    + rewrite Forall_forall in Hnew. destruct (Hnew _ Hin') as [_ Hno]. by destruct (Hno R' p ids).
Qed.

(** How the messages to [x] may go on, about [y]. *)
Definition may_hear s' x y' m : Prop := about (Device.peerId y') m →
  m ≠ peer_left (Device.peerId y') ∧ seated s' y' ∧
  (knows (Device.peerId y') [m] → seated s' x) ∧
  (∀ payload, m = signal_from (Device.peerId y') payload →
     ∃ p, payload = Some p ∧ signals (heard_of s' y') (Device.peerId x) p).

Lemma signals_prefix heard more p payload : signals heard p payload → signals (heard ++ more) p payload.
Proof.
  intros Hs. induction more as [|m more IH] using rev_ind; [by rewrite app_nil_r|].
  rewrite app_assoc. by apply signals_more.
Qed.

Lemma knows_app p l l' : knows p (l ++ l') ↔ knows p l ∨ knows p l'.
Proof.
  unfold knows, lists. setoid_rewrite elem_of_app. split.
  - intros [[?|?]|(R' & me & ids & [?|?] & ?)]; [left; by left|right; by left|left|right]; right; by exists R', me, ids.
  - intros [[?|(R' & me & ids & ? & ?)]|[?|(R' & me & ids & ? & ?)]];
      [left; by left|right; exists R', me, ids; by split; [left|]|left; by right|right; exists R', me, ids; by split; [right|]].
Qed.

Lemma knows_in p l : knows p l → ∃ m, m ∈ l ∧ about p m ∧ knows p [m].
Proof.
  intros [Hj|(R' & me & ids & Hin & Hp)].
  - exists (peer_joined p). split_and!; [done|constructor|left; by constructor].
  - eexists. split_and!; [exact Hin|by constructor|]. right. exists R', me, ids. by split; [constructor|].
Qed.

Lemma pair_moves s s' x x' y y' new : same_id x x' → same_id y y' →
  (seated s x → seated s' x) → (seated s y → seated s' y) →
  inbox s' (Device.socket x) = inbox s (Device.socket x) ++ new → Forall (may_hear s' x y') new →
  (∃ more, heard_of s' y' = heard_of s y ++ more) →
  (∀ k payload, (k < Device.said y')%nat →
     texts (Device.bridge y') !! k = Some (signal_text (Device.peerId x) payload) → safe payload →
     ((k < Device.said y)%nat ∧ texts (Device.bridge y) !! k = Some (signal_text (Device.peerId x) payload)) ∨
     signal_from (Device.peerId y) (Some payload) ∈ new) →
  pair_ok s x y → pair_ok s' x' y'.
Proof.
  intros (Ex & _ & Sx) (Ey & _ & Sy) Jx Jy Hin Hnew [more Hheard] Hsent [Hgone Hun Hhere Hsig Hs].
  unfold may_hear, seated in *. rewrite Forall_forall in Hnew.
  split; unfold seated; rewrite ?Ex, ?Sx, ?Ey, ?Sy, ?Hin in *.
  - intros [?|Hl]%elem_of_app; [done|]. by destruct (Hnew _ Hl (about_left _)).
  - intros m [Hm|Hm]%elem_of_app Hab; [by eapply Jy, Hun|]. by apply (Hnew m Hm).
  - intros [Hk|Hk]%knows_app; [by apply Jx, Hhere|]. destruct (knows_in _ _ Hk) as (m & Hm & Hab & Hkn).
    by apply (Hnew m Hm).
  - intros payload [Hm|Hm]%elem_of_app.
    + destruct (Hsig payload Hm) as (p & -> & Hp). exists p. split; [done|]. rewrite Hheard. by apply signals_prefix.
    + by apply (Hnew _ Hm (about_signal _ _)).
  - intros k payload Hk Ht Hsafe. apply elem_of_app.
    destruct (Hsent k payload Hk Ht Hsafe) as [[Hk' Ht']|Hm]; [left; by eapply Hs|by right].
Qed.

Lemma first_moves s s' x x' y y' nx ny : same_id x x' → same_id y y' →
  inbox s' (Device.socket x) = inbox s (Device.socket x) ++ nx →
  inbox s' (Device.socket y) = inbox s (Device.socket y) ++ ny →
  Forall (λ m, Device.peerId y ∉ listed_by m) nx → Forall (λ m, m ≠ peer_joined (Device.peerId x)) ny →
  first_in s x y → first_in s' x' y'.
Proof.
  intros (Ex & _ & Sx) (Ey & _ & Sy) Hx Hy Hnx Hny [Ht Hu Hl Hn Ho].
  rewrite Forall_forall in Hnx. rewrite Forall_forall in Hny.
  split; rewrite ?Ex, ?Sx, ?Ey, ?Sy, ?Hx, ?Hy.
  - set_solver.
  - intros (R' & me & ids & [Hin|Hin]%elem_of_app & Hp); [apply Hu; by exists R', me, ids|]. by apply (Hnx _ Hin).
  - destruct Hl as (R' & me & ids & Hin & Hp). exists R', me, ids. set_solver.
  - intros [?|Hin]%elem_of_app; [done|]. by apply (Hny _ Hin).
  - intros before payload after Heq. apply app_eq_inv in Heq as [(k & Hk & Hrest)|(k & -> & Hrest)].
    + destruct k as [|m k]; simpl in Hrest; [rewrite app_nil_r in Hk; by rewrite <-Hk|].
      injection Hrest as <- _. by eapply Ho.
    + apply elem_of_app. by left.
Qed.

Lemma order_same s x x' y y' : same_id x x' → same_id y y' → in_order s x y → in_order s x' y'.
Proof.
  intros Hx Hy Hord. unfold in_order, seated in *. pose proof Hx as (Ex & _ & Sx). pose proof Hy as (Ey & _ & Sy).
  rewrite Ex, Sx, Ey, Sy. intros Jx Jy.
  destruct (Hord Jx Jy) as [Hf|Hf]; [left|right];
    (eapply first_moves; [done|done|by rewrite app_nil_r|by rewrite app_nil_r|constructor|constructor|exact Hf]).
Qed.

(** ** The invariant *)

Section steps.
Context (now : nat → Z) (randomUUID : nat → RoomId) (randomToken : nat → string).
Context (randomInt : nat → nat) (fuel : nat).
Context (url_host : string → option string) (opens : string → bool) (has_window : bool).
Abbreviation serve := (serve now randomUUID randomToken randomInt fuel).
Abbreviation serves := (serves now randomUUID randomToken randomInt fuel).
Abbreviation step := (step now randomUUID randomToken randomInt fuel url_host opens has_window).
Abbreviation on_event := (Bridge.on_event url_host opens has_window).

Record sound w : Prop := Sound {
  sn_serves : serves (World.past w) (World.server w);
  sn_honest : honest (World.past w);
  sn_exact : exact_rooms (World.server w);
  sn_ids : NoDup (Device.peerId <$> World.devices w);
  sn_sockets : NoDup (Device.socket <$> World.devices w);
  sn_own : own_ids (World.past w) (World.devices w);
  sn_device i d : World.devices w !! i = Some d → device_ok (World.past w) (World.server w) d;
  sn_pair i j x y : World.devices w !! i = Some x → World.devices w !! j = Some y → i ≠ j →
    pair_ok (World.server w) x y;
  sn_order i j x y : World.devices w !! i = Some x → World.devices w !! j = Some y → i ≠ j →
    in_order (World.server w) x y;
}.

Lemma sound_keys w : sound w → server_keys (World.server w).
Proof. intros Hw. eapply keys_of, serves_ok, sn_serves, Hw. Qed.

Lemma ids_differ devices i j x y : NoDup (Device.peerId <$> devices) → NoDup (Device.socket <$> devices) →
  devices !! i = Some x → devices !! j = Some y → i ≠ j →
  Device.peerId x ≠ Device.peerId y ∧ Device.socket x ≠ Device.socket y.
Proof.
  intros Hid Hso Hx Hy Hne. split; intros Heq; apply Hne.
  - eapply (NoDup_lookup _ _ _ _ Hid); rewrite list_lookup_fmap; [by rewrite Hx|rewrite Hy; simpl; by rewrite Heq].
  - eapply (NoDup_lookup _ _ _ _ Hso); rewrite list_lookup_fmap; [by rewrite Hx|rewrite Hy; simpl; by rewrite Heq].
Qed.

Lemma update_lookup devices i d d' j (x' : Device.t) : devices !! i = Some d → <[i:=d']> devices !! j = Some x' →
  (j = i ∧ x' = d') ∨ (j ≠ i ∧ devices !! j = Some x').
Proof.
  intros Hi [(-> & -> & _)|[Hne Hj]]%list_lookup_insert_Some; [by left|right; by split].
Qed.

Lemma update_ids devices i d d' : devices !! i = Some d → same_id d d' →
  Device.peerId <$> <[i:=d']> devices = Device.peerId <$> devices ∧
  Device.socket <$> <[i:=d']> devices = Device.socket <$> devices.
Proof.
  intros Hi (Ep & _ & Es). split; rewrite list_fmap_insert; apply list_insert_id; rewrite list_lookup_fmap, Hi; simpl;
    by f_equal.
Qed.

Lemma update_own past devices i d d' : devices !! i = Some d → same_id d d' → own_ids past devices →
  own_ids past (<[i:=d']> devices).
Proof.
  intros Hi (Ep & _ & Es) Hown x t R' token Hx Ha. apply list_elem_of_lookup in Hx as [j Hj].
  destruct (update_lookup _ _ _ _ _ _ Hi Hj) as [[-> ->]|[_ Hj']].
  - rewrite Es. eapply Hown; [by eapply list_elem_of_lookup_2|]. by rewrite <-Ep.
  - eapply Hown; [by eapply list_elem_of_lookup_2|done].
Qed.

(** Devices in which one is another one with the same name, and an invariant of
    each and of each two. *)
Lemma update_each devices i d d' (P' : Device.t → Prop) : devices !! i = Some d →
  (∀ j x, j ≠ i → devices !! j = Some x → P' x) → P' d' →
  ∀ j x, <[i:=d']> devices !! j = Some x → P' x.
Proof. intros Hi Hold Hnew j x Hj. destruct (update_lookup _ _ _ _ _ _ Hi Hj) as [[-> ->]|[? ?]]; [done|by eapply Hold]. Qed.

Lemma update_pairs devices i d d' (P : Device.t → Device.t → Prop) : devices !! i = Some d →
  (∀ j k x y, devices !! j = Some x → devices !! k = Some y → j ≠ k → j ≠ i → k ≠ i → P x y) →
  (∀ k y, devices !! k = Some y → k ≠ i → P d' y) → (∀ j x, devices !! j = Some x → j ≠ i → P x d') →
  ∀ j k x y, <[i:=d']> devices !! j = Some x → <[i:=d']> devices !! k = Some y → j ≠ k → P x y.
Proof.
  intros Hi Hnone Hleft Hright j k x y Hj Hk Hne.
  destruct (update_lookup _ _ _ _ _ _ Hi Hj) as [[-> ->]|[Hji Hj']], (update_lookup _ _ _ _ _ _ Hi Hk) as [[-> ->]|[Hki Hk']].
  - done.
  - by eapply Hleft.
  - by eapply Hright.
  - by eapply Hnone.
Qed.

(** A step of strangers. *)
Lemma sound_other w event : sound w → of_strangers (World.devices w) event →
  possible (World.past w) (World.server w) event → honest (World.past w ++ [event]) →
  fresh_uuid randomUUID (World.past w) (World.server w) →
  sound (World.mk (World.past w ++ [event]) (serve event (World.server w)) (World.devices w)).
Proof.
  intros Hw Hstr Hpos Hh Hf. destruct Hw as [Hs Hho He Hid Hso Hown Hd Hp Ho].
  assert (∀ i d, World.devices w !! i = Some d →
    seat (serve event (World.server w)) (Device.socket d) = seat (World.server w) (Device.socket d)) as Hseat.
  { intros i d Hi. apply (stranger_seat now randomUUID randomToken randomInt fuel (World.devices w)); [done|].
    apply list_elem_of_fmap_2. by eapply list_elem_of_lookup_2. }
  assert (∀ i d, World.devices w !! i = Some d → ∃ new,
    inbox (serve event (World.server w)) (Device.socket d) = inbox (World.server w) (Device.socket d) ++ new ∧
    Forall (λ m, other_news (World.devices w) m ∧ plain m) new) as Hnews.
  { intros i d Hi. eapply stranger_news; [done|exact Hs|done|done|]. by eapply list_elem_of_lookup_2. }
  assert (∀ i d, World.devices w !! i = Some d → seated (serve event (World.server w)) d ↔ seated (World.server w) d)
    as Hj.
  { intros i d Hi. unfold seated. by rewrite !seat_joined, (Hseat i d Hi). }
  assert (∀ i d, World.devices w !! i = Some d → Device.peerId d ∈ Device.peerId <$> World.devices w) as Hin.
  { intros i d Hi. apply list_elem_of_fmap_2. by eapply list_elem_of_lookup_2. }
  split; cbn [World.past World.server World.devices]; try done.
  - by constructor.
  - apply (exact_step now randomUUID randomToken randomInt fuel (World.past w)); try done. by destruct event.
  - by apply stranger_own.
  - intros i d Hi. destruct (Hnews i d Hi) as (new & Hnew & Hall).
    eapply device_keeps; [by eapply Hd|exact Hnew| |by eapply Hseat|].
    + eapply Forall_impl; [exact Hall|]. by intros m [[? _] ?].
    + intros R' token p [?|(raw & -> & _)]%asked_last; [done|]. destruct Hstr as [Hno _]. destruct Hno.
      apply list_elem_of_fmap_2. by eapply list_elem_of_lookup_2.
  - intros i j x y Hi Hij Hne. destruct (Hnews i x Hi) as (new & Hnew & Hall), (Hnews j y Hij) as (new' & Hnew' & _).
    eapply pair_moves; [by split|by split|by apply (Hj i)|by apply (Hj j)|exact Hnew| | | |by eapply (Hp i j)].
    + eapply Forall_impl; [exact Hall|]. intros m [[_ Hno] _] Hab. destruct (Hno (Device.peerId y)); [by eapply Hin|done].
    + exists []. rewrite app_nil_r. eapply heard_more; [by eapply dv_heard, Hd|exact Hnew'].
    + intros k payload ? ? _. by left.
  - intros i j x y Hi Hij Hne Hjx Hjy. destruct (Hnews i x Hi) as (new & Hnew & Hall), (Hnews j y Hij) as (new' & Hnew' & Hall').
    rewrite (Hj i x Hi) in Hjx. rewrite (Hj j y Hij) in Hjy.
    assert (∀ k d l, World.devices w !! k = Some d → Forall (λ m, other_news (World.devices w) m ∧ plain m) l →
      Forall (λ m, Device.peerId d ∉ listed_by m) l ∧ Forall (λ m, m ≠ peer_joined (Device.peerId d)) l) as Hquiet.
    { intros k d l Hk Hl. split; (eapply Forall_impl; [exact Hl|]); intros m [[Hno Hab] _].
      - destruct m; simpl; try apply not_elem_of_nil. by destruct (Hno roomId peerId existingPeerIds).
      - intros ->. apply (Hab (Device.peerId d)); [by eapply Hin|constructor]. }
    destruct (Ho i j x y Hi Hij Hne Hjx Hjy) as [Hfirst|Hfirst]; [left|right].
    + eapply first_moves; [by split|by split|exact Hnew|exact Hnew'| | |done]; by eapply Hquiet.
    + eapply first_moves; [by split|by split|exact Hnew'|exact Hnew| | |done]; by eapply Hquiet.
Qed.

(** A step of one device by which the server sends nothing. *)
Lemma sound_local w i d d' past' s' : sound w → World.devices w !! i = Some d → same_id d d' →
  serves past' s' → honest past' → exact_rooms s' →
  (∀ t R' token p, asked past' t R' token p → asked (World.past w) t R' token p) →
  RoomRegistry.sent (Server.registry s') = RoomRegistry.sent (Server.registry (World.server w)) →
  (∀ t, t ≠ Device.socket d → seat s' t = seat (World.server w) t) →
  (seated s' d ↔ seated (World.server w) d) → device_ok past' s' d' →
  (∃ more, heard_of s' d' = heard_of (World.server w) d ++ more) → Device.said d' = Device.said d →
  (∀ k, (k < Device.said d)%nat → texts (Device.bridge d') !! k = texts (Device.bridge d) !! k) →
  sound (World.mk past' s' (<[i:=d']> (World.devices w))).
Proof.
  intros [Hs Hho He Hid Hso Hown Hd Hp Ho] Hi Hsame Hs' Hho' He' Hask Hsent Hseat Hj Hd' Hheard Hsaid Htexts.
  destruct (update_ids (World.devices w) i d d' Hi Hsame) as [Eid Eso].
  assert (∀ t, inbox s' t = inbox (World.server w) t ++ []) as Hin.
  { intros t. rewrite app_nil_r. unfold inbox. by rewrite Hsent. }
  assert (∀ j x, j ≠ i → World.devices w !! j = Some x →
    seat s' (Device.socket x) = seat (World.server w) (Device.socket x)) as Hseats.
  { intros j x Hne Hx. apply Hseat. by destruct (ids_differ (World.devices w) j i x d Hid Hso Hx Hi Hne). }
  assert (∀ j x, j ≠ i → World.devices w !! j = Some x → seated s' x ↔ seated (World.server w) x) as Hjs.
  { intros j x Hne Hx. unfold seated. by rewrite !seat_joined, (Hseats j x). }
  assert (seated s' d' ↔ seated (World.server w) d) as Hj'.
  { destruct Hsame as (Ep & _ & Es). unfold seated in *. by rewrite Ep, Es. }
  assert (∀ j x, j ≠ i → World.devices w !! j = Some x → ∃ more, heard_of s' x = heard_of (World.server w) x ++ more)
    as Hheards.
  { intros j x _ Hx. exists []. rewrite app_nil_r. eapply heard_more; [by eapply dv_heard, Hd|apply Hin]. }
  split; cbn [World.past World.server World.devices]; rewrite ?Eid, ?Eso; try done.
  - apply (update_own _ _ _ d); [done..|]. intros x t R' token Hx Ha. by eapply Hown, Hask.
  - apply (update_each _ _ d); [done| |done]. intros j x Hne Hx.
    eapply device_keeps; [by eapply Hd|apply Hin|constructor|by eapply Hseats|]. intros R' token p. apply Hask.
  - apply (update_pairs _ _ d); [done| | |].
    + intros j k x y Hx Hy Hne Hji Hki.
      eapply pair_moves; [by split|by split|by apply (Hjs j)|by apply (Hjs k)|apply Hin|constructor|by apply (Hheards k)| |
        by apply (Hp j k)]. intros; by left.
    + intros k y Hy Hki.
      eapply pair_moves; [exact Hsame|by split|by apply Hj|by apply (Hjs k)|apply Hin|constructor|by apply (Hheards k)| |
        by apply (Hp i k)]. intros; by left.
    + intros j x Hx Hji.
      eapply pair_moves; [by split|exact Hsame|by apply (Hjs j)|by apply Hj|apply Hin|constructor|done| |
        by apply (Hp j i)]. intros k payload Hk Ht _. left. rewrite Hsaid in Hk. by rewrite <-Htexts.
  - assert (∀ x x' y y', same_id x x' → same_id y y' → (seated s' x' ↔ seated (World.server w) x) →
      (seated s' y' ↔ seated (World.server w) y) → in_order (World.server w) x y → in_order s' x' y') as Hgo.
    { intros x x' y y' Hxx Hyy Hjx Hjy Hord Jx%Hjx Jy%Hjy.
      destruct (Hord Jx Jy) as [Hf|Hf]; [left|right];
        (eapply first_moves; [| |apply Hin|apply Hin|constructor|constructor|exact Hf]; done). }
    apply (update_pairs _ _ d); [done| | |].
    + intros j k x y Hx Hy Hne Hji Hki. apply (Hgo x x y y); [by split..|by apply (Hjs j)|by apply (Hjs k)|by eapply Ho].
    + intros k y Hy Hki. apply (Hgo d d' y y); [done|by split|done|by apply (Hjs k)|by eapply (Ho i k)].
    + intros j x Hx Hji. apply (Hgo x x d d'); [by split|done|by apply (Hjs j)|done|by eapply (Ho j i)].
Qed.

Lemma sound_opens w i d : sound w → World.devices w !! i = Some d → Bridge.socketOpen (Device.bridge d) = false →
  possible (World.past w) (World.server w) (Signaling.Connects (Device.socket d)) →
  sound (World.mk (World.past w ++ [Signaling.Connects (Device.socket d)])
           (serve (Signaling.Connects (Device.socket d)) (World.server w))
           (<[i := Device.set_bridge (on_event (Device.peerId d) (SocketOpens 0 (Device.room d)) (Device.bridge d)) d]>
              (World.devices w))).
Proof.
  intros Hw Hi Hopen Hpos. pose proof (sn_device w Hw i d Hi) as [Hroom Hst Hown Hsaid Hheard Hfirst Hplain Hj].
  destruct Hst as [[Htalk _]|[Hstart Hseat]]; [by rewrite (tk_open _ _ _ _ _ Htalk) in Hopen|].
  destruct (opens_seat now randomUUID randomToken randomInt fuel (Device.socket d) (World.server w)) as (Hsent & Hs1 & Hs2).
  assert (∀ t R' token p, asked (World.past w ++ [Signaling.Connects (Device.socket d)]) t R' token p →
    asked (World.past w) t R' token p) as Hask.
  { intros t R' token p [?|(raw & [=] & _)]%asked_last. done. }
  assert (∀ R' p, ¬ has_joined (serve (Signaling.Connects (Device.socket d)) (World.server w)) R' p (Device.socket d)) as Hnone.
  { intros R' p. rewrite seat_joined, Hs1. done. }
  assert (honest (World.past w ++ [Signaling.Connects (Device.socket d)])) as Hho.
  { destruct (sn_honest w Hw) as [H1 H2]. split; [intros *|intros *]; intros ?%Hask ?%Hask; [by eapply H1|by eapply H2]. }
  apply (sound_local w i d); try done.
  - constructor; [by apply sn_serves|done].
  - apply (exact_step now randomUUID randomToken randomInt fuel (World.past w)); try done; [by apply sn_serves|by apply sn_exact].
  - split; [intros Hs; by destruct (Hnone R (Device.peerId d))|].
    intros Hs%seat_joined. by rewrite Hseat in Hs.
  - pose proof (as_said _ Hstart) as E0. pose proof (as_heard _ Hstart) as E1.
    assert (∀ t, inbox (serve (Signaling.Connects (Device.socket d)) (World.server w)) t = inbox (World.server w) t) as Hin.
    { intros t. unfold inbox. by rewrite Hsent. }
    split; cbn [Device.set_bridge Device.room Device.peerId Device.socket Device.said Device.heard Device.bridge];
      rewrite ?Hin; try done.
    + left. split; [|by rewrite Hs1]. unfold heard_of. cbn [Device.set_bridge Device.heard Device.socket]. rewrite E1.
      by apply talks_opens.
    + intros R' token p Ha. by eapply Hown, Hask.
    + rewrite E0. lia.
    + intros R' p ids Hm%Hj. apply seat_joined in Hm. by rewrite Hseat in Hm.
  - exists []. rewrite app_nil_r. unfold heard_of. cbn [Device.set_bridge Device.heard Device.socket].
    unfold inbox. by rewrite Hsent.
  - intros k. rewrite (as_said _ Hstart). lia.
Qed.

(** A step of one device by which the server does nothing. *)
Lemma sound_alone w i d d' : sound w → World.devices w !! i = Some d → same_id d d' →
  device_ok (World.past w) (World.server w) d' →
  (∃ more, heard_of (World.server w) d' = heard_of (World.server w) d ++ more) → Device.said d' = Device.said d →
  (∀ k, (k < Device.said d)%nat → texts (Device.bridge d') !! k = texts (Device.bridge d) !! k) →
  sound (World.mk (World.past w) (World.server w) (<[i:=d']> (World.devices w))).
Proof.
  intros Hw Hi Hsame Hd' Hheard Hsaid Htexts. pose proof Hw as [Hs Hho He _ _ _ _ _ _].
  by apply (sound_local w i d).
Qed.

Lemma open_talks w i d : sound w → World.devices w !! i = Some d → Bridge.socketOpen (Device.bridge d) = true →
  talks (Device.room d) (Device.peerId d) (heard_of (World.server w) d) [] (Device.bridge d) ∧
  is_Some (seat (World.server w) (Device.socket d)).
Proof.
  intros Hw Hi Hopen. destruct (dv_state _ _ _ (sn_device w Hw i d Hi)) as [?|[Hstart _]]; [done|].
  by rewrite (as_open _ Hstart) in Hopen.
Qed.

Lemma sound_hears w i d message : sound w → World.devices w !! i = Some d →
  Bridge.socketOpen (Device.bridge d) = true →
  inbox (World.server w) (Device.socket d) !! Device.heard d = Some message →
  sound (World.mk (World.past w) (World.server w)
           (<[i := Device.hears
                (match read_signal (JSON_stringify (server_json message)) with
                 | Some message => on_event (Device.peerId d) (SocketHears message) (Device.bridge d)
                 | None => Device.bridge d
                 end) d]> (World.devices w))).
Proof.
  intros Hw Hi Hopen Hm. destruct (open_talks w i d Hw Hi Hopen) as [Htalk Hseat].
  pose proof (sn_device w Hw i d Hi) as [Hroom Hst Hown Hsaid Hheard Hfirst Hplain Hj].
  rewrite read_server_words by by eapply Forall_lookup_1. simpl.
  pose proof (hears_texts _ _ _ message _ Htalk) as Htexts.
  apply (sound_alone w i d); try done.
  - split; cbn [Device.hears Device.room Device.peerId Device.socket Device.said Device.heard Device.bridge]; try done.
    + left. split; [|done]. unfold heard_of. cbn [Device.hears Device.heard Device.socket].
      rewrite (take_S_r _ _ _ Hm). by apply talks_hears.
    + by rewrite Htexts.
    + by apply lookup_lt_Some in Hm.
  - exists [message]. unfold heard_of. cbn [Device.hears Device.heard Device.socket]. by apply take_S_r.
  - intros k _. by rewrite <-Htexts.
Qed.

Lemma sound_does w i d event : sound w → World.devices w !! i = Some d →
  Bridge.socketOpen (Device.bridge d) = true → goes_well event → can_happen (Device.bridge d) event →
  sound (World.mk (World.past w) (World.server w)
           (<[i := Device.set_bridge (on_event (Device.peerId d) event (Device.bridge d)) d]> (World.devices w))).
Proof.
  intros Hw Hi Hopen Hwell Hcan. destruct (open_talks w i d Hw Hi Hopen) as [Htalk Hseat].
  pose proof (sn_device w Hw i d Hi) as [Hroom Hst Hown Hsaid Hheard Hfirst Hplain Hj].
  destruct (does_texts url_host opens has_window _ _ _ event _ Htalk Hwell Hcan) as [new Htexts].
  apply (sound_alone w i d); try done.
  - split; cbn [Device.set_bridge Device.room Device.peerId Device.socket Device.said Device.heard Device.bridge]; try done.
    + left. split; [|done]. by apply talks_does.
    + rewrite Htexts, length_app. lia.
  - exists []. by rewrite app_nil_r.
  - intros k Hk. cbn [Device.set_bridge Device.bridge]. rewrite Htexts. apply lookup_app_l. lia.
Qed.

(** ** What the server hears of a device *)

Lemma device_says past s d text : device_ok past s d → texts (Device.bridge d) !! Device.said d = Some text →
  device_ok past s (Device.says d).
Proof.
  intros [Hroom Hst Hown Hsaid Hheard Hfirst Hplain Hj] Ht%lookup_lt_Some.
  split; try done. destruct Hst as [Hst|[Hst _]]; [by left|]. rewrite (as_texts _ Hst) in Ht. simpl in Ht. lia.
Qed.

(** The texts of a device: a join, then signals. *)
Lemma said_text w i d text : sound w → World.devices w !! i = Some d →
  texts (Device.bridge d) !! Device.said d = Some text →
  is_Some (seat (World.server w) (Device.socket d)) ∧
  ((Device.said d = 0%nat ∧ text = join_text (Device.room d) (Device.peerId d)) ∨
   (∃ p payload, text = signal_text p payload ∧ signals (heard_of (World.server w) d) p payload)).
Proof.
  intros Hw Hi Ht. destruct (dv_state _ _ _ (sn_device w Hw i d Hi)) as [[Htalk Hseat]|[Hstart _]].
  - split; [done|]. destruct (tk_texts _ _ _ _ _ Htalk) as (said & Hsaid & Hall). rewrite Hsaid in Ht.
    destruct (Device.said d) as [|n]; simpl in Ht; [left; by simplify_eq|right].
    by destruct (Forall_lookup_1 _ _ _ _ Hall Ht) as (p & payload & Htext & Hsig); exists p, payload.
  - by rewrite (as_texts _ Hstart) in Ht.
Qed.

Lemma honest_says past s d raw : device_ok past s d → honest past →
  (∀ t R' token, asked past t R' token (Device.peerId d) → t = Device.socket d) →
  (∀ R' token p, parseClientMessage raw = Some (join_room R' token p) → R' = R ∧ p = Device.peerId d) →
  honest (past ++ [Says (Device.socket d) raw]) ∧
  (∀ R' token p, asked (past ++ [Says (Device.socket d) raw]) (Device.socket d) R' token p →
     R' = R ∧ p = Device.peerId d) ∧
  (∀ t R' token p, t ≠ Device.socket d → asked (past ++ [Says (Device.socket d) raw]) t R' token p →
     asked past t R' token p).
Proof.
  intros Hd [H1 H2] Hown Hraw.
  assert (∀ t R' token p, asked (past ++ [Says (Device.socket d) raw]) t R' token p →
    asked past t R' token p ∨ t = Device.socket d ∧ R' = R ∧ p = Device.peerId d) as Hask.
  { intros t R' token p [?|(raw' & [= <- <-] & Hp)]%asked_last; [by left|right]. by destruct (Hraw _ _ _ Hp). }
  assert (∀ R' token p, asked (past ++ [Says (Device.socket d) raw]) (Device.socket d) R' token p →
    R' = R ∧ p = Device.peerId d) as Hself.
  { intros R' token p [Ha|(_ & -> & ->)]%Hask; [by eapply (dv_own _ _ _ Hd)|done]. }
  split_and!; [split| |]; [| |exact Hself|].
  - intros t R1 t1 p1 R2 t2 p2 Ha Hb. destruct (decide (t = Device.socket d)) as [->|Hne].
    + destruct (Hself _ _ _ Ha) as [-> ->], (Hself _ _ _ Hb) as [-> ->]. done.
    + apply Hask in Ha as [Ha|[? _]]; [|done]. apply Hask in Hb as [Hb|[? _]]; [|done]. by eapply H1.
  - intros t t' R1 t1 t2 p Ha Hb. apply Hask in Ha as [Ha|(Et & _ & Ep)]; apply Hask in Hb as [Hb|(Et' & _ & Ep')]; subst.
    + by eapply H2.
    + by eapply Hown.
    + symmetry. by eapply Hown.
    + done.
  - intros t R' token p Hne [?|[? _]]%Hask; done.
Qed.

(** What a text of a device changes: the socket that a device has may be seated
    by it, and every device gets messages that it may hear. *)
Lemma sound_says w i d text s' (news : Device.t → list ServerSignalMessage) : sound w → World.devices w !! i = Some d →
  texts (Device.bridge d) !! Device.said d = Some text →
  (∀ R' token p, parseClientMessage text = Some (join_room R' token p) → R' = R ∧ p = Device.peerId d) →
  s' = serve (Says (Device.socket d) text) (World.server w) →
  (∀ j x, World.devices w !! j = Some x →
     inbox s' (Device.socket x) = inbox (World.server w) (Device.socket x) ++ news x ∧ Forall plain (news x) ∧
     (∀ R' p ids, joined_message R' p ids ∈ news x → seated s' x)) →
  (∀ t, is_Some (seat (World.server w) t) → is_Some (seat s' t)) →
  (∀ t, t ≠ Device.socket d → seat s' t = seat (World.server w) t) →
  (seated (World.server w) d → seated s' d) →
  (∀ j k x y, World.devices w !! j = Some x → World.devices w !! k = Some y → j ≠ k →
     Forall (may_hear s' x y) (news x)) →
  (∀ j x payload, World.devices w !! j = Some x → j ≠ i → text = signal_text (Device.peerId x) payload →
     safe payload → signal_from (Device.peerId d) (Some payload) ∈ news x) →
  (∀ j k x y, World.devices w !! j = Some x → World.devices w !! k = Some y → j ≠ k → in_order s' x y) →
  sound (World.mk (World.past w ++ [Says (Device.socket d) text]) s' (<[i := Device.says d]> (World.devices w))).
Proof.
  intros Hw Hi Ht Hjoin -> Hnews Hsome Hseat Hkeep Hmay Hsent Horder.
  pose proof Hw as [Hs Hho He Hid Hso Hown Hd Hp Ho].
  destruct (said_text w i d text Hw Hi Ht) as [Hds _].
  assert (same_id d (Device.says d)) as Hsame by by split.
  destruct (update_ids (World.devices w) i d (Device.says d) Hi Hsame) as [Eid Eso].
  destruct (honest_says (World.past w) (World.server w) d text (Hd i d Hi) Hho) as (Hho' & Hself & Hothers); [|exact Hjoin|].
  { intros t R' token Ha. eapply Hown; [by eapply list_elem_of_lookup_2|exact Ha]. }
  assert (possible (World.past w) (World.server w) (Says (Device.socket d) text)) as Hpos.
  { simpl. unfold seat in Hds. by apply fmap_is_Some in Hds. }
  assert (∀ j x, j ≠ i → World.devices w !! j = Some x → Device.socket x ≠ Device.socket d) as Hne.
  { intros j x Hji Hx. by destruct (ids_differ (World.devices w) j i x d Hid Hso Hx Hi Hji). }
  set (s' := serve _ _) in *.
  assert (∀ j x, World.devices w !! j = Some x → seated (World.server w) x → seated s' x) as Hkeeps.
  { intros j x Hx Hjx. destruct (decide (j = i)) as [->|Hji]; [simplify_eq; by apply Hkeep|].
    apply seat_joined. rewrite Hseat by by eapply Hne. by apply seat_joined. }
  assert (∀ j x, World.devices w !! j = Some x → heard_of s' x = heard_of (World.server w) x) as Hheard.
  { intros j x Hx. eapply heard_more; [by eapply dv_heard, Hd|by eapply Hnews]. }
  split; cbn [World.past World.server World.devices]; rewrite ?Eid, ?Eso; try done.
  - by constructor.
  - by apply (exact_step now randomUUID randomToken randomInt fuel (World.past w)).
  - apply (update_own _ _ _ d); [done..|]. intros x t R' token Hx [Ha|(raw & [= <- <-] & Hraw)]%asked_last.
    + by eapply Hown.
    + apply list_elem_of_lookup in Hx as [j Hx]. destruct (Hjoin _ _ _ Hraw) as [_ Hpx].
      destruct (decide (j = i)) as [->|Hji]; [by simplify_eq|].
      by destruct (ids_differ (World.devices w) j i x d Hid Hso Hx Hi Hji).
  - apply (update_each _ _ d); [done| |].
    + intros j x Hji Hx. destruct (Hnews j x Hx) as (Hin & Hpl & Hjn).
      pose proof (Hd j x Hx) as [Hroom Hst Hxown Hsaid Hhe Hfirst Hplain Hj].
      split; rewrite ?(Hheard j x Hx), ?(Hseat _ (Hne j x Hji Hx)), ?Hin; try done.
      * intros R' token p Ha. eapply Hxown, Hothers; [by eapply Hne|exact Ha].
      * rewrite length_app. lia.
      * intros R' p H0 Hjn'%seat_joined. rewrite Hseat in Hjn' by by eapply Hne.
        apply (Hfirst R' p H0). by apply seat_joined.
      * by apply Forall_app_2.
      * intros R' p ids [Hm|Hm]%elem_of_app; [by eapply Hkeeps, Hj|by eapply Hjn].
    + destruct (Hnews i d Hi) as (Hin & Hpl & Hjn).
      pose proof (device_says _ _ _ _ (Hd i d Hi) Ht) as [Hroom Hst Hxown Hsaid Hhe Hfirst Hplain Hj].
      change (Device.socket (Device.says d)) with (Device.socket d) in *.
      split; try done; change (Device.socket (Device.says d)) with (Device.socket d); rewrite ?Hin; try done.
      * destruct Hst as [[Htalk Hse]|[Hstart Hnone]]; [left|by rewrite Hnone in Hds; destruct Hds].
        split; [|by apply Hsome]. change (heard_of s' (Device.says d)) with (heard_of s' d). by rewrite (Hheard i d Hi).
      * rewrite length_app. lia.
      * by apply Forall_app_2.
      * intros R' p ids [Hm|Hm]%elem_of_app; [by eapply Hkeep, Hj|by eapply Hjn].
  - apply (update_pairs _ _ d); [done| | |].
    + intros j k x y Hx Hy Hjk Hji Hki.
      eapply pair_moves; [by split|by split|by eapply Hkeeps|by eapply Hkeeps|by eapply Hnews|by eapply Hmay| | |by eapply Hp].
      * exists []. rewrite app_nil_r. by eapply Hheard.
      * intros; by left.
    + intros k y Hy Hki.
      eapply (pair_moves _ _ d (Device.says d) y y); [done|by split|by eapply Hkeeps|by eapply Hkeeps|by eapply Hnews|
        by eapply (Hmay i k)| | |by eapply (Hp i k)].
      * exists []. rewrite app_nil_r. by eapply Hheard.
      * intros; by left.
    + intros j x Hx Hji.
      eapply (pair_moves _ _ x x d (Device.says d)); [by split|done|by eapply Hkeeps|by eapply Hkeeps|by eapply Hnews|
        exact (Hmay j i x d Hx Hi Hji)| | |by eapply (Hp j i)].
      * exists []. rewrite app_nil_r. exact (Hheard i d Hi).
      * intros k payload Hk Hkt Hsafe. cbn [Device.says Device.said Device.bridge] in *.
        destruct (decide (k = Device.said d)) as [->|]; [right|left; by split; [lia|]].
        rewrite Ht in Hkt. injection Hkt as ->. by eapply Hsent.
  - apply (update_pairs _ _ d); [done| | |].
    + intros j k x y Hx Hy Hjk _ _. by eapply Horder.
    + intros k y Hy Hki. eapply order_same, (Horder i k d y Hi Hy (not_eq_sym Hki)); by split.
    + intros j x Hx Hji. eapply order_same, (Horder j i x d Hx Hi Hji); by split.
Qed.

(** A text after which everyone sits where they sat: a join that is refused, or
    a signal. *)
Lemma sound_signals w i d text s' : sound w → World.devices w !! i = Some d →
  texts (Device.bridge d) !! Device.said d = Some text →
  (∀ R' token p, parseClientMessage text = Some (join_room R' token p) → R' = R ∧ p = Device.peerId d) →
  s' = serve (Says (Device.socket d) text) (World.server w) →
  (∀ t, seat s' t = seat (World.server w) t) →
  (∀ u, ∃ new, inbox s' u = inbox (World.server w) u ++ new ∧
     Forall (λ m, (∃ text, m = signal_error text) ∨ ∃ q payload, m = signal_from (Device.peerId d) (Some payload) ∧
       signals (heard_of (World.server w) d) q payload ∧ seated (World.server w) d ∧
       has_joined (World.server w) R q u) new ∧
     ∀ q payload, text = signal_text q payload → safe payload → seated (World.server w) d →
       has_joined (World.server w) R q u → signal_from (Device.peerId d) (Some payload) ∈ new) →
  (∀ q payload, text = signal_text q payload → safe payload → signals (heard_of (World.server w) d) q payload) →
  sound (World.mk (World.past w ++ [Says (Device.socket d) text]) s' (<[i := Device.says d]> (World.devices w))).
Proof.
  intros Hw Hi Ht Hjoin Hs' Hseat Hnews Hsig. pose proof Hw as [Hs _ He Hid Hso Hown Hd Hp Ho].
  assert (∀ x, ∃ new, inbox s' (Device.socket x) = inbox (World.server w) (Device.socket x) ++ new) as Hsome.
  { intros x. destruct (Hnews (Device.socket x)) as (new & ? & _). by exists new. }
  set (news x := drop (length (inbox (World.server w) (Device.socket x))) (inbox s' (Device.socket x))).
  assert (∀ x, inbox s' (Device.socket x) = inbox (World.server w) (Device.socket x) ++ news x ∧
    Forall (λ m, (∃ text, m = signal_error text) ∨ ∃ q payload, m = signal_from (Device.peerId d) (Some payload) ∧
      signals (heard_of (World.server w) d) q payload ∧ seated (World.server w) d ∧
      has_joined (World.server w) R q (Device.socket x)) (news x) ∧
    ∀ q payload, text = signal_text q payload → safe payload → seated (World.server w) d →
      has_joined (World.server w) R q (Device.socket x) → signal_from (Device.peerId d) (Some payload) ∈ news x) as Hall.
  { intros x. destruct (Hnews (Device.socket x)) as (new & Hin & H1 & H2).
    assert (news x = new) as -> by (unfold news; by rewrite Hin, drop_app_length). done. }
  clear Hnews Hsome.
  assert (∀ x, seated s' x ↔ seated (World.server w) x) as Hj.
  { intros x. unfold seated. by rewrite !seat_joined, Hseat. }
  assert (∀ j x, World.devices w !! j = Some x → ∀ q, has_joined (World.server w) R q (Device.socket x) →
    q = Device.peerId x ∧ seated (World.server w) x) as Hname.
  { intros j x Hx q (c & Hc & Hcj).
    destruct (so_joined _ _ (serves_ok _ _ _ _ _ _ _ Hs) _ c R q Hc Hcj) as [token Ha].
    destruct (dv_own _ _ _ (Hd j x Hx) _ _ _ Ha) as [_ ->]. split; [done|]. by exists c. }
  eapply (sound_says w i d text s' news); try done.
  - intros j x Hx. destruct (Hall x) as (Hin & Hfor & _). rewrite Forall_forall in Hfor. split_and!; [done| |].
    + apply Forall_forall. intros m [(t & ->)|(q & payload & -> & Hsg & _)]%Hfor; [done|]. by eapply signals_safe.
    + intros R' p ids [(t & [=])|(q & payload & [=] & _)]%Hfor.
  - intros t. by rewrite Hseat.
  - by rewrite Hj.
  - intros j k x y Hx Hy Hjk. destruct (Hall x) as (Hin & Hfor & _). eapply Forall_impl; [exact Hfor|].
    intros m [(t & ->)|(q & payload & -> & Hsg & Hds & Hq)] Hab; [by inversion Hab|].
    assert (Device.peerId y = Device.peerId d) as Ey by by inversion Hab.
    assert (k = i) as ->.
    { destruct (decide (k = i)) as [|Hki]; [done|]. by destruct (ids_differ (World.devices w) k i y d Hid Hso Hy Hi Hki). }
    simplify_eq. destruct (Hname j x Hx q Hq) as [-> Hxs]. split_and!.
    + done.
    + by apply Hj.
    + intros _. by apply Hj.
    + intros payload' [= <-]. exists payload. split; [done|]. destruct (Hall d) as (Hind & _).
      by rewrite (heard_more _ _ d _ (dv_heard _ _ _ (Hd i d Hi)) Hind).
  - intros j x payload Hx Hji Htext Hsafe. destruct (Hall x) as (_ & _ & Hin). 
    destruct (Hp j i x d Hx Hi Hji) as [_ Hun _ _ _], (Hp i j d x Hi Hx (not_eq_sym Hji)) as [_ Hun' Hhere' _ _].
    pose proof (knows_inbox _ _ _ (signals_knows _ _ _ (Hsig _ _ Htext Hsafe))) as Hk.
    apply (Hin (Device.peerId x)); [done|done|by apply Hhere'|].
    destruct (knows_in _ _ Hk) as (m & Hm & Hab & _). by apply (Hun' m).
  - intros j k x y Hx Hy Hjk Jx%Hj Jy%Hj.
    destruct (Hall x) as (Hinx & Hfx & _), (Hall y) as (Hiny & Hfy & _).
    assert (∀ p l, Forall (λ m, (∃ text, m = signal_error text) ∨ ∃ q payload,
      m = signal_from (Device.peerId d) (Some payload) ∧ signals (heard_of (World.server w) d) q payload ∧
      seated (World.server w) d ∧ has_joined (World.server w) R q (Device.socket p)) l →
      (∀ q, Forall (λ m, q ∉ listed_by m) l ∧ Forall (λ m, m ≠ peer_joined q) l)) as Hquiet.
    { intros p l Hl q. split; (eapply Forall_impl; [exact Hl|]);
        intros m [(t & ->)|(q' & payload & -> & _)]; simpl; try done; apply not_elem_of_nil. }
    destruct (Ho j k x y Hx Hy Hjk Jx Jy) as [Hf|Hf]; [left|right].
    + eapply first_moves; [by split|by split|exact Hinx|exact Hiny| | |exact Hf]; by eapply Hquiet.
    + eapply first_moves; [by split|by split|exact Hiny|exact Hinx| | |exact Hf]; by eapply Hquiet.
Qed.

(** The first text of a device is a join under its id, and no socket has its id
    before. *)
Lemma not_yet w i d : sound w → World.devices w !! i = Some d → Device.said d = 0%nat →
  ∀ u, ¬ has_joined (World.server w) R (Device.peerId d) u.
Proof.
  intros Hw Hi H0 u (c & Hc & Hj).
  destruct (so_joined _ _ (serves_ok _ _ _ _ _ _ _ (sn_serves w Hw)) u c R _ Hc Hj) as [token Ha].
  assert (u = Device.socket d) as -> by (eapply (sn_own w Hw); [by eapply list_elem_of_lookup_2|exact Ha]).
  apply (dv_first _ _ _ (sn_device w Hw i d Hi) R (Device.peerId d) H0). by exists c.
Qed.

(** A socket of a device sits under its id. *)
Lemma own_seat w i x q u : sound w → World.devices w !! i = Some x →
  has_joined (World.server w) R q u → (q = Device.peerId x ↔ u = Device.socket x).
Proof.
  intros Hw Hx (c & Hc & Hj).
  destruct (so_joined _ _ (serves_ok _ _ _ _ _ _ _ (sn_serves w Hw)) u c R q Hc Hj) as [token Ha]. split.
  - intros ->. eapply (sn_own w Hw); [by eapply list_elem_of_lookup_2|exact Ha].
  - intros ->. by destruct (dv_own _ _ _ (sn_device w Hw i x Hx) _ _ _ Ha) as [_ ->].
Qed.

(** A device that comes is told who is there, and they are told of it. *)
Lemma comes_first w i d k y s' ids new : sound w → World.devices w !! i = Some d → Device.said d = 0%nat →
  World.devices w !! k = Some y → k ≠ i → seated (World.server w) y →
  (∀ q, q ∈ ids ↔ ∃ u, has_joined (World.server w) R q u) →
  inbox s' (Device.socket d) = inbox (World.server w) (Device.socket d) ++ [joined_message R (Device.peerId d) ids] →
  inbox s' (Device.socket y) = inbox (World.server w) (Device.socket y) ++ new →
  Forall (λ m, m = peer_joined (Device.peerId d)) new → new ≠ [] → first_in s' y d.
Proof.
  intros Hw Hi H0 Hy Hki Jy Hids Hin Hiny Hnew Hne.
  assert (¬ seated (World.server w) d) as Hnot by by apply (not_yet w i d).
  pose proof (sn_pair w Hw k i y d Hy Hi Hki) as [_ Hun _ _ _].
  pose proof (sn_pair w Hw i k d y Hi Hy (not_eq_sym Hki)) as [_ _ Hhere _ _].
  rewrite Forall_forall in Hnew. split; rewrite ?Hiny, ?Hin.
  - destruct new as [|m new]; [done|]. rewrite <-(Hnew m) by constructor. set_solver.
  - intros (R' & me & l & [Hm|Hm]%elem_of_app & Hp); [|by apply Hnew in Hm].
    apply Hnot, (Hun _ Hm). by constructor.
  - exists R, (Device.peerId d), ids. split; [set_solver|]. apply Hids. by eexists.
  - intros [Hm|Hm%list_elem_of_singleton]%elem_of_app; [|done]. by apply Hnot, Hhere; left.
  - intros before payload after Heq. exfalso.
    assert (signal_from (Device.peerId d) payload ∈ inbox (World.server w) (Device.socket y) ++ new) as Hm
      by (rewrite Heq; set_solver).
    apply elem_of_app in Hm as [Hm|Hm]; [|by apply Hnew in Hm]. apply Hnot, (Hun _ Hm). constructor.
Qed.

Lemma sound_joins w i d s' token ids : sound w → World.devices w !! i = Some d → Device.said d = 0%nat →
  texts (Device.bridge d) !! Device.said d = Some (join_text (Device.room d) (Device.peerId d)) →
  parseClientMessage (join_text (Device.room d) (Device.peerId d)) = Some (join_room R token (Device.peerId d)) →
  s' = serve (Says (Device.socket d) (join_text (Device.room d) (Device.peerId d))) (World.server w) →
  (∀ q, q ∈ ids ↔ ∃ u, has_joined (World.server w) R q u) →
  seat s' (Device.socket d) = Some (Some (R, Device.peerId d)) →
  (∀ u, u ≠ Device.socket d → seat s' u = seat (World.server w) u) →
  inbox s' (Device.socket d) = inbox (World.server w) (Device.socket d) ++ [joined_message R (Device.peerId d) ids] →
  (∀ u, u ≠ Device.socket d → ∃ new, inbox s' u = inbox (World.server w) u ++ new ∧
     Forall (λ m, m = peer_joined (Device.peerId d)) new ∧
     (new ≠ [] ↔ ∃ q, has_joined (World.server w) R q u)) →
  sound (World.mk (World.past w ++ [Says (Device.socket d) (join_text (Device.room d) (Device.peerId d))]) s'
           (<[i := Device.says d]> (World.devices w))).
Proof.
  intros Hw Hi H0 Ht Hparse Hs' Hids Hsd Hseat Hind Hinu. pose proof Hw as [_ _ _ Hid Hso _ Hd _ Ho].
  set (news x := drop (length (inbox (World.server w) (Device.socket x))) (inbox s' (Device.socket x))).
  assert (news d = [joined_message R (Device.peerId d) ids]) as Hnd by (unfold news; by rewrite Hind, drop_app_length).
  assert (∀ j x, World.devices w !! j = Some x → j ≠ i → Device.socket x ≠ Device.socket d ∧
    Device.peerId x ≠ Device.peerId d) as Hdiff.
  { intros j x Hx Hji. by destruct (ids_differ (World.devices w) j i x d Hid Hso Hx Hi Hji). }
  assert (seated s' d) as Jd by by apply seat_joined.
  assert (∀ j x, World.devices w !! j = Some x → j ≠ i → seated s' x ↔ seated (World.server w) x) as Hj.
  { intros j x Hx Hji. unfold seated. rewrite !seat_joined, Hseat; [done|]. by apply (Hdiff j). }
  assert (∀ j x, World.devices w !! j = Some x → j ≠ i →
    inbox s' (Device.socket x) = inbox (World.server w) (Device.socket x) ++ news x ∧
    Forall (λ m, m = peer_joined (Device.peerId d)) (news x) ∧ (news x ≠ [] ↔ seated (World.server w) x)) as Hx'.
  { intros j x Hx Hji. destruct (Hinu (Device.socket x)) as (new & Hin & Hall & Hiff); [by apply (Hdiff j)|].
    assert (news x = new) as -> by (unfold news; by rewrite Hin, drop_app_length). split_and!; [done..|].
    rewrite Hiff. split; [|by eexists]. intros [q Hq]. pose proof (proj2 (own_seat w j x q _ Hw Hx Hq) eq_refl) as ->. done. }
  apply (sound_says w i d _ s' news); [exact Hw|exact Hi|exact Ht| |exact Hs'| | |exact Hseat|by intros _| | |].
  - intros R' tok p. rewrite Hparse. by intros [= <- _ <-].
  - intros j x Hx. destruct (decide (j = i)) as [->|Hji].
    + simplify_eq. rewrite Hind, Hnd. split_and!; [done|by repeat constructor|done].
    + destruct (Hx' j x Hx Hji) as (Hin & Hall & _). split_and!; [done| |].
      * eapply Forall_impl; [exact Hall|]. by intros m ->.
      * intros R' p l Hm. rewrite Forall_forall in Hall. by apply Hall in Hm.
  - intros u Hu. destruct (decide (u = Device.socket d)) as [->|]; [by rewrite Hsd|by rewrite Hseat].
  - intros j k x y Hx Hy Hjk. destruct (decide (j = i)) as [->|Hji].
    + simplify_eq. rewrite Hnd. constructor; [|constructor]. intros Hab. inversion Hab as [| | |? ? ? Hin]; subst.
      split_and!; [done| |done|done]. apply (Hj k y Hy (not_eq_sym Hjk)).
      apply Hids in Hin as [u Hu]. pose proof (proj1 (own_seat w k y _ _ Hw Hy Hu) eq_refl) as ->. done.
    + destruct (Hx' j x Hx Hji) as (_ & Hall & Hiff). apply Forall_forall. intros m Hm Hab.
      rewrite Forall_forall in Hall. rewrite (Hall m Hm) in *. inversion Hab as [Heq| | |]; subst.
      assert (k = i) as ->.
      { destruct (decide (k = i)) as [|Hki]; [done|]. by destruct (Hdiff k y Hy Hki). }
      simplify_eq. split_and!; [done|done| |done]. intros _. apply (Hj j x Hx Hji), Hiff. intros Hnil.
      rewrite Hnil in Hm. by apply elem_of_nil in Hm.
  - intros j x payload _ _ Htext Hsafe. exfalso. rewrite Htext, parse_signal_text in Hparse by done. done.
  - intros j k x y Hx Hy Hjk Jx Jy. destruct (decide (j = i)) as [->|Hji]; [|destruct (decide (k = i)) as [->|Hki]].
    + simplify_eq. right. destruct (Hx' k y Hy (not_eq_sym Hjk)) as (Hiny & Hall & Hiff).
      apply (Hj k y Hy (not_eq_sym Hjk)) in Jy. eapply (comes_first w i d k y); try done. by apply Hiff.
    + simplify_eq. left. destruct (Hx' j x Hx Hji) as (Hinx & Hall & Hiff).
      apply (Hj j x Hx Hji) in Jx. eapply (comes_first w i d j x); try done. by apply Hiff.
    + apply (Hj j x Hx Hji) in Jx. apply (Hj k y Hy Hki) in Jy.
      destruct (Hx' j x Hx Hji) as (Hinx & Hallx & _), (Hx' k y Hy Hki) as (Hiny & Hally & _).
      assert (∀ n z l, World.devices w !! n = Some z → n ≠ i → Forall (λ m, m = peer_joined (Device.peerId d)) l →
        (∀ q, Forall (λ m, q ∉ listed_by m) l) ∧ Forall (λ m, m ≠ peer_joined (Device.peerId z)) l) as Hquiet.
      { intros n z l Hz Hnz Hl. split; [intros q|]; (eapply Forall_impl; [exact Hl|]); intros m ->; [apply not_elem_of_nil|].
        intros [= Heq]. by destruct (Hdiff n z Hz Hnz). }
      destruct (Ho j k x y Hx Hy Hjk Jx Jy) as [Hf|Hf]; [left|right].
      * eapply first_moves; [by split|by split|exact Hinx|exact Hiny| | |exact Hf]; by eapply Hquiet.
      * eapply first_moves; [by split|by split|exact Hiny|exact Hinx| | |exact Hf]; by eapply Hquiet.
Qed.

(** A text that is answered with an error. *)
Lemma sound_refused w i d text s' e : sound w → World.devices w !! i = Some d →
  texts (Device.bridge d) !! Device.said d = Some text →
  (∀ R' token p, parseClientMessage text = Some (join_room R' token p) → R' = R ∧ p = Device.peerId d) →
  s' = serve (Says (Device.socket d) text) (World.server w) →
  (∀ t, seat s' t = seat (World.server w) t) →
  RoomRegistry.sent (Server.registry s') =
    RoomRegistry.sent (Server.registry (World.server w)) ++ [(Device.socket d, signal_error e)] →
  ¬ seated (World.server w) d →
  (∀ q payload, text = signal_text q payload → safe payload → signals (heard_of (World.server w) d) q payload) →
  sound (World.mk (World.past w ++ [Says (Device.socket d) text]) s' (<[i := Device.says d]> (World.devices w))).
Proof.
  intros Hw Hi Ht Hjoin Hs' Hseat Hsent Hno Hsig.
  apply (sound_signals w i d text s'); [done..| |done].
  intros u. destruct (error_inbox _ _ _ _ u Hsent) as (new & Hin & Hnew). exists new. split_and!; [done| |].
  - eapply Forall_impl; [exact Hnew|]. intros m ?. by left.
  - by intros q payload _ _ ?.
Qed.

Lemma sound_text w i d text : sound w → World.devices w !! i = Some d →
  texts (Device.bridge d) !! Device.said d = Some text →
  sound (World.mk (World.past w ++ [Says (Device.socket d) text])
           (serve (Says (Device.socket d) text) (World.server w)) (<[i := Device.says d]> (World.devices w))).
Proof.
  intros Hw Hi Ht. destruct (said_text w i d text Hw Hi Ht) as [[seat_d Hseat] Hkind].
  pose proof (sn_device w Hw i d Hi) as Hd. pose proof (sound_keys w Hw) as Hkeys. pose proof (sn_exact w Hw) as He.
  destruct Hkind as [[H0 ->]|(p & payload & -> & Hsig)].
  - pose proof (parse_join_text (Device.room d) (Device.peerId d)) as Hparse. rewrite (dv_room _ _ _ Hd) in Hparse.
    assert (seat_d = None) as ->.
    { destruct seat_d as [[R' q]|]; [|done]. exfalso. apply (dv_first _ _ _ Hd R' q H0). by apply seat_joined. }
    assert (¬ seated (World.server w) d) as Hno by by apply (not_yet w i d).
    destruct (join_step now randomUUID randomToken randomInt fuel _ _ R _ _ _ Hparse Hseat Hkeys He (not_yet w i d Hw Hi H0))
      as [(e & Hsent & Hseats)|(ids & Hids & Hsd & Hseats & Hind & Hinu)].
    + apply (sound_refused w i d _ _ e Hw Hi Ht); [|exact eq_refl|exact Hseats|exact Hsent|exact Hno|].
      * intros R' token q. rewrite Hparse. by intros [= <- _ <-].
      * intros q payload Heq Hsafe. exfalso. by rewrite Heq, parse_signal_text in Hparse by done.
    + exact (sound_joins w i d _ _ ids Hw Hi H0 Ht Hparse eq_refl Hids Hsd Hseats Hind Hinu).
  - pose proof (parse_signal_text p payload (signals_safe _ _ _ Hsig)) as Hparse.
    assert (∀ R' token q, parseClientMessage (signal_text p payload) = Some (join_room R' token q) →
      R' = R ∧ q = Device.peerId d) as Hjoin by by rewrite Hparse.
    assert (∀ q payload', signal_text p payload = signal_text q payload' → safe payload' → q = p ∧ payload' = payload) as Hinj.
    { intros q payload' Heq Hsafe. rewrite Heq, parse_signal_text in Hparse by done. by simplify_eq. }
    assert (∀ q payload', signal_text p payload = signal_text q payload' → safe payload' →
      signals (heard_of (World.server w) d) q payload') as Hsigs.
    { intros q payload' Heq Hsafe. by destruct (Hinj q payload' Heq Hsafe) as [-> ->]. }
    destruct seat_d as [[R' q]|].
    + apply seat_joined in Hseat. pose proof Hseat as (c & Hc & Hj).
      destruct (so_joined _ _ (serves_ok _ _ _ _ _ _ _ (sn_serves w Hw)) _ c R' q Hc Hj) as [token Ha].
      destruct (dv_own _ _ _ Hd _ _ _ Ha) as [-> ->].
      destruct (signal_step now randomUUID randomToken randomInt fuel _ _ R _ _ _ _ Hparse Hseat Hkeys He) as [Hseats Hin].
      apply (sound_signals w i d _ _ Hw Hi Ht Hjoin eq_refl Hseats); [|exact Hsigs].
      intros u. destruct (Hin u) as (new & Hnew & Hall & Hto). exists new. split_and!; [done| |].
      * eapply Forall_impl; [exact Hall|]. intros m [?|[-> Hu]]; [by left|right]. by exists p, payload.
      * intros q payload' Heq Hsafe _. by destruct (Hinj q payload' Heq Hsafe) as [-> ->].
    + destruct (signal_unseated now randomUUID randomToken randomInt fuel _ _ _ _ _ Hparse Hseat) as (Hseats & e & Hsent).
      apply (sound_refused w i d _ _ e Hw Hi Ht Hjoin eq_refl Hseats Hsent); [|exact Hsigs].
      intros Hs%seat_joined. by rewrite Hseat in Hs.
Qed.

Lemma sound_start devices : invited R devices → sound (World.mk [] Server.new devices).
Proof.
  intros (Hall & Hid & Hso). rewrite Forall_lookup in Hall.
  assert (∀ t R' token p, ¬ asked [] t R' token p) as Hno by by intros t R' token p (raw & ?%elem_of_nil & _).
  assert (∀ t, seat Server.new t = None) as Hseat by (intros t; unfold seat; simpl; by rewrite lookup_empty).
  assert (∀ x, ¬ seated Server.new x) as Hsd by (intros x ?%seat_joined; by rewrite Hseat in *).
  split; cbn [World.past World.server World.devices]; try done.
  - constructor.
  - split; intros *; intros ?%Hno; done.
  - intros R' p t. rewrite seat_joined, Hseat. unfold in_room. simpl. setoid_rewrite lookup_empty. naive_solver.
  - intros d t R' token _ ?%Hno. done.
  - intros i d Hi. destruct (Hall i d Hi) as [Hst Hroom]. split; try done.
    + by right.
    + by intros R' token p ?%Hno.
    + rewrite (as_said _ Hst). lia.
    + rewrite (as_heard _ Hst). lia.
    + intros R' p _ ?%seat_joined. by rewrite Hseat in *.
    + by intros R' p ids ?%elem_of_nil.
  - intros i j x y Hi Hj Hne. destruct (Hall j y Hj) as [Hst _]. split; try (by intros ?%elem_of_nil).
    + by intros m ?%elem_of_nil.
    + intros [?%elem_of_nil|(? & ? & ? & ?%elem_of_nil & _)]; done.
    + by intros payload ?%elem_of_nil.
    + intros k payload. rewrite (as_said _ Hst). lia.
  - intros i j x y _ _ _ ?%Hsd. done.
Qed.

Lemma meeting_sound w : meeting now randomUUID randomToken randomInt fuel url_host opens has_window R w → sound w.
Proof.
  induction 1 as [devices Hinv|w w' _ IH Hstep]; [by apply sound_start|].
  destruct Hstep; [by apply sound_other|by apply sound_opens|by apply sound_text|by apply sound_hears|by apply sound_does].
Qed.
End steps.
End room.
