(* ===== verification/MeetingProps.v ===== *)
(** * Devices that meet: properties *)

From S2P Require Import Prelude Model JsString Json JsonProps JsMap Effects Rooms Hub Settings Services Signaling.
From S2P Require Import SignalingTheory SignalingProps Bridge Meeting MeetingTheory MeetingWorld.
From Stdlib Require Import QArith_base.

Open Scope Z_scope.

Implicit Types (i j k : nat) (d x y : Device.t) (w : World.t).

Section room.
Context (R : RoomId) (now : nat → Z) (randomUUID : nat → RoomId) (randomToken : nat → string).
Context (randomInt : nat → nat) (fuel : nat).
Abbreviation sound := (sound R now randomUUID randomToken randomInt fuel).

(** ** When everything has arrived *)

Lemma delivered_device w i d : sound w → delivered w → World.devices w !! i = Some d →
  talks (Device.room d) (Device.peerId d) (inbox (World.server w) (Device.socket d)) [] (Device.bridge d) ∧
  heard_by w d = inbox (World.server w) (Device.socket d) ∧
  heard_of (World.server w) d = inbox (World.server w) (Device.socket d) ∧
  Device.said d = length (texts (Device.bridge d)) ∧ Bridge.tasks (Device.bridge d) = [].
Proof.
  intros Hw Hdel Hi. unfold delivered in Hdel. rewrite Forall_lookup in Hdel.
  destruct (Hdel i d Hi) as (Hopen & Hsaid & Hheard & Htasks).
  assert (heard_of (World.server w) d = inbox (World.server w) (Device.socket d)) as Hall.
  { unfold heard_of. rewrite Hheard. apply take_ge. lia. }
  destruct (open_talks R _ _ _ _ _ w i d Hw Hi Hopen) as [Htalk _]. rewrite Hall in Htalk. done.
Qed.

(** Every signal of a device to another has been sent to it. *)
Lemma all_arrived w i j x y payload : sound w → delivered w →
  World.devices w !! i = Some x → World.devices w !! j = Some y → i ≠ j → safe payload →
  signal_text (Device.peerId x) payload ∈ texts (Device.bridge y) →
  signal_from (Device.peerId y) (Some payload) ∈ inbox (World.server w) (Device.socket x).
Proof.
  intros Hw Hdel Hi Hj Hne Hsafe [k Hk]%list_elem_of_lookup.
  destruct (delivered_device w j y Hw Hdel Hj) as (_ & _ & _ & Hsaid & _).
  apply (pk_sent _ _ _ _ (sn_pair R _ _ _ _ _ w Hw i j x y Hi Hj Hne) k payload); [|done|done].
  rewrite Hsaid. by apply lookup_lt_Some in Hk.
Qed.

Lemma first_met w i j x y : sound w → delivered w →
  World.devices w !! i = Some x → World.devices w !! j = Some y → i ≠ j →
  first_in (World.server w) x y → met w x y.
Proof.
  intros Hw Hdel Hi Hj Hne [Htold Hunlisted Hlisted Huntold Horder].
  destruct (delivered_device w i x Hw Hdel Hi) as (Hx & Hhx & Hhx' & _ & Htx).
  destruct (delivered_device w j y Hw Hdel Hj) as (Hy & Hhy & Hhy' & _ & Hty).
  pose proof (sn_pair R _ _ _ _ _ w Hw i j x y Hi Hj Hne) as Hpx.
  pose proof (sn_pair R _ _ _ _ _ w Hw j i y x Hj Hi (not_eq_sym Hne)) as Hpy.
  assert (∃ offer, signal_from (Device.peerId y) (Some (offer_signal offer)) ∈ inbox (World.server w) (Device.socket x) ∧
    Device.peerId x ∈ (Bridge.connections (Device.bridge y)).*1) as (offer & Hoffer & Hcy).
  { destruct (tk_listed _ _ _ _ _ Hy (Device.peerId x) Hlisted (pk_gone _ _ _ _ Hpy))
      as [Hc|[(q & rest & Hin & _)|?%elem_of_nil]]; [|by rewrite Hty in Hin; apply elem_of_nil in Hin|done].
    destruct (tk_connected _ _ _ _ _ Hy _ Hc) as [_ Hpend].
    destruct (Hpend Huntold) as [[rest Hin]|(offer & Hsafe & Hin)]; [by rewrite Hty in Hin; apply elem_of_nil in Hin|].
    exists offer. split; [|done]. by apply (all_arrived w i j x y). }
  pose proof Hoffer as Hin. apply list_elem_of_split in Hin as (before & after & Heq).
  assert (∃ answer, signal_from (Device.peerId x) (Some (answer_signal answer)) ∈ inbox (World.server w) (Device.socket y))
    as (answer & Hanswer).
  { destruct (tk_offered _ _ _ _ _ Hx before (Device.peerId y) offer after Heq (Horder _ _ _ Heq) (pk_gone _ _ _ _ Hpx))
      as [Hin|(answer & Hsafe & Hin)]; [by rewrite Htx in Hin; apply elem_of_nil in Hin|].
    exists answer. by apply (all_arrived w j i y x). }
  split; rewrite ?Hhx, ?Hhy.
  - apply get_key. by apply (tk_joined _ _ _ _ _ Hx); [|apply Hpx].
  - by apply get_key.
  - destruct Hlisted as (R' & me & ids & Hin & Hp). exists R', me, ids. done.
  - by exists offer.
  - by exists answer.
  - intros offer' Hin. destruct (pk_signals _ _ _ _ Hpy _ Hin) as (p & [= <-] & Hsig). rewrite Hhx' in Hsig.
    inversion Hsig; subst; done.
Qed.
End room.

(** C14: devices that are let into one room meet.  Whatever other clients do, in
    whatever order the messages arrive, and whatever candidates are exchanged
    meanwhile: once everything has arrived, of each two devices the one that came
    later has sent the other an offer and has its answer, the other has sent no
    offer, and both have a connection for each other.  (It is the one that comes
    that offers, not, as the comment at the loop over the room says, the peer that
    is already in it.) *)
Theorem devices_meet now randomUUID randomToken randomInt fuel url_host opens has_window (R : RoomId) (w : World.t)
    (Hw : meeting now randomUUID randomToken randomInt fuel url_host opens has_window R w) (Hdel : delivered w)
    (i j : nat) (x y : Device.t) (Hi : World.devices w !! i = Some x) (Hj : World.devices w !! j = Some y)
    (Hne : i ≠ j) (Hx : let_in w x) (Hy : let_in w y) :
  met w x y ∨ met w y x.
Proof.
  apply meeting_sound in Hw.
  assert (∀ k d, World.devices w !! k = Some d → let_in w d → seated R (World.server w) d) as Hin.
  { intros k d Hk (R' & p & ids & Hm). destruct (delivered_device _ _ _ _ _ _ w k d Hw Hdel Hk) as (_ & Hh & _).
    rewrite Hh in Hm. eapply dv_joined; [by eapply sn_device|exact Hm]. }
  destruct (sn_order _ _ _ _ _ _ w Hw i j x y Hi Hj Hne (Hin i x Hi Hx) (Hin j y Hj Hy)) as [Hf|Hf]; [left|right].
  - by eapply first_met.
  - by apply (first_met R now randomUUID randomToken randomInt fuel w j i).
Qed.

(** ** Two devices, evaluated *)

Module TwoBridges.
Import TwoDevices.

Definition no_host (url : string) : option string := None.
Definition any_url (url : string) : bool := true.
Definition a_room : Rendezvous.t := Rendezvous.mk "wss://server/signal" "meeting" "secret".
Definition device (peerId : string) (t : Socket) : Device.t :=
  Device.mk peerId a_room t (connect no_host any_url true a_room (new_bridge (λ _, 0%Q) None)) 0 0.
Definition start : World.t := World.mk [] Server.new [device "laptop" 0; device "phone" 1].

Inductive Move : Type :=
  | Opens (i : nat)
  | SaysNext (i : nat)
  | HearsNext (i : nat)
  | Does (i : nat) (event : BridgeEvent).

Definition next_text (d : Device.t) : option string := texts (Device.bridge d) !! Device.said d.
Definition next_message (w : World.t) (d : Device.t) : option ServerSignalMessage :=
  inbox (World.server w) (Device.socket d) !! Device.heard d.

(** The world after a move; the same if it cannot be made. *)
Definition move (w : World.t) (m : Move) : World.t :=
  let serve := serve clock uuid token draw 100 in
  let on_event := Bridge.on_event no_host any_url true in
  let at_ i (f : Device.t → World.t) := match World.devices w !! i with Some d => f d | None => w end in
  let put i d := <[i := d]> (World.devices w) in
  match m with
  | Opens i => at_ i (λ d,
      let event := Signaling.Connects (Device.socket d) in
      World.mk (World.past w ++ [event]) (serve event (World.server w))
        (put i (Device.set_bridge (on_event (Device.peerId d) (SocketOpens 0 (Device.room d)) (Device.bridge d)) d)))
  | SaysNext i => at_ i (λ d,
      match next_text d with
      | Some text => let event := Says (Device.socket d) text in
          World.mk (World.past w ++ [event]) (serve event (World.server w)) (put i (Device.says d))
      | None => w
      end)
  | HearsNext i => at_ i (λ d,
      match next_message w d with
      | Some message =>
          World.mk (World.past w) (World.server w)
            (put i (Device.hears
               (match read_signal (JSON_stringify (server_json message)) with
                | Some message => on_event (Device.peerId d) (SocketHears message) (Device.bridge d)
                | None => Device.bridge d
                end) d))
      | None => w
      end)
  | Does i event => at_ i (λ d,
      World.mk (World.past w) (World.server w)
        (put i (Device.set_bridge (on_event (Device.peerId d) event (Device.bridge d)) d)))
  end.

(** Whether a move can be made. *)
Definition can_move (w : World.t) (m : Move) : bool :=
  match m with
  | Opens i =>
      match World.devices w !! i with
      | Some d => negb (Bridge.socketOpen (Device.bridge d))
                  && bool_decide (possible (World.past w) (World.server w) (Signaling.Connects (Device.socket d)))
      | None => false
      end
  | SaysNext i => match World.devices w !! i with Some d => bool_decide (is_Some (next_text d)) | None => false end
  | HearsNext i =>
      match World.devices w !! i with
      | Some d => Bridge.socketOpen (Device.bridge d) && bool_decide (is_Some (next_message w d))
      | None => false
      end
  | Does i event =>
      match World.devices w !! i with
      | Some d => Bridge.socketOpen (Device.bridge d)
                  && match event with
                     | TaskEnds k (Some JNull) => bool_decide (is_Some (Bridge.tasks (Device.bridge d) !! k))
                     | _ => false
                     end
      | None => false
      end
  end.

Lemma move_step w m : can_move w m = true →
  Meeting.step clock uuid token draw 100 no_host any_url true w (move w m).
Proof.
  destruct m as [i|i|i|i event]; simpl; destruct (World.devices w !! i) as [d|] eqn:Hi; try done.
  - intros [Ho%negb_true_iff Hp%bool_decide_eq_true]%andb_true_iff. by apply step_opens.
  - intros [text Ht]%bool_decide_eq_true. rewrite Ht. by apply step_says.
  - intros [Ho [message Hm]%bool_decide_eq_true]%andb_true_iff. rewrite Hm. by apply step_hears.
  - intros [Ho He]%andb_true_iff. destruct event as [| | | | | | | | | | | | | | | |k [[| | | | |]|]]; try done.
    apply bool_decide_eq_true in He. by apply step_does.
Qed.

Fixpoint can_run (w : World.t) (moves : list Move) : bool :=
  match moves with
  | [] => true
  | m :: moves => can_move w m && can_run (move w m) moves
  end.

Lemma run_meeting moves w : meeting clock uuid token draw 100 no_host any_url true "meeting" w →
  can_run w moves = true → meeting clock uuid token draw 100 no_host any_url true "meeting" (foldl move w moves).
Proof.
  revert w. induction moves as [|m moves IH]; intros w Hw; simpl; [done|].
  intros [Hm Hr]%andb_true_iff. apply IH; [|done]. eapply meeting_goes_on; [exact Hw|]. by apply move_step.
Qed.

Lemma start_meeting : meeting clock uuid token draw 100 no_host any_url true "meeting" start.
Proof.
  apply meeting_starts. split_and!.
  - repeat constructor.
  - refine (bool_decide_eq_true_1 _ _). vm_compute. reflexivity.
  - refine (bool_decide_eq_true_1 _ _). vm_compute. reflexivity.
Qed.

(** The laptop waits, the phone comes, offers, and is answered. *)
Definition moves : list Move :=
  [Opens 0; Opens 1; SaysNext 0; HearsNext 0; SaysNext 1; HearsNext 1; HearsNext 0; Does 1 (TaskEnds 0 (Some JNull));
   SaysNext 1; HearsNext 0; Does 0 (TaskEnds 0 (Some JNull)); SaysNext 0; HearsNext 1].

Definition after : World.t := foldl move start moves.
Definition device_after (i : nat) : Device.t := default (device "" 2) (World.devices after !! i).

Definition has_joined_message (l : list ServerSignalMessage) : bool :=
  existsb (λ m, match m with joined_message _ _ _ => true | _ => false end) l.

#[local] Instance task_dec : EqDecision BridgeTask.
Proof. solve_decision. Defined.

#[export] Instance delivered_dec w : Decision (delivered w).
Proof. unfold delivered. apply _. Defined.

Lemma let_in_from w d : has_joined_message (heard_by w d) = true → let_in w d.
Proof.
  unfold has_joined_message, let_in. generalize (heard_by w d). induction l as [|m l IH]; simpl; [done|].
  intros [Hm|Hl]%orb_true_iff.
  - destruct m; try done. do 3 eexists. by constructor.
  - destruct (IH Hl) as (r & p & ids & Hin). exists r, p, ids. by constructor.
Qed.
End TwoBridges.

Import TwoBridges.

Lemma devices_meet_witness : met after (device_after 0) (device_after 1) ∨ met after (device_after 1) (device_after 0).
Proof.
  refine (devices_meet TwoDevices.clock TwoDevices.uuid TwoDevices.token TwoDevices.draw 100 no_host any_url true "meeting"
    after (run_meeting moves start start_meeting _) _ 0 1 (device_after 0) (device_after 1) _ _ _ _ _).
  - vm_compute. reflexivity.
  - refine (bool_decide_eq_true_1 _ _). vm_compute. reflexivity.
  - vm_compute. reflexivity.
  - vm_compute. reflexivity.
  - discriminate.
  - apply let_in_from. vm_compute. reflexivity.
  - apply let_in_from. vm_compute. reflexivity.
Defined.

(** When the connection of two devices fails while both stay in the room, neither
    offers again: no one joins, so no one is told of the other. *)
Lemma parted_devices_wait :
  let parted := foldl move after [Does 0 (StateChanges "phone" true); Does 1 (StateChanges "laptop" true)] in
  delivered parted ∧
  Forall (λ d, Bridge.connections (Device.bridge d) = [] ∧ Bridge.socket (Device.bridge d) = Some 0%nat ∧
    Bridge.retryTimer (Device.bridge d) = None) (World.devices parted).
Proof. split; refine (bool_decide_eq_true_1 _ _); vm_compute; reflexivity. Qed.
