(* ===== verification/Window.v ===== *)
(** * The window

    packages/ui/src/App.tsx: the state of the window, its effects and handlers,
    the texts it makes and which cards it shows.  A promise that is awaited is a
    task, whose end is an event; an effect runs when the window was drawn again.
    The layout of the cards is not modelled. *)

From S2P Require Import Prelude Model JsString Json JsMap Effects Identity ShortCode Settings Rooms VaultFile Explain.
From S2P Require Import Services Hub Offer Calls Snapshot Bridge.
From Stdlib Require String.

Open Scope Z_scope.

(** ** Texts *)

(** [Math.round (n / d)]. *)
Definition rounded (n d : Z) : Z := (2 * n + d) / (2 * d).

(** How long ago a time in milliseconds is. *)
Definition whenever (now time : Z) : string :=
  let seconds := Z.max 0 (rounded (now - time) 1000) in
  if seconds <? 45 then "just now"
  else
    let minutes := rounded seconds 60 in
    if minutes <? 60 then number minutes +:+ " minute" +:+ plural minutes +:+ " ago"
    else
      let hours := rounded minutes 60 in
      if hours <? 24 then number hours +:+ " hour" +:+ plural hours +:+ " ago"
      else
        let days := rounded hours 24 in
        if days =? 1 then "yesterday" else number days +:+ " days ago".

(** [text.split(sep).pop()]: what follows the last separator. *)
Fixpoint after_last (sep l : text) : option text :=
  match l with
  | [] => None
  | _ :: l' =>
      match after_last sep l' with
      | Some rest => Some rest
      | None => if bool_decide (sep `prefix_of` l) then Some (drop (length sep) l) else None
      end
  end.

Definition last_piece (sep s : string) : string :=
  match after_last (chars sep) (chars s) with Some rest => of_chars rest | None => s end.

(** The message of an error; [None] for what is thrown and no [Error]. *)
Definition readableError (error : option string) (fallback : string) : string :=
  match error with
  | None => fallback
  | Some message =>
      let tail := trim (last_piece "Error: " message) in
      if decide (tail = EmptyString) then fallback else tail
  end.

Definition tidyHost (raw : string) : string := default (trim raw) (normalizeServerHost raw).

Definition fileNameOf (vault : option VaultSummary.t) : string :=
  match vault with
  | Some vault =>
      if decide (VaultSummary.name vault = EmptyString)
      then match VaultSummary.kdbxPath vault with Some path => last_piece "/" path | None => EmptyString end
      else VaultSummary.name vault
  | None => EmptyString
  end.

(** ** State *)

Inductive Tab : Type := home | history | devices.

#[global] Instance Tab_eq_dec : EqDecision Tab.
Proof. solve_decision. Defined.

(** What the window asks of the services and of the bridge. *)
Inductive UiCall : Type :=
  | getSnapshot
  | askIceServers
  | runSession (peerId : string) (pairingMode : bool)
  | askStandingRendezvous
  | createPairingCode
  | readPairingCode (code : string)
  | askRendezvousFor (deviceId : DeviceId)
  | bridgeConnects (where_ : Rendezvous.t)
  | bridgeUses (servers : list IceServer.t)
  | bridgeDisconnects.

(** What it awaits. *)
Inductive UiTask : Type :=
  | Refreshing
  | AskingServers
  | Syncing
  | AskingStanding
  | CreatingCode
  | ReadingCode
  | AskingRendezvous.

#[global] Instance UiTask_eq_dec : EqDecision UiTask.
Proof. solve_decision. Defined.

(** What is awaited comes; [inr] is an error that was thrown, with its message. *)
Inductive UiResult : Type :=
  | SnapshotIs (snapshot : AppSnapshot.t)
  | ServersAre (servers : list IceServer.t)
  | SyncEnded (outcome : SyncOutcome + option string)
  | StandingIs (where_ : option (Rendezvous.t * string))
  | CodeIs (code : PairingCode.t + option string)
  | PairingRead (accepted : AcceptedPairing.t + string)
  | PairingReadThrew
  | RendezvousIs (where_ : Rendezvous.t + string).

Module App.
Record t : Type := mk {
  snapshot : option AppSnapshot.t;
  tab : Tab;
  connection : string;
  notice : option string;
  pairing : option PairingCode.t;
  enteredCode : string;
  pairingMode : bool;
  busy : bool;
  pairingModeRef : bool;
  readyPeers : list string;
  syncing : bool;
  rejoined : bool;
  tasks : list UiTask;
  calls : list UiCall;
}.

Definition set_snapshot x (a : t) : t := mk (Some x) (tab a) (connection a) (notice a) (pairing a) (enteredCode a)
  (pairingMode a) (busy a) (pairingModeRef a) (readyPeers a) (syncing a) (rejoined a) (tasks a) (calls a).
Definition set_tab x (a : t) : t := mk (snapshot a) x (connection a) (notice a) (pairing a) (enteredCode a)
  (pairingMode a) (busy a) (pairingModeRef a) (readyPeers a) (syncing a) (rejoined a) (tasks a) (calls a).
Definition set_connection x (a : t) : t := mk (snapshot a) (tab a) x (notice a) (pairing a) (enteredCode a)
  (pairingMode a) (busy a) (pairingModeRef a) (readyPeers a) (syncing a) (rejoined a) (tasks a) (calls a).
Definition set_notice x (a : t) : t := mk (snapshot a) (tab a) (connection a) x (pairing a) (enteredCode a)
  (pairingMode a) (busy a) (pairingModeRef a) (readyPeers a) (syncing a) (rejoined a) (tasks a) (calls a).
Definition set_pairing x (a : t) : t := mk (snapshot a) (tab a) (connection a) (notice a) x (enteredCode a)
  (pairingMode a) (busy a) (pairingModeRef a) (readyPeers a) (syncing a) (rejoined a) (tasks a) (calls a).
Definition set_enteredCode x (a : t) : t := mk (snapshot a) (tab a) (connection a) (notice a) (pairing a) x
  (pairingMode a) (busy a) (pairingModeRef a) (readyPeers a) (syncing a) (rejoined a) (tasks a) (calls a).
Definition set_pairingMode x (a : t) : t := mk (snapshot a) (tab a) (connection a) (notice a) (pairing a)
  (enteredCode a) x (busy a) (pairingModeRef a) (readyPeers a) (syncing a) (rejoined a) (tasks a) (calls a).
Definition set_busy x (a : t) : t := mk (snapshot a) (tab a) (connection a) (notice a) (pairing a) (enteredCode a)
  (pairingMode a) x (pairingModeRef a) (readyPeers a) (syncing a) (rejoined a) (tasks a) (calls a).
Definition set_pairingModeRef x (a : t) : t := mk (snapshot a) (tab a) (connection a) (notice a) (pairing a)
  (enteredCode a) (pairingMode a) (busy a) x (readyPeers a) (syncing a) (rejoined a) (tasks a) (calls a).
Definition set_readyPeers x (a : t) : t := mk (snapshot a) (tab a) (connection a) (notice a) (pairing a)
  (enteredCode a) (pairingMode a) (busy a) (pairingModeRef a) x (syncing a) (rejoined a) (tasks a) (calls a).
Definition set_syncing x (a : t) : t := mk (snapshot a) (tab a) (connection a) (notice a) (pairing a) (enteredCode a)
  (pairingMode a) (busy a) (pairingModeRef a) (readyPeers a) x (rejoined a) (tasks a) (calls a).
Definition set_rejoined x (a : t) : t := mk (snapshot a) (tab a) (connection a) (notice a) (pairing a) (enteredCode a)
  (pairingMode a) (busy a) (pairingModeRef a) (readyPeers a) (syncing a) x (tasks a) (calls a).
Definition set_tasks x (a : t) : t := mk (snapshot a) (tab a) (connection a) (notice a) (pairing a) (enteredCode a)
  (pairingMode a) (busy a) (pairingModeRef a) (readyPeers a) (syncing a) (rejoined a) x (calls a).
Definition call x (a : t) : t := mk (snapshot a) (tab a) (connection a) (notice a) (pairing a) (enteredCode a)
  (pairingMode a) (busy a) (pairingModeRef a) (readyPeers a) (syncing a) (rejoined a) (tasks a) (calls a ++ [x]).
End App.

Implicit Types a : App.t.

(** A call whose promise is awaited. *)
Definition awaits (call : UiCall) (task : UiTask) a : App.t :=
  App.set_tasks (App.tasks a ++ [task]) (App.call call a).

Definition refresh : App.t → App.t := awaits getSnapshot Refreshing.

(** The window as it opens: its first effects. *)
Definition opened : App.t :=
  awaits askIceServers AskingServers
    (refresh (App.mk None home "Starting…" None None EmptyString false false false [] false false [] [])).

(** ** Handlers *)

Definition runSync (peerId : string) a : App.t :=
  if App.syncing a then a
  else awaits (runSession peerId (App.pairingModeRef a)) Syncing
         (App.set_connection "Syncing…" (App.set_syncing true a)).

(** The rest of [runSync], after the session. *)
Definition sync_ended (outcome : SyncOutcome + option string) a : App.t :=
  let a :=
    match outcome with
    | inl outcome =>
        let a := App.set_connection "Connected" a in
        let a := match outcome with sync_failed reason => App.set_notice (Some reason) a | _ => a end in
        App.set_pairingMode false a
    | inr _ => a
    end in
  refresh (App.set_syncing false a).

(** The events of the bridge. *)
Definition hears_bridge (call : BridgeCall) a : App.t :=
  match call with
  | onStatus status => App.set_connection status a
  | onNotice message => App.set_notice (Some message) a
  | onPeer peerId => runSync peerId (App.set_readyPeers (set_add (App.readyPeers a) peerId) a)
  | onClosed peerId =>
      App.set_connection "Not connected" (App.set_readyPeers (set_delete (App.readyPeers a) peerId) a)
  | _ => a
  end.

Definition sync_suggested a : App.t :=
  match App.readyPeers a with peerId :: _ => runSync peerId a | [] => a end.

(** The effects after the window was drawn: the ref, and the rooms of the first
    snapshot with other devices. *)
Definition drawn a : App.t :=
  let a := App.set_pairingModeRef (App.pairingMode a) a in
  match App.snapshot a with
  | None => a
  | Some snapshot =>
      if decide (AppSnapshot.pairedDevices snapshot = [])
      then if decide (App.connection a = "Starting…") then App.set_connection "No other devices" a else a
      else if App.rejoined a then a
      else awaits askStandingRendezvous AskingStanding (App.set_rejoined true a)
  end.

Definition standing_is (where_ : option (Rendezvous.t * string)) a : App.t :=
  match where_ with
  | Some (where_, peerName) =>
      App.set_connection ("Looking for " +:+ peerName +:+ "…") (App.call (bridgeConnects where_) a)
  | None => a
  end.

Definition startPairing a : App.t := awaits createPairingCode CreatingCode (App.set_busy true a).

Definition code_is (code : PairingCode.t + option string) a : App.t :=
  App.set_busy false
    (match code with
     | inl code =>
         App.call (bridgeConnects (PairingCode.where_ code))
           (App.set_pairingMode true (App.set_pairing (Some code) a))
     | inr error => App.set_notice (Some (default "Could not start pairing." error)) a
     end).

Definition acceptPairing a : App.t :=
  awaits (readPairingCode (App.enteredCode a)) ReadingCode (App.set_busy true a).

Definition pairing_read (accepted : AcceptedPairing.t + string) a : App.t :=
  App.set_busy false
    (match accepted with
     | inl accepted =>
         App.call (bridgeConnects (AcceptedPairing.where_ accepted))
           (App.set_pairingMode true (App.set_enteredCode EmptyString a))
     | inr error => App.set_notice (Some error) a
     end).

Definition syncWith (deviceId : DeviceId) a : App.t :=
  awaits (askRendezvousFor deviceId) AskingRendezvous (App.set_pairingMode false a).

Definition rendezvous_is (where_ : Rendezvous.t + string) a : App.t :=
  match where_ with
  | inl where_ => App.call (bridgeConnects where_) a
  | inr error => App.set_notice (Some error) a
  end.

(** Whether the press was used. *)
Definition pressBack a : bool * App.t :=
  if decide (App.tab a = home) then (false, a) else (true, App.set_tab home a).

(** ** Events *)

Inductive UiEvent : Type :=
  | HearsBridge (call : BridgeCall)
  | PushesSnapshot (snapshot : AppSnapshot.t)
  | SuggestsSync
  | Draws
  | PressesGetCode
  | TypesCode (code : string)
  | PressesConnect
  | PressesEnter
  | PressesSync (deviceId : DeviceId)
  | PressesTab (tab : Tab)
  | PressesBack
  | DismissesNotice
  | TaskIs (task : nat) (result : UiResult).

(** A button that is disabled has no press; a task ends with what it awaits. *)
Definition ui_can a (event : UiEvent) : Prop :=
  match event with
  | PressesGetCode => App.busy a = false
  | PressesConnect => App.busy a = false ∧ App.enteredCode a ≠ EmptyString
  | PressesEnter => App.enteredCode a ≠ EmptyString
  | TaskIs i result =>
      match App.tasks a !! i, result with
      | Some Refreshing, SnapshotIs _ | Some AskingServers, ServersAre _ | Some Syncing, SyncEnded _
      | Some AskingStanding, StandingIs _ | Some CreatingCode, CodeIs _
      | Some ReadingCode, (PairingRead _ | PairingReadThrew) | Some AskingRendezvous, RendezvousIs _ => True
      | _, _ => False
      end
  | _ => True
  end.

Definition task_is (result : UiResult) a : App.t :=
  match result with
  | SnapshotIs snapshot => App.set_snapshot snapshot a
  | ServersAre servers => App.call (bridgeUses servers) a
  | SyncEnded outcome => sync_ended outcome a
  | StandingIs where_ => standing_is where_ a
  | CodeIs code => code_is code a
  | PairingRead accepted => pairing_read accepted a
  | PairingReadThrew => App.set_busy false a
  | RendezvousIs where_ => rendezvous_is where_ a
  end.

Definition ui_event (event : UiEvent) a : App.t :=
  match event with
  | HearsBridge call => hears_bridge call a
  | PushesSnapshot snapshot => App.set_snapshot snapshot a
  | SuggestsSync => sync_suggested a
  | Draws => drawn a
  | PressesGetCode => startPairing a
  | TypesCode code => App.set_enteredCode code a
  | PressesConnect | PressesEnter => acceptPairing a
  | PressesSync deviceId => syncWith deviceId a
  | PressesTab tab => App.set_tab tab a
  | PressesBack => (pressBack a).2
  | DismissesNotice => App.set_notice None a
  | TaskIs i result => task_is result (App.set_tasks (delete i (App.tasks a)) a)
  end.

Inductive shown : list UiEvent → App.t → Prop :=
  | shown_first : shown [] opened
  | shown_more events event a : shown events a → ui_can a event → shown (events ++ [event]) (ui_event event a).

(** ** What is on the screen *)

Inductive StatusCard : Type :=
  | SetUpSyncing
  | AlmostThere (vaultName : string)
  | WaitingForKeePassXC (file : string)
  | BothDevicesChanged
  | InSync (file : string) (lastChange : option Z).

Definition status_card (snapshot : AppSnapshot.t) (currentSavedAt : option Z) : StatusCard :=
  match AppSnapshot.state snapshot with
  | needs_setup => SetUpSyncing
  | needs_file vaultName => AlmostThere vaultName
  | waiting_for_close => WaitingForKeePassXC (fileNameOf (AppSnapshot.vault snapshot))
  | in_conflict => BothDevicesChanged
  | up_to_date => InSync (fileNameOf (AppSnapshot.vault snapshot)) currentSavedAt
  end.

Module Cards.
Record t : Type := mk {
  status : StatusCard;
  (** The conflict and the version that are combined. *)
  conflict : option (ConflictId * RevisionId);
  vaultFile : option string;
  addDevice : bool;
  verify : option (string * string);
}.
End Cards.

Definition cards (snapshot : AppSnapshot.t) : Cards.t :=
  let conflict := head (AppSnapshot.conflicts snapshot) in
  let other := head (filter (λ v, VersionSummary.canCombine v = true) (AppSnapshot.versions snapshot)) in
  let current := head (filter (λ v, VersionSummary.isCurrent v = true) (AppSnapshot.versions snapshot)) in
  Cards.mk (status_card snapshot (VersionSummary.savedAt <$> current))
    (match conflict, other with
     | Some conflict, Some other => Some (ConflictSummary.id conflict, VersionSummary.id other)
     | _, _ => None
     end)
    (AppSnapshot.vault snapshot ≫= VaultSummary.kdbxPath)
    (bool_decide (AppSnapshot.pairedDevices snapshot = [])
     && match AppSnapshot.state snapshot with needs_setup => false | _ => true end)
    (AppSnapshot.verification snapshot).

(** The row of a device: its presence, and its buttons. *)
Definition presence (now : Z) (device : PairedDeviceSummary.t) : string :=
  let lastSynced :=
    match PairedDeviceSummary.lastSeenAt device with
    | None => "never synced"
    | Some time => "last synced " +:+ whenever now time
    end in
  if decide (PairedDeviceSummary.trust device = revoked) then "Disconnected — not syncing. You can reconnect it."
  else if PairedDeviceSummary.online device then "Online · " +:+ lastSynced
  else "Offline · " +:+ lastSynced +:+ ". It will sync next time you are both online.".

Inductive DeviceButtons : Type :=
  | ConfirmForget
  | ReconnectOrForget
  | SyncOrDisconnect (label : string) (enabled : bool).

Definition device_buttons (confirming : bool) (device : PairedDeviceSummary.t) : DeviceButtons :=
  if confirming then ConfirmForget
  else if decide (PairedDeviceSummary.trust device = revoked) then ReconnectOrForget
  else SyncOrDisconnect (if PairedDeviceSummary.online device then "Sync now" else "Wait for it")
         (PairedDeviceSummary.canReconnect device).

(** ** The connection server *)

Module ConnectionForm.
(** What is typed. *)
Record t : Type := mk {
  host : string;
  url : string;
  username : string;
  credential : string;
}.

(** The form as the settings fill it. *)
Definition of_settings (s : ConnectionSettings.t) : t :=
  mk (ConnectionSettings.serverHost s) (default EmptyString (ConnectionSettings.turnUrl s))
    (default EmptyString (ConnectionSettings.turnUsername s)) (default EmptyString (ConnectionSettings.turnCredential s)).

Definition set_host x (f : t) : t := mk x (url f) (username f) (credential f).

(** Leaving the field of the host. *)
Definition blur (f : t) : t := set_host (tidyHost (host f)) f.

Definition changed (f : t) (settings : ConnectionSettings.t) : bool :=
  negb (bool_decide (trim (host f) = ConnectionSettings.serverHost settings))
  || negb (bool_decide (trim (url f) = default EmptyString (ConnectionSettings.turnUrl settings)))
  || negb (bool_decide (trim (username f) = default EmptyString (ConnectionSettings.turnUsername settings)))
  || negb (bool_decide (credential f = default EmptyString (ConnectionSettings.turnCredential settings))).

(** What [save] gives to [saveConnectionSettings]. *)
Definition to_save (f : t) : ConnectionSettings.t :=
  if decide (trim (url f) = EmptyString) then ConnectionSettings.mk (trim (host f)) None None None
  else ConnectionSettings.mk (trim (host f)) (Some (trim (url f))) (Some (trim (username f))) (Some (credential f)).
End ConnectionForm.
