(* ===== verification/WindowProps.v ===== *)
(** * The window: properties *)

From S2P Require Import Prelude Model JsString Json JsMap Effects Identity ShortCode Settings Rooms VaultFile Explain.
From S2P Require Import Services Hub Offer Calls Snapshot Bridge BridgeProps Store StoreTheory StoreProps BlobStore.
From S2P Require Import Dag DagTheory Engine EngineTheory EngineSteps EngineProps Session.
From S2P Require Import Desk ServicesTheory ServicesFile SnapshotProps Window.

Open Scope Z_scope.

Implicit Types (a : App.t) (p : string) (event : UiEvent).

(** ** Who is there *)

Lemma runSync_ready p a : App.readyPeers (runSync p a) = App.readyPeers a.
Proof. unfold runSync. by destruct (App.syncing a). Qed.

Lemma hears_ready call a p :
  bool_decide (p ∈ App.readyPeers (hears_bridge call a)) = tells the_window p (bool_decide (p ∈ App.readyPeers a)) call.
Proof.
  destruct call; try done; unfold tells; simpl.
  - rewrite runSync_ready. simpl. case_decide as Hp.
    + apply bool_decide_eq_true, elem_of_set_add. by right.
    + apply bool_decide_ext. rewrite elem_of_set_add. naive_solver.
  - case_decide as Hp.
    + apply bool_decide_eq_false. rewrite elem_of_set_delete. naive_solver.
    + apply bool_decide_ext. rewrite elem_of_set_delete. naive_solver.
Qed.

(** The window knows who is there.  Whatever happens to sockets, connections
    and channels, the peers that the window takes to be ready, from all that the
    bridge told it in order, are those whose two channels opened and that were
    not torn down since. *)
Theorem window_knows_peers (url_host : string → option string) (opens : string → bool) (has_window : bool)
    (localPeerId : string) (events : list BridgeEvent) (b : Bridge.t)
    (Hb : bridged url_host opens has_window localPeerId events b) a (Ha : App.readyPeers a = []) :
  ∀ p, p ∈ App.readyPeers (foldl (λ a call, hears_bridge call a) a (Bridge.calls b)) ↔ p ∈ Bridge.ready b.
Proof.
  intros p. destruct (bridged_present _ _ _ _ _ _ Hb) as [_ Hp]. specialize (Hp the_window p).
  assert (∀ calls a, bool_decide (p ∈ App.readyPeers (foldl (λ a call, hears_bridge call a) a calls)) =
    present the_window p (bool_decide (p ∈ App.readyPeers a)) calls) as Hall.
  { intros calls. induction calls as [|call calls IH]; intros a'; [done|]. simpl. by rewrite IH, hears_ready. }
  specialize (Hall (Bridge.calls b) a). rewrite Ha, (bool_decide_false (p ∈ [])), Hp in Hall by apply not_elem_of_nil.
  rewrite <-(bool_decide_eq_true (p ∈ App.readyPeers _)), Hall. apply bool_decide_eq_true.
Qed.

(** ** Sessions *)

(** The sessions that the window asked for. *)
Definition sessions a : list (string * bool) :=
  omap (λ call, match call with runSession peerId mode => Some (peerId, mode) | _ => None end) (App.calls a).

(** An event that may begin a session. *)
Definition begins event : bool :=
  match event with HearsBridge (onPeer _) | SuggestsSync => true | _ => false end.

Lemma awaits_sessions call task a :
  sessions (awaits call task a) =
    sessions a ++ match call with runSession peerId mode => [(peerId, mode)] | _ => [] end.
Proof. unfold sessions, awaits. simpl. rewrite omap_app. by destruct call. Qed.

Lemma drawn_sessions a : sessions (drawn a) = sessions a.
Proof.
  unfold drawn. destruct (App.snapshot _) as [snapshot|]; [|done].
  case_decide; [by case_decide|]. destruct (App.rejoined _); [done|]. rewrite awaits_sessions. apply app_nil_r.
Qed.

Lemma ended_sessions outcome a : sessions (sync_ended outcome a) = sessions a.
Proof.
  unfold sync_ended, refresh. rewrite awaits_sessions, app_nil_r. by destruct outcome as [[]|].
Qed.

Lemma task_sessions result a : sessions (task_is result a) = sessions a.
Proof.
  destruct result as [snapshot|servers|outcome|[[where_ name]|]|[code|e]|[accepted|e]| |[where_|e]]; simpl; try done;
    try apply ended_sessions; unfold sessions; simpl;
    rewrite omap_app; simpl; by rewrite app_nil_r.
Qed.

Lemma quiet_sessions event a : begins event = false → sessions (ui_event event a) = sessions a.
Proof.
  destruct event as [call|snapshot| | | |code| | |device|tab| | |i result]; try done; intros Hb; simpl.
  - by destruct call.
  - apply drawn_sessions.
  - unfold startPairing. by rewrite awaits_sessions, app_nil_r.
  - unfold acceptPairing. by rewrite awaits_sessions, app_nil_r.
  - unfold acceptPairing. by rewrite awaits_sessions, app_nil_r.
  - unfold syncWith. by rewrite awaits_sessions, app_nil_r.
  - unfold pressBack. by case_decide.
  - by rewrite task_sessions.
Qed.

Lemma quiet_run events a : Forall (λ event, begins event = false) events →
  sessions (foldl (λ a event, ui_event event a) a events) = sessions a.
Proof.
  intros He. revert a. induction He as [|event events Hq _ IH]; intros a; [done|]. simpl.
  by rewrite IH, quiet_sessions.
Qed.

(** The flag says whether a session is awaited, and there is one at most. *)
Definition syncing_tasks a : nat := length (filter (λ task, task = Syncing) (App.tasks a)).
Definition single a : Prop := syncing_tasks a = if App.syncing a then 1%nat else 0%nat.

Lemma awaits_single call task a : task ≠ Syncing → single a → single (awaits call task a).
Proof.
  unfold single, syncing_tasks. intros Ht. simpl. rewrite filter_app, filter_cons. rewrite decide_False by done.
  by rewrite app_nil_r.
Qed.

Lemma runSync_single p a : single a → single (runSync p a).
Proof.
  unfold runSync, single, syncing_tasks. destruct (App.syncing a) eqn:Hs; simpl; rewrite ?Hs; [done|].
  intros H0. rewrite filter_app, length_app, H0. done.
Qed.

Lemma delete_filter (l : list UiTask) (i : nat) task : l !! i = Some task →
  length (filter (λ t, t = Syncing) l) =
    ((if decide (task = Syncing) then 1 else 0) + length (filter (λ t, t = Syncing) (delete i l)))%nat.
Proof.
  intros Hi. rewrite delete_take_drop. rewrite <-(take_drop_middle l i task Hi) at 1.
  rewrite !filter_app, !length_app, filter_cons. case_decide; simpl; lia.
Qed.

Lemma task_single result a : (∀ outcome, result ≠ SyncEnded outcome) → single a → single (task_is result a).
Proof.
  intros Hr Ha. destruct result as [snapshot|servers|outcome|[[where_ name]|]|[code|e]|[accepted|e]| |[where_|e]]; try done.
  by destruct (Hr outcome).
Qed.

Lemma event_single event a : ui_can a event → single a → single (ui_event event a).
Proof.
  intros Hcan Ha. destruct event as [call|snapshot| | | |code| | |device|tab| | |i result]; try done; simpl.
  - destruct call; try done. by apply runSync_single.
  - unfold sync_suggested. destruct (App.readyPeers a); [done|]. by apply runSync_single.
  - unfold drawn. destruct (App.snapshot _); [|done]. case_decide; [by case_decide|].
    destruct (App.rejoined _); [done|]. by apply awaits_single.
  - by apply awaits_single.
  - by apply awaits_single.
  - by apply awaits_single.
  - by apply awaits_single.
  - unfold pressBack. by case_decide.
  - simpl in Hcan. destruct (App.tasks a !! i) as [task|] eqn:Hi; [|done].
    pose proof (delete_filter (App.tasks a) i task Hi) as Hlen. unfold single, syncing_tasks in Ha.
    destruct (decide (task = Syncing)) as [->|Hne].
    + destruct result as [| |outcome| | | | |]; try done. simpl.
      assert (App.syncing a = true) as Hs by (destruct (App.syncing a); [done|lia]).
      assert (length (filter (λ t, t = Syncing) (delete i (App.tasks a))) = 0)%nat as H0 by (rewrite Hs in Ha; lia).
      unfold sync_ended. apply awaits_single; [done|]. unfold single, syncing_tasks.
      by destruct outcome as [[]|]; simpl; rewrite H0.
    + apply task_single; [by intros outcome ->; destruct task|]. unfold single, syncing_tasks. simpl. lia.
Qed.

Lemma shown_single events a : shown events a → single a.
Proof. induction 1 as [|events event a _ IH Hcan]; [done|by apply event_single]. Qed.

(** What comes while a session runs is dropped.  A window that runs a session
    runs no other one; a device that becomes ready meanwhile, and a save that is
    to be sent meanwhile, are not kept: when the session ended, however it ended,
    no session follows, whatever happens, until another device becomes ready or
    another save is made. *)
Theorem sync_asked_while_syncing_is_dropped (events : list UiEvent) a (Ha : shown events a) (i : nat)
    (Hi : App.tasks a !! i = Some Syncing) event (He : begins event = true) (outcome : SyncOutcome + option string)
    (more : list UiEvent) (Hmore : Forall (λ event, begins event = false) more) :
  let asked := ui_event event a in
  let ended := ui_event (TaskIs i (SyncEnded outcome)) asked in
  ui_can asked (TaskIs i (SyncEnded outcome)) ∧
  App.syncing ended = false ∧
  (∀ p, event = HearsBridge (onPeer p) → p ∈ App.readyPeers ended) ∧
  sessions (foldl (λ a event, ui_event event a) ended more) = sessions a.
Proof.
  intros asked ended. pose proof (shown_single events a Ha) as Hs.
  assert (App.syncing a = true) as Hsync.
  { unfold single, syncing_tasks in Hs. pose proof (delete_filter _ _ _ Hi) as Hlen. rewrite decide_True in Hlen by done.
    destruct (App.syncing a); [done|lia]. }
  assert (App.tasks asked = App.tasks a ∧ sessions asked = sessions a) as [Etasks Esess].
  { subst asked. destruct event as [call| | | | | | | | | | | |]; try done; simpl.
    - destruct call; try done. simpl. unfold runSync. simpl. by rewrite Hsync.
    - unfold sync_suggested. destruct (App.readyPeers a); [done|]. unfold runSync. by rewrite Hsync. }
  split_and!.
  - simpl. by rewrite Etasks, Hi.
  - done.
  - intros p ->. subst ended asked. simpl. unfold runSync. simpl. rewrite Hsync. simpl.
    destruct outcome as [[]|]; simpl; apply elem_of_set_add; by right.
  - rewrite quiet_run by done. subst ended. simpl. rewrite ended_sessions. exact Esess.
Qed.

(** ** Pairing *)

(** A code came, of this device or of another. *)
Definition code_came event : bool :=
  match event with TaskIs _ (CodeIs (inl _)) | TaskIs _ (PairingRead (inl _)) => true | _ => false end.

Definition unpaired a : Prop := App.pairingMode a = false ∧ App.pairingModeRef a = false.

Definition pairings a : list (string * bool) := filter (λ s, s.2 = true) (sessions a).

Lemma runSync_unpaired p a : unpaired a → unpaired (runSync p a) ∧ pairings (runSync p a) = pairings a.
Proof.
  intros [Hm Hr]. unfold runSync, pairings. destruct (App.syncing a); [done|]. split; [done|].
  rewrite awaits_sessions, filter_app, Hr. simpl. apply app_nil_r.
Qed.

Lemma event_unpaired event a : code_came event = false → unpaired a →
  unpaired (ui_event event a) ∧ pairings (ui_event event a) = pairings a.
Proof.
  intros Hc Ha. destruct (begins event) eqn:Hb.
  - destruct event as [call| | | | | | | | | | | |]; try done; simpl.
    + destruct call; try done. by apply (runSync_unpaired peerId (App.set_readyPeers _ a)).
    + unfold sync_suggested. destruct (App.readyPeers a); [done|]. by apply runSync_unpaired.
  - unfold pairings. rewrite quiet_sessions by done. split; [|done]. destruct Ha as [Hm Hr].
    destruct event as [call|snapshot| | | |code| | |device|tab| | |i result]; try done; simpl.
    + by destruct call.
    + unfold drawn. simpl. rewrite Hm. destruct (App.snapshot a); [|done].
      case_decide; [by case_decide|]. by destruct (App.rejoined a).
    + unfold pressBack. by case_decide.
    + destruct result as [| |[[]|]|[[]|]|[]|[]| |[]]; done.
Qed.

(** A window pairs only when it was asked to.  After a session has ended and
    the window was drawn, every session, with whatever device and whatever began
    it, is run without pairing, until a person asks for a code or accepts one
    again. *)
Theorem pairing_ends (events : list UiEvent) a (Ha : shown events a) (i : nat) (outcome : SyncOutcome)
    (Hi : App.tasks a !! i = Some Syncing) (more : list UiEvent)
    (Hmore : Forall (λ event, code_came event = false) more) :
  let ended := ui_event Draws (ui_event (TaskIs i (SyncEnded (inl outcome))) a) in
  pairings (foldl (λ a event, ui_event event a) ended more) = pairings a.
Proof.
  intros ended.
  assert (unpaired ended ∧ pairings ended = pairings a) as [Hu Hp].
  { subst ended. unfold pairings. simpl. rewrite drawn_sessions, ended_sessions. split; [|done].
    unfold drawn. by destruct outcome as [? ? ? ?|?]; simpl; repeat case_match. }
  rewrite <-Hp. clear Hp Hi Ha. revert Hu. generalize ended. clear ended.
  induction Hmore as [|event more Hc _ IH]; intros a' Hu; [done|]. simpl.
  destruct (event_unpaired event a' Hc Hu) as [Hu' <-]. by apply IH.
Qed.

(** ** Texts *)

Lemma rounded_close n d : 0 < d → 2 * d * rounded n d - d <= 2 * n < 2 * d * rounded n d + d.
Proof.
  intros Hd. unfold rounded. pose proof (Z.div_mod (2 * n + d) (2 * d)) as Hq.
  pose proof (Z.mod_pos_bound (2 * n + d) (2 * d)) as Hm. nia.
Qed.

(** What the window says of a time is close to how long ago it is: to half a
    minute while it speaks of minutes, to half an hour and half a minute while it
    speaks of hours, to half a day and a little more of days; it never says 60
    minutes or 24 hours, and a time to come is now. *)
Lemma whenever_close (now time : Z) :
  let seconds := Z.max 0 (rounded (now - time) 1000) in
  (whenever now time = "just now" ∧ seconds < 45) ∨
  (∃ n, whenever now time = number n +:+ " minute" +:+ plural n +:+ " ago" ∧ 1 <= n <= 59 ∧
     Z.abs (60 * n - seconds) <= 30) ∨
  (∃ n, whenever now time = number n +:+ " hour" +:+ plural n +:+ " ago" ∧ 1 <= n <= 23 ∧
     Z.abs (3600 * n - seconds) <= 1830) ∨
  (∃ n, whenever now time = (if n =? 1 then "yesterday" else number n +:+ " days ago") ∧ 1 <= n ∧
     Z.abs (86400 * n - seconds) <= 45030).
Proof.
  cbv zeta. unfold whenever. set (seconds := Z.max 0 _).
  pose proof (rounded_close seconds 60 ltac:(lia)) as Hm. pose proof (rounded_close (rounded seconds 60) 60 ltac:(lia)) as Hh.
  pose proof (rounded_close (rounded (rounded seconds 60) 60) 24 ltac:(lia)) as Hd.
  destruct (seconds <? 45) eqn:E1; [left; split; [done|lia]|]. right.
  destruct (rounded seconds 60 <? 60) eqn:E2; [left; eexists; split; [reflexivity|lia]|]. right.
  destruct (rounded (rounded seconds 60) 60 <? 24) eqn:E3; [left; eexists; split; [reflexivity|lia]|]. right.
  eexists. split; [reflexivity|lia].
Qed.

(** ** The form of the connection server *)

(** A relay that is typed without its address is not saved, and the button stays. *)
Lemma half_relay_never_saved :
  let settings := ConnectionSettings.mk "sync.example.org" None None None in
  let typed := ConnectionForm.mk "sync.example.org" "" "someone" "" in
  SettingsStore.checked (ConnectionForm.to_save typed) = Ok settings ∧ ConnectionForm.changed typed settings = true.
Proof. split; vm_compute; reflexivity. Qed.

(** The message of an error that came over IPC. *)
Lemma readable_tail :
  readableError (Some "Error invoking remote method 'vault:choose': Error: That is not a vault.") "?" = "That is not a vault." ∧
  readableError (Some "Error: ") "It failed." = "It failed." ∧ readableError None "It failed." = "It failed.".
Proof. by vm_compute. Qed.

(** ** The cards *)

(** With a conflict open and no version left that can be combined with the
    current one, the window says to combine them below, and shows nothing below. *)
Lemma conflict_without_card (snapshot : AppSnapshot.t) : AppSnapshot.state snapshot = in_conflict →
  Forall (λ v, VersionSummary.canCombine v = false) (AppSnapshot.versions snapshot) →
  Cards.status (cards snapshot) = BothDevicesChanged ∧ Cards.conflict (cards snapshot) = None.
Proof.
  intros Hs Hv. unfold cards. cbv zeta. cbn [Cards.status Cards.conflict]. unfold status_card. rewrite Hs. split; [done|].
  assert (filter (λ v, VersionSummary.canCombine v = true) (AppSnapshot.versions snapshot) = []) as ->.
  { apply elem_of_nil_inv. intros v [Hc Hin]%list_elem_of_filter. rewrite Forall_forall in Hv.
    by rewrite Hv in Hc. }
  by destruct (head _).
Qed.

(** ** Evaluated *)

Definition with_phone : App.t := ui_event (HearsBridge (onPeer "phone")) opened.

Lemma with_phone_shown : shown [HearsBridge (onPeer "phone")] with_phone.
Proof. apply (shown_more []); [constructor|done]. Qed.

Lemma window_knows_peers_witness :
  "phone" ∈ App.readyPeers (foldl (λ a call, hears_bridge call a) opened
    (Bridge.calls (bridge_run comes_back))).
Proof.
  refine (proj2 (window_knows_peers no_host any_url true "laptop" comes_back (bridge_run comes_back) back_bridged
    opened eq_refl "phone") _).
  refine (bool_decide_eq_true_1 _ _). vm_compute. reflexivity.
Defined.

Lemma sync_asked_while_syncing_is_dropped_witness :
  sessions (foldl (λ a event, ui_event event a)
    (ui_event (TaskIs 2 (SyncEnded (inl (sync_failed "gone")))) (ui_event (HearsBridge (onPeer "tablet")) with_phone))
    [Draws]) = sessions with_phone ∧ sessions with_phone = [("phone", false)].
Proof.
  destruct (sync_asked_while_syncing_is_dropped [HearsBridge (onPeer "phone")] with_phone with_phone_shown 2 eq_refl
    (HearsBridge (onPeer "tablet")) eq_refl (inl (sync_failed "gone")) [Draws]
    (Forall_cons_2 (λ event, begins event = false) Draws [] eq_refl (Forall_nil_2 _))) as (_ & _ & _ & Hdropped).
  split; [exact Hdropped|reflexivity].
Defined.

Lemma pairing_ends_witness :
  pairings (foldl (λ a event, ui_event event a)
    (ui_event Draws (ui_event (TaskIs 2 (SyncEnded (inl (sync_failed "gone")))) with_phone))
    [HearsBridge (onPeer "tablet")]) = pairings with_phone ∧ pairings with_phone = [].
Proof.
  split; [|reflexivity].
  exact (pairing_ends [HearsBridge (onPeer "phone")] with_phone with_phone_shown 2 (sync_failed "gone") eq_refl
    [HearsBridge (onPeer "tablet")] (Forall_cons_2 (λ event, code_came event = false) (HearsBridge (onPeer "tablet")) [] eq_refl (Forall_nil_2 _))).
Defined.

(** ** On a desk *)

#[local] Existing Instance insertion_order.
#[local] Existing Instance first_bytes.
#[local] Existing Instance desk_blobs.
#[local] Instance window_files : VaultFileAccess DiskFiles.t := desk_files false.

(** What the window is shown, and its cards. *)
Definition desk_cards (s : Services.t (FS.t * nat) DiskFiles.t) : option Cards.t :=
  match (snapshot Desk.own "desktop" "localhost:8787" s).1 with Ok snapshot => Some (cards snapshot) | Err _ => None end.

(** A person who restores the version that both changed is told to combine the
    changes below, and there is nothing below; before, there was. *)
Lemma restored_ancestor_hides_conflict :
  (∃ c, desk_cards desk_forked = Some c ∧ Cards.status c = BothDevicesChanged ∧ is_Some (Cards.conflict c)) ∧
  (∃ c, desk_cards (desk_step false desk_forked (Promotes "aa")) = Some c ∧ Cards.status c = BothDevicesChanged ∧
     Cards.conflict c = None).
Proof.
  split.
  - eexists. split; [vm_compute; reflexivity|]. split; [reflexivity|by eexists].
  - eexists. split; [vm_compute; reflexivity|]. split; reflexivity.
Qed.
