(* ===== verification/Shell.v ===== *)
(** * The two applications

    What the window can ask of the application (packages/services/src/api.ts)
    and how it is answered: on the desktop by the main process, through the
    bridge of the preload script and named channels
    (apps/desktop/src/preload/index.ts, main/index.ts), on a phone in the same
    process (apps/mobile/src/api.ts, main.tsx).  Then both processes: how they
    start, what they tell the window, and what becomes of it.  Dialogues, the
    window and the text of an error that crosses a channel are the system's. *)

From S2P Require Import Prelude Model Bytes JsString Json Effects Codec Store BlobStore Engine Identity JsMap.
From S2P Require Import Settings Hub VaultFile Kdbx Services ServicesTheory Offer Calls Snapshot.

Open Scope Z_scope.

(** ** What can be asked *)

Module VaultApi.
Inductive t : Type :=
  | runSession (peerId : string) (pairingMode : bool)
  | getSnapshot
  | chooseVault
  | stopTrackingVault
  | saveVaultAs
  | restoreVersion (versionId : RevisionId)
  | applyPendingUpdate
  | connectionSettings
  | saveConnectionSettings (next : ConnectionSettings.t)
  | testConnectionServer (host : string)
  | iceServers
  | createPairingCode
  | readPairingCode (code : string)
  | shortAuthenticationString (peerPublicKeyBase64 : string)
  | answerVerification (confirmed : bool)
  | disconnectDevice (deviceId : DeviceId)
  | reconnectDevice (deviceId : DeviceId)
  | forgetDevice (deviceId : DeviceId)
  | rendezvousFor (deviceId : DeviceId)
  | standingRendezvous
  | previewMerge (baseRevisionId : RevisionId) (incomingRevisionIds : list RevisionId) (password : string)
  | merge (baseRevisionId : RevisionId) (incomingRevisionIds : list RevisionId) (password : string)
  | combineAndUse (otherVersionId : RevisionId) (password : string)
  | resolveConflict (conflictId : ConflictId) (decision : Decision3).
End VaultApi.

(** What the bridge tells the services ([PeerTransportHost]). *)
Module HostCall.
Inductive t : Type :=
  | peerInbound (frame : PeerFrame.t)
  | peerBuffered (peerId : string) (bytes : Z)
  | peerOpen (peerId : string)
  | peerClosed (peerId : string).
End HostCall.

Module NamedRendezvous.
Record t : Type := mk {
  where_ : Rendezvous.t;
  peerName : string;
}.
End NamedRendezvous.

(** A session that was started ends later, with a [SyncOutcome]. *)
Inductive Answer : Type :=
  | Nothing
  | ASnapshot (snapshot : AppSnapshot.t)
  | AWriteBack (outcome : WriteBackOutcome)
  | ASettings (settings : ConnectionSettings.t)
  | ATest (ok : bool) (detail : string)
  | AServers (servers : list IceServer.t)
  | ACode (code : PairingCode.t)
  | AAccepted (accepted : AcceptedPairing.t + string)
  | ADigits (digits : string)
  | ARendezvous (where_ : NamedRendezvous.t + string)
  | AStanding (where_ : option NamedRendezvous.t)
  | ASession (session : SessionInput.t + SyncOutcome)
  | APreview (preview : DiffSummary.t + string)
  | AMerge (outcome : MergeOutcomeSummary).

(** What crosses a channel. *)
Inductive Argument : Type :=
  | NoArgument
  | TextArgument (text : string)
  | FlagArgument (flag : bool)
  | SettingsArgument (next : ConnectionSettings.t)
  | RunArgument (peerId : string) (pairingMode : bool)
  | MergeArgument (baseRevisionId : RevisionId) (incomingRevisionIds : list RevisionId) (password : string)
  | CombineArgument (otherVersionId : RevisionId) (password : string)
  | ResolveArgument (conflictId : ConflictId) (decision : Decision3)
  | FrameArgument (frame : PeerFrame.t)
  | BufferedArgument (peerId : string) (bytes : Z).

Inductive Ipc : Type :=
  | invoke (channel : string) (argument : Argument)
  | send (channel : string) (argument : Argument).

(** ** The bridge of the preload script *)

Definition preload (call : VaultApi.t) : Ipc :=
  match call with
  | VaultApi.getSnapshot => invoke "snapshot:get" NoArgument
  | VaultApi.chooseVault => invoke "vault:choose" NoArgument
  | VaultApi.stopTrackingVault => invoke "vault:stopTracking" NoArgument
  | VaultApi.saveVaultAs => invoke "vault:saveAs" NoArgument
  | VaultApi.restoreVersion versionId => invoke "version:restore" (TextArgument versionId)
  | VaultApi.applyPendingUpdate => invoke "vault:applyPending" NoArgument
  | VaultApi.connectionSettings => invoke "settings:get" NoArgument
  | VaultApi.saveConnectionSettings next => invoke "settings:save" (SettingsArgument next)
  | VaultApi.testConnectionServer host => invoke "settings:test" (TextArgument host)
  | VaultApi.iceServers => invoke "settings:ice" NoArgument
  | VaultApi.createPairingCode => invoke "pairing:create" NoArgument
  | VaultApi.readPairingCode code => invoke "pairing:read" (TextArgument code)
  | VaultApi.shortAuthenticationString key => invoke "pairing:sas" (TextArgument key)
  | VaultApi.answerVerification confirmed => send "pairing:answer" (FlagArgument confirmed)
  | VaultApi.disconnectDevice deviceId => invoke "device:disconnect" (TextArgument deviceId)
  | VaultApi.reconnectDevice deviceId => invoke "device:reconnect" (TextArgument deviceId)
  | VaultApi.forgetDevice deviceId => invoke "device:forget" (TextArgument deviceId)
  | VaultApi.rendezvousFor deviceId => invoke "rendezvous:for" (TextArgument deviceId)
  | VaultApi.standingRendezvous => invoke "rendezvous:standing" NoArgument
  | VaultApi.runSession peerId pairingMode => invoke "session:run" (RunArgument peerId pairingMode)
  | VaultApi.previewMerge base incoming password => invoke "merge:preview" (MergeArgument base incoming password)
  | VaultApi.merge base incoming password => invoke "merge:run" (MergeArgument base incoming password)
  | VaultApi.combineAndUse other password => invoke "merge:combineAndUse" (CombineArgument other password)
  | VaultApi.resolveConflict conflictId decision => invoke "conflict:resolve" (ResolveArgument conflictId decision)
  end.

Definition preload_host (call : HostCall.t) : Ipc :=
  match call with
  | HostCall.peerInbound frame => send "peer:inbound" (FrameArgument frame)
  | HostCall.peerBuffered peerId bytes => send "peer:buffered" (BufferedArgument peerId bytes)
  | HostCall.peerOpen peerId => send "peer:open" (TextArgument peerId)
  | HostCall.peerClosed peerId => send "peer:closed" (TextArgument peerId)
  end.

(** ** Dialogues *)

Module OpenDialog.
Record t : Type := mk {
  canceled : bool;
  filePaths : list string;
}.
End OpenDialog.

Module SaveDialog.
Record t : Type := mk {
  canceled : bool;
  filePath : option string;
}.
End SaveDialog.

(** The picker of a phone (apps/mobile/src/platform/native.ts). *)
Inductive PickedVault : Type :=
  | cancelled
  | picked_vault (uri name : string).

Section apps.
Context `{WebUrl, RowOrder, Digest} {B : Type} `{!BlobStore B} {F : Type} `{!VaultFileAccess F}.
Context {N : Type} `{!Network N}.
Context (engine_clock : nat → Date) (vaultIds revisionIds : nat → string).
Context (clock : nat → Date) (localeTime : Date → string) (conflictIds : nat → string).
Context (interpreter_merge : InterpretationRequest.t KdbxCredentialSet.t → InterpretationResult).
Context (interpreter_diff : InterpretationRequest.t KdbxCredentialSet.t → DiffResult).
Context (keyPair : DeviceKeyPair.t) (deviceName : string) (atRestUnprotected : bool).
Context (defaultServerHost : string).

(** The services of a process and its network; on the desktop they may not be
    made yet. *)
Abbreviation Run := (M (Services.t B F * N)).
Abbreviation Main := (M (option (Services.t B F) * N)).

Definition taking_snapshot : Run Answer :=
  on_services (snapshot keyPair deviceName defaultServerHost) ≫= λ snapshot, mret (ASnapshot snapshot).

(** [where] with the name of the device that is met there. *)
Definition meeting_place (deviceId : DeviceId) : Run Answer :=
  on_services (rendezvousFor deviceId) ≫= λ where_,
  match where_ with
  | None => mret (ARendezvous (inr "This device was paired before reconnect was supported. Pair it again."))
  | Some where_ =>
      on_services (snapshot keyPair deviceName defaultServerHost) ≫= λ snapshot,
      let peer := find (λ d, bool_decide (PairedDeviceSummary.deviceId d = deviceId))
                    (AppSnapshot.pairedDevices snapshot) in
      mret (ARendezvous (inl (NamedRendezvous.mk where_
        (default "the paired device" (PairedDeviceSummary.name <$> peer)))))
  end.

Definition standing_place : Run Answer :=
  on_services standingRendezvous ≫= λ standing,
  mret (AStanding ((λ '(_, name, where_), NamedRendezvous.mk where_ name) <$> standing)).

(** ** The main process of the desktop *)

Definition requireServices {A} (m : Run A) : Main A := λ s,
  match s.1 with
  | None => (Err "The application is still starting.", s)
  | Some services => let '(r, (services, network)) := m (services, s.2) in (r, (Some services, network))
  end.

Definition text_of (argument : Argument) : string :=
  match argument with TextArgument text => text | _ => EmptyString end.

Definition then_snapshot (m : Run unit) : Main Answer :=
  requireServices m ≫= λ _, requireServices taking_snapshot.

Definition choose_vault (result : OpenDialog.t) : Main Answer :=
  (match OpenDialog.filePaths result with
   | path :: _ =>
       if OpenDialog.canceled result then mret tt
       else requireServices (on_services
              (bindVault engine_clock vaultIds revisionIds clock localeTime keyPair path None))
   | [] => mret tt
   end) ≫= λ _,
  requireServices taking_snapshot.

Definition save_vault_as (result : SaveDialog.t) : Main Answer :=
  match SaveDialog.canceled result, SaveDialog.filePath result with
  | false, Some path =>
      requireServices (on_services (saveVaultAs clock localeTime path) ≫= λ outcome, mret (AWriteBack outcome))
  | _, _ => mret (AWriteBack (write_failed "Cancelled."))
  end.

(** [ipcMain.handle]: the handlers by the name of their channel, for what a
    dialogue would return. *)
Definition handlers (open : OpenDialog.t) (save : SaveDialog.t) : list (string * (Argument → Main Answer)) :=
  [("snapshot:get", λ _, requireServices taking_snapshot);
   ("vault:choose", λ _, choose_vault open);
   ("vault:saveAs", λ _, save_vault_as save);
   ("vault:stopTracking", λ _, then_snapshot (on_services (stopTrackingVault clock localeTime)));
   ("vault:applyPending", λ _, requireServices
      (on_services (applyPendingUpdate clock localeTime) ≫= λ outcome, mret (AWriteBack outcome)));
   ("version:restore", λ versionId, then_snapshot (on_services
      (promote_version engine_clock clock localeTime (text_of versionId))));
   ("settings:get", λ _, requireServices
      (on_services (connectionSettings defaultServerHost) ≫= λ settings, mret (ASettings settings)));
   ("settings:save", λ next, match next with
      | SettingsArgument next => requireServices
          (on_services (saveConnectionSettings clock localeTime next) ≫= λ saved, mret (ASettings saved))
      | _ => throw "Cannot read properties of undefined"
      end);
   ("settings:test", λ host, requireServices
      (testConnectionServer (text_of host) ≫= λ '(ok, detail), mret (ATest ok detail)));
   ("settings:ice", λ _, requireServices
      (on_services (iceServers defaultServerHost) ≫= λ servers, mret (AServers servers)));
   ("pairing:create", λ _, requireServices
      (createPairingCode clock localeTime keyPair deviceName defaultServerHost ≫= λ code, mret (ACode code)));
   ("pairing:read", λ code, requireServices
      (readPairingCode clock keyPair defaultServerHost (text_of code) ≫= λ accepted, mret (AAccepted accepted)));
   ("pairing:sas", λ key, requireServices
      (lift (fromBase64 (text_of key)) ≫= λ key, mret (ADigits (sasFor keyPair key))));
   ("device:disconnect", λ deviceId, then_snapshot (on_services
      (disconnectDevice clock localeTime (text_of deviceId))));
   ("device:reconnect", λ deviceId, then_snapshot (on_services
      (reconnectDevice clock localeTime (text_of deviceId))));
   ("device:forget", λ deviceId, then_snapshot (on_services
      (forgetDevice clock localeTime (text_of deviceId))));
   ("rendezvous:for", λ deviceId, requireServices (meeting_place (text_of deviceId)));
   ("rendezvous:standing", λ _, requireServices standing_place);
   ("session:run", λ input, match input with
      | RunArgument peerId pairingMode => requireServices
          (on_services (session_starts peerId pairingMode) ≫= λ session, mret (ASession session))
      | _ => throw "Cannot read properties of undefined"
      end);
   ("merge:preview", λ input, match input with
      | MergeArgument base incoming password => requireServices
          (on_services (previewMerge interpreter_diff base incoming password) ≫= λ preview,
           mret (APreview preview))
      | _ => throw "Cannot read properties of undefined"
      end);
   ("merge:run", λ input, match input with
      | MergeArgument base incoming password => requireServices
          (on_services (merge_versions engine_clock revisionIds clock localeTime interpreter_merge keyPair
             base incoming password) ≫= λ outcome, mret (AMerge outcome))
      | _ => throw "Cannot read properties of undefined"
      end);
   ("merge:combineAndUse", λ input, match input with
      | CombineArgument other password => requireServices
          (on_services (combineAndUse engine_clock revisionIds clock localeTime interpreter_merge keyPair
             other password) ≫= λ outcome, mret (AMerge outcome))
      | _ => throw "Cannot read properties of undefined"
      end);
   ("conflict:resolve", λ input, match input with
      | ResolveArgument conflictId decision => then_snapshot (on_services
          (resolveConflict engine_clock clock localeTime conflictId decision))
      | _ => throw "Cannot read properties of undefined"
      end)].

Definition on_peers (f : Hub.t → Hub.t) : Run unit :=
  on_services (modify (λ s, Services.set_peers (f (Services.peers s)) s)).

Definition peer_closed (peerId : string) : Run unit :=
  on_services (peerGone peerId) ≫= λ _, on_peers (Hub.closeLink peerId).

(** [ipcMain.on]: nothing is answered. *)
Definition listeners : list (string * (Argument → Main unit)) :=
  [("pairing:answer", λ confirmed, requireServices (on_services (answerVerification clock localeTime
      (match confirmed with FlagArgument true => true | _ => false end))));
   ("peer:inbound", λ frame, match frame with
      | FrameArgument frame => requireServices (on_peers (Hub.deliverInbound frame))
      | _ => throw "Cannot read properties of undefined"
      end);
   ("peer:buffered", λ buffered, match buffered with
      | BufferedArgument peerId bytes => requireServices (on_peers (Hub.reportBuffered peerId bytes))
      | _ => throw "Cannot read properties of undefined"
      end);
   ("peer:open", λ peerId, requireServices (on_services (peerOpened (text_of peerId))));
   ("peer:closed", λ peerId, requireServices (peer_closed (text_of peerId)))].

(** What a call of the window becomes.  Electron makes the text of an error
    that a handler threw, and of a channel without a handler ([None]). *)
Context (rejected : string → option string → string).

Definition desktop_ipc (open : OpenDialog.t) (save : SaveDialog.t) (ipc : Ipc) : Main Answer := λ s,
  match ipc with
  | invoke channel argument =>
      match map_get channel (handlers open save) with
      | Some handler =>
          match handler argument s with
          | (Ok answer, s) => (Ok answer, s)
          | (Err message, s) => (Err (rejected channel (Some message)), s)
          end
      | None => (Err (rejected channel None), s)
      end
  | send channel argument =>
      match map_get channel listeners with
      | Some listener => (Ok Nothing, (listener argument s).2)
      | None => (Ok Nothing, s)
      end
  end.

Definition desktop_api (open : OpenDialog.t) (save : SaveDialog.t) (call : VaultApi.t) : Main Answer :=
  desktop_ipc open save (preload call).

Definition desktop_host (call : HostCall.t) : Main Answer :=
  desktop_ipc (OpenDialog.mk true []) (SaveDialog.mk true None) (preload_host call).

(** ** The phone *)

Definition and_snapshot (m : Run unit) : Run Answer := m ≫= λ _, taking_snapshot.

(** What the picker is shown as the name of a new file. *)
Definition suggested_name (snapshot : AppSnapshot.t) : string :=
  default "Shared.kdbx" (VaultSummary.name <$> AppSnapshot.vault snapshot).

(** [createMobileApi]; [created] is what the picker of a new file gives for the
    suggested name. *)
Definition mobile_api (chosen : PickedVault) (created : string → PickedVault) (call : VaultApi.t) : Run Answer :=
  match call with
  | VaultApi.getSnapshot => taking_snapshot
  | VaultApi.chooseVault =>
      match chosen with
      | cancelled => taking_snapshot
      | picked_vault uri name => and_snapshot (on_services
          (bindVault engine_clock vaultIds revisionIds clock localeTime keyPair uri (Some name)))
      end
  | VaultApi.stopTrackingVault => and_snapshot (on_services (stopTrackingVault clock localeTime))
  | VaultApi.saveVaultAs =>
      on_services (snapshot keyPair deviceName defaultServerHost) ≫= λ snapshot,
      match created (suggested_name snapshot) with
      | cancelled => mret (AWriteBack (write_failed "Cancelled."))
      | picked_vault uri _ =>
          on_services (saveVaultAs clock localeTime uri) ≫= λ outcome, mret (AWriteBack outcome)
      end
  | VaultApi.restoreVersion versionId =>
      and_snapshot (on_services (promote_version engine_clock clock localeTime versionId))
  | VaultApi.applyPendingUpdate =>
      on_services (applyPendingUpdate clock localeTime) ≫= λ outcome, mret (AWriteBack outcome)
  | VaultApi.connectionSettings =>
      on_services (connectionSettings defaultServerHost) ≫= λ settings, mret (ASettings settings)
  | VaultApi.saveConnectionSettings next =>
      on_services (saveConnectionSettings clock localeTime next) ≫= λ saved, mret (ASettings saved)
  | VaultApi.testConnectionServer host =>
      testConnectionServer host ≫= λ '(ok, detail), mret (ATest ok detail)
  | VaultApi.iceServers =>
      on_services (iceServers defaultServerHost) ≫= λ servers, mret (AServers servers)
  | VaultApi.createPairingCode =>
      createPairingCode clock localeTime keyPair deviceName defaultServerHost ≫= λ code, mret (ACode code)
  | VaultApi.readPairingCode code =>
      readPairingCode clock keyPair defaultServerHost code ≫= λ accepted, mret (AAccepted accepted)
  | VaultApi.shortAuthenticationString key =>
      lift (fromBase64 key) ≫= λ key, mret (ADigits (sasFor keyPair key))
  | VaultApi.answerVerification confirmed =>
      on_services (answerVerification clock localeTime confirmed) ≫= λ _, mret Nothing
  | VaultApi.disconnectDevice deviceId => and_snapshot (on_services (disconnectDevice clock localeTime deviceId))
  | VaultApi.reconnectDevice deviceId => and_snapshot (on_services (reconnectDevice clock localeTime deviceId))
  | VaultApi.forgetDevice deviceId => and_snapshot (on_services (forgetDevice clock localeTime deviceId))
  | VaultApi.rendezvousFor deviceId => meeting_place deviceId
  | VaultApi.standingRendezvous => standing_place
  | VaultApi.runSession peerId pairingMode =>
      on_services (session_starts peerId pairingMode) ≫= λ session, mret (ASession session)
  | VaultApi.previewMerge base incoming password =>
      on_services (previewMerge interpreter_diff base incoming password) ≫= λ preview, mret (APreview preview)
  | VaultApi.merge base incoming password =>
      on_services (merge_versions engine_clock revisionIds clock localeTime interpreter_merge keyPair
        base incoming password) ≫= λ outcome, mret (AMerge outcome)
  | VaultApi.combineAndUse other password =>
      on_services (combineAndUse engine_clock revisionIds clock localeTime interpreter_merge keyPair
        other password) ≫= λ outcome, mret (AMerge outcome)
  | VaultApi.resolveConflict conflictId decision =>
      and_snapshot (on_services (resolveConflict engine_clock clock localeTime conflictId decision))
  end.

(** [host] of a phone. *)
Definition mobile_host (call : HostCall.t) : Run unit :=
  match call with
  | HostCall.peerInbound frame => on_peers (Hub.deliverInbound frame)
  | HostCall.peerBuffered peerId bytes => on_peers (Hub.reportBuffered peerId bytes)
  | HostCall.peerOpen peerId => on_services (peerOpened peerId)
  | HostCall.peerClosed peerId => peer_closed peerId
  end.
End apps.
