(* ===== verification/Processes.v ===== *)
(** * The processes

    apps/desktop/src/main/index.ts and apps/mobile/src/main.tsx: how a process
    starts, what it does when the services call it, what it tells the window,
    and what else happens to it, as events.  The services tell of changes in one
    list and emit frames in another, so the order between the two is not kept.
    [Workstation] is the main process with the page of its window: the page hears
    what was sent, and its calls cross the preload script.  Last the process of the signaling server, apps/signaling/src/main.ts. *)

From S2P Require Import Prelude Model Bytes JsString Json Effects Codec Store BlobStore Engine Identity JsMap.
From S2P Require Import Settings Hub VaultFile Kdbx Services ServicesTheory Offer Calls Snapshot Window Shell.

Open Scope Z_scope.

(** ** The main process *)

(** What is sent to the window. *)
Inductive ToWindow : Type :=
  | SendsSnapshot (snapshot : AppSnapshot.t)
  | SendsFrame (frame : PeerFrame.t)
  | SendsSuggestion.

Module Desktop.
(** [window] tells whether the window was destroyed; [pushes] are the calls of
    [pushSnapshot] that await a snapshot; [heard] and [heardFrames] count what
    the services, and their hub, called so far. *)
Record t (B F N : Type) : Type := mk {
  services : option (Services.t B F);
  network : N;
  registered : bool;
  window : option bool;
  pushes : nat;
  heard : nat;
  heardFrames : nat;
  sent : list ToWindow;
  errorBox : option (string * string);
  exited : option Z;
  quitting : bool;
}.
Arguments mk {_ _ _} _ _ _ _ _ _ _ _ _ _ _.
Arguments services {_ _ _} _.
Arguments network {_ _ _} _.
Arguments registered {_ _ _} _.
Arguments window {_ _ _} _.
Arguments pushes {_ _ _} _.
Arguments heard {_ _ _} _.
Arguments heardFrames {_ _ _} _.
Arguments sent {_ _ _} _.
Arguments errorBox {_ _ _} _.
Arguments exited {_ _ _} _.
Arguments quitting {_ _ _} _.

Section setters.
Context {B F N : Type}.
Implicit Types d : t B F N.

Definition new (network : N) : t B F N := mk None network false None 0 0 0 [] None None false.

Definition set_services x y d : t B F N := mk x y (registered d) (window d) (pushes d) (heard d) (heardFrames d)
  (sent d) (errorBox d) (exited d) (quitting d).
Definition set_registered x d : t B F N := mk (services d) (network d) x (window d) (pushes d) (heard d)
  (heardFrames d) (sent d) (errorBox d) (exited d) (quitting d).
Definition set_window x d : t B F N := mk (services d) (network d) (registered d) x (pushes d) (heard d)
  (heardFrames d) (sent d) (errorBox d) (exited d) (quitting d).
Definition set_pushes x d : t B F N := mk (services d) (network d) (registered d) (window d) x (heard d)
  (heardFrames d) (sent d) (errorBox d) (exited d) (quitting d).
Definition set_heard x y d : t B F N := mk (services d) (network d) (registered d) (window d) (pushes d) x y
  (sent d) (errorBox d) (exited d) (quitting d).
Definition set_sent x d : t B F N := mk (services d) (network d) (registered d) (window d) (pushes d) (heard d)
  (heardFrames d) x (errorBox d) (exited d) (quitting d).
Definition set_exited x y d : t B F N := mk (services d) (network d) (registered d) (window d) (pushes d)
  (heard d) (heardFrames d) (sent d) x y (quitting d).
Definition set_quitting x d : t B F N := mk (services d) (network d) (registered d) (window d) (pushes d)
  (heard d) (heardFrames d) (sent d) (errorBox d) (exited d) x.
End setters.
End Desktop.

Module Workstation.
(** The main process and its window: [app] is the page, once it has loaded;
    [told] counts what was sent to the window and heard or missed, [carried] the
    calls of the page that crossed the preload script, and [answers] is what the
    main process answered. *)
Record t (B F N : Type) : Type := mk {
  main : Desktop.t B F N;
  app : option App.t;
  told : nat;
  carried : nat;
  answers : list (VaultApi.t * result Answer);
}.
Arguments mk {_ _ _} _ _ _ _ _.
Arguments main {_ _ _} _.
Arguments app {_ _ _} _.
Arguments told {_ _ _} _.
Arguments carried {_ _ _} _.
Arguments answers {_ _ _} _.
End Workstation.

Definition emitToRenderer {B F N} (payload : ToWindow) (d : Desktop.t B F N) : Desktop.t B F N :=
  match Desktop.window d with
  | Some false => Desktop.set_sent (Desktop.sent d ++ [payload]) d
  | _ => d
  end.

(** [onSnapshotChanged], [onSyncSuggested] and [emitPeerFrame]. *)
Definition main_hears {B F N} (d : Desktop.t B F N) (notice : Notice) : Desktop.t B F N :=
  match notice with
  | SnapshotChanged => Desktop.set_pushes (S (Desktop.pushes d)) d
  | SyncSuggested => emitToRenderer SendsSuggestion d
  | Confirmed _ _ => d
  end.

Definition main_emits {B F N} (d : Desktop.t B F N) (call : Call) : Desktop.t B F N :=
  match call with Emits frame => emitToRenderer (SendsFrame frame) d | _ => d end.

(** What the services called since the last event. *)
Definition main_catches_up {B F N} (d : Desktop.t B F N) : Desktop.t B F N :=
  match Desktop.services d with
  | None => d
  | Some s =>
      let notices := Services.notices s in
      let calls := Hub.calls (Services.peers s) in
      Desktop.set_heard (length notices) (length calls)
        (foldl main_emits (foldl main_hears d (drop (Desktop.heard d) notices))
           (drop (Desktop.heardFrames d) calls))
  end.

Definition newline : string := of_chars [fromCharCode 10].

(** [fatal]; the text of the error is the system's. *)
Definition fatal {B F N} (stage detail : string) (d : Desktop.t B F N) : Desktop.t B F N :=
  Desktop.set_exited
    (Some ("PassVault could not start", stage +:+ " failed." +:+ newline +:+ newline +:+ detail))
    (Some 1) d.

Definition createWindow {B F N} (d : Desktop.t B F N) : Desktop.t B F N := Desktop.set_window (Some false) d.

Inductive DesktopEvent (B F : Type) : Type :=
  | AppReady (loaded : Services.t B F + string)
  | WindowAsks (ipc : Ipc) (open : OpenDialog.t) (save : SaveDialog.t)
  | ServicesDo (step : ServiceStep)
  | PushEnds
  | WindowDestroyed
  | WindowAllClosed
  | AppActivated.
Arguments AppReady {_ _} _.
Arguments WindowAsks {_ _} _ _ _.
Arguments ServicesDo {_ _} _.
Arguments PushEnds {_ _}.
Arguments WindowDestroyed {_ _}.
Arguments WindowAllClosed {_ _}.
Arguments AppActivated {_ _}.

(** What the page asks of the main process; its bridge is its own. *)
Definition api_call (call : UiCall) : option VaultApi.t :=
  match call with
  | Window.getSnapshot => Some VaultApi.getSnapshot
  | askIceServers => Some VaultApi.iceServers
  | Window.runSession peerId pairingMode => Some (VaultApi.runSession peerId pairingMode)
  | askStandingRendezvous => Some VaultApi.standingRendezvous
  | Window.createPairingCode => Some VaultApi.createPairingCode
  | Window.readPairingCode code => Some (VaultApi.readPairingCode code)
  | askRendezvousFor deviceId => Some (VaultApi.rendezvousFor deviceId)
  | bridgeConnects _ | bridgeUses _ | bridgeDisconnects => None
  end.

(** The listeners of the page; a frame is the bridge's. *)
Definition page_told (payload : ToWindow) (a : App.t) : App.t :=
  match payload with
  | SendsSnapshot snapshot => ui_event (PushesSnapshot snapshot) a
  | SendsSuggestion => ui_event SuggestsSync a
  | SendsFrame _ => a
  end.

(** What happens to the two: the page hears in order what was sent since it
    loaded, and its calls cross in order; how its awaited calls end
    ([PageDoes (TaskIs _ _)]) and what its bridge tells ([PageTells]) is left
    open. *)
Inductive StationEvent (B F : Type) : Type :=
  | MainDoes (event : DesktopEvent B F)
  | PageLoads
  | PageHears
  | PageDoes (event : UiEvent)
  | PageAsks (open : OpenDialog.t) (save : SaveDialog.t)
  | PageTells (call : HostCall.t).
Arguments MainDoes {_ _} _.
Arguments PageLoads {_ _}.
Arguments PageHears {_ _}.
Arguments PageDoes {_ _} _.
Arguments PageAsks {_ _} _ _.
Arguments PageTells {_ _} _.

Section processes.
Context `{WebUrl, RowOrder, Digest} {B : Type} `{!BlobStore B} {F : Type} `{!VaultFileAccess F}.
Context {N : Type} `{!Network N}.
Context (engine_clock : nat → Date) (vaultIds revisionIds : nat → string).
Context (clock : nat → Date) (localeTime : Date → string) (conflictIds : nat → string).
Context (interpreter_merge : InterpretationRequest.t KdbxCredentialSet.t → InterpretationResult).
Context (interpreter_diff : InterpretationRequest.t KdbxCredentialSet.t → DiffResult).
Context (keyPair : DeviceKeyPair.t) (deviceName : string) (atRestUnprotected : bool).
Context (defaultServerHost : string) (rejected : string → option string → string) (darwin : bool).

Abbreviation Process := (Desktop.t B F N).
Implicit Types d : Process.

(** A step of the services. *)
Definition works (step : ServiceStep) (s : Services.t B F) : Services.t B F :=
  perform engine_clock vaultIds revisionIds clock localeTime conflictIds interpreter_merge interpreter_diff
    keyPair atRestUnprotected defaultServerHost step s.

(** [pushSnapshot], when its snapshot is there; a snapshot that throws is
    logged. *)
Definition push_ends d : Process :=
  let d := Desktop.set_pushes (Nat.pred (Desktop.pushes d)) d in
  match Desktop.services d with
  | None => d
  | Some s =>
      let '(r, s) := snapshot keyPair deviceName defaultServerHost s in
      let d := Desktop.set_services (Some s) (Desktop.network d) d in
      match r with Ok snapshot => emitToRenderer (SendsSnapshot snapshot) d | Err _ => d end
  end.

(** [whenReady]: the store is opened and the device loaded, or that throws. *)
Definition app_ready (loaded : Services.t B F + string) d : Process :=
  match loaded with
  | inr detail => fatal "Opening the local store" detail d
  | inl s =>
      let '(r, s) := start clock localeTime atRestUnprotected s in
      let d := main_catches_up (Desktop.set_services (Some s) (Desktop.network d) d) in
      match r with
      | Err detail => fatal "Opening the local store" detail d
      | Ok _ => createWindow (Desktop.set_registered true d)
      end
  end.

(** A call of the window, and its answer. *)
Definition window_asks (open : OpenDialog.t) (save : SaveDialog.t) (ipc : Ipc) d : result Answer * Process :=
  if Desktop.registered d then
    let '(r, (services, network)) :=
      desktop_ipc engine_clock vaultIds revisionIds clock localeTime interpreter_merge interpreter_diff keyPair
        deviceName defaultServerHost rejected open save ipc (Desktop.services d, Desktop.network d) in
    (r, main_catches_up (Desktop.set_services services network d))
  else
    (match ipc with
     | invoke channel _ => Err (rejected channel None)
     | send _ _ => Ok Nothing
     end, d).

(** [app.quit], with [before-quit]. *)
Definition app_quits d : Process :=
  Desktop.set_quitting true
    (match Desktop.services d with
     | Some s => main_catches_up (Desktop.set_services (Some (stop s).2) (Desktop.network d) d)
     | None => d
     end).

Definition desktop_event (event : DesktopEvent B F) d : Process :=
  match event with
  | AppReady loaded => app_ready loaded d
  | WindowAsks ipc open save => (window_asks open save ipc d).2
  | ServicesDo step =>
      match Desktop.services d with
      | Some s => main_catches_up (Desktop.set_services (Some (works step s)) (Desktop.network d) d)
      | None => d
      end
  | PushEnds => push_ends d
  | WindowDestroyed => Desktop.set_window (Some true) d
  | WindowAllClosed => if darwin then d else app_quits d
  | AppActivated => if decide (Desktop.window d = Some true) then createWindow d else d
  end.

(** What can happen: the application is ready once, and has nothing to do
    before, nor after it exited. *)
Definition desktop_can d (event : DesktopEvent B F) : Prop :=
  Desktop.exited d = None ∧
  match event with
  | AppReady _ => Desktop.services d = None
  | WindowAsks _ _ _ | WindowDestroyed => Desktop.window d = Some false
  | ServicesDo _ | AppActivated => Desktop.registered d = true
  | PushEnds => (0 < Desktop.pushes d)%nat
  | WindowAllClosed => Desktop.window d = Some true
  end.

Inductive desktop_runs (network : N) : list (DesktopEvent B F) → Process → Prop :=
  | desktop_begins : desktop_runs network [] (Desktop.new network)
  | desktop_goes_on events event d :
      desktop_runs network events d → desktop_can d event →
      desktop_runs network (events ++ [event]) (desktop_event event d).

(** ** The main process with its window *)

Abbreviation Station := (Workstation.t B F N).
Implicit Types w : Station.

Definition page_asks (open : OpenDialog.t) (save : SaveDialog.t) (call : UiCall) w : Station :=
  match api_call call with
  | Some call =>
      let '(answer, d) := window_asks open save (preload call) (Workstation.main w) in
      Workstation.mk d (Workstation.app w) (Workstation.told w) (S (Workstation.carried w))
        (Workstation.answers w ++ [(call, answer)])
  | None => Workstation.mk (Workstation.main w) (Workstation.app w) (Workstation.told w) (S (Workstation.carried w))
      (Workstation.answers w)
  end.

(** A page goes with its window. *)
Definition station_event (event : StationEvent B F) w : Station :=
  let '(Workstation.mk d app told carried answers) := w in
  match event with
  | MainDoes event =>
      let d := desktop_event event d in
      Workstation.mk d (if decide (Desktop.window d = Some false) then app else None) told carried answers
  | PageLoads => Workstation.mk d (Some opened) (length (Desktop.sent d)) 0 answers
  | PageHears =>
      match app, Desktop.sent d !! told with
      | Some a, Some payload => Workstation.mk d (Some (page_told payload a)) (S told) carried answers
      | _, _ => w
      end
  | PageDoes event => Workstation.mk d (ui_event event <$> app) told carried answers
  | PageAsks open save =>
      match app ≫= λ a, App.calls a !! carried with Some call => page_asks open save call w | None => w end
  | PageTells call =>
      Workstation.mk (window_asks (OpenDialog.mk true []) (SaveDialog.mk true None) (preload_host call) d).2
        app told carried answers
  end.

Definition station_can w (event : StationEvent B F) : Prop :=
  match event with
  | MainDoes event => desktop_can (Workstation.main w) event ∧ ∀ ipc open save, event ≠ WindowAsks ipc open save
  | PageLoads => Desktop.window (Workstation.main w) = Some false
  | PageHears => is_Some (Workstation.app w) ∧ is_Some (Desktop.sent (Workstation.main w) !! Workstation.told w)
  | PageDoes event => ∃ a, Workstation.app w = Some a ∧ ui_can a event ∧
      (∀ snapshot, event ≠ PushesSnapshot snapshot) ∧ event ≠ SuggestsSync
  | PageAsks _ _ => ∃ a, Workstation.app w = Some a ∧ is_Some (App.calls a !! Workstation.carried w)
  | PageTells _ => is_Some (Workstation.app w)
  end.

Inductive station_runs (network : N) : Station → Prop :=
  | station_begins : station_runs network (Workstation.mk (Desktop.new network) None 0 0 [])
  | station_goes_on event w : station_runs network w → station_can w event → station_runs network (station_event event w).
End processes.

(** ** The process of a phone *)

Module Phone.
(** [rendered] tells whether the window was drawn; [snapshotListeners] and
    [syncListeners] are the sizes of the sets, [outbound] whether there is a
    listener of frames; [told] is what they were called with. *)
Record t (B F N : Type) : Type := mk {
  services : Services.t B F;
  network : N;
  rendered : bool;
  snapshotListeners : nat;
  syncListeners : nat;
  outbound : bool;
  snapshotsComing : nat;
  heard : nat;
  heardFrames : nat;
  told : list ToWindow;
  flushes : nat;
  minimised : nat;
}.
Arguments mk {_ _ _} _ _ _ _ _ _ _ _ _ _ _ _.
Arguments services {_ _ _} _.
Arguments network {_ _ _} _.
Arguments rendered {_ _ _} _.
Arguments snapshotListeners {_ _ _} _.
Arguments syncListeners {_ _ _} _.
Arguments outbound {_ _ _} _.
Arguments snapshotsComing {_ _ _} _.
Arguments heard {_ _ _} _.
Arguments heardFrames {_ _ _} _.
Arguments told {_ _ _} _.
Arguments flushes {_ _ _} _.
Arguments minimised {_ _ _} _.

Section setters.
Context {B F N : Type}.
Implicit Types p : t B F N.
Definition new (services : Services.t B F) (network : N) : t B F N :=
  mk services network false 0 0 false 0 0 0 [] 0 0.
Definition set_services x y p : t B F N := mk x y (rendered p) (snapshotListeners p) (syncListeners p) (outbound p)
  (snapshotsComing p) (heard p) (heardFrames p) (told p) (flushes p) (minimised p).
Definition set_rendered x p : t B F N := mk (services p) (network p) x (snapshotListeners p) (syncListeners p)
  (outbound p) (snapshotsComing p) (heard p) (heardFrames p) (told p) (flushes p) (minimised p).
Definition set_listeners x y z p : t B F N := mk (services p) (network p) (rendered p) x y z (snapshotsComing p)
  (heard p) (heardFrames p) (told p) (flushes p) (minimised p).
Definition set_snapshotsComing x p : t B F N := mk (services p) (network p) (rendered p) (snapshotListeners p)
  (syncListeners p) (outbound p) x (heard p) (heardFrames p) (told p) (flushes p) (minimised p).
Definition set_heard x y p : t B F N := mk (services p) (network p) (rendered p) (snapshotListeners p)
  (syncListeners p) (outbound p) (snapshotsComing p) x y (told p) (flushes p) (minimised p).
Definition tell x p : t B F N := mk (services p) (network p) (rendered p) (snapshotListeners p)
  (syncListeners p) (outbound p) (snapshotsComing p) (heard p) (heardFrames p) (told p ++ x) (flushes p)
  (minimised p).
Definition set_left x y p : t B F N := mk (services p) (network p) (rendered p) (snapshotListeners p)
  (syncListeners p) (outbound p) (snapshotsComing p) (heard p) (heardFrames p) (told p) x y.
End setters.
End Phone.

Definition phone_hears {B F N} (p : Phone.t B F N) (notice : Notice) : Phone.t B F N :=
  match notice with
  | SnapshotChanged => Phone.set_snapshotsComing (S (Phone.snapshotsComing p)) p
  | SyncSuggested => Phone.tell (replicate (Phone.syncListeners p) SendsSuggestion) p
  | Confirmed _ _ => p
  end.

(** A frame without a listener is lost. *)
Definition phone_emits {B F N} (p : Phone.t B F N) (call : Call) : Phone.t B F N :=
  match call with
  | Emits frame => if Phone.outbound p then Phone.tell [SendsFrame frame] p else p
  | _ => p
  end.

Definition phone_catches_up {B F N} (p : Phone.t B F N) : Phone.t B F N :=
  let notices := Services.notices (Phone.services p) in
  let calls := Hub.calls (Services.peers (Phone.services p)) in
  Phone.set_heard (length notices) (length calls)
    (foldl phone_emits (foldl phone_hears p (drop (Phone.heard p) notices)) (drop (Phone.heardFrames p) calls)).

Inductive PhoneEvent : Type :=
  | PhoneStarts (opened : result unit)
  | WindowCalls (call : VaultApi.t) (chosen : PickedVault) (created : string → PickedVault)
  | HostTells (call : HostCall.t)
  | ServicesWork (step : ServiceStep)
  | SnapshotComes
  | ListensSnapshot (on : bool)
  | ListensSync (on : bool)
  | ListensOutbound (on : bool)
  | AppStateChange (isActive : bool)
  | BackButton (used : bool).

Section phone.
Context `{WebUrl, RowOrder, Digest} {B : Type} `{!BlobStore B} {F : Type} `{!VaultFileAccess F}.
Context {N : Type} `{!Network N}.
Context (engine_clock : nat → Date) (vaultIds revisionIds : nat → string).
Context (clock : nat → Date) (localeTime : Date → string) (conflictIds : nat → string).
Context (interpreter_merge : InterpretationRequest.t KdbxCredentialSet.t → InterpretationResult).
Context (interpreter_diff : InterpretationRequest.t KdbxCredentialSet.t → DiffResult).
Context (keyPair : DeviceKeyPair.t) (deviceName : string) (atRestUnprotected : bool).
Context (defaultServerHost : string).

Abbreviation Process := (Phone.t B F N).
Implicit Types p : Process.

(** An operation of the services and the network. *)
Definition phone_runs {A} (m : M (Services.t B F * N) A) p : result A * Process :=
  let '(r, (s, network)) := m (Phone.services p, Phone.network p) in
  (r, phone_catches_up (Phone.set_services s network p)).

Definition phone_works (step : ServiceStep) p : Process :=
  phone_catches_up (Phone.set_services
    (works engine_clock vaultIds revisionIds clock localeTime conflictIds interpreter_merge interpreter_diff
       keyPair atRestUnprotected defaultServerHost step (Phone.services p)) (Phone.network p) p).

(** [start]: nothing is drawn, and nothing told, if the services do not start. *)
Definition phone_starts (opened : result unit) p : Process :=
  let '(r, p) := phone_runs (lift opened ≫= λ _, on_services (start clock localeTime atRestUnprotected)) p in
  match r with Ok _ => Phone.set_rendered true p | Err _ => p end.

Definition snapshot_comes p : Process :=
  let '(r, s) := snapshot keyPair deviceName defaultServerHost (Phone.services p) in
  let p := Phone.set_services s (Phone.network p) (Phone.set_snapshotsComing (Nat.pred (Phone.snapshotsComing p)) p) in
  match r with
  | Ok snapshot => Phone.tell (replicate (Phone.snapshotListeners p) (SendsSnapshot snapshot)) p
  | Err _ => p
  end.

(** A listener is added to its set, or taken out. *)
Definition listens (on : bool) (listeners : nat) : nat := if on then S listeners else Nat.pred listeners.

Definition phone_event (event : PhoneEvent) p : Process :=
  match event with
  | PhoneStarts opened => phone_starts opened p
  | WindowCalls call chosen created =>
      (phone_runs (mobile_api engine_clock vaultIds revisionIds clock localeTime interpreter_merge
         interpreter_diff keyPair deviceName defaultServerHost chosen created call) p).2
  | HostTells call => (phone_runs (mobile_host call) p).2
  | ServicesWork step => phone_works step p
  | SnapshotComes => snapshot_comes p
  | ListensSnapshot on =>
      Phone.set_listeners (listens on (Phone.snapshotListeners p)) (Phone.syncListeners p) (Phone.outbound p) p
  | ListensSync on =>
      Phone.set_listeners (Phone.snapshotListeners p) (listens on (Phone.syncListeners p)) (Phone.outbound p) p
  | ListensOutbound on =>
      Phone.set_listeners (Phone.snapshotListeners p) (Phone.syncListeners p) on p
  | AppStateChange true => phone_works RecordsFile p
  | AppStateChange false => Phone.set_left (S (Phone.flushes p)) (Phone.minimised p) p
  | BackButton used => if used then p else Phone.set_left (Phone.flushes p) (S (Phone.minimised p)) p
  end.
End phone.

(** ** The process of the signaling server (apps/signaling/src/main.ts) *)

Module ServerProcess.
(** [exited] is the code it exited with. *)
Record t : Type := mk {
  port : option Z;
  trustProxy : bool;
  closing : bool;
  said : list string;
  exited : option Z;
}.
Definition say x (p : t) : t := mk (port p) (trustProxy p) (closing p) (said p ++ [x]) (exited p).
Definition close x (p : t) : t := mk (port p) (trustProxy p) true (said p ++ [x]) (exited p).
Definition exit code (p : t) : t := mk (port p) (trustProxy p) (closing p) (said p) (Some code).
End ServerProcess.

(** [Number.parseInt(PORT ?? 8787, 10)]; [None] is no number. *)
Definition server_port (PORT : option string) : option Z := parseInt10 (default "8787" PORT).

(** [listens] is what becomes of listening: the port that was bound.  What is
    thrown before the handlers are there ends the process. *)
Definition server_starts (PORT TRUST_PROXY : option string) (listens : option Z → result Z) : ServerProcess.t :=
  let trustProxy := bool_decide (TRUST_PROXY = Some "1") in
  match listens (server_port PORT) with
  | Ok port => ServerProcess.mk (Some port) trustProxy false
      ["passvault signaling listening on port " +:+ pretty port +:+
       (if trustProxy then " (trusting X-Forwarded-For)" else EmptyString)] None
  | Err e => ServerProcess.mk None trustProxy false [e] (Some 1)
  end.

Inductive MainEvent : Type :=
  | GetsSignal (name : string)
  | ServerClosed
  | TenSeconds
  | UncaughtException (error : string)
  | UnhandledRejection (reason : string).

Definition server_event (event : MainEvent) (p : ServerProcess.t) : ServerProcess.t :=
  match event with
  | GetsSignal name =>
      if ServerProcess.closing p then p else ServerProcess.close (name +:+ " received, shutting down") p
  | ServerClosed | TenSeconds => ServerProcess.exit 0 p
  | UncaughtException error => ServerProcess.say ("uncaught exception: " +:+ error) p
  | UnhandledRejection reason => ServerProcess.say ("unhandled rejection: " +:+ reason) p
  end.

(** The server closes, and the ten seconds run, only after a signal; nothing
    happens after the exit. *)
Definition server_can (p : ServerProcess.t) (event : MainEvent) : Prop :=
  ServerProcess.exited p = None ∧
  match event with ServerClosed | TenSeconds => ServerProcess.closing p = true | _ => True end.

Inductive served (start : ServerProcess.t) : list MainEvent → ServerProcess.t → Prop :=
  | served_start : served start [] start
  | served_more events event p : served start events p → server_can p event →
      served start (events ++ [event]) (server_event event p).

(** No bad request ends the server: a server that listens exits only after a
    signal asked it to, without an error, and one that was asked can always end,
    also when its sockets do not close. *)
Lemma server_ends_when_asked PORT TRUST_PROXY listens port events p : listens (server_port PORT) = Ok port →
  served (server_starts PORT TRUST_PROXY listens) events p →
  (∀ code, ServerProcess.exited p = Some code → code = 0 ∧ ServerProcess.closing p = true) ∧
  (ServerProcess.closing p = true → ∃ name, GetsSignal name ∈ events) ∧
  (ServerProcess.closing p = true → ServerProcess.exited p = None →
     server_can p TenSeconds ∧ ServerProcess.exited (server_event TenSeconds p) = Some 0).
Proof.
  intros Hport Hserved.
  assert ((∀ code, ServerProcess.exited p = Some code → code = 0 ∧ ServerProcess.closing p = true) ∧
    (ServerProcess.closing p = true → ∃ name, GetsSignal name ∈ events)) as [Hexit Hasked].
  { induction Hserved as [|events event p _ [Hexit Hasked] [Hrunning Hcan]].
    - unfold server_starts. rewrite Hport. by split.
    - assert (∀ name, GetsSignal name ∈ events → GetsSignal name ∈ events ++ [event]) as Hmore
        by (intros name ?; apply elem_of_app; by left).
      destruct event; simpl; try (split; [|intros Hc; destruct (Hasked Hc); eauto]).
      + destruct (ServerProcess.closing p) eqn:Hc.
        * split; [intros code Hcode; congruence|]. intros _. destruct (Hasked eq_refl); eauto.
        * simpl. split; [intros code Hcode; congruence|]. intros _. exists name. apply elem_of_app. right. by left.
      + by intros code [= <-].
      + by intros code [= <-].
      + intros code Hcode. congruence.
      + intros code Hcode. congruence. }
  split_and!; [exact Hexit|exact Hasked|]. intros Hc Hr. by split_and!.
Qed.
