(* ===== verification/ShellProps.v ===== *)
(** * The two applications: properties *)

From S2P Require Import Prelude Model Bytes JsString Json Effects Codec Store StoreTheory StoreProps BlobStore BlobProps.
From S2P Require Import Engine EngineTheory EngineProps.
From S2P Require Import Inbox Identity JsMap Settings Hub VaultFile Kdbx Session Services ServicesTheory ServicesProps Desk.
From S2P Require Import Rooms Signaling SignalingProps Offer Calls CallsProps Snapshot SnapshotProps Bridge Window Shell Processes.

Open Scope Z_scope.

(** ** Errors that cross a channel *)

Definition error_mark : text := chars "Error: ".

Lemma after_last_skip c l : c ≠ fromCharCode 69 → after_last error_mark (c :: l) = after_last error_mark l.
Proof.
  intros Hc. cbn [after_last]. destruct (after_last error_mark l); [done|].
  rewrite bool_decide_false; [done|]. intros [k Hk]. by injection Hk.
Qed.

Lemma after_last_app l1 l2 r : after_last error_mark l2 = Some r → after_last error_mark (l1 ++ l2) = Some r.
Proof. intros Hr. induction l1 as [|c l1 IH]; [done|]. cbn [after_last app]. by rewrite IH. Qed.

Lemma after_mark l : after_last error_mark (error_mark ++ l) = Some (default l (after_last error_mark l)).
Proof.
  assert (after_last error_mark (drop 1 error_mark ++ l) = after_last error_mark l) as Htail.
  { change (drop 1 error_mark ++ l) with ((fromCharCode <$> [114; 114; 111; 114; 58; 32]) ++ l). cbn [fmap list_fmap app].
    do 6 (rewrite after_last_skip by discriminate). done. }
  change (error_mark ++ l) with (fromCharCode 69 :: drop 1 error_mark ++ l). cbn [after_last]. rewrite Htail.
  destruct (after_last error_mark l); [done|]. rewrite bool_decide_true; [done|]. by exists l.
Qed.

(** What comes before the last mark is not shown. *)
Lemma wrapped_piece before message :
  last_piece "Error: " (before +:+ "Error: " +:+ message) = last_piece "Error: " message.
Proof.
  unfold last_piece. rewrite !chars_app. fold error_mark.
  rewrite (after_last_app _ _ _ (after_mark (chars message))). fold error_mark.
  destruct (after_last error_mark (chars message)); [done|]. apply of_chars_chars.
Qed.

Lemma readable_wrapped before message fallback :
  readableError (Some (before +:+ "Error: " +:+ message)) fallback = readableError (Some message) fallback.
Proof. unfold readableError. by rewrite wrapped_piece. Qed.

(** ** One question, two applications *)

Section alike.
Context `{WebUrl, RowOrder, Digest} {B : Type} `{!BlobStore B} {F : Type} `{!VaultFileAccess F}.
Context {N : Type} `{!Network N}.
Context (engine_clock : nat → Date) (vaultIds revisionIds : nat → string).
Context (clock : nat → Date) (localeTime : Date → string) (conflictIds : nat → string).
Context (interpreter_merge : InterpretationRequest.t KdbxCredentialSet.t → InterpretationResult).
Context (interpreter_diff : InterpretationRequest.t KdbxCredentialSet.t → DiffResult).
Context (keyPair : DeviceKeyPair.t) (deviceName : string) (atRestUnprotected : bool).
Context (defaultServerHost : string) (rejected : string → option string → string).
Implicit Types (s : Services.t B F) (network : N).

(** The desktop's handlers run with the services that are there. *)
Abbreviation Run := (M (Services.t B F * N)).

Lemma requireServices_some {A} (m : Run A) s network :
  requireServices m (Some s, network) = let '(r, (s', n')) := m (s, network) in (r, (Some s', n')).
Proof. reflexivity. Qed.

Lemma requireServices_bind {A C} (m : Run A) (k : A → Run C) s network :
  (requireServices m ≫= λ a, requireServices (k a)) (Some s, network) = requireServices (m ≫= k) (Some s, network).
Proof.
  unfold mbind, M_bind. rewrite !requireServices_some.
  destruct (m (s, network)) as [[a|e] [s' n']]; cbn [fst snd]; [|done]. by rewrite requireServices_some.
Qed.

(** Both went through to the same state and say the same; of two errors a
    window shows the same. *)
Definition same_answer {A} (exact : bool) (rd rm : result A) : Prop :=
  match rd, rm with
  | Ok a, Ok a' => a = a'
  | Err e, Err e' => exact = true → ∀ fallback, readableError (Some e) fallback = readableError (Some e') fallback
  | _, _ => False
  end.

Definition same_outcome {A} (exact : bool) (d : result A * (option (Services.t B F) * N))
    (m : result A * (Services.t B F * N)) : Prop :=
  d.2 = (Some m.2.1, m.2.2) ∧ same_answer exact d.1 m.1.

Abbreviation desktop := (desktop_api engine_clock vaultIds revisionIds clock localeTime interpreter_merge interpreter_diff
  keyPair deviceName defaultServerHost rejected).
Abbreviation mobile := (mobile_api engine_clock vaultIds revisionIds clock localeTime interpreter_merge interpreter_diff
  keyPair deviceName defaultServerHost).
Abbreviation the_handlers := (handlers engine_clock vaultIds revisionIds clock localeTime interpreter_merge
  interpreter_diff keyPair deviceName defaultServerHost).
Abbreviation ipc_call := (desktop_ipc engine_clock vaultIds revisionIds clock localeTime interpreter_merge
  interpreter_diff keyPair deviceName defaultServerHost rejected).

(** Electron names the channel and gives the text of the error after it. *)
Definition tells_error : Prop :=
  ∀ channel message, ∃ before, rejected channel (Some message) = before +:+ "Error: " +:+ message.

Lemma invoked (exact : bool) open save channel argument handler (m : Run Answer) s network : tells_error →
  map_get channel (the_handlers open save) = Some handler →
  same_outcome exact (handler argument (Some s, network)) (m (s, network)) →
  same_outcome exact (ipc_call open save (invoke channel argument) (Some s, network)) (m (s, network)).
Proof.
  intros Htells Hget [Hs Hr]. unfold desktop_ipc. rewrite Hget.
  destruct (handler argument (Some s, network)) as [[a|e] x]; cbn [fst snd] in *; split; cbn [fst snd]; try done.
  destruct (m (s, network)) as [[a|e'] y]; cbn [fst snd same_answer] in *; [done|].
  intros Hexact fallback. destruct (Htells channel e) as [before ->]. rewrite readable_wrapped. by apply Hr.
Qed.

Lemma required exact (m : Run Answer) s network : same_outcome exact (requireServices m (Some s, network)) (m (s, network)).
Proof.
  rewrite requireServices_some. destruct (m (s, network)) as [[a|e] [s' n']]; split; done.
Qed.

Lemma then_snapshot_same exact (m : Run unit) s network :
  same_outcome exact (then_snapshot keyPair deviceName defaultServerHost m (Some s, network))
    (and_snapshot keyPair deviceName defaultServerHost m (s, network)).
Proof. unfold then_snapshot, and_snapshot. rewrite requireServices_bind. apply required. Qed.

(** The same file was chosen, and has the name of its path. *)
Definition same_open (open : OpenDialog.t) (chosen : PickedVault) : Prop :=
  match chosen with
  | cancelled => OpenDialog.canceled open = true ∨ OpenDialog.filePaths open = []
  | picked_vault uri name =>
      OpenDialog.canceled open = false ∧ head (OpenDialog.filePaths open) = Some uri ∧ name = last_segment uri
  end.

Definition same_save (save : SaveDialog.t) (created : string → PickedVault) : Prop :=
  ∀ suggested, match created suggested with
  | cancelled => SaveDialog.canceled save = true ∨ SaveDialog.filePath save = None
  | picked_vault uri _ => SaveDialog.canceled save = false ∧ SaveDialog.filePath save = Some uri
  end.

(** A phone makes a snapshot before it asks where to save. *)
Definition shown_before (call : VaultApi.t) s : Services.t B F :=
  match call with
  | VaultApi.saveVaultAs => (snapshot keyPair deviceName defaultServerHost s).2
  | _ => s
  end.

Definition is_choose (call : VaultApi.t) : bool :=
  match call with VaultApi.chooseVault => true | _ => false end.

(** Only the name in the text of an error depends on who named the file. *)
Lemma bind_named path s :
  let named := bindVault engine_clock vaultIds revisionIds clock localeTime keyPair path (Some (last_segment path)) s in
  let unnamed := bindVault engine_clock vaultIds revisionIds clock localeTime keyPair path None s in
  unnamed.2 = named.2 ∧ same_answer false unnamed.1 named.1.
Proof.
  cbv zeta. unfold bindVault.
  assert (∀ r : result unit * Services.t B F, r.2 = r.2 ∧ same_answer false r.1 r.1) as Hrefl by by intros [[]].
  assert (∀ {A} (m : M (Services.t B F) A) (k k' : A → M (Services.t B F) unit) s,
    (∀ a s', m s = (Ok a, s') → (k a s').2 = (k' a s').2 ∧ same_answer false (k a s').1 (k' a s').1) →
    ((m ≫= k) s).2 = ((m ≫= k') s).2 ∧ same_answer false ((m ≫= k) s).1 ((m ≫= k') s).1) as Hbind.
  { intros A m k k' s' Hk. unfold mbind, M_bind. destruct (m s') as [[a|e] s''] eqn:Hm; [by apply Hk|by split]. }
  apply Hbind. intros replacing s1 _. apply Hbind. intros vaults s2 _. destruct (find _ vaults); [done|].
  apply Hbind. intros bytes s3 _. destruct (negb _); [by split|]. apply Hrefl.
Qed.

(** A phone answers no verification with an error. *)
Lemma answerVerification_runs confirmed s : ∃ s', answerVerification clock localeTime confirmed s = (Ok tt, s').
Proof.
  unfold answerVerification, settleVerification, mbind, M_bind, gets.
  destruct (Services.verification s) as [v|] eqn:Hv; [|by eexists]. rewrite Hv. eexists. reflexivity.
Qed.

(** C18: both applications give the same answers.  Whatever the window asks for,
    through the preload script and a channel on the desktop or by a call on a
    phone, the services and the network are left in the same state, and the
    answers are equal; where both throw, the window shows the same text of
    either error, although the desktop's comes wrapped by the channel.  Of a
    file that is no vault only the name in the text may differ, and a phone makes
    a snapshot before it asks where to save. *)
Theorem platforms_answer_alike open save chosen created call s network (Htells : tells_error)
    (Hopen : call = VaultApi.chooseVault → same_open open chosen)
    (Hsave : call = VaultApi.saveVaultAs →
       same_save save created ∧ is_ok (snapshot keyPair deviceName defaultServerHost s).1) :
  same_outcome (negb (is_choose call)) (desktop open save call (Some (shown_before call s), network))
    (mobile chosen created call (s, network)).
Proof.
  unfold desktop_api. destruct call; cbn [shown_before is_choose negb preload];
    try (eapply invoked; [done|reflexivity|]; cbv beta iota; cbn [mobile_api text_of];
      lazymatch goal with
      | |- same_outcome _ (requireServices _ _) _ => apply required
      | |- same_outcome _ (then_snapshot _ _ _ _ _) _ => apply then_snapshot_same
      end).
  - (* chooseVault *) eapply invoked; [done|reflexivity|]. cbv beta. unfold choose_vault. cbn [mobile_api].
    specialize (Hopen eq_refl). destruct chosen as [|uri name]; cbn [same_open] in Hopen.
    + assert ((match OpenDialog.filePaths open with
        | [] => mret tt
        | path :: _ => if OpenDialog.canceled open then mret tt
            else requireServices (on_services
              (bindVault engine_clock vaultIds revisionIds clock localeTime keyPair path None))
        end : M (option (Services.t B F) * N) unit) = mret tt) as ->.
      { by destruct Hopen as [-> | ->]; [destruct (OpenDialog.filePaths open)|]. }
      change (same_outcome false (requireServices (taking_snapshot keyPair deviceName defaultServerHost) (Some s, network))
        (taking_snapshot keyPair deviceName defaultServerHost (s, network))). apply required.
    + destruct Hopen as (-> & Hpath & ->). destruct (OpenDialog.filePaths open) as [|path paths]; [done|].
      injection Hpath as ->. rewrite requireServices_bind, requireServices_some. unfold and_snapshot.
      pose proof (bind_named uri s) as [Hs Hr]. revert Hs Hr. cbv zeta. unfold on_services, mbind, M_bind. cbn [fst snd].
      destruct (bindVault _ _ _ _ _ _ uri None s) as [r1 s1], (bindVault _ _ _ _ _ _ uri (Some _) s) as [r2 s2].
      cbn [fst snd]. intros -> Hr. destruct r1, r2; cbn [same_answer] in Hr; try done.
      destruct (taking_snapshot _ _ _ (s2, network)) as [[]  []]; by split.
  - (* saveVaultAs *) destruct (Hsave eq_refl) as [Hpick Hok]. cbn [mobile_api].
    destruct (snapshot keyPair deviceName defaultServerHost s) as [[shown|] s'] eqn:Hshown; [|done]. cbn [snd].
    rewrite (bind_eq (on_services (snapshot keyPair deviceName defaultServerHost)) _ (s, network) shown (s', network))
      by (unfold on_services; cbn [fst snd]; by rewrite Hshown).
    eapply (invoked true open save "vault:saveAs" NoArgument _
      (match created (suggested_name shown) with
       | cancelled => mret (AWriteBack (write_failed "Cancelled."))
       | picked_vault uri _ =>
           on_services (saveVaultAs clock localeTime uri) ≫= λ outcome, mret (AWriteBack outcome)
       end) s' network); [done|reflexivity|].
    cbv beta. unfold save_vault_as. specialize (Hpick (suggested_name shown)).
    destruct (created (suggested_name shown)) as [|uri name].
    + destruct Hpick as [-> | ->]; [|destruct (SaveDialog.canceled save)]; by split.
    + destruct Hpick as [-> ->]. apply required.
  - (* answerVerification *) destruct (answerVerification_runs confirmed s) as [s' Hrun].
    unfold desktop_ipc. cbn [map_get listeners]. cbn [mobile_api].
    rewrite decide_True by done. cbn [snd]. rewrite requireServices_some.
    unfold on_services, mbind, M_bind. cbn [fst snd].
    replace (match confirmed with true => true | false => false end) with confirmed by by destruct confirmed.
    rewrite Hrun. by split.
Qed.
End alike.

(** ** The process of the desktop *)

(** What telling the window leaves alone. *)
Record main_same {B F N} (d d' : Desktop.t B F N) : Prop := MainSame {
  ms_services : Desktop.services d' = Desktop.services d;
  ms_network : Desktop.network d' = Desktop.network d;
  ms_registered : Desktop.registered d' = Desktop.registered d;
  ms_window : Desktop.window d' = Desktop.window d;
  ms_errorBox : Desktop.errorBox d' = Desktop.errorBox d;
  ms_exited : Desktop.exited d' = Desktop.exited d;
}.

#[global] Instance main_same_preorder {B F N} : PreOrder (@main_same B F N).
Proof. split; [by split|]. intros d1 d2 d3 [] []. split; congruence. Qed.

Lemma emit_same {B F N} payload (d : Desktop.t B F N) : main_same d (emitToRenderer payload d).
Proof. unfold emitToRenderer. by destruct (Desktop.window d) as [[]|]. Qed.

Lemma fold_same {B F N A} (f : Desktop.t B F N → A → Desktop.t B F N) l d :
  (∀ d x, main_same d (f d x)) → main_same d (foldl f d l).
Proof.
  intros Hf. revert d. induction l as [|x l IH]; intros d; [reflexivity|]. simpl. etrans; [apply Hf|apply IH].
Qed.

Lemma hears_same {B F N} (d : Desktop.t B F N) notice : main_same d (main_hears d notice).
Proof. destruct notice; simpl; [by split|apply emit_same|reflexivity]. Qed.

Lemma emits_same {B F N} (d : Desktop.t B F N) call : main_same d (main_emits d call).
Proof. destruct call; simpl; try reflexivity. apply emit_same. Qed.

Lemma catches_up_same {B F N} (d : Desktop.t B F N) : main_same d (main_catches_up d).
Proof.
  unfold main_catches_up. destruct (Desktop.services d) as [s|] eqn:Hs; [|reflexivity].
  assert (main_same d (foldl main_emits (foldl main_hears d (drop (Desktop.heard d) (Services.notices s)))
    (drop (Desktop.heardFrames d) (Hub.calls (Services.peers s))))) as [].
  { etrans; [apply (fold_same main_hears), hears_same|apply (fold_same main_emits), emits_same]. }
  by split.
Qed.

(** All that the services called was acted on. *)
Definition caught_up {B F N} (d : Desktop.t B F N) : Prop :=
  ∀ s, Desktop.services d = Some s →
    Desktop.heard d = length (Services.notices s) ∧ Desktop.heardFrames d = length (Hub.calls (Services.peers s)).

Lemma catches_up_caught {B F N} (d : Desktop.t B F N) : caught_up (main_catches_up d).
Proof.
  intros s Hs. rewrite (ms_services _ _ (catches_up_same d)) in Hs. unfold main_catches_up. by rewrite Hs.
Qed.

(** A snapshot calls nobody. *)
Record quiet {B F} (s s' : Services.t B F) : Prop := Quiet {
  qt_notices : Services.notices s' = Services.notices s;
  qt_peers : Services.peers s' = Services.peers s;
  qt_live : Services.livePeers s' = Services.livePeers s;
}.

#[global] Instance quiet_preorder {B F} : PreOrder (@quiet B F).
Proof. split; [by split|]. intros s1 s2 s3 [] []. split; congruence. Qed.

Section quiet.
Context `{RowOrder, Digest} {B : Type} `{!BlobStore B} {F : Type} `{!VaultFileAccess F}.

Lemma quiet_engine {A} (m : M (EngineState.t B) A) : keeps (quiet (B := B) (F := F)) (on m).
Proof. intros s. unfold on. by destruct (m _). Qed.

Lemma quiet_files {A} (m : M F A) : keeps (quiet (B := B) (F := F)) (on m).
Proof. intros s. unfold on. by destruct (m _). Qed.

Lemma quiet_settings {A} (m : M SettingsStore.t A) : keeps (quiet (B := B) (F := F)) (settings_call m).
Proof.
  unfold settings_call. apply kept_bind; [apply _|apply quiet_engine|]. intros table.
  apply kept_bind; [apply _|apply keeps_gets, _|]. intros cached. destruct (m _) as [r store].
  apply kept_bind; [apply _|apply quiet_engine|]. intros _.
  apply kept_bind; [apply _|by apply kept_modify|]. intros _. apply keeps_lift, _.
Qed.

Lemma quiet_snapshot keyPair deviceName defaultServerHost :
  keeps (quiet (B := B) (F := F)) (snapshot keyPair deviceName defaultServerHost).
Proof.
  unfold snapshot, onlineDeviceIds, database, signalUrl, connectionSettings, vault_summary.
  repeat lazymatch goal with
  | |- keeps _ (_ ≫= _) => apply kept_bind; [apply _| |intros ?]
  | |- keeps _ (gets _) => apply keeps_gets, _
  | |- keeps _ (mret _) => apply keeps_ret, _
  | |- keeps _ (settings_call _) => apply quiet_settings
  | |- keeps _ (on _) => first [apply quiet_engine|apply quiet_files]
  | |- keeps _ (let _ := _ in _) => cbv zeta
  | |- keeps _ (match _ with _ => _ end) => case_match
  end.
Qed.
End quiet.

(** ** Runs of the desktop *)

Section runs.
Context `{WebUrl, RowOrder, Digest} {B : Type} `{!BlobStore B} {F : Type} `{!VaultFileAccess F}.
Context {N : Type} `{!Network N}.
Context (engine_clock : nat → Date) (vaultIds revisionIds : nat → string).
Context (clock : nat → Date) (localeTime : Date → string) (conflictIds : nat → string).
Context (interpreter_merge : InterpretationRequest.t KdbxCredentialSet.t → InterpretationResult).
Context (interpreter_diff : InterpretationRequest.t KdbxCredentialSet.t → DiffResult).
Context (keyPair : DeviceKeyPair.t) (deviceName : string) (atRestUnprotected : bool).
Context (defaultServerHost : string) (rejected : string → option string → string) (darwin : bool).
Implicit Types (d : Desktop.t B F N) (events : list (DesktopEvent B F)).

Abbreviation runs := (desktop_runs engine_clock vaultIds revisionIds clock localeTime conflictIds interpreter_merge
  interpreter_diff keyPair deviceName atRestUnprotected defaultServerHost rejected darwin).
Abbreviation happens := (desktop_event engine_clock vaultIds revisionIds clock localeTime conflictIds interpreter_merge
  interpreter_diff keyPair deviceName atRestUnprotected defaultServerHost rejected darwin).
Abbreviation asks := (window_asks engine_clock vaultIds revisionIds clock localeTime interpreter_merge
  interpreter_diff keyPair deviceName defaultServerHost rejected).
Abbreviation answers := (desktop_api engine_clock vaultIds revisionIds clock localeTime interpreter_merge
  interpreter_diff keyPair deviceName defaultServerHost rejected).

(** The process before it is ready, after a failed start, and while it runs. *)
Record waits d : Prop := Waits {
  wt_services : Desktop.services d = None;
  wt_window : Desktop.window d = None;
  wt_registered : Desktop.registered d = false;
  wt_pushes : Desktop.pushes d = 0%nat;
  wt_exited : Desktop.exited d = None;
  wt_errorBox : Desktop.errorBox d = None;
}.

Record gave_up (detail : string) d : Prop := GaveUp {
  gu_window : Desktop.window d = None;
  gu_exited : Desktop.exited d = Some 1;
  gu_errorBox : Desktop.errorBox d = Some ("PassVault could not start",
    "Opening the local store failed." +:+ newline +:+ newline +:+ detail);
}.

Record serves d : Prop := Serves {
  sv_services : is_Some (Desktop.services d);
  sv_registered : Desktop.registered d = true;
  sv_window : Desktop.window d ≠ None;
  sv_exited : Desktop.exited d = None;
  sv_errorBox : Desktop.errorBox d = None;
  sv_caught_up : caught_up d;
}.

Lemma serves_same d d' : serves d → main_same d d' → caught_up d' → serves d'.
Proof. intros [] [] Hc. split; try congruence. done. Qed.

Lemma serves_works s network d : serves d → serves (main_catches_up (Desktop.set_services (Some s) network d)).
Proof.
  intros [? ? ? ? ? ?]. destruct (catches_up_same (Desktop.set_services (Some s) network d)) as [Hs _ Hr Hw Hb He].
  split; try (rewrite ?Hs, ?Hr, ?Hw, ?Hb, ?He; by try eexists). apply catches_up_caught.
Qed.

(** No handler forgets the services. *)
Definition keeps_services {A} (m : M (option (Services.t B F) * N) A) : Prop :=
  ∀ s network, is_Some (m (Some s, network)).2.1.

Lemma keeps_required {A} (m : M (Services.t B F * N) A) : keeps_services (requireServices m).
Proof. intros s network. rewrite requireServices_some. destruct (m _) as [r [s' n']]. by eexists. Qed.

Lemma keeps_ret_services {A} (a : A) : keeps_services (mret a).
Proof. intros s network. by eexists. Qed.

Lemma keeps_throw_services {A} e : keeps_services (throw e : M _ A).
Proof. intros s network. by eexists. Qed.

Lemma keeps_bind_services {A C} (m : M (option (Services.t B F) * N) A) (k : A → M (option (Services.t B F) * N) C) :
  keeps_services m → (∀ a, keeps_services (k a)) → keeps_services (m ≫= k).
Proof.
  intros Hm Hk s network. unfold mbind, M_bind. specialize (Hm s network).
  destruct (m (Some s, network)) as [[a|e] [o n]]; cbn [fst snd] in *; [|done]. destruct Hm as [s' ->]. apply Hk.
Qed.

Lemma map_get_Forall {A} (P : A → Prop) (l : list (string * A)) key x :
  Forall P l.*2 → map_get key l = Some x → P x.
Proof.
  induction l as [|[k y] l IH]; [done|]. cbn [map_get]. intros [Hy Hl]%Forall_cons. case_decide; [by intros [= <-]|].
  by apply IH.
Qed.

Ltac keeps_services_tac :=
  repeat first [apply keeps_required | apply keeps_ret_services | apply keeps_throw_services
               | apply keeps_bind_services; [|intros ?] | case_match].

Lemma handlers_keep open save : Forall (λ handler, ∀ argument, keeps_services (handler argument))
  (handlers engine_clock vaultIds revisionIds clock localeTime interpreter_merge interpreter_diff keyPair
     deviceName defaultServerHost open save).*2.
Proof.
  unfold handlers, then_snapshot, choose_vault, save_vault_as. cbn [fmap list_fmap snd].
  repeat (apply Forall_cons_2; [intros argument; keeps_services_tac|]). apply Forall_nil_2.
Qed.

Lemma listeners_keep : Forall (λ listener, ∀ argument, keeps_services (listener argument))
  (listeners (B := B) (F := F) (N := N) clock localeTime).*2.
Proof.
  unfold listeners. cbn [fmap list_fmap snd].
  repeat (apply Forall_cons_2; [intros argument; keeps_services_tac|]). apply Forall_nil_2.
Qed.

Lemma ipc_keeps_services open save ipc : keeps_services (desktop_ipc engine_clock vaultIds revisionIds clock localeTime
  interpreter_merge interpreter_diff keyPair deviceName defaultServerHost rejected open save ipc).
Proof.
  intros s network. destruct ipc as [channel argument|channel argument]; unfold desktop_ipc.
  - destruct (map_get channel _) as [handler|] eqn:Hget; [|by eexists].
    pose proof (map_get_Forall _ _ _ _ (handlers_keep open save) Hget argument s network) as Hk.
    destruct (handler argument (Some s, network)) as [[a|e] x]; done.
  - destruct (map_get channel _) as [listener|] eqn:Hget; [|by eexists].
    exact (map_get_Forall _ _ _ _ listeners_keep Hget argument s network).
Qed.

Lemma ready_state loaded d : waits d →
  (∃ detail, gave_up detail (app_ready clock localeTime atRestUnprotected loaded d) ∧
     ∀ detail', loaded = inr detail' → detail' = detail) ∨
  serves (app_ready clock localeTime atRestUnprotected loaded d) ∧ ∀ detail, loaded ≠ inr detail.
Proof.
  intros [_ Hwindow _ _ Hexited Hbox]. destruct loaded as [s|detail]; unfold app_ready.
  - destruct (start clock localeTime atRestUnprotected s) as [r s'].
    set (d' := Desktop.set_services (Some s') (Desktop.network d) d).
    pose proof (catches_up_caught d') as Hc. destruct (catches_up_same d') as [Hs _ _ Hw' Hb He'].
    set (d2 := main_catches_up d') in *. clearbody d2.
    destruct r as [[]|e]; [right|left].
    + split; [|done]. split; cbn; try done; [rewrite Hs; by eexists|by rewrite He'|by rewrite Hb].
    + exists e. split; [|done]. split; cbn; try done. by rewrite Hw'.
  - left. exists detail. split; [|by intros ? [= ->]]. by split.
Qed.

Lemma serves_event d event : serves d → desktop_can d event → serves (happens event d).
Proof.
  intros Hd [_ Hcan]. pose proof Hd as [[s Hs] Hr Hw He Hb Hc]. destruct event as [loaded|ipc open save|step| | | |]; cbn [desktop_event].
  - by rewrite Hs in Hcan.
  - unfold window_asks. rewrite Hr, Hs.
    pose proof (ipc_keeps_services open save ipc s (Desktop.network d)) as [s' Hs'].
    destruct (desktop_ipc _ _ _ _ _ _ _ _ _ _ _ _ _ _ _) as [r [o n]]. cbn [fst snd] in *. subst o.
    by apply serves_works.
  - rewrite Hs. by apply serves_works.
  - unfold push_ends. cbn [Desktop.services Desktop.set_pushes]. rewrite Hs.
    pose proof (quiet_snapshot keyPair deviceName defaultServerHost s) as [Hn Hp _].
    destruct (snapshot _ _ _ s) as [r s']. cbn [snd] in *.
    set (d' := Desktop.set_services _ _ _).
    assert (serves d') as Hd'.
    { split; try done. intros ? [= <-]. destruct (Hc s Hs). by rewrite Hn, Hp. }
    destruct r as [snap|]; [|done]. apply (serves_same _ _ Hd' (emit_same _ d')).
    intros s'' Hs''. rewrite (ms_services _ _ (emit_same _ d')) in Hs''.
    destruct (sv_caught_up _ Hd' s'' Hs''). unfold emitToRenderer. by destruct (Desktop.window d') as [[]|].
  - by split.
  - destruct darwin; [done|]. unfold app_quits. rewrite Hs.
    pose proof (serves_works (stop s).2 (Desktop.network d) d Hd) as []. by split.
  - case_decide; [by split|done].
Qed.

Lemma run_state network events d : runs network events d →
  (waits d ∧ ∀ loaded, AppReady loaded ∉ events) ∨
  (∃ detail, gave_up detail d ∧ ∀ detail', AppReady (inr detail') ∈ events → detail' = detail) ∨
  (serves d ∧ ∀ detail, AppReady (inr detail) ∉ events).
Proof.
  induction 1 as [|events event d Hruns [[Hd Hno]|[(detail&Hd&_)|[Hd Hno]]] Hcan].
  - left. split; [by split|]. intros loaded. apply not_elem_of_nil.
  - pose proof Hd as [Hs Hw Hr Hp _ _]. destruct Hcan as [_ Hcan].
    destruct event as [loaded|ipc open save|step| | | |]; try (exfalso; congruence || (rewrite Hp in Hcan; lia)).
    right. cbn [desktop_event]. destruct (ready_state loaded d Hd) as [(detail&Hup&Heq)|[Hserves Hne]].
    + left. exists detail. split; [done|]. intros detail' [Hin|Hin%list_elem_of_singleton]%elem_of_app.
      * by apply Hno in Hin.
      * injection Hin as <-. by apply Heq.
    + right. split; [done|]. intros detail [Hin|Hin%list_elem_of_singleton]%elem_of_app.
      * by apply Hno in Hin.
      * injection Hin as <-. by apply (Hne detail).
  - destruct Hcan as [Hcan _]. by rewrite (gu_exited _ _ Hd) in Hcan.
  - right. right. split; [by apply serves_event|]. intros detail [Hin|Hin%list_elem_of_singleton]%elem_of_app.
    + by apply Hno in Hin.
    + subst event. destruct Hcan as [_ Hcan]. cbn in Hcan. destruct (sv_services _ Hd) as [? Hs]. congruence.
Qed.

(** What a channel of the main process does with a call: a handler that is there
    runs on the services and the network, and its result is the answer; a
    listener that is there runs, and nothing is answered. *)
Definition handled open save (ipc : Ipc) (s : Services.t B F) (network : N) (outcome : result Answer * Desktop.t B F N) : Prop :=
  let left after := Desktop.services outcome.2 = after.1 ∧ Desktop.network outcome.2 = (after.2 : N) in
  match ipc with
  | invoke channel argument => ∃ handler, map_get channel (handlers engine_clock vaultIds revisionIds clock localeTime
        interpreter_merge interpreter_diff keyPair deviceName defaultServerHost open save) = Some handler ∧
      let '(r, after) := handler argument (Some s, network) in
      outcome.1 = match r with Ok answer => Ok answer | Err message => Err (rejected channel (Some message)) end ∧
      left after
  | send channel argument => ∃ listener, map_get channel (listeners clock localeTime) = Some listener ∧
      outcome.1 = Ok Nothing ∧ left (listener argument (Some s, network)).2
  end.

Lemma asks_handled open save ipc d s : Desktop.registered d = true → Desktop.services d = Some s →
  match ipc with
  | invoke channel _ => is_Some (map_get channel (handlers engine_clock vaultIds revisionIds clock localeTime
      interpreter_merge interpreter_diff keyPair deviceName defaultServerHost open save))
  | send channel _ => is_Some (map_get channel (listeners (B := B) (F := F) (N := N) clock localeTime))
  end → handled open save ipc s (Desktop.network d) (asks open save ipc d).
Proof.
  intros Hr Hs Hthere. unfold window_asks, handled. rewrite Hr, Hs.
  destruct ipc as [channel argument|channel argument]; destruct Hthere as [handler Hh]; exists handler;
    (split; [exact Hh|]); cbn [desktop_ipc]; rewrite Hh;
    destruct (handler argument (Some s, Desktop.network d)) as [[a|e] [o n]]; cbn [fst snd]; (split; [done|]);
    destruct (catches_up_same (Desktop.set_services o n d)) as [Hservices Hnetwork _ _ _ _]; by split.
Qed.

(** Every channel that the preload script names is there. *)
Lemma preload_there open save call :
  match preload call with
  | invoke channel _ => is_Some (map_get channel (handlers (B := B) (F := F) (N := N) engine_clock vaultIds revisionIds
      clock localeTime interpreter_merge interpreter_diff keyPair deviceName defaultServerHost open save))
  | send channel _ => is_Some (map_get channel (listeners (B := B) (F := F) (N := N) clock localeTime))
  end.
Proof. destruct call; eexists; reflexivity. Qed.

Lemma preload_host_there open save call :
  match preload_host call with
  | invoke channel _ => is_Some (map_get channel (handlers (B := B) (F := F) (N := N) engine_clock vaultIds revisionIds
      clock localeTime interpreter_merge interpreter_diff keyPair deviceName defaultServerHost open save))
  | send channel _ => is_Some (map_get channel (listeners (B := B) (F := F) (N := N) clock localeTime))
  end.
Proof. destruct call; eexists; reflexivity. Qed.

(** A phone without listeners tells nobody. *)
Lemma phone_silent (p : Phone.t B F N) : Phone.syncListeners p = 0%nat → Phone.outbound p = false → Phone.told p = [] →
  Phone.told (phone_catches_up p) = [] ∧ Phone.rendered (phone_catches_up p) = Phone.rendered p.
Proof.
  intros Hsync Hout Htold. unfold phone_catches_up. cbn [Phone.told Phone.rendered Phone.set_heard].
  assert (∀ notices, let p' := foldl phone_hears p notices in Phone.syncListeners p' = 0%nat ∧ Phone.outbound p' = false ∧
    Phone.told p' = [] ∧ Phone.rendered p' = Phone.rendered p) as Hhears.
  { induction notices as [|notice notices (IH1&IH2&IH3&IH4)] using rev_ind; [done|].
    rewrite foldl_snoc. destruct notice; cbn; rewrite ?IH1, ?IH2, ?IH3, ?IH4; by split_and!. }
  destruct (Hhears (drop (Phone.heard p) (Services.notices (Phone.services p)))) as (_&Hout'&Htold'&Hdrawn).
  revert Hout' Htold' Hdrawn. generalize (foldl phone_hears p (drop (Phone.heard p) (Services.notices (Phone.services p)))).
  generalize (drop (Phone.heardFrames p) (Hub.calls (Services.peers (Phone.services p)))).
  intros calls. induction calls as [|call calls IH]; intros q Hout' Htold' Hdrawn; [done|]. simpl.
  assert (phone_emits q call = q) as -> by (destruct call; cbn; by rewrite ?Hout'). by apply IH.
Qed.

(** A phone that does not start. *)
Lemma phone_fails (network : N) (s : Services.t B F) opened e :
  ((lift opened ≫= λ _, on_services (start clock localeTime atRestUnprotected)) (s, network)).1 = Err e →
  let p := phone_starts clock localeTime atRestUnprotected opened (Phone.new s network) in
  Phone.rendered p = false ∧ Phone.told p = [].
Proof.
  intros Hfails. unfold phone_starts, phone_runs. cbn [Phone.services Phone.network Phone.new].
  destruct ((lift opened ≫= λ _, on_services (start clock localeTime atRestUnprotected)) (s, network)) as [r [s' n]].
  cbn [fst] in Hfails. subst r.
  by destruct (phone_silent (Phone.set_services s' n (Phone.new s network))) as [? ?].
Qed.

(** C19: a start that fails is told, and a window that is open is answered.  In every
    run of the desktop's main process: if the store cannot be opened, a box says
    so with the reason, the process exits with 1, and no window is ever opened;
    and whenever a window is or was there, the services are there, and every call
    of the preload script, those of the window's bridge included, has the handler
    or listener of its channel, which runs on those services: its result is the
    answer, an error wrapped by the channel, and what it leaves is what the
    process goes on with.  A phone whose store cannot be opened, or whose services
    do not start, draws nothing and tells nobody. *)
Theorem failed_start_shown (network : N) events d (Hd : runs network events d) :
  (∀ detail, AppReady (inr detail) ∈ events → gave_up detail d) ∧
  (Desktop.window d ≠ None → Desktop.exited d = None ∧ ∃ s, Desktop.services d = Some s ∧
     ∀ open save,
       (∀ call, handled open save (preload call) s (Desktop.network d) (asks open save (preload call) d)) ∧
       (∀ call, handled open save (preload_host call) s (Desktop.network d) (asks open save (preload_host call) d))) ∧
  (∀ (s : Services.t B F) opened e,
     ((lift opened ≫= λ _, on_services (start clock localeTime atRestUnprotected)) (s, network)).1 = Err e →
     let p := phone_starts clock localeTime atRestUnprotected opened (Phone.new s network) in
     Phone.rendered p = false ∧ Phone.told p = []).
Proof.
  destruct (run_state _ _ _ Hd) as [[[] Hno]|[(detail&Hup&Heq)|[Hs Hno]]]; split_and!; try exact (phone_fails network).
  - intros detail Hin. by apply Hno in Hin.
  - done.
  - intros detail' Hin. by rewrite (Heq detail' Hin).
  - intros Hw. by destruct Hup.
  - intros detail Hin. by apply Hno in Hin.
  - intros _. destruct Hs as [[s Hsome] Hr _ He _ _]. split; [done|]. exists s. split; [done|].
    intros open save. split; intros call; (apply asks_handled; [done..|]); [apply preload_there|apply preload_host_there].
Qed.

(** ** A save reaches the window *)

Lemma watcher_saved (s : Services.t B F) k bytes revision e :
  Services.vaultId s = Some k →
  recordLocalChange engine_clock revisionIds (DeviceKeyPair.deviceId keyPair) k bytes (Services.engine s)
    = (Ok (recorded revision), e) →
  let s' := (watcher_changed engine_clock revisionIds clock localeTime keyPair bytes s).2 in
  Services.engine s' = e ∧ Services.notices s' = Services.notices s ++ [SnapshotChanged; SyncSuggested] ∧
  Services.peers s' = Services.peers s ∧ Services.vaultId s' = Some k ∧
  Services.sessionsInFlight s' = Services.sessionsInFlight s.
Proof.
  intros Hk Hrun. cbv zeta. unfold watcher_changed, attempt.
  rewrite (bind_eq _ _ s (Some k) s) by (unfold gets; by rewrite Hk).
  rewrite (bind_eq _ _ s (recorded revision) (Services.set_engine e s))
    by (unfold on; cbn [part Services.engine_part]; by rewrite Hrun).
  unfold change_recorded, clearHeldBackUpdate, log, now, onSnapshotChanged, onSyncSuggested, notify, mbind, M_bind,
    modify. cbn. split_and!; try done. by rewrite <- app_assoc.
Qed.

(** The watcher reports a save: the window is told, and a snapshot will be pushed. *)
Lemma watcher_told d (s : Services.t B F) k bytes revision e : serves d →
  Desktop.window d = Some false → Desktop.services d = Some s → Services.vaultId s = Some k →
  recordLocalChange engine_clock revisionIds (DeviceKeyPair.deviceId keyPair) k bytes (Services.engine s)
    = (Ok (recorded revision), e) →
  let d' := happens (ServicesDo (WatcherReports bytes)) d in
  let s' := (watcher_changed engine_clock revisionIds clock localeTime keyPair bytes s).2 in
  Desktop.services d' = Some s' ∧ Desktop.sent d' = Desktop.sent d ++ [SendsSuggestion] ∧
  Desktop.pushes d' = S (Desktop.pushes d) ∧ Desktop.window d' = Some false.
Proof.
  intros Hserves Hw Hs Hk Hsaved. cbv zeta. cbn [desktop_event]. rewrite Hs.
  destruct (sv_caught_up _ Hserves s Hs) as [Hheard Hframes].
  destruct (watcher_saved s k bytes revision e Hk Hsaved) as (_ & Hn & Hp & _).
  change (works _ _ _ _ _ _ _ _ _ _ _ _ s) with (watcher_changed engine_clock revisionIds clock localeTime keyPair bytes s).2.
  set (s' := (watcher_changed _ _ _ _ _ _ s).2) in *. unfold main_catches_up. cbn.
  rewrite Hheard, Hframes, Hn, Hp, drop_app_length, drop_all. cbn. unfold emitToRenderer. cbn. rewrite Hw. by split_and!.
Qed.

(** The call that starts a session, for a device that has none. *)
Lemma session_answered open save d (s : Services.t B F) k peer mode : serves d → Desktop.services d = Some s →
  Services.vaultId s = Some k → peer ∉ Services.sessionsInFlight s →
  let '(r, d') := asks open save (preload (VaultApi.runSession peer mode)) d in
  ∃ s' link, Desktop.services d' = Some s' ∧ Services.engine s' = Services.engine s ∧
    peer ∈ Services.sessionsInFlight s' ∧
    r = Ok (ASession (inl (SessionInput.mk peer link (Some k) mode (if mode then Some (5 * 60000) else None)))).
Proof.
  intros Hserves Hs Hk Hfree.
  destruct (Hub.createLink peer (Services.peers s)) as [hub link] eqn:Hlink.
  assert (∃ s', session_starts peer mode s = (Ok (inl (SessionInput.mk peer link (Some k) mode
      (if mode then Some (5 * 60000) else None))), s') ∧ Services.engine s' = Services.engine s ∧
      peer ∈ Services.sessionsInFlight s') as (s' & Hrun & He & Hin).
  { unfold session_starts, mbind, M_bind, gets, modify. cbn [fst snd]. rewrite decide_False by done.
    cbn [fst snd Services.peers Services.set_sessionsInFlight]. rewrite Hlink. cbn. rewrite Hk.
    eexists. split; [reflexivity|]. split; [done|]. cbn. apply elem_of_set_add. by right. }
  unfold window_asks. rewrite (sv_registered _ Hserves), Hs. cbn [preload]. unfold desktop_ipc.
  change (map_get "session:run" _) with (Some (λ input : Argument, match input with
    | RunArgument peerId pairingMode => requireServices
        (on_services (session_starts peerId pairingMode) ≫= λ session, mret (ASession session))
    | _ => throw "Cannot read properties of undefined"
    end : M (option (Services.t B F) * N) Answer)).
  cbv beta iota. rewrite requireServices_some.
  unfold on_services at 1. unfold mbind at 1, M_bind at 1. cbn [fst snd]. rewrite Hrun. cbn [fst snd].
  change ((mret (ASession ?x) : M (Services.t B F * N) Answer) ?p) with (Ok (ASession x), p). cbv beta iota.
  exists s', link. split_and!; [|done..].
  exact (ms_services _ _ (catches_up_same (Desktop.set_services (Some s') (Desktop.network d) d))).
Qed.

Abbreviation station := (station_runs engine_clock vaultIds revisionIds clock localeTime conflictIds interpreter_merge
  interpreter_diff keyPair deviceName atRestUnprotected defaultServerHost rejected darwin).
Abbreviation next := (station_event engine_clock vaultIds revisionIds clock localeTime conflictIds interpreter_merge
  interpreter_diff keyPair deviceName atRestUnprotected defaultServerHost rejected darwin).

Lemma asks_window open save ipc d : Desktop.window (asks open save ipc d).2 = Desktop.window d.
Proof.
  unfold window_asks. destruct (Desktop.registered d); [|done].
  destruct (desktop_ipc _ _ _ _ _ _ _ _ _ _ _ _ _ _ _) as [r [o n]]. cbn [snd].
  exact (ms_window _ _ (catches_up_same (Desktop.set_services o n d))).
Qed.

Lemma window_runs network events d : runs network events d → Desktop.window d = Some false → Desktop.exited d = None.
Proof. intros Hd Hw. destruct (run_state _ _ _ Hd) as [[[] _]|[(detail&[]&_)|[[] _]]]; congruence. Qed.

(** What the main process of a station does is a run of its own. *)
Lemma station_main network w : station network w →
  (∃ events, runs network events (Workstation.main w)) ∧
  (Workstation.app w ≠ None → Desktop.window (Workstation.main w) = Some false).
Proof.
  induction 1 as [|event w _ [[events Hruns] Hpage] Hcan]; [split; [exists []; constructor|done]|].
  destruct w as [d app told carried answered]. cbn [Workstation.main Workstation.app] in *.
  destruct event as [event| | |event|open save|call]; cbn [station_can station_event Workstation.main Workstation.app] in *.
  - destruct Hcan as [Hcan _]. split; [eexists; by constructor|]. by case_decide.
  - split; [by eexists|done].
  - destruct Hcan as [[a ->] [payload Hsent]]. cbn in Hsent. rewrite Hsent. split; [by eexists|]. intros _. by apply Hpage.
  - split; [by eexists|]. destruct app; [intros _; by apply Hpage|done].
  - destruct Hcan as (a & -> & [call Hcall]). cbn in Hcall. cbn [mbind option_bind]. rewrite Hcall. unfold page_asks.
    specialize (Hpage ltac:(done)). destruct (api_call call) as [api|]; [|by split; [eexists|]].
    cbn [Workstation.main].
    assert (Desktop.exited d = None) as Hexited by by eapply window_runs.
    destruct (asks open save (preload api) d) as [answer d'] eqn:Hasks. cbn [Workstation.main Workstation.app].
    pose proof (asks_window open save (preload api) d) as Hw. rewrite Hasks in Hw. cbn [snd] in Hw. split; [|congruence].
    exists (events ++ [WindowAsks (preload api) open save]). replace d' with (happens (WindowAsks (preload api) open save) d)
      by (cbn [desktop_event]; by rewrite Hasks).
    by constructor.
  - specialize (Hpage ltac:(by destruct Hcan; congruence)).
    split; [|intros _; by rewrite asks_window].
    exists (events ++ [WindowAsks (preload_host call) (OpenDialog.mk true []) (SaveDialog.mk true None)]).
    change (asks ?open ?save ?ipc d).2 with (happens (WindowAsks ipc open save) d).
    constructor; [done|]. split; [by eapply window_runs|done].
Qed.

(** C17: a save on the desktop starts a sync.  A main process and its window, in
    any state they reach together, where the page has loaded, heard all that was
    sent and asked all it had to ask: if the page is not syncing, knows a ready
    device, and no session with the first one runs, and the watcher reports bytes
    that become a new version of the tracked vault, then the window is sent the
    suggestion to sync and a snapshot is to be pushed; hearing it, the page is
    syncing and calls for a session with that device; and as the call crosses,
    the main process answers it by starting the session of the tracked vault, with
    the new version stored.  Each of these steps can happen.  (A page that is
    syncing drops the suggestion: [sync_asked_while_syncing_is_dropped].) *)
Theorem save_starts_session (network : N) w a (s : Services.t B F) k bytes revision e peer rest open save
    (Hw : station network w) (Happ : Workstation.app w = Some a)
    (Htold : Workstation.told w = length (Desktop.sent (Workstation.main w)))
    (Hcarried : Workstation.carried w = length (App.calls a))
    (Hs : Desktop.services (Workstation.main w) = Some s) (Hk : Services.vaultId s = Some k)
    (Hsaved : recordLocalChange engine_clock revisionIds (DeviceKeyPair.deviceId keyPair) k bytes (Services.engine s)
       = (Ok (recorded revision), e))
    (Ha : App.syncing a = false) (Hready : App.readyPeers a = peer :: rest)
    (Hfree : peer ∉ Services.sessionsInFlight s) :
  let mode := App.pairingModeRef a in
  let saved := next (MainDoes (ServicesDo (WatcherReports bytes))) w in
  let heard := next PageHears saved in
  let asked := next (PageAsks open save) heard in
  station network asked ∧
  Desktop.sent (Workstation.main saved) = Desktop.sent (Workstation.main w) ++ [SendsSuggestion] ∧
  Desktop.pushes (Workstation.main saved) = S (Desktop.pushes (Workstation.main w)) ∧
  (∃ a', Workstation.app heard = Some a' ∧ App.syncing a' = true ∧
     App.calls a' = App.calls a ++ [Window.runSession peer mode]) ∧
  ∃ s' link, Desktop.services (Workstation.main asked) = Some s' ∧ Services.engine s' = e ∧
    peer ∈ Services.sessionsInFlight s' ∧
    Workstation.answers asked = Workstation.answers w ++ [(VaultApi.runSession peer mode,
      Ok (ASession (inl (SessionInput.mk peer link (Some k) mode (if mode then Some (5 * 60000) else None)))))].
Proof.
  intros mode saved heard asked. destruct (station_main network w Hw) as [[events Hruns] Hopen].
  specialize (Hopen ltac:(congruence)).
  destruct (run_state _ _ _ Hruns) as [[[] _]|[(detail&[]&_)|[Hserves _]]]; [congruence..|].
  assert (desktop_can (Workstation.main w) (ServicesDo (WatcherReports bytes))) as Hcan by (split; apply Hserves).
  pose proof (serves_event _ _ Hserves Hcan) as Hserves'.
  destruct (watcher_told _ s k bytes revision e Hserves Hopen Hs Hk Hsaved) as (Hs' & Hsent & Hpushes & Hwindow).
  destruct (watcher_saved s k bytes revision e Hk Hsaved) as (He & _ & _ & Hk' & Hf).
  set (s' := (watcher_changed _ _ _ _ _ _ s).2) in *. set (d' := happens _ (Workstation.main w)) in *.
  destruct w as [d app told carried answered]. cbn [Workstation.main Workstation.app Workstation.told Workstation.carried
    Workstation.answers] in *. subst app told carried.
  assert (saved = Workstation.mk d' (Some a) (length (Desktop.sent d)) (length (App.calls a)) answered) as Hsavedw.
  { unfold saved. cbn [station_event]. fold d'. by rewrite decide_True. }
  assert (Desktop.sent d' !! length (Desktop.sent d) = Some SendsSuggestion) as Hnext
    by by rewrite Hsent, list_lookup_middle.
  set (a' := page_told SendsSuggestion a).
  assert (heard = Workstation.mk d' (Some a') (S (length (Desktop.sent d))) (length (App.calls a)) answered) as Hheardw.
  { unfold heard. rewrite Hsavedw. cbn [station_event]. by rewrite Hnext. }
  assert (App.syncing a' = true ∧ App.calls a' = App.calls a ++ [Window.runSession peer mode]) as [Hsync Hcalls].
  { unfold a', page_told. cbn [ui_event]. unfold sync_suggested, runSync. by rewrite Hready, Ha. }
  assert (App.calls a' !! length (App.calls a) = Some (Window.runSession peer mode)) as Hcall
    by by rewrite Hcalls, list_lookup_middle.
  pose proof (session_answered open save d' s' k peer mode Hserves' Hs' Hk' ltac:(by rewrite Hf)) as Hanswer.
  assert (asked = let '(r, d2) := asks open save (preload (VaultApi.runSession peer mode)) d' in
    Workstation.mk d2 (Some a') (S (length (Desktop.sent d))) (S (length (App.calls a)))
      (answered ++ [(VaultApi.runSession peer mode, r)])) as Haskedw.
  { unfold asked. rewrite Hheardw. cbn [station_event mbind option_bind]. by rewrite Hcall. }
  assert (station network asked) as Hrun.
  { unfold asked. constructor; [|rewrite Hheardw; exists a'; by split; [|eexists]].
    unfold heard. constructor; [|rewrite Hsavedw; by split; eexists].
    unfold saved. by constructor. }
  split; [exact Hrun|]. rewrite Haskedw, Hheardw, Hsavedw.
  split; [exact Hsent|]. split; [exact Hpushes|]. split; [by exists a'|].
  destruct (asks open save (preload (VaultApi.runSession peer mode)) d') as [r d2].
  destruct Hanswer as (s2 & link & Hs2 & He2 & Hin & ->). exists s2, link. split_and!; [done|congruence|done|done].
Qed.

(** A window that is closed and opened again, on a system where the application
    goes on: the connections went with the window, and nothing tells the services,
    which show the same devices as online. *)
Lemma reopened_window_keeps_peers open save d :
  let d' := happens AppActivated (happens WindowDestroyed d) in
  Desktop.window d' = Some false ∧ Desktop.services d' = Desktop.services d ∧
  (asks open save (preload VaultApi.getSnapshot) d').1 = (asks open save (preload VaultApi.getSnapshot) d).1.
Proof.
  cbv zeta. cbn [desktop_event]. rewrite decide_True by done. split_and!; [done..|].
  unfold window_asks. cbn [Desktop.registered Desktop.services Desktop.network createWindow Desktop.set_window].
  destruct (Desktop.registered d); [|done]. by destruct (desktop_ipc _ _ _ _ _ _ _ _ _ _ _ _ _ _ _) as [r [o n]].
Qed.
End runs.

(** ** Witnesses *)

#[local] Existing Instance insertion_order.
#[local] Existing Instance first_bytes.
#[local] Existing Instance desk_blobs.
#[local] Existing Instance pairing_server.
#[local] Existing Instance toy_url.
#[local] Instance shell_files : VaultFileAccess DiskFiles.t := desk_files false.

Module Laptop.
(** What Electron makes of an error. *)
Definition rejected (channel : string) (message : option string) : string :=
  "Error invoking remote method '" +:+ channel +:+ "': Error: " +:+ default "No handler registered" message.

Abbreviation happens := (desktop_event Device.clock Device.ids Device.ids Device.clock Desk.localeTime Device.ids
  Desk.interpret Desk.diff Desk.own "desktop" false Pairing.host rejected true).
Abbreviation runs := (desktop_runs Device.clock Device.ids Device.ids Device.clock Desk.localeTime Device.ids
  Desk.interpret Desk.diff Desk.own "desktop" false Pairing.host rejected true).

(** The services after their start, and the process with its window. *)
Definition started : Services.t (FS.t * nat) DiskFiles.t := (start Device.clock Desk.localeTime false desk1).2.
Definition main : Desktop.t (FS.t * nat) DiskFiles.t Server.t :=
  happens (AppReady (inl desk1)) (Desktop.new Server.new).

Definition open : OpenDialog.t := OpenDialog.mk false ["/home/me/other.kdbx"].
Definition save : SaveDialog.t := SaveDialog.mk false (Some "/home/me/copy.kdbx").
End Laptop.

Lemma laptop_rejects : tells_error Laptop.rejected.
Proof.
  intros channel message. exists ("Error invoking remote method '" +:+ channel +:+ "': ").
  unfold Laptop.rejected. apply chars_inj. rewrite !chars_app. by rewrite <- !app_assoc.
Qed.

Lemma laptop_runs : Laptop.runs Server.new [AppReady (inl desk1)] Laptop.main.
Proof. by apply (desktop_goes_on _ _ _ _ _ _ _ _ _ _ _ _ _ _ _ []); [constructor|]. Qed.

Lemma laptop_services : Desktop.services Laptop.main = Some Laptop.started.
Proof. vm_compute. reflexivity. Qed.

Lemma laptop_shows : is_ok (snapshot Desk.own "desktop" Pairing.host Laptop.started).1.
Proof. vm_compute. exact I. Qed.

Lemma laptop_save_picked : same_save Laptop.save (λ name, picked_vault "/home/me/copy.kdbx" name).
Proof. by intros suggested. Qed.

(** Saving a copy, with the same choice on both. *)
Lemma platforms_answer_alike_witness :
  same_outcome (negb (is_choose VaultApi.saveVaultAs))
    (desktop_api Device.clock Device.ids Device.ids Device.clock Desk.localeTime Desk.interpret Desk.diff Desk.own "desktop"
       Pairing.host Laptop.rejected Laptop.open Laptop.save VaultApi.saveVaultAs
       (Some (shown_before Desk.own "desktop" Pairing.host VaultApi.saveVaultAs Laptop.started), Server.new))
    (mobile_api Device.clock Device.ids Device.ids Device.clock Desk.localeTime Desk.interpret Desk.diff Desk.own "desktop"
       Pairing.host cancelled (λ name, picked_vault "/home/me/copy.kdbx" name) VaultApi.saveVaultAs
       (Laptop.started, Server.new)).
Proof.
  exact (platforms_answer_alike Device.clock Device.ids Device.ids Device.clock Desk.localeTime Desk.interpret Desk.diff
    Desk.own "desktop" Pairing.host Laptop.rejected Laptop.open Laptop.save cancelled
    (λ name, picked_vault "/home/me/copy.kdbx" name) VaultApi.saveVaultAs Laptop.started Server.new laptop_rejects
    ltac:(discriminate) (λ _, conj laptop_save_picked laptop_shows)).
Defined.

Lemma laptop_window : Desktop.window Laptop.main ≠ None.
Proof. vm_compute. discriminate. Qed.

(** The desktop starts, and has a handler for a merge; a full disk is told. *)
Lemma failed_start_shown_witness :
  (Desktop.exited Laptop.main = None ∧
   ∃ handler, map_get "merge:run" (handlers Device.clock Device.ids Device.ids Device.clock Desk.localeTime
     Desk.interpret Desk.diff Desk.own "desktop" Pairing.host Laptop.open Laptop.save) = Some handler) ∧
  gave_up "disk full" (Laptop.happens (AppReady (inr "disk full")) (Desktop.new Server.new)).
Proof.
  split.
  - destruct (proj1 (proj2 (failed_start_shown Device.clock Device.ids Device.ids Device.clock Desk.localeTime Device.ids
      Desk.interpret Desk.diff Desk.own "desktop" false Pairing.host Laptop.rejected true Server.new
      [AppReady (inl desk1)] Laptop.main laptop_runs)) laptop_window) as (Hexited & s & _ & Hanswers).
    split; [exact Hexited|].
    destruct (proj1 (Hanswers Laptop.open Laptop.save) (VaultApi.merge "aa" ["aa"] "open sesame")) as (handler & Hget & _).
    exists handler. exact Hget.
  - refine (proj1 (failed_start_shown Device.clock Device.ids Device.ids Device.clock Desk.localeTime Device.ids
      Desk.interpret Desk.diff Desk.own "desktop" false Pairing.host Laptop.rejected true Server.new
      [AppReady (inr "disk full")] _ _) "disk full" _).
    + by apply (desktop_goes_on _ _ _ _ _ _ _ _ _ _ _ _ _ _ _ []); [constructor|].
    + by apply list_elem_of_singleton.
Defined.

(** The page loads and asks what it asks first; the phone connects, and the
    session with it fails. *)
Definition station_events : list (StationEvent (FS.t * nat) DiskFiles.t) :=
  [MainDoes (AppReady (inl desk1)); PageLoads; PageAsks Laptop.open Laptop.save; PageAsks Laptop.open Laptop.save;
   PageTells (HostCall.peerOpen "phone"); PageDoes (HearsBridge (onPeer "phone")); PageAsks Laptop.open Laptop.save;
   MainDoes (ServicesDo (EndsSession "phone" (inr (SessionError.mk timeout "gone"))));
   PageDoes (TaskIs 2 (SyncEnded (inl (sync_failed "gone")))); PageAsks Laptop.open Laptop.save].

Abbreviation station_next := (station_event Device.clock Device.ids Device.ids Device.clock Desk.localeTime Device.ids
  Desk.interpret Desk.diff Desk.own "desktop" false Pairing.host Laptop.rejected true).
Abbreviation station_reached := (station_runs Device.clock Device.ids Device.ids Device.clock Desk.localeTime Device.ids
  Desk.interpret Desk.diff Desk.own "desktop" false Pairing.host Laptop.rejected true Server.new).

Definition station_at (n : nat) : Workstation.t (FS.t * nat) DiskFiles.t Server.t :=
  foldl (λ w event, station_next event w) (Workstation.mk (Desktop.new Server.new) None 0 0 []) (take n station_events).

Lemma station_more n event : station_events !! n = Some event →
  station_reached (station_at n) → station_can (station_at n) event → station_reached (station_at (S n)).
Proof.
  intros Hevent Hn Hcan. assert (station_at (S n) = station_next event (station_at n)) as ->.
  { unfold station_at. by rewrite (take_S_r _ _ _ Hevent), foldl_snoc. }
  by apply station_goes_on.
Qed.

Ltac station_goes n := refine (station_more n _ eq_refl _ _);
  [|vm_compute; repeat match goal with
    | |- _ ∧ _ => split
    | |- ∃ _, _ => eexists
    | |- True => exact I
    | |- _ = _ => reflexivity
    | |- _ => intros; discriminate
    end].

Lemma station_runs_all : station_reached (station_at 10).
Proof.
  station_goes 9%nat. station_goes 8%nat. station_goes 7%nat. station_goes 6%nat. station_goes 5%nat.
  station_goes 4%nat. station_goes 3%nat. station_goes 2%nat. station_goes 1%nat. station_goes 0%nat. apply station_begins.
Qed.

(** The desktop tracks its vault, and the page knows the phone. *)
Definition station_services : Services.t (FS.t * nat) DiskFiles.t :=
  default Laptop.started (Desktop.services (Workstation.main (station_at 10))).
Definition station_app : App.t := default opened (Workstation.app (station_at 10)).

Lemma station_has_app : Workstation.app (station_at 10) = Some station_app.
Proof. vm_compute. reflexivity. Qed.

Lemma station_has_services : Desktop.services (Workstation.main (station_at 10)) = Some station_services.
Proof. vm_compute. reflexivity. Qed.

Lemma station_told : Workstation.told (station_at 10) = length (Desktop.sent (Workstation.main (station_at 10))).
Proof. vm_compute. reflexivity. Qed.

Lemma station_carried : Workstation.carried (station_at 10) = length (App.calls station_app).
Proof. vm_compute. reflexivity. Qed.

Lemma station_vault : Services.vaultId station_services = Some "a".
Proof. vm_compute. reflexivity. Qed.

Lemma station_saves : ∃ revision e,
  recordLocalChange Device.clock Device.ids "this" "a" (Desk.kdbx Byte.x01) (Services.engine station_services)
    = (Ok (recorded revision), e).
Proof. do 2 eexists. vm_compute. reflexivity. Qed.

Lemma station_idle : App.syncing station_app = false ∧ App.readyPeers station_app = ["phone"].
Proof. split; vm_compute; reflexivity. Qed.

Lemma station_free : Services.sessionsInFlight station_services = [].
Proof. vm_compute. reflexivity. Qed.

Lemma save_starts_session_witness : ∃ s',
  Desktop.services (Workstation.main (station_next (PageAsks Laptop.open Laptop.save) (station_next PageHears
    (station_next (MainDoes (ServicesDo (WatcherReports (Desk.kdbx Byte.x01)))) (station_at 10))))) = Some s' ∧
  "phone" ∉ Services.sessionsInFlight station_services ∧ "phone" ∈ Services.sessionsInFlight s'.
Proof.
  destruct station_saves as (revision & e & Hsaved).
  assert ("phone" ∉ Services.sessionsInFlight station_services) as Hfree by (rewrite station_free; apply not_elem_of_nil).
  destruct (save_starts_session Device.clock Device.ids Device.ids Device.clock Desk.localeTime Device.ids
    Desk.interpret Desk.diff Desk.own "desktop" false Pairing.host Laptop.rejected true Server.new (station_at 10)
    station_app station_services "a" (Desk.kdbx Byte.x01) revision e "phone" [] Laptop.open Laptop.save station_runs_all
    station_has_app station_told station_carried station_has_services station_vault Hsaved (proj1 station_idle)
    (proj2 station_idle) Hfree) as (_ & _ & _ & _ & s' & link & Hs' & _ & Hin & _).
  exists s'. split; [exact Hs'|]. split; [exact Hfree|exact Hin].
Defined.
