(* ===== verification/Screen.v ===== *)
(** * The screen

    The cards of packages/ui/src/App.tsx: what they show and offer, what they
    keep, and what a press does.  A card is a list of texts, fields and buttons;
    texts that are always the same and the looks are left out.  A card that is no
    longer shown forgets what it kept, and is a new one when it is shown again:
    [mounts] numbers them, and a promise whose card is gone changes no card.  The
    cards are drawn after every event.  What the whole window keeps is the [App.t]
    of Window.v. *)

From S2P Require Import Prelude Model JsString Json JsMap Effects Identity ShortCode Settings Rooms VaultFile Explain.
From S2P Require Import Services Hub Offer Calls Snapshot Bridge Window Shell.

Open Scope Z_scope.

(** ** What can be pressed *)

Inductive FileChange : Type := to_switch | to_stop.

#[global] Instance FileChange_eq_dec : EqDecision FileChange.
Proof. solve_decision. Defined.

Inductive Copied : Type := the_code | the_qualified | the_link.

#[global] Instance Copied_eq_dec : EqDecision Copied.
Proof. solve_decision. Defined.

Inductive Press : Type :=
  | Pages (tab : Tab)
  | Dismisses
  | AnswersCheck (matches : bool)
  | ChoosesVault
  | SavesHere
  | AppliesPending
  | Combines (otherVersionId : RevisionId)
  | ShowsOneSided
  | Resolves (conflictId : ConflictId) (decision : Decision3)
  | AsksFile (change : FileChange)
  | SwitchesFile
  | StopsTracking
  | CancelsFile
  | RestoresVersion (versionId : RevisionId)
  | SyncsNow (deviceId : DeviceId)
  | Reconnects (deviceId : DeviceId)
  | Disconnects (deviceId : DeviceId)
  | AsksForget (deviceId : DeviceId)
  | ForgetsDevice (deviceId : DeviceId)
  | CancelsForget (deviceId : DeviceId)
  | GetsCode
  | ConnectsWithCode
  | Copies (what : Copied) (value : string)
  | ShowsLink
  | TestsServer
  | ShowsRelay
  | SavesSettings.

#[global] Instance Decision3_eq_dec : EqDecision Decision3.
Proof. solve_decision. Defined.

#[global] Instance Press_eq_dec : EqDecision Press.
Proof. solve_decision. Defined.

Inductive Field : Type :=
  | CodeField
  | PasswordField
  | HostField
  | RelayUrlField
  | RelayUsernameField
  | RelayCredentialField.

#[global] Instance Field_eq_dec : EqDecision Field.
Proof. solve_decision. Defined.

Module Button.
Record t : Type := mk {
  label : string;
  enabled : bool;
  press : Press;
}.
End Button.

Inductive Item : Type :=
  | Says (text : string)
  | Fills (field : Field) (value : string)
  | Offers (button : Button.t).

(** ** What the cards keep *)

Module ConflictForm.
Record t : Type := mk {
  password : string;
  working : bool;
  showOneSided : bool;
}.
Definition new : t := mk EmptyString false false.
Definition set_password x (f : t) : t := mk x (working f) (showOneSided f).
Definition set_working x (f : t) : t := mk (password f) x (showOneSided f).
Definition set_showOneSided x (f : t) : t := mk (password f) (working f) x.
End ConflictForm.

Module ConnectionState.
(** [settings] are those that were loaded. *)
Record t : Type := mk {
  settings : option ConnectionSettings.t;
  form : ConnectionForm.t;
  testing : bool;
  result : option (bool * string);
  showRelay : bool;
}.
Definition new : t :=
  mk None (ConnectionForm.mk EmptyString EmptyString EmptyString EmptyString) false None false.
Definition set_settings x (c : t) : t := mk (Some x) (form c) (testing c) (result c) (showRelay c).
Definition set_form x (c : t) : t := mk (settings c) x (testing c) (result c) (showRelay c).
Definition set_testing x (c : t) : t := mk (settings c) (form c) x (result c) (showRelay c).
Definition set_result x (c : t) : t := mk (settings c) (form c) (testing c) x (showRelay c).
Definition set_showRelay x (c : t) : t := mk (settings c) (form c) (testing c) (result c) x.
End ConnectionState.

Module CodePanel.
Record t : Type := mk {
  copied : option Copied;
  showLink : bool;
}.
Definition new : t := mk None false.
Definition set_copied x (p : t) : t := mk x (showLink p).
Definition set_showLink x (p : t) : t := mk (copied p) x.
End CodePanel.

(** What is awaited, and by which card. *)
Inductive CardTask : Type :=
  | Choosing
  | Writing
  | LoadingSettings (card : nat)
  | SavingSettings (card : nat)
  | Testing (card : nat)
  | Combining (card : nat)
  | Copying (card : nat) (what : Copied)
  | Fading (card : nat).

Inductive CardResult : Type :=
  | Answered (answer : Answer)
  | Threw (error : option string).

Module Screen.
(** [asking] are the devices whose row asks whether to forget them, [file] what
    the card of the file asks. *)
Record t : Type := mk {
  app : App.t;
  asking : list DeviceId;
  file : option FileChange;
  conflict : option (nat * ConflictForm.t);
  connection : option (nat * ConnectionState.t);
  panel : option (nat * CodePanel.t);
  mounts : nat;
  tasks : list CardTask;
  asked : list VaultApi.t;
}.

Definition set_app x (s : t) : t := mk x (asking s) (file s) (conflict s) (connection s) (panel s) (mounts s) (tasks s) (asked s).
Definition set_asking x (s : t) : t := mk (app s) x (file s) (conflict s) (connection s) (panel s) (mounts s) (tasks s) (asked s).
Definition set_file x (s : t) : t := mk (app s) (asking s) x (conflict s) (connection s) (panel s) (mounts s) (tasks s) (asked s).
Definition set_conflict x (s : t) : t := mk (app s) (asking s) (file s) x (connection s) (panel s) (mounts s) (tasks s) (asked s).
Definition set_connection x (s : t) : t := mk (app s) (asking s) (file s) (conflict s) x (panel s) (mounts s) (tasks s) (asked s).
Definition set_panel x (s : t) : t := mk (app s) (asking s) (file s) (conflict s) (connection s) x (mounts s) (tasks s) (asked s).
Definition mount (s : t) : t := mk (app s) (asking s) (file s) (conflict s) (connection s) (panel s) (S (mounts s)) (tasks s) (asked s).
Definition set_tasks x (s : t) : t := mk (app s) (asking s) (file s) (conflict s) (connection s) (panel s) (mounts s) x (asked s).
Definition ask x (s : t) : t := mk (app s) (asking s) (file s) (conflict s) (connection s) (panel s) (mounts s) (tasks s) (asked s ++ [x]).
End Screen.

Implicit Types s : Screen.t.

(** A call whose answer is awaited. *)
Definition ask_then (call : VaultApi.t) (task : CardTask) s : Screen.t :=
  Screen.set_tasks (Screen.tasks s ++ [task]) (Screen.ask call s).

Definition in_window (event : UiEvent) s : Screen.t := Screen.set_app (ui_event event (Screen.app s)) s.
Definition notice_is (message : string) s : Screen.t :=
  Screen.set_app (App.set_notice (Some message) (Screen.app s)) s.

(** What a card keeps, if it is still there. *)
Definition if_card {A} (card : nat) (f : A → A) (x : option (nat * A)) : option (nat * A) :=
  match x with Some (n, y) => if decide (n = card) then Some (n, f y) else x | None => None end.

Definition any_card {A} (f : A → A) (x : option (nat * A)) : option (nat * A) := prod_map id f <$> x.

(** ** What the cards show *)

Section views.
Context (now : Z).

Definition offers (label : string) (press : Press) : Item := Offers (Button.mk label true press).
Definition offers_if (enabled : bool) (label : string) (press : Press) : Item := Offers (Button.mk label enabled press).

Definition header_view (a : App.t) (snapshot : AppSnapshot.t) : list Item :=
  [offers "Home" (Pages home); offers "History" (Pages history); offers "Devices" (Pages devices);
   Says (App.connection a); Says (DeviceSummary.name (AppSnapshot.device snapshot))].

Definition notice_view (notice : option string) : list Item :=
  match notice with Some notice => [Says notice; offers "Dismiss" Dismisses] | None => [] end.

Definition VerifyCard (verification : option (string * string)) : list Item :=
  match verification with
  | Some (peerName, code) =>
      [Says "Do these numbers match?"; Says (peerName +:+ " is trying to connect."); Says code;
       offers "Yes, they match" (AnswersCheck true); offers "No — do not connect" (AnswersCheck false)]
  | None => []
  end.

Definition StatusCard_view (card : StatusCard) : list Item :=
  match card with
  | SetUpSyncing => [Says "Set up syncing"; offers "My password file is on this device" ChoosesVault]
  | AlmostThere vaultName =>
      [Says "Almost there"; Says (vaultName +:+ " arrived from your other device.");
       offers "Save it on this device" SavesHere]
  | WaitingForKeePassXC file =>
      [Says "Waiting for KeePassXC"; Says ("KeePassXC currently has " +:+ file +:+ " open.");
       offers "I closed it — update now" AppliesPending]
  | BothDevicesChanged =>
      [Says "Both devices changed things"; Says "Combine them below to keep every change from both devices."]
  | InSync file lastChange =>
      [Says "Everything is in sync";
       Says (file +:+ " is up to date" +:+
             match lastChange with Some time => " · last change " +:+ whenever now time | None => EmptyString end
             +:+ ".")]
  end.

Definition ConflictCard (conflictId : ConflictId) (other : RevisionId) (savedAt : Z) (f : ConflictForm.t) : list Item :=
  [Says "Combine the changes"; Says ("Your other device saved changes too (" +:+ whenever now savedAt +:+ ").");
   Fills PasswordField (ConflictForm.password f);
   offers_if (negb (bool_decide (ConflictForm.password f = EmptyString) || ConflictForm.working f))
     (if ConflictForm.working f then "Combining…" else "Combine and keep both") (Combines other);
   offers (if ConflictForm.showOneSided f then "Hide other options" else "Other options") ShowsOneSided]
  ++ if ConflictForm.showOneSided f
     then [offers "Keep only this device’s version" (Resolves conflictId keeps_current);
           offers "Use only the other device’s version" (Resolves conflictId switches_incoming)]
     else [].

Definition VaultFileCard (name path : string) (asks : option FileChange) : list Item :=
  match asks with
  | Some to_switch =>
      [Says "Use a different file?"; Says name; offers "Choose a file…" SwitchesFile; offers "Cancel" CancelsFile]
  | Some to_stop =>
      [Says "Stop tracking this file?"; Says name; offers "Stop tracking it" StopsTracking; offers "Cancel" CancelsFile]
  | None =>
      [Says "The file on this device"; Says path;
       offers "Use a different file…" (AsksFile to_switch); offers "Stop tracking it" (AsksFile to_stop)]
  end.

Definition version_view (version : VersionSummary.t) : list Item :=
  [Says (VersionSummary.summary version);
   Says (whenever now (VersionSummary.savedAt version) +:+
         if VersionSummary.isCurrent version then " · in use now" else EmptyString)]
  ++ if VersionSummary.isCurrent version then [Says "In use"]
     else [offers "Restore" (RestoresVersion (VersionSummary.id version))].

Definition HistoryCard (versions : list VersionSummary.t) : list Item :=
  Says "Version history" ::
  if decide (versions = []) then [Says "Nothing saved yet."] else mjoin (version_view <$> versions).

Definition DeviceRow (asks : bool) (device : PairedDeviceSummary.t) : list Item :=
  let deviceId := PairedDeviceSummary.deviceId device in
  [Says (PairedDeviceSummary.name device); Says (presence now device)]
  ++ match device_buttons asks device with
     | ConfirmForget =>
         [Says "Forget it completely?"; offers "Yes, forget it" (ForgetsDevice deviceId);
          offers "Cancel" (CancelsForget deviceId)]
     | ReconnectOrForget => [offers "Reconnect" (Reconnects deviceId); offers "Forget" (AsksForget deviceId)]
     | SyncOrDisconnect label enabled =>
         [offers_if enabled label (SyncsNow deviceId); offers "Disconnect" (Disconnects deviceId)]
     end.

Definition DevicesCard (asking : list DeviceId) (pairedDevices : list PairedDeviceSummary.t) : list Item :=
  Says "Your devices" ::
  if decide (pairedDevices = []) then [Says "No other devices yet."]
  else mjoin ((λ device, DeviceRow (bool_decide (PairedDeviceSummary.deviceId device ∈ asking)) device)
                <$> pairedDevices).

Definition copy_label (copied : option Copied) (what : Copied) (label : string) : string :=
  if decide (copied = Some what) then "Copied" else label.

Definition PairingCodePanel (pairing : PairingCode.t) (p : CodePanel.t) : list Item :=
  match PairingCode.short pairing with
  | None => [Says "This connection server does not hand out short codes, so use the link below."]
  | Some short =>
      [Says (ShortCodes.shortCode short);
       offers (copy_label (CodePanel.copied p) the_code "Copy code") (Copies the_code (ShortCodes.shortCode short));
       Says ("Held on " +:+ PairingCode.serverHost pairing +:+ ".");
       Says (ShortCodes.shortCodeQualified short);
       offers (copy_label (CodePanel.copied p) the_qualified "Copy")
         (Copies the_qualified (ShortCodes.shortCodeQualified short))]
  end
  ++ offers (if CodePanel.showLink p then "Hide the link" else "Use a link instead") ShowsLink ::
  if CodePanel.showLink p
  then [Says (PairingCode.code pairing);
        offers (copy_label (CodePanel.copied p) the_link "Copy link") (Copies the_link (PairingCode.code pairing))]
  else [].

Definition ConnectCard (a : App.t) (panel : option (nat * CodePanel.t)) : list Item :=
  [Says "Connect another device";
   offers_if (negb (App.busy a)) (match App.pairing a with None => "Get a code" | Some _ => "Get a new code" end) GetsCode]
  ++ match App.pairing a, panel with
     | Some pairing, Some (_, p) => PairingCodePanel pairing p
     | _, _ => []
     end
  ++ [Fills CodeField (App.enteredCode a);
      offers_if (negb (App.busy a || bool_decide (App.enteredCode a = EmptyString))) "Connect" ConnectsWithCode].

Definition ConnectionCard (c : ConnectionState.t) : list Item :=
  match ConnectionState.settings c with
  | None => [Says "Loading…"]
  | Some settings =>
      let form := ConnectionState.form c in
      [Says "Connection server"; Fills HostField (ConnectionForm.host form);
       offers_if (negb (ConnectionState.testing c || bool_decide (trim (ConnectionForm.host form) = EmptyString)))
         (if ConnectionState.testing c then "Checking…" else "Check it works") TestsServer]
      ++ match ConnectionState.result c with Some (_, detail) => [Says detail] | None => [] end
      ++ [offers (if ConnectionState.showRelay c then "Hide relay settings" else "Add a relay (for restrictive networks)")
            ShowsRelay]
      ++ (if ConnectionState.showRelay c
          then [Fills RelayUrlField (ConnectionForm.url form); Fills RelayUsernameField (ConnectionForm.username form);
                Fills RelayCredentialField (ConnectionForm.credential form)]
          else [])
      ++ [offers_if (ConnectionForm.changed form settings) "Save" SavesSettings]
  end.

(** ** The pages *)

Definition combinable (snapshot : AppSnapshot.t) : option (ConflictSummary.t * VersionSummary.t) :=
  match head (AppSnapshot.conflicts snapshot),
        head (filter (λ v, VersionSummary.canCombine v = true) (AppSnapshot.versions snapshot)) with
  | Some conflict, Some other => Some (conflict, other)
  | _, _ => None
  end.

Definition vault_path (snapshot : AppSnapshot.t) : option string := AppSnapshot.vault snapshot ≫= VaultSummary.kdbxPath.

Definition HomePage (snapshot : AppSnapshot.t) s : list (list Item) :=
  let current := head (filter (λ v, VersionSummary.isCurrent v = true) (AppSnapshot.versions snapshot)) in
  [StatusCard_view (status_card snapshot (VersionSummary.savedAt <$> current));
   match combinable snapshot, Screen.conflict s with
   | Some (conflict, other), Some (_, f) =>
       ConflictCard (ConflictSummary.id conflict) (VersionSummary.id other) (VersionSummary.savedAt other) f
   | _, _ => []
   end;
   match vault_path snapshot with
   | Some path => VaultFileCard (fileNameOf (AppSnapshot.vault snapshot)) path (Screen.file s)
   | None => []
   end;
   if Cards.addDevice (cards snapshot)
   then [Says "Add your other device"; offers "Set up another device" (Pages devices)]
   else [];
   Says <$> take 20 (AppSnapshot.activity snapshot)].

Definition DevicesPage (snapshot : AppSnapshot.t) s : list (list Item) :=
  [DevicesCard (Screen.asking s) (AppSnapshot.pairedDevices snapshot);
   ConnectCard (Screen.app s) (Screen.panel s);
   match Screen.connection s with Some (_, c) => ConnectionCard c | None => [] end].

Definition App_view s : list (list Item) :=
  let a := Screen.app s in
  match App.snapshot a with
  | None => [[Says "Starting…"]]
  | Some snapshot =>
      header_view a snapshot :: notice_view (App.notice a) :: VerifyCard (AppSnapshot.verification snapshot) ::
      match App.tab a with
      | home => HomePage snapshot s
      | history => [HistoryCard (AppSnapshot.versions snapshot)]
      | devices => DevicesPage snapshot s
      end
  end.
End views.

(** What can be pressed, and what can be typed in. *)
Definition presses (item : Item) : option Press :=
  match item with Offers b => if Button.enabled b then Some (Button.press b) else None | _ => None end.

Definition typed_in (item : Item) : option Field := match item with Fills field _ => Some field | _ => None end.

Definition offered (now : Z) s (press : Press) : Prop := press ∈ omap presses (mjoin (App_view now s)).
Definition fillable (now : Z) s (field : Field) : Prop := field ∈ omap typed_in (mjoin (App_view now s)).

(** ** Cards that come and go *)

(** Whether a card is shown. *)
Definition shows_file s : bool :=
  match App.snapshot (Screen.app s) with
  | Some snapshot => bool_decide (App.tab (Screen.app s) = home) && bool_decide (is_Some (vault_path snapshot))
  | None => false
  end.
Definition shows_conflict s : bool :=
  match App.snapshot (Screen.app s) with
  | Some snapshot => bool_decide (App.tab (Screen.app s) = home) && bool_decide (is_Some (combinable snapshot))
  | None => false
  end.
Definition shows_devices s : bool :=
  match App.snapshot (Screen.app s) with Some _ => bool_decide (App.tab (Screen.app s) = devices) | None => false end.
Definition shows_panel s : bool :=
  shows_devices s && match App.pairing (Screen.app s) with Some _ => true | None => false end.

Definition mounted_conflict s : Screen.t :=
  if shows_conflict s
  then match Screen.conflict s with
       | Some _ => s
       | None => Screen.mount (Screen.set_conflict (Some (Screen.mounts s, ConflictForm.new)) s)
       end
  else Screen.set_conflict None s.

(** The card of the connection server loads the settings as it comes. *)
Definition mounted_connection s : Screen.t :=
  if shows_devices s
  then match Screen.connection s with
       | Some _ => s
       | None =>
           let n := Screen.mounts s in
           Screen.mount (ask_then VaultApi.connectionSettings (LoadingSettings n)
             (Screen.set_connection (Some (n, ConnectionState.new)) s))
       end
  else Screen.set_connection None s.

Definition mounted_panel s : Screen.t :=
  if shows_panel s
  then match Screen.panel s with
       | Some _ => s
       | None => Screen.mount (Screen.set_panel (Some (Screen.mounts s, CodePanel.new)) s)
       end
  else Screen.set_panel None s.

(** The rows of devices, each under the name of its device. *)
Definition shown_rows s : list DeviceId :=
  match App.snapshot (Screen.app s) with
  | Some snapshot =>
      if shows_devices s then PairedDeviceSummary.deviceId <$> AppSnapshot.pairedDevices snapshot else []
  | None => []
  end.

Definition mounted_rows s : Screen.t :=
  Screen.set_asking (filter (λ d, d ∈ shown_rows s) (Screen.asking s)) s.

Definition mounted_file s : Screen.t := if shows_file s then s else Screen.set_file None s.

Definition mounted s : Screen.t :=
  mounted_panel (mounted_connection (mounted_conflict (mounted_rows (mounted_file s)))).

(** ** Presses *)

Definition pressed (press : Press) s : Screen.t :=
  match press with
  | Pages tab => in_window (PressesTab tab) s
  | Dismisses => in_window DismissesNotice s
  | AnswersCheck matches => Screen.ask (VaultApi.answerVerification matches) s
  | ChoosesVault => ask_then VaultApi.chooseVault Choosing s
  | SavesHere => ask_then VaultApi.saveVaultAs Writing s
  | AppliesPending => ask_then VaultApi.applyPendingUpdate Writing s
  | Combines other =>
      match Screen.conflict s with
      | Some (n, f) => ask_then (VaultApi.combineAndUse other (ConflictForm.password f)) (Combining n)
                         (Screen.set_conflict (Some (n, ConflictForm.set_working true f)) s)
      | None => s
      end
  | ShowsOneSided =>
      Screen.set_conflict
        (any_card (λ f, ConflictForm.set_showOneSided (negb (ConflictForm.showOneSided f)) f) (Screen.conflict s)) s
  | Resolves conflictId decision => Screen.ask (VaultApi.resolveConflict conflictId decision) s
  | AsksFile change => Screen.set_file (Some change) s
  | SwitchesFile => ask_then VaultApi.chooseVault Choosing (Screen.set_file None s)
  | StopsTracking => Screen.ask VaultApi.stopTrackingVault (Screen.set_file None s)
  | CancelsFile => Screen.set_file None s
  | RestoresVersion versionId => Screen.ask (VaultApi.restoreVersion versionId) s
  | SyncsNow deviceId => in_window (PressesSync deviceId) s
  | Reconnects deviceId => Screen.ask (VaultApi.reconnectDevice deviceId) s
  | Disconnects deviceId => Screen.ask (VaultApi.disconnectDevice deviceId) s
  | AsksForget deviceId => Screen.set_asking (set_add (Screen.asking s) deviceId) s
  | ForgetsDevice deviceId => Screen.ask (VaultApi.forgetDevice deviceId) s
  | CancelsForget deviceId => Screen.set_asking (set_delete (Screen.asking s) deviceId) s
  | GetsCode => in_window PressesGetCode s
  | ConnectsWithCode => in_window PressesConnect s
  | Copies what value =>
      match Screen.panel s with
      | Some (n, _) => Screen.set_tasks (Screen.tasks s ++ [Copying n what]) s
      | None => s
      end
  | ShowsLink =>
      Screen.set_panel (any_card (λ p, CodePanel.set_showLink (negb (CodePanel.showLink p)) p) (Screen.panel s)) s
  | TestsServer =>
      match Screen.connection s with
      | Some (n, c) => ask_then (VaultApi.testConnectionServer (trim (ConnectionForm.host (ConnectionState.form c))))
                         (Testing n)
                         (Screen.set_connection (Some (n, ConnectionState.set_result None (ConnectionState.set_testing true c))) s)
      | None => s
      end
  | ShowsRelay =>
      Screen.set_connection
        (any_card (λ c, ConnectionState.set_showRelay (negb (ConnectionState.showRelay c)) c) (Screen.connection s)) s
  | SavesSettings =>
      match Screen.connection s with
      | Some (n, c) =>
          ask_then (VaultApi.saveConnectionSettings (ConnectionForm.to_save (ConnectionState.form c))) (SavingSettings n) s
      | None => s
      end
  end.

(** ** What is typed *)

Definition typed (field : Field) (value : string) s : Screen.t :=
  let in_form f :=
    Screen.set_connection (any_card (λ c, ConnectionState.set_form (f (ConnectionState.form c)) c) (Screen.connection s)) s in
  match field with
  | CodeField => in_window (TypesCode value) s
  | PasswordField => Screen.set_conflict (any_card (ConflictForm.set_password value) (Screen.conflict s)) s
  | HostField => in_form (ConnectionForm.set_host value)
  | RelayUrlField =>
      in_form (λ f, ConnectionForm.mk (ConnectionForm.host f) value (ConnectionForm.username f) (ConnectionForm.credential f))
  | RelayUsernameField =>
      in_form (λ f, ConnectionForm.mk (ConnectionForm.host f) (ConnectionForm.url f) value (ConnectionForm.credential f))
  | RelayCredentialField =>
      in_form (λ f, ConnectionForm.mk (ConnectionForm.host f) (ConnectionForm.url f) (ConnectionForm.username f) value)
  end.

Definition leaves_host s : Screen.t :=
  Screen.set_connection
    (any_card (λ c, ConnectionState.set_form (ConnectionForm.blur (ConnectionState.form c)) c) (Screen.connection s)) s.

(** ** What is awaited *)

(** What a [WriteBackOutcome] that is no writing says. *)
Definition write_refusal (outcome : WriteBackOutcome) : option string :=
  match outcome with written _ => None | refused_locked reason | write_failed reason => Some reason end.

Definition merge_refusal (outcome : MergeOutcomeSummary) : option string :=
  match outcome with
  | merged_summary _ => None
  | summary_needs_credentials reason | summary_failed reason => Some reason
  end.

Definition notice_of (reason : option string) s : Screen.t :=
  match reason with Some reason => notice_is reason s | None => s end.

Definition settings_loaded (loaded : ConnectionSettings.t) (c : ConnectionState.t) : ConnectionState.t :=
  ConnectionState.set_form (ConnectionForm.of_settings loaded) (ConnectionState.set_settings loaded c).

Definition settings_saved (saved : ConnectionSettings.t) (c : ConnectionState.t) : ConnectionState.t :=
  ConnectionState.set_result
    (Some (true, "Saved. This device now meets others at " +:+ ConnectionSettings.serverHost saved +:+ "."))
    (ConnectionState.set_settings saved c).

Definition card_task_is (task : CardTask) (result : CardResult) s : Screen.t :=
  match task, result with
  | Choosing, Threw error => notice_is (readableError error "That file could not be used.") s
  | Writing, Answered (AWriteBack outcome) => notice_of (write_refusal outcome) s
  | LoadingSettings n, Answered (ASettings loaded) =>
      Screen.set_connection (if_card n (settings_loaded loaded) (Screen.connection s)) s
  | SavingSettings n, Answered (ASettings saved) =>
      Screen.set_connection (if_card n (settings_saved saved) (Screen.connection s)) s
  | SavingSettings _, Threw error => notice_is (readableError error "Could not save that.") s
  | Testing n, Answered (ATest ok detail) =>
      Screen.set_connection
        (if_card n (λ c, ConnectionState.set_testing false (ConnectionState.set_result (Some (ok, detail)) c))
           (Screen.connection s)) s
  | Testing n, Threw _ => Screen.set_connection (if_card n (ConnectionState.set_testing false) (Screen.connection s)) s
  | Combining n, Answered (AMerge outcome) =>
      notice_of (merge_refusal outcome)
        (Screen.set_conflict
           (if_card n (λ f, ConflictForm.set_working false (ConflictForm.set_password EmptyString f)) (Screen.conflict s)) s)
  | Combining n, Threw _ => Screen.set_conflict (if_card n (ConflictForm.set_working false) (Screen.conflict s)) s
  | Copying n what, Answered _ =>
      Screen.set_tasks (Screen.tasks s ++ [Fading n])
        (Screen.set_panel (if_card n (CodePanel.set_copied (Some what)) (Screen.panel s)) s)
  | Fading n, _ => Screen.set_panel (if_card n (CodePanel.set_copied None) (Screen.panel s)) s
  | _, _ => s
  end.

(** ** Events *)

Inductive ScreenEvent : Type :=
  | Hears (event : UiEvent)
  | Presses (press : Press)
  | TypesIn (field : Field) (value : string)
  | LeavesHost
  | EntersCode
  | CardTaskIs (task : nat) (result : CardResult).

(** What is no press on a card. *)
Definition heard (event : UiEvent) : bool :=
  match event with
  | HearsBridge _ | PushesSnapshot _ | SuggestsSync | Draws | PressesBack | TaskIs _ _ => true
  | _ => false
  end.

Definition answers (task : CardTask) (result : CardResult) : bool :=
  match task, result with
  | _, Threw _ | Choosing, _ | Copying _ _, _ | Fading _, _ => true
  | Writing, Answered (AWriteBack _) => true
  | (LoadingSettings _ | SavingSettings _), Answered (ASettings _) => true
  | Testing _, Answered (ATest _ _) => true
  | Combining _, Answered (AMerge _) => true
  | _, _ => false
  end.

Definition screen_can s (event : ScreenEvent) : Prop :=
  match event with
  | Hears event => heard event = true ∧ ui_can (Screen.app s) event
  | Presses press => ∃ now, offered now s press
  | TypesIn field _ => ∃ now, fillable now s field
  | LeavesHost => ∃ now, fillable now s HostField
  | EntersCode => (∃ now, fillable now s CodeField) ∧ App.enteredCode (Screen.app s) ≠ EmptyString
  | CardTaskIs i result => ∃ task, Screen.tasks s !! i = Some task ∧ answers task result = true
  end.

Definition acts (event : ScreenEvent) s : Screen.t :=
  match event with
  | Hears event => in_window event s
  | Presses press => pressed press s
  | TypesIn field value => typed field value s
  | LeavesHost => leaves_host s
  | EntersCode => in_window PressesEnter s
  | CardTaskIs i result =>
      match Screen.tasks s !! i with
      | Some task => card_task_is task result (Screen.set_tasks (delete i (Screen.tasks s)) s)
      | None => s
      end
  end.

Definition screen_event (event : ScreenEvent) s : Screen.t := mounted (acts event s).

Definition first_screen : Screen.t := Screen.mk opened [] None None None None 0 [] [].

Inductive screened : list ScreenEvent → Screen.t → Prop :=
  | screened_first : screened [] first_screen
  | screened_more events event s : screened events s → screen_can s event →
      screened (events ++ [event]) (screen_event event s).
