(* ===== verification/ScreenProps.v ===== *)
(** * What the screen offers

    That what is offered is meant, that nothing weighty is asked of the services
    by one press, and that a check and the next thing to do are always at hand. *)

From S2P Require Import Prelude Model JsString Json JsMap Effects Identity ShortCode Settings Rooms VaultFile Explain.
From S2P Require Import Services Hub Offer Calls Snapshot Bridge Window WindowProps Shell Screen.

Open Scope Z_scope.

Implicit Types s : Screen.t.

(** ** What each button means *)

(** The device is shown, and disconnected. *)
Definition shown_revoked s (deviceId : DeviceId) : Prop :=
  ∃ snapshot device, App.snapshot (Screen.app s) = Some snapshot ∧ device ∈ AppSnapshot.pairedDevices snapshot ∧
    PairedDeviceSummary.deviceId device = deviceId ∧ PairedDeviceSummary.trust device = revoked.

Definition shown_state s (state : SyncState) : Prop :=
  ∃ snapshot, App.snapshot (Screen.app s) = Some snapshot ∧ AppSnapshot.state snapshot = state.

(** A check is shown. *)
Definition shown_check s : Prop :=
  ∃ snapshot, App.snapshot (Screen.app s) = Some snapshot ∧ is_Some (AppSnapshot.verification snapshot).

(** A device that is not disconnected is shown. *)
Definition shown_paired s (deviceId : DeviceId) : Prop :=
  ∃ snapshot device, App.snapshot (Screen.app s) = Some snapshot ∧ device ∈ AppSnapshot.pairedDevices snapshot ∧
    PairedDeviceSummary.deviceId device = deviceId ∧ PairedDeviceSummary.trust device ≠ revoked.

(** A version that is not the current one is shown. *)
Definition shown_earlier s (versionId : RevisionId) : Prop :=
  ∃ snapshot version, App.snapshot (Screen.app s) = Some snapshot ∧ version ∈ AppSnapshot.versions snapshot ∧
    VersionSummary.id version = versionId ∧ VersionSummary.isCurrent version = false.

(** The card of a conflict is shown, with what it keeps. *)
Definition shown_card s (P : ConflictSummary.t → VersionSummary.t → ConflictForm.t → Prop) : Prop :=
  ∃ snapshot conflict other n f, App.snapshot (Screen.app s) = Some snapshot ∧
    combinable snapshot = Some (conflict, other) ∧ Screen.conflict s = Some (n, f) ∧ P conflict other f.

Definition shown_settings s (P : ConnectionSettings.t → ConnectionState.t → Prop) : Prop :=
  ∃ n c loaded, Screen.connection s = Some (n, c) ∧ ConnectionState.settings c = Some loaded ∧ P loaded c.

Definition meant s (press : Press) : Prop :=
  match press with
  | AnswersCheck _ => shown_check s
  | ChoosesVault => shown_state s needs_setup
  | SavesHere => ∃ vaultName, shown_state s (needs_file vaultName)
  | AppliesPending => shown_state s waiting_for_close
  | Combines other => shown_card s (λ _ version f, VersionSummary.id version = other ∧
      ConflictForm.password f ≠ EmptyString ∧ ConflictForm.working f = false)
  | ShowsOneSided => shown_card s (λ _ _ _, True)
  | Resolves conflictId decision => shown_card s (λ conflict _ f, ConflictSummary.id conflict = conflictId ∧
      ConflictForm.showOneSided f = true) ∧ (decision = keeps_current ∨ decision = switches_incoming)
  | SwitchesFile => Screen.file s = Some to_switch
  | StopsTracking => Screen.file s = Some to_stop
  | RestoresVersion versionId => shown_earlier s versionId
  | Disconnects deviceId => shown_paired s deviceId
  | Reconnects deviceId => shown_revoked s deviceId
  | AsksForget deviceId => shown_revoked s deviceId
  | ForgetsDevice deviceId => deviceId ∈ Screen.asking s
  | GetsCode => App.busy (Screen.app s) = false
  | ConnectsWithCode => App.busy (Screen.app s) = false ∧ App.enteredCode (Screen.app s) ≠ EmptyString
  | TestsServer => shown_settings s (λ _ c, ConnectionState.testing c = false ∧
      trim (ConnectionForm.host (ConnectionState.form c)) ≠ EmptyString)
  | SavesSettings => shown_settings s (λ loaded c, ConnectionForm.changed (ConnectionState.form c) loaded = true)
  | _ => True
  end.

Definition item_meant s (item : Item) : Prop := ∀ press, presses item = Some press → meant s press.

Lemma says_meant s text : item_meant s (Says text).
Proof. done. Qed.

Lemma fills_meant s field value : item_meant s (Fills field value).
Proof. done. Qed.

Lemma offers_meant s label press : meant s press → item_meant s (offers label press).
Proof. by intros ? ? [= <-]. Qed.

Lemma offers_if_meant s enabled label press : (enabled = true → meant s press) →
  item_meant s (offers_if enabled label press).
Proof. intros Hm p. simpl. destruct enabled; [|done]. intros [= <-]. by apply Hm. Qed.

(** The items of a card one by one. *)
Ltac each_item :=
  cbv beta iota zeta;
  repeat first [apply Forall_nil_2 | apply Forall_cons_2; [first [apply says_meant | apply fills_meant | apply offers_meant; done | idtac]|]].

Lemma mjoin_meant s (cards : list (list Item)) : Forall (Forall (item_meant s)) cards →
  Forall (item_meant s) (mjoin cards).
Proof. induction 1; [by apply Forall_nil_2|]. by apply Forall_app_2. Qed.

Section meaning.
Context (now : Z).

Lemma row_meant s snapshot device : App.snapshot (Screen.app s) = Some snapshot →
  device ∈ AppSnapshot.pairedDevices snapshot →
  Forall (item_meant s) (DeviceRow now (bool_decide (PairedDeviceSummary.deviceId device ∈ Screen.asking s)) device).
Proof.
  intros Hs Hin. unfold DeviceRow, device_buttons. apply Forall_app_2; [by each_item|].
  case_bool_decide as Hask; [|case_decide as Hr]; each_item.
  - apply offers_meant. by exists snapshot, device.
  - apply offers_meant. by exists snapshot, device.
  - by apply offers_if_meant.
  - apply offers_meant. by exists snapshot, device.
Qed.

Lemma status_meant s snapshot saved : App.snapshot (Screen.app s) = Some snapshot →
  Forall (item_meant s) (StatusCard_view now (status_card snapshot saved)).
Proof.
  intros Hs. unfold status_card. destruct (AppSnapshot.state snapshot) eqn:Hst; simpl; each_item;
    apply offers_meant; [by exists snapshot|by eexists; exists snapshot|by exists snapshot].
Qed.

Lemma conflict_meant s snapshot conflict other savedAt n f : App.snapshot (Screen.app s) = Some snapshot →
  combinable snapshot = Some (conflict, other) → Screen.conflict s = Some (n, f) →
  Forall (item_meant s) (ConflictCard now (ConflictSummary.id conflict) (VersionSummary.id other) savedAt f).
Proof.
  intros Hs Hc Hf. unfold ConflictCard.
  apply Forall_app_2; [|destruct (ConflictForm.showOneSided f) eqn:Hone]; each_item.
  - apply offers_if_meant. intros [Hp%bool_decide_eq_false Hw]%negb_true_iff%orb_false_iff.
    by exists snapshot, conflict, other, n, f.
  - apply offers_meant. by exists snapshot, conflict, other, n, f.
  - apply offers_meant. split; [by exists snapshot, conflict, other, n, f|by left].
  - apply offers_meant. split; [by exists snapshot, conflict, other, n, f|by right].
Qed.

Lemma file_meant s name path : Forall (item_meant s) (VaultFileCard name path (Screen.file s)).
Proof.
  destruct (Screen.file s) as [[]|] eqn:Hf; simpl; each_item; by apply offers_meant.
Qed.

Lemma history_meant s snapshot : App.snapshot (Screen.app s) = Some snapshot →
  Forall (item_meant s) (HistoryCard now (AppSnapshot.versions snapshot)).
Proof.
  intros Hs. unfold HistoryCard. apply Forall_cons_2; [apply says_meant|]. case_decide; [by each_item|].
  apply mjoin_meant, Forall_fmap, Forall_forall. intros v Hv. unfold compose, version_view.
  apply Forall_app_2; [by each_item|]. destruct (VersionSummary.isCurrent v) eqn:Hcur; each_item.
  apply offers_meant. by exists snapshot, v.
Qed.

Lemma panel_meant s pairing p : Forall (item_meant s) (PairingCodePanel pairing p).
Proof.
  unfold PairingCodePanel. apply Forall_app_2; [destruct (PairingCode.short pairing); by each_item|].
  apply Forall_cons_2; [by apply offers_meant|]. destruct (CodePanel.showLink p); by each_item.
Qed.

Lemma connect_meant s : Forall (item_meant s) (ConnectCard (Screen.app s) (Screen.panel s)).
Proof.
  unfold ConnectCard. apply Forall_app_2; [|apply Forall_app_2].
  - each_item. apply offers_if_meant. by intros ?%negb_true_iff.
  - destruct (App.pairing _); [|by each_item]. destruct (Screen.panel s) as [[]|]; [apply panel_meant|by each_item].
  - each_item. apply offers_if_meant. intros [Hb He%bool_decide_eq_false]%negb_true_iff%orb_false_iff. by split.
Qed.

Lemma connection_meant s n c : Screen.connection s = Some (n, c) → Forall (item_meant s) (ConnectionCard c).
Proof.
  intros Hc. unfold ConnectionCard. destruct (ConnectionState.settings c) as [settings|] eqn:Hset; [|by each_item].
  repeat apply Forall_app_2.
  - each_item. apply offers_if_meant. intros [Ht He%bool_decide_eq_false]%negb_true_iff%orb_false_iff.
    by exists n, c, settings.
  - destruct (ConnectionState.result c) as [[]|]; by each_item.
  - by each_item.
  - destruct (ConnectionState.showRelay c); by each_item.
  - each_item. apply offers_if_meant. intros Hch. by exists n, c, settings.
Qed.

Lemma page_meant s : Forall (Forall (item_meant s)) (App_view now s).
Proof.
  unfold App_view. destruct (App.snapshot (Screen.app s)) as [snapshot|] eqn:Hs; [|repeat constructor; done].
  apply Forall_cons_2; [by unfold header_view; each_item|].
  apply Forall_cons_2; [unfold notice_view; destruct (App.notice _); by each_item|].
  apply Forall_cons_2.
  { unfold VerifyCard. destruct (AppSnapshot.verification snapshot) as [[name code]|] eqn:Hv; each_item;
      apply offers_meant; by exists snapshot; rewrite Hv. }
  destruct (App.tab (Screen.app s)).
  - unfold HomePage. repeat apply Forall_cons_2; [by apply status_meant| | | | |by apply Forall_nil_2].
    + destruct (combinable snapshot) as [[conflict other]|] eqn:Hcomb; [|by each_item].
      destruct (Screen.conflict s) as [[n f]|] eqn:Hc; [by eapply conflict_meant|by each_item].
    + destruct (vault_path snapshot); [apply file_meant|by each_item].
    + destruct (Cards.addDevice _); by each_item.
    + apply Forall_fmap, Forall_true. intros text. apply says_meant.
  - apply Forall_cons_2; [by apply history_meant|by apply Forall_nil_2].
  - unfold DevicesPage. apply Forall_cons_2; [|apply Forall_cons_2; [apply connect_meant|apply Forall_cons_2; [|by apply Forall_nil_2]]].
    + unfold DevicesCard. apply Forall_cons_2; [apply says_meant|]. case_decide; [by each_item|].
      apply mjoin_meant, Forall_fmap, Forall_forall. intros device Hin. by apply (row_meant s snapshot).
    + destruct (Screen.connection s) as [[n c]|] eqn:Hc; [by eapply connection_meant|by each_item].
Qed.

(** A button that can be pressed means what it stands for. *)
Lemma offered_meant s press : offered now s press → meant s press.
Proof.
  intros (item & Hitem & Hp)%list_elem_of_omap.
  pose proof (mjoin_meant s _ (page_meant s)) as Hall. rewrite Forall_forall in Hall. by apply (Hall item).
Qed.
End meaning.

(** ** What drawing the cards changes *)

Lemma mounted_app s : Screen.app (mounted s) = Screen.app s.
Proof.
  unfold mounted, mounted_panel, mounted_connection, mounted_conflict, mounted_rows, mounted_file.
  by repeat case_match.
Qed.






(** A card that stays keeps what it kept. *)
Lemma mounted_keeps s n f : Screen.conflict s = Some (n, f) →
  Screen.conflict (mounted s) = Some (n, f) ∨ Screen.conflict (mounted s) = None.
Proof.
  intros Hf.
  assert (Screen.conflict (mounted s) = Screen.conflict (mounted_conflict (mounted_rows (mounted_file s)))) as ->.
  { unfold mounted, mounted_panel, mounted_connection. by repeat case_match. }
  assert (Screen.conflict (mounted_rows (mounted_file s)) = Some (n, f)) as Hf'
    by by (unfold mounted_rows, mounted_file; destruct (shows_file s)).
  unfold mounted_conflict. rewrite Hf'. destruct (shows_conflict _); auto.
Qed.

(** ** Where a call comes from *)



(** ** Questions that were asked and not withdrawn *)























(** ** What is always at hand *)

Lemma offered_in now s (card : list Item) item press : card ∈ App_view now s → item ∈ card →
  presses item = Some press → offered now s press.
Proof.
  intros Hcard Hitem Hp. apply list_elem_of_omap. exists item. split; [|done]. apply list_elem_of_join. by exists card.
Qed.

(** The home page of a screen that was just drawn. *)
Section home.
Context (now : Z) (s : Screen.t) (snapshot : AppSnapshot.t).
Hypothesis Hs : App.snapshot (Screen.app (mounted s)) = Some snapshot.
Hypothesis Ht : App.tab (Screen.app (mounted s)) = home.

Lemma home_view : App_view now (mounted s) =
  header_view (Screen.app (mounted s)) snapshot :: notice_view (App.notice (Screen.app (mounted s))) ::
  VerifyCard (AppSnapshot.verification snapshot) :: HomePage now snapshot (mounted s).
Proof. unfold App_view. by rewrite Hs, Ht. Qed.

Lemma home_card card : card ∈ HomePage now snapshot (mounted s) → card ∈ App_view now (mounted s).
Proof. intros Hc. rewrite home_view. by do 3 right. Qed.

Lemma home_conflict conflict other : combinable snapshot = Some (conflict, other) →
  ∃ n f, Screen.conflict (mounted s) = Some (n, f) ∧
    ConflictCard now (ConflictSummary.id conflict) (VersionSummary.id other) (VersionSummary.savedAt other) f
      ∈ App_view now (mounted s).
Proof.
  intros Hc.
  assert (is_Some (Screen.conflict (mounted s))) as [[n f] Hf].
  { assert (shows_conflict (mounted_rows (mounted_file s)) = true) as Hshows.
    { revert Hs Ht. rewrite mounted_app. unfold shows_conflict, mounted_rows, mounted_file.
      destruct (shows_file s); simpl; intros -> ->; by rewrite Hc. }
    assert (Screen.conflict (mounted s) = Screen.conflict (mounted_conflict (mounted_rows (mounted_file s)))) as ->.
    { unfold mounted, mounted_panel, mounted_connection. by repeat case_match. }
    unfold mounted_conflict. rewrite Hshows. destruct (Screen.conflict (mounted_rows (mounted_file s))) eqn:Hf; eauto. }
  exists n, f. split; [done|]. apply home_card. unfold HomePage. rewrite Hc, Hf. right. by left.
Qed.
End home.

(** C21: a check can be answered on every page, and Home offers what is to be done.
    Whatever page is open and whatever was done before, the digits of a
    handshake that waits are shown, with both answers, and a press gives the
    answer to the services; Home is one press away, and offers to choose a file
    on a device without one, to save one that arrived, to write an update that
    was held back; and in a conflict, when some version can be combined with the
    current one, to type the password and, with one and unless it is being done
    already, to combine them.  In a conflict without a version that can be
    combined, Home offers neither to combine nor to choose a side, although its
    status says to combine the changes below (App.tsx:313,
    [restored_ancestor_hides_conflict]). *)
Theorem always_at_hand events s (Hs : screened events s) snapshot (Hsn : App.snapshot (Screen.app s) = Some snapshot) :
  (∀ now peerName code, AppSnapshot.verification snapshot = Some (peerName, code) →
     Says code ∈ mjoin (App_view now s) ∧
     ∀ matches, screen_can s (Presses (AnswersCheck matches)) ∧
       VaultApi.answerVerification matches ∈ Screen.asked (screen_event (Presses (AnswersCheck matches)) s)) ∧
  screen_can s (Presses (Pages home)) ∧
  let here := screen_event (Presses (Pages home)) s in
  match AppSnapshot.state snapshot with
  | needs_setup => screen_can here (Presses ChoosesVault)
  | needs_file _ => screen_can here (Presses SavesHere)
  | waiting_for_close => screen_can here (Presses AppliesPending)
  | in_conflict =>
      match combinable snapshot with
      | Some (_, other) => ∀ password, password ≠ EmptyString →
          screen_can here (TypesIn PasswordField password) ∧
          let typed := screen_event (TypesIn PasswordField password) here in
          ∃ n f, Screen.conflict typed = Some (n, f) ∧
            (ConflictForm.working f = true ∨ screen_can typed (Presses (Combines (VersionSummary.id other))))
      | None => ∀ press, screen_can here (Presses press) →
          match press with Combines _ | ShowsOneSided | Resolves _ _ => False | _ => True end
      end
  | up_to_date => True
  end.
Proof.
  split; [|split].
  - intros now peerName code Hv.
    assert (VerifyCard (Some (peerName, code)) ∈ App_view now s) as Hcard.
    { unfold App_view. rewrite Hsn, Hv. do 2 right. by left. }
    split; [apply list_elem_of_join; eexists; split; [|exact Hcard]; do 2 right; by left|]. intros matches. split.
    + exists now. destruct matches; (eapply offered_in; [exact Hcard| |]); [do 3 right; by left|done|do 4 right; by left|done].
    + unfold screen_event. simpl.
      assert (∀ s call, call ∈ Screen.asked s → call ∈ Screen.asked (mounted s)) as Hgrows.
      { clear. intros s call Hc. unfold mounted, mounted_panel, mounted_connection, mounted_conflict, mounted_rows, mounted_file.
        repeat case_match; simpl; try done; apply elem_of_app; by left. }
      apply Hgrows. simpl. apply elem_of_app. right. by left.
  - exists 0. apply (offered_in _ _ (header_view (Screen.app s) snapshot) (offers "Home" (Pages home))); [|by left|done].
    unfold App_view. rewrite Hsn. by left.
  - cbv zeta. set (here := screen_event (Presses (Pages home)) s).
    assert (App.snapshot (Screen.app here) = Some snapshot) as Hsn' by by (unfold here, screen_event; rewrite mounted_app).
    assert (App.tab (Screen.app here) = home) as Ht by by (unfold here, screen_event; rewrite mounted_app).
    unfold here, screen_event in Hsn', Ht.
    assert (∀ now, StatusCard_view now (status_card snapshot (VersionSummary.savedAt <$>
      head (filter (λ v, VersionSummary.isCurrent v = true) (AppSnapshot.versions snapshot)))) ∈ App_view now here) as Hstatus.
    { intros now. apply (home_card _ _ _ Hsn' Ht). by left. }
    specialize (Hstatus 0). unfold status_card in Hstatus. destruct (AppSnapshot.state snapshot) eqn:Hstate.
    + exists 0. eapply offered_in; [exact Hstatus|right; by left|done].
    + exists 0. eapply offered_in; [exact Hstatus|do 2 right; by left|done].
    + done.
    + destruct (combinable snapshot) as [[conflict other]|] eqn:Hc.
      2: { intros press [now Hm%offered_meant]. destruct press; try done.
           - destruct Hm as (? & ? & ? & ? & ? & ? & ? & _). unfold here, screen_event in *. congruence.
           - destruct Hm as (? & ? & ? & ? & ? & ? & ? & _). unfold here, screen_event in *. congruence.
           - destruct Hm as [(? & ? & ? & ? & ? & ? & ? & _) _]. unfold here, screen_event in *. congruence. }
      intros password Hne.
      destruct (home_conflict 0 _ snapshot Hsn' Ht conflict other Hc) as (n & f & Hf & Hcard). split.
      * exists 0. apply list_elem_of_omap. exists (Fills PasswordField (ConflictForm.password f)). split; [|done].
        apply list_elem_of_join. eexists. split; [|exact Hcard]. do 2 right. by left.
      * set (typing := acts (TypesIn PasswordField password) here).
        assert (App.snapshot (Screen.app (mounted typing)) = Some snapshot) as Hsn2 by by rewrite mounted_app.
        assert (App.tab (Screen.app (mounted typing)) = home) as Ht2 by by rewrite mounted_app.
        destruct (home_conflict 0 _ snapshot Hsn2 Ht2 conflict other Hc) as (n2 & f2 & Hf2 & Hcard2).
        exists n2, f2. split; [exact Hf2|]. destruct (ConflictForm.working f2) eqn:Hw; [by left|right]. exists 0.
        eapply offered_in; [exact Hcard2| |]; [do 3 right; by left|]. simpl. rewrite Hw.
        assert (ConflictForm.password f2 = password) as ->; [|by rewrite bool_decide_eq_false_2].
        assert (Screen.conflict typing = Some (n, ConflictForm.set_password password f)) as Htyped.
        { unfold typing. simpl. unfold here, screen_event. by rewrite Hf. }
        destruct (mounted_keeps typing n _ Htyped) as [Hk|Hk]; rewrite Hf2 in Hk; by simplify_eq.
    + exists 0. eapply offered_in; [exact Hstatus|do 2 right; by left|done].
Qed.

(** ** The window in the screen *)

Lemma shown_step a event : (∃ events, shown events a) → ui_can a event → ∃ events, shown events (ui_event event a).
Proof. intros [events Ha] Hcan. exists (events ++ [event]). by constructor. Qed.

Lemma shown_notice a message : (∃ events, shown events a) → ∃ events, shown events (App.set_notice (Some message) a).
Proof. intros Ha. by apply (shown_step a (HearsBridge (onNotice message))). Qed.

Lemma task_shown task result s : (∃ events, shown events (Screen.app s)) →
  ∃ events, shown events (Screen.app (card_task_is task result s)).
Proof.
  intros Ha. unfold card_task_is, notice_of. repeat case_match; simpl; try done; by apply shown_notice.
Qed.

(** What the whole window keeps is what the handlers of Window.v make of it: every
    screen holds a window that Window.v reaches, so what holds of those (one
    session at a time, say) holds on every screen. *)
Lemma screen_is_window events s : screened events s → ∃ ui_events, shown ui_events (Screen.app s).
Proof.
  induction 1 as [|events event s _ IH Hcan]; [exists []; constructor|].
  unfold screen_event. rewrite mounted_app. destruct event as [e|press|field value| | |i result]; simpl.
  - apply shown_step; [done|]. by destruct Hcan.
  - destruct Hcan as [now Hm%offered_meant]. destruct press; simpl; repeat match goal with
             | |- context [match ?x with Some _ => _ | None => _ end] => destruct x as [[]|] eqn:?
             end; simpl; try done.
    + by apply (shown_step _ (PressesTab tab)).
    + by apply (shown_step _ DismissesNotice).
    + by apply (shown_step _ (PressesSync deviceId)).
    + by apply (shown_step _ PressesGetCode).
    + by apply (shown_step _ PressesConnect).
  - destruct field; try done. by apply (shown_step _ (TypesCode value)).
  - done.
  - destruct Hcan as [_ Hne]. by apply (shown_step _ PressesEnter).
  - destruct (Screen.tasks s !! i); [|done]. by apply task_shown.
Qed.

(** ** Evaluated *)

Module Shown.
Definition phone : PairedDeviceSummary.t :=
  PairedDeviceSummary.mk "phone" "Phone" revoked 0 true false None.
Definition snapshot (state : SyncState) (conflicts : list ConflictSummary.t) (versions : list VersionSummary.t)
    (verification : option (string * string)) : AppSnapshot.t :=
  AppSnapshot.mk (DeviceSummary.mk "desktop" "Desktop" "key") state
    (Some (VaultSummary.mk "vault" "Passwords" false (Some "/home/passwords.kdbx") None)) versions conflicts [phone]
    verification [] "ws://localhost".
Definition run (events : list ScreenEvent) : Screen.t := foldl (λ s event, screen_event event s) first_screen events.


(** Two versions are combined, and again on the same page a little later. *)
Definition forked : AppSnapshot.t :=
  snapshot in_conflict [ConflictSummary.mk "conflict" "a" "b" 0 []]
    [VersionSummary.mk "b" 0 1 from_peer "Saved on Phone" false true] (Some ("Phone", "123456")).
Definition combines : list ScreenEvent :=
  [Hears (PushesSnapshot forked); TypesIn PasswordField "secret"; Presses (Combines "b")].
Definition combines_again : list ScreenEvent :=
  combines ++ [Presses (Pages history); Presses (Pages home); TypesIn PasswordField "secret"; Presses (Combines "b")].
End Shown.

(** What a person does there is possible. *)
Definition possible (s : Screen.t) (event : ScreenEvent) : bool :=
  match event with
  | Presses press => bool_decide (press ∈ omap presses (mjoin (App_view 0 s)))
  | TypesIn field _ => bool_decide (field ∈ omap typed_in (mjoin (App_view 0 s)))
  | Hears (PushesSnapshot _) => true
  | _ => false
  end.

Fixpoint all_possible (s : Screen.t) (events : list ScreenEvent) : bool :=
  match events with
  | [] => true
  | event :: rest => possible s event && all_possible (screen_event event s) rest
  end.

Lemma possible_can s event : possible s event = true → screen_can s event.
Proof.
  destruct event as [[]|press|field value| | |]; try done; simpl; intros H%bool_decide_eq_true; by exists 0.
Qed.

Lemma possible_screened before s events : screened before s → all_possible s events = true →
  screened (before ++ events) (foldl (λ s event, screen_event event s) s events).
Proof.
  revert before s. induction events as [|event rest IH]; intros before s Hs Hp; [by rewrite app_nil_r|].
  simpl in Hp. apply andb_true_iff in Hp as [He%possible_can Hp].
  rewrite cons_middle, app_assoc. apply IH; [by constructor|done].
Qed.


Lemma combines_screened : screened Shown.combines (Shown.run Shown.combines).
Proof. apply (possible_screened []); [constructor|]. vm_compute. reflexivity. Qed.

Lemma combines_again_screened : screened Shown.combines_again (Shown.run Shown.combines_again).
Proof. apply (possible_screened []); [constructor|]. vm_compute. reflexivity. Qed.





Lemma forked_shown : App.snapshot (Screen.app (Shown.run Shown.combines)) = Some Shown.forked.
Proof. by vm_compute. Qed.

Lemma always_at_hand_witness :
  Says "123456" ∈ mjoin (App_view 0 (Shown.run Shown.combines)) ∧
  screen_can (Shown.run Shown.combines) (Presses (AnswersCheck true)).
Proof.
  destruct (always_at_hand Shown.combines (Shown.run Shown.combines) combines_screened Shown.forked forked_shown) as [Hcheck _].
  destruct (Hcheck 0 "Phone" "123456" eq_refl) as [Hsays Hanswers]. split; [exact Hsays|]. exact (proj1 (Hanswers true)).
Defined.

(** The button says that it is combining only while its card stays: who looks at
    the history and comes back can combine the same versions again while the
    first combination runs. *)
Lemma combined_twice :
  Screen.asked (Shown.run Shown.combines_again)
    = [VaultApi.combineAndUse "b" "secret"; VaultApi.combineAndUse "b" "secret"] ∧
  Screen.tasks (Shown.run Shown.combines_again) = [Combining 0; Combining 1].
Proof. split; by vm_compute. Qed.

(** A combination that throws says nothing. *)
Lemma combining_threw error :
  App.notice (Screen.app (screen_event (CardTaskIs 0 (Threw error)) (Shown.run Shown.combines))) = None.
Proof. by vm_compute. Qed.
