(* ===== verification/Mesh.v ===== *)
(** * The earlier transport

    packages/transport/src/signalingClient.ts, webrtcLink.ts and webrtcMesh.ts: a
    client of the signaling server, channels over WebRTC, and the connections of
    a device, which the applications replaced by the bridge of peerBridge.ts.
    Sockets, channels and connections are numbers; what is called outside is kept
    in order.  What happens to one of them is an event, and so is the end of what
    is awaited of WebRTC; a handler that follows the settling of a promise runs
    with the event that settles it. *)

From S2P Require Import Prelude Model Bytes JsString Json JsonProps JsMap Effects Rooms Signaling SignalingTheory Hub.
From S2P Require Import Settings Services Offer Calls Bridge Meeting MeetingTheory.

Open Scope Z_scope.

(** ** The client of the signaling server *)

Section client.
(** [String(value)] of a parsed value. *)
Context (string_of : json → string).

(** [SignalingEvent] has the messages of the server. *)
Definition texted (value : json) (key message : string) : result string :=
  property key value ≫= λ x,
  match x with Some (JStr s) => Ok s | _ => Err ("Contract violation: " +:+ message) end.

Definition parseSignalingEvent (raw : string) : result (option ServerSignalMessage) :=
  match JSON_parse raw with
  | None => Err "Unexpected token in JSON"
  | Some value =>
      property "type" value ≫= λ type,
      match type with
      | Some (JStr type) =>
          if decide (type = "joined") then
            texted value "roomId" "joined room id must be a string" ≫= λ roomId,
            texted value "peerId" "joined peer id must be a string" ≫= λ peerId,
            property "existingPeerIds" value ≫= λ ids,
            match ids with
            | Some (JArr ids) => Ok (Some (joined_message roomId peerId (string_of <$> ids)))
            | _ => Err "Contract violation: joined peer list must be an array"
            end
          else if decide (type = "peer-joined") then
            texted value "peerId" "peer event peer id must be a string" ≫= λ peerId, Ok (Some (peer_joined peerId))
          else if decide (type = "peer-left") then
            texted value "peerId" "peer event peer id must be a string" ≫= λ peerId, Ok (Some (peer_left peerId))
          else if decide (type = "signal") then
            texted value "fromPeerId" "signal source peer id must be a string" ≫= λ fromPeerId,
            property "payload" value ≫= λ payload, Ok (Some (signal_from fromPeerId payload))
          else if decide (type = "error") then
            property "message" value ≫= λ message,
            Ok (match message with Some (JStr message) => Some (signal_error message) | _ => None end)
          else Ok None
      | _ => Ok None
      end
  end.

End client.

(** The state of a socket: before it opens, with what it will join, and after. *)
Inductive SocketState : Type :=
  | Connecting (room : Rendezvous.t) (peerId : string)
  | Connected
  | Closed.

Module SignalingClient.
(** [sent] are the texts that sockets were given, [told] the events. *)
Record t : Type := mk {
  socket : option nat;
  sockets : list SocketState;
  sent : list (nat * string);
  told : list ServerSignalMessage;
}.

Definition new : t := mk None [] [] [].
Definition set_socket x (c : t) : t := mk x (sockets c) (sent c) (told c).
Definition set_sockets x (c : t) : t := mk (socket c) x (sent c) (told c).
Definition send x (c : t) : t := mk (socket c) (sockets c) (sent c ++ [x]) (told c).
Definition tell x (c : t) : t := mk (socket c) (sockets c) (sent c) (told c ++ [x]).
End SignalingClient.

Section sockets.
Context (string_of : json → string) (opens : string → bool) (endpoint : string).
Abbreviation Client := (M SignalingClient.t).
Implicit Types c : SignalingClient.t.

Definition client_connect (room : Rendezvous.t) (peerId : string) : Client unit := λ c,
  if negb (opens endpoint) then (Err "SyntaxError", c)
  else (Ok tt, SignalingClient.set_socket (Some (length (SignalingClient.sockets c)))
          (SignalingClient.set_sockets (SignalingClient.sockets c ++ [Connecting room peerId]) c)).

Definition client_sendSignal (targetPeerId : string) (payload : option json) : Client unit := λ c,
  match SignalingClient.socket c with
  | None => (Err "Contract violation: signaling socket must be connected before sending", c)
  | Some n =>
      let text := JSON_stringify (JObj ([("type", JStr "signal"); ("targetPeerId", JStr targetPeerId)]
                    ++ match payload with Some payload => [("payload", payload)] | None => [] end)) in
      match SignalingClient.sockets c !! n with
      | Some (Connecting _ _) => (Err "InvalidStateError", c)
      | Some Connected => (Ok tt, SignalingClient.send (n, text) c)
      | _ => (Ok tt, c)
      end
  end.

Definition client_disconnect c : SignalingClient.t :=
  match SignalingClient.socket c with
  | None => c
  | Some n => SignalingClient.set_socket None
      (SignalingClient.set_sockets (<[n := Closed]> (SignalingClient.sockets c)) c)
  end.

(** What happens to a socket. *)
Inductive SocketEvent : Type :=
  | ClientOpens (socket : nat)
  | ClientHears (socket : nat) (data : string)
  | ClientErrs (socket : nat)
  | ClientCloses (socket : nat).

(** The listeners; what one throws goes to nobody. *)
Definition client_event (event : SocketEvent) c : SignalingClient.t :=
  match event with
  | ClientOpens n =>
      match SignalingClient.sockets c !! n with
      | Some (Connecting room peerId) => SignalingClient.send (n, join_text room peerId)
          (SignalingClient.set_sockets (<[n := Connected]> (SignalingClient.sockets c)) c)
      | _ => c
      end
  | ClientHears n data =>
      match parseSignalingEvent string_of data with Ok (Some event) => SignalingClient.tell event c | _ => c end
  | ClientErrs n => SignalingClient.tell (signal_error "Could not connect to signaling server") c
  | ClientCloses n => SignalingClient.set_socket None
      (SignalingClient.set_sockets (<[n := Closed]> (SignalingClient.sockets c)) c)
  end.
End sockets.

(** ** Channels *)

Definition CONTROL_CHANNEL : string := "passvault/control".
Definition BULK_CHANNEL : string := "passvault/bulk".

(** The [readyState] of a data channel. *)
Inductive ReadyState : Type := is_connecting | is_open | is_closing | is_closed.

#[global] Instance ReadyState_eq_dec : EqDecision ReadyState.
Proof. solve_decision. Defined.

Module RtcDataChannel.
Record t : Type := mk {
  label : string;
  readyState : ReadyState;
  bufferedAmount : Z;
}.
Definition set_readyState x (c : t) : t := mk (label c) x (bufferedAmount c).
End RtcDataChannel.

(** What a message event brings: a text, bytes, or something else. *)
Inductive RawMessage : Type :=
  | RawText (text : string)
  | RawBuffer (bytes : Uint8Array)
  | RawOther.

Section channel.
Implicit Types c : RtcDataChannel.t.

(** [send]: whether the channel is given the data. *)
Definition rtc_sends c : bool := bool_decide (RtcDataChannel.readyState c = is_open).

(** [drain]: whether there is nothing to wait for; else it waits for the next
    [bufferedamountlow] or [close]. *)
Definition rtc_drained c : bool :=
  (RtcDataChannel.bufferedAmount c <=? LOW_WATER_BYTES) || negb (rtc_sends c).

Definition rtc_hears (binary : bool) (raw : RawMessage) : option Data :=
  match binary, raw with
  | true, RawBuffer bytes => Some (Bytes bytes)
  | false, RawText text => Some (Text text)
  | _, _ => None
  end.

Definition rtc_close c : RtcDataChannel.t :=
  match RtcDataChannel.readyState c with
  | is_open | is_connecting => RtcDataChannel.set_readyState is_closing c
  | _ => c
  end.
End channel.

(** ** A link over a connection *)

(** What [createWebRtcLink] awaits of one of its channels. *)
Inductive Slot : Type :=
  | Expected
  | Opening (channel : nat)
  | Opened (channel : nat).

#[global] Instance Slot_eq_dec : EqDecision Slot.
Proof. solve_decision. Defined.

Module LinkSetup.
(** [failed] is what the promise of the link was rejected with. *)
Record t : Type := mk {
  channels : list RtcDataChannel.t;
  awaited : list string;
  incoming : list (string * nat);
  control : Slot;
  bulk : Slot;
  failed : option string;
}.

Definition set_channels x (l : t) : t := mk x (awaited l) (incoming l) (control l) (bulk l) (failed l).
Definition set_incoming x y (l : t) : t := mk (channels l) x y (control l) (bulk l) (failed l).
Definition set_slots x y (l : t) : t := mk (channels l) (awaited l) (incoming l) x y (failed l).
Definition set_failed x (l : t) : t := mk (channels l) (awaited l) (incoming l) (control l) (bulk l) (Some x).
End LinkSetup.

Section setup.
Implicit Types l : LinkSetup.t.

(** [whenOpen]: at once, or when an event says so. *)
Definition whenOpen (n : nat) l : Slot :=
  match LinkSetup.channels l !! n with
  | Some c => if rtc_sends c then Opened n else Opening n
  | None => Opening n
  end.

(** The initiator makes both channels; the other side waits for them. *)
Definition createWebRtcLink (initiator : bool) : LinkSetup.t :=
  if initiator
  then LinkSetup.mk [RtcDataChannel.mk CONTROL_CHANNEL is_connecting 0; RtcDataChannel.mk BULK_CHANNEL is_connecting 0]
         [] [] (Opening 0) (Opening 1) None
  else LinkSetup.mk [] [CONTROL_CHANNEL; BULK_CHANNEL] [] Expected Expected None.

(** The promise of the link is settled: with both channels, or an error. *)
Definition link_up l : option (nat * nat) :=
  match LinkSetup.control l, LinkSetup.bulk l, LinkSetup.failed l with
  | Opened c, Opened b, None => Some (c, b)
  | _, _, _ => None
  end.

Definition link_settled l : bool :=
  match link_up l, LinkSetup.failed l with None, None => false | _, _ => true end.

(** The listener of [datachannel]. *)
Definition on_datachannel (label : string) (state : ReadyState) l : LinkSetup.t :=
  let n := length (LinkSetup.channels l) in
  let l := LinkSetup.set_channels (LinkSetup.channels l ++ [RtcDataChannel.mk label state 0]) l in
  if decide (label ∈ LinkSetup.awaited l) then
    let l := LinkSetup.set_incoming (filter (λ x, x ≠ label) (LinkSetup.awaited l)) (LinkSetup.incoming l) l in
    if decide (label = CONTROL_CHANNEL) then LinkSetup.set_slots (whenOpen n l) (LinkSetup.bulk l) l
    else LinkSetup.set_slots (LinkSetup.control l) (whenOpen n l) l
  else LinkSetup.set_incoming (LinkSetup.awaited l) (map_set label n (LinkSetup.incoming l)) l.

Definition opened (n : nat) (slot : Slot) : Slot := if decide (slot = Opening n) then Opened n else slot.

Definition channel_opens (n : nat) l : LinkSetup.t :=
  let l := LinkSetup.set_channels (alter (RtcDataChannel.set_readyState is_open) n (LinkSetup.channels l)) l in
  LinkSetup.set_slots (opened n (LinkSetup.control l)) (opened n (LinkSetup.bulk l)) l.

(** [close] of a channel ([error] if [errs]) rejects what waits for it to open;
    the first rejection is that of the link. *)
Definition channel_ends (n : nat) (errs : bool) l : LinkSetup.t :=
  let label := from_option RtcDataChannel.label EmptyString (LinkSetup.channels l !! n) in
  let l := if errs then l
           else LinkSetup.set_channels (alter (RtcDataChannel.set_readyState is_closed) n (LinkSetup.channels l)) l in
  if decide (LinkSetup.failed l = None ∧ (LinkSetup.control l = Opening n ∨ LinkSetup.bulk l = Opening n))
  then LinkSetup.set_failed ("data channel " +:+ label +:+ (if errs then " failed" else " closed")) l
  else l.

(** [close] of the connection: its channels are closed, and say nothing. *)
Definition close_connection l : LinkSetup.t :=
  LinkSetup.set_channels (RtcDataChannel.set_readyState is_closed <$> LinkSetup.channels l) l.

(** [close] of the link. *)
Definition close_link l : LinkSetup.t :=
  match link_up l with
  | Some (c, b) => LinkSetup.set_channels (alter rtc_close b (alter rtc_close c (LinkSetup.channels l))) l
  | None => l
  end.
End setup.

(** ** The mesh *)

Module MeshPeer.
Record t : Type := mk {
  peerId : string;
  link : LinkSetup.t;
  isClosed : bool;
}.
Definition set_link x (p : t) : t := mk (peerId p) x (isClosed p).
Definition set_isClosed x (p : t) : t := mk (peerId p) (link p) x.
End MeshPeer.

Inductive MeshCall : Type :=
  | MeshSignals (targetPeerId : string) (payload : json)
  | MeshLinks (peerId : string) (record : nat).

(** What is awaited of a connection, before a signal to its peer. *)
Inductive MeshTask : Type :=
  | MeshOffers (peerId : string)
  | MeshAnswers (peerId : string).

Module Mesh.
(** [records] were made; [peers] has those that count. *)
Record t : Type := mk {
  peers : list (string * nat);
  records : list MeshPeer.t;
  tasks : list MeshTask;
  calls : list MeshCall;
}.

Definition new : t := mk [] [] [] [].
Definition set_peers x y (m : t) : t := mk x y (tasks m) (calls m).
Definition set_tasks x (m : t) : t := mk (peers m) (records m) x (calls m).
Definition call x (m : t) : t := mk (peers m) (records m) (tasks m) (calls m ++ [x]).
End Mesh.

Section mesh.
Implicit Types m : Mesh.t.

Definition addPeer (peerId : string) (initiator : bool) : M Mesh.t unit := λ m,
  match map_get peerId (Mesh.peers m) with
  | Some _ => (Err "Contract violation: peer must not be added twice", m)
  | None =>
      let m := Mesh.set_peers (map_set peerId (length (Mesh.records m)) (Mesh.peers m))
                 (Mesh.records m ++ [MeshPeer.mk peerId (createWebRtcLink initiator) false]) m in
      (Ok tt, if initiator then Mesh.set_tasks (Mesh.tasks m ++ [MeshOffers peerId]) m else m)
  end.

(** The connection is closed, then the link when there is one. *)
Definition mesh_close (peerId : string) m : Mesh.t :=
  match map_get peerId (Mesh.peers m) with
  | None => m
  | Some r =>
      Mesh.set_peers (map_delete peerId (Mesh.peers m))
        (alter (λ p, MeshPeer.set_isClosed true (MeshPeer.set_link (close_link (close_connection (MeshPeer.link p))) p)) r
           (Mesh.records m)) m
  end.

Definition mesh_closeAll m : Mesh.t := foldl (λ m peerId, mesh_close peerId m) m (Mesh.peers m).*1.

(** A signal of a peer; what WebRTC does with it is not seen. *)
Definition mesh_handleSignal (peerId : string) (payload : option json) : M Mesh.t unit := λ m,
  match map_get peerId (Mesh.peers m) with
  | None => (Err "Contract violation: peer must exist before handling signal", m)
  | Some _ =>
      match payload with
      | None => (Err "Cannot read properties of undefined (reading 'type')", m)
      | Some JNull => (Err "Cannot read properties of null (reading 'type')", m)
      | Some (JObj members) =>
          match member "type" members with
          | Some (JStr type) =>
              if decide (type = "offer") then
                match member "description" members with
                | None => (Err "Contract violation: offer must include description", m)
                | Some _ => (Ok tt, Mesh.set_tasks (Mesh.tasks m ++ [MeshAnswers peerId]) m)
                end
              else if decide (type = "answer") then
                (assert (bool_decide (is_Some (member "description" members))) "answer must include description", m)
              else if decide (type = "ice") then
                (assert (bool_decide (is_Some (member "candidate" members))) "ice signal must include candidate", m)
              else (Ok tt, m)
          | _ => (Ok tt, m)
          end
      | Some _ => (Ok tt, m)
      end
  end.

(** The end of what is awaited: a description, or nothing if WebRTC failed. *)
Definition mesh_task_ends (task : MeshTask) (description : option json) m : Mesh.t :=
  match description with
  | None => m
  | Some description =>
      match task with
      | MeshOffers peerId =>
          Mesh.call (MeshSignals peerId (JObj [("type", JStr "offer"); ("description", description)])) m
      | MeshAnswers peerId =>
          Mesh.call (MeshSignals peerId (JObj [("type", JStr "answer"); ("description", description)])) m
      end
  end.

Inductive ChannelEvent : Type :=
  | DataChannelComes (label : string) (state : ReadyState)
  | DataChannelOpens (channel : nat)
  | DataChannelErrs (channel : nat)
  | DataChannelCloses (channel : nat).

Definition channel_event (event : ChannelEvent) (l : LinkSetup.t) : LinkSetup.t :=
  match event with
  | DataChannelComes label state => on_datachannel label state l
  | DataChannelOpens n => channel_opens n l
  | DataChannelErrs n => channel_ends n true l
  | DataChannelCloses n => channel_ends n false l
  end.

(** An event of a connection's channels; if it settles the link, the link is
    handed up, or the peer is closed. *)
Definition mesh_channel (r : nat) (event : ChannelEvent) m : Mesh.t :=
  match Mesh.records m !! r with
  | None => m
  | Some p =>
      let l := channel_event event (MeshPeer.link p) in
      let m := Mesh.set_peers (Mesh.peers m) (<[r := MeshPeer.set_link l p]> (Mesh.records m)) m in
      if link_settled (MeshPeer.link p) then m
      else match LinkSetup.failed l, link_up l with
           | Some _, _ => mesh_close (MeshPeer.peerId p) m
           | None, Some _ => Mesh.call (MeshLinks (MeshPeer.peerId p) r) m
           | None, None => m
           end
  end.

Inductive MeshEvent : Type :=
  | AddsPeer (peerId : string) (initiator : bool)
  | GetsSignal (peerId : string) (payload : option json)
  | FindsIce (peerId : string) (candidate : json)
  | MeshTaskEnds (task : nat) (description : option json)
  | MeshChannel (record : nat) (event : ChannelEvent)
  | ClosesPeer (peerId : string)
  | ClosesAll.

Definition mesh_event (event : MeshEvent) m : Mesh.t :=
  match event with
  | AddsPeer peerId initiator => (addPeer peerId initiator m).2
  | GetsSignal peerId payload => (mesh_handleSignal peerId payload m).2
  | FindsIce peerId candidate =>
      Mesh.call (MeshSignals peerId (JObj [("type", JStr "ice"); ("candidate", candidate)])) m
  | MeshTaskEnds i description =>
      match Mesh.tasks m !! i with
      | Some task => mesh_task_ends task description (Mesh.set_tasks (delete i (Mesh.tasks m)) m)
      | None => m
      end
  | MeshChannel r event => mesh_channel r event m
  | ClosesPeer peerId => mesh_close peerId m
  | ClosesAll => mesh_closeAll m
  end.

(** A closed connection has no events. *)
Definition mesh_can m (event : MeshEvent) : Prop :=
  match event with
  | MeshChannel r _ => ∃ p, Mesh.records m !! r = Some p ∧ MeshPeer.isClosed p = false
  | _ => True
  end.

Inductive meshed : list MeshEvent → Mesh.t → Prop :=
  | meshed_new : meshed [] Mesh.new
  | meshed_more events event m : meshed events m → mesh_can m event → meshed (events ++ [event]) (mesh_event event m).
End mesh.

(** ** What the client is told *)

(** The client reads what the server wrote. *)
Lemma server_words_parsed (string_of : json → string) (Hstring : ∀ s, string_of (JStr s) = s) message : plain message →
  parseSignalingEvent string_of (JSON_stringify (server_json message)) = Ok (Some message).
Proof.
  intros Hp. unfold parseSignalingEvent. rewrite JSON_parse_stringify by by apply safe_server_json.
  destruct message as [R p ids|p|p|p [payload|]|text]; try reflexivity.
  assert (string_of <$> (JStr <$> ids) = ids) as Hids.
  { clear -Hstring. induction ids as [|id ids IH]; [done|]. rewrite !fmap_cons. by rewrite Hstring, IH. }
  change (Ok (Some (joined_message R p (string_of <$> (JStr <$> ids)))) = Ok (Some (joined_message R p ids))).
  by rewrite Hids.
Qed.

(** A client that connects again forgets its new socket when the old one closes:
    it can send no signal any more, although the new socket is open. *)
Lemma replaced_socket_forgotten string_of endpoint room peerId payload :
  let connect c := (client_connect (λ _, true) endpoint room peerId c).2 in
  let c := client_event string_of (ClientCloses 0)
             (client_event string_of (ClientOpens 1) (connect (connect SignalingClient.new))) in
  SignalingClient.sockets c !! 1%nat = Some Connected ∧
  (client_sendSignal "other" payload c).1
    = Err "Contract violation: signaling socket must be connected before sending".
Proof. done. Qed.

(** ** Links that are handed up *)

Definition handed (call : MeshCall) : option nat := match call with MeshLinks _ r => Some r | _ => None end.

(** A slot never closes again, and a link that is up stays so. *)
Definition slot_grows (x y : Slot) : Prop := ∀ n, x = Opened n → y = Opened n.

Lemma link_up_some (l : LinkSetup.t) c b : link_up l = Some (c, b) ↔
  LinkSetup.control l = Opened c ∧ LinkSetup.bulk l = Opened b ∧ LinkSetup.failed l = None.
Proof.
  unfold link_up. destruct (LinkSetup.control l), (LinkSetup.bulk l), (LinkSetup.failed l); naive_solver.
Qed.

Lemma opened_grows n slot : slot_grows slot (opened n slot).
Proof. intros k ->. unfold opened. by rewrite decide_False. Qed.

(** What is awaited is expected. *)
Definition tidy (l : LinkSetup.t) : Prop :=
  (CONTROL_CHANNEL ∈ LinkSetup.awaited l → LinkSetup.control l = Expected) ∧
  (BULK_CHANNEL ∈ LinkSetup.awaited l → LinkSetup.bulk l = Expected) ∧
  Forall (λ label, label = CONTROL_CHANNEL ∨ label = BULK_CHANNEL) (LinkSetup.awaited l).

Lemma created_tidy initiator : tidy (createWebRtcLink initiator).
Proof.
  destruct initiator; split_and!; try done; simpl.
  - by intros ?%elem_of_nil.
  - by intros ?%elem_of_nil.
  - apply Forall_cons_2; [by left|apply Forall_cons_2; [by right|apply Forall_nil_2]].
Qed.

Lemma event_tidy event l : tidy l → tidy (channel_event event l).
Proof.
  intros (Hc & Hb & Hl). destruct event as [label state|n|n|n]; simpl.
  - unfold on_datachannel. destruct (decide (label ∈ LinkSetup.awaited _)) as [Hin|Hin]; [|done]. simpl in Hin.
    assert (∀ x, x ∈ filter (λ x, x ≠ label) (LinkSetup.awaited l) → x ≠ label ∧ x ∈ LinkSetup.awaited l) as Hf
      by by intros x ?%list_elem_of_filter.
    assert (Forall (λ x, x = CONTROL_CHANNEL ∨ x = BULK_CHANNEL) (filter (λ x, x ≠ label) (LinkSetup.awaited l))) as Hl'.
    { apply Forall_forall. intros x [_ Hx]%Hf. by eapply Forall_forall in Hl. }
    case_decide as Hlabel; split_and!; simpl; try done.
    + by intros [? _]%Hf; subst.
    + intros [_ ?]%Hf. auto.
    + intros [_ ?]%Hf. auto.
    + intros [Hne _]%Hf. eapply Forall_forall in Hl; [|exact Hin]. simpl in Hl. by destruct Hl; subst.
  - unfold channel_opens, opened. split_and!; simpl; try done; intros Hin.
    + by rewrite (Hc Hin).
    + by rewrite (Hb Hin).
  - unfold channel_ends. by case_decide.
  - unfold channel_ends. by case_decide.
Qed.

Lemma event_grows event l : tidy l →
  slot_grows (LinkSetup.control l) (LinkSetup.control (channel_event event l)) ∧
  slot_grows (LinkSetup.bulk l) (LinkSetup.bulk (channel_event event l)).
Proof.
  intros (Hc & Hb & Hl). destruct event as [label state|n|n|n]; simpl.
  - unfold on_datachannel. destruct (decide (label ∈ LinkSetup.awaited _)) as [Hin|Hin]; [|by split; intros k]. simpl in Hin.
    case_decide as Hlabel; split; simpl; try (by intros k).
    + intros k Hk. rewrite Hc in Hk; [done|by subst].
    + intros k Hk. rewrite Hb in Hk; [done|]. eapply Forall_forall in Hl; [|exact Hin]. by destruct Hl; subst.
  - split; apply opened_grows.
  - unfold channel_ends. case_decide; by split; intros k.
  - unfold channel_ends. case_decide; by split; intros k.
Qed.

Lemma event_up event l c b : tidy l → link_up l = Some (c, b) → link_up (channel_event event l) = Some (c, b).
Proof.
  intros Ht (Hc & Hb & Hf)%link_up_some. destruct (event_grows event l Ht) as [Gc Gb].
  apply link_up_some. split_and!; [by apply Gc|by apply Gb|].
  destruct event as [label state|n|n|n]; simpl; unfold on_datachannel, channel_opens, channel_ends.
  - by repeat case_decide.
  - done.
  - rewrite decide_False; [done|]. simpl. rewrite Hc, Hb. naive_solver.
  - rewrite decide_False; [done|]. simpl. rewrite Hc, Hb. naive_solver.
Qed.

Lemma close_link_up l : link_up (close_link l) = link_up l.
Proof. unfold close_link. destruct (link_up l) as [[c b]|] eqn:Hl; [|done]. exact Hl. Qed.

Lemma close_link_tidy l : tidy l → tidy (close_link l).
Proof. unfold close_link. by destruct (link_up l) as [[c b]|]. Qed.

(** What holds of the connections: a peer has one that counts, and every other
    one is closed; what was handed up is up, and was handed up once. *)
Record mesh_ok (m : Mesh.t) : Prop := MeshOk {
  mk_keys : NoDup (Mesh.peers m).*1;
  mk_counts : ∀ r p, Mesh.records m !! r = Some p →
    (MeshPeer.isClosed p = false ↔ (MeshPeer.peerId p, r) ∈ Mesh.peers m);
  mk_there : ∀ peerId r, (peerId, r) ∈ Mesh.peers m → ∃ p, Mesh.records m !! r = Some p ∧ MeshPeer.peerId p = peerId;
  mk_tidy : ∀ r p, Mesh.records m !! r = Some p → tidy (MeshPeer.link p);
  mk_once : NoDup (omap handed (Mesh.calls m));
  mk_handed : ∀ peerId r, MeshLinks peerId r ∈ Mesh.calls m → ∃ p, Mesh.records m !! r = Some p ∧
    MeshPeer.peerId p = peerId ∧ is_Some (link_up (MeshPeer.link p));
  mk_all_handed : ∀ r p, Mesh.records m !! r = Some p → is_Some (link_up (MeshPeer.link p)) →
    r ∈ omap handed (Mesh.calls m);
}.

(** A connection that is not closed did not fail; all but one. *)
Definition alive_but (x : option nat) (m : Mesh.t) : Prop :=
  ∀ r p, Mesh.records m !! r = Some p → Some r ≠ x → MeshPeer.isClosed p = false →
  LinkSetup.failed (MeshPeer.link p) = None.

(** Only the calls and tasks differ, and no link is handed up. *)
Lemma ok_calls m m' : mesh_ok m → Mesh.peers m' = Mesh.peers m → Mesh.records m' = Mesh.records m →
  omap handed (Mesh.calls m') = omap handed (Mesh.calls m) →
  (∀ peerId r, MeshLinks peerId r ∈ Mesh.calls m' → MeshLinks peerId r ∈ Mesh.calls m) → mesh_ok m'.
Proof.
  destruct m as [peers records tasks calls], m' as [peers' records' tasks' calls']. simpl. intros [] -> -> Hc Hin.
  simpl in *. split; simpl; try done.
  - by rewrite Hc.
  - intros peerId r Hl. by apply mk_handed0, Hin.
  - by rewrite Hc.
Qed.

Lemma ok_signal m peerId payload : mesh_ok m → mesh_ok (Mesh.call (MeshSignals peerId payload) m).
Proof.
  intros Hm. apply (ok_calls m); [done..| |].
  - simpl. rewrite omap_app. simpl. by rewrite app_nil_r.
  - intros p r. simpl. by intros [?|?%list_elem_of_singleton]%elem_of_app.
Qed.

Lemma ok_close peerId m : mesh_ok m → mesh_ok (mesh_close peerId m).
Proof.
  intros []. unfold mesh_close. destruct (map_get peerId (Mesh.peers m)) as [r|] eqn:Hr; [|done].
  assert ((peerId, r) ∈ Mesh.peers m) as Hin by by apply map_get_Some.
  assert (∀ r' p', alter (λ p, MeshPeer.set_isClosed true (MeshPeer.set_link (close_link (close_connection (MeshPeer.link p))) p)) r
      (Mesh.records m) !! r' = Some p' → ∃ p, Mesh.records m !! r' = Some p ∧ MeshPeer.peerId p' = MeshPeer.peerId p ∧
      link_up (MeshPeer.link p') = link_up (MeshPeer.link p) ∧ tidy (MeshPeer.link p') ∧
      (r' = r ∧ MeshPeer.isClosed p' = true ∨ r' ≠ r ∧ p' = p)) as Halter.
  { intros r' p'. rewrite list_lookup_alter. case_decide as Hne; [subst r'|].
    - destruct (Mesh.records m !! r) as [p|] eqn:Hp; [|done]. intros [= <-]. exists p. simpl.
      split_and!; [done..|exact (close_link_up (close_connection (MeshPeer.link p)))|apply close_link_tidy; exact (mk_tidy0 r p Hp)|by left].
    - intros Hp. exists p'. split_and!; eauto. }
  assert (∀ r' q, Mesh.records m !! r' = Some q → ∃ q',
    alter (λ p, MeshPeer.set_isClosed true (MeshPeer.set_link (close_link (close_connection (MeshPeer.link p))) p)) r
      (Mesh.records m) !! r' = Some q' ∧ MeshPeer.peerId q' = MeshPeer.peerId q ∧
    link_up (MeshPeer.link q') = link_up (MeshPeer.link q)) as Halter_some.
  { intros r' q Hq. rewrite list_lookup_alter. case_decide as Hne; [subst r'|by exists q].
    rewrite Hq. eexists. split; [done|]. simpl. split; [done|exact (close_link_up (close_connection (MeshPeer.link q)))]. }
  split; simpl.
  - by apply map_delete_NoDup.
  - intros r' p' (p & Hp & Hid & _ & _ & [[-> Hclosed]|[Hne ->]])%Halter; rewrite elem_of_map_delete.
    + rewrite Hclosed, Hid. destruct (mk_there0 _ _ Hin) as (p0 & Hp0 & Hid0). assert (p0 = p) as -> by congruence.
      split; [done|]. by intros [Hne _].
    + rewrite (mk_counts0 r' p Hp). split; [|tauto]. intros Hin'. split; [|done]. intros Heq. rewrite Heq in Hin'. apply Hne.
      apply (map_get_elem _ _ _ mk_keys0) in Hin'. congruence.
  - intros p r' [_ Hin']%elem_of_map_delete. destruct (mk_there0 _ _ Hin') as (q & Hq & Hid).
    destruct (Halter_some r' q Hq) as (q' & Hq' & Hid' & _). exists q'. split; [done|congruence].
  - intros r' p' (p & _ & _ & _ & Ht & _)%Halter. done.
  - done.
  - intros p r' Hl. destruct (mk_handed0 _ _ Hl) as (q & Hq & Hid & Hup).
    destruct (Halter_some r' q Hq) as (q' & Hq' & Hid' & Hup'). exists q'. split_and!; [done|congruence|by rewrite Hup'].
  - intros r' p' (p & Hp & _ & Hup & _)%Halter. rewrite Hup. by apply (mk_all_handed0 r' p).
Qed.

Lemma ok_add peerId initiator m : mesh_ok m → mesh_ok (addPeer peerId initiator m).2.
Proof.
  intros Hm. pose proof Hm as []. unfold addPeer. destruct (map_get peerId (Mesh.peers m)) as [r|] eqn:Hr; [done|].
  apply map_get_None in Hr.
  set (m' := Mesh.set_peers _ _ m).
  assert (∀ r p, Mesh.records m' !! r = Some p → Mesh.records m !! r = Some p ∧ r ≠ length (Mesh.records m) ∨
    r = length (Mesh.records m) ∧ p = MeshPeer.mk peerId (createWebRtcLink initiator) false) as Hrec.
  { intros r p [Hp|[Hge Hp]]%lookup_app_Some.
    - left. split; [done|]. apply lookup_lt_Some in Hp. lia.
    - right. apply list_lookup_singleton_Some in Hp as [? <-]. split; [lia|done]. }
  assert (link_up (createWebRtcLink initiator) = None) as Hdown by by destruct initiator.
  assert (mesh_ok m') as Hm'.
  { split; simpl.
    - by apply map_set_NoDup.
    - intros r p [[Hp Hne]|[-> ->]]%Hrec; rewrite elem_of_map_set by done.
      + rewrite (mk_counts0 r p Hp). split; [|by intros [[_ ?]|[_ ?]]]. intros Hin. right. split; [|done].
        intros Heq. apply Hr. rewrite <- Heq. by apply (list_elem_of_fmap_2 fst) in Hin.
      + cbn [MeshPeer.peerId MeshPeer.isClosed]. split; [by left|done].
    - intros p r. rewrite elem_of_map_set by done. intros [[-> ->]|[Hne Hin]].
      + eexists. split; [by rewrite lookup_app_r, Nat.sub_diag by done|done].
      + destruct (mk_there0 _ _ Hin) as (q & Hq & Hid). exists q. split; [by apply lookup_app_l_Some|done].
    - intros r p [[Hp _]|[-> ->]]%Hrec; [by eapply mk_tidy0|apply created_tidy].
    - done.
    - intros p r Hl. destruct (mk_handed0 _ _ Hl) as (q & Hq & Hid & Hup). exists q.
      split_and!; [by apply lookup_app_l_Some|done..].
    - intros r p [[Hp _]|[-> ->]]%Hrec; [by apply (mk_all_handed0 r)|]. simpl. rewrite Hdown. by intros [? ?]. }
  destruct initiator; [|done]. by apply (ok_calls m').
Qed.

(** ** What did not fail *)

Lemma alive_close peerId m : alive_but (map_get peerId (Mesh.peers m)) m → alive_but None (mesh_close peerId m).
Proof.
  unfold mesh_close. destruct (map_get peerId (Mesh.peers m)) as [r|]; [|done].
  intros Ha r' p'. simpl. rewrite list_lookup_alter. case_decide as Hne; [subst r'|].
  - destruct (Mesh.records m !! r) as [p|]; [|done]. by intros [= <-].
  - intros Hp _. apply (Ha r' p' Hp). congruence.
Qed.

Lemma alive_closed peerId m : alive_but None m → alive_but None (mesh_close peerId m).
Proof. intros Ha. apply alive_close. intros r p Hp _. by apply (Ha r p Hp). Qed.

Lemma alive_add peerId initiator m : alive_but None m → alive_but None (addPeer peerId initiator m).2.
Proof.
  intros Ha. unfold addPeer. destruct (map_get _ _); [done|]. cbv zeta.
  assert (alive_but None (Mesh.set_peers (map_set peerId (length (Mesh.records m)) (Mesh.peers m))
    (Mesh.records m ++ [MeshPeer.mk peerId (createWebRtcLink initiator) false]) m)) as Ha'.
  { intros r p [Hp|[_ [_ <-]%list_lookup_singleton_Some]]%lookup_app_Some; [by apply Ha|by destruct initiator]. }
  by destruct initiator.
Qed.

(** An event of the channels of a connection that counts. *)
Lemma channel_step r event p m : mesh_ok m → alive_but None m → Mesh.records m !! r = Some p →
  MeshPeer.isClosed p = false →
  mesh_ok (mesh_channel r event m) ∧ alive_but None (mesh_channel r event m).
Proof.
  intros Hm Ha Hp Hopen. pose proof Hm as []. unfold mesh_channel. rewrite Hp.
  set (l := channel_event event (MeshPeer.link p)).
  pose proof (mk_tidy0 r p Hp) as Ht. pose proof (Ha r p Hp ltac:(done) Hopen) as Hf.
  assert ((MeshPeer.peerId p, r) ∈ Mesh.peers m) as Hin by by apply (mk_counts0 r p Hp).
  set (m' := Mesh.set_peers _ _ m).
  assert (∀ r' p', Mesh.records m' !! r' = Some p' →
    r' = r ∧ p' = MeshPeer.set_link l p ∨ r' ≠ r ∧ Mesh.records m !! r' = Some p') as Hrec.
  { intros r' p' [(-> & <- & _)|[? ?]]%list_lookup_insert_Some; [by left|right; by split]. }
  assert (Mesh.records m' !! r = Some (MeshPeer.set_link l p)) as Hr'.
  { apply list_lookup_insert_eq, lookup_lt_is_Some. by exists p. }
  assert (alive_but (Some r) m') as Ha'.
  { intros r' p' [[-> ->]|[_ Hp']]%Hrec Hne Ho; [done|by apply (Ha r' p')]. }
  assert (∀ calls, (link_up (MeshPeer.link p) ≠ None → link_up l ≠ None) →
    NoDup (omap handed (Mesh.calls m ++ calls)) → (∀ q r', MeshLinks q r' ∈ calls → q = MeshPeer.peerId p ∧ r' = r ∧ is_Some (link_up l)) →
    (is_Some (link_up l) → r ∈ omap handed (Mesh.calls m ++ calls)) →
    mesh_ok (Mesh.mk (Mesh.peers m') (Mesh.records m') (Mesh.tasks m') (Mesh.calls m ++ calls))) as Hok.
  { intros calls Hstays Hnodup Hcalls Hhanded. split; simpl; try done.
    - intros r' p' [[-> ->]|[Hne Hp']]%Hrec; [by apply (mk_counts0 r p)|by apply mk_counts0].
    - intros q r' Hq. destruct (mk_there0 _ _ Hq) as (p' & Hp' & Hid). destruct (decide (r' = r)) as [->|Hne].
      + exists (MeshPeer.set_link l p). split; [done|]. simpl. congruence.
      + exists p'. split; [by rewrite list_lookup_insert_ne|done].
    - intros r' p' [[-> ->]|[Hne Hp']]%Hrec; [by apply event_tidy|by eapply mk_tidy0].
    - intros q r' [Hl|Hl]%elem_of_app.
      + destruct (mk_handed0 _ _ Hl) as (p' & Hp' & Hid & Hup). destruct (decide (r' = r)) as [->|Hne].
        * exists (MeshPeer.set_link l p). assert (p' = p) as -> by congruence. split_and!; [done..|].
          simpl. apply not_eq_None_Some, Hstays. by apply not_eq_None_Some.
        * exists p'. split_and!; [by rewrite list_lookup_insert_ne|done..].
      + destruct (Hcalls _ _ Hl) as (-> & -> & Hup). exists (MeshPeer.set_link l p). by split_and!.
    - intros r' p' [[-> ->]|[Hne Hp']]%Hrec Hup; [by apply Hhanded|].
      rewrite omap_app. apply elem_of_app. left. by apply (mk_all_handed0 r' p'). }
  assert (alive_but None m' ↔ LinkSetup.failed l = None) as Halive.
  { split; [intros Hall; by apply (Hall r (MeshPeer.set_link l p))|]. intros Hl r' p' [[-> ->]|[_ Hp']]%Hrec _ Ho; [done|].
    by apply (Ha r' p'). }
  unfold link_settled. destruct (link_up (MeshPeer.link p)) as [[c b]|] eqn:Hup.
  - pose proof (event_up event _ _ _ Ht Hup) as Hup'. fold l in Hup'. split.
    + pose proof (Hok []) as Hok'. rewrite app_nil_r in Hok'. apply Hok'; [by rewrite Hup'|done|by intros q r' ?%elem_of_nil|].
      intros _. apply (mk_all_handed0 r p Hp). by rewrite Hup.
    + apply Halive. by apply link_up_some in Hup' as (_ & _ & ?).
  - rewrite Hf.
    assert (r ∉ omap handed (Mesh.calls m)) as Hnot.
    { intros ([q payload|q r'] & Hl & [= ->])%list_elem_of_omap. destruct (mk_handed0 _ _ Hl) as (p' & Hp' & _ & Hup').
      assert (p' = p) as -> by congruence. rewrite Hup in Hup'. by destruct Hup'. }
    assert (link_up l = None → mesh_ok m') as Hquiet.
    { intros Hl. pose proof (Hok []) as Hok'. rewrite app_nil_r in Hok'.
      apply Hok'; [done|done|by intros q r' ?%elem_of_nil|]. rewrite Hl. by intros [? ?]. }
    destruct (LinkSetup.failed l) as [e|] eqn:Hfl.
    + split; [apply ok_close, Hquiet; unfold link_up; rewrite Hfl; by repeat case_match|]. apply alive_close.
      change (Mesh.peers m') with (Mesh.peers m). by rewrite (map_get_elem _ _ _ mk_keys0 Hin).
    + destruct (link_up l) as [x|] eqn:Hl; [|split; [by apply Hquiet|by apply Halive]]. split; [|by apply Halive].
      apply (Hok [MeshLinks (MeshPeer.peerId p) r]); [done| | |].
      * rewrite omap_app. simpl. apply NoDup_app. split_and!; [done| |apply NoDup_singleton].
        by intros y Hy ->%list_elem_of_singleton.
      * intros q r' [= -> ->]%list_elem_of_singleton. by split_and!.
      * intros _. rewrite omap_app. apply elem_of_app. right. by left.
Qed.

(** A link is handed up once, with both channels, and no connection is lost.
    However channels open, fail and close and peers are added and closed, each
    peer has at most one connection that counts; every other one that was made is
    closed; one that counts has not failed; and what was handed up as the link of
    a peer is a connection made for that peer, both of whose channels opened, and
    was handed up once. *)
Theorem mesh_links events m (Hm : meshed events m) :
  NoDup (Mesh.peers m).*1 ∧
  (∀ r p, Mesh.records m !! r = Some p →
     (MeshPeer.isClosed p = false ↔ (MeshPeer.peerId p, r) ∈ Mesh.peers m) ∧
     (MeshPeer.isClosed p = false → LinkSetup.failed (MeshPeer.link p) = None) ∧
     (MeshLinks (MeshPeer.peerId p) r ∈ Mesh.calls m ↔ is_Some (link_up (MeshPeer.link p)))) ∧
  NoDup (omap handed (Mesh.calls m)).
Proof.
  assert (mesh_ok m ∧ alive_but None m) as [Hok Ha].
  { induction Hm as [|events event m _ [Hok Ha] Hcan].
    - split; [split; simpl; try done; try apply NoDup_nil_2|done]; by intros ? ? ?%elem_of_nil.
    - destruct event as [q initiator|q payload|q candidate|i description|r event|q|]; simpl.
      + split; [by apply ok_add|by apply alive_add].
      + unfold mesh_handleSignal. repeat case_match; simpl; try by split.
        split; [by apply (ok_calls m)|done].
      + split; [by apply ok_signal|done].
      + destruct (Mesh.tasks m !! i) as [task|]; [|by split].
        assert (mesh_ok (Mesh.set_tasks (delete i (Mesh.tasks m)) m)) as Hok' by by apply (ok_calls m).
        destruct description as [description|]; [|by split]. destruct task; (split; [by apply ok_signal|done]).
      + destruct Hcan as (p & Hp & Ho). by apply (channel_step r event p).
      + split; [by apply ok_close|by apply alive_closed].
      + unfold mesh_closeAll. generalize ((Mesh.peers m).*1) as keys. intros keys. revert m Hok Ha Hcan.
        induction keys as [|key keys IH]; intros m Hok Ha Hcan; [done|]. simpl.
        apply IH; [by apply ok_close|by apply alive_closed|done]. }
  destruct Hok. split_and!; [done| |done]. intros r p Hp. split_and!; [by apply mk_counts0|by intros; eapply Ha|]. split.
  - intros Hl. destruct (mk_handed0 _ _ Hl) as (p' & Hp' & _ & Hup). congruence.
  - intros Hup. apply (mk_all_handed0 r p Hp), list_elem_of_omap in Hup as ([|q r'] & Hl & [= ->]).
    destruct (mk_handed0 _ _ Hl) as (p' & Hp' & <- & _). assert (p' = p) as -> by congruence. done.
Qed.

(** ** A peer that is reached *)

Module Reach.
Definition events : list MeshEvent :=
  [AddsPeer "phone" true; MeshChannel 0 (DataChannelOpens 0); MeshChannel 0 (DataChannelOpens 1)].
Definition mesh : Mesh.t := foldl (λ m event, mesh_event event m) Mesh.new events.
End Reach.

Lemma reach_meshed : meshed Reach.events Reach.mesh.
Proof.
  apply (meshed_more [AddsPeer "phone" true; MeshChannel 0 (DataChannelOpens 0)]); [|by eexists].
  apply (meshed_more [AddsPeer "phone" true]); [|by eexists].
  by apply (meshed_more []); [constructor|].
Qed.

Lemma mesh_links_witness : MeshLinks "phone" 0 ∈ Mesh.calls Reach.mesh ∧ NoDup (omap handed (Mesh.calls Reach.mesh)).
Proof.
  destruct (mesh_links Reach.events Reach.mesh reach_meshed) as (_ & Hall & Honce). split; [|exact Honce].
  assert (∃ p, Mesh.records Reach.mesh !! 0%nat = Some p ∧ MeshPeer.peerId p = "phone" ∧
    is_Some (link_up (MeshPeer.link p))) as (p & Hp & Hid & Hup) by (eexists; split_and!; [reflexivity|reflexivity|by eexists]).
  rewrite <- Hid. apply (Hall 0%nat p Hp). exact Hup.
Defined.

(** A link is handed up although its control channel closed before the other one
    opened: nothing is sent on it, and nobody hears that it closed. *)
Lemma closed_channel_handed_up :
  let l := channel_event (DataChannelOpens 1) (channel_event (DataChannelCloses 0)
             (channel_event (DataChannelOpens 0) (createWebRtcLink true))) in
  link_up l = Some (0%nat, 1%nat) ∧
  ∃ c, LinkSetup.channels l !! 0%nat = Some c ∧ RtcDataChannel.readyState c = is_closed ∧ rtc_sends c = false.
Proof. split; [done|]. eexists. split_and!; [reflexivity|done..]. Qed.
