(* ===== verification/AppStorage.v ===== *)
(** * The storage of the mobile app

    apps/mobile/src/platform/appStorage.ts: files in the private directory of the
    app, through Capacitor's Filesystem, and the blob store over them.  What
    becomes of the calls that write is decided by [fate], by the number of the
    call: a call works, fails, or the process is killed in it; a write that does
    not work may leave the beginning of what was to be written.  A killed process
    does nothing more, and what its files hold then is what the next start finds.
    [unreadable] files exist and cannot be read.  Files hold bytes; a call passes
    them as base64, which the plugin decodes. *)

From S2P Require Import Prelude Model Bytes JsString Effects BlobStore BlobProps Codec.

Open Scope Z_scope.

(** ** Base64 of the app *)

(** A binary string: a character per byte. *)
Definition binary_string : Type := list Z.

Definition from_char_codes (bytes : Uint8Array) : binary_string := byte_to_Z <$> bytes.

(** The loop of [toBase64], which appends [step] characters at a time from
    [index] on. *)
Fixpoint binary_loop (fuel index step : nat) (bytes : Uint8Array) (binary : binary_string) : binary_string :=
  if (length bytes <=? index)%nat then binary
  else match fuel with
       | O => binary
       | S fuel => binary_loop fuel (index + step) step bytes
                     (binary ++ from_char_codes (take step (drop index bytes)))
       end.

Definition base64_step : nat := Z.to_nat 0x8000.

(** [btoa] and [atob]. *)
Definition btoa (binary : binary_string) : string := Codec.toBase64 (byte_of_Z <$> binary).

Definition toBase64 (bytes : Uint8Array) : string :=
  btoa (binary_loop (length bytes) 0 base64_step bytes []).

Definition fromBase64 (value : string) : result Uint8Array := Codec.fromBase64 value.

(** ** Files *)

Inductive Fate : Type := Works | Fails (written : nat) | Dies (written : nat).

Module AppFiles.
Record t : Type := mk {
  files : gmap string Uint8Array;
  asked : nat;
  dead : bool;
}.

Definition set_files f (s : t) : t := mk f (asked s) (dead s).

(** The app starts again on the same files. *)
Definition restart (s : t) : t := mk (files s) (asked s) false.
End AppFiles.

Section app.
Context (fate : nat → Fate) (unreadable : string → bool).
Abbreviation App := (M AppFiles.t).

(** A call that changes the files: [whole] when it works, [part] of it else. *)
Definition call (whole : gmap string Uint8Array → option (gmap string Uint8Array))
    (part : nat → gmap string Uint8Array → gmap string Uint8Array) : App unit := λ s,
  if AppFiles.dead s then (Err "killed", s)
  else
    let n := S (AppFiles.asked s) in
    let files := AppFiles.files s in
    match fate (AppFiles.asked s) with
    | Works => match whole files with
               | Some files => (Ok tt, AppFiles.mk files n false)
               | None => (Err "File does not exist", AppFiles.mk files n false)
               end
    | Fails k => (Err "I/O error", AppFiles.mk (part k files) n false)
    | Dies k => (Err "killed", AppFiles.mk (part k files) n true)
    end.

(** [Filesystem.writeFile] of decoded data. *)
Definition write_file (path : string) (bytes : Uint8Array) : App unit :=
  call (λ files, Some (<[path := bytes]> files)) (λ k files, <[path := take k bytes]> files).

Definition writeFile (path data : string) : App unit :=
  lift (fromBase64 data) ≫= λ bytes, write_file path bytes.

Definition deleteFile (path : string) : App unit :=
  call (λ files, match files !! path with Some _ => Some (delete path files) | None => None end)
    (λ _ files, files).

(** A rename replaces the target. *)
Definition rename (from to : string) : App unit :=
  call (λ files, match files !! from with
                 | Some bytes => Some (<[to := bytes]> (delete from files))
                 | None => None
                 end) (λ _ files, files).

Definition readFile (path : string) : App Uint8Array := λ s,
  if unreadable path then (Err "I/O error", s)
  else match AppFiles.files s !! path with
       | Some bytes => (Ok bytes, s)
       | None => (Err "File does not exist", s)
       end.

Definition stat (path : string) : App Z := bytes ← readFile path; mret (byteLength bytes).

(** [try { return await m } catch { return undefined }]. *)
Definition attempt {A} (m : App A) : App (option A) := λ s,
  match m s with
  | (Ok a, s) => (Ok (Some a), s)
  | (Err _, s) => (Ok None, s)
  end.

Definition readAppFile (path : string) : App (option Uint8Array) := attempt (readFile path).

Definition part_of (path : string) : string := path +:+ ".part".

Definition writeAppFileAtomic (path : string) (bytes : Uint8Array) : App unit :=
  writeFile (part_of path) (toBase64 bytes) ≫= λ _,
  attempt (deleteFile path) ≫= λ _,
  rename (part_of path) path.

(** The text of a file is its bytes in UTF-8, which the callers encode. *)
Definition readAppText (path : string) : App (option Uint8Array) := attempt (readFile path).
Definition writeAppText (path : string) (text : Uint8Array) : App unit := write_file path text.

(** ** AppBlobStore *)

Context `{Sha256}.

Definition blob_path (hash : Sha256Hex) : string :=
  "blobs/" +:+ slice hash 0 2 +:+ "/" +:+ hash +:+ ".kdbx".

Definition app_sizeOf (hash : Sha256Hex) : App (option Z) := attempt (stat (blob_path hash)).

Definition app_has (hash : Sha256Hex) : App bool :=
  size ← app_sizeOf hash; mret (bool_decide (is_Some size)).

Definition app_put (bytes : Uint8Array) : App Sha256Hex :=
  let hash := sha256 bytes in
  app_has hash ≫= λ present,
  if (present : bool) then (mret hash : App Sha256Hex)
  else writeAppFileAtomic (blob_path hash) bytes ≫= λ _, mret hash.

Definition app_get (hash : Sha256Hex) : App Uint8Array :=
  readAppFile (blob_path hash) ≫= λ bytes,
  match bytes with
  | Some bytes => (mret bytes : App Uint8Array)
  | None => throw ("no stored bytes for " +:+ hash)
  end.

Definition app_delete (hash : Sha256Hex) : App unit :=
  attempt (deleteFile (blob_path hash)) ≫= λ _, mret tt.
End app.

(** ** What it guarantees *)

(** ** Base64 *)

Lemma binary_loop_spec (step : nat) (bytes : Uint8Array) fuel index binary :
  (0 < step)%nat → (length bytes <= index + fuel)%nat →
  binary_loop fuel index step bytes binary = binary ++ from_char_codes (drop index bytes).
Proof.
  intros Hstep. revert index binary. induction fuel as [|fuel IH]; intros index binary Hfuel; simpl;
    (case_match; [rewrite drop_ge by (apply Nat.leb_le; done); by rewrite app_nil_r|]).
  - apply Nat.leb_gt in H. lia.
  - rewrite IH by lia. rewrite <- app_assoc. f_equal. unfold from_char_codes. rewrite <- fmap_app. f_equal.
    rewrite <- (take_drop step (drop index bytes)) at 2. f_equal. by rewrite drop_drop.
Qed.

Lemma bytes_of_codes (bytes : Uint8Array) : byte_of_Z <$> from_char_codes bytes = bytes.
Proof.
  unfold from_char_codes. rewrite <- list_fmap_compose. rewrite <- (list_fmap_id bytes) at 2.
  apply list_fmap_ext. intros i b _. unfold compose. apply byte_of_Z_is.
  pose proof (byte_to_Z_range b). by apply Z.mod_small.
Qed.

(** The chunks make no difference. *)
Lemma toBase64_codec (bytes : Uint8Array) : toBase64 bytes = Codec.toBase64 bytes.
Proof.
  unfold toBase64, btoa. rewrite binary_loop_spec by (unfold base64_step; lia).
  simpl app. by rewrite drop_0, bytes_of_codes.
Qed.

Lemma app_base64_roundtrip (bytes : Uint8Array) : fromBase64 (toBase64 bytes) = Ok bytes.
Proof. rewrite toBase64_codec. apply fromBase64_toBase64. Qed.

(** ** Paths *)

Lemma part_ne path : part_of path ≠ path.
Proof.
  intros Heq. apply (f_equal (λ s, length (chars s))) in Heq. unfold part_of in Heq.
  rewrite chars_app, length_app in Heq. vm_compute (length (chars ".part")) in Heq. lia.
Qed.

Section app.
Context (fate : nat → Fate) (unreadable : string → bool).
Implicit Types s : AppFiles.t.
Abbreviation files := AppFiles.files.

(** Whether a call that the process gets to works. *)
Definition works s (k : nat) : bool :=
  match fate (AppFiles.asked s + k) with Works => true | _ => false end.

(** ** Files *)

(** The files after a call of [writeAppFileAtomic]: what is in the way is
    deleted once the temporary file is whole. *)
Lemma write_outcome path bytes s r s' :
  writeAppFileAtomic fate path bytes s = (r, s') →
  (∀ q, q ≠ path → q ≠ part_of path → files s' !! q = files s !! q) ∧
  match r with
  | Ok _ => files s' !! path = Some bytes ∧ files s' !! part_of path = None
  | Err _ =>
      files s' !! path = files s !! path ∨
      files s' !! path = None ∧ files s' !! part_of path = Some bytes
  end.
Proof.
  pose proof (part_ne path) as Hne.
  unfold writeAppFileAtomic, writeFile, lift, write_file, deleteFile, rename, attempt, call, mbind, M_bind.
  rewrite app_base64_roundtrip. destruct s as [f n dead]. cbn [AppFiles.dead AppFiles.asked AppFiles.files].
  destruct dead; [intros [= <- <-]; split; [done|by left]|].
  destruct (fate n) as [|k|k]; cbn [AppFiles.dead AppFiles.asked AppFiles.files];
    [|intros [= <- <-]; cbn [AppFiles.files]; split;
       [by intros; rewrite lookup_insert_ne|left; by rewrite lookup_insert_ne]..].
  destruct (f !! path) as [old|] eqn:Hold; destruct (fate (S n)) as [|k|k];
    rewrite ?(lookup_insert_ne _ _ path), ?Hold by done;
    cbn [AppFiles.dead AppFiles.asked AppFiles.files]; try destruct (fate (S (S n))) as [|k'|k'];
    rewrite ?(lookup_delete_ne _ path), ?lookup_insert_eq by done; intros [= <- <-];
    cbn [AppFiles.files]; split; try (intros q Hq1 Hq2; by simplify_map_eq); simplify_map_eq; auto.
Qed.

(** A file that was there is gone afterwards exactly when the third call, the
    rename, is not done. *)
Lemma write_gone path bytes old s r s' :
  AppFiles.dead s = false → files s !! path = Some old →
  writeAppFileAtomic fate path bytes s = (r, s') →
  files s' !! path = None ↔ works s 0 = true ∧ works s 1 = true ∧ works s 2 = false.
Proof.
  clear unreadable.
  pose proof (part_ne path) as Hne.
  unfold writeAppFileAtomic, writeFile, lift, write_file, deleteFile, rename, attempt, call, mbind, M_bind, works.
  rewrite app_base64_roundtrip. destruct s as [f n dead]. cbn [AppFiles.dead AppFiles.asked AppFiles.files].
  intros -> Hold. rewrite Nat.add_0_r, Nat.add_1_r, (Nat.add_comm n 2). change (2 + n)%nat with (S (S n)).
  destruct (fate n) as [|k|k]; cbn [AppFiles.dead AppFiles.asked AppFiles.files];
    [destruct (fate (S n)) as [|k|k]; rewrite ?(lookup_insert_ne _ _ path), ?Hold by done;
     cbn [AppFiles.dead AppFiles.asked AppFiles.files]; try destruct (fate (S (S n))) as [|k'|k'];
     rewrite ?(lookup_delete_ne _ path), ?lookup_insert_eq by done|..];
    intros [= <- <-]; cbn [AppFiles.files]; simplify_map_eq; naive_solver.
Qed.

Lemma readable_after_restart path s :
  unreadable path = false →
  (readAppFile unreadable path (AppFiles.restart s)).1 = Ok (files s !! path).
Proof.
  intros Hr. unfold readAppFile, attempt, readFile. rewrite Hr. cbn [AppFiles.restart AppFiles.files].
  by destruct (files s !! path).
Qed.
End app.

(** ** The interface *)

Section blobs.
Context `{Sha256} (fate : nat → Fate).
Implicit Types s : AppFiles.t.
Abbreviation readable := (λ _ : string, false).

(** Two texts around the only occurrence of a character. *)
Lemma cut_unique {A} (c : A) l l' k k' :
  c ∉ k ++ k' → l ++ c :: l' = k ++ c :: k' → l = k ∧ l' = k'.
Proof.
  revert k. induction l as [|x l IH]; intros [|y k] Hc Heq; simplify_list_eq; [done|set_solver..|].
  destruct (IH k) as [-> ->]; [set_solver|done|done].
Qed.

Lemma key_lower k : is_key k = true → Forall (λ c, is_lower_hex (charCode c) = true) (chars k).
Proof.
  unfold is_key. rewrite andb_true_iff, forallb_forall, Forall_forall. intros [_ Hk] c Hc%list_elem_of_In. auto.
Qed.

Lemma lower_ascii z : is_lower_hex z = true → ascii_code z ∧ z ≠ 47.
Proof. unfold is_lower_hex, is_digit, ascii_code. rewrite orb_true_iff, !andb_true_iff, !Z.leb_le. lia. Qed.

Lemma slice_codes (s : string) first last : is_ascii s →
  charCode <$> chars (slice s first last) =
  take (Z.to_nat (last - first)) (drop (Z.to_nat first) (charCode <$> chars s)).
Proof.
  intros Hs. unfold slice. rewrite to_units_ascii by done.
  assert (Forall ascii_code (take (Z.to_nat (last - first)) (drop (Z.to_nat first) (charCode <$> chars s)))).
  { by apply Forall_take, Forall_drop, Forall_fmap. }
  rewrite of_units_ascii by done. by apply of_points_ascii.
Qed.

Lemma blob_path_inj h k : is_key k = true → blob_path h = blob_path k → h = k.
Proof.
  intros Hk%key_lower Heq%(f_equal chars). unfold blob_path in Heq. rewrite !chars_app in Heq.
  apply app_inv_head in Heq. rewrite !app_assoc in Heq. apply app_inv_tail in Heq.
  rewrite <-!app_assoc in Heq. apply chars_inj. apply (cut_unique (fromCharCode 47)) in Heq as [_ Heq]; [done|].
  intros Hin. apply (list_elem_of_fmap_2 charCode) in Hin. rewrite fmap_app, slice_codes in Hin.
  - apply elem_of_app in Hin. assert (Forall (λ z, z ≠ 47) (charCode <$> chars k)) as Hne.
    { apply Forall_fmap. eapply Forall_impl; [exact Hk|]. intros c Hc. by apply lower_ascii. }
    destruct Hin as [Hin|Hin]; [apply elem_of_take in Hin as (?&Hin&_); simpl in Hin; rewrite drop_0 in Hin;
      apply list_elem_of_lookup_2 in Hin|]; by eapply Forall_forall in Hin; [|exact Hne].
  - eapply Forall_impl; [exact Hk|]. intros c Hc. by apply lower_ascii.
Qed.

Lemma blob_path_not_part h k : blob_path h ≠ part_of (blob_path k).
Proof.
  intros Heq%(f_equal chars). unfold part_of, blob_path in Heq. rewrite !chars_app, !app_assoc in Heq.
  apply (f_equal (take 1 ∘ reverse)) in Heq. unfold compose in Heq. rewrite !reverse_app in Heq.
  vm_compute (reverse (chars ".kdbx")) in Heq. vm_compute (reverse (chars ".part")) in Heq.
  simpl in Heq. discriminate Heq.
Qed.

(** Every file under the name of a hash has the bytes of that hash. *)
Definition blobs_good s : Prop :=
  ∀ h bytes, AppFiles.files s !! blob_path h = Some bytes → sha256 bytes = h.

Lemma stat_run path s :
  stat readable path s = (match AppFiles.files s !! path with
                          | Some bytes => Ok (byteLength bytes)
                          | None => Err "File does not exist"
                          end, s).
Proof. unfold stat, mbind, M_bind, readFile. by destruct (AppFiles.files s !! path). Qed.

Lemma app_has_run h s :
  app_has readable h s = (Ok (bool_decide (is_Some (AppFiles.files s !! blob_path h))), s).
Proof.
  unfold app_has, app_sizeOf, attempt, mbind, M_bind. rewrite stat_run.
  by destruct (AppFiles.files s !! blob_path h).
Qed.

Lemma app_get_run h s :
  app_get readable h s = (match AppFiles.files s !! blob_path h with
                          | Some bytes => Ok bytes
                          | None => Err ("no stored bytes for " +:+ h)
                          end, s).
Proof.
  unfold app_get, readAppFile, attempt, readFile, mbind, M_bind.
  by destruct (AppFiles.files s !! blob_path h).
Qed.

Lemma app_put_run bytes s r s' :
  app_put fate readable bytes s = (r, s') →
  match AppFiles.files s !! blob_path (sha256 bytes) with
  | Some _ => r = Ok (sha256 bytes) ∧ s' = s
  | None =>
      (∀ h, h ≠ sha256 bytes → AppFiles.files s' !! blob_path h = AppFiles.files s !! blob_path h) ∧
      match r with
      | Ok h => h = sha256 bytes ∧ AppFiles.files s' !! blob_path h = Some bytes
      | Err _ => AppFiles.files s' !! blob_path (sha256 bytes) = None
      end
  end.
Proof.
  unfold app_put. unfold mbind at 1, M_bind at 1. rewrite app_has_run.
  destruct (AppFiles.files s !! blob_path (sha256 bytes)) as [old|] eqn:Hold; [by intros [= <- <-]|].
  unfold mbind, M_bind, mret, M_ret. rewrite bool_decide_false by (by intros [? ?]).
  destruct (writeAppFileAtomic fate (blob_path (sha256 bytes)) bytes s) as [r1 s1] eqn:Hw.
  apply write_outcome in Hw as [Hother Hw]. intros Hr.
  assert (s' = s1) as -> by (by destruct r1; injection Hr). split.
  - intros h Hh. apply Hother; [intros ?%blob_path_inj; [done|apply sha256_key]|apply blob_path_not_part].
  - destruct r1; simplify_eq; [by destruct Hw|]. destruct Hw as [->|[-> _]]; done.
Qed.

#[refine] Definition app_blob_store : BlobStore AppFiles.t := {|
  view s h := AppFiles.files s !! blob_path h;
  blob_ok := blobs_good;
  blob_put := app_put fate readable;
  blob_get := app_get readable;
  blob_has := app_has readable;
|}.
Proof.
  - intros s h bytes Hg. apply Hg.
  - intros s bytes r s' Hg Hput%app_put_run.
    destruct (AppFiles.files s !! blob_path (sha256 bytes)) as [b|] eqn:Hb.
    + destruct Hput as [-> ->]. split; [done|]. split; [done|]. split; [done|]. exists b. split; [done|congruence].
    + destruct Hput as [Hother Hr]. split_and!.
      * intros h b' Hb'. destruct (decide (h = sha256 bytes)) as [->|Hne].
        -- destruct r as [h|e]; [|congruence]. destruct Hr as [-> Hr]. by simplify_eq.
        -- apply Hg. by rewrite <- Hother.
      * intros h b' Hb'. rewrite Hother; [done|]. intros ->. congruence.
      * destruct r as [h|e]; [by destruct Hr as [-> ?]; eauto|]. intros h.
        destruct (decide (h = sha256 bytes)) as [->|Hne]; [congruence|by apply Hother].
  - intros s h bytes _ Hv. rewrite app_get_run. by rewrite Hv.
  - intros s h _ Hv. rewrite app_get_run. by rewrite Hv.
  - intros s h. by rewrite app_get_run.
  - intros s h. apply app_has_run.
Defined.
End blobs.
