(* ===== verification/WebSqlite.v ===== *)
(** * SQLite in the mobile app

    First the values given to SQL statements: [normalize] and [toBindValue],
    which stand in both drivers of SQLite,
    packages/storage-node/src/sqliteDriver.ts and
    apps/mobile/src/platform/sqlite.ts.  Numbers are integers, as in every call
    of the stores.

    Then the rest of apps/mobile/src/platform/sqlite.ts: the database of sql.js,
    which is in memory, behind the [SqlDatabase] of packages/core/src/sql.ts, and
    the file it is written to.  A handle of a prepared statement is the
    generation of the database it was prepared in.  The calls of the stores are
    steps, and so are what happens between them: the timer, a flush the app asks
    for, and the end of a write.  Last the driver of the desktop. *)

From S2P Require Import Prelude Model Bytes JsString Effects JsMap.

Open Scope Z_scope.

(** A JavaScript value, as far as the drivers look at it; [text] is what
    [String()] makes of an array. *)
Inductive SqlValue : Type :=
  | js_undefined
  | js_null
  | js_string (s : string)
  | js_number (z : Z)
  | js_bool (b : bool)
  | js_bigint (z : Z)
  | js_bytes (bytes : Uint8Array)
  | js_array (text : string)
  | js_object (entries : list (string * SqlValue)).

Inductive BindValue : Type :=
  | bind_null
  | bind_string (s : string)
  | bind_number (z : Z)
  | bind_bigint (z : Z)
  | bind_bytes (bytes : Uint8Array).

(** What is bound: nothing, values by position, or values by name. *)
Inductive Bound : Type :=
  | bound_none
  | bound_list (values : list BindValue)
  | bound_named (values : list (string * BindValue)).

(** [Number(value)] of a bigint: the nearest number of 53 bits, ties to even. *)
Definition number_of_bigint (z : Z) : Z :=
  let k := Z.log2 (Z.abs z) - 52 in
  if k <=? 0 then z
  else
    let m := 2 ^ k in
    let q := Z.abs z / m in
    let r := Z.abs z mod m in
    let up := (m <? 2 * r) || ((2 * r =? m) && Z.odd q) in
    Z.sgn z * ((if up then q + 1 else q) * m).

(** [toBindValue] of the desktop. *)
Definition toBindValue (value : SqlValue) : BindValue :=
  match value with
  | js_null | js_undefined => bind_null
  | js_bool b => bind_number (if b then 1 else 0)
  | js_bytes bytes => bind_bytes bytes
  | js_string s => bind_string s
  | js_number z => bind_number z
  | js_bigint z => bind_bigint z
  | js_array text => bind_string text
  | js_object _ => bind_string "[object Object]"
  end.

(** [toBindValue] of the mobile app, whose SQLite takes no bigint. *)
Definition toBindValue_mobile (value : SqlValue) : BindValue :=
  match value with
  | js_null | js_undefined => bind_null
  | js_string s => bind_string s
  | js_number z => bind_number z
  | js_bytes bytes => bind_bytes bytes
  | js_bool b => bind_number (if b then 1 else 0)
  | js_bigint z => bind_number (number_of_bigint z)
  | js_array text => bind_string text
  | js_object _ => bind_string "[object Object]"
  end.

(** The name of a parameter, with its sigil. *)
Definition parameter (key : string) : string :=
  if String.prefix "@" key || String.prefix ":" key || String.prefix "$" key
  then key else "@" +:+ key.

(** [normalize], over the conversion of a value. *)
Definition normalize (bind : SqlValue → BindValue) (params : list SqlValue) : Bound :=
  match params with
  | [] => bound_none
  | [js_object entries] =>
      bound_named (foldl (λ named entry, map_set (parameter entry.1) (bind entry.2) named) [] entries)
  | _ => bound_list (bind <$> params)
  end.

Definition normalize_desktop : list SqlValue → Bound := normalize toBindValue.
Definition normalize_mobile : list SqlValue → Bound := normalize toBindValue_mobile.

(** ** The database of the app *)

Definition foreign_keys_on : string := "PRAGMA foreign_keys = ON".

(** ** sql.js

    [step_statement] binds the values, steps once or through all rows, and
    resets.  [run_script] is [run] of a database, whose text may have several
    statements: when one throws, the ones before it were performed.
    [export_image] is what [export()] returns: the file of the database, which
    sql.js closes for it and opens again as [export_reopens].  Closing a database
    rolls an open transaction back, so the file has what was committed; where
    none is open, a query answers after the export as before.  What was opened
    again has the settings of a database that was opened on that file, where
    foreign keys are off.  A statement that throws commits nothing, and a query
    changes nothing. *)
Class SqlJs (D Row : Type) : Type := {
  new_database : D;
  open_database : Uint8Array → result D;
  prepare_statement : string → D → result unit;
  step_statement : bool → string → Bound → D → result (list Row) * D;
  run_script : string → D → result unit * D;
  export_image : D → Uint8Array;
  export_reopens : D → D;
  in_transaction : D → bool;
  foreign_keys : D → bool;
  is_query : string → bool;
  open_export : ∀ d, open_database (export_image d) = Ok (export_reopens d);
  export_again : ∀ d, export_image (export_reopens d) = export_image d;
  export_ends : ∀ d, in_transaction (export_reopens d) = false;
  export_keeps : ∀ d all sql bound, in_transaction d = false → is_query sql = true →
    (step_statement all sql bound (export_reopens d)).1 = (step_statement all sql bound d).1;
  statement_error : ∀ all sql bound d e d', step_statement all sql bound d = (Err e, d') →
    export_image d' = export_image d;
  query_pure : ∀ all sql bound d, is_query sql = true → (step_statement all sql bound d).2 = d;
  keys_on : ∀ d d', run_script foreign_keys_on d = (Ok tt, d') → foreign_keys d' = true;
  reopened_keys : ∀ d, foreign_keys (export_reopens d) = false;
}.

(** ** The file it is written to: [SqliteHostFiles]

    A read does not fail; a write that fails leaves what was there, or
    nothing. *)
Class HostFiles (F : Type) : Type := {
  host_content : F → option Uint8Array;
  host_read : M F (option Uint8Array);
  host_write : Uint8Array → M F unit;
  host_read_spec : ∀ f, host_read f = (Ok (host_content f), f);
  host_write_spec : ∀ bytes f r f', host_write bytes f = (r, f') →
    match r with
    | Ok _ => host_content f' = Some bytes
    | Err _ => host_content f' = host_content f ∨ host_content f' = None
    end;
}.

(** ** The driver *)

Module WebSqlite.
(** [writes]: the images whose writing has not ended, the first one being
    written; [broken]: the promise [writing] is rejected; [closing]: the calls of
    [close] that wait, each with the writes it still waits for. *)
Record t {D F : Type} : Type := mk {
  db : D;
  closed : bool;
  generation : nat;
  cache : list (string * nat);
  dirty : bool;
  timer : bool;
  writes : list Uint8Array;
  broken : bool;
  closing : list nat;
  files : F;
}.
Arguments t : clear implicits.

Definition set_db {D F} x (w : t D F) : t D F :=
  mk _ _ x (closed w) (generation w) (cache w) (dirty w) (timer w) (writes w) (broken w) (closing w) (files w).
Definition set_closed {D F} x n (w : t D F) : t D F :=
  mk _ _ (db w) x n (cache w) (dirty w) (timer w) (writes w) (broken w) (closing w) (files w).
Definition set_cache {D F} n x (w : t D F) : t D F :=
  mk _ _ (db w) (closed w) n x (dirty w) (timer w) (writes w) (broken w) (closing w) (files w).
Definition set_dirty {D F} x y (w : t D F) : t D F :=
  mk _ _ (db w) (closed w) (generation w) (cache w) x y (writes w) (broken w) (closing w) (files w).
Definition set_writes {D F} x y (w : t D F) : t D F :=
  mk _ _ (db w) (closed w) (generation w) (cache w) (dirty w) (timer w) x y (closing w) (files w).
Definition set_closing {D F} x (w : t D F) : t D F :=
  mk _ _ (db w) (closed w) (generation w) (cache w) (dirty w) (timer w) (writes w) (broken w) x (files w).
Definition set_files {D F} x (w : t D F) : t D F :=
  mk _ _ (db w) (closed w) (generation w) (cache w) (dirty w) (timer w) (writes w) (broken w) (closing w) x.
End WebSqlite.

(** Case folding of a [u] and [i] pattern, as far as its letters are reached. *)
Definition fold_case (p : Z) : Z :=
  if (65 <=? p) && (p <=? 90) then p + 32
  else if p =? 0x212A then 107
  else if p =? 0x17F then 115
  else p.

Definition starts_with (word : string) (l : list Z) : bool :=
  bool_decide (take (length (chars word)) l = (charCode <$> chars word)).

(** [/^\s*(commit|rollback)/iu]. *)
Definition ends_transaction (sql : string) : bool :=
  let l := fold_case <$> drop_spaces (to_points sql) in
  starts_with "commit" l || starts_with "rollback" l.

Section driver.
Context {D Row : Type} `{!SqlJs D Row} {F : Type} `{!HostFiles F}.
Implicit Types w : WebSqlite.t D F.
Abbreviation Driver := (M (WebSqlite.t D F)).

(** [db.run(sql)]. *)
Definition run_sql (sql : string) : Driver unit := λ w,
  if WebSqlite.closed w then (Err "Database closed", w)
  else let '(r, d) := run_script sql (WebSqlite.db w) in (r, WebSqlite.set_db d w).

Definition openWebSqlite (f : F) : result (WebSqlite.t D F) * F :=
  match host_read f with
  | (Err e, f) => (Err e, f)
  | (Ok existing, f) =>
      match (match existing with None => Ok new_database | Some bytes => open_database bytes end) with
      | Err e => (Err e, f)
      | Ok d =>
          match run_sql foreign_keys_on (WebSqlite.mk _ _ d false 0 [] false false [] false [] f) with
          | (Ok _, w) => (Ok w, f)
          | (Err e, _) => (Err e, f)
          end
      end
  end.

(** A handle for [sql], kept or made. *)
Definition statementFor (sql : string) : Driver nat := λ w,
  match map_get sql (WebSqlite.cache w) with
  | Some held =>
      if decide (held = WebSqlite.generation w) then (Ok held, w) else (Err "Statement closed", w)
  | None =>
      if WebSqlite.closed w then (Err "Database closed", w)
      else match prepare_statement sql (WebSqlite.db w) with
           | Ok _ => (Ok (WebSqlite.generation w),
               WebSqlite.set_cache (WebSqlite.generation w)
                 (map_set sql (WebSqlite.generation w) (WebSqlite.cache w)) w)
           | Err e => (Err e, w)
           end
  end.

(** [bind], [step] and [reset] of a handle. *)
Definition use_statement (handle : nat) (all : bool) (sql : string) (bound : Bound) : Driver (list Row) := λ w,
  if decide (handle = WebSqlite.generation w) then
    let '(rows, d) := step_statement all sql bound (WebSqlite.db w) in (rows, WebSqlite.set_db d w)
  else (Err "Statement closed", w).

Definition flush : Driver unit := λ w,
  let w := WebSqlite.set_dirty (WebSqlite.dirty w) false w in
  if negb (WebSqlite.dirty w) then (Ok tt, w)
  else
    let w := WebSqlite.set_dirty false false w in
    if WebSqlite.closed w then (Err "Database closed", w)
    else
      let bytes := export_image (WebSqlite.db w) in
      let w := WebSqlite.set_db (export_reopens (WebSqlite.db w)) w in
      let w := WebSqlite.set_cache (S (WebSqlite.generation w)) [] w in
      (Ok tt, if WebSqlite.broken w then w
              else WebSqlite.set_writes (WebSqlite.writes w ++ [bytes]) false w).

(** [touched], whose flush is not awaited. *)
Definition touched (sql : string) : Driver unit := λ w,
  let w := WebSqlite.set_dirty true (WebSqlite.timer w) w in
  if ends_transaction sql then (Ok tt, (flush w).2)
  else (Ok tt, WebSqlite.set_dirty true true w).

Definition get (sql : string) (params : list SqlValue) : Driver (option Row) :=
  statementFor sql ≫= λ statement,
  use_statement statement false sql (normalize_mobile params) ≫= λ rows,
  mret (head rows).

Definition all (sql : string) (params : list SqlValue) : Driver (list Row) :=
  statementFor sql ≫= λ statement,
  use_statement statement true sql (normalize_mobile params).

Definition run (sql : string) (params : list SqlValue) : Driver unit :=
  statementFor sql ≫= λ statement,
  use_statement statement false sql (normalize_mobile params) ≫= λ _,
  touched sql.

Definition exec (sql : string) : Driver unit := run_sql sql ≫= λ _, touched sql.

(** [close]: the database is closed when what [flush] returned is there, unless
    it failed. *)
Definition close : Driver unit := λ w,
  let w := WebSqlite.set_cache (WebSqlite.generation w) [] w in
  match flush w with
  | (Ok _, w) =>
      (Ok tt, if WebSqlite.broken w then w
              else WebSqlite.set_closing (WebSqlite.closing w ++ [length (WebSqlite.writes w)]) w)
  | (Err _, w) => (Ok tt, w)
  end.

(** The end of the write in progress.  What was to be written after one that
    failed is not written. *)
Definition write_ends w : WebSqlite.t D F :=
  match WebSqlite.writes w with
  | [] => w
  | bytes :: writes =>
      match host_write bytes (WebSqlite.files w) with
      | (Ok _, f) => WebSqlite.set_files f (WebSqlite.set_closing (pred <$> WebSqlite.closing w)
                       (WebSqlite.set_writes writes false w))
      | (Err _, f) => WebSqlite.set_files f (WebSqlite.set_closing [] (WebSqlite.set_writes [] true w))
      end
  end.

(** ** Steps *)

Inductive SqlStep : Type :=
  | Gets (sql : string) (params : list SqlValue)
  | Alls (sql : string) (params : list SqlValue)
  | Runs (sql : string) (params : list SqlValue)
  | Execs (sql : string)
  | TimerFires
  | AppFlushes
  | WriteEnds
  | Closes
  | CloseEnds.

Definition sql_step (step : SqlStep) w : WebSqlite.t D F :=
  match step with
  | Gets sql params => (get sql params w).2
  | Alls sql params => (all sql params w).2
  | Runs sql params => (run sql params w).2
  | Execs sql => (exec sql w).2
  | TimerFires => (flush (WebSqlite.set_dirty (WebSqlite.dirty w) false w)).2
  | AppFlushes => (flush w).2
  | WriteEnds => write_ends w
  | Closes => (close w).2
  | CloseEnds => WebSqlite.set_closed true (S (WebSqlite.generation w)) w
  end.

(** When a step can be.  The stores ask with [get] and [all], and change with
    [run] and [exec]. *)
Definition sql_possible (step : SqlStep) w : Prop :=
  match step with
  | Gets sql _ | Alls sql _ => is_query sql = true
  | TimerFires => WebSqlite.timer w = true
  | WriteEnds => WebSqlite.writes w ≠ []
  | CloseEnds => 0%nat ∈ WebSqlite.closing w
  | _ => True
  end.

Inductive sql_reached (w : WebSqlite.t D F) : list SqlStep → WebSqlite.t D F → Prop :=
  | sql_start : sql_reached w [] w
  | sql_more steps step w' : sql_reached w steps w' → sql_possible step w' →
      sql_reached w (steps ++ [step]) (sql_step step w').
End driver.

(** ** The driver of the desktop (packages/storage-node/src/sqliteDriver.ts)

    node-sqlite3-wasm works on the file itself; each call prepares, binds and
    finalizes a statement.  It throws when it is closed twice.  [node_open] also
    makes the folder of the file. *)
Class NodeSqlite (D Row : Type) : Type := {
  node_open : string → result D;
  node_get : string → Bound → M D (option Row);
  node_all : string → Bound → M D (list Row);
  node_run : string → Bound → M D unit;
  node_exec : string → M D unit;
  node_close : M D unit;
}.

Module NodeDb.
Record t {D : Type} : Type := mk {
  db : D;
  closed : bool;
}.
Arguments t : clear implicits.
End NodeDb.

Section node.
Context {D Row : Type} `{!NodeSqlite D Row}.
Abbreviation Node := (M (NodeDb.t D)).

Definition node_call {A} (m : M D A) : Node A := λ n,
  let '(r, d) := m (NodeDb.db n) in (r, NodeDb.mk _ d (NodeDb.closed n)).

Definition openSqlite (filePath : string) : result (NodeDb.t D) :=
  node_open filePath ≫= λ d,
  match node_exec foreign_keys_on d with
  | (Ok _, d) => Ok (NodeDb.mk _ d false)
  | (Err e, _) => Err e
  end.

Definition desktop_get (sql : string) (params : list SqlValue) : Node (option Row) :=
  node_call (node_get sql (normalize_desktop params)).
Definition desktop_all (sql : string) (params : list SqlValue) : Node (list Row) :=
  node_call (node_all sql (normalize_desktop params)).
Definition desktop_run (sql : string) (params : list SqlValue) : Node unit :=
  node_call (node_run sql (normalize_desktop params)).
Definition desktop_exec (sql : string) : Node unit := node_call (node_exec sql).

Definition desktop_close : Node unit := λ n,
  if NodeDb.closed n then (Ok tt, n)
  else node_call node_close (NodeDb.mk _ (NodeDb.db n) true).

(** Closing again does nothing, whatever became of the first time. *)
Lemma desktop_close_twice n : desktop_close (desktop_close n).2 = (Ok tt, (desktop_close n).2).
Proof.
  unfold desktop_close, node_call. destruct n as [d []]; [done|]. simpl. by destruct (node_close d) as [r d'].
Qed.
End node.
