(* ===== verification/WebSqliteProps.v ===== *)
(** * SQLite in the mobile app: properties *)

From S2P Require Import Prelude Model Bytes JsString JsMap Effects BlobStore AppStorage WebSqlite.

Open Scope Z_scope.

(** The two drivers bind every value but a bigint alike. *)
Lemma normalize_alike (params : list SqlValue) :
  Forall (λ v, match v with
               | js_bigint _ => False
               | js_object entries => Forall (λ e, match e.2 with js_bigint _ => False | _ => True end) entries
               | _ => True
               end) params →
  normalize_mobile params = normalize_desktop params.
Proof.
  assert (∀ v, match v with js_bigint _ => False | _ => True end → toBindValue_mobile v = toBindValue v)
    as Hbind by (by intros []).
  assert (∀ entries named, Forall (λ e : string * SqlValue, match e.2 with js_bigint _ => False | _ => True end) entries →
    foldl (λ named entry, map_set (parameter entry.1) (toBindValue_mobile entry.2) named) named entries =
    foldl (λ named entry, map_set (parameter entry.1) (toBindValue entry.2) named) named entries) as Hfold.
  { intros entries. induction entries as [|e entries IH]; [done|]. intros named [He Hl]%Forall_cons. simpl.
    rewrite Hbind by done. by apply IH. }
  intros Hp. unfold normalize_mobile, normalize_desktop, normalize.
  assert (toBindValue_mobile <$> params = toBindValue <$> params) as Hmap.
  { apply list_fmap_ext. intros i v Hv. apply Hbind. eapply Forall_lookup_1 in Hp; [|done]. by destruct v. }
  destruct params as [|v [|v' params]]; [done| |by rewrite Hmap].
  destruct v; try by rewrite Hmap. f_equal. apply Hfold. by apply Forall_cons in Hp as [? _].
Qed.

Lemma map_set_Forall {K V} `{EqDecision K} (P : V → Prop) (k : K) v (m : list (K * V)) :
  P v → Forall (λ e, P e.2) m → Forall (λ e, P e.2) (map_set k v m).
Proof.
  intros Hv. induction 1 as [|[k' v'] m Hv' Hm IH]; simpl; [by constructor|].
  destruct (decide (k' = k)); by constructor.
Qed.

Section driver.
Context {D Row : Type} `{!SqlJs D Row} {F : Type} `{!HostFiles F}.
Implicit Types w : WebSqlite.t D F.
Abbreviation db := WebSqlite.db.
Abbreviation files := WebSqlite.files.

(** ** Handles *)

(** No kept handle is of a database that was exported since. *)
Definition live w : Prop :=
  WebSqlite.closed w = false → Forall (λ e, e.2 = WebSqlite.generation w) (WebSqlite.cache w).

(** The outcome of asking for a handle. *)
Lemma statementFor_run sql w : live w → WebSqlite.closed w = false →
  (∃ e, prepare_statement sql (db w) = Err e ∧ statementFor sql w = (Err e, w)) ∨
  ∃ cache, statementFor sql w = (Ok (WebSqlite.generation w), WebSqlite.set_cache (WebSqlite.generation w) cache w) ∧
    Forall (λ e, e.2 = WebSqlite.generation w) cache.
Proof.
  intros Hlive Hopen. specialize (Hlive Hopen). unfold statementFor. rewrite Hopen.
  destruct (map_get sql (WebSqlite.cache w)) as [held|] eqn:Hheld.
  - right. exists (WebSqlite.cache w). apply map_get_Some in Hheld.
    eapply Forall_forall in Hheld; [|exact Hlive]. simpl in Hheld. subst held.
    rewrite decide_True by done. split; [by destruct w|done].
  - destruct (prepare_statement sql (db w)) as [?|e] eqn:Hp; [right|left; by eauto].
    eexists. split; [done|]. by apply (map_set_Forall (λ g, g = _)).
Qed.

(** What the operations of a statement come to, with the cache out of sight. *)
Lemma ask_run all sql bound w : live w → WebSqlite.closed w = false →
  ∃ cache, Forall (λ e, e.2 = WebSqlite.generation w) cache ∧
  ((∃ e, prepare_statement sql (db w) = Err e ∧
      (statementFor sql ≫= λ statement, use_statement statement all sql bound) w = (Err e, w)) ∨
   (statementFor sql ≫= λ statement, use_statement statement all sql bound) w =
      ((step_statement all sql bound (db w)).1,
       WebSqlite.set_db (step_statement all sql bound (db w)).2
         (WebSqlite.set_cache (WebSqlite.generation w) cache w))).
Proof.
  intros Hlive Hopen. destruct (statementFor_run sql w Hlive Hopen) as [(e&Hp&Hs)|(cache&Hs&Hcache)].
  - exists (WebSqlite.cache w). split; [by apply Hlive|]. left. exists e. split; [done|]. by apply bind_err.
  - exists cache. split; [done|]. right. rewrite (bind_eq _ _ _ _ _ Hs). unfold use_statement.
    rewrite decide_True by done. change (db (WebSqlite.set_cache _ _ w)) with (db w).
    by destruct (step_statement all sql bound (db w)).
Qed.

(** A closed database has nothing to ask. *)
Lemma ask_closed all sql bound w : WebSqlite.closed w = true →
  Forall (λ e, (e.2 < WebSqlite.generation w)%nat) (WebSqlite.cache w) →
  ∃ e, (statementFor sql ≫= λ statement, use_statement statement all sql bound) w = (Err e, w).
Proof.
  intros Hclosed Hold. unfold mbind, M_bind, statementFor. rewrite Hclosed.
  destruct (map_get sql (WebSqlite.cache w)) as [held|] eqn:Hheld; [|by eexists].
  apply map_get_Some in Hheld. eapply Forall_forall in Hheld; [|exact Hold]. simpl in Hheld.
  rewrite decide_False by lia. by eexists.
Qed.

(** ** Flushing *)

(** The database after it was exported. *)
Definition exported w : WebSqlite.t D F :=
  WebSqlite.mk _ _ (export_reopens (db w)) false (S (WebSqlite.generation w)) [] false false
    (if WebSqlite.broken w then WebSqlite.writes w else WebSqlite.writes w ++ [export_image (db w)])
    (WebSqlite.broken w) (WebSqlite.closing w) (files w).

Lemma flush_run w :
  (flush w).2 = if WebSqlite.dirty w && negb (WebSqlite.closed w) then exported w
                else WebSqlite.set_dirty false false w.
Proof.
  unfold flush, exported. destruct w as [d [] g c [] t ws [] cl f]; done.
Qed.

Lemma flush_set_timer t w : (flush (WebSqlite.set_dirty (WebSqlite.dirty w) t w)).2 = (flush w).2.
Proof. rewrite !flush_run. by destruct w as [d [] g c [] t' ws [] cl f]. Qed.

Lemma touched_run sql w :
  touched sql w = (Ok tt, if ends_transaction sql then (flush (WebSqlite.set_dirty true (WebSqlite.timer w) w)).2
                          else WebSqlite.set_dirty true true w).
Proof. unfold touched. by destruct (ends_transaction sql), w. Qed.

Lemma close_run w : ∃ closing, (close w).2 =
  WebSqlite.set_closing closing (flush (WebSqlite.set_cache (WebSqlite.generation w) [] w)).2.
Proof.
  unfold close. destruct (flush _) as [[[]|e] w']; [|by exists (WebSqlite.closing w'); destruct w'].
  destruct (WebSqlite.broken w'); [by exists (WebSqlite.closing w'); destruct w'|by eexists].
Qed.

Lemma bind_assoc {S A B C} (m : M S A) (f : A → M S B) (k : B → M S C) s :
  (m ≫= λ a, f a ≫= k) s = ((m ≫= f) ≫= k) s.
Proof. unfold mbind, M_bind. by destruct (m s) as [[a|e] s1]. Qed.

(** ** What a step does *)

(** To the database and its cache, before any flush; a database that was
    changed and not marked has [P]. *)
Inductive effect (P : D → Prop) w : WebSqlite.t D F → Prop :=
  | effect_none : effect P w w
  | effect_asked d cache : P d → WebSqlite.closed w = false → Forall (λ e, e.2 = WebSqlite.generation w) cache →
      effect P w (WebSqlite.set_db d (WebSqlite.set_cache (WebSqlite.generation w) cache w))
  | effect_cleared : effect P w (WebSqlite.set_cache (WebSqlite.generation w) [] w)
  | effect_changed d cache : WebSqlite.closed w = false → Forall (λ e, e.2 = WebSqlite.generation w) cache →
      effect P w (WebSqlite.set_dirty true true (WebSqlite.set_db d (WebSqlite.set_cache (WebSqlite.generation w) cache w))).

Record sql_ok w : Prop := {
  ok_live : live w;
  ok_old : WebSqlite.closed w = true → Forall (λ e, (e.2 < WebSqlite.generation w)%nat) (WebSqlite.cache w);
  ok_timer : WebSqlite.dirty w = true → WebSqlite.timer w = true;
  ok_broken : WebSqlite.broken w = true → WebSqlite.writes w = [];
}.

(** [P] holds of what was committed before. *)
Definition covers (P : D → Prop) w : Prop := ∀ d, export_image d = export_image (db w) → P d.

Lemma ask_effect P all sql bound w rows w' : sql_ok w → covers P w →
  (statementFor sql ≫= λ statement, use_statement statement all sql bound) w = (rows, w') →
  (is_query sql = true ∨ is_ok rows = false → effect P w w') ∧
  (is_ok rows = true → effect P w (WebSqlite.set_dirty true true w')).
Proof.
  intros Hok HP. destruct (WebSqlite.closed w) eqn:Hclosed.
  { destruct (ask_closed all sql bound w Hclosed (ok_old w Hok Hclosed)) as [e ->]. intros [= <- <-].
    split; [constructor|done]. }
  destruct (ask_run all sql bound w (ok_live w Hok) Hclosed) as (cache&Hcache&[(e&_&->)| ->]); intros [= <- <-].
  { split; [constructor|done]. }
  destruct (step_statement all sql bound (db w)) as [rows d] eqn:Hstep. simpl. split.
  - intros Hq. constructor; [|done..]. apply HP.
    destruct Hq as [Hq|Hq]; [pose proof (query_pure all sql bound (db w) Hq) as Hd; rewrite Hstep in Hd; by rewrite <-Hd|].
    destruct rows; [done|]. by eapply statement_error.
  - intros _. by apply (effect_changed P w d cache).
Qed.

Lemma touched_effect P sql w v : effect P w (WebSqlite.set_dirty true true v) →
  ∃ u, effect P w u ∧ ((touched sql v).2 = u ∨ (touched sql v).2 = (flush u).2).
Proof.
  intros Hv. rewrite touched_run. eexists. split; [exact Hv|]. destruct (ends_transaction sql); [right|by left].
  simpl. rewrite <-(flush_set_timer true). by destruct v.
Qed.

(** A script that throws leaves [P]. *)
Definition script_leaves (P : D → Prop) (step : SqlStep) w : Prop :=
  ∀ sql e d, step = Execs sql → run_script sql (db w) = (Err e, d) → P d.

Lemma step_effect P step w : sql_ok w → sql_possible step w → covers P w → script_leaves P step w →
  step ≠ WriteEnds → step ≠ CloseEnds →
  ∃ v, effect P w v ∧ (sql_step step w = v ∨ ∃ closing, sql_step step w = WebSqlite.set_closing closing (flush v).2).
Proof.
  intros Hok Hpos HP Hscript Hw Hc.
  assert (∀ u : WebSqlite.t D F, u = WebSqlite.set_closing (WebSqlite.closing u) u) as Hself by (by intros []).
  destruct step as [sql params|sql params|sql params|sql| | | | |]; try congruence; simpl in Hpos |- *.
  - unfold get. destruct ((statementFor sql ≫= λ statement, use_statement statement false sql (normalize_mobile params)) w)
      as [rows w'] eqn:Hask. pose proof (ask_effect P _ _ _ _ _ _ Hok HP Hask) as [He _].
    exists w'. split; [by apply He; left|]. left. rewrite bind_assoc.
    unfold mbind at 1, M_bind at 1. rewrite Hask. by destruct rows.
  - unfold all. destruct ((statementFor sql ≫= λ statement, use_statement statement true sql (normalize_mobile params)) w)
      as [rows w'] eqn:Hask. pose proof (ask_effect P _ _ _ _ _ _ Hok HP Hask) as [He _].
    exists w'. split; [by apply He; left|by left].
  - unfold run. destruct ((statementFor sql ≫= λ statement, use_statement statement false sql (normalize_mobile params)) w)
      as [rows w'] eqn:Hask. pose proof (ask_effect P _ _ _ _ _ _ Hok HP Hask) as [He Hd].
    rewrite !bind_assoc. destruct rows as [l|e];
      [rewrite !(bind_eq _ _ _ _ _ Hask)|rewrite !(bind_err _ _ _ _ _ Hask); exists w'; split; [by apply He; right|by left]].
    destruct (touched_effect P sql w w') as (u&Hu&[Ht|Ht]); [by apply Hd|..]; exists u; (split; [done|]);
      [by left|right; exists (WebSqlite.closing (flush u).2); rewrite <-Hself; exact Ht].
  - unfold exec, run_sql, mbind, M_bind. destruct (WebSqlite.closed w) eqn:Hclosed.
    { exists w. split; [constructor|by left]. }
    assert (∀ d, WebSqlite.set_db d w =
      WebSqlite.set_db d (WebSqlite.set_cache (WebSqlite.generation w) (WebSqlite.cache w) w)) as Hcached by by destruct w.
    destruct (run_script sql (db w)) as [[[]|e] d] eqn:Hrun.
    + destruct (touched_effect P sql w (WebSqlite.set_db d w)) as (u&Hu&[Ht|Ht]).
      { rewrite Hcached. constructor; [done|by apply Hok]. }
      * exists u. split; [done|by left].
      * exists u. split; [done|right; exists (WebSqlite.closing (flush u).2); rewrite <-Hself; exact Ht].
    + exists (WebSqlite.set_db d w). split; [|by left]. rewrite Hcached.
      constructor; [by eapply Hscript|done|by apply Hok].
  - exists w. split; [constructor|]. right. eexists. rewrite flush_set_timer. apply Hself.
  - exists w. split; [constructor|]. right. eexists. apply Hself.
  - destruct (close_run w) as [closing Hclose]. eexists. split; [apply effect_cleared|]. right. by exists closing.
Qed.

Lemma step_split step :
  step = WriteEnds ∨ step = CloseEnds ∨ step ≠ WriteEnds ∧ step ≠ CloseEnds.
Proof. destruct step; auto. Qed.

Lemma ok_effect P w v : sql_ok w → effect P w v → sql_ok v.
Proof.
  intros [Hlive Hold Htimer Hbroken] [|d cache _ Ho Hc| |d cache Ho Hc]; split; try done; intros H; simpl in *; try congruence;
    by constructor.
Qed.

Lemma ok_flush w : sql_ok w → sql_ok (flush w).2.
Proof.
  intros [Hlive Hold Htimer Hbroken]. rewrite flush_run.
  case_match; split; try done; [intros _; constructor|]. intros Hb. simpl in Hb |- *. rewrite Hb. auto.
Qed.

Lemma ok_step step w : sql_ok w → sql_possible step w → sql_ok (sql_step step w).
Proof.
  intros Hok Hpos.
  destruct (step_split step) as [->|[->|[Hw Hc]]].
  - destruct Hok as [Hlive Hold Htimer Hbroken]. simpl. unfold write_ends.
    destruct (WebSqlite.writes w) eqn:Hwr; [by split|]. by destruct (host_write _ _) as [[] ?]; split.
  - destruct Hok as [Hlive Hold Htimer Hbroken]. split; try done. intros _. simpl.
    destruct (WebSqlite.closed w) eqn:Hclosed.
    + eapply Forall_impl; [by apply Hold|]. simpl. lia.
    + eapply Forall_impl; [by apply Hlive|]. simpl. lia.
  - destruct (step_effect (λ _, True) step w Hok Hpos ltac:(done) ltac:(done) Hw Hc) as (v&Hv&[->|[closing ->]]);
      [by eapply ok_effect|].
    destruct (ok_flush v) as [Hlive Hold Htimer Hbroken]; [by eapply ok_effect|]. by split.
Qed.

Lemma ok_reached w steps w' : sql_ok w → sql_reached w steps w' → sql_ok w'.
Proof. intros Hok. induction 1; [done|]. by apply ok_step. Qed.

(** ** What is saved *)

(** What will be in the file once what is being written is. *)
Definition last_image w : option Uint8Array :=
  match last (WebSqlite.writes w) with Some bytes => Some bytes | None => host_content (files w) end.

(** What was committed waits for the timer, or is in that image; [w0] is the
    database that was opened. *)
Definition saved w0 w : Prop :=
  WebSqlite.closed w = false → WebSqlite.broken w = false → WebSqlite.dirty w = false →
  last_image w = Some (export_image (db w)) ∨ export_image (db w) = export_image (db w0) ∧ last_image w = last_image w0.

Definition committed_in w (d : D) : Prop := export_image d = export_image (db w).

Lemma saved_effect w0 w v : saved w0 w → effect (committed_in w) w v → saved w0 v.
Proof.
  intros Hs [|d cache Hd _ _| |]; try done. intros Hc Hb Hdirty. unfold committed_in in Hd.
  change (db (WebSqlite.set_db d _)) with d. rewrite Hd. by apply Hs.
Qed.

Lemma saved_flush w0 w : saved w0 w → saved w0 (flush w).2.
Proof.
  intros Hs. rewrite flush_run. destruct (WebSqlite.dirty w) eqn:Hd; [|by intros ?? _; apply Hs].
  destruct (WebSqlite.closed w) eqn:Hc; [by intros Hc'; simpl in Hc'; congruence|].
  intros _ Hb _. left. simpl in Hb. unfold last_image, exported. simpl. rewrite Hb, last_snoc.
  by rewrite export_again.
Qed.

Lemma saved_step w0 step w : sql_ok w → sql_possible step w → script_leaves (committed_in w) step w →
  saved w0 w → saved w0 (sql_step step w).
Proof.
  intros Hok Hpos Hscript Hs. destruct (step_split step) as [->|[->|[Hw Hc]]].
  - simpl. unfold write_ends. destruct (WebSqlite.writes w) as [|bytes writes] eqn:Hwr; [done|].
    destruct (host_write bytes (files w)) as [[[]|e] f] eqn:Hf; [|by intros _ Hb].
    apply host_write_spec in Hf. intros Hc _ Hd. simpl in Hc, Hd |- *.
    assert (WebSqlite.broken w = false) as Hb.
    { destruct (WebSqlite.broken w) eqn:Hb; [|done]. apply (ok_broken w Hok) in Hb. congruence. }
    specialize (Hs Hc Hb Hd).
    match goal with |- last_image ?v = _ ∨ _ => assert (last_image v = last_image w) as -> end; [|done].
    unfold last_image. rewrite Hwr. cbn [WebSqlite.writes WebSqlite.set_writes WebSqlite.set_closing WebSqlite.set_files].
    destruct writes as [|b' writes]; [exact Hf|]. rewrite !last_cons. by destruct (last writes).
  - by intros Hcl.
  - destruct (step_effect (committed_in w) step w Hok Hpos (λ d Hd, Hd) Hscript Hw Hc) as (v&Hv&[->|[closing ->]]);
      [by eapply saved_effect|].
    by apply saved_flush, (saved_effect _ w).
Qed.

(** Runs where a script that threw had committed nothing. *)
Inductive scripts_whole w : list SqlStep → WebSqlite.t D F → Prop :=
  | whole_start : scripts_whole w [] w
  | whole_more steps step w' : scripts_whole w steps w' → sql_possible step w' →
      script_leaves (committed_in w') step w' → scripts_whole w (steps ++ [step]) (sql_step step w').

Lemma whole_reached w0 steps w : scripts_whole w0 steps w → sql_reached w0 steps w.
Proof. induction 1; by constructor. Qed.

Lemma saved_reached w0 w steps w' : sql_ok w → saved w0 w → scripts_whole w steps w' → saved w0 w'.
Proof.
  intros Hok Hs. induction 1 as [|steps step w' Hwhole IH Hpos Hscript]; [done|].
  apply saved_step; [by eapply ok_reached, whole_reached|done..].
Qed.

(** ** What the driver does by itself *)

(** Queries answer the same. *)
Definition answers_alike (d d' : D) : Prop := ∀ all sql bound, is_query sql = true →
  (step_statement all sql bound d).1 = (step_statement all sql bound d').1.

Definition writes_sql (step : SqlStep) : bool := match step with Runs _ _ | Execs _ => true | _ => false end.

Lemma flush_keeps w : committed_in w (db (flush w).2) ∧
  (in_transaction (db w) = false → answers_alike (db (flush w).2) (db w)).
Proof.
  rewrite flush_run. case_match; simpl; split; try done.
  - apply export_again.
  - intros Hin all sql bound Hq. by apply export_keeps.
Qed.

Lemma ask_keeps all sql bound w : sql_ok w → is_query sql = true →
  db ((statementFor sql ≫= λ statement, use_statement statement all sql bound) w).2 = db w.
Proof.
  intros Hok Hq. destruct (WebSqlite.closed w) eqn:Hclosed.
  { by destruct (ask_closed all sql bound w Hclosed (ok_old w Hok Hclosed)) as [e ->]. }
  destruct (ask_run all sql bound w (ok_live w Hok) Hclosed) as (cache&_&[(e&_&->)| ->]); [done|].
  by apply query_pure.
Qed.

Lemma step_keeps step w : sql_ok w → sql_possible step w → writes_sql step = false →
  committed_in w (db (sql_step step w)) ∧
  (in_transaction (db w) = false → answers_alike (db (sql_step step w)) (db w)).
Proof.
  intros Hok Hpos Hstep. destruct step as [sql params|sql params| | | | | | |]; try done; simpl in Hpos |- *.
  - assert (db (get sql params w).2 = db w) as ->; [|done]. rewrite <-(ask_keeps false sql (normalize_mobile params) w) by done.
    unfold get. rewrite bind_assoc. unfold mbind at 1, M_bind at 1.
    by destruct ((statementFor sql ≫= λ statement, use_statement statement false sql (normalize_mobile params)) w) as [[rows|e] w'].
  - pose proof (ask_keeps true sql (normalize_mobile params) w Hok Hpos) as Hd.
    change (db (all sql params w).2 = db w) in Hd. unfold committed_in. by rewrite Hd.
  - rewrite flush_set_timer. apply flush_keeps.
  - apply flush_keeps.
  - unfold write_ends. destruct (WebSqlite.writes w); [done|]. by destruct (host_write _ _) as [[] ?].
  - destruct (close_run w) as [closing ->]. apply (flush_keeps (WebSqlite.set_cache (WebSqlite.generation w) [] w)).
Qed.

(** A transaction that is open when the driver exports is rolled back with it. *)
Lemma flush_ends_transaction w : WebSqlite.dirty w = true → WebSqlite.closed w = false →
  in_transaction (db (flush w).2) = false.
Proof. intros Hd Hc. rewrite flush_run, Hd, Hc. apply export_ends. Qed.

(** A script that throws is not marked, whatever its first statements did. *)
Lemma thrown_script_unmarked sql w e d : WebSqlite.closed w = false → run_script sql (db w) = (Err e, d) →
  exec sql w = (Err e, WebSqlite.set_db d w).
Proof. intros Hc Hrun. unfold exec, run_sql, mbind, M_bind. by rewrite Hc, Hrun. Qed.

(** ** Opening *)

Lemma open_run (f : F) w f' : openWebSqlite f = (Ok w, f') →
  f' = f ∧ sql_ok w ∧ saved w w ∧ WebSqlite.closed w = false ∧ foreign_keys (db w) = true ∧
  ∃ d d', match host_content f with None => Ok new_database | Some bytes => open_database bytes end = Ok d ∧
    run_script foreign_keys_on d = (Ok tt, d') ∧
    w = WebSqlite.mk _ _ d' false 0 [] false false [] false [] f.
Proof.
  unfold openWebSqlite. rewrite host_read_spec.
  destruct (match host_content f with None => _ | Some bytes => _ end) as [d|e] eqn:Hd; [|done].
  unfold run_sql. cbn [WebSqlite.closed WebSqlite.db].
  destruct (run_script foreign_keys_on d) as [[[]|e] d'] eqn:Hrun; [|done]. intros [= <- <-].
  split; [done|]. split; [split; try done; intros _; constructor|]. split; [by intros _ _ _; right|]. split; [done|].
  split; [by eapply keys_on|]. by exists d, d'.
Qed.

Lemma opened_reached (f : F) w0 f0 steps w :
  openWebSqlite f = (Ok w0, f0) → sql_reached w0 steps w → sql_ok w.
Proof. intros (_&Hok&_)%open_run Hreach. by eapply ok_reached. Qed.

Lemma opened_whole (f : F) w0 f0 steps w :
  openWebSqlite f = (Ok w0, f0) → scripts_whole w0 steps w →
  sql_ok w ∧ saved w0 w ∧ last_image w0 = host_content f.
Proof.
  intros (->&Hok&Hs&_&_&d&d'&_&_&Hw)%open_run Hreach.
  split_and!; [by eapply ok_reached, whole_reached|by eapply saved_reached|]. by rewrite Hw.
Qed.

(** ** Properties *)

(** The cache of statements cannot be seen.  Whatever ran since the database
    was opened, every export in between included, a call of [get], [all] or
    [run] throws what preparing its statement throws, or is that statement on
    the database of now: never a handle that an export has closed. *)
Theorem statements_live (f : F) w0 f0 steps w sql params
    (Hopen : openWebSqlite f = (Ok w0, f0)) (Hreach : sql_reached w0 steps w)
    (Hclosed : WebSqlite.closed w = false) :
  let bound := normalize_mobile params in
  (∃ e, prepare_statement sql (db w) = Err e ∧
    get sql params w = (Err e, w) ∧ all sql params w = (Err e, w) ∧ run sql params w = (Err e, w)) ∨
  (get sql params w).1 = head <$> (step_statement false sql bound (db w)).1 ∧
  (all sql params w).1 = (step_statement true sql bound (db w)).1 ∧
  (run sql params w).1 = (λ _, tt) <$> (step_statement false sql bound (db w)).1.
Proof.
  pose proof (opened_reached _ _ _ _ _ Hopen Hreach) as Hok. intros bound.
  destruct (statementFor_run sql w (ok_live w Hok) Hclosed) as [(e&Hp&Hs)|(cache&Hs&_)].
  - left. exists e. unfold get, all, run. by rewrite !(bind_err _ _ _ _ _ Hs).
  - right. unfold get, all, run. rewrite !(bind_eq _ _ _ _ _ Hs). unfold use_statement.
    unfold mbind, M_bind. rewrite !decide_True by done.
    change (db (WebSqlite.set_cache _ _ w)) with (db w). fold bound.
    destruct (step_statement false sql bound (db w)) as [[l|e] d], (step_statement true sql bound (db w)) as [r' d'];
      rewrite ?touched_run; done.
Qed.

(** C23: what was committed is not forgotten while the app runs.  As long as no write
    has failed, and no script that threw had committed something (one of several
    statements can, and is not marked: [thrown_script_unmarked]), what was
    committed since the database was opened waits for a timer that is running,
    or is in the last image that is or was written; once nothing is left to
    write, the next start opens a database where the same is committed, and
    where every query answers the same, unless a transaction was open.  And
    what the driver does by itself - queries, the timer, a flush of the app, the
    end of a write, closing - takes back nothing that was committed, and changes
    no answer unless a transaction was open, which an export rolls back
    ([flush_ends_transaction]). *)
Theorem changes_saved (f : F) w0 f0 steps w
    (Hopen : openWebSqlite f = (Ok w0, f0)) (Hreach : scripts_whole w0 steps w)
    (Hclosed : WebSqlite.closed w = false) (Hbroken : WebSqlite.broken w = false) :
  (WebSqlite.dirty w = true ∧ WebSqlite.timer w = true ∨
   last_image w = Some (export_image (db w)) ∨
   export_image (db w) = export_image (db w0) ∧ last_image w = host_content f) ∧
  (WebSqlite.writes w = [] → last_image w = Some (export_image (db w)) →
   ∃ bytes d, host_read (files w) = (Ok (Some bytes), files w) ∧ open_database bytes = Ok d ∧
     export_image d = export_image (db w) ∧ (in_transaction (db w) = false → answers_alike d (db w))) ∧
  (∀ step, sql_possible step w → writes_sql step = false →
   export_image (db (sql_step step w)) = export_image (db w) ∧
   (in_transaction (db w) = false → answers_alike (db (sql_step step w)) (db w))).
Proof.
  destruct (opened_whole _ _ _ _ _ Hopen Hreach) as (Hok&Hs&Hw0). split; [|split].
  - destruct (WebSqlite.dirty w) eqn:Hd; [left; split; [done|by apply ok_timer]|right].
    rewrite <-Hw0. by apply Hs.
  - unfold last_image. intros -> Hc. simpl in Hc. exists (export_image (db w)), (export_reopens (db w)).
    rewrite host_read_spec, Hc, open_export. split_and!; [done..|apply export_again|].
    intros Hin all sql bound Hq. by apply export_keeps.
  - intros step Hpos Hstep. by apply step_keeps.
Qed.

(** One write that fails is the last one.  Whatever the app does after it,
    the file never changes again, although statements go on to succeed: the
    promise that the writes are chained to stays rejected. *)
Theorem failed_write_ends_saving w bytes rest e f steps w' (Hok : sql_ok w)
    (Hwrites : WebSqlite.writes w = bytes :: rest) (Hfail : host_write bytes (files w) = (Err e, f))
    (Hreach : sql_reached (write_ends w) steps w') :
  files w' = f ∧ WebSqlite.writes w' = [].
Proof.
  assert (files w' = f ∧ WebSqlite.broken w' = true ∧ sql_ok w') as (Hf&Hb&Hok').
  { assert (sql_ok (write_ends w)) as Hok0 by (apply (ok_step WriteEnds); [done|simpl; congruence]).
    induction Hreach as [|steps step w1 Hreach (Hf&Hb&Hok1) Hpos].
    - unfold write_ends in *. by rewrite Hwrites, Hfail in *.
    - assert (sql_ok (sql_step step w1)) as Hok2 by (by apply ok_step).
      enough (files (sql_step step w1) = f ∧ WebSqlite.broken (sql_step step w1) = true) as [? ?] by done.
      destruct (step_split step) as [->|[->|[Hw Hc]]].
      + simpl in Hpos. by rewrite (ok_broken w1 Hok1 Hb) in Hpos.
      + done.
      + assert (∀ v, effect (λ _, True) w1 v → files v = f ∧ WebSqlite.broken v = true) as Heff by (by intros v []).
        destruct (step_effect (λ _, True) step w1 Hok1 Hpos ltac:(done) ltac:(done) Hw Hc) as (v&Hv&[->|[closing ->]]); [by apply Heff|].
        apply Heff in Hv as [<- Hbv]. change ((files (flush v).2 = files v) ∧ WebSqlite.broken (flush v).2 = true).
        rewrite flush_run. by case_match. }
  split; [done|]. by apply ok_broken.
Qed.

(** Foreign keys are checked only until the first flush.  A database that
    was just opened checks them; the first commit that succeeds on it writes it
    out, and from then on they are off, until the app starts again. *)
Theorem flush_drops_foreign_keys (f : F) w0 f0 sql w
    (Hopen : openWebSqlite f = (Ok w0, f0)) (Hends : ends_transaction sql = true)
    (Hexec : exec sql w0 = (Ok tt, w)) :
  foreign_keys (db w0) = true ∧ foreign_keys (db w) = false.
Proof.
  apply open_run in Hopen as (_&_&_&Hclosed&Hkeys&_). split; [done|].
  unfold exec, run_sql, mbind, M_bind in Hexec. rewrite Hclosed in Hexec.
  destruct (run_script sql (db w0)) as [[[]|e] d]; [|done]. rewrite touched_run, Hends, flush_run in Hexec.
  injection Hexec as <-. simpl. rewrite Hclosed. apply reopened_keys.
Qed.
End driver.

(** ** On the files of the app *)

#[refine] Definition app_host (fate : nat → Fate) (path : string) : HostFiles AppFiles.t := {|
  host_content s := AppFiles.files s !! path;
  host_read := readAppFile (λ _, false) path;
  host_write := writeAppFileAtomic fate path;
|}.
Proof.
  - intros s. unfold readAppFile, attempt, readFile. by destruct (AppFiles.files s !! path).
  - intros bytes s r s' [_ Hw]%write_outcome. destruct r; [by destruct Hw|]. destruct Hw as [?|[? _]]; auto.
Defined.

(** A process killed in a flush can lose everything.  The file is written
    beside the old one, the old one is deleted, and the new one takes its name:
    killed (or failing) between the last two, the app has no database, and its
    next start opens a new one, as on a device that was just set up. *)
Theorem killed_flush_forgets {D Row : Type} `{!SqlJs D Row} (fate : nat → Fate) (path : string)
    (w : WebSqlite.t D AppFiles.t) bytes rest old
    (Hwrites : WebSqlite.writes w = bytes :: rest) (Halive : AppFiles.dead (WebSqlite.files w) = false)
    (Hold : AppFiles.files (WebSqlite.files w) !! path = Some old)
    (Hwritten : works fate (WebSqlite.files w) 0 = true) (Hdeleted : works fate (WebSqlite.files w) 1 = true)
    (Hkilled : works fate (WebSqlite.files w) 2 = false) :
  let host := app_host fate path in
  WebSqlite.db <$> (openWebSqlite (AppFiles.restart (WebSqlite.files (write_ends w)))).1 =
  WebSqlite.db <$> (openWebSqlite (AppFiles.mk ∅ 0 false)).1.
Proof.
  intros host. assert (host_content (AppFiles.restart (WebSqlite.files (write_ends w))) = None) as Hnone.
  { unfold write_ends. rewrite Hwrites.
    destruct (host_write bytes (WebSqlite.files w)) as [r f] eqn:Hw.
    pose proof (proj2 (write_gone fate path bytes old (WebSqlite.files w) r f Halive Hold Hw)) as Hgone.
    destruct r; by apply Hgone. }
  unfold openWebSqlite. rewrite !host_read_spec, Hnone.
  change (host_content (AppFiles.mk ∅ 0 false)) with (@None Uint8Array). cbv iota beta.
  unfold run_sql. cbn [WebSqlite.closed WebSqlite.db].
  by destruct (run_script foreign_keys_on new_database) as [[[]|e] d].
Qed.

(** ** A database to try it on

    A file of bytes: every statement but a query appends those it is given; a
    script begins or ends a transaction, or appends a byte and then throws.  What
    was appended and not committed counts as a transaction that is open. *)
Module Toy.
Record t : Type := mk {
  committed : Uint8Array;
  working : Uint8Array;
  began : bool;
  keys : bool;
}.
End Toy.

Definition toy_query (sql : string) : bool := String.prefix "SELECT" sql.

Definition toy_append (bytes : Uint8Array) (d : Toy.t) : Toy.t :=
  let working := Toy.working d ++ bytes in
  Toy.mk (if Toy.began d then Toy.committed d else working) working (Toy.began d) (Toy.keys d).

Definition toy_statement (all : bool) (sql : string) (bound : Bound) (d : Toy.t) : result (list Uint8Array) * Toy.t :=
  if toy_query sql then (Ok [Toy.working d], d)
  else match bound with bound_list [bind_bytes bytes] => (Ok [], toy_append bytes d) | _ => (Ok [], d) end.

Definition toy_script (sql : string) (d : Toy.t) : result unit * Toy.t :=
  if decide (sql = foreign_keys_on) then (Ok tt, Toy.mk (Toy.committed d) (Toy.working d) (Toy.began d) true)
  else if decide (sql = "BEGIN") then (Ok tt, Toy.mk (Toy.committed d) (Toy.working d) true (Toy.keys d))
  else if decide (sql = "COMMIT") then (Ok tt, Toy.mk (Toy.working d) (Toy.working d) false (Toy.keys d))
  else if decide (sql = "INSERT; nonsense") then (Err "near nonsense: syntax error", toy_append [Byte.x07] d)
  else (Ok tt, d).

#[refine] Definition toy_sql : SqlJs Toy.t Uint8Array := {|
  new_database := Toy.mk [] [] false false;
  open_database bytes := Ok (Toy.mk bytes bytes false false);
  prepare_statement _ _ := Ok tt;
  step_statement := toy_statement;
  run_script := toy_script;
  export_image := Toy.committed;
  export_reopens d := Toy.mk (Toy.committed d) (Toy.committed d) false false;
  in_transaction d := Toy.began d || negb (bool_decide (Toy.working d = Toy.committed d));
  foreign_keys := Toy.keys;
  is_query := toy_query;
|}.
Proof.
  - done.
  - done.
  - intros d. simpl. by rewrite bool_decide_true.
  - intros d all sql bound [_ Hsame%negb_false_iff%bool_decide_eq_true]%orb_false_iff Hq.
    unfold toy_statement. rewrite Hq. simpl. by rewrite Hsame.
  - intros all sql bound d e d'. unfold toy_statement. repeat case_match; congruence.
  - intros all sql bound d Hq. unfold toy_statement. by rewrite Hq.
  - intros d d'. unfold toy_script. rewrite decide_True by done. by intros [= <-].
  - done.
Defined.

Definition toy_fate (n : nat) : Fate := if (n =? 5)%nat then Dies 0 else Works.
Definition toy_files : AppFiles.t := AppFiles.mk ∅ 0 false.
Definition saves (b : Byte.byte) : list SqlStep := [Execs "BEGIN"; Runs "INSERT" [js_bytes [b]]; Execs "COMMIT"].

Section toy.
#[local] Existing Instance toy_sql.
#[local] Instance toy_host : HostFiles AppFiles.t := app_host toy_fate "metadata.db".

Definition toy_start : WebSqlite.t Toy.t AppFiles.t :=
  WebSqlite.mk _ _ (Toy.mk [] [] false true) false 0 [] false false [] false [] toy_files.

Definition toy_run (steps : list SqlStep) : WebSqlite.t Toy.t AppFiles.t :=
  foldl (λ w step, sql_step step w) toy_start steps.

(** A change saved, and another one whose write has not ended. *)
Definition toy_saved := toy_run (saves Byte.x01 ++ [WriteEnds]).
Definition toy_again := toy_run (saves Byte.x01 ++ [WriteEnds] ++ saves Byte.x02).

Lemma toy_opens : openWebSqlite toy_files = (Ok toy_start, toy_files).
Proof. reflexivity. Qed.

Lemma toy_leaves P step (w : WebSqlite.t Toy.t AppFiles.t) : step ≠ Execs "INSERT; nonsense" → script_leaves P step w.
Proof.
  intros Hne sql e d -> Hrun. change (toy_script sql (WebSqlite.db w) = (Err e, d)) in Hrun. unfold toy_script in Hrun.
  repeat case_decide; congruence.
Qed.

Lemma toy_whole (w : WebSqlite.t Toy.t AppFiles.t) steps w' step : scripts_whole w steps w' → sql_possible step w' → step ≠ Execs "INSERT; nonsense" →
  scripts_whole w (steps ++ [step]) (sql_step step w').
Proof. intros Hw Hpos Hne. constructor; [done..|]. by apply toy_leaves. Qed.

Lemma toy_reaches_saved : scripts_whole toy_start (saves Byte.x01 ++ [WriteEnds]) toy_saved.
Proof.
  change (saves Byte.x01 ++ [WriteEnds]) with
    (((([] ++ [Execs "BEGIN"]) ++ [Runs "INSERT" [js_bytes [Byte.x01]]]) ++ [Execs "COMMIT"]) ++ [WriteEnds]).
  apply toy_whole; [apply toy_whole; [apply toy_whole; [apply toy_whole; [constructor|done|done]|done|done]|done|done]| |done].
  vm_compute. discriminate.
Qed.

Lemma statements_live_witness :
  (get "SELECT" [] toy_saved).1 = Ok (Some [Byte.x01]).
Proof.
  destruct (statements_live toy_files toy_start toy_files _ toy_saved "SELECT" []
    toy_opens (whole_reached _ _ _ toy_reaches_saved) eq_refl) as [(e&He&_)|[Hget _]]; [discriminate He|].
  rewrite Hget. vm_compute. reflexivity.
Defined.

(** A transaction was committed and written: the next start has it, and so has
    the database after any later flush. *)
Lemma changes_saved_witness :
  last_image toy_saved = Some [Byte.x01] ∧ WebSqlite.writes toy_saved = [] ∧
  (∃ bytes d, host_read (WebSqlite.files toy_saved) = (Ok (Some bytes), WebSqlite.files toy_saved) ∧
    open_database bytes = Ok d ∧ (step_statement true "SELECT" bound_none d).1 = Ok [[Byte.x01]]) ∧
  (step_statement true "SELECT" bound_none (WebSqlite.db (sql_step AppFlushes toy_saved))).1 = Ok [[Byte.x01]].
Proof.
  split; [vm_compute; reflexivity|]. split; [vm_compute; reflexivity|].
  destruct (changes_saved toy_files toy_start toy_files _ toy_saved toy_opens toy_reaches_saved eq_refl eq_refl)
    as (_ & Hnext & Hkeeps). split.
  - destruct Hnext as (bytes & d & Hread & Hopen & _ & Halike); [vm_compute; reflexivity..|].
    exists bytes, d. split; [exact Hread|]. split; [exact Hopen|].
    rewrite Halike by (vm_compute; reflexivity). vm_compute. reflexivity.
  - rewrite (proj2 (Hkeeps AppFlushes I eq_refl)) by (vm_compute; reflexivity). vm_compute. reflexivity.
Defined.

(** A flush of the app in the middle of a transaction takes its changes back; a
    script that throws in the middle is not marked. *)
Lemma flush_in_transaction :
  let w := toy_run [Execs "BEGIN"; Runs "INSERT" [js_bytes [Byte.x01]]] in
  (get "SELECT" [] w).1 = Ok (Some [Byte.x01]) ∧ (get "SELECT" [] (sql_step AppFlushes w)).1 = Ok (Some []).
Proof. split; vm_compute; reflexivity. Qed.

Lemma thrown_script_unsaved :
  let w := toy_run [Execs "INSERT; nonsense"] in
  (get "SELECT" [] w).1 = Ok (Some [Byte.x07]) ∧ WebSqlite.dirty w = false ∧ last_image w = None.
Proof. split_and!; vm_compute; reflexivity. Qed.

Lemma toy_again_ok : sql_ok toy_again.
Proof.
  eapply (ok_reached toy_saved (saves Byte.x02)); [|].
  - exact (opened_reached _ _ _ _ _ toy_opens (whole_reached _ _ _ toy_reaches_saved)).
  - change (saves Byte.x02) with ((([] ++ [Execs "BEGIN"]) ++ [Runs "INSERT" [js_bytes [Byte.x02]]]) ++ [Execs "COMMIT"]).
    constructor; [constructor; [constructor; [constructor|done]|done]|done].
Qed.

(** The process is killed in the second flush; a third change is never written. *)
Lemma failed_write_ends_saving_witness :
  AppFiles.files (WebSqlite.files (sql_step (Execs "COMMIT")
    (sql_step (Runs "INSERT" [js_bytes [Byte.x03]]) (write_ends toy_again)))) !! "metadata.db" = None.
Proof.
  assert (WebSqlite.writes toy_again = [[Byte.x01; Byte.x02]]) as Hwrites by (vm_compute; reflexivity).
  destruct (host_write [Byte.x01; Byte.x02] (WebSqlite.files toy_again)) as [r f] eqn:Hw.
  assert (r = Err "killed") as -> by (vm_compute in Hw; by injection Hw).
  rewrite (proj1 (failed_write_ends_saving toy_again _ [] "killed" f
    (([] ++ [Runs "INSERT" [js_bytes [Byte.x03]]]) ++ [Execs "COMMIT"]) _ toy_again_ok Hwrites Hw
    ltac:(constructor; [constructor; [constructor|exact I]|exact I]))).
  vm_compute in Hw. injection Hw as <-. vm_compute. reflexivity.
Defined.

Lemma killed_flush_forgets_witness :
  AppFiles.files (WebSqlite.files toy_again) !! "metadata.db" = Some [Byte.x01] ∧
  WebSqlite.db <$> (openWebSqlite (AppFiles.restart (WebSqlite.files (write_ends toy_again)))).1
    = Ok (Toy.mk [] [] false true).
Proof.
  split; [vm_compute; reflexivity|].
  etrans; [exact (killed_flush_forgets toy_fate "metadata.db" toy_again [Byte.x01; Byte.x02] [] [Byte.x01]
    ltac:(vm_compute; reflexivity) ltac:(vm_compute; reflexivity) ltac:(vm_compute; reflexivity)
    ltac:(vm_compute; reflexivity) ltac:(vm_compute; reflexivity) ltac:(vm_compute; reflexivity))|].
  vm_compute. reflexivity.
Defined.

Lemma flush_drops_foreign_keys_witness :
  foreign_keys (WebSqlite.db (sql_step (Execs "COMMIT") toy_start)) = false.
Proof.
  refine (proj2 (flush_drops_foreign_keys toy_files toy_start toy_files "COMMIT" _ toy_opens _ _));
    [vm_compute; reflexivity|]. vm_compute. reflexivity.
Defined.
End toy.
