(* ===== verification/Android.v ===== *)
(** * The vault file on Android

    [androidFiles] of apps/mobile/src/platform/androidPlatform.ts: the document
    the user picked, through the plugin PassVaultNativePlugin.java, which reads a
    content URI whole and writes it by truncating and filling it.  The documents
    are those of [AppFiles]: [fate] decides what becomes of a call that writes,
    [opens] whether a stream opens and [granted] what the persisted grants are,
    each by the number of the call. *)

From S2P Require Import Prelude Model Dag Bytes JsString Lineage Json Protocol Effects Store StoreTheory.
From S2P Require Import StoreProps BlobStore BlobProps Engine EngineTheory EngineSteps EngineProps Inbox.
From S2P Require Import Codec Identity Session ShortCode JsMap Hub Settings VaultFile VaultFileProps Explain.
From S2P Require Import Kdbx Services ServicesTheory Desk ServicesFile AppStorage.

Open Scope Z_scope.

Section android.
Context (fate : nat → Fate) (opens : nat → bool) (granted : nat → string → bool).
Abbreviation Docs := (M AppFiles.t).

(** ** The plugin *)

Definition hasAccess (uri : string) : Docs bool := gets (λ d, granted (AppFiles.asked d) uri).

Definition readVault (uri : string) : Docs string := λ d,
  if opens (AppFiles.asked d)
  then match AppFiles.files d !! uri with
       | Some bytes => (Ok (Codec.toBase64 bytes), d)
       | None => (Err "could not open that file", d)
       end
  else (Err "could not open that file", d).

(** The stream opens, and the document is empty; then it is filled. *)
Definition writeVault (uri data : string) : Docs unit :=
  gets (λ d, opens (AppFiles.asked d)) ≫= λ opened,
  if (opened : bool) then
    lift (Codec.fromBase64 data) ≫= λ bytes,
    call fate (λ docs, Some (<[uri := []]> docs)) (λ _ docs, docs) ≫= λ _,
    write_file fate uri bytes
  else throw "could not open that file for writing".

(** ** androidFiles *)

Definition android_read (path : string) : Docs Uint8Array :=
  readVault path ≫= λ data, lift (AppStorage.fromBase64 data).

Definition android_write (path : string) (bytes : Uint8Array) (ignoreLock : bool) : Docs VaultWriteOutcome :=
  hasAccess path ≫= λ access,
  if (access : bool) then
    writeVault path (AppStorage.toBase64 bytes) ≫= λ _, mret write_done
  else
    mret (write_refused "PassVault no longer has permission to that file. Choose it again under Home.").

Definition android_isLocked (path : string) : Docs bool := mret false.
End android.

(** ** What it guarantees *)

Section writes.
Context (fate : nat → Fate) (opens : nat → bool) (granted : nat → string → bool).
Abbreviation docs := AppFiles.files.

Lemma android_read_run path d :
  android_read opens path d =
  (if opens (AppFiles.asked d)
   then match docs d !! path with Some bytes => Ok bytes | None => Err "could not open that file" end
   else Err "could not open that file", d).
Proof.
  unfold android_read, readVault, mbind, M_bind. destruct (opens _); [|done].
  destruct (docs d !! path) as [bytes|]; [|done]. unfold lift, AppStorage.fromBase64. by rewrite fromBase64_toBase64.
Qed.

(** What a write leaves, on every branch: without a grant, or when the stream
    does not open, nothing happened; else the document may be left with a
    beginning of what was to be written. *)
Lemma android_write_run path bytes ignoreLock d :
  let '(r, d') := android_write fate opens granted path bytes ignoreLock d in
  (∀ q, q ≠ path → docs d' !! q = docs d !! q) ∧
  match r with
  | Ok write_done => docs d' !! path = Some bytes
  | Ok (write_refused _) => d' = d ∧ granted (AppFiles.asked d) path = false
  | Err _ => docs d' !! path = docs d !! path ∨ ∃ n, docs d' !! path = Some (take n bytes)
  end.
Proof.
  unfold android_write, hasAccess, gets. unfold mbind at 1, M_bind at 1.
  destruct (granted (AppFiles.asked d) path) eqn:Hg; [|by split].
  unfold writeVault, gets, mbind, M_bind, lift. destruct (opens (AppFiles.asked d)); [|split; [done|by left]].
  rewrite toBase64_codec, fromBase64_toBase64. unfold write_file, call.
  destruct d as [f n []]; cbn [AppFiles.dead AppFiles.asked AppFiles.files]; [split; [done|by left]|].
  destruct (fate n) as [|k|k]; cbn [AppFiles.dead AppFiles.asked AppFiles.files]; [|split; [done|by left]..].
  destruct (fate (S n)) as [|k|k]; cbn [AppFiles.dead AppFiles.asked AppFiles.files];
    (split; [intros q Hq; by simplify_map_eq|]); simplify_map_eq; eauto.
Qed.
End writes.

(** A platform, as long as no write stops in the middle. *)
#[refine] Definition android_files (opens : nat → bool) (granted : nat → string → bool)
    : VaultFileAccess AppFiles.t := {|
  content d := λ path, AppFiles.files d !! path;
  vault_path _ := True;
  file_read := android_read opens;
  file_write := android_write (λ _, Works) opens granted;
  file_isLocked := android_isLocked;
  can_watch := false;
|}.
Proof.
  - intros d path _. exists d. split; [done|]. rewrite android_read_run.
    destruct (opens _); [|by right; eexists]. destruct (AppFiles.files d !! path); [left; eauto|by right; eexists].
  - intros d path bytes ignoreLock _.
    pose proof (android_write_run (λ _, Works) opens granted path bytes ignoreLock d) as Hw.
    assert (∀ e d', android_write (λ _, Works) opens granted path bytes ignoreLock d = (Err e, d') →
      ∀ q, AppFiles.files d' !! q = AppFiles.files d !! q) as Herr.
    { intros e d'. unfold android_write, hasAccess, writeVault, gets, mbind, M_bind, lift.
      destruct (granted _ _); [|done]. destruct (opens _); [|by intros [= <- <-]].
      rewrite toBase64_codec, fromBase64_toBase64. unfold write_file, call.
      by destruct d as [f n []]; [intros [= <- <-]|]. }
    destruct (android_write _ _ _ path bytes ignoreLock d) as [[[|reason]|e] d'] eqn:Hrun; exists d'.
    + destruct Hw as [Hother Hw]. right; right. split; [|done]. intros q. case_decide; [by subst|by apply Hother].
    + destruct Hw as [_ [-> _]]. right; left. split; [done|by eexists].
    + left. split; [by apply (Herr e)|by eexists].
  - intros d path. by do 2 eexists.
Defined.

(** ** A write that was cut short, and the next look at the file *)

Section torn.
Context `{RowOrder, Digest} {B : Type} `{!BlobStore B}.
Context (engine_clock : nat → Date) (revisionIds : nat → string).
Context (clock : nat → Date) (localeTime : Date → string) (keyPair : DeviceKeyPair.t).
Context (opens : nat → bool) (granted : nat → string → bool).
#[local] Instance torn_files : VaultFileAccess AppFiles.t := android_files opens granted.
Implicit Types s : Services.t B AppFiles.t.

(** The whole of [recordFileNow] on bytes that are not the current version's. *)
Lemma record_now_run k v uri bytes s :
  engine_ok (Services.engine s) → Services.vaultId s = Some k → Db.vaults (tables s) !! k = Some v →
  Vault.kdbxPath v = Some uri → AppFiles.files (Services.files s) !! uri = Some bytes →
  opens (AppFiles.asked (Services.files s)) = true →
  head_hash v (tables s) ≠ Some (sha256 bytes) → is_ok (blob_put bytes (EngineState.blobs (Services.engine s))).1 →
  let r := changed engine_clock revisionIds (DeviceKeyPair.deviceId keyPair) v bytes (EngineState.ticks (Services.engine s)) in
  ∃ s', recordFileNow engine_clock revisionIds clock localeTime keyPair s = (Ok file_recorded, s') ∧
    tables s' = changed_db v r (engine_clock (EngineState.ticks (Services.engine s))) (tables s).
Proof.
  intros Hok Hk Hv Hpath Hdoc Hopens Hh Hput r. unfold recordFileNow.
  erewrite bind_eq by reflexivity. rewrite Hk. unfold getVault. erewrite bind_eq by apply database_gets.
  rewrite Hv. cbn [mbind option_bind]. rewrite Hpath.
  erewrite bind_eq.
  2:{ apply (files_run (F := AppFiles.t) (file_read uri) s (Ok bytes) (Services.files s)).
      change (file_read uri (Services.files s)) with (android_read opens uri (Services.files s)).
      by rewrite android_read_run, Hopens, Hdoc. }
  assert (Services.set_files (Services.files s) s = s) as -> by by destruct s.
  assert (∃ e, recordLocalChange engine_clock revisionIds (DeviceKeyPair.deviceId keyPair) k bytes (Services.engine s)
    = (Ok (recorded r), e) ∧
    db e = changed_db v r (engine_clock (EngineState.ticks (Services.engine s))) (tables s)) as (e & Hrec & He).
  { rewrite recordLocalChange_run by done. change (db (Services.engine s)) with (tables s).
    rewrite Hv, decide_False by done. destruct (blob_put bytes _).1; [|done].
    eexists. split; [reflexivity|]. apply db_set_db. }
  erewrite bind_eq by exact (engine_run _ _ _ _ Hrec). by eexists.
Qed.

(** C22: a write that is cut short becomes the current version.  Android writes
    the document in place; if the process dies in the write, what is left is a
    beginning of the bytes.  The next time the app comes to the foreground it
    records what it reads, whatever that is, as a save of the person: the torn
    file is the head, on top of the version that was being written, and goes to
    the other devices as such. *)
Theorem torn_write_becomes_current (fate : nat → Fate) (docs : AppFiles.t) (n : nat) k v uri bytes s
    (Halive : AppFiles.dead docs = false) (Hgranted : granted (AppFiles.asked docs) uri = true)
    (Hopen : opens (AppFiles.asked docs) = true) (Htruncated : fate (AppFiles.asked docs) = Works)
    (Hdies : fate (S (AppFiles.asked docs)) = Dies n)
    (Hfiles : Services.files s = AppFiles.restart (android_write fate opens granted uri bytes false docs).2)
    (Hopens : opens (AppFiles.asked (Services.files s)) = true)
    (Hok : engine_ok (Services.engine s)) (Hk : Services.vaultId s = Some k)
    (Hv : Db.vaults (tables s) !! k = Some v) (Hpath : Vault.kdbxPath v = Some uri)
    (Hh : head_hash v (tables s) ≠ Some (sha256 (take n bytes)))
    (Hput : is_ok (blob_put (take n bytes) (EngineState.blobs (Services.engine s))).1) :
  ∃ r s', recordFileNow engine_clock revisionIds clock localeTime keyPair s = (Ok file_recorded, s') ∧
    Db.vaults (tables s') = <[k := Vault.set_head v (Revision.id r)]> (Db.vaults (tables s)) ∧
    Revision.hash r = sha256 (take n bytes) ∧ Revision.parentIds r = option_list (Vault.headRevisionId v).
Proof.
  assert (AppFiles.files (Services.files s) !! uri = Some (take n bytes)) as Hdoc.
  { rewrite Hfiles. unfold android_write, hasAccess, writeVault, gets, mbind, M_bind, lift. rewrite Hgranted, Hopen.
    rewrite toBase64_codec, fromBase64_toBase64. unfold write_file, call. rewrite Halive, Htruncated.
    cbn [AppFiles.dead AppFiles.asked AppFiles.files]. rewrite Hdies. apply lookup_insert_eq. }
  destruct (record_now_run k v uri (take n bytes) s) as (s'&Hrun&Ht);
    [exact Hok|exact Hk|exact Hv|exact Hpath|exact Hdoc|exact Hopens|exact Hh|exact Hput|].
  pose proof (wf_vault_id _ (ok_wf _ Hok) _ _ Hv) as Hid.
  eexists (changed engine_clock revisionIds (DeviceKeyPair.deviceId keyPair) v (take n bytes)
    (EngineState.ticks (Services.engine s))), s'. split; [exact Hrun|]. rewrite Ht. split; [|split; reflexivity].
  destruct (changed_db_tables v (changed engine_clock revisionIds (DeviceKeyPair.deviceId keyPair) v (take n bytes)
    (EngineState.ticks (Services.engine s))) (engine_clock (EngineState.ticks (Services.engine s))) (tables s))
    as (_&_&Hvs&_). rewrite Hvs, Hid, Hv. by rewrite upsert_set_head.
Qed.
End torn.

(** ** A phone to try it on *)

#[local] Existing Instance insertion_order.
#[local] Existing Instance first_bytes.
#[local] Existing Instance desk_blobs.

(** The process dies in the second call of a write, after four bytes. *)
Definition torn_fate (n : nat) : Fate := if (n =? 1)%nat then Dies 4 else Works.
Definition phone_docs : AppFiles.t := AppFiles.mk {[Desk.path := Desk.kdbx Byte.x01]} 0 false.

Definition phone : Services.t (FS.t * nat) AppFiles.t :=
  Services.mk (Services.engine desk1)
    (AppFiles.restart (android_write torn_fate (λ _, true) (λ _ _, true) Desk.path (Desk.kdbx Byte.x00) false phone_docs).2)
    None ∅ Hub.new (Some "a") [] [] [] None false None false None None 0 0 [].

Lemma torn_write_becomes_current_witness :
  ∃ r s', recordFileNow (VaultFileAccess0 := android_files (λ _, true) (λ _ _, true)) Device.clock Device.ids Device.clock
      Desk.localeTime Desk.own phone = (Ok file_recorded, s') ∧
    (Db.vaults (tables s') !! "a") ≫= Vault.headRevisionId = Some (Revision.id r) ∧
    Revision.hash r = sha256 (take 4 (Desk.kdbx Byte.x00)) ∧ Revision.parentIds r = ["aa"].
Proof.
  assert (∃ v, Db.vaults (tables phone) !! "a" = Some v ∧ Vault.kdbxPath v = Some Desk.path ∧
    Vault.headRevisionId v = Some "aa" ∧ head_hash v (tables phone) ≠ Some (sha256 (take 4 (Desk.kdbx Byte.x00))))
    as (v&Hv&Hpath&Hhead&Hh).
  { eexists. split; [vm_compute; reflexivity|]. split; [reflexivity|]. split; [reflexivity|].
    refine (bool_decide_eq_true_1 _ _). vm_compute. reflexivity. }
  destruct (torn_write_becomes_current Device.clock Device.ids Device.clock Desk.localeTime Desk.own
    (λ _, true) (λ _ _, true) torn_fate phone_docs 4 "a" v Desk.path (Desk.kdbx Byte.x00) phone
    eq_refl eq_refl eq_refl eq_refl eq_refl eq_refl eq_refl desk1_ok eq_refl Hv Hpath Hh
    ltac:(vm_compute; reflexivity)) as (r&s'&Hrun&Hvaults&Hhash&Hparents).
  exists r, s'. split; [exact Hrun|]. rewrite Hvaults, lookup_insert_eq. split; [reflexivity|].
  split; [exact Hhash|]. by rewrite Hparents, Hhead.
Defined.
