(* ===== verification/KeyFile.v ===== *)
(** * The key of a device at rest

    apps/desktop/src/main/identityStore.ts and [loadIdentity] of
    apps/mobile/src/platform/androidPlatform.ts: the private key in a file of
    the app, wrapped by the keychain of the system where there is one.  The
    files, and what becomes of the calls that write them, are those of
    AppStorage; a text is in a file as its bytes.  The keychain, the random key
    and what the device is called are parameters. *)

From S2P Require Import Prelude Model Bytes JsString Json JsonProps Effects BlobStore BlobProps Codec.
From S2P Require Import Identity IdentityProps ShortCode VaultFile AppStorage.
From Stdlib Require Ascii.

Open Scope Z_scope.

(** A keychain: whether it can be used, and wrapping; what it wraps it gives
    back. *)
Class Keychain : Type := {
  available : bool;
  wrap : string → result string;
  unwrap : string → result string;
  unwrap_wrap : ∀ plain sealed, wrap plain = Ok sealed → unwrap sealed = Ok plain;
}.

(** [name] is whatever the file has for it. *)
Module LoadedIdentity.
Record t : Type := mk {
  keyPair : DeviceKeyPair.t;
  name : option json;
  atRestUnprotected : bool;
}.
End LoadedIdentity.

(** A value in a condition. *)
Definition truthy (value : option json) : bool :=
  match value with
  | None | Some JNull => false
  | Some (JBool b) => b
  | Some (JNum (NInt z)) => negb (z =? 0)
  | Some (JNum NNonInt) => true
  | Some (JStr s) => negb (bool_decide (s = EmptyString))
  | Some (JArr _) | Some (JObj _) => true
  end.

(** [StoredIdentity], as it is written. *)
Definition stored_identity (name privateKey : string) (encrypted : bool) : list (string * json) :=
  [("version", JNum (NInt 1)); ("name", JStr name); ("privateKey", JStr privateKey); ("encrypted", JBool encrypted)].

(** [JSON.stringify(value, null, 2)] of an object whose values are no objects. *)
Definition stringify_indented (members : list (string * json)) : string :=
  let nl := [fromCharCode 10] in
  of_chars (chars "{" ++ nl
    ++ join (chars "," ++ nl) ((λ '(k, v), chars "  " ++ quote k ++ chars ": " ++ write v) <$> members)
    ++ nl ++ chars "}").

(** [value.trim()], and [hostname().replace(/\.local$/u, "")]. *)
Definition without_local (host : string) : string :=
  if endsWith ".local" host then of_chars (take (length (chars host) - 6) (chars host)) else host.

Definition defaultDeviceName_desktop (label : option string) (hostname : string) : string :=
  match label with
  | Some label => if decide (trim label = EmptyString)
                  then (let host := without_local hostname in if decide (host = EmptyString) then "This device" else host)
                  else trim label
  | None => let host := without_local hostname in if decide (host = EmptyString) then "This device" else host
  end.

(** [info]: the manufacturer and the model, unless asking failed. *)
Definition defaultDeviceName_android (info : option (option string * option string)) : string :=
  match info with
  | None => "Android device"
  | Some (manufacturer, model) =>
      let parts := filter (λ s, s ≠ EmptyString) (option_list manufacturer ++ option_list model) in
      let name := trim (match parts with
                        | [a; b] => a +:+ " " +:+ b
                        | [a] => a
                        | _ => EmptyString
                        end) in
      if decide (name = EmptyString) then "Android device" else name
  end.

Definition text_of (bytes : Uint8Array) : string := of_chars (Ascii.ascii_of_byte <$> bytes).

Section keyfile.
Context `{Digest, Ed25519, Keychain}.
Context (fate : nat → Fate) (unreadable : string → bool).
Context (randomPrivateKey : Uint8Array) (deviceName : string).
Abbreviation App := (M AppFiles.t).

Definition generateDeviceKeyPair : DeviceKeyPair.t :=
  let publicKey := getPublicKey randomPrivateKey in
  DeviceKeyPair.mk (deviceIdFor publicKey) publicKey randomPrivateKey.

(** The [try] of both functions, on the text of the file. *)
Definition read_identity (raw : string) : result LoadedIdentity.t :=
  match JSON_parse raw with
  | Some (JObj members) =>
      let encrypted := truthy (member "encrypted" members) in
      match member "privateKey" members with
      | Some (JStr privateKey) =>
          hex ← (if encrypted then unwrap privateKey else Ok privateKey);
          bytes ← fromHex hex;
          keyPair ← keyPairFromPrivateKey bytes;
          Ok (LoadedIdentity.mk keyPair (member "name" members) (negb encrypted))
      | _ => Err "Contract violation: expected an even-length hex string"
      end
  | Some _ => Err "Contract violation: expected an even-length hex string"
  | None => Err "SyntaxError"
  end.

(** What is stored of a new key, and what is returned of it. *)
Definition new_identity : result (list (string * json) * LoadedIdentity.t) :=
  let hex := toHex (DeviceKeyPair.privateKey generateDeviceKeyPair) in
  privateKey ← (if available then wrap hex else Ok hex);
  Ok (stored_identity deviceName privateKey available,
      LoadedIdentity.mk generateDeviceKeyPair (Some (JStr deviceName)) (negb available)).

(** The identity in a file, or a new one that [save] writes. *)
Definition load_or_create (path : string) (save : list (string * json) → App unit) : App LoadedIdentity.t :=
  attempt (readFile unreadable path) ≫= λ raw,
  match raw ≫= λ bytes, match read_identity (text_of bytes) with Ok found => Some found | Err _ => None end with
  | Some found => (mret found : App _)
  | None =>
      lift new_identity ≫= λ '(stored, made),
      save stored ≫= λ _,
      mret made
  end.

Definition IDENTITY_PATH : string := "device-identity.json".

Definition loadIdentity : App LoadedIdentity.t :=
  load_or_create IDENTITY_PATH (λ stored,
    writeAppText fate IDENTITY_PATH (utf8 (JSON_stringify (JObj stored)))).

(** [chmod] changes no content. *)
Definition chmod (path : string) : App unit :=
  call fate (λ files, match files !! path with Some _ => Some files | None => None end) (λ _ files, files).

Definition loadOrCreateIdentity (appDataDir : string) : App LoadedIdentity.t :=
  let path := join_path appDataDir IDENTITY_PATH in
  load_or_create path (λ stored,
    write_file fate path (utf8 (stringify_indented stored)) ≫= λ _, chmod path).
End keyfile.

(** ** What it guarantees *)

Lemma text_of_utf8 (s : string) : text_of (utf8 s) = s.
Proof.
  apply chars_inj. unfold text_of, utf8. rewrite chars_of_chars, <-list_fmap_compose.
  rewrite <-(list_fmap_id (chars s)) at 2. apply list_fmap_ext. intros i c _. apply Ascii.ascii_of_byte_of_ascii.
Qed.

(** ** The indented text *)

Lemma skip_space_app ws l : Forall (λ c, is_json_space c = true) ws → skip_space (ws ++ l) = skip_space l.
Proof. induction 1 as [|c ws Hc Hws IH]; [done|]. simpl. by rewrite Hc. Qed.

Lemma parse_value_space c l fuel : is_json_space c = true → parse_value (S fuel) (c :: l) = parse_value (S fuel) l.
Proof. intros Hc. cbn [parse_value]. simpl skip_space. by rewrite Hc. Qed.

(** A member after white space, with a blank after its colon. *)
Lemma parse_spaced_member ws k v rest fuel t :
  Forall (λ c, is_json_space c = true) ws →
  parse_value (S fuel) (v ++ rest) = Some t →
  parse_members (S (S fuel)) (ws ++ quote k ++ chars ": " ++ v ++ rest)
  = match skip_space t.2 with
    | c :: rest =>
        if is_char 44 c then
          parse_members (S fuel) rest ≫= λ '(members, rest), Some ((k, t.1) :: members, rest)
        else if is_char 125 c then Some ([(k, t.1)], rest)
        else None
    | [] => None
    end.
Proof.
  intros Hws Hv. rewrite (proj1 (parse_quote k _)). remember (S fuel) as fuel' eqn:Hfuel.
  cbn [parse_members]. rewrite skip_space_app by done.
  rewrite skip_space_head by (vm_compute; reflexivity).
  change (is_char 34 (fromCharCode 34)) with true. cbn iota.
  rewrite (proj2 (parse_quote k _)) by lia. cbn [mbind option_bind].
  change (chars ": " ++ v ++ rest) with (fromCharCode 58 :: fromCharCode 32 :: (v ++ rest)).
  rewrite skip_space_head by (vm_compute; reflexivity).
  change (is_char 58 (fromCharCode 58)) with true. cbn iota. subst fuel'.
  rewrite parse_value_space by (vm_compute; reflexivity). rewrite Hv. destruct t as [j t].
  cbn [mbind option_bind fst snd]. by rewrite of_chars_chars.
Qed.

Definition spaced (kv : string * json) : text := chars "  " ++ quote kv.1 ++ chars ": " ++ write kv.2.

(** All but the last of the members, each with the comma after it. *)
Lemma parse_spaced_members ws l last more rest fuel :
  Forall (λ c, is_json_space c = true) ws → Forall (λ kv, safe kv.2) l →
  (∀ ws fuel, Forall (λ c, is_json_space c = true) ws → (2 * length last + 2 <= fuel)%nat →
    parse_members fuel (ws ++ last) = Some (more, rest)) →
  (2 * length (concat ((λ kv, spaced kv ++ chars "," ++ [fromCharCode 10]) <$> l) ++ last) + 2 <= fuel)%nat →
  parse_members fuel (ws ++ concat ((λ kv, spaced kv ++ chars "," ++ [fromCharCode 10]) <$> l) ++ last)
  = Some (l ++ more, rest).
Proof.
  intros Hws Hl Hlast. revert ws fuel Hws. induction Hl as [|[k v] l Hv Hl IH]; intros ws fuel Hws Hfuel.
  { by apply Hlast. }
  rewrite fmap_cons in *. cbn [concat] in *. rewrite <-!app_assoc in *.
  set (rests := concat ((λ kv, spaced kv ++ chars "," ++ [fromCharCode 10]) <$> l) ++ last) in *.
  unfold spaced in Hfuel |- *. cbn [fst snd] in *. rewrite <-!app_assoc in *. rewrite !length_app in Hfuel.
  destruct fuel as [|[|fuel]]; [lia..|].
  rewrite (app_assoc ws). erewrite parse_spaced_member; cycle 1.
  - apply Forall_app. split; [done|]. repeat constructor.
  - apply all_reads; [done|simpl; set_solver|simpl in *; lia].
  - cbn [fst snd]. change (chars "," ++ [fromCharCode 10] ++ rests) with (fromCharCode 44 :: ([fromCharCode 10] ++ rests)).
    rewrite skip_space_head by (vm_compute; reflexivity).
    change (is_char 44 (fromCharCode 44)) with true. cbn iota.
    rewrite IH; [done|repeat constructor|simpl in *; lia].
Qed.

Lemma parse_indented name privateKey encrypted :
  let stored := stored_identity name privateKey encrypted in
  JSON_parse (stringify_indented stored) = Some (JObj stored).
Proof.
  intros stored.
  set (front := [("version", JNum (NInt 1)); ("name", JStr name); ("privateKey", JStr privateKey)]).
  set (last := spaced ("encrypted", JBool encrypted) ++ [fromCharCode 10] ++ chars "}").
  set (body := concat ((λ kv, spaced kv ++ chars "," ++ [fromCharCode 10]) <$> front) ++ last).
  assert (chars (stringify_indented stored) = fromCharCode 123 :: fromCharCode 10 :: body) as Htext.
  { unfold stringify_indented. rewrite chars_of_chars. subst body last front stored. unfold stored_identity.
    cbn [join fmap list_fmap concat]. unfold spaced. cbn [fst snd]. by rewrite <-!app_assoc. }
  unfold JSON_parse. rewrite Htext. set (fuel := (2 * length _)%nat).
  cbn [parse_value]. rewrite skip_space_head by (vm_compute; reflexivity).
  change (is_char 123 (fromCharCode 123)) with true. cbn iota.
  assert (∃ t, body = fromCharCode 32 :: fromCharCode 32 :: fromCharCode 34 :: t) as [t Ht] by by eexists.
  replace (skip_space (fromCharCode 10 :: body)) with (fromCharCode 34 :: t) by (rewrite Ht; reflexivity).
  change (is_char 125 (fromCharCode 34)) with false. cbn iota.
  change (fromCharCode 10 :: body) with ([fromCharCode 10] ++ body). subst body.
  rewrite (parse_spaced_members _ front last [("encrypted", JBool encrypted)] []).
  - cbn [mbind option_bind]. by rewrite decide_True.
  - by repeat constructor.
  - repeat constructor; simpl; lia.
  - intros ws fuel' Hws Hfuel. subst last. unfold spaced. cbn [fst snd]. rewrite <-!app_assoc.
    destruct fuel' as [|[|[|fuel']]]; [simpl in Hfuel; lia..|].
    rewrite (app_assoc ws). erewrite parse_spaced_member; cycle 1.
    + apply Forall_app. split; [done|]. by repeat constructor.
    + destruct encrypted; reflexivity.
    + reflexivity.
  - subst fuel. cbn [length]. lia.
Qed.

(** ** Loading and creating *)

Section keyfile.
Context `{Digest, Ed25519, Keychain}.
Implicit Types s : AppFiles.t.

Lemma read_back (randomPrivateKey : Uint8Array) deviceName stored made raw :
  length randomPrivateKey = 32%nat →
  new_identity randomPrivateKey deviceName = Ok (stored, made) → JSON_parse raw = Some (JObj stored) →
  read_identity raw = Ok made.
Proof.
  intros Hlen Hnew Hraw. unfold new_identity in Hnew. unfold read_identity. rewrite Hraw.
  set (hex := toHex (DeviceKeyPair.privateKey (generateDeviceKeyPair randomPrivateKey))) in *.
  assert (fromHex hex = Ok randomPrivateKey) as Hhex by apply fromHex_toHex.
  assert (keyPairFromPrivateKey randomPrivateKey = Ok (generateDeviceKeyPair randomPrivateKey)) as Hpair.
  { unfold keyPairFromPrivateKey. by rewrite Hlen. }
  apply result_bind_ok in Hnew as (privateKey&Hwrap&[= <- <-]).
  change (member "encrypted" (stored_identity deviceName privateKey available)) with (Some (JBool available)).
  change (member "privateKey" (stored_identity deviceName privateKey available)) with (Some (JStr privateKey)).
  change (member "name" (stored_identity deviceName privateKey available)) with (Some (JStr deviceName)).
  cbn [truthy]. destruct available.
  - rewrite (unwrap_wrap _ _ Hwrap). cbn [mbind result_bind]. rewrite Hhex. cbn [mbind result_bind]. by rewrite Hpair.
  - injection Hwrap as <-. cbn [mbind result_bind]. rewrite Hhex. cbn [mbind result_bind]. by rewrite Hpair.
Qed.

(** A file that is read again is what was loaded from it. *)
Lemma load_again unreadable randomPrivateKey deviceName path save found s bytes :
  unreadable path = false → AppFiles.files s !! path = Some bytes → read_identity (text_of bytes) = Ok found →
  load_or_create unreadable randomPrivateKey deviceName path save s = (Ok found, s).
Proof.
  intros Hr Hs Hread. unfold load_or_create, attempt, readFile, mbind, M_bind. rewrite Hr, Hs.
  unfold mbind, option_bind. by rewrite Hread.
Qed.

(** What a load that succeeded left: the file it read, or the new one, if
    [save] writes a text that is parsed as what it stores. *)
Lemma load_outcome unreadable randomPrivateKey deviceName path save found s s' :
  length randomPrivateKey = 32%nat →
  (∀ name privateKey encrypted s1 u s2, save (stored_identity name privateKey encrypted) s1 = (Ok u, s2) → ∃ raw,
    AppFiles.files s2 !! path = Some (utf8 raw) ∧
    JSON_parse raw = Some (JObj (stored_identity name privateKey encrypted))) →
  load_or_create unreadable randomPrivateKey deviceName path save s = (Ok found, s') →
  ∃ bytes, AppFiles.files s' !! path = Some bytes ∧ read_identity (text_of bytes) = Ok found.
Proof.
  intros Hlen Hsave. unfold load_or_create, attempt.
  assert (∀ s, ((lift (new_identity randomPrivateKey deviceName) ≫= λ '(stored, made), save stored ≫= λ _, mret made) s
    = (Ok found, s') → ∃ bytes, AppFiles.files s' !! path = Some bytes ∧ read_identity (text_of bytes) = Ok found))
    as Hnew.
  { intros s0 Hrun. apply bind_ok in Hrun as ([stored made]&s1&Hn&Hrun). apply lift_ok in Hn as [Hn <-].
    apply bind_ok in Hrun as (u&s2&Hs&Hrun). apply ret_ok in Hrun as [-> ->].
    assert (∃ privateKey, stored = stored_identity deviceName privateKey available) as [privateKey ->].
    { apply result_bind_ok in Hn as (privateKey&_&[= <- <-]). by exists privateKey. }
    destruct (Hsave _ _ _ _ _ _ Hs) as (raw&Hfile&Hraw). exists (utf8 raw). split; [done|].
    rewrite text_of_utf8. by eapply read_back. }
  unfold mbind at 1, M_bind at 1. unfold readFile.
  destruct (unreadable path); [apply Hnew|]. destruct (AppFiles.files s !! path) as [bytes|] eqn:Hs; [|apply Hnew].
  unfold mbind at 1, option_bind at 1. destruct (read_identity (text_of bytes)) as [found'|e] eqn:Hread; [|apply Hnew].
  intros [= <- <-]. by exists bytes.
Qed.

Lemma write_file_ok fate path bytes s u s' :
  write_file fate path bytes s = (Ok u, s') → AppFiles.files s' !! path = Some bytes.
Proof.
  unfold write_file, call. destruct (AppFiles.dead s); [done|]. destruct (fate _); [|done..].
  intros [= <- <-]. apply lookup_insert_eq.
Qed.

Lemma chmod_ok fate path s u s' : chmod fate path s = (Ok u, s') → AppFiles.files s' = AppFiles.files s.
Proof.
  unfold chmod, call. destruct (AppFiles.dead s); [done|]. destruct (fate _); [|done..].
  destruct (AppFiles.files s !! path); [|done]. by intros [= <- <-].
Qed.

End keyfile.

(** C39: a device keeps its identity.  Once either platform has loaded one (an
    old one or one it has just made, wrapped by the keychain or not), every
    later start on those files loads the same key, under the same name, with
    the same word on how it is protected, and writes nothing; whatever the next
    random key would have been. *)
Theorem identity_kept `{Digest, Ed25519, Keychain} (fate fate' : nat → Fate) (unreadable : string → bool)
    (randomPrivateKey random' : Uint8Array) (deviceName name' appDataDir : string) s (found : LoadedIdentity.t) s'
    (Hlen : length randomPrivateKey = 32%nat) :
  (unreadable IDENTITY_PATH = false →
   loadIdentity fate unreadable randomPrivateKey deviceName s = (Ok found, s') →
   loadIdentity fate' unreadable random' name' (AppFiles.restart s') = (Ok found, AppFiles.restart s')) ∧
  (unreadable (join_path appDataDir IDENTITY_PATH) = false →
   loadOrCreateIdentity fate unreadable randomPrivateKey deviceName appDataDir s = (Ok found, s') →
   loadOrCreateIdentity fate' unreadable random' name' appDataDir (AppFiles.restart s') =
     (Ok found, AppFiles.restart s')).
Proof.
  split; intros Hr Hload; unfold loadIdentity, loadOrCreateIdentity in *.
  - apply load_outcome in Hload as (bytes&Hfile&Hread); [by apply (load_again _ _ _ _ _ _ _ bytes)|done|].
    intros name key encrypted s1 u s2 Hw%write_file_ok. eexists. split; [exact Hw|].
    apply JSON_parse_stringify, safe_obj. repeat constructor; simpl; lia.
  - apply load_outcome in Hload as (bytes&Hfile&Hread); [by apply (load_again _ _ _ _ _ _ _ bytes)|done|].
    intros name key encrypted s1 u s2 Hw. apply bind_ok in Hw as ([]&s3&Hw%write_file_ok&Hc%chmod_ok).
    eexists. split; [by rewrite Hc|]. apply parse_indented.
Qed.

(** ** A keychain to try it on *)

(** It puts a mark before what it wraps. *)
#[refine] Definition marking (on : bool) : Keychain := {|
  available := on;
  wrap plain := Ok ("*" +:+ plain);
  unwrap sealed := match sealed with String.String _ plain => Ok plain | EmptyString => Err "empty" end;
|}.
Proof. by intros plain sealed [= <-]. Defined.

(** The first start of a phone without a keychain and of a desktop with one. *)
Lemma identity_kept_witness :
  let key := replicate 32 Byte.x07 in
  let started := AppFiles.mk ∅ 0 false in
  let phone := loadIdentity (H := toy_digest) (H0 := toy_ed25519) (H1 := marking false) (λ _, Works) (λ _, false) key "Pixel 7" in
  let desktop := loadOrCreateIdentity (H := toy_digest) (H0 := toy_ed25519) (H1 := marking true) (λ _, Works) (λ _, false)
    key "laptop" "/home/me/.config" in
  (phone (AppFiles.restart (phone started).2)).1 = (phone started).1 ∧ is_ok (phone started).1 = true ∧
  (desktop (AppFiles.restart (desktop started).2)).1 = (desktop started).1 ∧ is_ok (desktop started).1 = true.
Proof.
  intros key started phone desktop.
  assert (is_ok (phone started).1 = true) as Hphone by (vm_compute; reflexivity).
  assert (is_ok (desktop started).1 = true) as Hdesktop by (vm_compute; reflexivity).
  destruct (phone started) as [[p|e] sp] eqn:Hp; [|discriminate Hphone].
  destruct (desktop started) as [[d|e] sd] eqn:Hd; [|discriminate Hdesktop].
  split; [|split; [reflexivity|split; [|reflexivity]]].
  - unfold phone. cbn [snd fst].
    rewrite (proj1 (identity_kept (H := toy_digest) (H0 := toy_ed25519) (H1 := marking false) (λ _, Works) (λ _, Works)
      (λ _, false) key key "Pixel 7" "Pixel 7" "" started p sp eq_refl) eq_refl Hp). reflexivity.
  - unfold desktop. cbn [snd fst].
    rewrite (proj2 (identity_kept (H := toy_digest) (H0 := toy_ed25519) (H1 := marking true) (λ _, Works) (λ _, Works)
      (λ _, false) key key "laptop" "laptop" "/home/me/.config" started d sd eq_refl) eq_refl Hd). reflexivity.
Defined.
