(* ===== verification/RateLimit.v ===== *)
(** * The rate limiter of the signaling server

    apps/signaling/src/rateLimit.ts: a bucket of tokens for each client.  Tokens
    are IEEE doubles: a finite double is a rational, and an operation is the
    exact one followed by [nearest] of Json.v, the rounding to 53 bits.  Times are whole
    milliseconds.  Overflow is not modelled: the numbers of a limiter stay far
    under it. *)

From S2P Require Import Prelude Model JsString Json ShortCodeProps.
From Stdlib Require Export QArith Qminmax.
From Stdlib Require Import QArith Qabs Qminmax Lqa.

Open Scope Z_scope.

(** ** RateLimiter *)

Module Bucket.
Record t : Type := mk {
  tokens : Q;
  updatedAt : Z;
}.
End Bucket.

Definition MAX_BUCKETS : Z := 100000.

Section limiter.
Context (capacity refillPerSecond : Q).

(** [take], at the time [at_]. *)
Definition take_token (key : string) (at_ : Z) (buckets : gmap string Bucket.t) : bool * gmap string Bucket.t :=
  let buckets := if MAX_BUCKETS <? Z.of_nat (base.size buckets) then ∅ else buckets in
  let bucket := default (Bucket.mk capacity at_) (buckets !! key) in
  let seconds := nearest (inject_Z (at_ - Bucket.updatedAt bucket) / 1000) in
  let refilled := Qmin capacity
    (nearest (Bucket.tokens bucket + nearest (seconds * refillPerSecond))) in
  if Qle_bool 1 refilled
  then (true, <[key := Bucket.mk (nearest (refilled - 1)) at_]> buckets)
  else (false, <[key := Bucket.mk refilled at_]> buckets).

(** A run of takes, each with its verdict. *)
Fixpoint takes (calls : list (string * Z)) (buckets : gmap string Bucket.t) : list bool * gmap string Bucket.t :=
  match calls with
  | [] => ([], buckets)
  | (key, at_) :: calls =>
      let '(verdict, buckets) := take_token key at_ buckets in
      let '(verdicts, buckets) := takes calls buckets in
      (verdict :: verdicts, buckets)
  end.
End limiter.

(** ** clientKey *)

(** The header [x-forwarded-for]: absent, one text or several. *)
Inductive Forwarded : Type := no_header | header (value : string) | headers (values : list string).

(** [text.split(",")]. *)
Fixpoint split_commas (l : list Z) : list (list Z) :=
  match l with
  | [] => [[]]
  | c :: l =>
      match split_commas l with
      | part :: parts => if c =? 44 then [] :: part :: parts else (c :: part) :: parts
      | [] => [[c]]
      end
  end.

Definition hops (raw : string) : list string :=
  filter (λ hop, hop ≠ EmptyString) ((λ part, trim (of_units part)) <$> split_commas (to_units raw)).

Definition clientKey (forwarded : Forwarded) (remoteAddress : option string) (trustProxy : bool) : string :=
  let nearest :=
    if trustProxy then
      let raw := match forwarded with
                 | no_header => None
                 | header value => Some value
                 | headers values => last values
                 end in
      last (hops (default EmptyString raw))
    else None in
  match nearest with
  | Some hop => hop
  | None => default "unknown" remoteAddress
  end.

(** The limiters of the server. *)
Definition roomLimiter := take_token 20 (1 # 2).
Definition codeLimiter := take_token 60 2.

(** ** What it guarantees *)

(** ** Rounding *)

Lemma round_half_even_error n d : 0 <= n → 0 < d → Z.abs (2 * (round_half_even n d * d - n)) <= d.
Proof.
  intros Hn Hd. pose proof (Z.div_mod n d ltac:(lia)) as Hdm. pose proof (Z.mod_pos_bound n d Hd).
  unfold round_half_even. destruct (Z.ltb_spec (2 * (n mod d)) d); [lia|].
  destruct (Z.ltb_spec d (2 * (n mod d))); [lia|]. destruct (Z.even (n / d)); lia.
Qed.

Lemma round_half_even_nonneg n d : 0 <= n → 0 < d → 0 <= round_half_even n d.
Proof.
  intros Hn Hd. pose proof (Z.div_pos n d Hn Hd). unfold round_half_even. repeat case_match; lia.
Qed.

(** The last bit of a double is no more than its 2^52-th part, or is that of the
    smallest doubles. *)
Lemma ulp_exponent_spec n d : 0 < n → 0 < d →
  -1074 <= ulp_exponent n d ∧
  (ulp_exponent n d = -1074 ∨ d * 2 ^ (ulp_exponent n d + 1074 + 52) <= n * 2 ^ 1074).
Proof.
  intros Hn Hd. unfold ulp_exponent. set (k0 := Z.log2 n - Z.log2 d - 52). set (M := 1074).
  assert (0 <= M) as HM by (unfold M; lia).
  destruct (Z.log2_spec n Hn) as [Hn1 Hn2]. destruct (Z.log2_spec d Hd) as [Hd1 Hd2].
  pose proof (Z.log2_nonneg n). pose proof (Z.log2_nonneg d).
  set (below := if 0 <=? k0 + 52 then _ else _).
  set (k := if below then k0 - 1 else k0). split; [lia|].
  destruct (Z.max_spec (-1074) k) as [[Hk ->]|[_ ->]]; [right|by left]. fold M.
  assert (0 <= k + M) as HkM by (unfold M; lia).
  destruct below eqn:Hbelow; subst k.
  - apply Z.le_trans with (2 ^ (Z.log2 d + 1) * 2 ^ (k0 - 1 + M + 52)).
    { apply Z.mul_le_mono_nonneg_r; [apply Z.pow_nonneg; lia|]. rewrite <-Z.add_1_r in Hd2. lia. }
    rewrite <-Z.pow_add_r by lia. replace (Z.log2 d + 1 + (k0 - 1 + M + 52)) with (Z.log2 n + M) by lia.
    rewrite Z.pow_add_r by lia. apply Z.mul_le_mono_nonneg_r; [apply Z.pow_nonneg; lia|lia].
  - subst below. destruct (Z.leb_spec 0 (k0 + 52)) as [H52|H52].
    + apply Z.ltb_ge in Hbelow. replace (k0 + M + 52) with (k0 + 52 + M) by lia. rewrite Z.pow_add_r by lia.
      rewrite Z.mul_assoc. apply Z.mul_le_mono_nonneg_r; [apply Z.pow_nonneg; lia|lia].
    + apply Z.ltb_ge in Hbelow. replace (2 ^ M) with (2 ^ (- (k0 + 52)) * 2 ^ (k0 + M + 52)).
      2:{ rewrite <-Z.pow_add_r by lia. f_equal. lia. }
      rewrite Z.mul_assoc. apply Z.mul_le_mono_nonneg_r; [apply Z.pow_nonneg; lia|lia].
Qed.

Definition eps : Q := 1 # 9007199254740992.
Definition tiny : Q := 1 # 1267650600228229401496703205376.

Lemma frac_error (a c : Z) (b d : positive) :
  Z.abs (a * Zpos d - c * Zpos b) * 2 ^ 53 <= Z.abs c * Zpos b →
  (Qabs (Qmake a b - Qmake c d) <= Qabs (Qmake c d) * eps)%Q.
Proof.
  intros He. unfold Qle, Qminus, Qabs, Qplus, Qopp, Qmult, eps. cbn [Qnum Qden].
  rewrite !Pos2Z.inj_mul. change (2 ^ 53) with 9007199254740992 in He.
  replace (a * Zpos d + - c * Zpos b) with (a * Zpos d - c * Zpos b) by lia. nia.
Qed.

Lemma frac_tiny (a c : Z) (b d : positive) :
  2 * Z.abs (a * Zpos d - c * Zpos b) <= Zpos d → 2 ^ 100 <= Zpos b →
  (Qabs (Qmake a b - Qmake c d) <= tiny)%Q.
Proof.
  intros He Hb. unfold Qle, Qminus, Qabs, Qplus, Qopp, tiny. cbn [Qnum Qden].
  rewrite !Pos2Z.inj_mul. change (2 ^ 100) with 1267650600228229401496703205376 in Hb.
  replace (a * Zpos d + - c * Zpos b) with (a * Zpos d - c * Zpos b) by lia. nia.
Qed.

(** Rounding loses at most half of the last bit. *)
Lemma nearest_error (q : Q) : (Qabs (nearest q - q) <= Qabs q * eps + tiny)%Q.
Proof.
  assert (∀ x : Q, 0 <= Qabs x * eps)%Q as Hnonneg.
  { intros x. apply Qmult_le_0_compat; [apply Qabs_nonneg|done]. }
  assert (0 <= tiny)%Q as Htiny by done.
  destruct q as [z d]. unfold nearest. cbn [Qnum Qden]. destruct (Z.eqb_spec (Z.abs z) 0) as [Hz|Hz].
  { assert (z = 0) as -> by lia. unfold Qle, Qabs, Qminus, Qplus, Qopp, Qmult, eps, tiny. simpl. lia. }
  set (n := Z.abs z) in *. assert (z = Z.sgn z * n) as Hzn by (unfold n; rewrite Z.mul_comm; symmetry; apply Z.abs_sgn).
  assert (Z.abs (Z.sgn z) = 1) as Hs by (destruct z; done).
  destruct (ulp_exponent_spec n (Zpos d)) as [Hk Hulp]; [lia|done|]. set (k := ulp_exponent n (Zpos d)) in *.
  pose proof (Z.pow_pos_nonneg 2 1074 ltac:(lia) ltac:(lia)) as HM.
  destruct (Z.leb_spec 0 k) as [Hk0|Hk0].
  - destruct Hulp as [Hulp|Hulp]; [lia|].
    pose proof (Z.pow_pos_nonneg 2 k ltac:(lia) Hk0) as Hpk.
    pose proof (round_half_even_error n (Zpos d * 2 ^ k) ltac:(lia) ltac:(nia)) as Hr.
    set (m := round_half_even n (Zpos d * 2 ^ k)) in *.
    assert (Zpos d * 2 ^ k * 2 ^ 52 <= n) as Hdn.
    { replace (k + 1074 + 52) with (k + 52 + 1074) in Hulp by lia. rewrite !Z.pow_add_r in Hulp by lia.
      apply (Z.mul_le_mono_pos_r _ _ (2 ^ 1074)); [done|]. lia. }
    apply (Qle_trans _ (Qabs (Qmake z d) * eps)%Q); [|rewrite <-(Qplus_0_r (_ * eps)) at 1; by apply Qplus_le_r].
    unfold inject_Z. apply frac_error. fold n.
    replace (Z.sgn z * (m * 2 ^ k) * Zpos d - z * 1) with (Z.sgn z * (m * (Zpos d * 2 ^ k) - n))
      by (rewrite Hzn at 3; ring).
    rewrite Z.abs_mul, Hs, Z.mul_1_l, Z.mul_1_r. change (2 ^ 53) with (2 * 2 ^ 52).
    rewrite Z.abs_mul in Hr. change (Z.abs 2) with 2 in Hr. lia.
  - pose proof (Z.pow_pos_nonneg 2 (- k) ltac:(lia) ltac:(lia)) as Hpk.
    pose proof (round_half_even_error (n * 2 ^ (- k)) (Zpos d) ltac:(nia) ltac:(done)) as Hr.
    set (m := round_half_even (n * 2 ^ (- k)) (Zpos d)) in *.
    assert (Zpos (Z.to_pos (2 ^ (- k))) = 2 ^ (- k)) as Hpos by by apply Z2Pos.id.
    assert (Z.abs (Z.sgn z * m * Zpos d - z * 2 ^ (- k)) = Z.abs (m * Zpos d - n * 2 ^ (- k))) as Habs.
    { rewrite Hzn at 2. replace (Z.sgn z * m * Zpos d - Z.sgn z * n * 2 ^ (- k))
        with (Z.sgn z * (m * Zpos d - n * 2 ^ (- k))) by ring. by rewrite Z.abs_mul, Hs, Z.mul_1_l. }
    rewrite Z.abs_mul in Hr. change (Z.abs 2) with 2 in Hr. destruct Hulp as [Hulp|Hulp].
    + apply (Qle_trans _ tiny); [|rewrite <-(Qplus_0_l tiny) at 1; by apply Qplus_le_l].
      apply frac_tiny; rewrite Hpos; [rewrite Habs; lia|]. rewrite Hulp. apply Z.pow_le_mono_r; lia.
    + apply (Qle_trans _ (Qabs (Qmake z d) * eps)%Q); [|rewrite <-(Qplus_0_r (_ * eps)) at 1; by apply Qplus_le_r].
      apply frac_error. rewrite Hpos, Habs. fold n. change (2 ^ 53) with (2 * 2 ^ 52).
      assert (Zpos d * 2 ^ 52 <= n * 2 ^ (- k)); [|lia].
      apply (Z.mul_le_mono_pos_r _ _ (2 ^ (k + 1074))); [apply Z.pow_pos_nonneg; lia|].
      rewrite <-!Z.mul_assoc, <-!Z.pow_add_r by lia.
      replace (52 + (k + 1074)) with (k + 1074 + 52) by lia. replace (- k + (k + 1074)) with 1074 by lia. done.
Qed.

Lemma nearest_nonneg (q : Q) : (0 <= q → 0 <= nearest q)%Q.
Proof.
  destruct q as [z d]. intros Hq. unfold Qle in Hq. cbn [Qnum Qden] in Hq. unfold nearest. cbn [Qnum Qden].
  destruct (Z.eqb_spec (Z.abs z) 0); [done|]. assert (Z.sgn z = 1) as -> by (apply Z.sgn_pos; lia).
  destruct (Z.leb_spec 0 (ulp_exponent (Z.abs z) (Zpos d))) as [Hk|Hk]; unfold Qle, inject_Z; cbn [Qnum Qden].
  - pose proof (Z.pow_pos_nonneg 2 _ ltac:(lia) Hk).
    pose proof (round_half_even_nonneg (Z.abs z) (Zpos d * 2 ^ ulp_exponent (Z.abs z) (Zpos d)) ltac:(lia) ltac:(nia)). nia.
  - pose proof (Z.pow_pos_nonneg 2 (- ulp_exponent (Z.abs z) (Zpos d)) ltac:(lia) ltac:(lia)).
    pose proof (round_half_even_nonneg (Z.abs z * 2 ^ (- ulp_exponent (Z.abs z) (Zpos d))) (Zpos d) ltac:(nia) ltac:(done)).
    lia.
Qed.

Lemma nearest_bounds (q : Q) : (0 <= q → 0 <= nearest q ∧ nearest q <= q * (1 + eps) + tiny)%Q.
Proof.
  intros Hq. split; [by apply nearest_nonneg|]. pose proof (nearest_error q) as He.
  rewrite (Qabs_pos q) in He by done. apply Qabs_Qle_condition in He as [_ He]. lra.
Qed.

(** ** One take *)

Section limiter.
Context (capacity refill : Q).
Context (capacity_bounds : (1 <= capacity <= 1024)%Q) (refill_bounds : (0 <= refill <= 1024)%Q).

(** What a time in milliseconds refills, in exact arithmetic. *)
Definition refills (ms : Z) : Q := (inject_Z ms / 1000 * refill)%Q.

Lemma refills_nonneg ms : 0 <= ms → (0 <= refills ms)%Q.
Proof.
  intros Hms. unfold refills. apply Qmult_le_0_compat; [|apply refill_bounds].
  unfold Qdiv. apply Qmult_le_0_compat; [|done]. unfold Qle, inject_Z. simpl. lia.
Qed.

(** What is lost by rounding, at a take. *)
Definition slack : Q := (4 * capacity * eps)%Q.

Lemma refilled_bounds (tokens : Q) (ms : Z) :
  (0 <= tokens <= capacity)%Q → 0 <= ms →
  let refilled := Qmin capacity (nearest (tokens + nearest (nearest (inject_Z ms / 1000) * refill))) in
  (0 <= refilled <= capacity)%Q ∧ (refilled <= tokens + refills ms * (1 + 4 * eps) + 2 * capacity * eps)%Q.
Proof.
  intros [Ht0 Ht] Hms refilled. destruct capacity_bounds as [Hc Hc'], refill_bounds as [Hr Hr'].
  assert (0 <= inject_Z ms / 1000)%Q as Hx.
  { unfold Qdiv. apply Qmult_le_0_compat; [|done]. unfold Qle, inject_Z. simpl. lia. }
  pose proof (refills_nonneg ms Hms) as Hy. unfold refills in *. set (x := (inject_Z ms / 1000)%Q) in *.
  destruct (nearest_bounds x Hx) as [Hs0 Hs]. set (s := nearest x) in *.
  assert (0 <= s * refill)%Q as Hsr0 by by apply Qmult_le_0_compat.
  assert (s * refill <= (x * refill) * (1 + eps) + tiny * refill)%Q as Hsr.
  { apply (Qle_trans _ ((x * (1 + eps) + tiny) * refill)); [by apply Qmult_le_compat_r|]. lra. }
  destruct (nearest_bounds _ Hsr0) as [Hp0 Hp]. set (p := nearest (s * refill)) in *.
  assert (0 <= tokens + p)%Q as Htp0 by lra. destruct (nearest_bounds _ Htp0) as [HR0 HR].
  set (R := nearest (tokens + p)) in *. set (y := (x * refill)%Q) in *. set (z := (s * refill)%Q) in *.
  assert (refilled <= R)%Q as HrR by apply Q.le_min_r.
  split; [split; [apply Q.min_glb; lra|apply Q.le_min_l]|].
  apply (Qle_trans _ R); [done|]. unfold eps, tiny in *. lra.
Qed.

(** Whether a take is granted, and what it leaves. *)
Lemma take_bounds key at_ buckets :
  Z.of_nat (base.size buckets) <= MAX_BUCKETS →
  let old := default (Bucket.mk capacity at_) (buckets !! key) in
  (0 <= Bucket.tokens old <= capacity)%Q → Bucket.updatedAt old <= at_ →
  let '(verdict, after) := take_token capacity refill key at_ buckets in
  ∃ tokens, after = <[key := Bucket.mk tokens at_]> buckets ∧ (0 <= tokens <= capacity)%Q ∧
    ((if verdict then 1 else 0) + tokens <=
       Bucket.tokens old + refills (at_ - Bucket.updatedAt old) * (1 + 4 * eps) + slack)%Q ∧
    ((if verdict then 1 else 0) + tokens <= capacity + slack)%Q.
Proof.
  intros Hsize old Htokens Hat. unfold take_token.
  rewrite (proj2 (Z.ltb_ge MAX_BUCKETS _)) by lia. fold old.
  destruct (refilled_bounds (Bucket.tokens old) (at_ - Bucket.updatedAt old) Htokens ltac:(lia)) as [[H0 HC] Hle].
  set (refilled := Qmin capacity _) in *. destruct capacity_bounds as [Hc Hc'].
  destruct (Qle_bool 1 refilled) eqn:Hq; eexists; (split; [reflexivity|]); unfold slack.
  - apply Qle_bool_iff in Hq. destruct (nearest_bounds (refilled - 1) ltac:(lra)) as [Hn0 Hn].
    set (left := nearest (refilled - 1)) in *.
    set (y := refills _) in *. unfold eps, tiny in *. lra.
  - pose proof (refills_nonneg (at_ - Bucket.updatedAt old) ltac:(lia)) as Hy. set (y := refills _) in *.
    unfold eps, tiny in *. lra.
Qed.

Lemma refills_add a b : (refills (a + b) == refills a + refills b)%Q.
Proof. unfold refills. rewrite inject_Z_plus. field. Qed.

(** ** Runs *)

(** The tokens of every bucket are within bounds, and no time is ahead. *)
Definition sound (t : Z) (buckets : gmap string Bucket.t) : Prop :=
  map_Forall (λ _ b, (0 <= Bucket.tokens b <= capacity)%Q ∧ Bucket.updatedAt b <= t) buckets.

(** The clock of the calls does not go back. *)
Fixpoint clock_runs (t : Z) (calls : list (string * Z)) : Prop :=
  match calls with
  | [] => True
  | (_, at_) :: calls => t <= at_ ∧ clock_runs at_ calls
  end.

(** How often a key was granted. *)
Fixpoint granted (key : string) (calls : list (string * Z)) (verdicts : list bool) : Z :=
  match calls, verdicts with
  | (k, _) :: calls, v :: verdicts =>
      (if bool_decide (k = key) && v then 1 else 0) + granted key calls verdicts
  | _, _ => 0
  end.

(** The last time of a run. *)
Fixpoint last_time (t : Z) (calls : list (string * Z)) : Z :=
  match calls with [] => t | (_, at_) :: calls => last_time at_ calls end.

Context (keys : gset string) (few : Z.of_nat (base.size keys) <= MAX_BUCKETS).

Lemma size_few (buckets : gmap string Bucket.t) : dom buckets ⊆ keys → Z.of_nat (base.size buckets) <= MAX_BUCKETS.
Proof.
  intros Hdom. etrans; [|exact few]. apply Nat2Z.inj_le. rewrite <-size_dom. by apply subseteq_size.
Qed.

Lemma sound_old t buckets key at_ : sound t buckets → t <= at_ →
  let old := default (Bucket.mk capacity at_) (buckets !! key) in
  (0 <= Bucket.tokens old <= capacity)%Q ∧ Bucket.updatedAt old <= at_.
Proof.
  intros Hs Ht. destruct (buckets !! key) as [b|] eqn:Hb; simpl.
  - destruct (Hs key b Hb). split; [done|lia].
  - destruct capacity_bounds. split; [split; lra|lia].
Qed.

Lemma take_sound t buckets key at_ : sound t buckets → t <= at_ → dom buckets ⊆ keys → key ∈ keys →
  let after := (take_token capacity refill key at_ buckets).2 in
  sound at_ after ∧ dom after ⊆ keys.
Proof.
  intros Hs Ht Hdom Hkey. destruct (sound_old t buckets key at_ Hs Ht) as [Hold Hat].
  pose proof (take_bounds key at_ buckets (size_few _ Hdom) Hold Hat) as Htake.
  destruct (take_token capacity refill key at_ buckets) as [v after].
  destruct Htake as (tokens&->&Htokens&_). simpl. split; [|set_solver].
  apply map_Forall_insert_2; [split; [done|simpl; lia]|].
  eapply map_Forall_impl; [exact Hs|]. intros k b [? ?]. split; [done|lia].
Qed.

Lemma takes_sound t calls buckets : sound t buckets → clock_runs t calls → dom buckets ⊆ keys →
  Forall (λ c, c.1 ∈ keys) calls →
  sound (last_time t calls) (takes capacity refill calls buckets).2 ∧ dom (takes capacity refill calls buckets).2 ⊆ keys.
Proof.
  revert t buckets. induction calls as [|[key at_] calls IH]; intros t buckets Hs Hc Hdom Hk; [done|].
  destruct Hc as [Ht Hc]. apply Forall_cons in Hk as [Hkey Hk].
  destruct (take_sound t buckets key at_ Hs Ht Hdom Hkey) as [Hs' Hdom']. cbn [takes].
  destruct (take_token capacity refill key at_ buckets) as [v after]. simpl in Hs', Hdom'.
  specialize (IH at_ after Hs' Hc Hdom' Hk). by destruct (takes capacity refill calls after) as [vs final].
Qed.

(** From a bucket that is there. *)
Lemma granted_from t calls buckets key b until :
  sound t buckets → clock_runs t calls → dom buckets ⊆ keys → Forall (λ c, c.1 ∈ keys) calls →
  Forall (λ c, c.2 <= until) calls → t <= until → buckets !! key = Some b →
  (inject_Z (granted key calls (takes capacity refill calls buckets).1) <=
   Bucket.tokens b + refills (until - Bucket.updatedAt b) * (1 + 4 * eps) + slack * inject_Z (Z.of_nat (length calls)))%Q.
Proof.
  revert t buckets b. induction calls as [|[key' at_] calls IH]; intros t buckets b Hs Hc Hdom Hk Hu Htu Hb.
  { destruct (Hs key b Hb) as [[Hb0 _] Hbt]. pose proof (refills_nonneg (until - Bucket.updatedAt b) ltac:(lia)) as Hy.
    cbn [granted takes length]. change (inject_Z (Z.of_nat 0)) with 0%Q. change (inject_Z 0) with 0%Q.
    set (y := refills _) in *. unfold eps. lra. }
  destruct Hc as [Ht Hc]. apply Forall_cons in Hk as [Hkey Hk]. apply Forall_cons in Hu as [Hat Hu]. simpl in Hkey, Hat.
  destruct (take_sound t buckets key' at_ Hs Ht Hdom Hkey) as [Hs' Hdom'].
  destruct (sound_old t buckets key' at_ Hs Ht) as [Hold Hupd].
  pose proof (take_bounds key' at_ buckets (size_few _ Hdom) Hold Hupd) as Htake. cbn [takes].
  destruct (take_token capacity refill key' at_ buckets) as [v after].
  destruct Htake as (tokens&Hafter&Htokens&Hle&_). cbn [snd] in Hs', Hdom'.
  cbn [length]. rewrite Nat2Z.inj_succ, <-Z.add_1_l, inject_Z_plus.
  assert (0 <= slack)%Q as Hslack by (unfold slack, eps; destruct capacity_bounds; lra).
  destruct (decide (key' = key)) as [->|Hne].
  - specialize (IH at_ after (Bucket.mk tokens at_) Hs' Hc Hdom' Hk Hu Hat).
    rewrite Hafter in *. rewrite lookup_insert_eq in IH. specialize (IH eq_refl). cbn [Bucket.tokens Bucket.updatedAt] in IH.
    destruct (takes capacity refill calls _) as [vs final]. cbn [fst granted] in *. rewrite bool_decide_true by done.
    rewrite Hb in Hle. cbn [default from_option] in Hle. unfold id in Hle.
    replace (until - Bucket.updatedAt b) with ((until - at_) + (at_ - Bucket.updatedAt b)) by lia.
    rewrite refills_add, inject_Z_plus. change (inject_Z 1) with 1%Q.
    set (y1 := refills (until - at_)) in *. set (y2 := refills (at_ - Bucket.updatedAt b)) in *.
    set (g := inject_Z (granted key calls vs)) in *. set (n := inject_Z (Z.of_nat (length calls))) in *.
    set (sn := (slack * n)%Q) in *. assert (slack * (1 + n) == slack + sn)%Q as -> by (unfold sn; ring).
    unfold eps in *. destruct v; simpl andb in *; cbv iota in *; change (inject_Z 1) with 1%Q; change (inject_Z 0) with 0%Q; lra.
  - assert (after !! key = Some b) as Hb' by (rewrite Hafter; by rewrite lookup_insert_ne).
    specialize (IH at_ after b Hs' Hc Hdom' Hk Hu Hat Hb').
    destruct (takes capacity refill calls after) as [vs final]. cbn [fst granted] in *. rewrite bool_decide_false by done.
    simpl andb. cbv iota. rewrite Z.add_0_l. change (inject_Z 1) with 1%Q.
    set (sn := (slack * inject_Z (Z.of_nat (length calls)))%Q) in *.
    assert (slack * (1 + inject_Z (Z.of_nat (length calls))) == slack + sn)%Q as -> by (unfold sn; ring). lra.
Qed.

(** From the first grant of a window. *)
Lemma granted_window t calls buckets key first until :
  sound t buckets → clock_runs t calls → dom buckets ⊆ keys → Forall (λ c, c.1 ∈ keys) calls →
  Forall (λ c, first <= c.2 <= until) calls → first <= until →
  (inject_Z (granted key calls (takes capacity refill calls buckets).1) <=
   capacity + refills (until - first) * (1 + 4 * eps) + slack * inject_Z (Z.of_nat (length calls)))%Q.
Proof.
  revert t buckets. induction calls as [|[key' at_] calls IH]; intros t buckets Hs Hc Hdom Hk Hu Hfu.
  { pose proof (refills_nonneg (until - first) ltac:(lia)) as Hy. destruct capacity_bounds.
    cbn [granted takes length]. change (inject_Z (Z.of_nat 0)) with 0%Q. change (inject_Z 0) with 0%Q.
    set (y := refills _) in *. unfold eps. lra. }
  destruct Hc as [Ht Hc]. apply Forall_cons in Hk as [Hkey Hk]. apply Forall_cons in Hu as [[Hf Hat] Hu].
  simpl in Hkey, Hf, Hat.
  destruct (take_sound t buckets key' at_ Hs Ht Hdom Hkey) as [Hs' Hdom'].
  destruct (sound_old t buckets key' at_ Hs Ht) as [Hold Hupd].
  pose proof (take_bounds key' at_ buckets (size_few _ Hdom) Hold Hupd) as Htake. cbn [takes].
  destruct (take_token capacity refill key' at_ buckets) as [v after].
  destruct Htake as (tokens&Hafter&Htokens&_&Hle). cbn [snd] in Hs', Hdom'.
  cbn [length]. rewrite Nat2Z.inj_succ, <-Z.add_1_l, inject_Z_plus. change (inject_Z 1) with 1%Q.
  assert (0 <= slack)%Q as Hslack by (unfold slack, eps; destruct capacity_bounds; lra).
  set (sn := (slack * inject_Z (Z.of_nat (length calls)))%Q).
  assert (slack * (1 + inject_Z (Z.of_nat (length calls))) == slack + sn)%Q as -> by (unfold sn; ring).
  destruct (decide (key' = key)) as [->|Hne].
  - pose proof (granted_from at_ calls after key (Bucket.mk tokens at_) until Hs' Hc Hdom' Hk
      ltac:(eapply Forall_impl; [exact Hu|]; simpl; lia) Hat ltac:(rewrite Hafter; apply lookup_insert_eq)) as Hrest.
    cbn [Bucket.tokens Bucket.updatedAt] in Hrest. fold sn in Hrest.
    destruct (takes capacity refill calls after) as [vs final]. cbn [fst granted] in *. rewrite bool_decide_true by done.
    pose proof (refills_nonneg (at_ - first) ltac:(lia)) as Hy2.
    replace (until - first) with ((until - at_) + (at_ - first)) by lia. rewrite refills_add, inject_Z_plus.
    set (y1 := refills (until - at_)) in *. set (y2 := refills (at_ - first)) in *.
    set (g := inject_Z (granted key calls vs)) in *. unfold eps in *.
    destruct v; simpl andb in *; cbv iota in *; change (inject_Z 1) with 1%Q; change (inject_Z 0) with 0%Q; lra.
  - specialize (IH at_ after Hs' Hc Hdom' Hk Hu Hfu). fold sn in IH.
    destruct (takes capacity refill calls after) as [vs final]. cbn [fst granted] in *. rewrite bool_decide_false by done.
    simpl andb. cbv iota. rewrite Z.add_0_l. lra.
Qed.
End limiter.

(** C40: how much one client gets.  On a clock that does not go back, and with no
    more clients than the limiter keeps buckets for, no bucket ever holds less
    than nothing or more than the capacity; and in any stretch of time, whatever
    was asked before it and however the other clients ask in between, one client
    is granted at most the capacity and what that time refills, and one more:
    all that the rounding of doubles can add up to. *)
Theorem burst_bounded (capacity refill : Q) (pre window : list (string * Z)) (key : string)
    (keys : gset string) (t0 first until : Z)
    (Hcapacity : (1 <= capacity <= 1024)%Q) (Hrefill : (0 <= refill <= 1024)%Q)
    (Hfew : Z.of_nat (base.size keys) <= MAX_BUCKETS) (Hkeys : Forall (λ c, c.1 ∈ keys) (pre ++ window))
    (Hclock : clock_runs t0 (pre ++ window)) (Hwindow : Forall (λ c, first <= c.2 <= until) window)
    (Htime : 0 <= until - first <= 2 ^ 42) (Hcalls : Z.of_nat (length window) <= 2 ^ 30) :
  let before := (takes capacity refill pre ∅).2 in
  let '(verdicts, after) := takes capacity refill window before in
  (inject_Z (granted key window verdicts) <= capacity + refills refill (until - first) + 1)%Q ∧
  map_Forall (λ _ b, (0 <= Bucket.tokens b <= capacity)%Q) after.
Proof.
  intros before. apply Forall_app in Hkeys as [Hkpre Hkwin].
  assert (clock_runs t0 pre ∧ clock_runs (last_time t0 pre) window) as [Hcpre Hcwin].
  { revert Hclock. clear. revert t0. induction pre as [|[k at_] pre IH]; intros t0; [done|].
    intros [Ht Hc]. apply IH in Hc as [? ?]. by split_and!. }
  assert (sound capacity t0 ∅) as Hs0 by apply map_Forall_empty.
  assert (dom (∅ : gmap string Bucket.t) ⊆ keys) as Hd0 by set_solver.
  destruct (takes_sound capacity refill Hcapacity Hrefill keys Hfew t0 pre ∅ Hs0 Hcpre Hd0 Hkpre) as [Hs1 Hd1].
  fold before in Hs1, Hd1.
  destruct (takes_sound capacity refill Hcapacity Hrefill keys Hfew _ window before Hs1 Hcwin Hd1 Hkwin) as [Hs2 _].
  pose proof (granted_window capacity refill Hcapacity Hrefill keys Hfew _ window before key first until Hs1 Hcwin Hd1
    Hkwin Hwindow ltac:(lia)) as Hg.
  destruct (takes capacity refill window before) as [verdicts after]. cbn [fst snd] in *. split.
  - assert (refills refill (until - first) <= (4398046511104 # 1000) * 1024)%Q as Hy.
    { unfold refills. apply Qmult_le_compat_nonneg; (split; [|]).
      - unfold Qle, Qdiv, inject_Z, Qmult, Qinv. simpl. lia.
      - unfold Qle, Qdiv, inject_Z, Qmult, Qinv. simpl. lia.
      - apply Hrefill.
      - apply Hrefill. }
    assert (slack capacity * inject_Z (Z.of_nat (length window)) <= (4 * 1024 * eps) * inject_Z (2 ^ 30))%Q as Hn.
    { apply Qmult_le_compat_nonneg; (split; [|]).
      - unfold slack, eps. destruct Hcapacity. lra.
      - unfold slack, eps. destruct Hcapacity. lra.
      - unfold Qle, inject_Z. simpl. lia.
      - unfold Qle, inject_Z. simpl. lia. }
    change (inject_Z (2 ^ 30)) with (1073741824 # 1)%Q in Hn. set (y := refills _ _) in *.
    set (sn := (slack capacity * inject_Z (Z.of_nat (length window)))%Q) in *. unfold eps in *. lra.
  - eapply map_Forall_impl; [exact Hs2|]. by intros k b [? _].
Qed.

(** Twenty-two requests at once, with another client's among them, and one four
    seconds later. *)
Definition toy_calls : list (string * Z) :=
  replicate 21 ("198.51.100.7", 0) ++ [("203.0.113.9", 1); ("198.51.100.7", 1); ("198.51.100.7", 4001)].

Lemma burst_bounded_witness :
  let verdicts := (takes 20 (1 # 2) toy_calls ∅).1 in
  granted "198.51.100.7" toy_calls verdicts = 21 ∧
  (inject_Z (granted "198.51.100.7" toy_calls verdicts) <= 20 + refills (1 # 2) (4001 - 0) + 1)%Q.
Proof.
  intros verdicts. split; [vm_compute; reflexivity|].
  assert (Forall (λ c : string * Z, c.1 ∈ ({["198.51.100.7"; "203.0.113.9"]} : gset string)) ([] ++ toy_calls)) as Hkeys.
  { refine (bool_decide_eq_true_1 _ _). vm_compute. reflexivity. }
  assert (Forall (λ c : string * Z, 0 <= c.2 <= 4001) toy_calls) as Hwindow.
  { refine (bool_decide_eq_true_1 _ _). vm_compute. reflexivity. }
  pose proof (burst_bounded 20 (1 # 2) [] toy_calls "198.51.100.7" {["198.51.100.7"; "203.0.113.9"]} 0 0 4001
    ltac:(split; vm_compute; discriminate) ltac:(split; vm_compute; discriminate) ltac:(vm_compute; discriminate)
    Hkeys ltac:(simpl; lia) Hwindow ltac:(lia) ltac:(vm_compute; discriminate)) as Hb.
  cbn [takes snd] in Hb. unfold verdicts.
  destruct (takes 20 (1 # 2) toy_calls ∅) as [vs after]. exact (proj1 Hb).
Defined.

(** ** Whose bucket it is *)

Lemma split_commas_some l : ∃ part parts, split_commas l = part :: parts.
Proof.
  induction l as [|c l (part&parts&IH)]; [by do 2 eexists|]. simpl. rewrite IH.
  destruct (c =? 44); by do 2 eexists.
Qed.

Lemma split_commas_app a b : split_commas (a ++ 44 :: b) = split_commas a ++ split_commas b.
Proof.
  induction a as [|c a IH]; simpl.
  - by destruct (split_commas_some b) as (part&parts&->).
  - rewrite IH. destruct (split_commas_some a) as (part&parts&->). simpl. by destruct (c =? 44).
Qed.

Lemma split_commas_single l : 44 ∉ l → split_commas l = [l].
Proof.
  induction l as [|c l IH]; [done|]. rewrite not_elem_of_cons. intros [Hc Hl]. simpl. rewrite IH by done.
  by destruct (Z.eqb_spec c 44).
Qed.

Lemma to_units_app s t : is_text s → is_text t → to_units (s +:+ t) = to_units s ++ to_units t.
Proof.
  intros (l&->&Hl) (k&->&Hk). rewrite <-of_points_app. unfold to_units.
  rewrite !to_of_points by (done || by apply Forall_app). by rewrite bind_app.
Qed.

(** A client cannot choose its bucket.  Without a proxy the header counts
    for nothing; behind a proxy, which appends the address it saw, that address
    is the key, whatever the client wrote in the header before it. *)
Theorem client_cannot_choose (claimed real : string) (remoteAddress : option string) (f f' : Forwarded)
    (Hclaimed : is_text claimed) (Hreal : is_text real) (Hcomma : 44 ∉ to_units real)
    (Hsome : trim real ≠ EmptyString) :
  clientKey f remoteAddress false = clientKey f' remoteAddress false ∧
  clientKey (header (claimed +:+ ", " +:+ real)) remoteAddress true = trim real ∧
  clientKey (header real) remoteAddress true = trim real.
Proof.
  assert (is_text ", ") as Hsep.
  { exists [44; 32]. split; [reflexivity|]. repeat constructor; unfold point_code; lia. }
  assert (Forall unit16 (to_units real)) as Hunits by by apply to_units_text.
  assert (trim (of_units (to_units real)) = trim real) as Hsame by (unfold trim; by rewrite to_of_units16).
  assert (trim (of_units (32 :: to_units real)) = trim real) as Htrim.
  { unfold trim. rewrite to_of_units16 by (constructor; [unfold unit16; lia|done]). reflexivity. }
  assert (∀ parts last_part, trim (of_units last_part) = trim real →
    last (filter (λ hop, hop ≠ EmptyString) ((λ part, trim (of_units part)) <$> parts ++ [last_part])) = Some (trim real))
    as Hlast.
  { intros parts last_part Hp. rewrite fmap_app, filter_app. cbn [fmap list_fmap]. rewrite Hp.
    rewrite filter_cons_True by done. by rewrite filter_nil, last_snoc. }
  split; [done|]. unfold clientKey. cbn [default from_option]. unfold id, hops.
  assert (44 ∉ 32 :: to_units real) as Hc by (rewrite not_elem_of_cons; done). split.
  - rewrite (to_units_app claimed (", " +:+ real)), (to_units_app ", " real) by
      (done || (destruct Hsep as (l&->&Hl), Hreal as (k&->&Hk); exists (l ++ k); rewrite of_points_app;
        split; [done|by apply Forall_app])).
    change (to_units ", ") with [44; 32]. change ([44; 32] ++ to_units real) with (44 :: (32 :: to_units real)).
    rewrite split_commas_app, (split_commas_single (32 :: _)) by done. by rewrite Hlast.
  - rewrite split_commas_single by done. pose proof (Hlast [] _ Hsame) as Hl. cbn [app] in Hl. by rewrite Hl.
Qed.

Lemma client_cannot_choose_witness :
  clientKey (header "203.0.113.9, 198.51.100.7") None true = "198.51.100.7".
Proof.
  assert (∀ s, is_ascii s → is_text s) as Htext.
  { intros s Hs. exists (charCode <$> chars s). split; [by rewrite of_to_points_ascii|].
    apply Forall_fmap. eapply Forall_impl; [exact Hs|]. unfold ascii_code, point_code. simpl. lia. }
  assert (is_ascii "203.0.113.9" ∧ is_ascii "198.51.100.7") as [H1 H2].
  { split; refine (bool_decide_eq_true_1 _ _); vm_compute; reflexivity. }
  etrans; [exact (proj1 (proj2 (client_cannot_choose "203.0.113.9" "198.51.100.7" None no_header no_header
    (Htext _ H1) (Htext _ H2) ltac:(refine (bool_decide_eq_true_1 _ _); vm_compute; reflexivity)
    ltac:(vm_compute; discriminate))))|]. vm_compute. reflexivity.
Defined.
